(* ===== verification/_CoqProject ===== *)
-Q . S2P
Prelude.v
PanicMonad.v
Dll.v
Region.v
Color.v
PhysAlloc.v
PhysAllocSpec.v
PhysAllocProps.v
CapObject.v
CapSpace.v
CapInv.v
CapOps.v
CapDerive.v
CapMove.v
CapDelete.v
CapAudit.v
CapSystem.v
CapProps.v
Slab.v
Redirect.v
SchedData.v
Sched.v
SchedReady.v
SchedInv.v
SchedWake.v
SchedRun.v
SchedTick.v
SchedOps.v
SchedEffect.v
SchedDir.v
SchedLife.v
SchedEnd.v
SchedMig.v
SchedSystem.v
SchedReach.v
SchedProps.v
TidQueue.v
Ipc.v
IpcLaws.v
IpcProps.v
IpcInv.v
IpcKernel.v
IpcSystem.v
IpcPurge.v
IpcNotify.v
IpcDemo.v
Cspace.v
PdTable.v
PdSystem.v
PdProps.v
PdShare.v
PdThreads.v
PdCaps.v
PdPolicy.v
PdAudit.v
PdReserve.v
PdProc.v
Abi.v
Dispatch.v
DispatchCaps.v
DispatchBind.v
DispatchAuth.v
Sidecar.v
KernelDispatch.v
Bytes.v
Part.v
Fat.v
Loader.v
Manifest.v
Checkpoint.v
SpawnCheck.v
Sync.v
Heap.v
Kmalloc.v
Handover.v
Dma.v
Wait.v
Mmu.v
Vspace.v
VspaceKernel.v
