(* ===== verification/Prelude.v ===== *)
(** * Caprock: a verification library for the kernel's core

    Caprock is a capability microkernel in Rust.  This library models the parts of
    it that decide: who owns which memory, who may name what, who runs, who waits
    for whom, what a system call is allowed to do, and what the readers of foreign
    bytes accept.  The definitions follow the source function by function and keep
    its names; the theorems are about them.

    ** The parts and how they interact

    A system call enters [Dispatch.dispatch].  It finds the caller's protection
    domain in the table of domains ([PdTable]), resolves the capability named
    through that domain's run of slots ([Cspace], [PdCaps]) in the capability space
    ([CapSpace], whose memory objects come from the allocator [PhysAlloc]), and acts
    on an endpoint or notification ([Ipc], [IpcSystem]), on the capabilities
    themselves, on the bindings of handlers ([Redirect], [PdTable]), or on a thread
    ([Sched]).  Endpoints reach threads only through the interface [SchedOps] of
    [Ipc.v], whose contract [SchedLaws] ([IpcLaws]) the facade over the cores
    discharges ([IpcKernel], [KernelDispatch]).  A redirected call travels to its
    handler through a sidecar slot ([Sidecar]).  The programs that make system calls
    come from the boot archive and the signed manifest ([Loader], [Manifest]); the
    disk drivers read partition tables and volumes ([Part], [Fat]).  A domain that is
    isolated runs in an address space of its own, whose page tables ([Mmu]) the kernel
    keeps in a table by number ([VspaceKernel]).

    ** Files, and what they model

    - [PanicMonad], [Dll], [Bytes]: no source; the state-and-panic monad, the doubly
      linked lists that two tables of the kernel thread through their entries, byte
      buffers and parsers.
    - crates/caprock-mem: [Region] (region.rs, cap.rs), [Color] (color.rs), [PhysAlloc]
      (alloc.rs), its refinement to a set of free addresses [PhysAllocSpec], and its
      theorems [PhysAllocProps].
    - crates/caprock-cap: [CapObject] (object.rs), [CapSpace] and [CapAudit] (space.rs);
      the invariant [CapInv], the operations against it [CapOps], [CapDerive],
      [CapMove], [CapDelete]; with the allocator [CapSystem]; theorems [CapProps];
      [Checkpoint] (checkpoint.rs), [SpawnCheck] (spawncheck.rs).
    - crates/caprock-sync: [Sync], both locks as machines of interleaving cores.
    - crates/caprock-slab: [Slab].
    - crates/caprock-sched: [SchedData] (lib.rs, cycles.rs, fristen.rs, nohz.rs), [Sched]
      (the type Scheduler of lib.rs), [Redirect] (redirect.rs); the invariant [SchedInv]
      over [SchedReady] and [SchedDir], the operations against it ([SchedWake],
      [SchedRun], [SchedTick], [SchedOps], [SchedEffect], [SchedLife], [SchedEnd],
      [SchedMig]); all cores together [SchedSystem], [SchedReach];
      theorems [SchedProps].
    - crates/caprock-ipc: [TidQueue], [Ipc]; the contract of the scheduler [IpcLaws],
      theorems [IpcProps], [IpcInv], [IpcNotify]; with the tables of
      kernel/src/system.rs [IpcKernel], [IpcSystem], [IpcPurge]; a concrete
      machine [IpcDemo].
    - crates/caprock-microkit: [Cspace] (cspace.rs), [PdTable], [PdCaps]
      (lib.rs), [PdProc] (irqvec.rs, proc.rs), [Dispatch] (dispatch of lib.rs); invariant
      and theorems [PdSystem], [PdProps], [PdShare], [PdThreads],
      [PdPolicy], [PdAudit], [PdReserve], [DispatchCaps], [DispatchBind],
      [DispatchAuth]; concrete states in [PdReserve] and [DispatchCaps].
    - crates/caprock-abi: [Abi].
    - kernel/src/system.rs (the facade KernelSched): [IpcKernel], [KernelDispatch];
      kernel/src/sidecarkopie.rs and the trap frame of crates/caprock-hal: [Sidecar];
      kernel/src/forkexec.rs: [Loader].
    - crates/caprock-loader: [Loader] (lib.rs, archive.rs, elf.rs, cost.rs, exec.rs,
      snapshot.rs), [Manifest] (cert.rs, manifest.rs).
    - crates/caprock-part: [Part]; crates/caprock-fat: [Fat].
    - crates/caprock-region: [Heap] (heap.rs), [Kmalloc] (kmalloc.rs, page.rs), [Handover]
      (the views of lib.rs, state.rs).
    - crates/caprock-hal/src/x86_64/mmu.rs: [Mmu], every function that reads or writes a
      page table, over a memory of frames of words; [Vspace] relates the tables of all
      spaces to who may reach which page and shows each function against that view, bring-up
      and guard pages too;
      kernel/src/system.rs (the table VSPACES): [VspaceKernel].
    - crates/caprock-dma: [Dma] (lib.rs, gross.rs); crates/caprock-wait: [Wait] (lib.rs,
      timeout.rs).

    State is a record with the source's fields.  A table is the list of its entries, and
    an index out of it panics, as a failed [expect] does: both are [None].  Errors are
    values of [result].  An integer is a [Z]; where its width matters the operation
    says so ([wrapping_add 64 a b]), and the release profile's wrapping is what [+]
    means in the source.

    ** What the theorems show

    - Memory: a region handed out was free, lies in the zone asked for, is aligned
      and coloured; freeing it gives the same free set back.
    - Capabilities: in every state reachable from boot the derivation tree is a forest
      in which a child never has more rights or a wider window than its parent, two
      live memory objects share no byte, the audit answers 0; a revocation deletes
      exactly the descendants.
    - Scheduler: in every interleaving of the cores' operations, migrations and the
      reaper nothing panics, no thread is in two places, a handle that went stale leads
      nowhere, and the run-time audit finds only what the invariant leaves open, as long
      as the steps are those [allowed]: [admit] of a thread that was stopped before is
      not, though nothing in the code prevents it ([SchedProps.admit_stopped_queued]).
    - IPC: calls, receives, replies and signals on every branch; a dying thread leaves
      all queues and everyone who waits for it is told.
    - Domains: the budget is conserved, slots are separate as long as no domain is
      released (and what goes wrong after a release), only what the policy of the domain
      allows is installed.
    - Locks: under every interleaving of the cores' atomic accesses, and across the
      wrap-around of the counters, sections are serial, tickets are served in order, a
      writer is alone and is not passed by readers, and nobody waits for ever for want
      of a step somebody else can take.
    - Checkpoints: what may leave the machine and when, that an image holds nothing of
      the machine it was taken on, is read back as it was built, and that no single
      damaged byte goes unnoticed; the stack of a second thread lies inside its
      capability.
    - Dispatch: without the capability and the right a call asks for nothing happens;
      copying and delegating never give more than the source has; no history of
      bindings lets a domain handle itself; a redirection changes only the registers
      it may.
    - Address spaces: after the bring-up of [init_primary], the windows of devices and the
      memory above 4 GiB, in every history of the kernel's calls a user reaches above the
      image of the kernel only what was asked for its space, with the rights asked, never
      both writable and executable; what a call says it has mapped or unmapped is mapped
      or gone and nobody else notices; the tables of a space that is taken down all come
      back; the kernel's own resolution finds what the processor's walk finds.
    - Memory of a process: the blocks of the heap, and of the Linux allocator over it, are
      disjoint and stay inside their regions through any history of their clients; a
      state region answers its successive owners as the state put into it promises.
    - A driver: the pieces of its DMA memory stay inside it, alike for processor and
      device, and those in use are disjoint; the first piece up to a border is the longest
      possible; the search for the largest block ends.  Threads that wait for a mutex
      without the kernel are not lost between their check and their parking.
    - Readers of foreign bytes: they answer every input without a panic, what they
      accept lies inside the input, what was written is read back, and the authority
      in a manifest is settled by the signed bytes alone.

    Each operation's theorem is total: it says that the operation returns, and what.
    Theorems that show the code doing something it does not mean to do are named after
    the effect (for example [Fat.short_table_accepted], [PdShare.live_run_shared]).

    ** Bounds and fuel

    Loops that recurse on something else than a list take fuel, and run out of it into a
    panic, so the total theorems show that it suffices: the revocation takes the source's
    own step limit, which it never reaches; the walk of the audit gets the number of
    nodes plus one; [suche] of the slot pool one step more than there are anchors;
    [ketten_gang] the number of domains, the source's bound; the search for the owner of
    a thread the source's four attempts; the receivers of a call are tried [QCAP] + 1
    times, the sweep of a dying thread gets one round more than there are endpoints;
    delegations of a load are the source's eight; [find_free] visits the entries of the
    sector; a mask of a device has 64 bits, the search for a block halves the pages of its
    zone.  The loops over a region take one round for each of its pages, those over a
    table its 512 entries.  The loops of [Wait] that end when a condition holds take their rounds as fuel.

    ** Not modelled, and why

    - Interleavings inside one dispatch: a section under a lock is a step of the other
      files, as [Sync] shows the locks to allow; the order of accesses is one total
      order, weaker memory orderings are not modelled; statistics counters outside the
      locked state and the measurement of holding times are left out.
    - Saved floating-point state, kernel stacks, reschedule interrupts: they have no
      effect on the modelled state.  The cycle counter and the facts of the hardware the
      scheduler reads are parameters ([Timer], [Hal]); address spaces and the copies to
      and from a sidecar are the parameters of [Memory].
    - The functions the dispatch receives as arguments (load, delete, spawn, debug,
      interrupt binding) stay parameters ([Callbacks]), and so does the check of a
      signature.  Where a heap gets its regions from is the class [RegionSource] with the
      laws [SourceLaws]; [BumpSource] is a source that keeps them.
    - [Wait]: parking is the kernel's ([Park], [TimeoutPark]); what the threads share is a
      cell of the world, so that it may change while one of them is parked; in the machine
      of the mutex a section between two parkings is one step.
    - [Mmu], [VspaceKernel]: the tables of aarch64, the flushes of translation buffers and
      the reports on a shortage of memory.  Frames come from the class [Pool], whose laws
      [pool_laws] are those [PhysAllocProps] shows of the allocator: a frame that is lent
      is not lent again before it comes back.  The calls run one after the other.
    - Bring-up, self tests, drivers, the hardware layer, the user programs: code around
      the parts above, mostly register accesses and assembly.  *)

From Stdlib Require Export ZArith Lia.
From stdpp Require Export base tactics option numbers list gmap.
Export list.

#[export] Set Default Goal Selector "!".

(** The library's notations live in a scope of their own, its automation lemmas
    in a hint database of their own. *)
Declare Scope caprock_scope.
Delimit Scope caprock_scope with caprock.
#[global] Open Scope caprock_scope.

Create HintDb caprock discriminated.

(** ** Results

    Rust's [Result<T, E>].  Rust's [Option<T>] is Rocq's [option].  *)

Inductive result (A E : Type) : Type :=
| Ok (a : A)
| Err (e : E).
Arguments Ok {A E} a.
Arguments Err {A E} e.

Definition is_ok {A E} (r : result A E) : bool :=
  match r with Ok _ => true | Err _ => false end.

#[export] Instance result_eq_dec {A E} `{EqDecision A, EqDecision E} :
  EqDecision (result A E).
Proof. solve_decision. Defined.

(** ** Machine integers

    A [w]-bit unsigned integer of the source is a [Z] in [0, 2^w).  The kernel
    is built with the release profile, where [+], [-] and [*] on fixed-width
    integers wrap; the [checked_]/[saturating_] methods are written out.  *)

Definition in_width (w z : Z) : Prop := (0 <= z < 2 ^ w)%Z.
Definition wrapping_add (w a b : Z) : Z := ((a + b) mod 2 ^ w)%Z.
Definition wrapping_sub (w a b : Z) : Z := ((a - b) mod 2 ^ w)%Z.
Definition wrapping_mul (w a b : Z) : Z := ((a * b) mod 2 ^ w)%Z.
Definition checked_add (w a b : Z) : option Z :=
  if (a + b <? 2 ^ w)%Z then Some (a + b)%Z else None.
Definition checked_mul (w a b : Z) : option Z :=
  if (a * b <? 2 ^ w)%Z then Some (a * b)%Z else None.
Definition saturating_add (w a b : Z) : Z := Z.min (a + b) (2 ^ w - 1).
Definition saturating_sub (a b : Z) : Z := Z.max 0 (a - b).
Definition max_value (w : Z) : Z := (2 ^ w - 1)%Z.

(** Rust's [Iterator::position] on a slice. *)
Fixpoint position {A} (p : A → bool) (l : list A) : option nat :=
  match l with
  | [] => None
  | x :: l => if p x then Some 0 else S <$> position p l
  end.

(** Rust's [filter(..).count()]. *)
Definition count_if {A} (p : A → bool) (l : list A) : nat :=
  length (base.filter (λ x, p x = true) l).

(** The transparent field updater [λ v r, { r with field := v }]: [eta] is the
    record's eta expansion, [proj] the field.  Used as
    [Definition with_f v r := ltac:(set_field eta f r v)].  *)
Ltac set_field eta proj r v :=
  let e := eval unfold eta in (eta r) in
  let f := eval pattern (proj r) in e in
  match f with
  | ?g _ => let res := eval cbv beta in (g v) in exact res
  end.

(** ** Lemmas on [position] and [count_if] *)

Lemma position_Some {A} (p : A → bool) l i :
  position p l = Some i ↔
  (∃ x, l !! i = Some x ∧ p x = true) ∧
  (∀ j y, j < i → l !! j = Some y → p y = false).
Proof.
  revert i; induction l as [|x l IH]; intros i; simpl.
  - split; [done|]. intros [(y & Hy & _) _]. by rewrite lookup_nil in Hy.
  - destruct (p x) eqn:Hp.
    + split.
      * intros [= <-]. split; [eauto|]. intros; lia.
      * intros [(y & Hy & Hpy) Hmin]. destruct i as [|i]; [done|].
        specialize (Hmin 0 x ltac:(lia) eq_refl). congruence.
    + rewrite fmap_Some. split.
      * intros (k & Hk & ->). apply IH in Hk as [(y & Hy & Hpy) Hmin].
        split; [eauto|]. intros [|j] z Hj Hz; simpl in *; [congruence|].
        eapply Hmin; [|done]. lia.
      * intros [(y & Hy & Hpy) Hmin]. destruct i as [|i]; simpl in *; [congruence|].
        exists i. split; [|done]. apply IH. split; [eauto|].
        intros j z Hj Hz. apply (Hmin (S j)); [lia|done].
Qed.

Lemma position_None {A} (p : A → bool) l :
  position p l = None ↔ ∀ x, x ∈ l → p x = false.
Proof.
  induction l as [|x l IH]; simpl; [set_solver|].
  destruct (p x) eqn:Hp.
  - split; [done|]. intros H. rewrite (H x) in Hp; set_solver.
  - rewrite fmap_None, IH. set_solver.
Qed.

Lemma position_lt {A} (p : A → bool) l i : position p l = Some i → i < length l.
Proof. rewrite position_Some. intros [(x & Hx & _) _]. by eapply lookup_lt_Some. Qed.

Lemma count_if_cons {A} (p : A → bool) x l :
  count_if p (x :: l) = (if p x then 1 else 0) + count_if p l.
Proof. unfold count_if. rewrite filter_cons. destruct (p x); repeat case_decide; done. Qed.

Lemma count_if_app {A} (p : A → bool) l1 l2 :
  count_if p (l1 ++ l2) = count_if p l1 + count_if p l2.
Proof. unfold count_if. by rewrite filter_app, length_app. Qed.

Lemma count_if_length {A} (p : A → bool) l : count_if p l ≤ length l.
Proof. apply length_filter. Qed.

Lemma count_if_insert {A} (p : A → bool) l i x y :
  l !! i = Some x →
  count_if p (<[i:=y]> l) + (if p x then 1 else 0) =
  count_if p l + (if p y then 1 else 0).
Proof.
  revert i; induction l as [|z l IH]; intros [|i]; simpl; [done..| |].
  - intros [= ->]. rewrite !count_if_cons. lia.
  - intros H. rewrite !count_if_cons. specialize (IH _ H). lia.
Qed.

Lemma count_if_ext {A} (p q : A → bool) l :
  (∀ x, x ∈ l → p x = q x) → count_if p l = count_if q l.
Proof.
  induction l as [|x l IH]; intros H; [done|].
  rewrite !count_if_cons, (H x) by set_solver. rewrite IH; [done|set_solver].
Qed.

Lemma count_if_pos {A} (p : A → bool) l :
  0 < count_if p l ↔ ∃ i x, l !! i = Some x ∧ p x = true.
Proof.
  induction l as [|x l IH].
  - split; [unfold count_if; simpl; lia|]. by intros (i & x & H & _).
  - rewrite count_if_cons. split.
    + destruct (p x) eqn:Hp; [intros _; by exists 0, x|].
      simpl. rewrite IH. intros (i & y & ? & ?). by exists (S i), y.
    + intros ([|i] & y & Hy & Hp); simpl in *.
      * simplify_eq. rewrite Hp. lia.
      * destruct (p x); [lia|]. simpl. apply IH. eauto.
Qed.

(** ** Updating one entry of a table *)

Lemma lookup_alter_if {A} (f : A → A) i j (l : list A) :
  alter f i l !! j = (if decide (i = j) then f else id) <$> l !! j.
Proof.
  destruct (decide (i = j)) as [->|Hne]; [apply list_lookup_alter_eq|].
  rewrite list_lookup_alter_ne by done. by rewrite list_fmap_id || (destruct (l !! j); done).
Qed.

Lemma lookup_alter_inv {A} (f : A → A) (i j : nat) (l : list A) (x : A) :
  alter f i l !! j = Some x → (i = j ∧ ∃ y, l !! i = Some y ∧ x = f y) ∨ (i ≠ j ∧ l !! j = Some x).
Proof.
  destruct (decide (i = j)) as [->|Hne].
  - rewrite list_lookup_alter_eq. intros (y & -> & Hy)%fmap_Some. left. eauto.
  - rewrite list_lookup_alter_ne by done. eauto.
Qed.

Lemma count_if_alter {A} (p : A → bool) (f : A → A) l i x :
  l !! i = Some x →
  count_if p (alter f i l) + (if p x then 1 else 0) = count_if p l + (if p (f x) then 1 else 0).
Proof.
  intros H. rewrite <-(count_if_insert p l i x (f x) H). f_equal. f_equal.
  rewrite list_insert_alter. apply list_alter_ext; [|done]. intros y Hy. congruence.
Qed.

(** ** Machine-integer lemmas *)

Lemma wrapping_add_exact w a b : in_width w (a + b)%Z → wrapping_add w a b = (a + b)%Z.
Proof. unfold in_width, wrapping_add. intros. by apply Z.mod_small. Qed.

Lemma wrapping_sub_exact w a b : in_width w (a - b)%Z → wrapping_sub w a b = (a - b)%Z.
Proof. unfold in_width, wrapping_sub. intros. by apply Z.mod_small. Qed.

Lemma wrapping_add_width w a b : (0 <= w)%Z → in_width w (wrapping_add w a b).
Proof. intros. apply Z.mod_pos_bound. lia. Qed.

Lemma wrapping_sub_width w a b : (0 <= w)%Z → in_width w (wrapping_sub w a b).
Proof. intros. apply Z.mod_pos_bound. lia. Qed.

Lemma checked_add_Some w a b c :
  checked_add w a b = Some c ↔ c = (a + b)%Z ∧ (a + b < 2 ^ w)%Z.
Proof.
  unfold checked_add. destruct (Z.ltb_spec (a + b) (2 ^ w)); split.
  all: first [by intros [= <-] | by intros [-> ?] | intros; lia | done | intros []; lia].
Qed.

Lemma checked_add_None w a b : checked_add w a b = None ↔ (2 ^ w <= a + b)%Z.
Proof. unfold checked_add. destruct (Z.ltb_spec (a + b) (2 ^ w)); split; done || lia. Qed.

Lemma checked_mul_Some w a b c :
  checked_mul w a b = Some c ↔ c = (a * b)%Z ∧ (a * b < 2 ^ w)%Z.
Proof.
  unfold checked_mul. destruct (Z.ltb_spec (a * b) (2 ^ w)); split.
  all: first [by intros [= <-] | by intros [-> ?] | intros; lia | done | intros []; lia].
Qed.

(** Two successive positions of a list without duplicates are different, and a
    list of indices below [n] without duplicates has at most [n] entries. *)
Lemma NoDup_bounded_length (l : list nat) n :
  NoDup l → (∀ x, x ∈ l → x < n) → length l ≤ n.
Proof.
  intros Hnd Hlt.
  assert (l ⊆+ seq 0 n) as Hsub.
  { apply NoDup_submseteq; [done|]. intros x Hx. apply elem_of_seq. specialize (Hlt x Hx). lia. }
  apply submseteq_length in Hsub. by rewrite length_seq in Hsub.
Qed.

Lemma last_lookup_app {A} (l1 : list A) x : last (l1 ++ [x]) = Some x.
Proof. apply last_snoc. Qed.

Lemma head_app_cons {A} (l1 l2 : list A) x :
  head (l1 ++ x :: l2) = Some (default x (head l1)).
Proof. by destruct l1. Qed.

Lemma head_elem {A} (l : list A) x : head l = Some x → x ∈ l.
Proof. destruct l; simpl; [done|]. intros [= ->]. set_solver. Qed.

Lemma last_elem {A} (l : list A) x : last l = Some x → x ∈ l.
Proof. rewrite last_Some. intros (l' & ->). set_solver. Qed.

(** A decided disequality between two named terms. *)
Lemma decide_ne {K} `{EqDecision K} (x y : K) {A} (a b : A) :
  x ≠ y → (if decide (x = y) then a else b) = b.
Proof. intros. by rewrite decide_False. Qed.

(** Case analysis on the booleans of the integer comparisons. *)
Ltac zcases :=
  repeat match goal with
  | |- context [ (?a <? ?b)%Z ] => destruct (Z.ltb_spec a b)
  | |- context [ (?a <=? ?b)%Z ] => destruct (Z.leb_spec a b)
  | |- context [ (?a =? ?b)%Z ] => destruct (Z.eqb_spec a b)
  | H : context [ (?a <? ?b)%Z ] |- _ => destruct (Z.ltb_spec a b)
  | H : context [ (?a <=? ?b)%Z ] |- _ => destruct (Z.leb_spec a b)
  | H : context [ (?a =? ?b)%Z ] |- _ => destruct (Z.eqb_spec a b)
  end.
