(* ===== verification/PanicMonad.v ===== *)
(** * The state-and-panic monad

    Stateful kernel code is a function [M S A]: from the state before to the
    value returned and the state after, or to [None] where the source panics
    (an index out of a table, a failed [expect]) or where a bounded loop of the
    model would run out of its fuel.  [wp m s Q] says that [m] run in [s]
    neither panics nor runs out of fuel and ends in a value and a state that
    satisfy [Q]; every correctness theorem of the stateful components is stated
    through it, so each of them is a total-correctness statement.  *)

From S2P Require Import Prelude.

Definition M (S A : Type) : Type := S → option (A * S).

#[export] Instance M_ret {S} : MRet (M S) := λ A a s, Some (a, s).
#[export] Instance M_bind {S} : MBind (M S) := λ A B k m s,
  match m s with Some (a, s') => k a s' | None => None end.

(** Reading and writing the state. *)
Definition gets {S A} (f : S → A) : M S A := λ s, Some (f s, s).
Definition modify {S} (f : S → S) : M S unit := λ s, Some (tt, f s).
Definition panic {S A} : M S A := λ _, None.

(** [Option::expect] and indexing: panics on [None]. *)
Definition expect {S A} (o : option A) : M S A :=
  match o with Some a => mret a | None => panic end.

(** A sub-computation on a component of the state. *)
Definition zoom {S T A} (get : S → T) (put : T → S → S) (m : M T A) : M S A :=
  λ s, match m (get s) with Some (a, t) => Some (a, put t s) | None => None end.

(** The [?] operator of a function that returns a [Result] and has threaded the
    state so far. *)
Definition try_bind {S A B E} (m : M S (result A E)) (k : A → M S (result B E)) :
  M S (result B E) :=
  m ≫= λ r, match r with Ok a => k a | Err e => mret (Err e) end.

Notation "x '←?' m ; k" := (try_bind m (λ x, k))
  (at level 20, m at level 100, k at level 200, only parsing) : caprock_scope.

Definition wp {S A} (m : M S A) (s : S) (Q : A → S → Prop) : Prop :=
  match m s with Some (a, s') => Q a s' | None => False end.

(** ** Rules *)

Section wp.
Context {S : Type}.
Implicit Types s : S.

Lemma wp_ret {A} (a : A) s Q : Q a s → wp (mret a) s Q.
Proof. done. Qed.

Lemma wp_bind {A B} (m : M S A) (k : A → M S B) s Q :
  wp m s (λ a s', wp (k a) s' Q) → wp (m ≫= k) s Q.
Proof. unfold wp, mbind, M_bind. by destruct (m s) as [[a s']|]. Qed.

Lemma wp_bind_inv {A B} (m : M S A) (k : A → M S B) s Q :
  wp (m ≫= k) s Q → wp m s (λ a s', wp (k a) s' Q).
Proof. unfold wp, mbind, M_bind. by destruct (m s) as [[a s']|]. Qed.

Lemma wp_gets {A} (f : S → A) s Q : Q (f s) s → wp (gets f) s Q.
Proof. done. Qed.

Lemma wp_modify f s (Q : unit → S → Prop) : Q tt (f s) → wp (modify f) s Q.
Proof. done. Qed.

Lemma wp_expect {A} (o : option A) a s Q : o = Some a → Q a s → wp (expect o) s Q.
Proof. by intros ->. Qed.

Lemma wp_try {A B E} (m : M S (result A E)) (k : A → M S (result B E)) s Q :
  wp m s (λ r s', match r with Ok a => wp (k a) s' Q | Err e => Q (Err e) s' end) →
  wp (try_bind m k) s Q.
Proof.
  intros H. apply wp_bind. unfold wp in *. destruct (m s) as [[[a|e] s']|]; done.
Qed.

Lemma wp_mono {A} (m : M S A) s (P Q : A → S → Prop) :
  wp m s P → (∀ a s', P a s' → Q a s') → wp m s Q.
Proof. unfold wp. destruct (m s) as [[a s']|]; naive_solver. Qed.

Lemma wp_and {A} (m : M S A) s (P Q : A → S → Prop) :
  wp m s P → wp m s Q → wp m s (λ a s', P a s' ∧ Q a s').
Proof. unfold wp. destruct (m s) as [[a s']|]; naive_solver. Qed.

Lemma wp_run {A} (m : M S A) s Q :
  wp m s Q ↔ ∃ a s', m s = Some (a, s') ∧ Q a s'.
Proof. unfold wp. destruct (m s) as [[a s']|]; naive_solver. Qed.

Lemma wp_zoom {T A} (get : S → T) put (m : M T A) s Q :
  wp m (get s) (λ a t, Q a (put t s)) → wp (zoom get put m) s Q.
Proof. unfold wp, zoom. by destruct (m (get s)) as [[a t]|]. Qed.
End wp.

(** One step of a forward proof: unfold the leading monadic operation. *)
Ltac wp_step :=
  lazymatch goal with
  | |- wp (mret _) _ _ => apply wp_ret
  | |- wp (_ ≫= _) _ _ => apply wp_bind
  | |- wp (try_bind _ _) _ _ => apply wp_try
  | |- wp (gets _) _ _ => apply wp_gets
  | |- wp (modify _) _ _ => apply wp_modify
  | |- wp (expect _) _ _ => eapply wp_expect
  | |- wp (zoom _ _ _) _ _ => apply wp_zoom
  | |- wp (match ?x with _ => _ end) _ _ => destruct x eqn:?
  end; cbv beta.
Ltac wp_steps := repeat (wp_step; try eassumption; cbv beta zeta).

(** ** Loops over a range of indices

    [for i in l { a = f(a, i) }]. *)
Fixpoint fold_m {S A} (f : A → nat → M S A) (l : list nat) (a : A) : M S A :=
  match l with
  | [] => mret a
  | i :: l => f a i ≫= λ a, fold_m f l a
  end.
Definition for_ {S} (l : list nat) (f : nat → M S unit) : M S unit :=
  fold_m (λ _ i, f i) l tt.

(** The rule of a loop: an invariant indexed by what is left to do. *)
Lemma wp_fold_m {S A} (I : list nat → A → S → Prop) (f : A → nat → M S A) l a s :
  I l a s →
  (∀ i l' a s, i ∈ l → I (i :: l') a s → wp (f a i) s (λ a s, I l' a s)) →
  wp (fold_m f l a) s (λ a s, I [] a s).
Proof.
  revert a s. induction l as [|i l IH]; intros a s HI Hf; simpl; [by apply wp_ret|].
  apply wp_bind. eapply wp_mono; [apply Hf; [set_solver|done]|]. cbv beta. intros a' s' HI'.
  apply IH; [done|]. intros j l' b u Hj. apply Hf. set_solver.
Qed.

(** A loop whose body keeps an invariant keeps it. *)
Lemma wp_for {S} (I : S → Prop) l (f : nat → M S unit) s :
  I s → (∀ i s, i ∈ l → I s → wp (f i) s (λ _ s, I s)) → wp (for_ l f) s (λ _ s, I s).
Proof.
  intros HI Hf. apply (wp_fold_m (λ _ _ s, I s)); [done|]. intros i l' a u Hi Hu. by apply Hf.
Qed.

(** ** Effects

    [ends m s R]: if [m] run in [s] returns, then as [R] says.  Where [wp] is known
    already, effects may be shown by this weaker judgement and added to it. *)
Definition ends {S A} (m : M S A) (s : S) (R : A → S → Prop) : Prop :=
  ∀ a s', m s = Some (a, s') → R a s'.

Section ends.
Context {S : Type}.
Implicit Types s : S.

Lemma ends_ret {A} (a : A) s R : R a s → ends (mret a) s R.
Proof. by intros HR a' s' [= <- <-]. Qed.

Lemma ends_bind {A B} (m : M S A) (k : A → M S B) s R :
  ends m s (λ a s', ends (k a) s' R) → ends (m ≫= k) s R.
Proof.
  unfold ends, mbind, M_bind. intros Hm b s'. destruct (m s) as [[a s1]|] eqn:E; [|done].
  intros Hk. by eapply Hm.
Qed.

Lemma ends_gets {A} (f : S → A) s R : R (f s) s → ends (gets f) s R.
Proof. by intros HR a' s' [= <- <-]. Qed.

Lemma ends_modify f s (R : unit → S → Prop) : R tt (f s) → ends (modify f) s R.
Proof. by intros HR [] s' [= <-]. Qed.

Lemma ends_expect {A} (o : option A) s R : (∀ a, o = Some a → R a s) → ends (expect o) s R.
Proof. destruct o as [a|]; [|done]. intros HR ? ? [= <- <-]. by apply HR. Qed.

Lemma ends_mono {A} (m : M S A) s (P Q : A → S → Prop) :
  ends m s P → (∀ a s', P a s' → Q a s') → ends m s Q.
Proof. intros Hm HQ a s' E. by apply HQ, Hm. Qed.

Lemma wp_ends {A} (m : M S A) s (P Q : A → S → Prop) :
  wp m s P → ends m s Q → wp m s (λ a s', P a s' ∧ Q a s').
Proof. unfold wp, ends. destruct (m s) as [[a s']|]; [|done]. intros HP HQ. split; [done|by apply HQ]. Qed.

(** Computations that relate the state before and after by a preorder. *)
Context (I : S → S → Prop) `{!PreOrder I}.

Definition keeping {A} (m : M S A) : Prop := ∀ s, ends m s (λ _ s', I s s').

Lemma keeping_ret {A} (a : A) : keeping (mret a).
Proof. intros s. by apply ends_ret. Qed.
Lemma keeping_gets {A} (f : S → A) : keeping (gets f).
Proof. intros s. by apply ends_gets. Qed.
Lemma keeping_expect {A} (o : option A) : keeping (expect o).
Proof. intros s. by apply ends_expect. Qed.
Lemma keeping_modify f : (∀ s, I s (f s)) → keeping (modify f).
Proof. intros Hf s. by apply ends_modify. Qed.
Lemma keeping_bind {A B} (m : M S A) (k : A → M S B) :
  keeping m → (∀ a, keeping (k a)) → keeping (m ≫= k).
Proof.
  intros Hm Hk s. apply ends_bind. eapply ends_mono; [apply Hm|]. intros a s1 H1. cbv beta in *.
  eapply ends_mono; [apply Hk|]. intros b s2 H2. cbv beta in *. by etrans.
Qed.
End ends.

Lemma keeping_zoom {S T A} (I : S → S → Prop) (J : T → T → Prop) (get : S → T) put (m : M T A) :
  keeping J m → (∀ s t, J (get s) t → I s (put t s)) → keeping I (zoom get put m).
Proof.
  intros Hm HI s a s' E. unfold zoom in E. destruct (m (get s)) as [[b t]|] eqn:Em; [|done].
  injection E as <- <-. by eapply HI, Hm.
Qed.

(** Takes a program apart, down to the updates of the state. *)
Ltac keeps :=
  repeat lazymatch goal with
  | |- keeping _ (mret _) => apply keeping_ret; apply _
  | |- keeping _ (gets _) => apply keeping_gets; apply _
  | |- keeping _ (expect _) => apply keeping_expect; apply _
  | |- keeping _ (modify _) => apply keeping_modify; intros ?
  | |- keeping _ (mbind _ _) => apply keeping_bind; [apply _| |intros ?]
  | |- keeping _ (match ?x with _ => _ end) => destruct x
  | |- keeping _ (let _ := _ in _) => cbv zeta
  end.
