(* ===== verification/Dll.v ===== *)
(** * Intrusive doubly linked lists

    Two components of the kernel thread doubly linked lists through the entries
    of a table: the capability derivation tree (a child list per slot,
    [crates/caprock-cap/src/space.rs]) and the ready queues (a list per
    priority, [crates/caprock-sched/src/lib.rs]).  [dll nxt prv l] says that the
    successor and predecessor functions read off the table thread exactly the
    list [l].  The lemmas give the effect of the pointer updates of the two
    components as list operations.  *)

From S2P Require Import Prelude.

Section dll.
Context {K : Type} `{EqDecision K}.
Implicit Types (nxt prv : K → option K) (l : list K) (x y : K).

(** The entry before position [i]. *)
Definition before l (i : nat) : option K :=
  match i with 0 => None | S j => l !! j end.

Definition dll nxt prv l : Prop :=
  ∀ i x, l !! i = Some x → prv x = before l i ∧ nxt x = l !! S i.

(** Following [nxt] from [o], at most [n] entries. *)
Fixpoint follow nxt (n : nat) (o : option K) : list K :=
  match n, o with
  | S n, Some x => x :: follow nxt n (nxt x)
  | _, _ => []
  end.

Lemma dll_nil nxt prv : dll nxt prv [].
Proof. intros i x H. by rewrite lookup_nil in H. Qed.

Lemma dll_NoDup nxt prv l : dll nxt prv l → NoDup l.
Proof.
  intros H. apply NoDup_alt. intros i. induction i as [|i IH]; intros j x Hi Hj.
  - destruct j as [|j]; [done|].
    destruct (H _ _ Hi) as [H1 _], (H _ _ Hj) as [H2 _]. simpl in *.
    destruct (lookup_lt_is_Some_2 l j) as [y Hy]; [|congruence].
    apply lookup_lt_Some in Hj. lia.
  - destruct (H _ _ Hi) as [H1 _], (H _ _ Hj) as [H2 _]. simpl in *.
    destruct (lookup_lt_is_Some_2 l i) as [y Hy]; [apply lookup_lt_Some in Hi; lia|].
    destruct j as [|j]; simpl in *; [congruence|].
    f_equal. apply (IH j y); congruence.
Qed.

Lemma dll_split nxt prv l1 x l2 :
  dll nxt prv (l1 ++ x :: l2) → prv x = last l1 ∧ nxt x = head l2.
Proof.
  intros H. destruct (H (length l1) x) as [H1 H2]; [by rewrite list_lookup_middle|].
  rewrite H1, H2. split.
  - rewrite last_lookup. destruct l1 as [|a l1]; [done|]. cbn [before length pred].
    rewrite lookup_app_l by (simpl; lia). done.
  - rewrite lookup_app_r by lia. replace (S (length l1) - length l1) with 1 by lia.
    simpl. by destruct l2.
Qed.

Lemma dll_ext nxt prv nxt' prv' l :
  dll nxt prv l → (∀ x, x ∈ l → nxt' x = nxt x ∧ prv' x = prv x) → dll nxt' prv' l.
Proof.
  intros H Heq i x Hi. destruct (Heq x) as [-> ->]; [by eapply list_elem_of_lookup_2|].
  by apply H.
Qed.

Lemma dll_head nxt prv l x : dll nxt prv l → head l = Some x → prv x = None.
Proof. destruct l as [|y l]; simpl; [done|]. intros H [= ->]. by apply (H 0 x). Qed.

Lemma dll_last nxt prv l x : dll nxt prv l → last l = Some x → nxt x = None.
Proof.
  rewrite last_Some. intros H (l' & ->). by apply (dll_split _ _ l' x []) in H as [_ ?].
Qed.

Lemma dll_nxt_elem nxt prv l x y : dll nxt prv l → x ∈ l → nxt x = Some y → y ∈ l ∧ prv y = Some x.
Proof.
  intros H [i Hi]%list_elem_of_lookup_1 Hn. destruct (H _ _ Hi) as [_ H2].
  rewrite Hn in H2. symmetry in H2. split; [by eapply list_elem_of_lookup_2|].
  destruct (H _ _ H2) as [H3 _]. simpl in H3. congruence.
Qed.

Lemma dll_prv_elem nxt prv l x y : dll nxt prv l → x ∈ l → prv x = Some y → y ∈ l ∧ nxt y = Some x.
Proof.
  intros H [i Hi]%list_elem_of_lookup_1 Hn. destruct (H _ _ Hi) as [H1 _].
  rewrite Hn in H1. destruct i as [|i]; simpl in H1; [done|]. symmetry in H1.
  split; [by eapply list_elem_of_lookup_2|]. destruct (H _ _ H1) as [_ H3]. congruence.
Qed.

Lemma dll_prv_None nxt prv l x : dll nxt prv l → x ∈ l → prv x = None → head l = Some x.
Proof.
  intros H [i Hi]%list_elem_of_lookup_1 Hn. destruct (H _ _ Hi) as [H1 _].
  destruct i as [|i]; simpl in *; [by rewrite <-Hi; destruct l|].
  destruct (lookup_lt_is_Some_2 l i); [apply lookup_lt_Some in Hi; lia|congruence].
Qed.

Lemma dll_nxt_None nxt prv l x : dll nxt prv l → x ∈ l → nxt x = None → last l = Some x.
Proof.
  intros H (l1 & l2 & ->)%list_elem_of_split Hn. apply dll_split in H as [_ H].
  rewrite Hn in H. destruct l2; [|done]. apply last_snoc.
Qed.

(** Unhooked entries are in no list. *)

(** *** Insertion at the front ([link_child]) *)
Lemma dll_cons nxt prv nxt' prv' x l :
  dll nxt prv l →
  nxt' x = head l → prv' x = None →
  (∀ y, y ∈ l → nxt' y = nxt y) →
  (∀ y, y ∈ l → prv' y = if decide (head l = Some y) then Some x else prv y) →
  dll nxt' prv' (x :: l).
Proof.
  intros H Hnx Hpx Hn Hp [|i] y Hi; simpl in *.
  - simplify_eq. rewrite Hnx. split; [done|]. by destruct l.
  - pose proof (list_elem_of_lookup_2 _ _ _ Hi) as Hy.
    rewrite Hn, Hp by done. destruct (H _ _ Hi) as [H1 H2]. split; [|done].
    case_decide as Hh.
    + assert (i = 0) as ->; [|done].
      eapply NoDup_lookup; [by eapply dll_NoDup|done|by rewrite <-Hh; destruct l].
    + rewrite H1. destruct i as [|i]; simpl; [|done]. destruct Hh. by destruct l.
Qed.

(** *** Insertion at the back ([enqueue_ready]) *)
Lemma dll_snoc nxt prv nxt' prv' x l :
  dll nxt prv l → x ∉ l →
  nxt' x = None → prv' x = last l →
  (∀ y, y ∈ l → prv' y = prv y) →
  (∀ y, y ∈ l → nxt' y = if decide (last l = Some y) then Some x else nxt y) →
  dll nxt' prv' (l ++ [x]).
Proof.
  intros H Hx Hnx Hpx Hp Hn i y Hi.
  destruct (decide (i = length l)) as [->|Hne].
  - rewrite list_lookup_middle in Hi by done. simplify_eq.
    rewrite Hnx, Hpx, last_lookup. split.
    + destruct l as [|a l]; [done|]. cbn [before length pred].
      rewrite lookup_app_l by (simpl; lia). done.
    + symmetry. apply lookup_ge_None. rewrite length_app. simpl. lia.
  - assert (i < length l) as Hlt.
    { apply lookup_lt_Some in Hi. rewrite length_app in Hi. simpl in Hi. lia. }
    rewrite lookup_app_l in Hi by done.
    pose proof (list_elem_of_lookup_2 _ _ _ Hi) as Hy.
    destruct (H _ _ Hi) as [H1 H2]. rewrite Hp, Hn by done. split.
    + rewrite H1. destruct i; simpl; [done|]. rewrite lookup_app_l by lia. done.
    + case_decide as Hl.
      * rewrite last_lookup in Hl. assert (i = pred (length l)) as ->.
        { eapply NoDup_lookup; [by eapply dll_NoDup|done|done]. }
        rewrite list_lookup_middle by lia. done.
      * rewrite H2. destruct (decide (S i = length l)) as [Hs|].
        -- destruct Hl. rewrite last_lookup, <-Hs. done.
        -- rewrite lookup_app_l by lia. done.
Qed.

(** *** Unhooking ([unlink], [remove_from_ready]) *)
Lemma dll_delete nxt prv nxt' prv' l1 x l2 :
  dll nxt prv (l1 ++ x :: l2) →
  (∀ y, y ∈ l1 ++ l2 → nxt' y = if decide (last l1 = Some y) then head l2 else nxt y) →
  (∀ y, y ∈ l1 ++ l2 → prv' y = if decide (head l2 = Some y) then last l1 else prv y) →
  dll nxt' prv' (l1 ++ l2).
Proof.
  intros H Hn Hp i y Hi. pose proof (dll_NoDup _ _ _ H) as Hnd.
  pose proof (list_elem_of_lookup_2 _ _ _ Hi) as Hy. rewrite Hn, Hp by done.
  assert (∀ z, z ∈ l1 → z ∉ l2) as Hdisj.
  { apply NoDup_app in Hnd as (_ & Hd & _). intros z Hz Hz2. apply (Hd z Hz). set_solver. }
  destruct (decide (i < length l1)) as [Hlt|Hge].
  - rewrite lookup_app_l in Hi by done.
    assert (head l2 ≠ Some y) as Hh.
    { intros Hh%head_elem. eapply Hdisj; [by eapply list_elem_of_lookup_2|done]. }
    rewrite decide_False by done.
    destruct (H i y) as [H1 H2]; [by rewrite lookup_app_l|]. split.
    + rewrite H1. destruct i; simpl; [done|]. by rewrite !lookup_app_l by lia.
    + case_decide as Hl.
      * rewrite last_lookup in Hl. assert (i = pred (length l1)) as ->.
        { eapply NoDup_lookup; [by apply NoDup_app in Hnd as (?&_)|done|done]. }
        rewrite lookup_app_r by lia. replace (S (pred (length l1)) - length l1) with 0 by lia.
        by destruct l2.
      * rewrite H2. destruct (decide (S i = length l1)) as [Hs|].
        -- destruct Hl. rewrite last_lookup, <-Hs. done.
        -- by rewrite !lookup_app_l by lia.
  - rewrite lookup_app_r in Hi by lia.
    assert (last l1 ≠ Some y) as Hl.
    { intros Hl%last_elem. eapply Hdisj; [done|by eapply list_elem_of_lookup_2]. }
    rewrite (decide_False _ _ Hl).
    destruct (H (S i) y) as [H1 H2].
    { rewrite lookup_app_r by lia. replace (S i - length l1) with (S (i - length l1)) by lia. done. }
    split.
    + case_decide as Hh.
      * assert (i - length l1 = 0) as Hz.
        { eapply NoDup_lookup; [|done|by rewrite <-Hh; destruct l2].
          apply NoDup_app in Hnd as (_&_&Hnd). by apply NoDup_cons in Hnd as [_ ?]. }
        assert (i = length l1) as -> by lia. rewrite last_lookup.
        destruct l1 as [|a l1]; [done|]. cbn [before length pred].
        rewrite lookup_app_l by (simpl; lia). done.
      * rewrite H1. cbn [before]. destruct i as [|i].
        { destruct Hh. assert (l1 = []) as -> by (destruct l1; simpl in *; [done|lia]).
          simpl in Hi. by destruct l2. }
        destruct (decide (S i = length l1)) as [Hs|].
        { destruct Hh. rewrite Hs, Nat.sub_diag in Hi. by destruct l2. }
        simpl. rewrite !lookup_app_r by lia.
        replace (S i - length l1) with (S (i - length l1)) by lia. done.
    + rewrite H2. rewrite !lookup_app_r by lia.
      replace (S (S i) - length l1) with (S (S i - length l1)) by lia. done.
Qed.

(** *** Replacing one entry by another ([move_cap]) *)
Lemma dll_rename nxt prv nxt' prv' l1 x x' l2 :
  dll nxt prv (l1 ++ x :: l2) → x' ∉ l1 ++ l2 →
  nxt' x' = nxt x → prv' x' = prv x →
  (∀ y, y ∈ l1 ++ l2 → nxt' y = if decide (last l1 = Some y) then Some x' else nxt y) →
  (∀ y, y ∈ l1 ++ l2 → prv' y = if decide (head l2 = Some y) then Some x' else prv y) →
  dll nxt' prv' (l1 ++ x' :: l2).
Proof.
  intros H Hx' Hnx Hpx Hn Hp i y Hi. pose proof (dll_NoDup _ _ _ H) as Hnd.
  assert (length (l1 ++ x :: l2) = length (l1 ++ x' :: l2)) as Hlen
    by (rewrite !length_app; done).
  assert (∀ j, j ≠ length l1 → (l1 ++ x' :: l2) !! j = (l1 ++ x :: l2) !! j) as Hj.
  { intros j Hj. destruct (decide (j < length l1)).
    - by rewrite !lookup_app_l by done.
    - rewrite !lookup_app_r by lia. destruct (j - length l1) eqn:?; [lia|done]. }
  destruct (decide (i = length l1)) as [->|Hne].
  { rewrite list_lookup_middle in Hi by done. simplify_eq. rewrite Hnx, Hpx.
    destruct (H (length l1) x) as [-> ->]; [by apply list_lookup_middle|].
    split; [|by rewrite Hj by lia].
    destruct (length l1) eqn:E; simpl; [done|]. by rewrite Hj by lia. }
  rewrite Hj in Hi by done. destruct (H _ _ Hi) as [H1 H2].
  assert (y ≠ x) as Hyx.
  { intros ->. destruct Hne. eapply NoDup_lookup; [done|done|by apply list_lookup_middle]. }
  assert (y ∈ l1 ++ l2) as Hy by (apply list_elem_of_lookup_2 in Hi; set_solver).
  rewrite Hn, Hp by done. split.
  - case_decide as Hh.
    + assert (i = S (length l1)) as ->; [|by simpl; rewrite list_lookup_middle].
      eapply NoDup_lookup; [done|done|]. rewrite lookup_app_r by lia.
      replace (S (length l1) - length l1) with 1 by lia. simpl. by destruct l2.
    + rewrite H1. destruct i as [|i]; simpl; [done|]. rewrite Hj; [done|].
      intros ->. destruct Hh. rewrite lookup_app_r in Hi by lia.
      replace (S (length l1) - length l1) with 1 in Hi by lia. simpl in Hi. by destruct l2.
  - case_decide as Hl.
    + assert (S i = length l1) as Hs.
      { rewrite last_lookup in Hl. assert (0 < length l1) by (destruct l1; simpl in *; [done|lia]).
        assert (i = pred (length l1)); [|lia].
        eapply NoDup_lookup; [done|done|]. rewrite lookup_app_l by lia. done. }
      by rewrite Hs, list_lookup_middle.
    + rewrite H2, Hj; [done|]. intros Hs. destruct Hl. rewrite last_lookup, <-Hs. simpl.
      rewrite lookup_app_l in Hi by lia. done.
Qed.

(** Walking a list from its head visits exactly its entries, and no more steps
    are needed than it has entries. *)
Lemma dll_follow_drop nxt prv l i n :
  dll nxt prv l → length l - i ≤ n → follow nxt n (l !! i) = drop i l.
Proof.
  intros H. revert i. induction n as [|n IH]; intros i Hn; simpl.
  - destruct (l !! i) eqn:Hi; [apply lookup_lt_Some in Hi; lia|].
    by rewrite drop_ge by lia.
  - destruct (l !! i) as [x|] eqn:Hi.
    + destruct (H _ _ Hi) as [_ ->]. rewrite IH by lia. symmetry. by apply drop_S.
    + apply lookup_ge_None in Hi. by rewrite drop_ge by lia.
Qed.

Lemma dll_follow nxt prv l n :
  dll nxt prv l → length l ≤ n → follow nxt n (head l) = l.
Proof.
  intros H Hn. rewrite head_lookup. rewrite (dll_follow_drop _ _ _ _ _ H) by lia. done.
Qed.

(** Two lists threaded by the same pointers from the same head are equal. *)
Lemma dll_unique nxt prv l1 l2 :
  dll nxt prv l1 → dll nxt prv l2 → head l1 = head l2 → l1 = l2.
Proof.
  intros H1 H2 Hh.
  rewrite <-(dll_follow nxt prv l1 (max (length l1) (length l2)) H1) by lia.
  rewrite Hh. apply (dll_follow _ _ _ _ H2). lia.
Qed.
End dll.

Lemma dll_bounded nxt prv (l : list nat) n :
  dll nxt prv l → (∀ x, x ∈ l → x < n) → length l ≤ n.
Proof. intros H. apply NoDup_bounded_length. by eapply dll_NoDup. Qed.
