(* ===== verification/Region.v ===== *)
(** * Physical regions, rights and memory capabilities

    Models [crates/caprock-mem/src/region.rs] and [cap.rs]: a physical region is
    a base and a length in bytes, an access right is a bit set, and a
    [MemoryCap] pairs the two.  The bytes of a region are the addresses [a] with
    [in_region r a]; the allocator's and the capability space's theorems are
    stated over these sets.  *)

From S2P Require Import Prelude.
#[local] Open Scope Z_scope.

Definition PAGE : Z := 4096.

Module PhysRegion.
Record t := new { base : Z; len : Z }.

#[global] Instance eq_dec : EqDecision t.
Proof. solve_decision. Defined.

(** [end(&self)]: a wrapping [u64] addition. *)
Definition end_ (r : t) : Z := wrapping_add 64 (base r) (len r).
Definition is_empty (r : t) : bool := len r =? 0.
Definition contains (r : t) (addr : Z) : bool :=
  (base r <=? addr) && (addr <? end_ r).
Definition contains_region (r other : t) : bool :=
  (base r <=? base other) && (end_ other <=? end_ r).

(** The addresses a region stands for, and a region whose end is an address. *)
Definition inside (r : t) (a : Z) : Prop := base r <= a < base r + len r.
Definition wf (r : t) : Prop := 0 <= base r ∧ 0 <= len r ∧ base r + len r < 2 ^ 64.
Definition disjoint (r s : t) : Prop := ∀ a, inside r a → inside s a → False.
Definition subset (r s : t) : Prop := ∀ a, inside r a → inside s a.

Lemma end_exact r : wf r → end_ r = base r + len r.
Proof. intros (?&?&?). apply wrapping_add_exact. unfold in_width. lia. Qed.

Lemma contains_spec r a : wf r → contains r a = true ↔ inside r a.
Proof.
  intros H. unfold contains, inside. rewrite end_exact by done.
  rewrite andb_true_iff, Z.leb_le, Z.ltb_lt. done.
Qed.

Lemma contains_region_subset r s :
  wf r → wf s → contains_region r s = true → subset s r.
Proof.
  intros Hr Hs. unfold contains_region. rewrite !end_exact by done.
  rewrite andb_true_iff, !Z.leb_le. unfold subset, inside. lia.
Qed.

Lemma subset_contains_region r s :
  wf r → wf s → 0 < len s → subset s r → contains_region r s = true.
Proof.
  intros Hr Hs Hl Hsub. unfold contains_region. rewrite !end_exact by done.
  rewrite andb_true_iff, !Z.leb_le.
  pose proof (Hsub (base s)) as H1. pose proof (Hsub (base s + len s - 1)) as H2.
  unfold inside in *. lia.
Qed.

#[global] Instance subset_preorder : PreOrder subset.
Proof. split; unfold subset; [intros ?; done|intros ???; auto]. Qed.
End PhysRegion.

Module Rights.
(** [struct Rights(u8)] *)
Definition t : Type := Z.
Definition NONE : t := 0.
Definition READ : t := 1.
Definition WRITE : t := 2.
Definition EXEC : t := 4.
Definition RW : t := 3.
Definition RWX : t := 7.

Definition contains (r other : t) : bool := Z.land r other =? other.
Definition intersect (r other : t) : t := Z.land r other.
Definition union (r other : t) : t := Z.lor r other.

(** [le r s]: every right of [r] is one of [s]; what [contains] tests. *)
Definition le (r s : t) : Prop := ∀ i, 0 <= i → Z.testbit r i = true → Z.testbit s i = true.

Lemma contains_le r s : contains s r = true ↔ le r s.
Proof.
  unfold contains, le. rewrite Z.eqb_eq. split.
  - intros H i Hi Hr. rewrite <-H in Hr. rewrite Z.land_spec in Hr.
    by apply andb_true_iff in Hr as [? _].
  - intros H. apply Z.bits_inj'. intros i Hi. rewrite Z.land_spec.
    destruct (Z.testbit r i) eqn:E; [rewrite (H i) by done; done|].
    by rewrite andb_false_r.
Qed.

Lemma intersect_le_l r s : le (intersect r s) r.
Proof. intros i Hi. unfold intersect. rewrite Z.land_spec. by intros [? _]%andb_true_iff. Qed.

Lemma intersect_le_r r s : le (intersect r s) s.
Proof. intros i Hi. unfold intersect. rewrite Z.land_spec. by intros [_ ?]%andb_true_iff. Qed.

Lemma intersect_glb r s u : le u r → le u s → le u (intersect r s).
Proof. intros H1 H2 i Hi Hu. unfold intersect. rewrite Z.land_spec. by rewrite H1, H2. Qed.

#[global] Instance le_preorder : PreOrder le.
Proof. split; unfold le; [intros ?; done|intros ???; auto]. Qed.
End Rights.

Module MemoryCap.
(** [struct MemoryCap]: linear in the source, so that its owner is the only one
    that can pass it on; the functions below consume it and return what the
    caller owns afterwards. *)
Record t := new { region : PhysRegion.t; rights : Rights.t }.

Definition split (c : t) (first_len : Z) : result (t * t) t :=
  let r := region c in
  if (first_len =? 0) || (PhysRegion.len r <=? first_len) then Err c
  else
    Ok (new (PhysRegion.new (PhysRegion.base r) first_len) (rights c),
        new (PhysRegion.new (wrapping_add 64 (PhysRegion.base r) first_len)
                            (wrapping_sub 64 (PhysRegion.len r) first_len)) (rights c)).

Definition restrict (c : t) (rs : Rights.t) : t :=
  new (region c) (Rights.intersect (rights c) rs).
End MemoryCap.

(** ** Theorems *)

Import PhysRegion.

(** Splitting a memory capability loses and duplicates nothing: the two halves
    are non-empty, disjoint, together the region, with the parent's rights; an
    out-of-range length gives the capability back unchanged. *)
Theorem memory_cap_split_partition (c : MemoryCap.t) (first_len : Z) :
  PhysRegion.wf (MemoryCap.region c) → in_width 64 first_len →
  match MemoryCap.split c first_len with
  | Ok (a, b) =>
      (∀ x, inside (MemoryCap.region c) x ↔
            inside (MemoryCap.region a) x ∨ inside (MemoryCap.region b) x) ∧
      PhysRegion.disjoint (MemoryCap.region a) (MemoryCap.region b) ∧
      0 < len (MemoryCap.region a) ∧ 0 < len (MemoryCap.region b) ∧
      PhysRegion.wf (MemoryCap.region a) ∧ PhysRegion.wf (MemoryCap.region b) ∧
      MemoryCap.rights a = MemoryCap.rights c ∧ MemoryCap.rights b = MemoryCap.rights c
  | Err c' => c' = c ∧ ¬ (0 < first_len < len (MemoryCap.region c))
  end.
Proof.
  destruct c as [[b l] rs]. unfold MemoryCap.split, wf, in_width. simpl.
  intros (Hb & Hl & He) Hf.
  destruct (Z.eqb_spec first_len 0); simpl; [split; [done|lia]|].
  destruct (Z.leb_spec l first_len); simpl; [split; [done|lia]|].
  rewrite wrapping_add_exact, wrapping_sub_exact by (unfold in_width; lia).
  unfold disjoint, inside. simpl. split_and!; try done; try lia; intros; lia.
Qed.

Lemma memory_cap_split_partition_witness :
  match MemoryCap.split (MemoryCap.new (PhysRegion.new 4096 8192) Rights.RW) 4096 with
  | Ok (a, b) => PhysRegion.disjoint (MemoryCap.region a) (MemoryCap.region b)
  | Err _ => False
  end.
Proof.
  pose proof (memory_cap_split_partition (MemoryCap.new (PhysRegion.new 4096 8192) Rights.RW) 4096) as H.
  apply H.
  - unfold wf. simpl. lia.
  - unfold in_width. lia.
Defined.
