(* ===== verification/Color.v ===== *)
(** * Page colours

    Models [crates/caprock-mem/src/color.rs]: the colour of a physical page, a
    colour set as a 64-bit mask, the partition of the colours into [n] stripes
    and the choice of a free stripe.  *)

From S2P Require Import Prelude Region.
#[local] Open Scope Z_scope.

Module ColorMask.
(** [struct ColorMask(pub u64)] *)
Definition t : Type := Z.
Definition MASK_BITS : Z := 64.
Definition EMPTY : t := 0.
Definition ALL : t := max_value 64.

Definition contains (m : t) (c : Z) : bool :=
  negb (Z.land m (Z.shiftl 1 (c mod MASK_BITS)) =? 0).
Definition is_empty (m : t) : bool := m =? 0.
Definition intersects (m other : t) : bool := negb (Z.land m other =? 0).

Lemma contains_testbit m c : contains m c = Z.testbit m (c mod 64).
Proof.
  unfold contains, MASK_BITS.
  assert (0 <= c mod 64 < 64) by (apply Z.mod_pos_bound; lia).
  set (i := c mod 64) in *. destruct (Z.testbit m i) eqn:E.
  - apply negb_true_iff, Z.eqb_neq. intros H0.
    apply (f_equal (λ z, Z.testbit z i)) in H0.
    rewrite Z.land_spec, E, Z.shiftl_spec, Z.sub_diag, Z.bits_0 in H0 by lia. done.
  - apply negb_false_iff, Z.eqb_eq, Z.bits_inj'. intros j Hj.
    rewrite Z.land_spec, Z.bits_0, Z.shiftl_spec by lia.
    destruct (decide (j = i)) as [->|]; [by rewrite E|].
    destruct (Z.ltb_spec (j - i) 0); [by rewrite (Z.testbit_neg_r 1) by lia; rewrite andb_false_r|].
    rewrite (Z.bits_above_log2 1) by (simpl; lia). by rewrite andb_false_r.
Qed.

Lemma intersects_contains m m' c :
  contains m c = true → contains m' c = true → intersects m m' = true.
Proof.
  rewrite !contains_testbit. intros H1 H2. unfold intersects.
  apply negb_true_iff, Z.eqb_neq. intros H0.
  apply (f_equal (λ z, Z.testbit z (c mod 64))) in H0.
  by rewrite Z.land_spec, H1, H2, Z.bits_0 in H0.
Qed.
End ColorMask.
Export ColorMask (MASK_BITS).

(** [colors] is a [u32]; the cast [as u32] truncates the page number. *)
Definition color_of (pa colors : Z) : Z :=
  if colors <=? 1 then 0
  else Z.land ((pa / PAGE) mod 2 ^ 32) (colors - 1).

(** [u32::is_power_of_two] *)
Definition is_power_of_two (n : Z) : bool := (0 <? n) && (Z.land n (n - 1) =? 0).

(** The repetition loop of [stripe]: [while off < 64 { bits |= block << off; .. }];
    [fuel] 64 covers every step width of at least one bit. *)
Fixpoint stripe_loop (fuel : nat) (block live off bits : Z) : Z :=
  match fuel with
  | O => bits
  | S fuel =>
      if off <? MASK_BITS
      then stripe_loop fuel block live (off + live)
             (Z.lor bits (Z.land (Z.shiftl block off) (max_value 64)))
      else bits
  end.

Definition stripe (i n colors : Z) : option ColorMask.t :=
  if (n =? 0) || (n <=? i) || negb (is_power_of_two n) then None
  else if (colors =? 0) || negb (is_power_of_two colors) then None
  else
    let live := if colors <? MASK_BITS then colors else MASK_BITS in
    if live <? n then None
    else
      let per := live / n in
      let lo := i * per in
      let block :=
        if per =? MASK_BITS then max_value 64
        else Z.land (Z.shiftl (Z.shiftl 1 per - 1) lo) (max_value 64) in
      Some (stripe_loop 64 block live 0 0).

(** [pick_free]: the [while i < n] loop, from [i], [fuel] steps at most. *)
Fixpoint pick_free_loop (fuel : nat) (taken n i : Z) : option Z :=
  match fuel with
  | O => None
  | S fuel =>
      if i <? n then
        if Z.land taken (Z.shiftl 1 i) =? 0 then Some i
        else pick_free_loop fuel taken n (i + 1)
      else None
  end.

Definition pick_free (taken n : Z) : option Z :=
  if (n =? 0) || (32 <? n) then None else pick_free_loop 32 taken n 0.

(** ** Lemmas *)

Lemma is_power_of_two_exp n :
  is_power_of_two n = true → n = 2 ^ Z.log2 n.
Proof.
  unfold is_power_of_two. rewrite andb_true_iff, Z.ltb_lt, Z.eqb_eq. intros [Hn H].
  destruct (Z.log2_spec n Hn) as [H1 H2].
  destruct (decide (n = 2 ^ Z.log2 n)) as [|Hne]; [done|].
  pose proof (Z.log2_nonneg n).
  assert (Z.log2 (n - 1) = Z.log2 n) as Hl.
  { apply Z.log2_unique; [done|]. lia. }
  exfalso. apply (f_equal (λ z, Z.testbit z (Z.log2 n))) in H.
  rewrite Z.land_spec, Z.bits_0, (Z.bit_log2 n), <-Hl, (Z.bit_log2 (n - 1)) in H by lia.
  done.
Qed.

Lemma is_power_of_two_small n :
  is_power_of_two n = true → n <= 64 → n ∈ [1; 2; 4; 8; 16; 32; 64].
Proof.
  intros Hp%is_power_of_two_exp Hn. pose proof (Z.log2_nonneg n).
  assert (Z.log2 n <= 6) by (apply (Z.log2_le_mono n 64); lia).
  rewrite Hp. generalize dependent (Z.log2 n). intros k _ Hk Hk'.
  assert (k = 0 ∨ k = 1 ∨ k = 2 ∨ k = 3 ∨ k = 4 ∨ k = 5 ∨ k = 6) as Hcase by lia.
  destruct_or! Hcase; subst k; set_solver.
Qed.

(** The live width of the masks for [colors] colours. *)
Definition live_of (colors : Z) : Z := if colors <? MASK_BITS then colors else MASK_BITS.

(** The mask [stripe] computes, and the check of its bits for one live width,
    one [n] and one [i]. *)
Definition stripe_mask (live n i : Z) : Z :=
  let per := live / n in
  stripe_loop 64
    (if per =? MASK_BITS then max_value 64
     else Z.land (Z.shiftl (Z.shiftl 1 per - 1) (i * per)) (max_value 64)) live 0 0.

Definition stripe_bits_ok (live n i : Z) : bool :=
  let m := stripe_mask live n i in
  (0 <=? m) && (m <? 2 ^ 64) &&
  forallb (λ k, Bool.eqb (Z.testbit m k) (k mod live / (live / n) =? i)) (seqZ 0 64).

Lemma stripe_bits_all :
  forallb (λ live, forallb (λ n, (live <? n) ||
    forallb (λ i, stripe_bits_ok live n i) (seqZ 0 n))
    [1; 2; 4; 8; 16; 32; 64]) [1; 2; 4; 8; 16; 32; 64] = true.
Proof. vm_compute. reflexivity. Qed.

Lemma live_of_small colors :
  is_power_of_two colors = true → live_of colors ∈ [1; 2; 4; 8; 16; 32; 64].
Proof.
  intros H. unfold live_of, MASK_BITS. destruct (Z.ltb_spec colors 64); [|set_solver].
  apply is_power_of_two_small; [done|lia].
Qed.

Lemma pow2_of_small live : live ∈ [1; 2; 4; 8; 16; 32; 64] → 0 < live ∧ (live | 64).
Proof.
  intros H. repeat (apply elem_of_cons in H as [->|H]; [split; [lia|]|]).
  all: try by (apply Z.mod_divide; [lia|reflexivity]).
  by apply elem_of_nil in H.
Qed.

Lemma stripe_eq i n colors :
  is_power_of_two n = true → is_power_of_two colors = true →
  0 <= i < n → n <= live_of colors →
  ∃ m, stripe i n colors = Some m ∧ in_width 64 m ∧
    ∀ k, 0 <= k < 64 → Z.testbit m k = (k mod live_of colors / (live_of colors / n) =? i).
Proof.
  intros Hn Hc Hi Hle. unfold stripe. rewrite Hn, Hc. fold (live_of colors).
  assert (0 < colors) by (unfold is_power_of_two in Hc; apply andb_true_iff in Hc as [?%Z.ltb_lt _]; done).
  rewrite (proj2 (Z.eqb_neq n 0)), (proj2 (Z.leb_gt n i)), (proj2 (Z.eqb_neq colors 0)),
    (proj2 (Z.ltb_ge (live_of colors) n)) by lia.
  cbn [orb negb]. exists (stripe_mask (live_of colors) n i). split; [reflexivity|].
  pose proof (live_of_small _ Hc) as Hl.
  pose proof stripe_bits_all as Hall. rewrite forallb_forall in Hall.
  specialize (Hall _ (proj1 (list_elem_of_In _ _) Hl)). rewrite forallb_forall in Hall.
  assert (n ∈ [1; 2; 4; 8; 16; 32; 64]) as Hn'.
  { apply is_power_of_two_small; [done|]. pose proof (pow2_of_small _ Hl) as [? Hd].
    apply Z.divide_pos_le in Hd; lia. }
  specialize (Hall _ (proj1 (list_elem_of_In _ _) Hn')).
  apply orb_true_iff in Hall as [?%Z.ltb_lt|Hall]; [lia|]. rewrite forallb_forall in Hall.
  specialize (Hall i). rewrite <-list_elem_of_In, elem_of_seqZ in Hall.
  specialize (Hall ltac:(lia)). unfold stripe_bits_ok in Hall.
  apply andb_true_iff in Hall as [Hw Hb]. apply andb_true_iff in Hw as [Hw1%Z.leb_le Hw2%Z.ltb_lt].
  split; [done|]. intros k Hk. rewrite forallb_forall in Hb. specialize (Hb k).
  rewrite <-list_elem_of_In, elem_of_seqZ in Hb. apply eqb_prop, Hb. lia.
Qed.

Lemma pick_free_loop_spec fuel taken n i :
  0 <= i → n - i <= Z.of_nat fuel →
  match pick_free_loop fuel taken n i with
  | Some j => i <= j < n ∧ Z.testbit taken j = false ∧
              ∀ k, i <= k < j → Z.testbit taken k = true
  | None => ∀ k, i <= k < n → Z.testbit taken k = true
  end.
Proof.
  assert (∀ k, 0 <= k → (Z.land taken (Z.shiftl 1 k) =? 0) = negb (Z.testbit taken k)) as Hbit.
  { intros k Hk. rewrite Z.shiftl_1_l. destruct (Z.testbit taken k) eqn:E; simpl.
    - apply Z.eqb_neq. intros H. apply (f_equal (λ z, Z.testbit z k)) in H.
      rewrite Z.land_spec, E, Z.pow2_bits_true, Z.bits_0 in H by done. done.
    - apply Z.eqb_eq, Z.bits_inj'. intros j Hj.
      rewrite Z.land_spec, Z.bits_0. destruct (decide (j = k)) as [->|]; [by rewrite E|].
      rewrite Z.pow2_bits_false by done. apply andb_false_r. }
  revert i. induction fuel as [|fuel IH]; intros i Hi Hf; simpl; [intros; lia|].
  destruct (Z.ltb_spec i n); [|intros; lia]. rewrite Hbit by done.
  destruct (Z.testbit taken i) eqn:E; simpl; [|split_and!; [lia..|done|intros; lia]].
  specialize (IH (i + 1) ltac:(lia) ltac:(lia)).
  destruct (pick_free_loop fuel taken n (i + 1)) as [j|].
  - destruct IH as (? & ? & Hk). split_and!; [lia..|done|]. intros k ?.
    destruct (decide (k = i)) as [->|]; [done|]. apply Hk. lia.
  - intros k ?. destruct (decide (k = i)) as [->|]; [done|]. apply IH. lia.
Qed.

Lemma color_of_mod pa colors :
  is_power_of_two colors = true → colors <= 2 ^ 32 →
  color_of pa colors = (pa / PAGE) mod colors.
Proof.
  intros Hp Hle. unfold color_of. rewrite (is_power_of_two_exp _ Hp) in *.
  set (k := Z.log2 colors) in *. pose proof (Z.log2_nonneg colors).
  destruct (Z.leb_spec (2 ^ k) 1) as [Hk|Hk].
  - assert (k = 0) as ->. { destruct (decide (k = 0)); [done|].
      assert (2 ^ 1 <= 2 ^ k) by (apply Z.pow_le_mono_r; lia). lia. }
    by rewrite Z.mod_1_r.
  - rewrite Z.sub_1_r, <-Z.ones_equiv, Z.land_ones by done.
    rewrite <-Znumtheory.Zmod_div_mod; [done|lia|lia|].
    exists (2 ^ (32 - k)). rewrite <-Z.pow_add_r; [f_equal; lia| |lia].
    destruct (decide (k <= 32)); [lia|].
    assert (2 ^ 32 < 2 ^ k) by (apply Z.pow_lt_mono_r; lia). lia.
Qed.

(** ** Theorems *)

(** The [n] stripes of a power-of-two partition are real colour sets: each is
    a 64-bit mask, holds exactly the colours of its own block, and every colour
    of the machine lies in exactly one of them. *)
Theorem stripe_partition (n colors : Z) :
  is_power_of_two n = true → is_power_of_two colors = true →
  n <= Z.min colors 64 →
  (∀ i, 0 <= i < n → ∃ m, stripe i n colors = Some m ∧ in_width 64 m ∧
     ∃ c, 0 <= c < colors ∧ ColorMask.contains m c = true) ∧
  (∀ i j m m', 0 <= i < n → 0 <= j < n → i ≠ j →
     stripe i n colors = Some m → stripe j n colors = Some m' →
     ColorMask.intersects m m' = false) ∧
  (∀ c, 0 <= c → ∃ i m, 0 <= i < n ∧ stripe i n colors = Some m ∧
     ColorMask.contains m c = true).
Proof.
  intros Hn Hc Hle.
  assert (n <= live_of colors) as Hle'.
  { unfold live_of, MASK_BITS. destruct (Z.ltb_spec colors 64); lia. }
  pose proof (pow2_of_small _ (live_of_small _ Hc)) as [Hl Hd].
  assert (0 < n) as Hn0 by (rewrite (is_power_of_two_exp _ Hn); apply Z.pow_pos_nonneg; [lia|apply Z.log2_nonneg]).
  assert (live_of colors <= colors) as Hlc by (unfold live_of, MASK_BITS; destruct (Z.ltb_spec colors 64); lia).
  set (live := live_of colors) in *. set (per := live / n).
  assert (0 < per) as Hper by (apply Z.div_str_pos; lia).
  assert (n * per = live) as Hnp.
  { symmetry. apply Z.div_exact; [lia|]. apply Z.mod_divide; [lia|].
    rewrite (is_power_of_two_exp _ Hn). pose proof (live_of_small _ Hc) as Hs.
    assert (live = 2 ^ Z.log2 live) as Hl2.
    { fold live in Hs. clear -Hs. repeat (apply elem_of_cons in Hs as [->|Hs]; [reflexivity|]).
      by apply elem_of_nil in Hs. }
    assert (Z.log2 n <= Z.log2 live) by (apply Z.log2_le_mono; lia).
    rewrite Hl2. exists (2 ^ (Z.log2 live - Z.log2 n)).
    rewrite <-Z.pow_add_r by (pose proof (Z.log2_nonneg n); lia). f_equal. lia. }
  assert (∀ c, (c mod 64) mod live = c mod live) as Hmm.
  { intros c. symmetry. apply Znumtheory.Zmod_div_mod; [lia|lia|done]. }
  split_and!.
  - intros i Hi. destruct (stripe_eq i n colors) as (m & Hm & Hw & Hb); [done..|].
    exists m. split_and!; [done|done|]. exists (i * per).
    assert (0 <= i * per < live) by nia. split; [lia|].
    rewrite ColorMask.contains_testbit, Hb by (apply Z.mod_pos_bound; lia).
    fold live per. rewrite Hmm, Z.mod_small, Z.div_mul by lia. apply Z.eqb_refl.
  - intros i j m m' Hi Hj Hij Hm Hm'.
    destruct (stripe_eq i n colors) as (m1 & Hm1 & Hw & Hb); [done..|].
    destruct (stripe_eq j n colors) as (m2 & Hm2 & Hw' & Hb'); [done..|].
    simplify_eq. unfold ColorMask.intersects. apply negb_false_iff, Z.eqb_eq, Z.bits_inj'.
    intros k Hk. rewrite Z.land_spec, Z.bits_0. destruct (decide (k < 64)).
    + rewrite Hb, Hb' by lia. destruct (Z.eqb_spec (k mod live_of colors / (live_of colors / n)) i) as [->|]; [|done].
      by apply Z.eqb_neq.
    + unfold in_width in *. rewrite <-(Z.mod_small m' (2 ^ 64)), Z.mod_pow2_bits_high by lia.
      apply andb_false_r.
  - intros c Hc0. exists (c mod live / per).
    assert (0 <= c mod live < live) by (apply Z.mod_pos_bound; lia).
    assert (0 <= c mod live / per < n) as Hi.
    { split; [apply Z.div_pos; lia|]. apply Z.div_lt_upper_bound; lia. }
    destruct (stripe_eq (c mod live / per) n colors) as (m & Hm & Hw & Hb); [done..|].
    exists m. split_and!; [lia..|done|].
    rewrite ColorMask.contains_testbit, Hb by (apply Z.mod_pos_bound; lia).
    fold live per. rewrite Hmm. apply Z.eqb_refl.
Qed.

(** [pick_free] hands out the lowest free stripe, and [None] exactly when all
    [n] stripes are taken (or [n] is no valid count). *)
Theorem pick_free_lowest (taken n : Z) :
  match pick_free taken n with
  | Some i => 0 <= i < n ∧ n <= 32 ∧ Z.testbit taken i = false ∧
              ∀ k, 0 <= k < i → Z.testbit taken k = true
  | None => n = 0 ∨ 32 < n ∨ ∀ k, 0 <= k < n → Z.testbit taken k = true
  end.
Proof.
  unfold pick_free. destruct (Z.eqb_spec n 0); cbn [orb]; [by left|].
  destruct (Z.ltb_spec 32 n); [by right; left|].
  pose proof (pick_free_loop_spec 32 taken n 0 ltac:(lia) ltac:(lia)) as H'.
  destruct (pick_free_loop 32 taken n 0); [|by right; right].
  destruct H' as (?&?&?). done.
Qed.

Lemma stripe_partition_witness :
  ∃ m, stripe 3 4 16 = Some m ∧ in_width 64 m ∧ ∃ c, 0 <= c < 16 ∧ ColorMask.contains m c = true.
Proof.
  destruct (stripe_partition 4 16) as (H & _ & _); [reflexivity|reflexivity|lia|].
  apply (H 3). lia.
Defined.
