(* ===== verification/PhysAlloc.v ===== *)
(** * The physical memory allocator

    Models [crates/caprock-mem/src/alloc.rs].  The array [regions[0..len]] is the
    list of its live entries: the entries from [len] on are never read.  An
    insertion shifts the tail up ([insert_sorted]), [remove] shifts it down, and
    [coalesce] merges a fragment with its successor as long as they touch.

    The abstract state of the allocator is the set of free addresses
    [is_free l]; [wf] is the invariant of the list.  *)

From S2P Require Import Prelude Region Color.
#[local] Open Scope Z_scope.

Module PhysAllocator.
Definition MAX_FRAGMENTS : nat := 1024.

(** [self.regions[..self.len]] *)
Definition t : Type := list PhysRegion.t.

Definition run_is_colored (start npages colors : Z) (mask : ColorMask.t) : bool :=
  forallb (λ j, ColorMask.contains mask
                  (color_of (wrapping_add 64 start (wrapping_mul 64 j PAGE)) colors))
          (seqZ 0 npages).

Definition align_up (value align : Z) : Z :=
  Z.land (wrapping_add 64 value (align - 1)) (max_value 64 - (align - 1)).

(** The loop of [coalesce] with [self.regions[i]] = [a]: merge with the next
    fragment and stay at [i], or go on to [i + 1]. *)
Fixpoint coalesce_from (a : PhysRegion.t) (l : t) : t :=
  match l with
  | [] => [a]
  | b :: l =>
      if PhysRegion.end_ a =? PhysRegion.base b
      then coalesce_from (PhysRegion.new (PhysRegion.base a)
                            (wrapping_add 64 (PhysRegion.len a) (PhysRegion.len b))) l
      else a :: coalesce_from b l
  end.

Definition coalesce (l : t) : t :=
  match l with [] => [] | a :: l => coalesce_from a l end.

(** The first position whose base is not below [r.base]; the tail moves up. *)
Fixpoint insert_sorted (r : PhysRegion.t) (l : t) : t :=
  match l with
  | [] => [r]
  | x :: l' =>
      if PhysRegion.base x <? PhysRegion.base r
      then x :: insert_sorted r l' else r :: l
  end.

Definition insert (r : PhysRegion.t) (l : t) : bool * t :=
  if PhysRegion.is_empty r then (true, l)
  else if decide (MAX_FRAGMENTS ≤ length l)%nat then (false, l)
  else (true, coalesce (insert_sorted r l)).

Definition remove (idx : nat) (l : list PhysRegion.t) : t := delete idx l.

Definition new : t := [].
Definition add_region (base len : Z) (l : t) : bool * t :=
  insert (PhysRegion.new base len) l.
Definition free_region (r : PhysRegion.t) (l : t) : bool * t := insert r l.
Definition free (c : MemoryCap.t) (l : t) : bool * t := insert (MemoryCap.region c) l.

(** One iteration of the search of [alloc_in]: the start and the usable length
    of fragment [r], where it can take the request. *)
Definition fit (count : nat) (size align lo hi : Z) (r : PhysRegion.t) : option (Z * Z) :=
  let zone_start := Z.max (PhysRegion.base r) lo in
  let zone_end := Z.min (PhysRegion.end_ r) hi in
  if zone_end <=? zone_start then None
  else
    let start := align_up zone_start align in
    match checked_add 64 start size with
    | None => None
    | Some e =>
        let nutzbar := zone_end - zone_start in
        if (PhysRegion.base r <=? start) && (e <=? zone_end) then
          let two_sided := (PhysRegion.base r <? start) && (e <? PhysRegion.end_ r) in
          if two_sided && bool_decide (MAX_FRAGMENTS ≤ count)%nat then None
          else Some (start, nutzbar)
        else None
    end.

Fixpoint best_fit (cand : PhysRegion.t → option (Z * Z)) (l : t) (i : nat)
    (best : option (nat * Z * Z)) : option (nat * Z * Z) :=
  match l with
  | [] => best
  | r :: l =>
      best_fit cand l (S i)
        match cand r with
        | None => best
        | Some (start, nutzbar) =>
            if match best with None => true | Some (_, _, n) => nutzbar <? n end
            then Some (i, start, nutzbar) else best
        end
  end.

(** The common tail of [alloc_in] and [alloc_colored_vorspann_in]: cut
    [start, start + size) out of fragment [i]. *)
Definition carve (i : nat) (r : PhysRegion.t) (start size : Z) (l : t) : t :=
  let e := wrapping_add 64 start size in
  let l := remove i l in
  let l := (insert (PhysRegion.new (PhysRegion.base r)
                      (wrapping_sub 64 start (PhysRegion.base r))) l).2 in
  (insert (PhysRegion.new e (wrapping_sub 64 (PhysRegion.end_ r) e)) l).2.

Definition alloc_in (size align lo hi : Z) (l : t) : option MemoryCap.t * t :=
  let align := Z.max align PAGE in
  let size := align_up (Z.max size 1) PAGE in
  match best_fit (fit (length l) size align lo hi) l 0 None with
  | None => (None, l)
  | Some (i, start, _) =>
      match l !! i with
      | None => (None, l)
      | Some r =>
          (Some (MemoryCap.new (PhysRegion.new start size) Rights.RW),
           carve i r start size l)
      end
  end.

Definition alloc_below (size align limit : Z) (l : t) : option MemoryCap.t * t :=
  alloc_in size align 0 limit l.
Definition alloc (size align : Z) (l : t) : option MemoryCap.t * t :=
  alloc_below size align (max_value 64) l.

(** The inner [while tries <= colors] loop: the first start, in steps of
    [align], whose pages from [vorspann] on are coloured. *)
Fixpoint colored_start (fuel : nat) (vorspann gefaerbt size step colors : Z)
    (mask : ColorMask.t) (zone_end start : Z) : option Z :=
  match fuel with
  | O => None
  | S fuel =>
      match checked_add 64 start size with
      | None => None
      | Some e =>
          if zone_end <? e then None
          else if run_is_colored (wrapping_add 64 start (wrapping_mul 64 vorspann PAGE))
                    gefaerbt colors mask then Some start
          else
            match checked_add 64 start step with
            | None => None
            | Some next =>
                colored_start fuel vorspann gefaerbt size step colors mask zone_end next
            end
      end
  end.

Definition colored_fit (count : nat) (vorspann gefaerbt size align colors : Z)
    (mask : ColorMask.t) (lo hi : Z) (r : PhysRegion.t) : option (Z * Z) :=
  let zone_start := Z.max (PhysRegion.base r) lo in
  let zone_end := Z.min (PhysRegion.end_ r) hi in
  if zone_end <=? zone_start then None
  else
    match colored_start (Z.to_nat (colors + 1)) vorspann gefaerbt size align colors mask
            zone_end (align_up zone_start align) with
    | None => None
    | Some start =>
        let e := wrapping_add 64 start size in
        let two_sided := (PhysRegion.base r <? start) && (e <? PhysRegion.end_ r) in
        if two_sided && bool_decide (MAX_FRAGMENTS ≤ count)%nat then None
        else Some (start, zone_end - zone_start)
    end.

(** [best]/[best_nutzbar] start as [None]/[u64::MAX]: a usable part of that
    length would not be taken. *)
Fixpoint colored_best (cand : PhysRegion.t → option (Z * Z)) (l : t) (i : nat)
    (best : option (nat * Z)) (best_nutzbar : Z) : option (nat * Z) :=
  match l with
  | [] => best
  | r :: l =>
      match cand r with
      | Some (start, nutzbar) =>
          if nutzbar <? best_nutzbar
          then colored_best cand l (S i) (Some (i, start)) nutzbar
          else colored_best cand l (S i) best best_nutzbar
      | None => colored_best cand l (S i) best best_nutzbar
      end
  end.

Definition alloc_colored_vorspann_in (vorspann size align colors : Z) (mask : ColorMask.t)
    (lo hi : Z) (l : t) : option MemoryCap.t * t :=
  if ColorMask.is_empty mask then (None, l)
  else if (colors <=? 1) || (mask =? ColorMask.ALL) then alloc_in size align lo hi l
  else
    let align := Z.max align PAGE in
    let size := align_up (Z.max size 1) PAGE in
    let npages := size / PAGE in
    if npages <=? vorspann then (None, l)
    else
      let gefaerbt := npages - vorspann in
      if MASK_BITS <? gefaerbt then (None, l)
      else
        match colored_best
                (colored_fit (length l) vorspann gefaerbt size align colors mask lo hi)
                l 0 None (max_value 64) with
        | None => (None, l)
        | Some (i, start) =>
            match l !! i with
            | None => (None, l)
            | Some r =>
                (Some (MemoryCap.new (PhysRegion.new start size) Rights.RW),
                 carve i r start size l)
            end
        end.

Definition alloc_colored_in (size align colors : Z) (mask : ColorMask.t) (lo hi : Z) (l : t) :=
  alloc_colored_vorspann_in 0 size align colors mask lo hi l.
Definition alloc_colored_below (size align colors : Z) (mask : ColorMask.t) (limit : Z) (l : t) :=
  alloc_colored_in size align colors mask 0 limit l.
Definition alloc_colored (size align colors : Z) (mask : ColorMask.t) (l : t) :=
  alloc_colored_below size align colors mask (max_value 64) l.

Definition fully_free (base len : Z) (l : t) : bool :=
  if len =? 0 then true
  else
    match checked_add 64 base len with
    | None => false
    | Some e =>
        existsb (λ r, (PhysRegion.base r <=? base) && (e <=? PhysRegion.end_ r)) l
    end.

Definition total_free (l : t) : Z :=
  fold_left (λ sum r, wrapping_add 64 sum (PhysRegion.len r)) l 0.

Definition fragments (l : t) : nat := length l.

Definition overlaps_free (base len : Z) (l : t) : bool :=
  if len =? 0 then false
  else
    let e := saturating_add 64 base len in
    existsb (λ r, (base <? wrapping_add 64 (PhysRegion.base r) (PhysRegion.len r)) &&
                  (PhysRegion.base r <? e)) l.
End PhysAllocator.
