(* ===== verification/PhysAllocSpec.v ===== *)
(** * The allocator refines a set of free addresses

    The invariant of the free list (sorted, non-empty fragments that never
    touch, ends below [ADDR_LIMIT]) and what each operation of [PhysAlloc] does
    to the set of free addresses: [insert] adds a region, [carve] removes one,
    the searches find a fragment whenever one exists.  *)

From S2P Require Import Prelude Region Color PhysAlloc.
#[local] Open Scope Z_scope.
Import PhysAllocator.

(** Physical addresses are far below 2^63 (both targets have at most 52 bits):
    no alignment of an address of the free list can wrap. *)
Definition ADDR_LIMIT : Z := 2 ^ 63.

(** Fragments in order from [lo] on, [g] bytes apart at least. *)
Fixpoint frags (g lo : Z) (l : t) : Prop :=
  match l with
  | [] => True
  | r :: l =>
      lo <= PhysRegion.base r ∧ 0 < PhysRegion.len r ∧
      PhysRegion.base r + PhysRegion.len r <= ADDR_LIMIT ∧
      frags g (PhysRegion.base r + PhysRegion.len r + g) l
  end.

Definition wf (l : t) : Prop := frags 1 0 l ∧ (length l ≤ MAX_FRAGMENTS)%nat.
Definition is_free (l : t) (a : Z) : Prop := ∃ r, r ∈ l ∧ PhysRegion.inside r a.
Definition bytes (l : t) : Z := foldr (λ r s, PhysRegion.len r + s) 0 l.

(** A region the allocator can be given back. *)
Definition region_ok (r : PhysRegion.t) : Prop :=
  0 <= PhysRegion.base r ∧ 0 <= PhysRegion.len r ∧
  PhysRegion.base r + PhysRegion.len r <= ADDR_LIMIT.

Definition is_align (a : Z) : Prop := ∃ k, 0 <= k < 64 ∧ a = 2 ^ k.

(** ** Machine arithmetic below the limit *)

Ltac limits := unfold ADDR_LIMIT, in_width, max_value, PAGE in *.

Lemma region_ok_end r : region_ok r →
  PhysRegion.end_ r = PhysRegion.base r + PhysRegion.len r.
Proof. intros (?&?&?). apply wrapping_add_exact. limits. lia. Qed.

Lemma align_up_div v k : 0 <= k < 64 → 0 <= v → v + 2 ^ k - 1 < 2 ^ 64 →
  align_up v (2 ^ k) = (v + 2 ^ k - 1) / 2 ^ k * 2 ^ k.
Proof.
  intros Hk Hv Hlt. unfold align_up.
  assert (0 < 2 ^ k) by (apply Z.pow_pos_nonneg; lia).
  rewrite wrapping_add_exact by (limits; lia). unfold max_value.
  replace (v + (2 ^ k - 1)) with (v + 2 ^ k - 1) by lia. set (u := v + 2 ^ k - 1) in *.
  rewrite <-Z.shiftr_div_pow2, <-Z.shiftl_mul_pow2 by lia. apply Z.bits_inj'. intros i Hi.
  rewrite Z.land_spec, Z.shiftl_spec by lia.
  replace (2 ^ 64 - 1 - (2 ^ k - 1)) with (Z.shiftl (Z.ones (64 - k)) k).
  2: { rewrite Z.shiftl_mul_pow2, Z.ones_equiv by lia.
       replace 64 with ((64 - k) + k) at 2 by lia. rewrite Z.pow_add_r by lia. lia. }
  rewrite Z.shiftl_spec by lia. destruct (Z.ltb_spec i k).
  - rewrite !(Z.testbit_neg_r _ (i - k)) by lia. apply andb_false_r.
  - rewrite Z.shiftr_spec by lia. replace (i - k + k) with i by lia.
    destruct (Z.ltb_spec i 64).
    + rewrite Z.ones_spec_low by lia. apply andb_true_r.
    + rewrite <-(Z.mod_small u (2 ^ 64)), Z.mod_pow2_bits_high by lia. done.
Qed.

Lemma align_up_spec v a : is_align a → 0 <= v → v + a - 1 < 2 ^ 64 →
  v <= align_up v a < v + a ∧ (a | align_up v a) ∧
  (∀ s, (a | s) → v <= s → align_up v a <= s).
Proof.
  intros (k & Hk & ->) Hv Hlt. rewrite align_up_div by done.
  assert (0 < 2 ^ k) as Hp by (apply Z.pow_pos_nonneg; lia).
  pose proof (Z.div_mod (v + 2 ^ k - 1) (2 ^ k)) as Hd.
  pose proof (Z.mod_pos_bound (v + 2 ^ k - 1) (2 ^ k) Hp).
  split_and!; [lia|lia|apply Z.divide_factor_r|].
  intros s [z ->] Hle. apply Z.mul_le_mono_nonneg_r; [lia|].
  apply Z.lt_succ_r, Z.div_lt_upper_bound; lia.
Qed.

Lemma is_align_PAGE : is_align PAGE.
Proof. exists 12. split; [lia|done]. Qed.

Lemma is_align_max a : is_align a → is_align (Z.max a PAGE).
Proof. intros H. destruct (Z.max_spec a PAGE) as [[_ ->]|[_ ->]]; [apply is_align_PAGE|done]. Qed.

Lemma is_align_bound a : is_align a → 0 < a <= 2 ^ 63.
Proof.
  intros (k & Hk & ->). split; [apply Z.pow_pos_nonneg; lia|apply Z.pow_le_mono_r; lia].
Qed.

Lemma align_page_divide a : is_align a → (PAGE | Z.max a PAGE).
Proof.
  intros (k & Hk & ->). destruct (Z.max_spec (2 ^ k) PAGE) as [[_ ->]|[Hle ->]]; [done|].
  unfold PAGE in *. change 4096 with (2 ^ 12) in *.
  apply Z.pow_le_mono_r_iff in Hle; [|lia..].
  exists (2 ^ (k - 12)). rewrite <-Z.pow_add_r by lia. f_equal. lia.
Qed.

(** ** The free list *)

Lemma is_free_nil a : ¬ is_free [] a.
Proof. intros (r & Hr & _). by apply elem_of_nil in Hr. Qed.

Lemma is_free_cons r l a : is_free (r :: l) a ↔ PhysRegion.inside r a ∨ is_free l a.
Proof.
  unfold is_free. split.
  - intros (x & [->|Hx]%elem_of_cons & ?); [by left|by right; exists x].
  - intros [H|(x & Hx & ?)]; [exists r; set_solver|exists x; set_solver].
Qed.

Lemma is_free_app l1 l2 a : is_free (l1 ++ l2) a ↔ is_free l1 a ∨ is_free l2 a.
Proof.
  induction l1 as [|r l1 IH]; simpl.
  - split; [by right|]. by intros [?%is_free_nil|].
  - rewrite !is_free_cons, IH. tauto.
Qed.

Lemma bytes_app l1 l2 : bytes (l1 ++ l2) = bytes l1 + bytes l2.
Proof. induction l1 as [|r l1 IH]; simpl; [done|]. rewrite IH. lia. Qed.

Lemma frags_weaken g lo lo' l : lo' <= lo → frags g lo l → frags g lo' l.
Proof. destruct l as [|r l]; simpl; [done|]. intros ? (?&?). split; [lia|done]. Qed.

Lemma frags_gap g g' lo l : g' <= g → frags g lo l → frags g' lo l.
Proof.
  intros Hg. revert lo. induction l as [|r l IH]; intros lo; simpl; [done|].
  intros (?&?&?&H). split_and!; [done..|]. apply IH. eapply frags_weaken; [|done]. lia.
Qed.

Lemma frags_lookup g lo l i r : 0 <= g → 0 <= lo → frags g lo l → l !! i = Some r →
  lo <= PhysRegion.base r ∧ 0 < PhysRegion.len r ∧ region_ok r.
Proof.
  intros Hg. revert lo i. induction l as [|x l IH]; intros lo [|i] Hlo; simpl; [done..| |].
  - intros (?&?&?&?) [= ->]. unfold region_ok. split_and!; lia.
  - intros (?&?&?&H) Hi. destruct (IH (PhysRegion.base x + PhysRegion.len x + g) i) as (?&?&?); [lia|done..|]. split_and!; [lia|done..].
Qed.

Lemma frags_elem g lo l r : 0 <= g → 0 <= lo → frags g lo l → r ∈ l →
  lo <= PhysRegion.base r ∧ 0 < PhysRegion.len r ∧ region_ok r.
Proof. intros Hg Hlo Hl Hr. apply list_elem_of_lookup_1 in Hr as [i Hi]. exact (frags_lookup g lo l i r Hg Hlo Hl Hi). Qed.

Lemma frags_free_ge g lo l a : 0 <= g → 0 <= lo → frags g lo l → is_free l a →
  lo <= a < ADDR_LIMIT.
Proof.
  intros Hg Hlo Hl (r & Hr & Hin). destruct (frags_elem g lo l r Hg Hlo Hl Hr) as (?&?&_&_&?).
  unfold PhysRegion.inside in Hin. lia.
Qed.

Lemma frags_bytes g lo l : 0 <= g → 0 <= lo → frags g lo l →
  0 <= bytes l ∧ (l = [] ∨ lo + bytes l <= ADDR_LIMIT).
Proof.
  intros Hg. revert lo. induction l as [|r l IH]; intros lo Hlo; simpl; [by split; [|left]|].
  intros (?&?&?&H). apply IH in H as [? [->|?]]; [..|lia]; simpl; split; try lia; right; lia.
Qed.

(** ** Insertion *)

Lemma coalesce_from_spec a l :
  region_ok a → 0 < PhysRegion.len a →
  frags 0 (PhysRegion.base a + PhysRegion.len a) l →
  frags 1 (PhysRegion.base a) (coalesce_from a l) ∧
  (∀ x, is_free (coalesce_from a l) x ↔ PhysRegion.inside a x ∨ is_free l x) ∧
  bytes (coalesce_from a l) = PhysRegion.len a + bytes l ∧
  (length (coalesce_from a l) ≤ S (length l))%nat.
Proof.
  revert a. induction l as [|b l IH]; intros a Ha Hla Hl; simpl.
  - split_and!; try done; try (destruct Ha as (?&?&?); lia). intros x. apply is_free_cons.
  - destruct Hl as (Hb1 & Hb2 & Hb3 & Hl). rewrite region_ok_end by done.
    pose proof Ha as (?&?&?).
    assert (region_ok b) by (unfold region_ok; lia).
    destruct (Z.eqb_spec (PhysRegion.base a + PhysRegion.len a) (PhysRegion.base b)) as [Heq|Hne].
    + rewrite wrapping_add_exact by (limits; lia).
      destruct (IH (PhysRegion.new (PhysRegion.base a) (PhysRegion.len a + PhysRegion.len b)))
        as (Q1 & Q2 & Q3 & Q4).
      { unfold region_ok; simpl; lia. } { simpl; lia. }
      { simpl. eapply frags_weaken; [|done]. lia. }
      simpl in *. split_and!; [done| |lia|lia].
      intros x. rewrite Q2, is_free_cons. unfold PhysRegion.inside; simpl.
      split; [intros [?|?]; [|tauto]|intros [?|[?|?]]; [left|left|tauto]]; lia.
    + destruct (IH b) as (Q1 & Q2 & Q3 & Q4); [done|done|by eapply frags_weaken; [|done]; lia|].
      simpl. split_and!; [lia|done|done| | |lia|lia].
      * eapply frags_weaken; [|done]. lia.
      * intros x. rewrite !is_free_cons, Q2. tauto.
Qed.

Lemma coalesce_spec lo l :
  0 <= lo → frags 0 lo l →
  frags 1 lo (coalesce l) ∧ (∀ x, is_free (coalesce l) x ↔ is_free l x) ∧
  bytes (coalesce l) = bytes l ∧ (length (coalesce l) ≤ length l)%nat.
Proof.
  intros Hlo. destruct l as [|a l]; simpl; [done|]. intros (?&?&?&Hl).
  destruct (coalesce_from_spec a l) as (Q1 & Q2 & Q3 & Q4).
  { unfold region_ok; lia. } { done. } { eapply frags_weaken; [|done]. lia. }
  split_and!; [by eapply frags_weaken|intros x; rewrite Q2, is_free_cons; done|done|done].
Qed.

Lemma insert_sorted_spec r lo l :
  0 <= lo → region_ok r → 0 < PhysRegion.len r → lo <= PhysRegion.base r →
  (∀ x, PhysRegion.inside r x → ¬ is_free l x) → frags 0 lo l →
  frags 0 lo (insert_sorted r l) ∧
  (∀ x, is_free (insert_sorted r l) x ↔ PhysRegion.inside r x ∨ is_free l x) ∧
  bytes (insert_sorted r l) = PhysRegion.len r + bytes l ∧
  length (insert_sorted r l) = S (length l).
Proof.
  intros Hlo0 Hr Hlr. revert lo Hlo0. induction l as [|y l IH]; intros lo Hlo0 Hlo Hd Hl; simpl.
  - pose proof Hr as (?&?&?). split_and!; try done. intros x. apply is_free_cons.
  - destruct Hl as (Hy1 & Hy2 & Hy3 & Hl). pose proof Hr as (?&?&?).
    pose proof (Hd (PhysRegion.base r)) as Hd1. pose proof (Hd (PhysRegion.base y)) as Hd2.
    rewrite is_free_cons in Hd1, Hd2. unfold PhysRegion.inside in Hd1, Hd2.
    destruct (Z.ltb_spec (PhysRegion.base y) (PhysRegion.base r)) as [Hlt|Hge].
    + destruct (IH (PhysRegion.base y + PhysRegion.len y + 0)) as (Q1 & Q2 & Q3 & Q4);
        [lia|lia| |done|].
      { intros x Hx ?. apply (Hd x); [done|]. rewrite is_free_cons. by right. }
      simpl. split_and!; [lia|done|done|done| |lia|lia].
      intros x. rewrite !is_free_cons, Q2. tauto.
    + simpl. split_and!; [lia|done|done|lia|done|done|done| |done|done].
      intros x. rewrite !is_free_cons. tauto.
Qed.

Lemma insert_spec r l :
  wf l → region_ok r → (∀ x, PhysRegion.inside r x → ¬ is_free l x) →
  let '(ok, l') := insert r l in
  wf l' ∧
  (ok = true ↔ PhysRegion.len r = 0 ∨ (length l < MAX_FRAGMENTS)%nat) ∧
  (ok = true → (∀ x, is_free l' x ↔ PhysRegion.inside r x ∨ is_free l x) ∧
               bytes l' = PhysRegion.len r + bytes l) ∧
  (ok = false → l' = l) ∧ (length l' ≤ S (length l))%nat.
Proof.
  intros [Hl Hlen] Hr Hd. unfold insert, PhysRegion.is_empty.
  destruct (Z.eqb_spec (PhysRegion.len r) 0) as [H0|H0].
  { split_and!; [done|split; [by left|done]| |done|lia].
    intros _. split; [|lia]. intros x. unfold PhysRegion.inside. split; [tauto|].
    intros [?|?]; [lia|done]. }
  case_decide as Hfull.
  { split_and!; [done| |done|done|lia]. split; [done|]. intros [?|?]; [done|lia]. }
  pose proof Hr as (?&?&?).
  destruct (insert_sorted_spec r 0 l) as (Q1 & Q2 & Q3 & Q4);
    [done|done|lia|done|done|by eapply frags_gap; [|done]; lia|].
  destruct (coalesce_spec 0 (insert_sorted r l)) as (Q5 & Q6 & Q7 & Q8); [done|done|].
  split_and!; [split; [done|lia]| | |done|lia].
  - split; [right; lia|done].
  - intros _. split; [|congruence]. intros x. by rewrite Q6, Q2.
Qed.

(** ** Cutting a run out of a fragment *)

Lemma frags_middle g lo l1 r l2 :
  0 <= g → 0 <= lo → frags g lo (l1 ++ r :: l2) →
  frags g lo (l1 ++ l2) ∧ (∀ a, is_free l1 a → a < PhysRegion.base r) ∧
  (∀ a, is_free l2 a → PhysRegion.base r + PhysRegion.len r + g <= a).
Proof.
  intros Hg. revert lo. induction l1 as [|x l1 IH]; intros lo Hlo; simpl.
  - intros (?&?&?&Hl2). split_and!.
    + eapply frags_weaken; [|done]. lia.
    + by intros a ?%is_free_nil.
    + intros a Ha. apply (frags_free_ge g (PhysRegion.base r + PhysRegion.len r + g)) in Ha; lia || done.
  - intros (?&?&?&Hl). destruct (IH (PhysRegion.base x + PhysRegion.len x + g)) as (Q1 & Q2 & Q3);
      [lia|done|]. split_and!; [done..| |done].
    intros a [Ha|Ha]%is_free_cons; [|by apply Q2].
    destruct (frags_elem g (PhysRegion.base x + PhysRegion.len x + g) (l1 ++ r :: l2) r)
      as (?&_); [done|lia|done|set_solver|]. unfold PhysRegion.inside in Ha. lia.
Qed.

Lemma remove_spec l i r :
  wf l → l !! i = Some r →
  wf (remove i l) ∧ S (length (remove i l)) = length l ∧
  bytes (remove i l) = bytes l - PhysRegion.len r ∧
  (∀ a, is_free (remove i l) a ↔ is_free l a ∧ ¬ PhysRegion.inside r a).
Proof.
  intros [Hl Hlen] Hi. unfold remove.
  apply list_elem_of_split_length in Hi as (l1 & l2 & -> & ->).
  rewrite !delete_middle. destruct (frags_middle 1 0 l1 r l2) as (Q1 & Q2 & Q3); [lia|done|done|].
  unfold wf in *. rewrite !bytes_app, !length_app in *. simpl in *. split_and!; [done|lia..|].
  intros a. rewrite !is_free_app, is_free_cons. unfold PhysRegion.inside.
  specialize (Q2 a). specialize (Q3 a). split; [|tauto].
  intros Ha. split; [tauto|]. intros [? ?].
  destruct Ha as [Ha|Ha]; [apply Q2 in Ha|apply Q3 in Ha]; lia.
Qed.

(** [carve] never finds the list full where the search has checked it. *)
Lemma carve_spec l i r start size :
  wf l → l !! i = Some r → 0 < size →
  PhysRegion.base r <= start → start + size <= PhysRegion.base r + PhysRegion.len r →
  (PhysRegion.base r < start → start + size < PhysRegion.base r + PhysRegion.len r →
   (length l < MAX_FRAGMENTS)%nat) →
  let l' := carve i r start size l in
  wf l' ∧ bytes l' = bytes l - size ∧
  ∀ a, is_free l' a ↔ is_free l a ∧ ¬ (start <= a < start + size).
Proof.
  intros Hwf Hi Hsz Hs He Hfull. unfold carve.
  destruct (frags_lookup 1 0 l i r) as (_ & Hrl & Hr); [lia|lia|apply Hwf|done|].
  rewrite region_ok_end by done. pose proof Hr as (?&?&?).
  rewrite (wrapping_add_exact 64 start), !wrapping_sub_exact by (limits; lia).
  assert (∀ a, PhysRegion.inside r a → is_free l a) as Hrf.
  { intros a Ha. exists r. split; [by eapply list_elem_of_lookup_2|done]. }
  destruct (remove_spec l i r Hwf Hi) as (R1 & R2 & R3 & R4).
  set (l1 := remove i l) in *. clearbody l1.
  set (pre := PhysRegion.new (PhysRegion.base r) (start - PhysRegion.base r)).
  set (suf := PhysRegion.new (start + size)
                (PhysRegion.base r + PhysRegion.len r - (start + size))).
  destruct Hwf as [_ Hlen].
  pose proof (insert_spec pre l1 R1) as Hins.
  destruct (insert pre l1) as [ok1 l2] eqn:E1. simpl.
  destruct Hins as (I1 & I2 & I3 & _ & I5).
  { unfold region_ok; simpl; lia. }
  { intros x Hx [_ Hn]%R4. apply Hn. revert Hx. unfold PhysRegion.inside; simpl. lia. }
  destruct I3 as [I3 I3b]; [apply I2; right; lia|].
  pose proof (insert_spec suf l2 I1) as Hins.
  destruct (insert suf l2) as [ok2 l3] eqn:E2. simpl.
  destruct Hins as (J1 & J2 & J3 & _ & _).
  { unfold region_ok; simpl; lia. }
  { intros x Hx [Hp|[_ Hn]%R4]%I3; revert Hx; unfold PhysRegion.inside in *; simpl in *; lia. }
  destruct J3 as [J3 J3b].
  { apply J2. simpl. destruct (decide (PhysRegion.base r < start)) as [Hlt|Hge].
    - destruct (decide (start + size < PhysRegion.base r + PhysRegion.len r)); [|left; lia].
      right. specialize (Hfull ltac:(done) ltac:(done)). lia.
    - right. unfold insert, pre, PhysRegion.is_empty in E1. simpl in E1.
      replace (start - PhysRegion.base r) with 0 in E1 by lia. simpl in E1.
      injection E1 as <- <-. lia. }
  split_and!; [done|simpl in *; lia|].
  intros a. rewrite J3, I3, R4. specialize (Hrf a). unfold PhysRegion.inside in *. simpl.
  destruct (decide (PhysRegion.base r <= a < PhysRegion.base r + PhysRegion.len r)).
  - split; [intros [?|[?|?]]|]; [split; [tauto|lia]..|]. 
    intros [? ?]. destruct (decide (a < start)); [right; left|left]; lia.
  - split; [intros [?|[?|[? _]]]; [lia|lia|split; [done|lia]]|]. intros [? _]. right. right. done.
Qed.

(** A free run lies in one fragment: the list is coalesced. *)
Lemma free_run_fragment lo l s e :
  0 <= lo → frags 1 lo l → s < e → (∀ a, s <= a < e → is_free l a) →
  ∃ i r, l !! i = Some r ∧ PhysRegion.base r <= s ∧ e <= PhysRegion.base r + PhysRegion.len r.
Proof.
  revert lo. induction l as [|r l IH]; intros lo Hlo Hl Hse Hfree.
  - destruct (is_free_nil s). apply Hfree. lia.
  - simpl in Hl. destruct Hl as (?&?&?&Hl).
    destruct (decide (PhysRegion.base r + PhysRegion.len r <= s)) as [Hge|Hlt].
    + destruct (IH (PhysRegion.base r + PhysRegion.len r + 1)) as (i & x & Hi & ?);
        [lia|done|done| |by exists (S i), x].
      intros a Ha. destruct (Hfree a Ha) as (x & [->|Hx]%elem_of_cons & Hin); [|by exists x].
      unfold PhysRegion.inside in Hin. lia.
    + exists 0%nat, r. split; [done|].
      pose proof (Hfree s ltac:(lia)) as [Hs|Hs]%is_free_cons.
      2:{ apply (frags_free_ge 1 (PhysRegion.base r + PhysRegion.len r + 1)) in Hs; [lia|lia|lia|done]. }
      unfold PhysRegion.inside in Hs. split; [lia|].
      destruct (decide (e <= PhysRegion.base r + PhysRegion.len r)) as [|Hgt]; [done|].
      pose proof (Hfree (PhysRegion.base r + PhysRegion.len r) ltac:(lia)) as [Hx|Hx]%is_free_cons.
      * unfold PhysRegion.inside in Hx. lia.
      * apply (frags_free_ge 1 (PhysRegion.base r + PhysRegion.len r + 1)) in Hx; [lia|lia|lia|done].
Qed.
