(* ===== verification/PhysAllocProps.v ===== *)
(** * Theorems about the physical allocator

    The searches of [alloc_in] and [alloc_colored_vorspann_in] find a fragment
    whenever one exists, and the region they hand out was free, lies in the
    zone, is aligned (and coloured), and is exactly what leaves the free set.  *)

From S2P Require Import Prelude Region Color PhysAlloc PhysAllocSpec.
#[local] Open Scope Z_scope.
Import PhysAllocator.

(** ** The best-fit loops *)

Lemma best_fit_spec cand l i best :
  match best_fit cand l i best with
  | None => best = None ∧ ∀ r, r ∈ l → cand r = None
  | Some (j, s, n) =>
      (best = Some (j, s, n) ∨ ∃ k r, j = (i + k)%nat ∧ l !! k = Some r ∧ cand r = Some (s, n)) ∧
      (∀ r s' n', r ∈ l → cand r = Some (s', n') → n <= n') ∧
      (∀ j0 s0 n0, best = Some (j0, s0, n0) → n <= n0)
  end.
Proof.
  revert i best. induction l as [|r l IH]; intros i best; simpl.
  - destruct best as [[[j s] n]|]; [|by split; [|intros r ?%elem_of_nil]].
    split_and!; [by left|by intros r ? ? ?%elem_of_nil|by intros ??? [= -> -> ->]].
  - destruct (cand r) as [[s0 n0]|] eqn:Hc; [destruct best as [[[jb sb] nb]|]|].
    + destruct (Z.ltb_spec n0 nb).
      * specialize (IH (S i) (Some (i, s0, n0))).
        destruct (best_fit cand l (S i) _) as [[[j s] n]|]; [|by destruct IH].
        destruct IH as (Q1 & Q2 & Q3). specialize (Q3 _ _ _ eq_refl). split_and!.
        -- right. destruct Q1 as [[= <- <- <-]|(k & x & -> & ? & ?)];
             [exists 0%nat, r|exists (S k), x]; split_and!; done || lia.
        -- intros x s' n' [->|Hx]%elem_of_cons Hx'; [simplify_eq; done|by eapply Q2].
        -- intros ? ? ? [= -> -> ->]. lia.
      * specialize (IH (S i) (Some (jb, sb, nb))).
        destruct (best_fit cand l (S i) _) as [[[j s] n]|]; [|by destruct IH].
        destruct IH as (Q1 & Q2 & Q3). specialize (Q3 _ _ _ eq_refl). split_and!.
        -- destruct Q1 as [[= <- <- <-]|(k & x & -> & ? & ?)]; [by left|].
           right. exists (S k), x; split_and!; done || lia.
        -- intros x s' n' [->|Hx]%elem_of_cons Hx'; [simplify_eq; lia|by eapply Q2].
        -- intros ? ? ? [= -> -> ->]. lia.
    + specialize (IH (S i) (Some (i, s0, n0))).
      destruct (best_fit cand l (S i) _) as [[[j s] n]|]; [|by destruct IH].
      destruct IH as (Q1 & Q2 & Q3). specialize (Q3 _ _ _ eq_refl). split_and!; [|..|done].
      * right. destruct Q1 as [[= <- <- <-]|(k & x & -> & ? & ?)];
          [exists 0%nat, r|exists (S k), x]; split_and!; done || lia.
      * intros x s' n' [->|Hx]%elem_of_cons Hx'; [simplify_eq; done|by eapply Q2].
    + specialize (IH (S i) best).
      destruct (best_fit cand l (S i) best) as [[[j s] n]|].
      * destruct IH as (Q1 & Q2 & Q3). split_and!; [| |done].
        -- destruct Q1 as [->|(k & x & -> & ? & ?)]; [by left|].
           right. exists (S k), x; split_and!; done || lia.
        -- intros x s' n' [->|Hx]%elem_of_cons Hx'; [congruence|by eapply Q2].
      * destruct IH as [-> Q]. split; [done|]. intros x [->|Hx]%elem_of_cons; [done|by apply Q].
Qed.

Lemma colored_best_spec cand l i best bn :
  match colored_best cand l i best bn with
  | None => best = None ∧ ∀ r s n, r ∈ l → cand r = Some (s, n) → bn <= n
  | Some (j, s) =>
      best = Some (j, s) ∨ ∃ k r n, j = (i + k)%nat ∧ l !! k = Some r ∧ cand r = Some (s, n)
  end.
Proof.
  revert i best bn. induction l as [|r l IH]; intros i best bn; simpl.
  - destruct best as [[j s]|]; [by left|]. by split; [|intros ? ? ? ?%elem_of_nil].
  - assert (∀ i b n', match colored_best cand l (S i) b n' with Some (j, s) =>
        b = Some (j, s) ∨ ∃ k x n, j = (i + k)%nat ∧ (r :: l) !! k = Some x ∧ cand x = Some (s, n)
        | None => b = None ∧ ∀ x s n, x ∈ l → cand x = Some (s, n) → n' <= n end) as Hsh.
    { intros i' b n'. specialize (IH (S i') b n').
      destruct (colored_best cand l (S i') b n') as [[j s]|]; [|done].
      destruct IH as [->|(k & x & n & -> & ? & ?)]; [by left|].
      right. exists (S k), x, n. split_and!; done || lia. }
    destruct (cand r) as [[s0 n0]|] eqn:Hc; [destruct (Z.ltb_spec n0 bn)|].
    + specialize (Hsh i (Some (i, s0)) n0).
      destruct (colored_best cand l (S i) _ n0) as [[j s]|]; [|by destruct Hsh].
      right. destruct Hsh as [[= <- <-]|?]; [|done]. exists 0%nat, r, n0. split_and!; done || lia.
    + specialize (Hsh i best bn). destruct (colored_best cand l (S i) best bn) as [[j s]|]; [done|].
      destruct Hsh as [-> Q]. split; [done|].
      intros x s n [->|Hx]%elem_of_cons Hx'; [simplify_eq; lia|by eapply Q].
    + specialize (Hsh i best bn). destruct (colored_best cand l (S i) best bn) as [[j s]|]; [done|].
      destruct Hsh as [-> Q]. split; [done|].
      intros x s n [->|Hx]%elem_of_cons Hx'; [congruence|by eapply Q].
Qed.

(** ** One fragment *)

Section fragment.
Context (count : nat) (size align lo hi : Z) (r : PhysRegion.t).
Hypothesis Hr : region_ok r.
Hypothesis Halign : is_align align.
Hypothesis Hsize : 0 < size < 2 ^ 64.
Hypothesis Hlo : 0 <= lo.
Hypothesis Hhi : hi < 2 ^ 64.

Lemma fit_sound start n :
  fit count size align lo hi r = Some (start, n) →
  (align | start) ∧ PhysRegion.base r <= start ∧ lo <= start ∧
  start + size <= PhysRegion.base r + PhysRegion.len r ∧ start + size <= hi ∧
  (PhysRegion.base r < start → start + size < PhysRegion.base r + PhysRegion.len r →
   (count < MAX_FRAGMENTS)%nat).
Proof.
  unfold fit. rewrite region_ok_end by done. pose proof Hr as (?&?&?).
  pose proof (is_align_bound _ Halign).
  set (zs := Z.max (PhysRegion.base r) lo).
  set (ze := Z.min (PhysRegion.base r + PhysRegion.len r) hi).
  destruct (Z.leb_spec ze zs) as [|Hz]; [done|].
  destruct (align_up_spec zs align) as (A1 & A2 & A3); [done|lia|limits; lia|].
  destruct (checked_add 64 (align_up zs align) size) as [e|] eqn:He; [|done].
  apply checked_add_Some in He as [-> He].
  destruct (Z.leb_spec (PhysRegion.base r) (align_up zs align)); [|done].
  destruct (Z.leb_spec (align_up zs align + size) ze); [|done]. cbn [andb].
  destruct (Z.ltb_spec (PhysRegion.base r) (align_up zs align));
    destruct (Z.ltb_spec (align_up zs align + size) (PhysRegion.base r + PhysRegion.len r));
    cbn [andb]; try (case_bool_decide as Hb; [done|]);
    intros [= <- <-]; split_and!; try done; try lia.
Qed.

Lemma fit_complete s :
  (count < MAX_FRAGMENTS)%nat → (align | s) → PhysRegion.base r <= s → lo <= s →
  s + size <= PhysRegion.base r + PhysRegion.len r → s + size <= hi →
  fit count size align lo hi r ≠ None.
Proof.
  intros Hc Hs Hb Hl He Hh. unfold fit. rewrite region_ok_end by done.
  pose proof Hr as (?&?&?). pose proof (is_align_bound _ Halign).
  set (zs := Z.max (PhysRegion.base r) lo).
  set (ze := Z.min (PhysRegion.base r + PhysRegion.len r) hi).
  destruct (Z.leb_spec ze zs) as [|Hz]; [lia|].
  destruct (align_up_spec zs align) as (A1 & A2 & A3); [done|lia|limits; lia|].
  specialize (A3 s Hs ltac:(lia)).
  destruct (checked_add 64 (align_up zs align) size) as [e|] eqn:Hce.
  2:{ apply checked_add_None in Hce. limits. lia. }
  apply checked_add_Some in Hce as [-> _].
  rewrite (proj2 (Z.leb_le _ _)), (proj2 (Z.leb_le _ _)) by lia. cbn [andb].
  rewrite bool_decide_false by lia. by rewrite andb_false_r.
Qed.
End fragment.

(** The size handed out: the request rounded up to pages. *)
Lemma alloc_size_spec size :
  0 <= size <= 2 ^ 64 - PAGE →
  let sz := align_up (Z.max size 1) PAGE in
  0 < sz < 2 ^ 64 ∧ size <= sz < Z.max size 1 + PAGE ∧ (PAGE | sz).
Proof.
  intros H. destruct (align_up_spec (Z.max size 1) PAGE) as (A1 & A2 & A3);
    [apply is_align_PAGE|lia|limits; lia|].
  split_and!; try lia; [|done]. destruct A2 as [q Hq]. limits.
  rewrite Hq in *. change (2 ^ 64) with (2 ^ 52 * 4096) in *. nia.
Qed.

Lemma total_free_bytes l : wf l → total_free l = bytes l.
Proof.
  intros [Hl _]. unfold total_free.
  assert (∀ l lo s, frags 1 lo l → 0 <= lo → 0 <= s → s + bytes l < 2 ^ 64 →
    fold_left (λ sum r, wrapping_add 64 sum (PhysRegion.len r)) l s = s + bytes l) as Hgen.
  { clear. induction l as [|r l IH]; intros lo s Hl Hlo Hs Hb; simpl in *; [lia|].
    destruct Hl as (?&?&?&Hl).
    destruct (frags_bytes 1 (PhysRegion.base r + PhysRegion.len r + 1) l) as [? _]; [lia|lia|done|].
    rewrite wrapping_add_exact by (limits; lia).
    rewrite (IH (PhysRegion.base r + PhysRegion.len r + 1)); [lia|done|lia|lia|lia]. }
  rewrite (Hgen l 0 0); [done|done|lia|lia|].
  destruct (frags_bytes 1 0 l) as [? [->|?]]; [lia|lia|done|done|limits; lia].
Qed.

(** What a request for [size] bytes promises, [sz] being the rounded size and
    [ok] the condition on a start beyond zone and alignment. *)
Definition alloc_post (sz align lo hi : Z) (ok : Z → Prop) (l : t)
    (res : option MemoryCap.t * t) : Prop :=
  match res with
  | (Some c, l') =>
      let b := PhysRegion.base (MemoryCap.region c) in
      PhysRegion.len (MemoryCap.region c) = sz ∧ MemoryCap.rights c = Rights.RW ∧
      (Z.max align PAGE | b) ∧ lo <= b ∧ b + sz <= hi ∧ ok b ∧
      region_ok (MemoryCap.region c) ∧
      (∀ a, PhysRegion.inside (MemoryCap.region c) a → is_free l a) ∧
      (∀ a, is_free l' a ↔ is_free l a ∧ ¬ PhysRegion.inside (MemoryCap.region c) a) ∧
      wf l' ∧ total_free l' = total_free l - sz
  | (None, l') =>
      l' = l ∧
      ((length l < MAX_FRAGMENTS)%nat →
       ¬ ∃ s, (Z.max align PAGE | s) ∧ lo <= s ∧ s + sz <= hi ∧ ok s ∧
              ∀ a, s <= a < s + sz → is_free l a)
  end.

Lemma carve_post (l : t) i r start sz align lo hi (ok : Z → Prop) :
  wf l → l !! i = Some r → 0 < sz →
  (Z.max align PAGE | start) → lo <= start → start + sz <= hi → ok start →
  PhysRegion.base r <= start → start + sz <= PhysRegion.base r + PhysRegion.len r →
  (PhysRegion.base r < start → start + sz < PhysRegion.base r + PhysRegion.len r →
   (length l < MAX_FRAGMENTS)%nat) →
  alloc_post sz align lo hi ok l
    (Some (MemoryCap.new (PhysRegion.new start sz) Rights.RW), carve i r start sz l).
Proof.
  intros Hwf Hi Hsz Ha Hlo Hhi Hok Hb He Hf.
  destruct (carve_spec l i r start sz) as (C1 & C2 & C3); [done..|].
  destruct (frags_lookup 1 0 l i r) as (_ & _ & ?&?&?); [lia|lia|apply Hwf|done|].
  simpl. rewrite (total_free_bytes l), (total_free_bytes (carve i r start sz l)), C2 by done.
  split_and!; try done.
  - unfold region_ok; simpl; lia.
  - intros a. unfold PhysRegion.inside. simpl. intros. exists r.
    split; [by eapply list_elem_of_lookup_2|]. unfold PhysRegion.inside. lia.
Qed.

Lemma alloc_in_post (l : t) size align lo hi :
  wf l → 0 <= size <= 2 ^ 64 - PAGE → is_align align → 0 <= lo → hi < 2 ^ 64 →
  alloc_post (align_up (Z.max size 1) PAGE) align lo hi (λ _, True) l
    (alloc_in size align lo hi l).
Proof.
  intros Hwf Hsize Ha Hlo Hhi. unfold alloc_in.
  destruct (alloc_size_spec size Hsize) as (S1 & S2 & S3).
  set (sz := align_up (Z.max size 1) PAGE) in *. pose proof (is_align_max _ Ha) as Ha'.
  assert (∀ i r, l !! i = Some r → region_ok r) as Hok.
  { intros i r Hi. destruct (frags_lookup 1 0 l i r) as (_ & _ & ?); [lia|lia|apply Hwf|done|done]. }
  pose proof (best_fit_spec (fit (length l) sz (Z.max align PAGE) lo hi) l 0 None) as Hb.
  destruct (best_fit _ l 0 None) as [[[j s] n]|].
  - destruct Hb as ([?|(k & r & -> & Hk & Hfit)] & _ & _); [done|]. simpl. rewrite Hk.
    apply fit_sound in Hfit as (F1 & F2 & F3 & F4 & F5 & F6); [|by eauto|done..].
    apply carve_post; try done; try lia.
  - destruct Hb as [_ Hb]. simpl. split; [done|]. intros Hlen (s & Hs & H1 & H2 & _ & Hfree).
    destruct (free_run_fragment 0 l s (s + sz)) as (i & r & Hi & Hr1 & Hr2);
      [done|apply Hwf|lia|done|].
    apply (fit_complete (length l) sz (Z.max align PAGE) lo hi r) with s; try done; [by eauto|].
    apply Hb. by eapply list_elem_of_lookup_2.
Qed.

(** ** Coloured runs *)

(** Every page of [start, start + npages pages) has a colour of the mask. *)
Definition colored_run (start npages colors : Z) (mask : ColorMask.t) : Prop :=
  ∀ j, 0 <= j < npages →
    ColorMask.contains mask (color_of (start + j * PAGE) colors) = true.

Lemma run_is_colored_spec start npages colors mask :
  0 <= start → 0 <= npages → start + npages * PAGE <= 2 ^ 64 →
  run_is_colored start npages colors mask = true ↔ colored_run start npages colors mask.
Proof.
  intros Hs Hn Hb. unfold run_is_colored, colored_run. rewrite forallb_forall.
  split; intros H j Hj.
  - specialize (H j). rewrite <-list_elem_of_In, elem_of_seqZ in H. specialize (H ltac:(lia)).
    unfold wrapping_mul in H. rewrite (Z.mod_small (j * PAGE)) in H by (limits; lia).
    rewrite wrapping_add_exact in H by (limits; lia). done.
  - apply list_elem_of_In, elem_of_seqZ in Hj.
    unfold wrapping_mul. rewrite (Z.mod_small (j * PAGE)) by (limits; lia).
    rewrite wrapping_add_exact by (limits; lia). apply H. lia.
Qed.

(** The colours repeat after [colors] pages. *)
Lemma colored_run_period start npages colors mask q :
  is_power_of_two colors = true → colors <= 2 ^ 32 →
  colored_run (start + q * colors * PAGE) npages colors mask ↔
  colored_run start npages colors mask.
Proof.
  intros Hc Hle.
  assert (0 < colors) as Hc0 by (unfold is_power_of_two in Hc; apply andb_true_iff in Hc as [?%Z.ltb_lt _]; done).
  assert (∀ j, color_of (start + q * colors * PAGE + j * PAGE) colors =
               color_of (start + j * PAGE) colors) as Heq.
  { intros j. rewrite !color_of_mod by done.
    replace (start + q * colors * PAGE + j * PAGE) with (start + j * PAGE + (q * colors) * PAGE) by lia.
    rewrite Z.div_add by done. by rewrite Z.mod_add by lia. }
  unfold colored_run. split; intros H j Hj; [rewrite <-Heq|rewrite Heq]; by apply H.
Qed.

Section colored.
Context (vorspann size step colors : Z) (mask : ColorMask.t).
Let gefaerbt := size / PAGE - vorspann.
Hypothesis Hpages : (PAGE | size).
Hypothesis Hvor : 0 <= vorspann < size / PAGE.
Hypothesis Hstep : 0 < step <= 2 ^ 63.

Definition start_ok (s : Z) : Prop :=
  colored_run (s + vorspann * PAGE) gefaerbt colors mask.

Lemma run_check zone_end s :
  0 <= s → zone_end <= ADDR_LIMIT → s + size <= zone_end →
  run_is_colored (wrapping_add 64 s (wrapping_mul 64 vorspann PAGE)) gefaerbt colors mask = true
  ↔ start_ok s.
Proof using Hpages Hvor.
  intros Hs Hz He. destruct Hpages as [p Hp].
  assert (size / PAGE = p) as Hsp by (rewrite Hp; by apply Z.div_mul).
  unfold wrapping_mul. rewrite (Z.mod_small (vorspann * PAGE)) by (limits; lia).
  rewrite wrapping_add_exact by (limits; lia). apply run_is_colored_spec.
  all: subst gefaerbt; limits; lia.
Qed.

Lemma colored_start_spec fuel zone_end start :
  0 <= start → zone_end <= ADDR_LIMIT →
  match colored_start fuel vorspann gefaerbt size step colors mask zone_end start with
  | Some s => ∃ k, 0 <= k ∧ s = start + k * step ∧ s + size <= zone_end ∧ start_ok s
  | None => ∀ k, 0 <= k < Z.of_nat fuel → start + k * step + size <= zone_end →
            ¬ start_ok (start + k * step)
  end.
Proof using Hpages Hvor Hstep.
  intros Hs Hz. revert start Hs. induction fuel as [|fuel IH]; intros start Hs; simpl; [intros; lia|].
  assert (0 < size) as Hsz.
  { destruct Hpages as [p Hp]. assert (size / PAGE = p) by (rewrite Hp; by apply Z.div_mul).
    limits. lia. }
  destruct (checked_add 64 start size) as [e|] eqn:He.
  2:{ apply checked_add_None in He. intros k Hk Hle. limits. nia. }
  apply checked_add_Some in He as [-> He].
  destruct (Z.ltb_spec zone_end (start + size)) as [Hlt|Hge]; [intros k Hk Hle; nia|].
  pose proof (run_check zone_end start Hs Hz Hge) as Hrun.
  destruct (run_is_colored _ gefaerbt colors mask).
  { exists 0. split_and!; [lia..|]. by apply Hrun. }
  assert (¬ start_ok start) as Hno by (intros H; by apply Hrun in H).
  unfold checked_add. rewrite (proj2 (Z.ltb_lt _ _)) by (limits; lia).
  specialize (IH (start + step) ltac:(lia)).
  destruct (colored_start fuel _ _ _ _ _ _ _ (start + step)) as [s|].
  - destruct IH as (k & Hk & -> & ? & ?). exists (k + 1).
    split_and!; [lia|lia|lia|done].
  - intros k Hk Hle. destruct (decide (k = 0)) as [->|Hne].
    + by rewrite Z.mul_0_l, Z.add_0_r.
    + replace (start + k * step) with (start + step + (k - 1) * step) by lia.
      apply IH; lia.
Qed.

(** The search tries a whole period: it misses no start at all. *)
Lemma colored_start_complete zone_end start s :
  is_power_of_two colors = true → colors < 2 ^ 32 → (PAGE | step) →
  0 <= start → zone_end <= ADDR_LIMIT →
  start <= s → (step | start) → (step | s) → s + size <= zone_end → start_ok s →
  colored_start (Z.to_nat (colors + 1)) vorspann gefaerbt size step colors mask zone_end start
  ≠ None.
Proof using Hpages Hvor Hstep.
  intros Hc Hc32 Hps Hs Hz Hle [p0 Hp0] [p1 Hp1] He Hok Hnone.
  assert (0 < colors) as Hc0 by (unfold is_power_of_two in Hc; apply andb_true_iff in Hc as [?%Z.ltb_lt _]; done).
  pose proof (colored_start_spec (Z.to_nat (colors + 1)) zone_end start Hs Hz) as Hspec.
  rewrite Hnone in Hspec. destruct Hps as [q Hq].
  set (k := p1 - p0). assert (0 <= k) by (subst k; nia).
  pose proof (Z.div_mod k colors ltac:(lia)) as Hdm.
  pose proof (Z.mod_pos_bound k colors Hc0) as Hm.
  assert (0 <= k / colors) by (apply Z.div_pos; lia).
  assert (s = start + (k mod colors) * step + ((k / colors) * q) * colors * PAGE) as Heq.
  { subst k. rewrite Hp1, Hp0 at 1.
    replace (p1 * step) with (p0 * step + (p1 - p0) * step) by lia. rewrite Hdm at 1. rewrite Hq. lia. }
  apply (Hspec (k mod colors)); [lia| |].
  - assert (0 <= k / colors * q * colors * PAGE); [|lia].
    assert (0 <= q) by (limits; nia). limits. nia.
  - unfold start_ok in *. rewrite Heq in Hok.
    replace (start + k mod colors * step + k / colors * q * colors * PAGE + vorspann * PAGE)
      with (start + k mod colors * step + vorspann * PAGE + k / colors * q * colors * PAGE)
      in Hok by lia.
    rewrite colored_run_period in Hok by (done || lia). done.
Qed.
End colored.

Section colored_fragment.
Context (count : nat) (vorspann size align colors : Z) (mask : ColorMask.t) (lo hi : Z).
Context (r : PhysRegion.t).
Let gefaerbt := size / PAGE - vorspann.
Hypothesis Hr : region_ok r.
Hypothesis Halign : is_align align.
Hypothesis Hpages : (PAGE | size).
Hypothesis Hvor : 0 <= vorspann < size / PAGE.
Hypothesis Hlo : 0 <= lo.

Lemma colored_fit_sound start n :
  colored_fit count vorspann gefaerbt size align colors mask lo hi r = Some (start, n) →
  (align | start) ∧ PhysRegion.base r <= start ∧ lo <= start ∧
  start + size <= PhysRegion.base r + PhysRegion.len r ∧ start + size <= hi ∧
  start_ok vorspann size colors mask start ∧ n <= ADDR_LIMIT ∧
  (PhysRegion.base r < start → start + size < PhysRegion.base r + PhysRegion.len r →
   (count < MAX_FRAGMENTS)%nat).
Proof using All.
  unfold colored_fit. rewrite region_ok_end by done. pose proof Hr as (?&?&?).
  pose proof (is_align_bound _ Halign).
  set (zs := Z.max (PhysRegion.base r) lo).
  set (ze := Z.min (PhysRegion.base r + PhysRegion.len r) hi).
  destruct (Z.leb_spec ze zs) as [|Hz]; [done|].
  destruct (align_up_spec zs align) as (A1 & A2 & A3); [done|lia|limits; lia|].
  pose proof (colored_start_spec vorspann size align colors mask Hpages Hvor ltac:(done)
    (Z.to_nat (colors + 1)) ze (align_up zs align) ltac:(lia) ltac:(lia)) as Hspec.
  fold gefaerbt in Hspec.
  destruct (colored_start _ _ _ _ _ _ _ _ _) as [s|]; [|done].
  destruct Hspec as (k & Hk & -> & He & Hok).
  assert (0 < size) as Hsz.
  { destruct Hpages as [p Hp]. assert (size / PAGE = p) by (rewrite Hp; by apply Z.div_mul).
    limits. lia. }
  set (s := align_up zs align + k * align) in *.
  assert (align_up zs align <= s) by (subst s; nia).
  assert (align | s) by (subst s; apply Z.divide_add_r; [done|apply Z.divide_factor_r]).
  rewrite wrapping_add_exact by (limits; lia).
  destruct (Z.ltb_spec (PhysRegion.base r) s);
    destruct (Z.ltb_spec (s + size) (PhysRegion.base r + PhysRegion.len r));
    cbn [andb]; try (case_bool_decide as Hb; [done|]);
    intros [= <- <-]; split_and!; try done; try lia.
Qed.

Lemma colored_fit_complete s :
  is_power_of_two colors = true → colors < 2 ^ 32 → (PAGE | align) →
  (count < MAX_FRAGMENTS)%nat → (align | s) → PhysRegion.base r <= s → lo <= s →
  s + size <= PhysRegion.base r + PhysRegion.len r → s + size <= hi →
  start_ok vorspann size colors mask s →
  colored_fit count vorspann gefaerbt size align colors mask lo hi r ≠ None.
Proof using All.
  intros Hc Hc32 Hpa Hcnt Hs Hb Hl He Hh Hok. unfold colored_fit. rewrite region_ok_end by done.
  pose proof Hr as (?&?&?). pose proof (is_align_bound _ Halign).
  set (zs := Z.max (PhysRegion.base r) lo).
  set (ze := Z.min (PhysRegion.base r + PhysRegion.len r) hi).
  assert (0 < size) as Hsz.
  { destruct Hpages as [p Hp]. assert (size / PAGE = p) by (rewrite Hp; by apply Z.div_mul).
    limits. lia. }
  destruct (Z.leb_spec ze zs) as [|Hz]; [lia|].
  destruct (align_up_spec zs align) as (A1 & A2 & A3); [done|lia|limits; lia|].
  pose proof (colored_start_complete vorspann size align colors mask Hpages Hvor ltac:(done)
    ze (align_up zs align) s) as Hcs. fold gefaerbt in Hcs.
  destruct (colored_start _ _ _ _ _ _ _ _ _) as [s'|].
  - rewrite bool_decide_false by lia. by rewrite andb_false_r.
  - exfalso. apply Hcs; try done; try lia. apply A3; [done|lia].
Qed.
End colored_fragment.

(** ** The free list is canonical *)

Lemma frags_canonical lo l1 l2 :
  0 <= lo → frags 1 lo l1 → frags 1 lo l2 → (∀ a, is_free l1 a ↔ is_free l2 a) → l1 = l2.
Proof.
  assert (∀ lo r l a, 0 <= lo → frags 1 lo (r :: l) → is_free (r :: l) a →
    PhysRegion.base r <= a ∧ (¬ PhysRegion.inside r a → PhysRegion.base r + PhysRegion.len r < a)) as Hge.
  { clear. intros lo r l a Hlo Hl Ha. simpl in Hl. destruct Hl as (?&?&?&Hl).
    apply is_free_cons in Ha as [Ha|Ha]; [unfold PhysRegion.inside in *; lia|].
    apply (frags_free_ge 1 (PhysRegion.base r + PhysRegion.len r + 1)) in Ha; [|lia|lia|done].
    unfold PhysRegion.inside. lia. }
  revert lo l2. induction l1 as [|r1 l1 IH]; intros lo [|r2 l2] Hlo H1 H2 Heq; [done|..].
  - exfalso. apply (is_free_nil (PhysRegion.base r2)), Heq, is_free_cons. left.
    simpl in H2. unfold PhysRegion.inside. lia.
  - exfalso. apply (is_free_nil (PhysRegion.base r1)), Heq, is_free_cons. left.
    simpl in H1. unfold PhysRegion.inside. lia.
  - pose proof H1 as (?&?&?&Hl1). pose proof H2 as (?&?&?&Hl2).
    assert (∀ a, PhysRegion.inside r1 a → is_free (r2 :: l2) a) as I1
      by (intros a Ha; apply Heq, is_free_cons; by left).
    assert (∀ a, PhysRegion.inside r2 a → is_free (r1 :: l1) a) as I2
      by (intros a Ha; apply Heq, is_free_cons; by left).
    assert (r1 = r2) as ->.
    { pose proof (Hge _ _ _ _ Hlo H2 (I1 (PhysRegion.base r1) ltac:(unfold PhysRegion.inside; lia))) as [? _].
      pose proof (Hge _ _ _ _ Hlo H1 (I2 (PhysRegion.base r2) ltac:(unfold PhysRegion.inside; lia))) as [? _].
      assert (PhysRegion.base r1 = PhysRegion.base r2) as Hb by lia.
      destruct (Z.lt_trichotomy (PhysRegion.len r1) (PhysRegion.len r2)) as [Hlt|[Hlen|Hlt]].
      - pose proof (Hge _ _ _ _ Hlo H1 (I2 (PhysRegion.base r1 + PhysRegion.len r1) ltac:(unfold PhysRegion.inside; lia)))
          as [_ Hx]. unfold PhysRegion.inside in Hx. lia.
      - destruct r1, r2; simpl in *. congruence.
      - pose proof (Hge _ _ _ _ Hlo H2 (I1 (PhysRegion.base r2 + PhysRegion.len r2) ltac:(unfold PhysRegion.inside; lia)))
          as [_ Hx]. unfold PhysRegion.inside in Hx. lia. }
    f_equal. apply (IH (PhysRegion.base r2 + PhysRegion.len r2 + 1)); [lia|done..|].
    intros a. specialize (Heq a). rewrite !is_free_cons in Heq. unfold PhysRegion.inside in Heq.
    split; intros Ha.
    + pose proof (frags_free_ge 1 (PhysRegion.base r2 + PhysRegion.len r2 + 1) l1 a
        ltac:(lia) ltac:(lia) Hl1 Ha).
      destruct Heq as [[?|?] _]; [by right|lia|done].
    + pose proof (frags_free_ge 1 (PhysRegion.base r2 + PhysRegion.len r2 + 1) l2 a
        ltac:(lia) ltac:(lia) Hl2 Ha).
      destruct Heq as [_ [?|?]]; [by right|lia|done].
Qed.

(** ** Theorems *)

(** C36: [alloc_in] either hands out a page-rounded, aligned RW region of the zone
    that was free, takes exactly its bytes out of the free set and keeps the
    list well-formed, or leaves the list alone; and then, unless the list is
    full, no aligned free run of that size exists in the zone. *)
Theorem alloc_in_correct (l : t) (size align lo hi : Z) :
  wf l → 0 <= size <= 2 ^ 64 - PAGE → is_align align → 0 <= lo → hi < 2 ^ 64 →
  alloc_post (align_up (Z.max size 1) PAGE) align lo hi (λ _, True) l
    (alloc_in size align lo hi l) ∧
  size <= align_up (Z.max size 1) PAGE < Z.max size 1 + PAGE.
Proof.
  intros. split; [by apply alloc_in_post|]. by apply alloc_size_spec.
Qed.

(** The coloured search promises the same and, for every page behind the
    [vorspann], a colour of the mask; trying [colors + 1] starts per fragment
    misses none. *)
Theorem alloc_colored_correct (l : t) (vorspann size align colors lo hi : Z) (mask : ColorMask.t) :
  wf l → 0 <= size <= 2 ^ 64 - PAGE → is_align align → 0 <= lo → hi < 2 ^ 64 →
  1 < colors < 2 ^ 32 → is_power_of_two colors = true →
  mask ≠ ColorMask.EMPTY → mask ≠ ColorMask.ALL →
  let sz := align_up (Z.max size 1) PAGE in
  0 <= vorspann < sz / PAGE → sz / PAGE - vorspann <= 64 →
  alloc_post sz align lo hi
    (λ s, colored_run (s + vorspann * PAGE) (sz / PAGE - vorspann) colors mask) l
    (alloc_colored_vorspann_in vorspann size align colors mask lo hi l).
Proof.
  intros Hwf Hsize Ha Hlo Hhi Hc Hcp Hne Hna sz Hv Hg.
  destruct (alloc_size_spec size Hsize) as (S1 & S2 & S3). fold sz in S1, S2, S3.
  unfold alloc_colored_vorspann_in, ColorMask.is_empty. fold sz.
  rewrite (proj2 (Z.eqb_neq mask 0)), (proj2 (Z.leb_gt colors 1)),
    (proj2 (Z.eqb_neq mask ColorMask.ALL)), (proj2 (Z.leb_gt _ vorspann)),
    (proj2 (Z.ltb_ge MASK_BITS _)) by (done || lia || (unfold MASK_BITS; lia)).
  cbn [orb]. pose proof (is_align_max _ Ha) as Ha'.
  assert (∀ i r, l !! i = Some r → region_ok r) as Hok.
  { intros i r Hi. destruct (frags_lookup 1 0 l i r) as (_ & _ & ?); [lia|lia|apply Hwf|done|done]. }
  pose proof (colored_best_spec (colored_fit (length l) vorspann (sz / PAGE - vorspann) sz
    (Z.max align PAGE) colors mask lo hi) l 0 None (max_value 64)) as Hb.
  destruct (colored_best _ l 0 None _) as [[j s]|].
  - destruct Hb as [?|(k & r & n & -> & Hk & Hfit)]; [done|]. simpl. rewrite Hk.
    apply colored_fit_sound in Hfit as (F1 & F2 & F3 & F4 & F5 & F6 & _ & F7); [|by eauto|done..].
    apply carve_post; try done; lia.
  - destruct Hb as [_ Hb]. simpl. split; [done|]. intros Hlen (s & Hs & H1 & H2 & H3 & Hfree).
    destruct (free_run_fragment 0 l s (s + sz)) as (i & r & Hi & Hr1 & Hr2);
      [done|apply Hwf|lia|done|].
    destruct (colored_fit (length l) vorspann (sz / PAGE - vorspann) sz (Z.max align PAGE)
      colors mask lo hi r) as [[s' n']|] eqn:Hf.
    + specialize (Hb r s' n' ltac:(by eapply list_elem_of_lookup_2) Hf).
      apply colored_fit_sound in Hf as (_&_&_&_&_&_&Hn&_); [|by eauto|done..]. limits. lia.
    + apply (colored_fit_complete (length l) vorspann sz (Z.max align PAGE) colors mask lo hi r)
        with s in Hf; try done; try lia; [by eauto|by apply align_page_divide].
Qed.

(** Returning a region that is not free adds exactly its bytes, merges it with
    its neighbours and keeps the list well-formed; it is refused, without
    effect, exactly when the list is full. *)
Theorem free_region_correct (l : t) (r : PhysRegion.t) :
  wf l → region_ok r → (∀ a, PhysRegion.inside r a → ¬ is_free l a) →
  let '(ok, l') := free_region r l in
  wf l' ∧
  (ok = true ↔ PhysRegion.len r = 0 ∨ (length l < MAX_FRAGMENTS)%nat) ∧
  (ok = true → (∀ a, is_free l' a ↔ PhysRegion.inside r a ∨ is_free l a) ∧
               total_free l' = PhysRegion.len r + total_free l) ∧
  (ok = false → l' = l).
Proof.
  intros Hwf Hr Hd. pose proof (insert_spec r l Hwf Hr Hd) as H. unfold free_region.
  destruct (insert r l) as [ok l']. destruct H as (H1 & H2 & H3 & H4 & _).
  rewrite !total_free_bytes by done. done.
Qed.

(** Allocating and giving back is the identity on the free list, for every
    request that succeeds and as long as the list is not full in between. *)
Theorem alloc_free_roundtrip (l l' : t) (size align lo hi : Z) (c : MemoryCap.t) :
  wf l → 0 <= size <= 2 ^ 64 - PAGE → is_align align → 0 <= lo → hi < 2 ^ 64 →
  alloc_in size align lo hi l = (Some c, l') → (length l' < MAX_FRAGMENTS)%nat →
  free c l' = (true, l).
Proof.
  intros Hwf Hs Ha Hlo Hhi Hal Hlen.
  pose proof (alloc_in_post l size align lo hi Hwf Hs Ha Hlo Hhi) as Hp. rewrite Hal in Hp.
  destruct Hp as (_&_&_&_&_&_&Hr&Hin&Heq&Hwf'&_).
  pose proof (insert_spec (MemoryCap.region c) l' Hwf' Hr) as H. unfold free.
  destruct (insert (MemoryCap.region c) l') as [ok l''].
  destruct H as ([Hf Hl''] & H2 & H3 & _).
  { intros a Ha' [_ ?]%Heq. done. }
  assert (ok = true) as -> by (apply H2; by right). f_equal.
  apply (frags_canonical 0); [lia|done|apply Hwf|].
  destruct H3 as [H3 _]; [done|]. intros a. rewrite H3, Heq.
  destruct (decide (PhysRegion.base (MemoryCap.region c) <= a <
    PhysRegion.base (MemoryCap.region c) + PhysRegion.len (MemoryCap.region c))) as [Hd|Hd].
  - split; [intros _; by apply Hin|by left].
  - split; [intros [?|[? _]]; done|]. intros ?. right. split; [done|]. done.
Qed.

(** [fully_free] and [overlaps_free] decide the two set questions they are
    named after, for every range whose end is an address. *)
Theorem free_queries_exact (l : t) (base len : Z) :
  wf l → 0 <= base → 0 <= len → base + len < 2 ^ 64 →
  (fully_free base len l = true ↔ ∀ a, base <= a < base + len → is_free l a) ∧
  (overlaps_free base len l = true ↔ ∃ a, base <= a < base + len ∧ is_free l a).
Proof.
  intros Hwf Hb Hl He.
  assert (∀ r, r ∈ l → 0 < PhysRegion.len r ∧ region_ok r) as Hok.
  { intros r Hr. destruct (frags_elem 1 0 l r) as (_&?&?); [lia|lia|apply Hwf|done|done]. }
  unfold fully_free, overlaps_free. destruct (Z.eqb_spec len 0) as [->|Hne].
  { split; split; try done; [intros; lia|intros (a & ? & _); lia]. }
  unfold checked_add, saturating_add. rewrite (proj2 (Z.ltb_lt (base + len) _)) by lia.
  rewrite Z.min_l by lia. rewrite !existsb_exists. split; split.
  - intros (r & Hr & Hx) a Ha. apply list_elem_of_In in Hr. exists r. split; [done|].
    destruct (Hok r Hr) as [? Hrk]. rewrite region_ok_end in Hx by done.
    apply andb_true_iff in Hx as [?%Z.leb_le ?%Z.leb_le]. unfold PhysRegion.inside. lia.
  - intros Hall. destruct (free_run_fragment 0 l base (base + len)) as (i & r & Hi & ? & ?);
      [lia|apply Hwf|lia|done|]. pose proof (list_elem_of_lookup_2 _ _ _ Hi) as Hr.
    exists r. split; [by apply list_elem_of_In|]. destruct (Hok r Hr) as [? Hrk].
    rewrite region_ok_end by done. apply andb_true_iff. rewrite !Z.leb_le. done.
  - intros (r & Hr & Hx). apply list_elem_of_In in Hr. destruct (Hok r Hr) as [? Hrk].
    fold (PhysRegion.end_ r) in Hx. rewrite region_ok_end in Hx by done.
    apply andb_true_iff in Hx as [?%Z.ltb_lt ?%Z.ltb_lt].
    exists (Z.max base (PhysRegion.base r)). split; [lia|]. exists r. split; [done|].
    unfold PhysRegion.inside. lia.
  - intros (a & Ha & r & Hr & Hin). exists r. split; [by apply list_elem_of_In|].
    destruct (Hok r Hr) as [? Hrk]. fold (PhysRegion.end_ r). rewrite region_ok_end by done.
    unfold PhysRegion.inside in Hin. apply andb_true_iff. rewrite !Z.ltb_lt. lia.
Qed.

(** A request of more than [2^64 - 4096] bytes is not refused: rounding it up
    to pages wraps to zero, and the caller gets an empty region. *)
Theorem alloc_in_size_wraps :
  alloc_in (2 ^ 64 - 1) PAGE 0 (max_value 64) [PhysRegion.new 4096 8192] =
  (Some (MemoryCap.new (PhysRegion.new 4096 0) Rights.RW), [PhysRegion.new 4096 8192]).
Proof. vm_compute. reflexivity. Qed.

(** ** Witnesses *)

Definition demo_ram : t := [PhysRegion.new 4096 65536; PhysRegion.new 1048576 8192].

Lemma demo_ram_wf : wf demo_ram.
Proof. split; [|vm_compute; lia]. simpl. unfold ADDR_LIMIT. lia. Qed.

Lemma align_4096 : is_align 4096.
Proof. exists 12. split; [lia|done]. Qed.

Lemma alloc_in_correct_witness :
  alloc_post (align_up (Z.max 5000 1) PAGE) 4096 0 (2 ^ 64 - 1) (λ _, True) demo_ram
    (alloc_in 5000 4096 0 (2 ^ 64 - 1) demo_ram) ∧
  5000 <= align_up (Z.max 5000 1) PAGE < Z.max 5000 1 + PAGE.
Proof.
  apply (alloc_in_correct demo_ram 5000 4096 0 (2 ^ 64 - 1));
    [apply demo_ram_wf|unfold PAGE; lia|apply align_4096|lia|lia].
Defined.

Lemma alloc_colored_correct_witness :
  alloc_post 8192 4096 0 (2 ^ 64 - 1) (λ s, colored_run (s + 1 * PAGE) (2 - 1) 16 0xF0) demo_ram
    (alloc_colored_vorspann_in 1 8192 4096 16 0xF0 0 (2 ^ 64 - 1) demo_ram).
Proof.
  apply (alloc_colored_correct demo_ram 1 8192 4096 16 0 (2 ^ 64 - 1) 0xF0);
    [apply demo_ram_wf|unfold PAGE; lia|apply align_4096|lia|lia|lia|reflexivity|done|done
    |vm_compute; split; congruence|vm_compute; congruence].
Defined.

Lemma free_region_correct_witness :
  let '(ok, l') := free_region (PhysRegion.new 69632 4096) demo_ram in
  wf l' ∧
  (ok = true ↔ 4096 = 0 ∨ (length demo_ram < MAX_FRAGMENTS)%nat) ∧
  (ok = true → (∀ a, is_free l' a ↔ PhysRegion.inside (PhysRegion.new 69632 4096) a ∨ is_free demo_ram a) ∧
               total_free l' = 4096 + total_free demo_ram) ∧
  (ok = false → l' = demo_ram).
Proof.
  apply (free_region_correct demo_ram (PhysRegion.new 69632 4096)).
  - apply demo_ram_wf.
  - unfold region_ok, ADDR_LIMIT. simpl. lia.
  - intros a Ha (r & Hr & Hin). unfold PhysRegion.inside in *. simpl in *.
    apply elem_of_cons in Hr as [->|[->|Hr%elem_of_nil]%elem_of_cons]; simpl in *; [lia|lia|done].
Defined.

Lemma alloc_free_roundtrip_witness :
  ∃ c l', alloc_in 5000 4096 0 (2 ^ 64 - 1) demo_ram = (Some c, l') ∧ free c l' = (true, demo_ram).
Proof.
  eexists _, _. split; [vm_compute; reflexivity|].
  apply (alloc_free_roundtrip demo_ram _ 5000 4096 0 (2 ^ 64 - 1));
    [apply demo_ram_wf|unfold PAGE; lia|apply align_4096|lia|lia|vm_compute; reflexivity|vm_compute; lia].
Defined.

Lemma free_queries_exact_witness :
  (fully_free 8192 4096 demo_ram = true ↔ ∀ a, 8192 <= a < 12288 → is_free demo_ram a) ∧
  (overlaps_free 8192 4096 demo_ram = true ↔ ∃ a, 8192 <= a < 12288 ∧ is_free demo_ram a).
Proof. apply (free_queries_exact demo_ram 8192 4096); [apply demo_ram_wf|lia|lia|lia]. Defined.
