(* ===== verification/CapObject.v ===== *)
(** * Kernel objects and capability slots: the data

    The types of [crates/caprock-cap/src/object.rs] and of the head of
    [crates/caprock-cap/src/space.rs]: what a capability designates, the slot
    with its derivation links, the handle, the errors, and the buffer in which a
    deletion reports what the kernel has to clean up.  *)

From S2P Require Import Prelude Region.
#[local] Open Scope Z_scope.

Inductive DmaDir := DeviceRead | DeviceWrite | Bidirectional.
Inductive DmaCoherence := Coherent | NonCoherent.

Inductive ObjectKind :=
| Memory (r : PhysRegion.t)
| Endpoint (ep : Z)
| Tcb (thread : Z)
| Notification (ntfn : Z)
| SchedContext (budget period : Z)
| Reply (ep caller : Z)
| PdControl (pd : Z)
| Loader (source : Z)
| Mmio (phys len : Z)
| Irq (intid : Z)
| Dma (phys len : Z) (dir : DmaDir) (coherence : DmaCoherence)
| SyscallHandler (ep pd sidecar len : Z)
| FaultHandler (ep pd sidecar len : Z)
| Debuggable (pd : Z).

#[export] Instance DmaDir_eq_dec : EqDecision DmaDir.
Proof. solve_decision. Defined.
#[export] Instance DmaCoherence_eq_dec : EqDecision DmaCoherence.
Proof. solve_decision. Defined.
#[export] Instance ObjectKind_eq_dec : EqDecision ObjectKind.
Proof. solve_decision. Defined.

Module Object.
Record t := mk { used : bool; kind : ObjectKind; refcount : Z; gen : Z }.
Definition eta (o : t) : t := mk (used o) (kind o) (refcount o) (gen o).
Definition with_used v o := ltac:(set_field eta used o v).
Definition with_refcount v o := ltac:(set_field eta refcount o v).
Definition with_gen v o := ltac:(set_field eta gen o v).
Definition EMPTY : t := mk false (Memory (PhysRegion.new 0 0)) 0 0.
End Object.

Module CapPtr.
Record t := mk { slot : nat; gen : Z }.
#[global] Instance eq_dec : EqDecision t.
Proof. solve_decision. Defined.
End CapPtr.

Inductive CapError :=
| NoSlot | NoObject | Invalid | HasChildren | Unaligned | ZuKlein | Subregion.

#[export] Instance CapError_eq_dec : EqDecision CapError.
Proof. solve_decision. Defined.

Module Mdb.
Record t := mk {
  parent : option nat;
  first_child : option nat;
  next_sibling : option nat;
  prev_sibling : option nat }.
Definition eta (m : t) : t := mk (parent m) (first_child m) (next_sibling m) (prev_sibling m).
Definition with_parent v m := ltac:(set_field eta parent m v).
Definition with_first_child v m := ltac:(set_field eta first_child m v).
Definition with_next_sibling v m := ltac:(set_field eta next_sibling m v).
Definition with_prev_sibling v m := ltac:(set_field eta prev_sibling m v).
Definition EMPTY : t := mk None None None None.
End Mdb.

Module CapSlot.
Record t := mk {
  used : bool;
  gen : Z;
  object : nat;
  rights : Rights.t;
  badge : Z;
  subregion : option PhysRegion.t;
  mdb : Mdb.t }.
Definition eta (s : t) : t :=
  mk (used s) (gen s) (object s) (rights s) (badge s) (subregion s) (mdb s).
Definition with_gen v s := ltac:(set_field eta gen s v).
Definition with_badge v s := ltac:(set_field eta badge s v).
Definition with_subregion v s := ltac:(set_field eta subregion s v).
Definition with_mdb v s := ltac:(set_field eta mdb s v).
Definition EMPTY : t := mk false 0 0 Rights.NONE 0 None Mdb.EMPTY.

(** The assignments [slots[i].mdb.f = v]. *)
Definition set_parent v s := with_mdb (Mdb.with_parent v (mdb s)) s.
Definition set_first_child v s := with_mdb (Mdb.with_first_child v (mdb s)) s.
Definition set_next_sibling v s := with_mdb (Mdb.with_next_sibling v (mdb s)) s.
Definition set_prev_sibling v s := with_mdb (Mdb.with_prev_sibling v (mdb s)) s.
End CapSlot.

Module Finalized.
(** [struct Finalized<'a>]: three borrowed buffers, of which the first [n], [dn]
    and [gn] entries are filled.  A buffer is its capacity ([.len()] of the
    slice) and the list of the filled entries. *)
Record t := mk {
  items_len : nat; items : list (Z * Z);
  dma_len : nat; dma : list (Z * Z);
  debug_len : nat; debug : list Z;
  overflow : bool }.
Definition eta (f : t) : t :=
  mk (items_len f) (items f) (dma_len f) (dma f) (debug_len f) (debug f) (overflow f).
Definition with_items v f := ltac:(set_field eta items f v).
Definition with_dma v f := ltac:(set_field eta dma f v).
Definition with_debug v f := ltac:(set_field eta debug f v).
Definition with_overflow v f := ltac:(set_field eta overflow f v).

Definition mit_debug (items_len dma_len debug_len : nat) : t :=
  mk items_len [] dma_len [] debug_len [] false.
Definition new (items_len dma_len : nat) : t := mit_debug items_len dma_len 0.

Definition push (ep caller : Z) (f : t) : t :=
  if decide (length (items f) < items_len f)%nat
  then with_items (items f ++ [(ep, caller)]) f else with_overflow true f.
Definition push_dma (phys len : Z) (f : t) : t :=
  if decide (length (dma f) < dma_len f)%nat
  then with_dma (dma f ++ [(phys, len)]) f else with_overflow true f.
Definition push_debug (pd : Z) (f : t) : t :=
  if decide (length (debug f) < debug_len f)%nat
  then with_debug (debug f ++ [pd]) f else with_overflow true f.
Definition overflowed (f : t) : bool := overflow f.
End Finalized.

(** A readable view of a capability. *)
Record CapInfo := mk_CapInfo {
  ci_kind : ObjectKind; ci_rights : Rights.t; ci_badge : Z;
  ci_refcount : Z; ci_child_count : nat; ci_is_root : bool }.
