(* ===== verification/CapSpace.v ===== *)
(** * The capability space

    Models [crates/caprock-cap/src/space.rs]: the slot table with the capability
    derivation tree (CDT) threaded through it, the reference-counted object
    table, and every operation on them.  Indexing a table out of range panics
    in the source; here it is [panic] of the monad.  *)

From S2P Require Import Prelude PanicMonad Region PhysAlloc CapObject.
#[local] Open Scope Z_scope.

(** ** Walks over the slot table *)

(** [descend_to_leaf]: the [loop] ends at the latest after [limit] steps, so
    [S limit] rounds are enough. *)
Fixpoint descend_loop (slots : list CapSlot.t) (limit fuel leaf steps : nat) :
    result (nat * nat) unit :=
  match fuel with
  | O => Err tt
  | S fuel =>
      match slots !! leaf with
      | None => Err tt
      | Some s =>
          match Mdb.first_child (CapSlot.mdb s) with
          | None => Ok (leaf, steps)
          | Some c =>
              if decide (limit < S steps)%nat then Err tt
              else descend_loop slots limit fuel c (S steps)
          end
      end
  end.
Definition descend_to_leaf (slots : list CapSlot.t) (start limit : nat) :=
  descend_loop slots limit (S limit) start 0.

Fixpoint count_loop (slots : list CapSlot.t) (limit fuel n : nat) (cur : option nat) :
    result nat unit :=
  match cur with
  | None => Ok n
  | Some i =>
      match fuel with
      | O => Err tt
      | S fuel =>
          if decide (limit < S n)%nat then Err tt
          else match slots !! i with
               | None => Err tt
               | Some s => count_loop slots limit fuel (S n) (Mdb.next_sibling (CapSlot.mdb s))
               end
      end
  end.
Definition count_children (slots : list CapSlot.t) (parent limit : nat) : result nat unit :=
  match slots !! parent with
  | None => Err tt
  | Some s => count_loop slots limit (S limit) 0 (Mdb.first_child (CapSlot.mdb s))
  end.

Definition teilfenster_rechnen (whole : PhysRegion.t) (offset len : Z) :
    result PhysRegion.t CapError :=
  if len =? 0 then Err Subregion
  else
    match checked_add 64 (PhysRegion.base whole) offset with
    | None => Err Subregion
    | Some base =>
        match checked_add 64 base len with
        | None => Err Subregion
        | Some ende =>
            match checked_add 64 (PhysRegion.base whole) (PhysRegion.len whole) with
            | None => Err Subregion
            | Some whole_ende =>
                if whole_ende <? ende then Err Subregion else Ok (PhysRegion.new base len)
            end
        end
    end.

Module CapSpace.
Record t := mk {
  slots : list CapSlot.t;
  objects : list Object.t;
  peak_slots : nat;
  peak_objects : nat;
  peak_cdt_walk : nat;
  peak_revoke_ops : nat;
  cdt_walk_overruns : Z }.
Definition eta (c : t) : t :=
  mk (slots c) (objects c) (peak_slots c) (peak_objects c) (peak_cdt_walk c)
     (peak_revoke_ops c) (cdt_walk_overruns c).
Definition with_slots v c := ltac:(set_field eta slots c v).
Definition with_objects v c := ltac:(set_field eta objects c v).
Definition with_peak_slots v c := ltac:(set_field eta peak_slots c v).
Definition with_peak_objects v c := ltac:(set_field eta peak_objects c v).
Definition with_peak_cdt_walk v c := ltac:(set_field eta peak_cdt_walk c v).
Definition with_peak_revoke_ops v c := ltac:(set_field eta peak_revoke_ops c v).
Definition with_cdt_walk_overruns v c := ltac:(set_field eta cdt_walk_overruns c v).

Definition new : t := mk [] [] 0 0 0 0 0.

(** [self.slots[i]], [self.objects[i]] and the assignments to them. *)
Definition slot_at (i : nat) : M t CapSlot.t := gets slots ≫= λ l, expect (l !! i).
Definition object_at (i : nat) : M t Object.t := gets objects ≫= λ l, expect (l !! i).
Definition upd_slot (i : nat) (f : CapSlot.t → CapSlot.t) : M t unit :=
  slot_at i ≫= λ _, modify (λ c, with_slots (alter f i (slots c)) c).
Definition upd_object (i : nat) (f : Object.t → Object.t) : M t unit :=
  object_at i ≫= λ _, modify (λ c, with_objects (alter f i (objects c)) c).

(** [attach]: the tables come from the caller; a second call panics. *)
Definition attach (sl : list CapSlot.t) (ob : list Object.t) : M t unit :=
  c ← gets (λ c, c);
  if decide (slots c = [] ∧ objects c = [])
  then modify (λ c, with_objects ob (with_slots sl c)) else panic.

Definition capacity (c : t) : nat * nat := (length (slots c), length (objects c)).
Definition finalize_capacity (c : t) : nat := length (objects c).
Definition used_slots (c : t) : nat := count_if CapSlot.used (slots c).
Definition used_objects (c : t) : nat := count_if Object.used (objects c).
Definition cdt_step_limit (c : t) : nat := length (slots c).

Definition note_walk (steps : nat) : M t unit :=
  modify (λ c, if decide (peak_cdt_walk c < steps)%nat then with_peak_cdt_walk steps c else c).
Definition note_overrun : M t unit :=
  modify (λ c, with_cdt_walk_overruns (saturating_add 32 (cdt_walk_overruns c) 1) c).

Definition ptr (slot : nat) : M t CapPtr.t :=
  s ← slot_at slot; mret (CapPtr.mk slot (CapSlot.gen s)).

Definition resolve_in (c : t) (p : CapPtr.t) : result nat CapError :=
  match slots c !! CapPtr.slot p with
  | Some s =>
      if CapSlot.used s && (CapSlot.gen s =? CapPtr.gen p) then Ok (CapPtr.slot p) else Err Invalid
  | None => Err Invalid
  end.
Definition resolve (p : CapPtr.t) : M t (result nat CapError) := gets (λ c, resolve_in c p).

Definition free_slot_index : M t (result nat CapError) :=
  gets (λ c, match position (λ s, negb (CapSlot.used s)) (slots c) with
             | Some i => Ok i | None => Err NoSlot end).

Definition alloc_slot (object : nat) (rights : Rights.t) (badge : Z) : M t (result nat CapError) :=
  i ←? free_slot_index;
  upd_slot i (λ s, CapSlot.mk true (CapSlot.gen s) object rights badge None Mdb.EMPTY) ≫= λ _,
  modify (λ c, if decide (peak_slots c < used_slots c)%nat
               then with_peak_slots (used_slots c) c else c) ≫= λ _,
  mret (Ok i).

Definition release_slot (slot : nat) : M t unit :=
  upd_slot slot (λ s, CapSlot.with_gen (wrapping_add 32 (CapSlot.gen s) 1) CapSlot.EMPTY).

Definition alloc_object_inner (kind : ObjectKind) : M t (result nat CapError) :=
  i ←? gets (λ c, match position (λ o, negb (Object.used o)) (objects c) with
                  | Some i => Ok i | None => Err NoObject end);
  upd_object i (λ o, Object.mk true kind 1 (Object.gen o)) ≫= λ _,
  mret (Ok i).
Definition alloc_object (kind : ObjectKind) : M t (result nat CapError) :=
  r ← alloc_object_inner kind;
  (if is_ok r
   then modify (λ c, if decide (peak_objects c < used_objects c)%nat
                     then with_peak_objects (used_objects c) c else c)
   else mret tt) ≫= λ _, mret r.

Definition child_count (c : t) (slot : nat) : result nat unit :=
  count_children (slots c) slot (cdt_step_limit c).

(** [kind_einhaengen], which [link_child] applies to the slot table. *)
Definition link_child (parent child : nat) : M t unit :=
  p ← slot_at parent;
  let old_first := Mdb.first_child (CapSlot.mdb p) in
  upd_slot child (CapSlot.set_parent (Some parent)) ≫= λ _,
  upd_slot child (CapSlot.set_prev_sibling None) ≫= λ _,
  upd_slot child (CapSlot.set_next_sibling old_first) ≫= λ _,
  match old_first with
  | Some f => upd_slot f (CapSlot.set_prev_sibling (Some child))
  | None => mret tt
  end ≫= λ _,
  upd_slot parent (CapSlot.set_first_child (Some child)).

Definition unlink (slot : nat) : M t unit :=
  s ← slot_at slot;
  let mdb := CapSlot.mdb s in
  match Mdb.prev_sibling mdb with
  | Some p => upd_slot p (CapSlot.set_next_sibling (Mdb.next_sibling mdb))
  | None =>
      match Mdb.parent mdb with
      | Some par => upd_slot par (CapSlot.set_first_child (Mdb.next_sibling mdb))
      | None => mret tt
      end
  end ≫= λ _,
  match Mdb.next_sibling mdb with
  | Some n => upd_slot n (CapSlot.set_prev_sibling (Mdb.prev_sibling mdb))
  | None => mret tt
  end ≫= λ _,
  upd_slot slot (CapSlot.with_mdb Mdb.EMPTY).

(** ** Installation *)

Definition install (kind : ObjectKind) (rights : Rights.t) : M t (result CapPtr.t CapError) :=
  obj ←? alloc_object kind;
  r ← alloc_slot obj rights 0;
  match r with
  | Ok slot => ptr slot ≫= λ p, mret (Ok p)
  | Err e => upd_object obj (Object.with_used false) ≫= λ _, mret (Err e)
  end.

Definition install_memory (cap : MemoryCap.t) :=
  install (Memory (MemoryCap.region cap)) (MemoryCap.rights cap).
Definition install_endpoint ep_id rights := install (Endpoint ep_id) rights.
Definition install_tcb thread_raw rights := install (Tcb thread_raw) rights.
Definition install_notification ntfn_id rights := install (Notification ntfn_id) rights.
Definition install_sched_context budget period rights := install (SchedContext budget period) rights.
Definition install_reply ep caller rights := install (Reply ep caller) rights.
Definition install_pd_control pd rights := install (PdControl pd) rights.
Definition install_loader source rights := install (Loader source) rights.
Definition install_debuggable pd rights := install (Debuggable pd) rights.
Definition install_mmio phys len rights := install (Mmio phys len) rights.
Definition install_syscall_handler ep pd sidecar len rights :=
  install (SyscallHandler ep pd sidecar len) rights.
Definition install_fault_handler ep pd sidecar len rights :=
  install (FaultHandler ep pd sidecar len) rights.
Definition install_irq intid rights := install (Irq intid) rights.
Definition install_dma_ex phys len dir coherence rights :=
  install (Dma phys len dir coherence) rights.
Definition install_dma phys len rights := install_dma_ex phys len Bidirectional NonCoherent rights.

(** ** Inspection *)

(** The kind a capability authorises: a window narrows a memory region. *)
Definition effective_kind (s : CapSlot.t) (k : ObjectKind) : ObjectKind :=
  match k with
  | Memory r => Memory (default r (CapSlot.subregion s))
  | k => k
  end.

Definition lookup (p : CapPtr.t) : M t (option (ObjectKind * Rights.t * Z)) :=
  r ← resolve p;
  match r with
  | Err _ => mret None
  | Ok slot =>
      s ← slot_at slot;
      o ← object_at (CapSlot.object s);
      mret (Some (effective_kind s (Object.kind o), CapSlot.rights s, CapSlot.badge s))
  end.

Definition kind_of (p : CapPtr.t) : M t (option ObjectKind) :=
  r ← resolve p;
  match r with
  | Err _ => mret None
  | Ok slot =>
      s ← slot_at slot;
      o ← object_at (CapSlot.object s);
      mret (Some (effective_kind s (Object.kind o)))
  end.

Definition inspect (p : CapPtr.t) : M t (option CapInfo) :=
  r ← resolve p;
  match r with
  | Err _ => mret None
  | Ok slot =>
      s ← slot_at slot;
      n ← gets (λ c, child_count c slot);
      match n with
      | Err _ => mret None
      | Ok child_count =>
          o ← object_at (CapSlot.object s);
          mret (Some (mk_CapInfo (effective_kind s (Object.kind o)) (CapSlot.rights s)
                        (CapSlot.badge s) (Object.refcount o) child_count
                        (bool_decide (Mdb.parent (CapSlot.mdb s) = None))))
      end
  end.

(** [matches!(kind, Debuggable { pd: q } if q == pd)] *)
Definition is_debuggable (pd : Z) (k : ObjectKind) : bool :=
  match k with Debuggable q => q =? pd | _ => false end.

Definition any_debug_control_over (c : t) (pd : Z) : bool :=
  existsb (λ s, CapSlot.used s && Rights.contains (CapSlot.rights s) Rights.WRITE &&
                bool_decide (Mdb.parent (CapSlot.mdb s) ≠ None) &&
                match objects c !! CapSlot.object s with
                | Some o => is_debuggable pd (Object.kind o) | None => false end) (slots c).

Definition any_debug_authority_over (c : t) (pd : Z) : bool :=
  existsb (λ o, Object.used o && (0 <? Object.refcount o) && is_debuggable pd (Object.kind o))
          (objects c).

(** [for_each_dma]: the arguments of the successive calls of [f]. *)
Definition for_each_dma (c : t) : list (Z * Z) :=
  omap (λ o, if Object.used o
             then match Object.kind o with Dma phys len _ _ => Some (phys, len) | _ => None end
             else None) (objects c).

Definition mark_slot (c : t) (cap : CapPtr.t) (seen : list bool) : bool * list bool :=
  match slots c !! CapPtr.slot cap with
  | None => (false, seen)
  | Some s =>
      if negb (CapSlot.used s) || negb (CapSlot.gen s =? CapPtr.gen cap) ||
         bool_decide (length seen ≤ CapPtr.slot cap)%nat
      then (false, seen) else (true, <[CapPtr.slot cap := true]> seen)
  end.

Definition unmarked_used_slots (c : t) (seen : list bool) : option nat :=
  if decide (length seen < length (slots c))%nat then None
  else Some (count_if (λ '(s, m), CapSlot.used s && negb m) (zip (slots c) seen)).

(** ** Derivation *)

(** The tail of [copy] and [subregion]: a new child slot with window [fenster]. *)
Definition derive_child (s obj : nat) (rights : Rights.t) (badge : Z)
    (fenster : option PhysRegion.t) : M t (result CapPtr.t CapError) :=
  dst ←? alloc_slot obj rights badge;
  upd_slot dst (CapSlot.with_subregion fenster) ≫= λ _,
  upd_object obj (λ o, Object.with_refcount (wrapping_add 32 (Object.refcount o) 1) o) ≫= λ _,
  link_child s dst ≫= λ _,
  ptr dst ≫= λ p, mret (Ok p).

Definition copy (src : CapPtr.t) (rights : Rights.t) : M t (result CapPtr.t CapError) :=
  s ←? resolve src;
  sl ← slot_at s;
  derive_child s (CapSlot.object sl) (Rights.intersect (CapSlot.rights sl) rights)
    (CapSlot.badge sl) (CapSlot.subregion sl).

Definition mint (src : CapPtr.t) (rights : Rights.t) (badge : Z) : M t (result CapPtr.t CapError) :=
  dst ←? copy src rights;
  upd_slot (CapPtr.slot dst) (CapSlot.with_badge badge) ≫= λ _,
  mret (Ok dst).

Definition subregion (src : CapPtr.t) (offset len : Z) (rights : Rights.t) :
    M t (result CapPtr.t CapError) :=
  s ←? resolve src;
  sl ← slot_at s;
  o ← object_at (CapSlot.object sl);
  match Object.kind o with
  | Memory whole =>
      match teilfenster_rechnen (default whole (CapSlot.subregion sl)) offset len with
      | Err e => mret (Err e)
      | Ok fenster =>
          derive_child s (CapSlot.object sl) (Rights.intersect (CapSlot.rights sl) rights)
            (CapSlot.badge sl) (Some fenster)
      end
  | _ => mret (Err Invalid)
  end.

(** The loop of [move_cap] that gives the children their new parent; the
    result is the number of steps. *)
Fixpoint reparent (limit fuel dst steps : nat) (child : option nat) : M t nat :=
  match child with
  | None => mret steps
  | Some c =>
      if decide (limit < S steps)%nat then note_overrun ≫= λ _, mret (S steps)
      else
        match fuel with
        | O => panic
        | S fuel =>
            upd_slot c (CapSlot.set_parent (Some dst)) ≫= λ _,
            s ← slot_at c;
            reparent limit fuel dst (S steps) (Mdb.next_sibling (CapSlot.mdb s))
        end
  end.

Definition move_cap (src : CapPtr.t) : M t (result CapPtr.t CapError) :=
  s ←? resolve src;
  dst ←? free_slot_index;
  sl ← slot_at s;
  upd_slot dst (λ d, CapSlot.with_gen (CapSlot.gen d) sl) ≫= λ _,
  sl ← slot_at s;
  let mdb := CapSlot.mdb sl in
  match Mdb.prev_sibling mdb with
  | Some p => upd_slot p (CapSlot.set_next_sibling (Some dst))
  | None =>
      match Mdb.parent mdb with
      | Some par => upd_slot par (CapSlot.set_first_child (Some dst))
      | None => mret tt
      end
  end ≫= λ _,
  match Mdb.next_sibling mdb with
  | Some n => upd_slot n (CapSlot.set_prev_sibling (Some dst))
  | None => mret tt
  end ≫= λ _,
  limit ← gets cdt_step_limit;
  steps ← reparent limit (S limit) dst 0 (Mdb.first_child mdb);
  note_walk steps ≫= λ _,
  release_slot s ≫= λ _,
  ptr dst ≫= λ p, mret (Ok p).

(** ** Deletion

    [delete] and [revoke] also take the allocator and the report buffer. *)

Definition St : Type := t * PhysAllocator.t * Finalized.t.
Definition on_space {A} : M t A → M St A :=
  zoom (λ s : St, s.1.1) (λ c s, (c, s.1.2, s.2)).
Definition on_alloc (f : PhysAllocator.t → PhysAllocator.t) : M St unit :=
  modify (λ s : St, (s.1.1, f s.1.2, s.2)).
Definition on_final (f : Finalized.t → Finalized.t) : M St unit :=
  modify (λ s : St, (s.1.1, s.1.2, f s.2)).

Definition finalize (k : ObjectKind) : M St unit :=
  match k with
  | Memory region => on_alloc (λ a, (PhysAllocator.free_region region a).2)
  | Dma phys len _ _ => on_final (Finalized.push_dma phys len)
  | Reply ep caller => on_final (Finalized.push ep caller)
  | _ => mret tt
  end.

Definition delete_leaf (slot : nat) : M St unit :=
  s ← on_space (slot_at slot);
  let obj := CapSlot.object s in
  o ← on_space (object_at obj);
  match Object.kind o with
  | Debuggable pd =>
      if Rights.contains (CapSlot.rights s) Rights.WRITE &&
         bool_decide (Mdb.parent (CapSlot.mdb s) ≠ None)
      then on_final (Finalized.push_debug pd) else mret tt
  | _ => mret tt
  end ≫= λ _,
  on_space (unlink slot) ≫= λ _,
  on_space (release_slot slot) ≫= λ _,
  on_space (upd_object obj
    (λ o, Object.with_refcount (wrapping_sub 32 (Object.refcount o) 1) o)) ≫= λ _,
  o ← on_space (object_at obj);
  if Object.refcount o =? 0 then
    finalize (Object.kind o) ≫= λ _,
    on_space (upd_object obj
      (λ o, Object.with_gen (wrapping_add 32 (Object.gen o) 1) Object.EMPTY))
  else mret tt.

Definition delete (p : CapPtr.t) : M St (result unit CapError) :=
  slot ←? on_space (resolve p);
  s ← on_space (slot_at slot);
  match Mdb.first_child (CapSlot.mdb s) with
  | Some _ => mret (Err HasChildren)
  | None => delete_leaf slot ≫= λ _, mret (Ok tt)
  end.

(** The loop of [revoke], with [ops] deletions so far; it is left after at most
    [limit + 1] of them. *)
Fixpoint revoke_loop (limit fuel slot ops : nat) : M St nat :=
  s ← on_space (slot_at slot);
  match Mdb.first_child (CapSlot.mdb s) with
  | None => mret ops
  | Some child =>
      match fuel with
      | O => panic
      | S fuel =>
          d ← on_space (gets (λ c, descend_to_leaf (slots c) child limit));
          match d with
          | Err _ => on_space note_overrun ≫= λ _, mret ops
          | Ok (leaf, steps) =>
              on_space (note_walk steps) ≫= λ _,
              delete_leaf leaf ≫= λ _,
              if decide (limit < S ops)%nat
              then on_space note_overrun ≫= λ _, mret (S ops)
              else revoke_loop limit fuel slot (S ops)
          end
      end
  end.

Definition revoke (p : CapPtr.t) : M St (result unit CapError) :=
  slot ←? on_space (resolve p);
  limit ← on_space (gets cdt_step_limit);
  ops ← revoke_loop limit (S limit) slot 0;
  on_space (modify (λ c, if decide (peak_revoke_ops c < ops)%nat
                         then with_peak_revoke_ops ops c else c)) ≫= λ _,
  mret (Ok tt).
End CapSpace.
