(* ===== verification/CapInv.v ===== *)
(** * The invariant of the capability space

    [cdt sl kids rank]: the links of the slot table [sl] form a forest, [kids p]
    being the child list of slot [p] (threaded by the sibling links, headed by
    [first_child]) and [rank] growing from a parent to its children; a child
    designates its parent's object with no more rights and no wider window.
    [objects_ok]: an object is in use exactly as long as capabilities designate
    it, and counts them.  *)

From S2P Require Import Prelude PanicMonad Dll Region PhysAlloc CapObject CapSpace.

(** ** Views of the slot table *)

(** The optional field [F] of slot [i]. *)
Definition view {A} (F : CapSlot.t → option A) (l : list CapSlot.t) (i : nat) : option A :=
  l !! i ≫= F.
Definition parent_of := view (λ s, Mdb.parent (CapSlot.mdb s)).
Definition first_of := view (λ s, Mdb.first_child (CapSlot.mdb s)).
Definition next_of := view (λ s, Mdb.next_sibling (CapSlot.mdb s)).
Definition prev_of := view (λ s, Mdb.prev_sibling (CapSlot.mdb s)).

(** What a slot holds besides its links. *)
Definition core (s : CapSlot.t) : CapSlot.t := CapSlot.with_mdb Mdb.EMPTY s.
Definition core_of (l : list CapSlot.t) (i : nat) : option CapSlot.t := core <$> l !! i.

(** The window [f] of a child against the window [g] of its parent. *)
Definition window_le (f g : option PhysRegion.t) : Prop :=
  match f, g with
  | Some f, Some g => PhysRegion.subset f g
  | None, Some _ => False
  | _, None => True
  end.

(** A child slot derives its authority from its parent. *)
Definition derives (s p : CapSlot.t) : Prop :=
  CapSlot.used s = true ∧ CapSlot.used p = true ∧ CapSlot.object s = CapSlot.object p ∧
  Rights.le (CapSlot.rights s) (CapSlot.rights p) ∧
  window_le (CapSlot.subregion s) (CapSlot.subregion p).

Record cdt (sl : list CapSlot.t) (kids : nat → list nat) (rank : nat → nat) : Prop := {
  cdt_first : ∀ i, first_of sl i = head (kids i);
  cdt_dll : ∀ p, dll (next_of sl) (prev_of sl) (kids p);
  cdt_parent : ∀ p c, c ∈ kids p ↔ parent_of sl c = Some p;
  cdt_root : ∀ i, parent_of sl i = None → next_of sl i = None ∧ prev_of sl i = None;
  cdt_derives : ∀ c p, parent_of sl c = Some p →
    ∃ s sp, core_of sl c = Some s ∧ core_of sl p = Some sp ∧ derives s sp;
  cdt_rank : ∀ c p, parent_of sl c = Some p → rank p < rank c }.

(** The number of capabilities that designate object [o]. *)
Definition designates (o : nat) (s : CapSlot.t) : bool :=
  CapSlot.used s && bool_decide (CapSlot.object s = o).
Definition refs (sl : list CapSlot.t) (o : nat) : nat := count_if (designates o) sl.

(** Every window lies in the memory object's region. *)
Definition windows_ok (sl : list CapSlot.t) (ob : list Object.t) : Prop :=
  ∀ i s f, sl !! i = Some s → CapSlot.used s = true → CapSlot.subregion s = Some f →
    ∃ o r, ob !! CapSlot.object s = Some o ∧ Object.kind o = Memory r ∧ PhysRegion.subset f r.

Record objects_ok (sl : list CapSlot.t) (ob : list Object.t) : Prop := {
  ob_in_table : ∀ i s, sl !! i = Some s → CapSlot.used s = true → CapSlot.object s < length ob;
  ob_used : ∀ o x, ob !! o = Some x → Object.used x = true →
    Object.refcount x = Z.of_nat (refs sl o) ∧ 0 < refs sl o;
  ob_unused : ∀ o x, ob !! o = Some x → Object.used x = false → refs sl o = 0;
  ob_width : (Z.of_nat (length sl) < 2 ^ 32)%Z }.

Record inv (c : CapSpace.t) : Prop := {
  inv_cdt : ∃ kids rank, cdt (CapSpace.slots c) kids rank;
  inv_objects : objects_ok (CapSpace.slots c) (CapSpace.objects c);
  inv_windows : windows_ok (CapSpace.slots c) (CapSpace.objects c) }.

(** ** Reading an updated table *)

Lemma view_alter_same {A} (F : CapSlot.t → option A) g i l :
  (∀ s, F (g s) = F s) → ∀ j, view F (alter g i l) j = view F l j.
Proof.
  intros H j. unfold view. rewrite lookup_alter_if. destruct (l !! j); simpl; [|done].
  case_decide; simpl; [apply H|done].
Qed.

Lemma view_alter_const {A} (F : CapSlot.t → option A) g v i l :
  (∀ s, F (g s) = v) → i < length l →
  ∀ j, view F (alter g i l) j = if decide (i = j) then v else view F l j.
Proof.
  intros H Hi j. unfold view. rewrite lookup_alter_if. case_decide as Hij; subst.
  - destruct (lookup_lt_is_Some_2 l j Hi) as [s ->]. simpl. apply H.
  - by destruct (l !! j).
Qed.

Lemma core_alter_same g i l :
  (∀ s, core (g s) = core s) → ∀ j, core_of (alter g i l) j = core_of l j.
Proof.
  intros H j. unfold core_of. rewrite lookup_alter_if. destruct (l !! j); simpl; [|done].
  case_decide; simpl; [by rewrite H|done].
Qed.

Lemma core_alter g i l j :
  core_of (alter g i l) j = if decide (i = j) then core ∘ g <$> l !! j else core_of l j.
Proof.
  unfold core_of. rewrite lookup_alter_if. case_decide; [|by destruct (l !! j)].
  by destruct (l !! j).
Qed.

(** The views as rewriting rules: an assignment to one link changes that view at
    that slot, and no other view. *)
Section view_rules.
Context (l : list CapSlot.t) (i : nat).
Hypothesis Hi : i < length l.

Lemma parent_set v j :
  parent_of (alter (CapSlot.set_parent v) i l) j = if decide (i = j) then v else parent_of l j.
Proof using Hi. by apply view_alter_const. Qed.
Lemma first_set v j :
  first_of (alter (CapSlot.set_first_child v) i l) j = if decide (i = j) then v else first_of l j.
Proof using Hi. by apply view_alter_const. Qed.
Lemma next_set v j :
  next_of (alter (CapSlot.set_next_sibling v) i l) j = if decide (i = j) then v else next_of l j.
Proof using Hi. by apply view_alter_const. Qed.
Lemma prev_set v j :
  prev_of (alter (CapSlot.set_prev_sibling v) i l) j = if decide (i = j) then v else prev_of l j.
Proof using Hi. by apply view_alter_const. Qed.

Lemma parent_clear j :
  parent_of (alter (CapSlot.with_mdb Mdb.EMPTY) i l) j = if decide (i = j) then None else parent_of l j.
Proof using Hi. by apply view_alter_const. Qed.
Lemma first_clear j :
  first_of (alter (CapSlot.with_mdb Mdb.EMPTY) i l) j = if decide (i = j) then None else first_of l j.
Proof using Hi. by apply view_alter_const. Qed.
Lemma next_clear j :
  next_of (alter (CapSlot.with_mdb Mdb.EMPTY) i l) j = if decide (i = j) then None else next_of l j.
Proof using Hi. by apply view_alter_const. Qed.
Lemma prev_clear j :
  prev_of (alter (CapSlot.with_mdb Mdb.EMPTY) i l) j = if decide (i = j) then None else prev_of l j.
Proof using Hi. by apply view_alter_const. Qed.
End view_rules.

Lemma parent_same g l i j : (∀ s, Mdb.parent (CapSlot.mdb (g s)) = Mdb.parent (CapSlot.mdb s)) →
  parent_of (alter g i l) j = parent_of l j.
Proof. intros Hg. by apply view_alter_same. Qed.
Lemma first_same g l i j : (∀ s, Mdb.first_child (CapSlot.mdb (g s)) = Mdb.first_child (CapSlot.mdb s)) →
  first_of (alter g i l) j = first_of l j.
Proof. intros Hg. by apply view_alter_same. Qed.
Lemma next_same g l i j : (∀ s, Mdb.next_sibling (CapSlot.mdb (g s)) = Mdb.next_sibling (CapSlot.mdb s)) →
  next_of (alter g i l) j = next_of l j.
Proof. intros Hg. by apply view_alter_same. Qed.
Lemma prev_same g l i j : (∀ s, Mdb.prev_sibling (CapSlot.mdb (g s)) = Mdb.prev_sibling (CapSlot.mdb s)) →
  prev_of (alter g i l) j = prev_of l j.
Proof. intros Hg. by apply view_alter_same. Qed.

(** Rewrites every view of an updated table to views of the table before. *)
Ltac views :=
  repeat first
    [ rewrite parent_same by reflexivity | rewrite first_same by reflexivity
    | rewrite next_same by reflexivity | rewrite prev_same by reflexivity
    | rewrite core_alter_same by reflexivity
    | rewrite parent_set by (rewrite ?length_alter; eauto)
    | rewrite first_set by (rewrite ?length_alter; eauto)
    | rewrite next_set by (rewrite ?length_alter; eauto)
    | rewrite prev_set by (rewrite ?length_alter; eauto)
    | rewrite parent_clear by (rewrite ?length_alter; eauto)
    | rewrite first_clear by (rewrite ?length_alter; eauto)
    | rewrite next_clear by (rewrite ?length_alter; eauto)
    | rewrite prev_clear by (rewrite ?length_alter; eauto) ].

Lemma core_of_Some l i s : core_of l i = Some s → ∃ x, l !! i = Some x ∧ core x = s.
Proof. unfold core_of. destruct (l !! i); simpl; [|done]. intros [= <-]. eauto. Qed.

Lemma core_of_lookup l i x : l !! i = Some x → core_of l i = Some (core x).
Proof. unfold core_of. by intros ->. Qed.

Lemma view_Some_lt {A} (F : CapSlot.t → option A) l i a : view F l i = Some a → i < length l.
Proof. unfold view. destruct (l !! i) eqn:E; [|done]. intros _. by eapply lookup_lt_Some. Qed.

Lemma core_of_eq_length l l' : length l = length l' → ∀ i, is_Some (core_of l i) ↔ is_Some (core_of l' i).
Proof.
  intros H i. unfold core_of. rewrite !fmap_is_Some, !lookup_lt_is_Some. by rewrite H.
Qed.

(** ** Consequences of the tree invariant *)

Section cdt.
Context {sl : list CapSlot.t} {kids : nat → list nat} {rank : nat → nat}.
Hypothesis H : cdt sl kids rank.

Lemma cdt_kid_lt p c : c ∈ kids p → c < length sl.
Proof using H. intros Hc. apply (cdt_parent _ _ _ H) in Hc. by eapply view_Some_lt. Qed.

Lemma cdt_parent_lt c p : parent_of sl c = Some p → p < length sl.
Proof using H.
  intros Hp. destruct (cdt_derives _ _ _ H _ _ Hp) as (s & sp & _ & Hsp & _).
  apply core_of_Some in Hsp as (x & Hx & _). by eapply lookup_lt_Some.
Qed.

Lemma cdt_unused i s : sl !! i = Some s → CapSlot.used s = false → CapSlot.mdb s = Mdb.EMPTY.
Proof using H.
  intros Hi Hu.
  assert (parent_of sl i = None) as Hp.
  { destruct (parent_of sl i) as [p|] eqn:Hp; [|done].
    destruct (cdt_derives _ _ _ H _ _ Hp) as (x & sp & Hx & _ & Hu' & _).
    rewrite (core_of_lookup _ _ _ Hi) in Hx. simplify_eq. simpl in Hu'. congruence. }
  assert (first_of sl i = None) as Hf.
  { rewrite (cdt_first _ _ _ H). destruct (kids i) as [|c l] eqn:Hk; [done|].
    assert (parent_of sl c = Some i) as Hc by (apply (cdt_parent _ _ _ H); rewrite Hk; set_solver).
    destruct (cdt_derives _ _ _ H _ _ Hc) as (x & sp & _ & Hx & _ & Hu' & _).
    rewrite (core_of_lookup _ _ _ Hi) in Hx. simplify_eq. simpl in Hu'. congruence. }
  destruct (cdt_root _ _ _ H _ Hp) as [Hn Hpv].
  unfold parent_of, first_of, next_of, prev_of, view in *. rewrite Hi in *. simpl in *.
  destruct (CapSlot.mdb s); simpl in *. unfold Mdb.EMPTY. congruence.
Qed.

Lemma cdt_unused_nokids i s : sl !! i = Some s → CapSlot.used s = false → kids i = [].
Proof using H.
  intros Hi Hu. pose proof (cdt_unused i s Hi Hu) as Hm. pose proof (cdt_first _ _ _ H i) as Hf.
  unfold first_of, view in Hf. rewrite Hi in Hf. simpl in Hf. rewrite Hm in Hf. simpl in Hf.
  by destruct (kids i).
Qed.

(** The child list that holds a linked slot, cut at the slot. *)
Lemma cdt_split c p : parent_of sl c = Some p →
  ∃ l1 l2, kids p = l1 ++ c :: l2 ∧ prev_of sl c = last l1 ∧ next_of sl c = head l2 ∧
    c ∉ l1 ++ l2 ∧ NoDup (l1 ++ c :: l2).
Proof using H.
  intros Hc. apply (cdt_parent _ _ _ H) in Hc as (l1 & l2 & Hk)%list_elem_of_split.
  pose proof (cdt_dll _ _ _ H p) as Hd. rewrite Hk in Hd.
  exists l1, l2. destruct (dll_split _ _ _ _ _ Hd) as [? ?].
  pose proof (dll_NoDup _ _ _ Hd) as Hnd. split_and!; try done.
  apply NoDup_app in Hnd as (_ & Hd1 & Hnd2). apply NoDup_cons in Hnd2 as [? _].
  intros [Hin|Hin]%elem_of_app; [|done]. apply (Hd1 _ Hin). set_solver.
Qed.

(** Siblings have the same parent. *)
Lemma cdt_sibling x z : next_of sl x = Some z ∨ prev_of sl x = Some z →
  ∃ p, parent_of sl x = Some p ∧ parent_of sl z = Some p.
Proof using H.
  intros Hz. destruct (parent_of sl x) as [p|] eqn:Hp.
  - exists p. split; [done|]. destruct (cdt_split _ _ Hp) as (l1 & l2 & Hk & Hpv & Hnx & _).
    apply (cdt_parent _ _ _ H). rewrite Hk, Hpv, Hnx in *.
    destruct Hz as [?%head_elem|?%last_elem]; set_solver.
  - destruct (cdt_root _ _ _ H _ Hp). destruct Hz; congruence.
Qed.

Lemma cdt_sibling_lt x z : next_of sl x = Some z ∨ prev_of sl x = Some z → z < length sl.
Proof using H. intros (p & _ & Hp)%cdt_sibling. by eapply view_Some_lt. Qed.

(** Child lists of different slots share nothing. *)
Lemma cdt_kids_disjoint p q c : c ∈ kids p → c ∈ kids q → p = q.
Proof using H. intros Hp%(cdt_parent _ _ _ H) Hq%(cdt_parent _ _ _ H). congruence. Qed.

Lemma cdt_not_own_kid p : p ∉ kids p.
Proof using H. intros Hp%(cdt_parent _ _ _ H)%(cdt_rank _ _ _ H). lia. Qed.
End cdt.

(** ** Linking and unlinking in the table *)

(** [sl'] is [sl] up to the links. *)
Definition same_core (sl sl' : list CapSlot.t) : Prop := ∀ i, core_of sl' i = core_of sl i.

Lemma same_core_length sl sl' : same_core sl sl' → length sl' = length sl.
Proof.
  intros Hs. assert (∀ i, i < length sl' ↔ i < length sl) as Heq.
  { intros i. specialize (Hs i). unfold core_of in Hs. rewrite <-!lookup_lt_is_Some.
    destruct (sl' !! i), (sl !! i); simpl in Hs; try done; split; intros [? ?]; eauto. }
  destruct (Nat.lt_trichotomy (length sl) (length sl')) as [Hlt|[?|Hlt]]; [|done|];
    [specialize (Heq (length sl))|specialize (Heq (length sl'))]; lia.
Qed.

Definition add_kid (kids : nat → list nat) (p x : nat) : nat → list nat :=
  λ q, if decide (q = p) then x :: kids p else kids q.
Definition del_kid (kids : nat → list nat) (p : nat) (l : list nat) : nat → list nat :=
  λ q, if decide (q = p) then l else kids q.

(** The final table of [link_child p x], [f] being the old first child. *)
Definition linked (p x : nat) (f : option nat) (sl : list CapSlot.t) : list CapSlot.t :=
  let sl := alter (CapSlot.set_parent (Some p)) x sl in
  let sl := alter (CapSlot.set_prev_sibling None) x sl in
  let sl := alter (CapSlot.set_next_sibling f) x sl in
  let sl := match f with
            | Some f => alter (CapSlot.set_prev_sibling (Some x)) f sl | None => sl end in
  alter (CapSlot.set_first_child (Some x)) p sl.

Lemma linked_views p x f sl :
  p < length sl → x < length sl → (∀ y, f = Some y → y < length sl) →
  let sl' := linked p x f sl in
  same_core sl sl' ∧
  (∀ j, parent_of sl' j = if decide (x = j) then Some p else parent_of sl j) ∧
  (∀ j, first_of sl' j = if decide (p = j) then Some x else first_of sl j) ∧
  (∀ j, next_of sl' j = if decide (x = j) then f else next_of sl j) ∧
  (∀ j, prev_of sl' j = if decide (f = Some j) then Some x
                        else if decide (x = j) then None else prev_of sl j).
Proof.
  intros Hp Hx Hf. unfold linked, same_core. destruct f as [f|].
  - specialize (Hf f eq_refl). split_and!; intros j; views; try done.
    repeat case_decide; congruence.
  - split_and!; intros j; views; done.
Qed.

Lemma linked_cdt sl kids rank p x :
  cdt sl kids rank → p < length sl → x < length sl → x ≠ p →
  parent_of sl x = None → kids x = [] →
  (∃ s sp, core_of sl x = Some s ∧ core_of sl p = Some sp ∧ derives s sp) →
  cdt (linked p x (first_of sl p) sl) (add_kid kids p x)
      (λ j, if decide (j = x) then S (rank p) else rank j).
Proof.
  intros H Hp Hx Hne Hxp Hxk Hder.
  assert (∀ c, parent_of sl c ≠ Some x) as Hnox.
  { intros c Hc%(cdt_parent _ _ _ H). rewrite Hxk in Hc. by apply elem_of_nil in Hc. }
  assert (∀ q, x ∉ kids q) as Hxnot.
  { intros q Hq%(cdt_parent _ _ _ H). congruence. }
  assert (∀ f, head (kids p) = Some f → f ∈ kids p) as Hfk by (intros; by apply head_elem).
  rewrite (cdt_first _ _ _ H).
  destruct (linked_views p x (head (kids p)) sl) as (Vc & Vp & Vf & Vn & Vv); [done|done| |].
  { intros f Hf. eapply cdt_kid_lt; eauto. }
  set (sl' := linked p x (head (kids p)) sl) in *. clearbody sl'.
  split.
  - intros j. rewrite Vf, (cdt_first _ _ _ H). unfold add_kid. by repeat case_decide; subst.
  - intros q. unfold add_kid. case_decide as Hq; [subst q|].
    + eapply dll_cons; [apply (cdt_dll _ _ _ H p)|..].
      * rewrite Vn. by rewrite decide_True.
      * rewrite Vv. rewrite decide_False by (intros ?%Hfk; by eapply Hxnot). by rewrite decide_True.
      * intros y Hy. rewrite Vn, decide_False; [done|]. intros ->. by eapply Hxnot.
      * intros y Hy. rewrite Vv. case_decide; [done|]. rewrite decide_False; [done|].
        intros ->. by eapply Hxnot.
    + eapply dll_ext; [apply (cdt_dll _ _ _ H q)|]. intros y Hy. rewrite Vn, Vv.
      assert (x ≠ y) by (intros ->; by eapply Hxnot). rewrite !decide_False; try done.
      intros Hh%Hfk. apply Hq. by eapply (cdt_kids_disjoint H).
  - intros q c. rewrite Vp. unfold add_kid. case_decide as Hq; [subst q|].
    + rewrite elem_of_cons, (cdt_parent _ _ _ H). case_decide; [subst; tauto|].
      split; [intros [?|?]; [congruence|done]|tauto].
    + rewrite (cdt_parent _ _ _ H). case_decide; [subst|done]. rewrite Hxp.
      split; [done|congruence].
  - intros j. rewrite Vp, Vn, Vv. case_decide as Hj; [done|]. intros Hpj.
    destruct (cdt_root _ _ _ H _ Hpj) as [-> ->]. rewrite decide_False; [done|].
    intros Hh%Hfk%(cdt_parent _ _ _ H). congruence.
  - intros c q. rewrite Vp, !Vc. case_decide as Hc; [intros [= <-]; subst; done|].
    apply (cdt_derives _ _ _ H).
  - intros c q. rewrite Vp. case_decide as Hc.
    + intros [= <-]. subst. rewrite decide_False, decide_True by done. lia.
    + intros Hq. rewrite decide_False, decide_False by congruence. by apply (cdt_rank _ _ _ H).
Qed.

(** The final table of [unlink x], [par], [nx], [pv] being the links of [x]. *)
Definition unlinked (x : nat) (par nx pv : option nat) (sl : list CapSlot.t) : list CapSlot.t :=
  let sl := match pv with
            | Some p => alter (CapSlot.set_next_sibling nx) p sl
            | None => match par with
                      | Some q => alter (CapSlot.set_first_child nx) q sl | None => sl end
            end in
  let sl := match nx with
            | Some n => alter (CapSlot.set_prev_sibling pv) n sl | None => sl end in
  alter (CapSlot.with_mdb Mdb.EMPTY) x sl.

Lemma unlinked_views x par nx pv sl :
  x < length sl → (∀ y, par = Some y → y < length sl) → (∀ y, nx = Some y → y < length sl) →
  (∀ y, pv = Some y → y < length sl) →
  let sl' := unlinked x par nx pv sl in
  same_core sl sl' ∧
  (∀ j, parent_of sl' j = if decide (x = j) then None else parent_of sl j) ∧
  (∀ j, first_of sl' j = if decide (x = j) then None
                         else if decide (pv = None ∧ par = Some j) then nx else first_of sl j) ∧
  (∀ j, next_of sl' j = if decide (x = j) then None
                        else if decide (pv = Some j) then nx else next_of sl j) ∧
  (∀ j, prev_of sl' j = if decide (x = j) then None
                        else if decide (nx = Some j) then pv else prev_of sl j).
Proof.
  intros Hx Hpar Hnx Hpv. unfold unlinked, same_core.
  destruct pv as [pv|], nx as [nx|], par as [par|];
    repeat match goal with Hy : ∀ y, Some ?z = Some y → _ |- _ => specialize (Hy z eq_refl) end;
    split_and!; intros j; views; repeat case_decide; naive_solver.
Qed.

Lemma unlinked_cdt sl kids rank x :
  cdt sl kids rank → x < length sl → kids x = [] →
  ∃ kids', cdt (unlinked x (parent_of sl x) (next_of sl x) (prev_of sl x) sl) kids' rank.
Proof.
  intros H Hx Hxk.
  assert (∀ c, parent_of sl c ≠ Some x) as Hnox.
  { intros c Hc%(cdt_parent _ _ _ H). rewrite Hxk in Hc. by apply elem_of_nil in Hc. }
  destruct (parent_of sl x) as [p|] eqn:Hp.
  - destruct (cdt_split H _ _ Hp) as (l1 & l2 & Hk & Hpv & Hnx & Hnin & Hnd).
    pose proof (cdt_parent_lt H _ _ Hp) as Hpl.
    assert (∀ y, y ∈ l1 ++ l2 → parent_of sl y = Some p) as Hsib.
    { intros y Hy. apply (cdt_parent _ _ _ H). rewrite Hk. set_solver. }
    assert (∀ y, last l1 = Some y → y ∈ l1 ++ l2) as Hl1 by (intros y ?%last_elem; set_solver).
    assert (∀ y, head l2 = Some y → y ∈ l1 ++ l2) as Hl2 by (intros y ?%head_elem; set_solver).
    rewrite Hpv, Hnx.
    destruct (unlinked_views x (Some p) (head l2) (last l1) sl) as (Vc & Vp & Vf & Vn & Vv);
      [done|congruence|intros y Hy; eapply view_Some_lt, Hsib; eauto..|].
    set (sl' := unlinked x (Some p) (head l2) (last l1) sl) in *. clearbody sl'.
    exists (del_kid kids p (l1 ++ l2)). split.
    + assert (x ≠ p) as Hxp by (intros ->; by apply (cdt_not_own_kid H p), (cdt_parent _ _ _ H)).
      intros j. rewrite Vf, (cdt_first _ _ _ H). unfold del_kid. case_decide as Hj.
      { subst j. by rewrite decide_False, Hxk. }
      destruct (decide (j = p)) as [->|Hne]; [|rewrite decide_False; [done|intros [_ ?]; congruence]].
      rewrite Hk. destruct l1 as [|y l1]; [by rewrite decide_True|].
      rewrite decide_False; [done|]. intros [?%last_None _]. done.
    + intros q. unfold del_kid. case_decide as Hq; [subst q|].
      * eapply (dll_delete (next_of sl) (prev_of sl) _ _ l1 x l2).
        -- rewrite <-Hk. apply (cdt_dll _ _ _ H).
        -- intros y Hy. rewrite Vn, decide_False by (by intros ->). by repeat case_decide.
        -- intros y Hy. rewrite Vv, decide_False by (by intros ->). by repeat case_decide.
      * eapply dll_ext; [apply (cdt_dll _ _ _ H q)|]. intros y Hy%(cdt_parent _ _ _ H).
        rewrite Vn, Vv. rewrite !decide_False; try done; try congruence.
        all: intros Hy'; first [apply Hl1 in Hy'|apply Hl2 in Hy']; apply Hsib in Hy'; congruence.
    + intros q c. rewrite Vp. unfold del_kid. case_decide as Hq; [subst q|].
      * case_decide as Hc; [subst c; split; done|].
        rewrite <-(cdt_parent _ _ _ H), Hk. set_solver.
      * rewrite (cdt_parent _ _ _ H). case_decide; [subst; split; congruence|done].
    + intros j. rewrite Vp, Vn, Vv. case_decide as Hj; [done|]. intros Hpj.
      destruct (cdt_root _ _ _ H _ Hpj) as [-> ->].
      rewrite !decide_False; [done|..].
      all: intros Hy'; first [apply Hl1 in Hy'|apply Hl2 in Hy']; apply Hsib in Hy'; congruence.
    + intros c q. rewrite Vp, !Vc. case_decide; [done|]. apply (cdt_derives _ _ _ H).
    + intros c q. rewrite Vp. case_decide; [done|]. apply (cdt_rank _ _ _ H).
  - destruct (cdt_root _ _ _ H _ Hp) as [Hn Hv]. rewrite Hn, Hv.
    destruct (unlinked_views x None None None sl) as (Vc & Vp & Vf & Vn & Vv); [done..|].
    set (sl' := unlinked x None None None sl) in *. clearbody sl'.
    exists kids. split.
    + intros j. rewrite Vf, (cdt_first _ _ _ H). case_decide; [subst j; by rewrite Hxk|].
      rewrite decide_False; [done|]. by intros [_ ?].
    + intros q. eapply dll_ext; [apply (cdt_dll _ _ _ H q)|]. intros y Hy%(cdt_parent _ _ _ H).
      rewrite Vn, Vv. rewrite !decide_False; try done; congruence.
    + intros q c. rewrite Vp, (cdt_parent _ _ _ H). case_decide; [subst; split; congruence|done].
    + intros j. rewrite Vp, Vn, Vv. case_decide; [done|]. intros Hpj.
      rewrite !decide_False by done. by apply (cdt_root _ _ _ H).
    + intros c q. rewrite Vp, !Vc. case_decide; [done|]. apply (cdt_derives _ _ _ H).
    + intros c q. rewrite Vp. case_decide; [done|]. apply (cdt_rank _ _ _ H).
Qed.

(** ** Moving a slot *)

(** [sl'] is [sl] with slot [s] renamed to the free slot [d], which keeps its
    generation; [s] becomes empty. *)
Record moved (s d : nat) (sl sl' : list CapSlot.t) : Prop := {
  mv_parent : ∀ j, parent_of sl' j =
    if decide (s = j) then None
    else if decide (d = j) then parent_of sl s
    else if decide (parent_of sl j = Some s) then Some d else parent_of sl j;
  mv_first : ∀ j, first_of sl' j =
    if decide (s = j) then None
    else if decide (d = j) then first_of sl s
    else if decide (prev_of sl s = None ∧ parent_of sl s = Some j) then Some d else first_of sl j;
  mv_next : ∀ j, next_of sl' j =
    if decide (s = j) then None
    else if decide (d = j) then next_of sl s
    else if decide (prev_of sl s = Some j) then Some d else next_of sl j;
  mv_prev : ∀ j, prev_of sl' j =
    if decide (s = j) then None
    else if decide (d = j) then prev_of sl s
    else if decide (next_of sl s = Some j) then Some d else prev_of sl j;
  mv_core : ∀ j, j ≠ s → j ≠ d → core_of sl' j = core_of sl j;
  mv_new : ∀ x y, sl !! s = Some x → sl !! d = Some y →
    core_of sl' d = Some (CapSlot.with_gen (CapSlot.gen y) (core x)) }.

Definition rename (s d j : nat) : nat := if decide (j = s) then d else j.
Definition move_kids (s d : nat) (kids : nat → list nat) (q : nat) : list nat :=
  if decide (q = d) then kids s else if decide (q = s) then [] else rename s d <$> kids q.

Lemma rename_fresh s d (l : list nat) : s ∉ l → rename s d <$> l = l.
Proof.
  intros Hs. rewrite <-(list_fmap_id l) at 2. apply list_fmap_ext. intros i x Hx. unfold rename.
  rewrite decide_False; [done|]. intros ->. by apply Hs, (list_elem_of_lookup_2 _ i).
Qed.

Lemma rename_split s d (l1 l2 : list nat) :
  s ∉ l1 ++ l2 → rename s d <$> (l1 ++ s :: l2) = l1 ++ d :: l2.
Proof.
  intros Hs. rewrite fmap_app, fmap_cons, !rename_fresh by set_solver.
  unfold rename. by rewrite decide_True.
Qed.

Lemma derives_gen s s' p p' g g' :
  derives s p → s' = s ∨ s' = CapSlot.with_gen g s → p' = p ∨ p' = CapSlot.with_gen g' p →
  derives s' p'.
Proof. unfold derives. intros (?&?&?&?&?) [->| ->] [->| ->]; simpl; split_and!; done. Qed.

Lemma moved_cdt s d sl sl' kids rank x y :
  cdt sl kids rank → moved s d sl sl' →
  sl !! s = Some x → sl !! d = Some y → CapSlot.used y = false → s ≠ d →
  cdt sl' (move_kids s d kids) (λ j, if decide (j = d) then rank s else rank j).
Proof.
  intros H Hm Hs Hd Hu Hsd. destruct Hm as [Vp Vf Vn Vv Vc Vnew].
  pose proof (cdt_unused_nokids H d y Hd Hu) as Hdk.
  pose proof (cdt_unused H d y Hd Hu) as Hdm.
  assert (parent_of sl d = None ∧ first_of sl d = None ∧ next_of sl d = None ∧ prev_of sl d = None)
    as (Hdp & Hdf & Hdn & Hdv).
  { unfold parent_of, first_of, next_of, prev_of, view. rewrite Hd. simpl. by rewrite Hdm. }
  assert (∀ q, d ∉ kids q) as Hdnot by (intros q Hq%(cdt_parent _ _ _ H); congruence).
  assert (∀ c, parent_of sl c ≠ Some d) as Hnod.
  { intros c Hc%(cdt_parent _ _ _ H). rewrite Hdk in Hc. by apply elem_of_nil in Hc. }
  assert (s ∉ kids s) as Hss by apply (cdt_not_own_kid H).
  assert (∀ p, parent_of sl s = Some p → p ≠ s ∧ p ≠ d) as Hsp.
  { intros p Hp. split; intros ->; [by apply Hss, (cdt_parent _ _ _ H)|by eapply Hnod]. }
  (* the siblings of [s] *)
  assert (∀ p, parent_of sl s = Some p → ∃ l1 l2, kids p = l1 ++ s :: l2 ∧
    prev_of sl s = last l1 ∧ next_of sl s = head l2 ∧ s ∉ l1 ++ l2 ∧ d ∉ l1 ++ l2) as Hsplit.
  { intros p Hp. destruct (cdt_split H _ _ Hp) as (l1 & l2 & Hk & ? & ? & ? & _).
    exists l1, l2. split_and!; try done. intros Hin. apply (Hdnot p). rewrite Hk. set_solver. }
  pose proof (cdt_sibling H s) as Hsib.
  split.
  - intros j. rewrite Vf. unfold move_kids. destruct (decide (s = j)) as [<-|Hj].
    { by rewrite decide_False, decide_True. }
    destruct (decide (d = j)) as [<-|Hj'].
    { rewrite decide_True by done. apply (cdt_first _ _ _ H). }
    rewrite (decide_ne j d), (decide_ne j s) by congruence.
    destruct (decide (prev_of sl s = None ∧ parent_of sl s = Some j)) as [[Hpv Hp]|Hno].
    + destruct (Hsplit _ Hp) as (l1 & l2 & Hk & Hpv' & _ & Hnin & _).
      rewrite Hpv' in Hpv. apply last_None in Hpv as ->. simpl in *. rewrite Hk.
      simpl. unfold rename. by rewrite decide_True.
    + rewrite (cdt_first _ _ _ H). destruct (kids j) as [|c l] eqn:Hk; [done|].
      simpl. unfold rename. rewrite decide_False; [done|]. intros ->. apply Hno.
      assert (parent_of sl s = Some j) as Hp by (apply (cdt_parent _ _ _ H); rewrite Hk; set_solver).
      split; [|done]. pose proof (cdt_dll _ _ _ H j) as Hdl. rewrite Hk in Hdl.
      by eapply dll_head.
  - intros q. unfold move_kids. destruct (decide (q = d)) as [->|Hqd].
    { eapply dll_ext; [apply (cdt_dll _ _ _ H s)|]. intros z Hz.
      assert (s ≠ z) by (by intros ->). assert (d ≠ z) by (intros ->; by eapply Hdnot).
      rewrite Vn, Vv. apply (cdt_parent _ _ _ H) in Hz. rewrite !decide_False; try done.
      all: intros Hj; destruct (Hsib z) as (p & Hp & Hpz); [tauto|]; destruct (Hsp p Hp); congruence. }
    destruct (decide (q = s)) as [->|Hqs]; [apply dll_nil|].
    destruct (decide (parent_of sl s = Some q)) as [Hp|Hp].
    + destruct (Hsplit _ Hp) as (l1 & l2 & Hk & Hpv & Hnx & Hnin & Hnd). rewrite Hk.
      rewrite rename_split by done.
      eapply (dll_rename (next_of sl) (prev_of sl) _ _ l1 s d l2); [|done|..].
      * rewrite <-Hk. apply (cdt_dll _ _ _ H).
      * rewrite Vn. by rewrite decide_False, decide_True.
      * rewrite Vv. by rewrite decide_False, decide_True.
      * intros z Hz. rewrite Vn, Hpv, (decide_ne s z), (decide_ne d z) by (by intros ->).
        done.
      * intros z Hz. rewrite Vv, Hnx, (decide_ne s z), (decide_ne d z) by (by intros ->).
        done.
    + assert (s ∉ kids q) as Hsq by (intros ?%(cdt_parent _ _ _ H); done).
      rewrite rename_fresh by done.
      eapply dll_ext; [apply (cdt_dll _ _ _ H q)|]. intros z Hz.
      assert (s ≠ z) by (by intros ->). assert (d ≠ z) by (intros ->; by eapply Hdnot).
      rewrite Vn, Vv. apply (cdt_parent _ _ _ H) in Hz. rewrite !decide_False; try done.
      all: intros Hj; destruct (Hsib z) as (p & Hp' & Hpz); [tauto|]; congruence.
  - intros q c. rewrite Vp. unfold move_kids. destruct (decide (q = d)) as [->|Hqd].
    + rewrite (cdt_parent _ _ _ H). destruct (decide (s = c)) as [<-|Hc].
      { split; [|done]. intros ?%(cdt_parent _ _ _ H). done. }
      destruct (decide (d = c)) as [<-|Hc'].
      { rewrite Hdp. split; [done|]. intros Hp. by apply Hsp in Hp as [_ ?]. }
      case_decide; [done|]. split; [done|]. intros Hp. by apply Hnod in Hp.
    + destruct (decide (q = s)) as [->|Hqs].
      { split; [by intros ?%elem_of_nil|]. repeat case_decide; try congruence.
        intros Hp. by apply Hsp in Hp as [? _]. }
      rewrite list_elem_of_fmap. unfold rename. split.
      * intros (z & -> & Hz). apply (cdt_parent _ _ _ H) in Hz. destruct (decide (z = s)) as [->|].
        { by rewrite decide_False, decide_True. }
        rewrite !decide_False; try done; congruence.
      * destruct (decide (s = c)) as [<-|Hc]; [done|]. destruct (decide (d = c)) as [<-|Hc'].
        { intros Hp. exists s. rewrite decide_True by done. split; [done|]. by apply (cdt_parent _ _ _ H). }
        case_decide; [congruence|]. intros Hp. exists c. rewrite decide_False by done.
        split; [done|]. by apply (cdt_parent _ _ _ H).
  - intros j. rewrite Vp, Vn, Vv. destruct (decide (s = j)); [done|].
    destruct (decide (d = j)); [apply (cdt_root _ _ _ H)|].
    case_decide as Hk; [done|]. intros Hp. destruct (cdt_root _ _ _ H _ Hp) as [-> ->].
    rewrite !decide_False; [done|..]; intros Hj; destruct (Hsib j) as (p & ? & ?);
      [tauto| |tauto|]; congruence.
  - intros c p. rewrite Vp. destruct (decide (s = c)) as [|Hc]; [done|].
    pose proof (Vnew _ _ Hs Hd) as Hnew.
    destruct (decide (d = c)) as [<-|Hc'].
    { intros Hp. destruct (Hsp _ Hp) as [? ?]. rewrite (Vc p) by done.
      destruct (cdt_derives _ _ _ H _ _ Hp) as (a & b & Ha & Hb & Hab).
      rewrite (core_of_lookup _ _ _ Hs) in Ha. simplify_eq.
      eexists _, _. split_and!; [done..|]. eapply (derives_gen _ _ _ _ _ 0%Z); [done|by right|by left]. }
    case_decide as Hk.
    { intros [= <-]. destruct (cdt_derives _ _ _ H _ _ Hk) as (a & b & Ha & Hb & Hab).
      rewrite (core_of_lookup _ _ _ Hs) in Hb. simplify_eq. rewrite Vc by done.
      eexists _, _. split_and!; [done..|]. eapply (derives_gen _ _ _ _ 0%Z); [done|by left|by right]. }
    intros Hp. rewrite !Vc; try done; [by apply (cdt_derives _ _ _ H)|congruence|].
    intros ->. by eapply Hnod.
  - intros c p. rewrite Vp. destruct (decide (s = c)) as [|Hc]; [done|].
    destruct (decide (d = c)) as [<-|Hc'].
    { intros Hp. destruct (Hsp _ Hp) as [? ?]. rewrite decide_False, decide_True by done.
      by apply (cdt_rank _ _ _ H). }
    case_decide as Hk.
    { intros [= <-]. rewrite decide_True, decide_False by done. by apply (cdt_rank _ _ _ H). }
    intros Hp. rewrite !decide_False; [by apply (cdt_rank _ _ _ H)|congruence|].
    intros ->. by eapply Hnod.
Qed.
