(* ===== verification/CapOps.v ===== *)
(** * What the operations of the capability space do to its tables

    Forward specifications of the building blocks of [CapSpace] and the effect of
    their table updates on the invariant: filling and releasing a slot, linking
    and unlinking, taking and finalising an object.  *)

From S2P Require Import Prelude PanicMonad Dll Region PhysAlloc CapObject CapSpace CapInv.
Import CapSpace.

(** ** Reading and writing the tables *)

Section tables.
Implicit Types c : CapSpace.t.

Lemma wp_slot_at i s c (Q : CapSlot.t → t → Prop) :
  slots c !! i = Some s → Q s c → wp (slot_at i) c Q.
Proof. unfold wp, slot_at, mbind, M_bind, gets, expect. by intros ->. Qed.

Lemma wp_object_at i o c (Q : Object.t → t → Prop) :
  objects c !! i = Some o → Q o c → wp (object_at i) c Q.
Proof. unfold wp, object_at, mbind, M_bind, gets, expect. by intros ->. Qed.

Lemma wp_upd_slot i f c (Q : unit → t → Prop) :
  i < length (slots c) → Q tt (with_slots (alter f i (slots c)) c) → wp (upd_slot i f) c Q.
Proof.
  intros [s Hs]%lookup_lt_is_Some_2 HQ. unfold upd_slot. apply wp_bind.
  by eapply wp_slot_at.
Qed.

Lemma wp_upd_object i f c (Q : unit → t → Prop) :
  i < length (objects c) → Q tt (with_objects (alter f i (objects c)) c) → wp (upd_object i f) c Q.
Proof.
  intros [s Hs]%lookup_lt_is_Some_2 HQ. unfold upd_object. apply wp_bind.
  by eapply wp_object_at.
Qed.

Lemma wp_on_space {A} (m : M t A) c a f (Q : A → St → Prop) :
  wp m c (λ r c', Q r (c', a, f)) → wp (on_space m) (c, a, f) Q.
Proof. intros H. by apply wp_zoom. Qed.

(** The tables and the overrun count of two spaces agree; only the high-water
    marks may differ. *)
Definition same_tables c c' : Prop :=
  slots c' = slots c ∧ objects c' = objects c ∧ cdt_walk_overruns c' = cdt_walk_overruns c.

Lemma alloc_slot_spec obj rights badge c :
  wp (alloc_slot obj rights badge) c (λ r c',
    match r with
    | Ok i => ∃ s, slots c !! i = Some s ∧ CapSlot.used s = false ∧
        slots c' = alter (λ s, CapSlot.mk true (CapSlot.gen s) obj rights badge None Mdb.EMPTY) i (slots c) ∧
        objects c' = objects c ∧ cdt_walk_overruns c' = cdt_walk_overruns c
    | Err e => e = NoSlot ∧ c' = c ∧ (∀ i s, slots c !! i = Some s → CapSlot.used s = true)
    end).
Proof.
  unfold alloc_slot. apply wp_try. unfold free_slot_index. apply wp_gets.
  destruct (position _ (slots c)) as [i|] eqn:Hpos.
  - pose proof (position_lt _ _ _ Hpos) as Hlt.
    apply position_Some in Hpos as [(s & Hs & Hu%negb_true_iff) _].
    apply wp_bind. eapply wp_upd_slot; [done|]. apply wp_bind, wp_modify, wp_ret.
    exists s. split_and!; try done; by case_decide.
  - rewrite position_None in Hpos. split_and!; [done|done|].
    intros i s Hs. apply negb_false_iff, (Hpos s). by eapply list_elem_of_lookup_2.
Qed.

Lemma alloc_object_spec kind c :
  wp (alloc_object kind) c (λ r c',
    match r with
    | Ok i => ∃ o, objects c !! i = Some o ∧ Object.used o = false ∧ slots c' = slots c ∧
        objects c' = alter (λ o, Object.mk true kind 1 (Object.gen o)) i (objects c) ∧
        cdt_walk_overruns c' = cdt_walk_overruns c
    | Err e => e = NoObject ∧ c' = c ∧ (∀ i o, objects c !! i = Some o → Object.used o = true)
    end).
Proof.
  unfold alloc_object, alloc_object_inner. apply wp_bind, wp_try, wp_gets.
  destruct (position _ (objects c)) as [i|] eqn:Hpos.
  - pose proof (position_lt _ _ _ Hpos) as Hlt.
    apply position_Some in Hpos as [(o & Ho & Hu%negb_true_iff) _].
    apply wp_bind. eapply wp_upd_object; [done|]. apply wp_ret. cbn [is_ok].
    apply wp_bind, wp_modify, wp_ret.
    exists o. split_and!; try done; by case_decide.
  - rewrite position_None in Hpos. cbn [is_ok]. apply wp_bind, wp_ret, wp_ret. split_and!; [done|done|].
    intros i s Hs. apply negb_false_iff, (Hpos s). by eapply list_elem_of_lookup_2.
Qed.

Lemma link_child_spec p x c (Q : unit → t → Prop) :
  p < length (slots c) → x < length (slots c) → x ≠ p →
  (∀ f, first_of (slots c) p = Some f → f < length (slots c)) →
  Q tt (with_slots (linked p x (first_of (slots c) p) (slots c)) c) →
  wp (link_child p x) c Q.
Proof.
  intros Hp Hx Hne Hf HQ. unfold link_child.
  destruct (lookup_lt_is_Some_2 _ _ Hp) as [s Hs].
  apply wp_bind. eapply wp_slot_at; [done|]. cbv zeta.
  unfold first_of, view in *. rewrite Hs in *. simpl in Hf, HQ.
  do 3 (apply wp_bind; apply wp_upd_slot; [simpl; by rewrite ?length_alter|]; cbv beta; simpl).
  apply wp_bind. unfold linked in HQ.
  destruct (Mdb.first_child (CapSlot.mdb s)) as [f|]; [|apply wp_ret].
  - apply wp_upd_slot; [simpl; rewrite !length_alter; by apply Hf|].
    apply wp_upd_slot; [simpl; by rewrite !length_alter|]. exact HQ.
  - apply wp_upd_slot; [simpl; by rewrite !length_alter|]. exact HQ.
Qed.

Lemma unlink_spec x c (Q : unit → t → Prop) :
  let sl := slots c in
  x < length sl →
  (∀ y, parent_of sl x = Some y → y < length sl) → (∀ y, next_of sl x = Some y → y < length sl) →
  (∀ y, prev_of sl x = Some y → y < length sl) →
  Q tt (with_slots (unlinked x (parent_of sl x) (next_of sl x) (prev_of sl x) sl) c) →
  wp (unlink x) c Q.
Proof.
  intros sl Hx Hpar Hnx Hpv HQ. subst sl. unfold unlink.
  destruct (lookup_lt_is_Some_2 _ _ Hx) as [s Hs].
  apply wp_bind. eapply wp_slot_at; [done|]. cbv zeta. unfold unlinked in HQ.
  unfold parent_of, next_of, prev_of, view in *. rewrite Hs in *. simpl in Hpar, Hnx, Hpv, HQ.
  destruct (Mdb.prev_sibling (CapSlot.mdb s)) as [pv|];
    [|destruct (Mdb.parent (CapSlot.mdb s)) as [par|]];
    destruct (Mdb.next_sibling (CapSlot.mdb s)) as [nx|];
    repeat first
      [ wp_step
      | apply wp_upd_slot; [simpl; rewrite ?length_alter; by eauto|] ]; exact HQ.
Qed.
End tables.

(** ** Tables that agree where it matters *)

Lemma cdt_ext sl sl' kids rank :
  cdt sl kids rank →
  (∀ j, parent_of sl' j = parent_of sl j) → (∀ j, first_of sl' j = first_of sl j) →
  (∀ j, next_of sl' j = next_of sl j) → (∀ j, prev_of sl' j = prev_of sl j) →
  (∀ j s, core_of sl j = Some s → CapSlot.used s = true →
     ∃ s', core_of sl' j = Some s' ∧ CapSlot.used s' = true ∧ CapSlot.object s' = CapSlot.object s ∧
           CapSlot.rights s' = CapSlot.rights s ∧ CapSlot.subregion s' = CapSlot.subregion s) →
  cdt sl' kids rank.
Proof.
  intros H Vp Vf Vn Vv Vc. split.
  - intros i. rewrite Vf. apply H.
  - intros p. eapply dll_ext; [apply H|]. intros x _. by rewrite Vn, Vv.
  - intros p c. rewrite Vp. apply H.
  - intros i. rewrite Vp, Vn, Vv. apply H.
  - intros c p. rewrite Vp. intros Hp.
    destruct (cdt_derives _ _ _ H _ _ Hp) as (s & sp & Hs & Hsp & (?&?&?&?&?)).
    destruct (Vc _ _ Hs) as (s' & Hs' & ? & Ho & Hr & Hw); [done|].
    destruct (Vc _ _ Hsp) as (sp' & Hsp' & ? & Ho' & Hr' & Hw'); [done|].
    exists s', sp'. split_and!; [done..|]. unfold derives.
    rewrite Ho, Ho', Hr, Hr', Hw, Hw'. done.
  - intros c p. rewrite Vp. apply H.
Qed.

(** Filling a free slot with an unlinked capability, and emptying a slot that is
    already unlinked and has no children. *)
Lemma overwrite_cdt sl kids rank i s g :
  cdt sl kids rank → sl !! i = Some s → CapSlot.mdb s = Mdb.EMPTY → CapSlot.mdb (g s) = Mdb.EMPTY →
  kids i = [] → cdt (alter g i sl) kids rank.
Proof.
  intros H Hi Hm Hg Hk.
  assert (∀ {A} (F : CapSlot.t → option A), F s = F (g s) →
    ∀ j, view F (alter g i sl) j = view F sl j) as HF.
  { intros A F HF j. unfold view. rewrite lookup_alter_if. case_decide; [subst j|by destruct (sl !! j)].
    rewrite Hi. simpl. done. }
  assert (parent_of sl i = None) as Hp by (unfold parent_of, view; rewrite Hi; simpl; by rewrite Hm).
  assert (∀ c, parent_of sl c ≠ Some i) as Hno.
  { intros c Hc%(cdt_parent _ _ _ H). rewrite Hk in Hc. by apply elem_of_nil in Hc. }
  assert (∀ j, j ≠ i → core_of (alter g i sl) j = core_of sl j) as Hc.
  { intros j Hj. rewrite core_alter, decide_False by done. done. }
  assert (∀ j, parent_of (alter g i sl) j = parent_of sl j) as Vp
    by (intros j; apply HF; by rewrite Hm, Hg).
  split.
  - intros j. rewrite <-(cdt_first _ _ _ H). apply HF. by rewrite Hm, Hg.
  - intros p. eapply dll_ext; [apply H|]. intros x _. split; apply HF; by rewrite Hm, Hg.
  - intros p c. rewrite Vp. apply H.
  - intros j. rewrite Vp. intros Hj. destruct (cdt_root _ _ _ H _ Hj) as [Hn Hv].
    split; [rewrite <-Hn|rewrite <-Hv]; apply HF; by rewrite Hm, Hg.
  - intros c p. rewrite Vp. intros Hcp. rewrite !Hc; [by apply H| |].
    + intros ->. by eapply Hno. + congruence.
  - intros c p. rewrite Vp. apply H.
Qed.

(** ** Counting capabilities *)

Lemma same_core_refs sl sl' o : same_core sl sl' → refs sl' o = refs sl o.
Proof.
  intros H. assert (core <$> sl' = core <$> sl) as Heq.
  { apply list_eq. intros i. rewrite !list_lookup_fmap. apply H. }
  assert (∀ l, refs l o = count_if (designates o) (core <$> l)) as Hr.
  { intros l. unfold refs. induction l as [|x l IH]; [done|].
    rewrite fmap_cons, !count_if_cons, IH. done. }
  by rewrite !Hr, Heq.
Qed.

Lemma refs_le_length sl o : refs sl o ≤ length sl.
Proof. apply count_if_length. Qed.

Lemma refs_pos sl i s :
  sl !! i = Some s → CapSlot.used s = true → 0 < refs sl (CapSlot.object s).
Proof.
  intros Hi Hu. apply count_if_pos. exists i, s. split; [done|].
  unfold designates. rewrite Hu. by apply bool_decide_eq_true.
Qed.

Lemma refs_alter sl i s g o :
  sl !! i = Some s →
  refs (alter g i sl) o + (if designates o s then 1 else 0) =
  refs sl o + (if designates o (g s) then 1 else 0).
Proof. apply count_if_alter. Qed.

(** ** Object tables *)

Lemma objects_ok_same_core sl sl' ob :
  same_core sl sl' → objects_ok sl ob → objects_ok sl' ob.
Proof.
  intros Hs H. split.
  - intros i s Hi Hu. pose proof (Hs i) as Hc. rewrite (core_of_lookup _ _ _ Hi) in Hc.
    symmetry in Hc. apply core_of_Some in Hc as (x & Hx & Hxs).
    replace (CapSlot.object s) with (CapSlot.object x) by (by destruct x, s; simplify_eq).
    eapply (ob_in_table _ _ H); [done|]. by destruct x, s; simplify_eq.
  - intros o x. rewrite (same_core_refs _ _ _ Hs). apply H.
  - intros o x. rewrite (same_core_refs _ _ _ Hs). apply H.
  - rewrite (same_core_length _ _ Hs). apply H.
Qed.

Lemma windows_ok_same_core sl sl' ob :
  same_core sl sl' → windows_ok sl ob → windows_ok sl' ob.
Proof.
  intros Hs H i s f Hi Hu Hf. pose proof (Hs i) as Hc. rewrite (core_of_lookup _ _ _ Hi) in Hc.
  symmetry in Hc. apply core_of_Some in Hc as (x & Hx & Hxs).
  destruct (H i x f) as (o & r & ?); [done|by destruct x, s; simplify_eq..|].
  exists o, r. by destruct x, s; simplify_eq.
Qed.

Lemma designates_true o s : designates o s = true ↔ CapSlot.used s = true ∧ CapSlot.object s = o.
Proof. unfold designates. rewrite andb_true_iff, bool_decide_eq_true. done. Qed.

(** A free slot starts to designate object [obj], which counts it. *)
Lemma objects_ok_fill sl ob i s g obj o h :
  objects_ok sl ob → sl !! i = Some s → CapSlot.used s = false →
  CapSlot.used (g s) = true → CapSlot.object (g s) = obj →
  ob !! obj = Some o → Object.used (h o) = true →
  Object.refcount (h o) = Z.of_nat (S (refs sl obj)) →
  objects_ok (alter g i sl) (alter h obj ob).
Proof.
  intros H Hi Hu Hgu Hgo Ho Hhu Hhr.
  assert (∀ o', refs (alter g i sl) o' = if decide (o' = obj) then S (refs sl obj) else refs sl o') as Hrefs.
  { intros o'. pose proof (refs_alter sl i s g o' Hi) as Hr.
    assert (designates o' s = false) as Hd by (unfold designates; by rewrite Hu).
    rewrite Hd in Hr. destruct (decide (o' = obj)) as [->|Ho'].
    - rewrite (proj2 (designates_true obj (g s))) in Hr by done. lia.
    - destruct (designates o' (g s)) eqn:Hd'; [|lia].
      apply designates_true in Hd' as [_ ?]. congruence. }
  split.
  - intros j x. rewrite length_alter.
    intros [(-> & y & Hy & ->)|(_ & Hj)]%lookup_alter_inv Hux; [|by eapply (ob_in_table _ _ H)].
    simplify_eq. by eapply lookup_lt_Some.
  - intros o' x [(<- & y & Hy & ->)|(Hne & Ho')]%lookup_alter_inv Hux; rewrite Hrefs.
    + simplify_eq. rewrite decide_True by done. split; [done|lia].
    + rewrite decide_False by congruence. by apply (ob_used _ _ H).
  - intros o' x [(<- & y & Hy & ->)|(Hne & Ho')]%lookup_alter_inv Hux; rewrite Hrefs.
    + simplify_eq. congruence.
    + rewrite decide_False by congruence. by apply (ob_unused _ _ H) in Ho'.
  - rewrite length_alter. apply H.
Qed.

(** A slot stops designating object [obj]. *)
Lemma objects_ok_release sl ob i s g obj o h :
  objects_ok sl ob → sl !! i = Some s → CapSlot.used s = true → CapSlot.object s = obj →
  CapSlot.used (g s) = false → ob !! obj = Some o →
  (if decide (refs sl obj = 1) then Object.used (h o) = false
   else Object.used (h o) = true ∧ Object.refcount (h o) = (Z.of_nat (refs sl obj) - 1)%Z) →
  objects_ok (alter g i sl) (alter h obj ob).
Proof.
  intros H Hi Hu Hso Hgu Ho Hh.
  assert (∀ o', refs (alter g i sl) o' = if decide (o' = obj) then pred (refs sl obj) else refs sl o') as Hrefs.
  { intros o'. pose proof (refs_alter sl i s g o' Hi) as Hr.
    assert (designates o' (g s) = false) as Hd by (unfold designates; by rewrite Hgu).
    rewrite Hd in Hr. destruct (decide (o' = obj)) as [->|Ho'].
    - rewrite (proj2 (designates_true obj s)) in Hr by done. lia.
    - destruct (designates o' s) eqn:Hd'; [|lia].
      apply designates_true in Hd' as [_ ?]. congruence. }
  pose proof (refs_pos _ _ _ Hi Hu) as Hpos. rewrite Hso in Hpos.
  split.
  - intros j x. rewrite length_alter.
    intros [(-> & y & Hy & ->)|(_ & Hj)]%lookup_alter_inv Hux; [|by eapply (ob_in_table _ _ H)].
    simplify_eq. congruence.
  - intros o' x [(<- & y & Hy & ->)|(Hne & Ho')]%lookup_alter_inv Hux; rewrite Hrefs.
    + simplify_eq. rewrite decide_True by done.
      destruct (decide (refs sl (CapSlot.object s) = 1)); [congruence|]. destruct Hh as [_ ->].
      split; lia.
    + rewrite decide_False by congruence. by apply (ob_used _ _ H).
  - intros o' x [(<- & y & Hy & ->)|(Hne & Ho')]%lookup_alter_inv Hux; rewrite Hrefs.
    + simplify_eq. rewrite decide_True by done.
      destruct (decide (refs sl (CapSlot.object s) = 1)); [lia|]. destruct Hh. congruence.
    + rewrite decide_False by congruence. by apply (ob_unused _ _ H) in Ho'.
  - rewrite length_alter. apply H.
Qed.

Lemma ob_of_slot sl ob i s :
  objects_ok sl ob → sl !! i = Some s → CapSlot.used s = true →
  ∃ o, ob !! CapSlot.object s = Some o ∧ Object.used o = true ∧
    Object.refcount o = Z.of_nat (refs sl (CapSlot.object s)).
Proof.
  intros H Hi Hu. pose proof (ob_in_table _ _ H _ _ Hi Hu) as [o Ho]%lookup_lt_is_Some_2.
  exists o. split; [done|]. destruct (Object.used o) eqn:Huo.
  - by destruct (ob_used _ _ H _ _ Ho Huo).
  - apply (ob_unused _ _ H) in Ho; [|done]. pose proof (refs_pos _ _ _ Hi Hu). lia.
Qed.

Lemma windows_ok_alter_objects sl ob i h :
  windows_ok sl ob → (∀ x, ob !! i = Some x → Object.kind (h x) = Object.kind x ∨
    (∀ j s, sl !! j = Some s → CapSlot.used s = true → CapSlot.object s ≠ i)) →
  windows_ok sl (alter h i ob).
Proof.
  intros H Hk j s f Hj Hu Hf. destruct (H j s f Hj Hu Hf) as (o & r & Ho & Hkind & Hsub).
  destruct (decide (i = CapSlot.object s)) as [->|Hne].
  - exists (h o), r. rewrite list_lookup_alter_eq, Ho. split_and!; [done| |done].
    destruct (Hk o Ho) as [->|Hno]; [done|]. by destruct (Hno j s Hj Hu).
  - exists o, r. by rewrite list_lookup_alter_ne.
Qed.

Lemma windows_ok_alter_slots sl ob i g :
  windows_ok sl ob →
  (∀ s, sl !! i = Some s → CapSlot.used (g s) = true → ∀ f, CapSlot.subregion (g s) = Some f →
     ∃ o r, ob !! CapSlot.object (g s) = Some o ∧ Object.kind o = Memory r ∧ PhysRegion.subset f r) →
  windows_ok (alter g i sl) ob.
Proof.
  intros H Hg j s f [(<- & y & Hy & ->)|(Hne & Hj)]%lookup_alter_inv Hu Hf; [by eapply Hg|].
  by eapply H.
Qed.
