(* ===== verification/CapDerive.v ===== *)
(** * Installing and deriving capabilities

    [install], [copy], [mint], [subregion] and [move_cap] run without a panic
    from every state of the invariant, keep it, and change exactly what they
    say.  *)

From S2P Require Import Prelude PanicMonad Dll Region PhysAlloc CapObject CapSpace CapInv CapOps.
Import CapSpace.

(** [d] is a new child of [s] in [c'], holding [new]; the rest of [c] is as it
    was, except that the object counts one capability more. *)
Record child_added (c c' : t) (s d : nat) (new : CapSlot.t) : Prop := {
  ca_core : ∀ j, core_of (slots c') j = if decide (d = j) then Some new else core_of (slots c) j;
  ca_parent : ∀ j, parent_of (slots c') j = if decide (d = j) then Some s else parent_of (slots c) j;
  ca_objects : objects c' = alter (λ o, Object.with_refcount (Object.refcount o + 1)%Z o)
                 (CapSlot.object new) (objects c);
  ca_overruns : cdt_walk_overruns c' = cdt_walk_overruns c }.

(** Resolving a handle. *)
Lemma resolve_in_Ok c p i :
  resolve_in c p = Ok i ↔
  i = CapPtr.slot p ∧ ∃ s, slots c !! i = Some s ∧ CapSlot.used s = true ∧ CapSlot.gen s = CapPtr.gen p.
Proof.
  unfold resolve_in. destruct (slots c !! CapPtr.slot p) as [s|] eqn:Hs.
  - destruct (CapSlot.used s) eqn:Hu; simpl.
    + destruct (Z.eqb_spec (CapSlot.gen s) (CapPtr.gen p)) as [He|Hne].
      * split; [intros [= <-]; eauto|by intros [-> _]].
      * split; [done|]. intros (-> & s' & Hs' & _ & ?). congruence.
    + split; [done|]. intros (-> & s' & Hs' & ? & ?). congruence.
  - split; [done|]. intros (-> & s' & Hs' & _). congruence.
Qed.

Lemma resolve_in_Err c p e : resolve_in c p = Err e → e = Invalid.
Proof. unfold resolve_in. repeat case_match; congruence. Qed.

Lemma derive_child_spec c s x rights badge fen :
  inv c → slots c !! s = Some x → CapSlot.used x = true →
  Rights.le rights (CapSlot.rights x) → window_le fen (CapSlot.subregion x) →
  (∀ f, fen = Some f → ∃ o r, objects c !! CapSlot.object x = Some o ∧
     Object.kind o = Memory r ∧ PhysRegion.subset f r) →
  wp (derive_child s (CapSlot.object x) rights badge fen) c (λ r c',
    match r with
    | Ok p => ∃ d y, slots c !! d = Some y ∧ CapSlot.used y = false ∧
        p = CapPtr.mk d (CapSlot.gen y) ∧ inv c' ∧
        child_added c c' s d
          (CapSlot.mk true (CapSlot.gen y) (CapSlot.object x) rights badge fen Mdb.EMPTY)
    | Err e => e = NoSlot ∧ c' = c ∧ (∀ i s, slots c !! i = Some s → CapSlot.used s = true)
    end).
Proof.
  intros [(kids & rank & Hcdt) Hob Hwin] Hs Hux Hr Hw Hf. unfold derive_child.
  apply wp_try. eapply wp_mono; [apply alloc_slot_spec|].
  intros [d|e] c1; [|done]. intros (y & Hy & Huy & Hsl & Hobj & Hov).
  assert (d ≠ s) as Hds by (intros ->; congruence).
  pose proof (lookup_lt_Some _ _ _ Hy) as Hdl. pose proof (lookup_lt_Some _ _ _ Hs) as Hsl'.
  apply wp_bind, wp_upd_slot; [rewrite Hsl, length_alter; done|].
  set (sl := slots c) in *.
  set (g := λ z, CapSlot.mk true (CapSlot.gen z) (CapSlot.object x) rights badge fen Mdb.EMPTY).
  assert (alter (CapSlot.with_subregion fen) d (slots c1) = alter g d sl) as ->.
  { rewrite Hsl, list_alter_alter_eq. by apply list_alter_ext. }
  pose proof (overwrite_cdt sl kids rank d y g Hcdt Hy (cdt_unused Hcdt d y Hy Huy) eq_refl
    (cdt_unused_nokids Hcdt d y Hy Huy)) as Hcdt1.
  assert (alter g d sl !! s = Some x) as Hs1 by (by rewrite list_lookup_alter_ne).
  assert (alter g d sl !! d = Some (g y)) as Hd1 by (by rewrite list_lookup_alter_eq, Hy).
  destruct (ob_of_slot _ _ _ _ Hob Hs Hux) as (o & Ho & Huo & Hrc).
  apply wp_bind, wp_upd_object; [simpl; rewrite Hobj; by eapply lookup_lt_Some|].
  cbn [objects with_slots]. rewrite Hobj.
  assert (alter (λ o, Object.with_refcount (wrapping_add 32 (Object.refcount o) 1) o)
      (CapSlot.object x) (objects c) =
    alter (λ o, Object.with_refcount (Object.refcount o + 1)%Z o) (CapSlot.object x) (objects c)) as ->.
  { apply list_alter_ext; [|done]. intros z Hz. simplify_eq. f_equal.
    apply wrapping_add_exact. unfold in_width. rewrite Hrc.
    pose proof (refs_alter sl d y g (CapSlot.object x) Hy) as Hra.
    rewrite (proj2 (designates_true (CapSlot.object x) (g y))) in Hra by done.
    pose proof (refs_le_length (alter g d sl) (CapSlot.object x)) as Hle.
    rewrite length_alter in Hle. unfold designates in Hra. rewrite Huy in Hra. simpl in Hra.
    pose proof (ob_width _ _ Hob) as Hwd. fold sl in Hwd. lia. }
  apply wp_bind. apply link_child_spec; cbn [slots with_slots with_objects].
  { by rewrite length_alter. } { by rewrite length_alter. } { done. }
  { intros f Hff. rewrite length_alter. rewrite (cdt_first _ _ _ Hcdt1) in Hff.
    apply head_elem, (cdt_kid_lt Hcdt1) in Hff. by rewrite length_alter in Hff. }
  assert (first_of (alter g d sl) s = first_of sl s) as Hfs.
  { by rewrite (cdt_first _ _ _ Hcdt1), (cdt_first _ _ _ Hcdt). }
  destruct (linked_views s d (first_of (alter g d sl) s) (alter g d sl)) as (Vc & Vp & _);
    [by rewrite length_alter..| |].
  { intros f Hff. rewrite length_alter. rewrite (cdt_first _ _ _ Hcdt1) in Hff.
    apply head_elem, (cdt_kid_lt Hcdt1) in Hff. by rewrite length_alter in Hff. }
  pose proof (linked_cdt (alter g d sl) kids rank s d Hcdt1) as Hcdt2.
  set (sl2 := linked s d (first_of (alter g d sl) s) (alter g d sl)) in *.
  assert (core_of sl2 d = Some (g y)) as Hcd by (rewrite Vc; by apply core_of_lookup in Hd1).
  destruct (core_of_Some _ _ _ Hcd) as (z & Hz & Hzg).
  apply wp_bind. unfold ptr. apply wp_bind. eapply wp_slot_at; [done|]. apply wp_ret, wp_ret.
  exists d, y. split_and!; [done|done| | |].
  - f_equal. change (CapSlot.gen z) with (CapSlot.gen (core z)). by rewrite Hzg.
  - split; cbn [slots objects with_slots with_objects].
    + eexists _, _. apply Hcdt2; [by rewrite length_alter..|done| | |].
      * unfold parent_of, view. rewrite Hd1. done.
      * by apply (cdt_unused_nokids Hcdt d y).
      * exists (core (g y)), (core x). split_and!; [by apply core_of_lookup..|].
        unfold derives. simpl. done.
    + eapply objects_ok_same_core; [exact Vc|].
      eapply (objects_ok_fill _ _ d y g); try done.
      simpl. rewrite Hrc. fold sl. lia.
    + eapply windows_ok_same_core; [exact Vc|]. apply windows_ok_alter_objects.
      * apply windows_ok_alter_slots; [done|]. intros z' Hz' _ f Hff. simplify_eq. simpl in *.
        by apply Hf.
      * intros. by left.
  - split; cbn [slots objects with_slots with_objects].
    + intros j. rewrite Vc, core_alter. case_decide; [|done]. subst j. by rewrite Hy.
    + intros j. rewrite Vp. case_decide; [done|].
      unfold parent_of, view. by rewrite list_lookup_alter_ne.
    + done.
    + done.
Qed.

(** A window computed by [teilfenster_rechnen] is a non-empty part of the whole;
    it fails exactly for the windows that are empty or do not fit. *)
Lemma teilfenster_spec whole offset len :
  (0 <= PhysRegion.base whole)%Z → (0 <= PhysRegion.len whole)%Z → (0 <= offset)%Z → (0 <= len)%Z →
  match teilfenster_rechnen whole offset len with
  | Ok f => f = PhysRegion.new (PhysRegion.base whole + offset) len ∧ (0 < len)%Z ∧
      (offset + len <= PhysRegion.len whole)%Z ∧
      (PhysRegion.base whole + PhysRegion.len whole < 2 ^ 64)%Z
  | Err e => e = Subregion ∧
      (len = 0 ∨ PhysRegion.len whole < offset + len ∨
       2 ^ 64 <= PhysRegion.base whole + PhysRegion.len whole)%Z
  end.
Proof.
  intros Hb Hl Ho Hn. unfold teilfenster_rechnen.
  destruct (Z.eqb_spec len 0) as [->|Hne]; [by split; [|left]|].
  destruct (checked_add 64 (PhysRegion.base whole) offset) as [base|] eqn:E1.
  2:{ apply checked_add_None in E1. split; [done|]. right. lia. }
  apply checked_add_Some in E1 as [-> ?].
  destruct (checked_add 64 (PhysRegion.base whole + offset) len) as [ende|] eqn:E2.
  2:{ apply checked_add_None in E2. split; [done|]. right. lia. }
  apply checked_add_Some in E2 as [-> ?].
  destruct (checked_add 64 (PhysRegion.base whole) (PhysRegion.len whole)) as [we|] eqn:E3.
  2:{ apply checked_add_None in E3. split; [done|]. right. lia. }
  apply checked_add_Some in E3 as [-> ?].
  destruct (Z.ltb_spec (PhysRegion.base whole + PhysRegion.len whole)
    (PhysRegion.base whole + offset + len)); split_and!; try done; lia.
Qed.

Lemma teilfenster_subset whole offset len f :
  (0 <= offset)%Z → teilfenster_rechnen whole offset len = Ok f → PhysRegion.subset f whole.
Proof.
  intros Ho. unfold teilfenster_rechnen. destruct (Z.eqb len 0); [done|].
  destruct (checked_add 64 (PhysRegion.base whole) offset) as [base|] eqn:E1; [|done].
  apply checked_add_Some in E1 as [-> ?].
  destruct (checked_add 64 (PhysRegion.base whole + offset) len) as [ende|] eqn:E2; [|done].
  apply checked_add_Some in E2 as [-> ?].
  destruct (checked_add 64 (PhysRegion.base whole) (PhysRegion.len whole)) as [we|] eqn:E3; [|done].
  apply checked_add_Some in E3 as [-> ?].
  destruct (Z.ltb_spec (PhysRegion.base whole + PhysRegion.len whole)
    (PhysRegion.base whole + offset + len)); [done|]. intros [= <-].
  unfold PhysRegion.subset, PhysRegion.inside. simpl. lia.
Qed.

Lemma window_le_refl f : window_le f f.
Proof. destruct f; simpl; [intros ?; done|done]. Qed.

(** The result of a derivation from slot [s] with content [x]. *)
Definition derive_post (c : t) (s : nat) (x : CapSlot.t) (rights : Rights.t) (badge : Z)
    (fen : option PhysRegion.t) (r : result CapPtr.t CapError) (c' : t) : Prop :=
  match r with
  | Ok p => ∃ d y, slots c !! d = Some y ∧ CapSlot.used y = false ∧
      p = CapPtr.mk d (CapSlot.gen y) ∧ inv c' ∧
      child_added c c' s d
        (CapSlot.mk true (CapSlot.gen y) (CapSlot.object x) rights badge fen Mdb.EMPTY)
  | Err e => e = NoSlot ∧ c' = c ∧ (∀ i s, slots c !! i = Some s → CapSlot.used s = true)
  end.

Lemma copy_spec c p rights :
  inv c →
  wp (copy p rights) c (λ r c',
    match resolve_in c p with
    | Err e => r = Err e ∧ c' = c
    | Ok s => ∃ x, slots c !! s = Some x ∧
        derive_post c s x (Rights.intersect (CapSlot.rights x) rights) (CapSlot.badge x)
          (CapSlot.subregion x) r c'
    end).
Proof.
  intros Hinv. unfold copy. apply wp_try, wp_gets.
  destruct (resolve_in c p) as [s|e] eqn:Hres; [|done].
  apply resolve_in_Ok in Hres as (-> & x & Hx & Hu & _).
  apply wp_bind. eapply wp_slot_at; [done|].
  eapply wp_mono; [apply (derive_child_spec c _ x); try done|].
  - apply Rights.intersect_le_l.
  - apply window_le_refl.
  - intros f Hf. by eapply (inv_windows _ Hinv).
  - intros r c' H. by exists x.
Qed.

(** Changing a badge changes no link and no authority. *)
Lemma inv_set_badge c i b :
  inv c → inv (with_slots (alter (CapSlot.with_badge b) i (slots c)) c).
Proof.
  intros [(kids & rank & Hcdt) Hob Hwin].
  assert (∀ o, refs (alter (CapSlot.with_badge b) i (slots c)) o = refs (slots c) o) as Hrefs.
  { intros o. destruct (slots c !! i) as [s|] eqn:Hs.
    - pose proof (refs_alter _ _ _ (CapSlot.with_badge b) o Hs) as H.
      assert (designates o (CapSlot.with_badge b s) = designates o s) as He by done.
      rewrite He in H. lia.
    - f_equal. apply list_eq. intros j. rewrite lookup_alter_if. case_decide; [subst; by rewrite Hs|].
      by destruct (slots c !! j). }
  split; cbn [slots objects with_slots].
  - exists kids, rank. eapply cdt_ext; [done|..]; try (intros j; by apply view_alter_same).
    intros j s Hs Hu. rewrite core_alter. unfold core_of in Hs.
    destruct (slots c !! j) as [z|] eqn:Hz; [|done]. simpl in Hs. simplify_eq.
    destruct (decide (i = j)).
    + simpl. eexists. split; [done|]. split_and!; done.
    + unfold core_of. rewrite Hz. eexists. split; [done|]. split_and!; done.
  - split.
    + intros j s [(<- & y & Hy & ->)|(Hne & Hj)]%lookup_alter_inv Hu;
        [exact (ob_in_table _ _ Hob i y Hy Hu)|exact (ob_in_table _ _ Hob j s Hj Hu)].
    + intros o x. rewrite Hrefs. apply Hob.
    + intros o x. rewrite Hrefs. apply Hob.
    + rewrite length_alter. apply Hob.
  - apply windows_ok_alter_slots; [done|]. intros s Hs Hu f Hf. exact (Hwin i s f Hs Hu Hf).
Qed.

Lemma mint_spec c p rights badge :
  inv c →
  wp (mint p rights badge) c (λ r c',
    match resolve_in c p with
    | Err e => r = Err e ∧ c' = c
    | Ok s => ∃ x, slots c !! s = Some x ∧
        derive_post c s x (Rights.intersect (CapSlot.rights x) rights) badge
          (CapSlot.subregion x) r c'
    end).
Proof.
  intros Hinv. unfold mint. apply wp_try. eapply wp_mono; [by apply copy_spec|].
  intros r c1 H. cbv beta in H. destruct (resolve_in c p) as [s|e]; [|by destruct H as [-> ->]].
  destruct H as (x & Hx & H). destruct r as [q|e]; [|by exists x].
  destruct H as (d & y & Hy & Hu & -> & Hinv1 & [Hc Hp Ho Hov]).
  assert (d < length (slots c1)) as Hd.
  { specialize (Hc d). rewrite decide_True in Hc by done.
    apply core_of_Some in Hc as (? & ? & _). by eapply lookup_lt_Some. }
  apply wp_bind, wp_upd_slot; [done|]. apply wp_ret. exists x. split; [done|].
  exists d, y. split_and!; [done..|by apply inv_set_badge|]. split; cbn [slots objects with_slots].
  - intros j. rewrite core_alter. specialize (Hc j). cbn [CapPtr.slot]. destruct (decide (d = j)) as [->|]; [|done].
    apply core_of_Some in Hc as (z & Hz & Hcz). rewrite Hz. simpl.
    unfold core, CapSlot.with_mdb, CapSlot.with_badge in *.
    destruct z; simpl in *. injection Hcz; intros; by subst.
  - intros j. rewrite parent_same by done. apply Hp.
  - done.
  - done.
Qed.

Lemma subregion_spec c p offset len rights :
  inv c → (0 <= offset)%Z →
  wp (subregion p offset len rights) c (λ r c',
    match resolve_in c p with
    | Err e => r = Err e ∧ c' = c
    | Ok s => ∃ x o, slots c !! s = Some x ∧ objects c !! CapSlot.object x = Some o ∧
        match Object.kind o with
        | Memory whole =>
            match teilfenster_rechnen (default whole (CapSlot.subregion x)) offset len with
            | Err e => r = Err e ∧ c' = c
            | Ok f =>
                derive_post c s x (Rights.intersect (CapSlot.rights x) rights) (CapSlot.badge x)
                  (Some f) r c'
            end
        | _ => r = Err Invalid ∧ c' = c
        end
    end).
Proof.
  intros Hinv Hoff. unfold subregion. apply wp_try, wp_gets.
  destruct (resolve_in c p) as [s|e] eqn:Hres; [|done].
  apply resolve_in_Ok in Hres as (-> & x & Hx & Hu & _).
  destruct (ob_of_slot _ _ _ _ (inv_objects _ Hinv) Hx Hu) as (o & Ho & Huo & _).
  apply wp_bind. eapply wp_slot_at; [done|]. apply wp_bind. eapply wp_object_at; [done|].
  destruct (Object.kind o) as [whole| | | | | | | | | | | | |] eqn:Hk;
    try (apply wp_ret; exists x, o; rewrite Hk; done).
  destruct (teilfenster_rechnen _ offset len) as [f|e] eqn:Hf.
  2:{ apply wp_ret. exists x, o. rewrite Hk, Hf. done. }
  pose proof (teilfenster_subset _ _ _ _ Hoff Hf) as Hsub.
  eapply wp_mono; [apply (derive_child_spec c _ x); try done|].
  - apply Rights.intersect_le_l.
  - destruct (CapSlot.subregion x); simpl in *; done.
  - intros f' [= <-]. exists o, whole. split_and!; [done..|].
    destruct (CapSlot.subregion x) as [w|] eqn:Hw; simpl in *; [|done].
    destruct (inv_windows _ Hinv _ _ _ Hx Hu Hw) as (o' & r & Ho' & Hk' & Hsub').
    simplify_eq. assert (r = whole) as -> by congruence. by etrans.
  - intros r c' H. exists x, o. rewrite Hk, Hf. done.
Qed.

Lemma install_spec c kind rights :
  inv c →
  wp (install kind rights) c (λ r c', inv c' ∧ cdt_walk_overruns c' = cdt_walk_overruns c ∧
    match r with
    | Ok p => ∃ d y i o, slots c !! d = Some y ∧ CapSlot.used y = false ∧
        p = CapPtr.mk d (CapSlot.gen y) ∧ objects c !! i = Some o ∧ Object.used o = false ∧
        (∀ j, core_of (slots c') j =
          if decide (d = j) then Some (CapSlot.mk true (CapSlot.gen y) i rights 0 None Mdb.EMPTY)
          else core_of (slots c) j) ∧
        (∀ j, parent_of (slots c') j = parent_of (slots c) j) ∧
        objects c' = alter (λ o, Object.mk true kind 1 (Object.gen o)) i (objects c)
    | Err e => slots c' = slots c ∧
        (∀ i x, Object.used x = true → objects c' !! i = Some x ↔ objects c !! i = Some x) ∧
        ((e = NoObject ∧ ∀ i o, objects c !! i = Some o → Object.used o = true) ∨
         (e = NoSlot ∧ ∀ i s, slots c !! i = Some s → CapSlot.used s = true))
    end).
Proof.
  intros [(kids & rank & Hcdt) Hob Hwin]. unfold install. apply wp_try.
  eapply wp_mono; [apply alloc_object_spec|].
  intros [i|e] c1; [|intros (-> & -> & Hall)].
  2:{ split_and!; [by split; eauto|done|done|done|]. left. done. }
  intros (o & Ho & Huo & Hsl1 & Hob1 & Hov1).
  pose proof (ob_unused _ _ Hob _ _ Ho Huo) as Hrefs0.
  assert (∀ j s, slots c !! j = Some s → CapSlot.used s = true → CapSlot.object s ≠ i) as Hnone.
  { intros j s Hj Hu <-. pose proof (refs_pos _ _ _ Hj Hu). lia. }
  apply wp_bind. eapply wp_mono; [apply alloc_slot_spec|]. rewrite Hsl1, Hob1.
  intros [d|e] c2.
  - intros (y & Hy & Huy & Hsl2 & Hob2 & Hov2).
    set (g := λ s, CapSlot.mk true (CapSlot.gen s) i rights 0 None Mdb.EMPTY) in *.
    apply wp_bind. unfold ptr. apply wp_bind.
    eapply (wp_slot_at d (g y)); [rewrite Hsl2, list_lookup_alter_eq, Hy; done|].
    apply wp_ret, wp_ret. split_and!.
    + split; rewrite Hsl2.
      * exists kids, rank. eapply overwrite_cdt; [done|done|by eapply cdt_unused|done|].
        by eapply cdt_unused_nokids.
      * rewrite Hob2. eapply (objects_ok_fill _ _ d y); try done. simpl. by rewrite Hrefs0.
      * rewrite Hob2. apply windows_ok_alter_slots; [|by intros s _ _ f].
        apply windows_ok_alter_objects; [done|]. intros. by right.
    + congruence.
    + exists d, y, i, o. split_and!; try done.
      * intros j. rewrite Hsl2, core_alter. case_decide; [subst j; by rewrite Hy|done].
      * intros j. rewrite Hsl2. unfold parent_of, view. rewrite lookup_alter_if.
        case_decide; [subst j|by destruct (slots c !! j)]. rewrite Hy. simpl.
        by rewrite (cdt_unused Hcdt d y).
  - intros (-> & -> & Hall). apply wp_bind, wp_upd_object.
    { rewrite Hob1, length_alter. by eapply lookup_lt_Some. }
    apply wp_ret. rewrite Hob1. split_and!; cbn [slots objects cdt_walk_overruns with_objects].
    + split; cbn [slots objects with_objects]; rewrite Hsl1; [eauto| |].
      * split.
        -- intros j s. rewrite !length_alter. apply Hob.
        -- intros o' x [(<- & z & Hz & ->)|(Hne & Ho')]%lookup_alter_inv; [done|].
           rewrite list_lookup_alter_ne in Ho' by done. by apply Hob.
        -- intros o' x [(<- & z & Hz & ->)|(Hne & Ho')]%lookup_alter_inv; [done|].
           rewrite list_lookup_alter_ne in Ho' by done. by apply Hob.
        -- apply Hob.
      * rewrite list_alter_alter_eq. apply windows_ok_alter_objects; [done|]. intros. by right.
    + done.
    + done.
    + intros j x Hux. rewrite list_alter_alter_eq, lookup_alter_if. case_decide; [subst j|].
      * rewrite Ho. simpl. split; intros [= <-]; simpl in *; congruence.
      * by destruct (objects c !! j).
    + by right.
Qed.
