(* ===== verification/CapMove.v ===== *)
(** * Moving a capability

    [move_cap] redirects every link to the moved slot: its place among its
    siblings, its parent's [first_child] and the [parent] of each child.  *)

From S2P Require Import Prelude PanicMonad Dll Region PhysAlloc CapObject CapSpace CapInv CapOps CapDerive.
Import CapSpace.

(** ** The loop over the children *)

Definition reparented (dst : nat) (l : list nat) (sl : list CapSlot.t) : list CapSlot.t :=
  foldl (λ sl c, alter (CapSlot.set_parent (Some dst)) c sl) sl l.

Fixpoint chain (nxt : nat → option nat) (l : list nat) : Prop :=
  match l with
  | [] => True
  | x :: l => nxt x = head l ∧ chain nxt l
  end.

Lemma dll_chain nxt prv l : dll nxt prv l → chain nxt l.
Proof.
  intros H. assert (∀ l2 l1, l = l1 ++ l2 → chain nxt l2) as Hgen; [|by apply (Hgen l [])].
  induction l2 as [|x l2 IH]; intros l1 ->; simpl; [done|]. split.
  - by apply dll_split in H as [_ ?].
  - apply (IH (l1 ++ [x])). by rewrite <-app_assoc.
Qed.

Lemma chain_ext nxt nxt' l : (∀ x, x ∈ l → nxt' x = nxt x) → chain nxt l → chain nxt' l.
Proof.
  induction l as [|x l IH]; simpl; [done|]. intros He [H1 H2]. split.
  - rewrite He by set_solver. done.
  - apply IH; [|done]. intros y Hy. apply He. set_solver.
Qed.

Lemma reparented_views dst l sl :
  (∀ x, x ∈ l → x < length sl) →
  let sl' := reparented dst l sl in
  same_core sl sl' ∧
  (∀ j, parent_of sl' j = if decide (j ∈ l) then Some dst else parent_of sl j) ∧
  (∀ j, first_of sl' j = first_of sl j) ∧ (∀ j, next_of sl' j = next_of sl j) ∧
  (∀ j, prev_of sl' j = prev_of sl j).
Proof.
  revert sl. induction l as [|x l IH]; intros sl Hl; simpl.
  { split_and!; done. }
  assert (x < length sl) as Hx by (apply Hl; set_solver).
  destruct (IH (alter (CapSlot.set_parent (Some dst)) x sl)) as (Vc & Vp & Vf & Vn & Vv).
  { intros y Hy. rewrite length_alter. apply Hl. set_solver. }
  split_and!.
  - intros j. fold (reparented dst l (alter (CapSlot.set_parent (Some dst)) x sl)).
    rewrite Vc. by views.
  - intros j. rewrite Vp. views. destruct (decide (j ∈ l)).
    + rewrite decide_True by set_solver. done.
    + destruct (decide (x = j)) as [->|]; [by rewrite decide_True by set_solver|].
      rewrite decide_False by set_solver. done.
  - intros j. rewrite Vf. by views.
  - intros j. rewrite Vn. by views.
  - intros j. rewrite Vv. by views.
Qed.

Lemma reparent_spec limit fuel dst steps l c (Q : nat → t → Prop) :
  chain (next_of (slots c)) l → (∀ x, x ∈ l → x < length (slots c)) →
  steps + length l ≤ limit → length l ≤ fuel →
  Q (steps + length l) (with_slots (reparented dst l (slots c)) c) →
  wp (reparent limit fuel dst steps (head l)) c Q.
Proof.
  revert fuel steps c. induction l as [|x l IH]; intros fuel steps c Hch Hl Hlim Hfuel HQ.
  - destruct fuel; simpl; apply wp_ret; simpl in HQ; rewrite Nat.add_0_r in HQ;
      by destruct c.
  - destruct fuel as [|fuel]; [simpl in Hfuel; lia|]. simpl in Hch, Hlim, Hfuel.
    destruct Hch as [Hn Hch]. assert (x < length (slots c)) as Hx by (apply Hl; set_solver).
    simpl. rewrite decide_False by lia. apply wp_bind, wp_upd_slot; [done|].
    destruct (lookup_lt_is_Some_2 _ _ Hx) as [s Hs]. apply wp_bind.
    eapply wp_slot_at; [cbn [slots with_slots]; rewrite list_lookup_alter_eq, Hs; done|].
    assert (Mdb.next_sibling (CapSlot.mdb (CapSlot.set_parent (Some dst) s)) = head l) as ->.
    { unfold next_of, view in Hn. rewrite Hs in Hn. done. }
    apply IH; cbn [slots with_slots].
    + eapply chain_ext; [|done]. intros y _. by views.
    + intros y Hy. rewrite length_alter. apply Hl. set_solver.
    + lia.
    + lia.
    + simpl in HQ. replace (S steps + length l) with (steps + S (length l)) by lia. exact HQ.
Qed.

(** ** The tables of [move_cap] *)

Definition move_links (s d : nat) (par nx pv : option nat) (x : CapSlot.t)
    (sl : list CapSlot.t) : list CapSlot.t :=
  let sl := alter (λ y, CapSlot.with_gen (CapSlot.gen y) x) d sl in
  let sl := match pv with
            | Some p => alter (CapSlot.set_next_sibling (Some d)) p sl
            | None => match par with
                      | Some q => alter (CapSlot.set_first_child (Some d)) q sl | None => sl end
            end in
  match nx with
  | Some n => alter (CapSlot.set_prev_sibling (Some d)) n sl | None => sl end.

Definition move_table (s d : nat) (par nx pv : option nat) (kids : list nat) (x : CapSlot.t)
    (sl : list CapSlot.t) : list CapSlot.t :=
  alter (λ s, CapSlot.with_gen (wrapping_add 32 (CapSlot.gen s) 1) CapSlot.EMPTY) s
    (reparented d kids (move_links s d par nx pv x sl)).

Lemma view_copy {A} (F : CapSlot.t → option A) g d s (x : CapSlot.t) sl :
  (∀ y, F (g y) = F x) → sl !! s = Some x → d < length sl →
  ∀ j, view F (alter g d sl) j = if decide (d = j) then view F sl s else view F sl j.
Proof.
  intros HF Hs Hd j. rewrite (view_alter_const F g (F x)) by done.
  case_decide; [|done]. unfold view. by rewrite Hs.
Qed.

Lemma move_links_views s d sl x y par nx pv :
  sl !! s = Some x → sl !! d = Some y → s ≠ d →
  (∀ z, par = Some z → z < length sl ∧ z ≠ d) → (∀ z, nx = Some z → z < length sl ∧ z ≠ d) →
  (∀ z, pv = Some z → z < length sl ∧ z ≠ d) →
  let sl' := move_links s d par nx pv x sl in
  (∀ j, j ≠ d → core_of sl' j = core_of sl j) ∧
  core_of sl' d = Some (CapSlot.with_gen (CapSlot.gen y) (core x)) ∧
  length sl' = length sl ∧
  (∀ j, parent_of sl' j = if decide (d = j) then parent_of sl s else parent_of sl j) ∧
  (∀ j, first_of sl' j = if decide (d = j) then first_of sl s
     else if decide (pv = None ∧ par = Some j) then Some d else first_of sl j) ∧
  (∀ j, next_of sl' j = if decide (d = j) then next_of sl s
     else if decide (pv = Some j) then Some d else next_of sl j) ∧
  (∀ j, prev_of sl' j = if decide (d = j) then prev_of sl s
     else if decide (nx = Some j) then Some d else prev_of sl j).
Proof.
  intros Hs Hd Hsd Hpar Hnx Hpv. unfold move_links.
  pose proof (lookup_lt_Some _ _ _ Hd) as Hdl.
  set (g := λ y, CapSlot.with_gen (CapSlot.gen y) x).
  assert (∀ j, parent_of (alter g d sl) j = if decide (d = j) then parent_of sl s else parent_of sl j) as Gp
    by (by apply (view_copy _ g d s x)).
  assert (∀ j, first_of (alter g d sl) j = if decide (d = j) then first_of sl s else first_of sl j) as Gf
    by (by apply (view_copy _ g d s x)).
  assert (∀ j, next_of (alter g d sl) j = if decide (d = j) then next_of sl s else next_of sl j) as Gn
    by (by apply (view_copy _ g d s x)).
  assert (∀ j, prev_of (alter g d sl) j = if decide (d = j) then prev_of sl s else prev_of sl j) as Gv
    by (by apply (view_copy _ g d s x)).
  assert (∀ j, core_of (alter g d sl) j = if decide (d = j) then Some (core (g y)) else core_of sl j) as Gc.
  { intros j. rewrite core_alter. case_decide; [subst; by rewrite Hd|done]. }
  assert (length (alter g d sl) = length sl) as Gl by apply length_alter.
  change (CapSlot.with_gen (CapSlot.gen y) (core x)) with (core (g y)).
  generalize dependent (alter g d sl). intros sl1 Gp Gf Gn Gv Gc Gl. rewrite <-Gl in Hpar, Hnx, Hpv.
  destruct pv as [pv|], nx as [nx|], par as [par|];
    repeat match goal with Hz : ∀ z, Some ?w = Some z → _ |- _ =>
      destruct (Hz w eq_refl) as [? ?]; clear Hz end;
    split_and!; intros; rewrite ?length_alter; views; rewrite ?Gp, ?Gf, ?Gn, ?Gv, ?Gc; try done;
    repeat case_decide; naive_solver.
Qed.

Lemma move_table_moved sl kids rank s d x y :
  cdt sl kids rank → sl !! s = Some x → sl !! d = Some y → CapSlot.used x = true →
  CapSlot.used y = false →
  let sl' := move_table s d (parent_of sl s) (next_of sl s) (prev_of sl s) (kids s) x sl in
  moved s d sl sl' ∧
  core_of sl' s = Some (CapSlot.with_gen (wrapping_add 32 (CapSlot.gen x) 1) CapSlot.EMPTY) ∧
  length sl' = length sl.
Proof.
  intros H Hs Hd Hux Huy. assert (s ≠ d) as Hsd by (intros ->; congruence).
  pose proof (lookup_lt_Some _ _ _ Hs) as Hsl.
  assert (parent_of sl d = None) as Hdp.
  { unfold parent_of, view. rewrite Hd. simpl. by rewrite (cdt_unused H d y). }
  assert (∀ z, parent_of sl z ≠ Some d) as Hnod.
  { intros z Hz%(cdt_parent _ _ _ H). rewrite (cdt_unused_nokids H d y) in Hz by done.
    by apply elem_of_nil in Hz. }
  assert (∀ z, next_of sl s = Some z ∨ prev_of sl s = Some z → z < length sl ∧ z ≠ d) as Hsib.
  { intros z Hz. split; [by eapply (cdt_sibling_lt H)|]. intros ->.
    apply (cdt_sibling H) in Hz as (p & _ & Hp). congruence. }
  destruct (move_links_views s d sl x y (parent_of sl s) (next_of sl s) (prev_of sl s))
    as (Lc & Lnew & Ll & Lp & Lf & Ln & Lv); [done..| | | |].
  { intros z Hz. split; [by eapply (cdt_parent_lt H)|]. intros ->. by eapply Hnod. }
  { eauto. } { eauto. }
  unfold move_table. set (sl1 := move_links s d _ _ _ x sl) in *. clearbody sl1.
  destruct (reparented_views d (kids s) sl1) as (Rc & Rp & Rf & Rn & Rv).
  { intros z Hz. rewrite Ll. by eapply (cdt_kid_lt H). }
  pose proof (same_core_length _ _ Rc) as Rl.
  set (sl2 := reparented d (kids s) sl1) in *. clearbody sl2.
  set (g := λ s, CapSlot.with_gen (wrapping_add 32 (CapSlot.gen s) 1) CapSlot.EMPTY).
  assert (s < length sl2) as Hs2 by lia.
  assert (∀ {A} (F : CapSlot.t → option A), F (g x) = None → (∀ z, F (g z) = F (g x)) →
    ∀ j, view F (alter g s sl2) j = if decide (s = j) then None else view F sl2 j) as HF.
  { intros A F HF HF' j. rewrite (view_alter_const F g None); [done| |done]. congruence. }
  assert (∀ j, parent_of (alter g s sl2) j = if decide (s = j) then None else parent_of sl2 j) as Gp
    by (by apply HF).
  assert (∀ j, first_of (alter g s sl2) j = if decide (s = j) then None else first_of sl2 j) as Gf
    by (by apply HF).
  assert (∀ j, next_of (alter g s sl2) j = if decide (s = j) then None else next_of sl2 j) as Gn
    by (by apply HF).
  assert (∀ j, prev_of (alter g s sl2) j = if decide (s = j) then None else prev_of sl2 j) as Gv
    by (by apply HF).
  split_and!; [split|..].
  - intros j. rewrite Gp, Rp, Lp. case_decide; [done|].
    destruct (decide (d = j)) as [<-|].
    + rewrite decide_False; [done|]. intros Hk%(cdt_parent _ _ _ H). congruence.
    + by rewrite (decide_ext _ (parent_of sl j = Some s) _ _ (cdt_parent _ _ _ H s j)).
  - intros j. by rewrite Gf, Rf, Lf.
  - intros j. by rewrite Gn, Rn, Ln.
  - intros j. by rewrite Gv, Rv, Lv.
  - intros j Hjs Hjd. rewrite core_alter, decide_False by done. by rewrite Rc, Lc.
  - intros x' y' Hx' Hy'. simplify_eq. rewrite core_alter, decide_False by done. by rewrite Rc.
  - rewrite core_alter, decide_True by done.
    assert (core_of sl2 s = Some (core x)) as Hcs by (rewrite Rc, Lc by done; by apply core_of_lookup).
    apply core_of_Some in Hcs as (z & Hz & Hzx). rewrite Hz. simpl.
    assert (CapSlot.gen z = CapSlot.gen x) as Hg
      by (change (CapSlot.gen (core z) = CapSlot.gen (core x)); by rewrite Hzx).
    unfold g. by rewrite Hg.
  - rewrite length_alter. lia.
Qed.

Lemma moved_objects sl sl' s d x y ob g' :
  objects_ok sl ob → windows_ok sl ob → moved s d sl sl' → length sl' = length sl →
  sl !! s = Some x → sl !! d = Some y → CapSlot.used x = true → CapSlot.used y = false →
  core_of sl' s = Some (CapSlot.with_gen g' CapSlot.EMPTY) →
  objects_ok sl' ob ∧ windows_ok sl' ob.
Proof.
  intros Hob Hwin Hm Hlen Hs Hd Hux Huy Hcs. assert (s ≠ d) as Hsd by (intros ->; congruence).
  pose proof (mv_new _ _ _ _ Hm _ _ Hs Hd) as Hcd.
  (* as a pair of overwrites of the old table *)
  set (gd := λ _ : CapSlot.t, CapSlot.with_gen (CapSlot.gen y) (core x)).
  set (gs := λ _ : CapSlot.t, CapSlot.with_gen g' CapSlot.EMPTY).
  set (sl1 := alter gs s (alter gd d sl)).
  assert (same_core sl1 sl') as Hsame.
  { intros j. unfold sl1. rewrite core_alter. destruct (decide (s = j)) as [<-|Hj].
    - rewrite Hcs. rewrite list_lookup_alter_ne, Hs by done. done.
    - rewrite core_alter. destruct (decide (d = j)) as [<-|Hj'].
      + by rewrite Hcd, Hd.
      + by apply (mv_core _ _ _ _ Hm). }
  assert (∀ o, refs sl1 o = refs sl o) as Hrefs.
  { intros o. pose proof (refs_alter sl d y gd o Hd) as H1.
    pose proof (refs_alter (alter gd d sl) s x gs o) as H2.
    rewrite list_lookup_alter_ne in H2 by done. specialize (H2 Hs). fold sl1 in H2.
    assert (designates o y = false) as E1 by (unfold designates; by rewrite Huy).
    assert (designates o (gs x) = false) as E2 by done.
    assert (designates o (gd y) = designates o x) as E3 by done.
    rewrite E1, E3 in H1. rewrite E2 in H2. lia. }
  split; [eapply objects_ok_same_core|eapply windows_ok_same_core]; try exact Hsame.
  - split.
    + intros j z [(<- & w & Hw & ->)|(Hne & Hj)]%lookup_alter_inv Hu; [done|].
      apply lookup_alter_inv in Hj as [(<- & w & Hw & ->)|(Hne' & Hj)].
      * by apply (ob_in_table _ _ Hob s x).
      * by apply (ob_in_table _ _ Hob j z).
    + intros o z. rewrite Hrefs. apply Hob.
    + intros o z. rewrite Hrefs. apply Hob.
    + unfold sl1. rewrite !length_alter. apply Hob.
  - intros j z f [(<- & w & Hw & ->)|(Hne & Hj)]%lookup_alter_inv Hu Hf; [done|].
    apply lookup_alter_inv in Hj as [(<- & w & Hw & ->)|(Hne' & Hj)].
    + by apply (Hwin s x f).
    + by apply (Hwin j z f).
Qed.

(** What [move_cap] does: the capability and its place in the tree move to a
    free slot, the source slot is empty under a new generation. *)
Definition move_post (c : t) (s : nat) (x : CapSlot.t) (r : result CapPtr.t CapError) (c' : t) : Prop :=
  match r with
  | Ok p => ∃ d y, slots c !! d = Some y ∧ CapSlot.used y = false ∧
      p = CapPtr.mk d (CapSlot.gen y) ∧ inv c' ∧ moved s d (slots c) (slots c') ∧
      core_of (slots c') s =
        Some (CapSlot.with_gen (wrapping_add 32 (CapSlot.gen x) 1) CapSlot.EMPTY) ∧
      objects c' = objects c ∧ cdt_walk_overruns c' = cdt_walk_overruns c
  | Err e => e = NoSlot ∧ c' = c ∧ (∀ i s, slots c !! i = Some s → CapSlot.used s = true)
  end.

Lemma move_cap_spec c p :
  inv c →
  wp (move_cap p) c (λ r c',
    match resolve_in c p with
    | Err e => r = Err e ∧ c' = c
    | Ok s => ∃ x, slots c !! s = Some x ∧ move_post c s x r c'
    end).
Proof.
  intros [(kids & rank & Hcdt) Hob Hwin]. unfold move_cap. apply wp_try, wp_gets.
  destruct (resolve_in c p) as [s|e] eqn:Hres; [|done].
  apply resolve_in_Ok in Hres as (-> & x & Hs & Hux & _). set (s := CapPtr.slot p) in *.
  apply wp_try. unfold free_slot_index. apply wp_gets.
  destruct (position _ (slots c)) as [d|] eqn:Hpos.
  2:{ rewrite position_None in Hpos. exists x. split; [done|]. unfold move_post. split_and!; [done..|].
      intros i z Hz. apply negb_false_iff, (Hpos z). by eapply list_elem_of_lookup_2. }
  apply position_Some in Hpos as [(y & Hd & Huy%negb_true_iff) _].
  assert (s ≠ d) as Hsd by (intros ->; congruence).
  pose proof (lookup_lt_Some _ _ _ Hs) as Hsl. pose proof (lookup_lt_Some _ _ _ Hd) as Hdl.
  destruct (move_table_moved (slots c) kids rank s d x y) as (Hm & Hcs & Hlen); [done..|].
  set (sl := slots c) in *.
  assert (∀ z, parent_of sl s = Some z → z < length sl) as Hpl by (intros z; apply (cdt_parent_lt Hcdt)).
  pose proof (cdt_sibling_lt Hcdt s) as Hsib.
  assert (∀ z, next_of sl s = Some z → z < length sl) as Hnl by eauto.
  assert (∀ z, prev_of sl s = Some z → z < length sl) as Hvl by eauto. clear Hsib.
  assert (parent_of sl d = None) as Hdp.
  { unfold parent_of, view. rewrite Hd. simpl. by rewrite (cdt_unused Hcdt d y). }
  assert (next_of sl s = Some d ∨ prev_of sl s = Some d → False) as Hnotd.
  { intros (q & _ & Hq)%(cdt_sibling Hcdt). congruence. }
  assert (parent_of sl s = Mdb.parent (CapSlot.mdb x) ∧ first_of sl s = Mdb.first_child (CapSlot.mdb x) ∧
    next_of sl s = Mdb.next_sibling (CapSlot.mdb x) ∧ prev_of sl s = Mdb.prev_sibling (CapSlot.mdb x))
    as (Ep & Ef & En & Ev).
  { unfold parent_of, first_of, next_of, prev_of, view. by rewrite Hs. }
  apply wp_bind. eapply wp_slot_at; [done|]. apply wp_bind, wp_upd_slot; [done|].
  apply wp_bind. eapply (wp_slot_at s x); [cbn [slots with_slots]; by rewrite list_lookup_alter_ne|].
  cbv zeta. rewrite <-Ep, <-Ef, <-En, <-Ev.
  apply wp_bind. apply wp_mono with (λ _ c1, ∃ sl1,
    c1 = with_slots sl1 c ∧ length sl1 = length sl ∧
    sl1 = match prev_of sl s with
          | Some p => alter (CapSlot.set_next_sibling (Some d)) p
                        (alter (λ y, CapSlot.with_gen (CapSlot.gen y) x) d sl)
          | None => match parent_of sl s with
                    | Some q => alter (CapSlot.set_first_child (Some d)) q
                                  (alter (λ y, CapSlot.with_gen (CapSlot.gen y) x) d sl)
                    | None => alter (λ y, CapSlot.with_gen (CapSlot.gen y) x) d sl end
          end).
  { destruct (prev_of sl s); [|destruct (parent_of sl s)]; [apply wp_upd_slot|apply wp_upd_slot|apply wp_ret];
      cbn [slots with_slots]; try (rewrite length_alter; by eauto); fold sl;
      eexists; split_and!; try done; by rewrite !length_alter. }
  intros [] c1 (sl1 & -> & Hl1 & Hsl1).
  apply wp_bind. apply wp_mono with (λ _ c2,
    c2 = with_slots (move_links s d (parent_of sl s) (next_of sl s) (prev_of sl s) x sl) c).
  { unfold move_links. cbv zeta. rewrite <-Hsl1.
    destruct (next_of sl s); [|by apply wp_ret].
    apply wp_upd_slot; [cbn [slots with_slots]; rewrite Hl1; by eauto|done]. }
  intros [] c2 ->.
  destruct (move_links_views s d sl x y (parent_of sl s) (next_of sl s) (prev_of sl s))
    as (Lc & _ & Ll & _ & _ & Ln & _); [done..| | | |].
  { intros z Hz. split; [by eauto|]. intros ->. apply (cdt_parent _ _ _ Hcdt) in Hz.
    rewrite (cdt_unused_nokids Hcdt d y) in Hz by done. by apply elem_of_nil in Hz. }
  { intros z Hz. split; [by eauto|]. intros ->. by eapply Hnotd; left. }
  { intros z Hz. split; [by eauto|]. intros ->. by eapply Hnotd; right. }
  assert (chain (next_of (move_links s d (parent_of sl s) (next_of sl s) (prev_of sl s) x sl)) (kids s)) as Hch.
  { eapply chain_ext; [|apply (dll_chain _ _ _ (cdt_dll _ _ _ Hcdt s))].
    intros z Hz. pose proof (mv_next _ _ _ _ Hm z) as Hmz. apply (cdt_parent _ _ _ Hcdt) in Hz as Hpz.
    rewrite Ln. rewrite decide_False, decide_False; [done| |].
    - intros Hvz. destruct (cdt_sibling Hcdt s z) as (q & Hq & Hzq); [by right|].
      assert (q = s) as -> by congruence. apply (cdt_rank _ _ _ Hcdt) in Hq. lia.
    - intros <-. congruence. }
  assert (length (kids s) ≤ length sl) as Hkl.
  { eapply dll_bounded; [apply (cdt_dll _ _ _ Hcdt s)|]. intros z. apply (cdt_kid_lt Hcdt). }
  apply wp_bind, wp_gets. unfold cdt_step_limit. cbn [slots with_slots]. rewrite Ll.
  apply wp_bind. rewrite (cdt_first _ _ _ Hcdt).
  apply (reparent_spec _ _ _ _ (kids s)); cbn [slots with_slots]; [done| |lia|lia|].
  { intros z Hz. rewrite Ll. by eapply (cdt_kid_lt Hcdt). }
  destruct (reparented_views d (kids s)
    (move_links s d (parent_of sl s) (next_of sl s) (prev_of sl s) x sl)) as (Rc & _).
  { intros z Hz. rewrite Ll. by eapply (cdt_kid_lt Hcdt). }
  pose proof (same_core_length _ _ Rc) as Rl.
  apply wp_bind. unfold note_walk. apply wp_modify. apply wp_bind. unfold release_slot.
  set (c3 := with_slots (reparented d (kids s) _) _).
  assert (slots (if decide (peak_cdt_walk c3 < 0 + length (kids s))
            then with_peak_cdt_walk (0 + length (kids s)) c3 else c3) = slots c3) as Hc3
    by (by case_decide).
  apply wp_upd_slot; [rewrite Hc3; cbn [slots with_slots c3]; rewrite Rl, Ll; done|].
  rewrite Hc3. cbn [slots with_slots c3].
  fold (move_table s d (parent_of sl s) (next_of sl s) (prev_of sl s) (kids s) x sl).
  set (sl' := move_table s d (parent_of sl s) (next_of sl s) (prev_of sl s) (kids s) x sl) in *.
  pose proof (mv_new _ _ _ _ Hm _ _ Hs Hd) as Hnew.
  destruct (core_of_Some _ _ _ Hnew) as (z & Hz & Hzg).
  apply wp_bind. unfold ptr. apply wp_bind. eapply (wp_slot_at d z); [done|]. apply wp_ret, wp_ret.
  exists x. split; [done|]. exists d, y.
  destruct (moved_objects sl sl' s d x y (objects c) _ Hob Hwin Hm Hlen Hs Hd Hux Huy Hcs) as [Hob' Hwin'].
  assert (objects (if decide (peak_cdt_walk c3 < 0 + length (kids s))
            then with_peak_cdt_walk (0 + length (kids s)) c3 else c3) = objects c ∧
          cdt_walk_overruns (if decide (peak_cdt_walk c3 < 0 + length (kids s))
            then with_peak_cdt_walk (0 + length (kids s)) c3 else c3) = cdt_walk_overruns c) as [Ho3 Hv3]
    by (by case_decide).
  split_and!; try done.
  - f_equal. change (CapSlot.gen z) with (CapSlot.gen (core z)). by rewrite Hzg.
  - split; cbn [slots objects with_slots]; rewrite ?Ho3; [|done|done].
    eexists _, _. by eapply moved_cdt.
Qed.
