(* ===== verification/CapDelete.v ===== *)
(** * Deleting and revoking capabilities

    [delete_leaf] releases one childless slot and finalises its object with the
    last capability to it; [revoke] deletes exactly the descendants of a slot,
    leaf by leaf, and never reaches one of its step limits.  *)

From S2P Require Import Prelude PanicMonad Dll Region PhysAlloc CapObject CapSpace CapInv CapOps CapDerive.
Import CapSpace.

(** ** One leaf *)

(** The reports of a deletion, as a function of the slot and its object. *)
Definition debug_report (s : CapSlot.t) (k : ObjectKind) (f : Finalized.t) : Finalized.t :=
  match k with
  | Debuggable pd =>
      if Rights.contains (CapSlot.rights s) Rights.WRITE &&
         bool_decide (Mdb.parent (CapSlot.mdb s) ≠ None)
      then Finalized.push_debug pd f else f
  | _ => f
  end.
Definition final_alloc (k : ObjectKind) (a : PhysAllocator.t) : PhysAllocator.t :=
  match k with Memory r => (PhysAllocator.free_region r a).2 | _ => a end.
Definition final_report (k : ObjectKind) (f : Finalized.t) : Finalized.t :=
  match k with
  | Dma phys len _ _ => Finalized.push_dma phys len f
  | Reply ep caller => Finalized.push ep caller f
  | _ => f
  end.

(** Slot [x], holding [s] and designating [o], has been deleted. *)
Record leaf_deleted (x : nat) (s : CapSlot.t) (o : Object.t) (st st' : St) : Prop := {
  ld_core : ∀ j, core_of (slots st'.1.1) j =
    if decide (x = j)
    then Some (CapSlot.with_gen (wrapping_add 32 (CapSlot.gen s) 1) CapSlot.EMPTY)
    else core_of (slots st.1.1) j;
  ld_parent : ∀ j, parent_of (slots st'.1.1) j =
    if decide (x = j) then None else parent_of (slots st.1.1) j;
  ld_objects : objects st'.1.1 =
    if decide (Object.refcount o = 1%Z)
    then alter (λ o, Object.with_gen (wrapping_add 32 (Object.gen o) 1) Object.EMPTY)
           (CapSlot.object s) (objects st.1.1)
    else alter (λ o, Object.with_refcount (Object.refcount o - 1)%Z o)
           (CapSlot.object s) (objects st.1.1);
  ld_alloc : st'.1.2 =
    if decide (Object.refcount o = 1%Z) then final_alloc (Object.kind o) st.1.2 else st.1.2;
  ld_final : st'.2 =
    if decide (Object.refcount o = 1%Z)
    then final_report (Object.kind o) (debug_report s (Object.kind o) st.2)
    else debug_report s (Object.kind o) st.2;
  ld_overruns : cdt_walk_overruns st'.1.1 = cdt_walk_overruns st.1.1 }.

Lemma wp_finalize k c a f (Q : unit → St → Prop) :
  Q tt (c, final_alloc k a, final_report k f) → wp (finalize k) (c, a, f) Q.
Proof. by destruct k. Qed.

(** The tables of a deletion keep the invariant. *)
Lemma deleted_inv c x s o h sl' :
  inv c → slots c !! x = Some s → CapSlot.used s = true → first_of (slots c) x = None →
  objects c !! CapSlot.object s = Some o →
  (if decide (Object.refcount o = 1%Z) then Object.used (h o) = false
   else Object.used (h o) = true ∧ Object.refcount (h o) = (Object.refcount o - 1)%Z ∧
        Object.kind (h o) = Object.kind o) →
  let g := λ s, CapSlot.with_gen (wrapping_add 32 (CapSlot.gen s) 1) CapSlot.EMPTY in
  sl' = alter g x (unlinked x (parent_of (slots c) x) (next_of (slots c) x) (prev_of (slots c) x) (slots c)) →
  (∃ kids rank, cdt sl' kids rank) ∧
  objects_ok sl' (alter h (CapSlot.object s) (objects c)) ∧
  windows_ok sl' (alter h (CapSlot.object s) (objects c)) ∧
  (∀ j, core_of sl' j = if decide (x = j) then Some (g s) else core_of (slots c) j) ∧
  (∀ j, parent_of sl' j = if decide (x = j) then None else parent_of (slots c) j).
Proof.
  intros [(kids & rank & Hcdt) Hob Hwin] Hx Hu Hleaf Ho Hh g ->. set (sl := slots c) in *.
  pose proof (lookup_lt_Some _ _ _ Hx) as Hxl.
  assert (kids x = []) as Hk by (rewrite (cdt_first _ _ _ Hcdt) in Hleaf; by destruct (kids x)).
  destruct (unlinked_cdt sl kids rank x Hcdt Hxl Hk) as (kids' & Hcdt').
  pose proof (cdt_sibling_lt Hcdt x) as Hsib.
  destruct (unlinked_views x (parent_of sl x) (next_of sl x) (prev_of sl x) sl)
    as (Vc & Vp & Vf & Vn & Vv); [done|intros z; apply (cdt_parent_lt Hcdt)|by eauto..|].
  set (sl1 := unlinked x _ _ _ sl) in *. clearbody sl1.
  pose proof (same_core_length _ _ Vc) as Hlen.
  assert (core_of sl1 x = Some (core s)) as Hcx by (rewrite Vc; by apply core_of_lookup).
  destruct (core_of_Some _ _ _ Hcx) as (s1 & Hs1 & Hcs1).
  assert (CapSlot.mdb s1 = Mdb.EMPTY) as Hm1.
  { pose proof (Vp x) as E1. pose proof (Vf x) as E2. pose proof (Vn x) as E3. pose proof (Vv x) as E4.
    rewrite decide_True in E1, E2, E3, E4 by done.
    unfold parent_of, first_of, next_of, prev_of, view in E1, E2, E3, E4. rewrite Hs1 in E1, E2, E3, E4.
    simpl in *. destruct (CapSlot.mdb s1); simpl in *. unfold Mdb.EMPTY. congruence. }
  assert (kids' x = []) as Hk'.
  { pose proof (cdt_first _ _ _ Hcdt' x) as E. rewrite Vf, decide_True in E by done. by destruct (kids' x). }
  assert (CapSlot.gen s1 = CapSlot.gen s) as Hg1
    by (change (CapSlot.gen (core s1) = CapSlot.gen (core s)); by rewrite Hcs1).
  assert (CapSlot.used s1 = true) as Hu1
    by (change (CapSlot.used (core s1) = true); by rewrite Hcs1).
  assert (CapSlot.object s1 = CapSlot.object s) as Ho1
    by (change (CapSlot.object (core s1) = CapSlot.object (core s)); by rewrite Hcs1).
  pose proof (objects_ok_same_core _ _ _ Vc Hob) as Hob1.
  pose proof (windows_ok_same_core _ _ _ Vc Hwin) as Hwin1.
  destruct (ob_of_slot _ _ _ _ Hob1 Hs1 Hu1) as (o' & Ho' & Huo & Hrc). rewrite Ho1 in Ho', Hrc.
  assert (o' = o) as -> by congruence. split_and!.
  - exists kids', rank. by eapply overwrite_cdt.
  - eapply (objects_ok_release sl1 _ x s1 g); try done.
    rewrite Hrc in Hh. destruct (decide (refs sl1 (CapSlot.object s) = 1)) as [E|E].
    + rewrite decide_True in Hh; [done|]. rewrite E. done.
    + rewrite decide_False in Hh; [|lia]. destruct Hh as (?&?&_). split; [done|lia].
  - intros j z f [(<- & w & Hw & ->)|(Hne & Hj)]%lookup_alter_inv Huz Hf; [done|].
    destruct (Hwin1 j z f Hj Huz Hf) as (oz & r & Hoz & Hkz & Hsub).
    destruct (decide (CapSlot.object s = CapSlot.object z)) as [E|E].
    + rewrite E in *. assert (oz = o) as -> by congruence. exists (h o), r.
      rewrite list_lookup_alter_eq, Hoz. split_and!; [done| |done].
      destruct (decide (Object.refcount o = 1%Z)) as [E1|E1]; [|by destruct Hh as (_&_&->)].
      exfalso. (* two different slots would designate an object of count one *)
      pose proof (refs_alter sl1 x s1 g (CapSlot.object z) Hs1) as Hra.
      rewrite (proj2 (designates_true _ s1)) in Hra by done.
      assert (designates (CapSlot.object z) (g s1) = false) as Hd by done. rewrite Hd in Hra.
      assert (0 < refs (alter g x sl1) (CapSlot.object z)) as Hpos.
      { apply (refs_pos _ j z); [by rewrite list_lookup_alter_ne|done]. }
      lia.
    + exists oz, r. by rewrite list_lookup_alter_ne.
  - intros j. rewrite core_alter. destruct (decide (x = j)) as [<-|]; [|by rewrite Vc].
    rewrite Hs1. simpl. unfold g. by rewrite Hg1.
  - intros j. destruct (decide (x = j)) as [<-|Hj].
    + unfold parent_of, view. rewrite list_lookup_alter_eq, Hs1. done.
    + unfold parent_of at 1, view. rewrite list_lookup_alter_ne by done.
      change (parent_of sl1 j = parent_of sl j). by rewrite Vp, decide_False.
Qed.

Lemma delete_leaf_spec c a f x s :
  inv c → slots c !! x = Some s → CapSlot.used s = true → first_of (slots c) x = None →
  wp (delete_leaf x) (c, a, f) (λ _ st', inv st'.1.1 ∧
    ∃ o, objects c !! CapSlot.object s = Some o ∧ Object.used o = true ∧
      Object.refcount o = Z.of_nat (refs (slots c) (CapSlot.object s)) ∧
      leaf_deleted x s o (c, a, f) st').
Proof.
  intros Hinv Hx Hu Hleaf. pose proof Hinv as [(kids & rank & Hcdt) Hob Hwin].
  destruct (ob_of_slot _ _ _ _ Hob Hx Hu) as (o & Ho & Huo & Hrc).
  pose proof (refs_pos _ _ _ Hx Hu) as Hpos. pose proof (refs_le_length (slots c) (CapSlot.object s)) as Hle.
  pose proof (ob_width _ _ Hob) as Hw. pose proof (lookup_lt_Some _ _ _ Hx) as Hxl.
  pose proof (lookup_lt_Some _ _ _ Ho) as Hol.
  unfold delete_leaf.
  apply wp_bind, wp_on_space. eapply wp_slot_at; [done|].
  apply wp_bind, wp_on_space. eapply wp_object_at; [done|].
  apply wp_bind. apply wp_mono with (λ _ st, st = (c, a, debug_report s (Object.kind o) f)).
  { unfold debug_report. destruct (Object.kind o); try by apply wp_ret.
    destruct (_ && _); [by apply wp_modify|by apply wp_ret]. }
  intros [] st ->. set (f1 := debug_report s (Object.kind o) f).
  pose proof (cdt_sibling_lt Hcdt x) as Hsib.
  apply wp_bind, wp_on_space, unlink_spec; [done|intros z; apply (cdt_parent_lt Hcdt)|by eauto..|].
  assert (∀ sl1, length sl1 = length (slots c) →
    wp (on_space (release_slot x)) (with_slots sl1 c, a, f1) (λ _ st,
      st = (with_slots (alter (λ s, CapSlot.with_gen (wrapping_add 32 (CapSlot.gen s) 1) CapSlot.EMPTY) x sl1) c, a, f1))) as Hrel.
  { intros sl1 Hl1. apply wp_on_space, wp_upd_slot; [simpl; by rewrite Hl1|done]. }
  set (slu := unlinked x (parent_of (slots c) x) (next_of (slots c) x) (prev_of (slots c) x) (slots c)).
  assert (length slu = length (slots c)) as Hlu.
  { unfold slu, unlinked. repeat case_match; rewrite ?length_alter; done. }
  apply wp_bind. eapply wp_mono; [by apply Hrel|]. intros [] st ->.
  set (sl' := alter _ x slu).
  apply wp_bind, wp_on_space, wp_upd_object; [done|]. cbn [objects with_slots].
  assert (alter (λ o, Object.with_refcount (wrapping_sub 32 (Object.refcount o) 1) o)
      (CapSlot.object s) (objects c) =
    alter (λ o, Object.with_refcount (Object.refcount o - 1)%Z o) (CapSlot.object s) (objects c)) as ->.
  { apply list_alter_ext; [|done]. intros z Hz. simplify_eq. f_equal.
    apply wrapping_sub_exact. unfold in_width. lia. }
  apply wp_bind, wp_on_space.
  eapply wp_object_at; [cbn [objects with_objects]; rewrite list_lookup_alter_eq, Ho; done|].
  cbn [Object.refcount Object.with_refcount Object.kind].
  destruct (Z.eqb_spec (Object.refcount o - 1) 0) as [E|E].
  - assert (Object.refcount o = 1%Z) as E1 by lia.
    apply wp_bind, wp_finalize, wp_on_space, wp_upd_object.
    { cbn [objects with_objects]. by rewrite length_alter. }
    cbn [objects with_objects]. rewrite list_alter_alter_eq.
    destruct (deleted_inv c x s o
      ((λ o, Object.with_gen (wrapping_add 32 (Object.gen o) 1) Object.EMPTY) ∘
       (λ o, Object.with_refcount (Object.refcount o - 1)%Z o)) sl') as (D1 & D2 & D3 & D4 & D5); try done.
    { by rewrite decide_True. }
    split; [by split|]. exists o. split_and!; try done. split; try done; cbn; rewrite ?decide_True by done; try done.
  - apply wp_ret.
    destruct (deleted_inv c x s o (λ o, Object.with_refcount (Object.refcount o - 1)%Z o) sl')
      as (D1 & D2 & D3 & D4 & D5); try done.
    { rewrite decide_False by lia. done. }
    split; [by split|]. exists o. split_and!; try done.
    split; try done; cbn; rewrite decide_False by lia; done.
Qed.

(** ** Descendants *)

(** [desc sl s c]: slot [c] is derived, directly or not, from slot [s]. *)
Inductive desc (sl : list CapSlot.t) (s : nat) : nat → Prop :=
| desc_kid c : parent_of sl c = Some s → desc sl s c
| desc_below c d : parent_of sl c = Some d → desc sl s d → desc sl s c.

Lemma desc_rank sl kids rank s c : cdt sl kids rank → desc sl s c → rank s < rank c.
Proof.
  intros H. induction 1 as [c Hc|c d Hc _ IH].
  - by eapply (cdt_rank _ _ _ H).
  - apply (cdt_rank _ _ _ H) in Hc. lia.
Qed.

Lemma desc_parent sl s c : desc sl s c → ∃ d, parent_of sl c = Some d.
Proof. destruct 1; eauto. Qed.

Lemma desc_trans_kid sl s d c : desc sl s d → parent_of sl c = Some d → desc sl s c.
Proof. intros. by eapply desc_below. Qed.

(** No descendants without a first child. *)
Lemma desc_first sl kids rank s c : cdt sl kids rank → first_of sl s = None → ¬ desc sl s c.
Proof.
  intros H Hf. induction 1 as [c Hc|c d _ _ IH]; [|done].
  apply (cdt_parent _ _ _ H) in Hc. rewrite (cdt_first _ _ _ H) in Hf.
  destruct (kids s); [by apply elem_of_nil in Hc|done].
Qed.

(** Removing a childless slot removes it, and only it, from the descendants. *)
Lemma desc_remove sl sl' s x :
  (∀ j, parent_of sl' j = if decide (x = j) then None else parent_of sl j) →
  (∀ j, parent_of sl j ≠ Some x) →
  ∀ c, desc sl' s c ↔ desc sl s c ∧ c ≠ x.
Proof.
  intros Hp Hx c. split.
  - induction 1 as [c Hc|c d Hc _ [IH ?]]; rewrite Hp in Hc; case_decide; try done.
    + split; [by apply desc_kid|done].
    + split; [by eapply desc_below|done].
  - intros [Hd Hne]. induction Hd as [c Hc|c d Hc _ IH].
    + apply desc_kid. rewrite Hp, decide_False by done. done.
    + eapply desc_below; [rewrite Hp, decide_False by done; done|].
      apply IH. intros ->. by eapply Hx.
Qed.

Lemma derives_trans s p q : derives s p → derives p q → derives s q.
Proof.
  intros (?&?&?&?&Hw) (?&?&?&?&Hw'). unfold derives. split_and!; [done|done|congruence|by etrans|].
  destruct (CapSlot.subregion s), (CapSlot.subregion p), (CapSlot.subregion q); simpl in *; try done.
  by etrans.
Qed.

Lemma desc_derives sl kids rank i j :
  cdt sl kids rank → desc sl i j →
  ∃ si sj, sl !! i = Some si ∧ sl !! j = Some sj ∧ derives sj si.
Proof.
  intros H. induction 1 as [c Hc|c d Hc _ IH].
  - destruct (cdt_derives _ _ _ H _ _ Hc) as (s & p & Hs & Hp & Hd).
    apply core_of_Some in Hs as (s0 & Hs0 & <-), Hp as (p0 & Hp0 & <-). exists p0, s0. done.
  - destruct IH as (si & sd & Hsi & Hsd & Hdd).
    destruct (cdt_derives _ _ _ H _ _ Hc) as (s & p & Hs & Hp & Hd).
    apply core_of_Some in Hs as (s0 & Hs0 & <-), Hp as (p0 & Hp0 & <-).
    exists si, s0. split_and!; try done. simplify_eq. by eapply derives_trans.
Qed.

(** Two slots that designate one object are two references. *)
Lemma refs_two sl i j x y :
  sl !! i = Some x → sl !! j = Some y → i ≠ j → CapSlot.used x = true → CapSlot.used y = true →
  CapSlot.object x = CapSlot.object y → 1 < refs sl (CapSlot.object x).
Proof.
  intros Hi Hj Hne Hx Hy Ho.
  pose proof (refs_alter sl i x (λ _, CapSlot.EMPTY) (CapSlot.object x) Hi) as H.
  rewrite (proj2 (designates_true (CapSlot.object x) x)) in H by done.
  assert (0 < refs (alter (λ _, CapSlot.EMPTY) i sl) (CapSlot.object x)) as Hpos.
  { rewrite Ho. apply (refs_pos _ j y); [by rewrite list_lookup_alter_ne|done]. }
  unfold designates in H. simpl in H. lia.
Qed.

(** ** Finding a leaf *)

Lemma descend_loop_spec sl kids rank s fuel path leaf :
  cdt sl kids rank → leaf < length sl →
  NoDup (path ++ [leaf]) → (∀ z, z ∈ path → z < length sl ∧ rank z < rank leaf) →
  length sl < fuel + length path → desc sl s leaf →
  ∃ leaf' steps, descend_loop sl (length sl) fuel leaf (length path) = Ok (leaf', steps) ∧
    first_of sl leaf' = None ∧ desc sl s leaf' ∧ leaf' < length sl ∧ steps < length sl.
Proof.
  intros H. revert path leaf. induction fuel as [|fuel IH]; intros path leaf Hl Hnd Hpath Hfuel Hd;
    simpl in *.
  - assert (length (path ++ [leaf]) ≤ length sl) as Hle.
    { apply NoDup_bounded_length; [done|]. intros z [Hz|Hz]%elem_of_app; [by apply Hpath|].
      apply list_elem_of_singleton in Hz. by subst. }
    rewrite length_app in Hle. simpl in Hle. lia.
  - assert (length (path ++ [leaf]) ≤ length sl) as Hle.
    { apply NoDup_bounded_length; [done|]. intros z [Hz|Hz]%elem_of_app; [by apply Hpath|].
      apply list_elem_of_singleton in Hz. by subst. }
    rewrite length_app in Hle. simpl in Hle.
    destruct (lookup_lt_is_Some_2 _ _ Hl) as [z Hz]. rewrite Hz.
    destruct (Mdb.first_child (CapSlot.mdb z)) as [c|] eqn:Hfc.
    + assert (first_of sl leaf = Some c) as Hf by (unfold first_of, view; by rewrite Hz).
      rewrite (cdt_first _ _ _ H) in Hf. apply head_elem in Hf.
      pose proof (cdt_kid_lt H _ _ Hf) as Hcl. apply (cdt_parent _ _ _ H) in Hf.
      pose proof (cdt_rank _ _ _ H _ _ Hf) as Hr.
      rewrite decide_False by lia.
      destruct (IH (path ++ [leaf]) c) as (leaf' & steps & E & ?).
      * done.
      * apply NoDup_app. split_and!; [done| |apply NoDup_singleton].
        intros y Hy Hyc. apply list_elem_of_singleton in Hyc as ->.
        apply elem_of_app in Hy as [Hy|Hy].
        -- apply Hpath in Hy. lia.
        -- apply list_elem_of_singleton in Hy. subst. lia.
      * intros y Hy. apply elem_of_app in Hy as [Hy|Hy]; [apply Hpath in Hy; split; [tauto|lia]|].
        apply list_elem_of_singleton in Hy. by subst.
      * rewrite length_app. simpl. lia.
      * by eapply desc_below.
      * exists leaf', steps. rewrite length_app in E. simpl in E.
        replace (length path + 1) with (S (length path)) in E by lia. done.
    + exists leaf, (length path). split_and!; try done; [|lia]. unfold first_of, view. by rewrite Hz.
Qed.

Lemma descend_to_leaf_spec sl kids rank s child :
  cdt sl kids rank → first_of sl s = Some child →
  ∃ leaf steps, descend_to_leaf sl child (length sl) = Ok (leaf, steps) ∧
    first_of sl leaf = None ∧ desc sl s leaf ∧ leaf < length sl ∧ steps < length sl.
Proof.
  intros H Hf. rewrite (cdt_first _ _ _ H) in Hf. apply head_elem in Hf.
  pose proof (cdt_kid_lt H _ _ Hf) as Hcl. apply (cdt_parent _ _ _ H) in Hf.
  destruct (descend_loop_spec sl kids rank s (S (length sl)) [] child) as (leaf & steps & E & ?);
    try done.
  - simpl. apply NoDup_singleton.
  - by intros z ?%elem_of_nil.
  - simpl. lia.
  - by apply desc_kid.
  - exists leaf, steps. done.
Qed.

(** ** Revocation *)

(** The content of a released slot. *)
Definition released (s : CapSlot.t) : CapSlot.t :=
  CapSlot.with_gen (wrapping_add 32 (CapSlot.gen s) 1) CapSlot.EMPTY.

(** [c'] is [c] with exactly the descendants of [s] released. *)
Record revoked (s : nat) (c c' : t) : Prop := {
  rv_gone : ∀ j x, desc (slots c) s j → core_of (slots c) j = Some x →
    core_of (slots c') j = Some (released x);
  rv_core : ∀ j, ¬ desc (slots c) s j → core_of (slots c') j = core_of (slots c) j;
  rv_parent : ∀ j, ¬ desc (slots c) s j → parent_of (slots c') j = parent_of (slots c) j;
  rv_childless : first_of (slots c') s = None;
  rv_overruns : cdt_walk_overruns c' = cdt_walk_overruns c }.

Lemma inv_same_tables c c' : same_tables c c' → inv c → inv c'.
Proof. intros (Hs & Ho & _) [H1 H2 H3]. split; by rewrite ?Hs, ?Ho. Qed.

Lemma note_walk_same n c : same_tables c (if decide (peak_cdt_walk c < n) then with_peak_cdt_walk n c else c).
Proof. unfold same_tables. by case_decide. Qed.

Lemma used_slots_deleted x s o st st' :
  leaf_deleted x s o st st' → slots st.1.1 !! x = Some s → CapSlot.used s = true →
  S (used_slots st'.1.1) = used_slots st.1.1.
Proof.
  intros H Hx Hu. unfold used_slots.
  assert (core <$> slots st'.1.1 = core <$> alter (λ s, released s) x (slots st.1.1)) as Heq.
  { apply list_eq. intros j. rewrite !list_lookup_fmap. pose proof (ld_core _ _ _ _ _ H j) as Hc.
    unfold core_of in Hc. rewrite Hc, lookup_alter_if. case_decide; [subst j; by rewrite Hx|].
    by destruct (slots st.1.1 !! j). }
  assert (∀ l, count_if CapSlot.used l = count_if CapSlot.used (core <$> l)) as Hcore.
  { induction l as [|y l IH]; [done|]. rewrite fmap_cons, !count_if_cons, IH. done. }
  rewrite (Hcore (slots st'.1.1)), Heq, <-Hcore.
  pose proof (count_if_alter CapSlot.used released (slots st.1.1) x s Hx) as Hc.
  rewrite Hu in Hc. simpl in Hc. change (λ s, released s) with released. lia.
Qed.

Section revoke.
(** Anything that the deletion of a capability preserves which is not the last
    one to its object, a revocation preserves: the revoked capability itself
    keeps the object of all its descendants alive. *)
Context (I : St → Prop).
Hypothesis I_del : ∀ c a f x s o st', inv c → slots c !! x = Some s → CapSlot.used s = true →
  objects c !! CapSlot.object s = Some o → Object.used o = true →
  Object.refcount o = Z.of_nat (refs (slots c) (CapSlot.object s)) →
  1 < refs (slots c) (CapSlot.object s) →
  leaf_deleted x s o (c, a, f) st' → inv st'.1.1 → I (c, a, f) → I st'.
Hypothesis I_same : ∀ c c' a f, same_tables c c' → I (c, a, f) → I (c', a, f).

Lemma revoke_loop_spec fuel s x ops c a f :
  inv c → slots c !! s = Some x → CapSlot.used x = true →
  ops + used_slots c ≤ length (slots c) → used_slots c ≤ fuel → I (c, a, f) →
  wp (revoke_loop (length (slots c)) fuel s ops) (c, a, f) (λ ops' st',
    inv st'.1.1 ∧ revoked s c st'.1.1 ∧ I st' ∧ ops' ≤ length (slots c)).
Proof using I_del I_same.
  revert ops c a f x. induction fuel as [|fuel IH]; intros ops c a f x Hinv Hs Hu Hops Hfuel HI.
  { pose proof (count_if_pos CapSlot.used (slots c)) as Hp. unfold used_slots in *.
    assert (0 < count_if CapSlot.used (slots c)) by (apply Hp; eauto). lia. }
  pose proof Hinv as [(kids & rank & Hcdt) Hob Hwin].
  cbn [revoke_loop]. apply wp_bind, wp_on_space. eapply wp_slot_at; [done|].
  destruct (Mdb.first_child (CapSlot.mdb x)) as [child|] eqn:Hfc.
  2:{ apply wp_ret. assert (first_of (slots c) s = None) as Hf by (unfold first_of, view; by rewrite Hs).
      split_and!; [done| |done|lia]. split; try done. intros j y Hd. by eapply desc_first in Hd. }
  assert (first_of (slots c) s = Some child) as Hf by (unfold first_of, view; by rewrite Hs).
  destruct (descend_to_leaf_spec _ _ _ s child Hcdt Hf) as (leaf & steps & Hdl & Hlf & Hdesc & Hll & _).
  apply wp_bind, wp_on_space, wp_gets. rewrite Hdl.
  apply wp_bind, wp_on_space. unfold note_walk. apply wp_modify.
  set (c1 := if decide (peak_cdt_walk c < steps) then with_peak_cdt_walk steps c else c).
  pose proof (note_walk_same steps c : same_tables c c1) as Hsame.
  assert (inv c1) as Hinv1 by (by eapply inv_same_tables).
  destruct Hsame as (Es & Eo & Ev) eqn:Hse. clear Hse. clearbody c1.
  destruct (desc_parent _ _ _ Hdesc) as (par & Hpar).
  destruct (cdt_derives _ _ _ Hcdt _ _ Hpar) as (y & ? & Hy & _ & Huy & _).
  apply core_of_Some in Hy as (y0 & Hy0 & <-). change (CapSlot.used y0 = true) in Huy.
  assert (leaf ≠ s) as Hls by (intros ->; apply (desc_rank _ _ _ _ _ Hcdt) in Hdesc; lia).
  apply wp_bind. eapply wp_mono; [apply (delete_leaf_spec c1 a f leaf y0); rewrite ?Es; done|].
  intros [] st2 (Hinv2 & o & Ho & Huo & Hrc & Hld). rewrite Eo in Ho. rewrite Es in Hrc.
  assert (1 < refs (slots c) (CapSlot.object y0)) as Hrefs2.
  { destruct (desc_derives _ _ _ _ _ Hcdt Hdesc) as (si & sj & Hsi & Hsj & (_ & _ & Hoo & _)).
    assert (sj = y0) as -> by congruence. assert (si = x) as -> by congruence.
    by apply (refs_two (slots c) leaf s y0 x). }
  assert (I st2) as HI2.
  { eapply (I_del c1 a f leaf y0 o); rewrite ?Es, ?Eo; try done. eapply I_same; [|done].
    by split. }
  pose proof (used_slots_deleted _ _ _ _ _ Hld) as Hus. simpl in Hus. rewrite Es in Hus.
  specialize (Hus Hy0 Huy).
  assert (used_slots c1 = used_slots c) as Hu1 by (unfold used_slots; by rewrite Es).
  destruct Hld as [Lc Lp _ _ _ Lov]. simpl in Lc, Lp, Lov. rewrite Es in Lc, Lp.
  destruct st2 as [[c2 a2] f2]. simpl in *.
  assert (length (slots c2) = length (slots c)) as Hlen2.
  { assert (∀ j, j < length (slots c2) ↔ j < length (slots c)) as Hj.
    { intros j. rewrite <-!lookup_lt_is_Some. specialize (Lc j). unfold core_of in Lc.
      destruct (decide (leaf = j)) as [<-|].
      - rewrite Hy0. destruct (slots c2 !! leaf); [|done]. split; eauto.
      - destruct (slots c2 !! j), (slots c !! j); simpl in Lc; try done; split; intros [? ?]; eauto. }
    destruct (Nat.lt_trichotomy (length (slots c)) (length (slots c2))) as [Hlt|[?|Hlt]]; [|done|];
      [specialize (Hj (length (slots c)))|specialize (Hj (length (slots c2)))]; lia. }
  rewrite decide_False by lia.
  assert (∃ x2, slots c2 !! s = Some x2 ∧ CapSlot.used x2 = true) as (x2 & Hx2 & Hux2).
  { specialize (Lc s). rewrite decide_False in Lc by done. rewrite (core_of_lookup _ _ _ Hs) in Lc.
    apply core_of_Some in Lc as (x2 & Hx2 & Hcx). exists x2. split; [done|].
    change (CapSlot.used (core x2) = true). by rewrite Hcx. }
  rewrite <-Hlen2. eapply wp_mono; [eapply (IH (S ops) c2 a2 f2 x2); try done; lia|].
  intros ops' [[c3 a3] f3] (Hinv3 & [Rg Rc Rp Rch Rov] & HI3 & Hops3). simpl in *.
  split_and!; [done| |done|lia].
  assert (∀ j, parent_of (slots c) j ≠ Some leaf) as Hnol.
  { intros j Hj%(cdt_parent _ _ _ Hcdt). rewrite (cdt_first _ _ _ Hcdt) in Hlf.
    destruct (kids leaf); [by apply elem_of_nil in Hj|done]. }
  pose proof (desc_remove (slots c) (slots c2) s leaf Lp Hnol) as Hdr.
  split; [| | |done|congruence].
  - intros j z Hj Hz. destruct (decide (leaf = j)) as [<-|Hne].
    + rewrite Rc by (rewrite Hdr; tauto). rewrite Lc, decide_True by done.
      rewrite (core_of_lookup _ _ _ Hy0) in Hz. by simplify_eq.
    + apply Rg; [apply Hdr; split; [done|congruence]|]. by rewrite Lc, decide_False.
  - intros j Hj. rewrite Rc by (rewrite Hdr; tauto). rewrite Lc, decide_False; [done|]. by intros ->.
  - intros j Hj. rewrite Rp by (rewrite Hdr; tauto). rewrite Lp, decide_False; [done|]. by intros ->.
Qed.

Lemma revoke_spec c a f p :
  inv c → I (c, a, f) →
  wp (revoke p) (c, a, f) (λ r st', inv st'.1.1 ∧ I st' ∧
    match resolve_in c p with
    | Err e => r = Err e ∧ st' = (c, a, f)
    | Ok s => r = Ok tt ∧ revoked s c st'.1.1
    end).
Proof using I_del I_same.
  intros Hinv HI. unfold revoke. apply wp_try, wp_on_space, wp_gets.
  destruct (resolve_in c p) as [s|e] eqn:Hres; [|done].
  apply resolve_in_Ok in Hres as (-> & x & Hs & Hu & _).
  apply wp_bind, wp_on_space, wp_gets. unfold cdt_step_limit.
  assert (used_slots c ≤ length (slots c)) by apply count_if_length.
  apply wp_bind. eapply wp_mono; [eapply revoke_loop_spec; try done; lia|].
  intros ops [[c1 a1] f1] (Hinv1 & [Rg Rc Rp Rch Rov] & HI1 & _). simpl in *.
  apply wp_bind, wp_on_space, wp_modify, wp_ret. simpl.
  set (c2 := if decide _ then _ else _).
  assert (same_tables c1 c2) as Hsame by (unfold same_tables, c2; by case_decide).
  split_and!; [by eapply inv_same_tables|by eapply I_same|done|].
  destruct Hsame as (E1 & E2 & E3). split; rewrite ?E1, ?E3; done.
Qed.
End revoke.

Lemma delete_spec c a f p :
  inv c →
  wp (delete p) (c, a, f) (λ r st', inv st'.1.1 ∧
    match resolve_in c p with
    | Err e => r = Err e ∧ st' = (c, a, f)
    | Ok x => ∃ s o, slots c !! x = Some s ∧ objects c !! CapSlot.object s = Some o ∧
        Object.used o = true ∧ Object.refcount o = Z.of_nat (refs (slots c) (CapSlot.object s)) ∧
        match first_of (slots c) x with
        | Some _ => r = Err HasChildren ∧ st' = (c, a, f)
        | None => r = Ok tt ∧ leaf_deleted x s o (c, a, f) st'
        end
    end).
Proof.
  intros Hinv. unfold delete. apply wp_try, wp_on_space, wp_gets.
  destruct (resolve_in c p) as [x|e] eqn:Hres; [|done].
  apply resolve_in_Ok in Hres as (-> & s & Hs & Hu & _).
  destruct (ob_of_slot _ _ _ _ (inv_objects _ Hinv) Hs Hu) as (o & Ho & Huo & Hrc).
  apply wp_bind, wp_on_space. eapply wp_slot_at; [done|].
  destruct (Mdb.first_child (CapSlot.mdb s)) as [ch|] eqn:Hfc.
  - apply wp_ret. split; [done|]. exists s, o. split_and!; try done.
    unfold first_of, view. rewrite Hs. simpl. by rewrite Hfc.
  - assert (first_of (slots c) (CapPtr.slot p) = None) as Hf by (unfold first_of, view; by rewrite Hs).
    apply wp_bind. eapply wp_mono; [by apply delete_leaf_spec|].
    intros [] st' (Hinv' & o' & Ho' & Huo' & Hrc' & Hld). simplify_eq. apply wp_ret.
    split; [done|]. exists s, o. rewrite Hf. done.
Qed.
