(* ===== verification/CapAudit.v ===== *)
(** * The audit of the capability space

    [audit_cdt] of [crates/caprock-cap/src/space.rs], the read-only oracle the
    kernel runs over the slot and object tables: code 0 for a consistent space,
    otherwise the first anomaly found.  [None] is a panic (an index out of the
    table, which a corrupted link can cause).  Every space of the invariant
    passes the audit.  *)

From S2P Require Import Prelude PanicMonad Dll Region PhysAlloc CapObject CapSpace CapInv CapOps CapDelete.
Import CapSpace.

(** The counting loop: [None] is [return 1]. *)
Fixpoint audit_refs (ob : list Object.t) (sl : list CapSlot.t) (refs : list Z) : option (list Z) :=
  match sl with
  | [] => Some refs
  | s :: sl =>
      if negb (CapSlot.used s) then audit_refs ob sl refs
      else
        match ob !! CapSlot.object s with
        | Some o =>
            if Object.used o
            then audit_refs ob sl (alter (λ n, wrapping_add 32 n 1) (CapSlot.object s) refs)
            else None
        | None => None
        end
  end.

(** The loop over the objects: the code it returns, 0 for none. *)
Fixpoint audit_objects (ob : list Object.t) (refs : list Z) : Z :=
  match ob, refs with
  | o :: ob, n :: refs =>
      if Object.used o then
        if negb (Object.refcount o =? n)%Z then 2%Z
        else if (n =? 0)%Z then 3%Z else audit_objects ob refs
      else if negb (n =? 0)%Z then 3%Z else audit_objects ob refs
  | _, _ => 0%Z
  end.

(** The search for [s] among the children of its parent, from [c] on: 0 found,
    4 not found, 7 too many steps. *)
Fixpoint audit_search (sl : list CapSlot.t) (limit fuel s steps : nat) (c : option nat) : option Z :=
  match c with
  | None => Some 4%Z
  | Some ci =>
      if decide (ci = s) then Some 0%Z
      else
        match sl !! ci, fuel with
        | Some x, S fuel =>
            if decide (limit < S steps) then Some 7%Z
            else audit_search sl limit fuel s (S steps) (Mdb.next_sibling (CapSlot.mdb x))
        | _, _ => None
        end
  end.

(** One iteration of the loop over the links. *)
Definition audit_link (sl : list CapSlot.t) (limit s : nat) : option Z :=
  match sl !! s with
  | None => None
  | Some x =>
      if negb (CapSlot.used x) then Some 0%Z
      else
        let m := CapSlot.mdb x in
        code ← match Mdb.parent m with
               | None => Some 0%Z
               | Some p =>
                   match sl !! p with
                   | Some y =>
                       if negb (CapSlot.used y) || negb (bool_decide (CapSlot.object y = CapSlot.object x))
                       then Some 4%Z
                       else audit_search sl limit (S limit) s 0 (Mdb.first_child (CapSlot.mdb y))
                   | None => Some 4%Z
                   end
               end;
        if negb (code =? 0)%Z then Some code
        else if match Mdb.first_child m with
                | None => false
                | Some c =>
                    match sl !! c with
                    | Some y => negb (CapSlot.used y) ||
                                negb (bool_decide (Mdb.parent (CapSlot.mdb y) = Some s)) ||
                                bool_decide (is_Some (Mdb.prev_sibling (CapSlot.mdb y)))
                    | None => true
                    end
                end then Some 6%Z
        else if match Mdb.next_sibling m with
                | None => false
                | Some n =>
                    match sl !! n with
                    | Some y => negb (CapSlot.used y) ||
                                negb (bool_decide (Mdb.prev_sibling (CapSlot.mdb y) = Some s)) ||
                                negb (bool_decide (Mdb.parent (CapSlot.mdb y) = Mdb.parent m))
                    | None => true
                    end
                end then Some 5%Z
        else if match Mdb.prev_sibling m with
                | None => false
                | Some pv =>
                    match sl !! pv with
                    | Some y => negb (CapSlot.used y) ||
                                negb (bool_decide (Mdb.next_sibling (CapSlot.mdb y) = Some s))
                    | None => true
                    end
                end then Some 5%Z
        else Some 0%Z
  end.

(** The walk up the parents. *)
Fixpoint audit_up (sl : list CapSlot.t) (limit fuel steps : nat) (p : option nat) : option Z :=
  match p with
  | None => Some 0%Z
  | Some pi =>
      if decide (limit < S steps) then Some 7%Z
      else
        match sl !! pi, fuel with
        | Some y, S fuel => audit_up sl limit fuel (S steps) (Mdb.parent (CapSlot.mdb y))
        | _, _ => None
        end
  end.

Definition audit_chain (sl : list CapSlot.t) (limit s : nat) : option Z :=
  match sl !! s with
  | None => None
  | Some x =>
      if negb (CapSlot.used x) then Some 0%Z
      else audit_up sl limit (S limit) 0 (Mdb.parent (CapSlot.mdb x))
  end.

(** [for s in 0..nslots { .. return code .. }] *)
Fixpoint audit_each (f : nat → option Z) (l : list nat) : option Z :=
  match l with
  | [] => Some 0%Z
  | s :: l =>
      match f s with
      | None => None
      | Some code => if (code =? 0)%Z then audit_each f l else Some code
      end
  end.

Definition audit_cdt (c : t) (refs_len : nat) : option Z :=
  let nslots := length (slots c) in
  let nobjects := length (objects c) in
  let limit := cdt_step_limit c in
  if decide (refs_len < nobjects) then Some 8%Z
  else
    match audit_refs (objects c) (slots c) (replicate nobjects 0%Z) with
    | None => Some 1%Z
    | Some refs =>
        let code := audit_objects (objects c) refs in
        if negb (code =? 0)%Z then Some code
        else
          code ← audit_each (audit_link (slots c) limit) (seq 0 nslots);
          if negb (code =? 0)%Z then Some code
          else audit_each (audit_chain (slots c) limit) (seq 0 nslots)
    end.

(** ** The audit of a well-formed space *)

Lemma audit_each_zero f l : (∀ s, s ∈ l → f s = Some 0%Z) → audit_each f l = Some 0%Z.
Proof.
  induction l as [|s l IH]; simpl; [done|]. intros H. rewrite H by set_solver. simpl.
  apply IH. intros. apply H. set_solver.
Qed.

Lemma audit_refs_spec ob sl rs :
  (∀ s, s ∈ sl → CapSlot.used s = true → ∃ o, ob !! CapSlot.object s = Some o ∧ Object.used o = true) →
  (∀ i n, rs !! i = Some n → (0 <= n)%Z ∧ (n + Z.of_nat (length sl) < 2 ^ 32)%Z) →
  ∃ rs', audit_refs ob sl rs = Some rs' ∧
    ∀ i, rs' !! i = (λ n, (n + Z.of_nat (refs sl i))%Z) <$> rs !! i.
Proof.
  revert rs. induction sl as [|s sl IH]; intros rs Hob Hrs; simpl.
  - exists rs. split; [done|]. intros i. destruct (rs !! i); simpl; [|done].
    f_equal. unfold refs, count_if. simpl. lia.
  - destruct (CapSlot.used s) eqn:Hu; simpl.
    + destruct (Hob s) as (o & -> & ->); [set_solver|done|].
      destruct (IH (alter (λ n, wrapping_add 32 n 1) (CapSlot.object s) rs)) as (rs' & -> & Hrs').
      { intros x Hx. apply Hob. set_solver. }
      { intros i n [(<- & y & Hy & ->)|(Hne & Hi)]%lookup_alter_inv.
        - destruct (Hrs _ _ Hy) as [? Hlt]. simpl in Hlt.
          rewrite wrapping_add_exact by (unfold in_width; lia). lia.
        - destruct (Hrs _ _ Hi) as [? Hlt]. simpl in Hlt. lia. }
      exists rs'. split; [done|]. intros i. rewrite Hrs', lookup_alter_if.
      unfold refs. rewrite count_if_cons. fold (refs sl i).
      unfold designates. rewrite Hu. simpl. destruct (rs !! i) as [n|] eqn:Hi; simpl; [|done].
      destruct (Hrs _ _ Hi) as [? Hlt]. simpl in Hlt. f_equal.
      destruct (decide (CapSlot.object s = i)) as [->|]; simpl.
      * rewrite bool_decide_true by done. rewrite wrapping_add_exact by (unfold in_width; lia). lia.
      * rewrite bool_decide_false by done. lia.
    + destruct (IH rs) as (rs' & -> & Hrs').
      { intros x Hx. apply Hob. set_solver. }
      { intros i n Hi. destruct (Hrs _ _ Hi) as [? Hlt]. simpl in Hlt. lia. }
      exists rs'. split; [done|]. intros i. rewrite Hrs'. unfold refs. rewrite count_if_cons.
      unfold designates at 2. by rewrite Hu.
Qed.

Lemma audit_objects_zero ob rs :
  length rs = length ob →
  (∀ i o n, ob !! i = Some o → rs !! i = Some n →
     if Object.used o then Object.refcount o = n ∧ n ≠ 0%Z else n = 0%Z) →
  audit_objects ob rs = 0%Z.
Proof.
  revert rs. induction ob as [|o ob IH]; intros [|n rs] Hlen H; simpl in *; try done.
  specialize (IH rs ltac:(lia) (λ i, H (S i))). specialize (H 0 o n eq_refl eq_refl).
  destruct (Object.used o).
  - destruct H as [-> Hn]. rewrite Z.eqb_refl. apply Z.eqb_neq in Hn. by rewrite Hn.
  - subst n. done.
Qed.

Section audit.
Context {sl : list CapSlot.t} {kids : nat → list nat} {rank : nat → nat}.
Hypothesis H : cdt sl kids rank.

Lemma audit_search_zero s p l1 l2 fuel :
  kids p = l1 ++ l2 → s ∈ l2 → length l2 ≤ fuel →
  audit_search sl (length sl) fuel s (length l1) (head l2) = Some 0%Z.
Proof using H.
  assert (length (kids p) ≤ length sl) as Hkl.
  { eapply dll_bounded; [apply (cdt_dll _ _ _ H p)|]. intros z. apply (cdt_kid_lt H). }
  revert l1 fuel. induction l2 as [|x l2 IH]; intros l1 fuel Hk Hs Hf; [by apply elem_of_nil in Hs|].
  destruct fuel as [|fuel]; simpl in *; [lia|].
  destruct (decide (x = s)) as [|Hne]; [done|].
  assert (x < length sl) as [y Hy]%lookup_lt_is_Some_2 by (apply (cdt_kid_lt H p); rewrite Hk; set_solver).
  rewrite Hy. rewrite Hk, length_app in Hkl. simpl in Hkl. rewrite decide_False by lia.
  pose proof (cdt_dll _ _ _ H p) as Hd. rewrite Hk in Hd. apply dll_split in Hd as [_ Hn].
  unfold next_of, view in Hn. rewrite Hy in Hn. simpl in Hn. rewrite Hn.
  replace (S (length l1)) with (length (l1 ++ [x])) by (rewrite length_app; simpl; lia).
  apply IH; [by rewrite <-app_assoc|set_solver|lia].
Qed.

Lemma audit_link_zero s x : sl !! s = Some x → audit_link sl (length sl) s = Some 0%Z.
Proof using H.
  intros Hs. unfold audit_link. rewrite Hs. destruct (CapSlot.used x) eqn:Hu; [|done]. cbn [negb].
  assert (parent_of sl s = Mdb.parent (CapSlot.mdb x) ∧ first_of sl s = Mdb.first_child (CapSlot.mdb x) ∧
    next_of sl s = Mdb.next_sibling (CapSlot.mdb x) ∧ prev_of sl s = Mdb.prev_sibling (CapSlot.mdb x))
    as (Ep & Ef & En & Ev).
  { unfold parent_of, first_of, next_of, prev_of, view. by rewrite Hs. }
  assert (∀ z y, sl !! z = Some y → parent_of sl z = Mdb.parent (CapSlot.mdb y) ∧
    next_of sl z = Mdb.next_sibling (CapSlot.mdb y) ∧ prev_of sl z = Mdb.prev_sibling (CapSlot.mdb y)) as Hv.
  { intros z y Hz. unfold parent_of, next_of, prev_of, view. by rewrite Hz. }
  assert (∀ z q, parent_of sl z = Some q → ∃ y, sl !! z = Some y ∧ CapSlot.used y = true) as Hused.
  { intros z q Hz. destruct (cdt_derives _ _ _ H _ _ Hz) as (y & _ & Hy & _ & Huy & _).
    apply core_of_Some in Hy as (y0 & Hy0 & <-). by exists y0. }
  rewrite <-Ep, <-Ef, <-En, <-Ev.
  assert (match parent_of sl s with
          | None => Some 0%Z
          | Some p => match sl !! p with
                      | Some y => if negb (CapSlot.used y) || negb (bool_decide (CapSlot.object y = CapSlot.object x))
                                  then Some 4%Z
                                  else audit_search sl (length sl) (S (length sl)) s 0 (Mdb.first_child (CapSlot.mdb y))
                      | None => Some 4%Z end end = Some 0%Z) as ->.
  { destruct (parent_of sl s) as [p|] eqn:Hp; [|done].
    destruct (cdt_derives _ _ _ H _ _ Hp) as (a & b & Ha & Hb & (_ & Hub & Hob & _)).
    apply core_of_Some in Hb as (y & Hy & <-). rewrite (core_of_lookup _ _ _ Hs) in Ha. simplify_eq.
    rewrite Hy. change (CapSlot.used y = true) in Hub. rewrite Hub. cbn [negb orb].
    change (CapSlot.object x = CapSlot.object y) in Hob. rewrite bool_decide_true by done. cbn [negb].
    assert (Mdb.first_child (CapSlot.mdb y) = head (kids p)) as ->.
    { rewrite <-(cdt_first _ _ _ H). unfold first_of, view. by rewrite Hy. }
    apply (audit_search_zero s p [] (kids p)); [done|by apply (cdt_parent _ _ _ H)|].
    apply Nat.le_le_succ_r. eapply dll_bounded; [apply (cdt_dll _ _ _ H p)|]. intros z. apply (cdt_kid_lt H). }
  simpl. rewrite (cdt_first _ _ _ H).
  assert (match head (kids s) with
          | None => false
          | Some c => match sl !! c with
              | Some y => negb (CapSlot.used y) || negb (bool_decide (Mdb.parent (CapSlot.mdb y) = Some s)) ||
                          bool_decide (is_Some (Mdb.prev_sibling (CapSlot.mdb y)))
              | None => true end end = false) as ->.
  { destruct (head (kids s)) as [c|] eqn:Hc; [|done].
    pose proof (dll_head _ _ _ _ (cdt_dll _ _ _ H s) Hc) as Hpv.
    apply head_elem, (cdt_parent _ _ _ H) in Hc. destruct (Hused _ _ Hc) as (y & Hy & Huy).
    rewrite Hy, Huy. destruct (Hv _ _ Hy) as (<- & _ & <-). rewrite Hpv, Hc. simpl.
    rewrite bool_decide_true by done. done. }
  destruct (next_of sl s) as [n|] eqn:Hn.
  - destruct (cdt_sibling H s n) as (q & Hq & Hqn); [by left|].
    destruct (Hused _ _ Hqn) as (y & Hy & Huy). rewrite Hy, Huy.
    destruct (Hv _ _ Hy) as (<- & _ & <-). rewrite Hqn, Hq.
    destruct (dll_nxt_elem _ _ _ s n (cdt_dll _ _ _ H q)) as [_ ->]; [by apply (cdt_parent _ _ _ H)|done|].
    rewrite !bool_decide_true by done. simpl.
    destruct (prev_of sl s) as [pv|] eqn:Hpv; [|done].
    destruct (cdt_sibling H s pv) as (q' & Hq' & Hqp); [by right|].
    destruct (Hused _ _ Hqp) as (y' & Hy' & Huy'). rewrite Hy', Huy'.
    destruct (Hv _ _ Hy') as (_ & <- & _).
    destruct (dll_prv_elem _ _ _ s pv (cdt_dll _ _ _ H q')) as [_ ->]; [by apply (cdt_parent _ _ _ H)|done|].
    by rewrite bool_decide_true by done.
  - simpl. destruct (prev_of sl s) as [pv|] eqn:Hpv; [|done].
    destruct (cdt_sibling H s pv) as (q' & Hq' & Hqp); [by right|].
    destruct (Hused _ _ Hqp) as (y' & Hy' & Huy'). rewrite Hy', Huy'.
    destruct (Hv _ _ Hy') as (_ & <- & _).
    destruct (dll_prv_elem _ _ _ s pv (cdt_dll _ _ _ H q')) as [_ ->]; [by apply (cdt_parent _ _ _ H)|done|].
    by rewrite bool_decide_true by done.
Qed.

Lemma audit_up_zero z fuel path :
  NoDup (z :: path) → (∀ y, y ∈ z :: path → y < length sl) → (∀ y, y ∈ path → rank z < rank y) →
  length sl < fuel + length path →
  audit_up sl (length sl) fuel (length path) (parent_of sl z) = Some 0%Z.
Proof using H.
  revert z path. induction fuel as [|fuel IH]; intros z path Hnd Hlt Hr Hf.
  - apply NoDup_bounded_length with (n := length sl) in Hnd; [|done]. simpl in *. lia.
  - pose proof (NoDup_bounded_length _ _ Hnd Hlt) as Hle. simpl in Hle.
    destruct (parent_of sl z) as [p|] eqn:Hp; [|done]. simpl.
    rewrite decide_False by lia.
    pose proof (cdt_parent_lt H _ _ Hp) as Hpl. destruct (lookup_lt_is_Some_2 _ _ Hpl) as [y Hy].
    rewrite Hy. pose proof (cdt_rank _ _ _ H _ _ Hp) as Hrp.
    assert (Mdb.parent (CapSlot.mdb y) = parent_of sl p) as -> by (unfold parent_of, view; by rewrite Hy).
    change (S (length path)) with (length (z :: path)). apply IH.
    + apply NoDup_cons. split; [|done]. intros [->|Hin]%elem_of_cons; [lia|]. apply Hr in Hin. lia.
    + intros w [->|Hw]%elem_of_cons; [done|by apply Hlt].
    + intros w [->|Hw]%elem_of_cons; [done|]. apply Hr in Hw. lia.
    + simpl. lia.
Qed.

Lemma audit_chain_zero s x : sl !! s = Some x → audit_chain sl (length sl) s = Some 0%Z.
Proof using H.
  intros Hs. unfold audit_chain. rewrite Hs. destruct (CapSlot.used x); [|done]. cbn [negb].
  assert (Mdb.parent (CapSlot.mdb x) = parent_of sl s) as -> by (unfold parent_of, view; by rewrite Hs).
  apply (audit_up_zero s _ []).
  - apply NoDup_singleton.
  - intros y Hy. apply list_elem_of_singleton in Hy as ->. by eapply lookup_lt_Some.
  - by intros y ?%elem_of_nil.
  - simpl. lia.
Qed.
End audit.

Lemma audit_inv c n : inv c → finalize_capacity c ≤ n → audit_cdt c n = Some 0%Z.
Proof.
  intros [(kids & rank & Hcdt) Hob Hwin] Hn. unfold audit_cdt, finalize_capacity, cdt_step_limit in *.
  rewrite decide_False by lia.
  destruct (audit_refs_spec (objects c) (slots c) (replicate (length (objects c)) 0%Z)) as (rs & -> & Hrs).
  { intros s [i Hi]%list_elem_of_lookup_1 Hu.
    destruct (ob_of_slot _ _ _ _ Hob Hi Hu) as (o & Ho & Huo & _). eauto. }
  { intros i m Hi. apply lookup_replicate in Hi as [-> _]. pose proof (ob_width _ _ Hob). lia. }
  rewrite audit_objects_zero; [|..].
  - simpl. rewrite (audit_each_zero (audit_link (slots c) (length (slots c)))); [simpl|].
    + apply audit_each_zero. intros s Hs%elem_of_seq.
      destruct (lookup_lt_is_Some_2 (slots c) s) as [x Hx]; [lia|]. by eapply (audit_chain_zero Hcdt).
    + intros s Hs%elem_of_seq.
      destruct (lookup_lt_is_Some_2 (slots c) s) as [x Hx]; [lia|]. by eapply (audit_link_zero Hcdt).
  - assert (∀ i, is_Some (rs !! i) ↔ i < length (objects c)) as Hi.
    { intros i. rewrite Hrs, fmap_is_Some, lookup_lt_is_Some, length_replicate. done. }
    destruct (Nat.lt_trichotomy (length rs) (length (objects c))) as [Hlt|[?|Hlt]]; [|done|].
    + apply Hi, lookup_lt_is_Some in Hlt. lia.
    + assert (is_Some (rs !! length (objects c))) as Hs by (by apply lookup_lt_is_Some).
      apply Hi in Hs. lia.
  - intros i o m Ho Hm. rewrite Hrs in Hm. apply fmap_Some in Hm as (k & Hk & ->).
    apply lookup_replicate in Hk as [-> _]. destruct (Object.used o) eqn:Hu.
    + destruct (ob_used _ _ Hob _ _ Ho Hu). split; lia.
    + rewrite (ob_unused _ _ Hob _ _ Ho Hu). done.
Qed.
