(* ===== verification/CapSystem.v ===== *)
(** * The capability system over the allocator

    The kernel's capability operations as a transition system on the capability
    space and the physical allocator, and the invariant that ties the two
    together: the regions of the live memory objects are disjoint from one
    another and from the free list.  *)

From S2P Require Import Prelude PanicMonad Dll Region Color PhysAlloc PhysAllocSpec PhysAllocProps.
From S2P Require Import CapObject CapSpace CapInv CapOps CapDerive CapMove CapDelete CapAudit.
Import CapSpace.

(** ** Memory ownership *)

(** The region object [o] owns. *)
Definition mem_of (x : Object.t) : option PhysRegion.t :=
  if Object.used x then match Object.kind x with Memory r => Some r | _ => None end else None.
Definition live_mem (ob : list Object.t) (o : nat) : option PhysRegion.t := ob !! o ≫= mem_of.

Record mem_ok (ob : list Object.t) (a : PhysAllocator.t) : Prop := {
  mo_wf : wf a;
  mo_live : ∀ o r, live_mem ob o = Some r →
    region_ok r ∧ ∀ x, PhysRegion.inside r x → ¬ is_free a x;
  mo_disjoint : ∀ o o' r r', o ≠ o' → live_mem ob o = Some r → live_mem ob o' = Some r' →
    PhysRegion.disjoint r r' }.

Lemma mem_ok_ext ob ob' a : (∀ o, live_mem ob' o = live_mem ob o) → mem_ok ob a → mem_ok ob' a.
Proof.
  intros He [H1 H2 H3]. split; [done|..].
  - intros o r. rewrite He. apply H2.
  - intros o o' r r'. rewrite !He. apply H3.
Qed.

Lemma live_mem_Some ob o r :
  live_mem ob o = Some r ↔ ∃ x, ob !! o = Some x ∧ Object.used x = true ∧ Object.kind x = Memory r.
Proof.
  unfold live_mem, mem_of. destruct (ob !! o) as [x|]; simpl.
  - destruct (Object.used x) eqn:Hu.
    + split.
      * destruct (Object.kind x) eqn:Hk; try done. intros [= ->]. eauto.
      * intros (y & [= <-] & _ & ->). done.
    + split; [done|]. intros (y & [= <-] & ? & _). congruence.
  - split; [done|]. by intros (y & ? & _).
Qed.

Lemma live_mem_alter ob h i o :
  live_mem (alter h i ob) o = if decide (i = o) then ob !! o ≫= (mem_of ∘ h) else live_mem ob o.
Proof.
  unfold live_mem. rewrite lookup_alter_if. case_decide; [|by destruct (ob !! o)].
  by destruct (ob !! o).
Qed.

Lemma live_mem_alter_same ob h i o :
  (∀ x, ob !! i = Some x → mem_of (h x) = mem_of x) → live_mem (alter h i ob) o = live_mem ob o.
Proof.
  intros Hh. rewrite live_mem_alter. case_decide; [subst o|done]. unfold live_mem.
  destruct (ob !! i) as [x|]; simpl; [by apply Hh|done].
Qed.

(** A freed object's region goes back to the allocator. *)
Lemma mem_ok_finalize ob a i x k :
  mem_ok ob a → ob !! i = Some x → Object.used x = true → Object.kind x = k →
  mem_ok (alter (λ o, Object.with_gen (wrapping_add 32 (Object.gen o) 1) Object.EMPTY) i ob)
         (final_alloc k a).
Proof.
  intros [Hwf Hlive Hdisj] Hi Hu Hk.
  set (h := λ o, Object.with_gen (wrapping_add 32 (Object.gen o) 1) Object.EMPTY).
  assert (∀ o, live_mem (alter h i ob) o = if decide (i = o) then None else live_mem ob o) as Hl.
  { intros o. rewrite live_mem_alter. case_decide; [subst o; by rewrite Hi|done]. }
  assert (mem_ok (alter h i ob) a) as Hsame.
  { split; [done|..].
    - intros o r. rewrite Hl. case_decide; [done|]. apply Hlive.
    - intros o o' r r'. rewrite !Hl. repeat case_decide; try done. apply Hdisj. }
  destruct k as [r| | | | | | | | | | | | |]; try exact Hsame. simpl.
  assert (live_mem ob i = Some r) as Hir
    by (unfold live_mem, mem_of; rewrite Hi; simpl; by rewrite Hu, Hk).
  destruct (Hlive _ _ Hir) as [Hrok Hnf].
  pose proof (insert_spec r a Hwf Hrok Hnf) as Hins. unfold PhysAllocator.free_region.
  destruct (PhysAllocator.insert r a) as [ok a'] eqn:E. simpl.
  destruct Hins as (Hwf' & _ & Hok & Hfail & _). split; [done| |].
  - intros o r' Ho. destruct (mo_live _ _ Hsame _ _ Ho) as [Hr' Hnf']. split; [done|].
    rewrite Hl in Ho. destruct (decide (i = o)) as [|n]; [done|]. intros x' Hx' Hfree. destruct ok.
    + destruct Hok as [Hok _]; [done|]. apply Hok in Hfree as [Hin|Hfree]; [|by eapply Hnf'].
      exact (Hdisj i o r r' n Hir Ho x' Hin Hx').
    + rewrite (Hfail eq_refl) in Hfree. by eapply Hnf'.
  - apply (mo_disjoint _ _ Hsame).
Qed.

Lemma mem_ok_deleted x s o c a f st' :
  leaf_deleted x s o (c, a, f) st' → objects c !! CapSlot.object s = Some o →
  Object.used o = true → mem_ok (objects c) a → mem_ok (objects st'.1.1) st'.1.2.
Proof.
  intros [_ _ Lo La _ _] Ho Hu Hm. rewrite Lo, La. cbn [fst snd]. case_decide.
  - by eapply mem_ok_finalize.
  - eapply mem_ok_ext; [|done]. intros i. by apply live_mem_alter_same.
Qed.

Lemma mem_ok_child_added c c' s d new a :
  child_added c c' s d new → mem_ok (objects c) a → mem_ok (objects c') a.
Proof.
  intros [_ _ -> _] Hm. eapply mem_ok_ext; [|done]. intros i. by apply live_mem_alter_same.
Qed.

(** Installing an object that owns [m]. *)
Lemma mem_ok_install ob a i o kind :
  mem_ok ob a → ob !! i = Some o → Object.used o = false →
  (∀ r, kind = Memory r → region_ok r ∧ (∀ x, PhysRegion.inside r x → ¬ is_free a x) ∧
     ∀ o' r', live_mem ob o' = Some r' → PhysRegion.disjoint r r') →
  mem_ok (alter (λ o, Object.mk true kind 1 (Object.gen o)) i ob) a.
Proof.
  intros [Hwf Hlive Hdisj] Hi Hu Hk.
  set (h := λ o, Object.mk true kind 1 (Object.gen o)).
  assert (∀ j r, live_mem (alter h i ob) j = Some r →
    (j = i ∧ kind = Memory r) ∨ (j ≠ i ∧ live_mem ob j = Some r)) as Hl.
  { intros j r. rewrite live_mem_alter. case_decide; [subst j; rewrite Hi; simpl|by right].
    unfold mem_of. simpl. destruct kind; try done. intros [= ->]. by left. }
  split; [done|..].
  - intros j r [(-> & ->)|(_ & Hj)]%Hl; [|exact (Hlive _ _ Hj)]. destruct (Hk r eq_refl) as (?&?&_). done.
  - intros j j' r r' Hne Hj Hj' y Hy Hy'.
    apply Hl in Hj as [(-> & ->)|(_ & Hj)]; apply Hl in Hj' as [(-> & Hk')|(_ & Hj')].
    + done.
    + destruct (Hk r eq_refl) as (_ & _ & Hd). exact (Hd _ _ Hj' y Hy Hy').
    + subst kind. destruct (Hk r' eq_refl) as (_ & _ & Hd). exact (Hd _ _ Hj y Hy' Hy).
    + exact (Hdisj j j' r r' Hne Hj Hj' y Hy Hy').
Qed.

(** ** The transition system *)

Record Sys := mk_sys { space : CapSpace.t; alloc : PhysAllocator.t }.

Inductive op :=
| OpInstall (k : ObjectKind) (r : Rights.t)
| OpAllocInstall (size align lo hi : Z)
| OpCopy (p : CapPtr.t) (r : Rights.t)
| OpMint (p : CapPtr.t) (r : Rights.t) (badge : Z)
| OpSubregion (p : CapPtr.t) (offset len : Z) (r : Rights.t)
| OpMove (p : CapPtr.t)
| OpDelete (p : CapPtr.t) (f : Finalized.t)
| OpRevoke (p : CapPtr.t) (f : Finalized.t).

Definition on_sys {A} (m : M CapSpace.t A) (s : Sys) : option Sys :=
  match m (space s) with Some (_, c) => Some (mk_sys c (alloc s)) | None => None end.
Definition on_st {A} (m : M St A) (f : Finalized.t) (s : Sys) : option Sys :=
  match m (space s, alloc s, f) with Some (_, st) => Some (mk_sys st.1.1 st.1.2) | None => None end.

(** [None] is a panic. *)
Definition exec (o : op) (s : Sys) : option Sys :=
  match o with
  | OpInstall k r => on_sys (install k r) s
  | OpAllocInstall size align lo hi =>
      match PhysAllocator.alloc_in size align lo hi (alloc s) with
      | (Some cap, a) => on_sys (install_memory cap) (mk_sys (space s) a)
      | (None, a) => Some (mk_sys (space s) a)
      end
  | OpCopy p r => on_sys (copy p r) s
  | OpMint p r b => on_sys (mint p r b) s
  | OpSubregion p off len r => on_sys (subregion p off len r) s
  | OpMove p => on_sys (move_cap p) s
  | OpDelete p f => on_st (delete p) f s
  | OpRevoke p f => on_st (revoke p) f s
  end.

(** Memory enters the space only through the allocator; the other arguments are
    any machine words. *)
Definition op_ok (o : op) : Prop :=
  match o with
  | OpInstall k _ => ∀ r, k ≠ Memory r
  | OpAllocInstall size align lo hi =>
      (0 <= size <= 2 ^ 64 - PAGE)%Z ∧ is_align align ∧ (0 <= lo)%Z ∧ (hi < 2 ^ 64)%Z
  | OpSubregion _ off _ _ => (0 <= off)%Z
  | _ => True
  end.

(** After [attach]: empty tables of any size below 2^32, any well-formed free list. *)
Definition initial (s : Sys) : Prop :=
  ∃ n m, (Z.of_nat n < 2 ^ 32)%Z ∧ wf (alloc s) ∧
    attach (replicate n CapSlot.EMPTY) (replicate m Object.EMPTY) CapSpace.new =
    Some (tt, space s).

Inductive reachable : Sys → Prop :=
| reach_init s : initial s → reachable s
| reach_step s o s' : reachable s → op_ok o → exec o s = Some s' → reachable s'.

Record sys_ok (s : Sys) : Prop := {
  so_inv : inv (space s);
  so_mem : mem_ok (objects (space s)) (alloc s);
  so_overruns : cdt_walk_overruns (space s) = 0%Z }.

(** ** The invariant holds initially *)

Lemma inv_empty n m p1 p2 p3 p4 ov :
  (Z.of_nat n < 2 ^ 32)%Z →
  inv (CapSpace.mk (replicate n CapSlot.EMPTY) (replicate m Object.EMPTY) p1 p2 p3 p4 ov).
Proof.
  intros Hn.
  assert (∀ {A} (F : CapSlot.t → option A), F CapSlot.EMPTY = None →
    ∀ i, view F (replicate n CapSlot.EMPTY) i = None) as HF.
  { intros A F HF i. unfold view. destruct (replicate n CapSlot.EMPTY !! i) as [s|] eqn:E; [|done].
    apply lookup_replicate in E as [-> _]. done. }
  assert (∀ o, refs (replicate n CapSlot.EMPTY) o = 0) as Hr.
  { intros o. clear. unfold refs. induction n as [|n IH]; [done|]. simpl. by rewrite count_if_cons, IH. }
  split; simpl.
  - exists (λ _, []), (λ _, 0). split.
    + intros i. by apply HF.
    + intros p. apply dll_nil.
    + intros p c. split; [by intros ?%elem_of_nil|]. unfold parent_of. by rewrite HF.
    + intros i _. split; by apply HF.
    + intros c p. unfold parent_of. by rewrite HF.
    + intros c p. unfold parent_of. by rewrite HF.
  - split; simpl.
    + intros i s Hi. by apply lookup_replicate in Hi as [-> _].
    + intros o x Ho. by apply lookup_replicate in Ho as [-> _].
    + intros o x _ _. apply Hr.
    + by rewrite length_replicate.
  - intros i s f Hi. by apply lookup_replicate in Hi as [-> _].
Qed.

Lemma initial_ok s : initial s → sys_ok s.
Proof.
  destruct s as [c a]. intros (n & m & Hn & Hwf & Hat). simpl in Hwf, Hat.
  unfold attach, mbind, M_bind, gets in Hat. rewrite decide_True in Hat by done.
  unfold modify in Hat. injection Hat as <-. split; simpl.
  - by apply inv_empty.
  - split; [done|..].
    + intros o r Ho. unfold live_mem in Ho. destruct (_ !! o) as [x|] eqn:E; [|done].
      by apply lookup_replicate in E as [-> _].
    + intros o o' r r' _ Ho. unfold live_mem in Ho. destruct (_ !! o) as [x|] eqn:E; [|done].
      by apply lookup_replicate in E as [-> _].
  - done.
Qed.

(** ** Every operation runs and keeps it *)

Lemma on_sys_ok {A} (m : M CapSpace.t A) s (Q : A → CapSpace.t → Prop) :
  wp m (space s) Q →
  (∀ r c, Q r c → inv c ∧ mem_ok (objects c) (alloc s) ∧ cdt_walk_overruns c = 0%Z) →
  ∃ s', on_sys m s = Some s' ∧ sys_ok s'.
Proof.
  rewrite wp_run. intros (r & c & Hr & HQ) H. unfold on_sys. rewrite Hr.
  eexists. split; [done|]. destruct (H _ _ HQ) as (?&?&?). by split.
Qed.

Lemma derive_post_ok c s x rights badge fen r c' a :
  inv c → mem_ok (objects c) a → cdt_walk_overruns c = 0%Z →
  derive_post c s x rights badge fen r c' →
  inv c' ∧ mem_ok (objects c') a ∧ cdt_walk_overruns c' = 0%Z.
Proof.
  intros Hi Hm Ho. destruct r as [p|e]; [|by intros (_ & -> & _)].
  intros (d & y & _ & _ & _ & Hinv & Hca). split_and!; [done|by eapply mem_ok_child_added|].
  rewrite (ca_overruns _ _ _ _ _ Hca). done.
Qed.

Lemma install_ok k r s a :
  inv (space s) → mem_ok (objects (space s)) a → cdt_walk_overruns (space s) = 0%Z →
  (∀ m, k = Memory m → region_ok m ∧ (∀ x, PhysRegion.inside m x → ¬ is_free a x) ∧
     ∀ o' r', live_mem (objects (space s)) o' = Some r' → PhysRegion.disjoint m r') →
  ∃ s', on_sys (install k r) (mk_sys (space s) a) = Some s' ∧ sys_ok s'.
Proof.
  intros Hi Hm Hov Hk. eapply on_sys_ok; [by apply install_spec|].
  intros res c (Hinv & Ho & H). simpl. split_and!; [done| |simpl in Ho; congruence].
  destruct res as [p|e].
  - destruct H as (d & y & i & o & _ & _ & _ & Hoi & Hu & _ & _ & ->). by eapply mem_ok_install.
  - destruct H as (_ & Hob & _). eapply mem_ok_ext; [|done]. intros o. apply option_eq. intros m.
    rewrite !live_mem_Some. split; intros (x & Hx & Hu & Hkx); exists x; split_and!; try done;
      by apply Hob.
Qed.

Lemma exec_ok o s : sys_ok s → op_ok o → ∃ s', exec o s = Some s' ∧ sys_ok s'.
Proof.
  intros [Hi Hm Hov] Hop. destruct o as [k r|size align lo hi|p r|p r b|p off len r|p|p f|p f]; simpl in *.
  - destruct s as [c a]. simpl in *. apply (install_ok k r (mk_sys c a) a); try done.
    intros m ->. by destruct (Hop m).
  - destruct Hop as (Hs & Ha & Hlo & Hhi).
    pose proof (alloc_in_post (alloc s) size align lo hi (mo_wf _ _ Hm) Hs Ha Hlo Hhi) as Hp.
    destruct (PhysAllocator.alloc_in size align lo hi (alloc s)) as [[cap|] a]; simpl in Hp.
    + destruct Hp as (_&_&_&_&_&_&Hr&Hin&Heq&Hwf&_).
      apply install_ok; try done.
      * split; [done| |apply Hm]. intros o r Ho. destruct (mo_live _ _ Hm _ _ Ho) as [? Hnf].
        split; [done|]. intros x Hx [Hx' _]%Heq. by eapply Hnf.
      * intros m [= <-]. split_and!; [done| |].
        -- intros x Hx [_ ?]%Heq. done.
        -- intros o' r' Ho' x Hx Hx'. destruct (mo_live _ _ Hm _ _ Ho') as [_ Hnf].
           eapply Hnf; [done|]. by apply Hin.
    + destruct Hp as [-> _]. eexists. split; [done|]. by split.
  - eapply on_sys_ok; [by apply copy_spec|]. intros res c H. cbv beta in H.
    destruct (resolve_in (space s) p); [|by destruct H as [_ ->]].
    destruct H as (x & _ & H). by eapply derive_post_ok.
  - eapply on_sys_ok; [by apply mint_spec|]. intros res c H. cbv beta in H.
    destruct (resolve_in (space s) p); [|by destruct H as [_ ->]].
    destruct H as (x & _ & H). by eapply derive_post_ok.
  - eapply on_sys_ok; [by apply subregion_spec|]. intros res c H. cbv beta in H.
    destruct (resolve_in (space s) p); [|by destruct H as [_ ->]].
    destruct H as (x & o & _ & _ & H). destruct (Object.kind o); try by destruct H as [_ ->].
    destruct (teilfenster_rechnen _ _ _); [by eapply derive_post_ok|by destruct H as [_ ->]].
  - eapply on_sys_ok; [by apply move_cap_spec|]. intros res c H. cbv beta in H.
    destruct (resolve_in (space s) p); [|by destruct H as [_ ->]].
    destruct H as (x & _ & H). destruct res as [q|e]; [|by destruct H as (_ & -> & _)].
    destruct H as (d & y & _ & _ & _ & Hinv & _ & _ & Ho & Hv). rewrite Ho, Hv. done.
  - pose proof (delete_spec (space s) (alloc s) f p Hi) as H. rewrite wp_run in H.
    destruct H as (r & st & Hr & Hinv & H). unfold on_st. rewrite Hr. eexists. split; [done|].
    destruct (resolve_in (space s) p) as [x|]; [|destruct H as [_ ->]; by split].
    destruct H as (sl & ob & Hsl & Hob & Hu & _ & H).
    destruct (first_of _ _); [destruct H as [_ ->]; by split|]. destruct H as [_ Hld].
    split; simpl; [done|by eapply mem_ok_deleted|]. by rewrite (ld_overruns _ _ _ _ _ Hld).
  - pose proof (revoke_spec (λ st, mem_ok (objects st.1.1) st.1.2)) as H.
    ospecialize (H _ _ (space s) (alloc s) f p Hi Hm).
    { intros c a f' x sl ob st' _ _ _ Ho Hu _ _ Hld _ HI. by eapply mem_ok_deleted. }
    { intros c c' a f' (_ & E & _). simpl. by rewrite E. }
    rewrite wp_run in H. destruct H as (r & st & Hr & Hinv & HI & H).
    unfold on_st. rewrite Hr. eexists. split; [done|]. split; simpl; [done|done|].
    destruct (resolve_in (space s) p); [|by destruct H as [_ ->]].
    destruct H as [_ Hrv]. by rewrite (rv_overruns _ _ _ Hrv).
Qed.

Lemma reachable_ok s : reachable s → sys_ok s.
Proof.
  induction 1 as [s Hs|s o s' _ IH Hop He]; [by apply initial_ok|].
  destruct (exec_ok o s IH Hop) as (s'' & He' & Hok). congruence.
Qed.
