(* ===== verification/CapProps.v ===== *)
(** * Theorems about the capability system

    Safety of every reachable state, monotonicity of authority along the
    derivation tree, isolation of memory, exactness of revocation and deletion,
    and the capacity of the report buffers.  The theorems of the operations are
    total: each of them says that the operation returns.  *)

From S2P Require Import Prelude PanicMonad Dll Region Color PhysAlloc PhysAllocSpec PhysAllocProps.
From S2P Require Import CapObject CapSpace CapInv CapOps CapDerive CapMove CapDelete CapAudit CapSystem.
Import CapSpace.

(** ** Definitions of the statements *)

(** Slot [i] holds a memory capability whose window contains address [x].  Capabilities of devices
    ([Mmio], [Dma]) name addresses that the kernel chooses and that it may name twice; they are not
    meant. *)
Definition authorises_memory (c : t) (i : nat) (x : Z) : Prop :=
  ∃ sl o r, slots c !! i = Some sl ∧ CapSlot.used sl = true ∧
    objects c !! CapSlot.object sl = Some o ∧
    effective_kind sl (Object.kind o) = Memory r ∧ PhysRegion.inside r x.

(** The number of slots derived directly from slot [i]. *)
Definition children (c : t) (i : nat) : nat :=
  count_if (λ s, bool_decide (Mdb.parent (CapSlot.mdb s) = Some i)) (slots c).

(** ** Lemmas *)

(** What a slot authorises lies in the region of its object. *)
Lemma memory_of_object c i x :
  inv c → authorises_memory c i x →
  ∃ sl r, slots c !! i = Some sl ∧ CapSlot.used sl = true ∧
    live_mem (objects c) (CapSlot.object sl) = Some r ∧ PhysRegion.inside r x.
Proof.
  intros Hinv (sl & o & r & Hi & Hu & Ho & Hk & Hx).
  destruct (ob_of_slot _ _ _ _ (inv_objects _ Hinv) Hi Hu) as (o' & Ho' & Huo & _).
  assert (o' = o) as -> by congruence.
  destruct (Object.kind o) as [w| | | | | | | | | | | | |] eqn:Hko; simpl in Hk; try done.
  injection Hk as Hr. exists sl, w. split_and!; [done..| |].
  - apply live_mem_Some. eauto.
  - destruct (CapSlot.subregion sl) as [f|] eqn:Hf; simpl in Hr; subst r; [|done].
    destruct (inv_windows _ Hinv _ _ _ Hi Hu Hf) as (o' & w' & Hw' & Hkw & Hsub).
    assert (w' = w) as -> by congruence. by apply Hsub.
Qed.

Lemma count_if_index {A} (p : A → bool) (l : list A) :
  count_if p l =
  count_if (λ i, match l !! i with Some x => p x | None => false end) (seq 0 (length l)).
Proof.
  assert (∀ k, count_if p l =
    count_if (λ i, match l !! (i - k) with Some x => p x | None => false end) (seq k (length l))) as Hgen.
  { induction l as [|x l IH]; intros k; [done|]. simpl.
    rewrite !count_if_cons, Nat.sub_diag. simpl. f_equal. rewrite (IH (S k)).
    apply count_if_ext. intros i Hi%elem_of_seq. by replace (i - k) with (S (i - S k)) by lia. }
  rewrite (Hgen 0). apply count_if_ext. intros i _. by rewrite Nat.sub_0_r.
Qed.

Lemma count_children_spec c kids rank i :
  cdt (slots c) kids rank → i < length (slots c) → child_count c i = Ok (length (kids i)).
Proof.
  intros H Hi. unfold child_count, count_children, cdt_step_limit.
  destruct (lookup_lt_is_Some_2 _ _ Hi) as [s Hs]. rewrite Hs.
  assert (Mdb.first_child (CapSlot.mdb s) = head (kids i)) as ->.
  { rewrite <-(cdt_first _ _ _ H). unfold first_of, view. by rewrite Hs. }
  assert (length (kids i) ≤ length (slots c)) as Hkl.
  { eapply dll_bounded; [apply (cdt_dll _ _ _ H i)|]. intros z. apply (cdt_kid_lt H). }
  assert (∀ l2 l1 fuel, kids i = l1 ++ l2 → length l2 ≤ fuel →
    count_loop (slots c) (length (slots c)) fuel (length l1) (head l2) = Ok (length (kids i))) as Hgen.
  { induction l2 as [|x l2 IH]; intros l1 fuel Hk Hf.
    - rewrite Hk, app_nil_r. by destruct fuel.
    - destruct fuel as [|fuel]; simpl in *; [lia|].
      assert (length l1 + S (length l2) = length (kids i)) as Hlen by (rewrite Hk, length_app; done).
      rewrite decide_False by lia.
      assert (x < length (slots c)) as [y Hy]%lookup_lt_is_Some_2
        by (apply (cdt_kid_lt H i); rewrite Hk; set_solver).
      rewrite Hy. pose proof (cdt_dll _ _ _ H i) as Hd. rewrite Hk in Hd. apply dll_split in Hd as [_ Hn].
      unfold next_of, view in Hn. rewrite Hy in Hn. simpl in Hn. rewrite Hn.
      replace (S (length l1)) with (length (l1 ++ [x])) by (rewrite length_app; simpl; lia).
      apply IH; [by rewrite <-app_assoc|lia]. }
  apply (Hgen (kids i) []); [done|lia].
Qed.

Lemma children_kids c kids rank i : cdt (slots c) kids rank → children c i = length (kids i).
Proof.
  intros H. unfold children. rewrite count_if_index. unfold count_if. apply Permutation_length, NoDup_Permutation.
  - apply NoDup_filter, NoDup_seq.
  - apply (dll_NoDup _ _ _ (cdt_dll _ _ _ H i)).
  - intros j. rewrite list_elem_of_filter, elem_of_seq, (cdt_parent _ _ _ H).
    unfold parent_of, view. destruct (slots c !! j) as [s|] eqn:Hj; simpl.
    + rewrite bool_decide_eq_true. apply lookup_lt_Some in Hj. split; [tauto|]. intros ?. split; [done|lia].
    + split; [by intros [? _]|done].
Qed.

(** Nothing has been finalised since [st0]: the same live objects, the same
    allocator, the same reply and DMA reports; and as long as the debug buffer
    has room for every live slot, no report was lost. *)
Record quiet (st0 st : St) : Prop := {
  q_alloc : st.1.2 = st0.1.2;
  q_items : Finalized.items st.2 = Finalized.items st0.2;
  q_dma : Finalized.dma st.2 = Finalized.dma st0.2;
  q_objects : ∀ i x, objects st0.1.1 !! i = Some x →
    ∃ x', objects st.1.1 !! i = Some x' ∧ Object.used x' = Object.used x ∧
          Object.kind x' = Object.kind x;
  q_debug : length (Finalized.debug st0.2) + used_slots st0.1.1 ≤ Finalized.debug_len st0.2 →
    Finalized.overflow st.2 = Finalized.overflow st0.2 ∧
    length (Finalized.debug st.2) + used_slots st.1.1 ≤ Finalized.debug_len st.2 }.

Lemma debug_report_spec s k f :
  Finalized.items (debug_report s k f) = Finalized.items f ∧
  Finalized.dma (debug_report s k f) = Finalized.dma f ∧
  (length (Finalized.debug f) < Finalized.debug_len f →
   Finalized.overflow (debug_report s k f) = Finalized.overflow f ∧
   length (Finalized.debug (debug_report s k f)) ≤ S (length (Finalized.debug f)) ∧
   Finalized.debug_len (debug_report s k f) = Finalized.debug_len f).
Proof.
  unfold debug_report, Finalized.push_debug.
  destruct k; simpl; try (split_and!; [done..|intros; split_and!; done || lia]).
  destruct (_ && _); [|split_and!; [done..|intros; split_and!; done || lia]].
  case_decide; simpl; split_and!; try done.
  rewrite length_app. simpl. intros _. split_and!; done || lia.
Qed.

Lemma quiet_deleted st0 x s o c a f st' :
  slots c !! x = Some s → CapSlot.used s = true → objects c !! CapSlot.object s = Some o →
  Object.refcount o ≠ 1%Z → leaf_deleted x s o (c, a, f) st' → quiet st0 (c, a, f) → quiet st0 st'.
Proof.
  intros Hx Hu Ho Hrc Hld [Q1 Q2 Q3 Q4 Q5].
  pose proof (used_slots_deleted _ _ _ _ _ Hld Hx Hu) as Hus.
  destruct Hld as [_ _ Lo La Lf _]. destruct st' as [[c' a'] f']. simpl in *.
  rewrite decide_False in Lo by done. rewrite decide_False in La by done.
  rewrite decide_False in Lf by done. subst f' a'.
  destruct (debug_report_spec s (Object.kind o) f) as (D1 & D2 & D3).
  split; simpl; [done|congruence|congruence|..].
  - intros i y Hy. destruct (Q4 i y Hy) as (y' & Hy' & ? & ?). rewrite Lo.
    destruct (decide (CapSlot.object s = i)) as [<-|].
    + rewrite list_lookup_alter_eq, Hy'. simpl. eexists. split; [done|]. done.
    + rewrite list_lookup_alter_ne by done. eauto.
  - intros Hroom. destruct (Q5 Hroom) as [Hov Hlen].
    destruct D3 as (-> & ? & ->); [lia|]. split; [done|lia].
Qed.

Lemma quiet_same st0 c c' a f : same_tables c c' → quiet st0 (c, a, f) → quiet st0 (c', a, f).
Proof.
  intros (E1 & E2 & _) [Q1 Q2 Q3 Q4 Q5]. split; simpl in *; unfold used_slots in *; by rewrite ?E1, ?E2.
Qed.

(** ** A concrete system for the witnesses *)

Definition boot : Sys :=
  mk_sys (CapSpace.mk (replicate 6 CapSlot.EMPTY) (replicate 3 Object.EMPTY) 0 0 0 0 0)
         [PhysRegion.new 4096 65536].

(** Three control rights derived from one debug root in a space with one object,
    then a revocation of the root with buffers of [finalize_capacity] entries:
    whether a report was lost, and how many were kept. *)
Definition debug_space : CapSpace.t :=
  CapSpace.mk (replicate 4 CapSlot.EMPTY) (replicate 1 Object.EMPTY) 0 0 0 0 0.
Definition debug_run : option (bool * nat) :=
  match (install_debuggable 5 Rights.RW ≫= λ _, copy (CapPtr.mk 0 0) Rights.RW ≫= λ _,
         copy (CapPtr.mk 0 0) Rights.RW ≫= λ _, copy (CapPtr.mk 0 0) Rights.RW) debug_space with
  | Some (_, c) =>
      let n := finalize_capacity c in
      match revoke (CapPtr.mk 0 0) (c, [], Finalized.mit_debug n n n) with
      | Some (Ok _, (_, _, f)) => Some (Finalized.overflowed f, length (Finalized.debug f))
      | _ => None
      end
  | None => None
  end.

Fixpoint run_ops (l : list op) (s : Sys) : option Sys :=
  match l with
  | [] => Some s
  | o :: l => match exec o s with Some s => run_ops l s | None => None end
  end.

(** A two-page memory object in slot 0, a read-only copy in slot 1, a one-page
    window of the copy in slot 2, and a reply object in slot 3. *)
Definition demo_ops : list op :=
  [OpAllocInstall 8192 4096 0 (2 ^ 64 - 1); OpCopy (CapPtr.mk 0 0) Rights.READ;
   OpSubregion (CapPtr.mk 1 0) 4096 4096 Rights.RWX; OpInstall (Reply 1 7) Rights.RW].
Definition demo : Sys := default boot (run_ops demo_ops boot).

Lemma boot_initial : initial boot.
Proof.
  exists 6, 3. split_and!; [done| |reflexivity]. split; [|simpl; unfold PhysAllocator.MAX_FRAGMENTS; lia].
  simpl. unfold ADDR_LIMIT. lia.
Qed.

Lemma run_ops_reachable l s s' :
  reachable s → Forall op_ok l → run_ops l s = Some s' → reachable s'.
Proof.
  revert s. induction l as [|o l IH]; intros s Hs Hl Hr; simpl in Hr; [congruence|].
  apply Forall_cons in Hl as [Ho Hl]. destruct (exec o s) as [s1|] eqn:E; [|done].
  eapply IH; [|done|done]. by eapply reach_step.
Qed.

Lemma demo_reachable : reachable demo.
Proof.
  apply (run_ops_reachable demo_ops boot); [by apply reach_init, boot_initial| |].
  2: { vm_compute. reflexivity. }
  repeat constructor; simpl; unfold PAGE; try lia; try done.
  exists 12%Z. split; [lia|done].
Qed.

(** ** Theorems *)

(** C1: In every reachable state every capability operation returns (no index out
    of a table, no exhausted loop), the kernel's own audit of the derivation
    tree finds nothing, and no walk has ever hit its limit. *)
Theorem cap_system_safe (s : Sys) (o : op) (n : nat) :
  reachable s → op_ok o → finalize_capacity (space s) ≤ n →
  (∃ s', exec o s = Some s') ∧ audit_cdt (space s) n = Some 0%Z ∧
  cdt_walk_overruns (space s) = 0%Z.
Proof.
  intros Hs Ho Hn. apply reachable_ok in Hs. split_and!.
  - destruct (exec_ok o s Hs Ho) as (s' & ? & _). eauto.
  - by apply audit_inv; [apply Hs|].
  - apply Hs.
Qed.

Lemma cap_system_safe_witness :
  (∃ s', exec (OpRevoke (CapPtr.mk 0 0) (Finalized.new 3 3)) demo = Some s') ∧
  audit_cdt (space demo) 3 = Some 0%Z ∧ cdt_walk_overruns (space demo) = 0%Z.
Proof. apply (cap_system_safe demo); [apply demo_reachable|exact Logic.I|vm_compute; lia]. Defined.

(** C3: Memory isolation: a byte some memory capability authorises is never in the free
    list, and two memory capabilities that authorise a common byte designate the same
    object. *)
Theorem cap_memory_isolation (s : Sys) (i : nat) (x : Z) :
  reachable s → authorises_memory (space s) i x →
  ¬ is_free (alloc s) x ∧
  ∀ j si sj, authorises_memory (space s) j x →
    slots (space s) !! i = Some si → slots (space s) !! j = Some sj →
    CapSlot.object si = CapSlot.object sj.
Proof.
  intros Hs%reachable_ok Hi. destruct Hs as [Hinv Hm _].
  destruct (memory_of_object _ _ _ Hinv Hi) as (sl & r & Hsl & _ & Hr & Hx). split.
  - by apply (mo_live _ _ Hm _ _ Hr).
  - intros j si sj Hj Hsi Hsj.
    destruct (memory_of_object _ _ _ Hinv Hj) as (sl' & r' & Hsl' & _ & Hr' & Hx').
    assert (sl = si) as -> by congruence. assert (sl' = sj) as -> by congruence.
    destruct (decide (CapSlot.object si = CapSlot.object sj)) as [|Hne]; [done|].
    destruct (mo_disjoint _ _ Hm _ _ _ _ Hne Hr Hr' x Hx Hx').
Qed.

Lemma cap_memory_isolation_witness : ¬ is_free (alloc demo) 8192.
Proof.
  apply (cap_memory_isolation demo 2 8192 demo_reachable).
  eexists _, _, _. split_and!; [vm_compute; reflexivity..|]. vm_compute. split; congruence.
Defined.

(** Authority never grows along the tree: a descendant designates the same
    object with no more rights, and authorises no byte its ancestor does not. *)
Theorem cap_authority_monotone (s : Sys) (i j : nat) :
  reachable s → desc (slots (space s)) i j →
  ∃ si sj, slots (space s) !! i = Some si ∧ slots (space s) !! j = Some sj ∧
    CapSlot.object sj = CapSlot.object si ∧ Rights.le (CapSlot.rights sj) (CapSlot.rights si) ∧
    ∀ x, authorises_memory (space s) j x → authorises_memory (space s) i x.
Proof.
  intros Hs%reachable_ok Hd. destruct Hs as [Hinv _ _]. pose proof Hinv as [(kids & rank & Hcdt) _ Hwin].
  destruct (desc_derives _ _ _ _ _ Hcdt Hd) as (si & sj & Hsi & Hsj & (Hu & Hu' & Ho & Hr & Hw)).
  exists si, sj. split_and!; try done.
  intros x (sl & o & r & Hsl & _ & Hob & Hk & Hx). assert (sl = sj) as -> by congruence.
  exists si, o. rewrite <-Ho.
  destruct (Object.kind o) as [w| | | | | | | | | | | | |] eqn:Hko; simpl in Hk; try done.
  injection Hk as Hk. eexists. split_and!; [done..|simpl; done|].
  destruct (CapSlot.subregion sj) as [f|] eqn:Hf, (CapSlot.subregion si) as [g|] eqn:Hg; simpl in *; subst;
    try done; [by apply Hw|].
  destruct (Hwin _ _ _ Hsj Hu Hf) as (o' & w' & Hw' & Hkw & Hsub).
  assert (w' = w) as -> by congruence. by apply Hsub.
Qed.

Lemma cap_authority_monotone_witness :
  ∃ si sj, slots (space demo) !! 0 = Some si ∧ slots (space demo) !! 2 = Some sj ∧
    CapSlot.object sj = CapSlot.object si ∧ Rights.le (CapSlot.rights sj) (CapSlot.rights si) ∧
    ∀ x, authorises_memory (space demo) 2 x → authorises_memory (space demo) 0 x.
Proof.
  apply (cap_authority_monotone demo 0 2 demo_reachable).
  apply (desc_below _ _ 2 1); [vm_compute; reflexivity|]. apply desc_kid. vm_compute. reflexivity.
Defined.

Lemma resolve_core c c' p j :
  resolve_in c p = Ok j → core_of (slots c') j = core_of (slots c) j → resolve_in c' p = Ok j.
Proof.
  rewrite !resolve_in_Ok. intros (-> & s & Hs & Hu & Hg) Hc. split; [done|].
  rewrite (core_of_lookup _ _ _ Hs) in Hc. apply core_of_Some in Hc as (s' & Hs' & E).
  exists s'. split_and!; [done|..].
  - change (CapSlot.used (core s') = true). by rewrite E.
  - change (CapSlot.gen (core s') = CapPtr.gen p). by rewrite E.
Qed.

Lemma resolve_released c' p j x :
  CapPtr.slot p = j → core_of (slots c') j = Some (released x) → resolve_in c' p = Err Invalid.
Proof.
  intros <- (s & Hs & E)%core_of_Some. unfold resolve_in. rewrite Hs.
  assert (CapSlot.used s = false) as -> by (change (CapSlot.used (core s) = false); by rewrite E).
  done.
Qed.

(** C22: [revoke] returns, leaves the capability childless, and cuts exactly its
    proper descendants: their handles become invalid, every other handle still
    resolves to the same slot with the same content, and no walk overran. *)
Theorem revoke_exact (c : t) (a : PhysAllocator.t) (f : Finalized.t) (p : CapPtr.t) (s : nat) :
  inv c → resolve_in c p = Ok s →
  ∃ c' a' f', revoke p (c, a, f) = Some (Ok tt, (c', a', f')) ∧ inv c' ∧
    first_of (slots c') s = None ∧ cdt_walk_overruns c' = cdt_walk_overruns c ∧
    (∀ q j, resolve_in c q = Ok j → desc (slots c) s j → resolve_in c' q = Err Invalid) ∧
    (∀ q j, resolve_in c q = Ok j → ¬ desc (slots c) s j →
       resolve_in c' q = Ok j ∧ core_of (slots c') j = core_of (slots c) j).
Proof.
  intros Hinv Hres. pose proof (revoke_spec (λ _, True)) as H.
  ospecialize (H _ _ c a f p Hinv Logic.I); [done|done|].
  rewrite wp_run, Hres in H. destruct H as (r & [[c' a'] f'] & Hr & Hinv' & _ & -> & [Rg Rc _ Rch Rov]).
  exists c', a', f'. simpl in *. split_and!; try done.
  - intros q j Hq Hd. pose proof Hq as (-> & x & Hx & _)%resolve_in_Ok.
    eapply (resolve_released c' q _ (core x)); [done|]. apply Rg; [done|]. by apply core_of_lookup.
  - intros q j Hq Hd. split; [|by apply Rc]. eapply resolve_core; [done|]. by apply Rc.
Qed.

Lemma revoke_exact_witness :
  ∃ c' a' f', revoke (CapPtr.mk 0 0) (space demo, alloc demo, Finalized.new 3 3) =
                Some (Ok tt, (c', a', f')) ∧
    resolve_in c' (CapPtr.mk 2 0) = Err Invalid ∧ resolve_in c' (CapPtr.mk 3 0) = Ok 3.
Proof.
  destruct (revoke_exact (space demo) (alloc demo) (Finalized.new 3 3) (CapPtr.mk 0 0) 0)
    as (c' & a' & f' & Hr & _); [apply (reachable_ok _ demo_reachable)|vm_compute; reflexivity|].
  exists c', a', f'. split; [exact Hr|]. vm_compute in Hr. injection Hr as <- _ _. done.
Defined.

(** [delete] of a childless capability returns and releases its slot only.  The
    last capability to a memory object gives its region to the allocator, the
    last one to a DMA region or to a pending call only reports it; deleting an
    earlier one touches neither the allocator nor the other objects.  A
    capability with children is refused. *)
Theorem delete_exact (c : t) (a : PhysAllocator.t) (f : Finalized.t) (p : CapPtr.t) (x : nat) :
  inv c → resolve_in c p = Ok x →
  ∃ r c' a' f' s o, delete p (c, a, f) = Some (r, (c', a', f')) ∧ inv c' ∧
    slots c !! x = Some s ∧ objects c !! CapSlot.object s = Some o ∧
    if decide (first_of (slots c) x = None) then
      r = Ok tt ∧ resolve_in c' p = Err Invalid ∧
      (∀ j, j ≠ x → core_of (slots c') j = core_of (slots c) j) ∧
      (∀ o', o' ≠ CapSlot.object s → objects c' !! o' = objects c !! o') ∧
      if decide (refs (slots c) (CapSlot.object s) = 1) then
        (∃ o', objects c' !! CapSlot.object s = Some o' ∧ Object.used o' = false) ∧
        a' = final_alloc (Object.kind o) a ∧
        f' = final_report (Object.kind o) (debug_report s (Object.kind o) f)
      else
        a' = a ∧ f' = debug_report s (Object.kind o) f ∧
        objects c' !! CapSlot.object s = Some (Object.with_refcount (Object.refcount o - 1)%Z o)
    else r = Err HasChildren ∧ (c', a', f') = (c, a, f).
Proof.
  intros Hinv Hres. pose proof (delete_spec c a f p Hinv) as H. rewrite wp_run, Hres in H.
  destruct H as (r & [[c' a'] f'] & Hr & Hinv' & s & o & Hs & Ho & Huo & Hrc & H).
  exists r, c', a', f', s, o. split_and!; try done.
  destruct (first_of (slots c) x) as [ch|]; simpl; [done|].
  destruct H as [-> [Lc Lp Lo La Lf Lov]]. simpl in *. split_and!; [done|..].
  - eapply (resolve_released c' p x s); [by apply resolve_in_Ok in Hres as [? _]|].
    by rewrite Lc, decide_True.
  - intros j Hj. by rewrite Lc, decide_False.
  - intros o' Ho'. rewrite Lo. case_decide; by rewrite list_lookup_alter_ne.
  - rewrite Hrc in Lo, La, Lf.
    destruct (decide (refs (slots c) (CapSlot.object s) = 1)) as [E|E].
    + rewrite decide_True in Lo by lia. rewrite decide_True in La by lia. rewrite decide_True in Lf by lia. split_and!; try done.
      rewrite Lo, list_lookup_alter_eq, Ho. by eexists.
    + rewrite decide_False in Lo by lia. rewrite decide_False in La by lia. rewrite decide_False in Lf by lia. split_and!; try done.
      by rewrite Lo, list_lookup_alter_eq, Ho.
Qed.

Lemma delete_exact_witness :
  ∃ r c' a' f' s o, delete (CapPtr.mk 3 0) (space demo, alloc demo, Finalized.new 3 3) =
      Some (r, (c', a', f')) ∧ inv c' ∧
    slots (space demo) !! 3 = Some s ∧ objects (space demo) !! CapSlot.object s = Some o ∧
    if decide (first_of (slots (space demo)) 3 = None) then
      r = Ok tt ∧ resolve_in c' (CapPtr.mk 3 0) = Err Invalid ∧
      (∀ j, j ≠ 3 → core_of (slots c') j = core_of (slots (space demo)) j) ∧
      (∀ o', o' ≠ CapSlot.object s → objects c' !! o' = objects (space demo) !! o') ∧
      if decide (refs (slots (space demo)) (CapSlot.object s) = 1) then
        (∃ o', objects c' !! CapSlot.object s = Some o' ∧ Object.used o' = false) ∧
        a' = final_alloc (Object.kind o) (alloc demo) ∧
        f' = final_report (Object.kind o) (debug_report s (Object.kind o) (Finalized.new 3 3))
      else
        a' = alloc demo ∧ f' = debug_report s (Object.kind o) (Finalized.new 3 3) ∧
        objects c' !! CapSlot.object s = Some (Object.with_refcount (Object.refcount o - 1)%Z o)
    else r = Err HasChildren ∧ (c', a', f') = (space demo, alloc demo, Finalized.new 3 3).
Proof.
  apply (delete_exact (space demo) (alloc demo) (Finalized.new 3 3) (CapPtr.mk 3 0) 3);
    [apply (reachable_ok _ demo_reachable)|vm_compute; reflexivity].
Defined.

(** [move_cap] keeps the capability (object, rights, badge, window) and its place
    in the tree under a new handle: its parent and its children are those of
    the old slot, and the old handle is invalid. *)
Theorem move_cap_exact (c : t) (p : CapPtr.t) (s : nat) (x : CapSlot.t) :
  inv c → resolve_in c p = Ok s → slots c !! s = Some x →
  (∃ i y, slots c !! i = Some y ∧ CapSlot.used y = false) →
  ∃ q d c', move_cap p c = Some (Ok q, c') ∧ inv c' ∧ resolve_in c' q = Ok d ∧
    resolve_in c' p = Err Invalid ∧
    (∃ g, core_of (slots c') d = Some (CapSlot.with_gen g (core x))) ∧
    parent_of (slots c') d = parent_of (slots c) s ∧
    (∀ j, parent_of (slots c') j = Some d ↔ parent_of (slots c) j = Some s) ∧
    (∀ q' j, j ≠ s → resolve_in c q' = Ok j → resolve_in c' q' = Ok j) ∧
    objects c' = objects c.
Proof.
  intros Hinv Hres Hs (i & z & Hi & Hz). pose proof (move_cap_spec c p Hinv) as H.
  rewrite wp_run, Hres in H. destruct H as (r & c' & Hr & x' & Hx' & H). assert (x' = x) as -> by congruence.
  pose proof Hres as (Hps & x0 & Hx0 & Hux & Hg)%resolve_in_Ok. assert (x0 = x) as -> by congruence.
  destruct r as [q|e]; [|destruct H as (_ & _ & Hall); specialize (Hall i z Hi); congruence].
  destruct H as (d & y & Hd & Huy & -> & Hinv' & Hm & Hcs & Ho & _).
  assert (s ≠ d) as Hsd by (intros ->; congruence).
  pose proof (mv_new _ _ _ _ Hm _ _ Hs Hd) as Hnew.
  pose proof (core_of_Some _ _ _ Hnew) as (n & Hn & En).
  pose proof Hinv as [(kids & rank & Hcdt) _ _].
  exists (CapPtr.mk d (CapSlot.gen y)), d, c'. split_and!; try done.
  - apply resolve_in_Ok. split; [done|]. exists n. split_and!; [done|..].
    + change (CapSlot.used (core n) = true). rewrite En. simpl. done.
    + change (CapSlot.gen (core n) = CapSlot.gen y). by rewrite En.
  - eapply (resolve_released c' p s x); done.
  - eauto.
  - rewrite (mv_parent _ _ _ _ Hm), decide_False, decide_True by done. done.
  - intros j. rewrite (mv_parent _ _ _ _ Hm).
    assert (∀ j', parent_of (slots c) j' ≠ Some d) as Hnod.
    { intros j' Hj'%(cdt_parent _ _ _ Hcdt). rewrite (cdt_unused_nokids Hcdt d y) in Hj' by done.
      by apply elem_of_nil in Hj'. }
    destruct (decide (s = j)) as [<-|].
    { split; [done|]. intros Hp%(cdt_rank _ _ _ Hcdt). lia. }
    destruct (decide (d = j)) as [<-|]; [|case_decide; [done|]; split; [intros ?; by destruct (Hnod j)|done]].
    split; [intros ?; by destruct (Hnod s)|].
    unfold parent_of, view. rewrite Hd. simpl. by rewrite (cdt_unused Hcdt d y).
  - intros q' j Hj Hq'. eapply resolve_core; [done|]. apply (mv_core _ _ _ _ Hm); [done|].
    intros ->. apply resolve_in_Ok in Hq' as (_ & w & Hw & ? & _). congruence.
Qed.

Lemma move_cap_exact_witness :
  ∃ q d c', move_cap (CapPtr.mk 1 0) (space demo) = Some (Ok q, c') ∧ resolve_in c' q = Ok d ∧
    parent_of (slots c') d = Some 0 ∧ parent_of (slots c') 2 = Some d.
Proof.
  destruct (move_cap_exact (space demo) (CapPtr.mk 1 0) 1 (default CapSlot.EMPTY (slots (space demo) !! 1)))
    as (q & d & c' & Hm & _ & Hq & _ & _ & Hp & Hk & _).
  - apply (reachable_ok _ demo_reachable).
  - vm_compute. reflexivity.
  - vm_compute. reflexivity.
  - exists 4, CapSlot.EMPTY. vm_compute. done.
  - exists q, d, c'. split_and!; [exact Hm|exact Hq|rewrite Hp; vm_compute; reflexivity|].
    apply Hk. vm_compute. reflexivity.
Defined.

(** [revoke] finalises nothing: the revoked capability keeps the one object of
    its subtree alive, so the allocator, the reply and DMA reports and the set
    of live objects are as before.  Debug reports are one per control right
    cut; none is lost when the buffer has room for every live slot. *)
Theorem revoke_finalizes_nothing (c : t) (a : PhysAllocator.t) (f : Finalized.t) (p : CapPtr.t)
    (r : result unit CapError) (c' : t) (a' : PhysAllocator.t) (f' : Finalized.t) :
  inv c → revoke p (c, a, f) = Some (r, (c', a', f')) →
  a' = a ∧ Finalized.items f' = Finalized.items f ∧ Finalized.dma f' = Finalized.dma f ∧
  (∀ i x, objects c !! i = Some x → ∃ x', objects c' !! i = Some x' ∧
     Object.used x' = Object.used x ∧ Object.kind x' = Object.kind x) ∧
  (length (Finalized.debug f) + used_slots c ≤ Finalized.debug_len f →
   Finalized.overflowed f' = Finalized.overflowed f).
Proof.
  intros Hinv Hr. pose proof (revoke_spec (quiet (c, a, f))) as H.
  ospecialize (H _ _ c a f p Hinv _).
  - intros c1 a1 f1 x s o st' _ Hx Hu Ho _ Hrc H1 Hld _ HI.
    eapply quiet_deleted; try done. lia.
  - apply quiet_same.
  - split; simpl; try done. intros i x Hx. eauto.
  - rewrite wp_run in H. destruct H as (r' & st' & Hr' & _ & HI & _). rewrite Hr in Hr'.
    injection Hr' as <- <-. destruct HI as [Q1 Q2 Q3 Q4 Q5]. simpl in *.
    split_and!; try done. intros Hroom. by destruct (Q5 Hroom).
Qed.

Lemma revoke_finalizes_nothing_witness :
  ∃ r c' a' f', revoke (CapPtr.mk 0 0) (space demo, alloc demo, Finalized.mit_debug 3 3 6) =
    Some (r, (c', a', f')) ∧ a' = alloc demo ∧ Finalized.items f' = [].
Proof.
  eexists _, _, _, _. split; [vm_compute; reflexivity|].
  refine (match revoke_finalizes_nothing (space demo) (alloc demo) (Finalized.mit_debug 3 3 6)
    (CapPtr.mk 0 0) _ _ _ _ _ _ with conj Ha (conj Hi _) => conj Ha Hi end).
  - apply (reachable_ok _ demo_reachable).
  - vm_compute. reflexivity.
Defined.

(** A report buffer of [finalize_capacity] entries, the size the source asks
    for, can be too short for the debug reports of one revocation: they are
    counted per slot, not per object.  Three derived control rights over one
    protection domain overflow the one-entry buffer of a one-object table. *)
Theorem revoke_debug_overflow : debug_run = Some (true, 1).
Proof. vm_compute. reflexivity. Qed.

(** [copy], [mint] and [subregion] return; on success the new capability is a
    fresh child of the source for the same object, with the intersected rights
    and (for [subregion]) exactly the requested window, and nothing else has
    changed but the object's count. *)
Theorem derive_exact (c : t) (p : CapPtr.t) (s : nat) (x : CapSlot.t) (o : Object.t)
    (rights : Rights.t) (badge offset len : Z) :
  inv c → resolve_in c p = Ok s → slots c !! s = Some x → objects c !! CapSlot.object x = Some o →
  (0 <= offset)%Z → (∃ i y, slots c !! i = Some y ∧ CapSlot.used y = false) →
  let ri := Rights.intersect (CapSlot.rights x) rights in
  let new d b w c' := ∃ g, child_added c c' s d
    (CapSlot.mk true g (CapSlot.object x) ri b w Mdb.EMPTY) in
  (∃ q c', copy p rights c = Some (Ok q, c') ∧ inv c' ∧ resolve_in c' q = Ok (CapPtr.slot q) ∧
     new (CapPtr.slot q) (CapSlot.badge x) (CapSlot.subregion x) c') ∧
  (∃ q c', mint p rights badge c = Some (Ok q, c') ∧ inv c' ∧ resolve_in c' q = Ok (CapPtr.slot q) ∧
     new (CapPtr.slot q) badge (CapSlot.subregion x) c') ∧
  match Object.kind o with
  | Memory whole =>
      match teilfenster_rechnen (default whole (CapSlot.subregion x)) offset len with
      | Ok w => ∃ q c', subregion p offset len rights c = Some (Ok q, c') ∧ inv c' ∧
          resolve_in c' q = Ok (CapPtr.slot q) ∧ new (CapPtr.slot q) (CapSlot.badge x) (Some w) c' ∧
          PhysRegion.subset w (default whole (CapSlot.subregion x))
      | Err e => subregion p offset len rights c = Some (Err e, c)
      end
  | _ => subregion p offset len rights c = Some (Err Invalid, c)
  end.
Proof.
  intros Hinv Hres Hx Ho Hoff (i & y & Hi & Hy) ri new.
  assert (∀ bd w r c', derive_post c s x ri bd w r c' → ∃ q, r = Ok q ∧ inv c' ∧
    resolve_in c' q = Ok (CapPtr.slot q) ∧ new (CapPtr.slot q) bd w c') as Hpost.
  { intros bd w [q|e] c' H; [|destruct H as (_ & _ & Hall); specialize (Hall i y Hi); congruence].
    destruct H as (d & y' & Hd & Hu & -> & Hinv' & Hca). eexists. split; [done|]. split_and!; [done| |].
    - apply resolve_in_Ok. split; [done|]. pose proof (ca_core _ _ _ _ _ Hca d) as Hc.
      rewrite decide_True in Hc by done. apply core_of_Some in Hc as (z & Hz & Ez). exists z.
      split_and!; [done|..].
      + change (CapSlot.used (core z) = true). by rewrite Ez.
      + change (CapSlot.gen (core z) = CapSlot.gen y'). by rewrite Ez.
    - by eexists. }
  split_and!.
  - pose proof (copy_spec c p rights Hinv) as H. rewrite wp_run, Hres in H.
    destruct H as (r & c' & Hr & x' & Hx' & H). simplify_eq. apply Hpost in H as (q & -> & ?). eauto.
  - pose proof (mint_spec c p rights badge Hinv) as H. rewrite wp_run, Hres in H.
    destruct H as (r & c' & Hr & x' & Hx' & H). simplify_eq. apply Hpost in H as (q & -> & ?). eauto.
  - pose proof (subregion_spec c p offset len rights Hinv Hoff) as H. rewrite wp_run, Hres in H.
    destruct H as (r & c' & Hr & x' & o' & Hx' & Ho' & H).
    assert (x' = x) as -> by congruence. assert (o' = o) as -> by congruence.
    destruct (Object.kind o) as [w| | | | | | | | | | | | |]; try by destruct H as [-> ->].
    destruct (teilfenster_rechnen _ offset len) as [f|e] eqn:Hf; [|by destruct H as [-> ->]].
    apply Hpost in H as (q & -> & ? & ? & ?). exists q, c'. split_and!; try done.
    by eapply teilfenster_subset.
Qed.

Lemma derive_exact_witness :
  ∃ q c', copy (CapPtr.mk 0 0) Rights.READ (space demo) = Some (Ok q, c') ∧ inv c'.
Proof.
  destruct (derive_exact (space demo) (CapPtr.mk 0 0) 0 (default CapSlot.EMPTY (slots (space demo) !! 0))
    (default Object.EMPTY (objects (space demo) !! 0)) Rights.READ 9 0 4096) as ((q & c' & Hc & Hi & _) & _).
  - apply (reachable_ok _ demo_reachable).
  - vm_compute. reflexivity.
  - vm_compute. reflexivity.
  - vm_compute. reflexivity.
  - lia.
  - exists 4, CapSlot.EMPTY. vm_compute. done.
  - exists q, c'. split; [exact Hc|exact Hi].
Defined.

(** [inspect] returns for every handle and reports the real number of children
    (the slots whose parent link names the slot), the object's reference count,
    which is the number of capabilities to it, and whether it is a root. *)
Theorem inspect_exact (c : t) (p : CapPtr.t) (s : nat) :
  inv c → resolve_in c p = Ok s →
  ∃ x o info, inspect p c = Some (Some info, c) ∧ slots c !! s = Some x ∧
    objects c !! CapSlot.object x = Some o ∧ ci_child_count info = children c s ∧
    ci_refcount info = Z.of_nat (refs (slots c) (CapSlot.object x)) ∧
    ci_kind info = effective_kind x (Object.kind o) ∧ ci_rights info = CapSlot.rights x ∧
    (ci_is_root info = true ↔ parent_of (slots c) s = None).
Proof.
  intros Hinv Hres. pose proof Hres as (-> & x & Hx & Hu & _)%resolve_in_Ok.
  destruct (ob_of_slot _ _ _ _ (inv_objects _ Hinv) Hx Hu) as (o & Ho & _ & Hrc).
  pose proof Hinv as [(kids & rank & Hcdt) _ _].
  pose proof (count_children_spec c kids rank _ Hcdt (lookup_lt_Some _ _ _ Hx)) as Hcc.
  exists x, o. eexists. split_and!; [|done|done|..].
  - unfold inspect, resolve, mbind, M_bind, gets. rewrite Hres. unfold slot_at, mbind, M_bind, gets.
    rewrite Hx. simpl. rewrite Hcc. unfold object_at, mbind, M_bind, gets. rewrite Ho. reflexivity.
  - simpl. by rewrite (children_kids _ _ _ _ Hcdt).
  - done.
  - done.
  - done.
  - simpl. rewrite bool_decide_eq_true. unfold parent_of, view. by rewrite Hx.
Qed.

Lemma inspect_exact_witness :
  ∃ x o info, inspect (CapPtr.mk 0 0) (space demo) = Some (Some info, space demo) ∧
    slots (space demo) !! 0 = Some x ∧ objects (space demo) !! CapSlot.object x = Some o ∧
    ci_child_count info = children (space demo) 0 ∧
    ci_refcount info = Z.of_nat (refs (slots (space demo)) (CapSlot.object x)) ∧
    ci_kind info = effective_kind x (Object.kind o) ∧ ci_rights info = CapSlot.rights x ∧
    (ci_is_root info = true ↔ parent_of (slots (space demo)) 0 = None).
Proof.
  apply (inspect_exact (space demo) (CapPtr.mk 0 0) 0);
    [apply (reachable_ok _ demo_reachable)|vm_compute; reflexivity].
Defined.

(** A window request is answered with exactly the asked part of the effective
    region, or refused; it is refused exactly when it is empty, reaches beyond
    the region, or the region itself ends beyond the address space. *)
Theorem teilfenster_exact (whole : PhysRegion.t) (offset len : Z) :
  (0 <= PhysRegion.base whole)%Z → (0 <= PhysRegion.len whole)%Z → (0 <= offset)%Z → (0 <= len)%Z →
  match teilfenster_rechnen whole offset len with
  | Ok f => f = PhysRegion.new (PhysRegion.base whole + offset) len ∧ (0 < len)%Z ∧
      (offset + len <= PhysRegion.len whole)%Z ∧
      (PhysRegion.base whole + PhysRegion.len whole < 2 ^ 64)%Z
  | Err e => e = Subregion ∧
      (len = 0 ∨ PhysRegion.len whole < offset + len ∨
       2 ^ 64 <= PhysRegion.base whole + PhysRegion.len whole)%Z
  end.
Proof. apply teilfenster_spec. Qed.

Lemma teilfenster_exact_witness :
  match teilfenster_rechnen (PhysRegion.new 4096 8192) 4096 4096 with
  | Ok f => f = PhysRegion.new 8192 4096 ∧ (0 < 4096)%Z ∧ (8192 <= 8192)%Z ∧ (12288 < 2 ^ 64)%Z
  | Err e => e = Subregion ∧ (4096 = 0 ∨ 8192 < 8192 ∨ 2 ^ 64 <= 12288)%Z
  end.
Proof.
  apply (teilfenster_exact (PhysRegion.new 4096 8192) 4096 4096); vm_compute; congruence.
Defined.
