(* ===== verification/Slab.v ===== *)
(** * The boot-time tables: free list and ring

    [FreeList] of [crates/caprock-slab/src/lib.rs]: the free indices of a table
    threaded through an array of [u32] links with the sentinel [u32::MAX].  It
    serves the TCB slots of every core and the global thread slots.

    A [Slab<T>] is the list of its entries: indexing out of range panics.

    [ring] is the representation of a queue kept in an array with a head, a tail
    and a count, as the zombie ring of the scheduler
    ([crates/caprock-sched/src/lib.rs]) and the thread queues of an endpoint
    ([crates/caprock-ipc/src/lib.rs]) have it.  *)

From S2P Require Import Prelude PanicMonad.

Local Open Scope Z_scope.

(** ** Index links

    A [u32] that is an index or the sentinel. *)
Definition NONE : Z := max_value 32.
Definition as_u32 (i : nat) : Z := Z.of_nat i `mod` 2 ^ 32.

(** The link that designates [o], and what a link designates. *)
Definition to_link (o : option nat) : Z :=
  match o with Some i => as_u32 i | None => NONE end.
Definition of_link (z : Z) : option nat := if z =? NONE then None else Some (Z.to_nat z).

Lemma as_u32_small i : Z.of_nat i < 2 ^ 32 → as_u32 i = Z.of_nat i.
Proof. intros. unfold as_u32. apply Z.mod_small. lia. Qed.

Lemma of_to_link o :
  (∀ i, o = Some i → Z.of_nat i < 2 ^ 32 - 1) → of_link (to_link o) = o.
Proof.
  unfold of_link, to_link, NONE, max_value. destruct o as [i|]; intros H; [|by rewrite Z.eqb_refl].
  specialize (H i eq_refl). rewrite as_u32_small by lia.
  destruct (Z.eqb_spec (Z.of_nat i) (2 ^ 32 - 1)); [lia|]. by rewrite Nat2Z.id.
Qed.

Lemma to_link_NONE o :
  (∀ i, o = Some i → Z.of_nat i < 2 ^ 32 - 1) → (to_link o =? NONE) = bool_decide (o = None).
Proof.
  intros H. pose proof (of_to_link o H) as E. unfold of_link in E.
  destruct (Z.eqb_spec (to_link o) NONE); destruct o; try done.
Qed.

(** ** [FreeList] *)
Module FreeList.
Record t := mk { next : list Z; head : Z; count : Z }.

Definition empty : t := mk [] NONE 0.

(** [attach]: entry [i] leads to [i + 1], the last one to [NONE]. *)
Definition attach (len : nat) : t :=
  mk ((λ i, if decide (i + 1 < len)%nat then as_u32 (i + 1) else NONE) <$> seq 0 len)
     (if decide (len = 0%nat) then NONE else 0) (Z.of_nat len).

Definition alloc : M t (option nat) :=
  f ← gets (λ f, f);
  if head f =? NONE then mret None
  else
    let i := Z.to_nat (head f) in
    n ← expect (next f !! i);
    modify (λ f, mk (<[i := NONE]> (next f)) n (wrapping_sub 64 (count f) 1)) ≫= λ _,
    mret (Some i).

Definition free (i : nat) (f : t) : t :=
  if decide (length (next f) ≤ i)%nat then f
  else mk (<[i := head f]> (next f)) (as_u32 i) (wrapping_add 64 (count f) 1).

Definition available (f : t) : Z := count f.
Definition capacity (f : t) : nat := length (next f).

(** The list [l] of free indices, next to be handed out first. *)
Record rep (f : t) (l : list nat) : Prop := {
  rep_cap : Z.of_nat (length (next f)) < 2 ^ 32;
  rep_head : head f = to_link (hd_error l);
  rep_next : ∀ k i, l !! k = Some i → next f !! i = Some (to_link (l !! S k));
  rep_nodup : NoDup l;
  rep_count : count f = Z.of_nat (length l) }.

Lemma rep_lt f l i : rep f l → i ∈ l → (i < length (next f))%nat.
Proof.
  intros H [k Hk]%list_elem_of_lookup_1. eapply lookup_lt_Some. by eapply rep_next.
Qed.

Lemma rep_small f l i : rep f l → i ∈ l → Z.of_nat i < 2 ^ 32 - 1.
Proof. intros H Hi. pose proof (rep_lt _ _ _ H Hi). pose proof (rep_cap _ _ H). lia. Qed.

Lemma rep_length f l : rep f l → (length l ≤ length (next f))%nat.
Proof. intros H. apply NoDup_bounded_length; [apply H|]. intros x. by apply rep_lt. Qed.

Lemma rep_empty : rep empty [].
Proof. split; try done. constructor. Qed.

Lemma attach_rep len : Z.of_nat len < 2 ^ 32 → rep (attach len) (seq 0 len).
Proof.
  intros Hlen. split; simpl.
  - by rewrite length_fmap, length_seq.
  - destruct len; [done|]. done.
  - intros k i [-> Hk]%lookup_seq. simpl.
    rewrite list_lookup_fmap, lookup_seq_lt by lia. simpl. f_equal.
    rewrite Nat.add_1_r.
    case_decide; [by rewrite lookup_seq_lt by lia|by rewrite lookup_seq_ge by lia].
  - apply NoDup_seq.
  - by rewrite length_seq.
Qed.

(** [alloc] hands out the first index of the list, or [None] from an empty one. *)
Lemma alloc_wp f l (Q : option nat → t → Prop) :
  rep f l →
  (l = [] → Q None f) →
  (∀ i l' f', l = i :: l' → rep f' l' → length (next f') = length (next f) → Q (Some i) f') →
  wp alloc f Q.
Proof.
  intros H Hnone Hsome. pose proof (rep_head _ _ H) as Hh.
  assert ((head f =? NONE) = bool_decide (hd_error l = None)) as E.
  { rewrite Hh. apply to_link_NONE. intros i Hi. eapply rep_small; [done|].
    destruct l; simpl in Hi; [done|]. simplify_eq. set_solver. }
  apply wp_bind, wp_gets. rewrite E. destruct l as [|i l]; [by apply wp_ret, Hnone|].
  assert (i ∈ i :: l) as Hi by set_solver.
  pose proof (rep_small _ _ _ H Hi) as Hsm. pose proof (rep_nodup _ _ H) as Hnd.
  simpl in Hh. rewrite as_u32_small in Hh by lia. simpl bool_decide. cbv iota zeta.
  rewrite Hh, Nat2Z.id. apply wp_bind. eapply wp_expect; [by apply (rep_next _ _ H 0 i)|].
  apply wp_bind, wp_modify, wp_ret. apply NoDup_cons in Hnd as [Hil Hnd].
  eapply Hsome; [done| |by simpl; rewrite length_insert]. pose proof (rep_count _ _ H) as Hc.
  pose proof (rep_length _ _ H). pose proof (rep_cap _ _ H). simpl in *.
  split; simpl; [by rewrite length_insert|by destruct l| |done|].
  - intros k j Hj. rewrite list_lookup_insert_ne by (intros ->; apply Hil; by eapply list_elem_of_lookup_2).
    by apply (rep_next _ _ H (S k)).
  - rewrite wrapping_sub_exact; [lia|]. unfold in_width. lia.
Qed.

(** [free] puts an index that is not free at the front. *)
Lemma free_rep f l i :
  rep f l → (i < length (next f))%nat → i ∉ l → rep (free i f) (i :: l).
Proof.
  intros H Hi Hnl. unfold free. rewrite decide_False by lia.
  pose proof (rep_cap _ _ H). pose proof (rep_length _ _ H).
  split; simpl; [by rewrite length_insert|done| | |].
  - intros [|k] j Hj; simpl in *.
    + simplify_eq. rewrite list_lookup_insert_eq by done. f_equal. rewrite (rep_head _ _ H). by destruct l.
    + rewrite list_lookup_insert_ne by (intros ->; apply Hnl; by eapply list_elem_of_lookup_2).
      by apply (rep_next _ _ H).
  - constructor; [done|apply H].
  - rewrite (rep_count _ _ H), wrapping_add_exact; [lia|]. unfold in_width. lia.
Qed.

Lemma free_length f i : length (next (free i f)) = length (next f).
Proof. unfold free. case_decide; [done|]. simpl. by rewrite length_insert. Qed.

(** An index beyond the table is ignored. *)
Lemma free_out f i : (length (next f) ≤ i)%nat → free i f = f.
Proof. intros. unfold free. by rewrite decide_True. Qed.

(** The list a free list represents is unique. *)
Lemma rep_unique f l1 l2 : rep f l1 → rep f l2 → l1 = l2.
Proof.
  intros H1 H2.
  assert (length l1 = length l2) as Hlen.
  { pose proof (rep_count _ _ H1). pose proof (rep_count _ _ H2). lia. }
  assert (∀ k, l1 !! k = l2 !! k) as Hk; [|by apply list_eq].
  assert (∀ l k i, rep f l → l !! k = Some i → Z.of_nat i < 2 ^ 32 - 1) as Hs.
  { intros l k i H Hi. eapply rep_small; [done|]. by eapply list_elem_of_lookup_2. }
  assert (∀ l, rep f l → of_link (head f) = l !! 0%nat) as Hhd.
  { intros l H. rewrite (rep_head _ _ H), of_to_link; [by destruct l|].
    intros i Hi. eapply (Hs l 0%nat); [done|]. by destruct l. }
  intros k. induction k as [|k IH]; [by rewrite <-(Hhd l1), <-(Hhd l2)|].
  destruct (l1 !! k) as [i|] eqn:E1.
  - pose proof (rep_next _ _ H1 _ _ E1) as N1. symmetry in IH. pose proof (rep_next _ _ H2 _ _ IH) as N2.
    rewrite N1 in N2. injection N2 as N2.
    rewrite <-(of_to_link (l1 !! S k)), <-(of_to_link (l2 !! S k)), N2; [done| |].
    + intros j. by apply Hs.
    + intros j. by apply Hs.
  - symmetry in IH. apply lookup_ge_None in E1, IH.
    rewrite !lookup_ge_None_2 by lia. done.
Qed.
End FreeList.

(** ** Rings *)
Section ring.
Context {A : Type}.
Implicit Types (buf : list A) (l : list A).

Record ring buf (head tail count : nat) l : Prop := {
  ring_head : (head < length buf)%nat;
  ring_tail : tail = ((head + count) mod length buf)%nat;
  ring_count : count = length l;
  ring_fits : (count ≤ length buf)%nat;
  ring_items : ∀ k x, l !! k = Some x → buf !! ((head + k) mod length buf)%nat = Some x }.

Local Open Scope nat_scope.

Lemma mod_shift_inj h n i j : 0 < n → i < n → j < n → (h + i) mod n = (h + j) mod n → i = j.
Proof.
  intros Hn Hi Hj E.
  pose proof (Nat.div_mod_eq (h + i) n) as H1. pose proof (Nat.div_mod_eq (h + j) n) as H2.
  rewrite E in H1. remember ((h + i) / n) as a. remember ((h + j) / n) as b.
  assert (a = b) by nia. nia.
Qed.

Lemma ring_nil buf h : h < length buf → ring buf h h 0 [].
Proof. intros. split; [done| |done|lia|done]. rewrite Nat.add_0_r, Nat.mod_small; lia. Qed.

Lemma ring_push buf h t c l x :
  ring buf h t c l → c < length buf →
  t < length buf ∧ ring (<[t := x]> buf) h ((t + 1) mod length buf) (c + 1) (l ++ [x]).
Proof.
  intros [Hh -> Hc Hf Hi] Hlt. assert (0 < length buf) as Hp by lia.
  assert ((h + c) mod length buf < length buf) as Hb by (apply Nat.mod_upper_bound; lia).
  split; [done|]. split; rewrite ?length_insert; [done| | |lia|].
  - rewrite Nat.Div0.add_mod_idemp_l. f_equal. lia.
  - rewrite length_app. simpl. lia.
  - intros k y Hk. destruct (decide (k = length l)) as [->|Hne].
    + rewrite list_lookup_middle in Hk by done. simplify_eq.
      by rewrite list_lookup_insert_eq.
    + pose proof (lookup_lt_Some _ _ _ Hk) as Hkl. rewrite length_app in Hkl. simpl in Hkl.
      rewrite lookup_app_l in Hk by lia.
      rewrite list_lookup_insert_ne; [by apply Hi|].
      intros E. apply mod_shift_inj in E; lia.
Qed.

Lemma ring_pop buf h t c x l :
  ring buf h t c (x :: l) →
  buf !! h = Some x ∧ ring buf ((h + 1) mod length buf) t (c - 1) l.
Proof.
  intros [Hh -> Hc Hf Hi]. simpl in *. split.
  - rewrite <-(Hi 0 x) by done. f_equal. rewrite Nat.add_0_r. symmetry. by apply Nat.mod_small.
  - split; [apply Nat.mod_upper_bound; lia| |lia|lia|].
    + rewrite Nat.Div0.add_mod_idemp_l. f_equal. lia.
    + intros k y Hk. rewrite Nat.Div0.add_mod_idemp_l.
      rewrite <-(Hi (S k) y) by done. do 2 f_equal. lia.
Qed.

(** The slots outside the queue may hold anything. *)
Lemma ring_ext buf buf' h t c l :
  ring buf h t c l → length buf' = length buf →
  (∀ k, k < c → buf' !! ((h + k) mod length buf) = buf !! ((h + k) mod length buf)) →
  ring buf' h t c l.
Proof.
  intros [Hh Ht Hc Hf Hi] Hl He. split; rewrite ?Hl; try done.
  intros k x Hk. rewrite He; [by apply Hi|]. apply lookup_lt_Some in Hk. lia.
Qed.

Lemma ring_unique buf h t c l1 l2 : ring buf h t c l1 → ring buf h t c l2 → l1 = l2.
Proof.
  intros [Hh Ht Hc Hf Hi] [_ _ Hc' _ Hi']. apply list_eq. intros k.
  destruct (l1 !! k) as [x|] eqn:E1.
  - destruct (lookup_lt_is_Some_2 l2 k) as [y E2]; [apply lookup_lt_Some in E1; lia|].
    apply Hi in E1. apply Hi' in E2 as E3. congruence.
  - apply lookup_ge_None in E1. symmetry. apply lookup_ge_None. lia.
Qed.
End ring.
