(* ===== verification/Redirect.v ===== *)
(** * Redirected system calls

    The decisions of [crates/caprock-sched/src/redirect.rs]: the layout and the
    header of a sidecar slot, which frame words may be written back into a guest
    frame, where a trap goes, and whether a binding of a guest to a handler is
    admissible.  *)

From S2P Require Import Prelude.
#[local] Open Scope Z_scope.

Definition SLOT_BYTES : Z := 512.
Definition FRAME_MAX_BYTES : Z := 272.
Definition slot_offset (slot : Z) : Z := wrapping_mul 64 slot SLOT_BYTES.
Definition slot_gueltig (slot slots : Z) : bool := slot <? slots.

Definition MAGIE : Z := 0x4350524B5F46524D.
Definition FORMAT_VERSION : Z := 1.
Definition KOPF_MAGIE : nat := 0.
Definition KOPF_VERSION : nat := 1.
Definition KOPF_NGPR : nat := 5.
Definition KOPF_NGESAMT : nat := 6.
Definition KOPF_ARCH : nat := 7.
Definition KOPF_GRUPPE : nat := 8.
Definition KOPF_RESERVIERT : nat := 9.
Definition KOPF_RESERVIERT_N : nat := 7.
Definition FRAME_WORT : nat := 24.
Definition ARCH_X86_64 : Z := 0.
Definition ARCH_AARCH64 : Z := 1.
Definition SLOT_WOERTER : nat := Z.to_nat (SLOT_BYTES / 8).
Definition FRAME_WOERTER_MAX : nat := SLOT_WOERTER - FRAME_WORT.
Definition frame_wort (i : nat) : nat := FRAME_WORT + i.
Definition frame_passt (n : nat) : bool := bool_decide (n ≤ FRAME_WOERTER_MAX)%nat.

Inductive KopfUrteil :=
| KopfOk
| KeinFrame
| FremdeVersion (v : Z)
| FremdeArchitektur (a : Z)
| FremdeBreite (n_gpr n_ges : Z)
| Reserviert.

(** The [while] over the reserved words, from word [i] on. *)
Fixpoint reserviert_null (slot : list Z) (i : nat) (rest : nat) : option bool :=
  match rest with
  | O => Some true
  | S rest =>
      w ← slot !! (KOPF_RESERVIERT + i)%nat;
      if w =? 0 then reserviert_null slot (S i) rest else Some false
  end.

(** [None] is an index out of the slot. *)
Definition kopf_pruefen (slot : list Z) (arch n_gpr n_ges : Z) : option KopfUrteil :=
  if decide (length slot < FRAME_WORT)%nat then Some KeinFrame
  else
    magie ← slot !! KOPF_MAGIE;
    if negb (magie =? MAGIE) then Some KeinFrame
    else
      version ← slot !! KOPF_VERSION;
      if negb (version =? FORMAT_VERSION) then Some (FremdeVersion version)
      else
        a ← slot !! KOPF_ARCH;
        if negb (a =? arch) then Some (FremdeArchitektur a)
        else
          g ← slot !! KOPF_NGPR;
          n ← slot !! KOPF_NGESAMT;
          if negb (g =? n_gpr) || negb (n =? n_ges) then Some (FremdeBreite g n)
          else
            gr ← slot !! KOPF_GRUPPE;
            if negb (gr =? 0) then Some Reserviert
            else
              ok ← reserviert_null slot 0 KOPF_RESERVIERT_N;
              Some (if ok : bool then KopfOk else Reserviert).

Definition uebernehmbar (i n_gpr : nat) : bool := bool_decide (i < n_gpr)%nat.

Inductive SchreibStufe := StufeHandler | StufeDebugger.
Inductive SchreibUrteil :=
| SchreibOk
| RingWort (i : nat)
| UeberDerStufe (i : nat)
| NichtKanonisch (v : Z)
| Schief (v : Z)
| VerbotenesFlag (v : Z).

#[export] Instance SchreibStufe_eq_dec : EqDecision SchreibStufe.
Proof. solve_decision. Defined.

Definition RFLAGS_TF : Z := Z.shiftl 1 8.
Definition RFLAGS_IOPL : Z := Z.shiftl 3 12.
Definition RFLAGS_VERBOTEN : Z := Z.lor RFLAGS_TF RFLAGS_IOPL.

Module FrameIndizes.
Record t := mk {
  n_gpr : nat; pc : nat; sp : nat; flags : option nat; ring : list nat; n_gesamt : nat }.
End FrameIndizes.
Definition INDIZES_X86_64 := FrameIndizes.mk 15 17 20 (Some 19%nat) [15; 16; 18; 21]%nat 22.
Definition INDIZES_AARCH64 := FrameIndizes.mk 31 31 33 None [32]%nat 34.

Definition indizes (arch : Z) : option FrameIndizes.t :=
  if arch =? ARCH_X86_64 then Some INDIZES_X86_64
  else if arch =? ARCH_AARCH64 then Some INDIZES_AARCH64
  else None.

Definition indizes_stimmen (arch : Z) (n_gpr n_gesamt : nat) : bool :=
  match indizes arch with
  | Some i => bool_decide (FrameIndizes.n_gpr i = n_gpr) &&
              bool_decide (FrameIndizes.n_gesamt i = n_gesamt)
  | None => false
  end.

Definition kanonisch (va : Z) : bool :=
  let top := Z.shiftr va 47 in (top =? 0) || (top =? 0x1ffff).

Definition writeback_erlaubt (arch : Z) (i : nat) (value : Z) (stufe : SchreibStufe) :
    SchreibUrteil :=
  match indizes arch with
  | None => UeberDerStufe i
  | Some ix =>
      if bool_decide (i ∈ FrameIndizes.ring ix) then RingWort i
      else if decide (FrameIndizes.n_gesamt ix ≤ i)%nat then UeberDerStufe i
      else if decide (i < FrameIndizes.n_gpr ix)%nat then SchreibOk
      else if decide (stufe = StufeHandler) then UeberDerStufe i
      else if decide (i = FrameIndizes.pc ix) then
        (if kanonisch value then SchreibOk else NichtKanonisch value)
      else if decide (i = FrameIndizes.sp ix) then
        (if value `mod` 8 =? 0 then SchreibOk else Schief value)
      else if decide (Some i = FrameIndizes.flags ix) then
        (if negb (Z.land value RFLAGS_VERBOTEN =? 0)
         then VerbotenesFlag (Z.land value RFLAGS_VERBOTEN) else SchreibOk)
      else UeberDerStufe i
  end.

Definition slots_in (len : Z) : Z :=
  let n := len / SLOT_BYTES in if max_value 16 <? n then max_value 16 else n.
Definition fenster_deckt (slots len : Z) : bool := wrapping_mul 64 slots SLOT_BYTES <=? len.

(** ** Bindings *)

Definition KEIN_EP : Z := max_value 32.

Module Bindung.
Record t := mk { sys_ep : Z; fault_ep : Z; handler_pd : Z; slot : Z; sidecar : Z }.
Definition hat_syscall (b : t) : bool := negb (sys_ep b =? KEIN_EP).
Definition hat_fault (b : t) : bool := negb (fault_ep b =? KEIN_EP).
Definition ist_leer (b : t) : bool := negb (hat_syscall b) && negb (hat_fault b).
#[global] Instance eq_dec : EqDecision t.
Proof. solve_decision. Defined.
End Bindung.

Inductive Weiche :=
| WeicheKernel
| WeicheHandler (ep slot sidecar : Z)
| WeicheFault (code : Z).

Definition ERR_HANDLER_GONE : Z := 11.

Definition weiche_syscall (bindung : option Bindung.t) (handler_lebt : bool) : Weiche :=
  match bindung with
  | None => WeicheKernel
  | Some b =>
      if negb (Bindung.hat_syscall b) then WeicheKernel
      else if negb handler_lebt then WeicheFault ERR_HANDLER_GONE
      else WeicheHandler (Bindung.sys_ep b) (Bindung.slot b) (Bindung.sidecar b)
  end.

Definition weiche_fault (bindung : option Bindung.t) (handler_lebt : bool) : Weiche :=
  match bindung with
  | None => WeicheKernel
  | Some b =>
      if negb (Bindung.hat_fault b) then WeicheKernel
      else if negb handler_lebt then WeicheFault ERR_HANDLER_GONE
      else WeicheHandler (Bindung.fault_ep b) (Bindung.slot b) (Bindung.sidecar b)
  end.

Inductive BindUrteil :=
| BindOk | Zyklus | SelbstBindung | FremderHandler | KetteZuLang | KeinSlot | Wirkungslos.

(** The loop of [pruefe_bindung] with [rest] steps left before
    [schritte > n_knoten]. *)
Fixpoint ketten_gang (kante : Z → option Z) (gast_pd : Z) (rest : nat) (k : Z) : BindUrteil :=
  if k =? gast_pd then Zyklus
  else
    match kante k with
    | None => BindOk
    | Some naechster =>
        match rest with
        | O => KetteZuLang
        | S rest => ketten_gang kante gast_pd rest naechster
        end
    end.

Definition pruefe_bindung (gast_pd handler_pd : Z) (hat_syscall hat_fault : bool)
    (kante : Z → option Z) (n_knoten : nat) (freie_slots : Z) : BindUrteil :=
  if negb hat_syscall && negb hat_fault then Wirkungslos
  else if gast_pd =? handler_pd then SelbstBindung
  else if match kante gast_pd with Some v => negb (v =? handler_pd) | None => false end
  then FremderHandler
  else if freie_slots =? 0 then KeinSlot
  else ketten_gang kante gast_pd n_knoten handler_pd.

(** [n] is the number of steps so far. *)
Fixpoint ketten_zaehlen (kante : Z → option Z) (rest n : nat) (k : Z) : option nat :=
  match kante k with
  | None => Some n
  | Some naechster =>
      match rest with
      | O => None
      | S rest => ketten_zaehlen kante rest (S n) naechster
      end
  end.
Definition kettenlaenge (pd : Z) (kante : Z → option Z) (n_knoten : nat) : option nat :=
  ketten_zaehlen kante n_knoten 0 pd.

(** ** Chains of handlers *)

(** [k] reaches [k'] along the edges in [n] steps. *)
Fixpoint iter_kante (kante : Z → option Z) (n : nat) (k : Z) : option Z :=
  match n with O => Some k | S n => kante k ≫= iter_kante kante n end.

(** Every chain ends: no chain of edges runs for ever. *)
Definition acyclic (kante : Z → option Z) : Prop := ∀ k, ∃ n, iter_kante kante n k = None.

(** The graph after the binding. *)
Definition gebunden (kante : Z → option Z) (gast handler : Z) : Z → option Z :=
  λ k, if k =? gast then Some handler else kante k.

Lemma iter_kante_add kante n m k :
  iter_kante kante (n + m) k = iter_kante kante n k ≫= iter_kante kante m.
Proof.
  revert k. induction n as [|n IH]; intros k; simpl; [done|].
  destruct (kante k) as [k'|]; simpl; [apply IH|done].
Qed.

Lemma iter_kante_S kante n k : iter_kante kante (S n) k = iter_kante kante n k ≫= kante.
Proof.
  replace (S n) with (n + 1)%nat by lia. rewrite iter_kante_add.
  destruct (iter_kante kante n k) as [k'|]; simpl; [|done]. by destruct (kante k').
Qed.

(** The walk that ends in [BindOk] passes over the whole chain of [k], and the
    chain does not contain the guest. *)
Lemma ketten_gang_ok kante gast rest k :
  ketten_gang kante gast rest k = BindOk →
  ∃ n, (n ≤ rest)%nat ∧ iter_kante kante (S n) k = None ∧
    ∀ m k', iter_kante kante m k = Some k' → k' ≠ gast.
Proof.
  revert k. induction rest as [|rest IH]; intros k; cbn [ketten_gang].
  - destruct (Z.eqb_spec k gast); [done|]. destruct (kante k) as [k1|] eqn:E; [done|].
    intros _. exists 0%nat. split; [lia|]. simpl. rewrite E. split; [done|].
    intros [|m] k'; simpl; rewrite ?E; simpl; congruence.
  - destruct (Z.eqb_spec k gast); [done|]. destruct (kante k) as [k1|] eqn:E; intros H.
    + apply IH in H as (n0 & Hn & Hend & Hne). exists (S n0). split; [lia|].
      cbn [iter_kante] in *. rewrite E. split; [done|].
      intros [|m] k'; cbn [iter_kante]; rewrite ?E; [congruence|]. apply Hne.
    + exists 0%nat. split; [lia|]. simpl. rewrite E. split; [done|].
      intros [|m] k'; simpl; rewrite ?E; simpl; congruence.
Qed.

Lemma ketten_gang_zyklus kante gast rest k :
  ketten_gang kante gast rest k = Zyklus → ∃ n, iter_kante kante n k = Some gast.
Proof.
  revert k. induction rest as [|rest IH]; intros k; cbn [ketten_gang].
  - destruct (Z.eqb_spec k gast) as [->|]; [by exists 0%nat|]. by destruct (kante k).
  - destruct (Z.eqb_spec k gast) as [->|]; [by exists 0%nat|].
    destruct (kante k) as [k1|] eqn:E; [|done]. intros (n0 & Hn)%IH.
    exists (S n0). simpl. by rewrite E.
Qed.

Lemma ketten_gang_lang kante gast rest k :
  ketten_gang kante gast rest k = KetteZuLang → is_Some (iter_kante kante (S rest) k).
Proof.
  revert k. induction rest as [|rest IH]; intros k; cbn [ketten_gang].
  - destruct (Z.eqb_spec k gast); [done|]. destruct (kante k) as [k1|] eqn:E; [|done].
    intros _. cbn [iter_kante]. rewrite E. by eexists.
  - destruct (Z.eqb_spec k gast); [done|]. destruct (kante k) as [k1|] eqn:E; [|done].
    intros H%IH. cbn [iter_kante] in *. by rewrite E.
Qed.

Lemma ketten_gang_cases kante gast rest k :
  ketten_gang kante gast rest k ∈ [BindOk; Zyklus; KetteZuLang].
Proof.
  revert k. induction rest as [|rest IH]; intros k; cbn [ketten_gang];
    destruct (k =? gast), (kante k); try set_solver; apply IH.
Qed.

(** A chain that visits a node again never ends. *)
Lemma iter_kante_loop kante n k :
  (0 < n)%nat → iter_kante kante n k = Some k → ∀ m, is_Some (iter_kante kante m k).
Proof.
  intros Hn Hl m. assert (∀ j, iter_kante kante (j * n) k = Some k) as Hj.
  { induction j as [|j IH]; [done|]. simpl Nat.mul. by rewrite iter_kante_add, Hl. }
  destruct (iter_kante kante m k) eqn:E; [done|].
  specialize (Hj m). assert (m * n = m + (m * n - m))%nat as Hm by nia.
  rewrite Hm, iter_kante_add, E in Hj. done.
Qed.

(** In an acyclic graph a chain visits every node at most once, so over [n]
    nodes it has at most [n] edges: the bound of the walk is never reached. *)
Lemma acyclic_chain_short kante n_knoten k :
  acyclic kante →
  (∀ a b, kante a = Some b → (0 <= a < Z.of_nat n_knoten)%Z) →
  iter_kante kante (S n_knoten) k = None.
Proof.
  intros Hac Hdom. destruct (iter_kante kante (S n_knoten) k) as [z|] eqn:Hz; [exfalso|done].
  assert (∀ i, (i ≤ S n_knoten)%nat → is_Some (iter_kante kante i k)) as Hall.
  { intros i Hi. destruct (iter_kante kante i k) eqn:E; [done|].
    replace (S n_knoten) with (i + (S n_knoten - i))%nat in Hz by lia.
    rewrite iter_kante_add, E in Hz. done. }
  set (f := λ i : nat, Z.to_nat (default 0 (iter_kante kante i k))).
  assert (NoDup (f <$> seq 0 (S n_knoten))) as Hnd.
  { apply NoDup_fmap_2_strong; [|apply NoDup_seq].
    intros i j Hi%elem_of_seq Hj%elem_of_seq Heq.
    destruct (Hall i) as [a Ha]; [lia|]. destruct (Hall j) as [b Hb]; [lia|].
    destruct (Hall (S i)) as [a' Ha']; [lia|]. destruct (Hall (S j)) as [b' Hb']; [lia|].
    rewrite iter_kante_S, Ha in Ha'. rewrite iter_kante_S, Hb in Hb'. simpl in *.
    pose proof (Hdom _ _ Ha'). pose proof (Hdom _ _ Hb').
    unfold f in Heq. rewrite Ha, Hb in Heq. simpl in Heq.
    assert (a = b) as -> by lia.
    destruct (Nat.lt_total i j) as [Hij|[->|Hij]]; [exfalso|done|exfalso].
    - replace j with (i + (j - i))%nat in Hb by lia. rewrite iter_kante_add, Ha in Hb. simpl in Hb.
      destruct (Hac b) as [m Hm]. destruct (iter_kante_loop kante (j - i) b) with m; [lia|done|congruence].
    - replace i with (j + (i - j))%nat in Ha by lia. rewrite iter_kante_add, Hb in Ha. simpl in Ha.
      destruct (Hac b) as [m Hm]. destruct (iter_kante_loop kante (i - j) b) with m; [lia|done|congruence]. }
  apply (NoDup_bounded_length _ n_knoten) in Hnd.
  - rewrite length_fmap, length_seq in Hnd. lia.
  - intros x (i & -> & Hi)%list_elem_of_fmap. apply elem_of_seq in Hi.
    destruct (Hall i) as [a Ha]; [lia|]. destruct (Hall (S i)) as [a' Ha']; [lia|].
    rewrite iter_kante_S, Ha in Ha'. simpl in Ha'. apply Hdom in Ha'.
    unfold f. rewrite Ha. simpl. lia.
Qed.

Lemma gebunden_gast kante gast handler : gebunden kante gast handler gast = Some handler.
Proof. unfold gebunden. by rewrite Z.eqb_refl. Qed.

Lemma gebunden_ne kante gast handler k : k ≠ gast → gebunden kante gast handler k = kante k.
Proof. unfold gebunden. by destruct (Z.eqb_spec k gast). Qed.

(** A chain that avoids the guest is the same chain after the binding. *)
Lemma gebunden_avoid kante gast handler n k :
  (∀ m k', iter_kante kante m k = Some k' → k' ≠ gast) →
  iter_kante (gebunden kante gast handler) n k = iter_kante kante n k.
Proof.
  revert k. induction n as [|n IH]; intros k Hav; simpl; [done|].
  rewrite gebunden_ne by (by apply (Hav 0%nat)).
  destruct (kante k) as [k1|] eqn:E; simpl; [|done].
  apply IH. intros m k' Hm. apply (Hav (S m)). simpl. by rewrite E.
Qed.

Lemma gebunden_reaches kante gast handler n k :
  iter_kante kante n k = Some gast → ∃ m, iter_kante (gebunden kante gast handler) m k = Some gast.
Proof.
  revert k. induction n as [|n IH]; intros k Hn; [by exists 0%nat|].
  destruct (decide (k = gast)) as [->|Hk]; [by exists 0%nat|].
  simpl in Hn. destruct (kante k) as [k1|] eqn:E; [|done]. simpl in Hn.
  destruct (IH _ Hn) as [m Hm]. exists (S m). simpl. rewrite gebunden_ne by done. by rewrite E.
Qed.

Lemma gebunden_acyclic kante gast handler :
  acyclic kante → (∀ m k', iter_kante kante m handler = Some k' → k' ≠ gast) →
  acyclic (gebunden kante gast handler).
Proof.
  intros Hac Hav. assert (∃ n, iter_kante (gebunden kante gast handler) n handler = None) as [n0 Hn0].
  { destruct (Hac handler) as [n Hn]. exists n. by rewrite gebunden_avoid. }
  intros k. destruct (Hac k) as [n Hn]. revert k Hn. induction n as [|n IH]; intros k Hn; [done|].
  destruct (decide (k = gast)) as [->|Hk].
  - exists (S n0). simpl. by rewrite gebunden_gast.
  - simpl in Hn. destruct (kante k) as [k1|] eqn:E; simpl in Hn.
    + destruct (IH _ Hn) as [m Hm]. exists (S m). simpl. rewrite gebunden_ne by done. by rewrite E.
    + exists 1%nat. simpl. rewrite gebunden_ne by done. by rewrite E.
Qed.

Lemma ketten_zaehlen_spec kante rest n k r :
  ketten_zaehlen kante rest n k = Some r ↔
  ∃ m, r = (n + m)%nat ∧ (m ≤ rest)%nat ∧
       is_Some (iter_kante kante m k) ∧ iter_kante kante (S m) k = None.
Proof.
  revert n k. induction rest as [|rest IH]; intros n k; cbn [ketten_zaehlen].
  - destruct (kante k) as [k1|] eqn:E; split.
    + done.
    + intros (m & -> & Hm & _ & Hend). assert (m = 0)%nat as -> by lia. simpl in Hend.
      by rewrite E in Hend.
    + intros [= <-]. exists 0%nat. simpl. rewrite E. split_and!; [lia|lia|done|done].
    + intros (m & -> & Hm & _ & _). f_equal. lia.
  - destruct (kante k) as [k1|] eqn:E.
    + rewrite IH. split; intros (m & -> & Hm & Hs & Hend).
      * exists (S m). cbn [iter_kante] in *. rewrite E. split_and!; [lia|lia|done|done].
      * destruct m as [|m]; [cbn [iter_kante] in Hend; by rewrite E in Hend|].
        exists m. cbn [iter_kante] in *. rewrite E in *. split_and!; [lia|lia|done|done].
    + split.
      * intros [= <-]. exists 0%nat. simpl. rewrite E. split_and!; [lia|lia|done|done].
      * intros (m & -> & Hm & Hs & _). destruct m; [f_equal; lia|].
        cbn [iter_kante] in Hs. rewrite E in Hs. by destruct Hs.
Qed.

Lemma reserviert_null_spec slot i rest :
  (KOPF_RESERVIERT + i + rest ≤ length slot)%nat →
  ∃ b, reserviert_null slot i rest = Some b ∧
    (b = true ↔ ∀ j, (i ≤ j < i + rest)%nat → slot !! (KOPF_RESERVIERT + j)%nat = Some 0).
Proof.
  revert i. induction rest as [|rest IH]; intros i Hlen.
  - exists true. split; [done|]. split; [|done]. intros _ j Hj. lia.
  - cbn [reserviert_null]. destruct (lookup_lt_is_Some_2 slot (KOPF_RESERVIERT + i)) as [w Hw]; [lia|].
    rewrite Hw. simpl. destruct (Z.eqb_spec w 0) as [->|Hne].
    + destruct (IH (S i)) as (b & Hb & Hiff); [lia|]. exists b. split; [done|].
      rewrite Hiff. split; intros H j Hj.
      * destruct (decide (j = i)) as [->|]; [done|]. apply H. lia.
      * apply H. lia.
    + exists false. split; [done|]. split; [done|]. intros H.
      assert (Some w = Some 0) as [= ->] by (rewrite <-Hw; exact (H i ltac:(lia))). done.
Qed.

(** The walk decides whether the new edge closes a ring, within its bound. *)
Lemma ketten_gang_sound kante gast handler n_knoten :
  acyclic kante → (∀ a b, kante a = Some b → (0 <= a < Z.of_nat n_knoten)%Z) →
  match ketten_gang kante gast n_knoten handler with
  | BindOk => acyclic (gebunden kante gast handler)
  | Zyklus => ¬ acyclic (gebunden kante gast handler)
  | _ => False
  end.
Proof.
  intros Hac Hdom. destruct (ketten_gang kante gast n_knoten handler) eqn:E.
  - apply ketten_gang_ok in E as (n & _ & _ & Hav). by apply gebunden_acyclic.
  - apply ketten_gang_zyklus in E as [n Hn]. intros Hac'. set (k' := gebunden kante gast handler) in *.
    destruct (gebunden_reaches kante gast handler n handler Hn) as [m Hm]. fold k' in Hm.
    destruct (Hac' handler) as [j Hj].
    assert (iter_kante k' (S m) handler = Some handler) as Hl.
    { rewrite iter_kante_S, Hm. simpl. apply gebunden_gast. }
    destruct (iter_kante_loop k' (S m) handler ltac:(lia) Hl j) as [x Hx]. congruence.
  - pose proof (ketten_gang_cases kante gast n_knoten handler) as Hc. rewrite E in Hc. set_solver.
  - pose proof (ketten_gang_cases kante gast n_knoten handler) as Hc. rewrite E in Hc. set_solver.
  - apply ketten_gang_lang in E as [x Hx]. rewrite acyclic_chain_short in Hx; done.
  - pose proof (ketten_gang_cases kante gast n_knoten handler) as Hc. rewrite E in Hc. set_solver.
  - pose proof (ketten_gang_cases kante gast n_knoten handler) as Hc. rewrite E in Hc. set_solver.
Qed.

(** ** Properties *)

(** Over an acyclic handler graph of [n_knoten] nodes: an accepted binding
    leaves the graph acyclic, a binding is refused as [Zyklus] only when its edge
    would close a cycle, and the bound of the walk is never reached, so a
    non-trivial binding of two different nodes that finds a slot is accepted
    exactly when the graph stays acyclic. *)
Theorem pruefe_bindung_acyclic kante gast handler sys flt n_knoten frei :
  acyclic kante →
  (∀ a b, kante a = Some b → (0 <= a < Z.of_nat n_knoten)%Z) →
  let u := pruefe_bindung gast handler sys flt kante n_knoten frei in
  (u = BindOk → acyclic (gebunden kante gast handler)) ∧
  (u = Zyklus → ¬ acyclic (gebunden kante gast handler)) ∧
  u ≠ KetteZuLang ∧
  ((sys || flt = true) → gast ≠ handler → frei ≠ 0 →
   (∀ v, kante gast = Some v → v = handler) →
   (u = BindOk ↔ acyclic (gebunden kante gast handler))).
Proof.
  intros Hac Hdom u. pose proof (ketten_gang_sound kante gast handler n_knoten Hac Hdom) as Hg.
  split_and!; subst u; unfold pruefe_bindung.
  - repeat case_match; try done. all: intros E; by rewrite E in Hg.
  - repeat case_match; try done. all: intros E; by rewrite E in Hg.
  - repeat case_match; try done. all: intros E; by rewrite E in Hg.
  - intros Hsf Hne Hf Hv. replace (negb sys && negb flt) with false by (destruct sys, flt; done).
    destruct (Z.eqb_spec gast handler); [done|]. destruct (Z.eqb_spec frei 0); [done|].
    assert (match kante gast with Some v => negb (v =? handler) | None => false end = false) as ->.
    { destruct (kante gast) as [v|]; [|done]. rewrite (Hv v eq_refl), Z.eqb_refl. done. }
    split; [by intros E; rewrite E in Hg|]. intros Ha. by destruct (ketten_gang kante gast n_knoten handler).
Qed.

(** PDs 0, 1 and 2: guest 0 is handled by 1; binding 1 to 2 is accepted and
    binding 1 to 0 would close a cycle. *)
Definition kante_beispiel (k : Z) : option Z := if k =? 0 then Some 1 else None.

Lemma kante_beispiel_acyclic : acyclic kante_beispiel.
Proof.
  intros k. exists 2%nat. unfold iter_kante, kante_beispiel, mbind, option_bind.
  destruct (Z.eqb_spec k 0) as [->|]; done.
Qed.

Lemma pruefe_bindung_acyclic_witness :
  acyclic (gebunden kante_beispiel 1 2) ∧ ¬ acyclic (gebunden kante_beispiel 1 0).
Proof.
  assert (∀ a b, kante_beispiel a = Some b → (0 <= a < Z.of_nat 3)%Z) as Hd.
  { intros a b. unfold kante_beispiel. destruct (Z.eqb_spec a 0); [lia|done]. }
  split.
  - exact (proj1 (pruefe_bindung_acyclic kante_beispiel 1 2 true false 3 1
                    kante_beispiel_acyclic Hd) eq_refl).
  - exact (proj1 (proj2 (pruefe_bindung_acyclic kante_beispiel 1 0 true false 3 1
                    kante_beispiel_acyclic Hd)) eq_refl).
Defined.

(** A word that may be written back never is one that holds the privilege
    level; a handler changes general-purpose registers only; a debugger's
    instruction pointer is canonical, its stack pointer aligned to eight, its
    flags without single-step and I/O privilege bits.  On the general-purpose
    registers both stages agree with [uebernehmbar]. *)
Theorem writeback_safe arch ix i value stufe :
  indizes arch = Some ix →
  (i < FrameIndizes.n_gpr ix → writeback_erlaubt arch i value stufe = SchreibOk)%nat ∧
  (writeback_erlaubt arch i value StufeHandler = SchreibOk ↔
     uebernehmbar i (FrameIndizes.n_gpr ix) = true) ∧
  (writeback_erlaubt arch i value stufe = SchreibOk →
   i ∉ FrameIndizes.ring ix ∧ (i < FrameIndizes.n_gesamt ix)%nat ∧
   ((i < FrameIndizes.n_gpr ix)%nat ∨
    (stufe = StufeDebugger ∧
     ((i = FrameIndizes.pc ix ∧ (0 <= value < 2 ^ 64 → value < 2 ^ 47 ∨ 2 ^ 64 - 2 ^ 47 <= value)) ∨
      (i = FrameIndizes.sp ix ∧ (8 | value)) ∨
      (FrameIndizes.flags ix = Some i ∧
       ∀ b, b ∈ [8; 12; 13] → Z.testbit value b = false))))).
Proof.
  intros Hix. unfold writeback_erlaubt, uebernehmbar. rewrite Hix.
  assert (∀ j, (j < FrameIndizes.n_gpr ix)%nat →
    j ∉ FrameIndizes.ring ix ∧ (j < FrameIndizes.n_gesamt ix)%nat) as Hlow.
  { unfold indizes in Hix. repeat case_match; simplify_eq; simpl; intros j Hj; split; try lia;
      intros Hin; repeat (apply elem_of_cons in Hin as [->|Hin]; [lia|]); by apply elem_of_nil in Hin. }
  split_and!.
  - intros Hi. destruct (Hlow i Hi) as [Hr Hg]. rewrite bool_decide_eq_false_2 by done.
    rewrite decide_False by lia. by rewrite decide_True.
  - rewrite bool_decide_eq_true. split.
    + repeat case_match; try done.
    + intros Hi. destruct (Hlow i Hi) as [Hr Hg]. rewrite bool_decide_eq_false_2 by done.
      rewrite decide_False by lia. by rewrite decide_True.
  - case_bool_decide as Hr; [done|]. case_decide as Hg; [done|]. case_decide as Hn.
    { intros _. split_and!; [done|lia|by left]. }
    case_decide as Hst; [done|]. intros H. split_and!; [done|lia|right]. split; [by destruct stufe|].
    case_decide as Hpc.
    { left. split; [done|]. intros Hv. destruct (kanonisch value) eqn:E; [|done].
      unfold kanonisch in E. rewrite Z.shiftr_div_pow2 in E by lia.
      apply orb_true_iff in E as [E|E]; apply Z.eqb_eq in E.
      - left. apply Z.div_small_iff in E; lia.
      - right. pose proof (Z.mul_div_le value (2 ^ 47)). lia. }
    case_decide as Hsp.
    { right. left. split; [done|]. destruct (Z.eqb_spec (value `mod` 8) 0); [|done].
      by apply Z.mod_divide. }
    case_decide as Hfl; [|done]. right. right. split; [done|].
    destruct (Z.eqb_spec (Z.land value RFLAGS_VERBOTEN) 0) as [E|]; [|done].
    intros b Hb. assert (Z.testbit RFLAGS_VERBOTEN b = true) as Hm.
    { repeat (apply elem_of_cons in Hb as [->|Hb]; [done|]). by apply elem_of_nil in Hb. }
    assert (Z.testbit (Z.land value RFLAGS_VERBOTEN) b = false) as Hz by by rewrite E, Z.testbit_0_l.
    rewrite Z.land_spec, Hm, andb_true_r in Hz. done.
Qed.

Lemma writeback_safe_witness :
  writeback_erlaubt ARCH_X86_64 17 0x400000 StufeDebugger = SchreibOk ∧ (17 ∉ [15; 16; 18; 21])%nat.
Proof.
  split; [reflexivity|].
  exact (proj1 (proj2 (proj2 (writeback_safe ARCH_X86_64 INDIZES_X86_64 17 0x400000 StufeDebugger
                 eq_refl)) eq_refl)).
Defined.

(** The header check accepts exactly the slots of this format, version,
    architecture and frame width whose reserved words are zero, and never reads
    beyond a slot. *)
Theorem kopf_pruefen_exact slot arch n_gpr n_ges :
  is_Some (kopf_pruefen slot arch n_gpr n_ges) ∧
  (kopf_pruefen slot arch n_gpr n_ges = Some KopfOk ↔
   (FRAME_WORT ≤ length slot)%nat ∧
   slot !! KOPF_MAGIE = Some MAGIE ∧ slot !! KOPF_VERSION = Some FORMAT_VERSION ∧
   slot !! KOPF_ARCH = Some arch ∧ slot !! KOPF_NGPR = Some n_gpr ∧
   slot !! KOPF_NGESAMT = Some n_ges ∧ slot !! KOPF_GRUPPE = Some 0 ∧
   ∀ j, (j < KOPF_RESERVIERT_N)%nat → slot !! (KOPF_RESERVIERT + j)%nat = Some 0).
Proof.
  unfold kopf_pruefen. destruct (decide _) as [Hs|Hlen].
  { split; [done|]. split; [done|]. intros [? _]. lia. }
  assert (∀ i, (i < FRAME_WORT)%nat → ∃ w, slot !! i = Some w) as Hat.
  { intros i Hi. apply lookup_lt_is_Some_2. unfold FRAME_WORT in *. lia. }
  destruct (Hat KOPF_MAGIE) as [w0 H0]; [vm_compute; lia|].
  destruct (Hat KOPF_VERSION) as [w1 H1]; [vm_compute; lia|].
  destruct (Hat KOPF_ARCH) as [w2 H2]; [vm_compute; lia|].
  destruct (Hat KOPF_NGPR) as [w3 H3]; [vm_compute; lia|].
  destruct (Hat KOPF_NGESAMT) as [w4 H4]; [vm_compute; lia|].
  destruct (Hat KOPF_GRUPPE) as [w5 H5]; [vm_compute; lia|].
  destruct (reserviert_null_spec slot 0 KOPF_RESERVIERT_N) as (b & Hb & Hiff).
  { unfold KOPF_RESERVIERT, KOPF_RESERVIERT_N, FRAME_WORT in *. lia. }
  rewrite H0, H1, H2, H3, H4, H5, Hb. simpl.
  destruct (Z.eqb_spec w0 MAGIE), (Z.eqb_spec w1 FORMAT_VERSION), (Z.eqb_spec w2 arch),
    (Z.eqb_spec w3 n_gpr), (Z.eqb_spec w4 n_ges), (Z.eqb_spec w5 0), b; simpl;
    (split; [done|]); (split; [intros Hk|intros (?&?&?&?&?&?&?&Hz)]); try congruence.
  - split_and!; try (lia || congruence). intros j Hj. apply Hiff; [done|lia].
  - exfalso. assert (false = true); [|done]. apply Hiff. intros j Hj. apply Hz. lia.
Qed.

(** Every slot a window is divided into lies inside the window, with its whole
    frame, and two slots never overlap. *)
Theorem sidecar_slots_disjoint len s1 s2 :
  0 <= len < 2 ^ 64 → slot_gueltig s1 (slots_in len) = true → slot_gueltig s2 (slots_in len) = true →
  0 <= s1 → 0 <= s2 →
  fenster_deckt (slots_in len) len = true ∧
  0 <= slot_offset s1 ∧ slot_offset s1 + SLOT_BYTES <= len ∧
  (s1 < s2 → slot_offset s1 + SLOT_BYTES <= slot_offset s2) ∧
  (∀ n, frame_passt n = true → 8 * Z.of_nat (frame_wort n) <= SLOT_BYTES).
Proof.
  unfold slot_gueltig, slots_in, fenster_deckt, slot_offset, wrapping_mul, SLOT_BYTES, max_value.
  intros Hl H1 H2 P1 P2. apply Z.ltb_lt in H1, H2.
  assert (512 * (len / 512) <= len) by (apply Z.mul_div_le; lia).
  assert (∀ s, 0 <= s → s < (if 2 ^ 16 - 1 <? len / 512 then 2 ^ 16 - 1 else len / 512) →
     (s * 512) `mod` 2 ^ 64 = s * 512 ∧ s * 512 + 512 <= len) as Hex.
  { intros s Hs Hb. destruct (Z.ltb_spec (2 ^ 16 - 1) (len / 512)); split; try lia;
      apply Z.mod_small; lia. }
  destruct (Hex s1 P1 H1) as [-> E1], (Hex s2 P2 H2) as [-> E2]. split_and!; try lia.
  - apply Z.leb_le. destruct (Z.ltb_spec (2 ^ 16 - 1) (len / 512)); rewrite Z.mod_small; lia.
  - intros n Hn%bool_decide_eq_true. unfold frame_wort, FRAME_WOERTER_MAX, SLOT_WOERTER, FRAME_WORT, SLOT_BYTES in *.
    change (Z.to_nat (512 / 8)) with 64%nat in Hn. lia.
Qed.

Lemma sidecar_slots_disjoint_witness :
  slot_offset 3 + SLOT_BYTES <= slot_offset 7 ∧ fenster_deckt (slots_in 4096) 4096 = true.
Proof.
  destruct (sidecar_slots_disjoint 4096 3 7) as (H1 & _ & _ & H2 & _);
    [lia|reflexivity|reflexivity|lia|lia|].
  split; [apply H2; lia|exact H1].
Defined.

(** A thread with a binding for the event never falls back to the kernel: it
    goes to the bound endpoint while the handler lives and faults otherwise. *)
Theorem weiche_no_fallback b lebt :
  (Bindung.hat_syscall b = true →
   weiche_syscall (Some b) lebt =
     if lebt : bool then WeicheHandler (Bindung.sys_ep b) (Bindung.slot b) (Bindung.sidecar b)
     else WeicheFault ERR_HANDLER_GONE) ∧
  (Bindung.hat_fault b = true →
   weiche_fault (Some b) lebt =
     if lebt then WeicheHandler (Bindung.fault_ep b) (Bindung.slot b) (Bindung.sidecar b)
     else WeicheFault ERR_HANDLER_GONE) ∧
  (Bindung.ist_leer b = true ↔
   weiche_syscall (Some b) lebt = WeicheKernel ∧ weiche_fault (Some b) lebt = WeicheKernel).
Proof.
  unfold weiche_syscall, weiche_fault, Bindung.ist_leer.
  destruct (Bindung.hat_syscall b), (Bindung.hat_fault b), lebt; simpl; naive_solver.
Qed.
