(* ===== verification/SchedData.v ===== *)
(** * The scheduler's data

    The types and pure decisions of [crates/caprock-sched/src]: the packed
    directory entry and the thread handle, the set of block reasons, the thread
    control block ([lib.rs]), the cycle accounts ([cycles.rs]), the deadline
    verdict ([fristen.rs]) and the tick plan ([nohz.rs]).  *)

From S2P Require Import Prelude Slab Redirect.
#[local] Open Scope Z_scope.

Definition MAX_CORES : nat := 256.
Definition NPRIO : nat := 8.
Definition NIL : Z := max_value 32.
Definition NOT_QUEUED : Z := 0xff.

(** ** Directory entries *)

Definition D_USED : Z := Z.shiftl 1 63.
Definition D_GEN_SHIFT : Z := 32.
Definition D_GEN_MASK : Z := 0x7fffffff.
Definition D_CORE_SHIFT : Z := 16.
Definition D_CORE_MASK : Z := 0xffff.
Definition D_LOCAL_MASK : Z := 0xffff.

Definition pack_dir (used : bool) (gen : Z) (core local : nat) : Z :=
  Z.lor (Z.lor (Z.lor (if used then D_USED else 0)
    (Z.shiftl (Z.land gen D_GEN_MASK) D_GEN_SHIFT))
    (Z.shiftl (Z.land (Z.of_nat core) D_CORE_MASK) D_CORE_SHIFT))
    (Z.land (Z.of_nat local) D_LOCAL_MASK).

(** The fields of an entry, as the readers take them out. *)
Definition dir_used (e : Z) : bool := negb (Z.land e D_USED =? 0).
Definition dir_gen (e : Z) : Z := Z.land (Z.shiftr e D_GEN_SHIFT) D_GEN_MASK.
Definition dir_core (e : Z) : nat := Z.to_nat (Z.land (Z.shiftr e D_CORE_SHIFT) D_CORE_MASK).
Definition dir_local (e : Z) : nat := Z.to_nat (Z.land e D_LOCAL_MASK).

Module ThreadId.
Record t := mk { slot : nat; gen : Z }.
#[global] Instance eq_dec : EqDecision t.
Proof. solve_decision. Defined.
Definition to_raw (i : t) : Z := Z.lor (Z.of_nat (slot i)) (Z.shiftl (gen i) 32).
Definition from_raw (raw : Z) : t :=
  mk (Z.to_nat (Z.land raw 0xffffffff)) (Z.shiftr raw 32).
End ThreadId.

(** ** Block reasons: a set of bits *)
Module BlockReasons.
Definition t := Z.
Definition IPC : Z := Z.shiftl 1 0.
Definition BUDGET : Z := Z.shiftl 1 1.
Definition PAUSE : Z := Z.shiftl 1 2.
Definition PARK : Z := Z.shiftl 1 3.
Definition HANDLER : Z := Z.shiftl 1 4.
Definition LOAD : Z := Z.shiftl 1 5.
Definition DEBUG : Z := Z.shiftl 1 6.
Definition FREEZE : Z := Z.shiftl 1 7.
Definition NONE : t := 0.
Definition is_empty (r : t) : bool := r =? 0.
Definition has (r : t) (grund : Z) : bool := negb (Z.land r grund =? 0).
Definition enthaelt (r : t) (grund : Z) : bool := negb (Z.land r grund =? 0).
Definition insert (r : t) (grund : Z) : t := Z.lor r grund.
(** [self.0 &= !grund] *)
Definition remove (r : t) (grund : Z) : t := Z.ldiff r grund.
Definition bits (r : t) : Z := r.
End BlockReasons.

(** ** Cycle accounts ([cycles.rs]) *)
Module Stamp.
Record t := mk { cycles : Z; core : Z }.
End Stamp.

Inductive Source := Invariant | Untrusted.
Inductive Reject := Backward | Implausible | CoreChanged | SourceUntrusted.
Inductive Sample := Valid (d : Z) | Rejected (r : Reject).
#[export] Instance Source_eq_dec : EqDecision Source.
Proof. solve_decision. Defined.

Definition MAX_PLAUSIBLE_SLICE : Z := Z.shiftl 1 40.

Definition measure (prev now : Stamp.t) (source : Source) (max_plausible : Z) : Sample :=
  if decide (source ≠ Invariant) then Rejected SourceUntrusted
  else if negb (Stamp.core prev =? Stamp.core now) then Rejected CoreChanged
  else if Stamp.cycles now <? Stamp.cycles prev then Rejected Backward
  else
    let d := wrapping_sub 64 (Stamp.cycles now) (Stamp.cycles prev) in
    if max_plausible <? d then Rejected Implausible else Valid d.

Module CycleStats.
Record t := mk {
  consumed : Z; samples : Z;
  rejected_backward : Z; rejected_implausible : Z; rejected_core : Z; rejected_source : Z }.
Definition eta (c : t) : t :=
  mk (consumed c) (samples c) (rejected_backward c) (rejected_implausible c)
     (rejected_core c) (rejected_source c).
Definition with_consumed v c := ltac:(set_field eta consumed c v).
Definition with_samples v c := ltac:(set_field eta samples c v).
Definition with_rejected_backward v c := ltac:(set_field eta rejected_backward c v).
Definition with_rejected_implausible v c := ltac:(set_field eta rejected_implausible c v).
Definition with_rejected_core v c := ltac:(set_field eta rejected_core c v).
Definition with_rejected_source v c := ltac:(set_field eta rejected_source c v).

Definition EMPTY : t := mk 0 0 0 0 0 0.
Definition apply (s : Sample) (c : t) : t :=
  match s with
  | Valid d =>
      with_samples (wrapping_add 64 (samples c) 1)
        (with_consumed (saturating_add 64 (consumed c) d) c)
  | Rejected Backward => with_rejected_backward (saturating_add 32 (rejected_backward c) 1) c
  | Rejected Implausible =>
      with_rejected_implausible (saturating_add 32 (rejected_implausible c) 1) c
  | Rejected CoreChanged => with_rejected_core (saturating_add 32 (rejected_core c) 1) c
  | Rejected SourceUntrusted => with_rejected_source (saturating_add 32 (rejected_source c) 1) c
  end.
Definition rejected (c : t) : Z :=
  wrapping_add 64 (wrapping_add 64 (wrapping_add 64 (rejected_backward c)
    (rejected_implausible c)) (rejected_core c)) (rejected_source c).
Definition measurable (c : t) : bool := 0 <? samples c.
End CycleStats.

(** ** Deadlines ([fristen.rs]) *)
Inductive FristBefund := Zukunft | Freigeben | Aufschieben | SignalGewann.

Definition frist_befund (jetzt frist : Z) (grund_noch_da ausgabe_voll : bool) : FristBefund :=
  if jetzt <? frist then Zukunft
  else if ausgabe_voll then Aufschieben
  else if negb grund_noch_da then SignalGewann
  else Freigeben.

(** ** The tick plan ([nohz.rs]) *)
Inductive Nohz := Periodic | OneShot (ticks : Z) | Disarmed.

Definition nohz_plan (rivalen : Z) (weckruf : option Z) (hat_schranke : bool) : Nohz :=
  if 0 <? rivalen then Periodic
  else if hat_schranke then Periodic
  else match weckruf with
       | None => Disarmed
       | Some d => if d <=? 1 then Periodic else OneShot d
       end.

(** ** Thread control blocks *)
Module Tcb.
Record t := mk {
  used : bool; gid : Z; gen : Z; sp : Z; priority : Z; reasons : BlockReasons.t;
  stack_base : Z; stack_len : Z; frist : Z; frist_grund : Z; tls : Z;
  queued : Z; admitted : bool; qnext : Z; qprev : Z;
  budget : Z; period : Z; remaining : Z; next_refill : Z; depleted : bool; park_wake : bool;
  sc_donor : option nat; sc_donee : option nat;
  cyc : CycleStats.t; stamp : option Stamp.t; handler : option Bindung.t }.

Definition eta (t : t) : Tcb.t :=
  mk (used t) (gid t) (gen t) (sp t) (priority t) (reasons t)
     (stack_base t) (stack_len t) (frist t) (frist_grund t) (tls t)
     (queued t) (admitted t) (qnext t) (qprev t)
     (budget t) (period t) (remaining t) (next_refill t) (depleted t) (park_wake t)
     (sc_donor t) (sc_donee t) (cyc t) (stamp t) (handler t).
Definition with_sp v t := ltac:(set_field eta sp t v).
Definition with_reasons v t := ltac:(set_field eta reasons t v).
Definition with_stack_base v t := ltac:(set_field eta stack_base t v).
Definition with_stack_len v t := ltac:(set_field eta stack_len t v).
Definition with_frist v t := ltac:(set_field eta frist t v).
Definition with_frist_grund v t := ltac:(set_field eta frist_grund t v).
Definition with_tls v t := ltac:(set_field eta tls t v).
Definition with_queued v t := ltac:(set_field eta queued t v).
Definition with_admitted v t := ltac:(set_field eta admitted t v).
Definition with_qnext v t := ltac:(set_field eta qnext t v).
Definition with_qprev v t := ltac:(set_field eta qprev t v).
Definition with_budget v t := ltac:(set_field eta budget t v).
Definition with_period v t := ltac:(set_field eta period t v).
Definition with_remaining v t := ltac:(set_field eta remaining t v).
Definition with_next_refill v t := ltac:(set_field eta next_refill t v).
Definition with_depleted v t := ltac:(set_field eta depleted t v).
Definition with_park_wake v t := ltac:(set_field eta park_wake t v).
Definition with_sc_donor v t := ltac:(set_field eta sc_donor t v).
Definition with_sc_donee v t := ltac:(set_field eta sc_donee t v).
Definition with_cyc v t := ltac:(set_field eta cyc t v).
Definition with_stamp v t := ltac:(set_field eta stamp t v).
Definition with_handler v t := ltac:(set_field eta handler t v).

Definition EMPTY : t :=
  mk false NIL 0 0 0 BlockReasons.NONE 0 0 0 0 0 NOT_QUEUED false NIL NIL
     0 0 0 0 false false None None CycleStats.EMPTY None None.

Definition block (grund : Z) (t : t) : Tcb.t := with_reasons (BlockReasons.insert (reasons t) grund) t.
Definition unblock (grund : Z) (t : t) : Tcb.t := with_reasons (BlockReasons.remove (reasons t) grund) t.
End Tcb.

Module Migrant.
Record t := mk { tcb : Tcb.t; was_ready : bool }.
Definition gid (m : t) : Z := Tcb.gid (tcb m).
End Migrant.

Module Zombie.
Record t := mk { base : Z; len : Z; gid : Z }.
Definition EMPTY : t := mk 0 0 NIL.
End Zombie.

Module ListHead.
Record t := mk { head : Z; tail : Z; count : Z }.
Definition eta (h : t) : t := mk (head h) (tail h) (count h).
Definition with_head v h := ltac:(set_field eta head h v).
Definition with_tail v h := ltac:(set_field eta tail h v).
Definition with_count v h := ltac:(set_field eta count h v).
Definition EMPTY : t := mk NIL NIL 0.
End ListHead.

(** ** Lemmas on sets of reasons *)

Lemma land_lor_disjoint_r r a b : Z.land a b = 0 → Z.land (Z.lor r a) b = Z.land r b.
Proof. intros H. rewrite Z.land_lor_distr_l, H. apply Z.lor_0_r. Qed.

(** Bits: [has] of one reason bit is [testbit]. *)
Lemma has_testbit r n : 0 <= n → BlockReasons.has r (Z.shiftl 1 n) = Z.testbit r n.
Proof.
  intros Hn. unfold BlockReasons.has. destruct (Z.testbit r n) eqn:E.
  - apply negb_true_iff, Z.eqb_neq. intros H0.
    assert (Z.testbit (Z.land r (Z.shiftl 1 n)) n = false) as Hf by by rewrite H0, Z.testbit_0_l.
    rewrite Z.land_spec, E, Z.shiftl_spec, Z.sub_diag in Hf by done. done.
  - apply negb_false_iff, Z.eqb_eq. apply Z.bits_inj'. intros m Hm.
    rewrite Z.land_spec, Z.testbit_0_l, Z.shiftl_1_l, Z.pow2_bits_eqb by done.
    destruct (Z.eqb_spec n m) as [->|]; [by rewrite E|]. by rewrite andb_false_r.
Qed.

Lemma ldiff_testbit r n m :
  0 <= n → 0 <= m → Z.testbit (Z.ldiff r (Z.shiftl 1 n)) m = Z.testbit r m && negb (m =? n).
Proof.
  intros Hn Hm. rewrite Z.ldiff_spec, Z.shiftl_1_l, Z.pow2_bits_eqb by done.
  by rewrite (Z.eqb_sym n m).
Qed.

Lemma lor_testbit r n m :
  0 <= n → 0 <= m → Z.testbit (Z.lor r (Z.shiftl 1 n)) m = Z.testbit r m || (m =? n).
Proof.
  intros Hn Hm. rewrite Z.lor_spec, Z.shiftl_1_l, Z.pow2_bits_eqb by done.
  by rewrite (Z.eqb_sym n m).
Qed.

(** A set of reasons is empty when none of its bits is set. *)
Lemma reasons_empty_bits r : BlockReasons.is_empty r = true ↔ ∀ n, 0 <= n → Z.testbit r n = false.
Proof.
  unfold BlockReasons.is_empty. rewrite Z.eqb_eq. split.
  - intros -> n _. apply Z.testbit_0_l.
  - intros H. apply Z.bits_inj'. intros n Hn. by rewrite H, Z.testbit_0_l.
Qed.

(** ** Directory entries: round trip *)

Lemma land_ones_small a n : 0 <= n → 0 <= a < 2 ^ n → Z.land a (Z.ones n) = a.
Proof. intros. rewrite Z.land_ones by done. by apply Z.mod_small. Qed.

(** Bit [m] of an entry. *)
Lemma pack_dir_testbit used gen core local m :
  0 <= m →
  Z.testbit (pack_dir used gen core local) m =
  (used && (m =? 63)) ||
  ((32 <=? m) && (m <? 63) && Z.testbit gen (m - 32)) ||
  ((16 <=? m) && (m <? 32) && Z.testbit (Z.of_nat core) (m - 16)) ||
  ((m <? 16) && Z.testbit (Z.of_nat local) m).
Proof.
  intros Hm. unfold pack_dir, D_USED, D_GEN_MASK, D_CORE_MASK, D_LOCAL_MASK, D_GEN_SHIFT, D_CORE_SHIFT.
  change 0x7fffffff with (Z.ones 31). change 0xffff with (Z.ones 16).
  rewrite !Z.lor_spec, Z.land_spec, !Z.shiftl_spec, !Z.land_spec, !Z.testbit_ones by lia.
  assert (Z.testbit (if used then Z.shiftl 1 63 else 0) m = used && (m =? 63)) as ->.
  { destruct used; [|apply Z.testbit_0_l]. rewrite Z.shiftl_1_l, Z.pow2_bits_eqb by done.
    by rewrite Z.eqb_sym. }
  f_equal; [f_equal; [f_equal|]|].
  - destruct (Z.leb_spec 32 m), (Z.ltb_spec m 63), (Z.leb_spec 0 (m - 32)), (Z.ltb_spec (m - 32) 31);
      simpl; try lia; rewrite ?andb_true_r, ?andb_false_r; done.
  - destruct (Z.leb_spec 16 m), (Z.ltb_spec m 32), (Z.leb_spec 0 (m - 16)), (Z.ltb_spec (m - 16) 16);
      simpl; try lia; rewrite ?andb_true_r, ?andb_false_r; done.
  - destruct (Z.leb_spec 0 m), (Z.ltb_spec m 16); simpl; try lia; rewrite ?andb_true_r, ?andb_false_r; done.
Qed.

Lemma small_testbit a n m : 0 <= a < 2 ^ n → n <= m → Z.testbit a m = false.
Proof.
  intros Ha Hm. assert (0 <= n) by (destruct (Z.lt_ge_cases n 0); [rewrite Z.pow_neg_r in Ha; lia|done]).
  destruct (Z.eq_dec a 0) as [->|]; [apply Z.testbit_0_l|].
  apply Z.bits_above_log2; [lia|]. apply Z.lt_le_trans with n; [|done]. apply Z.log2_lt_pow2; lia.
Qed.

Lemma dir_used_pack used gen core local : dir_used (pack_dir used gen core local) = used.
Proof.
  transitivity (Z.testbit (pack_dir used gen core local) 63).
  { exact (has_testbit (pack_dir used gen core local) 63 ltac:(lia)). }
  rewrite pack_dir_testbit by lia. simpl. by destruct used.
Qed.

(** A field of [n] bits at position [k]. *)
Lemma dir_field e v k n :
  0 <= k → 0 <= n → 0 <= v < 2 ^ n →
  (∀ m, 0 <= m < n → Z.testbit e (m + k) = Z.testbit v m) →
  Z.land (Z.shiftr e k) (Z.ones n) = v.
Proof.
  intros Hk Hn Hv H. apply Z.bits_inj'. intros m Hm.
  rewrite Z.land_spec, Z.shiftr_spec, Z.testbit_ones by done.
  destruct (Z.ltb_spec m n).
  - rewrite H by lia. rewrite (proj2 (Z.leb_le 0 m)) by done. by rewrite andb_true_r.
  - rewrite andb_false_r, andb_false_r. symmetry. by eapply small_testbit.
Qed.

(** Picks the matching disjunct of [pack_dir_testbit]. *)
Ltac dir_bits :=
  let m := fresh "m" in let Hm := fresh "Hm" in
  intros m Hm; rewrite pack_dir_testbit by lia;
  repeat match goal with
  | |- context [ (?a <=? ?b)%Z ] => destruct (Z.leb_spec a b); try lia
  | |- context [ (?a <? ?b)%Z ] => destruct (Z.ltb_spec a b); try lia
  | |- context [ (?a =? ?b)%Z ] => destruct (Z.eqb_spec a b); try lia
  end; rewrite ?andb_false_r, ?orb_false_r; simpl; f_equal; lia.

Lemma dir_gen_pack used gen core local :
  0 <= gen < 2 ^ 31 → dir_gen (pack_dir used gen core local) = gen.
Proof.
  intros Hg. unfold dir_gen, D_GEN_MASK, D_GEN_SHIFT. change 0x7fffffff with (Z.ones 31).
  apply dir_field; [lia|lia|exact Hg|]. dir_bits.
Qed.

Lemma dir_core_pack used gen core local :
  Z.of_nat core < 2 ^ 16 → dir_core (pack_dir used gen core local) = core.
Proof.
  intros Hc. unfold dir_core. rewrite <-(Nat2Z.id core) at 2. f_equal.
  unfold D_CORE_MASK, D_CORE_SHIFT. change 0xffff with (Z.ones 16).
  apply dir_field; [lia|lia|lia|]. dir_bits.
Qed.

Lemma dir_local_pack used gen core local :
  Z.of_nat local < 2 ^ 16 → dir_local (pack_dir used gen core local) = local.
Proof.
  intros Hc. unfold dir_local. rewrite <-(Nat2Z.id local) at 2. f_equal.
  rewrite <-(Z.shiftr_0_r (pack_dir _ _ _ _)).
  unfold D_LOCAL_MASK. change 0xffff with (Z.ones 16).
  apply dir_field; [lia|lia|lia|]. dir_bits.
Qed.

Lemma dir_gen_range e : 0 <= dir_gen e < 2 ^ 31.
Proof.
  unfold dir_gen, D_GEN_MASK. change 0x7fffffff with (Z.ones 31).
  rewrite Z.land_ones by lia. apply Z.mod_pos_bound. lia.
Qed.

(** Two live entries that agree name the same generation and place. *)
Lemma pack_dir_inj gen core local gen' core' local' :
  0 <= gen < 2 ^ 31 → 0 <= gen' < 2 ^ 31 →
  Z.of_nat core < 2 ^ 16 → Z.of_nat core' < 2 ^ 16 →
  Z.of_nat local < 2 ^ 16 → Z.of_nat local' < 2 ^ 16 →
  pack_dir true gen core local = pack_dir true gen' core' local' →
  gen = gen' ∧ core = core' ∧ local = local'.
Proof.
  intros Hg Hg' Hc Hc' Hl Hl' E. split_and!.
  - rewrite <-(dir_gen_pack true gen core local), E by done. by apply dir_gen_pack.
  - rewrite <-(dir_core_pack true gen core local), E by done. by apply dir_core_pack.
  - rewrite <-(dir_local_pack true gen core local), E by done. by apply dir_local_pack.
Qed.

(** ** Thread handles: round trip *)
Lemma thread_id_raw_roundtrip i :
  Z.of_nat (ThreadId.slot i) < 2 ^ 32 → 0 <= ThreadId.gen i →
  ThreadId.from_raw (ThreadId.to_raw i) = i.
Proof.
  destruct i as [s g]. simpl. intros Hs Hg. unfold ThreadId.from_raw, ThreadId.to_raw. simpl.
  change 0xffffffff with (Z.ones 32). f_equal.
  - rewrite Z.land_lor_distr_l, land_ones_small by lia.
    rewrite Z.land_ones, Z.shiftl_mul_pow2, Z.mod_mul, Z.lor_0_r by lia. apply Nat2Z.id.
  - rewrite Z.shiftr_lor, Z.shiftr_shiftl_l, Z.sub_diag, Z.shiftl_0_r by lia.
    rewrite Z.shiftr_div_pow2, Z.div_small by lia. done.
Qed.
