(* ===== verification/Sched.v ===== *)
(** * The scheduler of one core

    [Scheduler] of [crates/caprock-sched/src/lib.rs] with the globals it shares
    with the other cores: the thread directory, the free thread slots, the load
    and online words.  An operation is a function [M St A] on the pair of the
    core's scheduler and the globals; it runs under the core's lock, and the
    directory entries of the core's threads change only under that lock.  A
    [Slab] index or [expect] that fails panics.

    [init_thread_frame] and the address of the running kernel stack belong to the
    hardware layer: the class [Hal] has them as parameters.  *)

From S2P Require Import Prelude PanicMonad Slab Redirect SchedData.
#[local] Open Scope Z_scope.

Class Hal := {
  init_thread_frame : Z → Z → Z → bool → Z → Z;
  stapeladresse : Z }.

(** ** State *)
Module Globals.
Record t := mk {
  directory : list Z; gid_free : FreeList.t; core_load : list Z; core_online : list bool;
  zombie_gesamt : Z; zombie_unter_fuessen : Z }.
Definition eta (g : t) : t :=
  mk (directory g) (gid_free g) (core_load g) (core_online g)
     (zombie_gesamt g) (zombie_unter_fuessen g).
Definition with_directory v g := ltac:(set_field eta directory g v).
Definition with_gid_free v g := ltac:(set_field eta gid_free g v).
Definition with_core_load v g := ltac:(set_field eta core_load g v).
Definition with_core_online v g := ltac:(set_field eta core_online g v).
Definition with_zombie_gesamt v g := ltac:(set_field eta zombie_gesamt g v).
Definition with_zombie_unter_fuessen v g := ltac:(set_field eta zombie_unter_fuessen g v).

(** [attach_directory] *)
Definition attach_directory (capacity : nat) (g : t) : t :=
  with_gid_free (FreeList.attach capacity) (with_directory (replicate capacity 0) g).
Definition new : t :=
  mk [] FreeList.empty (replicate MAX_CORES 0) (replicate MAX_CORES false) 0 0.

Definition thread_capacity (g : t) : nat := length (directory g).
Definition threads_available (g : t) : Z := FreeList.available (gid_free g).
Definition dir_load (g : t) (gid : nat) : option Z := directory g !! gid.
Definition owner_core (g : t) (tid : ThreadId.t) : option nat :=
  e ← dir_load g (ThreadId.slot tid);
  if negb (dir_used e) || negb (dir_gen e =? ThreadId.gen tid) then None else Some (dir_core e).
Definition is_live (g : t) (tid : ThreadId.t) : bool := bool_decide (is_Some (owner_core g tid)).
Definition release_gid (gid : Z) (g : t) : t :=
  with_gid_free (FreeList.free (Z.to_nat gid) (gid_free g)) g.
Definition slot_in_use (g : t) (gid : nat) : bool :=
  match dir_load g gid with Some e => dir_used e | None => false end.
End Globals.

Module Scheduler.
Record t := mk {
  core : nat; tcbs : list Tcb.t; free : FreeList.t; current : option nat;
  queues : list ListHead.t; bitmap : Z;
  zombies : list Zombie.t; zhead : nat; ztail : nat; zcount : nat;
  now : Z; depletions : Z; refills : Z; cycle_source : Source; cyc_core : CycleStats.t;
  used : Z; depleted_count : Z; fristen_ueberlauf : Z; naechste_frist : Z;
  budget_blocked_count : Z; migrations_out : Z; migrations_in : Z }.
Definition eta (s : t) : t :=
  mk (core s) (tcbs s) (free s) (current s) (queues s) (bitmap s)
     (zombies s) (zhead s) (ztail s) (zcount s) (now s) (depletions s) (refills s)
     (cycle_source s) (cyc_core s) (used s) (depleted_count s) (fristen_ueberlauf s)
     (naechste_frist s) (budget_blocked_count s) (migrations_out s) (migrations_in s).
Definition with_core v s := ltac:(set_field eta core s v).
Definition with_tcbs v s := ltac:(set_field eta tcbs s v).
Definition with_free v s := ltac:(set_field eta free s v).
Definition with_current v s := ltac:(set_field eta current s v).
Definition with_queues v s := ltac:(set_field eta queues s v).
Definition with_bitmap v s := ltac:(set_field eta bitmap s v).
Definition with_zombies v s := ltac:(set_field eta zombies s v).
Definition with_zhead v s := ltac:(set_field eta zhead s v).
Definition with_ztail v s := ltac:(set_field eta ztail s v).
Definition with_zcount v s := ltac:(set_field eta zcount s v).
Definition with_now v s := ltac:(set_field eta now s v).
Definition with_depletions v s := ltac:(set_field eta depletions s v).
Definition with_refills v s := ltac:(set_field eta refills s v).
Definition with_cycle_source v s := ltac:(set_field eta cycle_source s v).
Definition with_cyc_core v s := ltac:(set_field eta cyc_core s v).
Definition with_used v s := ltac:(set_field eta used s v).
Definition with_depleted_count v s := ltac:(set_field eta depleted_count s v).
Definition with_fristen_ueberlauf v s := ltac:(set_field eta fristen_ueberlauf s v).
Definition with_naechste_frist v s := ltac:(set_field eta naechste_frist s v).
Definition with_budget_blocked_count v s := ltac:(set_field eta budget_blocked_count s v).
Definition with_migrations_out v s := ltac:(set_field eta migrations_out s v).
Definition with_migrations_in v s := ltac:(set_field eta migrations_in s v).

Definition new : t :=
  mk 0 [] FreeList.empty None (replicate NPRIO ListHead.EMPTY) 0 [] 0 0 0 0 0 0
     Untrusted CycleStats.EMPTY 0 0 0 (max_value 64) 0 0 0.

(** [attach_storage]: tables of [capacity] empty entries. *)
Definition attach_storage (core : nat) (capacity : nat) (s : t) : t :=
  with_free (FreeList.attach capacity)
    (with_zombies (replicate capacity Zombie.EMPTY)
       (with_tcbs (replicate capacity Tcb.EMPTY) (with_core core s))).

(** The scheduler of a core and the globals. *)
Record St := mkSt { sch : t; glo : Globals.t }.
Definition with_sch v st := mkSt v (glo st).
Definition with_glo v st := mkSt (sch st) v.

Definition self {A} (f : t → A) : M St A := gets (λ st, f (sch st)).
Definition upd (f : t → t) : M St unit := modify (λ st, with_sch (f (sch st)) st).
Definition upd_glo (f : Globals.t → Globals.t) : M St unit := modify (λ st, with_glo (f (glo st)) st).

(** [self.tcbs[i]], [self.queues[p]] and the assignments to them. *)
Definition tcb (i : nat) : M St Tcb.t := self tcbs ≫= λ l, expect (l !! i).
Definition upd_tcb (i : nat) (f : Tcb.t → Tcb.t) : M St unit :=
  tcb i ≫= λ _, upd (λ s, with_tcbs (alter f i (tcbs s)) s).
Definition queue (p : nat) : M St ListHead.t := self queues ≫= λ l, expect (l !! p).
Definition upd_queue (p : nat) (f : ListHead.t → ListHead.t) : M St unit :=
  queue p ≫= λ _, upd (λ s, with_queues (alter f p (queues s)) s).
Definition on_free {A} : M FreeList.t A → M St A :=
  zoom (λ st, free (sch st)) (λ f st, with_sch (with_free f (sch st)) st).
Definition on_gid_free {A} : M FreeList.t A → M St A :=
  zoom (λ st, Globals.gid_free (glo st)) (λ f st, with_glo (Globals.with_gid_free f (glo st)) st).

(** [CORE_LOAD[self.core].store(self.used)] *)
Definition store_load : M St unit :=
  st ← gets (λ st, st);
  _ ← expect (Globals.core_load (glo st) !! core (sch st));
  upd_glo (λ g, Globals.with_core_load (<[core (sch st) := used (sch st)]> (Globals.core_load g)) g).

Definition id (local : nat) : M St ThreadId.t :=
  t ← tcb local; mret (ThreadId.mk (Z.to_nat (Tcb.gid t)) (Tcb.gen t)).

Definition resolve_in (st : St) (tid : ThreadId.t) : option nat :=
  e ← Globals.dir_load (glo st) (ThreadId.slot tid);
  if negb (dir_used e) then None
  else if negb (dir_gen e =? ThreadId.gen tid) then None
  else if negb (bool_decide (dir_core e = core (sch st))) then None
  else
    let local := dir_local e in
    t ← tcbs (sch st) !! local;
    if Tcb.used t && (Tcb.gen t =? ThreadId.gen tid) then Some local else None.
Definition resolve (tid : ThreadId.t) : M St (option nat) := gets (λ st, resolve_in st tid).

(** ** Internals *)

Definition set_budget_blocked (local : nat) (an : bool) : M St unit :=
  t ← tcb local;
  if eqb (BlockReasons.has (Tcb.reasons t) BlockReasons.BUDGET) an then mret tt
  else
    (if an then upd_tcb local (Tcb.block BlockReasons.BUDGET)
     else upd_tcb local (Tcb.unblock BlockReasons.BUDGET)) ≫= λ _,
    upd (λ s, with_budget_blocked_count
                (if an then wrapping_add 64 (budget_blocked_count s) 1
                 else wrapping_sub 64 (budget_blocked_count s) 1) s).

Definition publish_dir (local : nat) : M St unit :=
  t ← tcb local;
  c ← self core;
  upd_glo (λ g, Globals.with_directory
    (alter (λ _, pack_dir true (Tcb.gen t) c local) (Z.to_nat (Tcb.gid t)) (Globals.directory g)) g).

Definition enqueue_ready (local : nat) : M St unit :=
  t ← tcb local;
  if negb (Tcb.queued t =? NOT_QUEUED) then mret tt
  else
    let p := Z.to_nat (Tcb.priority t) in
    q ← queue p;
    let tail := ListHead.tail q in
    upd_tcb local (Tcb.with_qprev tail) ≫= λ _,
    upd_tcb local (Tcb.with_qnext NIL) ≫= λ _,
    upd_tcb local (Tcb.with_queued (Tcb.priority t)) ≫= λ _,
    (if tail =? NIL then upd_queue p (ListHead.with_head (as_u32 local))
     else upd_tcb (Z.to_nat tail) (Tcb.with_qnext (as_u32 local))) ≫= λ _,
    upd_queue p (ListHead.with_tail (as_u32 local)) ≫= λ _,
    upd_queue p (λ q, ListHead.with_count (wrapping_add 32 (ListHead.count q) 1) q) ≫= λ _,
    upd (λ s, with_bitmap (Z.lor (bitmap s) (Z.shiftl 1 (Z.of_nat p))) s).

Definition remove_from_ready (local : nat) : M St unit :=
  t ← tcb local;
  if Tcb.queued t =? NOT_QUEUED then mret tt
  else
    let p := Z.to_nat (Tcb.queued t) in
    let prev := Tcb.qprev t in
    let next := Tcb.qnext t in
    (if prev =? NIL then upd_queue p (ListHead.with_head next)
     else upd_tcb (Z.to_nat prev) (Tcb.with_qnext next)) ≫= λ _,
    (if next =? NIL then upd_queue p (ListHead.with_tail prev)
     else upd_tcb (Z.to_nat next) (Tcb.with_qprev prev)) ≫= λ _,
    upd_tcb local (Tcb.with_qnext NIL) ≫= λ _,
    upd_tcb local (Tcb.with_qprev NIL) ≫= λ _,
    upd_tcb local (Tcb.with_queued NOT_QUEUED) ≫= λ _,
    upd_queue p (λ q, ListHead.with_count (wrapping_sub 32 (ListHead.count q) 1) q) ≫= λ _,
    q ← queue p;
    if ListHead.count q =? 0
    then upd (λ s, with_bitmap (Z.ldiff (bitmap s) (Z.shiftl 1 (Z.of_nat p))) s)
    else mret tt.

Definition dequeue_highest : M St (option nat) :=
  b ← self bitmap;
  if b =? 0 then mret None
  else
    let p := Z.to_nat (Z.log2 b) in
    q ← queue p;
    if ListHead.head q =? NIL then mret None
    else
      let local := Z.to_nat (ListHead.head q) in
      remove_from_ready local ≫= λ _, mret (Some local).

Definition wecke_falls_lauffaehig (local : nat) : M St unit :=
  t ← tcb local;
  cur ← self current;
  if BlockReasons.is_empty (Tcb.reasons t) && negb (Tcb.depleted t) &&
     negb (bool_decide (cur = Some local))
  then enqueue_ready local else mret tt.

Definition alloc_tcb (sp priority : Z) : M St (option nat) :=
  oi ← on_free FreeList.alloc;
  match oi with
  | None => mret None
  | Some i =>
      og ← on_gid_free FreeList.alloc;
      match og with
      | None => on_free (modify (FreeList.free i)) ≫= λ _, mret None
      | Some gid =>
          oe ← gets (λ st, Globals.dir_load (glo st) gid);
          match oe with
          | None =>
              on_free (modify (FreeList.free i)) ≫= λ _,
              on_gid_free (modify (FreeList.free gid)) ≫= λ _, mret None
          | Some e =>
              upd_tcb i (λ _,
                Tcb.mk true (as_u32 gid) (dir_gen e) sp priority BlockReasons.NONE 0 0 0 0 0
                  NOT_QUEUED false NIL NIL 0 0 0 0 false false None None
                  CycleStats.EMPTY None None) ≫= λ _,
              upd (λ s, with_used (wrapping_add 64 (used s) 1) s) ≫= λ _,
              store_load ≫= λ _,
              publish_dir i ≫= λ _,
              mret (Some i)
          end
      end
  end.

(** The indices of the TCB table. *)
Definition slots : M St (list nat) := self (λ s, seq 0 (length (tcbs s))).

Section hal.
Context `{Hal}.

Definition record_zombie (local : nat) : M St unit :=
  l ← slots;
  for_ l (λ d,
    t ← tcb d;
    if bool_decide (d ≠ local) && Tcb.used t && bool_decide (Tcb.sc_donor t = Some local) then
      upd_tcb d (Tcb.with_sc_donor None) ≫= λ _,
      t ← tcb d;
      if BlockReasons.has (Tcb.reasons t) BlockReasons.BUDGET then
        set_budget_blocked d false ≫= λ _, wecke_falls_lauffaehig d
      else mret tt
    else mret tt) ≫= λ _,
  t ← tcb local;
  match Tcb.sc_donor t with
  | Some a =>
      ta ← tcb a;
      if decide (Tcb.sc_donee ta = Some local) then upd_tcb a (Tcb.with_sc_donee None) else mret tt
  | None => mret tt
  end ≫= λ _,
  remove_from_ready local ≫= λ _,
  t ← tcb local;
  let base := Tcb.stack_base t in
  let len := Tcb.stack_len t in
  let gid := Tcb.gid t in
  let gen := Z.land (wrapping_add 32 (Tcb.gen t) 1) D_GEN_MASK in
  upd_glo (λ g, Globals.with_directory
    (alter (λ _, pack_dir false gen 0 0) (Z.to_nat gid) (Globals.directory g)) g) ≫= λ _,
  (if Tcb.depleted t
   then upd (λ s, with_depleted_count (wrapping_sub 64 (depleted_count s) 1) s)
   else mret tt) ≫= λ _,
  (if BlockReasons.has (Tcb.reasons t) BlockReasons.BUDGET
   then upd (λ s, with_budget_blocked_count (wrapping_sub 64 (budget_blocked_count s) 1) s)
   else mret tt) ≫= λ _,
  upd_tcb local (λ _, Tcb.EMPTY) ≫= λ _,
  on_free (modify (FreeList.free local)) ≫= λ _,
  upd (λ s, with_used (wrapping_sub 64 (used s) 1) s) ≫= λ _,
  store_load ≫= λ _,
  (if negb (len =? 0) then
     upd_glo (λ g, Globals.with_zombie_gesamt (wrapping_add 64 (Globals.zombie_gesamt g) 1) g) ≫= λ _,
     if (base <=? stapeladresse) && (stapeladresse <? wrapping_add 64 base len)
     then upd_glo (λ g, Globals.with_zombie_unter_fuessen
                          (wrapping_add 64 (Globals.zombie_unter_fuessen g) 1) g)
     else mret tt
   else mret tt) ≫= λ _,
  s ← self (λ s, s);
  if decide (zcount s < length (zombies s))%nat then
    _ ← expect (zombies s !! ztail s);
    upd (λ s, with_zcount (zcount s + 1)%nat
                (with_ztail ((ztail s + 1) mod length (zombies s))%nat
                   (with_zombies (<[ztail s := Zombie.mk base len gid]> (zombies s)) s)))
  else mret tt.

(** ** Threads *)

Definition init_core (core : nat) (priority : Z) : M St (option ThreadId.t) :=
  oi ← alloc_tcb 0 priority;
  match oi with
  | None => mret None
  | Some idle =>
      upd (with_current (Some idle)) ≫= λ _,
      upd_glo (λ g, Globals.with_core_online
                      (alter (λ _, true) core (Globals.core_online g)) g) ≫= λ _,
      t ← id idle; mret (Some t)
  end.

Definition admit_ (tid : ThreadId.t) : M St bool :=
  ot ← resolve tid;
  match ot with
  | None => mret false
  | Some t =>
      upd_tcb t (Tcb.with_admitted true) ≫= λ _,
      enqueue_ready t ≫= λ _, mret true
  end.

Definition spawn_parked (core : nat) (entry arg stack_base stack_len priority : Z) :
    M St (option ThreadId.t) :=
  let sp := init_thread_frame (wrapping_add 64 stack_base stack_len) entry arg false 0 in
  ot ← alloc_tcb sp priority;
  match ot with
  | None => mret None
  | Some t =>
      upd_tcb t (Tcb.with_stack_base stack_base) ≫= λ _,
      upd_tcb t (Tcb.with_stack_len stack_len) ≫= λ _,
      i ← id t; mret (Some i)
  end.

Definition spawn (core : nat) (entry arg stack_base stack_len priority : Z) :
    M St (option ThreadId.t) :=
  ot ← spawn_parked core entry arg stack_base stack_len priority;
  match ot with
  | None => mret None
  | Some t => admit_ t ≫= λ _, mret (Some t)
  end.

Definition spawn_user_at_parked (core : nat)
    (entry arg kstack_base kstack_len el0_sp reap_base reap_len priority : Z) :
    M St (option ThreadId.t) :=
  let sp := init_thread_frame (wrapping_add 64 kstack_base kstack_len) entry arg true el0_sp in
  ot ← alloc_tcb sp priority;
  match ot with
  | None => mret None
  | Some t =>
      upd_tcb t (Tcb.with_stack_base reap_base) ≫= λ _,
      upd_tcb t (Tcb.with_stack_len reap_len) ≫= λ _,
      i ← id t; mret (Some i)
  end.

Definition spawn_user_at (core : nat)
    (entry arg kstack_base kstack_len el0_sp reap_base reap_len priority : Z) :
    M St (option ThreadId.t) :=
  ot ← spawn_user_at_parked core entry arg kstack_base kstack_len el0_sp reap_base reap_len priority;
  match ot with
  | None => mret None
  | Some t => admit_ t ≫= λ _, mret (Some t)
  end.

(** The successor of a thread that stops running: [dequeue_highest().expect(..)],
    [current = next], its stack pointer. *)
Definition run_next : M St Z :=
  on ← dequeue_highest;
  next ← expect on;
  upd (with_current (Some next)) ≫= λ _,
  t ← tcb next; mret (Tcb.sp t).

Definition exit_current (core : nat) (_frame : Z) : M St Z :=
  cur ← self current;
  cur ← expect cur;
  record_zombie cur ≫= λ _,
  run_next.

Definition kill (tid : ThreadId.t) (core : nat) : M St bool :=
  os ← resolve tid;
  match os with
  | None => mret false
  | Some s =>
      cur ← self current;
      if decide (cur = Some s) then mret false
      else
        remove_from_ready s ≫= λ _,
        record_zombie s ≫= λ _, mret true
  end.
End hal.

Definition reap : M St (option (Z * Z * Z)) :=
  s ← self (λ s, s);
  if decide (zcount s = 0%nat) then mret None
  else
    z ← expect (zombies s !! zhead s);
    upd (λ s, with_zcount (zcount s - 1)%nat
                (with_zhead ((zhead s + 1) mod length (zombies s))%nat s)) ≫= λ _,
    mret (Some (Zombie.base z, Zombie.len z, Zombie.gid z)).

Definition load (s : t) : Z := used s.
Definition capacity_left (s : t) : Z := FreeList.available (free s).
Definition migration_stats (s : t) : Z * Z := (migrations_out s, migrations_in s).
Definition ticks (s : t) : Z := now s.
Definition budget_stats (s : t) : Z * Z := (depletions s, refills s).
Definition cycle_stats (s : t) : CycleStats.t := cyc_core s.

Definition current_id (core : nat) : M St ThreadId.t :=
  cur ← self current;
  cur ← expect cur;
  id cur.

(** A read-only query of the thread [tid], [None] where it does not resolve. *)
Definition query {A} (f : Tcb.t → A) (tid : ThreadId.t) : M St (option A) :=
  os ← resolve tid;
  match os with
  | None => mret None
  | Some s => t ← tcb s; mret (Some (f t))
  end.
Definition priority_of := query Tcb.priority.
Definition is_admitted := query Tcb.admitted.
Definition frame_of := query Tcb.sp.
Definition reasons_of := query Tcb.reasons.
Definition admitted_of := query Tcb.admitted.
Definition consumed_cycles := query Tcb.cyc.
Definition tls_of (tid : ThreadId.t) : M St Z := o ← query Tcb.tls tid; mret (default 0 o).
Definition frist_von (tid : ThreadId.t) : M St Z := o ← query Tcb.frist tid; mret (default 0 o).
Definition has_reason (grund : Z) (tid : ThreadId.t) : M St bool :=
  o ← query (λ t, BlockReasons.has (Tcb.reasons t) grund) tid; mret (default false o).
Definition wartet_auf_ipc := has_reason BlockReasons.IPC.
Definition is_parked := has_reason BlockReasons.PARK.
Definition is_handler_blocked := has_reason BlockReasons.HANDLER.
Definition is_load_blocked := has_reason BlockReasons.LOAD.
Definition is_debug_stopped := has_reason BlockReasons.DEBUG.
Definition is_group_frozen := has_reason BlockReasons.FREEZE.
Definition has_wake_token (tid : ThreadId.t) : M St bool :=
  o ← query Tcb.park_wake tid; mret (default false o).
Definition is_blocked (tid : ThreadId.t) : M St bool :=
  o ← query (λ t, negb (BlockReasons.is_empty (Tcb.reasons t))) tid; mret (default false o).
Definition is_alive (tid : ThreadId.t) : M St bool :=
  o ← resolve tid; mret (bool_decide (is_Some o)).

Definition set_tls (tid : ThreadId.t) (va : Z) : M St bool :=
  os ← resolve tid;
  match os with
  | Some t => upd_tcb t (Tcb.with_tls va) ≫= λ _, mret true
  | None => mret false
  end.

(** ** Blocking and waking *)

Definition block_current_mit (core : nat) (frame grund : Z) : M St Z :=
  cur ← self current;
  cur ← expect cur;
  upd_tcb cur (Tcb.with_sp frame) ≫= λ _,
  upd_tcb cur (Tcb.block grund) ≫= λ _,
  run_next.
Definition block_current (core : nat) (frame : Z) : M St Z :=
  block_current_mit core frame BlockReasons.IPC.
Definition block_for_handler (core : nat) (frame : Z) : M St Z :=
  block_current_mit core frame BlockReasons.HANDLER.
Definition block_for_load (core : nat) (frame : Z) : M St Z :=
  block_current_mit core frame BlockReasons.LOAD.

Definition switch_to (core : nat) (frame : Z) (target : ThreadId.t) : M St Z :=
  cur ← self current;
  cur ← expect cur;
  upd_tcb cur (Tcb.with_sp frame) ≫= λ _,
  upd_tcb cur (Tcb.block BlockReasons.IPC) ≫= λ _,
  ot ← resolve target;
  t ← expect ot;
  upd_tcb t (Tcb.unblock BlockReasons.IPC) ≫= λ _,
  tt_ ← tcb t;
  if negb (BlockReasons.is_empty (Tcb.reasons tt_)) then run_next
  else
    remove_from_ready t ≫= λ _,
    tc ← tcb cur;
    let account := default cur (Tcb.sc_donor tc) in
    upd_tcb t (Tcb.with_sc_donor (Some account)) ≫= λ _,
    upd_tcb account (Tcb.with_sc_donee (Some t)) ≫= λ _,
    upd (with_current (Some t)) ≫= λ _,
    tt_ ← tcb t; mret (Tcb.sp tt_).

Definition unblock (tid : ThreadId.t) : M St bool :=
  os ← resolve tid;
  match os with
  | None => mret false
  | Some s =>
      ts ← tcb s;
      (if negb (BlockReasons.is_empty (Tcb.reasons ts)) then
         let acct := default s (Tcb.sc_donor ts) in
         ta ← tcb acct;
         if negb (bool_decide (acct = s)) && Tcb.depleted ta then
           upd_tcb s (Tcb.unblock BlockReasons.IPC) ≫= λ _,
           set_budget_blocked s true
         else
           upd_tcb s (Tcb.unblock BlockReasons.IPC) ≫= λ _,
           ts ← tcb s;
           if BlockReasons.is_empty (Tcb.reasons ts) && negb (Tcb.depleted ts)
           then enqueue_ready s else mret tt
       else mret tt) ≫= λ _,
      mret true
  end.

Definition park_current (core : nat) (frame : Z) : M St (option Z) :=
  cur ← self current;
  cur ← expect cur;
  t ← tcb cur;
  if Tcb.park_wake t then upd_tcb cur (Tcb.with_park_wake false) ≫= λ _, mret None
  else f ← block_current_mit core frame BlockReasons.PARK; mret (Some f).

Definition unpark (tid : ThreadId.t) : M St bool :=
  os ← resolve tid;
  match os with
  | None => mret false
  | Some s =>
      upd_tcb s (Tcb.with_park_wake true) ≫= λ _,
      t ← tcb s;
      (if BlockReasons.has (Tcb.reasons t) BlockReasons.PARK then
         upd_tcb s (Tcb.with_park_wake false) ≫= λ _,
         upd_tcb s (Tcb.unblock BlockReasons.PARK) ≫= λ _,
         wecke_falls_lauffaehig s
       else mret tt) ≫= λ _,
      mret true
  end.

(** The stoppers set a reason and take the thread out of its queue; the wakers
    remove exactly their reason. *)
Definition stop_with (grund : Z) (s : nat) : M St unit :=
  upd_tcb s (Tcb.block grund) ≫= λ _, remove_from_ready s.
Definition wake_from (grund : Z) (s : nat) : M St unit :=
  upd_tcb s (Tcb.unblock grund) ≫= λ _, wecke_falls_lauffaehig s.
Definition stop_thread (grund : Z) (tid : ThreadId.t) : M St bool :=
  os ← resolve tid;
  match os with
  | None => mret false
  | Some s => stop_with grund s ≫= λ _, mret true
  end.
Definition wake_thread (grund : Z) (tid : ThreadId.t) : M St bool :=
  os ← resolve tid;
  match os with
  | None => mret false
  | Some s => wake_from grund s ≫= λ _, mret true
  end.
(** The variants that refuse a thread that already has, or has not, the reason. *)
Definition stop_once (grund : Z) (tid : ThreadId.t) : M St bool :=
  os ← resolve tid;
  match os with
  | None => mret false
  | Some s =>
      t ← tcb s;
      if BlockReasons.has (Tcb.reasons t) grund then mret false
      else stop_with grund s ≫= λ _, mret true
  end.
Definition wake_once (grund : Z) (tid : ThreadId.t) : M St bool :=
  os ← resolve tid;
  match os with
  | None => mret false
  | Some s =>
      t ← tcb s;
      if negb (BlockReasons.has (Tcb.reasons t) grund) then mret false
      else wake_from grund s ≫= λ _, mret true
  end.

Definition pause := stop_thread BlockReasons.PAUSE.
Definition resume := wake_thread BlockReasons.PAUSE.
Definition mark_handler_wait := stop_thread BlockReasons.HANDLER.
Definition handler_reply := wake_thread BlockReasons.HANDLER.
Definition load_reply := wake_thread BlockReasons.LOAD.
Definition debug_stop := stop_once BlockReasons.DEBUG.
Definition debug_continue := wake_once BlockReasons.DEBUG.
Definition freeze_group := stop_once BlockReasons.FREEZE.
Definition thaw_group := wake_once BlockReasons.FREEZE.

Definition set_handler (tid : ThreadId.t) (bindung : option Bindung.t) : M St bool :=
  os ← resolve tid;
  match os with
  | None => mret false
  | Some s => upd_tcb s (Tcb.with_handler bindung) ≫= λ _, mret true
  end.
Definition handler_of (tid : ThreadId.t) : M St (option Bindung.t) :=
  o ← query Tcb.handler tid; mret (o ≫= λ b, b).
Definition current_handler (core : nat) : M St (option Bindung.t) :=
  cur ← self current;
  match cur with
  | None => mret None
  | Some c => t ← tcb c; mret (Tcb.handler t)
  end.

Definition debug_release_pd (pd_of : ThreadId.t → option Z) (pd : Z) : M St nat :=
  l ← slots;
  fold_m (λ n s,
    t ← tcb s;
    if negb (Tcb.used t) || negb (BlockReasons.has (Tcb.reasons t) BlockReasons.DEBUG) then mret n
    else
      tid ← id s;
      if negb (bool_decide (pd_of tid = Some pd)) then mret n
      else wake_from BlockReasons.DEBUG s ≫= λ _, mret (n + 1)%nat) l 0%nat.

Definition count_threads (p : Tcb.t → bool) (s : t) : nat :=
  count_if (λ t, Tcb.used t && p t) (tcbs s).
Definition debug_stopped_count :=
  count_threads (λ t, BlockReasons.has (Tcb.reasons t) BlockReasons.DEBUG).
Definition group_frozen_count :=
  count_threads (λ t, BlockReasons.has (Tcb.reasons t) BlockReasons.FREEZE).
Definition handler_bound_count := count_threads (λ t, bool_decide (is_Some (Tcb.handler t))).

(** [live_thread_ids]: the handles written to a buffer of [room] entries, or the
    number needed. *)
Definition live_thread_ids (room : nat) (s : t) : result (list ThreadId.t) nat :=
  let gebraucht := count_if Tcb.used (tcbs s) in
  if decide (room < gebraucht)%nat then Err gebraucht
  else Ok ((λ t, ThreadId.mk (Z.to_nat (Tcb.gid t)) (Tcb.gen t)) <$>
             base.filter (λ t, Tcb.used t = true) (tcbs s)).

(** ** Deadlines *)

Definition frist_setzen (core : nat) (ticks grund : Z) : M St unit :=
  cur ← self current;
  cur ← expect cur;
  if ticks =? 0 then
    upd_tcb cur (Tcb.with_frist 0) ≫= λ _, upd_tcb cur (Tcb.with_frist_grund 0)
  else
    n ← self now;
    let d := saturating_add 64 n ticks in
    upd_tcb cur (Tcb.with_frist d) ≫= λ _,
    upd_tcb cur (Tcb.with_frist_grund grund) ≫= λ _,
    upd (λ s, if d <? naechste_frist s then with_naechste_frist d s else s).

Definition frist_loeschen (tid : ThreadId.t) : M St unit :=
  ot ← resolve tid;
  match ot with
  | Some t => upd_tcb t (Tcb.with_frist 0) ≫= λ _, upd_tcb t (Tcb.with_frist_grund 0)
  | None => mret tt
  end.

(** The loop's variables: the handles released so far ([out[..n]]) and
    [naechste]; [room] is [out.len()]. *)
Definition fristen_schritt (room : nat) (acc : list ThreadId.t * Z) (i : nat) :
    M St (list ThreadId.t * Z) :=
  let '(out, naechste) := acc in
  t ← tcb i;
  let f := Tcb.frist t in
  if negb (Tcb.used t) || (f =? 0) then mret (out, naechste)
  else
    jetzt ← self now;
    match frist_befund jetzt f (BlockReasons.enthaelt (Tcb.reasons t) (Tcb.frist_grund t))
            (bool_decide (length out = room)) with
    | Zukunft => mret (out, if f <? naechste then f else naechste)
    | Aufschieben =>
        upd (λ s, with_fristen_ueberlauf (wrapping_add 64 (fristen_ueberlauf s) 1) s) ≫= λ _,
        mret (out, if f <? naechste then f else naechste)
    | SignalGewann =>
        upd_tcb i (Tcb.with_frist 0) ≫= λ _,
        upd_tcb i (Tcb.with_frist_grund 0) ≫= λ _,
        mret (out, naechste)
    | Freigeben =>
        let grund := Tcb.frist_grund t in
        upd_tcb i (Tcb.with_frist 0) ≫= λ _,
        upd_tcb i (Tcb.with_frist_grund 0) ≫= λ _,
        t ← tcb i;
        if negb (BlockReasons.enthaelt (Tcb.reasons t) grund) then mret (out, naechste)
        else
          upd_tcb i (Tcb.unblock grund) ≫= λ _,
          tid ← id i;
          t ← tcb i;
          (if BlockReasons.is_empty (Tcb.reasons t) && (Tcb.queued t =? NOT_QUEUED)
           then enqueue_ready i else mret tt) ≫= λ _,
          mret (out ++ [tid], naechste)
    end.

Definition fristen_faellig (room : nat) : M St (list ThreadId.t) :=
  s ← self (λ s, s);
  if now s <? naechste_frist s then mret []
  else
    l ← slots;
    r ← fold_m (fristen_schritt room) l ([], max_value 64);
    upd (with_naechste_frist r.2) ≫= λ _, mret r.1.

Definition nohz_stand (s : t) : option (Z * option Z * bool) :=
  let rivalen := fold_left (λ n q, wrapping_add 64 n (ListHead.count q)) (queues s) 0 in
  let weckruf := if negb (naechste_frist s =? max_value 64)
                 then Some (saturating_sub (naechste_frist s) (now s)) else None in
  let weckruf := fold_left (λ w t,
    if Tcb.used t && (0 <? Tcb.budget t) && Tcb.depleted t then
      let d := saturating_sub (Tcb.next_refill t) (now s) in
      Some (match w with Some bisher => Z.min bisher d | None => d end)
    else w) (tcbs s) weckruf in
  match current s with
  | None => Some (rivalen, weckruf, false)
  | Some cur => t ← tcbs s !! cur; Some (rivalen, weckruf, 0 <? Tcb.budget t)
  end.

(** ** Budgets and the tick *)

(** The wake loop of [refill_depleted] and [set_budget]: every thread blocked
    because of the account [slot]. *)
Definition wake_donees (slot : nat) : M St unit :=
  n ← self budget_blocked_count;
  if 0 <? n then
    l ← slots;
    for_ l (λ d,
      t ← tcb d;
      if negb (bool_decide (d = slot)) && Tcb.used t &&
         BlockReasons.has (Tcb.reasons t) BlockReasons.BUDGET &&
         bool_decide (Tcb.sc_donor t = Some slot)
      then set_budget_blocked d false ≫= λ _, wecke_falls_lauffaehig d
      else mret tt)
  else mret tt.

Definition refill_slot (slot : nat) : M St unit :=
  t ← tcb slot;
  n ← self now;
  if Tcb.used t && (0 <? Tcb.budget t) && Tcb.depleted t && (Tcb.next_refill t <=? n) then
    upd_tcb slot (Tcb.with_remaining (Tcb.budget t)) ≫= λ _,
    upd_tcb slot (Tcb.with_depleted false) ≫= λ _,
    upd (λ s, with_depleted_count (wrapping_sub 64 (depleted_count s) 1) s) ≫= λ _,
    upd (λ s, with_refills (wrapping_add 64 (refills s) 1) s) ≫= λ _,
    wake_donees slot ≫= λ _,
    t ← tcb slot;
    if match Tcb.sc_donee t with Some d => negb (bool_decide (d = slot)) | None => false end
    then mret tt
    else
      cur ← self current;
      if decide (cur = Some slot) then mret tt else wecke_falls_lauffaehig slot
  else mret tt.

Definition refill_depleted : M St unit :=
  l ← slots; for_ l refill_slot.

(** Charging one tick to the account of [cur]; [true] where [cur] stays ready. *)
Definition charge_tick (cur : nat) (requeue : bool) : M St bool :=
  t ← tcb cur;
  let acct := default cur (Tcb.sc_donor t) in
  upd_tcb acct (λ a, Tcb.with_remaining (saturating_sub (Tcb.remaining a) 1) a) ≫= λ _,
  a ← tcb acct;
  if Tcb.remaining a =? 0 then
    n ← self now;
    upd_tcb acct (Tcb.with_depleted true) ≫= λ _,
    upd_tcb acct (Tcb.with_next_refill (wrapping_add 64 n (Tcb.period a))) ≫= λ _,
    upd (λ s, with_depleted_count (wrapping_add 64 (depleted_count s) 1) s) ≫= λ _,
    upd (λ s, with_depletions (wrapping_add 64 (depletions s) 1) s) ≫= λ _,
    (if decide (acct ≠ cur) then set_budget_blocked cur true else mret tt) ≫= λ _,
    mret false
  else mret requeue.

Definition on_tick (core : nat) (frame : Z) (tick : bool) : M St Z :=
  (if tick then
     upd (λ s, with_now (wrapping_add 64 (now s) 1) s) ≫= λ _,
     n ← self depleted_count;
     if 0 <? n then refill_depleted else mret tt
   else mret tt) ≫= λ _,
  cur ← self current;
  match cur with
  | None => mret tt
  | Some cur =>
      upd_tcb cur (Tcb.with_sp frame) ≫= λ _,
      t ← tcb cur;
      let requeue := BlockReasons.is_empty (Tcb.reasons t) in
      a ← tcb (default cur (Tcb.sc_donor t));
      requeue ← (if tick && (0 <? Tcb.budget a) then charge_tick cur requeue else mret requeue);
      if requeue : bool then enqueue_ready cur else mret tt
  end ≫= λ _,
  on ← dequeue_highest;
  match on with
  | Some next =>
      upd (with_current (Some next)) ≫= λ _,
      t ← tcb next; mret (Tcb.sp t)
  | None => mret frame
  end.

Definition set_budget (tid : ThreadId.t) (budget period : Z) : M St bool :=
  os ← resolve tid;
  match os with
  | None => mret false
  | Some s =>
      ts ← tcb s;
      let was_depleted := Tcb.depleted ts in
      n ← self now;
      upd_tcb s (Tcb.with_budget budget) ≫= λ _,
      upd_tcb s (Tcb.with_period (Z.max period 1)) ≫= λ _,
      upd_tcb s (Tcb.with_remaining budget) ≫= λ _,
      upd_tcb s (Tcb.with_next_refill (wrapping_add 64 n period)) ≫= λ _,
      upd_tcb s (Tcb.with_depleted false) ≫= λ _,
      (if was_depleted then
         upd (λ s, with_depleted_count (wrapping_sub 64 (depleted_count s) 1) s) ≫= λ _,
         wake_donees s ≫= λ _,
         cur ← self current;
         if decide (cur = Some s) then mret tt else wecke_falls_lauffaehig s
       else mret tt) ≫= λ _,
      mret true
  end.

Definition set_cycle_source (source : Source) : M St unit := upd (with_cycle_source source).

Definition charge_current (core : nat) (now_ : Z) : M St unit :=
  cur ← self current;
  match cur with
  | None => mret tt
  | Some cur =>
      t ← tcb cur;
      match Tcb.stamp t with
      | None => mret tt
      | Some prev =>
          upd_tcb cur (Tcb.with_stamp None) ≫= λ _,
          src ← self cycle_source;
          let s := measure prev (Stamp.mk now_ (Z.of_nat core `mod` 2 ^ 16)) src
                     MAX_PLAUSIBLE_SLICE in
          let acct := default cur (Tcb.sc_donor t) in
          upd_tcb acct (λ a, Tcb.with_cyc (CycleStats.apply s (Tcb.cyc a)) a) ≫= λ _,
          upd (λ sc, with_cyc_core (CycleStats.apply s (cyc_core sc)) sc)
      end
  end.

Definition stamp_current (core : nat) (now_ : Z) : M St unit :=
  cur ← self current;
  match cur with
  | None => mret tt
  | Some cur => upd_tcb cur (Tcb.with_stamp (Some (Stamp.mk now_ (Z.of_nat core `mod` 2 ^ 16))))
  end.

Definition end_donation (core : nat) : M St unit :=
  cur ← self current;
  match cur with
  | None => mret tt
  | Some cur =>
      t ← tcb cur;
      match Tcb.sc_donor t with
      | None => mret tt
      | Some acct =>
          upd_tcb cur (Tcb.with_sc_donor None) ≫= λ _,
          ta ← tcb acct;
          if decide (Tcb.sc_donee ta = Some cur)
          then upd_tcb acct (Tcb.with_sc_donee None) else mret tt
      end
  end.

(** ** Migration *)

Definition detach_for_migration (tid : ThreadId.t) : M St (option Migrant.t) :=
  os ← resolve tid;
  match os with
  | None => mret None
  | Some s =>
      cur ← self current;
      if decide (cur = Some s) then mret None
      else
        t ← tcb s;
        if bool_decide (is_Some (Tcb.sc_donor t)) || bool_decide (is_Some (Tcb.sc_donee t))
        then mret None
        else if BlockReasons.has (Tcb.reasons t) BlockReasons.DEBUG then mret None
        else if BlockReasons.has (Tcb.reasons t) BlockReasons.FREEZE then mret None
        else
          let was_ready := negb (Tcb.queued t =? NOT_QUEUED) in
          remove_from_ready s ≫= λ _,
          t ← tcb s;
          let m := Tcb.with_qprev NIL (Tcb.with_qnext NIL (Tcb.with_queued NOT_QUEUED t)) in
          (if Tcb.depleted t
           then upd (λ s, with_depleted_count (wrapping_sub 64 (depleted_count s) 1) s)
           else mret tt) ≫= λ _,
          (if BlockReasons.has (Tcb.reasons t) BlockReasons.BUDGET
           then upd (λ s, with_budget_blocked_count
                            (wrapping_sub 64 (budget_blocked_count s) 1) s)
           else mret tt) ≫= λ _,
          upd_tcb s (λ _, Tcb.EMPTY) ≫= λ _,
          on_free (modify (FreeList.free s)) ≫= λ _,
          upd (λ s, with_used (wrapping_sub 64 (used s) 1) s) ≫= λ _,
          store_load ≫= λ _,
          upd (λ s, with_migrations_out (wrapping_add 64 (migrations_out s) 1) s) ≫= λ _,
          mret (Some (Migrant.mk m was_ready))
  end.

Definition attach_migrated (m : Migrant.t) : M St (result unit Migrant.t) :=
  os ← on_free FreeList.alloc;
  match os with
  | None => mret (Err m)
  | Some s =>
      n ← self now;
      let tcb := Migrant.tcb m in
      let tcb := if Tcb.depleted tcb
                 then Tcb.with_next_refill (wrapping_add 64 n (Tcb.period tcb)) tcb else tcb in
      (if Tcb.depleted tcb
       then upd (λ s, with_depleted_count (wrapping_add 64 (depleted_count s) 1) s)
       else mret tt) ≫= λ _,
      (if BlockReasons.has (Tcb.reasons tcb) BlockReasons.BUDGET
       then upd (λ s, with_budget_blocked_count (wrapping_add 64 (budget_blocked_count s) 1) s)
       else mret tt) ≫= λ _,
      let tcb := Tcb.with_qprev NIL (Tcb.with_qnext NIL (Tcb.with_queued NOT_QUEUED tcb)) in
      upd_tcb s (λ _, tcb) ≫= λ _,
      upd (λ s, with_used (wrapping_add 64 (used s) 1) s) ≫= λ _,
      store_load ≫= λ _,
      upd (λ s, with_migrations_in (wrapping_add 64 (migrations_in s) 1) s) ≫= λ _,
      publish_dir s ≫= λ _,
      (if Migrant.was_ready m then enqueue_ready s else mret tt) ≫= λ _,
      mret (Ok tt)
  end.

(** The [while i != NIL] of [migration_candidate]; a queue holds at most as many
    threads as the table. *)
Fixpoint candidate_in (fuel : nat) (i : Z) : M St (option ThreadId.t) :=
  if i =? NIL then mret None
  else
    match fuel with
    | O => panic
    | S fuel =>
        let s := Z.to_nat i in
        t ← tcb s;
        cur ← self current;
        if bool_decide (cur = Some s) || bool_decide (is_Some (Tcb.sc_donor t)) ||
           bool_decide (is_Some (Tcb.sc_donee t)) || (Tcb.stack_len t =? 0)
        then candidate_in fuel (Tcb.qnext t)
        else tid ← id s; mret (Some tid)
    end.
Fixpoint candidate_from (fuel : nat) (ps : list nat) : M St (option ThreadId.t) :=
  match ps with
  | [] => mret None
  | p :: ps =>
      q ← queue p;
      o ← candidate_in fuel (ListHead.head q);
      match o with Some tid => mret (Some tid) | None => candidate_from fuel ps end
  end.
Definition migration_candidate : M St (option ThreadId.t) :=
  n ← self (λ s, length (tcbs s));
  candidate_from n (seq 0 NPRIO).

(** ** The audit *)

(** The walk over queue [p] from link [i] with predecessor [prev] after [n]
    entries: an error code, or the number of entries and the last one. *)
Fixpoint audit_walk (s : t) (p : nat) (q : ListHead.t) (fuel : nat) (i prev n : Z) :
    result (Z * Z) Z :=
  if i =? NIL then Ok (n, prev)
  else
    match fuel with
    | O => Err 5
    | S fuel =>
        let sl := Z.to_nat i in
        match tcbs s !! sl with
        | None => Err 1
        | Some t =>
            if negb (Tcb.used t) then Err 1
            else if negb (BlockReasons.is_empty (Tcb.reasons t)) then Err 2
            else if Tcb.depleted t then Err 9
            else if negb (Tcb.queued t =? Z.of_nat p) || negb (Tcb.priority t =? Z.of_nat p) then Err 6
            else if negb (Tcb.qprev t =? prev) then Err 3
            else if decide (current s = Some sl) then Err 4
            else if ListHead.count q <? n + 1 then Err 5
            else audit_walk s p q fuel (Tcb.qnext t) i (n + 1)
        end
    end.

Definition audit_queue (s : t) (p : nat) : Z :=
  match queues s !! p with
  | None => 5
  | Some q =>
      if negb (eqb (Z.testbit (bitmap s) (Z.of_nat p)) (0 <? ListHead.count q)) then 5
      else
        match audit_walk s p q (S (Z.to_nat (ListHead.count q))) (ListHead.head q) NIL 0 with
        | Err c => c
        | Ok (n, prev) =>
            if negb (n =? ListHead.count q) || negb (ListHead.tail q =? prev) then 5 else 0
        end
  end.

Fixpoint audit_queues (s : t) (ps : list nat) : Z :=
  match ps with
  | [] => 0
  | p :: ps => let c := audit_queue s p in if c =? 0 then audit_queues s ps else c
  end.

(** The pass over the table with [bb] budget-blocked threads so far. *)
Fixpoint audit_table (st : St) (l : list Tcb.t) (local : nat) (bb : Z) : Z :=
  match l with
  | [] => if negb (bb =? budget_blocked_count (sch st)) then 10 else 0
  | t :: l =>
      if negb (Tcb.used t) then audit_table st l (S local) bb
      else
        let bb := if BlockReasons.has (Tcb.reasons t) BlockReasons.BUDGET then bb + 1 else bb in
        if negb (match Globals.dir_load (glo st) (Z.to_nat (Tcb.gid t)) with
                 | Some e => dir_used e && (dir_gen e =? Tcb.gen t) &&
                             bool_decide (dir_core e = core (sch st)) &&
                             bool_decide (dir_local e = local)
                 | None => false
                 end) then 8
        else if BlockReasons.is_empty (Tcb.reasons t) && negb (Tcb.depleted t) && Tcb.admitted t &&
                negb (bool_decide (current (sch st) = Some local)) &&
                (Tcb.queued t =? NOT_QUEUED) then 7
        else audit_table st l (S local) bb
  end.

Definition audit (st : St) : Z :=
  let c := audit_queues (sch st) (seq 0 NPRIO) in
  if c =? 0 then audit_table st (tcbs (sch st)) 0 0 else c.
End Scheduler.
