(* ===== verification/SchedReady.v ===== *)
(** * The ready queues

    [ready s Q]: the links of the TCB table, the list heads and the bitmap of
    scheduler [s] represent the queues [Q] (a list of table indices per
    priority).  [enqueue_ready], [remove_from_ready] and [dequeue_highest] are
    list operations on [Q] and change nothing but links, heads and bitmap.  *)

From S2P Require Import Prelude PanicMonad Dll Slab Redirect SchedData Sched.
Import Scheduler.
#[local] Open Scope Z_scope.

(** ** Views of the TCB table *)

Definition nxt (l : list Tcb.t) (i : nat) : option nat := l !! i ≫= λ t, of_link (Tcb.qnext t).
Definition prv (l : list Tcb.t) (i : nat) : option nat := l !! i ≫= λ t, of_link (Tcb.qprev t).

(** A TCB without its links. *)
Definition unlinked (t : Tcb.t) : Tcb.t :=
  Tcb.with_queued NOT_QUEUED (Tcb.with_qnext NIL (Tcb.with_qprev NIL t)).

(** Two schedulers that differ in links, list heads and bitmap only. *)
Record relinked (s s' : t) : Prop := {
  rl_tcbs : unlinked <$> tcbs s' = unlinked <$> tcbs s;
  rl_rest : s' = with_bitmap (bitmap s') (with_queues (queues s') (with_tcbs (tcbs s') s)) }.

Definition queue_map := nat → list nat.
Implicit Types Q : queue_map.
Definition qadd (p i : nat) Q : queue_map := λ p', if decide (p' = p) then Q p ++ [i] else Q p'.
Definition qdel (i : nat) Q : queue_map := λ p, base.filter (λ j, j ≠ i) (Q p).

Record ready (s : t) Q : Prop := {
  rd_cap : Z.of_nat (length (tcbs s)) <= 2 ^ 16;
  rd_nq : length (queues s) = NPRIO;
  rd_heads : ∀ p, (p < NPRIO)%nat →
    queues s !! p = Some (ListHead.mk (to_link (hd_error (Q p))) (to_link (last (Q p)))
                            (Z.of_nat (length (Q p))));
  rd_dll : ∀ p, dll (nxt (tcbs s)) (prv (tcbs s)) (Q p);
  rd_mem : ∀ p i, i ∈ Q p ↔
    (p < NPRIO)%nat ∧ ∃ t, tcbs s !! i = Some t ∧ Tcb.queued t = Z.of_nat p;
  rd_canon : ∀ i t, tcbs s !! i = Some t →
    Tcb.qnext t = to_link (of_link (Tcb.qnext t)) ∧ Tcb.qprev t = to_link (of_link (Tcb.qprev t));
  rd_queued : ∀ i t, tcbs s !! i = Some t →
    Tcb.queued t = NOT_QUEUED ∨ 0 <= Tcb.queued t < Z.of_nat NPRIO;
  rd_bitmap : ∀ p, Z.testbit (bitmap s) (Z.of_nat p) = bool_decide (Q p ≠ []);
  rd_bitmap_pos : 0 <= bitmap s }.

(** ** Basic facts *)

Lemma unlinked_fields t t' : unlinked t' = unlinked t →
  Tcb.used t' = Tcb.used t ∧ Tcb.gid t' = Tcb.gid t ∧ Tcb.gen t' = Tcb.gen t ∧
  Tcb.sp t' = Tcb.sp t ∧ Tcb.priority t' = Tcb.priority t ∧ Tcb.reasons t' = Tcb.reasons t ∧
  Tcb.stack_base t' = Tcb.stack_base t ∧ Tcb.stack_len t' = Tcb.stack_len t ∧
  Tcb.frist t' = Tcb.frist t ∧ Tcb.frist_grund t' = Tcb.frist_grund t ∧ Tcb.tls t' = Tcb.tls t ∧
  Tcb.admitted t' = Tcb.admitted t ∧ Tcb.budget t' = Tcb.budget t ∧ Tcb.period t' = Tcb.period t ∧
  Tcb.remaining t' = Tcb.remaining t ∧ Tcb.next_refill t' = Tcb.next_refill t ∧
  Tcb.depleted t' = Tcb.depleted t ∧ Tcb.park_wake t' = Tcb.park_wake t ∧
  Tcb.sc_donor t' = Tcb.sc_donor t ∧ Tcb.sc_donee t' = Tcb.sc_donee t ∧
  Tcb.cyc t' = Tcb.cyc t ∧ Tcb.stamp t' = Tcb.stamp t ∧ Tcb.handler t' = Tcb.handler t.
Proof. intros [= ]. split_and!; assumption. Qed.

Lemma relinked_refl s : relinked s s.
Proof. split; [done|]. by destruct s. Qed.

Lemma relinked_trans s1 s2 s3 : relinked s1 s2 → relinked s2 s3 → relinked s1 s3.
Proof.
  intros [H1 E1] [H2 E2]. split; [congruence|]. rewrite E2, E1. by destruct s1, s2, s3.
Qed.

Lemma relinked_lookup s s' i t' :
  relinked s s' → tcbs s' !! i = Some t' → ∃ t, tcbs s !! i = Some t ∧ unlinked t' = unlinked t.
Proof.
  intros [H _] Hi. apply (f_equal (.!! i)) in H. rewrite !list_lookup_fmap, Hi in H.
  simpl in H. destruct (tcbs s !! i) as [t|] eqn:E; [|done]. exists t. split; [done|].
  simpl in H. congruence.
Qed.

Lemma relinked_lookup_r s s' i t :
  relinked s s' → tcbs s !! i = Some t → ∃ t', tcbs s' !! i = Some t' ∧ unlinked t' = unlinked t.
Proof.
  intros [H _] Hi. apply (f_equal (.!! i)) in H. rewrite !list_lookup_fmap, Hi in H.
  simpl in H. destruct (tcbs s' !! i) as [t'|] eqn:E; [|done]. exists t'. split; [done|].
  simpl in H. congruence.
Qed.

Lemma relinked_length s s' : relinked s s' → length (tcbs s') = length (tcbs s).
Proof. intros [H _]. apply (f_equal length) in H. by rewrite !length_fmap in H. Qed.

(** The fields a relinking keeps. *)
Lemma relinked_fields s s' : relinked s s' →
  core s' = core s ∧ free s' = free s ∧ current s' = current s ∧ zombies s' = zombies s ∧
  zhead s' = zhead s ∧ ztail s' = ztail s ∧ zcount s' = zcount s ∧ now s' = now s ∧
  used s' = used s ∧ depleted_count s' = depleted_count s ∧
  budget_blocked_count s' = budget_blocked_count s ∧ naechste_frist s' = naechste_frist s ∧
  depletions s' = depletions s ∧ refills s' = refills s.
Proof. intros [_ ->]. done. Qed.

Section ready.
Context (s : t) (Q : queue_map) (HR : ready s Q).

Lemma rd_elem p i : i ∈ Q p → (i < length (tcbs s))%nat.
Proof. intros (_ & t & Ht & _)%(rd_mem _ _ HR). by eapply lookup_lt_Some. Qed.

Lemma rd_small p i : i ∈ Q p → Z.of_nat i < 2 ^ 32 - 1.
Proof. intros Hi%rd_elem. pose proof (rd_cap _ _ HR). lia. Qed.

Lemma rd_unique p p' i : i ∈ Q p → i ∈ Q p' → p = p'.
Proof.
  intros (_ & t & Ht & E)%(rd_mem _ _ HR) (_ & t' & Ht' & E')%(rd_mem _ _ HR).
  simplify_eq. lia.
Qed.

Lemma rd_nodup p : NoDup (Q p).
Proof. eapply dll_NoDup. apply HR. Qed.

Lemma rd_length p : (length (Q p) ≤ length (tcbs s))%nat.
Proof. apply NoDup_bounded_length; [apply rd_nodup|]. apply rd_elem. Qed.

Lemma rd_not_queued i t : tcbs s !! i = Some t →
  (Tcb.queued t =? NOT_QUEUED) = true ↔ ∀ p, i ∉ Q p.
Proof.
  intros Ht. rewrite Z.eqb_eq. split.
  - intros E p (Hp & t' & Ht' & E')%(rd_mem _ _ HR). simplify_eq.
    unfold NOT_QUEUED, NPRIO in *. lia.
  - intros H. destruct (rd_queued _ _ HR i t Ht) as [|Hq]; [done|].
    destruct (H (Z.to_nat (Tcb.queued t))). apply (rd_mem _ _ HR). split; [lia|].
    exists t. split; [done|]. lia.
Qed.

Lemma rd_queued_in i t : tcbs s !! i = Some t → (Tcb.queued t =? NOT_QUEUED) = false →
  ∃ p, (p < NPRIO)%nat ∧ Tcb.queued t = Z.of_nat p ∧ i ∈ Q p.
Proof.
  intros Ht E%Z.eqb_neq. destruct (rd_queued _ _ HR i t Ht) as [|Hq]; [done|].
  exists (Z.to_nat (Tcb.queued t)). split_and!; [lia|lia|]. apply (rd_mem _ _ HR).
  split; [lia|]. exists t. split; [done|]. lia.
Qed.

Lemma rd_high p : (NPRIO ≤ p)%nat → Q p = [].
Proof.
  intros Hp. apply elem_of_nil_inv. intros i (Hlt & _)%(rd_mem _ _ HR). lia.
Qed.
End ready.

Lemma of_link_to_link_ok s Q p o :
  ready s Q → (∀ i, o = Some i → i ∈ Q p) → of_link (to_link o) = o.
Proof. intros HR H. apply of_to_link. intros i Hi. eapply rd_small; [done|]. by eapply H. Qed.

(** ** Reading and writing one TCB or list head *)

(** Symbolic execution over known entries of the tables. *)
Ltac sx :=
  repeat first
    [ progress cbn [fmap option_fmap option_map sch glo with_sch tcbs with_tcbs queues with_queues bitmap]
    | rewrite list_lookup_alter_eq
    | rewrite list_lookup_alter_ne by congruence
    | match goal with H : _ !! ?i = Some _ |- context [ _ !! ?i ] => rewrite H end ].

Lemma wp_tcb i st t (R : Tcb.t → St → Prop) :
  tcbs (sch st) !! i = Some t → R t st → wp (tcb i) st R.
Proof. intros Ht HR. apply wp_bind, wp_gets. by eapply wp_expect. Qed.

Lemma wp_upd_tcb i f st t (R : unit → St → Prop) :
  tcbs (sch st) !! i = Some t →
  R tt (with_sch (with_tcbs (alter f i (tcbs (sch st))) (sch st)) st) → wp (upd_tcb i f) st R.
Proof. intros Ht HR. apply wp_bind. eapply wp_tcb; [done|]. by apply wp_modify. Qed.

Lemma wp_queue p st q (R : ListHead.t → St → Prop) :
  queues (sch st) !! p = Some q → R q st → wp (queue p) st R.
Proof. intros Ht HR. apply wp_bind, wp_gets. by eapply wp_expect. Qed.

Lemma wp_upd_queue p f st q (R : unit → St → Prop) :
  queues (sch st) !! p = Some q →
  R tt (with_sch (with_queues (alter f p (queues (sch st))) (sch st)) st) → wp (upd_queue p f) st R.
Proof. intros Ht HR. apply wp_bind. eapply wp_queue; [done|]. by apply wp_modify. Qed.

Lemma wp_self {A} (f : t → A) st (R : A → St → Prop) : R (f (sch st)) st → wp (self f) st R.
Proof. intros. by apply wp_gets. Qed.

Lemma wp_upd f st (R : unit → St → Prop) :
  R tt (with_sch (f (sch st)) st) → wp (upd f) st R.
Proof. intros. by apply wp_modify. Qed.

Lemma wp_upd_glo f st (R : unit → St → Prop) :
  R tt (with_glo (f (glo st)) st) → wp (upd_glo f) st R.
Proof. intros. by apply wp_modify. Qed.

(** ** Appending a thread *)

(** What [enqueue_ready] makes of entry [j] of the table. *)
Definition enqueued_tcb (Q : queue_map) (p i j : nat) (t : Tcb.t) : Tcb.t :=
  if decide (j = i)
  then Tcb.with_queued (Z.of_nat p) (Tcb.with_qnext NIL (Tcb.with_qprev (to_link (last (Q p))) t))
  else if decide (last (Q p) = Some j) then Tcb.with_qnext (as_u32 i) t else t.

Lemma enqueued_self Q p i t : enqueued_tcb Q p i i t =
  Tcb.with_queued (Z.of_nat p) (Tcb.with_qnext NIL (Tcb.with_qprev (to_link (last (Q p))) t)).
Proof. unfold enqueued_tcb. by rewrite decide_True. Qed.

Lemma enqueued_last Q p i j t :
  j ≠ i → last (Q p) = Some j → enqueued_tcb Q p i j t = Tcb.with_qnext (as_u32 i) t.
Proof. intros. unfold enqueued_tcb. rewrite decide_ne by done. by rewrite decide_True. Qed.

Lemma enqueued_other Q p i j t :
  j ≠ i → last (Q p) ≠ Some j → enqueued_tcb Q p i j t = t.
Proof. intros. unfold enqueued_tcb. rewrite decide_ne by done. by rewrite decide_False. Qed.

(** Tables described entry by entry have the same length. *)
Lemma lookup_fmap_length {A B} (l : list A) (l' : list B) (f : nat → A → B) :
  (∀ j, l' !! j = f j <$> l !! j) → length l' = length l.
Proof.
  intros H. assert (∀ j, (j < length l' ↔ j < length l)%nat) as Hs.
  { intros j. rewrite <-!lookup_lt_is_Some, H. by rewrite fmap_is_Some. }
  destruct (Nat.lt_total (length l') (length l)) as [Hlt|[?|Hlt]]; [|done|]; apply Hs in Hlt; lia.
Qed.

Lemma ready_enqueue s Q i p l' qs' b' :
  ready s Q → (i < length (tcbs s))%nat → (∀ p, i ∉ Q p) → (p < NPRIO)%nat →
  (∀ j, l' !! j = enqueued_tcb Q p i j <$> tcbs s !! j) →
  length qs' = length (queues s) →
  (∀ p', qs' !! p' = if decide (p' = p)
     then Some (ListHead.mk (to_link (hd_error (Q p ++ [i]))) (as_u32 i)
                  (Z.of_nat (length (Q p) + 1)))
     else queues s !! p') →
  b' = Z.lor (bitmap s) (Z.shiftl 1 (Z.of_nat p)) →
  ready (with_bitmap b' (with_queues qs' (with_tcbs l' s))) (qadd p i Q).
Proof.
  intros HR Hi Hn Hp Hl Hlen Hq ->.
  assert (length l' = length (tcbs s)) as Hll by by eapply lookup_fmap_length.
  assert (∀ j, j ≠ i → nxt l' j = if decide (last (Q p) = Some j) then Some i else nxt (tcbs s) j) as Hnx.
  { intros j Hj. unfold nxt. rewrite Hl. destruct (tcbs s !! j) as [t|] eqn:Ht.
    - destruct (decide (last (Q p) = Some j)) as [Hd|Hd]; simpl.
      + rewrite enqueued_last by done. simpl.
        apply (of_to_link (Some i)). intros k [= <-]. pose proof (rd_cap _ _ HR). lia.
      + by rewrite enqueued_other.
    - simpl. case_decide as Hd; [|done]. apply last_elem, (rd_elem _ _ HR) in Hd.
      apply lookup_ge_None in Ht. lia. }
  assert (∀ j, j ≠ i → prv l' j = prv (tcbs s) j) as Hpv.
  { intros j Hj. unfold prv. rewrite Hl. destruct (tcbs s !! j) as [t|]; [|done]. simpl.
    destruct (decide (last (Q p) = Some j)); [by rewrite enqueued_last|by rewrite enqueued_other]. }
  apply lookup_lt_is_Some_2 in Hi as [t Ht].
  assert (nxt l' i = None ∧ prv l' i = last (Q p)) as [Hni Hpi].
  { unfold nxt, prv. rewrite Hl, Ht. simpl. rewrite enqueued_self. simpl.
    split; [done|]. eapply of_link_to_link_ok; [done|]. intros k. apply last_elem. }
  split; cbn [tcbs queues bitmap with_bitmap with_queues with_tcbs].
  - rewrite Hll. apply HR.
  - rewrite Hlen. apply HR.
  - intros p' Hp'. rewrite Hq. unfold qadd. case_decide as E; [subst p'|by apply HR].
    rewrite last_snoc, length_app. simpl. do 2 f_equal.
  - intros p'. unfold qadd. case_decide as E; [subst p'|].
    + eapply dll_snoc; [apply (rd_dll _ _ HR p)|apply Hn|done|done| |].
      * intros y Hy. apply Hpv. intros ->. by apply (Hn p).
      * intros y Hy. apply Hnx. intros ->. by apply (Hn p).
    + eapply dll_ext; [apply (rd_dll _ _ HR p')|]. intros y Hy.
      assert (y ≠ i) as Hyi by (intros ->; by apply (Hn p')).
      rewrite Hnx, Hpv by done. split; [|done]. case_decide as Hd; [|done].
      apply last_elem in Hd. destruct E. by eapply rd_unique.
  - intros p' j. unfold qadd. rewrite Hl. destruct (decide (j = i)) as [->|Hj].
    + rewrite Ht. cbn [fmap option_fmap option_map]. rewrite enqueued_self. split.
      * intros Hin. case_decide as E; [subst p'|by destruct (Hn p')]. split; [done|]. by eexists.
      * intros (Hp' & t' & [= <-] & E). simpl in E. assert (p' = p) as -> by lia.
        rewrite decide_True by done. set_solver.
    + transitivity (j ∈ Q p').
      { case_decide as E; [subst p'; set_solver|done]. }
      rewrite (rd_mem _ _ HR). f_equiv. destruct (tcbs s !! j) as [tj|]; [|naive_solver]. simpl.
      destruct (decide (last (Q p) = Some j)); [rewrite enqueued_last by done|rewrite enqueued_other by done];
        naive_solver.
  - intros j t' Ht'. rewrite Hl in Ht'. apply fmap_Some in Ht' as (t0 & Ht0 & ->).
    pose proof (rd_canon _ _ HR _ _ Ht0) as [C1 C2].
    assert (of_link (to_link (last (Q p))) = last (Q p)) as E1.
    { eapply of_link_to_link_ok; [done|]. intros k. apply last_elem. }
    assert (of_link (as_u32 i) = Some i) as E2.
    { apply (of_to_link (Some i)). intros k [= <-]. apply lookup_lt_Some in Ht.
      pose proof (rd_cap _ _ HR). lia. }
    unfold enqueued_tcb. repeat case_decide; simpl; rewrite ?E1, ?E2; done.
  - intros j t' Ht'. rewrite Hl in Ht'. apply fmap_Some in Ht' as (t0 & Ht0 & ->).
    pose proof (rd_queued _ _ HR _ _ Ht0). unfold enqueued_tcb.
    case_decide as E; [right; simpl; lia|]. by case_decide.
  - intros p'. rewrite lor_testbit by lia. rewrite (rd_bitmap _ _ HR). unfold qadd.
    destruct (decide (p' = p)) as [->|Hne].
    + rewrite Z.eqb_refl, orb_true_r. symmetry. apply bool_decide_eq_true. by destruct (Q p).
    + destruct (Z.eqb_spec (Z.of_nat p') (Z.of_nat p)); [lia|]. by rewrite orb_false_r.
  - apply Z.lor_nonneg. split; [apply HR|]. apply Z.shiftl_nonneg. lia.
Qed.

Lemma enqueued_unlinked s Q i p l' :
  (∀ j, l' !! j = enqueued_tcb Q p i j <$> tcbs s !! j) →
  unlinked <$> l' = unlinked <$> tcbs s.
Proof.
  intros H. apply list_eq. intros j. rewrite !list_lookup_fmap, H.
  destruct (tcbs s !! j) as [t|]; [|done]. simpl. f_equal. unfold enqueued_tcb.
  repeat case_decide; by destruct t.
Qed.

(** The list head after appending. *)
Definition enqueued_head (Q : queue_map) (p i : nat) : ListHead.t :=
  ListHead.mk (to_link (hd_error (Q p ++ [i]))) (as_u32 i) (Z.of_nat (length (Q p) + 1)).

(** The branch of [enqueue_ready] that links the thread in, in one equation. *)
Lemma enqueue_ready_run i st Q t p :
  ready (sch st) Q → tcbs (sch st) !! i = Some t → (∀ p, i ∉ Q p) → Tcb.queued t = NOT_QUEUED →
  Tcb.priority t = Z.of_nat p → (p < NPRIO)%nat →
  ∃ l' qs', enqueue_ready i st =
    Some (tt, with_sch (with_bitmap (Z.lor (bitmap (sch st)) (Z.shiftl 1 (Z.of_nat p)))
                          (with_queues qs' (with_tcbs l' (sch st)))) st) ∧
    (∀ j, l' !! j = enqueued_tcb Q p i j <$> tcbs (sch st) !! j) ∧
    length qs' = length (queues (sch st)) ∧
    (∀ p', qs' !! p' = if decide (p' = p) then Some (enqueued_head Q p i) else queues (sch st) !! p').
Proof.
  intros HR Ht Hn Eq Hpr Hp.
  assert ((to_link (last (Q p)) =? NIL) = bool_decide (last (Q p) = None)) as Et.
  { apply to_link_NONE. intros k Hk%last_elem. by eapply rd_small. }
  assert (wrapping_add 32 (Z.of_nat (length (Q p))) 1 = Z.of_nat (length (Q p) + 1)) as Hcnt.
  { rewrite wrapping_add_exact; [lia|]. pose proof (rd_length _ _ HR p). pose proof (rd_cap _ _ HR).
    unfold in_width. lia. }
  pose proof (rd_heads _ _ HR p Hp) as Hq.
  destruct st as [s g]. cbn [sch glo] in *.
  unfold enqueue_ready, upd_tcb, upd_queue, tcb, queue, upd, self, gets, expect, modify, mbind, M_bind, mret, M_ret.
  cbn [sch glo with_sch]. rewrite Ht, Eq. cbn [negb Z.eqb]. rewrite Z.eqb_refl. cbn [negb].
  rewrite Hpr, Nat2Z.id. cbn [sch]. rewrite Hq. cbn [ListHead.tail sch glo with_sch tcbs with_tcbs queues].
  do 4 (rewrite ?list_lookup_alter_eq, ?Ht; cbn [fmap option_fmap option_map sch glo with_sch tcbs with_tcbs queues with_queues]).
  rewrite Et. destruct (last (Q p)) as [k|] eqn:El.
  - rewrite bool_decide_eq_false_2 by done.
    assert (k ∈ Q p) as Hk by by apply last_elem.
    pose proof (rd_small _ _ HR _ _ Hk) as Hks. cbn [to_link]. rewrite (as_u32_small k), Nat2Z.id by lia.
    apply (rd_elem _ _ HR) in Hk as Hkl. apply lookup_lt_is_Some_2 in Hkl as [tk Htk].
    assert (k ≠ i) as Hki by (intros ->; by apply (Hn p)).
    cbn [fmap option_fmap option_map sch glo with_sch tcbs with_tcbs queues with_queues bitmap]. rewrite !list_lookup_alter_ne, Htk by done.
    do 4 (rewrite ?list_lookup_alter_eq, ?Hq; cbn [fmap option_fmap option_map sch glo with_sch tcbs with_tcbs queues with_queues bitmap]).
    eexists _, _. split; [reflexivity|]. split_and!; [| by rewrite !length_alter|].
    + intros j. rewrite lookup_alter_if, !lookup_alter_if. destruct (tcbs s !! j) as [tj|] eqn:Hj; [|done].
      simpl. f_equal. destruct (decide (j = i)) as [->|Hji].
      * rewrite enqueued_self, (decide_ne k i), !decide_True, El by done. simpl.
        rewrite as_u32_small by lia. done.
      * rewrite !(decide_ne i j) by done. destruct (decide (k = j)) as [->|Hkj]; simpl.
        -- by rewrite enqueued_last.
        -- rewrite enqueued_other; [done|done|congruence].
    + intros p'. rewrite !lookup_alter_if. destruct (decide (p' = p)) as [->|Hne].
      * rewrite Hq, !decide_True by done. simpl. unfold enqueued_head. rewrite <-Hcnt. simpl.
        do 2 f_equal. destruct (Q p); [done|]. done.
      * rewrite !(decide_ne p p') by done. by destruct (queues s !! p').
  - rewrite bool_decide_eq_true_2 by done. cbn [fmap option_fmap option_map sch glo with_sch tcbs with_tcbs queues with_queues bitmap].
    do 4 (rewrite ?list_lookup_alter_eq, ?Hq; cbn [fmap option_fmap option_map sch glo with_sch tcbs with_tcbs queues with_queues bitmap]).
    eexists _, _. split; [reflexivity|]. split_and!; [| by rewrite !length_alter|].
    + intros j. rewrite !lookup_alter_if. destruct (tcbs s !! j) as [tj|] eqn:Hj; [|done].
      simpl. f_equal. destruct (decide (j = i)) as [->|Hji].
      * rewrite enqueued_self, !decide_True, El by done. done.
      * rewrite !(decide_ne i j) by done. rewrite enqueued_other; [done|done|congruence].
    + intros p'. rewrite !lookup_alter_if. destruct (decide (p' = p)) as [->|Hne].
      * rewrite Hq, !decide_True by done. simpl. unfold enqueued_head. rewrite <-Hcnt. simpl.
        apply last_None in El. rewrite El. done.
      * rewrite !(decide_ne p p') by done. by destruct (queues s !! p').
Qed.

(** A thread that is in no queue goes to the end of the queue of its priority;
    one that is queued stays where it is. *)
Lemma enqueue_ready_spec i st Q t (R : unit → St → Prop) :
  ready (sch st) Q → tcbs (sch st) !! i = Some t →
  0 <= Tcb.priority t < Z.of_nat NPRIO →
  (Tcb.queued t ≠ NOT_QUEUED → R tt st) →
  (∀ s', Tcb.queued t = NOT_QUEUED → ready s' (qadd (Z.to_nat (Tcb.priority t)) i Q) →
     relinked (sch st) s' → R tt (with_sch s' st)) →
  wp (enqueue_ready i) st R.
Proof.
  intros HR Ht Hpr Hq Hnq. destruct (Z.eqb_spec (Tcb.queued t) NOT_QUEUED) as [Eq|Eq].
  - assert (∀ p, i ∉ Q p) as Hn.
    { apply (rd_not_queued _ _ HR _ _ Ht). by apply Z.eqb_eq. }
    destruct (enqueue_ready_run i st Q t (Z.to_nat (Tcb.priority t))) as (l' & qs' & Hrun & Hl & Hlen & Hqs);
      [done|done|done|done|lia|lia|].
    apply wp_run. eexists _, _. split; [exact Hrun|]. apply Hnq; [done| |].
    + eapply ready_enqueue; [done|by eapply lookup_lt_Some|done|lia|done|done|exact Hqs|done].
    + split; [|by destruct (sch st)]. cbn. by eapply enqueued_unlinked.
  - unfold enqueue_ready. apply wp_bind. eapply wp_tcb; [done|].
    rewrite (proj2 (Z.eqb_neq _ _) Eq). apply wp_ret. by apply Hq.
Qed.

(** ** Removing a thread *)

(** What [remove_from_ready] makes of entry [j] of the table, [i] standing
    between [l1] and [l2] in its queue. *)
Definition removed_tcb (l1 : list nat) (i : nat) (l2 : list nat) (j : nat) (t : Tcb.t) : Tcb.t :=
  if decide (j = i) then unlinked t
  else
    (if decide (hd_error l2 = Some j) then Tcb.with_qprev (to_link (last l1)) else λ t, t)
      ((if decide (last l1 = Some j) then Tcb.with_qnext (to_link (hd_error l2)) else λ t, t) t).

Lemma removed_self l1 i l2 t : removed_tcb l1 i l2 i t = unlinked t.
Proof. unfold removed_tcb. by rewrite decide_True. Qed.

Lemma removed_fields l1 i l2 j t :
  j ≠ i → unlinked (removed_tcb l1 i l2 j t) = unlinked t ∧
  Tcb.queued (removed_tcb l1 i l2 j t) = Tcb.queued t ∧
  Tcb.qnext (removed_tcb l1 i l2 j t) =
    (if decide (last l1 = Some j) then to_link (hd_error l2) else Tcb.qnext t) ∧
  Tcb.qprev (removed_tcb l1 i l2 j t) =
    (if decide (hd_error l2 = Some j) then to_link (last l1) else Tcb.qprev t).
Proof.
  intros Hj. unfold removed_tcb. rewrite decide_ne by done.
  destruct (decide (hd_error l2 = Some j)), (decide (last l1 = Some j)); by destruct t.
Qed.

Lemma qdel_split Q p i l1 l2 :
  NoDup (Q p) → Q p = l1 ++ i :: l2 → qdel i Q p = l1 ++ l2.
Proof.
  unfold qdel. intros Hnd E. rewrite E in *. apply NoDup_app in Hnd as (_ & Hd & Hnd).
  apply NoDup_cons in Hnd as [Hi _].
  assert (∀ l : list nat, i ∉ l → base.filter (λ j : nat, j ≠ i) l = l) as Hf.
  { induction l as [|x l IH]; intros Hni; [done|]. rewrite filter_cons, decide_True by set_solver.
    f_equal. apply IH. set_solver. }
  rewrite filter_app, filter_cons, decide_False by naive_solver.
  rewrite !Hf; [done|done|]. intros Hin. apply (Hd i Hin). set_solver.
Qed.

Lemma qdel_notin Q p i : i ∉ Q p → qdel i Q p = Q p.
Proof.
  unfold qdel. induction (Q p) as [|x l IH]; intros Hni; [done|].
  rewrite filter_cons, decide_True by set_solver. f_equal. apply IH. set_solver.
Qed.

Lemma elem_of_qdel Q p i j : j ∈ qdel i Q p ↔ j ≠ i ∧ j ∈ Q p.
Proof. unfold qdel. by rewrite list_elem_of_filter. Qed.

Lemma elem_of_qadd Q p i p' j : j ∈ qadd p i Q p' ↔ (p' = p ∧ j = i) ∨ j ∈ Q p'.
Proof. unfold qadd. case_decide; [subst|naive_solver]. rewrite elem_of_app, list_elem_of_singleton. naive_solver. Qed.

Lemma ready_remove s Q i p l1 l2 l' qs' b' :
  ready s Q → (p < NPRIO)%nat → Q p = l1 ++ i :: l2 →
  (∀ j, l' !! j = removed_tcb l1 i l2 j <$> tcbs s !! j) →
  length qs' = length (queues s) →
  (∀ p', qs' !! p' = if decide (p' = p)
     then Some (ListHead.mk (to_link (hd_error (l1 ++ l2))) (to_link (last (l1 ++ l2)))
                  (Z.of_nat (length (l1 ++ l2))))
     else queues s !! p') →
  b' = (if decide (l1 ++ l2 = []) then Z.ldiff (bitmap s) (Z.shiftl 1 (Z.of_nat p)) else bitmap s) →
  ready (with_bitmap b' (with_queues qs' (with_tcbs l' s))) (qdel i Q).
Proof.
  intros HR Hp HQ Hl Hlen Hq ->.
  assert (length l' = length (tcbs s)) as Hll by by eapply lookup_fmap_length.
  pose proof (rd_nodup _ _ HR p) as Hnd.
  assert (i ∈ Q p) as Hi by (rewrite HQ; set_solver).
  assert (qdel i Q p = l1 ++ l2) as HQp by by apply qdel_split.
  assert (∀ p', p' ≠ p → qdel i Q p' = Q p') as HQo.
  { intros p' Hne. apply qdel_notin. intros Hi'. destruct Hne. by eapply rd_unique. }
  assert (∀ k, hd_error l2 = Some k → k ∈ Q p) as Hh2.
  { intros k Hk%head_elem. rewrite HQ. set_solver. }
  assert (∀ k, last l1 = Some k → k ∈ Q p) as Hl1.
  { intros k Hk%last_elem. rewrite HQ. set_solver. }
  assert (of_link (to_link (hd_error l2)) = hd_error l2) as E1 by by eapply of_link_to_link_ok.
  assert (of_link (to_link (last l1)) = last l1) as E2 by by eapply of_link_to_link_ok.
  assert (∀ j, j ≠ i → nxt l' j = if decide (last l1 = Some j) then hd_error l2 else nxt (tcbs s) j) as Hnx.
  { intros j Hj. unfold nxt. rewrite Hl. destruct (tcbs s !! j) as [t|] eqn:Ht; simpl.
    - destruct (removed_fields l1 i l2 j t Hj) as (_ & _ & -> & _). by case_decide.
    - case_decide as Hd; [|done]. apply Hl1, (rd_elem _ _ HR) in Hd. apply lookup_ge_None in Ht. lia. }
  assert (∀ j, j ≠ i → prv l' j = if decide (hd_error l2 = Some j) then last l1 else prv (tcbs s) j) as Hpv.
  { intros j Hj. unfold prv. rewrite Hl. destruct (tcbs s !! j) as [t|] eqn:Ht; simpl.
    - destruct (removed_fields l1 i l2 j t Hj) as (_ & _ & _ & ->). by case_decide.
    - case_decide as Hd; [|done]. apply Hh2, (rd_elem _ _ HR) in Hd. apply lookup_ge_None in Ht. lia. }
  assert (i ∉ l1 ++ l2) as Hni.
  { rewrite HQ in Hnd. apply NoDup_app in Hnd as (_ & Hd & Hnd). apply NoDup_cons in Hnd as [? _].
    intros [Hx|Hx]%elem_of_app; [|done]. apply (Hd i Hx). set_solver. }
  split; cbn [tcbs queues bitmap with_bitmap with_queues with_tcbs].
  - rewrite Hll. apply HR.
  - rewrite Hlen. apply HR.
  - intros p' Hp'. rewrite Hq. case_decide as E; [by rewrite E, HQp|]. rewrite HQo by done. by apply HR.
  - intros p'. destruct (decide (p' = p)) as [->|Hne].
    + rewrite HQp. pose proof (rd_dll _ _ HR p) as Hd. rewrite HQ in Hd.
      eapply dll_delete; [exact Hd| |].
      * intros y Hy. apply Hnx. intros ->. done.
      * intros y Hy. apply Hpv. intros ->. done.
    + rewrite HQo by done. eapply dll_ext; [apply (rd_dll _ _ HR p')|]. intros y Hy.
      assert (y ≠ i) as Hyi by (intros ->; apply Hne; by eapply rd_unique).
      rewrite Hnx, Hpv by done. split; case_decide as Hd; [|done| |done]; exfalso; apply Hne;
        [apply Hl1 in Hd|apply Hh2 in Hd]; by eapply rd_unique.
  - intros p' j. rewrite elem_of_qdel, Hl, (rd_mem _ _ HR). destruct (decide (j = i)) as [->|Hj].
    + split; [naive_solver|]. intros (Hp' & t' & Ht' & E).
      apply fmap_Some in Ht' as (t0 & _ & ->). rewrite removed_self in E.
      change (NOT_QUEUED = Z.of_nat p') in E. unfold NOT_QUEUED, NPRIO in *. lia.
    + destruct (tcbs s !! j) as [t|] eqn:Ht; simpl; [|naive_solver].
      destruct (removed_fields l1 i l2 j t Hj) as (_ & Hqq & _).
      split.
      * intros (_ & Hp' & t' & [= <-] & E). split; [done|]. eexists. split; [done|]. congruence.
      * intros (Hp' & t' & [= <-] & E). split_and!; [done|done|]. eexists. split; [done|]. congruence.
  - intros j t' Ht'. rewrite Hl in Ht'. apply fmap_Some in Ht' as (t0 & Ht0 & ->).
    pose proof (rd_canon _ _ HR _ _ Ht0) as [C1 C2].
    destruct (decide (j = i)) as [->|Hj]; [by rewrite removed_self|].
    destruct (removed_fields l1 i l2 j t0 Hj) as (_ & _ & -> & ->).
    split; case_decide; rewrite ?E1, ?E2; done.
  - intros j t' Ht'. rewrite Hl in Ht'. apply fmap_Some in Ht' as (t0 & Ht0 & ->).
    destruct (decide (j = i)) as [->|Hj]; [rewrite removed_self; by left|].
    destruct (removed_fields l1 i l2 j t0 Hj) as (_ & -> & _). by apply (rd_queued _ _ HR j).
  - intros p'. destruct (decide (p' = p)) as [->|Hne].
    + rewrite HQp. case_decide as E.
      * rewrite ldiff_testbit, Z.eqb_refl, andb_false_r by lia. by rewrite E.
      * rewrite (rd_bitmap _ _ HR). rewrite !bool_decide_eq_true_2; [done|done|]. rewrite HQ. by destruct l1.
    + rewrite HQo by done. case_decide; [|apply HR]. rewrite ldiff_testbit by lia.
      destruct (Z.eqb_spec (Z.of_nat p') (Z.of_nat p)); [lia|]. rewrite andb_true_r. apply HR.
  - case_decide; [|apply HR]. apply Z.ldiff_nonneg. left. apply HR.
Qed.

Lemma removed_unlinked s i l1 l2 l' :
  (∀ j, l' !! j = removed_tcb l1 i l2 j <$> tcbs s !! j) →
  unlinked <$> l' = unlinked <$> tcbs s.
Proof.
  intros H. apply list_eq. intros j. rewrite !list_lookup_fmap, H.
  destruct (tcbs s !! j) as [t|]; [|done]. simpl. f_equal.
  destruct (decide (j = i)) as [->|Hj]; [rewrite removed_self; by destruct t|].
  by destruct (removed_fields l1 i l2 j t Hj).
Qed.

(** The list head after a removal. *)
Definition removed_head (l : list nat) : ListHead.t :=
  ListHead.mk (to_link (hd_error l)) (to_link (last l)) (Z.of_nat (length l)).

Lemma last_app_middle {A} (l1 l2 : list A) (x : A) :
  last (l1 ++ l2) = match l2 with [] => last l1 | _ => last (l1 ++ x :: l2) end.
Proof. destruct l2 as [|y l2]; [by rewrite app_nil_r|]. by rewrite !last_app, last_cons_cons. Qed.

(** The branch of [remove_from_ready] that unlinks the thread, in one equation. *)
Lemma remove_from_ready_run i st Q t p l1 l2 :
  ready (sch st) Q → tcbs (sch st) !! i = Some t → Tcb.queued t = Z.of_nat p → (p < NPRIO)%nat →
  Q p = l1 ++ i :: l2 →
  ∃ s', remove_from_ready i st = Some (tt, mkSt s' (glo st)) ∧
    s' = with_bitmap (bitmap s') (with_queues (queues s') (with_tcbs (tcbs s') (sch st))) ∧
    bitmap s' = (if decide (l1 ++ l2 = [])
                 then Z.ldiff (bitmap (sch st)) (Z.shiftl 1 (Z.of_nat p)) else bitmap (sch st)) ∧
    (∀ j, tcbs s' !! j = removed_tcb l1 i l2 j <$> tcbs (sch st) !! j) ∧
    length (queues s') = length (queues (sch st)) ∧
    (∀ p', queues s' !! p' = if decide (p' = p) then Some (removed_head (l1 ++ l2))
                       else queues (sch st) !! p').
Proof.
  intros HR Ht Eq Hp HQ.
  pose proof (rd_nodup _ _ HR p) as Hnd. rewrite HQ in Hnd.
  pose proof (rd_dll _ _ HR p) as Hd. rewrite HQ in Hd. apply dll_split in Hd as [Epv Enx].
  unfold nxt, prv in Epv, Enx. rewrite Ht in Epv, Enx. simpl in Epv, Enx.
  destruct (rd_canon _ _ HR _ _ Ht) as [Cn Cp]. rewrite Enx in Cn. rewrite Epv in Cp.
  assert (∀ k, hd_error l2 = Some k → k ∈ Q p) as Hh2.
  { intros k Hk%head_elem. rewrite HQ. set_solver. }
  assert (∀ k, last l1 = Some k → k ∈ Q p) as Hl1.
  { intros k Hk%last_elem. rewrite HQ. set_solver. }
  assert ((to_link (hd_error l2) =? NIL) = bool_decide (hd_error l2 = None)) as Bn.
  { apply to_link_NONE. intros k Hk. eapply rd_small; [done|]. by apply Hh2. }
  assert ((to_link (last l1) =? NIL) = bool_decide (last l1 = None)) as Bp.
  { apply to_link_NONE. intros k Hk. eapply rd_small; [done|]. by apply Hl1. }
  assert (∀ k, k ∈ Q p → k ≠ i → ∃ tk, tcbs (sch st) !! k = Some tk ∧
            Z.to_nat (to_link (Some k)) = k) as Hat.
  { intros k Hk Hki. apply (rd_elem _ _ HR) in Hk as Hlt. apply lookup_lt_is_Some_2 in Hlt as [tk Htk].
    exists tk. split; [done|]. simpl. rewrite as_u32_small, Nat2Z.id; [done|].
    pose proof (rd_small _ _ HR _ _ Hk). lia. }
  assert (∀ k, last l1 = Some k → k ≠ i) as Hki.
  { intros k Hk%last_elem ->. apply NoDup_app in Hnd as (_ & Hdj & _). apply (Hdj i Hk). set_solver. }
  assert (∀ k, hd_error l2 = Some k → k ≠ i) as Hni.
  { intros k Hk%head_elem ->. apply NoDup_app in Hnd as (_ & _ & Hnd). by apply NoDup_cons in Hnd as [? _]. }
  assert (∀ k, last l1 = Some k → hd_error l2 ≠ Some k) as Hne.
  { intros k Hk%last_elem Hk'%head_elem. apply NoDup_app in Hnd as (_ & Hdj & _). apply (Hdj k Hk). set_solver. }
  assert (wrapping_sub 32 (Z.of_nat (length (Q p))) 1 = Z.of_nat (length (l1 ++ l2))) as Hcnt.
  { rewrite wrapping_sub_exact; rewrite HQ, !length_app; simpl; [lia|].
    pose proof (rd_length _ _ HR p). rewrite HQ, length_app in *. simpl in *.
    pose proof (rd_cap _ _ HR). unfold in_width. lia. }
  pose proof (rd_heads _ _ HR p Hp) as Hq.
  destruct st as [s g]. cbn [sch glo] in *.
  unfold remove_from_ready, upd_tcb, upd_queue, tcb, queue, upd, self, gets, expect, modify, mbind, M_bind, mret, M_ret.
  cbn [sch glo with_sch]. rewrite Ht, Eq.
  assert ((Z.of_nat p =? NOT_QUEUED) = false) as ->.
  { apply Z.eqb_neq. unfold NOT_QUEUED, NPRIO in *. lia. }
  rewrite Nat2Z.id, Cn, Cp, Bn, Bp.
  assert (Z.of_nat (length (l1 ++ l2)) =? 0 = if decide (l1 ++ l2 = []) then true else false) as Bz.
  { case_decide as E; [by rewrite E|]. destruct (l1 ++ l2); done. }
  assert (hd_error (l1 ++ l2) = match last l1 with Some _ => hd_error (Q p) | None => hd_error l2 end) as Fh.
  { destruct (last l1) eqn:E; [|apply last_None in E as ->; done].
    rewrite HQ. destruct l1; [done|]. done. }
  assert (last (l1 ++ l2) = match hd_error l2 with Some _ => last (Q p) | None => last l1 end) as Fl.
  { rewrite HQ. destruct l2; simpl; [by rewrite app_nil_r|]. by rewrite !last_app, last_cons_cons. }
  destruct (last l1) as [k1|] eqn:El; destruct (hd_error l2) as [k2|] eqn:Eh;
    try (destruct (Hat k1) as (t1 & Ht1 & N1); [by apply Hl1|by apply Hki|]);
    try (destruct (Hat k2) as (t2 & Ht2 & N2); [by apply Hh2|by apply Hni|]);
    try pose proof (Hki _ eq_refl); try pose proof (Hni _ eq_refl); try pose proof (Hne _ eq_refl);
    try assert (k1 ≠ k2) by congruence;
    repeat first [rewrite bool_decide_eq_false_2 by done|rewrite bool_decide_eq_true_2 by done];
    rewrite ?N1, ?N2; sx; cbn [ListHead.count ListHead.with_count ListHead.with_head ListHead.with_tail];
    rewrite Hcnt, Bz; destruct (decide (l1 ++ l2 = [])) as [Enil|Enil];
    (eexists; split; [reflexivity|]; cbn [sch with_sch tcbs queues bitmap with_bitmap with_queues with_tcbs];
     split_and!; [by destruct s|done| |by rewrite !length_alter|];
     [intros j; rewrite !lookup_alter_if; destruct (tcbs s !! j) as [tj|]; [|done]; simpl; f_equal;
      unfold removed_tcb; rewrite ?El, ?Eh; repeat (case_decide; simplify_eq); done
     |intros p'; rewrite !lookup_alter_if; destruct (decide (p' = p)) as [->|Hne'];
      [rewrite Hq, !decide_True by done; simpl; unfold removed_head; rewrite Fh, Fl, <-Hcnt; done
      |rewrite !(decide_ne p p') by done; by destruct (queues s !! p')]]).
Qed.

(** Taking a thread out of its queue, if it is in one. *)
Lemma remove_from_ready_spec i st Q t (R : unit → St → Prop) :
  ready (sch st) Q → tcbs (sch st) !! i = Some t →
  (∀ s', ready s' (qdel i Q) → relinked (sch st) s' → R tt (mkSt s' (glo st))) →
  wp (remove_from_ready i) st R.
Proof.
  intros HR Ht HRes. destruct (Tcb.queued t =? NOT_QUEUED) eqn:Eq.
  - unfold remove_from_ready. apply wp_bind. eapply wp_tcb; [done|]. rewrite Eq. apply wp_ret.
    pose proof (proj1 (rd_not_queued _ _ HR _ _ Ht) Eq) as Hn.
    destruct st as [s g]. apply HRes; [|apply relinked_refl].
    assert (∀ p, qdel i Q p = Q p) as Hsame by (intros p; apply qdel_notin, Hn).
    destruct HR. split; try done; intros p; rewrite ?Hsame; auto.
  - destruct (rd_queued_in _ _ HR i t Ht Eq) as (p & Hp & Ep & (l1 & l2 & HQ)%list_elem_of_split).
    destruct (remove_from_ready_run i st Q t p l1 l2) as (s' & Hrun & Hs' & Hb & Hl & Hlen & Hqs);
      [done..|].
    apply wp_run. eexists _, _. split; [exact Hrun|]. apply HRes.
    + rewrite Hs'. by eapply ready_remove.
    + split; [|done]. by eapply removed_unlinked.
Qed.

(** ** Taking the first thread of the highest priority *)

Lemma bitmap_log2 s Q : ready s Q → 0 < bitmap s →
  let p := Z.to_nat (Z.log2 (bitmap s)) in
  (p < NPRIO)%nat ∧ Q p ≠ [] ∧ ∀ p', (p < p')%nat → Q p' = [].
Proof.
  intros HR Hb p. pose proof (Z.log2_nonneg (bitmap s)).
  assert (Q p ≠ []) as Hp.
  { apply (bool_decide_eq_true_1 (Q p ≠ [])). rewrite <-(rd_bitmap _ _ HR).
    unfold p. rewrite Z2Nat.id by done. by apply Z.bit_log2. }
  split_and!; [|done|].
  - destruct (decide (p < NPRIO)%nat); [done|]. destruct Hp. apply (rd_high _ _ HR). lia.
  - intros p' Hlt. apply dec_stable, (bool_decide_eq_false_1 (Q p' ≠ [])).
    rewrite <-(rd_bitmap _ _ HR). apply Z.bits_above_log2; [apply HR|]. unfold p in Hlt. lia.
Qed.

Lemma bitmap_zero s Q : ready s Q → bitmap s = 0 → ∀ p, Q p = [].
Proof.
  intros HR Hb p. apply dec_stable, (bool_decide_eq_false_1 (Q p ≠ [])).
  by rewrite <-(rd_bitmap _ _ HR), Hb, Z.testbit_0_l.
Qed.

(** The thread chosen is the head of the non-empty queue of the highest
    priority; [None] only where every queue is empty. *)
Lemma dequeue_highest_spec st Q (R : option nat → St → Prop) :
  ready (sch st) Q →
  ((∀ p, Q p = []) → R None st) →
  (∀ p i rest s', (p < NPRIO)%nat → Q p = i :: rest → (∀ p', (p < p')%nat → Q p' = []) →
     ready s' (qdel i Q) → relinked (sch st) s' → R (Some i) (mkSt s' (glo st))) →
  wp dequeue_highest st R.
Proof.
  intros HR Hn Hs. unfold dequeue_highest. apply wp_bind, wp_self.
  destruct (Z.eqb_spec (bitmap (sch st)) 0) as [Hb|Hb].
  - apply wp_ret, Hn. by eapply bitmap_zero.
  - pose proof (rd_bitmap_pos _ _ HR).
    destruct (bitmap_log2 _ _ HR) as (Hp & Hne & Hhi); [lia|].
    set (p := Z.to_nat (Z.log2 (bitmap (sch st)))) in *.
    apply wp_bind. eapply wp_queue; [by apply (rd_heads _ _ HR)|]. cbn [ListHead.head].
    destruct (Q p) as [|i rest] eqn:HQ; [done|]. simpl hd_error. cbv iota.
    assert (i ∈ Q p) as Hi by (rewrite HQ; set_solver).
    pose proof (rd_small _ _ HR _ _ Hi).
    assert ((to_link (Some i) =? NIL) = false) as ->.
    { etransitivity; [apply (to_link_NONE (Some i)); intros k [= <-]; lia|done]. }
    simpl to_link. rewrite as_u32_small, Nat2Z.id by lia.
    apply (rd_elem _ _ HR) in Hi as Hlt. apply lookup_lt_is_Some_2 in Hlt as [t Ht].
    apply wp_bind. eapply remove_from_ready_spec; [done|done|]. intros s' HR' Hrl.
    apply wp_ret. by eapply Hs.
Qed.
