(* ===== verification/SchedInv.v ===== *)
(** * The scheduler's invariant

    [good s Q F]: the ready queues represent [Q], the free list hands out [F],
    a queued thread is in use, of the queue's priority, without a block reason
    and not the running one, and the counters count.  The operations that
    neither create nor destroy threads are [quiet]: they leave the identities of
    the table, the directory and the zombie ring alone.  *)

From S2P Require Import Prelude PanicMonad Dll Slab Redirect SchedData Sched SchedReady.
Import Scheduler.
#[local] Open Scope Z_scope.

Implicit Types (Q : queue_map) (F : list nat) (c : option nat).

(** ** The invariant *)

Record tcb_ok (n : nat) (t : Tcb.t) : Prop := {
  ok_free : Tcb.used t = false → Tcb.reasons t = 0;
  ok_priority : 0 <= Tcb.priority t < Z.of_nat NPRIO;
  ok_donor : ∀ a, Tcb.sc_donor t = Some a → (a < n)%nat;
  ok_grund : Tcb.frist_grund t ∈ [0; BlockReasons.IPC; BlockReasons.PARK] }.

(** The reasons that the running thread cannot have: they are set only as it
    gives up the core, and deadlines end only these. *)
Definition not_waiting (t : Tcb.t) : Prop :=
  BlockReasons.has (Tcb.reasons t) BlockReasons.IPC = false ∧
  BlockReasons.has (Tcb.reasons t) BlockReasons.PARK = false.

Definition budget_blocked (t : Tcb.t) : bool :=
  BlockReasons.has (Tcb.reasons t) BlockReasons.BUDGET.

(** A queued thread may run.  [c] is the running thread, or [None] between the
    moment it gives up the core and the choice of its successor. *)
Definition runnable (s : t) (c : option nat) (p i : nat) : Prop :=
  ∃ t, tcbs s !! i = Some t ∧ Tcb.used t = true ∧ Tcb.priority t = Z.of_nat p ∧
       Tcb.reasons t = 0 ∧ c ≠ Some i.

(** [base]: the invariant without the condition on queued threads. *)
Record base (s : t) (c : option nat) Q F : Prop := {
  g_ready : ready s Q;
  g_tcb : ∀ i t, tcbs s !! i = Some t → tcb_ok (length (tcbs s)) t;
  g_cur : ∀ i, c = Some i → ∃ t, tcbs s !! i = Some t ∧ Tcb.used t = true ∧ not_waiting t;
  g_free : FreeList.rep (free s) F;
  g_free_cap : length (FreeList.next (free s)) = length (tcbs s);
  g_F : ∀ i, i ∈ F ↔ ∃ t, tcbs s !! i = Some t ∧ Tcb.used t = false;
  g_used : used s = Z.of_nat (count_if Tcb.used (tcbs s));
  g_bb : budget_blocked_count s = Z.of_nat (count_if budget_blocked (tcbs s));
  g_core : (core s < MAX_CORES)%nat }.

Record good (s : t) (c : option nat) Q F : Prop := {
  g_base : base s c Q F;
  g_queue : ∀ p i, i ∈ Q p → runnable s c p i }.

(** The scheduler between two operations. *)
Definition inv (s : t) Q F : Prop := good s (current s) Q F.

(** Who a table entry is. *)
Definition ident (t : Tcb.t) : option (Z * Z) :=
  if Tcb.used t then Some (Tcb.gid t, Tcb.gen t) else None.
Definition idents (s : t) : list (option (Z * Z)) := ident <$> tcbs s.

Record quiet (st st' : St) : Prop := {
  q_glo : glo st' = glo st;
  q_core : core (sch st') = core (sch st);
  q_idents : idents (sch st') = idents (sch st);
  q_free : free (sch st') = free (sch st);
  q_ring : zombies (sch st') = zombies (sch st) ∧ zhead (sch st') = zhead (sch st) ∧
           ztail (sch st') = ztail (sch st) ∧ zcount (sch st') = zcount (sch st) }.

Lemma quiet_refl st : quiet st st.
Proof. by split. Qed.

Lemma quiet_trans st1 st2 st3 : quiet st1 st2 → quiet st2 st3 → quiet st1 st3.
Proof. intros [] []. split; [congruence..|]. intuition congruence. Qed.

Lemma quiet_length st st' : quiet st st' → length (tcbs (sch st')) = length (tcbs (sch st)).
Proof.
  intros H. apply q_idents in H. unfold idents in H. apply (f_equal length) in H.
  by rewrite !length_fmap in H.
Qed.

Lemma relinked_quiet s s' g : relinked s s' → quiet (mkSt s g) (mkSt s' g).
Proof.
  intros H. pose proof (relinked_fields _ _ H) as (? & ? & _ & ? & ? & ? & ? & _).
  split; try done. unfold idents. cbn [sch].
  pose proof (rl_tcbs _ _ H) as E. apply list_eq. intros i. apply (f_equal (.!! i)) in E.
  rewrite !list_lookup_fmap in *. destruct (tcbs s' !! i), (tcbs s !! i); simpl in *; try done.
  apply (inj Some), unlinked_fields in E. unfold ident. do 2 f_equal. by destruct E as (-> & -> & -> & _).
Qed.

(** ** Keeping the invariant *)

(** Only these fields matter. *)
Lemma good_ext c s s' Q F :
  good s c Q F → tcbs s' = tcbs s → queues s' = queues s → bitmap s' = bitmap s →
  free s' = free s → used s' = used s →
  budget_blocked_count s' = budget_blocked_count s → core s' = core s → good s' c Q F.
Proof.
  intros [[[] H] Hq] Et Eq Eb Ef Eu Ebb Eco. split.
  - split; rewrite ?Et, ?Ef, ?Eu, ?Ebb, ?Eco; try done.
    split; rewrite ?Et, ?Eq, ?Eb; done.
  - intros p i Hi. unfold runnable. rewrite Et. by apply Hq.
Qed.

Lemma relinked_counts s s' (p : Tcb.t → bool) :
  relinked s s' → (∀ t, p (unlinked t) = p t) → count_if p (tcbs s') = count_if p (tcbs s).
Proof.
  intros H Hp. pose proof (rl_tcbs _ _ H) as E. revert E.
  generalize (tcbs s') as l', (tcbs s) as l. induction l' as [|t' l' IH]; intros [|t l] E; try done.
  rewrite !count_if_cons. pose proof (f_equal tail E) as E2. simpl in E2.
  assert (unlinked t' = unlinked t) as E1 by (apply (inj Some); exact (f_equal hd_error E)). rewrite (IH _ E2), <-(Hp t'), E1, Hp. done.
Qed.

Lemma runnable_relink c s s' p i : relinked s s' → runnable s c p i → runnable s' c p i.
Proof.
  intros Hrl (t & Ht & Hr). destruct (relinked_lookup_r _ _ _ _ Hrl Ht) as (t' & Ht' & E%unlinked_fields).
  exists t'.
  destruct E as (-> & _ & _ & _ & -> & -> & _). done.
Qed.

Lemma base_relink c s s' Q Q' F : base s c Q F → ready s' Q' → relinked s s' → base s' c Q' F.
Proof.
  intros HG HR Hrl. pose proof (relinked_fields _ _ Hrl) as (Eco & Ef & _ & _ & _ & _ & _ & _ & Eu & _ & Ebb & _).
  pose proof (relinked_length _ _ Hrl) as El.
  assert (∀ i t', tcbs s' !! i = Some t' → ∃ t, tcbs s !! i = Some t ∧ unlinked t' = unlinked t) as Hb.
  { intros. by eapply relinked_lookup. }
  assert (∀ i t, tcbs s !! i = Some t → ∃ t', tcbs s' !! i = Some t' ∧ unlinked t' = unlinked t) as Hf.
  { intros. by eapply relinked_lookup_r. }
  split; rewrite ?Ef, ?Eu, ?Ebb, ?Eco, ?El.
  - done.
  - intros i t' (t & Ht & E%unlinked_fields)%Hb. apply (g_tcb _ _ _ _ HG) in Ht.
    destruct E as (E1 & _ & _ & _ & E2 & E3 & _ & _ & _ & E4 & _ & _ & _ & _ & _ & _ & _ & _ & E5 & _).
    destruct Ht. split; rewrite ?E1, ?E2, ?E3, ?E4, ?E5; done.
  - intros k (t & Ht & Hr)%(g_cur _ _ _ _ HG). destruct (Hf _ _ Ht) as (t' & Ht' & E%unlinked_fields).
    exists t'. unfold not_waiting in *. destruct E as (-> & _ & _ & _ & _ & -> & _). done.
  - apply HG.
  - apply HG.
  - intros i. rewrite (g_F _ _ _ _ HG). split; intros (t & Ht & Hu).
    + destruct (Hf _ _ Ht) as (t' & Ht' & (E & _)%unlinked_fields). exists t'. split; [done|congruence].
    + destruct (Hb _ _ Ht) as (t' & Ht' & (E & _)%unlinked_fields). exists t'. split; [done|congruence].
  - rewrite (g_used _ _ _ _ HG). f_equal. symmetry. apply relinked_counts; [done|]. by intros [].
  - rewrite (g_bb _ _ _ _ HG). f_equal. symmetry. apply relinked_counts; [done|]. by intros [].
  - apply HG.
Qed.

(** Relinking keeps the invariant where the new queues hold runnable threads. *)
Lemma good_relink c s s' Q Q' F :
  good s c Q F → ready s' Q' → relinked s s' → (∀ p i, i ∈ Q' p → runnable s c p i) → good s' c Q' F.
Proof.
  intros [HB _] HR Hrl Hrun. split; [by eapply base_relink|].
  intros p i Hi. eapply runnable_relink; [done|]. by apply Hrun.
Qed.

(** What an update of one TCB may change. *)
Record keeps (t t' : Tcb.t) : Prop := {
  k_used : Tcb.used t' = Tcb.used t;
  k_gid : Tcb.gid t' = Tcb.gid t;
  k_gen : Tcb.gen t' = Tcb.gen t;
  k_priority : Tcb.priority t' = Tcb.priority t;
  k_queued : Tcb.queued t' = Tcb.queued t;
  k_qnext : Tcb.qnext t' = Tcb.qnext t;
  k_qprev : Tcb.qprev t' = Tcb.qprev t }.

Lemma ready_upd s Q i t f :
  ready s Q → tcbs s !! i = Some t →
  Tcb.queued (f t) = Tcb.queued t → Tcb.qnext (f t) = Tcb.qnext t → Tcb.qprev (f t) = Tcb.qprev t →
  ready (with_tcbs (alter f i (tcbs s)) s) Q.
Proof.
  intros HR Ht E1 E2 E3.
  assert (∀ j t', alter f i (tcbs s) !! j = Some t' → ∃ t0, tcbs s !! j = Some t0 ∧
    Tcb.queued t' = Tcb.queued t0 ∧ Tcb.qnext t' = Tcb.qnext t0 ∧ Tcb.qprev t' = Tcb.qprev t0) as Hl.
  { intros j t' [(<- & t0 & Ht0 & ->)|(Hne & Hj)]%lookup_alter_inv; [|by eexists].
    simplify_eq. by exists t. }
  split; cbn [tcbs queues bitmap with_tcbs]; rewrite ?length_alter; try apply HR.
  - intros p. eapply dll_ext; [apply HR|]. intros x Hx. unfold nxt, prv. rewrite lookup_alter_if.
    destruct (decide (i = x)) as [<-|]; [|by destruct (tcbs s !! x)]. rewrite Ht. simpl. by rewrite E2, E3.
  - intros p j. rewrite (rd_mem _ _ HR), lookup_alter_if. f_equiv.
    destruct (decide (i = j)) as [<-|]; [|by destruct (tcbs s !! j)]. rewrite Ht. simpl. split.
    + intros (t' & [= <-] & E). eexists. split; [done|]. congruence.
    + intros (t' & [= <-] & E). eexists. split; [done|]. congruence.
  - intros j t' (t0 & Ht0 & -> & -> & ->)%Hl || intros j t' (t0 & Ht0 & ? & -> & ->)%Hl.
    by apply (rd_canon _ _ HR j).
  - intros j t' (t0 & Ht0 & -> & _)%Hl. by apply (rd_queued _ _ HR j).
Qed.

(** Updating one TCB and the count of budget-blocked threads with it. *)
Lemma base_upd c s Q F i t f n :
  base s c Q F → tcbs s !! i = Some t → keeps t (f t) → tcb_ok (length (tcbs s)) (f t) →
  (c = Some i → not_waiting (f t)) →
  n + (if budget_blocked t then 1 else 0) =
    budget_blocked_count s + (if budget_blocked (f t) then 1 else 0) →
  base (with_budget_blocked_count n (with_tcbs (alter f i (tcbs s)) s)) c Q F.
Proof.
  intros HG Ht [Ku Kg Ke Kp Kq Kn Kv] Hok Hc Hn.
  assert (∀ j tj, tcbs s !! j = Some tj → ∃ tj', alter f i (tcbs s) !! j = Some tj' ∧
    Tcb.used tj' = Tcb.used tj ∧ Tcb.priority tj' = Tcb.priority tj ∧ (i ≠ j → tj' = tj)) as Hf.
  { intros j tj Hj. rewrite lookup_alter_if, Hj. destruct (decide (i = j)) as [<-|].
    - simplify_eq. by exists (f t).
    - by exists tj. }
  split; cbn [tcbs queues bitmap current free used budget_blocked_count core with_tcbs with_budget_blocked_count].
  - assert (ready (with_tcbs (alter f i (tcbs s)) s) Q) as [];
      [eapply ready_upd; [apply HG|done..]|by split].
  - rewrite length_alter. intros j t' [(<- & t0 & Ht0 & ->)|(Hne & Hj)]%lookup_alter_inv.
    + by simplify_eq.
    + by apply (g_tcb _ _ _ _ HG j).
  - intros k Hcc. destruct (g_cur _ _ _ _ HG k Hcc) as (tj & Htj & Hu & Hw).
    destruct (Hf _ _ Htj) as (tj' & Htj' & Eu & Ep & Eo). exists tj'. split_and!; [done|congruence|].
    destruct (decide (i = k)) as [->|]; [|by rewrite Eo].
    rewrite lookup_alter_if, decide_True, Ht in Htj' by done. simpl in Htj'. simplify_eq. by apply Hc.
  - apply HG.
  - rewrite length_alter. apply HG.
  - intros j. rewrite (g_F _ _ _ _ HG). split.
    + intros (tj & Htj & Hu). destruct (Hf _ _ Htj) as (tj' & Htj' & Eu & _). exists tj'. split; [done|congruence].
    + intros (tj & [(<- & t0 & Ht0 & ->)|(Hne & Hj)]%lookup_alter_inv & Hu); [|by exists tj].
      exists t. split; [done|]. simplify_eq. congruence.
  - rewrite (g_used _ _ _ _ HG). pose proof (count_if_alter Tcb.used f _ _ _ Ht) as E. rewrite Ku in E.
    destruct (Tcb.used t); lia.
  - pose proof (count_if_alter budget_blocked f _ _ _ Ht) as E.
    pose proof (g_bb _ _ _ _ HG). destruct (budget_blocked t), (budget_blocked (f t)); lia.
  - apply HG.
Qed.

Lemma runnable_upd c s i t f n p j :
  tcbs s !! i = Some t → keeps t (f t) → (j = i → Tcb.reasons (f t) = 0) →
  runnable s c p j → runnable (with_budget_blocked_count n (with_tcbs (alter f i (tcbs s)) s)) c p j.
Proof.
  intros Ht Hk Hr (tj & Htj & Hu & Hp & Hre & Hcu). unfold runnable.
  cbn [tcbs current with_tcbs with_budget_blocked_count]. rewrite lookup_alter_if.
  rewrite Htj. destruct (decide (i = j)) as [<-|]; [|by exists tj]. simplify_eq. simpl.
  exists (f t). destruct Hk. split_and!; [done|congruence|congruence|by apply Hr|done].
Qed.

Lemma good_upd c s Q F i t f n :
  good s c Q F → tcbs s !! i = Some t → keeps t (f t) → tcb_ok (length (tcbs s)) (f t) →
  (∀ p, i ∈ Q p → Tcb.reasons (f t) = 0) →
  (c = Some i → not_waiting (f t)) →
  n + (if budget_blocked t then 1 else 0) =
    budget_blocked_count s + (if budget_blocked (f t) then 1 else 0) →
  good (with_budget_blocked_count n (with_tcbs (alter f i (tcbs s)) s)) c Q F.
Proof.
  intros [HB HQ] Ht Hk Hok HQr Hc Hn. split; [by eapply base_upd|].
  intros p j Hj. eapply runnable_upd; [done..| |by apply HQ]. intros ->. by eapply HQr.
Qed.

Lemma quiet_upd st i t f :
  tcbs (sch st) !! i = Some t → keeps t (f t) →
  quiet st (with_sch (with_tcbs (alter f i (tcbs (sch st))) (sch st)) st).
Proof.
  intros Ht [Ku Kg Ke _ _ _ _]. split; try done. unfold idents. cbn [sch with_sch tcbs with_tcbs].
  apply list_eq. intros j. rewrite !list_lookup_fmap, lookup_alter_if.
  destruct (decide (i = j)) as [<-|]; [|by destruct (tcbs (sch st) !! j)].
  rewrite Ht. simpl. f_equal. unfold ident. by rewrite Ku, Kg, Ke.
Qed.

Lemma quiet_upd_n st i t f n :
  tcbs (sch st) !! i = Some t → keeps t (f t) →
  quiet st (mkSt (with_budget_blocked_count n
                    (with_tcbs (alter f i (tcbs (sch st))) (sch st))) (glo st)).
Proof. intros Ht Hk. destruct (quiet_upd st i t f Ht Hk). by split. Qed.

Lemma tcbs_upd_lookup s i t f :
  tcbs s !! i = Some t → tcbs (with_tcbs (alter f i (tcbs s)) s) !! i = Some (f t).
Proof. intros Ht. cbn. by rewrite list_lookup_alter_eq, Ht. Qed.

Lemma with_bbc_same s : with_budget_blocked_count (budget_blocked_count s) s = s.
Proof. by destruct s. Qed.

(** Updates that leave the account of blocked threads alone. *)
Lemma base_upd_bb c s Q F i t f :
  base s c Q F → tcbs s !! i = Some t → keeps t (f t) → tcb_ok (length (tcbs s)) (f t) →
  (c = Some i → not_waiting (f t)) → budget_blocked (f t) = budget_blocked t →
  base (with_tcbs (alter f i (tcbs s)) s) c Q F.
Proof.
  intros HB Ht Hk Hok Hc Hbb.
  pose proof (base_upd c s Q F i t f (budget_blocked_count s) HB Ht Hk Hok Hc) as H.
  rewrite Hbb in H. specialize (H eq_refl). by destruct s.
Qed.

Lemma good_upd_bb c s Q F i t f :
  good s c Q F → tcbs s !! i = Some t → keeps t (f t) → tcb_ok (length (tcbs s)) (f t) →
  (∀ p, i ∈ Q p → Tcb.reasons (f t) = 0) →
  (c = Some i → not_waiting (f t)) → budget_blocked (f t) = budget_blocked t →
  good (with_tcbs (alter f i (tcbs s)) s) c Q F.
Proof.
  intros HB Ht Hk Hok HQ Hc Hbb.
  pose proof (good_upd c s Q F i t f (budget_blocked_count s) HB Ht Hk Hok HQ Hc) as H.
  rewrite Hbb in H. specialize (H eq_refl). by destruct s.
Qed.

(** ** Steps of a proof *)

(** An update that touches nothing the invariant speaks of, beyond making the
    thread's reasons, donor and deadline what they are. *)
Record plain (t t' : Tcb.t) : Prop := {
  pl_keeps : keeps t t';
  pl_reasons : Tcb.reasons t' = Tcb.reasons t;
  pl_donor : Tcb.sc_donor t' = Tcb.sc_donor t ∨ Tcb.sc_donor t' = None;
  pl_grund : Tcb.frist_grund t' ∈ [Tcb.frist_grund t; 0; BlockReasons.IPC; BlockReasons.PARK] }.

Lemma good_plain c s Q F i t f :
  good s c Q F → tcbs s !! i = Some t → plain t (f t) →
  good (with_tcbs (alter f i (tcbs s)) s) c Q F.
Proof.
  intros HG Ht [Hk Hr Hd Hg].
  pose proof (g_tcb _ _ _ _ (g_base _ _ _ _ HG) i t Ht) as [O1 O2 O3 O4]. destruct Hk.
  eapply good_upd_bb; [done|done|by split| | | |].
  - split; [|congruence| |].
    + rewrite k_used0, Hr. done.
    + intros a. destruct Hd as [-> | ->]; [apply O3|done].
    + apply elem_of_cons in Hg as [-> | Hg]; [done|]. by rewrite elem_of_cons in Hg |- *.
  - intros p Hp. destruct (g_queue _ _ _ _ HG p i Hp) as (t0 & Ht0 & _ & _ & Hr0 & _).
    simplify_eq. congruence.
  - intros Hc. destruct (g_cur _ _ _ _ (g_base _ _ _ _ HG) i Hc) as (t0 & Ht0 & _ & Hw). simplify_eq.
    unfold not_waiting in *. by rewrite Hr.
  - unfold budget_blocked. by rewrite Hr.
Qed.

(** Decides [plain] and [keeps] of a concrete update. *)
Ltac plain_upd := (split; [by split|reflexivity|first [left; reflexivity|right; reflexivity]|simpl; apply elem_of_cons; first [left; reflexivity|right; set_solver]]).

Lemma wp_upd_plain c st Q F i t f (R : unit → St → Prop) :
  good (sch st) c Q F → tcbs (sch st) !! i = Some t → plain t (f t) →
  (∀ s', s' = with_tcbs (alter f i (tcbs (sch st))) (sch st) → good s' c Q F →
     quiet st (mkSt s' (glo st)) → tcbs s' !! i = Some (f t) → R tt (mkSt s' (glo st))) →
  wp (upd_tcb i f) st R.
Proof.
  intros HG Ht Hp HR. eapply wp_upd_tcb; [done|]. apply HR; [done|by eapply good_plain| |].
  - eapply (quiet_upd st); [done|apply Hp].
  - cbn. by rewrite list_lookup_alter_eq, Ht.
Qed.

(** Joining the queue. *)
Lemma wp_enqueue_good c st Q F i t (R : unit → St → Prop) :
  good (sch st) c Q F → tcbs (sch st) !! i = Some t →
  Tcb.used t = true → Tcb.reasons t = 0 → c ≠ Some i →
  (∀ s' Q', good s' c Q' F → relinked (sch st) s' → quiet st (mkSt s' (glo st)) →
     ((Tcb.queued t ≠ NOT_QUEUED ∧ s' = sch st ∧ Q' = Q) ∨
      (Tcb.queued t = NOT_QUEUED ∧ Q' = qadd (Z.to_nat (Tcb.priority t)) i Q)) →
     R tt (mkSt s' (glo st))) →
  wp (enqueue_ready i) st R.
Proof.
  intros HG Ht Hu Hr Hc HR. pose proof (g_tcb _ _ _ _ (g_base _ _ _ _ HG) i t Ht) as [_ Hpr _ _].
  eapply enqueue_ready_spec; [apply HG|done|done| |].
  - intros Hq. destruct st as [s g]. eapply HR; [done|apply relinked_refl|apply quiet_refl|by left].
  - intros s' Hq HR' Hrl. destruct st as [s g].
    eapply HR; [|done|by apply relinked_quiet|by right].
    eapply good_relink; [done|done|done|]. intros p j [[-> ->]|Hj]%elem_of_qadd; [|by apply HG].
    exists t. split_and!; [done|done|lia|done|done].
Qed.

(** The conditional wake-up. *)
Lemma wp_wecke_good c st Q F i t (R : unit → St → Prop) :
  good (sch st) c Q F → c = None ∨ c = current (sch st) →
  tcbs (sch st) !! i = Some t → Tcb.used t = true →
  (∀ s' Q', good s' c Q' F → relinked (sch st) s' → quiet st (mkSt s' (glo st)) →
     Q' = (if BlockReasons.is_empty (Tcb.reasons t) && negb (Tcb.depleted t) &&
              negb (bool_decide (current (sch st) = Some i)) && (Tcb.queued t =? NOT_QUEUED)
           then qadd (Z.to_nat (Tcb.priority t)) i Q else Q) →
     R tt (mkSt s' (glo st))) →
  wp (wecke_falls_lauffaehig i) st R.
Proof.
  intros HG Hcc Ht Hu HR. unfold wecke_falls_lauffaehig. apply wp_bind. eapply wp_tcb; [done|].
  apply wp_bind, wp_self.
  destruct (BlockReasons.is_empty (Tcb.reasons t)) eqn:E1; simpl;
    [destruct (Tcb.depleted t) eqn:E2; simpl; [|case_bool_decide as E3; simpl]|].
  1,2,4: destruct st as [s g]; apply wp_ret; eapply HR;
    [done|apply relinked_refl|apply quiet_refl|done].
  eapply wp_enqueue_good; [done|done|done|by apply Z.eqb_eq|by destruct Hcc as [-> | ->]|].
  intros s' Q' HG' Hrl Hq HQ'. eapply HR; [done..|].
  destruct HQ' as [(Hn & _ & ->)|(-> & ->)]; [|done]. by apply Z.eqb_neq in Hn as ->.
Qed.
