(* ===== verification/SchedWake.v ===== *)
(** * Stopping and waking

    The operations of [crates/caprock-sched/src/lib.rs] that set or remove one
    block reason of a thread, and the effect of each on its reasons, its place in
    the ready queues and everything else.  *)

From S2P Require Import Prelude PanicMonad Dll Slab Redirect SchedData Sched SchedReady SchedInv.
Import Scheduler.
#[local] Open Scope Z_scope.

Implicit Types (Q : queue_map) (F : list nat) (c : option nat).

(** ** Reason bits *)

Lemma has_insert r m n : 0 <= m → 0 <= n →
  BlockReasons.has (BlockReasons.insert r (Z.shiftl 1 m)) (Z.shiftl 1 n) =
  BlockReasons.has r (Z.shiftl 1 n) || (n =? m).
Proof. intros. rewrite !has_testbit by done. by apply lor_testbit. Qed.

Lemma has_remove r m n : 0 <= m → 0 <= n →
  BlockReasons.has (BlockReasons.remove r (Z.shiftl 1 m)) (Z.shiftl 1 n) =
  BlockReasons.has r (Z.shiftl 1 n) && negb (n =? m).
Proof. intros. rewrite !has_testbit by done. by apply ldiff_testbit. Qed.

Lemma has_nonempty r n : 0 <= n → BlockReasons.has r (Z.shiftl 1 n) = true → r ≠ 0.
Proof. intros Hn H ->. unfold BlockReasons.has in H. by rewrite Z.land_0_l in H. Qed.

Lemma remove_0 g : BlockReasons.remove 0 g = 0.
Proof. apply Z.ldiff_0_l. Qed.

(** The reasons other than those a thread gets by giving up the core, or by an
    exhausted account: somebody else sets and removes them. *)
Definition outer_bits : list Z := [2; 4; 5; 6; 7].

Section outer.
Context (n : Z) (Hn : n ∈ outer_bits).

Lemma outer_pos : 0 <= n.
Proof using Hn. unfold outer_bits in Hn. set_solver by lia. Qed.

Lemma outer_ne m : m ∈ [0; 1; 3] → (m =? n) = false.
Proof using Hn. intros Hm. apply Z.eqb_neq. unfold outer_bits in Hn. set_solver by lia. Qed.

Lemma outer_block t : not_waiting t → not_waiting (Tcb.block (Z.shiftl 1 n) t).
Proof using Hn.
  pose proof outer_pos. unfold not_waiting, Tcb.block. cbn [Tcb.reasons Tcb.with_reasons].
  intros [H1 H2]. unfold BlockReasons.IPC, BlockReasons.PARK in *.
  rewrite !has_insert, H1, H2, !outer_ne by (done || set_solver). done.
Qed.

Lemma outer_block_bb t : budget_blocked (Tcb.block (Z.shiftl 1 n) t) = budget_blocked t.
Proof using Hn.
  pose proof outer_pos. unfold budget_blocked, Tcb.block, BlockReasons.BUDGET.
  cbn [Tcb.reasons Tcb.with_reasons]. rewrite has_insert, outer_ne by (done || set_solver).
  by rewrite orb_false_r.
Qed.
End outer.

(** Removing a reason other than [BUDGET] keeps the account of blocked threads. *)
Lemma unblock_bb t m : 0 <= m → m ≠ 1 → budget_blocked (Tcb.unblock (Z.shiftl 1 m) t) = budget_blocked t.
Proof.
  intros Hm Hne. unfold budget_blocked, Tcb.unblock, BlockReasons.BUDGET.
  cbn [Tcb.reasons Tcb.with_reasons]. rewrite has_remove by lia.
  destruct (Z.eqb_spec 1 m); [lia|]. by rewrite andb_true_r.
Qed.

Lemma block_bb t m : 0 <= m → m ≠ 1 → budget_blocked (Tcb.block (Z.shiftl 1 m) t) = budget_blocked t.
Proof.
  intros Hm Hne. unfold budget_blocked, Tcb.block, BlockReasons.BUDGET.
  cbn [Tcb.reasons Tcb.with_reasons]. rewrite has_insert by lia.
  destruct (Z.eqb_spec 1 m); [lia|]. by rewrite orb_false_r.
Qed.

Lemma unblock_not_waiting t m : 0 <= m → not_waiting t → not_waiting (Tcb.unblock (Z.shiftl 1 m) t).
Proof.
  intros Hm [H1 H2]. unfold not_waiting, Tcb.unblock, BlockReasons.IPC, BlockReasons.PARK in *.
  cbn [Tcb.reasons Tcb.with_reasons]. by rewrite !has_remove, H1, H2 by lia.
Qed.

Lemma unblock_keeps t g : keeps t (Tcb.unblock g t).
Proof. by split. Qed.
Lemma block_keeps t g : keeps t (Tcb.block g t).
Proof. by split. Qed.

Lemma unblock_ok n t g : tcb_ok n t → tcb_ok n (Tcb.unblock g t).
Proof.
  intros [O1 O2 O3 O4]. split; try done. intros H. specialize (O1 H).
  unfold Tcb.unblock. cbn [Tcb.reasons Tcb.with_reasons]. rewrite O1. apply remove_0.
Qed.

Lemma block_ok n t g : tcb_ok n t → Tcb.used t = true → tcb_ok n (Tcb.block g t).
Proof.
  intros [O1 O2 O3 O4] Hu. split; try done. intros H. change (Tcb.used t = false) in H. congruence.
Qed.

(** ** What happens to the other threads *)

(** All threads but [i] are as before, up to their links. *)
Definition others_same (i : nat) (s s' : t) : Prop :=
  ∀ j, j ≠ i → unlinked <$> tcbs s' !! j = unlinked <$> tcbs s !! j.

Lemma others_same_upd i f s : others_same i s (with_tcbs (alter f i (tcbs s)) s).
Proof. intros j Hj. cbn. by rewrite list_lookup_alter_ne. Qed.

Lemma others_same_relink i s s1 s2 : others_same i s s1 → relinked s1 s2 → others_same i s s2.
Proof.
  intros H [E _] j Hj. rewrite <-H by done. apply (f_equal (.!! j)) in E.
  by rewrite !list_lookup_fmap in E.
Qed.

(** Everything of the scheduler but its threads, queues and bitmap. *)
Definition rest_same (s s' : t) : Prop :=
  s' = with_bitmap (bitmap s') (with_queues (queues s') (with_tcbs (tcbs s') s)).

Lemma rest_same_upd l s : rest_same s (with_tcbs l s).
Proof. by destruct s. Qed.

Lemma rest_same_current s s' : rest_same s s' → current s' = current s.
Proof. unfold rest_same. by intros ->. Qed.

Lemma rest_same_relink s s1 s2 : rest_same s s1 → relinked s1 s2 → rest_same s s2.
Proof. unfold rest_same. intros H [_ E]. rewrite E, H. by destruct s, s1, s2. Qed.

(** ** Stopping *)

(** [stop_with]: the thread gets the reason and leaves its queue. *)
Lemma wp_stop_with n c st Q F i t (R : unit → St → Prop) :
  n ∈ outer_bits → good (sch st) c Q F → tcbs (sch st) !! i = Some t → Tcb.used t = true →
  (∀ s', good s' c (qdel i Q) F → quiet st (mkSt s' (glo st)) → others_same i (sch st) s' →
     rest_same (sch st) s' →
     unlinked <$> tcbs s' !! i = Some (unlinked (Tcb.block (Z.shiftl 1 n) t)) →
     R tt (mkSt s' (glo st))) →
  wp (stop_with (Z.shiftl 1 n) i) st R.
Proof.
  intros Hn HG Ht Hu HR. destruct HG as [HB HQ]. apply wp_bind. eapply wp_upd_tcb; [done|].
  set (s1 := with_tcbs (alter (Tcb.block (Z.shiftl 1 n)) i (tcbs (sch st))) (sch st)).
  assert (base s1 c Q F) as HB1.
  { eapply base_upd_bb; [done|done|apply block_keeps| | |by apply outer_block_bb].
    - apply block_ok; [|done]. by apply (g_tcb _ _ _ _ HB i).
    - intros Hc. apply outer_block; [done|].
      destruct (g_cur _ _ _ _ HB i Hc) as (t0 & ? & _ & Hw). by simplify_eq. }
  assert (tcbs s1 !! i = Some (Tcb.block (Z.shiftl 1 n) t)) as Ht1.
  { cbn. by rewrite list_lookup_alter_eq, Ht. }
  eapply remove_from_ready_spec; [apply HB1|exact Ht1|]. intros s' HR' Hrl.
  cbn [glo with_sch sch] in *. apply HR.
  - split; [by eapply base_relink|]. intros p j [Hji Hj]%elem_of_qdel.
    eapply runnable_relink; [done|]. destruct (HQ p j Hj) as (tj & Htj & Hrun). exists tj.
    cbn. by rewrite list_lookup_alter_ne.
  - eapply quiet_trans; [eapply (quiet_upd st); [done|apply block_keeps]|].
    by apply relinked_quiet.
  - eapply others_same_relink; [|done]. apply others_same_upd.
  - eapply rest_same_relink; [|done]. apply rest_same_upd.
  - pose proof (rl_tcbs _ _ Hrl) as E. apply (f_equal (.!! i)) in E. rewrite !list_lookup_fmap, Ht1 in E.
    exact E.
Qed.

(** ** Waking *)

(** [wake_from]: the reason goes, and the thread joins its queue exactly when it
    may run now. *)
Lemma wp_wake_from m c st Q F i t (R : unit → St → Prop) :
  0 <= m → m ≠ 1 → good (sch st) c Q F → c = None ∨ c = current (sch st) → tcbs (sch st) !! i = Some t → Tcb.used t = true →
  (∀ s' Q', good s' c Q' F → quiet st (mkSt s' (glo st)) → others_same i (sch st) s' →
     rest_same (sch st) s' →
     unlinked <$> tcbs s' !! i = Some (unlinked (Tcb.unblock (Z.shiftl 1 m) t)) →
     Q' = (if BlockReasons.is_empty (BlockReasons.remove (Tcb.reasons t) (Z.shiftl 1 m)) &&
              negb (Tcb.depleted t) && negb (bool_decide (current (sch st) = Some i)) &&
              (Tcb.queued t =? NOT_QUEUED)
           then qadd (Z.to_nat (Tcb.priority t)) i Q else Q) →
     R tt (mkSt s' (glo st))) →
  wp (wake_from (Z.shiftl 1 m) i) st R.
Proof.
  intros Hm Hne HG Hcc Ht Hu HR. apply wp_bind. eapply wp_upd_tcb; [done|].
  set (s1 := with_tcbs (alter (Tcb.unblock (Z.shiftl 1 m)) i (tcbs (sch st))) (sch st)).
  pose proof (g_base _ _ _ _ HG) as HB.
  assert (good s1 c Q F) as HG1.
  { eapply good_upd_bb; [done|done|apply unblock_keeps| | | |by apply unblock_bb].
    - apply unblock_ok. by apply (g_tcb _ _ _ _ HB i).
    - intros p Hp. destruct (g_queue _ _ _ _ HG p i Hp) as (t0 & Ht0 & _ & _ & Hr & _). simplify_eq.
      unfold Tcb.unblock. cbn [Tcb.reasons Tcb.with_reasons]. rewrite Hr. apply remove_0.
    - intros Hc. apply unblock_not_waiting; [done|].
      destruct (g_cur _ _ _ _ HB i Hc) as (t0 & ? & _ & Hw). by simplify_eq. }
  assert (tcbs s1 !! i = Some (Tcb.unblock (Z.shiftl 1 m) t)) as Ht1.
  { cbn. by rewrite list_lookup_alter_eq, Ht. }
  eapply wp_wecke_good; [exact HG1|exact Hcc|exact Ht1|done|].
  intros s' Q' HG' Hrl Hq ->. cbn [glo with_sch sch] in *. eapply HR; [exact HG'| | | | |done].
  - eapply quiet_trans; [eapply (quiet_upd st); [done|apply unblock_keeps]|]. exact Hq.
  - eapply others_same_relink; [|done]. apply others_same_upd.
  - eapply rest_same_relink; [|done]. apply rest_same_upd.
  - pose proof (rl_tcbs _ _ Hrl) as E. apply (f_equal (.!! i)) in E. rewrite !list_lookup_fmap, Ht1 in E.
    exact E.
Qed.

(** ** Resolving a handle *)

Lemma resolve_in_Some st tid s :
  resolve_in st tid = Some s →
  ∃ e t, Globals.dir_load (glo st) (ThreadId.slot tid) = Some e ∧ dir_used e = true ∧
    dir_gen e = ThreadId.gen tid ∧ dir_core e = core (sch st) ∧ dir_local e = s ∧
    tcbs (sch st) !! s = Some t ∧ Tcb.used t = true ∧ Tcb.gen t = ThreadId.gen tid.
Proof.
  unfold resolve_in. destruct (Globals.dir_load _ _) as [e|]; [|done]. cbn [mbind option_bind negb andb].
  destruct (dir_used e) eqn:E1; [|done]. cbn [mbind option_bind negb andb].
  destruct (Z.eqb_spec (dir_gen e) (ThreadId.gen tid)) as [E2|]; [|done]. cbn [mbind option_bind negb andb].
  case_bool_decide as E3; [|done]. cbn [mbind option_bind negb andb].
  destruct (tcbs (sch st) !! dir_local e) as [t|] eqn:Ht; [|done]. cbn [mbind option_bind negb andb].
  destruct (Tcb.used t) eqn:E4; [|done]. cbn [mbind option_bind negb andb].
  destruct (Z.eqb_spec (Tcb.gen t) (ThreadId.gen tid)) as [E5|]; [|done].
  intros [= <-]. exists e, t. done.
Qed.

(** The frame of the operations on a resolved thread. *)
Lemma wp_on_thread {A} tid (d : A) (k : nat → M St A) st (R : A → St → Prop) :
  (resolve_in st tid = None → R d st) →
  (∀ s t, resolve_in st tid = Some s → tcbs (sch st) !! s = Some t → Tcb.used t = true →
     wp (k s) st R) →
  wp (os ← resolve tid; match os with None => mret d | Some s => k s end) st R.
Proof.
  intros HN HS. apply wp_bind, wp_gets. destruct (resolve_in st tid) as [s|] eqn:E; [|by apply wp_ret, HN].
  destruct (resolve_in_Some _ _ _ E) as (e & t & _ & _ & _ & _ & _ & Ht & Hu & _). by eapply HS.
Qed.
