(* ===== verification/SchedRun.v ===== *)
(** * Giving up the core, waking by IPC, donations

    The scheduler operations of [crates/caprock-sched/src/lib.rs] that change the
    running thread, block it, wake a partner or move a budget donation: every one
    keeps the invariant.  *)

From S2P Require Import Prelude PanicMonad Dll Slab Redirect SchedData Sched SchedReady SchedInv SchedWake.
Import Scheduler.
#[local] Open Scope Z_scope.

Implicit Types (Q : queue_map) (F : list nat) (c : option nat).

Definition Inv (st : St) : Prop := ∃ Q F, inv (sch st) Q F.

(** The common postcondition of an operation that creates and ends no thread. *)
Definition stays (st st' : St) : Prop := Inv st' ∧ quiet st st'.

Lemma stays_refl st : Inv st → stays st st.
Proof. intros H. split; [done|apply quiet_refl]. Qed.

Lemma stays_trans st1 st2 st3 : stays st1 st2 → stays st2 st3 → stays st1 st3.
Proof. intros [_ H1] [H2 H3]. split; [done|by eapply quiet_trans]. Qed.

#[export] Hint Resolve stays_refl stays_trans : caprock.

(** ** The running thread *)

Lemma good_drop s c Q F : good s c Q F → good s None Q F.
Proof.
  intros [[] HQ]. split; [split; try done|].
  intros p i Hi. destruct (HQ p i Hi) as (t & ? & ? & ? & ? & _). by exists t.
Qed.

Lemma good_current s c Q F x : good s c Q F → good (with_current x s) c Q F.
Proof. intros. by eapply good_ext. Qed.

Lemma inv_run s Q F i t :
  good s None Q F → tcbs s !! i = Some t → Tcb.used t = true → not_waiting t → (∀ p, i ∉ Q p) →
  inv (with_current (Some i) s) Q F.
Proof.
  intros HG Ht Hu Hw Hn. unfold inv. cbn [current with_current]. apply good_current.
  destruct HG as [[] HQ]. split; [split; try done|].
  - intros j [= <-]. by exists t.
  - intros p j Hj. destruct (HQ p j Hj) as (tj & ? & ? & ? & ? & _). exists tj.
    split_and!; try done. intros [= ->]. by eapply Hn.
Qed.

(** The running thread is in no queue. *)
Lemma inv_current_not_queued s Q F i : inv s Q F → current s = Some i → ∀ p, i ∉ Q p.
Proof. intros HG Hc p Hi. destruct (g_queue _ _ _ _ HG p i Hi) as (t & _ & _ & _ & _ & Hne). done. Qed.

Lemma zero_not_waiting t : Tcb.reasons t = 0 → not_waiting t.
Proof. unfold not_waiting. intros ->. done. Qed.

(** The highest-priority thread, first come first served. *)
Definition next_thread Q (p i : nat) : Prop :=
  hd_error (Q p) = Some i ∧ ∀ p', (p < p')%nat → Q p' = [].

(** [dequeue_highest] under the invariant. *)
Lemma wp_dequeue_good st c Q F (R : option nat → St → Prop) :
  good (sch st) c Q F →
  ((∀ p, Q p = []) → R None st) →
  (∀ p i s', next_thread Q p i → runnable (sch st) c p i → good s' c (qdel i Q) F →
     relinked (sch st) s' → quiet st (mkSt s' (glo st)) → R (Some i) (mkSt s' (glo st))) →
  wp dequeue_highest st R.
Proof.
  intros HG HN HS. eapply dequeue_highest_spec; [apply HG|done|].
  intros p i rest s' Hp HQ Hhi HR' Hrl. apply (HS p).
  - split; [by rewrite HQ|done].
  - apply HG. rewrite HQ. set_solver.
  - eapply good_relink; [done..|]. intros p' j [_ Hj]%elem_of_qdel. by apply HG.
  - done.
  - destruct st. by apply relinked_quiet.
Qed.

(** The state after [i] was chosen. *)
Lemma inv_next s s' c Q F p i :
  runnable s c p i → good s' c (qdel i Q) F → relinked s s' →
  ∃ t, tcbs s' !! i = Some t ∧ inv (with_current (Some i) s') (qdel i Q) F.
Proof.
  intros (t & Ht & Hu & Hp & Hr & _) HG Hrl.
  destruct (relinked_lookup_r _ _ _ _ Hrl Ht) as (t' & Ht' & E%unlinked_fields).
  destruct E as (Eu & _ & _ & _ & _ & Er & _).
  exists t'. split; [done|]. eapply inv_run; [by eapply good_drop|done|congruence| |].
  - apply zero_not_waiting. congruence.
  - intros p' Hi%elem_of_qdel. by destruct Hi.
Qed.

Lemma with_current_quiet st x : quiet st (mkSt (with_current x (sch st)) (glo st)).
Proof. by split. Qed.

(** [run_next]: where some thread is ready, the first of the highest priority runs. *)
Lemma wp_run_next st Q F (R : Z → St → Prop) :
  good (sch st) None Q F → (∃ p, Q p ≠ []) →
  (∀ p i t s', next_thread Q p i → tcbs (sch st) !! i = Some t → inv s' (qdel i Q) F →
     current s' = Some i → unlinked <$> tcbs s' = unlinked <$> tcbs (sch st) →
     quiet st (mkSt s' (glo st)) → R (Tcb.sp t) (mkSt s' (glo st))) →
  wp run_next st R.
Proof.
  intros HG [p0 Hne] HR. unfold run_next. apply wp_bind. eapply wp_dequeue_good; [done|by intros H; destruct Hne|].
  intros p i s' Hnext Hrun HG' Hrl Hq. apply wp_bind. eapply wp_expect; [done|].
  apply wp_bind, wp_upd. cbn [sch glo with_sch].
  destruct (inv_next _ _ _ _ _ _ _ Hrun HG' Hrl) as (t' & Ht' & HI).
  apply wp_bind. eapply wp_tcb; [exact Ht'|]. apply wp_ret.
  destruct (relinked_lookup _ _ _ _ Hrl Ht') as (t & Ht & E%unlinked_fields).
  destruct E as (_ & _ & _ & -> & _). eapply HR; [exact Hnext|exact Ht|exact HI|done| |].
  - apply Hrl.
  - eapply quiet_trans; [exact Hq|]. apply (with_current_quiet (mkSt s' (glo st))).
Qed.

(** ** Blocking the running thread *)

Lemma block_current_step st Q F cur t n frame :
  inv (sch st) Q F → current (sch st) = Some cur → tcbs (sch st) !! cur = Some t →
  Tcb.used t = true → 0 <= n → n ≠ 1 →
  let s1 := with_tcbs (alter (Tcb.block (Z.shiftl 1 n)) cur
              (alter (Tcb.with_sp frame) cur (tcbs (sch st)))) (sch st) in
  good s1 None Q F ∧ quiet st (mkSt s1 (glo st)).
Proof.
  intros HI Hc Ht Hu Hn Hne s1.
  assert (good s1 None Q F) as HG.
  { subst s1. rewrite list_alter_alter_eq. eapply good_upd_bb; [by eapply good_drop|done| | | |done|].
    - by split.
    - destruct (g_tcb _ _ _ _ (g_base _ _ _ _ HI) cur t Ht) as [O1 O2 O3 O4]. split; try done.
      intros H. change (Tcb.used t = false) in H. congruence.
    - intros p Hp. by destruct (inv_current_not_queued _ _ _ _ HI Hc p).
    - unfold compose. by rewrite block_bb. }
  split; [done|]. subst s1. rewrite list_alter_alter_eq. eapply (quiet_upd st); [done|by split].
Qed.

(** [block_current_mit]: the running thread keeps the frame and gets the reason;
    the next thread is the first one of the highest priority. *)
Lemma wp_block_current_mit core n frame st Q F cur (R : Z → St → Prop) :
  inv (sch st) Q F → current (sch st) = Some cur → 0 <= n → n ≠ 1 → (∃ p, Q p ≠ []) →
  (∀ p i t tc s', next_thread Q p i → tcbs (sch st) !! i = Some t → tcbs (sch st) !! cur = Some tc →
     inv s' (qdel i Q) F → current s' = Some i → others_same cur (sch st) s' →
     unlinked <$> tcbs s' !! cur = Some (unlinked (Tcb.block (Z.shiftl 1 n) (Tcb.with_sp frame tc))) →
     quiet st (mkSt s' (glo st)) → R (Tcb.sp t) (mkSt s' (glo st))) →
  wp (block_current_mit core frame (Z.shiftl 1 n)) st R.
Proof.
  intros HI Hc Hn Hne HQ HR.
  destruct (g_cur _ _ _ _ (g_base _ _ _ _ HI) cur Hc) as (t & Ht & Hu & Hw).
  destruct (block_current_step st Q F cur t n frame HI Hc Ht Hu Hn Hne) as [HG Hq].
  unfold block_current_mit. apply wp_bind, wp_self. apply wp_bind. eapply wp_expect; [exact Hc|].
  apply wp_bind. eapply wp_upd_tcb; [exact Ht|]. apply wp_bind. eapply wp_upd_tcb.
  { cbn. rewrite list_lookup_alter_eq, Ht. reflexivity. }
  eapply wp_run_next; [exact HG|done|]. intros p i ti s' Hnext Hti HI' Hc' Hun Hq'.
  cbn [sch glo with_sch] in *.
  assert (i ≠ cur) as Hic.
  { intros ->. destruct Hnext as [Hh _]. apply head_elem in Hh.
    by destruct (inv_current_not_queued _ _ _ _ HI Hc p). }
  cbn [tcbs with_tcbs] in Hti, Hun. rewrite !list_lookup_alter_ne in Hti by done.
  eapply HR; [exact Hnext|exact Hti|exact Ht|exact HI'|exact Hc'| | |by eapply quiet_trans].
  - intros j Hj. apply (f_equal (.!! j)) in Hun. rewrite !list_lookup_fmap in Hun.
    by rewrite !list_lookup_alter_ne in Hun by done.
  - apply (f_equal (.!! cur)) in Hun. rewrite !list_lookup_fmap in Hun.
    by rewrite !list_lookup_alter_eq, Ht in Hun.
Qed.

(** ** The budget reason *)

Lemma budget_count_pos s c Q F d t :
  good s c Q F → tcbs s !! d = Some t → budget_blocked t = true → 1 <= budget_blocked_count s.
Proof.
  intros HG Ht Hb. rewrite (g_bb _ _ _ _ (g_base _ _ _ _ HG)).
  assert (0 < count_if budget_blocked (tcbs s))%nat; [|lia]. apply count_if_pos. eauto.
Qed.

Lemma budget_count_small s c Q F : good s c Q F → budget_blocked_count s <= 2 ^ 16.
Proof.
  intros HG. rewrite (g_bb _ _ _ _ (g_base _ _ _ _ HG)).
  pose proof (count_if_length budget_blocked (tcbs s)).
  pose proof (rd_cap _ _ (g_ready _ _ _ _ (g_base _ _ _ _ HG))). lia.
Qed.

(** [set_budget_blocked] moves the reason and the counter together. *)
Lemma wp_set_budget_blocked c st Q F d t an (R : unit → St → Prop) :
  good (sch st) c Q F → tcbs (sch st) !! d = Some t → Tcb.used t = true →
  (an = true → ∀ p, d ∉ Q p) →
  (∀ s' t', good s' c Q F → quiet st (mkSt s' (glo st)) → tcbs s' !! d = Some t' →
     current s' = current (sch st) → keeps t t' → Tcb.sc_donor t' = Tcb.sc_donor t →
     budget_blocked t' = an → (∀ j, j ≠ d → tcbs s' !! j = tcbs (sch st) !! j) →
     R tt (mkSt s' (glo st))) →
  wp (set_budget_blocked d an) st R.
Proof.
  intros HG Ht Hu Han HR. unfold set_budget_blocked. apply wp_bind. eapply wp_tcb; [exact Ht|].
  destruct (eqb _ an) eqn:E.
  { apply eqb_prop in E. apply wp_ret. destruct st as [s g].
    eapply HR; [done|apply quiet_refl|done|done|by split|done|done|done]. }
  apply eqb_false_iff in E. pose proof (budget_count_small _ _ _ _ HG) as Hs.
  pose proof (g_base _ _ _ _ HG) as HB.
  destruct an.
  - apply not_true_is_false in E. apply wp_bind. eapply wp_upd_tcb; [exact Ht|]. apply wp_upd.
    cbn [sch glo with_sch budget_blocked_count with_tcbs].
    assert (0 <= budget_blocked_count (sch st)) by (rewrite (g_bb _ _ _ _ HB); lia).
    rewrite wrapping_add_exact by (unfold in_width; lia).
    assert (budget_blocked (Tcb.block BlockReasons.BUDGET t) = true) as Hb.
    { unfold budget_blocked, Tcb.block, BlockReasons.BUDGET. cbn [Tcb.reasons Tcb.with_reasons].
      rewrite has_insert by lia. apply orb_true_r. }
    eapply (HR _ (Tcb.block BlockReasons.BUDGET t));
      [|exact (quiet_upd_n st d t _ _ Ht (block_keeps t _))| |done|apply block_keeps|done|done|].
    + eapply good_upd; [done|exact Ht|apply block_keeps| | | |].
      * apply block_ok; [|done]. by apply (g_tcb _ _ _ _ HB d).
      * intros p Hp. by destruct (Han eq_refl p).
      * intros Hc. destruct (g_cur _ _ _ _ HB d Hc) as (t0 & ? & _ & [H1 H2]). simplify_eq.
        unfold not_waiting, Tcb.block, BlockReasons.IPC, BlockReasons.PARK, BlockReasons.BUDGET in *.
        cbn [Tcb.reasons Tcb.with_reasons]. by rewrite !has_insert, H1, H2 by lia.
      * rewrite Hb. unfold budget_blocked. rewrite E. lia.
    + cbn. by rewrite list_lookup_alter_eq, Ht.
    + intros j Hj. cbn. by rewrite list_lookup_alter_ne.
  - apply not_false_is_true in E. apply wp_bind. eapply wp_upd_tcb; [exact Ht|]. apply wp_upd.
    cbn [sch glo with_sch budget_blocked_count with_tcbs].
    pose proof (budget_count_pos _ _ _ _ _ _ HG Ht E).
    rewrite wrapping_sub_exact by (unfold in_width; lia).
    assert (budget_blocked (Tcb.unblock BlockReasons.BUDGET t) = false) as Hb.
    { unfold budget_blocked, Tcb.unblock, BlockReasons.BUDGET. cbn [Tcb.reasons Tcb.with_reasons].
      rewrite has_remove by lia. apply andb_false_r. }
    eapply (HR _ (Tcb.unblock BlockReasons.BUDGET t));
      [|exact (quiet_upd_n st d t _ _ Ht (unblock_keeps t _))| |done|apply unblock_keeps|done|done|].
    + eapply good_upd; [done|exact Ht|apply unblock_keeps| | | |].
      * apply unblock_ok. by apply (g_tcb _ _ _ _ HB d).
      * intros p Hp. destruct (g_queue _ _ _ _ HG p d Hp) as (t0 & Ht0 & _ & _ & Hr & _). simplify_eq.
        unfold Tcb.unblock. cbn [Tcb.reasons Tcb.with_reasons]. rewrite Hr. apply remove_0.
      * intros Hc. apply unblock_not_waiting; [lia|].
        destruct (g_cur _ _ _ _ HB d Hc) as (t0 & ? & _ & Hw). by simplify_eq.
      * rewrite Hb. unfold budget_blocked. rewrite E. lia.
    + cbn. by rewrite list_lookup_alter_eq, Ht.
    + intros j Hj. cbn. by rewrite list_lookup_alter_ne.
Qed.

(** Waking a thread that was blocked for an account. *)
Lemma wp_wake_donee st d t (R : unit → St → Prop) :
  Inv st → tcbs (sch st) !! d = Some t → Tcb.used t = true →
  (∀ st', stays st st' → R tt st') →
  wp (set_budget_blocked d false ≫= λ _, wecke_falls_lauffaehig d) st R.
Proof.
  intros (Q & F & HI) Ht Hu HR. apply wp_bind.
  eapply wp_set_budget_blocked; [exact HI|exact Ht|done|done|].
  intros s' t' HG Hq Ht' Hc Hk _ _ _.
  eapply wp_wecke_good; [exact HG|right; symmetry; exact Hc|exact Ht'| |].
  { destruct Hk. congruence. }
  intros s'' Q' HG' Hrl Hq' _. cbn [sch glo] in *. apply HR. split.
  - exists Q', F. unfold inv. cbn [sch]. rewrite (proj1 (proj2 (proj2 (relinked_fields _ _ Hrl)))), Hc. exact HG'.
  - eapply quiet_trans; [exact Hq|exact Hq'].
Qed.

(** A loop over the table whose body [stays]. *)
Lemma wp_slots_for (f : nat → M St unit) st (R : unit → St → Prop) :
  Inv st →
  (∀ i t st', Inv st' → tcbs (sch st') !! i = Some t → wp (f i) st' (λ _ st'', stays st' st'')) →
  (∀ st', stays st st' → R tt st') →
  wp (l ← slots; for_ l f) st R.
Proof.
  intros HI Hf HR. apply wp_bind, wp_self. eapply wp_mono.
  - apply (wp_for (λ st', stays st st')); [by apply stays_refl|].
    intros i st' Hi%elem_of_seq Hst.
    destruct (lookup_lt_is_Some_2 (tcbs (sch st')) i) as [t Ht].
    { rewrite (quiet_length _ _ (proj2 Hst)). lia. }
    eapply wp_mono; [eapply Hf; [apply Hst|exact Ht]|]. intros [] st''. by apply stays_trans.
  - intros [] st'. apply HR.
Qed.

Lemma wp_wake_donees slot st (R : unit → St → Prop) :
  Inv st → (∀ st', stays st st' → R tt st') → wp (wake_donees slot) st R.
Proof.
  intros HI HR. unfold wake_donees. apply wp_bind, wp_self.
  destruct (0 <? _); [|by apply wp_ret, HR, stays_refl].
  apply wp_slots_for; [done| |done]. intros d t st' HI' Ht. apply wp_bind. eapply wp_tcb; [exact Ht|].
  destruct (negb (bool_decide (d = slot))); [|by apply wp_ret, stays_refl].
  destruct (Tcb.used t) eqn:Hu; [|by apply wp_ret, stays_refl].
  destruct (BlockReasons.has _ _); [|by apply wp_ret, stays_refl].
  destruct (bool_decide _); [|by apply wp_ret, stays_refl]. cbn [andb].
  eapply wp_wake_donee; [done|exact Ht|done|done].
Qed.

(** Updates of fields the invariant does not speak of. *)
Lemma wp_plain st i t f (R : unit → St → Prop) :
  Inv st → tcbs (sch st) !! i = Some t → plain t (f t) →
  (∀ st', stays st st' → tcbs (sch st') !! i = Some (f t) → current (sch st') = current (sch st) →
     R tt st') →
  wp (upd_tcb i f) st R.
Proof.
  intros (Q & F & HI) Ht Hp HR. eapply wp_upd_plain; [exact HI|exact Ht|exact Hp|].
  intros s' Es' HG Hq Ht'. apply HR; [|done|by rewrite Es']. split; [|done].
  exists Q, F. unfold inv. cbn [sch]. rewrite Es' at 2. exact HG.
Qed.

(** Updates of the scheduler's own counters. *)
Lemma inv_counters st f :
  Inv st → tcbs (f (sch st)) = tcbs (sch st) → queues (f (sch st)) = queues (sch st) →
  bitmap (f (sch st)) = bitmap (sch st) → current (f (sch st)) = current (sch st) →
  free (f (sch st)) = free (sch st) → used (f (sch st)) = used (sch st) →
  budget_blocked_count (f (sch st)) = budget_blocked_count (sch st) →
  core (f (sch st)) = core (sch st) → zombies (f (sch st)) = zombies (sch st) →
  zhead (f (sch st)) = zhead (sch st) → ztail (f (sch st)) = ztail (sch st) →
  zcount (f (sch st)) = zcount (sch st) → stays st (with_sch (f (sch st)) st).
Proof.
  intros (Q & F & HI) E1 E2 E3 E4 E5 E6 E7 E8 E9 E10 E11 E12. split.
  - exists Q, F. unfold inv. cbn [sch with_sch]. rewrite E4. by eapply good_ext.
  - split; cbn [sch glo with_sch]; try done. unfold idents. by rewrite E1.
Qed.

Lemma wp_counters f st (R : unit → St → Prop) :
  Inv st →
  (stays st (with_sch (f (sch st)) st) → R tt (with_sch (f (sch st)) st)) →
  (Inv st → stays st (with_sch (f (sch st)) st)) →
  wp (upd f) st R.
Proof. intros HI HR H. apply wp_upd. by apply HR, H. Qed.
Ltac counters := intros; eapply inv_counters; [eassumption|reflexivity..].

Lemma wp_wecke st i t (R : unit → St → Prop) :
  Inv st → tcbs (sch st) !! i = Some t → Tcb.used t = true →
  (∀ st', stays st st' → R tt st') → wp (wecke_falls_lauffaehig i) st R.
Proof.
  intros (Q & F & HI) Ht Hu HR. eapply wp_wecke_good; [exact HI|by right|exact Ht|done|].
  intros s' Q' HG Hrl Hq _. apply HR. split; [|done]. exists Q', F. unfold inv. cbn [sch].
  rewrite (proj1 (proj2 (proj2 (relinked_fields _ _ Hrl)))). exact HG.
Qed.

Lemma stays_lookup st st' i t :
  stays st st' → tcbs (sch st) !! i = Some t →
  ∃ t', tcbs (sch st') !! i = Some t' ∧ ident t' = ident t.
Proof.
  intros [_ Hq] Ht. pose proof (q_idents _ _ Hq) as E. unfold idents in E.
  apply (f_equal (.!! i)) in E. rewrite !list_lookup_fmap, Ht in E.
  destruct (tcbs (sch st') !! i) as [t'|] eqn:Ht'; [|done]. exists t'. split; [done|].
  by apply (inj Some) in E.
Qed.

Lemma ident_used t t' : ident t' = ident t → Tcb.used t' = Tcb.used t.
Proof. unfold ident. by destruct (Tcb.used t), (Tcb.used t'). Qed.

(** ** Refill *)

Lemma wp_refill_slot slot t st (R : unit → St → Prop) :
  Inv st → tcbs (sch st) !! slot = Some t → (∀ st', stays st st' → R tt st') →
  wp (refill_slot slot) st R.
Proof.
  intros HI Ht HR. unfold refill_slot. apply wp_bind. eapply wp_tcb; [exact Ht|].
  apply wp_bind, wp_self. destruct (Tcb.used t) eqn:Hu; [|by apply wp_ret, HR, stays_refl].
  destruct (_ && _) eqn:Econd; [|by apply wp_ret, HR, stays_refl]. clear Econd.
  apply wp_bind. eapply wp_plain; [done|exact Ht|by plain_upd|]. intros st1 H1 Ht1 _.
  apply wp_bind. eapply wp_plain; [apply H1|exact Ht1|by plain_upd|]. intros st2 H2 Ht2 _.
  apply wp_bind, wp_counters; [apply H2| |counters]. intros H3.
  apply wp_bind, wp_counters; [apply H3| |counters]. intros H4.
  apply wp_bind, wp_wake_donees; [apply H4|]. intros st5 H5.
  assert (stays st st5) as Hs by eauto using stays_trans.
  destruct (stays_lookup _ _ _ _ Hs Ht) as (t5 & Ht5 & Eid%ident_used).
  apply wp_bind. eapply wp_tcb; [exact Ht5|].
  destruct (match Tcb.sc_donee t5 with Some _ => _ | None => _ end); [by apply wp_ret, HR|].
  apply wp_bind, wp_self. case_decide; [by apply wp_ret, HR|].
  eapply wp_wecke; [apply Hs|exact Ht5|congruence|]. intros st6 H6. apply HR. by eapply stays_trans.
Qed.

Lemma wp_refill_depleted st (R : unit → St → Prop) :
  Inv st → (∀ st', stays st st' → R tt st') → wp refill_depleted st R.
Proof.
  intros HI HR. apply wp_slots_for; [done| |done]. intros i t st' HI' Ht.
  eapply wp_refill_slot; [done|exact Ht|done].
Qed.
