(* ===== verification/SchedTick.v ===== *)
(** * The tick, budgets, deadlines, donations

    The rest of the operations of [crates/caprock-sched/src/lib.rs] that create
    and end no thread: all keep the invariant, none panics where a thread is
    ready to take over.  *)

From S2P Require Import Prelude PanicMonad Dll Slab Redirect SchedData Sched SchedReady SchedInv.
From S2P Require Import SchedWake SchedRun.
Import Scheduler.
#[local] Open Scope Z_scope.

Implicit Types (Q : queue_map) (F : list nat) (c : option nat).

(** ** The tick *)

Lemma wp_plain_c c st Q F i t f (R : unit → St → Prop) :
  good (sch st) c Q F → tcbs (sch st) !! i = Some t → plain t (f t) →
  (∀ s', good s' c Q F → quiet st (mkSt s' (glo st)) → tcbs s' !! i = Some (f t) →
     current s' = current (sch st) → tcbs s' = alter f i (tcbs (sch st)) →
     R tt (mkSt s' (glo st))) →
  wp (upd_tcb i f) st R.
Proof.
  intros HG Ht Hp HR. eapply wp_upd_plain; [exact HG|exact Ht|exact Hp|].
  intros s' -> HG' Hq Ht'. by apply HR.
Qed.

Lemma wp_counter_c c st Q F f (R : unit → St → Prop) :
  good (sch st) c Q F → good (f (sch st)) c Q F → quiet st (mkSt (f (sch st)) (glo st)) →
  (good (f (sch st)) c Q F → quiet st (mkSt (f (sch st)) (glo st)) →
     R tt (mkSt (f (sch st)) (glo st))) → wp (upd f) st R.
Proof. intros _ HG Hq HR. apply wp_upd. by apply HR. Qed.

(** One tick against the account of the running thread. *)
Lemma wp_charge_tick st Q F cur t requeue (R : bool → St → Prop) :
  inv (sch st) Q F → current (sch st) = Some cur → tcbs (sch st) !! cur = Some t →
  Tcb.used t = true → requeue = BlockReasons.is_empty (Tcb.reasons t) →
  (∀ r s', inv s' Q F → quiet st (mkSt s' (glo st)) → current s' = Some cur →
     (r = true → ∃ t', tcbs s' !! cur = Some t' ∧ Tcb.used t' = true ∧ Tcb.reasons t' = 0) →
     R r (mkSt s' (glo st))) →
  wp (charge_tick cur requeue) st R.
Proof.
  intros HI Hc Ht Hu Hrq HR. unfold charge_tick. apply wp_bind. eapply wp_tcb; [exact Ht|].
  set (acct := default cur (Tcb.sc_donor t)).
  assert (∃ a, tcbs (sch st) !! acct = Some a) as [a Ha].
  { apply lookup_lt_is_Some_2. unfold acct. destruct (Tcb.sc_donor t) as [x|] eqn:Ex; simpl.
    - by eapply (g_tcb _ _ _ _ (g_base _ _ _ _ HI) cur t Ht).
    - by eapply lookup_lt_Some. }
  apply wp_bind. eapply wp_plain_c; [exact HI|exact Ha|by plain_upd|].
  intros s1 HG1 Hq1 Ha1 Hc1 Hl1. cbn [sch glo] in *.
  assert (∃ t1, tcbs s1 !! cur = Some t1 ∧ Tcb.used t1 = true ∧ Tcb.reasons t1 = Tcb.reasons t) as (t1 & Ht1 & Hu1 & Hr1).
  { rewrite Hl1, lookup_alter_if, Ht. destruct (decide (acct = cur)); eexists; by split_and!. }
  apply wp_bind. eapply wp_tcb; [exact Ha1|].
  destruct (_ =? 0); cycle 1.
  { apply wp_ret. apply HR.
    - unfold inv. by rewrite Hc1.
    - done.
    - congruence.
    - intros ->. exists t1. split_and!; [done|done|]. rewrite Hr1. by apply Z.eqb_eq. }
  apply wp_bind, wp_self. cbn [sch]. apply wp_bind.
  eapply wp_plain_c; [exact HG1|exact Ha1|by plain_upd|]. intros s2 HG2 Hq2 Ha2 Hc2 Hl2. cbn [sch glo] in *.
  apply wp_bind. eapply wp_plain_c; [exact HG2|exact Ha2|by plain_upd|]. intros s3 HG3 Hq3 Ha3 Hc3 Hl3.
  cbn [sch glo] in *.
  apply wp_bind. eapply wp_counter_c; [exact HG3|by eapply good_ext|by split|].
  intros HG4 Hq4. apply wp_bind. eapply wp_counter_c; [exact HG4|by eapply good_ext|by split|].
  intros HG5 Hq5. cbn [sch glo] in *.
  set (s5 := with_depletions _ _) in *.
  assert (quiet st (mkSt s5 (glo st))) as Hq.
  { eapply quiet_trans; [exact Hq1|]. eapply quiet_trans; [exact Hq2|]. eapply quiet_trans; [exact Hq3|].
    eapply quiet_trans; [exact Hq4|exact Hq5]. }
  assert (current s5 = Some cur) as Hc5 by (cbn; congruence).
  assert (∃ t5, tcbs s5 !! cur = Some t5 ∧ Tcb.used t5 = true) as (t5 & Ht5 & Hu5).
  { change (tcbs s5) with (tcbs s3). rewrite Hl3, Hl2, !lookup_alter_if, Ht1. simpl.
    destruct (decide (acct = cur)); eexists; by split_and!. }
  assert (∀ p, cur ∉ Q p) as Hnq by by eapply inv_current_not_queued.
  apply wp_bind. case_decide.
  - eapply wp_set_budget_blocked; [exact HG5|exact Ht5|done|done|].
    intros s6 t6 HG6 Hq6 _ Hc6 _ _ _ _. cbn [sch glo] in *. apply wp_ret. apply HR.
    + unfold inv. rewrite Hc6, Hc5, <-Hc. exact HG6.
    + by eapply quiet_trans.
    + congruence.
    + done.
  - apply wp_ret, wp_ret. apply HR; [|done|done|done]. unfold inv. rewrite Hc5, <-Hc. exact HG5.
Qed.

(** [on_tick] keeps the invariant in every state: it needs no ready thread. *)
Lemma wp_on_tick core frame tick st (R : Z → St → Prop) :
  Inv st → (∀ f st', stays st st' → R f st') → wp (on_tick core frame tick) st R.
Proof.
  intros HI HR. unfold on_tick. apply wp_bind.
  assert (wp (if tick then
     upd (λ s, with_now (wrapping_add 64 (now s) 1) s) ≫= λ _,
     n ← self depleted_count; if 0 <? n then refill_depleted else mret tt
   else mret tt) st (λ _ st', stays st st')) as H1.
  { destruct tick; [|by apply wp_ret, stays_refl]. apply wp_bind, wp_counters; [done| |counters].
    intros H1. apply wp_bind, wp_self. destruct (0 <? _); [|by apply wp_ret].
    apply wp_refill_depleted; [apply H1|]. intros st'. by apply stays_trans. }
  eapply wp_mono; [exact H1|]. clear H1. cbv beta. intros [] st1 H1.
  apply wp_bind, wp_self.
  assert (∀ st2 c Q F, good (sch st2) c Q F → c = current (sch st2) ∨ (∃ p, Q p ≠ []) → quiet st st2 →
    wp (on ← dequeue_highest;
        match on with
        | Some next => upd (with_current (Some next)) ≫= λ _, t ← tcb next; mret (Tcb.sp t)
        | None => mret frame
        end) st2 R) as Hend.
  { intros st2 c Q F HG Hc Hq. apply wp_bind. eapply wp_dequeue_good; [exact HG| |].
    - intros Hemp. apply wp_ret, HR. split; [|done]. exists Q, F.
      destruct Hc as [-> | [p Hp]]; [done|by destruct Hp].
    - intros p i s' Hn Hrun HG' Hrl Hq'. apply wp_bind, wp_upd. cbn [sch glo with_sch].
      destruct (inv_next _ _ _ _ _ _ _ Hrun HG' Hrl) as (t' & Ht' & HI').
      apply wp_bind. eapply wp_tcb; [exact Ht'|]. apply wp_ret, HR. split; [by exists (qdel i Q), F|].
      eapply quiet_trans; [exact Hq|]. eapply quiet_trans; [exact Hq'|]. apply with_current_quiet. }
  destruct H1 as [(Q & F & HI1) Hq1]. destruct (current (sch st1)) as [cur|] eqn:Hc1.
  2:{ apply wp_bind, wp_ret. eapply Hend; [exact HI1|by left|done]. }
  destruct (g_cur _ _ _ _ (g_base _ _ _ _ HI1) cur Hc1) as (t & Ht & Hu & Hw).
  apply wp_bind, wp_bind. eapply wp_plain_c; [exact HI1|exact Ht|by plain_upd|].
  intros s2 HG2 Hq2 Ht2 Hc2 Hl2. cbn [sch glo] in *. apply wp_bind. eapply wp_tcb; [exact Ht2|].
  apply wp_bind.
  assert (∃ a, tcbs s2 !! default cur (Tcb.sc_donor (Tcb.with_sp frame t)) = Some a) as [a Ha].
  { apply lookup_lt_is_Some_2. change (Tcb.sc_donor (Tcb.with_sp frame t)) with (Tcb.sc_donor t).
    rewrite Hl2, length_alter. destruct (Tcb.sc_donor t) as [x|] eqn:Ex; simpl.
    - by eapply (g_tcb _ _ _ _ (g_base _ _ _ _ HI1) cur t Ht).
    - by eapply lookup_lt_Some. }
  eapply wp_tcb; [exact Ha|]. apply wp_bind.
  assert (inv s2 Q F) as HI2 by (unfold inv; by rewrite Hc2).
  set (requeue := BlockReasons.is_empty _).
  assert (wp (if tick && (0 <? Tcb.budget a) then charge_tick cur requeue else mret requeue)
    (mkSt s2 (glo st1)) (λ r st3, ∃ s3, st3 = mkSt s3 (glo st1) ∧ inv s3 Q F ∧ quiet st1 st3 ∧
       current s3 = Some cur ∧
       (r = true → ∃ t', tcbs s3 !! cur = Some t' ∧ Tcb.used t' = true ∧ Tcb.reasons t' = 0))) as H3.
  { destruct (_ && _).
    - eapply wp_charge_tick; [exact HI2|cbn; congruence|exact Ht2|done|done|].
      intros r s3 HI3 Hq3 Hc3 Hr. exists s3. split_and!; [done|done|by eapply quiet_trans|done|done].
    - apply wp_ret. exists s2. split_and!; [done|done|done|congruence|]. intros Hr%Z.eqb_eq.
      exists (Tcb.with_sp frame t). by split_and!. }
  eapply wp_mono; [exact H3|]. clear H3. intros r st3 (s3 & -> & HI3 & Hq3 & Hc3 & Hr).
  assert (quiet st (mkSt s3 (glo st1))) as Hq by by eapply quiet_trans.
  destruct r.
  - destruct (Hr eq_refl) as (t3 & Ht3 & Hu3 & Hr3).
    eapply (wp_enqueue_good None); [by eapply good_drop|exact Ht3|done|done|done|].
    intros s4 Q4 HG4 Hrl4 Hq4 HQ4. eapply Hend; [exact HG4|right|by eapply quiet_trans].
    destruct HQ4 as [(Hnq & _ & _)|(_ & ->)].
    + exfalso. apply Hnq. apply Z.eqb_eq.
      apply (rd_not_queued s3 Q (g_ready _ _ _ _ (g_base _ _ _ _ HI3)) cur t3 Ht3).
      by eapply inv_current_not_queued.
    + exists (Z.to_nat (Tcb.priority t3)). unfold qadd. rewrite decide_True by done. by destruct (Q _).
  - apply wp_ret. eapply Hend; [exact HI3|by left|done].
Qed.

(** ** Budgets *)

Lemma wp_on_resolved {A} tid (d : A) (k : nat → M St A) st (R : A → St → Prop) :
  Inv st → (∀ st', stays st st' → R d st') →
  (∀ s t, tcbs (sch st) !! s = Some t → Tcb.used t = true → wp (k s) st R) →
  wp (os ← resolve tid; match os with None => mret d | Some s => k s end) st R.
Proof.
  intros HI HN HS. apply wp_on_thread; [intros _; by apply HN, stays_refl|].
  intros s t _. by apply HS.
Qed.

(** Chains of updates: [st] is the start, the last state stays from it. *)
Ltac chain := eauto 20 with caprock.

Lemma wp_set_budget tid budget period st (R : bool → St → Prop) :
  Inv st → (∀ b st', stays st st' → R b st') → wp (set_budget tid budget period) st R.
Proof.
  intros HI HR. apply wp_on_resolved; [done|by apply HR|]. intros s t Ht Hu.
  apply wp_bind. eapply wp_tcb; [exact Ht|]. apply wp_bind, wp_self.
  apply wp_bind. eapply wp_plain; [done|exact Ht|by plain_upd|]. intros st1 H1 Ht1 _.
  apply wp_bind. eapply wp_plain; [apply H1|exact Ht1|by plain_upd|]. intros st2 H2 Ht2 _.
  apply wp_bind. eapply wp_plain; [apply H2|exact Ht2|by plain_upd|]. intros st3 H3 Ht3 _.
  apply wp_bind. eapply wp_plain; [apply H3|exact Ht3|by plain_upd|]. intros st4 H4 Ht4 _.
  apply wp_bind. eapply wp_plain; [apply H4|exact Ht4|by plain_upd|]. intros st5 H5 Ht5 _.
  assert (stays st st5) as Hs5 by chain. clear H1 H2 H3 H4 H5.
  apply wp_bind. destruct (Tcb.depleted t); [|by apply wp_ret, wp_ret, HR].
  apply wp_bind, wp_counters; [apply Hs5| |counters]. intros H6.
  apply wp_bind, wp_wake_donees; [apply H6|]. intros st7 H7. apply wp_bind, wp_self.
  assert (stays st st7) as Hs7 by chain.
  case_decide; [by apply wp_ret, wp_ret, HR|].
  destruct (stays_lookup _ _ _ _ Hs7 Ht) as (t7 & Ht7 & Eid%ident_used).
  eapply wp_wecke; [apply Hs7|exact Ht7|congruence|]. intros st8 H8. apply wp_ret, HR. chain.
Qed.

(** ** Deadlines *)

Lemma grund_bits g : g ∈ [0; BlockReasons.IPC; BlockReasons.PARK] →
  ∀ r, BlockReasons.enthaelt r g = true → g = Z.shiftl 1 0 ∨ g = Z.shiftl 1 3.
Proof.
  intros Hg r Hr. apply elem_of_cons in Hg as [->|Hg].
  { unfold BlockReasons.enthaelt in Hr. by rewrite Z.land_0_r in Hr. }
  apply elem_of_cons in Hg as [->|Hg]; [by left|]. apply elem_of_cons in Hg as [->|Hg]; [by right|].
  by apply elem_of_nil in Hg.
Qed.

(** One step of the deadline pass. *)
Lemma wp_fristen_schritt room acc i t st (R : list ThreadId.t * Z → St → Prop) :
  Inv st → tcbs (sch st) !! i = Some t → (∀ r st', stays st st' → R r st') →
  wp (fristen_schritt room acc i) st R.
Proof.
  intros HI Ht HR. destruct acc as [out naechste]. unfold fristen_schritt. apply wp_bind.
  eapply wp_tcb; [exact Ht|]. destruct (Tcb.used t) eqn:Hu; [|by apply wp_ret, HR, stays_refl].
  destruct (Tcb.frist t =? 0); [by apply wp_ret, HR, stays_refl|]. simpl negb. cbn [orb].
  apply wp_bind, wp_self. destruct (frist_befund _ _ _ _).
  - by apply wp_ret, HR, stays_refl.
  - apply wp_bind. eapply wp_plain; [done|exact Ht|by plain_upd|]. intros st1 H1 Ht1 Hc1.
    apply wp_bind. eapply wp_plain; [apply H1|exact Ht1|by plain_upd|]. intros st2 H2 Ht2 Hc2.
    assert (stays st st2) as Hs2 by chain.
    apply wp_bind. eapply wp_tcb; [exact Ht2|].
    change (Tcb.reasons (Tcb.with_frist_grund 0 (Tcb.with_frist 0 t))) with (Tcb.reasons t).
    destruct (BlockReasons.enthaelt (Tcb.reasons t) (Tcb.frist_grund t)) eqn:Eg; cbn [negb];
      [|by apply wp_ret, HR].
    destruct HI as (Q0 & F0 & HI0).
    pose proof (g_tcb _ _ _ _ (g_base _ _ _ _ HI0) i t Ht) as [_ _ _ Hok].
    pose proof (grund_bits _ Hok _ Eg) as Hg.
    assert (current (sch st) ≠ Some i) as Hnc.
    { intros Hc. destruct (g_cur _ _ _ _ (g_base _ _ _ _ HI0) i Hc) as (t0 & Ht0 & _ & Hw1 & Hw2).
      simplify_eq. unfold BlockReasons.enthaelt in Eg. unfold BlockReasons.has in *.
      unfold BlockReasons.IPC, BlockReasons.PARK in *. destruct Hg as [Hg|Hg]; rewrite Hg in Eg; congruence. }
    destruct Hs2 as [(Q2 & F2 & HI2) Hq2].
    set (t2 := Tcb.with_frist_grund 0 (Tcb.with_frist 0 t)) in *.
    apply wp_bind. eapply wp_upd_tcb; [exact Ht2|].
    set (s3 := with_tcbs (alter (Tcb.unblock (Tcb.frist_grund t)) i (tcbs (sch st2))) (sch st2)).
    assert (inv s3 Q2 F2) as HI3.
    { assert (∃ m, Tcb.frist_grund t = Z.shiftl 1 m ∧ 0 <= m ∧ m ≠ 1) as (m & Em & Hm & Hm1).
      { destruct Hg as [Hg|Hg]; [exists 0|exists 3]; rewrite Hg; (split; [done|lia]). }
      unfold inv. subst s3. rewrite Em. eapply good_upd_bb; [exact HI2|exact Ht2|apply unblock_keeps| | | |by apply unblock_bb].
      - apply unblock_ok. by apply (g_tcb _ _ _ _ (g_base _ _ _ _ HI2) i).
      - intros p Hp. destruct (g_queue _ _ _ _ HI2 p i Hp) as (t0 & Ht0 & _ & _ & Hr & _). simplify_eq.
        unfold Tcb.unblock. cbn [Tcb.reasons Tcb.with_reasons]. rewrite Hr. apply remove_0.
      - cbn [current with_tcbs]. congruence. }
    assert (quiet st (mkSt s3 (glo st2))) as Hq3.
    { eapply quiet_trans; [exact Hq2|]. eapply (quiet_upd st2); [exact Ht2|apply unblock_keeps]. }
    assert (tcbs s3 !! i = Some (Tcb.unblock (Tcb.frist_grund t) t2)) as Ht3.
    { cbn. by rewrite list_lookup_alter_eq, Ht2. }
    apply wp_bind. unfold id. apply wp_bind. eapply wp_tcb; [exact Ht3|]. apply wp_ret.
    apply wp_bind. eapply wp_tcb; [exact Ht3|]. apply wp_bind.
    destruct (BlockReasons.is_empty _) eqn:Ee; cbn [andb];
      [destruct (_ =? NOT_QUEUED)|].
    + eapply wp_enqueue_good; [exact HI3|exact Ht3|done|by apply Z.eqb_eq|cbn; congruence|].
      intros s4 Q4 HG4 Hrl4 Hq4 _. apply wp_ret, HR. split; [|by eapply quiet_trans].
      exists Q4, F2. unfold inv. cbn [sch] in *.
      rewrite (proj1 (proj2 (proj2 (relinked_fields _ _ Hrl4)))). exact HG4.
    + apply wp_ret, wp_ret, HR. split; [|done]. by exists Q2, F2.
    + apply wp_ret, wp_ret, HR. split; [|done]. by exists Q2, F2.
  - apply wp_bind, wp_counters; [done| |counters]. intros H1. by apply wp_ret, HR.
  - apply wp_bind. eapply wp_plain; [done|exact Ht|by plain_upd|]. intros st1 H1 Ht1 Hc1.
    apply wp_bind. eapply wp_plain; [apply H1|exact Ht1|by plain_upd|]. intros st2 H2 Ht2 Hc2.
    apply wp_ret, HR. chain.
Qed.

Lemma wp_fristen_faellig room st (R : list ThreadId.t → St → Prop) :
  Inv st → (∀ r st', stays st st' → R r st') → wp (fristen_faellig room) st R.
Proof.
  intros HI HR. unfold fristen_faellig. apply wp_bind, wp_self.
  destruct (_ <? _); [by apply wp_ret, HR, stays_refl|].
  apply wp_bind, wp_self. apply wp_bind. eapply wp_mono.
  - apply (wp_fold_m (λ _ _ st', stays st st')); [by apply stays_refl|].
    intros i l' a st' Hi%elem_of_seq Hst.
    destruct (lookup_lt_is_Some_2 (tcbs (sch st')) i) as [t Ht].
    { rewrite (quiet_length _ _ (proj2 Hst)). lia. }
    eapply wp_fristen_schritt; [apply Hst|exact Ht|]. intros r st''. by apply stays_trans.
  - cbv beta. intros r st1 H1. apply wp_bind, wp_counters; [apply H1| |counters].
    intros H2. apply wp_ret, HR. chain.
Qed.

(** A deadline may only end the reasons that the IPC and park paths wait for. *)
Lemma wp_frist_setzen core ticks grund st (R : unit → St → Prop) :
  Inv st → is_Some (current (sch st)) → grund ∈ [BlockReasons.IPC; BlockReasons.PARK] →
  (∀ st', stays st st' → R tt st') → wp (frist_setzen core ticks grund) st R.
Proof.
  intros HI [cur Hc] Hg HR. unfold frist_setzen. apply wp_bind, wp_self. apply wp_bind.
  eapply wp_expect; [exact Hc|]. destruct HI as (Q & F & HI).
  destruct (g_cur _ _ _ _ (g_base _ _ _ _ HI) cur Hc) as (t & Ht & _ & _).
  assert (Inv st) as HInv by (by exists Q, F).
  destruct (ticks =? 0).
  - apply wp_bind. eapply wp_plain; [done|exact Ht|by plain_upd|]. intros st1 H1 Ht1 Hc1.
    eapply wp_plain; [apply H1|exact Ht1|by plain_upd|]. intros st2 H2 _ _. apply HR. chain.
  - apply wp_bind, wp_self. cbv zeta. apply wp_bind.
    eapply wp_plain; [done|exact Ht|by plain_upd|]. intros st1 H1 Ht1 Hc1. apply wp_bind.
    eapply wp_plain; [apply H1|exact Ht1| |].
    { split; [by split|done|by left|]. simpl. apply elem_of_cons. right. apply elem_of_cons. by right. }
    intros st2 H2 _ _. apply wp_counters; [apply H2| |].
    + intros H3. apply HR. chain.
    + intros HI2. cbv beta. destruct (_ <? naechste_frist (sch st2)).
      * eapply (inv_counters st2 (with_naechste_frist _)); [eassumption|reflexivity..].
      * destruct st2. by apply stays_refl.
Qed.
