(* ===== verification/SchedOps.v ===== *)
(** * IPC switches, parking, and the operations on one thread

    The remaining operations of [crates/caprock-sched/src/lib.rs] that create and
    end no thread keep the invariant; those that give up the core need a ready
    successor ([bitmap <> 0]), which the idle thread is in the kernel.  *)

From S2P Require Import Prelude PanicMonad Dll Slab Redirect SchedData Sched SchedReady SchedInv.
From S2P Require Import SchedWake SchedRun SchedTick.
Import Scheduler.
#[local] Open Scope Z_scope.

Implicit Types (Q : queue_map) (F : list nat) (c : option nat).

(** Some thread is ready. *)
Definition has_ready (st : St) : Prop := bitmap (sch st) ≠ 0.

Lemma has_ready_queue st Q : ready (sch st) Q → has_ready st → ∃ p, Q p ≠ [].
Proof.
  intros HR Hb. pose proof (rd_bitmap_pos _ _ HR).
  destruct (bitmap_log2 _ _ HR) as (_ & Hne & _); [unfold has_ready in Hb; lia|]. eauto.
Qed.

(** ** Giving up the core *)

Lemma wp_block_stays core n frame st (R : Z → St → Prop) :
  Inv st → is_Some (current (sch st)) → has_ready st → 0 <= n → n ≠ 1 →
  (∀ f st', stays st st' → R f st') → wp (block_current_mit core frame (Z.shiftl 1 n)) st R.
Proof.
  intros (Q & F & HI) [cur Hc] Hr Hn Hn1 HR.
  eapply wp_block_current_mit; [exact HI|exact Hc|done|done| |].
  { eapply has_ready_queue; [apply HI|done]. }
  intros p i t tc s' _ _ _ HI' _ _ _ Hq. apply HR. split; [by exists (qdel i Q), F|done].
Qed.

Lemma wp_park_current core frame st (R : option Z → St → Prop) :
  Inv st → is_Some (current (sch st)) → has_ready st →
  (∀ f st', stays st st' → R f st') → wp (park_current core frame) st R.
Proof.
  intros HI [cur Hc] Hr HR. unfold park_current. apply wp_bind, wp_self. apply wp_bind.
  eapply wp_expect; [exact Hc|]. destruct HI as (Q & F & HI).
  destruct (g_cur _ _ _ _ (g_base _ _ _ _ HI) cur Hc) as (t & Ht & _ & _).
  assert (Inv st) as HInv by (by exists Q, F).
  apply wp_bind. eapply wp_tcb; [exact Ht|]. destruct (Tcb.park_wake t).
  - apply wp_bind. eapply wp_plain; [done|exact Ht|by plain_upd|]. intros st1 H1 _ _. by apply wp_ret, HR.
  - apply wp_bind. eapply (wp_block_stays _ 3); [done|by exists cur|done|lia|lia|].
    intros f st' Hst. by apply wp_ret, HR.
Qed.

(** The end of a donation chain: the account charged. *)
Lemma good_donor s c Q F i t a :
  good s c Q F → tcbs s !! i = Some t → (a < length (tcbs s))%nat →
  good (with_tcbs (alter (Tcb.with_sc_donor (Some a)) i (tcbs s)) s) c Q F.
Proof.
  intros HG Ht Ha. eapply good_upd_bb; [done|done|by split| | | |done].
  - destruct (g_tcb _ _ _ _ (g_base _ _ _ _ HG) i t Ht) as [O1 O2 O3 O4]. split; try done.
    by intros ? [= <-].
  - intros p Hp. destruct (g_queue _ _ _ _ HG p i Hp) as (t0 & Ht0 & _ & _ & Hr0 & _). by simplify_eq.
  - intros Hc. destruct (g_cur _ _ _ _ (g_base _ _ _ _ HG) i Hc) as (t0 & Ht0 & _ & Hw). by simplify_eq.
Qed.

Lemma remove_insert r g : BlockReasons.remove (BlockReasons.insert r g) g = BlockReasons.remove r g.
Proof.
  apply Z.bits_inj'. intros m Hm. unfold BlockReasons.remove, BlockReasons.insert.
  rewrite !Z.ldiff_spec, Z.lor_spec. destruct (Z.testbit r m), (Z.testbit g m); done.
Qed.

Lemma remove_absent r n : 0 <= n → BlockReasons.has r (Z.shiftl 1 n) = false →
  BlockReasons.remove r (Z.shiftl 1 n) = r.
Proof.
  intros Hn Hh. rewrite has_testbit in Hh by done. apply Z.bits_inj'. intros m Hm.
  unfold BlockReasons.remove. rewrite ldiff_testbit by done.
  destruct (Z.eqb_spec m n) as [->|]; [by rewrite Hh|by rewrite andb_true_r].
Qed.

(** The target of a handle does not change while the directory and the
    identities stay. *)
Lemma resolve_quiet st st' tid : quiet st st' → resolve_in st' tid = resolve_in st tid.
Proof.
  intros [Eg Ec Ei _ _]. unfold resolve_in. rewrite Eg, Ec.
  destruct (Globals.dir_load _ _) as [e|]; [|done]. cbn [mbind option_bind].
  destruct (negb _); [done|]. destruct (negb _); [done|]. destruct (negb _); [done|].
  unfold idents in Ei. apply (f_equal (.!! dir_local e)) in Ei. rewrite !list_lookup_fmap in Ei.
  destruct (tcbs (sch st') !! dir_local e) as [t'|], (tcbs (sch st) !! dir_local e) as [t|]; try done.
  cbn [mbind option_bind]. apply (inj Some) in Ei. unfold ident in Ei.
  destruct (Tcb.used t'), (Tcb.used t); try done. cbn [andb].
  injection Ei as _ ->. done.
Qed.

(** The direct switch: the caller waits for IPC with its frame saved; a target
    that waited for nothing else runs at once on the caller's account. *)
Lemma wp_switch_to core frame target st Q F cur t (R : Z → St → Prop) :
  inv (sch st) Q F → current (sch st) = Some cur → resolve_in st target = Some t →
  (has_ready st ∨ ∀ tt_, tcbs (sch st) !! t = Some tt_ → BlockReasons.remove (Tcb.reasons tt_) BlockReasons.IPC = 0) →
  (∀ f st', stays st st' → R f st') → wp (switch_to core frame target) st R.
Proof.
  intros HI Hc Hres Hpre HR.
  destruct (g_cur _ _ _ _ (g_base _ _ _ _ HI) cur Hc) as (tc & Htc & Huc & Hw).
  destruct (block_current_step st Q F cur tc 0 frame HI Hc Htc Huc) as [HG1 Hq1]; [lia|lia|].
  unfold switch_to. apply wp_bind, wp_self. apply wp_bind. eapply wp_expect; [exact Hc|].
  apply wp_bind. eapply wp_upd_tcb; [exact Htc|]. apply wp_bind. eapply wp_upd_tcb.
  { cbn. rewrite list_lookup_alter_eq, Htc. reflexivity. }
  cbn [sch glo with_sch]. cbn [tcbs with_tcbs].
  change (Z.shiftl 1 0) with BlockReasons.IPC in HG1, Hq1.
  set (s1 := with_tcbs (alter (Tcb.block BlockReasons.IPC) cur (alter (Tcb.with_sp frame) cur (tcbs (sch st)))) (sch st)) in *.
  change (with_sch _ _) with (mkSt s1 (glo st)).
  apply wp_bind, wp_gets. rewrite (resolve_quiet _ _ _ Hq1), Hres. apply wp_bind. eapply wp_expect; [done|].
  destruct (resolve_in_Some _ _ _ Hres) as (e & tt0 & _ & _ & _ & _ & _ & Htt & Hut & _).
  assert (∃ t1, tcbs s1 !! t = Some t1 ∧ Tcb.used t1 = true ∧
    BlockReasons.remove (Tcb.reasons t1) BlockReasons.IPC = BlockReasons.remove (Tcb.reasons tt0) BlockReasons.IPC)
    as (t1 & Ht1 & Hu1 & Hr1).
  { subst s1. cbn [tcbs with_tcbs]. rewrite !lookup_alter_if, Htt.
    destruct (decide (cur = t)) as [->|]; eexists; (split_and!; [done|done|]); [|done].
    simpl. apply remove_insert. }
  apply wp_bind. eapply wp_upd_tcb; [exact Ht1|].
  set (s2 := with_tcbs (alter (Tcb.unblock BlockReasons.IPC) t (tcbs s1)) s1).
  change (with_sch _ _) with (mkSt s2 (glo st)).
  assert (good s2 None Q F) as HG2.
  { eapply good_upd_bb; [exact HG1|exact Ht1|apply unblock_keeps| | |done|by apply (unblock_bb _ 0)].
    - apply unblock_ok. by apply (g_tcb _ _ _ _ (g_base _ _ _ _ HG1) t).
    - intros p Hp. destruct (g_queue _ _ _ _ HG1 p t Hp) as (t0 & Ht0 & _ & _ & Hr & _). simplify_eq.
      unfold Tcb.unblock. cbn [Tcb.reasons Tcb.with_reasons]. rewrite Hr. apply remove_0. }
  assert (quiet st (mkSt s2 (glo st))) as Hq2.
  { eapply quiet_trans; [exact Hq1|]. eapply (quiet_upd (mkSt s1 (glo st))); [exact Ht1|apply unblock_keeps]. }
  assert (tcbs s2 !! t = Some (Tcb.unblock BlockReasons.IPC t1)) as Ht2.
  { by apply tcbs_upd_lookup. }
  apply wp_bind. eapply wp_tcb; [exact Ht2|].
  destruct (BlockReasons.is_empty _) eqn:Ee; cbn [negb]; cycle 1.
  { eapply wp_run_next; [exact HG2| |].
    - destruct Hpre as [Hb|Hz]; [eapply has_ready_queue; [apply HI|done]|].
      exfalso. apply Z.eqb_neq in Ee. apply Ee. cbn. rewrite Hr1. by apply Hz.
    - intros p i ti s' _ _ HI' _ _ Hq'. apply HR. split; [by exists (qdel i Q), F|].
      by eapply quiet_trans. }
  apply wp_bind. eapply remove_from_ready_spec; [apply HG2|exact Ht2|].
  intros s3 HR3 Hrl3. cbn [sch glo] in *.
  assert (good s3 None (qdel t Q) F) as HG3.
  { eapply good_relink; [exact HG2|done|done|]. intros p j [_ Hj]%elem_of_qdel. by apply HG2. }
  assert (quiet st (mkSt s3 (glo st))) as Hq3.
  { eapply quiet_trans; [exact Hq2|]. by apply relinked_quiet. }
  assert (length (tcbs s3) = length (tcbs (sch st))) as Hlen by exact (quiet_length _ _ Hq3).
  assert (∃ tc3, tcbs s3 !! cur = Some tc3) as [tc3 Htc3].
  { apply lookup_lt_is_Some_2. rewrite Hlen. by eapply lookup_lt_Some. }
  apply wp_bind. eapply wp_tcb; [exact Htc3|].
  set (account := default cur (Tcb.sc_donor tc3)).
  assert (account < length (tcbs s3))%nat as Hacc.
  { unfold account. destruct (Tcb.sc_donor tc3) eqn:Ed; simpl; [|by eapply lookup_lt_Some].
    by eapply (g_tcb _ _ _ _ (g_base _ _ _ _ HG3) cur tc3 Htc3). }
  destruct (relinked_lookup_r _ _ _ _ Hrl3 Ht2) as (t3 & Ht3 & E3%unlinked_fields).
  destruct E3 as (Eu3 & _ & _ & _ & _ & Er3 & _).
  apply wp_bind. eapply wp_upd_tcb; [exact Ht3|].
  pose proof (good_donor _ _ _ _ _ _ _ HG3 Ht3 Hacc) as HG4.
  set (s4 := with_tcbs (alter (Tcb.with_sc_donor (Some account)) t (tcbs s3)) s3) in *.
  change (with_sch _ _) with (mkSt s4 (glo st)).
  assert (quiet st (mkSt s4 (glo st))) as Hq4.
  { eapply quiet_trans; [exact Hq3|]. by eapply (quiet_upd (mkSt s3 (glo st))). }
  destruct (lookup_lt_is_Some_2 (tcbs s4) account) as [ta Hta].
  { subst s4. cbn. by rewrite length_alter. }
  apply wp_bind. eapply wp_plain_c; [exact HG4|exact Hta|by plain_upd|].
  intros s5 HG5 Hq5 Ht5 Hc5 Hl5. cbn [sch glo] in *.
  assert (∃ t5, tcbs s5 !! t = Some t5 ∧ Tcb.used t5 = true ∧ Tcb.reasons t5 = 0) as (t5 & Htt5 & Hu5 & Hr5).
  { rewrite Hl5. subst s4. cbn [tcbs with_tcbs]. rewrite !lookup_alter_if, Ht3.
    rewrite (decide_True _ _ (eq_refl t)). apply Z.eqb_eq in Ee.
    destruct (decide (account = t)); eexists; (split_and!; [done|simpl; rewrite Eu3; exact Hu1|simpl; rewrite Er3; exact Ee]). }
  apply wp_bind, wp_upd. cbn [sch glo with_sch]. apply wp_bind. eapply wp_tcb; [exact Htt5|].
  apply wp_ret, HR. split.
  - exists (qdel t Q), F. eapply inv_run; [exact HG5|exact Htt5|done|by apply zero_not_waiting|].
    intros p Hin%elem_of_qdel. by destruct Hin.
  - eapply quiet_trans; [exact Hq4|]. eapply quiet_trans; [exact Hq5|].
    apply (with_current_quiet (mkSt s5 (glo st))).
Qed.

(** ** Waking by IPC *)

Lemma wp_unblock tid st (R : bool → St → Prop) :
  Inv st → (∀ b st', stays st st' → R b st') → wp (unblock tid) st R.
Proof.
  intros HI HR. apply wp_on_resolved; [done|by apply HR|]. intros s t Ht Hu.
  apply wp_bind. eapply wp_tcb; [exact Ht|]. apply wp_bind.
  destruct (BlockReasons.is_empty _) eqn:Ee; cbn [negb]; [by apply wp_ret, wp_ret, HR, stays_refl|].
  apply Z.eqb_neq in Ee. destruct HI as (Q & F & HI).
  assert (∀ p, s ∉ Q p) as Hnq.
  { intros p Hp. destruct (g_queue _ _ _ _ HI p s Hp) as (t0 & Ht0 & _ & _ & Hr & _). by simplify_eq. }
  set (acct := default s (Tcb.sc_donor t)).
  assert (∃ a, tcbs (sch st) !! acct = Some a) as [a Ha].
  { apply lookup_lt_is_Some_2. unfold acct. destruct (Tcb.sc_donor t) as [x|] eqn:Ex; simpl.
    - by eapply (g_tcb _ _ _ _ (g_base _ _ _ _ HI) s t Ht).
    - by eapply lookup_lt_Some. }
  apply wp_bind. eapply wp_tcb; [exact Ha|].
  set (s1 := with_tcbs (alter (Tcb.unblock BlockReasons.IPC) s (tcbs (sch st))) (sch st)).
  assert (inv s1 Q F) as HI1.
  { eapply good_upd_bb; [exact HI|exact Ht|apply unblock_keeps| | | |by apply (unblock_bb _ 0)].
    - apply unblock_ok. by apply (g_tcb _ _ _ _ (g_base _ _ _ _ HI) s).
    - intros p Hp. by destruct (Hnq p).
    - intros Hc. apply (unblock_not_waiting _ 0); [lia|].
      destruct (g_cur _ _ _ _ (g_base _ _ _ _ HI) s Hc) as (t0 & ? & _ & Hw). by simplify_eq. }
  assert (tcbs s1 !! s = Some (Tcb.unblock BlockReasons.IPC t)) as Ht1.
  { by apply tcbs_upd_lookup. }
  assert (quiet st (mkSt s1 (glo st))) as Hq1.
  { eapply (quiet_upd st); [exact Ht|apply unblock_keeps]. }
  destruct (_ && _).
  - apply wp_bind. eapply wp_upd_tcb; [exact Ht|].
    eapply (wp_set_budget_blocked _ (mkSt s1 (glo st))); [exact HI1|exact Ht1|done|done|].
    intros s2 t2 HG2 Hq2 _ Hc2 _ _ _ _. apply wp_ret, HR. split; [|by eapply quiet_trans].
    exists Q, F. unfold inv. cbn [sch] in *. rewrite Hc2. exact HG2.
  - apply wp_bind. eapply wp_upd_tcb; [exact Ht|]. change (with_sch _ _) with (mkSt s1 (glo st)).
    apply wp_bind. eapply wp_tcb; [exact Ht1|].
    destruct (BlockReasons.is_empty _) eqn:E1; cbn [andb]; [destruct (negb _)|].
    + apply Z.eqb_eq in E1. cbn in E1.
      eapply wp_enqueue_good; [exact HI1|exact Ht1|done|done| |].
      * cbn. intros Hc. destruct (g_cur _ _ _ _ (g_base _ _ _ _ HI) s Hc) as (t0 & Ht0 & _ & Hw & _).
        simplify_eq. apply Ee. rewrite <-E1. symmetry. by apply (remove_absent _ 0).
      * intros s2 Q2 HG2 Hrl Hq2 _. apply wp_ret, HR. split; [|by eapply quiet_trans].
        exists Q2, F. unfold inv. cbn [sch] in *.
        rewrite (proj1 (proj2 (proj2 (relinked_fields _ _ Hrl)))). exact HG2.
    + apply wp_ret, wp_ret, HR. split; [by exists Q, F|done].
    + apply wp_ret, wp_ret, HR. split; [by exists Q, F|done].
Qed.

(** ** The stoppers and wakers *)

Lemma wp_stop_stays n s t st (R : unit → St → Prop) :
  n ∈ outer_bits → Inv st → tcbs (sch st) !! s = Some t → Tcb.used t = true →
  (∀ st', stays st st' → R tt st') → wp (stop_with (Z.shiftl 1 n) s) st R.
Proof.
  intros Hn (Q & F & HI) Ht Hu HR. eapply wp_stop_with; [done|exact HI|exact Ht|done|].
  intros s' HG Hq _ Hrs _. apply HR. split; [|done]. exists (qdel s Q), F.
  unfold inv. cbn [sch]. rewrite (rest_same_current _ _ Hrs). exact HG.
Qed.

Lemma wp_wake_stays m s t st (R : unit → St → Prop) :
  0 <= m → m ≠ 1 → Inv st → tcbs (sch st) !! s = Some t → Tcb.used t = true →
  (∀ st', stays st st' → R tt st') → wp (wake_from (Z.shiftl 1 m) s) st R.
Proof.
  intros Hm Hm1 (Q & F & HI) Ht Hu HR. eapply wp_wake_from; [done|done|exact HI|by right|exact Ht|done|].
  intros s' Q' HG Hq _ Hrs _ _. apply HR. split; [|done]. exists Q', F.
  unfold inv. cbn [sch]. rewrite (rest_same_current _ _ Hrs). exact HG.
Qed.

Lemma wp_stop_thread n tid st (R : bool → St → Prop) :
  n ∈ outer_bits → Inv st → (∀ b st', stays st st' → R b st') →
  wp (stop_thread (Z.shiftl 1 n) tid) st R.
Proof.
  intros Hn HI HR. apply wp_on_resolved; [done|by apply HR|]. intros s t Ht Hu.
  apply wp_bind. eapply wp_stop_stays; [done|done|exact Ht|done|]. intros st' H. by apply wp_ret, HR.
Qed.

Lemma wp_wake_thread m tid st (R : bool → St → Prop) :
  0 <= m → m ≠ 1 → Inv st → (∀ b st', stays st st' → R b st') →
  wp (wake_thread (Z.shiftl 1 m) tid) st R.
Proof.
  intros Hm Hm1 HI HR. apply wp_on_resolved; [done|by apply HR|]. intros s t Ht Hu.
  apply wp_bind. eapply wp_wake_stays; [done|done|done|exact Ht|done|]. intros st' H. by apply wp_ret, HR.
Qed.

Lemma wp_stop_once n tid st (R : bool → St → Prop) :
  n ∈ outer_bits → Inv st → (∀ b st', stays st st' → R b st') →
  wp (stop_once (Z.shiftl 1 n) tid) st R.
Proof.
  intros Hn HI HR. apply wp_on_resolved; [done|by apply HR|]. intros s t Ht Hu.
  apply wp_bind. eapply wp_tcb; [exact Ht|]. destruct (BlockReasons.has _ _); [by apply wp_ret, HR, stays_refl|].
  apply wp_bind. eapply wp_stop_stays; [done|done|exact Ht|done|]. intros st' H. by apply wp_ret, HR.
Qed.

Lemma wp_wake_once m tid st (R : bool → St → Prop) :
  0 <= m → m ≠ 1 → Inv st → (∀ b st', stays st st' → R b st') →
  wp (wake_once (Z.shiftl 1 m) tid) st R.
Proof.
  intros Hm Hm1 HI HR. apply wp_on_resolved; [done|by apply HR|]. intros s t Ht Hu.
  apply wp_bind. eapply wp_tcb; [exact Ht|].
  destruct (BlockReasons.has _ _); cbn [negb]; [|by apply wp_ret, HR, stays_refl].
  apply wp_bind. eapply wp_wake_stays; [done|done|done|exact Ht|done|]. intros st' H. by apply wp_ret, HR.
Qed.

Lemma wp_unpark tid st (R : bool → St → Prop) :
  Inv st → (∀ b st', stays st st' → R b st') → wp (unpark tid) st R.
Proof.
  intros HI HR. apply wp_on_resolved; [done|by apply HR|]. intros s t Ht Hu.
  apply wp_bind. eapply wp_plain; [done|exact Ht|by plain_upd|]. intros st1 H1 Ht1 _.
  apply wp_bind. eapply wp_tcb; [exact Ht1|]. apply wp_bind.
  destruct (BlockReasons.has _ _); [|by apply wp_ret, wp_ret, HR].
  apply wp_bind. eapply wp_plain; [apply H1|exact Ht1|by plain_upd|]. intros st2 H2 Ht2 _.
  eapply (wp_wake_stays 3); [lia|lia|apply H2|exact Ht2|done|].
  intros st3 H3. apply wp_ret, HR. chain.
Qed.

Lemma wp_debug_release_pd pd_of pd st (R : nat → St → Prop) :
  Inv st → (∀ n st', stays st st' → R n st') → wp (debug_release_pd pd_of pd) st R.
Proof.
  intros HI HR. unfold debug_release_pd. apply wp_bind, wp_self. eapply wp_mono.
  - apply (wp_fold_m (λ _ _ st', stays st st')); [by apply stays_refl|].
    intros i l' n st' Hi%elem_of_seq Hst.
    destruct (lookup_lt_is_Some_2 (tcbs (sch st')) i) as [t Ht].
    { rewrite (quiet_length _ _ (proj2 Hst)). lia. }
    apply wp_bind. eapply wp_tcb; [exact Ht|]. destruct (Tcb.used t) eqn:Hu; [|by apply wp_ret].
    destruct (BlockReasons.has _ _); [|by apply wp_ret]. cbn [negb orb].
    apply wp_bind. unfold id. apply wp_bind. eapply wp_tcb; [exact Ht|]. apply wp_ret.
    destruct (negb _); [by apply wp_ret|]. apply wp_bind.
    eapply (wp_wake_stays 6); [lia|lia|apply Hst|exact Ht|done|]. intros st'' H. apply wp_ret. chain.
  - cbv beta. intros n st'. apply HR.
Qed.

(** ** Fields of one thread *)

Lemma wp_plain_thread {A} f tid (d r : A) st (R : A → St → Prop) :
  (∀ t, plain t (f t)) → Inv st → (∀ b st', stays st st' → R b st') →
  wp (os ← resolve tid; match os with None => mret d | Some s => upd_tcb s f ≫= λ _, mret r end) st R.
Proof.
  intros Hp HI HR. apply wp_on_resolved; [done|by apply HR|]. intros s t Ht Hu.
  apply wp_bind. eapply wp_plain; [done|exact Ht|apply Hp|]. intros st1 H1 _ _. by apply wp_ret, HR.
Qed.

Lemma wp_set_handler tid b st (R : bool → St → Prop) :
  Inv st → (∀ b st', stays st st' → R b st') → wp (set_handler tid b) st R.
Proof. intros HI HR. apply wp_plain_thread; [|done|done]. intros t. by plain_upd. Qed.

Lemma wp_set_tls tid va st (R : bool → St → Prop) :
  Inv st → (∀ b st', stays st st' → R b st') → wp (set_tls tid va) st R.
Proof.
  intros HI HR. unfold set_tls. apply wp_bind, wp_gets.
  destruct (resolve_in st tid) as [s|] eqn:E; [|by apply wp_ret, HR, stays_refl].
  destruct (resolve_in_Some _ _ _ E) as (e & t & _ & _ & _ & _ & _ & Ht & Hu & _).
  apply wp_bind. eapply wp_plain; [done|exact Ht|by plain_upd|]. intros st1 H1 _ _. by apply wp_ret, HR.
Qed.

Lemma wp_frist_loeschen tid st (R : unit → St → Prop) :
  Inv st → (∀ st', stays st st' → R tt st') → wp (frist_loeschen tid) st R.
Proof.
  intros HI HR. unfold frist_loeschen. apply wp_bind, wp_gets.
  destruct (resolve_in st tid) as [s|] eqn:E; [|by apply wp_ret, HR, stays_refl].
  destruct (resolve_in_Some _ _ _ E) as (e & t & _ & _ & _ & _ & _ & Ht & Hu & _).
  apply wp_bind. eapply wp_plain; [done|exact Ht|by plain_upd|]. intros st1 H1 Ht1 _.
  eapply wp_plain; [apply H1|exact Ht1|by plain_upd|]. intros st2 H2 _ _. apply HR. chain.
Qed.

(** ** The running thread's account *)

Lemma wp_stamp_current core now_ st (R : unit → St → Prop) :
  Inv st → (∀ st', stays st st' → R tt st') → wp (stamp_current core now_) st R.
Proof.
  intros HI HR. unfold stamp_current. apply wp_bind, wp_self.
  destruct (current (sch st)) as [cur|] eqn:Hc; [|by apply wp_ret, HR, stays_refl].
  destruct HI as (Q & F & HI). destruct (g_cur _ _ _ _ (g_base _ _ _ _ HI) cur Hc) as (t & Ht & _).
  eapply wp_plain; [by exists Q, F|exact Ht|by plain_upd|]. intros st1 H1 _ _. by apply HR.
Qed.

Lemma wp_charge_current core now_ st (R : unit → St → Prop) :
  Inv st → (∀ st', stays st st' → R tt st') → wp (charge_current core now_) st R.
Proof.
  intros HI HR. unfold charge_current. apply wp_bind, wp_self.
  destruct (current (sch st)) as [cur|] eqn:Hc; [|by apply wp_ret, HR, stays_refl].
  assert (∃ t, tcbs (sch st) !! cur = Some t ∧ ∀ a, Tcb.sc_donor t = Some a → (a < length (tcbs (sch st)))%nat)
    as (t & Ht & Hd).
  { destruct HI as (Q & F & HI). destruct (g_cur _ _ _ _ (g_base _ _ _ _ HI) cur Hc) as (t & Ht & _).
    exists t. split; [done|]. by apply (g_tcb _ _ _ _ (g_base _ _ _ _ HI) cur t Ht). }
  apply wp_bind. eapply wp_tcb; [exact Ht|]. destruct (Tcb.stamp t); [|by apply wp_ret, HR, stays_refl].
  apply wp_bind. eapply wp_plain; [done|exact Ht|by plain_upd|]. intros st1 H1 Ht1 _.
  apply wp_bind, wp_self. cbv zeta.
  destruct (lookup_lt_is_Some_2 (tcbs (sch st1)) (default cur (Tcb.sc_donor t))) as [ta Hta].
  { rewrite (quiet_length _ _ (proj2 H1)). destruct (Tcb.sc_donor t) eqn:E; simpl; [by apply Hd|].
    by eapply lookup_lt_Some. }
  apply wp_bind. eapply wp_plain; [apply H1|exact Hta|by plain_upd|]. intros st2 H2 _ _.
  apply wp_counters; [apply H2| |].
  - intros H3. apply HR. chain.
  - intros HI2. eapply (inv_counters st2 (with_cyc_core _)); [eassumption|reflexivity..].
Qed.

Lemma wp_end_donation core st (R : unit → St → Prop) :
  Inv st → (∀ st', stays st st' → R tt st') → wp (end_donation core) st R.
Proof.
  intros HI HR. unfold end_donation. apply wp_bind, wp_self.
  destruct (current (sch st)) as [cur|] eqn:Hc; [|by apply wp_ret, HR, stays_refl].
  assert (∃ t, tcbs (sch st) !! cur = Some t ∧ ∀ a, Tcb.sc_donor t = Some a → (a < length (tcbs (sch st)))%nat)
    as (t & Ht & Hd).
  { destruct HI as (Q & F & HI). destruct (g_cur _ _ _ _ (g_base _ _ _ _ HI) cur Hc) as (t & Ht & _).
    exists t. split; [done|]. by apply (g_tcb _ _ _ _ (g_base _ _ _ _ HI) cur t Ht). }
  apply wp_bind. eapply wp_tcb; [exact Ht|].
  destruct (Tcb.sc_donor t) as [acct|] eqn:E; [|by apply wp_ret, HR, stays_refl].
  apply wp_bind. eapply wp_plain; [done|exact Ht|by plain_upd|]. intros st1 H1 _ _.
  destruct (lookup_lt_is_Some_2 (tcbs (sch st1)) acct) as [ta Hta].
  { rewrite (quiet_length _ _ (proj2 H1)). by apply Hd. }
  apply wp_bind. eapply wp_tcb; [exact Hta|]. case_decide; [|by apply wp_ret, HR].
  eapply wp_plain; [apply H1|exact Hta|by plain_upd|]. intros st2 H2 _ _. apply HR. chain.
Qed.

(** Reading a thread changes nothing. *)
Lemma wp_query {A} (f : Tcb.t → A) tid st (R : option A → St → Prop) :
  R (resolve_in st tid ≫= λ s, f <$> tcbs (sch st) !! s) st → wp (query f tid) st R.
Proof.
  intros HR. apply wp_bind, wp_gets. destruct (resolve_in st tid) as [s|] eqn:E; [|by apply wp_ret].
  destruct (resolve_in_Some _ _ _ E) as (e & t & _ & _ & _ & _ & _ & Ht & Hu & _).
  apply wp_bind. eapply wp_tcb; [exact Ht|]. apply wp_ret.
  simpl in HR. by rewrite Ht in HR.
Qed.
