(* ===== verification/SchedEffect.v ===== *)
(** * What the IPC operations of the scheduler do to the other threads

    [charge_current], [stamp_current], [end_donation], [unblock], [block_current]
    and [switch_to] of [src/crates/caprock-sched/src/lib.rs]: their effect on the
    saved frames and the IPC reasons of all threads, on the running thread and on
    the ready bitmap.  That they do not panic is shown in [SchedOps].  *)

From S2P Require Import Prelude PanicMonad Dll Slab Redirect SchedData Sched SchedReady SchedInv.
From S2P Require Import SchedWake SchedRun SchedTick SchedOps.
Import Scheduler.
#[local] Open Scope Z_scope.

(** What IPC sees of a thread: its saved frame, and whether it waits for IPC. *)
Definition ctx (t : Tcb.t) : Z * bool := (Tcb.sp t, BlockReasons.has (Tcb.reasons t) BlockReasons.IPC).
Definition ctxs (st : St) : list (Z * bool) := ctx <$> tcbs (sch st).

(** Contexts and running thread are kept. *)
Record calm (st st' : St) : Prop := {
  cm_ctxs : ctxs st' = ctxs st;
  cm_current : current (sch st') = current (sch st) }.
#[export] Instance calm_preorder : PreOrder calm.
Proof. split; [by split|]. intros st1 st2 st3 [] []. split; congruence. Qed.

(** A ready thread stays ready. *)
Definition lively (st st' : St) : Prop := has_ready st → has_ready st'.
#[export] Instance lively_preorder : PreOrder lively.
Proof. split; [by intros ? ?|]. intros st1 st2 st3 H1 H2 H. auto. Qed.

Section keeping.
Context (I : St → St → Prop) `{!PreOrder I}.
(** The parts of a core that matter to [I]. *)
Context (HI : ∀ st f, ctx <$> tcbs (f (sch st)) = ctxs st → current (f (sch st)) = current (sch st) →
  bitmap (f (sch st)) = bitmap (sch st) → I st (with_sch (f (sch st)) st)).

Lemma keeping_self {A} (f : t → A) : keeping I (self f).
Proof. by apply keeping_gets. Qed.
Lemma keeping_tcb i : keeping I (tcb i).
Proof. apply keeping_bind; [done|by apply keeping_self|]. intros l. by apply keeping_expect. Qed.
Lemma keeping_queue p : keeping I (queue p).
Proof. apply keeping_bind; [done|by apply keeping_self|]. intros l. by apply keeping_expect. Qed.
Lemma keeping_upd_tcb i f : (∀ t, ctx (f t) = ctx t) → keeping I (upd_tcb i f).
Proof.
  intros Hf. apply keeping_bind; [done|by apply keeping_tcb|]. intros _. apply keeping_modify.
  intros st. apply (HI st (λ s, with_tcbs (alter f i (tcbs s)) s)); [|done..]. cbn.
  unfold ctxs. apply list_eq. intros j. rewrite !list_lookup_fmap. destruct (decide (i = j)) as [->|Hne].
  - rewrite list_lookup_alter_eq. destruct (tcbs (sch st) !! j); simpl; [by rewrite Hf|done].
  - by rewrite list_lookup_alter_ne.
Qed.
Lemma keeping_upd_queue p f : keeping I (upd_queue p f).
Proof.
  apply keeping_bind; [done|by apply keeping_queue|]. intros _. apply keeping_modify.
  intros st. by apply (HI st (λ s, with_queues (alter f p (queues s)) s)).
Qed.
Lemma keeping_upd f : (∀ s, tcbs (f s) = tcbs s) → (∀ s, current (f s) = current s) →
  (∀ s, bitmap (f s) = bitmap s) → keeping I (upd f).
Proof. intros H1 H2 H3. apply keeping_modify. intros st. apply (HI st f); [|done..]. unfold ctxs. by rewrite H1. Qed.
End keeping.

Lemma calm_ext st f : ctx <$> tcbs (f (sch st)) = ctxs st → current (f (sch st)) = current (sch st) →
  bitmap (f (sch st)) = bitmap (sch st) → calm st (with_sch (f (sch st)) st).
Proof. by split. Qed.
Lemma lively_ext st f : ctx <$> tcbs (f (sch st)) = ctxs st → current (f (sch st)) = current (sch st) →
  bitmap (f (sch st)) = bitmap (sch st) → lively st (with_sch (f (sch st)) st).
Proof. unfold lively, has_ready. cbn. by intros _ _ ->. Qed.

(** Composes the rules of a preorder along a computation. *)
Ltac keep ext :=
  repeat first
    [ apply (keeping_self _) | apply (keeping_tcb _) | apply (keeping_queue _)
    | apply (keeping_upd_tcb _ ext); intros ?; reflexivity
    | apply (keeping_upd_queue _ ext)
    | apply (keeping_upd _ ext); intros ?; reflexivity
    | lazymatch goal with
      | |- keeping _ (mret _) => apply keeping_ret; apply _
      | |- keeping _ (expect _) => apply keeping_expect; apply _
      | |- keeping _ (gets _) => apply keeping_gets; apply _
      | |- keeping _ (match ?x with _ => _ end) => destruct x
      | |- keeping _ (_ ≫= _) => apply keeping_bind; [apply _| |intros ?]
      end ].

Lemma calm_remove i : keeping calm (remove_from_ready i).
Proof.
  unfold remove_from_ready. keep calm_ext. apply keeping_modify. intros st. by split.
Qed.

Lemma calm_enqueue i : keeping calm (enqueue_ready i).
Proof. unfold enqueue_ready. keep calm_ext; apply keeping_modify; intros st; by split. Qed.

Lemma lively_enqueue i : keeping lively (enqueue_ready i).
Proof.
  unfold enqueue_ready. keep lively_ext; apply keeping_modify; intros st;
    unfold lively, has_ready; cbn; rewrite Z.lor_eq_0_iff; tauto.
Qed.

(** ** Budgets and donations *)

Lemma ctx_block_other n t : 0 < n → ctx (Tcb.block (Z.shiftl 1 n) t) = ctx t.
Proof. intros Hn. unfold ctx. cbn. f_equal. change BlockReasons.IPC with (Z.shiftl 1 0). rewrite has_insert by lia. destruct (Z.eqb_spec 0 n); [lia|]. by rewrite ?orb_false_r. Qed.
Lemma ctx_unblock_other n t : 0 < n → ctx (Tcb.unblock (Z.shiftl 1 n) t) = ctx t.
Proof. intros Hn. unfold ctx. cbn. f_equal. change BlockReasons.IPC with (Z.shiftl 1 0). rewrite has_remove by lia. destruct (Z.eqb_spec 0 n); [lia|]. by rewrite ?andb_true_r. Qed.

Lemma calm_budget_blocked i an : keeping calm (set_budget_blocked i an).
Proof.
  unfold set_budget_blocked. keep calm_ext; apply (keeping_upd_tcb _ calm_ext).
  - intros t. by apply (ctx_block_other 1).
  - intros t. by apply (ctx_unblock_other 1).
Qed.
Lemma lively_budget_blocked i an : keeping lively (set_budget_blocked i an).
Proof.
  unfold set_budget_blocked. keep lively_ext; apply (keeping_upd_tcb _ lively_ext).
  - intros t. by apply (ctx_block_other 1).
  - intros t. by apply (ctx_unblock_other 1).
Qed.

Lemma calm_charge c now_ : keeping calm (charge_current c now_).
Proof. unfold charge_current. keep calm_ext. Qed.
Lemma lively_charge c now_ : keeping lively (charge_current c now_).
Proof. unfold charge_current. keep lively_ext. Qed.
Lemma calm_stamp c now_ : keeping calm (stamp_current c now_).
Proof. unfold stamp_current. keep calm_ext. Qed.
Lemma calm_end_donation c : keeping calm (end_donation c).
Proof. unfold end_donation. keep calm_ext. Qed.
Lemma lively_end_donation c : keeping lively (end_donation c).
Proof. unfold end_donation. keep lively_ext. Qed.

(** ** Blocking, waking and switching *)

Lemma ends_upd_tcb i f st (R : unit → St → Prop) :
  R tt (with_sch (with_tcbs (alter f i (tcbs (sch st))) (sch st)) st) → ends (upd_tcb i f) st R.
Proof.
  intros HR. apply ends_bind. apply ends_bind, ends_gets, ends_expect. intros t _. by apply ends_modify.
Qed.

Lemma ctxs_alter f g i st : (∀ t, ctx (f t) = g (ctx t)) →
  ctxs (with_sch (with_tcbs (alter f i (tcbs (sch st))) (sch st)) st) = alter g i (ctxs st).
Proof. intros Hf. unfold ctxs. cbn. apply list_fmap_alter, Forall_true. done. Qed.

Definition wait_with (frame : Z) (_ : Z * bool) : Z * bool := (frame, true).
Definition wake (x : Z * bool) : Z * bool := (x.1, false).

Lemma calm_run_next : keeping (λ st st', ctxs st' = ctxs st) run_next.
Proof.
  assert (PreOrder (λ st st', ctxs st' = ctxs st)) as HP by (split; [done|intros ? ? ? -> <-; done]).
  unfold run_next, dequeue_highest. repeat (apply keeping_bind; [done| |intros ?]).
  - by apply keeping_gets.
  - lazymatch goal with |- keeping _ (if ?b then _ else _) => destruct b end; [by apply keeping_ret|].
    apply keeping_bind; [done|apply keeping_bind; [done|by apply keeping_gets|intros ?; by apply keeping_expect]|intros q].
    lazymatch goal with |- keeping _ (if ?b then _ else _) => destruct b end; [by apply keeping_ret|].
    apply keeping_bind; [done| |intros ?; by apply keeping_ret].
    intros st. eapply ends_mono; [apply calm_remove|]. by intros [] st' [].
  - by apply keeping_expect.
  - by apply keeping_modify.
  - by apply keeping_gets.
  - by apply keeping_expect.
  - by apply keeping_ret.
Qed.

Lemma ctx_wait t : ctx (Tcb.block BlockReasons.IPC t) = ((ctx t).1, true).
Proof.
  unfold ctx. f_equal. change (Tcb.reasons (Tcb.block BlockReasons.IPC t)) with (BlockReasons.insert (Tcb.reasons t) (Z.shiftl 1 0)).
  change BlockReasons.IPC with (Z.shiftl 1 0). rewrite has_insert by lia. by rewrite orb_true_r.
Qed.
Lemma ctx_wake t : ctx (Tcb.unblock BlockReasons.IPC t) = wake (ctx t).
Proof.
  unfold ctx, wake. f_equal. change (Tcb.reasons (Tcb.unblock BlockReasons.IPC t)) with (BlockReasons.remove (Tcb.reasons t) (Z.shiftl 1 0)).
  change BlockReasons.IPC with (Z.shiftl 1 0). rewrite has_remove by lia. by rewrite andb_false_r.
Qed.

(** The running thread's frame is saved and it waits for IPC. *)
Lemma ctxs_wait frame cur st :
  let st1 := with_sch (with_tcbs (alter (Tcb.with_sp frame) cur (tcbs (sch st))) (sch st)) st in
  let st2 := with_sch (with_tcbs (alter (Tcb.block BlockReasons.IPC) cur (tcbs (sch st1))) (sch st1)) st1 in
  ctxs st2 = alter (wait_with frame) cur (ctxs st) ∧ current (sch st2) = current (sch st).
Proof.
  intros st1 st2. split; [|done]. subst st2. rewrite (ctxs_alter _ (λ x, (x.1, true))).
  - subst st1. rewrite (ctxs_alter _ (λ x, (frame, x.2))) by done. by rewrite list_alter_alter_eq.
  - apply ctx_wait.
Qed.

Lemma block_current_effect c frame st cur :
  current (sch st) = Some cur →
  ends (block_current c frame) st (λ _ st', ctxs st' = alter (wait_with frame) cur (ctxs st)).
Proof.
  intros Hc. unfold block_current, block_current_mit. apply ends_bind, ends_gets. rewrite Hc.
  apply ends_bind, ends_expect. intros ? [= <-].
  apply ends_bind, ends_upd_tcb, ends_bind, ends_upd_tcb. rewrite <-(proj1 (ctxs_wait frame cur st)).
  apply calm_run_next.
Qed.

Lemma resolve_alter f i st tid :
  (∀ t, Tcb.used (f t) = Tcb.used t) → (∀ t, Tcb.gen (f t) = Tcb.gen t) →
  resolve_in (with_sch (with_tcbs (alter f i (tcbs (sch st))) (sch st)) st) tid = resolve_in st tid.
Proof.
  intros Hu Hg. unfold resolve_in. cbn [glo sch with_sch core with_tcbs tcbs].
  destruct (Globals.dir_load _ _) as [e|]; [|done]. cbn [mbind option_bind].
  do 3 (destruct (negb _); [done|]). rewrite lookup_alter_if.
  destruct (tcbs (sch st) !! dir_local e) as [t|]; [|by case_decide].
  case_decide; cbn; by rewrite ?Hu, ?Hg.
Qed.

Lemma switch_to_effect c frame target st cur t :
  current (sch st) = Some cur → resolve_in st target = Some t →
  ends (switch_to c frame target) st (λ _ st',
    ctxs st' = alter wake t (alter (wait_with frame) cur (ctxs st))).
Proof.
  intros Hc Hr. unfold switch_to. apply ends_bind, ends_gets. rewrite Hc.
  apply ends_bind, ends_expect. intros ? [= <-].
  apply ends_bind, ends_upd_tcb, ends_bind, ends_upd_tcb.
  destruct (ctxs_wait frame cur st) as [E1 _]. set (st2 := with_sch _ (with_sch _ st)) in *.
  apply ends_bind, ends_gets. unfold st2 at 1. rewrite !resolve_alter, Hr by done.
  apply ends_bind, ends_expect. intros ? [= <-].
  apply ends_bind, ends_upd_tcb. rewrite <-E1, <-(ctxs_alter _ _ _ _ ctx_wake).
  set (st3 := with_sch _ st2). apply ends_bind. apply ends_bind, ends_gets, ends_expect. intros tt_ _.
  lazymatch goal with |- ends (if ?b then _ else _) _ _ => destruct b end; [apply calm_run_next|].
  apply ends_bind. eapply ends_mono; [apply calm_remove|]. intros [] st4 [E4 _].
  assert (keeping (λ st st', ctxs st' = ctxs st)
    (tc ← tcb cur; (upd_tcb t (Tcb.with_sc_donor (Some (default cur (Tcb.sc_donor tc)))) ≫= λ _,
     upd_tcb (default cur (Tcb.sc_donor tc)) (Tcb.with_sc_donee (Some t)) ≫= λ _,
     upd (with_current (Some t)) ≫= λ _, tt_ ← tcb t; mret (Tcb.sp tt_)))) as Hk.
  { assert (PreOrder (λ st st', ctxs st' = ctxs st)) as HP by (split; [done|intros ? ? ? -> <-; done]).
    assert (∀ i f, (∀ x, ctx (f x) = ctx x) → keeping (λ st st', ctxs st' = ctxs st) (upd_tcb i f)) as Hu.
    { intros i f Hf st0. apply ends_upd_tcb. by apply (ctxs_alter f (λ x, x)) with (st:=st0) (i:=i) in Hf as ->; rewrite list_alter_id. }
    repeat first [by apply Hu|by apply keeping_ret|by apply keeping_modify|by apply keeping_gets|by apply keeping_expect
                 |apply keeping_bind; [done| |intros ?]]. }
  eapply ends_mono; [apply Hk|]. intros f st' ->. by rewrite E4.
Qed.

Lemma unblock_effect tid st :
  ends (unblock tid) st (λ _ st',
    ctxs st' = match resolve_in st tid with Some s => alter wake s (ctxs st) | None => ctxs st end ∧
    current (sch st') = current (sch st) ∧ lively st st').
Proof.
  unfold unblock. apply ends_bind, ends_gets. destruct (resolve_in st tid) as [s|]; [|by apply ends_ret].
  apply ends_bind. apply ends_bind, ends_gets, ends_expect. intros ts Hts. apply ends_bind.
  destruct (BlockReasons.is_empty (Tcb.reasons ts)) eqn:Ee; cbn [negb].
  { apply ends_ret, ends_ret. split; [|done]. unfold ctxs. apply list_eq. intros j.
    rewrite lookup_alter_if, list_lookup_fmap. destruct (decide (s = j)) as [->|Hj]; [|by destruct (tcbs (sch st) !! j)].
    rewrite Hts. cbn [fmap option_fmap option_map]. f_equal. apply Z.eqb_eq in Ee. unfold ctx, wake. by rewrite Ee. }
  apply ends_bind. apply ends_bind, ends_gets, ends_expect. intros ta _.
  set (st1 := with_sch (with_tcbs (alter (Tcb.unblock BlockReasons.IPC) s (tcbs (sch st))) (sch st)) st).
  assert (ctxs st1 = alter wake s (ctxs st)) as E1 by (apply ctxs_alter, ctx_wake).
  assert (∀ m : M St unit, keeping calm m → keeping lively m →
    ends m st1 (λ _ s', ends (mret true) s' (λ _ st',
    ctxs st' = alter wake s (ctxs st) ∧ current (sch st') = current (sch st) ∧ lively st st'))) as Hfin.
  { intros m Hc Hl a st' E. apply ends_ret. destruct (Hc _ _ _ E) as [H1 H2]. rewrite H1, H2, E1.
    split; [done|]. split; [done|]. exact (Hl _ _ _ E). }
  destruct (_ && _); apply ends_bind, ends_upd_tcb; fold st1.
  - apply Hfin; [apply calm_budget_blocked|apply lively_budget_blocked].
  - apply ends_bind. apply ends_bind, ends_gets, ends_expect. intros t1 _.
    destruct (_ && _); apply Hfin; [apply calm_enqueue|apply lively_enqueue|by apply keeping_ret; apply _..].
Qed.
