(* ===== verification/SchedDir.v ===== *)
(** * The thread directory

    [dir_inv ids g G D X]: the directory of the globals [g] and the identities
    [ids] (per core, per table slot) name each other; [G] are the free thread
    slots, [D h] the slots of dead threads that holder [h] (a core's zombie ring,
    or the reaper) still has to release, [X] the slot of a thread in migration,
    which no table holds.  The lemmas give the transitions of the operations.  *)

From S2P Require Import Prelude PanicMonad Slab Redirect SchedData Sched SchedReady SchedInv.
Import Scheduler.
#[local] Open Scope Z_scope.

Notation id_table := (list (list (option (Z * Z)))).
Implicit Types (ids : id_table) (G : list nat) (D : nat → list nat) (X : option nat).

(** Slot [l] of core [c] holds the thread [gid], [gen]. *)
Definition holds ids (c l : nat) (gid gen : Z) : Prop :=
  ∃ li, ids !! c = Some li ∧ li !! l = Some (Some (gid, gen)).

Record dir_inv ids (g : Globals.t) G D X : Prop := {
  di_fwd : ∀ c l gid gen, holds ids c l gid gen →
    0 <= gid ∧ 0 <= gen < 2 ^ 31 ∧ Some (Z.to_nat gid) ≠ X ∧
    Globals.directory g !! Z.to_nat gid = Some (pack_dir true gen c l);
  di_bwd : ∀ k e, Globals.directory g !! k = Some e → dir_used e = true → X ≠ Some k →
    ∃ c l gen, holds ids c l (Z.of_nat k) gen;
  di_X : ∀ k, X = Some k → ∃ e, Globals.directory g !! k = Some e ∧ dir_used e = true;
  di_free : FreeList.rep (Globals.gid_free g) G;
  di_cap : length (FreeList.next (Globals.gid_free g)) = length (Globals.directory g);
  di_G : ∀ k, k ∈ G → ∃ e, Globals.directory g !! k = Some e ∧ dir_used e = false;
  di_D : ∀ h i k, D h !! i = Some k →
    k ∉ G ∧ ∃ e, Globals.directory g !! k = Some e ∧ dir_used e = false;
  di_D_inj : ∀ h i h' i' k, D h !! i = Some k → D h' !! i' = Some k → h = h' ∧ i = i';
  di_small : Z.of_nat (length ids) <= 2 ^ 16 ∧ ∀ c li, ids !! c = Some li → Z.of_nat (length li) <= 2 ^ 16;
  di_load : length (Globals.core_load g) = MAX_CORES }.

(** One slot of the table changes. *)
Definition set_id (c l : nat) (v : option (Z * Z)) ids : id_table := alter (<[l := v]>) c ids.

Lemma holds_set ids c l v c' l' gid gen li :
  ids !! c = Some li → (l < length li)%nat →
  holds (set_id c l v ids) c' l' gid gen ↔
  (c' = c ∧ l' = l ∧ v = Some (gid, gen)) ∨ ((c', l') ≠ (c, l) ∧ holds ids c' l' gid gen).
Proof.
  intros Hc Hl. unfold holds, set_id. split.
  - intros (li' & [(<- & y & Hy & ->)|(Hne & Hi)]%lookup_alter_inv & Hl'); [|right].
    + simplify_eq. destruct (decide (l' = l)) as [->|Hne].
      * rewrite list_lookup_insert_eq in Hl' by done. simplify_eq. by left.
      * rewrite list_lookup_insert_ne in Hl' by done. right. split; [congruence|]. by exists li.
    + split; [congruence|]. by exists li'.
  - intros [(-> & -> & ->)|(Hne & li' & Hi & Hl')].
    + exists (<[l:=Some (gid, gen)]> li). rewrite list_lookup_alter_eq, Hc. split; [done|].
      by apply list_lookup_insert_eq.
    + destruct (decide (c' = c)) as [->|Hc'].
      * exists (<[l:=v]> li). rewrite list_lookup_alter_eq, Hc. simplify_eq. split; [done|].
        rewrite list_lookup_insert_ne; [done|]. congruence.
      * exists li'. by rewrite list_lookup_alter_ne.
Qed.

Lemma set_id_small ids c l v :
  (Z.of_nat (length ids) <= 2 ^ 16 ∧ ∀ c li, ids !! c = Some li → Z.of_nat (length li) <= 2 ^ 16) →
  Z.of_nat (length (set_id c l v ids)) <= 2 ^ 16 ∧
  ∀ c' li, set_id c l v ids !! c' = Some li → Z.of_nat (length li) <= 2 ^ 16.
Proof.
  intros [H1 H2]. unfold set_id. rewrite length_alter. split; [done|].
  intros c' li [(<- & y & Hy & ->)|(Hne & Hi)]%lookup_alter_inv; [|by eapply H2].
  rewrite length_insert. by eapply H2.
Qed.

Section transitions.
Context ids g G D X (HD : dir_inv ids g G D X).

(** Where a live thread is held, it is held once. *)
Lemma holds_unique c l gen c' l' gen' gid :
  holds ids c l gid gen → holds ids c' l' gid gen' → c = c' ∧ l = l' ∧ gen = gen'.
Proof.
  intros H H'. pose proof (di_small _ _ _ _ _ HD) as [Hs1 Hs2].
  assert (∀ c l gen, holds ids c l gid gen → Z.of_nat c < 2 ^ 16 ∧ Z.of_nat l < 2 ^ 16) as Hb.
  { intros c0 l0 gen0 (li & Hc & Hl). apply lookup_lt_Some in Hc as H1, Hl as H2.
    specialize (Hs2 _ _ Hc). split; lia. }
  destruct (Hb _ _ _ H), (Hb _ _ _ H').
  apply (di_fwd _ _ _ _ _ HD) in H as (_ & Hg & _ & E). apply (di_fwd _ _ _ _ _ HD) in H' as (_ & Hg' & _ & E').
  rewrite E in E'. injection E' as E'. apply pack_dir_inj in E'; naive_solver.
Qed.

Lemma holds_entry c l gid gen :
  holds ids c l gid gen →
  dir_used (pack_dir true gen c l) = true ∧ dir_gen (pack_dir true gen c l) = gen ∧
  dir_core (pack_dir true gen c l) = c ∧ dir_local (pack_dir true gen c l) = l.
Proof.
  intros H. pose proof (di_small _ _ _ _ _ HD) as [Hs1 Hs2].
  pose proof (di_fwd _ _ _ _ _ HD _ _ _ _ H) as (_ & Hg & _ & _). destruct H as (li & Hc & Hl).
  apply lookup_lt_Some in Hc as H1, Hl as H2. specialize (Hs2 _ _ Hc).
  rewrite dir_used_pack, dir_gen_pack, dir_core_pack, dir_local_pack by lia. done.
Qed.

(** A slot that is not live is held nowhere. *)
Lemma unused_not_held k e c l gen :
  Globals.directory g !! k = Some e → dir_used e = false → ¬ holds ids c l (Z.of_nat k) gen.
Proof.
  intros He Hu H. destruct (holds_entry _ _ _ _ H) as (E & _).
  apply (di_fwd _ _ _ _ _ HD) in H as (_ & _ & _ & Hd). rewrite Nat2Z.id, He in Hd. congruence.
Qed.
End transitions.

(** A new thread takes the free slot [k]. *)
Lemma dir_create ids g k G D e c l li :
  dir_inv ids g (k :: G) D None → Globals.directory g !! k = Some e →
  ids !! c = Some li → li !! l = Some None →
  let gen := dir_gen e in
  ∀ g', Globals.directory g' = alter (λ _, pack_dir true gen c l) k (Globals.directory g) →
    FreeList.rep (Globals.gid_free g') G →
    length (FreeList.next (Globals.gid_free g')) = length (FreeList.next (Globals.gid_free g)) →
    length (Globals.core_load g') = length (Globals.core_load g) →
  dir_inv (set_id c l (Some (Z.of_nat k, gen)) ids) g' G D None.
Proof.
  intros HD He Hc Hl gen g' Ed Ef Ec El.
  assert (l < length li)%nat as Hlt by by eapply lookup_lt_Some.
  destruct (di_G _ _ _ _ _ HD k) as (e' & He' & Hu); [set_solver|]. simplify_eq.
  pose proof (FreeList.rep_nodup _ _ (di_free _ _ _ _ _ HD)) as [HkG _]%NoDup_cons.
  assert (∀ c l gid gen, holds ids c l gid gen → Z.to_nat gid ≠ k) as Hnk.
  { intros c0 l0 gid0 gen0 H0 <-. pose proof (di_fwd _ _ _ _ _ HD _ _ _ _ H0) as (Hg0 & _).
    eapply (unused_not_held _ _ _ _ _ HD); [exact He|done|]. rewrite Z2Nat.id by done. exact H0. }
  split; rewrite ?Ed, ?length_alter.
  - intros c' l' gid gen' [(-> & -> & [= <- <-])|(Hne & H)]%(holds_set _ _ _ _ _ _ _ _ _ Hc Hlt).
    + rewrite Nat2Z.id, list_lookup_alter_eq, He. split_and!; [lia|apply dir_gen_range|apply dir_gen_range|done|done].
    + pose proof (Hnk _ _ _ _ H). apply (di_fwd _ _ _ _ _ HD) in H as (? & ? & ? & ?).
      by rewrite list_lookup_alter_ne by done.
  - intros k' e0 [(<- & y & Hy & ->)|(Hne & Hk')]%lookup_alter_inv Hu' _.
    + exists c, l, gen. apply (holds_set _ _ _ _ _ _ _ _ _ Hc Hlt). by left.
    + destruct (di_bwd _ _ _ _ _ HD k' e0 Hk' Hu') as (c' & l' & gen' & H); [done|].
      exists c', l', gen'. apply (holds_set _ _ _ _ _ _ _ _ _ Hc Hlt). right. split; [|done].
      intros [= -> ->]. destruct H as (li' & ? & ?). simplify_eq.
  - done.
  - done.
  - rewrite Ec. apply HD.
  - intros k' Hk'. destruct (di_G _ _ _ _ _ HD k') as (e0 & ? & ?); [set_solver|].
    exists e0. rewrite list_lookup_alter_ne; [done|]. by intros ->.
  - intros h i k' Hk'. destruct (di_D _ _ _ _ _ HD _ _ _ Hk') as (Hn & e0 & He0 & Hu0).
    split; [set_solver|]. exists e0. rewrite list_lookup_alter_ne; [done|]. intros ->. set_solver.
  - apply HD.
  - apply set_id_small, HD.
  - rewrite El. apply HD.
Qed.

(** A thread dies; holder [h] keeps its slot for the reaper, or nobody does. *)
Lemma dir_destroy ids g G D c l gid gen gen' D' h :
  dir_inv ids g G D None → holds ids c l gid gen →
  (D' = D ∨ D' = λ h', if decide (h' = h) then D h ++ [Z.to_nat gid] else D h') →
  ∀ g', Globals.directory g' = alter (λ _, pack_dir false gen' 0 0) (Z.to_nat gid) (Globals.directory g) →
    Globals.gid_free g' = Globals.gid_free g →
    length (Globals.core_load g') = length (Globals.core_load g) →
  dir_inv (set_id c l None ids) g' G D' None.
Proof.
  intros HD Hh HD' g' Ed Ef El. pose proof Hh as (li & Hc & Hl).
  assert (l < length li)%nat as Hlt by by eapply lookup_lt_Some.
  pose proof (di_fwd _ _ _ _ _ HD _ _ _ _ Hh) as (Hg0 & Hgen & _ & He).
  destruct (holds_entry _ _ _ _ _ HD _ _ _ _ Hh) as (Hu & _).
  set (k := Z.to_nat gid) in *.
  assert (∀ k' e, Globals.directory g !! k' = Some e → dir_used e = false → k' ≠ k) as Hnk.
  { intros k' e He' Hu' ->. congruence. }
  assert (∀ h i k', D h !! i = Some k' → k' ≠ k) as HDk.
  { intros h0 i k' Hk'. destruct (di_D _ _ _ _ _ HD _ _ _ Hk') as (_ & e0 & He0 & Hu0). by eapply Hnk. }
  assert (∃ e, alter (λ _, pack_dir false gen' 0 0) k (Globals.directory g) !! k = Some e ∧ dir_used e = false) as Hke.
  { exists (pack_dir false gen' 0 0). rewrite list_lookup_alter_eq, He, dir_used_pack. done. }
  split; rewrite ?Ed, ?Ef, ?length_alter.
  - intros c' l' gid' gen'' [(-> & -> & ?)|(Hne & H)]%(holds_set _ _ _ _ _ _ _ _ _ Hc Hlt); [done|].
    pose proof (di_fwd _ _ _ _ _ HD _ _ _ _ H) as (? & ? & ? & Hd). rewrite list_lookup_alter_ne; [done|].
    intros Heq. assert (gid' = gid) as -> by (unfold k in Heq; lia).
    destruct (holds_unique _ _ _ _ _ HD _ _ _ _ _ _ _ H Hh) as (-> & -> & _). done.
  - intros k' e0 [(<- & y & Hy & ->)|(Hne & Hk')]%lookup_alter_inv Hu' _.
    + by rewrite dir_used_pack in Hu'.
    + destruct (di_bwd _ _ _ _ _ HD k' e0 Hk' Hu') as (c' & l' & gen'' & H); [done|].
      exists c', l', gen''. apply (holds_set _ _ _ _ _ _ _ _ _ Hc Hlt). right. split; [|done].
      intros [= -> ->]. destruct H as (li' & ? & ?). simplify_eq. unfold k in Hne. lia.
  - done.
  - apply HD.
  - apply HD.
  - intros k' Hk'. destruct (di_G _ _ _ _ _ HD k') as (e0 & ? & ?); [done|].
    exists e0. rewrite list_lookup_alter_ne; [done|]. intros E. by eapply Hnk.
  - intros h' i k' Hk'.
    assert (k' ≠ k ∧ D h' !! i = Some k' ∨ k' = k) as [[Hne Hk]| ->].
    { destruct HD' as [->| ->]; [left; split; [by eapply HDk|done]|].
      cbv beta in Hk'. destruct (decide (h' = h)) as [->|]; [|left; split; [by eapply HDk|done]].
      apply lookup_app_Some in Hk' as [?|[_ Hk']]; [left; split; [by eapply HDk|done]|right].
      apply list_lookup_singleton_Some in Hk' as [_ <-]. done. }
    + destruct (di_D _ _ _ _ _ HD _ _ _ Hk) as (Hn & e0 & He0 & Hu0). split; [done|].
      exists e0. by rewrite list_lookup_alter_ne.
    + split; [|done]. intros Hin. destruct (di_G _ _ _ _ _ HD k Hin) as (e0 & ? & ?). by eapply Hnk.
  - destruct HD' as [->| ->]; [apply HD|]. cbv beta. intros h1 i1 h2 i2 k' H1 H2.
    assert (∀ h' i, (if decide (h' = h) then D h ++ [k] else D h') !! i = Some k' →
      (k' ≠ k ∧ D h' !! i = Some k') ∨ (k' = k ∧ h' = h ∧ i = length (D h))) as Hc'.
    { intros h' i. destruct (decide (h' = h)) as [->|]; [|intros Hi; left; split; [by eapply HDk|done]].
      intros [Hi|[Hle Hi]]%lookup_app_Some; [left; split; [by eapply HDk|done]|].
      apply list_lookup_singleton_Some in Hi as [Hi <-]. right. split_and!; [done|done|lia]. }
    destruct (Hc' _ _ H1) as [[? ?]|(? & -> & ->)], (Hc' _ _ H2) as [[? ?]|(? & -> & ->)]; try done.
    by eapply (di_D_inj _ _ _ _ _ HD).
  - apply set_id_small, HD.
  - rewrite El. apply HD.
Qed.

(** A thread leaves its core for a migration. *)
Lemma dir_detach ids g G D c l gid gen :
  dir_inv ids g G D None → holds ids c l gid gen →
  ∀ g', Globals.directory g' = Globals.directory g → Globals.gid_free g' = Globals.gid_free g →
    length (Globals.core_load g') = length (Globals.core_load g) →
  dir_inv (set_id c l None ids) g' G D (Some (Z.to_nat gid)).
Proof.
  intros HD Hh g' Ed Ef El. pose proof Hh as (li & Hc & Hl).
  assert (l < length li)%nat as Hlt by by eapply lookup_lt_Some.
  pose proof (di_fwd _ _ _ _ _ HD _ _ _ _ Hh) as (Hg0 & Hgen & _ & He).
  destruct (holds_entry _ _ _ _ _ HD _ _ _ _ Hh) as (Hu & _).
  split; rewrite ?Ed, ?Ef; try apply HD.
  - intros c' l' gid' gen'' [(-> & -> & ?)|(Hne & H)]%(holds_set _ _ _ _ _ _ _ _ _ Hc Hlt); [done|].
    pose proof (di_fwd _ _ _ _ _ HD _ _ _ _ H) as (? & ? & ? & Hd). split_and!; try (done || lia).
    intros [= Heq]. assert (gid' = gid) as -> by lia.
    destruct (holds_unique _ _ _ _ _ HD _ _ _ _ _ _ _ H Hh) as (-> & -> & _). done.
  - intros k' e0 Hk' Hu' Hne. destruct (di_bwd _ _ _ _ _ HD k' e0 Hk' Hu') as (c' & l' & gen'' & H); [done|].
    exists c', l', gen''. apply (holds_set _ _ _ _ _ _ _ _ _ Hc Hlt). right. split; [|done].
    intros [= -> ->]. destruct H as (li' & ? & ?). simplify_eq. rewrite Nat2Z.id in Hne. done.
  - intros k [= <-]. eexists. split; [done|]. exact Hu.
  - apply set_id_small, HD.
  - rewrite El. apply HD.
Qed.

(** A migrating thread arrives. *)
Lemma dir_attach ids g G D c l li gid gen :
  dir_inv ids g G D (Some (Z.to_nat gid)) → 0 <= gid → 0 <= gen < 2 ^ 31 →
  ids !! c = Some li → li !! l = Some None →
  ∀ g', Globals.directory g' = alter (λ _, pack_dir true gen c l) (Z.to_nat gid) (Globals.directory g) →
    Globals.gid_free g' = Globals.gid_free g →
    length (Globals.core_load g') = length (Globals.core_load g) →
  dir_inv (set_id c l (Some (gid, gen)) ids) g' G D None.
Proof.
  intros HD Hg0 Hgen Hc Hl g' Ed Ef El.
  assert (l < length li)%nat as Hlt by by eapply lookup_lt_Some.
  destruct (di_X _ _ _ _ _ HD _ eq_refl) as (e & He & Hu). set (k := Z.to_nat gid) in *.
  assert (∀ k' e, Globals.directory g !! k' = Some e → dir_used e = false → k' ≠ k) as Hnk.
  { intros k' e' He' Hu' ->. congruence. }
  split; rewrite ?Ed, ?Ef, ?length_alter; try apply HD.
  - intros c' l' gid' gen'' [(-> & -> & [= <- <-])|(Hne & H)]%(holds_set _ _ _ _ _ _ _ _ _ Hc Hlt).
    + fold k. rewrite list_lookup_alter_eq, He. done.
    + pose proof (di_fwd _ _ _ _ _ HD _ _ _ _ H) as (? & ? & Hx & Hd). split_and!; try (done || lia).
      rewrite list_lookup_alter_ne; [done|]. intros E. by rewrite E in Hx.
  - intros k' e0 [(<- & y & Hy & ->)|(Hne & Hk')]%lookup_alter_inv Hu' _.
    + exists c, l, gen. apply (holds_set _ _ _ _ _ _ _ _ _ Hc Hlt). left.
      unfold k. rewrite Z2Nat.id by done. done.
    + destruct (di_bwd _ _ _ _ _ HD k' e0 Hk' Hu') as (c' & l' & gen'' & H); [congruence|].
      exists c', l', gen''. apply (holds_set _ _ _ _ _ _ _ _ _ Hc Hlt). right. split; [|done].
      intros [= -> ->]. destruct H as (li' & ? & ?). simplify_eq.
  - done.
  - intros k' Hk'. destruct (di_G _ _ _ _ _ HD k') as (e0 & ? & ?); [done|].
    exists e0. rewrite list_lookup_alter_ne; [done|]. intros E. by eapply Hnk.
  - intros h' i k' Hk'. destruct (di_D _ _ _ _ _ HD _ _ _ Hk') as (Hn & e0 & He0 & Hu0). split; [done|].
    exists e0. rewrite list_lookup_alter_ne; [done|]. intros E. by eapply Hnk.
  - apply set_id_small, HD.
  - rewrite El. apply HD.
Qed.

(** The reaper [r] takes the oldest zombie of holder [h]. *)
Lemma dir_reap ids g G D h r k rest :
  dir_inv ids g G D None → h ≠ r → D h = k :: rest →
  dir_inv ids g G (λ h', if decide (h' = h) then rest else if decide (h' = r) then D r ++ [k] else D h') None.
Proof.
  intros HD Hhr Hk.
  assert (∀ h' i k', (if decide (h' = h) then rest else if decide (h' = r) then D r ++ [k] else D h') !! i = Some k' →
     (h' = h ∧ D h !! S i = Some k') ∨ (h' ≠ h ∧ D h' !! i = Some k') ∨
     (h' = r ∧ k' = k ∧ i = length (D r))) as Hc.
  { intros h' i k'. repeat case_decide; subst.
    - intros Hi. left. by rewrite Hk.
    - intros [Hi|[Hle Hi]]%lookup_app_Some; [by right; left|]. apply list_lookup_singleton_Some in Hi as [? <-].
      right. right. split_and!; [done|done|lia].
    - intros Hi. by right; left. }
  assert (D h !! 0%nat = Some k) as H0 by by rewrite Hk.
  split; try apply HD.
  - intros h' i k' [[-> Hi]|[[_ Hi]|(-> & -> & ->)]]%Hc; by eapply (di_D _ _ _ _ _ HD).
  - intros h1 i1 h2 i2 k' H1%Hc H2%Hc.
    destruct H1 as [[-> H1]|[[N1 H1]|(-> & -> & ->)]], H2 as [[-> H2]|[[N2 H2]|(-> & E2 & ->)]]; try done; subst;
      repeat match goal with
      | Ha : D ?a !! ?i = Some ?k, Hb : D ?b !! ?j = Some ?k |- _ =>
          let E := fresh in pose proof (di_D_inj _ _ _ _ _ HD _ _ _ _ _ Ha Hb) as E; clear Hb;
          destruct E; simplify_eq
      end; try done; try (split; [done|lia]).
Qed.

(** The reaper releases a slot it holds. *)
Lemma dir_release ids g G D r i k :
  dir_inv ids g G D None → D r !! i = Some k →
  dir_inv ids (Globals.with_gid_free (FreeList.free k (Globals.gid_free g)) g) (k :: G)
    (λ h', if decide (h' = r) then delete i (D r) else D h') None.
Proof.
  intros HD Hk. destruct (di_D _ _ _ _ _ HD _ _ _ Hk) as (HkG & e & He & Hu).
  assert (∀ h' j k', (if decide (h' = r) then delete i (D r) else D h') !! j = Some k' →
     ∃ j', D h' !! j' = Some k' ∧ (h', j') ≠ (r, i) ∧
       (h' = r → j' = if decide (j < i)%nat then j else S j) ∧ (h' ≠ r → j' = j)) as Hc.
  { intros h' j k'. case_decide; subst.
    - intros Hj. destruct (decide (j < i)%nat).
      + rewrite list_lookup_delete_lt in Hj by done. exists j. split_and!; [done| |done|done].
        intros [= ->]. lia.
      + rewrite list_lookup_delete_ge in Hj by lia. exists (S j). split_and!; [done| |done|done].
        intros [= E]. lia.
    - intros Hj. exists j. split_and!; [done|congruence|done|done]. }
  split; cbn [Globals.directory Globals.gid_free Globals.core_load Globals.with_gid_free]; try apply HD.
  - apply FreeList.free_rep; [apply HD| |done]. rewrite (di_cap _ _ _ _ _ HD). by eapply lookup_lt_Some.
  - rewrite FreeList.free_length. apply HD.
  - intros k' [->|Hk']%elem_of_cons; [by exists e|]. by apply (di_G _ _ _ _ _ HD).
  - intros h' j k' (j' & Hj' & Hne & _)%Hc. destruct (di_D _ _ _ _ _ HD _ _ _ Hj') as (Hn & He').
    split; [|done]. intros [->|?]%elem_of_cons; [|done]. apply Hne.
    destruct (di_D_inj _ _ _ _ _ HD _ _ _ _ _ Hj' Hk) as [-> ->]. done.
  - intros h1 i1 h2 i2 k' (j1 & H1 & _ & E1 & E1')%Hc (j2 & H2 & _ & E2 & E2')%Hc.
    destruct (di_D_inj _ _ _ _ _ HD _ _ _ _ _ H1 H2) as [<- <-]. split; [done|].
    destruct (decide (h1 = r)) as [Hr|Hr].
    + specialize (E1 Hr). specialize (E2 Hr). repeat case_decide; lia.
    + rewrite <-(E1' Hr). by apply E2'.
Qed.
