(* ===== verification/SchedLife.v ===== *)
(** * Creating, ending and moving threads

    [alloc_tcb], [record_zombie], [detach_for_migration] and [attach_migrated] of
    [crates/caprock-sched/src/lib.rs] change a table slot, the free lists and the
    directory together.  Their specifications carry the scheduler's invariant and
    the directory's through these steps.  *)

From S2P Require Import Prelude PanicMonad Dll Slab Redirect SchedData Sched SchedReady SchedInv.
From S2P Require Import SchedWake SchedRun SchedTick SchedOps SchedDir.
Import Scheduler.
#[local] Open Scope Z_scope.

Implicit Types (Q : queue_map) (F G : list nat) (c X : option nat) (D : nat → list nat).

(** ** Replacing a table entry that is in no queue *)

Lemma ready_overwrite s s' Q i t' :
  ready s Q → (∀ p, i ∉ Q p) → Tcb.queued t' = NOT_QUEUED → Tcb.qnext t' = NIL → Tcb.qprev t' = NIL →
  tcbs s' = alter (λ _, t') i (tcbs s) → queues s' = queues s → bitmap s' = bitmap s → ready s' Q.
Proof.
  intros HR Hn Eq Enx Epv Et Eqs Eb.
  assert (∀ j, j ≠ i → tcbs s' !! j = tcbs s !! j) as Ho.
  { intros j Hj. rewrite Et. by apply list_lookup_alter_ne. }
  split; rewrite ?Eqs, ?Eb; try apply HR.
  - rewrite Et, length_alter. apply HR.
  - intros p. eapply dll_ext; [apply HR|]. intros x Hx. unfold nxt, prv.
    rewrite Ho; [done|]. intros ->. by eapply Hn.
  - intros p j. rewrite (rd_mem _ _ HR). destruct (decide (j = i)) as [->|Hj]; [|by rewrite Ho].
    split.
    + intros Hin. exfalso. apply (Hn p). by apply (rd_mem _ _ HR).
    + intros (Hp & t & Ht & E). rewrite Et in Ht.
      apply lookup_alter_inv in Ht as [(_ & y & _ & ->)|(? & _)]; [|done].
      rewrite Eq in E. unfold NOT_QUEUED, NPRIO in *. lia.
  - intros j t. rewrite Et. intros [(<- & y & _ & ->)|(? & Hj)]%lookup_alter_inv.
    + by rewrite Enx, Epv.
    + by apply (rd_canon _ _ HR j).
  - intros j t. rewrite Et. intros [(<- & y & _ & ->)|(? & Hj)]%lookup_alter_inv; [by left|].
    by apply (rd_queued _ _ HR j).
Qed.

Lemma good_overwrite s s' c Q F F' i t t' :
  good s c Q F → tcbs s !! i = Some t → (∀ p, i ∉ Q p) → c ≠ Some i →
  Tcb.queued t' = NOT_QUEUED → Tcb.qnext t' = NIL → Tcb.qprev t' = NIL →
  tcb_ok (length (tcbs s)) t' →
  tcbs s' = alter (λ _, t') i (tcbs s) → queues s' = queues s → bitmap s' = bitmap s →
  core s' = core s → FreeList.rep (free s') F' →
  length (FreeList.next (free s')) = length (FreeList.next (free s)) →
  (∀ j, j ∈ F' ↔ (j = i ∧ Tcb.used t' = false) ∨ (j ≠ i ∧ j ∈ F)) →
  used s' + (if Tcb.used t then 1 else 0) = used s + (if Tcb.used t' then 1 else 0) →
  budget_blocked_count s' + (if budget_blocked t then 1 else 0) =
    budget_blocked_count s + (if budget_blocked t' then 1 else 0) →
  good s' c Q F'.
Proof.
  intros [HB HQ] Ht Hn Hc Eq Enx Epv Hok Et Eqs Eb Eco Hrep Hcap HF Hu Hbb.
  assert (∀ j, j ≠ i → tcbs s' !! j = tcbs s !! j) as Ho.
  { intros j Hj. rewrite Et. by apply list_lookup_alter_ne. }
  assert (tcbs s' !! i = Some t') as Hi by by rewrite Et, list_lookup_alter_eq, Ht.
  split; [split|].
  - by eapply ready_overwrite; [apply HB|..].
  - intros j tj Hj. rewrite Et, length_alter. destruct (decide (j = i)) as [->|Hne].
    + by simplify_eq.
    + rewrite Ho in Hj by done. by apply (g_tcb _ _ _ _ HB j).
  - intros j Hj. rewrite Ho by congruence. by apply (g_cur _ _ _ _ HB).
  - done.
  - rewrite Hcap, Et, length_alter. apply HB.
  - intros j. rewrite HF, (g_F _ _ _ _ HB). destruct (decide (j = i)) as [->|Hne].
    + rewrite Hi. naive_solver.
    + rewrite Ho by done. naive_solver.
  - pose proof (count_if_alter Tcb.used (λ _, t') _ _ _ Ht) as E. rewrite <-Et in E.
    pose proof (g_used _ _ _ _ HB). destruct (Tcb.used t), (Tcb.used t'); lia.
  - pose proof (count_if_alter budget_blocked (λ _, t') _ _ _ Ht) as E. rewrite <-Et in E.
    pose proof (g_bb _ _ _ _ HB). destruct (budget_blocked t), (budget_blocked t'); lia.
  - rewrite Eco. apply HB.
  - intros p j Hj. destruct (HQ p j Hj) as (tj & Htj & Hr). exists tj. split; [|done].
    rewrite Ho; [done|]. intros ->. by eapply Hn.
Qed.

(** ** Small steps *)

Lemma wp_on_free {A} (m : M FreeList.t A) st (R : A → St → Prop) :
  wp m (free (sch st)) (λ a f, R a (with_sch (with_free f (sch st)) st)) → wp (on_free m) st R.
Proof. intros HR. unfold on_free. apply wp_zoom. exact HR. Qed.

Lemma wp_on_gid_free {A} (m : M FreeList.t A) st (R : A → St → Prop) :
  wp m (Globals.gid_free (glo st)) (λ a f, R a (with_glo (Globals.with_gid_free f (glo st)) st)) →
  wp (on_gid_free m) st R.
Proof. intros HR. unfold on_gid_free. apply wp_zoom. exact HR. Qed.

Lemma wp_store_load st (R : unit → St → Prop) :
  (core (sch st) < MAX_CORES)%nat → length (Globals.core_load (glo st)) = MAX_CORES →
  R tt (with_glo (Globals.with_core_load
          (<[core (sch st) := used (sch st)]> (Globals.core_load (glo st))) (glo st)) st) →
  wp store_load st R.
Proof.
  intros Hc Hl HR. unfold store_load. apply wp_bind, wp_gets.
  destruct (lookup_lt_is_Some_2 (Globals.core_load (glo st)) (core (sch st))) as [x Hx]; [lia|].
  apply wp_bind. eapply wp_expect; [exact Hx|]. by apply wp_upd_glo.
Qed.

Lemma wp_publish_dir st local t (R : unit → St → Prop) :
  tcbs (sch st) !! local = Some t →
  R tt (with_glo (Globals.with_directory
    (alter (λ _, pack_dir true (Tcb.gen t) (core (sch st)) local) (Z.to_nat (Tcb.gid t))
       (Globals.directory (glo st))) (glo st)) st) →
  wp (publish_dir local) st R.
Proof.
  intros Ht HR. unfold publish_dir. apply wp_bind. eapply wp_tcb; [exact Ht|].
  apply wp_bind, wp_self. by apply wp_upd_glo.
Qed.

Lemma unused_not_queued s c Q F i t :
  good s c Q F → tcbs s !! i = Some t → Tcb.used t = false → ∀ p, i ∉ Q p.
Proof.
  intros HG Ht Hu p Hp. destruct (g_queue _ _ _ _ HG p i Hp) as (t' & Ht' & Hu' & _). simplify_eq. congruence.
Qed.

Lemma unused_not_current s c Q F i t :
  good s c Q F → tcbs s !! i = Some t → Tcb.used t = false → c ≠ Some i.
Proof.
  intros HG Ht Hu Hc. destruct (g_cur _ _ _ _ (g_base _ _ _ _ HG) i Hc) as (t' & Ht' & Hu' & _).
  simplify_eq. congruence.
Qed.

Lemma unused_bb s c Q F i t :
  good s c Q F → tcbs s !! i = Some t → Tcb.used t = false → budget_blocked t = false.
Proof.
  intros HG Ht Hu. unfold budget_blocked.
  rewrite (ok_free _ _ (g_tcb _ _ _ _ (g_base _ _ _ _ HG) i t Ht) Hu). done.
Qed.

(** The parts of a scheduler that creating and ending threads leaves alone. *)
Definition same_ring (s s' : t) : Prop :=
  zombies s' = zombies s ∧ zhead s' = zhead s ∧ ztail s' = ztail s ∧ zcount s' = zcount s.

(** ** [alloc_tcb] *)

Definition new_tcb (k : nat) (gen sp priority : Z) : Tcb.t :=
  Tcb.mk true (as_u32 k) gen sp priority BlockReasons.NONE 0 0 0 0 0
    NOT_QUEUED false NIL NIL 0 0 0 0 false false None None CycleStats.EMPTY None None.

Lemma idents_overwrite s i t' :
  ident <$> alter (λ _, t') i (tcbs s) = <[i := ident t']> (idents s).
Proof.
  unfold idents. apply list_eq. intros j. rewrite list_lookup_fmap, lookup_alter_if.
  destruct (decide (i = j)) as [<-|Hne].
  - destruct (tcbs s !! i) as [t|] eqn:Ht; simpl.
    + rewrite list_lookup_insert_eq; [done|]. rewrite length_fmap. by eapply lookup_lt_Some.
    + symmetry. apply lookup_ge_None. rewrite length_insert, length_fmap. by apply lookup_ge_None.
  - rewrite list_lookup_insert_ne, list_lookup_fmap by done. by destruct (tcbs s !! j).
Qed.

Lemma set_id_same (ids : id_table) (c l : nat) v li :
  ids !! c = Some li → set_id c l v ids = <[c := <[l := v]> li]> ids.
Proof.
  intros Hc. unfold set_id. apply list_eq. intros j. rewrite lookup_alter_if.
  destruct (decide (c = j)) as [<-|Hne].
  - rewrite Hc. simpl. rewrite list_lookup_insert_eq; [done|]. by eapply lookup_lt_Some.
  - rewrite list_lookup_insert_ne by done. by destruct (ids !! j).
Qed.

(** What an operation that creates or ends threads leaves alone. *)
Record steady (s s' : t) : Prop := {
  sd_core : core s' = core s;
  sd_current : current s' = current s;
  sd_ring : same_ring s s' }.

Lemma wp_alloc_tcb (ids : id_table) D c st Q F G sp prio (R : option nat → St → Prop) :
  good (sch st) c Q F → dir_inv ids (glo st) G D None →
  ids !! core (sch st) = Some (idents (sch st)) → 0 <= prio < Z.of_nat NPRIO →
  (∀ s', good s' c Q F → idents s' = idents (sch st) → steady (sch st) s' →
     R None (mkSt s' (glo st))) →
  (∀ i k gen F' G' st', F = i :: F' → G = k :: G' → 0 <= gen < 2 ^ 31 →
     good (sch st') c Q F' →
     dir_inv (set_id (core (sch st)) i (Some (Z.of_nat k, gen)) ids) (glo st') G' D None →
     idents (sch st') = <[i := Some (Z.of_nat k, gen)]> (idents (sch st)) →
     tcbs (sch st') !! i = Some (new_tcb k gen sp prio) →
     steady (sch st) (sch st') → R (Some i) st') →
  wp (alloc_tcb sp prio) st R.
Proof.
  intros HG HD Hid Hp HN HS. unfold alloc_tcb. pose proof (g_base _ _ _ _ HG) as HB.
  apply wp_bind, wp_on_free. eapply FreeList.alloc_wp; [apply HB| |].
  { intros ->. apply wp_ret. apply (HN (with_free (free (sch st)) (sch st))).
    - destruct st as [[]]. exact HG.
    - done.
    - by split. }
  intros i F' f EF Hf Hfl.
  assert (∃ t, tcbs (sch st) !! i = Some t ∧ Tcb.used t = false) as (t & Ht & Hu).
  { apply (g_F _ _ _ _ HB). rewrite EF. set_solver. }
  assert (i ∉ F') as HiF.
  { pose proof (FreeList.rep_nodup _ _ (g_free _ _ _ _ HB)) as Hnd. rewrite EF in Hnd.
    by apply NoDup_cons in Hnd as [? _]. }
  assert (i < length (tcbs (sch st)))%nat as Hi by by eapply lookup_lt_Some.
  apply wp_bind, wp_on_gid_free. cbn [glo sch with_sch].
  eapply FreeList.alloc_wp; [apply HD| |].
  { intros ->. apply wp_bind, wp_on_free. apply wp_modify. cbn [glo sch with_sch with_glo free with_free].
    apply wp_ret. destruct st as [s g]. cbn [glo sch with_sch with_glo] in *.
    assert (Globals.with_gid_free (Globals.gid_free g) g = g) as Eg by by destruct g.
    rewrite Eg. apply HN.
    - pose proof (FreeList.free_rep _ _ i Hf) as Hrep. rewrite Hfl, (g_free_cap _ _ _ _ HB) in Hrep.
      specialize (Hrep Hi HiF). destruct HG as [_ HQ].
      split; [|exact HQ]. split; cbn [tcbs queues bitmap free used budget_blocked_count core with_free];
        try apply HB.
      + destruct (g_ready _ _ _ _ HB). by split.
      + by rewrite EF.
      + rewrite FreeList.free_length, Hfl. apply HB.
    - done.
    - by split. }
  intros k G' f' EG Hf' Hfl'.
  destruct (di_G _ _ _ _ _ HD k) as (e & He & Hue); [rewrite EG; set_solver|].
  apply wp_bind, wp_gets. cbn [glo sch with_sch with_glo Globals.with_gid_free].
  unfold Globals.dir_load. cbn [Globals.directory Globals.with_gid_free]. rewrite He.
  apply wp_bind. eapply wp_upd_tcb; [cbn; exact Ht|]. apply wp_bind, wp_upd. cbn [glo sch with_sch with_glo].
  apply wp_bind, wp_store_load; [apply HB|apply HD|]. cbn [glo sch with_sch with_glo].
  apply wp_bind. eapply wp_publish_dir.
  { cbn. rewrite list_lookup_alter_eq, Ht. reflexivity. }
  apply wp_ret. cbn [glo sch with_sch with_glo tcbs with_tcbs with_free with_used used core Tcb.gen Tcb.gid].
  fold (new_tcb k (dir_gen e) sp prio).
  pose proof (FreeList.rep_small _ _ _ (di_free _ _ _ _ _ HD) (ltac:(rewrite EG; set_solver) : k ∈ G)) as Hks.
  assert (as_u32 k = Z.of_nat k) as Ek by (apply as_u32_small; lia).
  assert (used (sch st) <= 2 ^ 16 ∧ 0 <= used (sch st)) as Hus.
  { rewrite (g_used _ _ _ _ HB). pose proof (count_if_length Tcb.used (tcbs (sch st))).
    pose proof (rd_cap _ _ (g_ready _ _ _ _ HB)). lia. }
  rewrite wrapping_add_exact by (unfold in_width; lia).
  pose proof (dir_gen_range e) as Hgen.
  eapply (HS i k (dir_gen e) F' G'); [done|done|done| | | | |].
  - cbn [sch with_glo with_sch]. eapply (good_overwrite _ _ _ _ _ _ i t (new_tcb k (dir_gen e) sp prio) HG Ht);
      try done.
    + by eapply unused_not_queued.
    + by eapply unused_not_current.
    + split; cbn; [done|exact Hp|done|set_solver].
    + intros j. rewrite EF. cbn. rewrite elem_of_cons. destruct (decide (j = i)); naive_solver.
    + rewrite Hu. cbn. lia.
    + rewrite (unused_bb _ _ _ _ _ _ HG Ht Hu). done.
  - cbn [glo with_glo with_sch]. rewrite EG in HD. eapply dir_create; [exact HD|exact He|exact Hid| |..].
    + unfold idents. by rewrite list_lookup_fmap, Ht; simpl; unfold ident; rewrite Hu.
    + cbn. rewrite Ek, Nat2Z.id. done.
    + done.
    + cbn. exact Hfl'.
    + cbn. by rewrite length_insert.
  - cbn [sch with_glo with_sch]. unfold idents at 1. cbn [tcbs with_tcbs with_used with_free].
    rewrite idents_overwrite. unfold ident, new_tcb. cbn. by rewrite Ek.
  - cbn. by rewrite list_lookup_alter_eq, Ht.
  - by split.
Qed.

(** ** Creating threads *)

(** A held thread is what its handle resolves to, on its core. *)
Lemma resolve_held (ids : id_table) G D X s g i gid gen :
  dir_inv ids g G D X → ids !! core s = Some (idents s) →
  idents s !! i = Some (Some (gid, gen)) →
  resolve_in (mkSt s g) (ThreadId.mk (Z.to_nat gid) gen) = Some i.
Proof.
  intros HD Hid Hi. assert (holds ids (core s) i gid gen) as Hh by by exists (idents s).
  pose proof (di_fwd _ _ _ _ _ HD _ _ _ _ Hh) as (_ & _ & _ & He).
  destruct (holds_entry _ _ _ _ _ HD _ _ _ _ Hh) as (E1 & E2 & E3 & E4).
  unfold resolve_in, Globals.dir_load. cbn [sch glo ThreadId.slot ThreadId.gen].
  rewrite He. cbn [mbind option_bind]. rewrite E1, E2, E3, E4, Z.eqb_refl, bool_decide_eq_true_2 by done.
  cbn [negb]. unfold idents in Hi. apply list_lookup_fmap_Some in Hi as (t & Et & Ht). rewrite Ht.
  cbn [mbind option_bind]. unfold ident in Et. destruct (Tcb.used t); [|done]. injection Et as _ ->.
  by rewrite Z.eqb_refl.
Qed.

(** Afterwards slot [i] holds the new thread with handle [tid]. *)
Record created (ids : id_table) D c st F' G' (i : nat) (tid : ThreadId.t) (t : Tcb.t) st' : Prop := {
  cr_gen : 0 <= ThreadId.gen tid < 2 ^ 31;
  cr_ids : idents (sch st') = <[i := Some (Z.of_nat (ThreadId.slot tid), ThreadId.gen tid)]> (idents (sch st));
  cr_dir : dir_inv (set_id (core (sch st)) i (Some (Z.of_nat (ThreadId.slot tid), ThreadId.gen tid)) ids)
             (glo st') G' D None;
  cr_tcb : tcbs (sch st') !! i = Some t;
  cr_lt : (i < length (idents (sch st)))%nat;
  cr_steady : steady (sch st) (sch st') }.

Lemma idents_lookup s i t : tcbs s !! i = Some t → idents s !! i = Some (ident t).
Proof. intros Ht. unfold idents. by rewrite list_lookup_fmap, Ht. Qed.

Lemma quiet_steady st st' : quiet st st' → current (sch st') = current (sch st) →
  steady (sch st) (sch st').
Proof. intros [_ ? _ _ ?] ?. by split. Qed.

Lemma steady_trans s1 s2 s3 : steady s1 s2 → steady s2 s3 → steady s1 s3.
Proof. intros [? ? (?&?&?&?)] [? ? (?&?&?&?)]. split; [congruence..|]. split_and!; congruence. Qed.

(** A parked thread with the kernel stack that goes to the reaper. *)
Lemma wp_spawn_tail (ids : id_table) D c st Q F G sp prio base len (R : option ThreadId.t → St → Prop) :
  good (sch st) c Q F → dir_inv ids (glo st) G D None →
  ids !! core (sch st) = Some (idents (sch st)) → 0 <= prio < Z.of_nat NPRIO →
  (∀ s', good s' c Q F → idents s' = idents (sch st) → steady (sch st) s' →
     R None (mkSt s' (glo st))) →
  (∀ i k gen F' G' st', F = i :: F' → G = k :: G' → good (sch st') c Q F' →
     created ids D c st F' G' i (ThreadId.mk k gen)
       (Tcb.with_stack_len len (Tcb.with_stack_base base (new_tcb k gen sp prio))) st' →
     R (Some (ThreadId.mk k gen)) st') →
  wp (ot ← alloc_tcb sp prio;
      match ot with
      | None => mret None
      | Some t =>
          upd_tcb t (Tcb.with_stack_base base) ≫= λ _,
          upd_tcb t (Tcb.with_stack_len len) ≫= λ _,
          i ← id t; mret (Some i)
      end) st R.
Proof.
  intros HG HD Hid Hp HN HS. apply wp_bind. eapply wp_alloc_tcb; [exact HG|exact HD|exact Hid|done| |].
  { intros s' H1 H2 H3. apply wp_ret. by apply HN. }
  intros i k gen F' G' st1 EF EG Hgen HG1 HD1 Hid1 Ht1 Hst1.
  assert (Z.of_nat k < 2 ^ 32) as Hk.
  { assert (k ∈ G) as Hin by (rewrite EG; set_solver).
    pose proof (FreeList.rep_small _ _ _ (di_free _ _ _ _ _ HD) Hin). lia. }
  apply wp_bind. eapply wp_plain_c; [exact HG1|exact Ht1|by plain_upd|].
  intros s2 HG2 Hq2 Ht2 Hc2 _. apply wp_bind.
  eapply (wp_plain_c c (mkSt s2 (glo st1))); [exact HG2|exact Ht2|by plain_upd|].
  intros s3 HG3 Hq3 Ht3 Hc3 _. cbn [sch glo] in *.
  apply wp_bind. unfold id. apply wp_bind. eapply wp_tcb; [exact Ht3|]. apply wp_ret, wp_ret.
  pose proof (quiet_trans _ _ _ Hq2 Hq3) as Hq. 
  cbn [Tcb.gid Tcb.gen Tcb.with_stack_base Tcb.with_stack_len new_tcb].
  rewrite (as_u32_small _ Hk), Nat2Z.id. eapply (HS i k gen F' G'); [done|done|done|].
  split; cbn [ThreadId.slot ThreadId.gen sch glo]; try done.
  - pose proof (q_idents _ _ Hq) as Eq. cbn [sch] in Eq. by rewrite Eq.
  - assert (is_Some (idents (sch st1) !! i)) as Hs by (rewrite (idents_lookup _ _ _ Ht1); eauto).
    apply lookup_lt_is_Some_1 in Hs. rewrite Hid1, length_insert in Hs. exact Hs.
  - eapply steady_trans; [exact Hst1|]. apply (quiet_steady st1 (mkSt s3 (glo st1)) Hq).
    cbn [sch]. congruence.
Qed.

(** [admit_]: a thread that is stopped by nobody and does not run becomes ready. *)
Lemma wp_admit tid st i t (R : bool → St → Prop) :
  Inv st → resolve_in st tid = Some i → tcbs (sch st) !! i = Some t →
  Tcb.reasons t = 0 → current (sch st) ≠ Some i →
  (∀ st' t', stays st st' → current (sch st') = current (sch st) →
     tcbs (sch st') !! i = Some t' → Tcb.queued t' ≠ NOT_QUEUED → R true st') →
  wp (admit_ tid) st R.
Proof.
  intros (Q & F & HI) Hr Ht Hre Hc HR. unfold admit_. apply wp_bind, wp_gets. rewrite Hr.
  assert (Tcb.used t = true) as Hu.
  { destruct (resolve_in_Some _ _ _ Hr) as (e & t0 & _ & _ & _ & _ & _ & Ht0 & Hu & _). by simplify_eq. }
  apply wp_bind. eapply wp_plain_c; [exact HI|exact Ht|by plain_upd|].
  intros s1 HG1 Hq1 Ht1 Hc1 _. apply wp_bind.
  eapply (wp_enqueue_good _ (mkSt s1 (glo st))); [exact HG1|exact Ht1|done|done|exact Hc|].
  intros s2 Q2 HG2 Hrl Hq2 HQ2. cbn [sch glo] in *. apply wp_ret.
  pose proof (relinked_fields _ _ Hrl) as (_ & _ & Ec & _).
  assert (inv s2 Q2 F) as HI2 by (unfold inv; rewrite Ec, Hc1; exact HG2).
  destruct (relinked_lookup_r _ _ _ _ Hrl Ht1) as (t2 & Ht2 & _).
  eapply (HR _ t2); [|by cbn; congruence|exact Ht2|].
  { split; [by exists Q2, F|by eapply quiet_trans]. }
  pose proof (g_base _ _ _ _ HG2) as HB2. intros Heq.
  pose proof (proj1 (rd_not_queued _ _ (g_ready _ _ _ _ HB2) _ _ Ht2) (proj2 (Z.eqb_eq _ _) Heq)) as Hno.
  destruct HQ2 as [(Hnq & -> & ->)|(_ & ->)].
  - simplify_eq.
  - apply (Hno (Z.to_nat (Tcb.priority t))). apply elem_of_qadd. by left.
Qed.

Lemma set_id_at (ids : id_table) (c l : nat) v li :
  ids !! c = Some li → set_id c l v ids !! c = Some (<[l := v]> li).
Proof. intros Hc. unfold set_id. by rewrite list_lookup_alter_eq, Hc. Qed.

(** A created thread is what its handle resolves to. *)
Lemma created_resolves (ids : id_table) D c st F' G' i tid t st' :
  ids !! core (sch st) = Some (idents (sch st)) → created ids D c st F' G' i tid t st' →
  resolve_in st' tid = Some i.
Proof.
  intros Hid [Hg Hi Hd Ht Hl [Hc _ _]]. destruct st' as [s' g'], tid as [k gen].
  cbn [sch glo ThreadId.slot ThreadId.gen] in *.
  rewrite <-(Nat2Z.id k). eapply resolve_held; [exact Hd| |].
  - rewrite Hc, (set_id_at _ _ _ _ _ Hid), Hi. done.
  - rewrite Hi. by apply list_lookup_insert_eq.
Qed.

(** Creating and admitting a thread at once. *)
Lemma wp_spawn_admit (ids : id_table) D st Q F G sp prio base len (R : option ThreadId.t → St → Prop) :
  inv (sch st) Q F → dir_inv ids (glo st) G D None →
  ids !! core (sch st) = Some (idents (sch st)) → 0 <= prio < Z.of_nat NPRIO →
  (∀ s', inv s' Q F → idents s' = idents (sch st) → steady (sch st) s' →
     R None (mkSt s' (glo st))) →
  (∀ i k gen F' G' t st', F = i :: F' → G = k :: G' → Inv st' →
     created ids D (current (sch st)) st F' G' i (ThreadId.mk k gen) t st' →
     Tcb.queued t ≠ NOT_QUEUED → R (Some (ThreadId.mk k gen)) st') →
  wp (ot ← (ot ← alloc_tcb sp prio;
            match ot with
            | None => mret None
            | Some t =>
                upd_tcb t (Tcb.with_stack_base base) ≫= λ _,
                upd_tcb t (Tcb.with_stack_len len) ≫= λ _,
                i ← id t; mret (Some i)
            end);
      match ot with
      | None => mret None
      | Some t => admit_ t ≫= λ _, mret (Some t)
      end) st R.
Proof.
  intros HI HD Hid Hp HN HS. apply wp_bind. eapply wp_spawn_tail; [exact HI|exact HD|exact Hid|done| |].
  { intros s' H1 H2 H3. apply wp_ret. apply HN; [|done|done]. unfold inv. by rewrite (sd_current _ _ H3). }
  intros i k gen F' G' st1 EF EG HG1 Hcr. pose proof Hcr as [Hg Hi Hd Ht Hl Hst].
  assert (current (sch st) ≠ Some i) as Hni.
  { assert (i ∈ F) as Hin by (rewrite EF; set_solver). apply (g_F _ _ _ _ (g_base _ _ _ _ HI)) in Hin.
    destruct Hin as (t0 & Ht0 & Hu0). exact (unused_not_current _ _ _ _ _ _ HI Ht0 Hu0). }
  apply wp_bind. eapply wp_admit; [|by eapply created_resolves|exact Ht|done| |].
  { exists Q, F'. unfold inv. by rewrite (sd_current _ _ Hst). }
  { by rewrite (sd_current _ _ Hst). }
  intros st2 t2 [HI2 Hq2] Hc2 Ht2 Hn2. apply wp_ret. eapply (HS i k gen F' G' t2); [done|done|exact HI2| |done].
  pose proof (q_idents _ _ Hq2) as Ei. pose proof (q_glo _ _ Hq2) as Eg.
  split; rewrite ?Ei, ?Eg; try done. eapply steady_trans; [exact Hst|]. by apply (quiet_steady st1 st2).
Qed.

(** [init_core] makes the first thread of the core its running thread. *)
Lemma wp_init_core (ids : id_table) D core_ st Q F G prio (R : option ThreadId.t → St → Prop) :
  inv (sch st) Q F → current (sch st) = None → dir_inv ids (glo st) G D None →
  ids !! core (sch st) = Some (idents (sch st)) → 0 <= prio < Z.of_nat NPRIO →
  (∀ s', inv s' Q F → idents s' = idents (sch st) → steady (sch st) s' → R None (mkSt s' (glo st))) →
  (∀ i k gen F' G' t st', F = i :: F' → G = k :: G' → inv (sch st') Q F' →
     current (sch st') = Some i → 0 <= gen < 2 ^ 31 →
     idents (sch st') = <[i := Some (Z.of_nat k, gen)]> (idents (sch st)) →
     dir_inv (set_id (core (sch st)) i (Some (Z.of_nat k, gen)) ids) (glo st') G' D None →
     tcbs (sch st') !! i = Some t → core (sch st') = core (sch st) → same_ring (sch st) (sch st') →
     R (Some (ThreadId.mk k gen)) st') →
  wp (init_core core_ prio) st R.
Proof.
  intros HI Hcur HD Hid Hp HN HS. unfold init_core. apply wp_bind.
  eapply wp_alloc_tcb; [exact HI|exact HD|exact Hid|done| |].
  { intros s' H1 H2 H3. apply wp_ret. apply HN; [|done|done]. unfold inv. by rewrite (sd_current _ _ H3). }
  intros i k gen F' G' st1 EF EG Hgen HG1 HD1 Hid1 Ht1 [Hc1 Hu1 Hr1].
  assert (Z.of_nat k < 2 ^ 32) as Hk.
  { assert (k ∈ G) as Hin by (rewrite EG; set_solver).
    pose proof (FreeList.rep_small _ _ _ (di_free _ _ _ _ _ HD) Hin). lia. }
  apply wp_bind, wp_upd. apply wp_bind, wp_upd_glo. apply wp_bind. unfold id.
  apply wp_bind. eapply wp_tcb; [exact Ht1|]. apply wp_ret, wp_ret.
  cbn [Tcb.gid Tcb.gen new_tcb sch glo with_sch with_glo]. rewrite (as_u32_small _ Hk), Nat2Z.id.
  eapply (HS i k gen F' G'); [done|done| |done|done| | |exact Ht1|done|done]; cbn [sch glo with_sch with_glo].
  - rewrite Hcur in HG1. eapply inv_run; [exact HG1|exact Ht1|done|done|].
    intros p Hin. assert (i ∈ F) as HiF by (rewrite EF; set_solver).
    apply (g_F _ _ _ _ (g_base _ _ _ _ HI)) in HiF as (t0 & Ht0 & Hu0).
    by eapply (unused_not_queued _ _ _ _ _ _ HI Ht0 Hu0).
  - exact Hid1.
  - destruct HD1. by split.
Qed.
