(* ===== verification/SchedEnd.v ===== *)
(** * Ending threads

    [record_zombie], [exit_current], [kill] and [reap] of
    [crates/caprock-sched/src/lib.rs]: a dead thread leaves the table, its
    directory entry changes generation, nobody stays on its account, and its
    stack goes to the reaper through the zombie ring.  *)

From S2P Require Import Prelude PanicMonad Dll Slab Redirect SchedData Sched SchedReady SchedInv.
From S2P Require Import SchedWake SchedRun SchedTick SchedOps SchedDir SchedLife.
Import Scheduler.
#[local] Open Scope Z_scope.

Implicit Types (Q : queue_map) (F G : list nat) (c X : option nat) (D : nat → list nat).

(** ** Nobody stays on the account of a dead thread *)

(** The queues of [Q'] hold those of [Q], but for thread [i]. *)
Definition grows (i : nat) Q Q' : Prop := ∀ p j, j ∈ Q p → j ≠ i → j ∈ Q' p.

(** What the loop of [record_zombie] keeps. *)
Record released c (local : nat) st Q F (s' : t) Q' : Prop := {
  rz_good : good s' c Q' F;
  rz_quiet : quiet st (mkSt s' (glo st));
  rz_current : current s' = current (sch st);
  rz_grows : grows local Q Q';
  rz_local : unlinked <$> tcbs s' !! local = unlinked <$> tcbs (sch st) !! local;
  rz_donor : ∀ j t', tcbs s' !! j = Some t' → Tcb.sc_donor t' = None ∨
    ∃ t, tcbs (sch st) !! j = Some t ∧ Tcb.sc_donor t' = Tcb.sc_donor t }.

Lemma released_refl c local st Q F : good (sch st) c Q F → released c local st Q F (sch st) Q.
Proof.
  intros HG. split; [exact HG|destruct st; apply quiet_refl|done|by intros p j ? _|done|]. intros j t' Ht'. right. by exists t'.
Qed.

Lemma released_trans c local st s1 Q Q1 F s2 Q2 :
  released c local st Q F s1 Q1 → released c local (mkSt s1 (glo st)) Q1 F s2 Q2 →
  released c local st Q F s2 Q2.
Proof.
  intros [] []. cbn [sch glo] in *. split; [done|by eapply quiet_trans|congruence| |congruence|].
  - intros p j Hj Hne. eauto.
  - intros j t' Ht'. destruct (rz_donor1 j t' Ht') as [|(t1 & Ht1 & E)]; [by left|].
    destruct (rz_donor0 j t1 Ht1) as [|(t & Ht & E')]; [left; congruence|right].
    exists t. split; [done|congruence].
Qed.

Lemma wp_release_donee c st Q F local d t (R : unit → St → Prop) :
  good (sch st) c Q F → c = None ∨ c = current (sch st) → tcbs (sch st) !! d = Some t →
  d ≠ local → Tcb.used t = true →
  (∀ s' Q', released c local st Q F s' Q' →
     (∀ t', tcbs s' !! d = Some t' → Tcb.sc_donor t' = None) → R tt (mkSt s' (glo st))) →
  wp (upd_tcb d (Tcb.with_sc_donor None) ≫= λ _,
      t ← tcb d;
      if BlockReasons.has (Tcb.reasons t) BlockReasons.BUDGET then
        set_budget_blocked d false ≫= λ _, wecke_falls_lauffaehig d
      else mret tt) st R.
Proof.
  intros HG Hcc Ht Hd Hu HR. apply wp_bind. eapply wp_plain_c; [exact HG|exact Ht|by plain_upd|].
  intros s1 HG1 Hq1 Ht1 Hc1 Et1. apply wp_bind. eapply wp_tcb; [exact Ht1|].
  assert (released c local st Q F s1 Q) as H1.
  { split; [done|done|done|by intros p j ? _| |].
    - rewrite Et1, list_lookup_alter_ne; done.
    - intros j t'. rewrite Et1. intros [(<- & y & Hy & ->)|(Hne & Hj)]%lookup_alter_inv; [by left|].
      right. by exists t'. }
  destruct (BlockReasons.has _ _) eqn:Hb.
  2:{ apply wp_ret. eapply HR; [exact H1|]. intros t' Ht'. simplify_eq. done. }
  apply wp_bind. eapply (wp_set_budget_blocked c (mkSt s1 (glo st))); [exact HG1|exact Ht1|done|done|].
  intros s2 t2 HG2 Hq2 Ht2 Hc2 Hk2 Hdo2 _ Ho2. cbn [sch glo] in *.
  assert (Tcb.used t2 = true) as Hu2 by (destruct Hk2; etransitivity; [exact k_used|exact Hu]).
  eapply (wp_wecke_good c (mkSt s2 (glo st))); [exact HG2| |exact Ht2|exact Hu2|].
  { cbn [sch]. rewrite Hc2, Hc1. exact Hcc. }
  intros s3 Q3 HG3 Hrl Hq3 EQ3. cbn [sch glo] in *.
  pose proof (relinked_fields _ _ Hrl) as (_ & _ & Hc3 & _).
  assert (∀ j t3, tcbs s3 !! j = Some t3 → ∃ t1, tcbs s1 !! j = Some t1 ∧
            Tcb.sc_donor t3 = Tcb.sc_donor t1) as Hdon.
  { intros j t3 Ht3. destruct (relinked_lookup _ _ _ _ Hrl Ht3) as (tj & Htj & E%unlinked_fields).
    assert (Tcb.sc_donor t3 = Tcb.sc_donor tj) as E' by intuition. rewrite E'.
    destruct (decide (j = d)) as [->|Hne]; [simplify_eq; by eexists|].
    rewrite Ho2 in Htj by done. by eexists. }
  eapply HR; [eapply released_trans; [exact H1|]|].
  - split; cbn [sch glo]; try done.
    + by eapply quiet_trans.
    + congruence.
    + intros p j Hj _. rewrite EQ3. case_match; [apply elem_of_qadd; by right|done].
    + pose proof (rl_tcbs _ _ Hrl) as E. apply (f_equal (.!! local)) in E.
      rewrite !list_lookup_fmap in E. rewrite E, Ho2; done.
    + intros j t' (tj & ? & ?)%Hdon. right. by exists tj.
  - intros t' (tj & Htj & ->)%Hdon. simplify_eq. done.
Qed.

(** The loop: afterwards no living thread has [local] as its account. *)
Lemma wp_release_donees c st Q F local (R : unit → St → Prop) :
  good (sch st) c Q F → c = None ∨ c = current (sch st) →
  (∀ s' Q', released c local st Q F s' Q' →
     (∀ j t', tcbs s' !! j = Some t' → j ≠ local → Tcb.used t' = true →
        Tcb.sc_donor t' ≠ Some local) → R tt (mkSt s' (glo st))) →
  wp (for_ (seq 0 (length (tcbs (sch st)))) (λ d,
        t ← tcb d;
        if bool_decide (d ≠ local) && Tcb.used t && bool_decide (Tcb.sc_donor t = Some local) then
          upd_tcb d (Tcb.with_sc_donor None) ≫= λ _,
          t ← tcb d;
          if BlockReasons.has (Tcb.reasons t) BlockReasons.BUDGET then
            set_budget_blocked d false ≫= λ _, wecke_falls_lauffaehig d
          else mret tt
        else mret tt)) st R.
Proof.
  intros HG Hcc HR. unfold for_.
  set (n := length (tcbs (sch st))).
  eapply wp_mono.
  - apply (wp_fold_m (λ l (_ : unit) st', ∃ Q', glo st' = glo st ∧ released c local st Q F (sch st') Q' ∧
      (∀ j t', tcbs (sch st') !! j = Some t' → j ∉ l → j ≠ local → Tcb.used t' = true →
         Tcb.sc_donor t' ≠ Some local))).
    { exists Q. split; [done|]. split; [by apply released_refl|].
      intros j t' Ht' Hj. destruct Hj. apply elem_of_seq. apply lookup_lt_Some in Ht'. lia. }
    intros d l [] st' Hd (Q' & Hg & Hrel & Hdone). apply elem_of_seq in Hd.
    pose proof Hrel as [HG' Hq' Hc' _ _ _].
    destruct (lookup_lt_is_Some_2 (tcbs (sch st')) d) as [t Ht].
    { pose proof (quiet_length _ _ Hq') as E. cbn [sch] in E. lia. }
    apply wp_bind. eapply wp_tcb; [exact Ht|].
    destruct (bool_decide (d ≠ local) && Tcb.used t && bool_decide (Tcb.sc_donor t = Some local)) eqn:E.
    + apply andb_prop in E as [[E1 E2]%andb_prop E3%bool_decide_eq_true].
      apply bool_decide_eq_true in E1.
      eapply wp_release_donee; [exact HG'| |exact Ht|done|done|].
      { rewrite Hc'. exact Hcc. }
      intros s'' Q'' Hrel' Hd''. exists Q''. cbn [sch glo]. split; [done|].
      assert (released c local st Q F s'' Q'') as Hr2.
      { eapply released_trans; [exact Hrel|]. destruct st' as [s' g']. cbn [sch glo] in *. by subst g'. }
      split; [done|]. intros j t' Ht' Hj Hjl Hju.
      destruct (decide (j = d)) as [->|Hne]; [by rewrite (Hd'' _ Ht')|].
      destruct (rz_donor _ _ _ _ _ _ _ Hrel' j t' Ht') as [->|(t1 & Ht1 & Edo)]; [done|].
      rewrite Edo. apply (Hdone j t1 Ht1); [set_solver|done|].
      pose proof (q_idents _ _ (rz_quiet _ _ _ _ _ _ _ Hrel')) as Ei. cbn [sch] in Ei.
      apply (f_equal (.!! j)) in Ei. rewrite (idents_lookup _ _ _ Ht'), (idents_lookup _ _ _ Ht1) in Ei.
      apply (inj Some), ident_used in Ei. congruence.
    + apply wp_ret. exists Q'. split; [done|]. split; [done|]. intros j t' Ht' Hj Hjl Hju Edo.
      destruct (decide (j = d)) as [->|Hne]; [|by eapply (Hdone j t'); [|set_solver|..]].
      simplify_eq. rewrite !bool_decide_eq_true_2, Hju in E by done. done.
  - intros [] [s' g'] (Q' & Hg & Hrel & Hdone). cbn [sch glo] in *. subst g'. eapply HR; [done|].
    intros j t' Ht'. apply Hdone; [done|set_solver].
Qed.

(** ** [record_zombie] *)

Lemma wp_upd_field (b : bool) (get : t → Z) (set : Z → t → t) (h : Z → Z) st (R : unit → St → Prop) :
  (∀ s, set (get s) s = s) →
  R tt (with_sch (set (if b then h (get (sch st)) else get (sch st)) (sch st)) st) →
  wp (if b then upd (λ s, set (h (get s)) s) else mret tt) st R.
Proof.
  intros Hs HR. destruct b; [by apply wp_upd|]. apply wp_ret. rewrite Hs in HR. by destruct st.
Qed.

(** The statistics of zombies leave everything the invariants speak of alone. *)
Definition same_dir (g g' : Globals.t) : Prop :=
  Globals.directory g' = Globals.directory g ∧ Globals.gid_free g' = Globals.gid_free g ∧
  Globals.core_load g' = Globals.core_load g.

Section end_.
Context `{Hal}.

Lemma wp_zombie_stats base len st (R : unit → St → Prop) :
  (∀ g', same_dir (glo st) g' → R tt (with_glo g' st)) →
  wp (if negb (len =? 0) then
        upd_glo (λ g, Globals.with_zombie_gesamt (wrapping_add 64 (Globals.zombie_gesamt g) 1) g) ≫= λ _,
        if (base <=? stapeladresse) && (stapeladresse <? wrapping_add 64 base len)
        then upd_glo (λ g, Globals.with_zombie_unter_fuessen
                             (wrapping_add 64 (Globals.zombie_unter_fuessen g) 1) g)
        else mret tt
      else mret tt) st R.
Proof.
  intros HR. destruct (negb _).
  - apply wp_bind, wp_upd_glo. destruct (_ && _); [apply wp_upd_glo|apply wp_ret]; by apply HR.
  - apply wp_ret. destruct st as [s g]. by apply (HR g).
Qed.

(** The ring takes the zombie, or is full. *)
Definition zombie_ring (s : t) (lz : list Zombie.t) : Prop :=
  ring (zombies s) (zhead s) (ztail s) (zcount s) lz.

Lemma wp_zombie_push base len gid st lz (R : unit → St → Prop) :
  zombie_ring (sch st) lz →
  (∀ buf tl n lz', (lz' = lz ∨ lz' = lz ++ [Zombie.mk base len gid]) →
     zombie_ring (with_zcount n (with_ztail tl (with_zombies buf (sch st)))) lz' →
     R tt (with_sch (with_zcount n (with_ztail tl (with_zombies buf (sch st)))) st)) →
  wp (s ← self (λ s, s);
      if decide (zcount s < length (zombies s))%nat then
        _ ← expect (zombies s !! ztail s);
        upd (λ s, with_zcount (zcount s + 1)%nat
                    (with_ztail ((ztail s + 1) mod length (zombies s))%nat
                       (with_zombies (<[ztail s := Zombie.mk base len gid]> (zombies s)) s)))
      else mret tt) st R.
Proof.
  intros Hr HR. apply wp_bind, wp_self. case_decide as Hlt.
  - destruct (ring_push _ _ _ _ _ (Zombie.mk base len gid) Hr Hlt) as [Hb Hr'].
    destruct (lookup_lt_is_Some_2 _ _ Hb) as [z Hz].
    apply wp_bind. eapply wp_expect; [exact Hz|]. apply wp_upd. eapply HR; [by right|]. exact Hr'.
  - apply wp_ret. specialize (HR (zombies (sch st)) (ztail (sch st)) (zcount (sch st)) lz).
    destruct st as [[] g]. apply HR; [by left|exact Hr].
Qed.

(** The dead threads of a ring. *)
Definition dead (lz : list Zombie.t) : list nat := (λ z, Z.to_nat (Zombie.gid z)) <$> lz.

(** The state after thread [i] with identity [gid], [gen] ended. *)
Record ended (ids : id_table) D c st Q F G lz (i : nat) (gid gen : Z) Q' D' lz' (st' : St) : Prop := {
  en_good : good (sch st') c Q' (i :: F);
  en_grows : grows i Q Q';
  en_gone : tcbs (sch st') !! i = Some Tcb.EMPTY;
  en_idents : idents (sch st') = <[i := None]> (idents (sch st));
  en_core : core (sch st') = core (sch st);
  en_current : current (sch st') = current (sch st);
  en_dir : dir_inv (set_id (core (sch st)) i None ids) (glo st') G D' None;
  en_entry : Globals.directory (glo st') !! Z.to_nat gid =
               Some (pack_dir false (Z.land (wrapping_add 32 gen 1) D_GEN_MASK) 0 0);
  en_ring : zombie_ring (sch st') lz';
  en_D : D' (core (sch st)) = dead lz';
  en_others : ∀ h, h ≠ core (sch st) → D' h = D h;
  en_lz : lz' = lz ∨ ∃ base len, lz' = lz ++ [Zombie.mk base len gid];
  en_donors : ∀ j t, tcbs (sch st') !! j = Some t → Tcb.used t = true → Tcb.sc_donor t ≠ Some i }.

Lemma wp_record_zombie (ids : id_table) D c st Q F G lz i t (R : unit → St → Prop) :
  good (sch st) c Q F → c = None ∨ c = current (sch st) → c ≠ Some i →
  tcbs (sch st) !! i = Some t → Tcb.used t = true →
  dir_inv ids (glo st) G D None → ids !! core (sch st) = Some (idents (sch st)) →
  zombie_ring (sch st) lz → D (core (sch st)) = dead lz →
  (∀ Q' D' lz' st', ended ids D c st Q F G lz i (Tcb.gid t) (Tcb.gen t) Q' D' lz' st' → R tt st') →
  wp (record_zombie i) st R.
Proof.
  intros HG Hcc Hci Ht Hu HD Hid Hring HDc HR. unfold record_zombie.
  assert (idents (sch st) !! i = Some (Some (Tcb.gid t, Tcb.gen t))) as Hidt.
  { rewrite (idents_lookup _ _ _ Ht). unfold ident. by rewrite Hu. }
  assert (holds ids (core (sch st)) i (Tcb.gid t) (Tcb.gen t)) as Hh by by exists (idents (sch st)).
  apply wp_bind, wp_self. apply wp_bind. eapply wp_release_donees; [exact HG|exact Hcc|].
  intros s1 Q1 [HG1 Hq1 Hc1 Hgr1 Hl1 _] Hdon1.
  assert (∀ st', quiet st st' → ∃ t', tcbs (sch st') !! i = Some t' ∧ Tcb.used t' = true ∧
            Tcb.gid t' = Tcb.gid t ∧ Tcb.gen t' = Tcb.gen t) as Hat.
  { intros st' Hq. pose proof (q_idents _ _ Hq) as E. apply (f_equal (.!! i)) in E.
    rewrite Hidt in E. unfold idents in E. apply list_lookup_fmap_Some in E as (t' & E & Ht').
    exists t'. unfold ident in E. destruct (Tcb.used t'); by simplify_eq. }
  destruct (Hat _ Hq1) as (t1 & Ht1 & Hu1 & _). cbn [sch] in Ht1.
  apply wp_bind. eapply wp_tcb; [exact Ht1|].
  apply wp_bind. eapply (wp_mono _ _ (λ _ st', ∃ s2, st' = mkSt s2 (glo st) ∧ good s2 c Q1 F ∧
    quiet st (mkSt s2 (glo st)) ∧ current s2 = current (sch st) ∧
    ∀ j t', tcbs s2 !! j = Some t' → ∃ t0, tcbs s1 !! j = Some t0 ∧ Tcb.used t' = Tcb.used t0 ∧
      Tcb.sc_donor t' = Tcb.sc_donor t0)).
  { destruct (Tcb.sc_donor t1) as [a|] eqn:Ea.
    - assert (a < length (tcbs s1))%nat as Hlt.
      { by apply (ok_donor _ _ (g_tcb _ _ _ _ (g_base _ _ _ _ HG1) i t1 Ht1)). }
      apply lookup_lt_is_Some_2 in Hlt as [ta Hta]. apply wp_bind. eapply wp_tcb; [exact Hta|].
      case_decide; [|apply wp_ret; exists s1; split_and!; try done; intros j t' Hj; by exists t'].
      eapply wp_plain_c; [exact HG1|exact Hta|by plain_upd|]. intros s2 HG2 Hq2 _ Hc2 E2.
      exists s2. split_and!; [done|done|by eapply quiet_trans|cbn in *; congruence|].
      intros j t'. rewrite E2. intros [(<- & y & Hy & ->)|(? & Hj)]%lookup_alter_inv; [by exists y|by exists t'].
    - apply wp_ret. exists s1. split_and!; try done. intros j t' Hj. by exists t'. }
  intros [] st2 (s2 & -> & HG2 & Hq2 & Hc2 & Hdo2).
  destruct (Hat _ Hq2) as (t2 & Ht2 & _). cbn [sch] in Ht2.
  apply wp_bind. eapply remove_from_ready_spec; [apply HG2|exact Ht2|]. intros s3 HR3 Hrl.
  assert (good s3 c (qdel i Q1) F) as HG3.
  { eapply good_relink; [exact HG2|done|exact Hrl|]. intros p j [_ Hj]%elem_of_qdel. by apply HG2. }
  pose proof (quiet_trans _ _ _ Hq2 (relinked_quiet _ _ (glo st) Hrl)) as Hq3.
  pose proof (relinked_fields _ _ Hrl) as (_ & _ & Hc3 & _).
  destruct (Hat _ Hq3) as (t3 & Ht3 & Hu3 & Eg3 & Ee3). cbn [sch glo] in *.
  apply wp_bind. eapply wp_tcb; [exact Ht3|]. apply wp_bind, wp_upd_glo. cbn [sch glo with_glo].
  apply wp_bind, (wp_upd_field _ depleted_count with_depleted_count (λ z, wrapping_sub 64 z 1)); [by intros []|].
  apply wp_bind, (wp_upd_field _ budget_blocked_count with_budget_blocked_count (λ z, wrapping_sub 64 z 1)); [by intros []|].
  cbn [sch glo with_glo with_sch].
  apply wp_bind. eapply wp_upd_tcb; [exact Ht3|].
  apply wp_bind, wp_on_free, wp_modify. apply wp_bind, wp_upd. cbn [sch glo with_glo with_sch].
  pose proof (g_base _ _ _ _ HG3) as HB3. pose proof (q_core _ _ Hq3) as Eco3. cbn [sch] in Eco3.
  apply wp_bind, wp_store_load; [cbn; rewrite Eco3; apply HG|apply HD|].
  apply wp_bind, wp_zombie_stats. intros g' (Ed & Ef & El). cbn [sch glo with_glo with_sch] in *.
  eapply wp_zombie_push.
  { unfold zombie_ring. cbn. destruct (q_ring _ _ Hq3) as (E1 & E2 & E3 & E4). cbn [sch] in *.
    rewrite E1, E2, E3, E4. exact Hring. }
  intros buf tl n lz' Hlz Hring'.
  assert (∃ D', (D' = D ∨ D' = λ h', if decide (h' = core (sch st))
                       then D (core (sch st)) ++ [Z.to_nat (Tcb.gid t)] else D h') ∧
            D' (core (sch st)) = dead lz' ∧ ∀ h, h ≠ core (sch st) → D' h = D h)
    as (D' & HD'1 & HD'2 & HD'3).
  { destruct Hlz as [->| ->]; [exists D; split_and!; [by left|done|done]|].
    eexists. split_and!; [right; reflexivity| |]; cbv beta.
    - rewrite decide_True by done. unfold dead. rewrite fmap_app, HDc. simpl. by rewrite Eg3.
    - intros h Hne. by rewrite decide_False. }
  apply (HR (qdel i Q1) D' lz').
  assert (1 <= used s3 <= 2 ^ 16) as Hus.
  { rewrite (g_used _ _ _ _ HB3). pose proof (count_if_length Tcb.used (tcbs s3)).
    pose proof (rd_cap _ _ (g_ready _ _ _ _ HB3)).
    assert (0 < count_if Tcb.used (tcbs s3))%nat by (apply count_if_pos; eauto). lia. }
  assert (∀ p, i ∉ qdel i Q1 p) as Hni by (intros p [Hx _]%elem_of_qdel; done).
  assert (i ∉ F) as HiF.
  { intros Hin. apply (g_F _ _ _ _ HB3) in Hin as (t4 & Ht4 & Hu4). congruence. }
  split; cbn [sch glo with_glo with_sch].
  - eapply (good_overwrite s3 _ c (qdel i Q1) F (i :: F) i t3 Tcb.EMPTY HG3 Ht3); try done.
    + split; cbn; [done|unfold NPRIO; lia|done|set_solver].
    + cbn. apply FreeList.free_rep; [apply HB3| |done]. rewrite (g_free_cap _ _ _ _ HB3).
      by eapply lookup_lt_Some.
    + cbn. apply FreeList.free_length.
    + intros j. rewrite elem_of_cons. cbn. destruct (decide (j = i)); naive_solver.
    + rewrite Hu3. cbn. rewrite wrapping_sub_exact by (unfold in_width; lia). lia.
    + cbn [budget_blocked_count with_zcount with_ztail with_zombies with_used with_free with_tcbs
           with_budget_blocked_count with_depleted_count].
      change (budget_blocked Tcb.EMPTY) with false. fold (budget_blocked t3).
      destruct (budget_blocked t3) eqn:Eb; [|lia].
      pose proof (budget_count_pos _ _ _ _ _ _ HG3 Ht3 Eb). pose proof (budget_count_small _ _ _ _ HG3).
      rewrite wrapping_sub_exact by (unfold in_width; lia). lia.
  - intros p j Hj Hne. apply elem_of_qdel. auto.
  - cbn. by rewrite list_lookup_alter_eq, Ht3.
  - unfold idents at 1. cbn. rewrite idents_overwrite. f_equal. exact (q_idents _ _ Hq3).
  - exact Eco3.
  - cbn. congruence.
  - eapply (dir_destroy ids (glo st) G D (core (sch st)) i (Tcb.gid t) (Tcb.gen t)
              (Z.land (wrapping_add 32 (Tcb.gen t) 1) D_GEN_MASK) D' (core (sch st)) HD Hh).
    + exact HD'1.
    + rewrite Ed. cbn. rewrite Eg3, Ee3. done.
    + rewrite Ef. done.
    + rewrite El. cbn. by rewrite length_insert.
  - rewrite Ed. cbn. rewrite Eg3, Ee3, list_lookup_alter_eq.
    pose proof (di_fwd _ _ _ _ _ HD _ _ _ _ Hh) as (_ & _ & _ & ->). done.
  - exact Hring'.
  - exact HD'2.
  - exact HD'3.
  - destruct Hlz as [->| ->]; [by left|right]. rewrite Eg3. by do 2 eexists.
  - cbn. intros j t'. rewrite lookup_alter_if. destruct (decide (i = j)) as [<-|Hne].
    + rewrite Ht3. simpl. by intros [= <-].
    + destruct (tcbs s3 !! j) as [tj|] eqn:Hj; [|done]. simpl. intros [= <-] Huj.
      destruct (relinked_lookup _ _ _ _ Hrl Hj) as (t4 & Ht4 & E%unlinked_fields).
      destruct (Hdo2 _ _ Ht4) as (t5 & Ht5 & Eu5 & Ed5).
      assert (Tcb.sc_donor tj = Tcb.sc_donor t4) as -> by intuition. rewrite Ed5.
      apply (Hdon1 j t5 Ht5); [done|]. destruct E as (E & _). congruence.
Qed.

(** ** [exit_current] and [kill] *)

(** The running thread ends; the first thread of the highest priority runs. *)
Lemma wp_exit_current (ids : id_table) D core_ frame st Q F G lz cur t (R : Z → St → Prop) :
  inv (sch st) Q F → current (sch st) = Some cur → tcbs (sch st) !! cur = Some t →
  (∃ p, Q p ≠ []) →
  dir_inv ids (glo st) G D None → ids !! core (sch st) = Some (idents (sch st)) →
  zombie_ring (sch st) lz → D (core (sch st)) = dead lz →
  (∀ Q' D' lz' st1 st' p i ti, ended ids D None st Q F G lz cur (Tcb.gid t) (Tcb.gen t) Q' D' lz' st1 →
     next_thread Q' p i → tcbs (sch st1) !! i = Some ti → inv (sch st') (qdel i Q') (cur :: F) →
     current (sch st') = Some i → quiet st1 st' → R (Tcb.sp ti) st') →
  wp (exit_current core_ frame) st R.
Proof.
  intros HI Hc Ht [p0 Hne] HD Hid Hring HDc HR. unfold exit_current. apply wp_bind, wp_self. rewrite Hc.
  apply wp_bind. eapply wp_expect; [done|].
  assert (Tcb.used t = true) as Hu.
  { destruct (g_cur _ _ _ _ (g_base _ _ _ _ HI) cur Hc) as (t0 & ? & ? & _). by simplify_eq. }
  apply wp_bind.
  eapply wp_record_zombie; [by eapply good_drop|by left|done|exact Ht|done|exact HD|done|exact Hring|exact HDc|].
  intros Q' D' lz' st1 He. eapply wp_run_next; [apply He| |].
  - exists p0. destruct (Q p0) as [|x l] eqn:Ep; [done|].
    assert (x ∈ Q p0) as Hx by (rewrite Ep; set_solver).
    assert (x ≠ cur) as Hxc by (intros ->; by eapply inv_current_not_queued).
    pose proof (en_grows _ _ _ _ _ _ _ _ _ _ _ _ _ _ _ He p0 x Hx Hxc) as Hin. intros E.
    rewrite E in Hin. by apply not_elem_of_nil in Hin.
  - intros p i ti s' Hn Hti HI' Hc' _ Hq. by eapply HR.
Qed.

(** Another thread is killed: it resolves, and is not the running one. *)
Lemma wp_kill (ids : id_table) D core_ tid st Q F G lz (R : bool → St → Prop) :
  inv (sch st) Q F → dir_inv ids (glo st) G D None → ids !! core (sch st) = Some (idents (sch st)) →
  zombie_ring (sch st) lz → D (core (sch st)) = dead lz →
  (resolve_in st tid = None ∨ resolve_in st tid = current (sch st) → R false st) →
  (∀ i t st1 Q1 Q' D' lz' st', resolve_in st tid = Some i → current (sch st) ≠ Some i →
     tcbs (sch st) !! i = Some t → quiet st st1 → current (sch st1) = current (sch st) →
     ended ids D (current (sch st)) st1 Q1 F G lz i (Tcb.gid t) (Tcb.gen t) Q' D' lz' st' →
     R true st') →
  wp (kill tid core_) st R.
Proof.
  intros HI HD Hid Hring HDc HN HS. unfold kill. eapply wp_on_thread; [by auto|].
  intros i t Hr Ht Hu. apply wp_bind, wp_self. case_decide as Hc; [by apply wp_ret, HN; right; congruence|].
  apply wp_bind. eapply remove_from_ready_spec; [apply HI|exact Ht|]. intros s1 HR1 Hrl.
  assert (good s1 (current (sch st)) (qdel i Q) F) as HG1.
  { eapply good_relink; [exact HI|done|exact Hrl|]. intros p j [_ Hj]%elem_of_qdel. by apply HI. }
  pose proof (relinked_quiet _ _ (glo st) Hrl) as Hq.
  pose proof (relinked_fields _ _ Hrl) as (_ & _ & Hc1 & _).
  destruct (relinked_lookup_r _ _ _ _ Hrl Ht) as (t1 & Ht1 & E%unlinked_fields).
  destruct E as (Eu & Eg & Ee & _).
  assert (quiet st (mkSt s1 (glo st))) as Hq' by by destruct st.
  destruct (q_ring _ _ Hq') as (E1 & E2 & E3 & E4). pose proof (q_core _ _ Hq') as Eco.
  pose proof (q_idents _ _ Hq') as Ei. cbn [sch] in *.
  apply wp_bind. eapply (wp_record_zombie ids D (current (sch st)) (mkSt s1 (glo st)));
    [exact HG1|right; by cbn|done|exact Ht1|congruence|exact HD|cbn; congruence| | |].
  - unfold zombie_ring. cbn. rewrite E1, E2, E3, E4. exact Hring.
  - cbn. by rewrite Eco.
  - intros Q' D' lz' st' He. apply wp_ret. rewrite Eg, Ee in He. by eapply HS.
Qed.
End end_.

(** ** [reap] *)

Lemma wp_reap st lz (R : option (Z * Z * Z) → St → Prop) :
  zombie_ring (sch st) lz →
  (lz = [] → R None st) →
  (∀ z rest h n, lz = z :: rest →
     let st' := with_sch (with_zcount n (with_zhead h (sch st))) st in
     zombie_ring (sch st') rest → R (Some (Zombie.base z, Zombie.len z, Zombie.gid z)) st') →
  wp reap st R.
Proof.
  intros Hr HN HS. unfold reap. apply wp_bind, wp_self. case_decide as Hz.
  - apply wp_ret, HN. apply length_zero_iff_nil. rewrite <-(ring_count _ _ _ _ _ Hr). exact Hz.
  - destruct lz as [|z rest]; [by pose proof (ring_count _ _ _ _ _ Hr)|].
    destruct (ring_pop _ _ _ _ _ _ Hr) as [Hh Hr']. apply wp_bind. eapply wp_expect; [exact Hh|].
    apply wp_bind, wp_upd, wp_ret. eapply HS; [done|]. exact Hr'.
Qed.
