(* ===== verification/SchedMig.v ===== *)
(** * Migration

    [detach_for_migration] takes a thread that does not run out of its core,
    [attach_migrated] puts it into another one ([crates/caprock-sched/src/lib.rs]).
    The directory entry stays live in between, and names the new place after.  *)

From S2P Require Import Prelude PanicMonad Dll Slab Redirect SchedData Sched SchedReady SchedInv.
From S2P Require Import SchedWake SchedRun SchedTick SchedOps SchedDir SchedLife SchedEnd.
Import Scheduler.
#[local] Open Scope Z_scope.

Implicit Types (Q : queue_map) (F G : list nat) (c X : option nat) (D : nat → list nat).

(** What [detach_for_migration] refuses. *)
Definition may_leave (st : St) (i : nat) (t : Tcb.t) : Prop :=
  current (sch st) ≠ Some i ∧ Tcb.sc_donor t = None ∧ Tcb.sc_donee t = None ∧
  BlockReasons.has (Tcb.reasons t) BlockReasons.DEBUG = false ∧
  BlockReasons.has (Tcb.reasons t) BlockReasons.FREEZE = false.

#[export] Instance may_leave_dec st i t : Decision (may_leave st i t).
Proof. unfold may_leave. apply _. Defined.

(** A thread in migration: the TCB, unlinked, and whether it was ready. *)
Record migrant_of (t : Tcb.t) (m : Migrant.t) : Prop := {
  mg_tcb : Migrant.tcb m = unlinked t;
  mg_ready : Migrant.was_ready m = negb (Tcb.queued t =? NOT_QUEUED) }.

(** The state after thread [i] left. *)
Record departed (ids : id_table) D st Q F G (i : nat) (t : Tcb.t) (st' : St) : Prop := {
  dp_inv : inv (sch st') (qdel i Q) (i :: F);
  dp_idents : idents (sch st') = <[i := None]> (idents (sch st));
  dp_dir : dir_inv (set_id (core (sch st)) i None ids) (glo st') G D (Some (Z.to_nat (Tcb.gid t)));
  dp_directory : Globals.directory (glo st') = Globals.directory (glo st);
  dp_others : others_same i (sch st) (sch st');
  dp_steady : steady (sch st) (sch st') }.

Lemma wp_detach (ids : id_table) D tid st Q F G (R : option Migrant.t → St → Prop) :
  inv (sch st) Q F → dir_inv ids (glo st) G D None → ids !! core (sch st) = Some (idents (sch st)) →
  (resolve_in st tid = None → R None st) →
  (∀ i t, resolve_in st tid = Some i → tcbs (sch st) !! i = Some t → ¬ may_leave st i t → R None st) →
  (∀ i t m st', resolve_in st tid = Some i → tcbs (sch st) !! i = Some t → Tcb.used t = true →
     may_leave st i t → migrant_of t m → departed ids D st Q F G i t st' → R (Some m) st') →
  wp (detach_for_migration tid) st R.
Proof.
  intros HI HD Hid HN HX HS. unfold detach_for_migration. eapply wp_on_thread; [done|].
  intros i t Hr Ht Hu. apply wp_bind, wp_self.
  destruct (decide (current (sch st) = Some i)) as [Hc|Hc].
  { apply wp_ret. eapply HX; [done|done|]. by intros [? _]. }
  apply wp_bind. eapply wp_tcb; [exact Ht|].
  destruct (Tcb.sc_donor t) eqn:E1; [apply wp_ret; eapply HX; [done|exact Ht|]; intros (_ & ? & _); congruence|].
  destruct (Tcb.sc_donee t) eqn:E2; [apply wp_ret; eapply HX; [done|exact Ht|]; intros (_ & _ & ? & _); congruence|].
  cbn [bool_decide]. rewrite !bool_decide_eq_false_2 by (by intros [? ?]). cbn [orb].
  destruct (BlockReasons.has _ BlockReasons.DEBUG) eqn:E3;
    [apply wp_ret; eapply HX; [done|exact Ht|]; intros (_ & _ & _ & ? & _); congruence|].
  destruct (BlockReasons.has _ BlockReasons.FREEZE) eqn:E4;
    [apply wp_ret; eapply HX; [done|exact Ht|]; intros (_ & _ & _ & _ & ?); congruence|].
  apply wp_bind. eapply remove_from_ready_spec; [apply HI|exact Ht|]. intros s1 HR1 Hrl.
  assert (good s1 (current (sch st)) (qdel i Q) F) as HG1.
  { eapply good_relink; [exact HI|done|exact Hrl|]. intros p j [_ Hj]%elem_of_qdel. by apply HI. }
  pose proof (relinked_fields _ _ Hrl) as (Hco & _ & Hc1 & _).
  pose proof (relinked_quiet _ _ (glo st) Hrl) as Hq.
  destruct (relinked_lookup_r _ _ _ _ Hrl Ht) as (t1 & Ht1 & E).
  pose proof (unlinked_fields _ _ E) as (Eu & Eg & Ee & _).
  apply wp_bind. eapply wp_tcb; [exact Ht1|].
  pose proof (g_base _ _ _ _ HG1) as HB1.
  apply wp_bind, (wp_upd_field _ depleted_count with_depleted_count (λ z, wrapping_sub 64 z 1)); [by intros []|].
  apply wp_bind, (wp_upd_field _ budget_blocked_count with_budget_blocked_count (λ z, wrapping_sub 64 z 1)); [by intros []|].
  cbn [sch glo with_glo with_sch].
  apply wp_bind. eapply wp_upd_tcb; [exact Ht1|].
  apply wp_bind, wp_on_free, wp_modify. apply wp_bind, wp_upd. cbn [sch glo with_glo with_sch].
  apply wp_bind, wp_store_load; [cbn; rewrite Hco; apply HI|apply HD|].
  apply wp_bind, wp_upd, wp_ret. cbn [sch glo with_glo with_sch].
  assert (Tcb.used t1 = true) as Hu1 by congruence.
  assert (1 <= used s1 <= 2 ^ 16) as Hus.
  { rewrite (g_used _ _ _ _ HB1). pose proof (count_if_length Tcb.used (tcbs s1)).
    pose proof (rd_cap _ _ (g_ready _ _ _ _ HB1)).
    assert (0 < count_if Tcb.used (tcbs s1))%nat by (apply count_if_pos; eauto). lia. }
  assert (i ∉ F) as HiF.
  { intros Hin. apply (g_F _ _ _ _ HB1) in Hin as (t4 & Ht4 & Hu4). congruence. }
  eapply (HS i t); [done|exact Ht|done|done| |].
  { split; [|done]. simpl. rewrite <-E. by destruct t1. }
  assert (holds ids (core (sch st)) i (Tcb.gid t) (Tcb.gen t)) as Hh.
  { exists (idents (sch st)). split; [done|]. rewrite (idents_lookup _ _ _ Ht). unfold ident. by rewrite Hu. }
  split; cbn [sch glo with_glo with_sch].
  - unfold inv. cbn [current with_migrations_out with_used with_free with_tcbs with_budget_blocked_count with_depleted_count].
    rewrite Hc1.
    eapply (good_overwrite s1 _ (current (sch st)) (qdel i Q) F (i :: F) i t1 Tcb.EMPTY HG1 Ht1); try done.
    + by intros p [Hx _]%elem_of_qdel.
    + split; cbn; [done|unfold NPRIO; lia|done|set_solver].
    + cbn. apply FreeList.free_rep; [apply HB1| |done]. rewrite (g_free_cap _ _ _ _ HB1).
      by eapply lookup_lt_Some.
    + cbn. apply FreeList.free_length.
    + intros j. rewrite elem_of_cons. cbn. destruct (decide (j = i)); naive_solver.
    + rewrite Hu1. cbn. rewrite wrapping_sub_exact by (unfold in_width; lia). lia.
    + cbn [budget_blocked_count with_migrations_out with_used with_free with_tcbs
           with_budget_blocked_count with_depleted_count].
      change (budget_blocked Tcb.EMPTY) with false. fold (budget_blocked t1).
      destruct (budget_blocked t1) eqn:Eb; [|lia].
      pose proof (budget_count_pos _ _ _ _ _ _ HG1 Ht1 Eb). pose proof (budget_count_small _ _ _ _ HG1).
      rewrite wrapping_sub_exact by (unfold in_width; lia). lia.
  - unfold idents at 1. cbn. rewrite idents_overwrite. f_equal. exact (q_idents _ _ Hq).
  - eapply (dir_detach ids (glo st) G D); [exact HD|exact Hh|done|done|]. cbn. by rewrite length_insert.
  - done.
  - intros j Hj. cbn. rewrite list_lookup_alter_ne by done.
    pose proof (rl_tcbs _ _ Hrl) as El. apply (f_equal (.!! j)) in El. by rewrite !list_lookup_fmap in El.
  - destruct (q_ring _ _ Hq) as (R1 & R2 & R3 & R4). cbn [sch] in *. split; [done|done|].
    split_and!; done.
Qed.

(** ** Arrival *)

(** What the target core may rely on. *)
Record welcome (m : Migrant.t) : Prop := {
  wc_used : Tcb.used (Migrant.tcb m) = true;
  wc_priority : 0 <= Tcb.priority (Migrant.tcb m) < Z.of_nat NPRIO;
  wc_donor : Tcb.sc_donor (Migrant.tcb m) = None;
  wc_grund : Tcb.frist_grund (Migrant.tcb m) ∈ [0; BlockReasons.IPC; BlockReasons.PARK];
  wc_ready : Migrant.was_ready m = true → Tcb.reasons (Migrant.tcb m) = 0;
  wc_gid : 0 <= Tcb.gid (Migrant.tcb m);
  wc_gen : 0 <= Tcb.gen (Migrant.tcb m) < 2 ^ 31 }.

(** The TCB as the target core stores it. *)
Definition arrived_tcb (n : Z) (m : Migrant.t) : Tcb.t :=
  let t := Migrant.tcb m in
  let t := if Tcb.depleted t then Tcb.with_next_refill (wrapping_add 64 n (Tcb.period t)) t else t in
  Tcb.with_qprev NIL (Tcb.with_qnext NIL (Tcb.with_queued NOT_QUEUED t)).

Lemma arrived_fields n m : let t := Migrant.tcb m in let t' := arrived_tcb n m in
  Tcb.used t' = Tcb.used t ∧ Tcb.gid t' = Tcb.gid t ∧ Tcb.gen t' = Tcb.gen t ∧
  Tcb.priority t' = Tcb.priority t ∧ Tcb.reasons t' = Tcb.reasons t ∧
  Tcb.sc_donor t' = Tcb.sc_donor t ∧ Tcb.frist_grund t' = Tcb.frist_grund t ∧
  Tcb.queued t' = NOT_QUEUED ∧ Tcb.qnext t' = NIL ∧ Tcb.qprev t' = NIL.
Proof. unfold arrived_tcb. by destruct (Tcb.depleted _). Qed.

Record arrived (ids : id_table) D st Q F G (i : nat) (m : Migrant.t) (st' : St) : Prop := {
  av_inv : inv (sch st') (if Migrant.was_ready m
                          then qadd (Z.to_nat (Tcb.priority (Migrant.tcb m))) i Q else Q) F;
  av_idents : idents (sch st') =
    <[i := Some (Tcb.gid (Migrant.tcb m), Tcb.gen (Migrant.tcb m))]> (idents (sch st));
  av_dir : dir_inv (set_id (core (sch st)) i (Some (Tcb.gid (Migrant.tcb m), Tcb.gen (Migrant.tcb m))) ids)
             (glo st') G D None;
  av_tcb : unlinked <$> tcbs (sch st') !! i = Some (unlinked (arrived_tcb (now (sch st)) m));
  av_lt : (i < length (idents (sch st)))%nat;
  av_steady : steady (sch st) (sch st') }.

Lemma wp_attach (ids : id_table) D m st Q F G (R : result unit Migrant.t → St → Prop) :
  inv (sch st) Q F → welcome m →
  dir_inv ids (glo st) G D (Some (Z.to_nat (Tcb.gid (Migrant.tcb m)))) →
  ids !! core (sch st) = Some (idents (sch st)) →
  (F = [] → R (Err m) st) →
  (∀ i F' st', F = i :: F' → arrived ids D st Q F' G i m st' → R (Ok tt) st') →
  wp (attach_migrated m) st R.
Proof.
  intros HI [W1 W2 W3 W4 W5 W6 W7] HD Hid HN HS. unfold attach_migrated.
  pose proof (g_base _ _ _ _ HI) as HB.
  apply wp_bind, wp_on_free. eapply FreeList.alloc_wp; [apply HB| |].
  { intros EF. apply wp_ret. destruct st as [[] g]. by apply HN. }
  intros i F' f EF Hf Hfl.
  assert (∃ t, tcbs (sch st) !! i = Some t ∧ Tcb.used t = false) as (t & Ht & Hu).
  { apply (g_F _ _ _ _ HB). rewrite EF. set_solver. }
  pose proof (unused_not_queued _ _ _ _ _ _ HI Ht Hu) as Hnq.
  pose proof (unused_not_current _ _ _ _ _ _ HI Ht Hu) as Hnc.
  assert (i ∉ F') as HiF.
  { pose proof (FreeList.rep_nodup _ _ (g_free _ _ _ _ HB)) as Hnd. rewrite EF in Hnd.
    by apply NoDup_cons in Hnd as [? _]. }
  apply wp_bind, wp_self. cbn [sch with_sch now with_free].
  destruct (arrived_fields (now (sch st)) m) as (A1 & A2 & A3 & A4 & A5 & A6 & A7 & A8 & A9 & A10).
  set (ta := arrived_tcb (now (sch st)) m) in *.
  assert (∀ st', inv (sch st') Q F' →
    idents (sch st') = <[i := Some (Tcb.gid (Migrant.tcb m), Tcb.gen (Migrant.tcb m))]> (idents (sch st)) →
    dir_inv (set_id (core (sch st)) i (Some (Tcb.gid (Migrant.tcb m), Tcb.gen (Migrant.tcb m))) ids)
      (glo st') G D None → tcbs (sch st') !! i = Some ta → steady (sch st) (sch st') →
    wp (if Migrant.was_ready m then enqueue_ready i else mret tt) st'
       (λ _ st'', wp (mret (Ok tt)) st'' R)) as Hrest.
  { intros st' HI' Hi' HD' Ht' Hst'. assert (i < length (idents (sch st)))%nat as Hil.
    { unfold idents. rewrite length_fmap. by eapply lookup_lt_Some. }
    destruct (Migrant.was_ready m) eqn:Hw.
    - eapply wp_enqueue_good; [exact HI'|exact Ht'|congruence|by rewrite A5; apply W5| |].
      { rewrite (sd_current _ _ Hst'). done. }
      intros s2 Q2 HG2 Hrl Hq2 HQ2. apply wp_ret. eapply (HS i F'); [done|].
      pose proof (relinked_fields _ _ Hrl) as (_ & _ & Hc2 & _).
      pose proof (q_idents _ _ Hq2) as Ei. cbn [sch] in Ei.
      split; cbn [sch glo]; rewrite ?Hw, ?Ei; [| | | |done|].
      + destruct HQ2 as [(Hn & _)|(_ & ->)]; [done|]. rewrite <-A4. unfold inv. rewrite Hc2. exact HG2.
      + exact Hi'.
      + exact HD'.
      + pose proof (rl_tcbs _ _ Hrl) as El. apply (f_equal (.!! i)) in El.
        rewrite !list_lookup_fmap, Ht' in El. exact El.
      + eapply steady_trans; [exact Hst'|]. apply (quiet_steady st' (mkSt s2 (glo st')) Hq2). exact Hc2.
    - apply wp_ret, wp_ret. eapply (HS i F'); [done|].
      split; rewrite ?Hw; try done. by rewrite Ht'. }
  set (t1 := if Tcb.depleted (Migrant.tcb m) then _ else _).
  apply wp_bind, (wp_upd_field _ depleted_count with_depleted_count (λ z, wrapping_add 64 z 1)); [by intros []|].
  apply wp_bind, (wp_upd_field _ budget_blocked_count with_budget_blocked_count (λ z, wrapping_add 64 z 1)); [by intros []|].
  cbn [sch glo with_glo with_sch].
  assert (budget_blocked t1 = budget_blocked ta) as Ebb.
  { unfold budget_blocked, ta, arrived_tcb, t1. by destruct (Tcb.depleted _). }
  apply wp_bind. eapply wp_upd_tcb; [exact Ht|]. cbn [sch glo with_glo with_sch].
  change (alter _ i (tcbs _)) with (alter (λ _ : Tcb.t, ta) i (tcbs (sch st))).
  apply wp_bind, wp_upd. apply wp_bind, wp_store_load; [apply HI|apply HD|].
  apply wp_bind, wp_upd. cbn [sch glo with_glo with_sch].
  apply wp_bind. eapply wp_publish_dir; [cbn; by rewrite list_lookup_alter_eq, Ht|].
  cbn [sch glo with_glo with_sch core with_migrations_in with_used with_tcbs with_budget_blocked_count
       with_depleted_count with_free]. rewrite A2, A3.
  assert (0 <= used (sch st) <= 2 ^ 16) as Hus.
  { rewrite (g_used _ _ _ _ HB). pose proof (count_if_length Tcb.used (tcbs (sch st))).
    pose proof (rd_cap _ _ (g_ready _ _ _ _ HB)). lia. }
  assert (0 <= budget_blocked_count (sch st)) as Hbp by (rewrite (g_bb _ _ _ _ HB); lia).
  pose proof (budget_count_small _ _ _ _ HI) as Hbs.
  apply wp_bind, Hrest; cbn [sch glo with_glo with_sch].
  - unfold inv. cbn [current with_migrations_in with_used with_tcbs with_budget_blocked_count
      with_depleted_count with_free].
    eapply (good_overwrite (sch st) _ _ Q F F' i t ta HI Ht); try done.
    + split; [by rewrite A1, W1|by rewrite A4|by rewrite A6, W3|by rewrite A7].
    + intros j. rewrite EF, A1, W1, elem_of_cons. destruct (decide (j = i)); naive_solver.
    + rewrite Hu, A1, W1. cbn. rewrite wrapping_add_exact by (unfold in_width; lia). lia.
    + cbn [budget_blocked_count with_migrations_in with_used with_tcbs with_budget_blocked_count
        with_depleted_count with_free]. rewrite (unused_bb _ _ _ _ _ _ HI Ht Hu), <-Ebb.
      fold (budget_blocked t1). destruct (budget_blocked t1); [|lia].
      rewrite wrapping_add_exact by (unfold in_width; lia). lia.
  - unfold idents at 1. cbn. rewrite idents_overwrite. unfold ident. by rewrite A1, A2, A3, W1.
  - eapply (dir_attach ids (glo st) G D); [exact HD|done|done|exact Hid| |done|done|].
    + rewrite (idents_lookup _ _ _ Ht). unfold ident. by rewrite Hu.
    + cbn. by rewrite length_insert.
  - cbn. by rewrite list_lookup_alter_eq, Ht.
  - by split.
Qed.
