(* ===== verification/SchedSystem.v ===== *)
(** * The cores together

    A machine of cores that share the globals, with the dead thread slots the
    reaper has taken from the rings and not yet released.  An operation runs under
    the lock of its core; migration holds the locks of both cores.  [sys] is the
    invariant of the whole machine, and every operation keeps it.  [migrate_to]
    and [reap_core] are those of [kernel/src/system.rs].  *)

From S2P Require Import Prelude PanicMonad Dll Slab Redirect SchedData Sched SchedReady SchedInv.
From S2P Require Import SchedWake SchedRun SchedTick SchedOps SchedDir SchedLife SchedEnd SchedMig.
Import Scheduler.
#[local] Open Scope Z_scope.

Implicit Types (Q : queue_map) (F G : list nat) (D : nat → list nat).

Module Machine.
Record t := mk { cores : list Scheduler.t; globals : Globals.t; pending : list nat }.

(** An operation under the lock of core [c]. *)
Definition on_core {A} (c : nat) (m : M St A) : M t A := λ s,
  match cores s !! c with
  | None => None
  | Some sc =>
      match m (mkSt sc (globals s)) with
      | None => None
      | Some (a, st) => Some (a, mk (<[c := sch st]> (cores s)) (glo st) (pending s))
      end
  end.

Definition num_cores (s : t) : nat := length (cores s).

(** The locked part of [migrate_to]: [src] pushes the thread to [dst], and takes
    it back where [dst] is full. *)
Definition migrate_to (src : nat) (tid : ThreadId.t) (dst : nat) : M t bool :=
  n ← gets num_cores;
  if bool_decide (dst = src) || (n <=? dst)%nat then mret false
  else
    o ← gets (λ s, Globals.owner_core (globals s) tid);
    if negb (bool_decide (o = Some src)) then mret false
    else
      om ← on_core src (detach_for_migration tid);
      match om with
      | None => mret false
      | Some m =>
          r ← on_core dst (attach_migrated m);
          match r with
          | Ok _ => mret true
          | Err m => on_core src (attach_migrated m) ≫= λ _, mret false
          end
      end.

(** Taking one zombie of core [c]: its slot is now in the reaper's buffer. *)
Definition take_zombie (c : nat) : M t (option (Z * Z * Z)) :=
  oz ← on_core c reap;
  match oz with
  | None => mret None
  | Some (base, len, gid) =>
      modify (λ s, mk (cores s) (globals s) (pending s ++ [Z.to_nat gid])) ≫= λ _,
      mret (Some (base, len, gid))
  end.

(** Releasing the [i]th slot of the buffer. *)
Definition release_pending (i : nat) : M t unit :=
  l ← gets pending;
  gid ← expect (l !! i);
  modify (λ s, mk (cores s) (Globals.release_gid (Z.of_nat gid) (globals s)) (delete i (pending s))).

(** [reap_core]: up to eight zombies under the core's lock, then the release of
    their slots; the return of their stacks to the allocator comes between. *)
Fixpoint reap_loop (c : nat) (n : nat) : M t (list (Z * Z * Z)) :=
  match n with
  | O => mret []
  | S n =>
      oz ← take_zombie c;
      match oz with
      | None => mret []
      | Some z => zs ← reap_loop c n; mret (z :: zs)
      end
  end.
Definition reap_core (c : nat) : M t (list (Z * Z * Z)) :=
  n0 ← gets (λ s, length (pending s));
  zs ← reap_loop c 8;
  for_ (seq 0 (length zs)) (λ _, release_pending n0) ≫= λ _,
  mret zs.
End Machine.

Implicit Types m : Machine.t.

(** ** The invariant of the machine *)

Notation m_ids m := (idents <$> Machine.cores m).

(** [D] gives each core's dead thread slots, and the reaper's; [X] is a thread in
    migration. *)
Record sys_mid m G D (X : option nat) : Prop := {
  sy_dir : dir_inv (m_ids m) (Machine.globals m) G D X;
  sy_pending : D (length (Machine.cores m)) = Machine.pending m;
  sy_core : ∀ c s, Machine.cores m !! c = Some s → core s = c ∧ Inv (mkSt s (Machine.globals m)) ∧
              ∃ lz, zombie_ring s lz ∧ D c = dead lz }.
Notation sys_at m G D := (sys_mid m G D None).
Definition sys m : Prop := ∃ G D, sys_at m G D.

Lemma Inv_glo s g g' : Inv (mkSt s g) → Inv (mkSt s g').
Proof. done. Qed.

Lemma m_ids_core m c s : Machine.cores m !! c = Some s → m_ids m !! c = Some (idents s).
Proof. intros Hc. by rewrite list_lookup_fmap, Hc. Qed.

(** Core [c] takes a step that may change its identities, the globals and its ring. *)
Lemma sys_step_mid m G D X c s s' g' G' D' X' lz' :
  sys_mid m G D X → Machine.cores m !! c = Some s →
  dir_inv (<[c := idents s']> (m_ids m)) g' G' D' X' →
  core s' = core s → Inv (mkSt s' g') → zombie_ring s' lz' → D' c = dead lz' →
  (∀ h, h ≠ c → D' h = D h) →
  sys_mid (Machine.mk (<[c := s']> (Machine.cores m)) g' (Machine.pending m)) G' D' X'.
Proof.
  intros [Hd Hp Hc] Hs HD' Eco HI Hr HDc Ho.
  assert (c < length (Machine.cores m))%nat as Hlt by by eapply lookup_lt_Some.
  split; cbn [Machine.cores Machine.globals Machine.pending].
  - by rewrite list_fmap_insert.
  - rewrite length_insert, <-Hp. apply Ho. lia.
  - intros c' sc. destruct (decide (c' = c)) as [->|Hne].
    + rewrite list_lookup_insert_eq by done. intros [= <-]. rewrite Eco. split; [by apply Hc|].
      split; [done|by exists lz'].
    + rewrite list_lookup_insert_ne by done. intros Hs'. destruct (Hc _ _ Hs') as (E & HI' & lz & ? & ?).
      split; [done|]. split; [by eapply Inv_glo|]. exists lz. rewrite Ho by done. done.
Qed.

Lemma sys_step m G D c s s' g' G' D' lz' :
  sys_at m G D → Machine.cores m !! c = Some s →
  dir_inv (<[c := idents s']> (m_ids m)) g' G' D' None →
  core s' = core s → Inv (mkSt s' g') → zombie_ring s' lz' → D' c = dead lz' →
  (∀ h, h ≠ c → D' h = D h) →
  sys (Machine.mk (<[c := s']> (Machine.cores m)) g' (Machine.pending m)).
Proof. intros. exists G', D'. by eapply sys_step_mid. Qed.

(** A step that creates and ends no thread. *)
Lemma sys_stays m c s st' :
  sys m → Machine.cores m !! c = Some s → stays (mkSt s (Machine.globals m)) st' →
  sys (Machine.mk (<[c := sch st']> (Machine.cores m)) (glo st') (Machine.pending m)).
Proof.
  intros (G & D & HS) Hs [HI [Eg Eco Ei _ (E1 & E2 & E3 & E4)]]. cbn [sch glo] in *.
  destruct (sy_core _ _ _ _ HS _ _ Hs) as (Ec & _ & lz & Hr & HDc).
  eapply (sys_step m G D c s _ _ G D lz HS Hs); [|done| | |done|done].
  - rewrite Ei, Eg, list_insert_id by by apply m_ids_core. apply HS.
  - by destruct st'.
  - unfold zombie_ring. rewrite E1, E2, E3, E4. exact Hr.
Qed.

(** One identity of core [c] changes, its ring does not. *)
Lemma sys_steady m G D c s i v st' G' :
  sys_at m G D → Machine.cores m !! c = Some s → Inv st' →
  idents (sch st') = <[i := v]> (idents s) →
  dir_inv (set_id c i v (m_ids m)) (glo st') G' D None →
  core (sch st') = core s → same_ring s (sch st') →
  sys (Machine.mk (<[c := sch st']> (Machine.cores m)) (glo st') (Machine.pending m)).
Proof.
  intros HS Hs HI Ei HD Eco (E1 & E2 & E3 & E4).
  destruct (sy_core _ _ _ _ HS _ _ Hs) as (Ec & _ & lz & Hr & HDc).
  eapply (sys_step m G D c s _ _ G' D lz HS Hs); [|done|by destruct st'| |done|done].
  - rewrite Ei, <-(set_id_same _ _ _ _ _ (m_ids_core _ _ _ Hs)). exact HD.
  - unfold zombie_ring. rewrite E1, E2, E3, E4. exact Hr.
Qed.

(** What a core's operation may assume. *)
Lemma sys_local m G D X c s :
  sys_mid m G D X → Machine.cores m !! c = Some s →
  core s = c ∧ (∃ Q F, inv s Q F) ∧ m_ids m !! core s = Some (idents s) ∧
  ∃ lz, zombie_ring s lz ∧ D (core s) = dead lz.
Proof.
  intros HS Hs. destruct (sy_core _ _ _ _ HS _ _ Hs) as (Ec & HI & Hlz). rewrite Ec.
  split; [done|]. split; [exact HI|]. split; [by apply m_ids_core|done].
Qed.

Lemma wp_on_core {A} c (o : M St A) m s (R : A → Machine.t → Prop) :
  Machine.cores m !! c = Some s →
  wp o (mkSt s (Machine.globals m)) (λ a st',
    R a (Machine.mk (<[c := sch st']> (Machine.cores m)) (glo st') (Machine.pending m))) →
  wp (Machine.on_core c o) m R.
Proof.
  unfold wp, Machine.on_core. intros ->. by destruct (o _) as [[a st']|].
Qed.

(** ** The operations that create and end no thread *)

Inductive op :=
| OnTick (frame : Z) (tick : bool)
| BlockCurrent (frame : Z) | BlockForHandler (frame : Z) | BlockForLoad (frame : Z)
| ParkCurrent (frame : Z) | SwitchTo (frame : Z) (target : ThreadId.t)
| Unblock (tid : ThreadId.t) | Unpark (tid : ThreadId.t)
| Pause (tid : ThreadId.t) | Resume (tid : ThreadId.t)
| MarkHandlerWait (tid : ThreadId.t) | HandlerReply (tid : ThreadId.t) | LoadReply (tid : ThreadId.t)
| DebugStop (tid : ThreadId.t) | DebugContinue (tid : ThreadId.t)
| DebugReleasePd (pd_of : ThreadId.t → option Z) (pd : Z)
| FreezeGroup (tid : ThreadId.t) | ThawGroup (tid : ThreadId.t)
| SetHandler (tid : ThreadId.t) (bindung : option Bindung.t) | SetTls (tid : ThreadId.t) (va : Z)
| FristSetzen (ticks grund : Z) | FristLoeschen (tid : ThreadId.t) | FristenFaellig (room : nat)
| SetBudget (tid : ThreadId.t) (budget period : Z) | SetCycleSource (source : Source)
| StampCurrent (now_ : Z) | ChargeCurrent (now_ : Z) | EndDonation | Admit (tid : ThreadId.t).

Definition done_ {A} (m : M St A) : M St unit := m ≫= λ _, mret tt.

Definition run (c : nat) (o : op) : M St unit :=
  match o with
  | OnTick frame tick => done_ (on_tick c frame tick)
  | BlockCurrent frame => done_ (block_current c frame)
  | BlockForHandler frame => done_ (block_for_handler c frame)
  | BlockForLoad frame => done_ (block_for_load c frame)
  | ParkCurrent frame => done_ (park_current c frame)
  | SwitchTo frame target => done_ (switch_to c frame target)
  | Unblock tid => done_ (unblock tid)
  | Unpark tid => done_ (unpark tid)
  | Pause tid => done_ (pause tid)
  | Resume tid => done_ (resume tid)
  | MarkHandlerWait tid => done_ (mark_handler_wait tid)
  | HandlerReply tid => done_ (handler_reply tid)
  | LoadReply tid => done_ (load_reply tid)
  | DebugStop tid => done_ (debug_stop tid)
  | DebugContinue tid => done_ (debug_continue tid)
  | DebugReleasePd pd_of pd => done_ (debug_release_pd pd_of pd)
  | FreezeGroup tid => done_ (freeze_group tid)
  | ThawGroup tid => done_ (thaw_group tid)
  | SetHandler tid bindung => done_ (set_handler tid bindung)
  | SetTls tid va => done_ (set_tls tid va)
  | FristSetzen ticks grund => frist_setzen c ticks grund
  | FristLoeschen tid => frist_loeschen tid
  | FristenFaellig room => done_ (fristen_faellig room)
  | SetBudget tid budget period => done_ (set_budget tid budget period)
  | SetCycleSource source => set_cycle_source source
  | StampCurrent now_ => stamp_current c now_
  | ChargeCurrent now_ => charge_current c now_
  | EndDonation => end_donation c
  | Admit tid => done_ (admit_ tid)
  end.

(** What the operations need.  The callers see to it that [expect] of a running thread
    or of a ready one does not fail and that a deadline ends a wait.  That a thread is
    admitted while nobody has stopped it and while it does not run is assumed: [admit]
    asks for neither, nor do its callers, which bind the thread to its domain first and
    let the lock go in between. *)
Definition allowed (o : op) (st : St) : Prop :=
  match o with
  | BlockCurrent _ | BlockForHandler _ | BlockForLoad _ | ParkCurrent _ =>
      is_Some (current (sch st)) ∧ has_ready st
  | SwitchTo _ target =>
      is_Some (current (sch st)) ∧ has_ready st ∧ is_Some (resolve_in st target)
  | FristSetzen _ grund =>
      is_Some (current (sch st)) ∧ grund ∈ [BlockReasons.IPC; BlockReasons.PARK]
  | Admit tid => ∀ i t, resolve_in st tid = Some i → tcbs (sch st) !! i = Some t →
      Tcb.reasons t = 0 ∧ current (sch st) ≠ Some i
  | _ => True
  end.

Lemma wp_done {A} (m : M St A) st (R : unit → St → Prop) :
  wp m st (λ _ st', R tt st') → wp (done_ m) st R.
Proof. intros H. apply wp_bind. eapply wp_mono; [exact H|]. intros a st' HR. by apply wp_ret. Qed.

(** Every operation runs without a panic and keeps the invariant of its core. *)
Lemma wp_op c o st : Inv st → allowed o st → wp (run c o) st (λ _ st', stays st st').
Proof.
  intros HI Ha. destruct o; simpl in Ha; unfold run; try apply wp_done.
  - by apply wp_on_tick.
  - destruct Ha. eapply (wp_block_stays _ 0); done.
  - destruct Ha. eapply (wp_block_stays _ 4); done.
  - destruct Ha. eapply (wp_block_stays _ 5); done.
  - destruct Ha. by apply wp_park_current.
  - destruct Ha as ([cur Hc] & Hr & [t Ht]). destruct HI as (Q & F & HI).
    eapply wp_switch_to; [exact HI|exact Hc|exact Ht|by left|done].
  - by apply wp_unblock.
  - by apply wp_unpark.
  - apply (wp_stop_thread 2); [set_solver|done|done].
  - by apply (wp_wake_thread 2).
  - apply (wp_stop_thread 4); [set_solver|done|done].
  - by apply (wp_wake_thread 4).
  - by apply (wp_wake_thread 5).
  - apply (wp_stop_once 6); [set_solver|done|done].
  - by apply (wp_wake_once 6).
  - by apply wp_debug_release_pd.
  - apply (wp_stop_once 7); [set_solver|done|done].
  - by apply (wp_wake_once 7).
  - by apply wp_set_handler.
  - by apply wp_set_tls.
  - destruct Ha. by apply wp_frist_setzen.
  - by apply wp_frist_loeschen.
  - by apply wp_fristen_faellig.
  - by apply wp_set_budget.
  - apply wp_upd. eapply inv_counters; [exact HI|reflexivity..].
  - by apply wp_stamp_current.
  - by apply wp_charge_current.
  - by apply wp_end_donation.
  - destruct (resolve_in st tid) as [i|] eqn:Hr.
    + destruct (resolve_in_Some _ _ _ Hr) as (e & t & _ & _ & _ & _ & _ & Ht & _).
      destruct (Ha i t eq_refl Ht). by eapply wp_admit.
    + unfold admit_. apply wp_bind, wp_gets. rewrite Hr. by apply wp_ret, stays_refl.
Qed.

(** ** Operations on the machine *)

Lemma sys_op m c s o :
  sys m → Machine.cores m !! c = Some s → allowed o (mkSt s (Machine.globals m)) →
  wp (Machine.on_core c (run c o)) m (λ _ m', sys m').
Proof.
  intros HS Hs Ha. eapply wp_on_core; [exact Hs|]. eapply wp_mono.
  - apply wp_op; [|exact Ha]. destruct HS as (G & D & HS). by destruct (sy_core _ _ _ _ HS _ _ Hs) as (_ & HI & _).
  - intros [] st' Hst. by eapply sys_stays.
Qed.

Lemma machine_same m c s : Machine.cores m !! c = Some s →
  Machine.mk (<[c := s]> (Machine.cores m)) (Machine.globals m) (Machine.pending m) = m.
Proof. intros Hs. rewrite list_insert_id by done. by destruct m. Qed.

(** The handle a thread resolves from is its own. *)
Lemma resolve_ident (ids : id_table) G D X s g tid i :
  dir_inv ids g G D X → ids !! core s = Some (idents s) → X ≠ Some (ThreadId.slot tid) →
  resolve_in (mkSt s g) tid = Some i →
  idents s !! i = Some (Some (Z.of_nat (ThreadId.slot tid), ThreadId.gen tid)).
Proof.
  intros HD Hid HX Hr. destruct (resolve_in_Some _ _ _ Hr) as (e & t & He & Hu & Hg & Hc & Hl & _).
  cbn [sch glo] in *. destruct (di_bwd _ _ _ _ _ HD _ _ He Hu HX) as (c & l & gen & Hh).
  destruct (holds_entry _ _ _ _ _ HD _ _ _ _ Hh) as (_ & E2 & E3 & E4).
  pose proof (di_fwd _ _ _ _ _ HD _ _ _ _ Hh) as (_ & _ & _ & Hd). rewrite Nat2Z.id in Hd.
  unfold Globals.dir_load in He. rewrite He in Hd. injection Hd as ->.
  rewrite E2 in Hg. rewrite E3 in Hc. rewrite E4 in Hl. subst.
  destruct Hh as (li & Hli & Hx). rewrite Hid in Hli. by injection Hli as <-.
Qed.

Section life.
Context `{Hal}.

Definition valid_priority (priority : Z) : Prop := 0 <= priority < Z.of_nat NPRIO.

(** Nothing was created. *)
Lemma sys_nothing m G D c s s' Q F :
  sys_at m G D → Machine.cores m !! c = Some s → inv s' Q F → idents s' = idents s → steady s s' →
  sys (Machine.mk (<[c := s']> (Machine.cores m)) (Machine.globals m) (Machine.pending m)).
Proof.
  intros HS Hs HI Ei [Eco _ (E1 & E2 & E3 & E4)].
  destruct (sy_core _ _ _ _ HS _ _ Hs) as (Ec & _ & lz & Hr & HDc).
  eapply (sys_step m G D c s _ _ G D lz HS Hs); [|done|by exists Q, F| |done|done].
  - rewrite Ei, list_insert_id by by apply m_ids_core. apply HS.
  - unfold zombie_ring. rewrite E1, E2, E3, E4. exact Hr.
Qed.

Lemma sys_created m G D c s cur F' G' i tid t st' :
  sys_at m G D → Machine.cores m !! c = Some s → Inv st' →
  created (m_ids m) D cur (mkSt s (Machine.globals m)) F' G' i tid t st' →
  sys (Machine.mk (<[c := sch st']> (Machine.cores m)) (glo st') (Machine.pending m)).
Proof.
  intros HS Hs HI [_ Ei HD _ _ [Eco _ Er]]. cbn [sch glo] in *.
  eapply (sys_steady m G D); [exact HS|exact Hs|done|exact Ei| |done|done].
  destruct (sy_core _ _ _ _ HS _ _ Hs) as (<- & _). exact HD.
Qed.

Lemma sys_spawn_parked m c s entry arg base len prio :
  sys m → Machine.cores m !! c = Some s → valid_priority prio →
  wp (Machine.on_core c (spawn_parked c entry arg base len prio)) m (λ _ m', sys m').
Proof.
  intros (G & D & HS) Hs Hp. eapply wp_on_core; [exact Hs|].
  destruct (sys_local _ _ _ _ _ _ HS Hs) as (Ec & (Q & F & HI) & Hid & _).
  eapply wp_spawn_tail; [exact HI|apply HS|exact Hid|exact Hp| |].
  - intros s' HI' Ei Hst. eapply sys_nothing; [exact HS|exact Hs| |done|done].
    pose proof (sd_current _ _ Hst) as Ecu. unfold inv. cbn [sch] in *. rewrite Ecu. exact HI'.
  - intros i k gen F' G' st' _ _ HG' Hcr. eapply sys_created; [exact HS|exact Hs| |exact Hcr].
    pose proof (sd_current _ _ (cr_steady _ _ _ _ _ _ _ _ _ _ Hcr)) as Ecu.
    exists Q, F'. unfold inv. cbn [sch] in *. rewrite Ecu. exact HG'.
Qed.

Lemma sys_spawn_user_at_parked m c s entry arg kbase klen sp rbase rlen prio :
  sys m → Machine.cores m !! c = Some s → valid_priority prio →
  wp (Machine.on_core c (spawn_user_at_parked c entry arg kbase klen sp rbase rlen prio)) m (λ _ m', sys m').
Proof.
  intros (G & D & HS) Hs Hp. eapply wp_on_core; [exact Hs|].
  destruct (sys_local _ _ _ _ _ _ HS Hs) as (Ec & (Q & F & HI) & Hid & _).
  eapply wp_spawn_tail; [exact HI|apply HS|exact Hid|exact Hp| |].
  - intros s' HI' Ei Hst. eapply sys_nothing; [exact HS|exact Hs| |done|done].
    pose proof (sd_current _ _ Hst) as Ecu. unfold inv. cbn [sch] in *. rewrite Ecu. exact HI'.
  - intros i k gen F' G' st' _ _ HG' Hcr. eapply sys_created; [exact HS|exact Hs| |exact Hcr].
    pose proof (sd_current _ _ (cr_steady _ _ _ _ _ _ _ _ _ _ Hcr)) as Ecu.
    exists Q, F'. unfold inv. cbn [sch] in *. rewrite Ecu. exact HG'.
Qed.

Lemma sys_spawn m c s entry arg base len prio :
  sys m → Machine.cores m !! c = Some s → valid_priority prio →
  wp (Machine.on_core c (spawn c entry arg base len prio)) m (λ _ m', sys m').
Proof.
  intros (G & D & HS) Hs Hp. eapply wp_on_core; [exact Hs|].
  destruct (sys_local _ _ _ _ _ _ HS Hs) as (Ec & (Q & F & HI) & Hid & _).
  eapply wp_spawn_admit; [exact HI|apply HS|exact Hid|exact Hp| |].
  - intros s' HI' Ei Hst. by eapply sys_nothing.
  - intros i k gen F' G' t st' _ _ HI' Hcr _. by eapply sys_created.
Qed.

Lemma sys_spawn_user_at m c s entry arg kbase klen sp rbase rlen prio :
  sys m → Machine.cores m !! c = Some s → valid_priority prio →
  wp (Machine.on_core c (spawn_user_at c entry arg kbase klen sp rbase rlen prio)) m (λ _ m', sys m').
Proof.
  intros (G & D & HS) Hs Hp. eapply wp_on_core; [exact Hs|].
  destruct (sys_local _ _ _ _ _ _ HS Hs) as (Ec & (Q & F & HI) & Hid & _).
  eapply wp_spawn_admit; [exact HI|apply HS|exact Hid|exact Hp| |].
  - intros s' HI' Ei Hst. by eapply sys_nothing.
  - intros i k gen F' G' t st' _ _ HI' Hcr _. by eapply sys_created.
Qed.

Lemma sys_init_core m c s prio :
  sys m → Machine.cores m !! c = Some s → current s = None → valid_priority prio →
  wp (Machine.on_core c (init_core c prio)) m (λ _ m', sys m').
Proof.
  intros (G & D & HS) Hs Hcur Hp. eapply wp_on_core; [exact Hs|].
  destruct (sys_local _ _ _ _ _ _ HS Hs) as (Ec & (Q & F & HI) & Hid & _).
  eapply wp_init_core; [exact HI|exact Hcur|apply HS|exact Hid|exact Hp| |].
  - intros s' HI' Ei Hst. by eapply sys_nothing.
  - intros i k gen F' G' t st' _ _ HI' _ _ Ei HD _ Eco Er. cbn [sch glo] in *.
    eapply (sys_steady m G D); [exact HS|exact Hs|by exists Q, F'|exact Ei|by rewrite <-Ec|done|done].
Qed.

Lemma sys_ended m G D c s st1 cur Q1 F lz i gid gen Q' D' lz' st' :
  sys_at m G D → Machine.cores m !! c = Some s → quiet (mkSt s (Machine.globals m)) st1 →
  ended (m_ids m) D cur st1 Q1 F G lz i gid gen Q' D' lz' st' → Inv st' →
  sys (Machine.mk (<[c := sch st']> (Machine.cores m)) (glo st') (Machine.pending m)).
Proof.
  intros HS Hs Hq He HI. destruct Hq as [_ Eco1 Ei1 _ _]. destruct He as [Hgo Hgr Hgn Hei Hec Hecu Hed Hee Her HeD Heo Hel Hdo]. cbn [sch glo] in *.
  destruct (sy_core _ _ _ _ HS _ _ Hs) as (Ec & _).
  eapply (sys_step m G D c s _ _ G D' lz' HS Hs); [|congruence|by destruct st'|done|congruence|].
  - rewrite Hei, Ei1. rewrite <-(set_id_same _ _ _ _ _ (m_ids_core _ _ _ Hs)).
    rewrite <-Ec, <-Eco1. exact Hed.
  - intros h Hh. apply Heo. congruence.
Qed.

Lemma sys_exit_current m c s frame :
  sys m → Machine.cores m !! c = Some s → is_Some (current s) → has_ready (mkSt s (Machine.globals m)) →
  wp (Machine.on_core c (exit_current c frame)) m (λ _ m', sys m').
Proof.
  intros (G & D & HS) Hs [cur Hcur] Hr. eapply wp_on_core; [exact Hs|].
  destruct (sys_local _ _ _ _ _ _ HS Hs) as (Ec & (Q & F & HI) & Hid & lz & Hlz & HDc).
  destruct (g_cur _ _ _ _ (g_base _ _ _ _ HI) cur Hcur) as (t & Ht & _).
  eapply wp_exit_current; [exact HI|exact Hcur|exact Ht| |apply HS|exact Hid|exact Hlz|exact HDc|].
  - eapply (has_ready_queue (mkSt s (Machine.globals m))); [apply HI|exact Hr].
  - intros Q' D' lz' st1 st' p i ti He _ _ HI' _ Hq. pose proof Hq as [Eg Eco Ei _ (E1 & E2 & E3 & E4)].
    destruct He as [Hgo Hgr Hgn Hei Hec Hecu Hed Hee Her HeD Heo Hel Hdo]. cbn [sch glo] in *.
    eapply (sys_step m G D c s _ _ G D' lz' HS Hs); [|congruence|by do 2 eexists| |congruence|].
    + rewrite Ei, Eg, Hei. rewrite <-(set_id_same _ _ _ _ _ (m_ids_core _ _ _ Hs)).
      rewrite <-Ec. exact Hed.
    + unfold zombie_ring. rewrite E1, E2, E3, E4. exact Her.
    + intros h Hh. apply Heo. congruence.
Qed.

(** A killed handle names no thread any more; a refusal changes nothing. *)
Lemma sys_kill_gone m c s tid :
  sys m → Machine.cores m !! c = Some s →
  wp (Machine.on_core c (kill tid c)) m (λ b m', sys m' ∧
    if b : bool then Globals.owner_core (Machine.globals m') tid = None else m' = m).
Proof.
  intros (G & D & HS) Hs. eapply wp_on_core; [exact Hs|].
  destruct (sys_local _ _ _ _ _ _ HS Hs) as (Ec & (Q & F & HI) & Hid & lz & Hlz & HDc).
  eapply wp_kill; [exact HI|apply HS|exact Hid|exact Hlz|exact HDc| |].
  - intros _. cbn [sch glo]. rewrite machine_same by done. split; [by exists G, D|done].
  - intros i t st1 Q1 Q' D' lz' st' Hres _ Ht Hq Hc1 He. split.
    + eapply sys_ended; [exact HS|exact Hs|exact Hq|exact He|].
      exists Q', (i :: F). unfold inv. rewrite (en_current _ _ _ _ _ _ _ _ _ _ _ _ _ _ _ He), Hc1. apply He.
    + pose proof (resolve_ident _ _ _ _ _ _ _ _ (sy_dir _ _ _ _ HS) Hid ltac:(done) Hres) as Hident.
      cbn [sch glo] in *. rewrite (idents_lookup _ _ _ Ht) in Hident. unfold ident in Hident.
      destruct (Tcb.used t); [|done]. injection Hident as Egid _.
      pose proof (en_entry _ _ _ _ _ _ _ _ _ _ _ _ _ _ _ He) as Hee.
      cbn [Machine.globals]. unfold Globals.owner_core, Globals.dir_load. rewrite Egid, Nat2Z.id in Hee.
      rewrite Hee. cbn [mbind option_bind]. by rewrite dir_used_pack.
Qed.

Lemma sys_kill m c s tid :
  sys m → Machine.cores m !! c = Some s →
  wp (Machine.on_core c (kill tid c)) m (λ _ m', sys m').
Proof. intros HS Hs. eapply wp_mono; [by eapply sys_kill_gone|]. by intros b m' []. Qed.
End life.

(** ** Reaping *)

Lemma sys_take_zombie m c s :
  sys m → Machine.cores m !! c = Some s →
  wp (Machine.take_zombie c) m (λ oz m', sys m' ∧ length (Machine.cores m') = length (Machine.cores m) ∧
    length (Machine.pending m') =
      (length (Machine.pending m) + if oz then 1 else 0)%nat).
Proof.
  intros (G & D & HS) Hs. apply wp_bind. eapply wp_on_core; [exact Hs|].
  destruct (sys_local _ _ _ _ _ _ HS Hs) as (Ec & (Q & F & HI) & Hid & lz & Hlz & HDc).
  assert (c < length (Machine.cores m))%nat as Hlt by by eapply lookup_lt_Some.
  eapply wp_reap; [exact Hlz| |].
  - intros _. cbn [sch glo]. rewrite machine_same by done. apply wp_ret.
    split_and!; [by exists G, D|done|lia].
  - intros z rest h n -> st' Hring. subst st'. cbn [sch glo with_sch]. apply wp_bind, wp_modify, wp_ret.
    cbn [Machine.cores Machine.globals Machine.pending].
    split_and!; [|by rewrite length_insert|by rewrite length_app].
    set (k := Z.to_nat (Zombie.gid z)).
    set (D' := λ h', if decide (h' = c) then dead rest
                     else if decide (h' = length (Machine.cores m)) then D (length (Machine.cores m)) ++ [k]
                     else D h').
    exists G, D'. split; cbn [Machine.cores Machine.globals Machine.pending].
    + rewrite list_fmap_insert, list_insert_id by (apply (m_ids_core _ _ _ Hs)).
      eapply (dir_reap _ _ G D c); [apply HS|lia|]. rewrite <-Ec, HDc. done.
    + rewrite length_insert. unfold D'. rewrite decide_False, decide_True by lia.
      by rewrite (sy_pending _ _ _ _ HS).
    + intros c' sc. destruct (decide (c' = c)) as [->|Hne].
      * rewrite list_lookup_insert_eq by done. intros [= <-]. cbn.
        split; [done|]. split; [exists Q, F; by eapply (good_ext (current s) s)|]. exists rest. split; [exact Hring|].
        unfold D'. by rewrite decide_True.
      * rewrite list_lookup_insert_ne by done. intros Hs'.
        destruct (sy_core _ _ _ _ HS _ _ Hs') as (E & HI' & lz' & ? & ?). split; [done|]. split; [done|].
        exists lz'. unfold D'. apply lookup_lt_Some in Hs'. rewrite !decide_False by lia. done.
Qed.

Lemma sys_release m i :
  sys m → (i < length (Machine.pending m))%nat →
  wp (Machine.release_pending i) m (λ _ m', sys m' ∧ Machine.cores m' = Machine.cores m ∧
    length (Machine.pending m') = (length (Machine.pending m) - 1)%nat).
Proof.
  intros (G & D & HS) Hi. destruct (lookup_lt_is_Some_2 _ _ Hi) as [k Hk].
  apply wp_bind, wp_gets, wp_bind. eapply wp_expect; [exact Hk|]. apply wp_modify.
  cbn [Machine.cores Machine.globals Machine.pending].
  split_and!; [|done|by rewrite length_delete by eauto].
  pose proof (sy_pending _ _ _ _ HS) as Hp.
  eexists _, _. split; cbn [Machine.cores Machine.globals Machine.pending].
  - unfold Globals.release_gid. rewrite Nat2Z.id.
    eapply (dir_release _ _ G D (length (Machine.cores m)) i k); [apply HS|]. by rewrite Hp.
  - cbv beta. rewrite decide_True by done. by rewrite Hp.
  - intros c s Hs. destruct (sy_core _ _ _ _ HS _ _ Hs) as (E & HI' & lz' & ? & ?). split; [done|].
    split; [done|]. exists lz'. cbv beta. apply lookup_lt_Some in Hs. rewrite decide_False by lia. done.
Qed.

Lemma sys_reap_loop n m c :
  sys m → (c < length (Machine.cores m))%nat →
  wp (Machine.reap_loop c n) m (λ zs m', sys m' ∧ (length zs ≤ n)%nat ∧
    length (Machine.cores m') = length (Machine.cores m) ∧
    length (Machine.pending m') = (length (Machine.pending m) + length zs)%nat).
Proof.
  revert m. induction n as [|n IH]; intros m HS Hc; simpl.
  { apply wp_ret. simpl. split_and!; [done|lia|done|lia]. }
  destruct (lookup_lt_is_Some_2 _ _ Hc) as [s Hs]. apply wp_bind.
  eapply wp_mono; [by eapply sys_take_zombie|]. cbv beta. intros [z|] m1 (HS1 & Hc1 & Hp1).
  - apply wp_bind. eapply wp_mono; [apply IH; [done|lia]|]. cbv beta.
    intros zs m2 (HS2 & Hn2 & Hc2 & Hp2). apply wp_ret. simpl. split_and!; [done|lia|lia|lia].
  - apply wp_ret. simpl. split_and!; [done|lia|lia|lia].
Qed.

(** [reap_core] returns at most eight zombies and releases all it took. *)
Lemma sys_reap_core m c :
  sys m → (c < length (Machine.cores m))%nat →
  wp (Machine.reap_core c) m (λ zs m', sys m' ∧ (length zs ≤ 8)%nat ∧
    length (Machine.pending m') = length (Machine.pending m)).
Proof.
  intros HS Hc. apply wp_bind, wp_gets, wp_bind. eapply wp_mono; [by apply sys_reap_loop|]. cbv beta.
  intros zs m1 (HS1 & Hn & Hc1 & Hp1). apply wp_bind. eapply wp_mono.
  - apply (wp_fold_m (λ l (_ : unit) m', sys m' ∧
      length (Machine.pending m') = (length (Machine.pending m) + length l)%nat)).
    { split; [done|]. rewrite length_seq. exact Hp1. }
    intros i l [] m' Hi (HS' & Hl'). simpl in Hl'. eapply wp_mono; [apply sys_release; [done|lia]|].
    intros [] m'' (HS'' & _ & Hl''). split; [done|lia].
  - intros [] m' (HS' & Hl'). apply wp_ret. simpl in Hl'. split_and!; [done|done|lia].
Qed.

(** ** Migration *)

Lemma migrant_welcome s Q F i t (m : Migrant.t) gid gen st :
  inv s Q F → sch st = s → tcbs s !! i = Some t → Tcb.used t = true → may_leave st i t → migrant_of t m →
  Tcb.gid t = gid → Tcb.gen t = gen → 0 <= gid → 0 <= gen < 2 ^ 31 → welcome m.
Proof.
  intros HI <- Ht Hu (Hc & Hd & _) [E1 E2] <- <- Hg He.
  pose proof (g_tcb _ _ _ _ (g_base _ _ _ _ HI) i t Ht) as [_ O2 _ O4].
  assert (Tcb.used (unlinked t) = Tcb.used t ∧ Tcb.gid (unlinked t) = Tcb.gid t ∧
    Tcb.gen (unlinked t) = Tcb.gen t ∧ Tcb.priority (unlinked t) = Tcb.priority t ∧
    Tcb.reasons (unlinked t) = Tcb.reasons t ∧ Tcb.sc_donor (unlinked t) = Tcb.sc_donor t ∧
    Tcb.frist_grund (unlinked t) = Tcb.frist_grund t) as (U1 & U2 & U3 & U4 & U5 & U6 & U7) by by destruct t.
  split; rewrite E1; rewrite ?U1, ?U2, ?U3, ?U4, ?U5, ?U6, ?U7; try done.
  rewrite E2, negb_true_iff. intros Hq.
  destruct (rd_queued_in _ _ (g_ready _ _ _ _ (g_base _ _ _ _ HI)) i t Ht Hq) as (p & _ & _ & Hin).
  destruct (g_queue _ _ _ _ HI p i Hin) as (t' & ? & _ & _ & Hr & _). by simplify_eq.
Qed.

(** The core the directory names for a held thread. *)
Lemma owner_core_held (ids : id_table) g G D X c l k gen :
  dir_inv ids g G D X → holds ids c l (Z.of_nat k) gen →
  Globals.owner_core g (ThreadId.mk k gen) = Some c.
Proof.
  intros HD Hh. destruct (holds_entry _ _ _ _ _ HD _ _ _ _ Hh) as (E1 & E2 & E3 & _).
  pose proof (di_fwd _ _ _ _ _ HD _ _ _ _ Hh) as (_ & _ & _ & Hd). rewrite Nat2Z.id in Hd.
  unfold Globals.owner_core, Globals.dir_load. cbn [ThreadId.slot ThreadId.gen]. rewrite Hd.
  cbn [mbind option_bind]. by rewrite E1, E2, E3, Z.eqb_refl.
Qed.

(** Arrival of the migrant [m] at core [c]. *)
Lemma sys_arrive mm G D c s mg k gen (R : result unit Migrant.t → Machine.t → Prop) :
  sys_mid mm G D (Some k) → Machine.cores mm !! c = Some s → welcome mg →
  Tcb.gid (Migrant.tcb mg) = Z.of_nat k → Tcb.gen (Migrant.tcb mg) = gen →
  ((∃ Q, inv s Q []) → R (Err mg) mm) →
  (∀ m', sys m' → Globals.owner_core (Machine.globals m') (ThreadId.mk k gen) = Some c → R (Ok tt) m') →
  wp (Machine.on_core c (attach_migrated mg)) mm R.
Proof.
  intros HS Hs Hw Eg Ee HN HR. eapply wp_on_core; [exact Hs|].
  destruct (sys_local _ _ _ _ _ _ HS Hs) as (Ec & (Q & F & HI) & Hid & lz & Hlz & HDc).
  eapply wp_attach; [exact HI|exact Hw| |exact Hid| |].
  - rewrite Eg, Nat2Z.id. apply HS.
  - intros ->. cbn [sch glo]. rewrite machine_same by done. apply HN. by exists Q.
  - intros i F' st' EF [HI' Ei HD' Ht' Hlt [Eco Ecu (R1 & R2 & R3 & R4)]]. cbn [sch glo] in *.
    rewrite Eg, Ee in Ei, HD'.
    apply HR; cbn [Machine.globals].
    + eexists G, D. eapply (sys_step_mid mm G D (Some k) c s _ _ G D None lz HS Hs); [|done| | |congruence|done].
      * rewrite Ei, <-(set_id_same _ _ _ _ _ (m_ids_core _ _ _ Hs)), <-Ec. exact HD'.
      * by do 2 eexists.
      * unfold zombie_ring. rewrite R1, R2, R3, R4. exact Hlz.
    + eapply owner_core_held; [exact HD'|]. rewrite Ec in Hid |- *.
      exists (<[i:=Some (Z.of_nat k, gen)]> (idents s)). rewrite (set_id_same _ _ _ _ _ Hid).
      rewrite list_lookup_insert_eq by by eapply lookup_lt_Some. split; [done|].
      by apply list_lookup_insert_eq.
Qed.

(** [migrate_to] never loses a thread: afterwards the directory names the target
    core where it succeeded, and the same core as before where it did not. *)
Lemma sys_migrate_to m src tid dst :
  sys m → (src < length (Machine.cores m))%nat →
  wp (Machine.migrate_to src tid dst) m (λ b m', sys m' ∧
    Globals.owner_core (Machine.globals m') tid =
      if b : bool then Some dst else Globals.owner_core (Machine.globals m) tid).
Proof.
  intros HS Hsrc. unfold Machine.migrate_to. apply wp_bind, wp_gets. unfold Machine.num_cores.
  destruct (bool_decide (dst = src)) eqn:Ed; [by apply wp_ret|]. apply bool_decide_eq_false in Ed. cbn [orb].
  destruct (Nat.leb_spec (length (Machine.cores m)) dst) as [Hd|Hd]; [by apply wp_ret|].
  apply wp_bind, wp_gets.
  destruct (negb _) eqn:Eo; [by apply wp_ret|]. apply negb_false_iff, bool_decide_eq_true in Eo.
  destruct HS as (G & D & HS). destruct (lookup_lt_is_Some_2 _ _ Hsrc) as [s Hs].
  destruct (lookup_lt_is_Some_2 _ _ Hd) as [sd Hsd].
  destruct (sys_local _ _ _ _ _ _ HS Hs) as (Ec & (Q & F & HI) & Hid & lz & Hlz & HDc).
  apply wp_bind. eapply wp_on_core; [exact Hs|].
  assert (∀ R : bool → Machine.t → Prop, (R false m) →
    wp (mret false) (Machine.mk (<[src := s]> (Machine.cores m)) (Machine.globals m) (Machine.pending m)) R) as Hsame.
  { intros R HR. apply wp_ret. by rewrite machine_same. }
  eapply wp_detach; [exact HI|apply HS|exact Hid|intros _; apply Hsame; by split; [exists G, D|]| |].
  { intros i t _ _ _. apply Hsame. by split; [exists G, D|]. }
  intros i t mg st' Hr Ht Hu Hml Hmg [HI' Ei HD' Edir _ [Eco Ecu (R1 & R2 & R3 & R4)]]. cbn [sch glo] in *.
  pose proof (resolve_ident _ _ _ _ _ _ _ _ (sy_dir _ _ _ _ HS) Hid ltac:(done) Hr) as Hident.
  rewrite (idents_lookup _ _ _ Ht) in Hident. unfold ident in Hident. rewrite Hu in Hident.
  injection Hident as Egid Egen.
  assert (holds (m_ids m) (core s) i (Tcb.gid t) (Tcb.gen t)) as Hh.
  { exists (idents s). split; [done|]. rewrite (idents_lookup _ _ _ Ht). unfold ident. by rewrite Hu. }
  pose proof (di_fwd _ _ _ _ _ (sy_dir _ _ _ _ HS) _ _ _ _ Hh) as (Hg0 & Hgen & _).
  pose proof (migrant_welcome s Q F i t mg _ _
    (mkSt s (Machine.globals m)) HI eq_refl Ht Hu Hml Hmg eq_refl eq_refl Hg0 Hgen) as Hw.
  assert (Tcb.gid (Migrant.tcb mg) = Z.of_nat (ThreadId.slot tid) ∧
          Tcb.gen (Migrant.tcb mg) = ThreadId.gen tid) as [Mg Me].
  { rewrite (mg_tcb _ _ Hmg), <-Egid, <-Egen. by destruct t. }
  rewrite Egid, Nat2Z.id in HD'. set (k := ThreadId.slot tid) in *.
  set (m1 := Machine.mk (<[src := sch st']> (Machine.cores m)) (glo st') (Machine.pending m)).
  assert (sys_mid m1 G D (Some k)) as HS1.
  { eapply (sys_step_mid m G D None src s _ _ G D (Some k) lz HS Hs); [|done| | |congruence|done].
    - rewrite Ei, <-(set_id_same _ _ _ _ _ (m_ids_core _ _ _ Hs)), <-Ec. exact HD'.
    - by do 2 eexists.
    - unfold zombie_ring. rewrite R1, R2, R3, R4. exact Hlz. }
  assert (tid = ThreadId.mk k (ThreadId.gen tid)) as Etid by by destruct tid.
  apply wp_bind. eapply (sys_arrive m1 G D dst sd); [exact HS1| |exact Hw|exact Mg|exact Me| |].
  - cbn. by rewrite list_lookup_insert_ne.
  - intros _. apply wp_bind.
    eapply (sys_arrive m1 G D src (sch st')); [exact HS1| |exact Hw|exact Mg|exact Me| |].
    + cbn. by apply list_lookup_insert_eq.
    + intros (Q2 & HI2). exfalso.
      pose proof (FreeList.rep_unique _ _ _ (g_free _ _ _ _ (g_base _ _ _ _ HI2))
        (g_free _ _ _ _ (g_base _ _ _ _ HI'))). done.
    + intros m' HS' Ho. apply wp_ret. split; [done|]. by rewrite Eo, Etid.
  - intros m' HS' Ho. apply wp_ret. split; [done|]. by rewrite Etid.
Qed.
