(* ===== verification/SchedReach.v ===== *)
(** * Every reachable machine

    [boot] is the machine after [attach_storage] and [attach_directory]; a [step]
    is one operation of a core under its lock, a migration, or a step of the
    reaper, in any order.  Every reachable machine satisfies [sys], and no step
    the callers are allowed to take panics.  *)

From S2P Require Import Prelude PanicMonad Dll Slab Redirect SchedData Sched SchedReady SchedInv SchedWake SchedRun.
From S2P Require Import SchedTick SchedOps SchedDir SchedLife SchedEnd SchedMig SchedSystem.
Import Scheduler.
#[local] Open Scope Z_scope.

(** ** The audit

    [audit] of [crates/caprock-sched/src/lib.rs] checks the queues and the table
    at run time.  Under the invariant it reports nothing but the two conditions
    that the invariant leaves open: a queued thread whose budget is used up (9)
    and a runnable thread in no queue (7).  *)

Definition depleted_at (s : t) (i : nat) : bool :=
  match tcbs s !! i with Some t => Tcb.depleted t | None => false end.

(** ** One queue *)

Section audit.
Implicit Types (Q : queue_map) (F G : list nat) (c X : option nat) (D : nat → list nat).

Section walk.
Context (s : t) Q F (HI : inv s Q F) (p : nat) (q : ListHead.t).
Context (Hq : ListHead.count q = Z.of_nat (length (Q p))).

Lemma audit_walk_spec l1 l2 fuel :
  Q p = l1 ++ l2 → (length l2 < fuel)%nat →
  audit_walk s p q fuel (to_link (hd_error l2)) (to_link (last l1)) (Z.of_nat (length l1)) =
    if existsb (depleted_at s) l2 then Err 9
    else Ok (Z.of_nat (length (Q p)), to_link (last (Q p))).
Proof.
  pose proof (g_base _ _ _ _ HI) as HB. pose proof (g_ready _ _ _ _ HB) as HR.
  revert l1 fuel. induction l2 as [|i l2 IH]; intros l1 fuel EQ Hf; destruct fuel as [|fuel]; simpl in Hf; try lia.
  - simpl. rewrite app_nil_r in EQ. by rewrite EQ.
  - assert (i ∈ Q p) as Hi by (rewrite EQ; set_solver).
    pose proof (rd_small _ _ HR _ _ Hi) as Hs.
    destruct (g_queue _ _ _ _ HI p i Hi) as (t & Ht & Hu & Hp & Hre & Hc).
    pose proof (proj1 (rd_mem _ _ HR p i) Hi) as (Hlt & t' & Ht' & Hqd). simplify_eq.
    pose proof (rd_canon _ _ HR _ _ Ht) as [Cn Cp].
    pose proof (rd_dll _ _ HR p) as Hd. rewrite EQ in Hd. apply dll_split in Hd as [Epv Enx].
    unfold nxt, prv in Epv, Enx. rewrite Ht in Epv, Enx. simpl in Epv, Enx.
    rewrite Epv in Cp. rewrite Enx in Cn.
    simpl hd_error.
    assert ((to_link (Some i) =? NIL) = false) as E0.
    { etransitivity; [apply (to_link_NONE (Some i)); intros k [= <-]; lia|done]. }
    cbn [audit_walk]. rewrite E0.
    assert (Z.to_nat (to_link (Some i)) = i) as -> by (simpl; rewrite as_u32_small, Nat2Z.id by lia; done).
    rewrite Ht, Hu, Hre. cbn [negb BlockReasons.is_empty Z.eqb existsb]. unfold depleted_at at 1. rewrite Ht.
    destruct (Tcb.depleted t) eqn:Edp; [done|]. cbn [orb].
    rewrite Hqd, Hp, !Z.eqb_refl. cbn [negb orb]. rewrite Cp, Z.eqb_refl. cbn [negb].
    rewrite decide_False by done.
    assert (Z.of_nat (length (Q p)) <? Z.of_nat (length l1) + 1 = false) as E1.
    { apply Z.ltb_ge. rewrite EQ, length_app. cbn [length]. lia. }
    rewrite Hq, E1, Cn.
    specialize (IH (l1 ++ [i]) fuel). rewrite last_snoc, length_app in IH.
    replace (Z.of_nat (length l1) + 1) with (Z.of_nat (length l1 + length [i])) by (simpl; lia).
    apply IH; [by rewrite <-app_assoc|lia].
Qed.
End walk.

Lemma audit_queue_spec s Q F p :
  inv s Q F → (p < NPRIO)%nat →
  audit_queue s p = if existsb (depleted_at s) (Q p) then 9 else 0.
Proof.
  intros HI Hp. pose proof (g_ready _ _ _ _ (g_base _ _ _ _ HI)) as HR.
  unfold audit_queue. rewrite (rd_heads _ _ HR p Hp). cbn [ListHead.count ListHead.head ListHead.tail].
  rewrite (rd_bitmap _ _ HR).
  assert (eqb (bool_decide (Q p ≠ [])) (0 <? Z.of_nat (length (Q p))) = true) as ->.
  { destruct (Q p); [done|]. rewrite bool_decide_eq_true_2 by done. done. }
  cbn [negb]. rewrite Nat2Z.id.
  pose proof (audit_walk_spec s Q F HI p
    (ListHead.mk (to_link (hd_error (Q p))) (to_link (last (Q p))) (Z.of_nat (length (Q p))))
    eq_refl [] (Q p) (S (length (Q p))) eq_refl ltac:(lia)) as E.
  simpl length in E. change (to_link (last [])) with NIL in E. change (Z.of_nat 0) with 0 in E. rewrite E.
  destruct (existsb _ _); [done|]. by rewrite !Z.eqb_refl.
Qed.

Lemma audit_queues_spec s Q F ps :
  inv s Q F → (∀ p, p ∈ ps → (p < NPRIO)%nat) →
  audit_queues s ps = if existsb (λ p, existsb (depleted_at s) (Q p)) ps then 9 else 0.
Proof.
  intros HI. induction ps as [|p ps IH]; intros Hps; [done|]. cbn [audit_queues existsb].
  rewrite (audit_queue_spec _ _ _ _ HI) by set_solver. destruct (existsb (depleted_at s) (Q p)); [done|].
  cbn [Z.eqb orb]. apply IH. set_solver.
Qed.

(** ** The table *)

(** A thread that may run, is admitted, does not run and is in no queue. *)
Definition lost_at (s : t) (i : nat) (t : Tcb.t) : bool :=
  Tcb.used t && BlockReasons.is_empty (Tcb.reasons t) && negb (Tcb.depleted t) && Tcb.admitted t &&
  negb (bool_decide (current s = Some i)) && (Tcb.queued t =? NOT_QUEUED).

Fixpoint lost_from (s : t) (l : list Tcb.t) (i : nat) : bool :=
  match l with [] => false | t :: l => lost_at s i t || lost_from s l (S i) end.

Lemma audit_table_spec (ids : id_table) G D X st l1 l2 Q F :
  inv (sch st) Q F → dir_inv ids (glo st) G D X → ids !! core (sch st) = Some (idents (sch st)) →
  tcbs (sch st) = l1 ++ l2 →
  audit_table st l2 (length l1) (Z.of_nat (count_if budget_blocked l1)) =
    if lost_from (sch st) l2 (length l1) then 7 else 0.
Proof.
  intros HI HD Hid. pose proof (g_base _ _ _ _ HI) as HB.
  revert l1. induction l2 as [|t l2 IH]; intros l1 El.
  - simpl. rewrite app_nil_r in El. by rewrite (g_bb _ _ _ _ HB), El, Z.eqb_refl.
  - specialize (IH (l1 ++ [t])). rewrite length_app, count_if_app in IH. simpl in IH.
    rewrite Nat.add_1_r in IH. cbn [audit_table lost_from]. unfold lost_at.
    assert (tcbs (sch st) !! length l1 = Some t) as Ht by by rewrite El, list_lookup_middle.
    destruct (Tcb.used t) eqn:Hu; cbn [negb andb orb].
    + assert (holds ids (core (sch st)) (length l1) (Tcb.gid t) (Tcb.gen t)) as Hh.
      { exists (idents (sch st)). split; [done|]. unfold idents. rewrite list_lookup_fmap, Ht. simpl.
        unfold ident. by rewrite Hu. }
      pose proof (di_fwd _ _ _ _ _ HD _ _ _ _ Hh) as (_ & _ & _ & Hd).
      destruct (holds_entry _ _ _ _ _ HD _ _ _ _ Hh) as (E1 & E2 & E3 & E4).
      unfold Globals.dir_load. rewrite Hd, E1, E2, E3, E4, Z.eqb_refl, !bool_decide_eq_true_2 by done.
      cbn [andb negb].
      destruct (BlockReasons.is_empty (Tcb.reasons t) && negb (Tcb.depleted t) && Tcb.admitted t &&
                negb (bool_decide (current (sch st) = Some (length l1))) && (Tcb.queued t =? NOT_QUEUED)) eqn:E;
        [done|]. cbn [orb]. rewrite <-IH by by rewrite <-app_assoc.
      f_equal. change (BlockReasons.has (Tcb.reasons t) BlockReasons.BUDGET) with (budget_blocked t).
      rewrite count_if_cons. change (count_if budget_blocked []) with 0%nat.
      destruct (budget_blocked t); lia.
    + rewrite <-IH by by rewrite <-app_assoc. f_equal.
      rewrite count_if_cons. change (count_if budget_blocked []) with 0%nat.
      assert (budget_blocked t = false) as ->; [|lia].
      unfold budget_blocked. by rewrite (ok_free _ _ (g_tcb _ _ _ _ HB _ _ Ht) Hu).
Qed.

(** ** The whole audit *)

Definition some_queued_depleted (s : t) : Prop :=
  ∃ i t, tcbs s !! i = Some t ∧ Tcb.queued t ≠ NOT_QUEUED ∧ Tcb.depleted t = true.
Definition some_lost (s : t) : Prop := ∃ i t, tcbs s !! i = Some t ∧ lost_at s i t = true.

Lemma lost_from_spec s l i : lost_from s l i = true ↔ ∃ k t, l !! k = Some t ∧ lost_at s (i + k) t = true.
Proof.
  revert i. induction l as [|t l IH]; intros i; simpl.
  { split; [done|]. by intros (k & t & ? & _). }
  rewrite orb_true_iff, IH. split.
  - intros [H|(k & t' & Hk & H)]; [exists 0%nat, t; by rewrite Nat.add_0_r|].
    exists (S k), t'. by rewrite Nat.add_succ_r.
  - intros ([|k] & t' & Hk & H); simpl in Hk; [simplify_eq; left; by rewrite Nat.add_0_r in H|].
    right. exists k, t'. by rewrite Nat.add_succ_r in H.
Qed.

Lemma queues_depleted s Q F :
  inv s Q F → existsb (λ p, existsb (depleted_at s) (Q p)) (seq 0 NPRIO) = true ↔ some_queued_depleted s.
Proof.
  intros HI. pose proof (g_ready _ _ _ _ (g_base _ _ _ _ HI)) as HR. rewrite existsb_exists. split.
  - intros (p & _ & (i & Hi & Hd)%existsb_exists). apply list_elem_of_In in Hi. unfold depleted_at in Hd.
    apply (rd_mem _ _ HR) in Hi as (Hp & t & Ht & Hq). rewrite Ht in Hd. exists i, t.
    split_and!; [done| |done]. rewrite Hq. unfold NOT_QUEUED, NPRIO in *. lia.
  - intros (i & t & Ht & Hq & Hd). apply Z.eqb_neq in Hq.
    destruct (rd_queued_in _ _ HR i t Ht Hq) as (p & Hp & _ & Hi). exists p. split.
    + apply list_elem_of_In, elem_of_seq. lia.
    + apply existsb_exists. exists i. split; [by apply list_elem_of_In|]. unfold depleted_at. by rewrite Ht.
Qed.

Lemma audit_cases (ids : id_table) G D X st :
  Inv st → dir_inv ids (glo st) G D X → ids !! core (sch st) = Some (idents (sch st)) →
  (audit st = 9 ∧ some_queued_depleted (sch st)) ∨
  (audit st = 7 ∧ ¬ some_queued_depleted (sch st) ∧ some_lost (sch st)) ∨
  (audit st = 0 ∧ ¬ some_queued_depleted (sch st) ∧ ¬ some_lost (sch st)).
Proof.
  intros (Q & F & HI) HD Hid. unfold audit.
  rewrite (audit_queues_spec _ _ _ _ HI) by (intros p Hp%elem_of_seq; lia).
  pose proof (queues_depleted _ _ _ HI) as Hqd.
  destruct (existsb _ (seq 0 NPRIO)) eqn:E; cbn [Z.eqb].
  - left. split; [done|]. by apply Hqd.
  - assert (¬ some_queued_depleted (sch st)) as Hn by (intros H%Hqd; congruence).
    right. pose proof (audit_table_spec ids G D X st [] _ Q F HI HD Hid eq_refl) as Et.
    simpl length in Et. change (Z.of_nat (count_if budget_blocked [])) with 0 in Et. rewrite Et.
    destruct (lost_from _ _ _) eqn:El.
    + left. apply lost_from_spec in El as (k & t & Hk & Hl). split_and!; [done|done|]. by exists k, t.
    + right. split_and!; [done|done|]. intros (k & t & Hk & Hl).
      assert (lost_from (sch st) (tcbs (sch st)) 0 = true) by (apply lost_from_spec; by exists k, t). congruence.
Qed.

End audit.

Implicit Types (Q : queue_map) (F G : list nat) (D : nat → list nat) (m : Machine.t).

(** ** Booting *)

(** The cores have tables of [caps], the directory has [threads] entries. *)
Definition boot (caps : list nat) (threads : nat) : Machine.t :=
  Machine.mk (imap (λ c cap, attach_storage c cap new) caps)
    (Globals.attach_directory threads Globals.new) [].

Definition bootable (caps : list nat) (threads : nat) : Prop :=
  (length caps ≤ MAX_CORES)%nat ∧ (∀ cap, cap ∈ caps → (0 < cap)%nat ∧ Z.of_nat cap <= 2 ^ 16) ∧
  Z.of_nat threads < 2 ^ 32.

Lemma attach_inv c cap :
  (c < MAX_CORES)%nat → Z.of_nat cap <= 2 ^ 16 →
  inv (attach_storage c cap new) (λ _, []) (seq 0 cap).
Proof.
  intros Hc Hcap.
  assert (∀ i t, replicate cap Tcb.EMPTY !! i = Some t → t = Tcb.EMPTY) as He.
  { intros i t H. by apply lookup_replicate_1 in H as [-> _]. }
  assert (∀ p : Tcb.t → bool, p Tcb.EMPTY = false → count_if p (replicate cap Tcb.EMPTY) = 0%nat) as Hz.
  { intros p Hp. clear -Hp. induction cap as [|cap IH]; [done|]. simpl. by rewrite count_if_cons, Hp, IH. }
  split; [split|]; cbn [tcbs queues bitmap current free used budget_blocked_count core attach_storage
    with_free with_zombies with_tcbs with_core new].
  - split; cbn [tcbs queues bitmap attach_storage with_free with_zombies with_tcbs with_core new].
    + by rewrite length_replicate.
    + by rewrite length_replicate.
    + intros p Hp. apply lookup_replicate. done.
    + intros p. by apply dll_nil.
    + intros p i. split; [by intros ?%elem_of_nil|]. intros (Hp & t & ->%He & E).
      unfold Tcb.EMPTY, NOT_QUEUED, NPRIO in *. simpl in E. lia.
    + by intros i t ->%He.
    + intros i t ->%He. by left.
    + intros p. by rewrite Z.testbit_0_l.
    + done.
  - intros i t ->%He. split; [done|cbn; unfold NPRIO; lia|done|set_solver].
  - done.
  - apply FreeList.attach_rep. lia.
  - unfold FreeList.attach. cbn [FreeList.next]. by rewrite length_fmap, length_seq, length_replicate.
  - intros i. rewrite elem_of_seq. split.
    + intros [_ Hi]. exists Tcb.EMPTY. split; [|done]. apply lookup_replicate. split; [done|lia].
    + intros (t & Ht & _). apply lookup_lt_Some in Ht. rewrite length_replicate in Ht. lia.
  - by rewrite Hz.
  - by rewrite Hz.
  - done.
  - by intros p i ?%elem_of_nil.
Qed.

Lemma boot_core caps threads c s :
  Machine.cores (boot caps threads) !! c = Some s →
  ∃ cap, caps !! c = Some cap ∧ s = attach_storage c cap new.
Proof.
  unfold boot. cbn [Machine.cores]. rewrite list_lookup_imap. intros (cap & Hc & ->)%fmap_Some.
  by exists cap.
Qed.

Lemma boot_idents c cap : idents (attach_storage c cap new) = replicate cap None.
Proof. unfold idents. cbn. by rewrite fmap_replicate. Qed.

Lemma boot_not_held caps threads c l gid gen :
  ¬ holds (m_ids (boot caps threads)) c l gid gen.
Proof.
  intros (li & Hli & Hl). rewrite list_lookup_fmap in Hli. apply fmap_Some in Hli as (s & Hs & ->).
  apply (boot_core caps threads) in Hs as (cap & _ & ->). rewrite boot_idents in Hl. by apply lookup_replicate_1 in Hl as [? _].
Qed.

Lemma sys_boot caps threads : bootable caps threads → sys (boot caps threads).
Proof.
  intros (Hn & Hcap & Hth). exists (seq 0 threads), (λ _, []).
  assert (∀ k e, Globals.directory (Machine.globals (boot caps threads)) !! k = Some e → dir_used e = false) as Hd.
  { cbn. intros k e [-> _]%lookup_replicate_1. done. }
  split; [split|done|].
  - by intros c l gid gen H%boot_not_held.
  - intros k e He Hu _. rewrite (Hd _ _ He) in Hu. done.
  - done.
  - apply FreeList.attach_rep. exact Hth.
  - unfold FreeList.attach. cbn. by rewrite length_fmap, length_seq, length_replicate.
  - intros k [_ Hk]%elem_of_seq. exists 0. split; [|done]. cbn. apply lookup_replicate. split; [done|lia].
  - done.
  - done.
  - rewrite length_fmap. cbn. rewrite length_imap. split; [unfold MAX_CORES in Hn; lia|].
    intros c li Hli. rewrite list_lookup_fmap in Hli. apply fmap_Some in Hli as (s & Hs & ->).
    apply (boot_core caps threads) in Hs as (cap & Hc & ->). rewrite boot_idents, length_replicate.
    apply Hcap. by eapply list_elem_of_lookup_2.
  - done.
  - intros c s Hs. apply (boot_core caps threads) in Hs as (cap & Hc & ->).
    assert (c < MAX_CORES)%nat as Hcm by (apply lookup_lt_Some in Hc; lia).
    destruct (Hcap cap) as [Hpos Hsm]; [by eapply list_elem_of_lookup_2|].
    split; [done|]. split; [exists (λ _, []), (seq 0 cap); by apply attach_inv|].
    exists []. split; [|done]. apply ring_nil. cbn. by rewrite length_replicate.
Qed.

(** ** Steps *)

Section steps.
Context `{Hal}.

Inductive action :=
| Local (c : nat) (o : op)
| Spawn (c : nat) (entry arg stack_base stack_len priority : Z)
| SpawnParked (c : nat) (entry arg stack_base stack_len priority : Z)
| SpawnUserAt (c : nat) (entry arg kstack_base kstack_len el0_sp reap_base reap_len priority : Z)
| SpawnUserAtParked (c : nat) (entry arg kstack_base kstack_len el0_sp reap_base reap_len priority : Z)
| InitCore (c : nat) (priority : Z)
| ExitCurrent (c : nat) (frame : Z)
| Kill (c : nat) (tid : ThreadId.t)
| TakeZombie (c : nat)
| ReleasePending (i : nat)
| MigrateTo (src : nat) (tid : ThreadId.t) (dst : nat).

Definition done_m {A} (o : M Machine.t A) : M Machine.t unit := o ≫= λ _, mret tt.

Definition act (a : action) : M Machine.t unit :=
  match a with
  | Local c o => Machine.on_core c (run c o)
  | Spawn c e a b l p => done_m (Machine.on_core c (spawn c e a b l p))
  | SpawnParked c e a b l p => done_m (Machine.on_core c (spawn_parked c e a b l p))
  | SpawnUserAt c e a kb kl sp rb rl p => done_m (Machine.on_core c (spawn_user_at c e a kb kl sp rb rl p))
  | SpawnUserAtParked c e a kb kl sp rb rl p =>
      done_m (Machine.on_core c (spawn_user_at_parked c e a kb kl sp rb rl p))
  | InitCore c p => done_m (Machine.on_core c (init_core c p))
  | ExitCurrent c frame => done_m (Machine.on_core c (exit_current c frame))
  | Kill c tid => done_m (Machine.on_core c (kill tid c))
  | TakeZombie c => done_m (Machine.take_zombie c)
  | ReleasePending i => Machine.release_pending i
  | MigrateTo src tid dst => done_m (Machine.migrate_to src tid dst)
  end.

(** What the callers guarantee of core [c] of [m]. *)
Definition on (m : Machine.t) (c : nat) (P : t → Prop) : Prop :=
  ∃ s, Machine.cores m !! c = Some s ∧ P s.

Definition enabled (a : action) (m : Machine.t) : Prop :=
  match a with
  | Local c o => on m c (λ s, allowed o (mkSt s (Machine.globals m)))
  | Spawn c _ _ _ _ p | SpawnParked c _ _ _ _ p | SpawnUserAt c _ _ _ _ _ _ _ p
  | SpawnUserAtParked c _ _ _ _ _ _ _ p => on m c (λ _, valid_priority p)
  | InitCore c p => on m c (λ s, current s = None ∧ valid_priority p)
  | ExitCurrent c _ => on m c (λ s, is_Some (current s) ∧ has_ready (mkSt s (Machine.globals m)))
  | Kill c _ | TakeZombie c => on m c (λ _, True)
  | ReleasePending i => (i < length (Machine.pending m))%nat
  | MigrateTo src _ _ => (src < length (Machine.cores m))%nat
  end.

Lemma wp_done_m {A} (o : M Machine.t A) m (P : Machine.t → Prop) :
  wp o m (λ _, P) → wp (done_m o) m (λ _, P).
Proof. intros Ho. apply wp_bind. eapply wp_mono; [exact Ho|]. intros a m' HP. by apply wp_ret. Qed.

Lemma sys_act a m : sys m → enabled a m → wp (act a) m (λ _ m', sys m').
Proof.
  intros HS Ha. destruct a; simpl in Ha; unfold act; try apply wp_done_m;
    try (destruct Ha as (s & Hs & Ha)).
  - by eapply sys_op.
  - by eapply sys_spawn.
  - by eapply sys_spawn_parked.
  - by eapply sys_spawn_user_at.
  - by eapply sys_spawn_user_at_parked.
  - destruct Ha. by eapply sys_init_core.
  - destruct Ha. by eapply sys_exit_current.
  - by eapply sys_kill.
  - eapply wp_mono; [by eapply sys_take_zombie|]. by intros ? ? [? _].
  - eapply wp_mono; [by apply sys_release|]. by intros ? ? [? _].
  - eapply wp_mono; [by apply sys_migrate_to|]. by intros ? ? [? _].
Qed.

(** Machines reachable from the boot of cores with tables of [caps]. *)
Inductive reachable (caps : list nat) (threads : nat) : Machine.t → Prop :=
| reach_boot : reachable caps threads (boot caps threads)
| reach_step m a m' : reachable caps threads m → enabled a m → act a m = Some (tt, m') →
    reachable caps threads m'.

(** Executing a list of allowed actions. *)
#[export] Instance allowed_dec o st : Decision (allowed o st).
Proof.
  destruct o; simpl; try apply _. unfold allowed.
  destruct (resolve_in st tid) as [i|]; [|by left].
  destruct (tcbs (sch st) !! i) as [t|] eqn:E; [|left; intros ? ? [= <-] ?; congruence].
  destruct (decide (Tcb.reasons t = 0 ∧ current (sch st) ≠ Some i)) as [H1|H1].
  - left. intros ? ? [= <-] E'. rewrite E in E'. injection E' as <-. exact H1.
  - right. intros H2. apply H1. by apply H2.
Defined.

#[export] Instance on_dec m c P `{∀ s, Decision (P s)} : Decision (on m c P).
Proof.
  unfold on. destruct (Machine.cores m !! c) as [s|] eqn:E.
  - destruct (decide (P s)) as [HP|HP]; [left; by exists s|right].
    intros (s' & [= <-] & HP'). done.
  - right. by intros (s' & ? & _).
Defined.

#[export] Instance enabled_dec a m : Decision (enabled a m).
Proof. destruct a; simpl; try apply _; unfold valid_priority; apply _. Defined.

Fixpoint execute (l : list action) (m : Machine.t) : option Machine.t :=
  match l with
  | [] => Some m
  | a :: l =>
      if decide (enabled a m)
      then match act a m with Some (_, m') => execute l m' | None => None end
      else None
  end.

Lemma execute_reachable caps threads l m m' :
  reachable caps threads m → execute l m = Some m' → reachable caps threads m'.
Proof.
  revert m. induction l as [|a l IH]; intros m Hm; simpl; [by intros [= <-]|].
  case_decide as Ha; [|done]. destruct (act a m) as [[[] m1]|] eqn:E; [|done].
  apply IH. by eapply reach_step.
Qed.

Lemma reachable_sys caps threads m : bootable caps threads → reachable caps threads m → sys m.
Proof.
  intros Hb. induction 1 as [|m a m' _ IH Ha Hact]; [by apply sys_boot|].
  pose proof (sys_act a m IH Ha) as Hw. unfold wp in Hw. by rewrite Hact in Hw.
Qed.
End steps.
