(* ===== verification/SchedProps.v ===== *)
(** * The scheduler's properties

    The theorems that make [crates/caprock-sched/src/lib.rs] correct, over the
    reachable machines of [SchedReach] and for single operations.  *)

From S2P Require Import Prelude PanicMonad Dll Slab Redirect SchedData Sched SchedReady SchedInv SchedWake SchedRun.
From S2P Require Import SchedTick SchedOps SchedDir SchedLife SchedEnd SchedMig SchedSystem SchedReach.
Import Scheduler.
#[local] Open Scope Z_scope.
Implicit Types (Q : queue_map) (F G : list nat) (D : nat → list nat) (m : Machine.t).

(** ** A concrete machine *)

(** A hardware layer: the frame lies below the top of the stack. *)
Definition demo_hal : Hal :=
  {| init_thread_frame := λ top _ _ _ _, top - 272; stapeladresse := 0 |}.

Definition demo_caps : list nat := [4; 4]%nat.
Definition demo_threads : nat := 8.
Definition tid (k : nat) : ThreadId.t := ThreadId.mk k 0.

(** Core 0 runs its idle thread 0 and has the ready threads 1, 2 and 3; core 1
    runs its idle thread 4. *)
Definition demo_start : list action :=
  [InitCore 0 0; Spawn 0 1 0 4096 4096 3; Spawn 0 2 0 8192 4096 3; Spawn 0 3 0 16384 4096 3;
   InitCore 1 0].

Definition runs (l : list action) (P : Machine.t → Prop) : Prop :=
  match execute (H := demo_hal) l (boot demo_caps demo_threads) with
  | Some m => P m
  | None => False
  end.

Lemma demo_bootable : bootable demo_caps demo_threads.
Proof.
  split; [vm_compute; lia|]. split; [|reflexivity].
  intros cap Hc. assert (cap = 4%nat) as -> by (unfold demo_caps in Hc; set_solver). split; [lia|done].
Qed.

Definition demo_of (l : list action) : Machine.t :=
  default (boot [] 0) (execute (H := demo_hal) l (boot demo_caps demo_threads)).

Lemma demo_exec_reachable l :
  is_Some (execute (H := demo_hal) l (boot demo_caps demo_threads)) →
  reachable (H := demo_hal) demo_caps demo_threads (demo_of l).
Proof.
  intros [m Hm]. unfold demo_of. rewrite Hm. simpl. eapply execute_reachable; [apply reach_boot|exact Hm].
Qed.

Definition core_of (m : Machine.t) (c : nat) : t := default new (Machine.cores m !! c).
Definition st_of (m : Machine.t) (c : nat) : St := mkSt (core_of m c) (Machine.globals m).

Lemma machine_core_at m c : (c < length (Machine.cores m))%nat → Machine.cores m !! c = Some (core_of m c).
Proof. intros Hc. unfold core_of. by destruct (lookup_lt_is_Some_2 _ _ Hc) as [s ->]. Qed.

(** ** The audit and the safety of every step *)

(** C8: In every machine reached while no thread is admitted that has been stopped or
    runs already, the audit of every core reports nothing but a
    queued thread with an empty budget (9) or a runnable thread in no queue (7):
    the anomalies 1 to 6 (a queue holding an unused, blocked, running or wrongly
    linked thread, a wrong count or bitmap), 8 (the directory) and 10 (the count
    of budget-blocked threads) are impossible, and 9, 7 and 0 mean what they say.
    The condition on [admit] is part of [allowed]; [admit] does not check it, and
    [admit_stopped_queued] shows what a thread does that is stopped before it is
    admitted. *)
Theorem audit_exact `{Hal} caps threads m c s :
  bootable caps threads → reachable caps threads m → Machine.cores m !! c = Some s →
  let st := mkSt s (Machine.globals m) in
  (audit st = 9 ∧ some_queued_depleted s) ∨
  (audit st = 7 ∧ ¬ some_queued_depleted s ∧ some_lost s) ∨
  (audit st = 0 ∧ ¬ some_queued_depleted s ∧ ¬ some_lost s).
Proof.
  intros Hb Hr Hs. destruct (reachable_sys _ _ _ Hb Hr) as (G & D & HS).
  destruct (sys_local _ _ _ _ _ _ HS Hs) as (_ & HI & Hid & _).
  by apply (audit_cases _ _ _ _ (mkSt s (Machine.globals m)) HI (sy_dir _ _ _ _ HS)).
Qed.

Lemma demo_start_reachable : reachable (H := demo_hal) demo_caps demo_threads (demo_of demo_start).
Proof. apply demo_exec_reachable. by vm_compute; eexists. Qed.

Lemma demo_core c : (c < 2)%nat →
  Machine.cores (demo_of demo_start) !! c = Some (core_of (demo_of demo_start) c).
Proof. intros Hc. destruct c as [|[|c]]; [vm_compute; reflexivity..|lia]. Qed.

Lemma audit_exact_witness :
  let s := core_of (demo_of demo_start) 0 in
  let st := mkSt s (Machine.globals (demo_of demo_start)) in
  audit st = 0 ∧ ¬ some_queued_depleted s ∧ ¬ some_lost s.
Proof.
  intros s st. assert (audit st = 0) as A by (vm_compute; reflexivity).
  destruct (@audit_exact demo_hal demo_caps demo_threads (demo_of demo_start) 0 s
    demo_bootable demo_start_reachable (demo_core 0 Nat.lt_0_2)) as [[E _]|[[E _]|E]].
  - discriminate (eq_trans (eq_sym A) E).
  - discriminate (eq_trans (eq_sym A) E).
  - exact E.
Defined.

(** C2: From every reachable machine, every step its callers may take runs to its
    end: no index leaves a table, no [expect] fails, and the audit's walks end;
    the machine after it is again one of which all this holds. *)
Theorem step_runs `{Hal} caps threads m a :
  bootable caps threads → reachable caps threads m → enabled a m →
  ∃ m', act a m = Some (tt, m') ∧ reachable caps threads m'.
Proof.
  intros Hb Hr Ha. pose proof (sys_act a m (reachable_sys _ _ _ Hb Hr) Ha) as Hw.
  apply wp_run in Hw as ([] & m' & E & _). exists m'. split; [done|]. by eapply reach_step.
Qed.

Lemma step_runs_witness :
  ∃ m', act (H := demo_hal) (MigrateTo 0 (tid 2) 1) (demo_of demo_start) = Some (tt, m') ∧
    reachable (H := demo_hal) demo_caps demo_threads m'.
Proof.
  refine (@step_runs demo_hal demo_caps demo_threads (demo_of demo_start) (MigrateTo 0 (tid 2) 1)
    demo_bootable demo_start_reachable _).
  vm_compute. lia.
Defined.

(** ** Where threads are *)

(** C37: In a reachable machine the handle of every living thread leads to its core and
    its table slot, and on no other core to anything. *)
Theorem handles_exact `{Hal} caps threads m c s i t :
  bootable caps threads → reachable caps threads m →
  Machine.cores m !! c = Some s → tcbs s !! i = Some t → Tcb.used t = true →
  let h := ThreadId.mk (Z.to_nat (Tcb.gid t)) (Tcb.gen t) in
  Globals.owner_core (Machine.globals m) h = Some c ∧
  resolve_in (mkSt s (Machine.globals m)) h = Some i ∧
  ∀ c' s', Machine.cores m !! c' = Some s' → c' ≠ c →
    resolve_in (mkSt s' (Machine.globals m)) h = None.
Proof.
  intros Hb Hr Hs Ht Hu h. destruct (reachable_sys _ _ _ Hb Hr) as (G & D & HS).
  destruct (sys_local _ _ _ _ _ _ HS Hs) as (Ec & _ & Hid & _). pose proof (sy_dir _ _ _ _ HS) as HD.
  assert (idents s !! i = Some (Some (Tcb.gid t, Tcb.gen t))) as Hi.
  { rewrite (idents_lookup _ _ _ Ht). unfold ident. by rewrite Hu. }
  assert (holds (m_ids m) (core s) i (Tcb.gid t) (Tcb.gen t)) as Hh by by exists (idents s).
  pose proof (di_fwd _ _ _ _ _ HD _ _ _ _ Hh) as (Hg & _).
  split_and!.
  - rewrite <-Ec. eapply owner_core_held; [exact HD|]. rewrite Z2Nat.id by done. exact Hh.
  - by eapply resolve_held.
  - intros c' s' Hs' Hne. destruct (resolve_in _ h) as [i'|] eqn:E; [|done]. exfalso.
    destruct (sys_local _ _ _ _ _ _ HS Hs') as (Ec' & _ & Hid' & _).
    pose proof (resolve_ident _ _ _ _ _ _ _ _ HD Hid' ltac:(done) E) as Hi'.
    cbn [ThreadId.slot ThreadId.gen h] in Hi'. rewrite Z2Nat.id in Hi' by done.
    assert (holds (m_ids m) (core s') i' (Tcb.gid t) (Tcb.gen t)) as Hh' by by exists (idents s').
    destruct (holds_unique _ _ _ _ _ HD _ _ _ _ _ _ _ Hh Hh') as (E1 & _). congruence.
Qed.

Definition demo_tcb (c i : nat) : Tcb.t := default Tcb.EMPTY (tcbs (core_of (demo_of demo_start) c) !! i).

Lemma handles_exact_witness :
  let t := demo_tcb 1 0 in
  resolve_in (mkSt (core_of (demo_of demo_start) 1) (Machine.globals (demo_of demo_start)))
    (ThreadId.mk (Z.to_nat (Tcb.gid t)) (Tcb.gen t)) = Some 0%nat.
Proof.
  intros t. refine (proj1 (proj2 (@handles_exact demo_hal demo_caps demo_threads (demo_of demo_start) 1
    (core_of (demo_of demo_start) 1) 0 t demo_bootable demo_start_reachable (demo_core 1 Nat.lt_1_2) _ _)));
    vm_compute; reflexivity.
Defined.

(** The places of a thread slot: free, the thread in slot [i] of core [c], entry
    [j] of the zombie ring of core [c], entry [j] of the reaper's buffer. *)
Inductive place := Free (j : nat) | Live (c i : nat) | Ring (c j : nat) | Buffer (j : nat).

Definition slot_at (m : Machine.t) (p : place) (k : nat) : Prop :=
  match p with
  | Free j => ∃ l, FreeList.rep (Globals.gid_free (Machine.globals m)) l ∧ l !! j = Some k
  | Live c i => ∃ s t, Machine.cores m !! c = Some s ∧ tcbs s !! i = Some t ∧ Tcb.used t = true ∧
      Tcb.gid t = Z.of_nat k
  | Ring c j => ∃ s z, Machine.cores m !! c = Some s ∧ (j < zcount s)%nat ∧
      zombies s !! ((zhead s + j) mod length (zombies s))%nat = Some z ∧ Z.to_nat (Zombie.gid z) = k
  | Buffer j => Machine.pending m !! j = Some k
  end.

Lemma ring_dead m G D c s j z :
  sys_at m G D → Machine.cores m !! c = Some s → (j < zcount s)%nat →
  zombies s !! ((zhead s + j) mod length (zombies s))%nat = Some z → D c !! j = Some (Z.to_nat (Zombie.gid z)).
Proof.
  intros HS Hs Hj Hz. destruct (sy_core _ _ _ _ HS _ _ Hs) as (_ & _ & lz & Hr & ->).
  unfold dead. rewrite list_lookup_fmap.
  destruct (lookup_lt_is_Some_2 lz j) as [z' Hz']; [by rewrite <-(ring_count _ _ _ _ _ Hr)|].
  pose proof (ring_items _ _ _ _ _ Hr _ _ Hz') as E. rewrite Hz'. simpl. rewrite Hz in E. by injection E as ->.
Qed.

(** What a place says of the directory. *)
Lemma slot_at_entry m G D p k :
  sys_at m G D → slot_at m p k →
  match p with
  | Free j => G !! j = Some k
  | Live c i => ∃ gen, holds (m_ids m) c i (Z.of_nat k) gen
  | Ring c j => D c !! j = Some k ∧ (c < length (Machine.cores m))%nat
  | Buffer j => D (length (Machine.cores m)) !! j = Some k
  end.
Proof.
  intros HS. destruct p as [j|c i|c j|j]; simpl.
  - intros (l & Hl & Hk). by rewrite (FreeList.rep_unique _ _ _ (di_free _ _ _ _ _ (sy_dir _ _ _ _ HS)) Hl).
  - intros (s & t & Hs & Ht & Hu & Hg). exists (Tcb.gen t), (idents s). split; [by apply m_ids_core|].
    rewrite (idents_lookup _ _ _ Ht). unfold ident. by rewrite Hu, Hg.
  - intros (s & z & Hs & Hj & Hz & <-). split; [by eapply ring_dead|]. by eapply lookup_lt_Some.
  - intros Hk. by rewrite (sy_pending _ _ _ _ HS).
Qed.

(** In a reachable machine no thread slot is in two places: none is given to two
    threads, none is reused before the reaper has released it, and none is
    released twice. *)
Theorem thread_slots_unique `{Hal} caps threads m k p q :
  bootable caps threads → reachable caps threads m → slot_at m p k → slot_at m q k → p = q.
Proof.
  intros Hb Hr Hp Hq. destruct (reachable_sys _ _ _ Hb Hr) as (G & D & HS).
  pose proof (sy_dir _ _ _ _ HS) as HD.
  apply (slot_at_entry _ _ _ _ _ HS) in Hp, Hq.
  assert (∀ j c i gen, G !! j = Some k → ¬ holds (m_ids m) c i (Z.of_nat k) gen) as HGL.
  { intros j c i gen Hj. apply list_elem_of_lookup_2 in Hj.
    destruct (di_G _ _ _ _ _ HD _ Hj) as (e & He & Hu). by eapply unused_not_held. }
  assert (∀ j h j', G !! j = Some k → D h !! j' ≠ Some k) as HGD.
  { intros j h j' Hj Hj'. apply list_elem_of_lookup_2 in Hj. by destruct (di_D _ _ _ _ _ HD _ _ _ Hj'). }
  assert (∀ h j c i gen, D h !! j = Some k → ¬ holds (m_ids m) c i (Z.of_nat k) gen) as HDL.
  { intros h j c i gen Hj. destruct (di_D _ _ _ _ _ HD _ _ _ Hj) as (_ & e & He & Hu). by eapply unused_not_held. }
  destruct p as [j|c i|c j|j], q as [j'|c' i'|c' j'|j'];
    repeat match goal with
    | H : ∃ gen, _ |- _ => destruct H as [? H]
    | H : _ ∧ _ |- _ => destruct H
    end;
    try (exfalso; naive_solver).
  - f_equal. eapply NoDup_lookup; [|exact Hp|exact Hq]. eapply FreeList.rep_nodup, HD.
  - destruct (holds_unique _ _ _ _ _ HD _ _ _ _ _ _ _ Hp Hq) as (-> & -> & _). done.
  - destruct (di_D_inj _ _ _ _ _ HD _ _ _ _ _ H0 H2) as [-> ->]. done.
  - destruct (di_D_inj _ _ _ _ _ HD _ _ _ _ _ H0 Hq) as [-> _]. lia.
  - destruct (di_D_inj _ _ _ _ _ HD _ _ _ _ _ Hp H0) as [<- _]. lia.
  - by destruct (di_D_inj _ _ _ _ _ HD _ _ _ _ _ Hp Hq) as [_ ->].
Qed.

Lemma thread_slots_unique_witness :
  slot_at (demo_of demo_start) (Live 0 1) 1 ∧
  ∀ q, slot_at (demo_of demo_start) q 1 → Live 0 1 = q.
Proof.
  assert (slot_at (demo_of demo_start) (Live 0 1) 1) as H1.
  { exists (core_of (demo_of demo_start) 0), (demo_tcb 0 1). split; [exact (demo_core 0 Nat.lt_0_2)|].
    vm_compute. done. }
  split; [exact H1|]. intros q. exact (@thread_slots_unique demo_hal demo_caps demo_threads
    (demo_of demo_start) 1 (Live 0 1) q demo_bootable demo_start_reachable H1).
Defined.

(** [migrate_to] runs to its end and loses no thread: where it reports success the
    directory names the target core, otherwise the same core as before, and the
    thread still resolves there. *)
Theorem migrate_to_exact `{Hal} caps threads m src tid dst :
  bootable caps threads → reachable caps threads m → (src < length (Machine.cores m))%nat →
  wp (Machine.migrate_to src tid dst) m (λ b m', sys m' ∧
    Globals.owner_core (Machine.globals m') tid =
      if b : bool then Some dst else Globals.owner_core (Machine.globals m) tid).
Proof. intros Hb Hr Hs. by apply sys_migrate_to; [eapply reachable_sys|]. Qed.

Lemma migrate_to_exact_witness :
  wp (Machine.migrate_to 0 (tid 2) 1) (demo_of demo_start) (λ b m', sys m' ∧
    Globals.owner_core (Machine.globals m') (tid 2) =
      if b : bool then Some 1%nat else Globals.owner_core (Machine.globals (demo_of demo_start)) (tid 2)).
Proof.
  refine (@migrate_to_exact demo_hal demo_caps demo_threads (demo_of demo_start) 0 (tid 2) 1
    demo_bootable demo_start_reachable _).
  vm_compute. lia.
Defined.

(** [kill] ends exactly the thread of the handle, where it resolves on the core and
    does not run: its slot is empty, its directory entry has the next generation,
    so no core knows the handle any more, and no thread stays on its account; every
    other thread keeps its identity.  Otherwise it changes nothing. *)
Theorem kill_exact `{Hal} caps threads m c s h :
  bootable caps threads → reachable caps threads m → Machine.cores m !! c = Some s →
  let st := mkSt s (Machine.globals m) in
  wp (kill h c) st (λ b st',
    if b : bool then
      ∃ i, resolve_in st h = Some i ∧ current s ≠ Some i ∧
        tcbs (sch st') !! i = Some Tcb.EMPTY ∧
        idents (sch st') = <[i := None]> (idents s) ∧
        Globals.owner_core (glo st') h = None ∧
        (∀ j t, tcbs (sch st') !! j = Some t → Tcb.used t = true → Tcb.sc_donor t ≠ Some i) ∧
        current (sch st') = current s
    else st' = st ∧ (resolve_in st h = None ∨ resolve_in st h = current s)).
Proof.
  intros Hb Hr Hs st. destruct (reachable_sys _ _ _ Hb Hr) as (G & D & HS).
  destruct (sys_local _ _ _ _ _ _ HS Hs) as (Ec & (Q & F & HI) & Hid & lz & Hlz & HDc).
  pose proof (sy_dir _ _ _ _ HS) as HD.
  eapply (wp_kill (m_ids m) D c h st); [exact HI|exact HD|exact Hid|exact Hlz|exact HDc|done|].
  intros i t st1 Q1 Q' D' lz' st' Hres Hcur Ht [Eg Eco Ei _ _] Hc1 He.
  pose proof (resolve_ident _ _ _ _ _ _ _ _ HD Hid ltac:(done) Hres) as Hident.
  cbn [sch glo st] in *. rewrite (idents_lookup _ _ _ Ht) in Hident. unfold ident in Hident.
  destruct (Tcb.used t); [|done]. injection Hident as Egid _.
  exists i. destruct He as [Hgo Hgr Hgn Hei Hec Hecu Hed Hee Her HeD Heo Hel Hdo].
  split_and!; [done|done|done|congruence| |done|congruence].
  unfold Globals.owner_core, Globals.dir_load. rewrite Egid, Nat2Z.id in Hee. rewrite Hee.
  cbn [mbind option_bind]. by rewrite dir_used_pack.
Qed.

Lemma kill_exact_witness :
  let st := mkSt (core_of (demo_of demo_start) 0) (Machine.globals (demo_of demo_start)) in
  ∃ b st', kill (H := demo_hal) (tid 2) 0 st = Some (b, st') ∧ b = true ∧
    Globals.owner_core (glo st') (tid 2) = None.
Proof.
  intros st. pose proof (@kill_exact demo_hal demo_caps demo_threads (demo_of demo_start) 0
    (core_of (demo_of demo_start) 0) (tid 2) demo_bootable demo_start_reachable
    (demo_core 0 Nat.lt_0_2)) as Hw.
  cbv zeta in Hw. fold st in Hw.
  destruct (proj1 (wp_run (kill (H := demo_hal) (tid 2) 0) st _) Hw) as (b & st' & E & Hb).
  exists b, st'. split; [exact E|].
  destruct b.
  - destruct Hb as (i & _ & _ & _ & _ & Ho & _). split; [reflexivity|exact Ho].
  - exfalso. destruct Hb as [_ [Hb|Hb]]; vm_compute in Hb; discriminate Hb.
Defined.

(** ** Choosing, stopping and waking *)

(** Blocking the running thread never panics while a thread is ready.  The thread
    that runs next is the first of the highest priority that has one; its stack
    pointer is returned.  The blocked thread keeps its frame and gets exactly the
    one reason; every other thread is as before, and the chosen one has left its
    queue. *)
Theorem block_current_exact core_ n frame st Q F cur :
  inv (sch st) Q F → current (sch st) = Some cur → 0 <= n → n ≠ 1 → (∃ p, Q p ≠ []) →
  wp (block_current_mit core_ frame (Z.shiftl 1 n)) st (λ f st',
    ∃ p i t tc, hd_error (Q p) = Some i ∧ (∀ p', (p < p')%nat → Q p' = []) ∧
      tcbs (sch st) !! i = Some t ∧ tcbs (sch st) !! cur = Some tc ∧
      f = Tcb.sp t ∧ current (sch st') = Some i ∧ inv (sch st') (qdel i Q) F ∧
      others_same cur (sch st) (sch st') ∧
      unlinked <$> tcbs (sch st') !! cur =
        Some (unlinked (Tcb.block (Z.shiftl 1 n) (Tcb.with_sp frame tc)))).
Proof.
  intros HI Hc Hn Hn1 HQ. eapply wp_block_current_mit; [done..|].
  intros p i t tc s' [Hh Hhi] Ht Htc HI' Hc' Ho Hun _. by exists p, i, t, tc.
Qed.

Definition demo_st (c : nat) : St :=
  mkSt (core_of (demo_of demo_start) c) (Machine.globals (demo_of demo_start)).

Lemma demo_inv_at c : (c < 2)%nat → ∃ Q F, inv (core_of (demo_of demo_start) c) Q F.
Proof.
  intros Hc. destruct (reachable_sys _ _ _ demo_bootable demo_start_reachable) as (G & D & HS).
  by destruct (sys_local _ _ _ _ _ _ HS (demo_core c Hc)) as (_ & HI & _).
Qed.

Lemma demo_inv c : (c < 2)%nat → Inv (demo_st c).
Proof.
  intros Hc. destruct (reachable_sys _ _ _ demo_bootable demo_start_reachable) as (G & D & HS).
  by destruct (sys_local _ _ _ _ _ _ HS (demo_core c Hc)) as (_ & HI & _).
Qed.

Lemma block_current_exact_witness :
  wp (block_current_mit 0 77 (Z.shiftl 1 0)) (demo_st 0) (λ f st',
    is_Some (current (sch st')) ∧ current (sch st') ≠ None ∧ others_same 0 (sch (demo_st 0)) (sch st')).
Proof.
  destruct (demo_inv 0 Nat.lt_0_2) as (Q & F & HI).
  assert (∃ p, Q p ≠ []) as HQ.
  { apply (has_ready_queue (demo_st 0)); [apply HI|]. intros E. vm_compute in E. discriminate E. }
  refine (wp_mono _ _ _ _ (block_current_exact 0 0 77 (demo_st 0) Q F 0 HI _ (Z.le_refl 0) _ HQ) _).
  - vm_compute. reflexivity.
  - intros E. discriminate E.
  - intros f st' (p & i & t & tc & _ & _ & _ & _ & _ & Hc & _ & Ho & _).
    split; [rewrite Hc; exists i; reflexivity|]. split; [rewrite Hc; intros E; discriminate E|exact Ho].
Defined.

(** Stopping a thread for one reason and taking the reason back leaves the thread
    as it was, but for its place in the queue: it is queued afterwards exactly if
    no other reason holds it, its budget is not used up and it does not run. *)
Theorem stop_wake_roundtrip n h st i t :
  n ∈ outer_bits → Inv st → resolve_in st h = Some i → tcbs (sch st) !! i = Some t →
  BlockReasons.has (Tcb.reasons t) (Z.shiftl 1 n) = false →
  wp (stop_thread (Z.shiftl 1 n) h ≫= λ _, wake_thread (Z.shiftl 1 n) h) st (λ b st',
    b = true ∧ Inv st' ∧ others_same i (sch st) (sch st') ∧ current (sch st') = current (sch st) ∧
    ∃ t', tcbs (sch st') !! i = Some t' ∧ unlinked t' = unlinked t ∧
      (Tcb.queued t' ≠ NOT_QUEUED ↔
         Tcb.reasons t = 0 ∧ Tcb.depleted t = false ∧ current (sch st) ≠ Some i)).
Proof.
  intros Hn (Q & F & HI) Hr Ht Hh. pose proof (outer_pos n Hn) as Hn0.
  assert (Tcb.used t = true) as Hu.
  { destruct (resolve_in_Some _ _ _ Hr) as (e & t0 & _ & _ & _ & _ & _ & Ht0 & Hu & _). by simplify_eq. }
  assert (n ≠ 1) as Hn1 by (intros ->; unfold outer_bits in Hn; set_solver by lia).
  apply wp_bind, wp_bind, wp_gets. rewrite Hr. apply wp_bind.
  eapply wp_stop_with; [exact Hn|exact HI|exact Ht|done|].
  intros s1 HG1 Hq1 Ho1 Hrs1 Hun1. apply wp_ret.
  apply wp_bind, wp_gets. rewrite (resolve_quiet st _ h Hq1), Hr.
  apply fmap_Some in Hun1 as (t1 & Ht1 & E1). symmetry in E1.
  pose proof (unlinked_fields _ _ E1) as U1.
  assert (Tcb.used t1 = true ∧ Tcb.reasons t1 = BlockReasons.insert (Tcb.reasons t) (Z.shiftl 1 n) ∧
    Tcb.depleted t1 = Tcb.depleted t ∧ Tcb.priority t1 = Tcb.priority t) as (Hu1 & Hre1 & Hd1 & Hp1).
  { destruct t1, t. cbn in *. naive_solver. }
  apply wp_bind. eapply (wp_wake_from n (current (sch st)) (mkSt s1 (glo st))); [done|done|exact HG1| |exact Ht1|done|].
  { right. cbn. by rewrite (rest_same_current _ _ Hrs1). }
  intros s2 Q2 HG2 Hq2 Ho2 Hrs2 Hun2 HQ2. apply wp_ret. cbn [sch glo] in *.
  assert (current s2 = current (sch st)) as Hc2.
  { by rewrite (rest_same_current _ _ Hrs2), (rest_same_current _ _ Hrs1). }
  split; [done|]. split; [exists Q2, F; unfold inv; cbn; rewrite Hc2; exact HG2|].
  split; [intros j Hj; rewrite Ho2, Ho1; done|]. split; [done|].
  apply fmap_Some in Hun2 as (t2 & Ht2 & E2). symmetry in E2. exists t2. split; [done|].
  rewrite Hre1, remove_insert, (remove_absent _ _ Hn0 Hh), Hd1, Hp1, (rest_same_current _ _ Hrs1) in HQ2.
  assert (∀ p, i ∉ qdel i Q p) as Hnq1 by (intros p [Hx _]%elem_of_qdel; done).
  pose proof (proj2 (rd_not_queued _ _ (g_ready _ _ _ _ (g_base _ _ _ _ HG1)) _ _ Ht1) Hnq1) as Hq1'.
  rewrite Hq1', andb_true_r in HQ2. split.
  { rewrite E2. clear -E1 Hh Hn0. destruct t1, t. unfold Tcb.unblock, Tcb.block, unlinked in *.
    cbn in *. simplify_eq. by rewrite remove_insert, remove_absent. }
  pose proof (rd_not_queued _ _ (g_ready _ _ _ _ (g_base _ _ _ _ HG2)) _ _ Ht2) as Hiff.
  rewrite Z.eqb_eq in Hiff. rewrite Hiff. unfold BlockReasons.is_empty in HQ2.
  destruct (Z.eqb_spec (Tcb.reasons t) 0), (Tcb.depleted t), (decide (current (sch st) = Some i));
    rewrite ?bool_decide_eq_true_2, ?bool_decide_eq_false_2 in HQ2 by done; cbn [andb negb] in HQ2; subst Q2;
    try (split; [intros Hx; exfalso; apply Hx; exact Hnq1|intros (? & ? & ?); done]).
  split; [done|]. intros _ Hx. apply (Hx (Z.to_nat (Tcb.priority t))), elem_of_qadd. by left.
Qed.

Lemma stop_wake_roundtrip_witness :
  wp (stop_thread (Z.shiftl 1 6) (tid 2) ≫= λ _, wake_thread (Z.shiftl 1 6) (tid 2)) (demo_st 0)
    (λ b st', b = true ∧ Inv st').
Proof.
  refine (wp_mono _ _ _ _ (stop_wake_roundtrip 6 (tid 2) (demo_st 0) 2 (demo_tcb 0 2) _
    (demo_inv 0 Nat.lt_0_2) _ _ _) _).
  - unfold outer_bits. set_solver.
  - vm_compute. reflexivity.
  - vm_compute. reflexivity.
  - vm_compute. reflexivity.
  - intros b st' (Hb & HI & _). split; [exact Hb|exact HI].
Defined.

(** ** Time, accounts, encodings, and what the audit finds

    The tick plan of [nohz.rs] on the state [nohz_stand] reports, the cycle
    accounts of [cycles.rs], the packed directory entries and handles; and
    executions of the machine that show what the code does against its intention. *)

(** ** Encodings *)

(** A packed directory entry gives back its use bit, generation, core and slot,
    and a raw 64-bit handle gives back its slot and generation. *)
Theorem encodings_roundtrip used gen core_ local (h : ThreadId.t) :
  0 <= gen < 2 ^ 31 → Z.of_nat core_ < 2 ^ 16 → Z.of_nat local < 2 ^ 16 →
  Z.of_nat (ThreadId.slot h) < 2 ^ 32 → 0 <= ThreadId.gen h →
  let e := pack_dir used gen core_ local in
  dir_used e = used ∧ dir_gen e = gen ∧ dir_core e = core_ ∧ dir_local e = local ∧
  ThreadId.from_raw (ThreadId.to_raw h) = h.
Proof.
  intros Hg Hc Hl Hs Hhg e. subst e.
  rewrite dir_used_pack, dir_gen_pack, dir_core_pack, dir_local_pack, thread_id_raw_roundtrip; done.
Qed.

Lemma encodings_roundtrip_witness :
  dir_core (pack_dir true 17 3 200) = 3%nat ∧
  ThreadId.from_raw (ThreadId.to_raw (ThreadId.mk 9 5)) = ThreadId.mk 9 5.
Proof.
  destruct (encodings_roundtrip true 17 3 200 (ThreadId.mk 9 5)) as (_ & _ & H1 & _ & H2);
    [lia|lia|lia|vm_compute; reflexivity|vm_compute; discriminate|].
  split; [exact H1|exact H2].
Defined.

(** ** The tick plan *)

Lemma fold_counts (l : list ListHead.t) acc :
  0 <= acc → acc + Z.of_nat (length l) * 2 ^ 16 < 2 ^ 64 →
  (∀ q, q ∈ l → 0 <= ListHead.count q <= 2 ^ 16) →
  let r := fold_left (λ n q, wrapping_add 64 n (ListHead.count q)) l acc in
  acc <= r ∧ (r = acc → ∀ q, q ∈ l → ListHead.count q = 0).
Proof.
  revert acc. induction l as [|q l IH]; intros acc Ha Hb Hq; simpl.
  { split; [lia|]. intros _ q Hin. by apply elem_of_nil in Hin. }
  pose proof (Hq q (list_elem_of_here _ _)) as Hqq. simpl in Hb.
  rewrite wrapping_add_exact by (unfold in_width; lia).
  destruct (IH (acc + ListHead.count q)) as [H1 H2]; [lia|lia|intros q' ?; apply Hq; set_solver|].
  split; [lia|]. intros E q' [->|Hin]%elem_of_cons; [lia|]. apply H2; [lia|done].
Qed.

Definition next_wake (n : Z) (w : option Z) (t : Tcb.t) : option Z :=
  if Tcb.used t && (0 <? Tcb.budget t) && Tcb.depleted t then
    let d := saturating_sub (Tcb.next_refill t) n in
    Some (match w with Some bisher => Z.min bisher d | None => d end)
  else w.

Lemma fold_wake n (l : list Tcb.t) w :
  let r := fold_left (next_wake n) l w in
  (∀ v, w = Some v → ∃ d, r = Some d ∧ d <= v) ∧
  (∀ t, t ∈ l → Tcb.used t = true → 0 < Tcb.budget t → Tcb.depleted t = true →
     ∃ d, r = Some d ∧ d <= saturating_sub (Tcb.next_refill t) n).
Proof.
  revert w. induction l as [|t l IH]; intros w; simpl.
  { split; [intros v ->; by exists v|]. intros t Ht. by apply elem_of_nil in Ht. }
  destruct (IH (next_wake n w t)) as [H1 H2]. split.
  - intros v ->. unfold next_wake in *. destruct (_ && _); [|by apply H1].
    destruct (H1 _ eq_refl) as (d & -> & ?). exists d. split; [done|]. lia.
  - intros t' [->|Hin]%elem_of_cons Hu Hb Hd; [|by apply H2].
    assert (∃ v, next_wake n w t = Some v ∧ v <= saturating_sub (Tcb.next_refill t) n) as (v & Ev & Hv).
    { unfold next_wake. rewrite Hu, Hd. destruct (Z.ltb_spec 0 (Tcb.budget t)); [|lia]. cbn [andb].
      eexists. split; [done|]. destruct w; lia. }
    destruct (H1 v Ev) as (d & -> & ?). exists d. split; [done|lia].
Qed.

(** Where the plan leaves the tick out, nothing is missed: no thread is ready, the
    running thread has no budget that would have to be charged, and the next tick
    comes no later than the next deadline to be checked and the next refill. *)
Theorem nohz_misses_nothing s Q F rivalen weckruf schranke :
  inv s Q F → nohz_stand s = Some (rivalen, weckruf, schranke) →
  nohz_plan rivalen weckruf schranke ≠ Periodic →
  (∀ p, Q p = []) ∧ (∀ i t, current s = Some i → tcbs s !! i = Some t → Tcb.budget t <= 0) ∧
  (∀ d, nohz_plan rivalen weckruf schranke = OneShot d → 1 < d) ∧
  (naechste_frist s ≠ max_value 64 →
     ∃ d, nohz_plan rivalen weckruf schranke = OneShot d ∧ d <= saturating_sub (naechste_frist s) (now s)) ∧
  (∀ i t, tcbs s !! i = Some t → Tcb.used t = true → 0 < Tcb.budget t → Tcb.depleted t = true →
     ∃ d, nohz_plan rivalen weckruf schranke = OneShot d ∧ d <= saturating_sub (Tcb.next_refill t) (now s)).
Proof.
  intros HI Hst Hpl. pose proof (g_ready _ _ _ _ (g_base _ _ _ _ HI)) as HR.
  unfold nohz_stand in Hst.
  set (r0 := fold_left _ (queues s) 0) in Hst.
  set (w0 := if negb (naechste_frist s =? max_value 64) then _ else None) in Hst.
  change (fold_left _ (tcbs s) w0) with (fold_left (next_wake (now s)) (tcbs s) w0) in Hst.
  assert (rivalen = r0 ∧ weckruf = fold_left (next_wake (now s)) (tcbs s) w0 ∧
    (∀ i t, current s = Some i → tcbs s !! i = Some t → schranke = (0 <? Tcb.budget t))) as (-> & -> & Hsch).
  { destruct (current s) as [cur|]; [|simplify_eq; done].
    destruct (tcbs s !! cur) as [tc|] eqn:Etc; simpl in Hst; [|done]. simplify_eq. split_and!; [done|done|].
    intros i t [= <-] Ht. by simplify_eq. }
  clear Hst. destruct (fold_wake (now s) (tcbs s) w0) as [W1 W2].
  set (w := fold_left (next_wake (now s)) (tcbs s) w0) in *.
  unfold nohz_plan in *. destruct (Z.ltb_spec 0 r0); [done|]. destruct schranke; [done|].
  assert (∀ d' : Z, (∃ d : Z, w = Some d ∧ d <= d') →
    ∃ d : Z, match w with None => Disarmed | Some d => if d <=? 1 then Periodic else OneShot d end = OneShot d ∧ d <= d') as Hw.
  { intros d' (d & Ed & Hd). rewrite Ed in *. destruct (Z.leb_spec d 1); [done|]. by exists d. }
  split_and!.
  - assert (∀ q, q ∈ queues s → 0 <= ListHead.count q <= 2 ^ 16) as Hc.
    { intros q (p & Hp)%list_elem_of_lookup. assert (p < NPRIO)%nat as Hlt.
      { rewrite <-(rd_nq _ _ HR). by eapply lookup_lt_Some. }
      rewrite (rd_heads _ _ HR p Hlt) in Hp. simplify_eq. cbn.
      pose proof (rd_length _ _ HR p). pose proof (rd_cap _ _ HR). lia. }
    destruct (fold_counts (queues s) 0) as [Hr1 Hr2]; [lia|rewrite (rd_nq _ _ HR); unfold NPRIO; lia|exact Hc|].
    fold r0 in Hr1, Hr2. intros p. destruct (decide (p < NPRIO)%nat) as [Hlt|]; [|apply (rd_high _ _ HR); lia].
    pose proof (rd_heads _ _ HR p Hlt) as Hh. apply list_elem_of_lookup_2 in Hh.
    apply Hr2 in Hh; [|lia]. cbn in Hh. by destruct (Q p).
  - intros i t Hi Ht. specialize (Hsch i t Hi Ht). destruct (Z.ltb_spec 0 (Tcb.budget t)); [done|lia].
  - intros d. destruct w as [d'|]; [|done]. destruct (Z.leb_spec d' 1); [done|]. intros [= <-]. lia.
  - intros Hne. apply Hw. destruct (W1 (saturating_sub (naechste_frist s) (now s))) as (d & Ed & Hd); [|by exists d].
    unfold w0. by apply Z.eqb_neq in Hne as ->.
  - intros i t Ht Hu Hb Hd. apply Hw. apply W2; [|done..]. by eapply list_elem_of_lookup_2.
Qed.

Lemma nohz_misses_nothing_witness :
  nohz_stand (core_of (demo_of demo_start) 1) = Some (0, None, false) ∧
  ∃ Q, ∀ p : nat, (Q : queue_map) p = [].
Proof.
  assert (nohz_stand (core_of (demo_of demo_start) 1) = Some (0, None, false)) as Hs by (vm_compute; reflexivity).
  split; [exact Hs|]. destruct (demo_inv_at 1 Nat.lt_1_2) as (Q & F & HI). exists Q.
  assert (nohz_plan 0 None false ≠ Periodic) as Hp by (intros E; vm_compute in E; discriminate E).
  pose proof (nohz_misses_nothing (core_of (demo_of demo_start) 1) Q F 0 None false HI Hs Hp) as Hw.
  destruct Hw as [Hq _]. exact Hq.
Defined.

(** ** Cycle accounts *)

(** A slice is charged only where a trusted clock was read twice on the same core,
    forwards, and not further than the plausible maximum; it is then exactly the
    difference.  A rejected measurement never changes what an account has consumed;
    no measurement lowers it, and the counters saturate instead of wrapping. *)
Theorem cycle_accounts_sound prev now_ source max a :
  0 <= Stamp.cycles prev < 2 ^ 64 → 0 <= Stamp.cycles now_ < 2 ^ 64 →
  in_width 64 (CycleStats.consumed a) →
  let s := measure prev now_ source max in
  (∀ d, s = Valid d ↔ source = Invariant ∧ Stamp.core prev = Stamp.core now_ ∧
     Stamp.cycles prev <= Stamp.cycles now_ ∧ d = Stamp.cycles now_ - Stamp.cycles prev ∧ d <= max) ∧
  (∀ r, s = Rejected r → CycleStats.consumed (CycleStats.apply s a) = CycleStats.consumed a) ∧
  CycleStats.consumed a <= CycleStats.consumed (CycleStats.apply s a) < 2 ^ 64.
Proof.
  intros Hp Hn Ha s. unfold in_width in Ha.
  assert (∀ d, s = Valid d ↔ source = Invariant ∧ Stamp.core prev = Stamp.core now_ ∧
     Stamp.cycles prev <= Stamp.cycles now_ ∧ d = Stamp.cycles now_ - Stamp.cycles prev ∧ d <= max) as Hv.
  { intros d. subst s. unfold measure. destruct source; [|rewrite decide_True by done; split; [done|naive_solver]].
    rewrite decide_False by naive_solver.
    destruct (Z.eqb_spec (Stamp.core prev) (Stamp.core now_)); cbn [negb]; [|split; [done|naive_solver]].
    destruct (Z.ltb_spec (Stamp.cycles now_) (Stamp.cycles prev)); [split; [done|lia]|].
    rewrite wrapping_sub_exact by (unfold in_width; lia).
    destruct (Z.ltb_spec max (Stamp.cycles now_ - Stamp.cycles prev)); [split; [done|lia]|].
    split; [intros [= <-]; split_and!; done || lia|]. intros (_ & _ & _ & -> & _). done. }
  split; [exact Hv|]. destruct s as [d|r] eqn:Es.
  - destruct (proj1 (Hv d) eq_refl) as (_ & _ & ? & -> & _). split; [done|]. cbn.
    unfold saturating_add. lia.
  - split; [intros r' _; destruct r; done|]. destruct r; cbn; lia.
Qed.

Lemma cycle_accounts_sound_witness :
  measure (Stamp.mk 100 0) (Stamp.mk 140 0) Invariant MAX_PLAUSIBLE_SLICE = Valid 40.
Proof.
  refine (proj2 (proj1 (cycle_accounts_sound (Stamp.mk 100 0) (Stamp.mk 140 0) Invariant
    MAX_PLAUSIBLE_SLICE CycleStats.EMPTY _ _ _) 40) _); vm_compute;
    [split; [discriminate|reflexivity]..|].
  split_and!; try reflexivity; intros E; discriminate E.
Defined.

(** ** What the audit finds *)

(** Thread 3 pays for thread 1, which it called; its budget is used up, and a third
    party unblocks it before the refill. *)
Definition lost_wakeup : list action :=
  demo_start ++
  [Local 0 (SetBudget (tid 3) 1 5); Local 0 (OnTick 7 true);
   Local 0 (BlockCurrent 7); Local 0 (BlockCurrent 8); Local 0 (SwitchTo 9 (tid 1));
   Local 0 (OnTick 11 true); Local 0 (Unblock (tid 3))] ++
  replicate 5 (Local 0 (OnTick 11 true)).

(** The refill of an account whose [sc_donee] is set wakes the threads that run on
    the account but not its owner: the owner, unblocked in the meantime, is runnable,
    has budget, does not run and is in no queue ([audit] reports 7).  The reply of
    its partner does not bring it back, nor do twenty further ticks during which the
    core idles. *)
Theorem refill_loses_owner :
  runs lost_wakeup (λ m, audit (st_of m 0) = 7 ∧
    (lost_at (core_of m 0) 3 <$> tcbs (core_of m 0) !! 3%nat) = Some true) ∧
  runs (lost_wakeup ++ [Local 0 EndDonation; Local 0 (Unblock (tid 3)); Local 0 (BlockCurrent 3)] ++
        replicate 20 (Local 0 (OnTick 11 true)))
    (λ m, audit (st_of m 0) = 7 ∧ current (core_of m 0) = Some 0%nat).
Proof. by vm_compute. Qed.

(** Actions one after the other, whether their callers may take them or not. *)
Fixpoint acts (l : list action) (m : Machine.t) : option Machine.t :=
  match l with
  | [] => Some m
  | a :: l => match act (H := demo_hal) a m with Some (_, m) => acts l m | None => None end
  end.
Definition admit_stopped : list action :=
  [SpawnParked 1 1 0 32768 4096 3; Local 1 (Pause (tid 5)); Local 1 (Admit (tid 5))].
(** A thread that is parked at its creation can be paused before it is admitted: [bind_pd]
    has shown it to its domain by then.  [admit] asks for no reasons and queues it; the
    audit reports a blocked thread in a queue (2), and at the next end of a slice the
    paused thread runs. *)
Theorem admit_stopped_queued :
  reachable (H := demo_hal) demo_caps demo_threads (demo_of demo_start) ∧
  (∃ m, acts admit_stopped (demo_of demo_start) = Some m ∧ audit (st_of m 1) = 2 ∧
    (Tcb.queued <$> tcbs (core_of m 1) !! 1%nat) = Some 3 ∧
    (Tcb.reasons <$> tcbs (core_of m 1) !! 1%nat) = Some BlockReasons.PAUSE) ∧
  ∃ m, acts (admit_stopped ++ [Local 1 (OnTick 9 true)]) (demo_of demo_start) = Some m ∧
    current (core_of m 1) = Some 1%nat ∧ (Tcb.reasons <$> tcbs (core_of m 1) !! 1%nat) = Some BlockReasons.PAUSE.
Proof. split; [exact demo_start_reachable|]. by split; (eexists; split; [vm_compute; reflexivity|]); vm_compute. Qed.

(** A deadline that elapses queues its thread although its budget is used up:
    [fristen_faellig] asks only for the reasons ([audit] reports 9). *)
Theorem deadline_queues_depleted :
  runs (demo_start ++
    [Local 0 (SetBudget (tid 3) 1 5); Local 0 (OnTick 7 true);
     Local 0 (BlockCurrent 7); Local 0 (BlockCurrent 8);
     Local 0 (FristSetzen 1 BlockReasons.IPC); Local 0 (SwitchTo 9 (tid 1));
     Local 0 (OnTick 11 true); Local 0 (FristenFaellig 4)])
    (λ m, audit (st_of m 0) = 9 ∧
      (Tcb.queued <$> tcbs (core_of m 0) !! 3%nat) = Some 3 ∧
      (Tcb.depleted <$> tcbs (core_of m 0) !! 3%nat) = Some true).
Proof. by vm_compute. Qed.

(** Thread 3 calls 1, which calls 2 on the account of 3; 2 ends the donation and
    answers 1. *)
Definition nested_donation : list action :=
  demo_start ++
  [Local 0 (OnTick 7 true); Local 0 (BlockCurrent 7); Local 0 (BlockCurrent 8);
   Local 0 (SwitchTo 9 (tid 1)); Local 0 (SwitchTo 10 (tid 2)); Local 0 EndDonation;
   Local 0 (Unblock (tid 1))].

(** The inner reply clears [sc_donee] of the account while the outer call still runs
    on it, so its owner may migrate: the server's [sc_donor] then names a free slot,
    and the account of whatever thread gets that slot next. *)
Theorem migration_leaves_donor :
  runs (nested_donation ++ [MigrateTo 0 (tid 3) 1])
    (λ m, Globals.owner_core (Machine.globals m) (tid 3) = Some 1%nat ∧
      (Tcb.sc_donor <$> tcbs (core_of m 0) !! 1%nat) = Some (Some 3%nat) ∧
      (Tcb.used <$> tcbs (core_of m 0) !! 3%nat) = Some false) ∧
  runs (nested_donation ++ [MigrateTo 0 (tid 3) 1; Spawn 0 5 0 65536 4096 2])
    (λ m, (Tcb.sc_donor <$> tcbs (core_of m 0) !! 1%nat) = Some (Some 3%nat) ∧
      resolve_in (st_of m 0) (tid 5) = Some 3%nat).
Proof. by vm_compute. Qed.

(** A deadline does not migrate with its thread: the target core's [naechste_frist]
    stays where it was, and the thread sleeps on though its deadline has passed on
    the clock of either core. *)
Theorem migration_forgets_deadline :
  runs (demo_start ++
    [Local 0 (OnTick 7 true); Local 0 (FristSetzen 1 BlockReasons.IPC);
     Local 0 (BlockCurrent 7); MigrateTo 0 (tid 1) 1] ++
    replicate 20 (Local 1 (OnTick 5 true)) ++ [Local 1 (FristenFaellig 4)])
    (λ m, resolve_in (st_of m 1) (tid 1) = Some 1%nat ∧ now (core_of m 1) = 20 ∧
      (Tcb.frist <$> tcbs (core_of m 1) !! 1%nat) = Some 2 ∧
      (Tcb.reasons <$> tcbs (core_of m 1) !! 1%nat) = Some BlockReasons.IPC).
Proof. by vm_compute. Qed.
