(* ===== verification/TidQueue.v ===== *)
(** * The thread queues of an endpoint

    [TidQueue] of [src/crates/caprock-ipc/src/lib.rs]: a first-in-first-out queue
    of blocked threads in an array of [QCAP] entries.  The operations run in the
    monad over the queue, an index out of the array panics.  [rep] relates the
    array to the list of the waiting threads; the queue refines the bounded queue
    [Fifo] of lists, for every sequence of operations.  *)

From S2P Require Import Prelude PanicMonad Slab Redirect SchedData.

Module TidQueue.
Definition QUEUE_CAP : nat := 32.
Definition QCAP : nat := QUEUE_CAP.
#[global] Arguments QCAP : simpl never.

Record t := mk {
  buf : list (option ThreadId.t); head : nat; tail : nat; count : nat }.

Definition EMPTY : t := mk (replicate QCAP None) 0 0 0.

Definition enqueue (x : ThreadId.t) : M t bool :=
  q ← gets id;
  if (QCAP <=? count q)%nat then mret false
  else
    _ ← expect (buf q !! tail q);
    modify (λ q, mk (<[tail q := Some x]> (buf q)) (head q) ((tail q + 1) mod QCAP) (count q + 1)) ≫= λ _,
    mret true.

Definition is_full (q : t) : bool := (QCAP <=? count q)%nat.

Definition dequeue : M t (option ThreadId.t) :=
  q ← gets id;
  if (count q =? 0)%nat then mret None
  else
    x ← expect (buf q !! head q);
    modify (λ q, mk (<[head q := None]> (buf q)) ((head q + 1) mod QCAP) (tail q) (count q - 1)) ≫= λ _,
    mret x.

(** [for_each]: the closure's captured variables are the accumulator. *)
Definition for_each {A} (f : A → ThreadId.t → A) (a : A) : M t A :=
  q ← gets id;
  r ← fold_m (λ '(i, a) _,
        x ← expect (buf q !! i);
        mret ((i + 1) mod QCAP, match x with Some y => f a y | None => a end))
      (seq 0 (count q)) (head q, a);
  mret r.2.

Definition any_dead (live : ThreadId.t → bool) : M t bool :=
  for_each (λ dead x, if negb (live x) then true else dead) false.

(** [seen] holds the entries met so far; its length is their number. *)
Definition has_dup : M t bool :=
  r ← for_each (λ '(seen, dup) x,
        (seen ++ [x], if bool_decide (x ∈ seen) then true else dup))
      ([], false);
  mret r.2.

Definition contains (target : ThreadId.t) : M t bool :=
  for_each (λ found x, if bool_decide (x = target) then true else found) false.

Definition is_empty (q : t) : bool := (count q =? 0)%nat.

Definition remove (target : ThreadId.t) : M t bool :=
  q ← gets id;
  fold_m (λ found _,
    ox ← dequeue;
    match ox with
    | Some x =>
        if decide (x = target) then mret true
        else enqueue x ≫= λ _, mret found
    | None => mret found
    end) (seq 0 (count q)) false.
End TidQueue.
Import TidQueue.

(** ** The queue as a list *)

Definition rep (q : TidQueue.t) (l : list ThreadId.t) : Prop :=
  length (buf q) = QCAP ∧ ring (buf q) (head q) (tail q) (count q) (Some <$> l).

Lemma rep_EMPTY : rep EMPTY [].
Proof. split; [done|]. apply (ring_nil (replicate QCAP None) 0). rewrite length_replicate. unfold QCAP, QUEUE_CAP. lia. Qed.

Lemma rep_count q l : rep q l → count q = length l.
Proof. intros [_ H]. by rewrite (ring_count _ _ _ _ _ H), length_fmap. Qed.

Lemma rep_bound q l : rep q l → (length l ≤ QCAP)%nat.
Proof. intros H. rewrite <-(rep_count _ _ H). destruct H as [Hl H]. rewrite <-Hl. by eapply ring_fits. Qed.

Lemma rep_full q l : rep q l → is_full q = bool_decide (length l = QCAP).
Proof.
  intros H. unfold is_full. rewrite (rep_count _ _ H). pose proof (rep_bound _ _ H).
  destruct (Nat.leb_spec QCAP (length l)); case_bool_decide; done || lia.
Qed.

Lemma rep_is_empty q l : rep q l → is_empty q = bool_decide (l = []).
Proof.
  intros H. unfold is_empty. rewrite (rep_count _ _ H). by destruct l.
Qed.

Lemma wp_enqueue q l x (R : bool → TidQueue.t → Prop) :
  rep q l →
  (length l = QCAP → R false q) →
  ((length l < QCAP)%nat → ∀ q', rep q' (l ++ [x]) → R true q') →
  wp (enqueue x) q R.
Proof.
  intros Hq Hf Hs. pose proof (rep_bound _ _ Hq) as Hb. unfold enqueue. apply wp_bind, wp_gets.
  unfold id. rewrite (rep_count _ _ Hq). destruct (Nat.leb_spec QCAP (length l)); [apply wp_ret, Hf; lia|].
  pose proof (rep_count _ _ Hq) as Hc. destruct Hq as [Hl Hr].
  destruct (ring_push _ _ _ _ _ (Some x) Hr) as [Ht Hr']; [lia|].
  destruct (lookup_lt_is_Some_2 (buf q) (tail q)) as [y Hy]; [done|].
  apply wp_bind. eapply wp_expect; [exact Hy|]. apply wp_bind, wp_modify, wp_ret, Hs; [done|].
  split; cbn [buf head tail count]; [by rewrite length_insert|]. rewrite fmap_app, <-Hl. exact Hr'.
Qed.

Lemma wp_dequeue q l (R : option ThreadId.t → TidQueue.t → Prop) :
  rep q l →
  (l = [] → R None q) →
  (∀ x l' q', l = x :: l' → rep q' l' → R (Some x) q') →
  wp dequeue q R.
Proof.
  intros Hq Hn Hs. unfold dequeue. apply wp_bind, wp_gets. unfold id. rewrite (rep_count _ _ Hq).
  destruct l as [|x l]; [by apply wp_ret, Hn|]. cbn [length Nat.eqb].
  destruct Hq as [Hl Hr]. destruct (ring_pop _ _ _ _ _ _ Hr) as [Hh Hr'].
  apply wp_bind. eapply wp_expect; [exact Hh|]. apply wp_bind, wp_modify, wp_ret. eapply Hs; [done|].
  split; cbn [buf head tail count]; [by rewrite length_insert|]. rewrite <-Hl. eapply ring_ext; [exact Hr'|by rewrite length_insert|].
  intros k Hk. rewrite list_lookup_insert_ne; [done|].
  pose proof (ring_head _ _ _ _ _ Hr). pose proof (ring_fits _ _ _ _ _ Hr).
  rewrite Nat.Div0.add_mod_idemp_l. intros E.
  replace (head q) with ((head q + 0) mod length (buf q))%nat in E at 1 by (rewrite Nat.add_0_r; by apply Nat.mod_small).
  replace (head q + 1 + k)%nat with (head q + (1 + k))%nat in E by lia.
  apply mod_shift_inj in E; lia.
Qed.

Lemma fold_visit {A} (f : A → ThreadId.t → A) q (q0 : TidQueue.t) l h t c a :
  length (buf q) = QCAP → ring (buf q) h t c (Some <$> l) →
  ∀ n, wp (S:=TidQueue.t) (fold_m (λ '(i, a) _,
        x ← expect (buf q !! i);
        mret ((i + 1) mod QCAP, match x with Some y => f a y | None => a end)%nat)
      (seq n (length l)) (h, a)) q0 (λ r q1, q1 = q0 ∧ r.2 = foldl f a l).
Proof.
  intros Hl. revert h c a. induction l as [|x l IH]; intros h c a Hr n; [by apply wp_ret|].
  simpl. destruct (ring_pop _ _ _ _ _ _ Hr) as [Hh Hr'].
  apply wp_bind, wp_bind. eapply wp_expect; [exact Hh|]. apply wp_ret.
  rewrite Hl in Hr'. eapply IH. exact Hr'.
Qed.

Lemma wp_for_each {A} (f : A → ThreadId.t → A) a q l (R : A → TidQueue.t → Prop) :
  rep q l → R (foldl f a l) q → wp (for_each f a) q R.
Proof.
  intros Hq HR. unfold for_each. apply wp_bind, wp_gets. unfold id. apply wp_bind.
  rewrite (rep_count _ _ Hq). destruct Hq as [Hl Hr].
  eapply wp_mono; [by eapply fold_visit|]. intros r q1 [-> E]. apply wp_ret. by rewrite E.
Qed.

Lemma foldl_exists (p : ThreadId.t → bool) l b :
  foldl (λ b x, if p x then true else b) b l = b || existsb p l.
Proof.
  revert b. induction l as [|x l IH]; intros b; simpl; [by rewrite orb_false_r|].
  rewrite IH. by destruct (p x), b.
Qed.

Lemma existsb_bool_decide (P : ThreadId.t → Prop) `{∀ x, Decision (P x)} l :
  existsb (λ x, bool_decide (P x)) l = bool_decide (Exists P l).
Proof.
  symmetry. destruct (existsb _ l) eqn:E.
  - apply existsb_exists in E as (x & Hx%list_elem_of_In & Hp%bool_decide_eq_true).
    apply bool_decide_true, Exists_exists. eauto.
  - apply bool_decide_false. intros (x & Hx%list_elem_of_In & Hp)%Exists_exists.
    assert (existsb (λ x, bool_decide (P x)) l = true); [|congruence].
    apply existsb_exists. exists x. by rewrite bool_decide_true.
Qed.

Lemma wp_contains x q l (R : bool → TidQueue.t → Prop) :
  rep q l → R (bool_decide (x ∈ l)) q → wp (contains x) q R.
Proof.
  intros Hq HR. eapply wp_for_each; [exact Hq|]. rewrite foldl_exists, existsb_bool_decide. simpl.
  by rewrite (bool_decide_ext _ (x ∈ l)) by (rewrite Exists_exists; naive_solver).
Qed.

Lemma wp_any_dead live q l (R : bool → TidQueue.t → Prop) :
  rep q l → R (existsb (λ x, negb (live x)) l) q → wp (any_dead live) q R.
Proof. intros Hq HR. eapply wp_for_each; [exact Hq|]. by rewrite foldl_exists. Qed.

Lemma foldl_dup (l seen : list ThreadId.t) (dup : bool) :
  foldl (λ '(seen, dup) x, (seen ++ [x], if bool_decide (x ∈ seen) then true else dup)) (seen, dup) l =
    (seen ++ l, dup || negb (bool_decide (NoDup l ∧ Forall (λ x, x ∉ seen) l))).
Proof.
  revert seen dup. induction l as [|x l IH]; intros seen dup; cbn [foldl].
  - rewrite app_nil_r, bool_decide_true; [by rewrite orb_false_r|]. split; constructor.
  - rewrite IH, <-app_assoc. cbn [app]. f_equal.
    destruct (decide (x ∈ seen)) as [Hx|Hx]; [rewrite (bool_decide_true (x ∈ seen))|rewrite (bool_decide_false (x ∈ seen))]; try done.
    + rewrite (bool_decide_false (NoDup (x :: l) ∧ _)); [by rewrite orb_true_r|].
      rewrite Forall_cons. tauto.
    + f_equal. f_equal. apply bool_decide_ext. rewrite NoDup_cons, Forall_cons, !Forall_forall.
      set_solver.
Qed.

Lemma wp_has_dup q l (R : bool → TidQueue.t → Prop) :
  rep q l → R (negb (bool_decide (NoDup l))) q → wp has_dup q R.
Proof.
  intros Hq HR. unfold has_dup. apply wp_bind. eapply wp_for_each; [exact Hq|]. apply wp_ret.
  rewrite foldl_dup. simpl. by rewrite (bool_decide_ext _ (NoDup l)) by (rewrite Forall_forall; set_solver).
Qed.

Definition without (x : ThreadId.t) (l : list ThreadId.t) : list ThreadId.t := filter (λ y, y ≠ x) l.

Lemma elem_of_without x y l : y ∈ without x l ↔ y ≠ x ∧ y ∈ l.
Proof. unfold without. rewrite list_elem_of_filter. done. Qed.

Lemma without_absent x l : x ∉ l → without x l = l.
Proof.
  unfold without. induction l as [|y l IH]; intros H; [done|].
  rewrite filter_cons_True by set_solver. f_equal. apply IH. set_solver.
Qed.

Lemma remove_rounds x l2 : ∀ l1 found q n,
  rep q (l1 ++ l2) →
  wp (fold_m (λ found _,
        ox ← dequeue;
        match ox with
        | Some y => if decide (y = x) then mret true else enqueue y ≫= λ _, mret found
        | None => mret found
        end) (seq n (length l1)) found) q
     (λ b q', b = found || bool_decide (x ∈ l1) ∧ rep q' (l2 ++ without x l1)).
Proof.
  revert l2. intros l2 l1. revert l2. induction l1 as [|y l1 IH]; intros l2 found q n Hq; cbn [length seq fold_m].
  { apply wp_ret. rewrite app_nil_r. by rewrite bool_decide_false, orb_false_r by set_solver. }
  apply wp_bind, wp_bind. eapply wp_dequeue; [exact Hq|done|]. intros y' l' q1 [= <- <-] Hq1.
  unfold without. cbn [fst snd]. destruct (decide (y = x)) as [->|Hne].
  - apply wp_ret. eapply wp_mono; [by apply IH|]. intros b q' [-> Hq']. cbn [orb].
    rewrite (bool_decide_true (x ∈ x :: l1)), orb_true_r by set_solver. split; [done|].
    rewrite filter_cons_False by naive_solver. exact Hq'.
  - apply wp_bind. pose proof (rep_bound _ _ Hq) as Hb. simpl in Hb.
    eapply wp_enqueue; [exact Hq1|intros; lia|]. intros _ q2 Hq2. apply wp_ret.
    rewrite <-app_assoc in Hq2. eapply wp_mono; [by apply IH|]. intros b q' [-> Hq'].
    rewrite (bool_decide_ext (x ∈ y :: l1) (x ∈ l1)) by set_solver. split; [done|].
    rewrite filter_cons_True by done. by rewrite <-app_assoc in Hq'.
Qed.

Lemma wp_remove x q l (R : bool → TidQueue.t → Prop) :
  rep q l → (∀ q', rep q' (without x l) → R (bool_decide (x ∈ l)) q') → wp (remove x) q R.
Proof.
  intros Hq HR. unfold remove. apply wp_bind, wp_gets. unfold id. rewrite (rep_count _ _ Hq).
  eapply wp_mono; [apply (remove_rounds x []); by rewrite app_nil_r|]. intros b q' [-> Hq']. by apply HR.
Qed.

(** ** Refinement of the bounded queue *)

(** What the queue promises: a list of at most [QCAP] threads. *)
Module Fifo.
Definition enqueue (x : ThreadId.t) (l : list ThreadId.t) : bool * list ThreadId.t :=
  if decide (length l < QCAP)%nat then (true, l ++ [x]) else (false, l).
Definition dequeue (l : list ThreadId.t) : option ThreadId.t * list ThreadId.t :=
  match l with [] => (None, []) | x :: l => (Some x, l) end.
Definition remove (x : ThreadId.t) (l : list ThreadId.t) : bool * list ThreadId.t :=
  (bool_decide (x ∈ l), without x l).
End Fifo.

Inductive qcall :=
| Enqueue (x : ThreadId.t) | Dequeue | Remove (x : ThreadId.t) | Contains (x : ThreadId.t)
| HasDup | Entries.
Inductive qanswer :=
| Bool (b : bool) | Thread (x : option ThreadId.t) | Threads (l : list ThreadId.t).

Definition run_queue (c : qcall) : M TidQueue.t qanswer :=
  match c with
  | Enqueue x => b ← enqueue x; mret (Bool b)
  | Dequeue => x ← dequeue; mret (Thread x)
  | Remove x => b ← remove x; mret (Bool b)
  | Contains x => b ← contains x; mret (Bool b)
  | HasDup => b ← has_dup; mret (Bool b)
  | Entries => l ← for_each (λ l x, l ++ [x]) []; mret (Threads l)
  end.
Definition run_fifo (c : qcall) (l : list ThreadId.t) : qanswer * list ThreadId.t :=
  match c with
  | Enqueue x => let '(b, l) := Fifo.enqueue x l in (Bool b, l)
  | Dequeue => let '(x, l) := Fifo.dequeue l in (Thread x, l)
  | Remove x => let '(b, l) := Fifo.remove x l in (Bool b, l)
  | Contains x => (Bool (bool_decide (x ∈ l)), l)
  | HasDup => (Bool (negb (bool_decide (NoDup l))), l)
  | Entries => (Threads l, l)
  end.

Fixpoint answers (cs : list qcall) : M TidQueue.t (list qanswer) :=
  match cs with
  | [] => mret []
  | c :: cs => a ← run_queue c; l ← answers cs; mret (a :: l)
  end.
Fixpoint answers_fifo (cs : list qcall) (l : list ThreadId.t) : list qanswer :=
  match cs with
  | [] => []
  | c :: cs => let '(a, l) := run_fifo c l in a :: answers_fifo cs l
  end.

Lemma foldl_snoc l l0 : foldl (λ l (x : ThreadId.t), l ++ [x]) l0 l = l0 ++ l.
Proof.
  revert l0. induction l as [|x l IH]; intros l0; simpl; [by rewrite app_nil_r|].
  by rewrite IH, <-app_assoc.
Qed.

(** One call simulates one call of the specification. *)
Lemma run_queue_simulates c q l :
  rep q l → wp (run_queue c) q (λ a q', a = (run_fifo c l).1 ∧ rep q' (run_fifo c l).2).
Proof.
  intros Hq. destruct c; unfold run_queue; apply wp_bind.
  - eapply wp_enqueue; [exact Hq| |].
    + intros Hl. apply wp_ret. simpl. unfold Fifo.enqueue. rewrite decide_False by lia. done.
    + intros Hl q' Hq'. apply wp_ret. simpl. unfold Fifo.enqueue. by rewrite decide_True.
  - eapply wp_dequeue; [exact Hq| |].
    + intros ->. by apply wp_ret.
    + intros x l' q' -> Hq'. by apply wp_ret.
  - eapply wp_remove; [exact Hq|]. intros q' Hq'. by apply wp_ret.
  - eapply wp_contains; [exact Hq|]. by apply wp_ret.
  - eapply wp_has_dup; [exact Hq|]. by apply wp_ret.
  - eapply wp_for_each; [exact Hq|]. rewrite foldl_snoc. by apply wp_ret.
Qed.

(** The thread queue of an endpoint refines the bounded queue of lists: from the
    empty queue on, every sequence of operations runs without a panic and gives
    the answers of the specification. *)
Theorem tid_queue_refines cs : wp (answers cs) EMPTY (λ l _, l = answers_fifo cs []).
Proof.
  assert (∀ q l, rep q l → wp (answers cs) q (λ r _, r = answers_fifo cs l)) as H;
    [|apply H, rep_EMPTY].
  induction cs as [|c cs IH]; intros q l Hq; simpl; [by apply wp_ret|].
  apply wp_bind. eapply wp_mono; [by apply run_queue_simulates|]. intros a q' [-> Hq'].
  apply wp_bind. eapply wp_mono; [by apply IH|]. intros r q2 ->. apply wp_ret.
  by destruct (run_fifo c l).
Qed.
