(* ===== verification/Ipc.v ===== *)
(** * Endpoints and notifications

    [src/crates/caprock-ipc/src/lib.rs]: the synchronous rendezvous of an
    [Endpoint], the asynchronous signals of a [Notification].  The code calls the
    scheduler through the trait [SchedOps]
    ([src/crates/caprock-sched/src/lib.rs]), reads and writes the saved frames of
    blocked threads and looks up the owning core; these calls are the operations
    of the class [SchedOps], generic in the world they act on.  An operation on an
    object runs in the monad over the object and the world.  *)

From S2P Require Import Prelude PanicMonad Slab Redirect SchedData TidQueue.

#[local] Open Scope Z_scope.

(** ** Registers and result codes of [src/crates/caprock-abi/src/lib.rs] *)
Definition MSG_WORDS : nat := 4.
Module reg.
Definition SYSNO_RESULT : nat := 0.
Definition EP_BADGE : nat := 1.
Definition MSG0 : nat := 2.
Definition TAG : nat := 6.
End reg.
Module result_code.
Definition OK : Z := 0.
Definition ERR_BADCAP : Z := 1.
Definition ERR_SERVER_GONE : Z := 5.
Definition ERR_QUIESCING : Z := 8.
Definition ERR_EP_FULL : Z := 9.
End result_code.

(** ** What an endpoint asks of the system *)
Class SchedOps (W : Type) := {
  current_id : nat → M W ThreadId.t;
  owner_core : ThreadId.t → M W (option nat);
  frame_of : ThreadId.t → M W (option Z);
  wartet_auf_ipc : ThreadId.t → M W bool;
  block_current : nat → Z → M W Z;
  switch_to : nat → Z → ThreadId.t → M W Z;
  unblock : ThreadId.t → M W unit;
  end_donation : nat → M W unit;
  frame_reg : Z → nat → M W Z;
  frame_set_reg : Z → nat → Z → M W unit }.

(** ** Results *)
Module Quiescence.
Record t := mk { as_sender : bool; as_receiver : bool; as_caller : bool; as_reply_owner : bool }.
#[global] Instance eq_dec : EqDecision t.
Proof. solve_decision. Defined.
Definition default : t := mk false false false false.
Definition is_quiescent (q : t) : bool :=
  negb (as_sender q || as_receiver q || as_caller q || as_reply_owner q).
Definition merge (q other : t) : t :=
  mk (as_sender q || as_sender other) (as_receiver q || as_receiver other)
     (as_caller q || as_caller other) (as_reply_owner q || as_reply_owner other).
End Quiescence.

Inductive Role := Sender | Receiver | Caller | ReplyOwner.
#[global] Instance Role_eq_dec : EqDecision Role.
Proof. solve_decision. Defined.

Module RebindBlocked.
Record t := mk { senders_waiting : bool; other_receiver : bool; reply_open : bool }.
#[global] Instance eq_dec : EqDecision t.
Proof. solve_decision. Defined.
Definition default : t := mk false false false.
End RebindBlocked.

Inductive Rebind :=
| Done (overlapped : bool) | NoEndpoint | NotQuiescing | Blocked (b : RebindBlocked.t)
| NotReceiver | SameThread.
Definition is_done (r : Rebind) : bool := match r with Done _ => true | _ => false end.
Definition is_overlapped (r : Rebind) : bool := match r with Done true => true | _ => false end.

(** ** Endpoints *)
Module Endpoint.
Record t := mk {
  used : bool; quiescing : bool; senders : TidQueue.t; receivers : TidQueue.t;
  caller : option ThreadId.t; reply_owner : option ThreadId.t }.
Definition EMPTY : t := mk false false TidQueue.EMPTY TidQueue.EMPTY None None.

Definition with_quiescing b e := mk (used e) b (senders e) (receivers e) (caller e) (reply_owner e).
Definition with_senders q e := mk (used e) (quiescing e) q (receivers e) (caller e) (reply_owner e).
Definition with_receivers q e := mk (used e) (quiescing e) (senders e) q (caller e) (reply_owner e).
Definition with_caller c e := mk (used e) (quiescing e) (senders e) (receivers e) c (reply_owner e).
Definition with_reply_owner o e := mk (used e) (quiescing e) (senders e) (receivers e) (caller e) o.

Definition on_senders {A} (m : M TidQueue.t A) : M t A := zoom senders with_senders m.
Definition on_receivers {A} (m : M TidQueue.t A) : M t A := zoom receivers with_receivers m.

Definition is_used (e : t) : bool := used e.
Definition mark_used : M t unit :=
  modify (λ _, mk true false TidQueue.EMPTY TidQueue.EMPTY None None).

Definition partner_of (e : t) (tid : ThreadId.t) : option ThreadId.t :=
  if negb (used e) then None
  else if decide (caller e = Some tid) then reply_owner e
  else if decide (reply_owner e = Some tid) then caller e
  else None.

Definition retire_receiver (tid : ThreadId.t) : M t bool :=
  u ← gets used;
  if negb u then mret false else on_receivers (TidQueue.remove tid).

Definition begin_quiesce : M t bool :=
  e ← gets (λ e, e);
  if negb (used e) || quiescing e then mret false
  else modify (with_quiescing true) ≫= λ _, mret true.
Definition end_quiesce : M t bool :=
  war ← gets quiescing;
  modify (with_quiescing false) ≫= λ _, mret war.
Definition is_quiescing (e : t) : bool := quiescing e.

Definition receiver_count (e : t) : nat := if used e then TidQueue.count (receivers e) else 0.
Definition sender_count (e : t) : nat := if used e then TidQueue.count (senders e) else 0.

Definition quiescence_of (tid : ThreadId.t) : M t Quiescence.t :=
  e ← gets (λ e, e);
  if negb (used e) then mret Quiescence.default
  else
    s ← on_senders (TidQueue.contains tid);
    r ← on_receivers (TidQueue.contains tid);
    mret (Quiescence.mk s r (bool_decide (caller e = Some tid)) (bool_decide (reply_owner e = Some tid))).

(** [occupants]: the entries written to a buffer of [room] entries, or the number
    needed. *)
Definition occupants (room : nat) : M t (result (list (ThreadId.t * Role)) nat) :=
  e ← gets (λ e, e);
  if negb (used e) then mret (Ok [])
  else
    let push (a : list (ThreadId.t * Role) * nat) (p : ThreadId.t * Role) :=
      (if (length a.1 <? room)%nat then a.1 ++ [p] else a.1, S a.2) in
    a ← on_senders (TidQueue.for_each (λ a x, push a (x, Sender)) ([], 0%nat));
    a ← on_receivers (TidQueue.for_each (λ a x, push a (x, Receiver)) a);
    let a := match caller e with Some c => push a (c, Caller) | None => a end in
    let a := match reply_owner e with Some o => push a (o, ReplyOwner) | None => a end in
    mret (if (room <? a.2)%nat then Err a.2 else Ok a.1).

Definition gate_new_transaction (e : t) : option Z :=
  if negb (used e) then Some result_code.ERR_BADCAP
  else if quiescing e then Some result_code.ERR_QUIESCING else None.

Definition is_idle (e : t) : bool :=
  negb (used e) ||
  (TidQueue.is_empty (senders e) && TidQueue.is_empty (receivers e) &&
   bool_decide (caller e = None) && bool_decide (reply_owner e = None)).

Definition rebind_server (old new : ThreadId.t) : M t Rebind :=
  e ← gets (λ e, e);
  if negb (used e) then mret NoEndpoint
  else if negb (quiescing e) then mret NotQuiescing
  else if decide (old = new) then mret SameThread
  else
    overlapped ← on_receivers (TidQueue.contains new);
    has_old ← on_receivers (TidQueue.contains old);
    let eigene := (Nat.b2n has_old + Nat.b2n overlapped)%nat in
    let blocked := RebindBlocked.mk (negb (TidQueue.is_empty (senders e)))
      (eigene <? TidQueue.count (receivers e))%nat
      (bool_decide (is_Some (caller e)) || bool_decide (is_Some (reply_owner e))) in
    if decide (blocked ≠ RebindBlocked.default) then mret (Blocked blocked)
    else
      found ← on_receivers (TidQueue.remove old);
      if negb found then mret NotReceiver
      else
        (if negb overlapped then on_receivers (TidQueue.enqueue new) ≫= λ _, mret tt
         else mret tt) ≫= λ _,
        mret (Done overlapped).

Definition bind_receiver (tid : ThreadId.t) : M t bool :=
  u ← gets used;
  if negb u then mret false
  else
    c ← on_receivers (TidQueue.contains tid);
    if c : bool then mret false else on_receivers (TidQueue.enqueue tid).

Definition purge_thread (tid : ThreadId.t) : M t bool :=
  f1 ← on_senders (TidQueue.remove tid);
  f2 ← on_receivers (TidQueue.remove tid);
  c ← gets caller;
  if decide (c = Some tid) then
    modify (with_caller None) ≫= λ _, modify (with_reply_owner None) ≫= λ _, mret true
  else mret (f1 || f2).

Definition owner_died (owner : ThreadId.t) : M t (option ThreadId.t) :=
  e ← gets (λ e, e);
  if decide (reply_owner e = Some owner) then
    modify (with_reply_owner None) ≫= λ _,
    modify (with_caller None) ≫= λ _, mret (caller e)
  else mret None.

Definition abort_call (c : ThreadId.t) : M t (option ThreadId.t) :=
  e ← gets (λ e, e);
  if decide (caller e = Some c) then
    modify (with_reply_owner None) ≫= λ _,
    modify (with_caller None) ≫= λ _, mret (caller e)
  else mret None.

Definition migrate_owner (old_owner : ThreadId.t) : M t bool :=
  e ← gets (λ e, e);
  if used e && bool_decide (reply_owner e = Some old_owner) && negb (TidQueue.is_full (senders e)) then
    match caller e with
    | Some c =>
        modify (with_caller None) ≫= λ _,
        modify (with_reply_owner None) ≫= λ _,
        on_senders (TidQueue.enqueue c) ≫= λ _, mret true
    | None => mret false
    end
  else mret false.

(** [audit]: dead entries, duplicates.  The disjunctions of the source stop at the
    first [true]; the operands only read. *)
Definition audit (live : ThreadId.t → bool) : M t (bool * bool) :=
  e ← gets (λ e, e);
  d1 ← on_senders (TidQueue.any_dead live);
  d2 ← on_receivers (TidQueue.any_dead live);
  let dead := d1 || d2 || match caller e with Some c => negb (live c) | None => false end
                       || match reply_owner e with Some o => negb (live o) | None => false end in
  p1 ← on_senders TidQueue.has_dup;
  p2 ← on_receivers TidQueue.has_dup;
  mret (dead, p1 || p2).
End Endpoint.

(** ** Operations on an object and the world *)
Section ipc.
Context {W : Type} `{SchedOps W}.

Definition on_obj {O A} (m : M O A) : M (O * W) A := zoom fst (λ o s, (o, s.2)) m.
Definition on_world {O A} (m : M W A) : M (O * W) A := zoom snd (λ w s, (s.1, w)) m.

(** [transfer]: the message words and the tag. *)
Definition transfer (src dst : Z) : M W unit :=
  for_ (seq 0 MSG_WORDS) (λ i,
    v ← frame_reg src (reg.MSG0 + i)%nat; frame_set_reg dst (reg.MSG0 + i)%nat v) ≫= λ _,
  v ← frame_reg src reg.TAG; frame_set_reg dst reg.TAG v.

(** The rendezvous of [call] with the waiting [server]. *)
Definition meet_server (core : nat) (frame badge : Z) (caller server : ThreadId.t) (sframe : Z) :
    M (Endpoint.t * W) Z :=
  on_world (transfer frame sframe) ≫= λ _,
  on_world (frame_set_reg sframe reg.SYSNO_RESULT result_code.OK) ≫= λ _,
  on_world (frame_set_reg sframe reg.EP_BADGE badge) ≫= λ _,
  on_obj (modify (Endpoint.with_caller (Some caller))) ≫= λ _,
  on_obj (modify (Endpoint.with_reply_owner (Some server))) ≫= λ _,
  oc ← on_world (owner_core server);
  if decide (oc = Some core) then on_world (switch_to core frame server)
  else on_world (unblock server) ≫= λ _, on_world (block_current core frame).

(** The search of [call] for a living receiver; a round takes an entry out of a
    queue of at most [QCAP]. *)
Fixpoint call_receivers (fuel : nat) (core : nat) (frame badge : Z) (caller : ThreadId.t) :
    M (Endpoint.t * W) (option Z) :=
  match fuel with
  | O => panic
  | S fuel =>
      os ← on_obj (Endpoint.on_receivers TidQueue.dequeue);
      match os with
      | None => mret None
      | Some server =>
          osf ← on_world (frame_of server);
          match osf with
          | None => call_receivers fuel core frame badge caller
          | Some sframe =>
              f ← meet_server core frame badge caller server sframe; mret (Some f)
          end
      end
  end.

Definition call (core : nat) (frame badge : Z) : M (Endpoint.t * W) Z :=
  g ← on_obj (gets Endpoint.gate_new_transaction);
  match g with
  | Some code => on_world (frame_set_reg frame reg.SYSNO_RESULT code) ≫= λ _, mret frame
  | None =>
      caller ← on_world (current_id core);
      on_world (frame_set_reg frame reg.EP_BADGE badge) ≫= λ _,
      fo ← call_receivers (S TidQueue.QCAP) core frame badge caller;
      match fo with
      | Some f => mret f
      | None =>
          b ← on_obj (Endpoint.on_senders (TidQueue.enqueue caller));
          if negb b then
            on_world (frame_set_reg frame reg.SYSNO_RESULT result_code.ERR_EP_FULL) ≫= λ _, mret frame
          else on_world (block_current core frame)
      end
  end.

(** The rendezvous of [recv] with the waiting [sender]. *)
Definition meet_sender (frame : Z) (server sender : ThreadId.t) (cframe : Z) : M (Endpoint.t * W) Z :=
  on_world (transfer cframe frame) ≫= λ _,
  on_world (frame_set_reg frame reg.SYSNO_RESULT result_code.OK) ≫= λ _,
  b ← on_world (frame_reg cframe reg.EP_BADGE);
  on_world (frame_set_reg frame reg.EP_BADGE b) ≫= λ _,
  on_obj (modify (Endpoint.with_caller (Some sender))) ≫= λ _,
  on_obj (modify (Endpoint.with_reply_owner (Some server))) ≫= λ _,
  mret frame.

(** The search of [recv] for a living sender. *)
Fixpoint recv_senders (fuel : nat) (frame : Z) (server : ThreadId.t) :
    M (Endpoint.t * W) (option Z) :=
  match fuel with
  | O => panic
  | S fuel =>
      os ← on_obj (Endpoint.on_senders TidQueue.dequeue);
      match os with
      | None => mret None
      | Some sender =>
          ocf ← on_world (frame_of sender);
          match ocf with
          | None => recv_senders fuel frame server
          | Some cframe => f ← meet_sender frame server sender cframe; mret (Some f)
          end
      end
  end.

Definition recv (core : nat) (frame : Z) : M (Endpoint.t * W) Z :=
  g ← on_obj (gets Endpoint.gate_new_transaction);
  match g with
  | Some code => on_world (frame_set_reg frame reg.SYSNO_RESULT code) ≫= λ _, mret frame
  | None =>
      server ← on_world (current_id core);
      fo ← recv_senders (S TidQueue.QCAP) frame server;
      match fo with
      | Some f => mret f
      | None =>
          b ← on_obj (Endpoint.on_receivers (TidQueue.enqueue server));
          if negb b then
            on_world (frame_set_reg frame reg.SYSNO_RESULT result_code.ERR_EP_FULL) ≫= λ _, mret frame
          else on_world (block_current core frame)
      end
  end.

(** What [reply] does for the caller the token named. *)
Definition answer_caller (frame : Z) (oc : option ThreadId.t) : M (Endpoint.t * W) unit :=
  match oc with
  | None => mret tt
  | Some caller =>
      w ← on_world (wartet_auf_ipc caller);
      if negb w then mret tt
      else
        ocf ← on_world (frame_of caller);
        match ocf with
        | Some cframe =>
            on_world (transfer frame cframe) ≫= λ _,
            on_world (frame_set_reg cframe reg.SYSNO_RESULT result_code.OK) ≫= λ _,
            on_world (unblock caller)
        | None => on_world (unblock caller)
        end
  end.

Definition reply (core : nat) (frame : Z) : M (Endpoint.t * W) Z :=
  u ← on_obj (gets Endpoint.used);
  if negb u then
    on_world (frame_set_reg frame reg.SYSNO_RESULT result_code.ERR_BADCAP) ≫= λ _, mret frame
  else
    on_world (end_donation core) ≫= λ _,
    on_obj (modify (Endpoint.with_reply_owner None)) ≫= λ _,
    oc ← on_obj (gets Endpoint.caller);
    on_obj (modify (Endpoint.with_caller None)) ≫= λ _,
    answer_caller frame oc ≫= λ _,
    on_world (frame_set_reg frame reg.SYSNO_RESULT result_code.OK) ≫= λ _,
    mret frame.
End ipc.

(** ** Notifications *)
Module Notification.
Record t := mk { used : bool; pending : Z; waiter : option ThreadId.t }.
Definition EMPTY : t := mk false 0 None.
Definition with_pending p n := mk (used n) p (waiter n).
Definition with_waiter w n := mk (used n) (pending n) w.

Definition is_used (n : t) : bool := used n.
Definition pending_badge (n : t) : Z := pending n.
Definition mark_used : M t unit := modify (λ _, mk true 0 None).

Definition purge_thread (tid : ThreadId.t) : M t bool :=
  w ← gets waiter;
  if decide (w = Some tid) then modify (with_waiter None) ≫= λ _, mret true else mret false.

Definition audit (live : ThreadId.t → bool) (n : t) : bool :=
  match waiter n with Some w => negb (live w) | None => false end.

Definition quiescence_of (tid : ThreadId.t) (n : t) : Quiescence.t :=
  Quiescence.mk false (used n && bool_decide (waiter n = Some tid)) false false.

Definition occupants (room : nat) (n : t) : result (list (ThreadId.t * Role)) nat :=
  match waiter n with
  | Some w =>
      if used n then if (room =? 0)%nat then Err 1%nat else Ok [(w, Receiver)] else Ok []
  | None => Ok []
  end.

Section world.
Context {W : Type} `{SchedOps W}.

(** The common part of [signal] and [signal_from_kernel]. *)
Definition deliver (badge : Z) : M (t * W) unit :=
  on_obj (modify (λ n, with_pending (Z.lor (pending n) badge) n)) ≫= λ _,
  ow ← on_obj (gets waiter);
  on_obj (modify (with_waiter None)) ≫= λ _,
  match ow with
  | None => mret tt
  | Some w =>
      owf ← on_world (frame_of w);
      match owf with
      | Some wframe =>
          on_world (frame_set_reg wframe reg.SYSNO_RESULT result_code.OK) ≫= λ _,
          p ← on_obj (gets pending);
          on_world (frame_set_reg wframe reg.EP_BADGE p) ≫= λ _,
          on_obj (modify (with_pending 0))
      | None => mret tt
      end ≫= λ _,
      on_world (unblock w)
  end.

Definition signal (badge frame : Z) : M (t * W) Z :=
  u ← on_obj (gets used);
  if negb u then
    on_world (frame_set_reg frame reg.SYSNO_RESULT result_code.ERR_BADCAP) ≫= λ _, mret frame
  else
    deliver badge ≫= λ _,
    on_world (frame_set_reg frame reg.SYSNO_RESULT result_code.OK) ≫= λ _, mret frame.

Definition signal_from_kernel (badge : Z) : M (t * W) unit :=
  u ← on_obj (gets used);
  if negb u then mret tt else deliver badge.

Definition wait (core : nat) (frame : Z) : M (t * W) Z :=
  n ← on_obj (gets id);
  if negb (used n) then
    on_world (frame_set_reg frame reg.SYSNO_RESULT result_code.ERR_BADCAP) ≫= λ _, mret frame
  else if negb (pending n =? 0) then
    on_world (frame_set_reg frame reg.SYSNO_RESULT result_code.OK) ≫= λ _,
    on_world (frame_set_reg frame reg.EP_BADGE (pending n)) ≫= λ _,
    on_obj (modify (with_pending 0)) ≫= λ _, mret frame
  else if decide (is_Some (waiter n)) then
    on_world (frame_set_reg frame reg.SYSNO_RESULT result_code.ERR_EP_FULL) ≫= λ _, mret frame
  else
    c ← on_world (current_id core);
    on_obj (modify (with_waiter (Some c))) ≫= λ _,
    on_world (block_current core frame).
End world.
End Notification.
