(* ===== verification/IpcLaws.v ===== *)
(** * The contract between IPC and the scheduler

    [SchedLaws] states what the operations of [SchedOps] promise to an endpoint:
    what a world shows of its threads, and how each operation changes it.  The
    lemmas below derive from it the effect of the steps that
    [src/crates/caprock-ipc/src/lib.rs] is composed of.  The kernel's facade over
    the scheduler instances discharges the contract in [IpcKernel].  *)

From S2P Require Import Prelude PanicMonad Slab Redirect SchedData TidQueue Ipc.
#[local] Open Scope Z_scope.

(** The registers a message may touch. *)
Definition abi_regs : nat := 7.

Class SchedLaws (W : Type) `{SchedOps W} := {
  ok : W → Prop;
  (** the running thread of a core, and whether another one is ready there *)
  running : W → nat → option ThreadId.t;
  yields : W → nat → Prop;
  (** the owning core of a living thread, its saved frame, whether it waits for IPC *)
  place : W → ThreadId.t → option nat;
  thread : W → ThreadId.t → option (Z * bool);
  regs : W → Z → nat → Z;

  law_running w c t : ok w → running w c = Some t →
    place w t = Some c ∧ ∃ f, thread w t = Some (f, false);
  law_place w t : ok w → is_Some (place w t) ↔ is_Some (thread w t);
  law_current_id w c t : ok w → running w c = Some t → current_id c w = Some (t, w);
  law_owner_core w t : ok w → owner_core t w = Some (place w t, w);
  law_frame_of w t : ok w → frame_of t w = Some (fst <$> thread w t, w);
  law_wartet w t : ok w → wartet_auf_ipc t w = Some (from_option snd false (thread w t), w);
  law_reg w f i : (i < abi_regs)%nat → frame_reg f i w = Some (regs w f i, w);
  law_set_reg w f i v : ok w → (i < abi_regs)%nat →
    wp (frame_set_reg f i v) w (λ _ w', ok w' ∧
      (∀ c, running w' c = running w c) ∧ (∀ c, yields w c → yields w' c) ∧
      (∀ t, place w' t = place w t) ∧ (∀ t, thread w' t = thread w t) ∧
      ∀ g j, (j < abi_regs)%nat → regs w' g j = if decide (g = f ∧ j = i) then v else regs w g j);
  law_unblock w t : ok w →
    wp (unblock t) w (λ _ w', ok w' ∧
      (∀ c, running w' c = running w c) ∧ (∀ c, yields w c → yields w' c) ∧
      (∀ x, place w' x = place w x) ∧
      (∀ x, thread w' x = if decide (x = t) then (λ '(f, _), (f, false)) <$> thread w x else thread w x) ∧
      ∀ g j, regs w' g j = regs w g j);
  law_end_donation w c : ok w → is_Some (running w c) →
    wp (end_donation c) w (λ _ w', ok w' ∧
      (∀ c, running w' c = running w c) ∧ (∀ c, yields w c → yields w' c) ∧
      (∀ t, place w' t = place w t) ∧ (∀ t, thread w' t = thread w t) ∧
      ∀ g j, regs w' g j = regs w g j);
  law_block_current w c frame cur : ok w → running w c = Some cur → yields w c →
    wp (block_current c frame) w (λ _ w', ok w' ∧
      (∀ t, place w' t = place w t) ∧
      (∀ t, thread w' t = if decide (t = cur) then Some (frame, true) else thread w t) ∧
      ∀ g j, regs w' g j = regs w g j);
  law_switch_to w c frame cur target : ok w → running w c = Some cur → yields w c →
    place w target = Some c → target ≠ cur →
    wp (switch_to c frame target) w (λ _ w', ok w' ∧
      (∀ t, place w' t = place w t) ∧
      (∀ t, thread w' t = if decide (t = cur) then Some (frame, true)
                          else if decide (t = target) then (λ '(f, _), (f, false)) <$> thread w t
                          else thread w t) ∧
      ∀ g j, regs w' g j = regs w g j) }.

Section laws.
Context {W : Type} `{SchedLaws W}.
Implicit Types (w : W) (t : ThreadId.t).

Definition alive w t : Prop := is_Some (thread w t).
#[global] Instance alive_dec w t : Decision (alive w t).
Proof. unfold alive. apply _. Defined.
Definition waits w t : Prop := ∃ f, thread w t = Some (f, true).

(** The world but for the registers. *)
Record same w w' : Prop := {
  sm_ok : ok w';
  sm_running : ∀ c, running w' c = running w c;
  sm_yields : ∀ c, yields w c → yields w' c;
  sm_place : ∀ t, place w' t = place w t;
  sm_thread : ∀ t, thread w' t = thread w t }.

Lemma same_refl w : ok w → same w w.
Proof. by split. Qed.
Lemma same_trans w1 w2 w3 : same w1 w2 → same w2 w3 → same w1 w3.
Proof. intros [] []. split; try done; try congruence; eauto. Qed.

(** Only frame [f] has changed, to the registers [v]. *)
Definition frame_is w w' (f : Z) (v : nat → Z) : Prop :=
  (∀ j, (j < abi_regs)%nat → regs w' f j = v j) ∧
  (∀ g j, (j < abi_regs)%nat → g ≠ f → regs w' g j = regs w g j).

Lemma wp_set_reg w f i v (R : unit → W → Prop) :
  ok w → (i < abi_regs)%nat →
  (∀ w', same w w' → frame_is w w' f (λ j, if decide (j = i) then v else regs w f j) → R tt w') →
  wp (frame_set_reg f i v) w R.
Proof.
  intros Hw Hi HR. eapply wp_mono; [by apply law_set_reg|]. intros [] w' (? & ? & ? & ? & ? & Hr).
  apply HR; [by split|]. split; intros; rewrite Hr by done; repeat case_decide; naive_solver.
Qed.

Lemma wp_reg w f i (R : Z → W → Prop) : (i < abi_regs)%nat → R (regs w f i) w → wp (frame_reg f i) w R.
Proof. intros Hi HR. unfold wp. by rewrite law_reg. Qed.

Lemma wp_frame_of w t (R : option Z → W → Prop) : ok w → R (fst <$> thread w t) w → wp (frame_of t) w R.
Proof. intros Hw HR. unfold wp. by rewrite law_frame_of. Qed.

Lemma wp_current_id w c t (R : ThreadId.t → W → Prop) :
  ok w → running w c = Some t → R t w → wp (current_id c) w R.
Proof. intros Hw Hc HR. unfold wp. by erewrite law_current_id. Qed.

Lemma wp_owner_core w t (R : option nat → W → Prop) : ok w → R (place w t) w → wp (owner_core t) w R.
Proof. intros Hw HR. unfold wp. by rewrite law_owner_core. Qed.

Lemma wp_wartet w t (R : bool → W → Prop) :
  ok w → R (from_option snd false (thread w t)) w → wp (wartet_auf_ipc t) w R.
Proof. intros Hw HR. unfold wp. by rewrite law_wartet. Qed.

(** The words a message carries over: the data words and the tag. *)
Definition message (j : nat) : Prop := (reg.MSG0 ≤ j < abi_regs)%nat.
#[global] Instance message_dec j : Decision (message j).
Proof. unfold message. apply _. Defined.

Lemma wp_copy_reg w src dst i (R : unit → W → Prop) :
  ok w → (i < abi_regs)%nat →
  (∀ w', same w w' →
     frame_is w w' dst (λ j, if decide (j = i) then regs w src i else regs w dst j) → R tt w') →
  wp (v ← frame_reg src i; frame_set_reg dst i v) w R.
Proof. intros Hw Hi HR. apply wp_bind, wp_reg; [done|]. by apply wp_set_reg. Qed.

Lemma wp_copy_regs w src dst n k (R : unit → W → Prop) :
  ok w → (n + k ≤ abi_regs)%nat →
  (∀ w', same w w' →
     frame_is w w' dst (λ j, if decide (n ≤ j < n + k)%nat then regs w src j else regs w dst j) → R tt w') →
  wp (for_ (seq 0 k) (λ i, v ← frame_reg src (n + i)%nat; frame_set_reg dst (n + i)%nat v)) w R.
Proof.
  intros Hw Hk HR. unfold for_.
  assert (∀ l i (m : nat) w0, (i + m = k)%nat → l = seq i m → same w w0 →
    frame_is w w0 dst (λ j, if decide (n ≤ j < n + i)%nat then regs w src j else regs w dst j) →
    wp (fold_m (λ _ i, v ← frame_reg src (n + i)%nat; frame_set_reg dst (n + i)%nat v) l tt) w0 R) as Hgo.
  { induction l as [|x l IH]; intros i m w0 Him Hl Hs [Hd Ho]; destruct m as [|m]; try done; simpl in *.
    - apply wp_ret, HR; [done|]. replace k with i by lia. by split.
    - injection Hl as -> ->. apply wp_bind. apply wp_copy_reg; [apply Hs|lia|].
      intros w1 Hs1 [Hd1 Ho1]. eapply (IH (S i) m); [lia|done|by eapply same_trans|].
      split; [|intros; rewrite Ho1, Ho by done; done].
      intros j Hj. rewrite Hd1 by done. destruct (decide (j = n + i)%nat) as [->|Hne].
      + rewrite decide_True by lia. destruct (decide (src = dst)) as [->|Hsd]; [|by apply Ho].
        rewrite Hd by done. by case_decide.
      + rewrite Hd by done. repeat case_decide; try done; lia. }
  eapply (Hgo _ 0%nat k w); [lia|done|by apply same_refl|]. split; [|done].
  intros j Hj. by rewrite decide_False by lia.
Qed.

Lemma wp_transfer w src dst (R : unit → W → Prop) :
  ok w →
  (∀ w', same w w' →
     frame_is w w' dst (λ j, if decide (message j) then regs w src j else regs w dst j) → R tt w') →
  wp (transfer src dst) w R.
Proof.
  intros Hw HR. unfold transfer. apply wp_bind. apply wp_copy_regs; [done|unfold abi_regs, reg.MSG0, MSG_WORDS; lia|].
  intros w1 Hs1 [Hd1 Ho1]. apply wp_copy_reg; [apply Hs1|unfold abi_regs, reg.TAG; lia|].
  intros w2 Hs2 [Hd2 Ho2]. apply HR; [by eapply same_trans|]. split; [|intros; rewrite Ho2, Ho1 by done; done].
  unfold message, abi_regs, reg.MSG0, reg.TAG, MSG_WORDS in *. intros j Hj. rewrite Hd2 by done.
  destruct (decide (j = 6)%nat) as [->|Hne].
  - rewrite decide_True by lia. destruct (decide (src = dst)) as [->|Hsd]; [|apply Ho1; [lia|done]].
    rewrite Hd1 by done. by rewrite decide_False by lia.
  - rewrite Hd1 by done. repeat case_decide; try done; lia.
Qed.

(** A message as its receiver sees it: the words of [src], success, the badge. *)
Definition delivered w w' (src dst badge : Z) : Prop :=
  frame_is w w' dst (λ j, if decide (message j) then regs w src j
                          else if decide (j = reg.EP_BADGE) then badge else result_code.OK).

Lemma wp_law_unblock w t (R : unit → W → Prop) :
  ok w →
  (∀ w', ok w' → (∀ c, running w' c = running w c) → (∀ c, yields w c → yields w' c) →
     (∀ x, place w' x = place w x) →
     (∀ x, thread w' x = if decide (x = t) then (λ '(f, _), (f, false)) <$> thread w x else thread w x) →
     (∀ g j, regs w' g j = regs w g j) → R tt w') →
  wp (unblock t) w R.
Proof.
  intros Hw HR. eapply wp_mono; [by apply law_unblock|]. intros [] w' (? & ? & ? & ? & ? & ?). by apply HR.
Qed.

Lemma wp_block_current w c frame cur (R : Z → W → Prop) :
  ok w → running w c = Some cur → yields w c →
  (∀ f w', ok w' → (∀ x, place w' x = place w x) →
     (∀ x, thread w' x = if decide (x = cur) then Some (frame, true) else thread w x) →
     (∀ g j, regs w' g j = regs w g j) → R f w') →
  wp (block_current c frame) w R.
Proof.
  intros Hw Hc Hy HR. eapply wp_mono; [by eapply law_block_current|]. intros f w' (? & ? & ? & ?). by apply HR.
Qed.
End laws.

(** Running a part of the pair of an object and a world. *)
Section pair.
Context {O W : Type}.

Lemma wp_on_obj {A} (m : M O A) (o : O) (w : W) (R : A → O * W → Prop) :
  wp m o (λ a o', R a (o', w)) → wp (on_obj m) (o, w) R.
Proof. intros Hm. by apply wp_zoom. Qed.

Lemma wp_on_world {A} (m : M W A) (o : O) (w : W) (R : A → O * W → Prop) :
  wp m w (λ a w', R a (o, w')) → wp (on_world m) (o, w) R.
Proof. intros Hm. by apply wp_zoom. Qed.

Lemma wp_obj_gets {A} (f : O → A) (o : O) (w : W) (R : A → O * W → Prop) :
  R (f o) (o, w) → wp (on_obj (gets f)) (o, w) R.
Proof. intros HR. by apply wp_on_obj, wp_gets. Qed.

Lemma wp_obj_modify f (o : O) (w : W) (R : unit → O * W → Prop) :
  R tt (f o, w) → wp (on_obj (modify f)) (o, w) R.
Proof. intros HR. by apply wp_on_obj, wp_modify. Qed.
End pair.

(** ** The endpoint's queues as lists *)

Record erep (e : Endpoint.t) (snd rcv : list ThreadId.t) : Prop := {
  er_senders : rep (Endpoint.senders e) snd;
  er_receivers : rep (Endpoint.receivers e) rcv }.

Section queues.
Implicit Types e : Endpoint.t.

Lemma wp_on_senders {A} (m : M TidQueue.t A) e (R : A → Endpoint.t → Prop) :
  wp m (Endpoint.senders e) (λ a q, R a (Endpoint.with_senders q e)) → wp (Endpoint.on_senders m) e R.
Proof. intros Hm. by apply wp_zoom. Qed.

Lemma wp_on_receivers {A} (m : M TidQueue.t A) e (R : A → Endpoint.t → Prop) :
  wp m (Endpoint.receivers e) (λ a q, R a (Endpoint.with_receivers q e)) → wp (Endpoint.on_receivers m) e R.
Proof. intros Hm. by apply wp_zoom. Qed.

Lemma with_senders_id e : Endpoint.with_senders (Endpoint.senders e) e = e.
Proof. by destruct e. Qed.
Lemma with_receivers_id e : Endpoint.with_receivers (Endpoint.receivers e) e = e.
Proof. by destruct e. Qed.
End queues.
