(* ===== verification/IpcProps.v ===== *)
(** * Correctness of endpoints

    The operations of [src/crates/caprock-ipc/src/lib.rs] against the contract
    [SchedLaws]: what a call, a receive and a reply do on every branch, what an
    exchange of the server does, and the invariant of an endpoint.  *)

From S2P Require Import Prelude PanicMonad Slab Redirect SchedData TidQueue Ipc IpcLaws.
#[local] Open Scope Z_scope.

Section props.
Context {W : Type} `{SchedLaws W}.
Implicit Types (e : Endpoint.t) (w : W) (snd rcv : list ThreadId.t).

(** [x] is the first living thread of [l], [rest] what follows it. *)
Definition first_alive w (l : list ThreadId.t) (x : ThreadId.t) (rest : list ThreadId.t) : Prop :=
  ∃ dead, l = dead ++ x :: rest ∧ Forall (λ y, ¬ alive w y) dead ∧ alive w x.
Definition none_alive w (l : list ThreadId.t) : Prop := Forall (λ y, ¬ alive w y) l.

Lemma alive_cases w l : none_alive w l ∨ ∃ x rest, first_alive w l x rest.
Proof.
  induction l as [|y l IH]; [by left; constructor|]. destruct (decide (alive w y)) as [Hy|Hy].
  - right. exists y, l, []. split; [done|]. split; [constructor|done].
  - destruct IH as [Hl|(x & rest & dead & -> & Hd & Hx)]; [left; by constructor|].
    right. exists x, rest, (y :: dead). split; [done|]. split; [by constructor|done].
Qed.

Lemma first_alive_cons w y l x rest : ¬ alive w y → first_alive w l x rest → first_alive w (y :: l) x rest.
Proof. intros Hy (dead & -> & Hd & Hx). exists (y :: dead). split; [done|]. split; [by constructor|done]. Qed.

(** The loop of [call]: dead receivers are dropped, the first living one is met. *)
Lemma wp_call_receivers fuel core frame badge cur e w rcv (R : option Z → Endpoint.t * W → Prop) :
  (length rcv < fuel)%nat → ok w → rep (Endpoint.receivers e) rcv →
  (∀ q, none_alive w rcv → rep q [] → R None (Endpoint.with_receivers q e, w)) →
  (∀ q server rest sf b, first_alive w rcv server rest → thread w server = Some (sf, b) → rep q rest →
     wp (meet_server core frame badge cur server sf) (Endpoint.with_receivers q e, w) (λ f, R (Some f))) →
  wp (call_receivers fuel core frame badge cur) (e, w) R.
Proof.
  revert e rcv. induction fuel as [|fuel IH]; intros e rcv Hf Hw Hq Hnone Hsome; [lia|]. simpl.
  apply wp_bind, wp_on_obj, wp_on_receivers. eapply wp_dequeue; [exact Hq| |].
  - intros ->. apply wp_ret, Hnone; [by constructor|done].
  - intros server l' q' -> Hq'. apply wp_bind, wp_on_world, wp_frame_of; [done|].
    destruct (thread w server) as [[sf b]|] eqn:Ht; cbn [fmap option_fmap option_map fst].
    + apply wp_bind. eapply wp_mono; [eapply Hsome; [|exact Ht|exact Hq']|].
      { exists []. split; [done|]. split; [constructor|by eexists]. }
      intros f s HR. by apply wp_ret.
    + assert (¬ alive w server) as Hd by (unfold alive; rewrite Ht; by intros []).
      simpl in Hf. apply (IH _ l'); [lia|done|done| |].
      * intros q Hl Hq0. destruct e. apply (Hnone q); [by constructor|done].
      * intros q x rest sf b Hx Htx Hq0. destruct e. eapply Hsome; [by apply first_alive_cons|exact Htx|exact Hq0].
Qed.

Lemma wp_recv_senders fuel frame server e w snd (R : option Z → Endpoint.t * W → Prop) :
  (length snd < fuel)%nat → ok w → rep (Endpoint.senders e) snd →
  (∀ q, none_alive w snd → rep q [] → R None (Endpoint.with_senders q e, w)) →
  (∀ q sender rest cf b, first_alive w snd sender rest → thread w sender = Some (cf, b) → rep q rest →
     wp (meet_sender frame server sender cf) (Endpoint.with_senders q e, w) (λ f, R (Some f))) →
  wp (recv_senders fuel frame server) (e, w) R.
Proof.
  revert e snd. induction fuel as [|fuel IH]; intros e snd Hf Hw Hq Hnone Hsome; [lia|]. simpl.
  apply wp_bind, wp_on_obj, wp_on_senders. eapply wp_dequeue; [exact Hq| |].
  - intros ->. apply wp_ret, Hnone; [by constructor|done].
  - intros sender l' q' -> Hq'. apply wp_bind, wp_on_world, wp_frame_of; [done|].
    destruct (thread w sender) as [[cf b]|] eqn:Ht; cbn [fmap option_fmap option_map fst].
    + apply wp_bind. eapply wp_mono; [eapply Hsome; [|exact Ht|exact Hq']|].
      { exists []. split; [done|]. split; [constructor|by eexists]. }
      intros f s HR. by apply wp_ret.
    + assert (¬ alive w sender) as Hd by (unfold alive; rewrite Ht; by intros []).
      simpl in Hf. apply (IH _ l'); [lia|done|done| |].
      * intros q Hl Hq0. destruct e. apply (Hnone q); [by constructor|done].
      * intros q x rest cf b Hx Htx Hq0. destruct e. eapply Hsome; [by apply first_alive_cons|exact Htx|exact Hq0].
Qed.

(** The message of [src] lies in [dst], with success and the badge; the badge is
    kept in the sender's frame, every other register is as it was. *)
Definition handed_over w w' (src dst badge : Z) : Prop :=
  (∀ j, (j < abi_regs)%nat → regs w' dst j =
     if decide (message j) then regs w src j
     else if decide (j = reg.EP_BADGE) then badge else result_code.OK) ∧
  (∀ g j, (j < abi_regs)%nat → g ≠ dst →
     regs w' g j = if decide (g = src ∧ j = reg.EP_BADGE) then badge else regs w g j).

Lemma reg_cases j : (j < abi_regs)%nat → ¬ message j → j = reg.SYSNO_RESULT ∨ j = reg.EP_BADGE.
Proof. unfold message, abi_regs, reg.MSG0, reg.SYSNO_RESULT, reg.EP_BADGE. lia. Qed.
Lemma message_not_result : ¬ message reg.SYSNO_RESULT ∧ ¬ message reg.EP_BADGE.
Proof. unfold message, reg.MSG0, reg.SYSNO_RESULT, reg.EP_BADGE. lia. Qed.

Ltac regs_lia := unfold abi_regs, reg.SYSNO_RESULT, reg.EP_BADGE, reg.MSG0, reg.TAG in *; lia.

(** The registers after [transfer src dst], the result code and the badge. *)
Lemma hand_over_regs w w1 w2 w3 w4 src dst badge :
  frame_is w w1 src (λ j, if decide (j = reg.EP_BADGE) then badge else regs w src j) →
  frame_is w1 w2 dst (λ j, if decide (message j) then regs w1 src j else regs w1 dst j) →
  frame_is w2 w3 dst (λ j, if decide (j = reg.SYSNO_RESULT) then result_code.OK else regs w2 dst j) →
  frame_is w3 w4 dst (λ j, if decide (j = reg.EP_BADGE) then badge else regs w3 dst j) →
  handed_over w w4 src dst badge.
Proof.
  intros [H1 G1] [H2 G2] [H3 G3] [H4 G4]. destruct message_not_result as [Hm0 Hm1]. split.
  - intros j Hj. rewrite H4 by done. destruct (decide (j = reg.EP_BADGE)) as [->|Hjb].
    { by rewrite decide_False. }
    rewrite H3 by done. destruct (decide (j = reg.SYSNO_RESULT)) as [->|Hjr].
    { by rewrite decide_False. }
    rewrite H2 by done. destruct (decide (message j)) as [Hm|Hm].
    + rewrite H1 by done. by rewrite decide_False.
    + destruct (reg_cases j Hj Hm); done.
  - intros g j Hj Hg. rewrite G4, G3, G2 by done. destruct (decide (g = src)) as [->|Hs].
    + rewrite H1 by done. repeat case_decide; naive_solver.
    + rewrite G1 by done. rewrite decide_False; [done|naive_solver].
Qed.

Lemma alive_neq w x y f b : thread w x = Some (f, b) → ¬ alive w y → x ≠ y.
Proof. intros Hx Hy ->. apply Hy. by eexists. Qed.

Lemma wp_meet_server core frame badge cur server sf b e w0 w rest snd (R : Z → Endpoint.t * W → Prop) :
  same w0 w → frame_is w0 w frame (λ j, if decide (j = reg.EP_BADGE) then badge else regs w0 frame j) →
  running w core = Some cur → yields w core → thread w server = Some (sf, b) → server ≠ cur →
  erep e snd rest →
  (∀ f e' w', ok w' → (∀ t, place w' t = place w0 t) → erep e' snd rest →
     Endpoint.used e' = Endpoint.used e → Endpoint.quiescing e' = Endpoint.quiescing e →
     Endpoint.caller e' = Some cur → Endpoint.reply_owner e' = Some server →
     handed_over w0 w' frame sf badge →
     (∀ t, thread w' t = if decide (t = cur) then Some (frame, true)
                         else if decide (t = server) then Some (sf, false) else thread w0 t) →
     R f (e', w')) →
  wp (meet_server core frame badge cur server sf) (e, w) R.
Proof.
  intros Hs0 Hr0 Hc Hy Ht Hne [Her1 Her2] HR. pose proof (sm_ok _ _ Hs0) as Hw. unfold meet_server.
  apply wp_bind, wp_on_world, wp_transfer; [done|]. intros w2 Hs2 Hr2.
  apply wp_bind, wp_on_world, wp_set_reg; [apply Hs2|unfold abi_regs, reg.SYSNO_RESULT; lia|]. intros w3 Hs3 Hr3.
  apply wp_bind, wp_on_world, wp_set_reg; [apply Hs3|unfold abi_regs, reg.EP_BADGE; lia|]. intros w4 Hs4 Hr4.
  assert (same w w4) as Hs by (do 2 (eapply same_trans; [eassumption|]); done).
  assert (same w0 w4) as Hs' by (by eapply same_trans).
  pose proof (hand_over_regs _ _ _ _ _ _ _ _ Hr0 Hr2 Hr3 Hr4) as Hh.
  apply wp_bind, wp_obj_modify, wp_bind, wp_obj_modify.
  apply wp_bind, wp_on_world, wp_owner_core; [apply Hs4|].
  set (e' := Endpoint.with_reply_owner _ _).
  assert (∀ f w', ok w' → (∀ t, place w' t = place w4 t) →
    (∀ t, thread w' t = if decide (t = cur) then Some (frame, true)
                         else if decide (t = server) then Some (sf, false) else thread w4 t) →
    (∀ g j, regs w' g j = regs w4 g j) → R f (e', w')) as Hfin.
  { intros f w' Hw' Hp Hth Hrg. apply HR; try done.
    - intros t. by rewrite Hp, (sm_place _ _ Hs').
    - destruct Hh as [Hh1 Hh2]. split; intros; rewrite Hrg; auto.
    - intros t. by rewrite Hth, (sm_thread _ _ Hs'). }
  rewrite <-(sm_running _ _ Hs) in Hc. apply (sm_yields _ _ Hs) in Hy. rewrite <-(sm_thread _ _ Hs) in Ht.
  case_decide as Hp.
  - apply wp_on_world. eapply wp_mono; [by eapply law_switch_to; [apply Hs4|..]|].
    intros f w' (Hw' & Hp' & Hth & Hrg). apply Hfin; [done|done| |done].
    intros t. rewrite Hth. repeat case_decide; subst; try done. by rewrite Ht.
  - apply wp_bind, wp_on_world, wp_law_unblock; [apply Hs4|]. intros w5 Hw5 Hrun Hyl Hp5 Hth5 Hrg5.
    apply wp_on_world. eapply wp_block_current; [done|by rewrite Hrun|by apply Hyl|].
    intros f w' Hw' Hp' Hth Hrg. apply Hfin; [done|intros; by rewrite Hp', Hp5| |intros; by rewrite Hrg, Hrg5].
    intros t. rewrite Hth. case_decide; [done|]. rewrite Hth5. case_decide; subst; [by rewrite Ht|done].
Qed.

(** One register of the caller's frame carries the answer. *)
Definition answered w w' (frame : Z) (v : Z) : Prop :=
  frame_is w w' frame (λ j, if decide (j = reg.SYSNO_RESULT) then v else regs w frame j).

(** Two registers of a frame written one after the other. *)
Lemma frame_is_twice w w1 w2 frame r1 v1 r2 v2 :
  frame_is w w1 frame (λ j, if decide (j = r1) then v1 else regs w frame j) →
  frame_is w1 w2 frame (λ j, if decide (j = r2) then v2 else regs w1 frame j) →
  frame_is w w2 frame (λ j, if decide (j = r2) then v2 else if decide (j = r1) then v1 else regs w frame j).
Proof.
  intros [H1 G1] [H2 G2]. split; [|by intros; rewrite G2, G1].
  intros j Hj. rewrite H2 by done. case_decide; [done|by apply H1].
Qed.

(** C20: [call] of a thread that runs and is not itself among the waiting receivers ends in
    exactly one of four ways.  A closed gate answers with its code in the result register
    and changes nothing else.  Otherwise the first living receiver gets the message
    with the caller's badge and owes the reply, the caller waits and the receiver
    does not; without one, the caller waits as the last sender, only its badge register
    written; and where the queue of senders is full it gets [ERR_EP_FULL] and runs on, its
    badge register overwritten all the same.  Dead receivers before the living one leave the
    queue.  Every way settles all registers of every frame, every field of the endpoint and
    every thread: no other of them is touched. *)
Theorem call_exact e w core frame badge cur snd rcv :
  ok w → erep e snd rcv → running w core = Some cur → yields w core → cur ∉ rcv →
  wp (call core frame badge) (e, w) (λ f '(e', w'),
    ok w' ∧ (∀ t, place w' t = place w t) ∧
    Endpoint.used e' = Endpoint.used e ∧ Endpoint.quiescing e' = Endpoint.quiescing e ∧
    match Endpoint.gate_new_transaction e with
    | Some code => f = frame ∧ e' = e ∧ answered w w' frame code ∧ ∀ t, thread w' t = thread w t
    | None =>
        (∃ server rest sf b,
           first_alive w rcv server rest ∧ thread w server = Some (sf, b) ∧ erep e' snd rest ∧
           Endpoint.caller e' = Some cur ∧ Endpoint.reply_owner e' = Some server ∧
           handed_over w w' frame sf badge ∧
           ∀ t, thread w' t = if decide (t = cur) then Some (frame, true)
                              else if decide (t = server) then Some (sf, false) else thread w t) ∨
        (none_alive w rcv ∧ Endpoint.caller e' = Endpoint.caller e ∧
         Endpoint.reply_owner e' = Endpoint.reply_owner e ∧
         if decide (length snd < TidQueue.QUEUE_CAP)%nat
         then erep e' (snd ++ [cur]) [] ∧
              frame_is w w' frame (λ j, if decide (j = reg.EP_BADGE) then badge else regs w frame j) ∧
              ∀ t, thread w' t = if decide (t = cur) then Some (frame, true) else thread w t
         else f = frame ∧ erep e' snd [] ∧
              frame_is w w' frame (λ j, if decide (j = reg.SYSNO_RESULT) then result_code.ERR_EP_FULL
                                        else if decide (j = reg.EP_BADGE) then badge else regs w frame j) ∧
              ∀ t, thread w' t = thread w t)
    end).
Proof.
  intros Hw [Hsnd Hrcv] Hc Hy Hni. unfold call. apply wp_bind, wp_obj_gets.
  destruct (Endpoint.gate_new_transaction e) as [code|].
  { apply wp_bind, wp_on_world, wp_set_reg; [done|unfold abi_regs, reg.SYSNO_RESULT; lia|].
    intros w' [] Hr. apply wp_ret. repeat split; try done; apply Hr. }
  apply wp_bind, wp_on_world. eapply wp_current_id; [done|exact Hc|].
  apply wp_bind, wp_on_world, wp_set_reg; [done|unfold abi_regs, reg.EP_BADGE; lia|]. intros w1 Hs1 Hr1.
  apply wp_bind. pose proof (rep_bound _ _ Hrcv) as Hb.
  assert (none_alive w1 rcv → none_alive w rcv) as Hna.
  { intros Hn. eapply Forall_impl; [exact Hn|]. intros x. unfold alive. by rewrite (sm_thread _ _ Hs1). }
  eapply wp_call_receivers; [|apply Hs1|exact Hrcv| |]; [lia| |].
  - intros q Hn Hq. apply wp_bind, wp_on_obj, wp_on_senders. apply Hna in Hn.
    pose proof (rep_bound _ _ Hsnd) as Hbs. change TidQueue.QCAP with TidQueue.QUEUE_CAP in *.
    eapply wp_enqueue; [exact Hsnd| |].
    + intros Hfull. cbn [negb]. apply wp_bind, wp_on_world, wp_set_reg; [apply Hs1|unfold abi_regs, reg.SYSNO_RESULT; lia|].
      intros w2 Hs2 Hr2. pose proof (same_trans _ _ _ Hs1 Hs2) as [Ho _ _ Hpl Hth]. apply wp_ret.
      split; [done|]. split; [done|]. do 2 (split; [by destruct e|]). right. split; [done|].
      do 2 (split; [by destruct e|]). rewrite decide_False by (change TidQueue.QCAP with TidQueue.QUEUE_CAP in Hfull; lia).
      split; [done|]. split; [by destruct e|]. split; [|done]. exact (frame_is_twice _ _ _ _ _ _ _ _ Hr1 Hr2).
    + intros Hlt q' Hq'. cbn [negb]. apply wp_on_world. eapply wp_block_current; [apply Hs1| | |].
      * by rewrite (sm_running _ _ Hs1).
      * by apply (sm_yields _ _ Hs1).
      * intros f w2 Hw2 Hp2 Hth2 Hrg2. split; [done|]. split; [intros; by rewrite Hp2, (sm_place _ _ Hs1)|].
        do 2 (split; [by destruct e|]). right. split; [done|]. do 2 (split; [by destruct e|]).
        rewrite decide_True by done. split; [by destruct e|]. split.
        -- split; intros; rewrite Hrg2; by apply Hr1.
        -- intros t. by rewrite Hth2, (sm_thread _ _ Hs1).
  - intros q server rest sf b Hfa Ht Hq. rewrite (sm_thread _ _ Hs1) in Ht.
    assert (first_alive w rcv server rest) as Hfa'.
    { destruct Hfa as (dead & -> & Hd & _). exists dead. split; [done|]. split; [|by eexists].
      eapply Forall_impl; [exact Hd|]. intros x. unfold alive. by rewrite (sm_thread _ _ Hs1). }
    eapply wp_meet_server; [exact Hs1|exact Hr1| | | | | |].
    + by rewrite (sm_running _ _ Hs1).
    + by apply (sm_yields _ _ Hs1).
    + by rewrite (sm_thread _ _ Hs1).
    + destruct Hfa' as (dead & -> & _). intros ->. set_solver.
    + split; [exact Hsnd|exact Hq].
    + intros f e' w' Hw' Hp Her Hu Hqu Hca Hro Hh Hth. apply wp_ret. split; [done|]. split; [done|].
      split; [by rewrite Hu; destruct e|]. split; [by rewrite Hqu; destruct e|]. left.
      by exists server, rest, sf, b.
Qed.

(** [recv] ends in exactly one of four ways.  A closed gate answers with its code.
    Otherwise the first living sender's message and badge are handed over and the
    server, which runs on, owes it the reply; without one, the server waits as the
    last receiver, or gets [ERR_EP_FULL].  The sender keeps waiting. *)
Theorem recv_exact e w core frame server snd rcv :
  ok w → erep e snd rcv → running w core = Some server → yields w core →
  wp (recv core frame) (e, w) (λ f '(e', w'),
    ok w' ∧ (∀ t, place w' t = place w t) ∧
    Endpoint.used e' = Endpoint.used e ∧ Endpoint.quiescing e' = Endpoint.quiescing e ∧
    match Endpoint.gate_new_transaction e with
    | Some code => f = frame ∧ e' = e ∧ answered w w' frame code ∧ ∀ t, thread w' t = thread w t
    | None =>
        (∃ sender rest cf b,
           f = frame ∧ first_alive w snd sender rest ∧ thread w sender = Some (cf, b) ∧
           erep e' rest rcv ∧
           Endpoint.caller e' = Some sender ∧ Endpoint.reply_owner e' = Some server ∧
           delivered w w' cf frame (regs w cf reg.EP_BADGE) ∧ ∀ t, thread w' t = thread w t) ∨
        (none_alive w snd ∧ Endpoint.caller e' = Endpoint.caller e ∧
         Endpoint.reply_owner e' = Endpoint.reply_owner e ∧
         if decide (length rcv < TidQueue.QUEUE_CAP)%nat
         then erep e' [] (rcv ++ [server]) ∧
              ∀ t, thread w' t = if decide (t = server) then Some (frame, true) else thread w t
         else f = frame ∧ erep e' [] rcv ∧ answered w w' frame result_code.ERR_EP_FULL ∧
              ∀ t, thread w' t = thread w t)
    end).
Proof.
  intros Hw [Hsnd Hrcv] Hc Hy. unfold recv. apply wp_bind, wp_obj_gets.
  destruct (Endpoint.gate_new_transaction e) as [code|].
  { apply wp_bind, wp_on_world, wp_set_reg; [done|unfold abi_regs, reg.SYSNO_RESULT; lia|].
    intros w' [] Hr. apply wp_ret. repeat split; try done; apply Hr. }
  apply wp_bind, wp_on_world. eapply wp_current_id; [done|exact Hc|].
  apply wp_bind. pose proof (rep_bound _ _ Hsnd) as Hb.
  eapply wp_recv_senders; [|done|exact Hsnd| |]; [lia| |].
  - intros q Hn Hq. apply wp_bind, wp_on_obj, wp_on_receivers.
    pose proof (rep_bound _ _ Hrcv) as Hbr. change TidQueue.QCAP with TidQueue.QUEUE_CAP in *.
    eapply wp_enqueue; [exact Hrcv| |].
    + intros Hfull. cbn [negb]. apply wp_bind, wp_on_world, wp_set_reg; [done|unfold abi_regs, reg.SYSNO_RESULT; lia|].
      intros w2 [Ho _ _ Hpl Hth] Hr2. apply wp_ret.
      split; [done|]. split; [done|]. do 2 (split; [by destruct e|]). right. split; [done|].
      do 2 (split; [by destruct e|]). rewrite decide_False by (change TidQueue.QCAP with TidQueue.QUEUE_CAP in Hfull; lia).
      split; [done|]. by split; [by destruct e|].
    + intros Hlt q' Hq'. cbn [negb]. apply wp_on_world. eapply wp_block_current; [done|exact Hc|exact Hy|].
      intros f w2 Hw2 Hp2 Hth2 Hrg2. split; [done|]. split; [done|].
      do 2 (split; [by destruct e|]). right. split; [done|]. do 2 (split; [by destruct e|]).
      rewrite decide_True by done. split; [by destruct e|done].
  - intros q sender rest cf b Hfa Ht Hq. unfold meet_sender.
    apply wp_bind, wp_on_world, wp_transfer; [done|]. intros w2 Hs2 Hr2.
    apply wp_bind, wp_on_world, wp_set_reg; [apply Hs2|unfold abi_regs, reg.SYSNO_RESULT; lia|]. intros w3 Hs3 Hr3.
    apply wp_bind, wp_on_world, wp_reg; [unfold abi_regs, reg.EP_BADGE; lia|].
    apply wp_bind, wp_on_world, wp_set_reg; [apply Hs3|unfold abi_regs, reg.EP_BADGE; lia|]. intros w4 Hs4 Hr4.
    apply wp_bind, wp_obj_modify, wp_bind, wp_obj_modify, wp_ret, wp_ret.
    assert (same w w4) as Hs by (do 2 (eapply same_trans; [eassumption|]); done).
    split; [apply Hs|]. split; [apply Hs|]. do 2 (split; [by destruct e|]). left.
    exists sender, rest, cf, b. split; [done|]. split; [done|]. split; [done|]. split; [by destruct e|].
    do 2 (split; [done|]). split; [|apply Hs].
    destruct Hr2 as [Hd2 Ho2], Hr3 as [Hd3 Ho3], Hr4 as [Hd4 Ho4]. destruct message_not_result as [Hm0 Hm1].
    assert (regs w3 cf reg.EP_BADGE = regs w cf reg.EP_BADGE) as Hbadge.
    { assert (reg.EP_BADGE < abi_regs)%nat by (unfold abi_regs, reg.EP_BADGE; lia).
      destruct (decide (cf = frame)) as [->|Hcf].
      - rewrite Hd3, decide_False, Hd2, decide_False by done. done.
      - by rewrite Ho3, Ho2. }
    split; [|intros; by rewrite Ho4, Ho3, Ho2].
    intros j Hj. rewrite Hd4 by done. destruct (decide (j = reg.EP_BADGE)) as [->|Hjb].
    { by rewrite (decide_False (P:=message _)). }
    rewrite Hd3 by done. destruct (decide (j = reg.SYSNO_RESULT)) as [->|Hjr].
    { by rewrite decide_False. }
    rewrite Hd2 by done. destruct (decide (message j)) as [Hm|Hm]; [done|].
    destruct (reg_cases j Hj Hm); done.
Qed.

(** The waiting caller, whose frame is [cf], has the answer of the server's frame. *)
Definition got_reply w w' (frame : Z) (caller : ThreadId.t) (cf : Z) : Prop :=
  (∀ j, message j → regs w' cf j = regs w frame j) ∧
  regs w' cf reg.SYSNO_RESULT = result_code.OK ∧
  (∀ g j, (j < abi_regs)%nat → g ≠ cf → g ≠ frame → regs w' g j = regs w g j) ∧
  ∀ t, thread w' t = if decide (t = caller) then Some (cf, false) else thread w t.

Lemma result_reg : (reg.SYSNO_RESULT < abi_regs)%nat.
Proof. unfold abi_regs, reg.SYSNO_RESULT. lia. Qed.

Lemma got_reply_last w w2 w3 frame caller cf :
  got_reply w w2 frame caller cf → same w2 w3 → answered w2 w3 frame result_code.OK →
  got_reply w w3 frame caller cf.
Proof.
  intros (Hm & Hs & Hg & Hth) Hsm [Hd3 Hn3]. pose proof result_reg as Hr0.
  assert (∀ j, (j < abi_regs)%nat → j ≠ reg.SYSNO_RESULT → regs w3 cf j = regs w2 cf j) as Hcf.
  { intros j Hj Hne. destruct (decide (cf = frame)) as [->|]; [|by apply Hn3].
    rewrite Hd3 by done. by rewrite decide_False. }
  split; [|split; [|split]].
  - intros j Hj. rewrite Hcf; [by apply Hm|apply Hj|]. intros ->. by destruct message_not_result.
  - destruct (decide (cf = frame)) as [->|]; [|by rewrite Hn3].
    rewrite Hd3 by done. by rewrite decide_True.
  - intros g j Hj Hgc Hgf. rewrite Hn3 by done. by apply Hg.
  - intros t. by rewrite (sm_thread _ _ Hsm).
Qed.

Lemma wp_answer_caller e w frame oc (R : unit → Endpoint.t * W → Prop) :
  ok w →
  (∀ w', ok w' → (∀ t, place w' t = place w t) → (∀ c, running w' c = running w c) →
     (∃ caller cf, oc = Some caller ∧ thread w caller = Some (cf, true) ∧ got_reply w w' frame caller cf) ∨
     ((∀ caller, oc = Some caller → ¬ waits w caller) ∧ w' = w) → R tt (e, w')) →
  wp (answer_caller frame oc) (e, w) R.
Proof.
  intros Hw HR. unfold answer_caller. destruct oc as [caller|]; cycle 1.
  { apply wp_ret, HR; [done|done|done|]. right. by split; [intros ?|]. }
  apply wp_bind, wp_on_world, wp_wartet; [done|].
  destruct (thread w caller) as [[cf [|]]|] eqn:Hth; cbn [from_option negb Datatypes.snd].
  2, 3: apply wp_ret, HR; [done|done|done|]; right; split; [|done]; intros ? [= <-] [f Hf]; congruence.
  apply wp_bind, wp_on_world, wp_frame_of; [done|]. rewrite Hth. cbn [fmap option_fmap option_map fst].
  apply wp_bind, wp_on_world, wp_transfer; [done|]. intros w2 Hs2 [Hd2 Hn2].
  apply wp_bind, wp_on_world, wp_set_reg; [apply Hs2|apply result_reg|]. intros w3 Hs3 [Hd3 Hn3].
  pose proof (same_trans _ _ _ Hs2 Hs3) as Hs. apply wp_on_world, wp_law_unblock; [apply Hs|].
  intros w4 Hw4 Hrun4 _ Hp4 Ht4 Hg4. apply HR; [done|intros; by rewrite Hp4, (sm_place _ _ Hs)|
    intros; by rewrite Hrun4, (sm_running _ _ Hs)|].
  left. exists caller, cf. do 2 (split; [done|]). split; [|split; [|split]].
  - intros j Hj. pose proof Hj as [_ Hj'].
    rewrite Hg4, Hd3, decide_False, Hd2, decide_True by (done || (intros ->; by destruct message_not_result)).
    done.
  - rewrite Hg4, Hd3 by apply result_reg. by rewrite decide_True.
  - intros g j Hj Hgc _. by rewrite Hg4, Hn3, Hn2.
  - intros t. rewrite Ht4, (sm_thread _ _ Hs). case_decide; [|done]. subst. by rewrite Hth.
Qed.

(** [reply] consumes the reply token: a second reply finds none.  A caller that still
    waits gets the message of the server's frame and success, and stops waiting; a
    caller that waits no longer (its deadline has passed, or it is dead) is left
    alone.  No other thread is touched, and the server runs on. *)
Theorem reply_exact e w core frame :
  ok w → is_Some (running w core) →
  wp (reply core frame) (e, w) (λ f '(e', w'),
    f = frame ∧ ok w' ∧ (∀ t, place w' t = place w t) ∧ (∀ c, running w' c = running w c) ∧
    if negb (Endpoint.used e) then
      e' = e ∧ answered w w' frame result_code.ERR_BADCAP ∧ ∀ t, thread w' t = thread w t
    else
      e' = Endpoint.with_caller None (Endpoint.with_reply_owner None e) ∧
      regs w' frame reg.SYSNO_RESULT = result_code.OK ∧
      ((∃ caller cf, Endpoint.caller e = Some caller ∧ thread w caller = Some (cf, true) ∧
          got_reply w w' frame caller cf) ∨
       ((∀ caller, Endpoint.caller e = Some caller → ¬ waits w caller) ∧
          answered w w' frame result_code.OK ∧ ∀ t, thread w' t = thread w t))).
Proof.
  intros Hw Hc. unfold reply. apply wp_bind, wp_obj_gets.
  destruct (Endpoint.used e) eqn:Hu; cbn [negb]; cycle 1.
  { apply wp_bind, wp_on_world, wp_set_reg; [done|apply result_reg|].
    intros w' [] Hr. apply wp_ret. repeat split; try done; apply Hr. }
  apply wp_bind, wp_on_world. eapply wp_mono; [by apply law_end_donation|].
  intros [] w1 (Hw1 & Hrun1 & Hy1 & Hp1 & Ht1 & Hg1).
  apply wp_bind, wp_obj_modify, wp_bind, wp_obj_gets, wp_bind, wp_obj_modify.
  apply wp_bind, wp_answer_caller; [done|]. intros w2 Hw2 Hp2 Hrun2 Hcase.
  apply wp_bind, wp_on_world, wp_set_reg; [done|apply result_reg|].
  intros w3 Hs3 Ha3. apply wp_ret. pose proof Hs3 as [Ho3 Hru3 _ Hp3 Ht3].
  split; [done|]. split; [done|]. split; [intros; by rewrite Hp3, Hp2, Hp1|].
  split; [intros; by rewrite Hru3, Hrun2, Hrun1|]. split; [by destruct e|].
  split; [by rewrite (proj1 Ha3) by apply result_reg|].
  destruct Hcase as [(caller & cf & Hcal & Hth & Hgr)|[Hnw ->]].
  - left. exists caller, cf. split; [by destruct e|]. rewrite <-Ht1. split; [done|].
    destruct (got_reply_last _ _ _ _ _ _ Hgr Hs3 Ha3) as (Hm & Hs & Hg & Hth').
    split; [intros; by rewrite Hm, Hg1|]. split; [done|].
    split; [intros; by rewrite Hg, Hg1|]. intros t. by rewrite Hth', Ht1.
  - right. split; [|split].
    + intros caller Hcal [f Hf]. apply (Hnw caller); [by destruct e|]. exists f. by rewrite Ht1.
    + destruct Ha3 as [Ha Hn]. split; intros; [rewrite Ha by done|rewrite Hn by done]; by rewrite Hg1.
    + intros t. by rewrite Ht3, Ht1.
Qed.
End props.
