(* ===== verification/IpcInv.v ===== *)
(** * The invariant of an endpoint, and the exchange of its server

    The operations of [Endpoint] that change only the endpoint
    ([src/crates/caprock-ipc/src/lib.rs]), the invariant every operation keeps,
    and [rebind_server].  *)

From S2P Require Import Prelude PanicMonad Slab Redirect SchedData TidQueue Ipc IpcLaws IpcProps.
#[local] Open Scope Z_scope.

Implicit Types (e : Endpoint.t) (snd rcv : list ThreadId.t).

(** The reply token names both parties or none. *)
Definition tokens e : Prop := is_Some (Endpoint.caller e) ↔ is_Some (Endpoint.reply_owner e).

Record good e snd rcv : Prop := { gd_rep : erep e snd rcv; gd_tokens : tokens e }.

Lemma good_EMPTY : good Endpoint.EMPTY [] [].
Proof. split; [split; apply rep_EMPTY|]. by split; intros []. Qed.

Lemma good_fresh : good (Endpoint.mk true false TidQueue.EMPTY TidQueue.EMPTY None None) [] [].
Proof. split; [split; apply rep_EMPTY|]. by split; intros []. Qed.

(** ** The operations on the endpoint alone *)

Lemma wp_retire_receiver tid e snd rcv (R : bool → Endpoint.t → Prop) :
  good e snd rcv →
  (Endpoint.used e = false → R false e) →
  (∀ e', Endpoint.used e = true → good e' snd (without tid rcv) → R (bool_decide (tid ∈ rcv)) e') →
  wp (Endpoint.retire_receiver tid) e R.
Proof.
  intros [[Hs Hr] Ht] Hn Hy. unfold Endpoint.retire_receiver. apply wp_bind, wp_gets.
  destruct (Endpoint.used e) eqn:Hu; cbn [negb]; [|by apply wp_ret, Hn].
  apply wp_on_receivers. eapply wp_remove; [exact Hr|]. intros q Hq. apply Hy; [done|]. by split.
Qed.

Lemma wp_bind_receiver tid e snd rcv (R : bool → Endpoint.t → Prop) :
  good e snd rcv →
  (Endpoint.used e = false ∨ tid ∈ rcv ∨ length rcv = TidQueue.QUEUE_CAP → R false e) →
  (∀ e', Endpoint.used e = true → tid ∉ rcv → good e' snd (rcv ++ [tid]) → R true e') →
  wp (Endpoint.bind_receiver tid) e R.
Proof.
  intros [[Hs Hr] Ht] Hn Hy. unfold Endpoint.bind_receiver. apply wp_bind, wp_gets.
  destruct (Endpoint.used e) eqn:Hu; cbn [negb]; [|apply wp_ret, Hn; by left].
  apply wp_bind, wp_on_receivers. eapply wp_contains; [exact Hr|]. rewrite with_receivers_id.
  case_bool_decide as Hin; [apply wp_ret, Hn; auto|]. apply wp_on_receivers.
  eapply wp_enqueue; [exact Hr| |].
  - intros Hf. rewrite with_receivers_id. apply Hn. auto.
  - intros _ q Hq. apply Hy; [done..|]. by split.
Qed.

Lemma wp_purge_thread tid e snd rcv (R : bool → Endpoint.t → Prop) :
  good e snd rcv →
  (∀ b e', good e' (without tid snd) (without tid rcv) →
     Endpoint.used e' = Endpoint.used e → Endpoint.quiescing e' = Endpoint.quiescing e →
     Endpoint.caller e' = (if decide (Endpoint.caller e = Some tid) then None else Endpoint.caller e) →
     Endpoint.reply_owner e' = (if decide (Endpoint.caller e = Some tid) then None else Endpoint.reply_owner e) →
     R b e') →
  wp (Endpoint.purge_thread tid) e R.
Proof.
  intros [[Hs Hr] Ht] HR. unfold Endpoint.purge_thread.
  apply wp_bind, wp_on_senders. eapply wp_remove; [exact Hs|]. intros q1 Hq1.
  apply wp_bind, wp_on_receivers. eapply wp_remove; [exact Hr|]. intros q2 Hq2.
  apply wp_bind, wp_gets. destruct e as [u qu s r ca ro]. cbn in *. destruct (decide (ca = Some tid)) as [Hc|Hc].
  - apply wp_bind, wp_modify, wp_bind, wp_modify, wp_ret, HR; [|done..].
    split; [by split|]. by split; intros [].
  - apply wp_ret, HR; [|done..]. split; [by split|done].
Qed.

Lemma wp_owner_died owner e snd rcv (R : option ThreadId.t → Endpoint.t → Prop) :
  good e snd rcv →
  (Endpoint.reply_owner e ≠ Some owner → R None e) →
  (∀ c e', Endpoint.reply_owner e = Some owner → Endpoint.caller e = Some c →
     good e' snd rcv → Endpoint.used e' = Endpoint.used e → Endpoint.quiescing e' = Endpoint.quiescing e →
     Endpoint.caller e' = None → Endpoint.reply_owner e' = None → R (Some c) e') →
  wp (Endpoint.owner_died owner) e R.
Proof.
  intros [[Hs Hr] Ht] Hn Hy. unfold Endpoint.owner_died. apply wp_bind, wp_gets.
  destruct e as [u qu s r ca ro]; cbn in *. case_decide as Ho; [|by apply wp_ret, Hn].
  destruct (proj2 Ht) as [c Hc]; [by eexists|]. cbn in Hc.
  apply wp_bind, wp_modify, wp_bind, wp_modify, wp_ret. subst. by apply Hy.
Qed.

Lemma wp_abort_call c e snd rcv (R : option ThreadId.t → Endpoint.t → Prop) :
  good e snd rcv →
  (Endpoint.caller e ≠ Some c → R None e) →
  (∀ e', Endpoint.caller e = Some c → good e' snd rcv → Endpoint.caller e' = None →
     Endpoint.reply_owner e' = None → R (Some c) e') →
  wp (Endpoint.abort_call c) e R.
Proof.
  intros [[Hs Hr] Ht] Hn Hy. unfold Endpoint.abort_call. apply wp_bind, wp_gets.
  destruct e as [u qu s r ca ro]; cbn in *. case_decide as Ho; [|by apply wp_ret, Hn].
  apply wp_bind, wp_modify, wp_bind, wp_modify, wp_ret. subst. by apply Hy.
Qed.

Lemma wp_migrate_owner owner e snd rcv (R : bool → Endpoint.t → Prop) :
  good e snd rcv →
  (∀ b, b = false → Endpoint.used e = false ∨ Endpoint.reply_owner e ≠ Some owner ∨
     length snd = TidQueue.QUEUE_CAP → R b e) →
  (∀ c e', Endpoint.used e = true → Endpoint.reply_owner e = Some owner → Endpoint.caller e = Some c →
     good e' (snd ++ [c]) rcv → Endpoint.caller e' = None → Endpoint.reply_owner e' = None → R true e') →
  wp (Endpoint.migrate_owner owner) e R.
Proof.
  intros [[Hs Hr] Ht] Hn Hy. unfold Endpoint.migrate_owner. apply wp_bind, wp_gets.
  rewrite (rep_full _ _ Hs). destruct e as [u qu s r ca ro]; cbn in *.
  destruct u; cbn [andb]; [|apply wp_ret, Hn; auto].
  case_bool_decide as Ho; cbn [andb]; [|apply wp_ret, Hn; auto].
  case_bool_decide as Hl; cbn [negb]; [apply wp_ret, Hn; auto|].
  destruct (proj2 Ht) as [c Hc]; [by eexists|]. cbn in Hc. subst ca.
  apply wp_bind, wp_modify, wp_bind, wp_modify, wp_bind, wp_on_senders.
  eapply wp_enqueue; [exact Hs|done|]. intros _ q Hq. apply wp_ret. by eapply Hy.
Qed.

(** ** The exchange of the server *)

Lemma NoDup_without x l : NoDup l → NoDup (without x l).
Proof. apply NoDup_filter. Qed.

Lemma length_without x l : NoDup l →
  length l = (Nat.b2n (bool_decide (x ∈ l)) + length (without x l))%nat.
Proof.
  intros Hnd. induction Hnd as [|y l Hy Hnd IH]; [done|].
  unfold without in *. destruct (decide (y = x)) as [->|Hne].
  - rewrite filter_cons_False by naive_solver. rewrite bool_decide_true by set_solver.
    fold (without x l). by rewrite without_absent.
  - rewrite filter_cons_True by done. cbn [length]. rewrite IH.
    rewrite (bool_decide_ext (x ∈ y :: l) (x ∈ l)) by set_solver. lia.
Qed.

Definition others old new (l : list ThreadId.t) : list ThreadId.t := without old (without new l).

Lemma length_others old new l : NoDup l → old ≠ new →
  length l = (Nat.b2n (bool_decide (old ∈ l)) + Nat.b2n (bool_decide (new ∈ l)) + length (others old new l))%nat.
Proof.
  intros Hnd Hne. unfold others. rewrite (length_without new l) by done.
  rewrite (length_without old (without new l)) by by apply NoDup_without.
  rewrite (bool_decide_ext (old ∈ without new l) (old ∈ l)); [lia|].
  rewrite elem_of_without. naive_solver.
Qed.

Lemma others_spec old new l : length (others old new l) ≠ 0%nat ↔ ∃ x, x ∈ l ∧ x ≠ old ∧ x ≠ new.
Proof.
  split.
  - destruct (others old new l) as [|x l'] eqn:E; [done|]. intros _. exists x.
    assert (x ∈ others old new l) as Hx by (rewrite E; set_solver).
    unfold others in Hx. rewrite !elem_of_without in Hx. naive_solver.
  - intros (x & Hx & Ho & Hn) E. apply length_zero_iff_nil in E.
    assert (x ∈ others old new l) as Hi by (unfold others; rewrite !elem_of_without; done).
    rewrite E in Hi. set_solver.
Qed.

(** A receiver queue of [old] and [new] at most, with [old] taken out. *)
Lemma rebind_rest old new l : NoDup l → old ≠ new → length (others old new l) = 0%nat → old ∈ l →
  without old l = if bool_decide (new ∈ l) then [new] else [].
Proof.
  intros Hnd Hne Ho Hin. pose proof (length_others old new l Hnd Hne) as Hl.
  pose proof (length_without old l Hnd) as Hw. rewrite bool_decide_true in Hl, Hw by done.
  assert (∀ x, x ∈ without old l → x = new) as Hx.
  { intros x. rewrite elem_of_without. intros [Hxo Hxl]. destruct (decide (x = new)); [done|].
    exfalso. apply (proj2 (others_spec old new l)); [by exists x|done]. }
  case_bool_decide as Hn; cbn [Nat.b2n] in *.
  - destruct (without old l) as [|x [|y r]]; cbn [length] in *; [lia| |lia]. f_equal. apply Hx. set_solver.
  - destruct (without old l); [done|]. cbn [length] in *. lia.
Qed.

Lemma is_Some_bool {A} (o : option A) : bool_decide (is_Some o) = true ↔ is_Some o.
Proof. by rewrite bool_decide_eq_true. Qed.

(** [rebind_server] refuses, naming exactly what is open, without touching the
    queues; or it exchanges the server: nothing was open, [old] was bound, and
    afterwards [new] is the one and only receiver, so that the endpoint is never
    without one.  [overlapped] tells whether [new] was bound before. *)
Theorem rebind_exact e snd rcv old new :
  good e snd rcv → NoDup rcv →
  wp (Endpoint.rebind_server old new) e (λ r e',
    Endpoint.used e' = Endpoint.used e ∧ Endpoint.quiescing e' = Endpoint.quiescing e ∧
    Endpoint.caller e' = Endpoint.caller e ∧ Endpoint.reply_owner e' = Endpoint.reply_owner e ∧
    good e' snd (if is_done r then [new] else rcv) ∧
    match r with
    | NoEndpoint => Endpoint.used e = false
    | NotQuiescing => Endpoint.used e = true ∧ Endpoint.quiescing e = false
    | SameThread => Endpoint.used e = true ∧ Endpoint.quiescing e = true ∧ old = new
    | Blocked b =>
        Endpoint.used e = true ∧ Endpoint.quiescing e = true ∧ old ≠ new ∧ b ≠ RebindBlocked.default ∧
        (RebindBlocked.senders_waiting b = true ↔ snd ≠ []) ∧
        (RebindBlocked.other_receiver b = true ↔ ∃ x, x ∈ rcv ∧ x ≠ old ∧ x ≠ new) ∧
        (RebindBlocked.reply_open b = true ↔ is_Some (Endpoint.caller e))
    | NotReceiver => 
        Endpoint.used e = true ∧ Endpoint.quiescing e = true ∧ old ≠ new ∧ snd = [] ∧
        Endpoint.caller e = None ∧ ∀ x, x ∈ rcv → x = new
    | Done overlapped =>
        Endpoint.used e = true ∧ Endpoint.quiescing e = true ∧ old ≠ new ∧ snd = [] ∧
        Endpoint.caller e = None ∧ old ∈ rcv ∧ (∀ x, x ∈ rcv → x = old ∨ x = new) ∧
        (overlapped = true ↔ new ∈ rcv)
    end).
Proof.
  intros [[Hs Hr] Ht] Hnd. unfold Endpoint.rebind_server. apply wp_bind, wp_gets.
  assert (good e snd rcv) as HG by (by split).
  destruct (Endpoint.used e) eqn:Hu; cbn [negb]; [|by apply wp_ret].
  destruct (Endpoint.quiescing e) eqn:Hq; cbn [negb]; [|by apply wp_ret].
  case_decide as Hne; [by apply wp_ret|].
  apply wp_bind, wp_on_receivers. eapply wp_contains; [exact Hr|]. rewrite with_receivers_id.
  apply wp_bind, wp_on_receivers. eapply wp_contains; [exact Hr|]. rewrite with_receivers_id.
  rewrite (rep_count _ _ Hr), (rep_is_empty _ _ Hs). pose proof (length_others old new rcv Hnd Hne) as Hlo.
  assert (∀ n, (Nat.b2n (bool_decide (old ∈ rcv)) + Nat.b2n (bool_decide (new ∈ rcv)) <? n)%nat = true ↔
    (Nat.b2n (bool_decide (old ∈ rcv)) + Nat.b2n (bool_decide (new ∈ rcv)) < n)%nat) as Hlt
    by (intros n; apply Nat.ltb_lt).
  set (b := RebindBlocked.mk _ _ _).
  assert ((RebindBlocked.senders_waiting b = true ↔ snd ≠ []) ∧
    (RebindBlocked.other_receiver b = true ↔ ∃ x, x ∈ rcv ∧ x ≠ old ∧ x ≠ new) ∧
    (RebindBlocked.reply_open b = true ↔ is_Some (Endpoint.caller e))) as Hb.
  { subst b. cbn [RebindBlocked.senders_waiting RebindBlocked.other_receiver RebindBlocked.reply_open].
    split; [|split].
    - rewrite negb_true_iff, bool_decide_eq_false. done.
    - rewrite Hlt, <-others_spec. lia.
    - rewrite orb_true_iff, !is_Some_bool. unfold tokens in Ht. tauto. }
  destruct (decide (b ≠ RebindBlocked.default)) as [Hbl|Hbl]; [apply wp_ret; destruct Hb as (? & ? & ?); split_and!; done|]. apply dec_stable in Hbl.
  rewrite Hbl in Hb. cbn in Hb. destruct Hb as (Hb1 & Hb2 & Hb3).
  assert (snd = []) as -> by (destruct snd; [done|]; by destruct (proj2 Hb1)).
  assert (Endpoint.caller e = None) as Hc by (destruct (Endpoint.caller e); [by destruct (proj2 Hb3); eauto|done]).
  assert (length (others old new rcv) = 0%nat) as Ho.
  { destruct (length (others old new rcv)) eqn:E; [done|]. exfalso.
    by assert (false = true) by (apply Hb2, others_spec; lia). }
  apply wp_bind, wp_on_receivers. eapply wp_remove; [exact Hr|]. intros q Hq'.
  assert (∀ x, x ∈ rcv → x = old ∨ x = new) as Hall.
  { intros x Hx. destruct (decide (x = old)); [by left|]. destruct (decide (x = new)); [by right|].
    exfalso. apply (proj2 (others_spec old new rcv)); [by exists x|done]. }
  case_bool_decide as Hin; cbn [negb]; cycle 1.
  { apply wp_ret. rewrite without_absent in Hq' by done. do 4 (split; [by destruct e|]).
    split; [by split; [split|]|]. do 5 (split; [done|]). intros x Hx. destruct (Hall x Hx); [congruence|done]. }
  rewrite (rebind_rest old new rcv) in Hq' by done.
  apply wp_bind. case_bool_decide as Hn; cbn [negb].
  - apply wp_ret, wp_ret. do 4 (split; [by destruct e|]). split; [by split; [split|]|].
    do 7 (split; [done|]). done.
  - apply wp_bind, wp_on_receivers. eapply wp_enqueue; [exact Hq'|done|]. intros _ q' Hq2.
    apply wp_ret, wp_ret. do 4 (split; [by destruct e|]). split; [by split; [split|]|].
    by do 7 (split; [done|]).
Qed.

(** ** Every operation keeps the invariant *)

Inductive endpoint_op :=
| Call (core : nat) (frame badge : Z) | Recv (core : nat) (frame : Z) | Reply (core : nat) (frame : Z)
| MarkUsed | BeginQuiesce | EndQuiesce | RetireReceiver (tid : ThreadId.t)
| BindReceiver (tid : ThreadId.t) | RebindServer (old new : ThreadId.t)
| PurgeThread (tid : ThreadId.t) | OwnerDied (owner : ThreadId.t)
| AbortCall (caller : ThreadId.t) | MigrateOwner (old_owner : ThreadId.t).

(** The operations that queue a thread without looking for a partner. *)
Definition unpaired (o : endpoint_op) : bool :=
  match o with BindReceiver _ | MigrateOwner _ => true | _ => false end.

(** No sender waits beside a receiver. *)
Definition paired snd rcv : Prop := snd = [] ∨ rcv = [].

Section inv.
Context {W : Type} `{SchedLaws W}.
Implicit Types w : W.

Definition forget {S A} (m : M S A) : M S unit := m ≫= λ _, mret tt.

Definition perform (o : endpoint_op) : M (Endpoint.t * W) unit :=
  match o with
  | Call core frame badge => forget (call core frame badge)
  | Recv core frame => forget (recv core frame)
  | Reply core frame => forget (reply core frame)
  | MarkUsed => on_obj Endpoint.mark_used
  | BeginQuiesce => forget (on_obj Endpoint.begin_quiesce)
  | EndQuiesce => forget (on_obj Endpoint.end_quiesce)
  | RetireReceiver tid => forget (on_obj (Endpoint.retire_receiver tid))
  | BindReceiver tid => forget (on_obj (Endpoint.bind_receiver tid))
  | RebindServer old new => forget (on_obj (Endpoint.rebind_server old new))
  | PurgeThread tid => forget (on_obj (Endpoint.purge_thread tid))
  | OwnerDied owner => forget (on_obj (Endpoint.owner_died owner))
  | AbortCall caller => forget (on_obj (Endpoint.abort_call caller))
  | MigrateOwner old => forget (on_obj (Endpoint.migrate_owner old))
  end.

(** What the kernel guarantees of the thread that issues a system call: it runs,
    so it is queued nowhere, and another thread is ready. *)
Definition issuable (o : endpoint_op) w snd rcv : Prop :=
  match o with
  | Call core _ _ | Recv core _ =>
      ∃ cur, running w core = Some cur ∧ yields w core ∧ cur ∉ rcv ∧ cur ∉ snd
  | Reply core _ => is_Some (running w core)
  | BindReceiver tid => tid ∉ rcv
  | RebindServer _ _ => NoDup rcv
  | _ => True
  end.

Lemma wp_forget {S A} (m : M S A) (s : S) (P : S → Prop) : wp m s (λ _, P) → wp (forget m) s (λ _, P).
Proof. intros Hm. apply wp_bind. eapply wp_mono; [exact Hm|]. intros a s' HP. by apply wp_ret. Qed.

Lemma paired_without x snd rcv : paired snd rcv → paired (without x snd) (without x rcv).
Proof. intros [->| ->]; [by left|by right]. Qed.

Lemma perform_call core frame badge e w snd rcv :
  ok w → good e snd rcv → issuable (Call core frame badge) w snd rcv →
  wp (call core frame badge) (e, w) (λ _ '(e', w'), ok w' ∧
    ∃ snd' rcv', good e' snd' rcv' ∧ (paired snd rcv → paired snd' rcv')).
Proof.
  intros Hw [Her Ht] (cur & Hc & Hy & Hn & _).
  eapply wp_mono; [by apply (call_exact e w core frame badge cur snd rcv)|].
  intros f [e' w'] (Hw' & _ & _ & _ & Hcase). split; [done|].
  destruct (Endpoint.gate_new_transaction e) as [code|].
  { destruct Hcase as (_ & -> & _). exists snd, rcv. split; [by split|done]. }
  destruct Hcase as [(server & rest & sf & b & Hfa & _ & Her' & Hca & Hro & _)|(_ & Hca & Hro & Hq)].
  - exists snd, rest. split; [split; [done|unfold tokens; rewrite Hca, Hro; by split; eauto]|].
    intros [->| ->]; [by left|]. destruct Hfa as (dead & E & _). by destruct dead.
  - assert (tokens e') as Ht' by (unfold tokens; by rewrite Hca, Hro).
    case_decide; destruct Hq as (?&?&?);
      [exists (snd ++ [cur]), []|exists snd, []]; (split; [by split|by right]).
Qed.

Lemma perform_recv core frame e w snd rcv :
  ok w → good e snd rcv → issuable (Recv core frame) w snd rcv →
  wp (recv core frame) (e, w) (λ _ '(e', w'), ok w' ∧
    ∃ snd' rcv', good e' snd' rcv' ∧ (paired snd rcv → paired snd' rcv')).
Proof.
  intros Hw [Her Ht] (cur & Hc & Hy & _).
  eapply wp_mono; [by apply (recv_exact e w core frame cur snd rcv)|].
  intros f [e' w'] (Hw' & _ & _ & _ & Hcase). split; [done|].
  destruct (Endpoint.gate_new_transaction e) as [code|].
  { destruct Hcase as (_ & -> & _). exists snd, rcv. split; [by split|done]. }
  destruct Hcase as [(sender & rest & cf & b & -> & Hfa & _ & Her' & Hca & Hro & _)|(_ & Hca & Hro & Hq)].
  - exists rest, rcv. split; [split; [done|unfold tokens; rewrite Hca, Hro; by split; eauto]|].
    intros [->| ->]; [|by right]. destruct Hfa as (dead & E & _). by destruct dead.
  - assert (tokens e') as Ht' by (unfold tokens; by rewrite Hca, Hro).
    case_decide; [destruct Hq as [? ?]|destruct Hq as (? & ? & ?)];
      [exists [], (rcv ++ [cur])|exists [], rcv]; (split; [by split|by left]).
Qed.

Lemma perform_reply core frame e w snd rcv :
  ok w → good e snd rcv → is_Some (running w core) →
  wp (reply core frame) (e, w) (λ _ '(e', w'), ok w' ∧ good e' snd rcv).
Proof.
  intros Hw [[Hs Hr] Ht] Hc. eapply wp_mono; [by apply (reply_exact e w core frame)|].
  intros f [e' w'] (_ & Hw' & _ & _ & Hcase). split; [done|].
  destruct (negb (Endpoint.used e)); [by destruct Hcase as [-> _]|].
  destruct Hcase as [-> _]. split; [by split|]. by split; intros [].
Qed.

(** Every operation of an endpoint runs to its end and leaves two well-formed
    queues and a reply token that names both parties or none; and while no thread
    is queued without looking for its partner, no sender waits beside a receiver. *)
Lemma perform_good o e w snd rcv :
  ok w → good e snd rcv → issuable o w snd rcv →
  wp (perform o) (e, w) (λ _ '(e', w'), ok w' ∧
    ∃ snd' rcv', good e' snd' rcv' ∧ (unpaired o = false → paired snd rcv → paired snd' rcv')).
Proof.
  intros Hw HG Hi. destruct o; unfold perform; simpl in Hi |- *; try apply wp_forget.
  - eapply wp_mono; [by eapply perform_call|]. intros _ [e' w'] (? & s & r & ? & ?). eauto 10.
  - eapply wp_mono; [by eapply perform_recv|]. intros _ [e' w'] (? & s & r & ? & ?). eauto 10.
  - eapply wp_mono; [by eapply perform_reply|]. intros _ [e' w'] (? & ?). eauto 10.
  - apply wp_on_obj, wp_modify. split; [done|]. exists [], []. split; [apply good_fresh|by left].
  - apply wp_on_obj. apply wp_bind, wp_gets.
    destruct (_ || _); [apply wp_ret; eauto 10|]. apply wp_bind, wp_modify, wp_ret.
    split; [done|]. exists snd, rcv. split; [|done]. destruct HG as [[] ?]. by split.
  - apply wp_on_obj. apply wp_bind, wp_gets, wp_bind, wp_modify, wp_ret.
    split; [done|]. exists snd, rcv. split; [|done]. destruct HG as [[] ?]. by split.
  - apply wp_on_obj. eapply wp_retire_receiver; [exact HG|eauto 10|]. intros e' _ HG'. split; [done|].
    exists snd, (without tid rcv). split; [done|]. intros _ [->| ->]; [by left|by right].
  - apply wp_on_obj. eapply wp_bind_receiver; [exact HG|eauto 10|]. intros e' _ _ HG'. split; [done|].
    by exists snd, (rcv ++ [tid]).
  - apply wp_on_obj. eapply wp_mono; [by apply (rebind_exact e snd rcv old new)|].
    intros r e' (_ & _ & _ & _ & HG' & Hr). split; [done|]. eexists _, _. split; [exact HG'|].
    intros _ Hp. destruct r; try done. simpl. destruct Hr as (_ & _ & _ & -> & _). by left.
  - apply wp_on_obj. eapply wp_purge_thread; [exact HG|]. intros b e' HG' _ _ _ _. split; [done|].
    eexists _, _. split; [exact HG'|]. intros _. apply paired_without.
  - apply wp_on_obj. eapply wp_owner_died; [exact HG|eauto 10|]. intros c e' _ _ HG' _ _ _ _. eauto 10.
  - apply wp_on_obj. eapply wp_abort_call; [exact HG|eauto 10|]. intros e' _ HG' _ _. eauto 10.
  - apply wp_on_obj. eapply wp_migrate_owner; [exact HG|eauto 10|]. intros c e' _ _ _ HG' _ _.
    split; [done|]. by exists (snd ++ [c]), rcv.
Qed.

(** Endpoints reached from the empty one by operations in any worlds; [p] tells
    that no operation queued a thread without looking for its partner. *)
Inductive endpoint_reachable : bool → Endpoint.t → Prop :=
| er_empty : endpoint_reachable true Endpoint.EMPTY
| er_step p e o w e' w' :
    endpoint_reachable p e → ok w → (∀ snd rcv, erep e snd rcv → issuable o w snd rcv) →
    perform o (e, w) = Some (tt, (e', w')) → endpoint_reachable (p && negb (unpaired o)) e'.

(** Every reachable endpoint has two well-formed queues and a reply token that names
    both its parties or none; and if no receiver was bound and no pending reply moved
    from outside, a sender and a receiver never wait at it at the same time. *)
Theorem endpoint_invariant p e :
  endpoint_reachable p e →
  ∃ snd rcv, erep e snd rcv ∧ tokens e ∧ (length snd ≤ TidQueue.QUEUE_CAP)%nat ∧
    (length rcv ≤ TidQueue.QUEUE_CAP)%nat ∧ (p = true → snd = [] ∨ rcv = []).
Proof.
  intros Hr. assert (∃ snd rcv, good e snd rcv ∧ (p = true → paired snd rcv)) as (snd & rcv & [He Ht] & Hp).
  - induction Hr as [|p e o w e' w' _ (snd & rcv & HG & Hp) Hw Hi Hrun].
    { exists [], []. split; [apply good_EMPTY|by left]. }
    pose proof (perform_good o e w snd rcv Hw HG (Hi snd rcv (gd_rep _ _ _ HG))) as Hwp.
    unfold wp in Hwp. rewrite Hrun in Hwp. destruct Hwp as (_ & snd' & rcv' & HG' & Hp').
    exists snd', rcv'. split; [done|]. intros [-> Ho%negb_true_iff]%andb_true_iff. auto.
  - exists snd, rcv. do 2 (split; [done|]). pose proof (rep_bound _ _ (er_senders _ _ _ He)).
    pose proof (rep_bound _ _ (er_receivers _ _ _ He)). done.
Qed.
End inv.
