(* ===== verification/IpcKernel.v ===== *)
(** * The kernel behind the endpoints

    The facade [KernelSched] of [src/kernel/src/system.rs] over the scheduler
    instances of all cores, and the saved frames
    ([src/crates/caprock-hal/src/x86_64/exception.rs]).  The facade discharges the
    contract [SchedLaws] in every machine that satisfies the invariant [sys], so
    the theorems on endpoints hold for the running kernel.  A reschedule interrupt
    ([kick]) has no effect on this state and is left out; the cycle counter is a
    parameter.  Two saved frames at different addresses do not overlap.  *)

From S2P Require Import Prelude PanicMonad Dll Slab Redirect SchedData Sched SchedReady SchedInv.
From S2P Require Import SchedWake SchedRun SchedTick SchedOps SchedEffect SchedDir SchedLife.
From S2P Require Import SchedSystem TidQueue Ipc IpcLaws.
Import Scheduler.
#[local] Open Scope Z_scope.

(** The cycle counter [hal::timer::cycles]. *)
Class Timer := cycles : Z.

(** ** Saved frames *)
Definition ABI_TO_GPR : list nat := [0; 5; 4; 3; 9; 7; 8]%nat.

(** The general-purpose register that an ABI register names. *)
Definition gpr_slot (idx : nat) : nat := nth (Nat.min idx (length ABI_TO_GPR - 1)) ABI_TO_GPR 0%nat.

Module Kernel.
Record World := mk { machine : Machine.t; frames : gmap (Z * nat) Z }.

Definition on_machine {A} (m : M Machine.t A) : M World A :=
  zoom machine (λ x w, mk x (frames w)) m.

Definition read_reg (w : World) (frame : Z) (idx : nat) : Z :=
  default 0 (frames w !! (frame, gpr_slot idx)).
Definition frame_reg (frame : Z) (idx : nat) : M World Z := gets (λ w, read_reg w frame idx).
Definition frame_set_reg (frame : Z) (idx : nat) (val : Z) : M World unit :=
  modify (λ w, mk (machine w) (<[(frame, gpr_slot idx) := val]> (frames w))).

(** ** The facade *)
Definition MIGRATION_RETRIES : nat := 4.

Fixpoint with_owner_loop {R} (n : nat) (tid : ThreadId.t) (f : nat → M St (option R)) :
    M Machine.t (option (R * nat)) :=
  match n with
  | O => mret None
  | S n =>
      oc ← gets (λ m, Globals.owner_core (Machine.globals m) tid);
      match oc with
      | None => mret None
      | Some c =>
          k ← gets Machine.num_cores;
          if (k <=? c)%nat then mret None
          else
            attempt ← Machine.on_core c (f c);
            match attempt with
            | Some r => mret (Some (r, c))
            | None =>
                oc2 ← gets (λ m, Globals.owner_core (Machine.globals m) tid);
                match oc2 with
                | Some c2 => if decide (c2 ≠ c) then with_owner_loop n tid f else mret None
                | None => mret None
                end
            end
      end
  end.
Definition with_owner {R} := @with_owner_loop R MIGRATION_RETRIES.

Definition then_some (b : bool) : option unit := if b then Some tt else None.

Section facade.
Context `{Timer}.

Definition charged {R} (core : nat) (f : M St R) : M St R :=
  charge_current core cycles ≫= λ _,
  r ← f;
  stamp_current core cycles ≫= λ _, mret r.

Definition current_id (core : nat) : M World ThreadId.t :=
  on_machine (Machine.on_core core (Scheduler.current_id core)).
Definition owner_core (tid : ThreadId.t) : M World (option nat) :=
  on_machine (gets (λ m, Globals.owner_core (Machine.globals m) tid)).
Definition frame_of (tid : ThreadId.t) : M World (option Z) :=
  o ← on_machine (with_owner tid (λ _, Scheduler.frame_of tid)); mret (fst <$> o).
Definition wartet_auf_ipc (tid : ThreadId.t) : M World bool :=
  o ← on_machine (with_owner tid (λ _, b ← Scheduler.wartet_auf_ipc tid; mret (Some b)));
  mret (default false (fst <$> o)).
Definition block_current (core : nat) (frame : Z) : M World Z :=
  on_machine (Machine.on_core core (charged core (Scheduler.block_current core frame))).
Definition switch_to (core : nat) (frame : Z) (target : ThreadId.t) : M World Z :=
  on_machine (Machine.on_core core (charged core (Scheduler.switch_to core frame target))).
Definition unblock (tid : ThreadId.t) : M World unit :=
  on_machine (with_owner tid (λ _, b ← Scheduler.unblock tid; mret (then_some b))) ≫= λ _, mret tt.
Definition end_donation (core : nat) : M World unit :=
  on_machine (Machine.on_core core (Scheduler.end_donation core)).
End facade.
End Kernel.

#[export] Instance kernel_ops `{Timer} : SchedOps Kernel.World := {|
  Ipc.current_id := Kernel.current_id;
  Ipc.owner_core := Kernel.owner_core;
  Ipc.frame_of := Kernel.frame_of;
  Ipc.wartet_auf_ipc := Kernel.wartet_auf_ipc;
  Ipc.block_current := Kernel.block_current;
  Ipc.switch_to := Kernel.switch_to;
  Ipc.unblock := Kernel.unblock;
  Ipc.end_donation := Kernel.end_donation;
  Ipc.frame_reg := Kernel.frame_reg;
  Ipc.frame_set_reg := Kernel.frame_set_reg |}.

(** ** What a machine shows of its threads *)

Implicit Types (m : Machine.t) (tid : ThreadId.t).

Definition at_core m (c : nat) (s : t) : St := mkSt s (Machine.globals m).

(** The table slot of a living thread, with its core. *)
Definition find m tid : option (nat * t * nat) :=
  c ← Globals.owner_core (Machine.globals m) tid;
  s ← Machine.cores m !! c;
  i ← resolve_in (mkSt s (Machine.globals m)) tid;
  Some (c, s, i).
Definition m_thread m tid : option (Z * bool) :=
  '(c, s, i) ← find m tid; ctxs (mkSt s (Machine.globals m)) !! i.
Definition m_running m (c : nat) : option ThreadId.t :=
  s ← Machine.cores m !! c;
  i ← current s;
  x ← idents s !! i;
  '(gid, gen) ← x;
  Some (ThreadId.mk (Z.to_nat gid) gen).
Definition m_yields m (c : nat) : Prop :=
  ∃ s, Machine.cores m !! c = Some s ∧ has_ready (mkSt s (Machine.globals m)).
Definition m_place m tid : option nat := Globals.owner_core (Machine.globals m) tid.

(** A living thread is found in the table of its core. *)
Lemma place_found m tid c : sys m → m_place m tid = Some c →
  ∃ s i t, Machine.cores m !! c = Some s ∧ resolve_in (mkSt s (Machine.globals m)) tid = Some i ∧
    tcbs s !! i = Some t ∧ find m tid = Some (c, s, i) ∧
    idents s !! i = Some (Some (Z.of_nat (ThreadId.slot tid), ThreadId.gen tid)).
Proof.
  intros (G & D & HS) Hp. pose proof (sy_dir _ _ _ _ HS) as HD. pose proof Hp as Hp'.
  unfold m_place, Globals.owner_core, Globals.dir_load in Hp.
  destruct (Globals.directory (Machine.globals m) !! ThreadId.slot tid) as [e|] eqn:He; [|done].
  cbn [mbind option_bind] in Hp. destruct (dir_used e) eqn:Hu; [|done]. cbn [negb orb] in Hp.
  destruct (Z.eqb_spec (dir_gen e) (ThreadId.gen tid)) as [Hg|]; [|done]. injection Hp as Hc.
  destruct (di_bwd _ _ _ _ _ HD _ _ He Hu) as (c' & l & gen & Hh); [done|].
  pose proof (di_fwd _ _ _ _ _ HD _ _ _ _ Hh) as (_ & _ & _ & Hd). rewrite Nat2Z.id, He in Hd.
  injection Hd as ->. destruct (holds_entry _ _ _ _ _ HD _ _ _ _ Hh) as (_ & E2 & E3 & E4).
  rewrite E2 in Hg. rewrite E3 in Hc. subst gen c'. destruct Hh as (li & Hli & Hl).
  rewrite list_lookup_fmap in Hli. apply fmap_Some in Hli as (s & Hs & ->).
  destruct (sys_local _ _ _ _ _ _ HS Hs) as (Ec & _ & Hid & _).
  assert (resolve_in (mkSt s (Machine.globals m)) tid = Some l) as Hr.
  { pose proof (resolve_held _ _ _ _ _ _ _ _ _ HD Hid Hl) as Hr. rewrite Nat2Z.id in Hr. by destruct tid. }
  pose proof Hl as Ht. unfold idents in Ht. apply list_lookup_fmap_Some in Ht as (t & _ & Ht).
  exists s, l, t. do 3 (split; [done|]). split; [|done].
  unfold find. unfold m_place in Hp'. rewrite Hp'. cbn [mbind option_bind]. rewrite Hs. cbn [mbind option_bind].
  by rewrite Hr.
Qed.

(** A thread that resolves on a core is at home there. *)
Lemma resolved_place m c s tid i : sys m → Machine.cores m !! c = Some s →
  resolve_in (mkSt s (Machine.globals m)) tid = Some i → m_place m tid = Some c.
Proof.
  intros (G & D & HS) Hs Hr. destruct (sys_local _ _ _ _ _ _ HS Hs) as (Ec & _).
  destruct (resolve_in_Some _ _ _ Hr) as (e & t & He & Hu & Hg & Hco & _). cbn [sch glo] in *.
  unfold m_place, Globals.owner_core. rewrite He. cbn [mbind option_bind].
  rewrite Hu, Hg, Z.eqb_refl. cbn [negb orb]. congruence.
Qed.

(** Two handles do not lead to one table slot. *)
Lemma resolve_inj m c s t1 t2 i : sys m → Machine.cores m !! c = Some s →
  resolve_in (mkSt s (Machine.globals m)) t1 = Some i →
  resolve_in (mkSt s (Machine.globals m)) t2 = Some i → t1 = t2.
Proof.
  intros (G & D & HS) Hs H1 H2. destruct (sys_local _ _ _ _ _ _ HS Hs) as (Ec & _ & Hid & _).
  pose proof (sy_dir _ _ _ _ HS) as HD.
  pose proof (resolve_ident _ _ _ _ _ _ _ _ HD Hid ltac:(done) H1) as E1.
  pose proof (resolve_ident _ _ _ _ _ _ _ _ HD Hid ltac:(done) H2) as E2.
  rewrite E1 in E2. apply (inj Some) in E2. injection E2 as E3 E4. destruct t1, t2; cbn in *.
  apply Nat2Z.inj in E3. by subst.
Qed.

(** The running thread of a core. *)
Lemma running_found m c tid : sys m → m_running m c = Some tid →
  ∃ s i t, Machine.cores m !! c = Some s ∧ current s = Some i ∧ tcbs s !! i = Some t ∧
    tid = ThreadId.mk (Z.to_nat (Tcb.gid t)) (Tcb.gen t) ∧
    resolve_in (mkSt s (Machine.globals m)) tid = Some i ∧ (ctx t).2 = false.
Proof.
  intros (G & D & HS) Hr. unfold m_running in Hr.
  destruct (Machine.cores m !! c) as [s|] eqn:Hs; [|done]. cbn [mbind option_bind] in Hr.
  destruct (current s) as [i|] eqn:Hc; [|done]. cbn [mbind option_bind] in Hr.
  destruct (sys_local _ _ _ _ _ _ HS Hs) as (Ec & (Q & F & HI) & Hid & _).
  destruct (g_cur _ _ _ _ (g_base _ _ _ _ HI) i Hc) as (t & Ht & Hu & Hw & _).
  assert (idents s !! i = Some (Some (Tcb.gid t, Tcb.gen t))) as Hi.
  { rewrite (idents_lookup _ _ _ Ht). unfold ident. by rewrite Hu. }
  rewrite Hi in Hr. cbn [mbind option_bind] in Hr. injection Hr as <-.
  exists s, i, t. do 4 (split; [done|]). split; [|exact Hw].
  eapply resolve_held; [apply HS|exact Hid|exact Hi].
Qed.

(** ** A step of one core, seen from the machine *)

Definition after m (c : nat) (st : St) : Machine.t :=
  Machine.mk (<[c := sch st]> (Machine.cores m)) (glo st) (Machine.pending m).

Section step.
Context m c s st' (HS : sys m) (Hs : Machine.cores m !! c = Some s)
  (Hst : stays (mkSt s (Machine.globals m)) st').
Notation st := (mkSt s (Machine.globals m)).

Lemma after_sys : sys (after m c st').
Proof. by eapply sys_stays. Qed.

Lemma after_glo : Machine.globals (after m c st') = Machine.globals m.
Proof. by destruct Hst as [_ [Eg _ _ _ _]]. Qed.

Lemma after_place tid : m_place (after m c st') tid = m_place m tid.
Proof. unfold m_place. by rewrite after_glo. Qed.

Lemma after_core c' : Machine.cores (after m c st') !! c' =
  if decide (c' = c) then Some (sch st') else Machine.cores m !! c'.
Proof.
  unfold after. cbn. case_decide as Hc.
  - subst. apply list_lookup_insert_eq. by eapply lookup_lt_Some.
  - by apply list_lookup_insert_ne.
Qed.

Lemma after_thread tid : m_thread (after m c st') tid =
  if decide (m_place m tid = Some c)
  then resolve_in st tid ≫= λ i, ctxs st' !! i else m_thread m tid.
Proof.
  destruct Hst as [_ Hq]. pose proof (resolve_quiet _ _ tid Hq) as Hr.
  unfold m_thread, find. rewrite after_glo. fold (m_place m tid).
  destruct (m_place m tid) as [c'|] eqn:Hp; [|by rewrite decide_False].
  cbn [mbind option_bind]. rewrite after_core. destruct (decide (c' = c)) as [->|Hne].
  - rewrite decide_True by done. cbn [mbind option_bind].
    assert (mkSt (sch st') (Machine.globals m) = st') as ->.
    { pose proof after_glo as E. unfold after in E. cbn in E. rewrite <-E. by destruct st'. }
    rewrite Hr. by destruct (resolve_in st tid).
  - by rewrite decide_False by congruence.
Qed.

Lemma after_running : current (sch st') = current s → ∀ c', m_running (after m c st') c' = m_running m c'.
Proof.
  intros Hc c'. unfold m_running. rewrite after_core. destruct (decide (c' = c)) as [->|]; [|done].
  destruct Hst as [_ [_ _ Ei _ _]]. rewrite Hs. cbn [mbind option_bind]. by rewrite Hc, Ei.
Qed.

Lemma after_yields : lively st st' → ∀ c', m_yields m c' → m_yields (after m c st') c'.
Proof.
  intros Hl c' (s' & Hs' & Hr). unfold m_yields. rewrite after_core. destruct (decide (c' = c)) as [->|].
  - exists (sch st'). split; [done|]. assert (s' = s) as -> by congruence. exact (Hl Hr).
  - exists s'. done.
Qed.

(** Threads at home on [c] change as their contexts do, the others not at all. *)
Lemma after_thread_alter f i tid0 :
  ctxs st' = alter f i (ctxs st) → resolve_in st tid0 = Some i →
  ∀ tid, m_thread (after m c st') tid =
    if decide (tid = tid0) then f <$> m_thread m tid else m_thread m tid.
Proof.
  intros E Hr tid. rewrite after_thread. destruct (decide (m_place m tid = Some c)) as [Hp|Hp].
  - destruct (place_found _ _ _ HS Hp) as (s0 & j & t & Hs0 & Hj & Ht & Hf & _).
    assert (s0 = s) as -> by congruence. rewrite Hj. cbn [mbind option_bind]. rewrite E, lookup_alter_if.
    unfold m_thread. rewrite Hf. cbn [mbind option_bind].
    destruct (decide (tid = tid0)) as [->|Hne].
    + assert (i = j) as -> by congruence. by rewrite decide_True.
    + rewrite decide_False; [by destruct (ctxs st !! j)|]. intros ->. apply Hne. by eapply resolve_inj.
  - rewrite decide_False; [done|]. intros ->. apply Hp. by eapply resolved_place.
Qed.

Lemma after_thread_same : ctxs st' = ctxs st → ∀ tid, m_thread (after m c st') tid = m_thread m tid.
Proof.
  intros E tid. rewrite after_thread. destruct (decide (m_place m tid = Some c)) as [Hp|Hp]; [|done].
  destruct (place_found _ _ _ HS Hp) as (s0 & j & t & Hs0 & Hj & Ht & Hf & _).
  assert (s0 = s) as -> by congruence. rewrite Hj, E. unfold m_thread. by rewrite Hf.
Qed.
End step.

Lemma sys_inv m c s : sys m → Machine.cores m !! c = Some s → Inv (mkSt s (Machine.globals m)).
Proof. intros (G & D & HS) Hs. by destruct (sys_local _ _ _ _ _ _ HS Hs) as (_ & HI & _). Qed.

(** ** Access to the owning core *)

Lemma wp_with_owner {R} (f : nat → M St (option R)) tid m (Q : option (R * nat) → Machine.t → Prop) :
  sys m →
  (m_place m tid = None → Q None m) →
  (∀ c s i, m_place m tid = Some c → Machine.cores m !! c = Some s →
     resolve_in (mkSt s (Machine.globals m)) tid = Some i →
     wp (f c) (mkSt s (Machine.globals m)) (λ a st', ∃ r, a = Some r ∧ Q (Some (r, c)) (after m c st'))) →
  wp (Kernel.with_owner tid f) m Q.
Proof.
  intros HS HN HR. unfold Kernel.with_owner, Kernel.MIGRATION_RETRIES. cbn [Kernel.with_owner_loop].
  apply wp_bind, wp_gets. fold (m_place m tid). destruct (m_place m tid) as [c|] eqn:Hp; [|by apply wp_ret, HN].
  destruct (place_found _ _ _ HS Hp) as (s & i & t & Hs & Hi & _).
  apply wp_bind, wp_gets. unfold Machine.num_cores.
  destruct (Nat.leb_spec (length (Machine.cores m)) c) as [Hle|Hlt].
  { apply lookup_lt_Some in Hs. lia. }
  apply wp_bind. eapply wp_on_core; [exact Hs|]. eapply wp_mono; [by eapply HR|].
  intros a st' (r & -> & HQ). by apply wp_ret.
Qed.

(** A query of a thread. *)
Lemma wp_owner_query {A} (f : Tcb.t → A) tid st i t (Q : option A → St → Prop) :
  resolve_in st tid = Some i → tcbs (sch st) !! i = Some t → Q (Some (f t)) st → wp (query f tid) st Q.
Proof.
  intros Hr Ht HQ. unfold query. apply wp_bind, wp_gets. rewrite Hr. apply wp_bind.
  eapply wp_tcb; [exact Ht|]. by apply wp_ret.
Qed.

Lemma after_nothing m c s : Machine.cores m !! c = Some s → after m c (mkSt s (Machine.globals m)) = m.
Proof. apply machine_same. Qed.

(** ** The contract *)

(** The account is charged before and the stamp set after the operation. *)
Lemma wp_charged `{Timer} {A} c (f : M St A) st (Q : A → St → Prop) :
  Inv st →
  (∀ st1, stays st st1 → calm st st1 → lively st st1 →
     wp f st1 (λ a st2, stays st1 st2 ∧
       ∀ st3, stays st st3 → ctxs st3 = ctxs st2 → Q a st3)) →
  wp (Kernel.charged c f) st Q.
Proof.
  intros HI Hf. unfold Kernel.charged. apply wp_bind.
  eapply wp_mono.
  { apply (wp_ends (charge_current c cycles) st (λ _ st', stays st st') (λ _ st', calm st st' ∧ lively st st')).
    - apply wp_charge_current; [done|]. by intros st' Hst.
    - intros [] st' E. split; [eapply calm_charge|eapply lively_charge]; exact E. }
  intros [] st1 (H1 & Hc1 & Hl1). apply wp_bind. eapply wp_mono; [by apply Hf|].
  intros a st2 (H2 & HQ). apply wp_bind. eapply wp_mono.
  { apply (wp_ends (stamp_current c cycles) st2 (λ _ st', stays st2 st') (λ _ st', calm st2 st')).
    - apply wp_stamp_current; [apply H2|]. by intros st' Hst.
    - intros [] st' E. eapply calm_stamp; exact E. }
  intros [] st3 (H3 & Hc3). apply wp_ret, HQ; [by eauto using stays_trans|apply Hc3].
Qed.

Lemma stays_resolve (st st' : St) tid : stays st st' → resolve_in st' tid = resolve_in st tid.
Proof. intros [_ Hq]. by apply resolve_quiet. Qed.

Section contract.
Context `{Timer}.
Implicit Types w : Kernel.World.

Definition w_after w m : Kernel.World := Kernel.mk m (Kernel.frames w).

Lemma wp_on_machine {A} (o : M Machine.t A) w (Q : A → Kernel.World → Prop) :
  wp o (Kernel.machine w) (λ a m, Q a (w_after w m)) → wp (Kernel.on_machine o) w Q.
Proof. intros Ho. by apply wp_zoom. Qed.

Lemma kernel_frame_of w tid : sys (Kernel.machine w) →
  Kernel.frame_of tid w = Some (fst <$> m_thread (Kernel.machine w) tid, w).
Proof.
  intros HS. assert (wp (Kernel.frame_of tid) w (λ a w', a = fst <$> m_thread (Kernel.machine w) tid ∧ w' = w)) as Hw;
    [|apply wp_run in Hw as (a & w' & E & -> & ->); exact E].
  unfold Kernel.frame_of. apply wp_bind, wp_on_machine. eapply wp_with_owner; [done| |].
  - intros Hp. apply wp_ret. unfold m_thread, find. unfold m_place in Hp. rewrite Hp. split; [done|by destruct w].
  - intros c s i Hp Hs Hi. destruct (place_found _ _ _ HS Hp) as (s0 & j & t & Hs0 & Hj & Ht & Hf & _).
    assert (s0 = s) as -> by congruence. assert (j = i) as -> by congruence.
    eapply wp_owner_query; [exact Hi|exact Ht|]. eexists. split; [done|]. apply wp_ret.
    rewrite after_nothing by done. split; [|by destruct w].
    unfold m_thread. rewrite Hf. cbn [mbind option_bind]. unfold ctxs. cbn [sch].
    by rewrite list_lookup_fmap, Ht.
Qed.

Lemma kernel_wartet w tid : sys (Kernel.machine w) →
  Kernel.wartet_auf_ipc tid w = Some (from_option snd false (m_thread (Kernel.machine w) tid), w).
Proof.
  intros HS. assert (wp (Kernel.wartet_auf_ipc tid) w (λ a w', a = from_option snd false (m_thread (Kernel.machine w) tid) ∧ w' = w)) as Hw;
    [|apply wp_run in Hw as (a & w' & E & -> & ->); exact E].
  unfold Kernel.wartet_auf_ipc. apply wp_bind, wp_on_machine. eapply wp_with_owner; [done| |].
  - intros Hp. apply wp_ret. unfold m_thread, find. unfold m_place in Hp. rewrite Hp. split; [done|by destruct w].
  - intros c s i Hp Hs Hi. destruct (place_found _ _ _ HS Hp) as (s0 & j & t & Hs0 & Hj & Ht & Hf & _).
    assert (s0 = s) as -> by congruence. assert (j = i) as -> by congruence.
    apply wp_bind. apply wp_bind. eapply wp_owner_query; [exact Hi|exact Ht|]. apply wp_ret, wp_ret.
    eexists. split; [done|]. apply wp_ret. rewrite after_nothing by done. split; [|by destruct w].
    unfold m_thread. rewrite Hf. cbn [mbind option_bind]. unfold ctxs. cbn [sch].
    by rewrite list_lookup_fmap, Ht.
Qed.

Lemma kernel_unblock w tid : sys (Kernel.machine w) →
  wp (Kernel.unblock tid) w (λ _ w', sys (Kernel.machine w') ∧
    (∀ c, m_running (Kernel.machine w') c = m_running (Kernel.machine w) c) ∧
    (∀ c, m_yields (Kernel.machine w) c → m_yields (Kernel.machine w') c) ∧
    (∀ x, m_place (Kernel.machine w') x = m_place (Kernel.machine w) x) ∧
    (∀ x, m_thread (Kernel.machine w') x = if decide (x = tid) then wake <$> m_thread (Kernel.machine w) x
                                          else m_thread (Kernel.machine w) x) ∧
    Kernel.frames w' = Kernel.frames w).
Proof.
  intros HS. unfold Kernel.unblock. apply wp_bind, wp_on_machine. eapply wp_with_owner; [done| |].
  - intros Hp. apply wp_ret. cbn. do 4 (split; [done|]). split; [|done]. intros x. case_decide as Hx; [|done].
    subst. unfold m_thread, find. unfold m_place in Hp. by rewrite Hp.
  - intros c s i Hp Hs Hi. pose proof (sys_inv _ _ _ HS Hs) as HI. apply wp_bind. eapply wp_mono.
    { apply (wp_ends (unblock tid) _ (λ b st', stays (mkSt s (Machine.globals (Kernel.machine w))) st' ∧ b = true)).
      - eapply wp_mono; [apply (wp_ends (unblock tid) _ _ (λ b _, b = true) (SchedOps.wp_unblock tid _ _ HI (λ b st' Hst, Hst)))|done].
        unfold unblock. apply ends_bind, ends_gets. rewrite Hi.
        apply ends_bind. intros ? ? _. apply ends_bind. intros ? ? _. by apply ends_ret.
      - apply unblock_effect. }
    intros b st' ([Hst ->] & Ec & Ecu & Hl). rewrite Hi in Ec. apply wp_ret. exists tt. split; [done|]. apply wp_ret. cbn.
    split; [by eapply after_sys|]. split; [by eapply after_running|]. split; [by eapply after_yields|].
    split; [by eapply after_place|]. split; [|done]. by eapply after_thread_alter.
Qed.

Lemma kernel_end_donation w c : sys (Kernel.machine w) → is_Some (m_running (Kernel.machine w) c) →
  wp (Kernel.end_donation c) w (λ _ w', sys (Kernel.machine w') ∧
    (∀ c, m_running (Kernel.machine w') c = m_running (Kernel.machine w) c) ∧
    (∀ c, m_yields (Kernel.machine w) c → m_yields (Kernel.machine w') c) ∧
    (∀ x, m_place (Kernel.machine w') x = m_place (Kernel.machine w) x) ∧
    (∀ x, m_thread (Kernel.machine w') x = m_thread (Kernel.machine w) x) ∧
    Kernel.frames w' = Kernel.frames w).
Proof.
  intros HS [tid Hr]. destruct (running_found _ _ _ HS Hr) as (s & i & t & Hs & _).
  apply wp_on_machine. eapply wp_on_core; [exact Hs|]. pose proof (sys_inv _ _ _ HS Hs) as HI.
  eapply wp_mono.
  { apply (wp_ends (end_donation c) _ (λ _ st', stays (mkSt s (Machine.globals (Kernel.machine w))) st')
      (λ _ st', calm (mkSt s (Machine.globals (Kernel.machine w))) st' ∧ lively (mkSt s (Machine.globals (Kernel.machine w))) st')).
    - apply wp_end_donation; [done|]. by intros st'.
    - intros [] st' E. split; [eapply calm_end_donation|eapply lively_end_donation]; exact E. }
  intros [] st' (Hst & [Ec Ecu] & Hl). fold (after (Kernel.machine w) c st'). cbn.
  split; [by eapply after_sys|]. split; [by eapply after_running|]. split; [by eapply after_yields|].
  split; [by eapply after_place|]. split; [|done]. by eapply after_thread_same.
Qed.

Lemma kernel_block_current w c frame cur : sys (Kernel.machine w) →
  m_running (Kernel.machine w) c = Some cur → m_yields (Kernel.machine w) c →
  wp (Kernel.block_current c frame) w (λ _ w', sys (Kernel.machine w') ∧
    (∀ x, m_place (Kernel.machine w') x = m_place (Kernel.machine w) x) ∧
    (∀ x, m_thread (Kernel.machine w') x =
       if decide (x = cur) then wait_with frame <$> m_thread (Kernel.machine w) x else m_thread (Kernel.machine w) x) ∧
    Kernel.frames w' = Kernel.frames w).
Proof.
  intros HS Hr (s0 & Hs0 & Hy). destruct (running_found _ _ _ HS Hr) as (s & i & t & Hs & Hi & Ht & _ & Hres & _).
  assert (s0 = s) as -> by congruence. apply wp_on_machine. eapply wp_on_core; [exact Hs|].
  apply wp_charged; [by eapply sys_inv|]. intros st1 H1 [Ec1 Ecu1] Hl1. cbn [sch] in *.
  eapply wp_mono.
  { apply wp_ends; [|by apply (block_current_effect c frame st1 i); rewrite Ecu1].
    eapply (wp_block_stays c 0 frame st1 (λ _ st', stays st1 st')); [apply H1|by rewrite Ecu1|by apply Hl1|lia|lia|done]. }
  intros f st2 (H2 & E2). split; [done|]. intros st3 H3 E3. fold (after (Kernel.machine w) c st3). cbn.
  split; [by eapply after_sys|]. split; [by eapply after_place|]. split; [|done].
  eapply after_thread_alter; [exact HS|exact Hs|exact H3| |exact Hres]. by rewrite E3, E2, Ec1.
Qed.

(** Waking after saving is what the switch does to the two threads. *)
Lemma kernel_switch_to w c frame cur target : sys (Kernel.machine w) →
  m_running (Kernel.machine w) c = Some cur → m_yields (Kernel.machine w) c →
  m_place (Kernel.machine w) target = Some c → target ≠ cur →
  wp (Kernel.switch_to c frame target) w (λ _ w', sys (Kernel.machine w') ∧
    (∀ x, m_place (Kernel.machine w') x = m_place (Kernel.machine w) x) ∧
    (∀ x, m_thread (Kernel.machine w') x =
       if decide (x = cur) then wait_with frame <$> m_thread (Kernel.machine w) x
       else if decide (x = target) then wake <$> m_thread (Kernel.machine w) x
       else m_thread (Kernel.machine w) x) ∧
    Kernel.frames w' = Kernel.frames w).
Proof.
  intros HS Hr (s0 & Hs0 & Hy) Hp Hne.
  destruct (running_found _ _ _ HS Hr) as (s & i & t & Hs & Hi & Ht & _ & Hres & _).
  assert (s0 = s) as -> by congruence.
  destruct (place_found _ _ _ HS Hp) as (s0 & j & tj & Hs1 & Hj & Htj & Hfj & _).
  assert (s0 = s) as -> by congruence.
  assert (i ≠ j) as Hij. { intros ->. apply Hne. by eapply resolve_inj. }
  apply wp_on_machine. eapply wp_on_core; [exact Hs|].
  apply wp_charged; [by eapply sys_inv|]. intros st1 H1 [Ec1 Ecu1] Hl1. cbn [sch] in *.
  assert (resolve_in st1 target = Some j) as Hj1 by (by rewrite (stays_resolve _ _ _ H1)).
  eapply wp_mono.
  { apply wp_ends; [|by apply (switch_to_effect c frame target st1 i j); [rewrite Ecu1|]].
    destruct H1 as [(Q & F & HI1) _].
    eapply (wp_switch_to c frame target st1 Q F i j (λ _ st', stays st1 st')); [exact HI1|by rewrite Ecu1|done| |done].
    left. by apply Hl1. }
  intros f st2 (H2 & E2). split; [done|]. intros st3 H3 E3. fold (after (Kernel.machine w) c st3). cbn.
  split; [by eapply after_sys|]. split; [by eapply after_place|]. split; [|done].
  intros x. rewrite (after_thread _ _ _ _ Hs H3). destruct (decide (m_place (Kernel.machine w) x = Some c)) as [Hx|Hx].
  - destruct (place_found _ _ _ HS Hx) as (s0 & k & tk & Hs2 & Hk & Htk & Hfk & _).
    assert (s0 = s) as -> by congruence. rewrite Hk, E3, E2, Ec1. cbn [mbind option_bind].
    rewrite !lookup_alter_if. unfold m_thread. rewrite Hfk. cbn [mbind option_bind].
    set (v := ctxs _ !! k). destruct (decide (x = cur)) as [->|Hxc].
    + assert (k = i) as -> by congruence. rewrite decide_False, decide_True by done. by destruct v.
    + rewrite (decide_False (P:=i = k)) by (intros ->; apply Hxc; by eapply resolve_inj).
      destruct (decide (x = target)) as [->|Hxt].
      * assert (k = j) as -> by congruence. rewrite decide_True by done. by destruct v.
      * rewrite decide_False by (intros ->; apply Hxt; by eapply resolve_inj). by destruct v.
  - rewrite !decide_False; [done| |]; intros ->; apply Hx; by eapply resolved_place.
Qed.

Lemma gpr_slot_inj i j : (i < abi_regs)%nat → (j < abi_regs)%nat → gpr_slot i = gpr_slot j → i = j.
Proof. unfold abi_regs. intros Hi Hj. do 7 (destruct i as [|i]; [do 7 (destruct j as [|j]; [done|]); lia|]). lia. Qed.

Lemma read_set_reg w f i v g j : (i < abi_regs)%nat → (j < abi_regs)%nat →
  Kernel.read_reg (Kernel.mk (Kernel.machine w) (<[(f, gpr_slot i) := v]> (Kernel.frames w))) g j =
    if decide (g = f ∧ j = i) then v else Kernel.read_reg w g j.
Proof.
  intros Hi Hj. unfold Kernel.read_reg. cbn. destruct (decide (g = f ∧ j = i)) as [[-> ->]|Hne].
  - by rewrite lookup_insert_eq.
  - rewrite lookup_insert_ne; [done|]. intros [= -> E]. apply Hne. split; [done|]. by apply gpr_slot_inj.
Qed.

Lemma m_place_thread m tid : sys m → is_Some (m_place m tid) ↔ is_Some (m_thread m tid).
Proof.
  intros HS. split.
  - intros [c Hp]. destruct (place_found _ _ _ HS Hp) as (s & i & t & _ & _ & Ht & Hf & _).
    unfold m_thread. rewrite Hf. cbn [mbind option_bind]. unfold ctxs. cbn [sch]. rewrite list_lookup_fmap, Ht. by eexists.
  - intros [x Hx]. unfold m_thread, find in Hx. unfold m_place.
    destruct (Globals.owner_core _ _); [by eexists|done].
Qed.
End contract.

(** The kernel keeps the contract of [SchedLaws]. *)
#[export] Program Instance kernel_laws `{Timer} : SchedLaws Kernel.World := {|
  ok w := sys (Kernel.machine w);
  running w := m_running (Kernel.machine w);
  yields w := m_yields (Kernel.machine w);
  place w := m_place (Kernel.machine w);
  thread w := m_thread (Kernel.machine w);
  regs := Kernel.read_reg |}.
Next Obligation.
  intros HT w c t Hw Hr. cbn in *. destruct (running_found _ _ _ Hw Hr) as (s & i & tt & Hs & Hi & Ht & -> & Hres & Hb).
  split; [by eapply resolved_place|].
  assert (m_place (Kernel.machine w) (ThreadId.mk (Z.to_nat (Tcb.gid tt)) (Tcb.gen tt)) = Some c) as Hp by by eapply resolved_place.
  destruct (place_found _ _ _ Hw Hp) as (s0 & j & tj & Hs1 & Hj & Htj & Hfj & _).
  assert (s0 = s) as -> by congruence. assert (j = i) as -> by congruence.
  exists (Tcb.sp tt). unfold m_thread. rewrite Hfj. cbn [mbind option_bind]. unfold ctxs. cbn [sch].
  rewrite list_lookup_fmap, Ht. cbn. unfold ctx in *. cbn in Hb. by rewrite Hb.
Qed.
Next Obligation. intros HT w t Hw. by apply m_place_thread. Qed.
Next Obligation.
  intros HT w c tid Hw Hr. cbn in *. destruct (running_found _ _ _ Hw Hr) as (s & i & t & Hs & Hi & Ht & -> & _).
  unfold Kernel.current_id, Kernel.on_machine, zoom, Machine.on_core. rewrite Hs.
  unfold Scheduler.current_id, self, gets, mbind, M_bind. cbn [sch]. rewrite Hi. cbn. unfold id, tcb, self, gets, mbind, M_bind.
  cbn. rewrite Ht. cbn. rewrite machine_same by done. by destruct w.
Qed.
Next Obligation. intros HT w t Hw. cbn. unfold Kernel.owner_core, Kernel.on_machine, zoom, gets. by destruct w. Qed.
Next Obligation. intros HT w t Hw. by apply kernel_frame_of. Qed.
Next Obligation. intros HT w t Hw. by apply kernel_wartet. Qed.
Next Obligation. done. Qed.
Next Obligation.
  intros HT w f i v Hw Hi. apply wp_modify. split; [exact Hw|]. do 4 (split; [done|]). intros g j Hj. by apply read_set_reg.
Qed.
Next Obligation.
  intros HT w t Hw. eapply wp_mono; [by apply kernel_unblock|].
  intros [] w' (H1 & H2 & H3 & H4 & H5 & H6). do 4 (split; [done|]). split; [|intros; unfold Kernel.read_reg; by rewrite H6].
  intros x. cbn. rewrite H5. case_decide; [|done]. by destruct (m_thread _ x) as [[? ?]|].
Qed.
Next Obligation.
  intros HT w c Hw Hc. eapply wp_mono; [by apply kernel_end_donation|].
  intros [] w' (H1 & H2 & H3 & H4 & H5 & H6). do 5 (split; [done|]). intros. unfold Kernel.read_reg. by rewrite H6.
Qed.
Next Obligation.
  intros HT w c frame cur Hw Hc Hy. eapply wp_mono; [by eapply kernel_block_current|].
  intros f w' (H1 & H4 & H5 & H6). do 2 (split; [done|]). split; [|intros; unfold Kernel.read_reg; by rewrite H6].
  intros x. cbn in *. rewrite H5. case_decide as Hx; [|done]. subst.
  destruct (running_found _ _ _ Hw Hc) as (s & i & t & Hs & Hi & Ht & _ & Hres & _).
  destruct (proj1 (m_place_thread (Kernel.machine w) cur Hw)) as [y ->]; [|done]. eexists. by eapply resolved_place.
Qed.
Next Obligation.
  intros HT w c frame cur target Hw Hc Hy Hp Hne. eapply wp_mono; [by eapply kernel_switch_to|].
  intros f w' (H1 & H4 & H5 & H6). do 2 (split; [done|]). split; [|intros; unfold Kernel.read_reg; by rewrite H6].
  intros x. cbn in *. rewrite H5. case_decide as Hx.
  - subst. destruct (running_found _ _ _ Hw Hc) as (s & i & t & Hs & Hi & Ht & _ & Hres & _).
    destruct (proj1 (m_place_thread (Kernel.machine w) cur Hw)) as [y ->]; [|done]. eexists. by eapply resolved_place.
  - case_decide; [|done]. by destruct (m_thread _ x) as [[? ?]|].
Qed.
