(* ===== verification/IpcSystem.v ===== *)
(** * The tables of endpoints and notifications

    The IPC part of [src/kernel/src/system.rs]: the tables [EPS] and [NTFNS], the
    functions that work on one of their entries, and the sweep that takes a dying
    thread out of all of them ([purge_ipc_queues]).  [SpinLock]s are taken one
    after the other, so a function is a sequence of steps on the state; the
    counters [PURGE_IPC_CALLS] and [PURGE_IPC_ITER] are left out.  *)

From S2P Require Import Prelude PanicMonad Slab Redirect SchedData TidQueue Ipc.
From S2P Require Import IpcLaws IpcProps IpcInv.
#[local] Open Scope Z_scope.

Module Tables.
Record t (W : Type) := mk { eps : list Endpoint.t; ntfns : list Notification.t; world : W }.
Arguments mk {W}. Arguments eps {W}. Arguments ntfns {W}. Arguments world {W}.

(** The largest number of endpoints one round of the sweep visits. *)
Definition PURGE_EP_SCHRITT : nat := 512.

Section tables.
Context {W : Type} `{SchedOps W}.

(** [eps()[i].lock()] and [ntfns()[i].lock()]: an index out of the table panics. *)
Definition at_ep {A} (i : nat) (m : M (Endpoint.t * W) A) : M (t W) A := λ s,
  match eps s !! i with
  | None => None
  | Some e => match m (e, world s) with
              | Some (a, (e', w')) => Some (a, mk (<[i := e']> (eps s)) (ntfns s) w')
              | None => None
              end
  end.
Definition at_ntfn {A} (i : nat) (m : M (Notification.t * W) A) : M (t W) A := λ s,
  match ntfns s !! i with
  | None => None
  | Some n => match m (n, world s) with
              | Some (a, (n', w')) => Some (a, mk (eps s) (<[i := n']> (ntfns s)) w')
              | None => None
              end
  end.
Definition in_world {A} (m : M W A) : M (t W) A :=
  zoom world (λ w s, mk (eps s) (ntfns s) w) m.

(** The guard [if ep >= eps().len()]. *)
Definition guarded {A} (i : nat) (otherwise : A) (m : M (Endpoint.t * W) A) : M (t W) A :=
  n ← gets (λ s, length (eps s)); if (n <=? i)%nat then mret otherwise else at_ep i m.

(** ** Functions on one entry *)
Fixpoint create_in (l : list nat) (make : nat → M (t W) bool) : M (t W) (option nat) :=
  match l with
  | [] => mret None
  | i :: l => b ← make i; if b : bool then mret (Some i) else create_in l make
  end.
Definition create_endpoint : M (t W) (option nat) :=
  n ← gets (λ s, length (eps s));
  create_in (seq 0 n) (λ i, at_ep i (on_obj (
    u ← gets Endpoint.is_used;
    if u : bool then mret false else Endpoint.mark_used ≫= λ _, mret true))).
Definition create_notification : M (t W) (option nat) :=
  n ← gets (λ s, length (ntfns s));
  create_in (seq 0 n) (λ i, at_ntfn i (on_obj (
    u ← gets Notification.is_used;
    if u : bool then mret false else Notification.mark_used ≫= λ _, mret true))).

Definition endpoint_retire_receiver (ep : nat) (tid : ThreadId.t) : M (t W) bool :=
  guarded ep false (on_obj (Endpoint.retire_receiver tid)).
Definition endpoint_migrate_owner (ep : nat) (tid : ThreadId.t) : M (t W) bool :=
  guarded ep false (on_obj (Endpoint.migrate_owner tid)).
Definition endpoint_begin_quiesce (ep : nat) : M (t W) bool :=
  guarded ep false (on_obj Endpoint.begin_quiesce).
Definition endpoint_end_quiesce (ep : nat) : M (t W) bool :=
  guarded ep false (on_obj Endpoint.end_quiesce).
Definition endpoint_is_quiescing (ep : nat) : M (t W) bool :=
  guarded ep false (on_obj (gets Endpoint.is_quiescing)).
Definition endpoint_gate (ep : nat) : M (t W) (option Z) :=
  guarded ep (Some result_code.ERR_BADCAP) (on_obj (gets Endpoint.gate_new_transaction)).
Definition endpoint_receivers (ep : nat) : M (t W) nat :=
  guarded ep 0%nat (on_obj (gets Endpoint.receiver_count)).
Definition endpoint_is_idle (ep : nat) : M (t W) bool :=
  guarded ep true (on_obj (gets Endpoint.is_idle)).
Definition endpoint_quiescence_of (ep : nat) (tid : ThreadId.t) : M (t W) Quiescence.t :=
  guarded ep Quiescence.default (on_obj (Endpoint.quiescence_of tid)).
Definition endpoint_rebind_server (ep : nat) (old new : ThreadId.t) : M (t W) Rebind :=
  guarded ep NoEndpoint (on_obj (Endpoint.rebind_server old new)).
Definition endpoint_bind_receiver (ep : nat) (tid : ThreadId.t) : M (t W) bool :=
  guarded ep false (on_obj (Endpoint.bind_receiver tid)).

(** In which roles a thread stands in the whole system. *)
Definition thread_quiescence (tid : ThreadId.t) : M (t W) Quiescence.t :=
  n ← gets (λ s, length (eps s));
  q ← fold_m (λ q i, r ← at_ep i (on_obj (Endpoint.quiescence_of tid)); mret (Quiescence.merge q r))
        (seq 0 n) Quiescence.default;
  k ← gets (λ s, length (ntfns s));
  fold_m (λ q i, r ← at_ntfn i (on_obj (gets (Notification.quiescence_of tid)));
                 mret (Quiescence.merge q r)) (seq 0 k) q.

(** ** Waking a caller whose server is gone *)

(** The three scheduler calls happen under one lock of the owning core. *)
Definition unblock_with_error (caller : ThreadId.t) (code : Z) : M W unit :=
  of_ ← frame_of caller;
  match of_ with
  | Some frame => frame_set_reg frame reg.SYSNO_RESULT code ≫= λ _, unblock caller
  | None => mret tt
  end.

Definition unblock_orphan (orphan : option ThreadId.t) : M (t W) bool :=
  match orphan with
  | Some c => in_world (unblock_with_error c result_code.ERR_SERVER_GONE) ≫= λ _, mret true
  | None => mret false
  end.
Definition endpoint_abort_call (ep : nat) (caller : ThreadId.t) : M (t W) bool :=
  n ← gets (λ s, length (eps s));
  if (n <=? ep)%nat then mret false
  else orphan ← at_ep ep (on_obj (Endpoint.abort_call caller)); unblock_orphan orphan.
Definition endpoint_quiesce_owner (ep : nat) (tid : ThreadId.t) : M (t W) bool :=
  n ← gets (λ s, length (eps s));
  if (n <=? ep)%nat then mret false
  else orphan ← at_ep ep (on_obj (Endpoint.owner_died tid)); unblock_orphan orphan.

(** ** The sweep for a dying thread *)

(** One endpoint; [room] is the size of the table [IPC_ORPHANS], [orphans] its
    entries [0 .. no]. *)
Definition purge_ep (room : nat) (tid : ThreadId.t) (orphans : list ThreadId.t) (i : nat) :
    M (t W) (list ThreadId.t) :=
  at_ep i (
    u ← on_obj (gets Endpoint.is_used);
    if negb u then mret orphans
    else
      on_obj (Endpoint.purge_thread tid) ≫= λ _,
      oc ← on_obj (Endpoint.owner_died tid);
      match oc with
      | Some caller => if (length orphans <? room)%nat then mret (orphans ++ [caller]) else mret orphans
      | None => mret orphans
      end).

(** One round: the endpoints [start .. ende]. *)
Definition purge_round (room : nat) (tid : ThreadId.t) (start ende : nat) : M (t W) unit :=
  orphans ← fold_m (purge_ep room tid) (seq start (ende - start)) [];
  in_world (fold_m (λ _ i,
    match orphans !! i with
    | Some caller => unblock_with_error caller result_code.ERR_SERVER_GONE
    | None => mret tt
    end) (seq 0 (length orphans)) tt).

Fixpoint purge_rounds (fuel : nat) (tid : ThreadId.t) (start : nat) : M (t W) unit :=
  match fuel with
  | O => panic
  | S fuel =>
      n ← gets (λ s, length (eps s));
      if (n <=? start)%nat then mret tt
      else
        let ende := Nat.min (start + PURGE_EP_SCHRITT) n in
        purge_round n tid start ende ≫= λ _, purge_rounds fuel tid ende
  end.

Definition purge_ntfn (tid : ThreadId.t) (i : nat) : M (t W) unit :=
  at_ntfn i (
    u ← on_obj (gets Notification.is_used);
    if negb u then mret tt else on_obj (Notification.purge_thread tid) ≫= λ _, mret tt).

Definition purge_ipc_queues (tid : ThreadId.t) : M (t W) unit :=
  n ← gets (λ s, length (eps s));
  purge_rounds (S n) tid 0 ≫= λ _,
  k ← gets (λ s, length (ntfns s));
  for_ (seq 0 k) (purge_ntfn tid).
End tables.
End Tables.
