(* ===== verification/IpcPurge.v ===== *)
(** * The sweep for a dying thread

    [purge_ipc_queues] of [src/kernel/src/system.rs]: afterwards the thread stands
    at no endpoint and at no notification, every caller it owed a reply runs again
    with [ERR_SERVER_GONE], and nothing else has changed.  The table of orphans is
    never too small, and the rounds visit every endpoint.  *)

From S2P Require Import Prelude PanicMonad Dll Slab Redirect SchedData Sched SchedInv SchedSystem TidQueue Ipc IpcLaws.
From S2P Require Import IpcProps IpcInv IpcKernel IpcSystem.
Import Tables.
#[local] Open Scope Z_scope.

Section purge.
Context {W : Type} `{SchedLaws W}.
Implicit Types (w : W) (s : t W) (tid c : ThreadId.t) (e : Endpoint.t).

(** ** Waking callers with an error *)

(** The callers of [l] have been woken with [ERR_SERVER_GONE]; all other threads and
    registers are as they were. *)
Record served w w' (l : list ThreadId.t) : Prop := {
  sv_ok : ok w';
  sv_place : ∀ x, place w' x = place w x;
  sv_thread : ∀ x, thread w' x = if decide (x ∈ l) then (λ '(f, _), (f, false)) <$> thread w x else thread w x;
  sv_code : ∀ c f b, c ∈ l → thread w c = Some (f, b) → regs w' f reg.SYSNO_RESULT = result_code.ERR_SERVER_GONE;
  sv_regs : ∀ g j, (j < abi_regs)%nat →
    j ≠ reg.SYSNO_RESULT ∨ (∀ c b, c ∈ l → thread w c ≠ Some (g, b)) → regs w' g j = regs w g j }.

Lemma served_nil w : ok w → served w w [].
Proof. intros Hw. split; try done. intros c f b Hc. by apply not_elem_of_nil in Hc. Qed.

Lemma served_app w1 w2 w3 l1 l2 : served w1 w2 l1 → served w2 w3 l2 → served w1 w3 (l1 ++ l2).
Proof.
  intros [Ho1 Hp1 Ht1 Hc1 Hr1] [Ho2 Hp2 Ht2 Hc2 Hr2].
  assert (∀ c f b, thread w1 c = Some (f, b) → ∃ b', thread w2 c = Some (f, b')) as Hkeep.
  { intros c f b Hc. rewrite Ht1, Hc. case_decide; by eexists. }
  assert (∀ c f b, thread w2 c = Some (f, b) → ∃ b', thread w1 c = Some (f, b')) as Hback.
  { intros c f b. rewrite Ht1. case_decide; [|by eauto]. destruct (thread w1 c) as [[f' b']|]; [|done].
    intros [= -> _]. by eauto. }
  split; [done|intros; by rewrite Hp2, Hp1| | |].
  - intros x. rewrite Ht2, Ht1. destruct (thread w1 x) as [[f b]|]; repeat case_decide; set_solver.
  - intros c f b Hc Ht. destruct (Hkeep _ _ _ Ht) as [b' Ht'].
    destruct (decide (Exists (λ c', fst <$> thread w2 c' = Some f) l2)) as [Hx|Hn].
    { apply Exists_exists in Hx as (c' & Hc' & E). destruct (thread w2 c') as [[f' b0]|] eqn:E2; [|done].
      injection E as ->. by eapply Hc2. }
    assert (∀ c' b0, c' ∈ l2 → thread w2 c' ≠ Some (f, b0)) as Hn'.
    { intros c' b0 Hc' Ht0. apply Hn, Exists_exists. exists c'. by rewrite Ht0. }
    rewrite Hr2; [|apply result_reg|by right].
    apply elem_of_app in Hc as [Hc|Hc]; [by eapply Hc1|]. by destruct (Hn' _ _ Hc Ht').
  - intros g j Hj Hn. rewrite Hr2, Hr1; [done|done| |done|].
    + destruct Hn as [?|Hn]; [by left|right]. intros c b Hc. apply Hn. set_solver.
    + destruct Hn as [?|Hn]; [by left|right]. intros c b Hc Ht. apply Hback in Ht as [b' Ht].
      eapply Hn; [|exact Ht]. set_solver.
Qed.

Lemma wp_unblock_with_error w c (R : unit → W → Prop) :
  ok w → (∀ w', served w w' [c] → R tt w') →
  wp (unblock_with_error c result_code.ERR_SERVER_GONE) w R.
Proof.
  intros Hw HR. unfold unblock_with_error. apply wp_bind, wp_frame_of; [done|].
  destruct (thread w c) as [[f b]|] eqn:Ht; cbn [fmap option_fmap option_map fst].
  - apply wp_bind, wp_set_reg; [done|apply result_reg|]. intros w1 Hs1 [Hd1 Hn1].
    apply wp_law_unblock; [apply Hs1|]. intros w2 Hw2 _ _ Hp2 Ht2 Hr2. apply HR. split; [done| | | |].
    + intros x. by rewrite Hp2, (sm_place _ _ Hs1).
    + intros x. rewrite Ht2, (sm_thread _ _ Hs1).
      destruct (decide (x = c)), (decide (x ∈ [c])); try done; set_solver.
    + intros c' f' b' ->%list_elem_of_singleton Ht'. rewrite Ht in Ht'. injection Ht' as <- <-.
      rewrite Hr2, Hd1 by apply result_reg. by rewrite decide_True.
    + intros g j Hj Hn. rewrite Hr2. destruct (decide (g = f)) as [->|Hg]; [|by apply Hn1].
      rewrite Hd1 by done. rewrite decide_False; [done|]. destruct Hn as [?|Hn]; [done|].
      exfalso. eapply (Hn c b); [set_solver|done].
  - apply wp_ret, HR. split; [done|done| | |done].
    + intros x. destruct (decide (x ∈ [c])) as [->%list_elem_of_singleton|]; [by rewrite Ht|done].
    + intros c' f' b' ->%list_elem_of_singleton Ht'. congruence.
Qed.

(** The second loop of a round. *)
Lemma wp_unblock_each l w (R : unit → W → Prop) :
  ok w → (∀ w', served w w' l → R tt w') →
  wp (fold_m (λ _ i, match l !! i with
                     | Some caller => unblock_with_error caller result_code.ERR_SERVER_GONE
                     | None => mret tt
                     end) (seq 0 (length l)) tt) w R.
Proof.
  intros Hw HR.
  assert (∀ post pre w1, l = pre ++ post → served w w1 pre →
    wp (fold_m (λ _ i, match l !! i with
                       | Some caller => unblock_with_error caller result_code.ERR_SERVER_GONE
                       | None => mret tt
                       end) (seq (length pre) (length post)) tt) w1 R) as Hgo.
  { induction post as [|c post IH]; intros pre w1 -> Hs; cbn [length seq fold_m].
    - apply wp_ret, HR. by rewrite app_nil_r.
    - rewrite list_lookup_middle by done. apply wp_bind, wp_unblock_with_error; [apply Hs|].
      intros w2 Hs2. replace (S (length pre)) with (length (pre ++ [c])) by (rewrite length_app; simpl; lia).
      apply IH; [by rewrite <-app_assoc|by eapply served_app]. }
  apply (Hgo l [] w); [done|by apply served_nil].
Qed.

(** ** One endpoint *)

Definition healthy e : Prop := ∃ snd rcv, good e snd rcv.

(** The caller that the dying thread owes a reply at this endpoint. *)
Definition owed tid e : list ThreadId.t :=
  if Endpoint.used e && bool_decide (Endpoint.reply_owner e = Some tid)
  then match Endpoint.caller e with
       | Some c => if decide (c = tid) then [] else [c]
       | None => []
       end
  else [].

(** Without [tid] in the queues; a rendezvous that [tid] takes part in is over. *)
Definition cleared tid e e' : Prop :=
  if Endpoint.used e then
    (∃ snd rcv, good e snd rcv ∧ good e' (without tid snd) (without tid rcv)) ∧
    Endpoint.used e' = true ∧ Endpoint.quiescing e' = Endpoint.quiescing e ∧
    let over := Endpoint.caller e = Some tid ∨ Endpoint.reply_owner e = Some tid in
    Endpoint.caller e' = (if decide over then None else Endpoint.caller e) ∧
    Endpoint.reply_owner e' = (if decide over then None else Endpoint.reply_owner e)
  else e' = e.

Lemma cleared_healthy tid e e' : healthy e → cleared tid e e' → healthy e'.
Proof.
  unfold cleared. intros Hh. destruct (Endpoint.used e); [|by intros ->].
  intros [(snd & rcv & _ & Hg) _]. by eexists _, _.
Qed.

Lemma wp_at_ep {A} i (m : M (Endpoint.t * W) A) s e (R : A → t W → Prop) :
  eps s !! i = Some e →
  wp m (e, world s) (λ a '(e', w'), R a (mk (<[i := e']> (eps s)) (ntfns s) w')) → wp (at_ep i m) s R.
Proof.
  intros He Hm. unfold wp, at_ep in *. rewrite He. by destruct (m (e, world s)) as [[a [e' w']]|].
Qed.
Lemma wp_at_ntfn {A} i (m : M (Notification.t * W) A) s n (R : A → t W → Prop) :
  ntfns s !! i = Some n →
  wp m (n, world s) (λ a '(n', w'), R a (mk (eps s) (<[i := n']> (ntfns s)) w')) → wp (at_ntfn i m) s R.
Proof.
  intros Hn Hm. unfold wp, at_ntfn in *. rewrite Hn. by destruct (m (n, world s)) as [[a [n' w']]|].
Qed.
Lemma wp_in_world {A} (m : M W A) s (R : A → t W → Prop) :
  wp m (world s) (λ a w, R a (mk (eps s) (ntfns s) w)) → wp (in_world m) s R.
Proof. intros Hm. by apply wp_zoom. Qed.

Lemma wp_purge_ep room tid orphans i s e (R : list ThreadId.t → t W → Prop) :
  eps s !! i = Some e → healthy e → (length orphans < room)%nat →
  (∀ e', cleared tid e e' → R (orphans ++ owed tid e) (mk (<[i := e']> (eps s)) (ntfns s) (world s))) →
  wp (purge_ep room tid orphans i) s R.
Proof.
  intros He (snd & rcv & HG) Hroom HR. eapply wp_at_ep; [exact He|]. apply wp_bind, wp_obj_gets.
  unfold Endpoint.is_used. destruct (Endpoint.used e) eqn:Hu; cbn [negb]; cycle 1.
  { apply wp_ret. unfold owed in HR. rewrite Hu in HR. cbn [andb] in HR. rewrite app_nil_r in HR.
    apply HR. unfold cleared. by rewrite Hu. }
  apply wp_bind, wp_on_obj. eapply wp_purge_thread; [exact HG|]. intros _ e1 HG1 Hu1 Hq1 Hc1 Ho1.
  apply wp_bind, wp_on_obj. eapply wp_owner_died; [exact HG1| |].
  - intros Hno. assert (owed tid e = []) as Hd.
    { unfold owed. rewrite Hu. cbn [andb]. case_bool_decide as Ho; [|done]. rewrite Ho1 in Hno.
      destruct (decide (Endpoint.caller e = Some tid)) as [->|]; [by rewrite decide_True|by destruct Hno]. }
    rewrite Hd, app_nil_r in HR. apply wp_ret, HR. unfold cleared. rewrite Hu.
    split; [by eexists _, _|]. split; [congruence|]. split; [done|]. cbn zeta.
    rewrite Hc1, Ho1. rewrite Ho1 in Hno. destruct (decide (Endpoint.caller e = Some tid)) as [E|E].
    + by rewrite !decide_True by auto.
    + by rewrite !decide_False by (intros [?|?]; done).
  - intros c e2 Ho Hc HG2 Hu2 Hq2 Hc2 Ho2. rewrite Hc1 in Hc. rewrite Ho1 in Ho.
    case_decide as Hct; [done|]. assert (owed tid e = [c]) as Hd.
    { unfold owed. rewrite Hu, Ho, Hc, bool_decide_true by done. cbn [andb]. by rewrite decide_False by congruence. }
    rewrite Hd in HR. rewrite (proj2 (Nat.ltb_lt _ _) Hroom). apply wp_ret, HR. unfold cleared. rewrite Hu.
    split; [by eexists _, _|]. split; [congruence|]. split; [congruence|]. cbn zeta.
    by rewrite Hc2, Ho2, !decide_True by auto.
Qed.

(** ** One round *)

(** The endpoints of [start .. start + k] are cleared, the others untouched. *)
Definition swept tid (l l' : list Endpoint.t) (start k : nat) : Prop :=
  length l' = length l ∧
  ∀ i e, l !! i = Some e →
    if decide (start ≤ i < start + k)%nat then ∃ e', l' !! i = Some e' ∧ cleared tid e e' else l' !! i = Some e.

Definition owed_callers tid (l : list Endpoint.t) : list ThreadId.t := l ≫= owed tid.

Lemma owed_callers_app tid l1 l2 : owed_callers tid (l1 ++ l2) = owed_callers tid l1 ++ owed_callers tid l2.
Proof. apply bind_app. Qed.

Lemma wp_purge_collect room tid k start orphans s (R : list ThreadId.t → t W → Prop) :
  (start + k ≤ length (eps s))%nat → (length orphans + k ≤ room)%nat → Forall healthy (eps s) →
  (∀ l, swept tid (eps s) l start k →
     R (orphans ++ owed_callers tid (take k (drop start (eps s)))) (mk l (ntfns s) (world s))) →
  wp (fold_m (purge_ep room tid) (seq start k) orphans) s R.
Proof.
  revert start orphans s R. induction k as [|k IH]; intros start orphans s R Hk Hroom Hh HR; cbn [seq fold_m].
  { apply wp_ret. cbn [take] in HR. rewrite app_nil_r in HR. destruct s as [l n w]. apply (HR l).
    split; [done|]. intros i e Hi. rewrite decide_False by lia. exact Hi. }
  destruct (lookup_lt_is_Some_2 (eps s) start) as [e He]; [lia|].
  pose proof (Forall_lookup_1 _ _ _ _ Hh He) as Hhe.
  apply wp_bind. eapply wp_purge_ep; [exact He|exact Hhe|lia|]. intros e' Hc.
  assert (length (owed tid e) ≤ 1)%nat as Ho.
  { unfold owed. destruct (_ && _); [|simpl; lia]. destruct (Endpoint.caller e); [|simpl; lia].
    case_decide; simpl; lia. }
  apply IH; cbn [eps ntfns world].
  - rewrite length_insert. lia.
  - rewrite length_app. lia.
  - apply Forall_insert; [done|by eapply cleared_healthy].
  - intros l [Hlen Hl]. rewrite drop_insert_lt, <-app_assoc by lia.
    specialize (HR l).
    rewrite (drop_S _ _ _ He) in HR. cbn [take owed_callers] in HR.
    change (owed_callers tid (e :: ?x)) with (owed tid e ++ owed_callers tid x) in HR.
    apply HR. rewrite length_insert in Hlen. split; [done|]. intros i x Hi.
    destruct (decide (i = start)) as [->|Hne].
    + rewrite decide_True by lia. exists e'. assert (x = e) as -> by congruence. split; [|done].
      specialize (Hl start e'). rewrite list_lookup_insert_eq in Hl by lia.
      rewrite decide_False in Hl by lia. by apply Hl.
    + specialize (Hl i x). rewrite list_lookup_insert_ne in Hl by done. specialize (Hl Hi).
      repeat case_decide; try done; lia.
Qed.

Lemma wp_purge_round tid start ende s (R : unit → t W → Prop) :
  (start ≤ ende ≤ length (eps s))%nat → ok (world s) → Forall healthy (eps s) →
  (∀ l w', swept tid (eps s) l start (ende - start) →
     served (world s) w' (owed_callers tid (take (ende - start) (drop start (eps s)))) →
     R tt (mk l (ntfns s) w')) →
  wp (purge_round (length (eps s)) tid start ende) s R.
Proof.
  intros Hb Hw Hh HR. unfold purge_round. apply wp_bind.
  apply wp_purge_collect; [lia|simpl; lia|done|]. intros l Hl. cbn [app].
  apply wp_in_world, wp_unblock_each; [done|]. intros w' Hs. by apply HR.
Qed.

Lemma wp_purge_rounds fuel tid start s (R : unit → t W → Prop) :
  (start ≤ length (eps s))%nat → (length (eps s) - start < fuel)%nat → ok (world s) → Forall healthy (eps s) →
  (∀ l w', swept tid (eps s) l start (length (eps s) - start) →
     served (world s) w' (owed_callers tid (drop start (eps s))) → R tt (mk l (ntfns s) w')) →
  wp (purge_rounds fuel tid start) s R.
Proof.
  revert start s R. induction fuel as [|fuel IH]; intros start s R Hst Hf Hw Hh HR; [lia|]. cbn [purge_rounds].
  apply wp_bind, wp_gets. destruct (Nat.leb_spec (length (eps s)) start) as [Hle|Hlt].
  { apply wp_ret. destruct s as [l n w]. cbn [eps ntfns world] in *. apply (HR l w).
    - split; [done|]. intros i e Hi. pose proof (lookup_lt_Some _ _ _ Hi). by rewrite decide_False by lia.
    - rewrite drop_ge by lia. by apply served_nil. }
  cbv zeta. set (ende := Nat.min _ _).
  assert (start < ende ≤ length (eps s))%nat as He by (unfold ende, PURGE_EP_SCHRITT; lia).
  apply wp_bind, wp_purge_round; [lia|done|done|]. intros l w1 [Hlen Hl] Hs1.
  apply IH; cbn [eps ntfns world]; [lia|lia|apply Hs1| |].
  - apply Forall_lookup. intros i e' Hi'. destruct (lookup_lt_is_Some_2 (eps s) i) as [e Hi].
    { rewrite <-Hlen. by eapply lookup_lt_Some. }
    pose proof (Forall_lookup_1 _ _ _ _ Hh Hi) as Hhe. specialize (Hl i e Hi). case_decide; [|congruence].
    destruct Hl as (e2 & Hi2 & Hc). assert (e2 = e') as -> by congruence. by eapply cleared_healthy.
  - intros l' w' [Hlen' Hl'] Hs2. apply HR.
    + split; [congruence|]. intros i e Hi. specialize (Hl i e Hi).
      destruct (decide (start ≤ i < start + (length (eps s) - start))%nat) as [Hin|Hin].
      * destruct (decide (i < ende)%nat) as [Hie|Hie].
        -- rewrite decide_True in Hl by lia. destruct Hl as (e' & Hi' & Hc). exists e'. split; [|done].
           specialize (Hl' i e' Hi'). by rewrite decide_False in Hl' by lia.
        -- rewrite decide_False in Hl by lia. specialize (Hl' i e Hl).
           by rewrite decide_True in Hl' by (pose proof (lookup_lt_Some _ _ _ Hi); lia).
      * rewrite decide_False in Hl by lia. specialize (Hl' i e Hl). by rewrite decide_False in Hl' by lia.
    + replace (drop start (eps s)) with (take (ende - start) (drop start (eps s)) ++ drop ende l).
      { rewrite owed_callers_app. by eapply served_app. }
      replace (drop ende l) with (drop ende (eps s)).
      * rewrite <-(take_drop (ende - start) (drop start (eps s))) at 2. rewrite drop_drop.
        by replace (start + (ende - start))%nat with ende by lia.
      * apply list_eq. intros i. rewrite !lookup_drop. destruct (eps s !! (ende + i)%nat) as [e|] eqn:E.
        -- specialize (Hl _ _ E). by rewrite decide_False in Hl by lia.
        -- symmetry. apply lookup_ge_None. rewrite Hlen. by apply lookup_ge_None.
Qed.

(** ** The notifications *)

Definition forget_waiter tid (n : Notification.t) : Notification.t :=
  if Notification.used n && bool_decide (Notification.waiter n = Some tid)
  then Notification.with_waiter None n else n.

Lemma wp_purge_ntfn tid i s n (R : unit → t W → Prop) :
  ntfns s !! i = Some n → R tt (mk (eps s) (<[i := forget_waiter tid n]> (ntfns s)) (world s)) →
  wp (purge_ntfn tid i) s R.
Proof.
  intros Hn HR. eapply wp_at_ntfn; [exact Hn|]. apply wp_bind, wp_obj_gets. unfold forget_waiter in HR.
  unfold Notification.is_used. destruct (Notification.used n); cbn [negb andb] in *; [|by apply wp_ret].
  apply wp_bind, wp_on_obj. unfold Notification.purge_thread. apply wp_bind, wp_gets.
  case_bool_decide as Hw; [rewrite decide_True by done|rewrite decide_False by done];
    [apply wp_bind, wp_modify, wp_ret, wp_ret|apply wp_ret, wp_ret]; exact HR.
Qed.

Lemma wp_purge_ntfns tid s (R : unit → t W → Prop) :
  R tt (mk (eps s) (forget_waiter tid <$> ntfns s) (world s)) →
  wp (for_ (seq 0 (length (ntfns s))) (purge_ntfn tid)) s R.
Proof.
  intros HR. unfold for_.
  assert (∀ post pre, ntfns s = pre ++ post →
    wp (fold_m (λ _ i, purge_ntfn tid i) (seq (length pre) (length post)) tt)
      (mk (eps s) ((forget_waiter tid <$> pre) ++ post) (world s)) R) as Hgo.
  { induction post as [|n post IH]; intros pre Hp; cbn [length seq fold_m].
    - apply wp_ret. rewrite app_nil_r in *. by rewrite <-Hp.
    - apply wp_bind. eapply wp_purge_ntfn.
      { cbn [ntfns]. rewrite lookup_app_r by (rewrite length_fmap; lia). by rewrite length_fmap, Nat.sub_diag. }
      cbn [eps ntfns world]. rewrite insert_app_r_alt by (rewrite length_fmap; lia).
      rewrite length_fmap, Nat.sub_diag. cbn [insert list_insert].
      replace (S (length pre)) with (length (pre ++ [n])) by (rewrite length_app; simpl; lia).
      rewrite (cons_middle (forget_waiter tid n)), app_assoc.
      change [forget_waiter tid n] with (forget_waiter tid <$> [n]).
      rewrite <-fmap_app. apply IH. by rewrite <-app_assoc. }
  specialize (Hgo (ntfns s) [] eq_refl). destruct s. exact Hgo.
Qed.

(** C31: After the sweep for a dying thread it stands in no queue of any endpoint, no
    rendezvous it took part in is open, and it waits at no notification; every caller
    it owed a reply is woken with [ERR_SERVER_GONE], once the sweep is over; the
    entries of other threads, the other threads and all other registers are as they
    were.  The sweep ends, and no orphan is dropped for want of room. *)
Theorem purge_exact tid s :
  ok (world s) → Forall healthy (eps s) →
  wp (purge_ipc_queues tid) s (λ _ s',
    length (eps s') = length (eps s) ∧
    (∀ i e, eps s !! i = Some e → ∃ e', eps s' !! i = Some e' ∧ cleared tid e e') ∧
    ntfns s' = forget_waiter tid <$> ntfns s ∧
    served (world s) (world s') (owed_callers tid (eps s))).
Proof.
  intros Hw Hh. unfold purge_ipc_queues. apply wp_bind, wp_gets, wp_bind.
  apply wp_purge_rounds; [lia|lia|done|done|]. intros l w' [Hlen Hl] Hs. rewrite drop_0 in Hs.
  apply wp_bind, wp_gets. cbn [ntfns]. apply (wp_purge_ntfns tid (mk l (ntfns s) w')).
  cbn [eps ntfns world]. split; [done|]. split; [|done]. intros i e Hi. specialize (Hl i e Hi).
  by rewrite decide_True in Hl by (pose proof (lookup_lt_Some _ _ _ Hi); lia).
Qed.
End purge.

(** ** Killing a thread, through the kernel

    [SchedOps::kill] of the facade in [src/kernel/src/system.rs]: the scheduler ends
    the thread, then the sweep takes it out of the tables of IPC.  The two parts'
    theorems compose: the machine's invariant and the contract of IPC meet in
    [kernel_laws].  Giving the kernel stack back ([reclaim_user_kstack]) is left out.  *)


Section kill.
Context `{Timer} `{Hal}.

Definition kill (tid : ThreadId.t) (core : nat) : M (Tables.t Kernel.World) bool :=
  ok ← Tables.in_world (Kernel.on_machine (Machine.on_core core (Scheduler.kill tid core)));
  (if ok : bool then Tables.purge_ipc_queues tid else mret tt) ≫= λ _, mret ok.

(** C40: Killing a thread that does not run ends it everywhere: no core knows its handle,
    it stands at no endpoint and waits at no notification, and every living caller
    it owed a reply runs again with [ERR_SERVER_GONE].  A refused kill changes
    nothing.  The machine stays one in which every step runs to its end. *)
Theorem kill_sweeps tid core (s : Tables.t Kernel.World) sc :
  sys (Kernel.machine (Tables.world s)) → Forall healthy (Tables.eps s) →
  Machine.cores (Kernel.machine (Tables.world s)) !! core = Some sc →
  wp (kill tid core) s (λ b s',
    sys (Kernel.machine (Tables.world s')) ∧
    if b : bool then
      m_place (Kernel.machine (Tables.world s')) tid = None ∧
      (∀ i e, Tables.eps s !! i = Some e → ∃ e', Tables.eps s' !! i = Some e' ∧ cleared tid e e') ∧
      Tables.ntfns s' = forget_waiter tid <$> Tables.ntfns s ∧
      ∀ c f waiting, c ∈ owed_callers tid (Tables.eps s) →
        m_thread (Kernel.machine (Tables.world s')) c = Some (f, waiting) →
        waiting = false ∧ Kernel.read_reg (Tables.world s') f reg.SYSNO_RESULT = result_code.ERR_SERVER_GONE
    else s' = s).
Proof.
  intros HS Hh Hc. unfold kill. apply wp_bind, wp_in_world, wp_on_machine.
  eapply wp_mono; [by eapply sys_kill_gone|]. intros b m' [HS' Hb]. apply wp_bind. destruct b.
  - set (s1 := Tables.mk _ _ _).
    eapply wp_mono; [apply (purge_exact tid s1); [exact HS'|exact Hh]|].
    intros [] s' (_ & He & Hn & [Ho Hp Ht Hcode _]). apply wp_ret. split; [exact Ho|].
    cbn [Tables.eps Tables.ntfns s1] in He, Hn. split; [exact (eq_trans (Hp tid) Hb)|]. split; [done|]. split; [done|].
    intros c f waiting Hci Hth. specialize (Ht c). cbn in Ht. rewrite decide_True in Ht by done. rewrite Hth in Ht.
    destruct (m_thread (Kernel.machine (Tables.world s1)) c) as [[f' b']|] eqn:E;
      [|change (m_thread m' c = None) in E; cbn in Ht; by rewrite E in Ht].
    cbn in Ht. cbn in E. rewrite E in Ht. injection Ht as -> ->. split; [done|]. by eapply (Hcode c f').
  - apply wp_ret, wp_ret. subst m'. split; [exact HS'|]. destruct s as [es ns [m fr]]. reflexivity.
Qed.
End kill.
