(* ===== verification/IpcNotify.v ===== *)
(** * Correctness of notifications, and two gaps of endpoints

    [signal] and [wait] of [src/crates/caprock-ipc/src/lib.rs] on every branch, and
    that the bits of signals nobody waits for reach the next [wait].  Then two
    behaviours of [Endpoint] that its comments exclude: a second [recv] drops the
    caller of the first, and [migrate_owner] leaves a sender beside a receiver.  *)

From S2P Require Import Prelude PanicMonad Slab Redirect SchedData TidQueue Ipc.
From S2P Require Import IpcLaws IpcProps IpcInv.
Import Notification.
#[local] Open Scope Z_scope.

Section notify.
Context {W : Type} `{SchedLaws W}.
Implicit Types (n : t) (w : W).

Lemma badge_reg : (reg.EP_BADGE < abi_regs)%nat.
Proof. unfold abi_regs, reg.EP_BADGE. lia. Qed.

(** The waiter of [n], if it still lives, with its saved frame. *)
Definition listener n w : option (ThreadId.t * Z) :=
  x ← waiter n; '(f, _) ← thread w x; Some (x, f).

Lemma listener_alive n w x f b : waiter n = Some x → thread w x = Some (f, b) → listener n w = Some (x, f).
Proof. unfold listener. intros -> E. cbn [mbind option_bind]. by rewrite E. Qed.

(** [x], whose frame is [wf], is woken with the badge [b]. *)
Definition notified w w' (x : ThreadId.t) (wf b : Z) : Prop :=
  frame_is w w' wf (λ j, if decide (j = reg.EP_BADGE) then b
                         else if decide (j = reg.SYSNO_RESULT) then result_code.OK else regs w wf j) ∧
  ∀ y, thread w' y = if decide (y = x) then Some (wf, false) else thread w y.

Lemma wp_deliver badge n w (R : unit → t * W → Prop) :
  ok w →
  (∀ w', ok w' → (∀ y, place w' y = place w y) →
     match listener n w with
     | Some (x, wf) => notified w w' x wf (Z.lor (pending n) badge)
     | None => (∀ y, thread w' y = thread w y) ∧ ∀ g j, regs w' g j = regs w g j
     end →
     R tt (mk (used n) (if listener n w then 0 else Z.lor (pending n) badge) None, w')) →
  wp (deliver badge) (n, w) R.
Proof.
  intros Hw HR. unfold deliver. apply wp_bind, wp_obj_modify, wp_bind, wp_obj_gets, wp_bind, wp_obj_modify.
  destruct n as [u p ow]. cbn [waiter with_pending with_waiter used pending] in *.
  unfold listener in HR. cbn [waiter] in HR. destruct ow as [x|]; cbn [mbind option_bind] in HR; cycle 1.
  { apply wp_ret. by apply HR. }
  apply wp_bind, wp_on_world, wp_frame_of; [done|].
  destruct (thread w x) as [[wf b]|] eqn:Hx; cbn [fmap option_fmap option_map fst mbind option_bind] in *.
  - apply wp_bind, wp_bind, wp_on_world, wp_set_reg; [done|apply result_reg|]. intros w1 Hs1 [Hd1 Hn1].
    apply wp_bind, wp_obj_gets, wp_bind, wp_on_world, wp_set_reg; [apply Hs1|apply badge_reg|].
    intros w2 Hs2 [Hd2 Hn2]. pose proof (same_trans _ _ _ Hs1 Hs2) as Hs.
    apply wp_obj_modify, wp_on_world, wp_law_unblock; [apply Hs|]. intros w3 Hw3 _ _ Hp3 Ht3 Hr3.
    apply HR; [done|intros; by rewrite Hp3, (sm_place _ _ Hs)|]. split; [split|].
    + intros j Hj. rewrite Hr3, Hd2 by done. case_decide; [done|]. by rewrite Hd1.
    + intros g j Hj Hg. by rewrite Hr3, Hn2, Hn1.
    + intros y. rewrite Ht3, (sm_thread _ _ Hs). case_decide; [|done]. subst. by rewrite Hx.
  - apply wp_bind, wp_ret, wp_on_world, wp_law_unblock; [done|]. intros w3 Hw3 _ _ Hp3 Ht3 Hr3.
    apply HR; [done|done|]. split; [|done]. intros y. rewrite Ht3. case_decide; [|done]. subst. by rewrite Hx.
Qed.

(** [signal] adds its badge to the pending bits and forgets the waiter.  A living
    waiter is woken with success and all pending bits, and none stay pending; with no
    waiter, or a dead one, the bits stay pending and no thread is touched.  The
    signalling thread always goes on, with success. *)
Theorem signal_exact badge frame n w :
  ok w →
  wp (signal badge frame) (n, w) (λ f '(n', w'),
    f = frame ∧ ok w' ∧ (∀ y, place w' y = place w y) ∧
    if negb (used n) then n' = n ∧ answered w w' frame result_code.ERR_BADCAP ∧ ∀ y, thread w' y = thread w y
    else
      regs w' frame reg.SYSNO_RESULT = result_code.OK ∧
      match listener n w with
      | Some (x, wf) =>
          n' = mk true 0 None ∧ regs w' wf reg.SYSNO_RESULT = result_code.OK ∧
          regs w' wf reg.EP_BADGE = Z.lor (pending n) badge ∧
          (∀ y, thread w' y = if decide (y = x) then Some (wf, false) else thread w y) ∧
          ∀ g j, (j < abi_regs)%nat → (g ≠ wf ∨ message j) → (g ≠ frame ∨ j ≠ reg.SYSNO_RESULT) →
            regs w' g j = regs w g j
      | None =>
          n' = mk true (Z.lor (pending n) badge) None ∧ answered w w' frame result_code.OK ∧
          ∀ y, thread w' y = thread w y
      end).
Proof.
  intros Hw. unfold signal. apply wp_bind, wp_obj_gets. destruct (used n) eqn:Hu; cbn [negb]; cycle 1.
  { apply wp_bind, wp_on_world, wp_set_reg; [done|apply result_reg|]. intros w1 [] Hf. by apply wp_ret. }
  apply wp_bind, wp_deliver; [done|]. intros w1 Hw1 Hp1 Hcase.
  apply wp_bind, wp_on_world, wp_set_reg; [done|apply result_reg|]. intros w2 [Hok _ _ Hp2 Ht2] Hf.
  apply wp_ret. split; [done|]. split; [done|]. split; [intros; by rewrite Hp2|]. rewrite Hu.
  split; [by rewrite (proj1 Hf) by apply result_reg|]. destruct Hf as [Hd Hn].
  destruct (listener n w) as [[x wf]|]; (split; [done|]).
  - destruct Hcase as [[Hd1 Hn1] Ht1]. split; [|split; [|split]].
    + destruct (decide (wf = frame)) as [->|Hne]; [by rewrite Hd by apply result_reg|].
      rewrite Hn by (done || apply result_reg). by rewrite Hd1 by apply result_reg.
    + assert (regs w2 wf reg.EP_BADGE = regs w1 wf reg.EP_BADGE) as ->; [|by rewrite Hd1 by apply badge_reg].
      destruct (decide (wf = frame)) as [->|Hne]; [by rewrite Hd by apply badge_reg|by apply Hn; [apply badge_reg|]].
    + intros y. by rewrite Ht2, Ht1.
    + intros g j Hj Hg Hfr. assert (regs w2 g j = regs w1 g j) as ->.
      { destruct (decide (g = frame)) as [->|Hne]; [|by apply Hn]. rewrite Hd by done. rewrite decide_False; naive_solver. }
      destruct (decide (g = wf)) as [->|Hne]; [|by apply Hn1]. rewrite Hd1 by done. destruct Hg as [?|Hm]; [done|].
      rewrite !decide_False; [done|..]; intros ->; by destruct message_not_result.
  - destruct Hcase as [Ht1 Hr1]. split; [|intros; by rewrite Ht2, Ht1].
    split; intros; [rewrite Hd by done; case_decide; [done|]; by rewrite Hr1|by rewrite Hn, Hr1].
Qed.

(** [wait] hands pending bits over at once and clears them. *)
Lemma wp_wait_bits core frame n w (R : Z → t * W → Prop) :
  ok w → used n = true → pending n ≠ 0 →
  (∀ w', ok w' → regs w' frame reg.SYSNO_RESULT = result_code.OK →
     regs w' frame reg.EP_BADGE = pending n → (∀ y, thread w' y = thread w y) →
     R frame (with_pending 0 n, w')) →
  wp (wait core frame) (n, w) R.
Proof.
  intros Hw Hu Hp HR. unfold wait. apply wp_bind, wp_obj_gets. unfold id. rewrite Hu. cbn [negb].
  rewrite (proj2 (Z.eqb_neq _ _) Hp). cbn [negb].
  apply wp_bind, wp_on_world, wp_set_reg; [done|apply result_reg|]. intros w1 Hs1 [Hd1 Hn1].
  apply wp_bind, wp_on_world, wp_set_reg; [apply Hs1|apply badge_reg|]. intros w2 Hs2 [Hd2 Hn2].
  pose proof (same_trans _ _ _ Hs1 Hs2) as Hs. apply wp_bind, wp_obj_modify, wp_ret. apply HR; [apply Hs| | |apply Hs].
  - rewrite Hd2 by apply result_reg. rewrite decide_False by done. by rewrite Hd1 by apply result_reg.
  - by rewrite Hd2 by apply badge_reg.
Qed.

(** Without pending bits the running thread becomes the waiter and waits, unless
    there is a waiter already: the second one is turned away with [ERR_EP_FULL]. *)
Theorem wait_exact core frame n w cur :
  ok w → running w core = Some cur → yields w core → used n = true → pending n = 0 →
  wp (wait core frame) (n, w) (λ f '(n', w'), ok w' ∧
    match waiter n with
    | Some _ => f = frame ∧ n' = n ∧ answered w w' frame result_code.ERR_EP_FULL ∧
        ∀ y, thread w' y = thread w y
    | None => n' = with_waiter (Some cur) n ∧ (∀ g j, regs w' g j = regs w g j) ∧
        ∀ y, thread w' y = if decide (y = cur) then Some (frame, true) else thread w y
    end).
Proof.
  intros Hw Hc Hy Hu Hp. unfold wait. apply wp_bind, wp_obj_gets. unfold id. rewrite Hu, Hp. cbn [negb].
  rewrite Z.eqb_refl. cbn [negb]. destruct (waiter n) as [x|] eqn:Hn.
  - rewrite decide_True by eauto. apply wp_bind, wp_on_world, wp_set_reg; [done|apply result_reg|].
    intros w1 [] Hf. by apply wp_ret.
  - rewrite decide_False by (by intros []). apply wp_bind, wp_on_world. eapply wp_current_id; [done|exact Hc|].
    apply wp_bind, wp_obj_modify, wp_on_world. eapply wp_block_current; [done|exact Hc|exact Hy|].
    intros f w' Hw' _ Ht Hr. done.
Qed.

(** Signals that nobody waits for, of any threads, one after the other. *)
Definition signals (l : list (Z * Z)) : M (t * W) unit :=
  fold_right (λ '(badge, frame) m, signal badge frame ≫= λ _, m) (mret tt) l.

Definition all_bits (l : list (Z * Z)) : Z := fold_right (λ '(badge, _) b, Z.lor badge b) 0 l.

Lemma wp_signals l n w (R : unit → t * W → Prop) :
  ok w → used n = true → waiter n = None →
  (∀ w', ok w' → (∀ y, thread w' y = thread w y) →
     R tt (mk true (Z.lor (pending n) (all_bits l)) None, w')) →
  wp (signals l) (n, w) R.
Proof.
  revert n w R. induction l as [|[badge frame] l IH]; intros n w R Hw Hu Hn HR; cbn [signals fold_right].
  - apply wp_ret. cbn [all_bits fold_right] in HR. rewrite Z.lor_0_r in HR. destruct n as [u p ow]. cbn in *. subst. by apply HR.
  - apply wp_bind. unfold signal at 1. apply wp_bind, wp_obj_gets. rewrite Hu. cbn [negb].
    apply wp_bind, wp_deliver; [done|]. intros w1 Hw1 _. unfold listener. rewrite Hn. cbn [mbind option_bind].
    intros [Ht1 Hr1]. apply wp_bind, wp_on_world, wp_set_reg; [done|apply result_reg|]. intros w2 Hs2 _.
    apply wp_ret. rewrite Hu. apply IH; [apply Hs2|done|done|]. intros w' Hw' Ht'. cbn [pending].
    rewrite <-Z.lor_assoc. apply HR; [done|]. intros y. by rewrite Ht', (sm_thread _ _ Hs2), Ht1.
Qed.

(** No bit of a signal is lost: whatever is signalled while nobody waits, the next
    [wait] returns at once with exactly the bits signalled before it, and none stay
    pending. *)
Theorem signals_then_wait l core frame n w :
  ok w → used n = true → waiter n = None → Z.lor (pending n) (all_bits l) ≠ 0 →
  wp (signals l ≫= λ _, wait core frame) (n, w) (λ f '(n', w'),
    f = frame ∧ n' = mk true 0 None ∧ regs w' frame reg.SYSNO_RESULT = result_code.OK ∧
    regs w' frame reg.EP_BADGE = Z.lor (pending n) (all_bits l) ∧ ∀ y, thread w' y = thread w y).
Proof.
  intros Hw Hu Hn Hb. apply wp_bind, wp_signals; [done..|]. intros w1 Hw1 Ht1.
  apply wp_wait_bits; [done..|]. intros w2 Hw2 Hr Hbg Ht2. do 4 (split; [done|]). intros y. by rewrite Ht2.
Qed.

(** ** Two gaps *)

Implicit Types (e : Endpoint.t).

(** The thread has no role at the endpoint. *)
Definition in_no_role (x : ThreadId.t) e : Prop :=
  (∃ snd rcv, erep e snd rcv ∧ x ∉ snd ∧ x ∉ rcv) ∧ Endpoint.caller e ≠ Some x ∧ Endpoint.reply_owner e ≠ Some x.

(** A server that receives again before it has replied drops the caller it owes a
    reply: that thread goes on waiting, but the endpoint no longer knows it, so no
    reply, no sweep for a dying server and no aborted call can wake it. *)
Theorem recv_drops_caller e w core frame server snd rcv c sender rest :
  ok w → erep e snd rcv → running w core = Some server → yields w core →
  Endpoint.gate_new_transaction e = None → Endpoint.caller e = Some c → waits w c →
  c ≠ server → c ∉ snd → c ∉ rcv → first_alive w snd sender rest →
  wp (recv core frame) (e, w) (λ _ '(e', w'), waits w' c ∧ in_no_role c e').
Proof.
  intros Hw He Hr Hy Hg Hc Hwt Hcs Hns Hnr Hfa.
  eapply wp_mono; [by apply (recv_exact e w core frame server snd rcv)|].
  intros f [e' w'] (Hw' & _ & _ & _ & Hcase). rewrite Hg in Hcase.
  destruct Hcase as [(s' & rest' & cf & b & _ & (dead & -> & _ & _) & _ & He' & Hca & Hro & _ & Ht)|(Hnone & _)].
  - split; [destruct Hwt as [fr Hfr]; exists fr; by rewrite Ht|]. split; [|split].
    + exists rest', rcv. split; [done|]. split; [set_solver|done].
    + rewrite Hca. intros [= ->]. set_solver.
    + rewrite Hro. intros [= ->]. done.
  - exfalso. destruct Hfa as (dead & -> & _ & Ha). unfold none_alive in Hnone. rewrite Forall_forall in Hnone.
    eapply Hnone; [|exact Ha]. set_solver.
Qed.
End notify.

(** Handing over a pending reply while the new server already waits in [recv] leaves
    a sender and a receiver side by side, and neither is woken. *)
Theorem migrate_owner_strands e old c rcv new :
  good e [] rcv → new ∈ rcv → Endpoint.used e = true → Endpoint.caller e = Some c →
  Endpoint.reply_owner e = Some old →
  wp (Endpoint.migrate_owner old) e (λ b e',
    b = true ∧ good e' [c] rcv ∧ new ∈ rcv ∧ Endpoint.caller e' = None).
Proof.
  intros HG Hin Hu Hc Ho. eapply wp_migrate_owner; [exact HG| |].
  - intros b _ [E|[E|E]]; [congruence|congruence|]. discriminate E.
  - intros c' e' _ _ Hc' HG' Hca _. assert (c' = c) as -> by congruence. by split.
Qed.
