(* ===== verification/IpcDemo.v ===== *)
(** * IPC at a concrete machine

    The hypotheses of the theorems on endpoints and notifications hold at a running
    machine: core 0 runs thread 2, thread 1 waits there in a call with its frame at
    200, threads 0 and 3 are ready, core 1 runs thread 4.  *)

From S2P Require Import Prelude PanicMonad Dll Slab Redirect SchedData Sched SchedReady SchedInv.
From S2P Require Import SchedSystem SchedReach SchedProps TidQueue Ipc IpcLaws IpcProps IpcInv.
From S2P Require Import IpcKernel IpcSystem IpcPurge IpcNotify.
#[local] Open Scope Z_scope.

#[local] Instance demo_timer : Timer := 0.

Definition demo_wait : list action :=
  demo_start ++ [Local 0 (OnTick 100 true); Local 0 (BlockCurrent 200)].
Definition demo_world : Kernel.World := Kernel.mk (demo_of demo_wait) ∅.

Lemma demo_sys : sys (demo_of demo_wait).
Proof.
  eapply (reachable_sys (H := demo_hal)); [exact demo_bootable|].
  apply demo_exec_reachable. by vm_compute; eexists.
Qed.

Lemma demo_ok : ok demo_world.
Proof. exact demo_sys. Qed.

Lemma demo_running : running demo_world 0 = Some (tid 2).
Proof. change (m_running (demo_of demo_wait) 0 = Some (tid 2)). vm_compute. reflexivity. Qed.

Lemma demo_thread (k : nat) (r : Z * bool) : m_thread (demo_of demo_wait) (tid k) = Some r →
  thread demo_world (tid k) = Some r.
Proof. done. Qed.

Lemma demo_thread_1 : thread demo_world (tid 1) = Some (200, true).
Proof. apply demo_thread. vm_compute. reflexivity. Qed.
Lemma demo_thread_3 : thread demo_world (tid 3) = Some (20208, false).
Proof. apply demo_thread. vm_compute. reflexivity. Qed.

Lemma demo_wait_core : Machine.cores (demo_of demo_wait) !! 0%nat = Some (core_of (demo_of demo_wait) 0).
Proof. vm_compute. reflexivity. Qed.

Lemma demo_yields : yields demo_world 0.
Proof.
  exists (core_of (demo_of demo_wait) 0). split; [exact demo_wait_core|].
  intros E. vm_compute in E. discriminate E.
Qed.

(** ** Queues of one thread *)

Definition queue_of (x : ThreadId.t) : TidQueue.t :=
  match TidQueue.enqueue x TidQueue.EMPTY with Some (_, q) => q | None => TidQueue.EMPTY end.

Lemma rep_queue_of x : rep (queue_of x) [x].
Proof.
  assert (wp (TidQueue.enqueue x) TidQueue.EMPTY (λ _ q, rep q [x])) as Hw.
  { eapply wp_enqueue; [apply rep_EMPTY|intros E; discriminate E|]. intros _ q Hq. exact Hq. }
  apply wp_run in Hw as (b & q & E & Hq). unfold queue_of. rewrite E. exact Hq.
Qed.

(** A receiver waits; a sender waits; a reply is owed. *)
Definition ep_receiver (r : ThreadId.t) : Endpoint.t :=
  Endpoint.mk true false TidQueue.EMPTY (queue_of r) None None.
Definition ep_sender (s : ThreadId.t) : Endpoint.t :=
  Endpoint.mk true false (queue_of s) TidQueue.EMPTY None None.
Definition ep_owed (c o : ThreadId.t) : Endpoint.t :=
  Endpoint.mk true false TidQueue.EMPTY TidQueue.EMPTY (Some c) (Some o).

Lemma erep_receiver r : erep (ep_receiver r) [] [r].
Proof. split; [apply rep_EMPTY|apply rep_queue_of]. Qed.
Lemma erep_sender s : erep (ep_sender s) [s] [].
Proof. split; [apply rep_queue_of|apply rep_EMPTY]. Qed.
Lemma good_owed c o : good (ep_owed c o) [] [].
Proof. split; [split; apply rep_EMPTY|]. split; intros _; eexists; reflexivity. Qed.
Lemma good_receiver r : good (ep_receiver r) [] [r].
Proof. split; [apply erep_receiver|]. split; intros [x E]; discriminate E. Qed.

Lemma first_alive_one x f b : thread demo_world x = Some (f, b) → first_alive demo_world [x] x [].
Proof. intros Hx. exists []. split; [done|]. split; [constructor|]. by eexists. Qed.

Lemma first_alive_only x y rest : first_alive demo_world [x] y rest → y = x ∧ rest = [].
Proof.
  intros (dead & E & _ & _). destruct dead as [|z dead]; [by injection E as -> ->|].
  injection E as _ E. by destruct dead.
Qed.

(** ** The theorems at the machine *)

Lemma call_exact_witness :
  wp (call 0 300 7) (ep_receiver (tid 1), demo_world) (λ _ '(e', w'),
    Endpoint.caller e' = Some (tid 2) ∧ Endpoint.reply_owner e' = Some (tid 1) ∧
    thread w' (tid 2) = Some (300, true) ∧ thread w' (tid 1) = Some (200, false)).
Proof.
  refine (wp_mono _ _ _ _ (call_exact (ep_receiver (tid 1)) demo_world 0 300 7 (tid 2) [] [tid 1]
    demo_ok (erep_receiver (tid 1)) demo_running demo_yields _) _).
  - intros E. apply list_elem_of_singleton in E. discriminate E.
  - intros f [e' w'] (_ & _ & _ & _ & Hc). cbn [Endpoint.gate_new_transaction Endpoint.used Endpoint.quiescing ep_receiver negb] in Hc.
    destruct Hc as [(server & rest & sf & b & Hfa & Hs & _ & Hca & Hro & _ & Ht)|[Hn _]].
    + destruct (first_alive_only _ _ _ Hfa) as [-> ->]. rewrite demo_thread_1 in Hs. injection Hs as <- <-.
      split; [exact Hca|]. split; [exact Hro|]. split; rewrite Ht; reflexivity.
    + exfalso. apply Forall_cons in Hn as [Hn _]. apply Hn. eexists. exact demo_thread_1.
Defined.

Lemma recv_exact_witness :
  wp (recv 0 300) (ep_sender (tid 1), demo_world) (λ f '(e', w'),
    f = 300 ∧ Endpoint.caller e' = Some (tid 1) ∧ Endpoint.reply_owner e' = Some (tid 2) ∧
    thread w' (tid 1) = Some (200, true)).
Proof.
  refine (wp_mono _ _ _ _ (recv_exact (ep_sender (tid 1)) demo_world 0 300 (tid 2) [tid 1] []
    demo_ok (erep_sender (tid 1)) demo_running demo_yields) _).
  intros f [e' w'] (_ & _ & _ & _ & Hc). cbn [Endpoint.gate_new_transaction Endpoint.used Endpoint.quiescing ep_sender negb] in Hc.
  destruct Hc as [(s & rest & cf & b & Hf & Hfa & _ & _ & Hca & Hro & _ & Ht)|[Hn _]].
  - destruct (first_alive_only _ _ _ Hfa) as [-> ->]. split; [exact Hf|]. split; [exact Hca|]. split; [exact Hro|].
    rewrite Ht. exact demo_thread_1.
  - exfalso. apply Forall_cons in Hn as [Hn _]. apply Hn. eexists. exact demo_thread_1.
Defined.

Lemma reply_exact_witness :
  wp (reply 0 300) (ep_owed (tid 1) (tid 2), demo_world) (λ f '(e', w'),
    f = 300 ∧ Endpoint.caller e' = None ∧ thread w' (tid 1) = Some (200, false)).
Proof.
  refine (wp_mono _ _ _ _ (reply_exact (ep_owed (tid 1) (tid 2)) demo_world 0 300 demo_ok
    (ex_intro _ (tid 2) demo_running)) _).
  intros f [e' w'] (Hf & _ & _ & _ & Hc). cbn [Endpoint.used ep_owed negb] in Hc.
  destruct Hc as (-> & _ & [(c & cf & Hca & Hs & _ & _ & _ & Ht)|(Hn & _)]).
  - injection Hca as <-. rewrite demo_thread_1 in Hs. injection Hs as <-.
    split; [exact Hf|]. split; [reflexivity|]. rewrite Ht. reflexivity.
  - exfalso. apply (Hn (tid 1) eq_refl). exists 200. exact demo_thread_1.
Defined.

Definition ep_quiet : Endpoint.t := Endpoint.with_quiescing true (ep_receiver (tid 1)).

Lemma rebind_exact_witness :
  wp (Endpoint.rebind_server (tid 1) (tid 2)) ep_quiet (λ r e',
    Endpoint.used e' = true ∧ good e' [] (if is_done r then [tid 2] else [tid 1])).
Proof.
  refine (wp_mono _ _ _ _ (rebind_exact ep_quiet [] [tid 1] (tid 1) (tid 2) _ (NoDup_singleton _)) _).
  - split; [destruct (erep_receiver (tid 1)); split; assumption|]. split; intros [x E]; discriminate E.
  - intros r e' (Hu & _ & _ & _ & Hg & _). split; [exact Hu|exact Hg].
Defined.

Lemma endpoint_invariant_witness :
  ∃ e, endpoint_reachable (W := Kernel.World) true e ∧ Endpoint.used e = true ∧
    ∃ snd rcv, erep e snd rcv ∧ (true = true → snd = [] ∨ rcv = []).
Proof.
  assert (endpoint_reachable (W := Kernel.World) true (Endpoint.mk true false TidQueue.EMPTY TidQueue.EMPTY None None)) as Hr.
  { refine (er_step true Endpoint.EMPTY MarkUsed demo_world _ demo_world er_empty demo_ok _ _);
      [intros; exact I|reflexivity]. }
  eexists. split; [exact Hr|]. split; [reflexivity|].
  destruct (endpoint_invariant true _ Hr) as (snd & rcv & He & _ & _ & _ & Hp). exists snd, rcv. split; [exact He|exact Hp].
Defined.

(** Thread 3 is the server that dies; thread 1 waits for its reply. *)
Definition demo_tables : Tables.t Kernel.World :=
  Tables.mk [Endpoint.EMPTY; ep_owed (tid 1) (tid 3)] [Notification.mk true 0 (Some (tid 3))] demo_world.

Lemma demo_healthy : Forall healthy (Tables.eps demo_tables).
Proof.
  repeat constructor; [exists [], []; apply good_EMPTY|exists [], []; apply good_owed].
Qed.

Lemma purge_exact_witness :
  wp (Tables.purge_ipc_queues (tid 3)) demo_tables (λ _ s',
    Tables.ntfns s' = [Notification.mk true 0 None] ∧ thread (Tables.world s') (tid 1) = Some (200, false) ∧
    regs (Tables.world s') 200 reg.SYSNO_RESULT = result_code.ERR_SERVER_GONE).
Proof.
  refine (wp_mono _ _ _ _ (purge_exact (tid 3) demo_tables demo_ok demo_healthy) _).
  intros [] s' (_ & _ & Hn & Hs). change (Tables.world demo_tables) with demo_world in Hs. split; [rewrite Hn; reflexivity|]. split.
  - rewrite (sv_thread _ _ _ Hs), demo_thread_1. reflexivity.
  - refine (sv_code _ _ _ Hs (tid 1) 200 true _ demo_thread_1). apply list_elem_of_singleton. reflexivity.
Defined.

Lemma demo_tables_sys : sys (Kernel.machine (Tables.world demo_tables)).
Proof. unfold demo_tables, demo_world. cbn [Tables.world Kernel.machine]. exact demo_sys. Qed.
Lemma demo_tables_core :
  Machine.cores (Kernel.machine (Tables.world demo_tables)) !! 0%nat = Some (core_of (demo_of demo_wait) 0).
Proof. unfold demo_tables, demo_world. cbn [Tables.world Kernel.machine]. exact demo_wait_core. Qed.

Lemma kill_sweeps_witness :
  wp (kill (H0 := demo_hal) (tid 3) 0) demo_tables (λ b s',
    sys (Kernel.machine (Tables.world s')) ∧
    (b = true → m_place (Kernel.machine (Tables.world s')) (tid 3) = None)).
Proof.
  eapply wp_mono; [exact (@kill_sweeps demo_timer demo_hal (tid 3) 0 demo_tables (core_of (demo_of demo_wait) 0)
    demo_tables_sys demo_healthy demo_tables_core)|].
  intros b s' [Hs Hb]. split; [exact Hs|]. intros E. rewrite E in Hb. exact (proj1 Hb).
Defined.

Definition ntfn_waiting : Notification.t := Notification.mk true 2 (Some (tid 1)).

Lemma signal_exact_witness :
  wp (Notification.signal 5 300) (ntfn_waiting, demo_world) (λ f '(n', w'),
    n' = Notification.mk true 0 None ∧ regs w' 200 reg.EP_BADGE = 7 ∧ thread w' (tid 1) = Some (200, false)).
Proof.
  refine (wp_mono _ _ _ _ (signal_exact 5 300 ntfn_waiting demo_world demo_ok) _).
  intros f [n' w'] (_ & _ & _ & Hc). cbn [Notification.used ntfn_waiting negb] in Hc. destruct Hc as [_ Hc].
  rewrite (listener_alive ntfn_waiting demo_world (tid 1) 200 true eq_refl demo_thread_1) in Hc. destruct Hc as (Hn & _ & Hb & Ht & _). split; [exact Hn|]. split; [exact Hb|]. rewrite Ht. reflexivity.
Defined.

Lemma wait_exact_witness :
  wp (Notification.wait 0 300) (Notification.mk true 0 None, demo_world) (λ f '(n', w'),
    Notification.waiter n' = Some (tid 2) ∧ thread w' (tid 2) = Some (300, true)).
Proof.
  refine (wp_mono _ _ _ _ (wait_exact 0 300 (Notification.mk true 0 None) demo_world (tid 2) demo_ok demo_running
    demo_yields eq_refl eq_refl) _).
  intros f [n' w'] (_ & Hn & _ & Ht). split; [rewrite Hn; reflexivity|]. rewrite Ht. reflexivity.
Defined.

Lemma signals_then_wait_witness :
  wp (signals [(1, 300); (4, 400)] ≫= λ _, Notification.wait 0 500) (Notification.mk true 0 None, demo_world)
    (λ f '(n', w'), f = 500 ∧ regs w' 500 reg.EP_BADGE = 5).
Proof.
  refine (wp_mono _ _ _ _ (signals_then_wait [(1, 300); (4, 400)] 0 500 (Notification.mk true 0 None) demo_world demo_ok
    eq_refl eq_refl _) _).
  - intros E. discriminate E.
  - intros f [n' w'] (Hf & _ & _ & Hb & _). split; [exact Hf|exact Hb].
Defined.

(** Thread 3 calls while thread 2 still owes thread 1 its reply. *)
Definition ep_busy : Endpoint.t :=
  Endpoint.mk true false (queue_of (tid 3)) TidQueue.EMPTY (Some (tid 1)) (Some (tid 2)).

Lemma recv_drops_caller_witness :
  wp (recv 0 300) (ep_busy, demo_world) (λ _ '(e', w'), waits w' (tid 1) ∧ in_no_role (tid 1) e').
Proof.
  refine (recv_drops_caller ep_busy demo_world 0 300 (tid 2) [tid 3] [] (tid 1) (tid 3) [] demo_ok _ demo_running
    demo_yields eq_refl eq_refl (ex_intro _ 200 demo_thread_1) _ _ _ (first_alive_one _ _ _ demo_thread_3)).
  - split; [apply rep_queue_of|apply rep_EMPTY].
  - intros E. discriminate E.
  - intros E. apply list_elem_of_singleton in E. discriminate E.
  - apply not_elem_of_nil.
Defined.

(** The new server 3 waits already while the old one, 2, owes thread 1 its reply. *)
Definition ep_reload : Endpoint.t :=
  Endpoint.mk true false TidQueue.EMPTY (queue_of (tid 3)) (Some (tid 1)) (Some (tid 2)).

Lemma migrate_owner_strands_witness :
  wp (Endpoint.migrate_owner (tid 2)) ep_reload
    (λ b e', b = true ∧ good e' [tid 1] [tid 3] ∧ tid 3 ∈ [tid 3] ∧ Endpoint.caller e' = None).
Proof.
  refine (migrate_owner_strands ep_reload (tid 2) (tid 1) [tid 3] (tid 3) _ _ eq_refl eq_refl eq_refl).
  - split; [split; [apply rep_EMPTY|apply rep_queue_of]|]. split; intros _; eexists; reflexivity.
  - apply list_elem_of_singleton. reflexivity.
Defined.
