(* ===== verification/Cspace.v ===== *)
(** * The pool of capability slots of the protection domains

    [src/crates/caprock-microkit/src/cspace.rs]: resolving a request, and the
    assignment of runs of a pool by a bump pointer and a free list whose links lie
    in the anchors of the clients.  The anchors are reached through the trait
    [AnkerAblage], here the class of that name; [AnkerLaws] is what it promises.
    The theorems hold for every client that keeps to the protocol: it records a run
    in an anchor that is not on the free list, and leaves the anchor alone after
    giving the run back.  *)

From S2P Require Import Prelude PanicMonad.
#[local] Open Scope Z_scope.

Definition STANDARD_PLAETZE : Z := 16.

Inductive CspaceAbweisung :=
| DeckelUeberschritten (verlangt deckel : Z)
| BudgetPasstNicht (budget plaetze : Z)
| VorratErschoepft (verlangt vorrat : Z)
| KeinePdFrei
| PoolErschoepft (verlangt frei : Z).

Module Anforderung.
Record t := mk { budget : Z; plaetze : Z }.
End Anforderung.

Definition anforderung_aufloesen (budget_roh plaetze_roh deckel standard_budget : Z) :
    result Anforderung.t CspaceAbweisung :=
  let budget := if budget_roh =? 0 then standard_budget else budget_roh in
  let plaetze := if plaetze_roh =? 0 then STANDARD_PLAETZE else plaetze_roh in
  if deckel <? budget then Err (DeckelUeberschritten budget deckel)
  else if plaetze <? budget then Err (BudgetPasstNicht budget plaetze)
  else Ok (Anforderung.mk budget plaetze).

Module CspaceAnker.
Record t := mk { start : Z; len : Z; naechster : Z }.
Definition LEER : t := mk 0 0 0.
Definition with_naechster v a := mk (start a) (len a) v.
Definition run (a : t) : Z * Z := (start a, len a).
End CspaceAnker.

Class AnkerAblage (A : Type) := {
  anzahl : A → nat;
  lese : nat → M A CspaceAnker.t;
  schreibe : nat → CspaceAnker.t → M A unit }.

Module Vergabe.
Record t := mk { bump : Z; kopf : Z }.
Definition neu : t := mk 0 0.
Definition bump_stand (v : t) : Z := bump v.
Definition with_bump b v := mk b (kopf v).
Definition with_kopf k v := mk (bump v) k.

Section ablage.
Context {A : Type} `{AnkerAblage A}.

Definition on_ablage {B} (m : M A B) : M (t * A) B := zoom snd (λ a s, (s.1, a)) m.
Definition on_vergabe {B} (m : M t B) : M (t * A) B := zoom fst (λ v s, (v, s.2)) m.

(** The walk along the free list: [i] is the link that is followed, [vorgaenger] the
    entry that holds it, 0 for the head. *)
Fixpoint suche (fuel : nat) (n vorgaenger i : Z) : M (t * A) (option (Z * Z)) :=
  match fuel with
  | O => panic
  | S fuel =>
      if i =? 0 then mret None
      else
        let idx := Z.to_nat (i - 1) in
        a ← on_ablage (lese idx);
        if n <=? CspaceAnker.len a then
          let weiter := CspaceAnker.naechster a in
          (if vorgaenger =? 0 then on_vergabe (modify (with_kopf weiter))
           else
             v ← on_ablage (lese (Z.to_nat (vorgaenger - 1)));
             on_ablage (schreibe (Z.to_nat (vorgaenger - 1)) (CspaceAnker.with_naechster weiter v))) ≫= λ _,
          on_ablage (schreibe idx (CspaceAnker.mk (CspaceAnker.start a) (CspaceAnker.len a) 0)) ≫= λ _,
          mret (Some (CspaceAnker.start a, CspaceAnker.len a))
        else suche fuel n i (CspaceAnker.naechster a)
  end.

(** [belegen]: the list is at most as long as there are anchors. *)
Definition belegen (pool_len n : Z) : M (t * A) (result (Z * Z) CspaceAbweisung) :=
  v ← on_vergabe (gets (λ v, v));
  if n =? 0 then mret (Ok (bump v, 0))
  else
    k ← on_ablage (gets anzahl);
    o ← suche (S k) n 0 (kopf v);
    match o with
    | Some r => mret (Ok r)
    | None =>
        match checked_add 32 (bump v) n with
        | None => mret (Err (PoolErschoepft n (saturating_sub pool_len (bump v))))
        | Some ende =>
            if pool_len <? ende then mret (Err (PoolErschoepft n (saturating_sub pool_len (bump v))))
            else on_vergabe (modify (with_bump ende)) ≫= λ _, mret (Ok (bump v, n))
        end
    end.

Definition freigeben (idx : nat) : M (t * A) unit :=
  v ← on_vergabe (gets (λ v, v));
  a ← on_ablage (lese idx);
  on_ablage (schreibe idx (CspaceAnker.with_naechster (kopf v) a)) ≫= λ _,
  on_vergabe (modify (with_kopf (wrapping_add 32 (Z.of_nat idx mod 2 ^ 32) 1))).
End ablage.
End Vergabe.

(** ** What the anchors promise *)
Class AnkerLaws (A : Type) `{AnkerAblage A} := {
  anker : A → list CspaceAnker.t;
  law_anzahl a : anzahl a = length (anker a);
  law_lese a i : lese i a = (λ x, (x, a)) <$> anker a !! i;
  law_schreibe a i x : (i < length (anker a))%nat →
    ∃ a', schreibe i x a = Some (tt, a') ∧ anker a' = <[i := x]> (anker a) }.

(** The anchors of the unit tests: a vector of their own. *)
#[export] Instance list_ablage : AnkerAblage (list CspaceAnker.t) := {|
  anzahl := length;
  lese i := gets (λ l, l) ≫= λ l, expect (l !! i);
  schreibe i x := gets (λ l, l) ≫= λ l, expect (l !! i) ≫= λ _, modify (<[i := x]>) |}.
#[export] Program Instance list_laws : AnkerLaws (list CspaceAnker.t) := {| anker l := l |}.
Next Obligation. done. Qed.
Next Obligation. intros a i. unfold lese, list_ablage, gets, mbind, M_bind, expect. by destruct (a !! i). Qed.
Next Obligation.
  intros a i x Hi. exists (<[i := x]> a). split; [|done].
  unfold schreibe, list_ablage, gets, mbind, M_bind, expect. by destruct (lookup_lt_is_Some_2 _ _ Hi) as [y ->].
Qed.

(** A request is resolved to a budget and a number of slots, both with their defaults,
    that fit under the cap and into each other; the cap is looked at first. *)
Lemma anforderung_exact budget_roh plaetze_roh deckel standard :
  let budget := if budget_roh =? 0 then standard else budget_roh in
  let plaetze := if plaetze_roh =? 0 then STANDARD_PLAETZE else plaetze_roh in
  match anforderung_aufloesen budget_roh plaetze_roh deckel standard with
  | Ok a => a = Anforderung.mk budget plaetze ∧ budget <= deckel ∧ budget <= plaetze
  | Err (DeckelUeberschritten v d) => v = budget ∧ d = deckel ∧ deckel < budget
  | Err (BudgetPasstNicht b p) => b = budget ∧ p = plaetze ∧ budget <= deckel ∧ plaetze < budget
  | Err _ => False
  end.
Proof.
  intros budget plaetze. unfold anforderung_aufloesen. fold budget. fold plaetze.
  destruct (Z.ltb_spec deckel budget); [by split_and!|].
  destruct (Z.ltb_spec plaetze budget); by split_and!.
Qed.

(** ** The ledger *)
Import Vergabe.

(** The links from [k] lead through the anchors of [ch]. *)
Fixpoint chain (l : list CspaceAnker.t) (k : Z) (ch : list nat) : Prop :=
  match ch with
  | [] => k = 0
  | i :: ch => k = Z.of_nat i + 1 ∧ ∃ a, l !! i = Some a ∧ chain l (CspaceAnker.naechster a) ch
  end.

Definition link_of (ch : list nat) : Z := match ch with [] => 0 | i :: _ => Z.of_nat i + 1 end.

Lemma chain_link l k ch : chain l k ch → k = link_of ch.
Proof. destruct ch; simpl; [done|]. by intros []. Qed.

Lemma chain_lt l k ch i : chain l k ch → i ∈ ch → (i < length l)%nat.
Proof.
  revert k. induction ch as [|j ch IH]; intros k; simpl; [set_solver|].
  intros (_ & a & Ha & Hc) [->|Hi]%elem_of_cons; [by eapply lookup_lt_Some|by eapply IH].
Qed.

Lemma chain_insert l k ch i x : i ∉ ch → chain l k ch → chain (<[i := x]> l) k ch.
Proof.
  revert k. induction ch as [|j ch IH]; intros k Hi; simpl; [done|].
  intros (-> & a & Ha & Hc). split; [done|]. exists a.
  rewrite list_lookup_insert_ne by set_solver. split; [done|]. apply IH; [set_solver|done].
Qed.

Lemma chain_app l k pre ch : chain l k (pre ++ ch) →
  ∃ k', k' = link_of ch ∧ chain l k' ch.
Proof.
  revert k. induction pre as [|i pre IH]; intros k; simpl.
  - intros Hc. exists k. split; [by eapply chain_link|done].
  - intros (_ & a & _ & Hc). by eapply IH.
Qed.

(** Taking [j] out behind its predecessor [p]. *)
Lemma chain_unlink l k pre p j post v :
  NoDup (pre ++ p :: j :: post) → chain l k (pre ++ p :: j :: post) → l !! p = Some v →
  chain (<[p := CspaceAnker.with_naechster (link_of post) v]> l) k (pre ++ p :: post).
Proof.
  revert k. induction pre as [|i pre IH]; intros k; simpl.
  - intros [Hp [Hj Hn]%NoDup_cons]%NoDup_cons (-> & a & Ha & _ & b & Hb & Hc) Hv. split; [done|].
    exists (CspaceAnker.with_naechster (link_of post) v).
    rewrite list_lookup_insert_eq by (by eapply lookup_lt_Some). split; [done|].
    apply chain_insert; [set_solver|]. pose proof (chain_link _ _ _ Hc) as <-. exact Hc.
  - intros [Hi Hn]%NoDup_cons (-> & a & Ha & Hc) Hv. split; [done|]. exists a.
    rewrite list_lookup_insert_ne by set_solver. split; [done|]. by apply IH.
Qed.

(** Two runs share no slot. *)
Definition disjoint_runs (r1 r2 : Z * Z) : Prop :=
  ∀ x, r1.1 <= x < r1.1 + r1.2 → r2.1 <= x < r2.1 + r2.2 → False.

(** The state of the pool: [ch] are the anchors on the free list, [live] those that
    hold a run in use. *)
Record ledger (pool_len : Z) (v : t) (l : list CspaceAnker.t) (ch live : list nat) : Prop := {
  lg_chain : chain l (kopf v) ch;
  lg_nodup : NoDup (ch ++ live);
  lg_bump : 0 <= bump v <= pool_len;
  lg_width : pool_len < 2 ^ 32;
  lg_small : Z.of_nat (length l) < 2 ^ 32;
  lg_in i : i ∈ ch ++ live → ∃ a, l !! i = Some a ∧ 0 <= CspaceAnker.start a ∧ 0 <= CspaceAnker.len a ∧
    CspaceAnker.start a + CspaceAnker.len a <= bump v;
  lg_disjoint i j a b : i ∈ ch ++ live → j ∈ ch ++ live → i ≠ j → l !! i = Some a → l !! j = Some b →
    disjoint_runs (CspaceAnker.run a) (CspaceAnker.run b) }.

Lemma ledger_start pool_len n : 0 <= pool_len < 2 ^ 32 → Z.of_nat n < 2 ^ 32 →
  ledger pool_len neu (replicate n CspaceAnker.LEER) [] [].
Proof.
  intros Hp Hn. split; cbn [app neu bump kopf chain].
  - done.
  - constructor.
  - lia.
  - lia.
  - by rewrite length_replicate.
  - intros i Hi. by apply not_elem_of_nil in Hi.
  - intros i j a b Hi. by apply not_elem_of_nil in Hi.
Qed.

(** The anchors' runs are the same in both tables. *)
Definition same_runs (l l' : list CspaceAnker.t) : Prop := CspaceAnker.run <$> l' = CspaceAnker.run <$> l.

Lemma same_runs_insert l i a b : l !! i = Some a → CspaceAnker.run b = CspaceAnker.run a → same_runs l (<[i := b]> l).
Proof.
  intros Ha Hb. unfold same_runs. rewrite list_fmap_insert, Hb. apply list_insert_id.
  by rewrite list_lookup_fmap, Ha.
Qed.

Lemma same_runs_lookup l l' i a' : same_runs l l' → l' !! i = Some a' →
  ∃ a, l !! i = Some a ∧ CspaceAnker.run a' = CspaceAnker.run a.
Proof.
  intros Hs Ha'. pose proof (list_lookup_fmap CspaceAnker.run l i) as E.
  rewrite <-Hs, list_lookup_fmap, Ha' in E. cbn [fmap option_fmap option_map] in E.
  destruct (l !! i) as [a|]; [|done]. exists a. split; [done|]. by apply (inj Some) in E.
Qed.

Lemma same_runs_length l l' : same_runs l l' → length l' = length l.
Proof. intros Hs. by rewrite <-(length_fmap CspaceAnker.run l'), Hs, length_fmap. Qed.

(** A ledger whose free list and holders shrink, and whose runs stay. *)
Lemma ledger_mono pool_len v v' l l' ch ch' live live' :
  ledger pool_len v l ch live → bump v <= bump v' <= pool_len → same_runs l l' → chain l' (kopf v') ch' →
  NoDup (ch' ++ live') → (∀ i, i ∈ ch' ++ live' → i ∈ ch ++ live) → ledger pool_len v' l' ch' live'.
Proof.
  intros [H1 H2 H3 H4 H5 H6 H7] Hb Hs Hc Hn Hsub. split; try done; [lia| | |].
  - by rewrite (same_runs_length _ _ Hs).
  - intros i Hi. destruct (H6 i (Hsub i Hi)) as (a & Ha & Hr).
    destruct (lookup_lt_is_Some_2 l' i) as [a' Ha'].
    { rewrite (same_runs_length _ _ Hs). by eapply lookup_lt_Some. }
    exists a'. split; [done|]. destruct (same_runs_lookup _ _ _ _ Hs Ha') as (a0 & Ha0 & E).
    assert (a0 = a) as -> by congruence. unfold CspaceAnker.run in E. injection E as -> ->. lia.
  - intros i j a b Hi Hj Hne Ha Hb'. destruct (same_runs_lookup _ _ _ _ Hs Ha) as (a0 & Ha0 & ->).
    destruct (same_runs_lookup _ _ _ _ Hs Hb') as (b0 & Hb0 & ->).
    by apply (H7 i j); auto.
Qed.

(** ** The operations on the ledger *)
Section wp.
Context {A : Type} `{AnkerLaws A}.
Implicit Types (v : t) (a : A).

Lemma wp_lese i a x (R : CspaceAnker.t → A → Prop) : anker a !! i = Some x → R x a → wp (lese i) a R.
Proof. intros Hx HR. unfold wp. by rewrite law_lese, Hx. Qed.

Lemma wp_schreibe i x a (R : unit → A → Prop) :
  (i < length (anker a))%nat → (∀ a', anker a' = <[i := x]> (anker a) → R tt a') → wp (schreibe i x) a R.
Proof. intros Hi HR. unfold wp. destruct (law_schreibe a i x Hi) as (a' & -> & E). by apply HR. Qed.

Lemma wp_on_ablage {B} (m : M A B) v a (R : B → t * A → Prop) :
  wp m a (λ b a', R b (v, a')) → wp (on_ablage m) (v, a) R.
Proof. intros Hm. by apply wp_zoom. Qed.
Lemma wp_on_vergabe {B} (m : M t B) v a (R : B → t * A → Prop) :
  wp m v (λ b v', R b (v', a)) → wp (on_vergabe m) (v, a) R.
Proof. intros Hm. by apply wp_zoom. Qed.

Definition too_small (a : A) (n : Z) (i : nat) : Prop := ∀ x, anker a !! i = Some x → CspaceAnker.len x < n.

(** Taking the entry [i] out of the chain behind [pre]. *)
Lemma wp_unhook v a pre i r x (R : option (Z * Z) → t * A → Prop) :
  chain (anker a) (kopf v) (pre ++ i :: r) → NoDup (pre ++ i :: r) → anker a !! i = Some x →
  (∀ v' a', bump v' = bump v → same_runs (anker a) (anker a') → chain (anker a') (kopf v') (pre ++ r) →
     R (Some (CspaceAnker.run x)) (v', a')) →
  let vorgaenger := match last pre with Some p => Z.of_nat p + 1 | None => 0 end in
  wp ((if vorgaenger =? 0 then on_vergabe (modify (with_kopf (CspaceAnker.naechster x)))
       else
         v ← on_ablage (lese (Z.to_nat (vorgaenger - 1)));
         on_ablage (schreibe (Z.to_nat (vorgaenger - 1)) (CspaceAnker.with_naechster (CspaceAnker.naechster x) v))) ≫= λ _,
      on_ablage (schreibe i (CspaceAnker.mk (CspaceAnker.start x) (CspaceAnker.len x) 0)) ≫= λ _,
      mret (Some (CspaceAnker.start x, CspaceAnker.len x))) (v, a) R.
Proof.
  intros Hc Hn Hx HR. cbv zeta.
  assert (CspaceAnker.naechster x = link_of r) as Hw.
  { destruct (chain_app _ _ _ _ Hc) as (k & _ & Hk). destruct Hk as (_ & y & Hy & Hk).
    assert (y = x) as -> by congruence. by eapply chain_link. }
  assert (∀ v1 a1, bump v1 = bump v → same_runs (anker a) (anker a1) → chain (anker a1) (kopf v1) (pre ++ r) →
    wp (on_ablage (schreibe i (CspaceAnker.mk (CspaceAnker.start x) (CspaceAnker.len x) 0)) ≫= λ _,
        mret (Some (CspaceAnker.start x, CspaceAnker.len x))) (v1, a1) R) as Hlast.
  { intros v1 a1 Hb Hs Hc1. apply wp_bind, wp_on_ablage, wp_schreibe.
    { rewrite (same_runs_length _ _ Hs). by eapply lookup_lt_Some. }
    intros a2 E. apply wp_ret. apply HR; [done| |].
    - rewrite E. destruct (lookup_lt_is_Some_2 (anker a1) i) as [y Hy].
      { rewrite (same_runs_length _ _ Hs). by eapply lookup_lt_Some. }
      destruct (same_runs_lookup _ _ _ _ Hs Hy) as (x' & Hx' & E').
      assert (x' = x) as -> by congruence.
      unfold same_runs in *. rewrite <-Hs. by apply (same_runs_insert _ _ y).
    - rewrite E. apply chain_insert; [|done]. apply NoDup_app in Hn as (_ & Hd & [Hir _]%NoDup_cons).
      intros [Hi|Hi]%elem_of_app; [by apply (Hd i Hi); left|done]. }
  apply wp_bind. rewrite Hw. destruct (last pre) as [p|] eqn:Hp.
  - apply last_Some in Hp as (pre0 & ->). rewrite (proj2 (Z.eqb_neq _ _)) by lia.
    replace (Z.to_nat (Z.of_nat p + 1 - 1)) with p by lia.
    assert (p < length (anker a))%nat as Hpl by (eapply chain_lt; [exact Hc|]; set_solver).
    destruct (lookup_lt_is_Some_2 _ _ Hpl) as [y Hy].
    apply wp_bind, wp_on_ablage. eapply wp_lese; [exact Hy|]. apply wp_on_ablage, wp_schreibe; [done|].
    intros a1 E. apply Hlast; [done| |].
    + rewrite E. by eapply same_runs_insert.
    + rewrite E, <-app_assoc. rewrite <-!app_assoc in Hc, Hn. simpl in *. by apply chain_unlink with i.
  - apply last_None in Hp as ->. rewrite Z.eqb_refl. apply wp_on_vergabe, wp_modify.
    apply Hlast; [done|done|]. cbn [with_kopf kopf app] in *. destruct Hc as (_ & y & Hy & Hk).
    assert (y = x) as -> by congruence. by rewrite <-Hw.
Qed.

(** The walk finds the first free run that is long enough. *)
Lemma wp_suche fuel n v a pre rest vg (R : option (Z * Z) → t * A → Prop) :
  chain (anker a) (kopf v) (pre ++ rest) → NoDup (pre ++ rest) → (length rest < fuel)%nat →
  vg = match last pre with Some p => Z.of_nat p + 1 | None => 0 end →
  (Forall (too_small a n) rest → R None (v, a)) →
  (∀ mid j post x v' a', rest = mid ++ j :: post → Forall (too_small a n) mid → anker a !! j = Some x →
     n <= CspaceAnker.len x → bump v' = bump v → same_runs (anker a) (anker a') →
     chain (anker a') (kopf v') (pre ++ mid ++ post) → R (Some (CspaceAnker.run x)) (v', a')) →
  wp (suche fuel n vg (link_of rest)) (v, a) R.
Proof.
  revert pre rest vg. induction fuel as [|fuel IH]; intros pre rest vg Hc Hn Hf -> Hnone Hsome; [lia|].
  cbn [suche]. destruct rest as [|i r]; cbn [link_of].
  { rewrite Z.eqb_refl. apply wp_ret, Hnone. constructor. }
  rewrite (proj2 (Z.eqb_neq (Z.of_nat i + 1) 0)) by lia. replace (Z.to_nat (Z.of_nat i + 1 - 1)) with i by lia.
  assert (i < length (anker a))%nat as Hil by (eapply chain_lt; [exact Hc|]; set_solver).
  destruct (lookup_lt_is_Some_2 _ _ Hil) as [x Hx]. apply wp_bind, wp_on_ablage. eapply wp_lese; [exact Hx|].
  destruct (Z.leb_spec n (CspaceAnker.len x)) as [Hle|Hlt].
  - eapply wp_unhook; [exact Hc|exact Hn|exact Hx|]. intros v' a' Hb Hs Hc'.
    eapply (Hsome [] i r); [done|constructor|exact Hx|done..].
  - destruct (chain_app _ _ _ _ Hc) as (k & _ & Hk). destruct Hk as (_ & y & Hy & Hk).
    assert (y = x) as -> by congruence. rewrite (chain_link _ _ _ Hk).
    assert (too_small a n i) as Hsm by (intros z Hz; congruence).
    apply (IH (pre ++ [i]) r).
    + by rewrite <-app_assoc.
    + by rewrite <-app_assoc.
    + simpl in Hf. lia.
    + by rewrite last_snoc.
    + intros Hr. apply Hnone. by constructor.
    + intros mid j post z v' a' -> Hmid Hz Hle Hb Hs Hc'. eapply (Hsome (i :: mid) j post); [done| |done..|].
      * by constructor.
      * by rewrite <-app_assoc in Hc'.
Qed.

(** [belegen] gives the first free run that is long enough, whole; otherwise a fresh
    one of exactly the length asked for; and refuses, naming what is left, only where
    neither exists.  The run it gives shares no slot with any other. *)
Lemma wp_belegen pool_len n v a ch live (R : result (Z * Z) CspaceAbweisung → t * A → Prop) :
  ledger pool_len v (anker a) ch live → 0 <= n →
  (0 < n → Forall (too_small a n) ch → pool_len < bump v + n →
     R (Err (PoolErschoepft n (pool_len - bump v))) (v, a)) →
  (∀ r v' a' ch', ledger pool_len v' (anker a') ch' live → (∀ i, i ∈ ch' → i ∈ ch) →
     0 <= r.1 → n <= r.2 → r.1 + r.2 <= bump v' → same_runs (anker a) (anker a') →
     (∀ i b, i ∈ ch' ++ live → anker a' !! i = Some b → disjoint_runs r (CspaceAnker.run b)) →
     R (Ok r) (v', a')) →
  wp (belegen pool_len n) (v, a) R.
Proof.
  intros HL Hn Hno Hyes. pose proof HL as [Hc Hnd Hb Hw Hsm Hin Hdis]. unfold belegen.
  apply wp_bind, wp_on_vergabe, wp_gets. destruct (Z.eqb_spec n 0) as [->|Hn0].
  { apply wp_ret. eapply (Hyes (bump v, 0)); [exact HL|done|simpl; lia|simpl; lia|simpl; lia|done|].
    intros i b _ _ x Hx. simpl in Hx. lia. }
  apply wp_bind, wp_on_ablage, wp_gets. rewrite law_anzahl. apply wp_bind.
  rewrite (chain_link _ _ _ Hc). pose proof Hnd as (Hndc & Hcl & _)%NoDup_app.
  eapply (wp_suche _ n v a [] ch); [exact Hc|done| |done| |].
  - enough (length ch ≤ length (anker a))%nat by lia. apply NoDup_bounded_length; [done|].
    intros x Hx. by eapply chain_lt.
  - intros Hall. destruct (checked_add 32 (bump v) n) as [ende|] eqn:E.
    + apply checked_add_Some in E as [-> He]. destruct (Z.ltb_spec pool_len (bump v + n)) as [Hlt|Hle].
      * apply wp_ret. unfold saturating_sub. rewrite Z.max_r by lia. apply Hno; [lia|done|lia].
      * apply wp_bind, wp_on_vergabe, wp_modify, wp_ret. eapply (Hyes (bump v, n) _ a ch).
        -- eapply ledger_mono; [exact HL|cbn; lia|done|exact Hc|done|done].
        -- done.
        -- simpl. lia.
        -- simpl. lia.
        -- cbn. lia.
        -- done.
        -- intros i b Hi Hbi x Hx Hx'. destruct (Hin i Hi) as (b' & Hb' & Hs & Hle' & He').
           assert (b' = b) as -> by congruence. unfold CspaceAnker.run in Hx'. cbn in Hx, Hx'. lia.
    + apply checked_add_None in E. apply wp_ret. unfold saturating_sub. rewrite Z.max_r by lia.
      apply Hno; [lia|done|lia].
  - intros mid j post x v' a' -> Hmid Hx Hle Hbv Hs Hc'. cbn [app] in Hc'. apply wp_ret.
    assert (∀ i, i ∈ (mid ++ post) ++ live → i ∈ (mid ++ j :: post) ++ live) as Hsub by set_solver.
    assert (j ∉ (mid ++ post) ++ live) as Hj.
    { apply NoDup_app in Hndc as (Hm & Hmp & [Hjp Hp]%NoDup_cons).
      intros [[Hj|Hj]%elem_of_app|Hj]%elem_of_app; [by apply (Hmp j Hj); left|done|].
      apply (Hcl j); [set_solver|done]. }
    destruct (Hin j) as (x' & Hx' & H1 & H2 & H3); [set_solver|]. assert (x' = x) as -> by congruence.
    eapply (Hyes (CspaceAnker.run x) v' a' (mid ++ post)).
    + eapply ledger_mono; [exact HL|lia|done|exact Hc'| |exact Hsub].
      apply NoDup_app. apply NoDup_app in Hnd as (Hnd1 & Hnd2 & Hnd3). split; [|split; [|done]].
      * apply NoDup_app in Hnd1 as (Hm & Hmp & [Hjp Hp]%NoDup_cons). apply NoDup_app. split; [done|].
        split; [|done]. intros i Hi Hip. apply (Hmp i Hi). by right.
      * intros i Hi. apply Hnd2. set_solver.
    + set_solver.
    + exact H1.
    + exact Hle.
    + cbn. lia.
    + exact Hs.
    + intros i b Hi Hbi. destruct (same_runs_lookup _ _ _ _ Hs Hbi) as (b0 & Hb0 & ->).
      eapply (Hdis j i); [set_solver|by apply Hsub|intros ->; done|exact Hx|exact Hb0].
Qed.

(** Recording a run in a spare anchor. *)
Lemma ledger_record pool_len v l ch live i r :
  ledger pool_len v l ch live → i ∉ ch ++ live → (i < length l)%nat →
  0 <= r.1 → 0 <= r.2 → r.1 + r.2 <= bump v →
  (∀ j b, j ∈ ch ++ live → l !! j = Some b → disjoint_runs r (CspaceAnker.run b)) →
  ledger pool_len v (<[i := CspaceAnker.mk r.1 r.2 0]> l) ch (i :: live).
Proof.
  intros [H1 H2 H3 H4 H5 H6 H7] Hi Hil Hr1 Hr2 Hr3 Hdis.
  assert (∀ j, j ∈ ch ++ i :: live → j = i ∨ j ∈ ch ++ live) as Hcase by set_solver.
  assert (∀ r1 r2, disjoint_runs r1 r2 → disjoint_runs r2 r1) as Hsym by (unfold disjoint_runs; eauto).
  split; try done.
  - apply chain_insert; [set_solver|done].
  - apply NoDup_app in H2 as (Hn1 & Hn2 & Hn3). apply NoDup_app. split; [done|]. split; [set_solver|].
    apply NoDup_cons. split; [set_solver|done].
  - by rewrite length_insert.
  - intros j Hj. destruct (decide (j = i)) as [->|Hne].
    + exists (CspaceAnker.mk r.1 r.2 0). rewrite list_lookup_insert_eq by done. by split.
    + rewrite list_lookup_insert_ne by done. apply H6. destruct (Hcase j Hj); done.
  - intros j k a b Hj Hk Hne. destruct (Hcase j Hj) as [->|Hj'], (Hcase k Hk) as [->|Hk']; try done.
    + rewrite list_lookup_insert_eq, list_lookup_insert_ne by done. intros [= <-] Hb. destruct r. by apply (Hdis k).
    + rewrite list_lookup_insert_eq, list_lookup_insert_ne by done. intros Ha [= <-]. destruct r. apply Hsym. by apply (Hdis j).
    + rewrite !list_lookup_insert_ne by (intros ->; done). by apply H7.
Qed.

(** [freigeben] puts the run of a live anchor on the free list. *)
Lemma wp_freigeben pool_len v a ch live1 i live2 (R : unit → t * A → Prop) :
  ledger pool_len v (anker a) ch (live1 ++ i :: live2) →
  (∀ v' a', ledger pool_len v' (anker a') (i :: ch) (live1 ++ live2) → bump v' = bump v →
     same_runs (anker a) (anker a') → R tt (v', a')) →
  wp (freigeben i) (v, a) R.
Proof.
  intros HL HR. pose proof HL as [Hc Hnd Hb Hw Hsm Hin Hdis]. unfold freigeben.
  assert (i ∈ ch ++ live1 ++ i :: live2) as Hi by set_solver.
  destruct (Hin i Hi) as (x & Hx & _). pose proof (lookup_lt_Some _ _ _ Hx) as Hil.
  apply wp_bind, wp_on_vergabe, wp_gets, wp_bind, wp_on_ablage. eapply wp_lese; [exact Hx|].
  apply wp_bind, wp_on_ablage, wp_schreibe; [done|]. intros a' E.
  apply wp_on_vergabe, wp_modify.
  assert (same_runs (anker a) (anker a')) as Hs by (rewrite E; by eapply same_runs_insert).
  assert (i ∉ ch) as Hich. { apply NoDup_app in Hnd as (_ & Hd & _). intros Hx'. apply (Hd i Hx'). set_solver. }
  apply HR; [|done|done]. eapply ledger_mono; [exact HL|cbn; lia|exact Hs| | |set_solver].
  - cbn [with_kopf kopf chain]. split.
    + rewrite Z.mod_small by lia. rewrite wrapping_add_exact; [done|]. unfold in_width. lia.
    + exists (CspaceAnker.with_naechster (kopf v) x). rewrite E, list_lookup_insert_eq by done. split; [done|].
      by apply chain_insert.
  - apply NoDup_app in Hnd as (Hn1 & Hn2 & Hn3). apply NoDup_app in Hn3 as (Hn4 & Hn5 & [Hn6 Hn7]%NoDup_cons).
    assert (NoDup (live1 ++ live2)) as Hnl.
    { apply NoDup_app. split; [done|]. split; [|done]. intros y Hy Hy'. apply (Hn5 y Hy). by right. }
    assert (i ∉ live1 ++ live2) as Hil'.
    { intros [Hy|Hy]%elem_of_app; [by apply (Hn5 i Hy); left|done]. }
    cbn [app]. apply NoDup_cons. split; [set_solver|]. apply NoDup_app. split; [done|]. split; [|done].
    intros y Hy. specialize (Hn2 y Hy). set_solver.
Qed.
End wp.

(** ** The clients of the slot pool

    A client that keeps to the protocol of [src/crates/caprock-microkit/src/cspace.rs]:
    it records the run it is given in an anchor it does not otherwise use and that is
    not on the free list, and gives back only runs it holds.  Whatever such a client
    does, in any order, its runs lie in the pool and share no slot, and a refusal is
    justified.  *)

Import Vergabe.
(** The anchors on the free list, read along the links. *)
Fixpoint freiliste (fuel : nat) (l : list CspaceAnker.t) (k : Z) : list nat :=
  match fuel with
  | O => []
  | S fuel =>
      if k =? 0 then []
      else
        let i := Z.to_nat (k - 1) in
        match l !! i with
        | Some a => i :: freiliste fuel l (CspaceAnker.naechster a)
        | None => []
        end
  end.

Lemma freiliste_chain l k ch fuel : chain l k ch → (length ch ≤ fuel)%nat → freiliste fuel l k = ch.
Proof.
  revert k fuel. induction ch as [|i ch IH]; intros k [|fuel]; simpl; try done; try lia.
  - intros -> _. done.
  - intros (-> & a & Ha & Hc) Hf. rewrite (proj2 (Z.eqb_neq _ _)) by lia.
    replace (Z.to_nat (Z.of_nat i + 1 - 1)) with i by lia. rewrite Ha. f_equal. apply IH; [done|lia].
Qed.

Section client.
Context {A : Type} `{AnkerLaws A} (pool_len : Z).
Implicit Types (v : t) (a : A) (live : list nat).

Definition frei v a : list nat := freiliste (length (anker a)) (anker a) (kopf v).

(** What the client may reach, with the anchors that hold a run of its own. *)
Inductive client : t → A → list nat → Prop :=
| client_start a : Z.of_nat (length (anker a)) < 2 ^ 32 → client neu a []
| client_take v a live n r v1 a1 i a2 :
    client v a live → 0 <= n → belegen pool_len n (v, a) = Some (Ok r, (v1, a1)) →
    i ∉ frei v1 a1 → i ∉ live → (i < length (anker a1))%nat →
    schreibe i (CspaceAnker.mk r.1 r.2 0) a1 = Some (tt, a2) → client v1 a2 (i :: live)
| client_refused v a live n e s' :
    client v a live → 0 <= n → belegen pool_len n (v, a) = Some (Err e, s') → client s'.1 s'.2 live
| client_give v a live1 i live2 v' a' :
    client v a (live1 ++ i :: live2) → freigeben i (v, a) = Some (tt, (v', a')) →
    client v' a' (live1 ++ live2).

Lemma ledger_frei v a ch live : ledger pool_len v (anker a) ch live → frei v a = ch.
Proof.
  intros HL. apply freiliste_chain; [apply (lg_chain _ _ _ _ _ HL)|].
  pose proof (lg_nodup _ _ _ _ _ HL) as (Hn & _ & _)%NoDup_app.
  apply NoDup_bounded_length; [done|]. intros x Hx. eapply chain_lt; [apply (lg_chain _ _ _ _ _ HL)|done].
Qed.

(** [belegen] in a state of the ledger. *)
Definition belegt v a ch live (n : Z) (r : result (Z * Z) CspaceAbweisung) (s' : t * A) : Prop :=
  match r with
  | Ok r => 0 <= r.1 ∧ n <= r.2 ∧ r.1 + r.2 <= bump s'.1 <= pool_len ∧
      (∃ ch', ledger pool_len s'.1 (anker s'.2) ch' live ∧
         ∀ i b, i ∈ ch' ++ live → anker s'.2 !! i = Some b → disjoint_runs r (CspaceAnker.run b)) ∧
      same_runs (anker a) (anker s'.2)
  | Err e => e = PoolErschoepft n (pool_len - bump v) ∧ s' = (v, a) ∧ pool_len < bump v + n ∧
      Forall (too_small a n) ch
  end.

Lemma ledger_belegen v a ch live n :
  ledger pool_len v (anker a) ch live → 0 <= n → wp (belegen pool_len n) (v, a) (belegt v a ch live n).
Proof.
  intros HL Hn. eapply wp_belegen; [exact HL|done| |].
  - intros _ Hall Hlt. by split_and!.
  - intros r v' a' ch' HL' _ H1 H2 H3 Hs Hd. pose proof (lg_bump _ _ _ _ _ HL').
    split_and!; [done..|tauto| |done]. by exists ch'.
Qed.

Lemma client_ledger v a live : 0 <= pool_len < 2 ^ 32 → client v a live → ∃ ch, ledger pool_len v (anker a) ch live.
Proof.
  intros Hp. induction 1 as
    [a Ha|v a live n r v1 a1 i a2 _ [ch HL] Hn Hrun Hif Hil Hlt Hw|v a live n e s' _ [ch HL] Hn Hrun
    |v a live1 i live2 v' a' _ [ch HL] Hrun].
  - exists []. split; cbn [app neu bump kopf chain]; try done; try lia.
    + constructor.
    + intros i Hi. by apply not_elem_of_nil in Hi.
    + intros i j x y Hi. by apply not_elem_of_nil in Hi.
  - pose proof (ledger_belegen _ _ _ _ n HL Hn) as Hwp. unfold wp in Hwp. rewrite Hrun in Hwp.
    destruct Hwp as (H1 & H2 & [H3 _] & (ch' & HL' & Hd) & _). cbn [fst snd] in *.
    rewrite (ledger_frei _ _ _ _ HL') in Hif. exists ch'.
    destruct (law_schreibe a1 i (CspaceAnker.mk r.1 r.2 0) Hlt) as (a2' & Hw' & E).
    assert (a2' = a2) as -> by congruence. rewrite E.
    apply ledger_record; [done| |done|done|lia|done|exact Hd]. set_solver.
  - pose proof (ledger_belegen _ _ _ _ n HL Hn) as Hwp. unfold wp in Hwp. rewrite Hrun in Hwp.
    destruct Hwp as (_ & -> & _). by exists ch.
  - assert (wp (freigeben i) (v, a) (λ _ s', ledger pool_len s'.1 (anker s'.2) (i :: ch) (live1 ++ live2))) as Hwp.
    { eapply wp_freigeben; [exact HL|]. by intros v1 a1 HL' _ _. }
    unfold wp in Hwp. rewrite Hrun in Hwp. by exists (i :: ch).
Qed.
End client.

(** The runs a client holds lie in the part of the pool that was given out and share no
    slot; a request never fails to return; it is met with a run that is long enough,
    lies in the pool and shares no slot with any run in use; and it is refused, with the
    rest of the pool as the reason and nothing changed, only where neither a free run
    nor the rest of the pool is long enough. *)
Theorem pool_exact {A : Type} `{AnkerLaws A} (pool_len : Z) (v : t) (a : A) (live : list nat) (n : Z) :
  0 <= pool_len < 2 ^ 32 → client pool_len v a live → 0 <= n →
  (∀ i, i ∈ live → ∃ x, anker a !! i = Some x ∧ 0 <= CspaceAnker.start x ∧
     CspaceAnker.start x + CspaceAnker.len x <= bump v <= pool_len) ∧
  (∀ i j x y, i ∈ live → j ∈ live → i ≠ j → anker a !! i = Some x → anker a !! j = Some y →
     disjoint_runs (CspaceAnker.run x) (CspaceAnker.run y)) ∧
  wp (belegen pool_len n) (v, a) (λ r s',
    match r with
    | Ok r => 0 <= r.1 ∧ n <= r.2 ∧ r.1 + r.2 <= pool_len ∧
        ∀ i x, i ∈ live → anker a !! i = Some x → disjoint_runs r (CspaceAnker.run x)
    | Err e => e = PoolErschoepft n (pool_len - bump v) ∧ s' = (v, a) ∧ pool_len < bump v + n ∧
        ∀ i x, i ∈ frei v a → anker a !! i = Some x → CspaceAnker.len x < n
    end).
Proof.
  intros Hp Hcl Hn. destruct (client_ledger pool_len v a live Hp Hcl) as [ch HL]. split_and!.
  - intros i Hi. destruct (lg_in _ _ _ _ _ HL i) as (x & Hx & H1 & H2 & H3); [set_solver|].
    exists x. pose proof (lg_bump _ _ _ _ _ HL). split_and!; [done..|lia|lia].
  - intros i j x y Hi Hj. apply (lg_disjoint _ _ _ _ _ HL); set_solver.
  - eapply wp_mono; [by apply (ledger_belegen pool_len v a ch live n)|]. intros [r|e] [v' a']; cbn.
    + intros (H1 & H2 & H3 & (ch' & HL' & Hd) & Hs). split_and!; [done..|lia|].
      intros i x Hi Hx. destruct (lookup_lt_is_Some_2 (anker a') i) as [x' Hx'].
      { rewrite (same_runs_length _ _ Hs). by eapply lookup_lt_Some. }
      destruct (same_runs_lookup _ _ _ _ Hs Hx') as (x0 & Hx0 & E). assert (x0 = x) as -> by congruence.
      rewrite <-E. apply (Hd i); [set_solver|done].
    + intros (-> & -> & H3 & Hall). split_and!; [done..|]. intros i x Hi Hx.
      rewrite (ledger_frei pool_len v a ch live HL) in Hi. rewrite Forall_forall in Hall. by apply (Hall i Hi).
Qed.

(** Two runs of 16 in a pool of 32, the first given back: the pool of the unit tests. *)
Definition demo_pool : t * list CspaceAnker.t :=
  (mk 32 1, [CspaceAnker.mk 0 16 0; CspaceAnker.mk 16 16 0; CspaceAnker.LEER]).

Lemma demo_client : client 32 demo_pool.1 demo_pool.2 [1%nat].
Proof.
  set (l0 := replicate 3 CspaceAnker.LEER).
  assert (client 32 neu l0 []) as H0 by (by apply client_start).
  assert (client 32 (mk 16 0) (<[0%nat := CspaceAnker.mk 0 16 0]> l0) [0%nat]) as H1.
  { eapply (client_take 32 neu l0 [] 16); [exact H0|lia|reflexivity|set_solver|set_solver|simpl; lia|reflexivity]. }
  assert (client 32 (mk 32 0) (<[1%nat := CspaceAnker.mk 16 16 0]> (<[0%nat := CspaceAnker.mk 0 16 0]> l0))
            [1%nat; 0%nat]) as H2.
  { eapply (client_take 32 _ _ _ 16); [exact H1|lia|reflexivity|set_solver|set_solver|simpl; lia|reflexivity]. }
  eapply (client_give 32 _ _ [1%nat] 0%nat []); [exact H2|reflexivity].
Qed.

Lemma pool_exact_witness :
  belegen 32 16 demo_pool = Some (Ok (0, 16), (mk 32 0, [CspaceAnker.mk 0 16 0; CspaceAnker.mk 16 16 0; CspaceAnker.LEER])) ∧
  belegen 32 17 demo_pool = Some (Err (PoolErschoepft 17 0), demo_pool) ∧
  wp (belegen 32 17) demo_pool (λ r s', match r with Ok _ => True | Err _ => s' = demo_pool end).
Proof.
  split_and!; [reflexivity|reflexivity|].
  destruct (pool_exact 32 demo_pool.1 demo_pool.2 [1%nat] 17 ltac:(lia) demo_client ltac:(lia)) as (_ & _ & Hwp).
  eapply wp_mono; [exact Hwp|]. intros [r|e] s'; [done|]. by intros (_ & -> & _).
Defined.
