(* ===== verification/PdTable.v ===== *)
(** * Protection domains

    [PdTable] of [src/crates/caprock-microkit/src/lib.rs]: the table of protection
    domains with the budget account, the pool of their capability slots, the reverse
    index from threads to domains, the handler graph and the sidecar slots.  The
    entries of the table are the anchors of the slot pool ([Cspace]).  The counters for
    the report that live outside the table (atomics) are left out.  *)

From S2P Require Import Prelude PanicMonad CapObject SchedData Cspace.
#[local] Open Scope Z_scope.

Definition NPDS : Z := 10000.
Definition NCAPS : nat := Z.to_nat STANDARD_PLAETZE.
Definition CAP_BUDGET_PER_PD : Z := 10.
Definition CAP_BUDGET_MAX : Z := Z.of_nat NCAPS.
Definition CAP_SLOTS_FOR_ALL_PDS : Z := NPDS * CAP_BUDGET_PER_PD.
Definition CAP_SLOTS_KERNEL_RESERVE : nat := 256.
Definition CAP_SLOTS_TOTAL : Z := CAP_SLOTS_FOR_ALL_PDS + Z.of_nat CAP_SLOTS_KERNEL_RESERVE.
Definition KEIN_HANDLER_PD : Z := max_value 16.
Definition SIDECAR_SLOTS : Z := 64.
Definition GRANT_RECV_SLOT : nat := 1.
(** The value of the channel fields that designates nothing. *)
Definition KEIN_KANAL : Z := max_value 32.

Inductive Domain := TrustedSas | HardwareLand | UserLand.
#[export] Instance Domain_eq_dec : EqDecision Domain.
Proof. solve_decision. Defined.

Module Pd.
Record t := mk {
  used : bool; thread : option ThreadId.t; nthreads : Z; epoch : Z;
  cspace_start : Z; cspace_len : Z; freilauf_next : Z; cap_budget : Z;
  domain : Domain; partner : option Z; quiescing : bool; backend_id : Z;
  chan_ep : Z; chan_ntfn : Z; irq_ntfn : Z; recv_slot : nat;
  handler_pd : Z; handler_bound : Z; sidecar_used : Z }.
Definition eta (p : t) : t :=
  mk (used p) (thread p) (nthreads p) (epoch p) (cspace_start p) (cspace_len p) (freilauf_next p)
    (cap_budget p) (domain p) (partner p) (quiescing p) (backend_id p) (chan_ep p) (chan_ntfn p)
    (irq_ntfn p) (recv_slot p) (handler_pd p) (handler_bound p) (sidecar_used p).
Definition with_used v p := ltac:(set_field eta used p v).
Definition with_thread v p := ltac:(set_field eta thread p v).
Definition with_nthreads v p := ltac:(set_field eta nthreads p v).
Definition with_epoch v p := ltac:(set_field eta epoch p v).
Definition with_cspace_start v p := ltac:(set_field eta cspace_start p v).
Definition with_cspace_len v p := ltac:(set_field eta cspace_len p v).
Definition with_freilauf_next v p := ltac:(set_field eta freilauf_next p v).
Definition with_cap_budget v p := ltac:(set_field eta cap_budget p v).
Definition with_domain v p := ltac:(set_field eta domain p v).
Definition with_partner v p := ltac:(set_field eta partner p v).
Definition with_quiescing v p := ltac:(set_field eta quiescing p v).
Definition with_backend_id v p := ltac:(set_field eta backend_id p v).
Definition with_chan_ep v p := ltac:(set_field eta chan_ep p v).
Definition with_chan_ntfn v p := ltac:(set_field eta chan_ntfn p v).
Definition with_irq_ntfn v p := ltac:(set_field eta irq_ntfn p v).
Definition with_recv_slot v p := ltac:(set_field eta recv_slot p v).
Definition with_handler_pd v p := ltac:(set_field eta handler_pd p v).
Definition with_handler_bound v p := ltac:(set_field eta handler_bound p v).
Definition with_sidecar_used v p := ltac:(set_field eta sidecar_used p v).
Definition EMPTY : t :=
  mk false None 0 0 0 0 0 (CAP_BUDGET_PER_PD mod 2 ^ 16) TrustedSas None false 0 KEIN_KANAL KEIN_KANAL
    KEIN_KANAL GRANT_RECV_SLOT KEIN_HANDLER_PD 0 0.
Definition anker (p : t) : CspaceAnker.t :=
  CspaceAnker.mk (cspace_start p) (cspace_len p) (freilauf_next p).
Definition with_anker (a : CspaceAnker.t) (p : t) : t :=
  with_freilauf_next (CspaceAnker.naechster a)
    (with_cspace_len (CspaceAnker.len a) (with_cspace_start (CspaceAnker.start a) p)).
End Pd.

Module ThreadOwner.
Record t := mk { tid : Z; pd1 : Z; epoch : Z }.
Definition EMPTY : t := mk 0 0 0.
End ThreadOwner.

(** [impl AnkerAblage for Slab<Pd>] *)
#[export] Instance pd_ablage : AnkerAblage (list Pd.t) := {|
  anzahl := length;
  lese i := gets (λ l, l) ≫= λ l, expect (Pd.anker <$> l !! i);
  schreibe i a := gets (λ l, l) ≫= λ l, expect (l !! i) ≫= λ _, modify (alter (Pd.with_anker a) i) |}.

(** [array_index_nospec] of [src/crates/caprock-hal/src/x86_64/cpu.rs]: the mask is the
    sign of the difference, all ones or zero. *)
Definition as_i64 (z : Z) : Z := if z <? 2 ^ 63 then z else z - 2 ^ 64.
Definition array_index_nospec (index len : Z) : Z :=
  let mask := Z.shiftr (as_i64 (wrapping_sub 64 index len)) 63 mod 2 ^ 64 in
  Z.land index mask.

Module PdTable.
Record t := mk {
  pds : list Pd.t;
  owner : list ThreadOwner.t;
  budget_vorrat : Z;
  budget_abgewiesen : Z;
  cspace_pool : list (option CapPtr.t);
  cspace_vergabe : Vergabe.t;
  budget_deckel : Z;
  deckel_abgewiesen : Z;
  cspace_abgewiesen : Z }.
Definition eta (tb : t) : t :=
  mk (pds tb) (owner tb) (budget_vorrat tb) (budget_abgewiesen tb) (cspace_pool tb) (cspace_vergabe tb)
    (budget_deckel tb) (deckel_abgewiesen tb) (cspace_abgewiesen tb).
Definition with_pds v tb := ltac:(set_field eta pds tb v).
Definition with_owner v tb := ltac:(set_field eta owner tb v).
Definition with_budget_vorrat v tb := ltac:(set_field eta budget_vorrat tb v).
Definition with_budget_abgewiesen v tb := ltac:(set_field eta budget_abgewiesen tb v).
Definition with_cspace_pool v tb := ltac:(set_field eta cspace_pool tb v).
Definition with_cspace_vergabe v tb := ltac:(set_field eta cspace_vergabe tb v).
Definition with_budget_deckel v tb := ltac:(set_field eta budget_deckel tb v).
Definition with_deckel_abgewiesen v tb := ltac:(set_field eta deckel_abgewiesen tb v).
Definition with_cspace_abgewiesen v tb := ltac:(set_field eta cspace_abgewiesen tb v).

Definition new : t := mk [] [] CAP_SLOTS_FOR_ALL_PDS 0 [] Vergabe.neu (CAP_BUDGET_MAX mod 2 ^ 16) 0 0.

(** [self.pds[i]] and the assignments to it; [self.pds.len()]. *)
Definition pd_at (i : nat) : M t Pd.t := gets pds ≫= λ l, expect (l !! i).
Definition upd_pd (i : nat) (f : Pd.t → Pd.t) : M t unit :=
  pd_at i ≫= λ _, modify (λ tb, with_pds (alter f i (pds tb)) tb).
Definition pd_count (tb : t) : nat := length (pds tb).
(** [pd < self.pds.len()] and then [self.pds[pd]]; with [self.pds[pd].used] as well. *)
Definition entry (tb : t) (pd : nat) : option Pd.t := pds tb !! pd.
Definition entry_used (tb : t) (pd : nat) : option Pd.t :=
  match pds tb !! pd with Some p => if Pd.used p then Some p else None | None => None end.

(** The sub-state on which the slot pool works. *)
Definition on_vergabe {B} (m : M (Vergabe.t * list Pd.t) B) : M t B :=
  zoom (λ tb, (cspace_vergabe tb, pds tb)) (λ s tb, with_pds s.2 (with_cspace_vergabe s.1 tb)) m.

(** ** Boot *)

Definition attach (len : nat) (tb : t) : t := with_pds (replicate len Pd.EMPTY) tb.
Definition attach_cspace_pool (len : nat) : M t unit :=
  tb ← gets (λ tb, tb);
  if decide (cspace_pool tb = []) then modify (with_cspace_pool (replicate len None)) else panic.
Definition attach_owner (len : nat) (tb : t) : t := with_owner (replicate len ThreadOwner.EMPTY) tb.

(** ** Creation and release *)

Definition freien_slot_suchen (tb : t) : option nat := position (λ p, negb (Pd.used p)) (pds tb).

Definition pool_len (tb : t) : Z := Z.min (Z.of_nat (length (cspace_pool tb))) (max_value 32).

Definition create_mit_budget_und_cspace (domain : Domain) (budget plaetze : Z) :
    M t (result nat CspaceAbweisung) :=
  tb ← gets (λ tb, tb);
  match anforderung_aufloesen budget plaetze (budget_deckel tb) CAP_BUDGET_PER_PD with
  | Err (DeckelUeberschritten v d) =>
      modify (λ tb, with_deckel_abgewiesen (saturating_add 64 (deckel_abgewiesen tb) 1) tb) ≫= λ _,
      mret (Err (DeckelUeberschritten v d))
  | Err (BudgetPasstNicht b p) =>
      modify (λ tb, with_deckel_abgewiesen (saturating_add 64 (deckel_abgewiesen tb) 1) tb) ≫= λ _,
      mret (Err (BudgetPasstNicht b p))
  | Err e => mret (Err e)
  | Ok anf =>
      if budget_vorrat tb <? Anforderung.budget anf then
        modify (λ tb, with_budget_abgewiesen (saturating_add 64 (budget_abgewiesen tb) 1) tb) ≫= λ _,
        mret (Err (VorratErschoepft (Anforderung.budget anf) (Z.min (budget_vorrat tb) (max_value 32))))
      else
        match freien_slot_suchen tb with
        | None => mret (Err KeinePdFrei)
        | Some i =>
            r ← on_vergabe (Vergabe.belegen (pool_len tb) (Anforderung.plaetze anf));
            match r with
            | Err e =>
                modify (λ tb, with_cspace_abgewiesen (saturating_add 64 (cspace_abgewiesen tb) 1) tb) ≫= λ _,
                mret (Err e)
            | Ok (start, len) =>
                p ← pd_at i;
                let epoch := Pd.epoch p in
                upd_pd i (λ _,
                  Pd.with_freilauf_next 0 (Pd.with_cspace_len len (Pd.with_cspace_start start
                    (Pd.with_cap_budget (Anforderung.budget anf mod 2 ^ 16) (Pd.with_epoch epoch
                      (Pd.with_domain domain (Pd.with_used true Pd.EMPTY))))))) ≫= λ _,
                modify (λ tb, with_budget_vorrat (budget_vorrat tb - Anforderung.budget anf) tb) ≫= λ _,
                mret (Ok i)
            end
        end
  end.

Definition create_mit_budget (domain : Domain) (budget : Z) : M t (option nat) :=
  r ← create_mit_budget_und_cspace domain budget 0;
  mret (match r with Ok i => Some i | Err _ => None end).
Definition create_in_domain (domain : Domain) : M t (option nat) := create_mit_budget domain 0.
Definition create : M t (option nat) := create_in_domain TrustedSas.

Definition create_hardware_backend (partner : nat) (backend_id ep ntfn : Z) : M t (option nat) :=
  tb ← gets (λ tb, tb);
  if decide (pd_count tb ≤ partner)%nat then mret None
  else
    match freien_slot_suchen tb with
    | None => mret None
    | Some i =>
        r ← on_vergabe (Vergabe.belegen (pool_len tb) (Z.of_nat NCAPS));
        match r with
        | Err _ => mret None
        | Ok (start, len) =>
            p ← pd_at i;
            let epoch := Pd.epoch p in
            upd_pd i (λ _,
              Pd.with_freilauf_next 0 (Pd.with_cspace_len len (Pd.with_cspace_start start
                (Pd.with_epoch epoch (Pd.with_chan_ntfn ntfn (Pd.with_chan_ep ep
                  (Pd.with_backend_id backend_id (Pd.with_partner (Some (Z.of_nat partner mod 2 ^ 16))
                    (Pd.with_domain HardwareLand (Pd.with_used true Pd.EMPTY)))))))))) ≫= λ _,
            mret (Some i)
        end
    end.

(** [skip(start).take(len)] of the pool set to [None]. *)
Definition nullen (start len : nat) (pool : list (option CapPtr.t)) : list (option CapPtr.t) :=
  take start pool ++ ((λ _, None) <$> take len (drop start pool)) ++ drop len (drop start pool).

Definition free (pd : nat) : M t bool :=
  tb ← gets (λ tb, tb);
  match entry_used tb pd with
  | None => mret false
  | Some p =>
      let e := wrapping_add 32 (Pd.epoch p) 1 in
      modify (λ tb, with_budget_vorrat
        (Z.min (saturating_add 64 (budget_vorrat tb) (Pd.cap_budget p)) CAP_SLOTS_FOR_ALL_PDS) tb) ≫= λ _,
      modify (λ tb, with_cspace_pool
        (nullen (Z.to_nat (Pd.cspace_start p)) (Z.to_nat (Pd.cspace_len p)) (cspace_pool tb)) tb) ≫= λ _,
      on_vergabe (Vergabe.freigeben pd) ≫= λ _,
      upd_pd pd (λ _, Pd.EMPTY) ≫= λ _,
      upd_pd pd (Pd.with_epoch e) ≫= λ _,
      mret true
  end.

Definition set_budget_deckel (deckel : Z) (tb : t) : t := with_budget_deckel deckel tb.
Definition ablehnungs_bilanz (tb : t) : Z * Z * Z :=
  (budget_abgewiesen tb, deckel_abgewiesen tb, cspace_abgewiesen tb).
Definition budget_of (tb : t) (pd : nat) : Z :=
  match entry_used tb pd with Some p => Pd.cap_budget p | None => 0 end.
Definition budget_bilanz (tb : t) : Z * Z := (budget_vorrat tb, budget_abgewiesen tb).

(** ** The handler graph and the sidecar slots *)

Definition pd_capacity (tb : t) : nat := length (pds tb).
Definition capacity (tb : t) : nat := length (pds tb).

Definition handler_pd_of (tb : t) (pd : nat) : option Z :=
  match entry_used tb pd with
  | Some p => if negb (Pd.handler_pd p =? KEIN_HANDLER_PD) then Some (Pd.handler_pd p) else None
  | None => None
  end.

(** [u64::trailing_ones], [u64::count_ones] *)
Definition trailing_ones (z : Z) : Z :=
  Z.of_nat (default 64%nat (position (λ i, negb (Z.testbit z (Z.of_nat i))) (seq 0 64))).
Definition count_ones (z : Z) : Z := Z.of_nat (count_if (λ i, Z.testbit z (Z.of_nat i)) (seq 0 64)).

Definition sidecar_belegen (handler_pd : nat) : M t (option Z) :=
  tb ← gets (λ tb, tb);
  match entry_used tb handler_pd with
  | None => mret None
  | Some p =>
      let frei := Pd.sidecar_used p in
      if frei =? max_value 64 then mret None
      else
        let slot := trailing_ones frei in
        upd_pd handler_pd (λ p, Pd.with_sidecar_used (Z.lor (Pd.sidecar_used p) (Z.shiftl 1 slot)) p) ≫= λ _,
        mret (Some slot)
  end.

Definition sidecar_freigeben (handler_pd : nat) (slot : Z) : M t bool :=
  tb ← gets (λ tb, tb);
  match entry_used tb handler_pd with
  | None => mret false
  | Some p =>
      if SIDECAR_SLOTS <=? slot then mret false
      else
        let bit := Z.shiftl 1 slot in
        let war := negb (Z.land (Pd.sidecar_used p) bit =? 0) in
        upd_pd handler_pd (λ p, Pd.with_sidecar_used (Z.ldiff (Pd.sidecar_used p) bit) p) ≫= λ _,
        mret war
  end.

Definition sidecar_frei (tb : t) (handler_pd : nat) : Z :=
  match entry_used tb handler_pd with
  | Some p => wrapping_sub 16 SIDECAR_SLOTS (count_ones (Pd.sidecar_used p))
  | None => 0
  end.

Definition handler_kante_setzen (gast : nat) (handler : Z) : M t bool :=
  tb ← gets (λ tb, tb);
  match entry_used tb gast with
  | None => mret false
  | Some _ =>
      upd_pd gast (Pd.with_handler_pd handler) ≫= λ _,
      upd_pd gast (λ p, Pd.with_handler_bound (wrapping_add 32 (Pd.handler_bound p) 1) p) ≫= λ _,
      mret true
  end.

Definition handler_kante_loesen (gast : nat) : M t bool :=
  tb ← gets (λ tb, tb);
  match entry_used tb gast with
  | None => mret false
  | Some p =>
      if Pd.handler_bound p =? 0 then mret false
      else
        upd_pd gast (λ p, Pd.with_handler_bound (wrapping_sub 32 (Pd.handler_bound p) 1) p) ≫= λ _,
        p ← pd_at gast;
        (if Pd.handler_bound p =? 0 then upd_pd gast (Pd.with_handler_pd KEIN_HANDLER_PD) else mret tt) ≫= λ _,
        mret true
  end.

Definition handler_bound_of (tb : t) (pd : nat) : Z :=
  match entry_used tb pd with Some p => Pd.handler_bound p | None => 0 end.
Definition handler_lebt (tb : t) (handler_pd : Z) : bool :=
  match entry_used tb (Z.to_nat handler_pd) with Some p => negb (Pd.quiescing p) | None => false end.

(** ** Properties of a domain *)

Definition set_quiescing (pd : nat) (an : bool) : M t bool :=
  tb ← gets (λ tb, tb);
  match entry_used tb pd with
  | Some p =>
      if bool_decide (Pd.quiescing p = an) then mret false
      else upd_pd pd (Pd.with_quiescing an) ≫= λ _, mret true
  | None => mret false
  end.
Definition is_quiescing (tb : t) (pd : nat) : bool :=
  match entry_used tb pd with Some p => Pd.quiescing p | None => false end.
Definition quiescing_count (tb : t) : nat := count_if (λ p, Pd.used p && Pd.quiescing p) (pds tb).
Definition domain_of (tb : t) (pd : nat) : option Domain := Pd.domain <$> entry_used tb pd.
Definition partner_of (tb : t) (pd : nat) : option nat :=
  p ← entry tb pd; Z.to_nat <$> Pd.partner p.
Definition backend_id_of (tb : t) (pd : nat) : Z :=
  match entry tb pd with Some p => Pd.backend_id p | None => 0 end.
Definition irq_ntfn_of (tb : t) (pd : nat) : Z :=
  match entry tb pd with Some p => Pd.irq_ntfn p | None => KEIN_KANAL end.
Definition set_irq_ntfn (pd : nat) (id : Z) : M t bool :=
  tb ← gets (λ tb, tb);
  match entry_used tb pd with
  | Some _ => upd_pd pd (Pd.with_irq_ntfn id) ≫= λ _, mret true
  | None => mret false
  end.
Definition chan_of (tb : t) (pd : nat) : Z * Z :=
  match entry tb pd with Some p => (Pd.chan_ep p, Pd.chan_ntfn p) | None => (KEIN_KANAL, KEIN_KANAL) end.
Definition used_count (tb : t) : nat := count_if Pd.used (pds tb).
Definition is_used (tb : t) (pd : nat) : bool :=
  match entry tb pd with Some p => Pd.used p | None => false end.
Definition thread_of (tb : t) (pd : nat) : option ThreadId.t := p ← entry tb pd; Pd.thread p.

(** ** The capability slots of a domain *)

Definition cspace_len_von (tb : t) (pd : nat) : nat :=
  match entry_used tb pd with Some p => Z.to_nat (Pd.cspace_len p) | None => 0 end.
Definition cspace_pool_belegt (tb : t) : nat := count_if (λ s, bool_decide (s ≠ None)) (cspace_pool tb).

(** The pool is written at an index within the pool only. *)
Definition pool_put (idx : nat) (c : option CapPtr.t) : M t unit :=
  modify (λ tb, with_cspace_pool (<[idx := c]> (cspace_pool tb)) tb).

Definition install_cap (pd slot : nat) (cap : CapPtr.t) : M t unit :=
  tb ← gets (λ tb, tb);
  match entry tb pd with
  | Some p =>
      if decide (slot < Z.to_nat (Pd.cspace_len p))%nat
      then pool_put (Z.to_nat (Pd.cspace_start p) + slot) (Some cap) else mret tt
  | None => mret tt
  end.

Definition clear_cap (pd slot : nat) : M t unit :=
  tb ← gets (λ tb, tb);
  match entry tb pd with
  | Some p =>
      if decide (slot < Z.to_nat (Pd.cspace_len p))%nat
      then pool_put (Z.to_nat (Pd.cspace_start p) + slot) None else mret tt
  | None => mret tt
  end.

Definition cap_at (tb : t) (pd slot : nat) : option CapPtr.t :=
  let len := cspace_len_von tb pd in
  if decide (slot < len)%nat
  then
    match entry tb pd with
    | Some p =>
        mjoin (cspace_pool tb !! (Z.to_nat (Pd.cspace_start p) +
          Z.to_nat (array_index_nospec (Z.of_nat slot) (Z.of_nat len)))%nat)
    | None => None
    end
  else None.
Definition cap_ptr_at (tb : t) (pd slot : nat) : option CapPtr.t := cap_at tb pd slot.

Definition cap_count (tb : t) (pd : nat) : nat :=
  match entry_used tb pd with
  | Some p =>
      count_if (λ c, bool_decide (c ≠ None))
        (take (Z.to_nat (Pd.cspace_len p)) (drop (Z.to_nat (Pd.cspace_start p)) (cspace_pool tb)))
  | None => 0
  end.

Definition free_cap_slot (tb : t) (pd : nat) : option nat :=
  list_find (λ s, cap_at tb pd s = None) (seq 0 (cspace_len_von tb pd)) ≫= λ '(_, s), Some s.

Definition set_recv_slot (pd slot : nat) : M t bool :=
  tb ← gets (λ tb, tb);
  match entry_used tb pd with
  | Some p =>
      if decide (slot < Z.to_nat (Pd.cspace_len p))%nat
      then upd_pd pd (Pd.with_recv_slot slot) ≫= λ _, mret true else mret false
  | None => mret false
  end.
Definition recv_slot (tb : t) (pd : nat) : nat :=
  match entry_used tb pd with Some p => Pd.recv_slot p | None => GRANT_RECV_SLOT end.
Definition caps_per_pd : nat := NCAPS.

(** The first [NCAPS] places of a domain. *)
Definition caps_of (tb : t) (pd : nat) : list (option CapPtr.t) :=
  match entry_used tb pd with
  | Some p =>
      let l := take (Nat.min (Z.to_nat (Pd.cspace_len p)) NCAPS)
                 (drop (Z.to_nat (Pd.cspace_start p)) (cspace_pool tb)) in
      l ++ replicate (NCAPS - length l) None
  | None => replicate NCAPS None
  end.

(** ** Threads *)

Definition bind_thread (pd : nat) (thread : ThreadId.t) : M t unit :=
  tb ← gets (λ tb, tb);
  if decide (pd_count tb ≤ pd)%nat then mret tt
  else
    let s := ThreadId.slot thread in
    (match owner tb !! s with
     | Some alt =>
         (if negb (ThreadOwner.pd1 alt =? 0) then
            let ap := Z.to_nat (ThreadOwner.pd1 alt - 1) in
            match entry tb ap with
            | Some q =>
                if (Pd.epoch q =? ThreadOwner.epoch alt) && (0 <? Pd.nthreads q)
                then upd_pd ap (λ q, Pd.with_nthreads (wrapping_sub 32 (Pd.nthreads q) 1) q) else mret tt
            | None => mret tt
            end
          else mret tt) ≫= λ _,
         p ← pd_at pd;
         modify (λ tb, with_owner (<[s := ThreadOwner.mk (ThreadId.to_raw thread)
                                           (Z.of_nat (pd + 1) mod 2 ^ 32) (Pd.epoch p)]> (owner tb)) tb) ≫= λ _,
         upd_pd pd (λ p, Pd.with_nthreads (wrapping_add 32 (Pd.nthreads p) 1) p)
     | None => mret tt
     end) ≫= λ _,
    p ← pd_at pd;
    match Pd.thread p with
    | None => upd_pd pd (Pd.with_thread (Some thread))
    | Some _ => mret tt
    end.

Definition pd_of (tb : t) (thread : ThreadId.t) : option nat :=
  let s := ThreadId.slot thread in
  match owner tb with
  | [] => position (λ p, Pd.used p && bool_decide (Pd.thread p = Some thread)) (pds tb)
  | _ :: _ =>
      match owner tb !! s with
      | None => None
      | Some e =>
          if (ThreadOwner.pd1 e =? 0) || negb (ThreadOwner.tid e =? ThreadId.to_raw thread) then None
          else
            let pd := Z.to_nat (ThreadOwner.pd1 e - 1) in
            match entry tb pd with
            | Some p => if Pd.used p && (Pd.epoch p =? ThreadOwner.epoch e) then Some pd else None
            | None => None
            end
      end
  end.
Definition pd_of_thread (tb : t) (thread : ThreadId.t) : option nat := pd_of tb thread.
Definition pd_of_thread_pub (tb : t) (thread : ThreadId.t) : option nat := pd_of tb thread.
Definition owner_len (tb : t) : nat := length (owner tb).

(** The entries of the reverse index that name this occupation of [pd]. *)
Definition owns (p : Pd.t) (pd : nat) (e : ThreadOwner.t) : bool :=
  (ThreadOwner.pd1 e =? Z.of_nat (pd + 1) mod 2 ^ 32) && (ThreadOwner.epoch e =? Pd.epoch p).

Definition any_thread (tb : t) (pd : nat) (praedikat : ThreadId.t → bool) : bool :=
  match entry_used tb pd with
  | None => false
  | Some p =>
      match owner tb with
      | [] => match Pd.thread p with Some th => praedikat th | None => false end
      | _ :: _ =>
          existsb (λ e, owns p pd e && praedikat (ThreadId.from_raw (ThreadOwner.tid e))) (owner tb)
      end
  end.

Definition any_thread_of (tb : t) (pd : nat) : option ThreadId.t :=
  match entry_used tb pd with
  | None => None
  | Some p =>
      match owner tb with
      | [] => Pd.thread p
      | _ :: _ =>
          (λ '(_, e), ThreadId.from_raw (ThreadOwner.tid e)) <$> list_find (λ e, owns p pd e = true) (owner tb)
      end
  end.

Definition thread_count (tb : t) (pd : nat) : Z :=
  match entry_used tb pd with Some p => Pd.nthreads p | None => 0 end.
Definition max_threads_per_pd (tb : t) : Z := foldr (λ p m, Z.max (Pd.nthreads p) m) 0 (pds tb).
End PdTable.
