(* ===== verification/PdSystem.v ===== *)
(** * Protection domains: the invariant and the histories of the table

    What every operation of [PdTable] keeps, and what the operations on the budget, the
    slot pool and the entries do in a table that has it.  Every operation of [PdTable] as a
    step, the histories of steps from boot, and what holds in all of them: nothing panics, the accounts stay well-formed, the budget is
    conserved, and as long as nothing was released no two domains share a slot
    ([src/crates/caprock-microkit/src/lib.rs]).  *)

From S2P Require Import Prelude PanicMonad CapObject SchedData Cspace PdTable.
Import PdTable.
#[local] Open Scope Z_scope.

(** ** The invariant *)

(** The fields of an entry that the accounts of the table are about. *)
Definition kern (p : Pd.t) : bool * CspaceAnker.t * Z := (Pd.used p, Pd.anker p, Pd.cap_budget p).

Record ok (tb : t) : Prop := {
  ok_link i p : pds tb !! i = Some p → Pd.freilauf_next p = 0;
  ok_kopf : Vergabe.kopf (cspace_vergabe tb) = 0 ∨
    ∃ k p, Vergabe.kopf (cspace_vergabe tb) = Z.of_nat k + 1 ∧ pds tb !! k = Some p;
  ok_bump : 0 <= Vergabe.bump (cspace_vergabe tb) <= pool_len tb;
  ok_run i p : pds tb !! i = Some p →
    0 <= Pd.cspace_start p ∧ 0 <= Pd.cspace_len p ∧
    Pd.cspace_start p + Pd.cspace_len p <= Vergabe.bump (cspace_vergabe tb);
  ok_small : Z.of_nat (length (pds tb)) < 2 ^ 32;
  ok_deckel : 0 <= budget_deckel tb < 2 ^ 16;
  ok_budget i p : pds tb !! i = Some p → 0 <= Pd.cap_budget p < 2 ^ 16;
  ok_vorrat : 0 <= budget_vorrat tb <= CAP_SLOTS_FOR_ALL_PDS }.

(** Two tables whose accounts agree. *)
Record same_accounts (tb tb' : t) : Prop := {
  sa_kern : kern <$> pds tb' = kern <$> pds tb;
  sa_vergabe : cspace_vergabe tb' = cspace_vergabe tb;
  sa_pool : length (cspace_pool tb') = length (cspace_pool tb);
  sa_vorrat : budget_vorrat tb' = budget_vorrat tb }.

Lemma kern_lookup (l l' : list Pd.t) i p : kern <$> l' = kern <$> l → l' !! i = Some p →
  ∃ q, l !! i = Some q ∧ kern p = kern q.
Proof.
  intros E Hp. pose proof (list_lookup_fmap kern l i) as E'.
  rewrite <-E, list_lookup_fmap, Hp in E'. cbn [fmap option_fmap option_map] in E'.
  destruct (l !! i) as [q|]; [|done]. exists q. split; [done|]. by apply (inj Some) in E'.
Qed.

Lemma kern_fields p q : kern p = kern q → Pd.used p = Pd.used q ∧ Pd.cspace_start p = Pd.cspace_start q ∧
  Pd.cspace_len p = Pd.cspace_len q ∧ Pd.freilauf_next p = Pd.freilauf_next q ∧ Pd.cap_budget p = Pd.cap_budget q.
Proof. unfold kern, Pd.anker. by intros [= -> -> -> -> ->]. Qed.

Lemma kern_length (l l' : list Pd.t) : kern <$> l' = kern <$> l → length l' = length l.
Proof. intros E. by rewrite <-(length_fmap kern l'), E, length_fmap. Qed.

Lemma kern_alter (l : list Pd.t) i f : (∀ p, kern (f p) = kern p) → kern <$> alter f i l = kern <$> l.
Proof.
  intros Hf. apply list_eq. intros j. rewrite !list_lookup_fmap, lookup_alter_if.
  destruct (l !! j) as [p|]; [|done]. cbn. destruct (decide (i = j)); [by rewrite Hf|done].
Qed.

Lemma ok_same tb tb' : same_accounts tb tb' → 0 <= budget_deckel tb' < 2 ^ 16 → ok tb → ok tb'.
Proof.
  intros [Ek Ev Ep Eb] Hd [H1 H2 H3 H4 H5 H6 H7 H8]. unfold pool_len in *.
  split; rewrite ?Ev, ?Ep, ?Eb, ?(kern_length _ _ Ek); try done.
  - intros i p Hp. destruct (kern_lookup _ _ _ _ Ek Hp) as (q & Hq & (_ & _ & _ & -> & _)%kern_fields). by eapply H1.
  - destruct H2 as [H2|(k & p & H2 & Hp)]; [by left|]. right.
    destruct (lookup_lt_is_Some_2 (pds tb') k) as [p' Hp'].
    { rewrite (kern_length _ _ Ek). by eapply lookup_lt_Some. }
    by exists k, p'.
  - unfold pool_len. rewrite Ep. exact H3.
  - intros i p Hp. destruct (kern_lookup _ _ _ _ Ek Hp) as (q & Hq & (_ & -> & -> & _)%kern_fields). by eapply H4.
  - intros i p Hp. destruct (kern_lookup _ _ _ _ Ek Hp) as (q & Hq & (_ & _ & _ & _ & ->)%kern_fields). by eapply H7.
Qed.

#[export] Instance same_accounts_preorder : PreOrder same_accounts.
Proof.
  split; [done|]. intros a b c [H1 H2 H3 H4] [G1 G2 G3 G4].
  split; [by rewrite G1|by rewrite G2|by rewrite G3|by rewrite G4].
Qed.

(** ** Updating an entry *)

Lemma wp_pd_at i tb p (R : Pd.t → t → Prop) : pds tb !! i = Some p → R p tb → wp (pd_at i) tb R.
Proof. intros Hp HR. apply wp_bind, wp_gets. by eapply wp_expect. Qed.

Lemma wp_upd_pd i f tb p (R : unit → t → Prop) :
  pds tb !! i = Some p → R tt (with_pds (alter f i (pds tb)) tb) → wp (upd_pd i f) tb R.
Proof. intros Hp HR. apply wp_bind. eapply wp_pd_at; [exact Hp|]. by apply wp_modify. Qed.

Lemma entry_used_Some tb pd p : entry_used tb pd = Some p ↔ pds tb !! pd = Some p ∧ Pd.used p = true.
Proof.
  unfold entry_used. destruct (pds tb !! pd) as [q|]; [|by split; [|intros []]].
  destruct (Pd.used q) eqn:E; (split; [by intros [= ->]|]); intros [[= ->] Hu]; [done|congruence].
Qed.

Lemma entry_used_None tb pd : entry_used tb pd = None ↔ ∀ p, pds tb !! pd = Some p → Pd.used p = false.
Proof.
  unfold entry_used. destruct (pds tb !! pd) as [q|]; [|done].
  destruct (Pd.used q) eqn:E; split; try done.
  - intros Hf. specialize (Hf q eq_refl). congruence.
  - by intros _ p [= <-].
Qed.

Lemma alter_at tb i f p : pds tb !! i = Some p → alter f i (pds tb) !! i = Some (f p).
Proof. intros Hp. rewrite list_lookup_alter_eq. by rewrite Hp. Qed.

Lemma same_accounts_upd tb i f : (∀ p, kern (f p) = kern p) → same_accounts tb (with_pds (alter f i (pds tb)) tb).
Proof. intros Hf. split; try done. cbn [with_pds pds]. by apply kern_alter. Qed.

Lemma ok_alter tb i f : ok tb → (∀ p, kern (f p) = kern p) → ok (with_pds (alter f i (pds tb)) tb).
Proof. intros Hok Hf. eapply ok_same; [by apply same_accounts_upd|apply Hok|done]. Qed.

(** ** The slot pool of a table

    The entry the list of the pool begins with, and what the pool hands out. *)
Definition kandidat (tb : t) (n : Z) : option (Z * Z) :=
  if Vergabe.kopf (cspace_vergabe tb) =? 0 then None
  else
    match pds tb !! Z.to_nat (Vergabe.kopf (cspace_vergabe tb) - 1) with
    | Some p => if n <=? Pd.cspace_len p then Some (Pd.cspace_start p, Pd.cspace_len p) else None
    | None => None
    end.

Definition vergeben (tb : t) (n : Z) : result (Z * Z) CspaceAbweisung * t :=
  let v := cspace_vergabe tb in
  match kandidat tb n with
  | Some r => (Ok r, with_cspace_vergabe (Vergabe.with_kopf 0 v) tb)
  | None =>
      if pool_len tb <? Vergabe.bump v + n
      then (Err (PoolErschoepft n (pool_len tb - Vergabe.bump v)), tb)
      else (Ok (Vergabe.bump v, n), with_cspace_vergabe (Vergabe.with_bump (Vergabe.bump v + n) v) tb)
  end.

Lemma pd_lese i (l : list Pd.t) p : l !! i = Some p → lese i l = Some (Pd.anker p, l).
Proof. intros Hp. unfold lese, pd_ablage, gets, mbind, M_bind, expect. by rewrite Hp. Qed.

Lemma pd_schreibe i a (l : list Pd.t) p :
  l !! i = Some p → schreibe i a l = Some (tt, alter (Pd.with_anker a) i l).
Proof. intros Hp. unfold schreibe, pd_ablage, gets, mbind, M_bind, expect, modify. by rewrite Hp. Qed.

Lemma with_anker_id p : Pd.with_anker (Pd.anker p) p = p.
Proof. by destruct p. Qed.

Lemma alter_with_anker_id (l : list Pd.t) i p a :
  l !! i = Some p → a = Pd.anker p → alter (Pd.with_anker a) i l = l.
Proof.
  intros Hp ->. apply list_eq. intros j. rewrite lookup_alter_if. destruct (decide (i = j)) as [<-|].
  - rewrite Hp. cbn. by rewrite with_anker_id.
  - by destruct (l !! j).
Qed.

Lemma with_pds_id tb : with_pds (pds tb) tb = tb.
Proof. by destruct tb. Qed.

(** The entries keep the promise of the interface. *)
#[export] Program Instance pd_laws : AnkerLaws (list Pd.t) := {| anker l := Pd.anker <$> l |}.
Next Obligation. intros l. unfold anzahl, pd_ablage. by rewrite length_fmap. Qed.
Next Obligation.
  intros l i. rewrite list_lookup_fmap. destruct (l !! i) as [p|] eqn:E; cbn [fmap option_fmap option_map].
  - by apply pd_lese.
  - unfold lese, pd_ablage, gets, mbind, M_bind, expect. by rewrite E.
Qed.
Next Obligation.
  intros l i x [p Hp]%lookup_lt_is_Some_2. rewrite list_lookup_fmap in Hp.
  destruct (l !! i) as [q|] eqn:E; [|done]. exists (alter (Pd.with_anker x) i l). split; [by eapply pd_schreibe|].
  apply list_eq. intros j. rewrite list_lookup_fmap, lookup_alter_if. destruct (decide (i = j)) as [<-|Hne].
  - rewrite list_lookup_insert_eq by (rewrite length_fmap; by eapply lookup_lt_Some). rewrite E. by destruct x.
  - rewrite list_lookup_insert_ne by done. rewrite list_lookup_fmap. by destruct (l !! j).
Qed.

Lemma wp_pd_lese i v l p (R : CspaceAnker.t → Vergabe.t * list Pd.t → Prop) :
  l !! i = Some p → R (Pd.anker p) (v, l) → wp (Vergabe.on_ablage (lese i)) (v, l) R.
Proof. intros Hp HR. apply wp_on_ablage. unfold wp. by rewrite (pd_lese _ _ _ Hp). Qed.

Lemma wp_pd_schreibe i a v l p (R : unit → Vergabe.t * list Pd.t → Prop) :
  l !! i = Some p → R tt (v, alter (Pd.with_anker a) i l) → wp (Vergabe.on_ablage (schreibe i a)) (v, l) R.
Proof. intros Hp HR. apply wp_on_ablage. unfold wp. by rewrite (pd_schreibe _ _ _ _ Hp). Qed.

(** The walk of the pool sees the head of the list only. *)
Lemma wp_pd_suche fuel tb n (R : option (Z * Z) → Vergabe.t * list Pd.t → Prop) :
  ok tb → (length (pds tb) < fuel)%nat →
  (kandidat tb n = None → R None (cspace_vergabe tb, pds tb)) →
  (∀ r, kandidat tb n = Some r → R (Some r) (Vergabe.with_kopf 0 (cspace_vergabe tb), pds tb)) →
  wp (Vergabe.suche fuel n 0 (Vergabe.kopf (cspace_vergabe tb))) (cspace_vergabe tb, pds tb) R.
Proof.
  intros Hok Hf Hn Hs. destruct fuel as [|fuel]; [lia|]. unfold kandidat in *.
  cbn [Vergabe.suche]. destruct (ok_kopf _ Hok) as [E|(k & p & E & Hp)]; rewrite E in *.
  { rewrite Z.eqb_refl in *. apply wp_ret. by apply Hn. }
  destruct fuel as [|fuel]; [apply lookup_lt_Some in Hp; lia|]. cbn [Vergabe.suche].
  rewrite (proj2 (Z.eqb_neq (Z.of_nat k + 1) 0)) in * by lia.
  replace (Z.to_nat (Z.of_nat k + 1 - 1)) with k in * by lia. rewrite Hp in Hn, Hs.
  apply wp_bind. eapply wp_pd_lese; [exact Hp|]. cbn [Pd.anker CspaceAnker.len CspaceAnker.naechster CspaceAnker.start].
  pose proof (ok_link _ Hok _ _ Hp) as Hl. rewrite Hl. destruct (n <=? Pd.cspace_len p).
  - rewrite Z.eqb_refl. apply wp_bind, wp_on_vergabe, wp_modify, wp_bind.
    eapply wp_pd_schreibe; [exact Hp|]. apply wp_ret. rewrite (alter_with_anker_id _ _ p); [by apply Hs|done|].
    unfold Pd.anker. by rewrite Hl.
  - rewrite Z.eqb_refl. apply wp_ret. by apply Hn.
Qed.

Lemma wp_vergeben tb n (R : result (Z * Z) CspaceAbweisung → t → Prop) :
  ok tb → 0 < n → R (vergeben tb n).1 (vergeben tb n).2 →
  wp (on_vergabe (Vergabe.belegen (pool_len tb) n)) tb R.
Proof.
  intros Hok Hn HR. apply wp_zoom. unfold vergeben in HR. pose proof (ok_bump _ Hok) as Hb. unfold Vergabe.belegen.
  apply wp_bind, wp_on_vergabe, wp_gets. rewrite (proj2 (Z.eqb_neq n 0)) by lia.
  apply wp_bind, wp_on_ablage, wp_gets, wp_bind.
  assert (∀ tb, with_pds (pds tb) (with_cspace_vergabe (cspace_vergabe tb) tb) = tb) as Eta by by intros [].
  assert (∀ v, with_pds (pds tb) (with_cspace_vergabe v tb) = with_cspace_vergabe v tb) as Eta' by (by destruct tb).
  eapply (wp_pd_suche _ tb); [done| | |].
  - cbn [anzahl pd_ablage snd]. lia.
  - intros E. rewrite E in HR. unfold saturating_sub. rewrite Z.max_r by lia.
    destruct (checked_add 32 _ n) as [e|] eqn:Ec.
    + apply checked_add_Some in Ec as [-> _]. destruct (_ <? _).
      * apply wp_ret. cbn. by rewrite Eta.
      * apply wp_bind, wp_on_vergabe, wp_modify, wp_ret. cbn [fst snd]. by rewrite Eta'.
    + apply checked_add_None in Ec. assert (pool_len tb < 2 ^ 32) by (unfold pool_len, max_value; lia).
      rewrite (proj2 (Z.ltb_lt _ _)) in HR by lia. apply wp_ret. cbn. by rewrite Eta.
  - intros r E. rewrite E in HR. apply wp_ret. cbn [fst snd]. by rewrite Eta'.
Qed.

(** ** Protection domains: creation and release

    [create_mit_budget_und_cspace], [create_hardware_backend] and [free] of
    [src/crates/caprock-microkit/src/lib.rs] on every branch, and that they keep the
    invariant of the table.  *)

(** ** What the slot pool of the table gives out *)

Lemma vergeben_Ok tb n r tb' : ok tb → 0 < n → vergeben tb n = (Ok r, tb') →
  0 <= r.1 ∧ n <= r.2 ∧ r.1 + r.2 <= Vergabe.bump (cspace_vergabe tb') ∧
  tb' = with_cspace_vergabe (cspace_vergabe tb') tb ∧
  Vergabe.bump (cspace_vergabe tb) <= Vergabe.bump (cspace_vergabe tb') <= pool_len tb ∧
  (Vergabe.kopf (cspace_vergabe tb') = 0 ∨ Vergabe.kopf (cspace_vergabe tb') = Vergabe.kopf (cspace_vergabe tb)).
Proof.
  intros Hok Hn. pose proof (ok_bump _ Hok) as Hb. unfold vergeben.
  destruct (kandidat tb n) as [r'|] eqn:E.
  - intros [= -> <-]. unfold kandidat in E. destruct (_ =? 0); [done|].
    destruct (pds tb !! _) as [p|] eqn:Hp; [|done]. destruct (Z.leb_spec n (Pd.cspace_len p)) as [Hl|]; [|done].
    injection E as <-. pose proof (ok_run _ Hok _ _ Hp) as (H1 & H2 & H3). cbn. split_and!; [done..|by destruct tb|lia|lia|by left].
  - destruct (Z.ltb_spec (pool_len tb) (Vergabe.bump (cspace_vergabe tb) + n)); [done|].
    intros [= <- <-]. cbn. split_and!; [lia|lia|lia|by destruct tb|lia|lia|by right].
Qed.

Lemma vergeben_Err tb n e tb' : vergeben tb n = (Err e, tb') →
  tb' = tb ∧ e = PoolErschoepft n (pool_len tb - Vergabe.bump (cspace_vergabe tb)) ∧
  pool_len tb < Vergabe.bump (cspace_vergabe tb) + n ∧ kandidat tb n = None.
Proof.
  unfold vergeben. destruct (kandidat tb n) as [r'|]; [done|].
  destruct (Z.ltb_spec (pool_len tb) (Vergabe.bump (cspace_vergabe tb) + n)); [|done]. by intros [= <- <-].
Qed.

(** ** The entry of a domain at its creation *)
Definition geboren (domain : Domain) (budget : Z) (run : Z * Z) (epoch : Z) : Pd.t :=
  Pd.mk true None 0 epoch run.1 run.2 0 (budget mod 2 ^ 16) domain None false 0 KEIN_KANAL KEIN_KANAL KEIN_KANAL
    GRANT_RECV_SLOT KEIN_HANDLER_PD 0 0.
Definition geboren_backend (partner : nat) (backend_id ep ntfn : Z) (run : Z * Z) (epoch : Z) : Pd.t :=
  Pd.mk true None 0 epoch run.1 run.2 0 CAP_BUDGET_PER_PD HardwareLand (Some (Z.of_nat partner mod 2 ^ 16)) false
    backend_id ep ntfn KEIN_KANAL GRANT_RECV_SLOT KEIN_HANDLER_PD 0 0.

Lemma freien_slot_Some tb i : freien_slot_suchen tb = Some i →
  ∃ p, pds tb !! i = Some p ∧ Pd.used p = false ∧
    ∀ j q, (j < i)%nat → pds tb !! j = Some q → Pd.used q = true.
Proof.
  unfold freien_slot_suchen. rewrite position_Some. intros [(p & Hp & Hu) Hmin]. exists p.
  split_and!; [done|by apply negb_true_iff|]. intros j q Hj Hq. apply negb_false_iff. by eapply Hmin.
Qed.

Lemma freien_slot_None tb : freien_slot_suchen tb = None → ∀ p, p ∈ pds tb → Pd.used p = true.
Proof. unfold freien_slot_suchen. rewrite position_None. intros Hf p Hp. apply negb_false_iff. by apply Hf. Qed.

Lemma alter_const {A} (l : list A) i (x : A) : alter (λ _, x) i l = <[i := x]> l.
Proof.
  apply list_eq. intros j. rewrite lookup_alter_if. destruct (decide (i = j)) as [<-|].
  - destruct (decide (i < length l)%nat).
    + rewrite list_lookup_insert_eq by done. by destruct (lookup_lt_is_Some_2 l i) as [y ->].
    + rewrite !(proj2 (lookup_ge_None _ _)); [done| |]; rewrite ?length_insert; lia.
  - rewrite list_lookup_insert_ne by done. by destruct (l !! j).
Qed.

(** A table in which the entry [i] holds a run that was given out. *)
Definition besetzt (tb : t) (v : Vergabe.t) (i : nat) (p : Pd.t) : t :=
  with_pds (<[i := p]> (pds tb)) (with_cspace_vergabe v tb).

Lemma ok_besetzt tb tb1 n i p q r : ok tb → 0 < n → vergeben tb n = (Ok r, tb1) →
  pds tb !! i = Some q → Pd.anker p = CspaceAnker.mk r.1 r.2 0 → 0 <= Pd.cap_budget p < 2 ^ 16 →
  ok (besetzt tb (cspace_vergabe tb1) i p).
Proof.
  intros Hok Hn Hv Hq Ha Hb. pose proof (vergeben_Ok _ _ _ _ Hok Hn Hv) as (H1 & H2 & H3 & _ & H4 & H5).
  pose proof Hok as [O1 O2 O3 O4 O5 O6 O7 O8]. injection Ha as As Al An.
  assert (∀ j x, <[i := p]> (pds tb) !! j = Some x → x = p ∨ pds tb !! j = Some x) as Hcase.
  { intros j x. destruct (decide (i = j)) as [<-|Hne].
    - rewrite list_lookup_insert_eq by (by eapply lookup_lt_Some). intros [= <-]. by left.
    - rewrite list_lookup_insert_ne by done. by right. }
  assert (∀ k x, pds tb !! k = Some x → ∃ y, <[i := p]> (pds tb) !! k = Some y) as Hex.
  { intros k x Hx. apply lookup_lt_is_Some_2. rewrite length_insert. by eapply lookup_lt_Some. }
  split; unfold besetzt; cbn [with_pds with_cspace_vergabe pds cspace_vergabe budget_deckel budget_vorrat].
  - intros j x [->|Hx]%Hcase; [done|by eapply O1].
  - destruct H5 as [->| ->]; [by left|]. destruct O2 as [O2|(k & x & O2 & Hx)]; [by left|right].
    destruct (Hex k x Hx) as [y Hy]. by exists k, y.
  - unfold pool_len in *. cbn. lia.
  - intros j x [->|Hx]%Hcase; [lia|]. specialize (O4 _ _ Hx). lia.
  - by rewrite length_insert.
  - done.
  - intros j x [->|Hx]%Hcase; [done|by eapply O7].
  - done.
Qed.

Lemma ok_same_but tb f : ok tb → same_accounts tb (f tb) → budget_deckel (f tb) = budget_deckel tb → ok (f tb).
Proof. intros Hok Hs E. eapply ok_same; [exact Hs|rewrite E; apply Hok|done]. Qed.

Lemma ok_vorrat_set tb b : ok tb → 0 <= b <= CAP_SLOTS_FOR_ALL_PDS → ok (with_budget_vorrat b tb).
Proof. intros [H1 H2 H3 H4 H5 H6 H7 H8] Hb. by split. Qed.

(** ** Creation *)

(** The outcome of a creation, branch by branch. *)
Definition created (tb : t) (domain : Domain) (budget_roh plaetze_roh : Z)
    (r : result nat CspaceAbweisung) (tb' : t) : Prop :=
  let budget := if budget_roh =? 0 then CAP_BUDGET_PER_PD else budget_roh in
  let plaetze := if plaetze_roh =? 0 then STANDARD_PLAETZE else plaetze_roh in
  let v := cspace_vergabe tb in
  match r with
  | Err (DeckelUeberschritten b d) =>
      b = budget ∧ d = budget_deckel tb ∧ d < b ∧
      tb' = with_deckel_abgewiesen (saturating_add 64 (deckel_abgewiesen tb) 1) tb
  | Err (BudgetPasstNicht b p) =>
      b = budget ∧ p = plaetze ∧ b <= budget_deckel tb ∧ p < b ∧
      tb' = with_deckel_abgewiesen (saturating_add 64 (deckel_abgewiesen tb) 1) tb
  | Err (VorratErschoepft b w) =>
      b = budget ∧ w = budget_vorrat tb ∧ b <= budget_deckel tb ∧ b <= plaetze ∧ w < b ∧
      tb' = with_budget_abgewiesen (saturating_add 64 (budget_abgewiesen tb) 1) tb
  | Err KeinePdFrei =>
      budget <= budget_vorrat tb ∧ (∀ p, p ∈ pds tb → Pd.used p = true) ∧ tb' = tb
  | Err (PoolErschoepft n frei) =>
      n = plaetze ∧ frei = pool_len tb - Vergabe.bump v ∧ frei < n ∧ kandidat tb n = None ∧
      tb' = with_cspace_abgewiesen (saturating_add 64 (cspace_abgewiesen tb) 1) tb
  | Ok i =>
      budget <= budget_deckel tb ∧ budget <= plaetze ∧ budget <= budget_vorrat tb ∧
      ∃ p run tb1, pds tb !! i = Some p ∧ Pd.used p = false ∧
        (∀ j q, (j < i)%nat → pds tb !! j = Some q → Pd.used q = true) ∧
        vergeben tb plaetze = (Ok run, tb1) ∧
        tb' = with_budget_vorrat (budget_vorrat tb - budget)
                (besetzt tb (cspace_vergabe tb1) i (geboren domain budget run (Pd.epoch p)))
  end.

Lemma with_vergabe_besetzt tb tb1 i p : tb1 = with_cspace_vergabe (cspace_vergabe tb1) tb →
  with_pds (<[i := p]> (pds tb1)) tb1 = besetzt tb (cspace_vergabe tb1) i p.
Proof. intros ->. done. Qed.

Lemma wp_create tb domain b pl : ok tb → 0 <= b → 0 <= pl →
  wp (create_mit_budget_und_cspace domain b pl) tb (λ r tb', created tb domain b pl r tb' ∧ ok tb').
Proof.
  intros Hok Hb Hpl. pose proof (anforderung_exact b pl (budget_deckel tb) CAP_BUDGET_PER_PD) as Ha.
  unfold create_mit_budget_und_cspace, created. cbv zeta in *. apply wp_bind, wp_gets.
  set (budget := if b =? 0 then _ else _) in *. set (plaetze := if pl =? 0 then _ else _) in *.
  assert (0 <= budget) by (unfold budget, CAP_BUDGET_PER_PD; zcases; lia).
  assert (0 < plaetze) as Hn by (unfold plaetze, STANDARD_PLAETZE; zcases; lia).
  destruct (anforderung_aufloesen _ _ _ _) as [anf|[| | | |]]; [|try done..].
  - destruct Ha as (-> & H1 & H2). cbn [Anforderung.budget Anforderung.plaetze].
    pose proof (ok_vorrat _ Hok) as Hvor. destruct (Z.ltb_spec (budget_vorrat tb) budget) as [Hlt|Hge].
    { apply wp_bind, wp_modify, wp_ret. split; [|by eapply ok_same_but].
      unfold CAP_SLOTS_FOR_ALL_PDS, NPDS, CAP_BUDGET_PER_PD in Hvor.
      split_and!; try done; unfold max_value; lia. }
    destruct (freien_slot_suchen tb) as [i|] eqn:Ei.
    2:{ apply wp_ret. split_and!; try done. by apply freien_slot_None. }
    destruct (freien_slot_Some _ _ Ei) as (p & Hp & Hu & Hmin).
    apply wp_bind, wp_vergeben; [done|done|]. destruct (vergeben tb plaetze) as [[run|e] tb1] eqn:Ev; cbn [fst snd].
    + pose proof (vergeben_Ok _ _ _ _ Hok Hn Ev) as (_ & _ & _ & Etb & _). destruct run as [start len].
      assert (pds tb1 !! i = Some p) as Hp1 by (by rewrite Etb).
      apply wp_bind. eapply wp_pd_at; [exact Hp1|]. apply wp_bind. eapply wp_upd_pd; [exact Hp1|].
      apply wp_bind, wp_modify, wp_ret. rewrite alter_const, (with_vergabe_besetzt tb) by done.
      assert (ok (besetzt tb (cspace_vergabe tb1) i (geboren domain budget (start, len) (Pd.epoch p)))) as Hok1.
      { eapply ok_besetzt; [done|exact Hn|exact Ev|exact Hp|done|]. cbn. apply Z.mod_pos_bound. lia. }
      split; [|apply ok_vorrat_set; [exact Hok1|cbn; lia]].
      split_and!; try done. by exists p, (start, len), tb1.
    + apply vergeben_Err in Ev as (-> & -> & Hlt & Hk). apply wp_bind, wp_modify, wp_ret.
      split; [|by eapply ok_same_but]. split_and!; try done. lia.
  - destruct Ha as (-> & -> & H1). apply wp_bind, wp_modify, wp_ret. split; [by split_and!|by eapply ok_same_but].
  - destruct Ha as (-> & -> & H1 & H2). apply wp_bind, wp_modify, wp_ret. split; [by split_and!|by eapply ok_same_but].
Qed.

(** The outcome of the creation of a hardware backend: nothing is booked. *)
Definition backend_created (tb : t) (partner : nat) (backend_id ep ntfn : Z) (r : option nat) (tb' : t) : Prop :=
  match r with
  | Some i => (partner < length (pds tb))%nat ∧
      ∃ p run tb1, pds tb !! i = Some p ∧ Pd.used p = false ∧
        (∀ j q, (j < i)%nat → pds tb !! j = Some q → Pd.used q = true) ∧
        vergeben tb STANDARD_PLAETZE = (Ok run, tb1) ∧
        tb' = besetzt tb (cspace_vergabe tb1) i (geboren_backend partner backend_id ep ntfn run (Pd.epoch p))
  | None => tb' = tb ∧
      ((length (pds tb) ≤ partner)%nat ∨ (∀ p, p ∈ pds tb → Pd.used p = true) ∨
       pool_len tb < Vergabe.bump (cspace_vergabe tb) + STANDARD_PLAETZE ∧ kandidat tb STANDARD_PLAETZE = None)
  end.

Lemma wp_create_backend tb partner id ep ntfn : ok tb →
  wp (create_hardware_backend partner id ep ntfn) tb
    (λ r tb', backend_created tb partner id ep ntfn r tb' ∧ ok tb').
Proof.
  intros Hok. unfold create_hardware_backend, backend_created. apply wp_bind, wp_gets. unfold pd_count.
  case_decide as Hp; [apply wp_ret; split; [split; [done|by left]|done]|].
  destruct (freien_slot_suchen tb) as [i|] eqn:Ei.
  2:{ apply wp_ret. split; [|done]. split; [done|]. right; left. by apply freien_slot_None. }
  destruct (freien_slot_Some _ _ Ei) as (p & Hpi & Hu & Hmin).
  change (Z.of_nat NCAPS) with STANDARD_PLAETZE. assert (0 < STANDARD_PLAETZE) as Hn by done.
  apply wp_bind, wp_vergeben; [done|done|]. destruct (vergeben tb STANDARD_PLAETZE) as [[[start len]|e] tb1] eqn:Ev.
  - pose proof (vergeben_Ok _ _ _ _ Hok Hn Ev) as (_ & _ & _ & Etb & _). cbn [fst snd].
    assert (pds tb1 !! i = Some p) as Hp1 by (by rewrite Etb).
    apply wp_bind. eapply wp_pd_at; [exact Hp1|]. apply wp_bind. eapply wp_upd_pd; [exact Hp1|].
    apply wp_ret. rewrite alter_const, (with_vergabe_besetzt tb) by done. split.
    + split; [lia|]. by exists p, (start, len), tb1.
    + eapply ok_besetzt; [done|exact Hn|exact Ev|exact Hpi|done|done].
  - apply vergeben_Err in Ev as (-> & -> & Hlt & Hk). apply wp_ret. split; [|done]. split; [done|]. by right; right.
Qed.

(** ** Release *)

Definition freed (tb : t) (pd : nat) (p : Pd.t) : t :=
  with_pds (<[pd := Pd.with_epoch (wrapping_add 32 (Pd.epoch p) 1) Pd.EMPTY]> (pds tb))
    (with_cspace_vergabe (Vergabe.with_kopf (Z.of_nat pd + 1) (cspace_vergabe tb))
       (with_cspace_pool (nullen (Z.to_nat (Pd.cspace_start p)) (Z.to_nat (Pd.cspace_len p)) (cspace_pool tb))
          (with_budget_vorrat (Z.min (budget_vorrat tb + Pd.cap_budget p) CAP_SLOTS_FOR_ALL_PDS) tb))).

Lemma length_nullen s n l : length (nullen s n l) = length l.
Proof. unfold nullen. rewrite !length_app, length_fmap, length_take, length_take, !length_drop. lia. Qed.

Lemma lookup_nullen s n l i :
  nullen s n l !! i = if decide (s ≤ i < s + n)%nat then (λ _, None) <$> l !! i else l !! i.
Proof.
  unfold nullen. destruct (decide (i < s)%nat) as [Hlt|Hge].
  { rewrite decide_False by lia. destruct (decide (i < length l)%nat).
    - rewrite lookup_app_l by (rewrite length_take; lia). by rewrite lookup_take_lt.
    - rewrite (proj2 (lookup_ge_None l i)) by lia. apply lookup_ge_None.
      rewrite !length_app, length_fmap, length_take, length_take, !length_drop. lia. }
  destruct (decide (s ≤ length l)%nat) as [Hs|Hs].
  2:{ rewrite !(proj2 (lookup_ge_None l i)) by lia. rewrite (proj2 (lookup_ge_None _ i)).
      - by case_decide.
      - rewrite !length_app, length_fmap, length_take, length_take, !length_drop. lia. }
  rewrite lookup_app_r by (rewrite length_take; lia). rewrite length_take, Nat.min_l by lia.
  destruct (decide (i - s < n)%nat) as [Hin|Hin].
  - rewrite decide_True by lia. destruct (decide (i < length l)%nat).
    + rewrite lookup_app_l by (rewrite length_fmap, length_take, length_drop; lia).
      rewrite list_lookup_fmap, lookup_take_lt by done. rewrite lookup_drop. do 2 f_equal. lia.
    + rewrite (proj2 (lookup_ge_None l i)) by lia. apply lookup_ge_None.
      rewrite !length_app, length_fmap, length_take, !length_drop. lia.
  - rewrite decide_False by lia. rewrite lookup_app_r by (rewrite length_fmap, length_take; lia).
    rewrite length_fmap, length_take, length_drop, lookup_drop, lookup_drop.
    destruct (decide (i < length l)%nat); [f_equal; lia|]. rewrite !(proj2 (lookup_ge_None l _)); [done|lia|lia].
Qed.

Lemma ok_freed tb pd p : ok tb → pds tb !! pd = Some p → ok (freed tb pd p).
Proof.
  intros Hok Hp. pose proof Hok as [O1 O2 O3 O4 O5 O6 O7 O8]. pose proof (ok_budget _ Hok _ _ Hp) as Hb.
  assert (∀ j x, pds (freed tb pd p) !! j = Some x →
    x = Pd.with_epoch (wrapping_add 32 (Pd.epoch p) 1) Pd.EMPTY ∨ pds tb !! j = Some x) as Hcase.
  { intros j x. cbn. destruct (decide (pd = j)) as [<-|Hne].
    - rewrite list_lookup_insert_eq by (by eapply lookup_lt_Some). intros [= <-]. by left.
    - rewrite list_lookup_insert_ne by done. by right. }
  split.
  - intros j x [->|Hx]%Hcase; [done|by eapply O1].
  - right. exists pd, (Pd.with_epoch (wrapping_add 32 (Pd.epoch p) 1) Pd.EMPTY). split; [done|].
    cbn. by rewrite list_lookup_insert_eq by (by eapply lookup_lt_Some).
  - unfold pool_len in *. cbn. by rewrite length_nullen.
  - intros j x [->|Hx]%Hcase; [cbn; lia|by eapply O4].
  - cbn. by rewrite length_insert.
  - done.
  - intros j x [->|Hx]%Hcase; [done|by eapply O7].
  - cbn. lia.
Qed.

Lemma wp_free tb pd (R : bool → t → Prop) : ok tb →
  (entry_used tb pd = None → R false tb) →
  (∀ p, pds tb !! pd = Some p → Pd.used p = true → R true (freed tb pd p)) → wp (free pd) tb R.
Proof.
  intros Hok Hno Hyes. unfold free. apply wp_bind, wp_gets. destruct (entry_used tb pd) as [p|] eqn:E.
  2:{ apply wp_ret. by apply Hno. }
  apply entry_used_Some in E as [Hp Hu]. specialize (Hyes p Hp Hu). pose proof (lookup_lt_Some _ _ _ Hp) as Hlt.
  pose proof (ok_small _ Hok). pose proof (ok_vorrat _ Hok). pose proof (ok_budget _ Hok _ _ Hp).
  apply wp_bind, wp_modify, wp_bind, wp_modify, wp_bind, wp_zoom. unfold Vergabe.freigeben.
  apply wp_bind, wp_on_vergabe, wp_gets, wp_bind. eapply wp_pd_lese; [exact Hp|].
  apply wp_bind. eapply wp_pd_schreibe; [exact Hp|]. apply wp_on_vergabe, wp_modify. cbn [fst snd].
  set (tb1 := with_pds _ _). assert (∃ q, pds tb1 !! pd = Some q) as [q Hq].
  { unfold tb1. cbn. exists (Pd.with_anker (CspaceAnker.with_naechster (Vergabe.kopf (cspace_vergabe tb)) (Pd.anker p)) p).
    by apply alter_at. }
  apply wp_bind. eapply wp_upd_pd; [exact Hq|]. set (tb2 := with_pds _ tb1).
  assert (pds tb2 !! pd = Some Pd.EMPTY) as Hq2.
  { unfold tb2. cbn [with_pds pds]. rewrite alter_const. apply list_lookup_insert_eq.
    by eapply lookup_lt_Some. }
  apply wp_bind. eapply wp_upd_pd; [exact Hq2|]. apply wp_ret.
  replace (with_pds _ tb2) with (freed tb pd p); [done|]. unfold freed, tb2, tb1.
  destruct tb as [ps ow bv ba cp cv bd da ca].
  cbv [with_pds with_cspace_vergabe with_cspace_pool with_budget_vorrat pds owner budget_vorrat budget_abgewiesen
    cspace_pool cspace_vergabe budget_deckel deckel_abgewiesen cspace_abgewiesen] in *.
  assert (saturating_add 64 bv (Pd.cap_budget p) = bv + Pd.cap_budget p) as ->.
  { unfold saturating_add. unfold CAP_SLOTS_FOR_ALL_PDS, NPDS, CAP_BUDGET_PER_PD in *. lia. }
  rewrite (Z.mod_small (Z.of_nat pd)) by lia. rewrite (wrapping_add_exact 32 (Z.of_nat pd)) by (unfold in_width; lia).
  f_equal.
  apply list_eq. intros j. rewrite !lookup_alter_if. destruct (decide (pd = j)) as [<-|Hne].
  - rewrite list_lookup_insert_eq by done. by rewrite Hp.
  - rewrite list_lookup_insert_ne by done. by destruct (ps !! j).
Qed.


Inductive op :=
| Create (domain : Domain) (budget plaetze : Z)
| Backend (partner : nat) (backend_id ep ntfn : Z)
| Free (pd : nat)
| Deckel (deckel : Z)
| Install (pd slot : nat) (cap : CapPtr.t)
| Clear (pd slot : nat)
| Bind (pd : nat) (thread : ThreadId.t)
| RecvSlot (pd slot : nat)
| Quiesce (pd : nat) (an : bool)
| SidecarTake (handler : nat)
| SidecarGive (handler : nat) (slot : Z)
| EdgeSet (gast : nat) (handler : Z)
| EdgeDrop (gast : nat)
| IrqNtfn (pd : nat) (id : Z).

Definition ignore {A} (m : M t A) : M t unit := m ≫= λ _, mret tt.

Definition step (o : op) : M t unit :=
  match o with
  | Create d b p => ignore (create_mit_budget_und_cspace d b p)
  | Backend p id ep ntfn => ignore (create_hardware_backend p id ep ntfn)
  | Free pd => ignore (free pd)
  | Deckel d => modify (set_budget_deckel d)
  | Install pd slot cap => install_cap pd slot cap
  | Clear pd slot => clear_cap pd slot
  | Bind pd th => bind_thread pd th
  | RecvSlot pd slot => ignore (set_recv_slot pd slot)
  | Quiesce pd an => ignore (set_quiescing pd an)
  | SidecarTake h => ignore (sidecar_belegen h)
  | SidecarGive h s => ignore (sidecar_freigeben h s)
  | EdgeSet g h => ignore (handler_kante_setzen g h)
  | EdgeDrop g => ignore (handler_kante_loesen g)
  | IrqNtfn pd id => ignore (set_irq_ntfn pd id)
  end.

(** The arguments have the widths of the source's types. *)
Definition fits (o : op) : Prop :=
  match o with
  | Create _ b p => 0 <= b < 2 ^ 16 ∧ 0 <= p < 2 ^ 32
  | Deckel d => 0 <= d < 2 ^ 16
  | _ => True
  end.

Fixpoint run (l : list op) : M t unit :=
  match l with
  | [] => mret tt
  | o :: l => step o ≫= λ _, run l
  end.

(** A table after boot: [n] domains, [k] thread slots, a pool of [m] capability slots. *)
Definition boot (n k m : nat) : t :=
  with_cspace_pool (replicate m None) (attach_owner k (attach n new)).

Lemma boot_attach n k m : attach_cspace_pool m (attach_owner k (attach n new)) = Some (tt, boot n k m).
Proof. reflexivity. Qed.

Lemma boot_entry n k m i p : pds (boot n k m) !! i = Some p → p = Pd.EMPTY.
Proof. by intros [-> _]%lookup_replicate. Qed.

Lemma boot_ok n k m : Z.of_nat n < 2 ^ 32 → ok (boot n k m).
Proof.
  intros Hn. split.
  - by intros i p ->%boot_entry.
  - by left.
  - unfold pool_len, boot, max_value. cbn -[Z.of_nat]. lia.
  - intros i p ->%boot_entry. cbn. lia.
  - cbn -[Z.of_nat]. by rewrite length_replicate.
  - done.
  - by intros i p ->%boot_entry.
  - done.
Qed.

(** ** Steps that leave the accounts alone *)

Definition quiet (tb tb' : t) : Prop := same_accounts tb tb' ∧ budget_deckel tb' = budget_deckel tb.

#[export] Instance quiet_preorder : PreOrder quiet.
Proof.
  split; [by split|]. intros a b c [H1 H2] [H3 H4]. split; [by etrans|congruence].
Qed.

Lemma quiet_ok tb tb' : quiet tb tb' → ok tb → ok tb'.
Proof. intros [Hs Hd] Hok. eapply ok_same; [exact Hs|rewrite Hd; apply Hok|done]. Qed.

Lemma quiet_entry tb tb' i : quiet tb tb' → is_Some (pds tb !! i) → is_Some (pds tb' !! i).
Proof. intros [[Hk _ _ _] _]. rewrite !lookup_lt_is_Some. by rewrite (kern_length _ _ Hk). Qed.

Lemma wp_quiet_upd i f tb0 tb (R : unit → t → Prop) :
  quiet tb0 tb → is_Some (pds tb !! i) → (∀ p, kern (f p) = kern p) →
  (∀ tb', quiet tb0 tb' → is_Some (pds tb' !! i) → R tt tb') → wp (upd_pd i f) tb R.
Proof.
  intros Hq [p Hp] Hf HR. eapply wp_upd_pd; [exact Hp|].
  assert (quiet tb (with_pds (alter f i (pds tb)) tb)) as Hq'.
  { split; [by apply same_accounts_upd|done]. }
  apply HR; [by etrans|]. by eapply quiet_entry.
Qed.

Lemma wp_quiet_entry {B} tb pd (m : Pd.t → M t B) (m0 : M t B) (R : B → t → Prop) :
  wp m0 tb R → (∀ p, is_Some (pds tb !! pd) → wp (m p) tb R) →
  wp (match entry_used tb pd with Some p => m p | None => m0 end) tb R.
Proof.
  intros H0 Hm. destruct (entry_used tb pd) as [p|] eqn:E; [|done].
  apply Hm. apply entry_used_Some in E as [Hp _]. by exists p.
Qed.

Lemma wp_quiet_put idx c tb (R : unit → t → Prop) :
  (∀ tb', quiet tb tb' → R tt tb') → wp (pool_put idx c) tb R.
Proof.
  intros HR. apply wp_modify, HR. split; [|done]. split; try done. cbn. by rewrite length_insert.
Qed.

Ltac quiet_upd := eapply wp_quiet_upd; [eassumption|eassumption|by intros []|]; intros ? ? ?.
Ltac quiet_steps := repeat first [ apply wp_bind; quiet_upd | quiet_upd | apply wp_ret ]; assumption.

Lemma wp_bind_old ap (e : Z) tb0 tb (R : unit → t → Prop) : quiet tb0 tb →
  (∀ tb', quiet tb0 tb' → R tt tb') →
  wp (match entry tb ap with
      | Some q => if (Pd.epoch q =? e) && (0 <? Pd.nthreads q)
          then upd_pd ap (λ q, Pd.with_nthreads (wrapping_sub 32 (Pd.nthreads q) 1) q) else mret tt
      | None => mret tt
      end) tb R.
Proof.
  intros Hq HR. unfold entry. destruct (pds tb !! ap) as [q|] eqn:Hp; [|by apply wp_ret, HR].
  destruct (_ && _); [|by apply wp_ret, HR]. assert (is_Some (pds tb !! ap)) by (by exists q).
  quiet_upd. by apply HR.
Qed.

Lemma quiet_bind_thread pd th tb : wp (bind_thread pd th) tb (λ _ tb', quiet tb tb').
Proof.
  unfold bind_thread. apply wp_bind, wp_gets. unfold pd_count. case_decide as Hpd; [by apply wp_ret|].
  assert (is_Some (pds tb !! pd)) as Hsome by (apply lookup_lt_is_Some; lia).
  apply wp_bind. assert (∀ tb1, quiet tb tb1 →
    wp (pd_at pd ≫= λ p, match Pd.thread p with
                         | None => upd_pd pd (Pd.with_thread (Some th)) | Some _ => mret tt end) tb1
      (λ _ tb', quiet tb tb')) as Hlast.
  { intros tb1 Hq. assert (is_Some (pds tb1 !! pd)) as [p Hp] by (by eapply quiet_entry).
    apply wp_bind. eapply wp_pd_at; [exact Hp|]. destruct (Pd.thread p); [by apply wp_ret|].
    eapply wp_quiet_upd; [exact Hq|by exists p|by intros []|]. by intros tb' Hq' _. }
  destruct (owner tb !! ThreadId.slot th) as [alt|]; [|by apply wp_ret, Hlast].
  apply wp_bind. assert (∀ tb1, quiet tb tb1 →
    wp (pd_at pd ≫= λ p,
        modify (λ tb, with_owner (<[ThreadId.slot th := ThreadOwner.mk (ThreadId.to_raw th)
          (Z.of_nat (pd + 1) mod 2 ^ 32) (Pd.epoch p)]> (owner tb)) tb) ≫= λ _,
        upd_pd pd (λ p, Pd.with_nthreads (wrapping_add 32 (Pd.nthreads p) 1) p)) tb1
      (λ _ tb2, wp (pd_at pd ≫= λ p, match Pd.thread p with
                         | None => upd_pd pd (Pd.with_thread (Some th)) | Some _ => mret tt end) tb2
      (λ _ tb', quiet tb tb'))) as Hmid.
  { intros tb1 Hq. assert (is_Some (pds tb1 !! pd)) as [p Hp] by (by eapply quiet_entry).
    apply wp_bind. eapply wp_pd_at; [exact Hp|]. apply wp_bind, wp_modify.
    eapply (wp_quiet_upd _ _ tb1); [by split|by exists p|by intros []|].
    intros tb2 Hq2 _. apply Hlast. by etrans. }
  destruct (negb _); [|by apply wp_ret, Hmid]. eapply wp_bind_old; [reflexivity|exact Hmid].
Qed.

Definition quiet_op (o : op) : bool :=
  match o with Create _ _ _ | Backend _ _ _ _ | Free _ | Deckel _ => false | _ => true end.

Lemma wp_quiet_step o tb : quiet_op o = true → wp (step o) tb (λ _ tb', quiet tb tb').
Proof.
  assert (quiet tb tb) as Hq by done.
  destruct o as [| | | |pd slot cap|pd slot|pd th|pd slot|pd an|h|h s|g h|g|pd id]; intros Ho; try done;
    cbn [step]; unfold ignore.
  - unfold install_cap. apply wp_bind, wp_gets. destruct (entry tb pd) as [p|]; [|by apply wp_ret].
    case_decide; [by apply wp_quiet_put|by apply wp_ret].
  - unfold clear_cap. apply wp_bind, wp_gets. destruct (entry tb pd) as [p|]; [|by apply wp_ret].
    case_decide; [by apply wp_quiet_put|by apply wp_ret].
  - apply quiet_bind_thread.
  - unfold set_recv_slot. apply wp_bind, wp_bind, wp_gets, wp_quiet_entry; [by apply wp_ret|]. intros p Hp.
    case_decide; quiet_steps.
  - unfold set_quiescing. apply wp_bind, wp_bind, wp_gets, wp_quiet_entry; [by apply wp_ret|]. intros p Hp.
    case_bool_decide; quiet_steps.
  - unfold sidecar_belegen. apply wp_bind, wp_bind, wp_gets, wp_quiet_entry; [by apply wp_ret|]. intros p Hp.
    destruct (_ =? _); quiet_steps.
  - unfold sidecar_freigeben. apply wp_bind, wp_bind, wp_gets, wp_quiet_entry; [by apply wp_ret|]. intros p Hp.
    destruct (_ <=? _); quiet_steps.
  - unfold handler_kante_setzen. apply wp_bind, wp_bind, wp_gets, wp_quiet_entry; [by apply wp_ret|]. intros p Hp.
    quiet_steps.
  - unfold handler_kante_loesen. apply wp_bind, wp_bind, wp_gets, wp_quiet_entry; [by apply wp_ret|]. intros p Hp.
    destruct (_ =? 0); [quiet_steps|]. apply wp_bind; quiet_upd.
    match goal with Hs : is_Some (pds ?x !! g) |- wp _ ?x _ => destruct Hs as [q Hg] end.
    apply wp_bind. eapply wp_pd_at; [exact Hg|]. apply wp_bind.
    destruct (_ =? 0); [|quiet_steps]. eapply wp_quiet_upd; [eassumption|by exists q|by intros []|].
    intros tb2 Hq2 _. quiet_steps.
  - unfold set_irq_ntfn. apply wp_bind, wp_bind, wp_gets, wp_quiet_entry; [by apply wp_ret|]. intros p Hp. quiet_steps.
Qed.

(** ** Every history runs, and keeps the invariant *)

Lemma wp_step o tb : ok tb → fits o → wp (step o) tb (λ _ tb', ok tb').
Proof.
  intros Hok Hf. destruct (quiet_op o) eqn:Ho.
  { eapply wp_mono; [by apply wp_quiet_step|]. intros [] tb' Hq. by eapply quiet_ok. }
  destruct o as [d b p|p id ep ntfn|pd|d| | | | | | | | | |]; try done; cbn [step]; unfold ignore; try apply wp_bind.
  - destruct Hf as [[Hb _] [Hp _]]. eapply wp_mono; [by apply wp_create|]. intros r tb' [_ Hok']. by apply wp_ret.
  - eapply wp_mono; [by apply wp_create_backend|]. intros r tb' [_ Hok']. by apply wp_ret.
  - apply wp_free; [done| |].
    + intros _. by apply wp_ret.
    + intros p Hp _. apply wp_ret. by apply ok_freed.
  - apply wp_modify. destruct Hok as [H1 H2 H3 H4 H5 H6 H7 H8]. by split.
Qed.

Lemma wp_history (I : t → Prop) l tb :
  (∀ o tb, o ∈ l → ok tb → I tb → wp (step o) tb (λ _ tb', ok tb' → I tb')) →
  Forall fits l → ok tb → I tb → wp (run l) tb (λ _ tb', ok tb' ∧ I tb').
Proof.
  intros HI Hf. revert tb HI. induction Hf as [|o l Ho _ IH]; intros tb HI Hok Hi; cbn [run]; [by apply wp_ret|].
  apply wp_bind. assert (wp (step o) tb (λ _ tb', ok tb' → I tb')) as Hstep by (apply HI; [by left|done|done]).
  eapply wp_mono; [apply (wp_and _ _ _ _ (wp_step o tb Hok Ho) Hstep)|]. intros [] tb' [Hok' Hi']. cbv beta in *.
  apply IH; [|done|by apply Hi']. intros o' tb1 Ho'. apply HI. by right.
Qed.

Lemma wp_run_ok l tb : Forall fits l → ok tb → wp (run l) tb (λ _ tb', ok tb').
Proof.
  intros Hf Hok. eapply wp_mono; [apply (wp_history (λ _, True)); [|done..]|].
  - intros o tb1 Ho Hok1 _. eapply wp_mono; [apply wp_step; [done|]|done]. rewrite Forall_forall in Hf. by apply Hf.
  - by intros [] tb' [? _].
Qed.
