(* ===== verification/PdProps.v ===== *)
(** * Protection domains: what the table promises

    Creation on every branch, the budget as an account, the capability slots of a domain,
    their separation as long as nothing was released, and what a release does to the
    slots ([src/crates/caprock-microkit/src/lib.rs], [PdTable]).  *)

From S2P Require Import Prelude PanicMonad CapObject SchedData Cspace PdTable PdSystem.
Import PdTable.
#[local] Open Scope Z_scope.

(** ** The budget is an account *)

Definition weight (p : Pd.t) : Z := if Pd.used p then Pd.cap_budget p else 0.
Fixpoint gebucht (l : list Pd.t) : Z :=
  match l with [] => 0 | p :: l => weight p + gebucht l end.
Definition conserved (tb : t) : Prop := budget_vorrat tb + gebucht (pds tb) = CAP_SLOTS_FOR_ALL_PDS.

Lemma gebucht_insert l i p q : l !! i = Some q → gebucht (<[i := p]> l) + weight q = gebucht l + weight p.
Proof.
  revert i. induction l as [|x l IH]; intros [|i]; cbn [lookup list_lookup]; [done|done| |].
  - intros [= ->]. cbn. lia.
  - intros Hq. specialize (IH i Hq). change (<[S i := p]> (x :: l)) with (x :: <[i := p]> l). cbn [gebucht]. lia.
Qed.

Lemma gebucht_nonneg l : (∀ p, p ∈ l → 0 <= Pd.cap_budget p) → 0 <= gebucht l.
Proof.
  induction l as [|p l IH]; intros Hp; cbn; [done|].
  specialize (Hp p ltac:(by left)) as H. unfold weight. specialize (IH ltac:(intros; apply Hp; by right)).
  destruct (Pd.used p); lia.
Qed.

Lemma gebucht_kern l l' : kern <$> l' = kern <$> l → gebucht l' = gebucht l.
Proof.
  revert l'. induction l as [|p l IH]; intros [|p' l']; cbn; try done. intros E.
  pose proof (f_equal head E) as Hh. apply (inj Some) in Hh. apply kern_fields in Hh as (Hu & _ & _ & _ & Hb).
  apply (f_equal tail) in E. cbn in E. rewrite (IH l' E). unfold weight. by rewrite Hu, Hb.
Qed.

Lemma conserved_step o tb : (∀ p id ep ntfn, o ≠ Backend p id ep ntfn) → fits o → ok tb → conserved tb →
  wp (step o) tb (λ _ tb', conserved tb').
Proof.
  intros Hno Hf Hok Hc. destruct (quiet_op o) eqn:Ho.
  { eapply wp_mono; [by apply wp_quiet_step|]. intros [] tb' [[Hk _ _ Hv] _]. unfold conserved.
    by rewrite Hv, (gebucht_kern _ _ Hk). }
  destruct o as [d b pl|p id ep ntfn|pd|d| | | | | | | | | |]; try done; cbn [step]; unfold ignore.
  - destruct Hf as [[Hb Hb'] [Hp _]]. apply wp_bind. eapply wp_mono; [by apply wp_create|].
    intros r tb' [Hcr _]. apply wp_ret. unfold created in Hcr. cbv zeta in Hcr.
    destruct r as [i|[]]; try (destruct_and!; by subst).
    destruct Hcr as (H1 & H2 & H3 & p & run & tb1 & Hpi & Hu & _ & _ & ->). unfold conserved in *. cbn.
    pose proof (gebucht_insert (pds tb) i
      (geboren d (if b =? 0 then CAP_BUDGET_PER_PD else b) run (Pd.epoch p)) p Hpi) as E.
    unfold weight in E. rewrite Hu in E. cbn in E.
    rewrite Z.mod_small in E by (unfold CAP_BUDGET_PER_PD; zcases; lia). lia.
  - destruct (Hno p id ep ntfn eq_refl).
  - apply wp_bind, wp_free; [done| |].
    + intros _. by apply wp_ret.
    + intros p Hp Hu. apply wp_ret. unfold conserved, freed in *. cbn.
      pose proof (gebucht_insert (pds tb) pd (Pd.with_epoch (wrapping_add 32 (Pd.epoch p) 1) Pd.EMPTY) p Hp) as E.
      unfold weight in E. rewrite Hu in E. cbn in E.
      assert (0 <= gebucht (<[pd:=Pd.with_epoch (wrapping_add 32 (Pd.epoch p) 1) Pd.EMPTY]> (pds tb))).
      { apply gebucht_nonneg. intros x [j Hx]%list_elem_of_lookup_1. destruct (decide (pd = j)) as [<-|].
        - rewrite list_lookup_insert_eq in Hx by (by eapply lookup_lt_Some). by injection Hx as <-.
        - rewrite list_lookup_insert_ne in Hx by done. by apply (ok_budget _ Hok j). }
      lia.
Qed.

Lemma boot_conserved n k m : conserved (boot n k m).
Proof.
  unfold conserved, boot. cbn [pds budget_vorrat with_cspace_pool attach_owner attach with_owner with_pds new].
  assert (gebucht (replicate n Pd.EMPTY) = 0) as ->; [|done].
  induction n as [|n IH]; cbn; [done|]. by rewrite IH.
Qed.

(** ** The slots of two domains *)

Definition separate (tb : t) : Prop :=
  Vergabe.kopf (cspace_vergabe tb) = 0 ∧
  ∀ i j p q, i ≠ j → pds tb !! i = Some p → pds tb !! j = Some q → Pd.used p = true → Pd.used q = true →
    disjoint_runs (Pd.cspace_start p, Pd.cspace_len p) (Pd.cspace_start q, Pd.cspace_len q).

Lemma disjoint_runs_sym r1 r2 : disjoint_runs r1 r2 → disjoint_runs r2 r1.
Proof. unfold disjoint_runs. eauto. Qed.

Lemma separate_besetzt tb n i p run tb1 : ok tb → separate tb → 0 < n → vergeben tb n = (Ok run, tb1) →
  Pd.anker p = CspaceAnker.mk run.1 run.2 0 → separate (besetzt tb (cspace_vergabe tb1) i p).
Proof.
  intros Hok [Hk Hd] Hn Hv Ha. unfold vergeben, kandidat in Hv. rewrite Hk, Z.eqb_refl in Hv.
  destruct (_ <? _); [done|]. injection Hv as <- <-. injection Ha as As Al _.
  split; [done|]. intros j k x y Hne. unfold besetzt. cbn [with_pds pds].
  assert (∀ j x, <[i := p]> (pds tb) !! j = Some x → j = i ∧ x = p ∨ j ≠ i ∧ pds tb !! j = Some x) as Hcase.
  { intros j' x'. destruct (decide (i = j')) as [<-|Hne'].
    - intros Hx. pose proof (lookup_lt_Some _ _ _ Hx) as Hlt. rewrite length_insert in Hlt.
      rewrite list_lookup_insert_eq in Hx by done. injection Hx as <-. by left.
    - rewrite list_lookup_insert_ne by done. right. done. }
  assert (∀ j x, pds tb !! j = Some x →
    disjoint_runs (Vergabe.bump (cspace_vergabe tb), n) (Pd.cspace_start x, Pd.cspace_len x)) as Hnew.
  { intros j' x' Hx z Hz Hz'. pose proof (ok_run _ Hok _ _ Hx). cbn in *. lia. }
  intros [[-> ->]|[Hj Hx]]%Hcase [[-> ->]|[Hk' Hy]]%Hcase Hux Huy; try done; rewrite ?As, ?Al.
  - by eapply Hnew.
  - apply disjoint_runs_sym. by eapply Hnew.
  - by apply (Hd j k).
Qed.

Lemma separate_step o tb : (∀ pd, o ≠ Free pd) → fits o → ok tb → separate tb →
  wp (step o) tb (λ _ tb', separate tb').
Proof.
  intros Hno Hf Hok Hs. destruct (quiet_op o) eqn:Ho.
  { eapply wp_mono; [by apply wp_quiet_step|]. intros [] tb' [[Hk Hv _ _] _]. destruct Hs as [H1 H2].
    split; [by rewrite Hv|]. intros i j p q Hne Hp Hq.
    destruct (kern_lookup _ _ _ _ Hk Hp) as (p0 & Hp0 & (-> & -> & -> & _)%kern_fields).
    destruct (kern_lookup _ _ _ _ Hk Hq) as (q0 & Hq0 & (-> & -> & -> & _)%kern_fields). by apply (H2 i j). }
  destruct o as [d b pl|p id ep ntfn|pd|d| | | | | | | | | |]; try done; cbn [step]; unfold ignore.
  - destruct Hf as [[Hb Hb'] [Hp _]]. apply wp_bind. eapply wp_mono; [by apply wp_create|].
    intros r tb' [Hcr _]. apply wp_ret. unfold created in Hcr. cbv zeta in Hcr.
    destruct r as [i|[]]; try (destruct_and!; by subst).
    destruct Hcr as (H1 & H2 & H3 & p & run & tb1 & Hpi & Hu & _ & Hv & ->).
    assert (separate (besetzt tb (cspace_vergabe tb1) i
      (geboren d (if b =? 0 then CAP_BUDGET_PER_PD else b) run (Pd.epoch p)))) as Hsep; [|exact Hsep].
    eapply separate_besetzt; [done|done| |exact Hv|done]. unfold STANDARD_PLAETZE. zcases; lia.
  - apply wp_bind. eapply wp_mono; [by apply wp_create_backend|]. intros r tb' [Hcr _]. apply wp_ret.
    destruct r as [i|]; [|by destruct Hcr as [-> _]].
    destruct Hcr as (_ & q & run & tb1 & Hpi & Hu & _ & Hv & ->).
    by eapply (separate_besetzt _ STANDARD_PLAETZE).
  - destruct (Hno pd eq_refl).
Qed.

Lemma boot_separate n k m : separate (boot n k m).
Proof. split; [done|]. by intros i j p q _ ->%boot_entry _. Qed.

(** A history without a release. *)
Lemma history_separate n k m l tb : Z.of_nat n < 2 ^ 32 → Forall fits l → (∀ i, Free i ∉ l) →
  run l (boot n k m) = Some (tt, tb) → ok tb ∧ separate tb.
Proof.
  intros Hn Hl Hno Hrun. assert (wp (run l) (boot n k m) (λ _ tb, ok tb ∧ separate tb)) as Hwp.
  { apply wp_history; [|done|by apply boot_ok|apply boot_separate].
    intros o tb1 Ho Hok Hs. eapply wp_mono; [apply separate_step; [|by eapply Forall_forall|done|done]|].
    - intros i ->. by apply (Hno i).
    - by intros [] tb' Hs' _. }
  unfold wp in Hwp. rewrite Hrun in Hwp. exact Hwp.
Qed.

(** ** The slots of one domain *)

Lemma nospec_in index len : 0 <= index < len → len <= 2 ^ 63 → array_index_nospec index len = index.
Proof.
  intros Hi Hl. unfold array_index_nospec, wrapping_sub, as_i64.
  replace ((index - len) mod 2 ^ 64) with (index - len + 2 ^ 64).
  2:{ apply (Z.mod_unique _ _ (-1)); lia. }
  rewrite (proj2 (Z.ltb_ge _ _)) by lia.
  assert (Z.shiftr (index - len + 2 ^ 64 - 2 ^ 64) 63 = -1) as ->.
  { rewrite Z.shiftr_div_pow2 by lia. symmetry. apply (Z.div_unique _ _ _ (index - len + 2 ^ 63)); lia. }
  change (-1 mod 2 ^ 64) with (Z.ones 64). rewrite Z.land_ones by lia. apply Z.mod_small. lia.
Qed.

(** Past the bound the mask is zero. *)
Lemma nospec_out index len : 0 <= len <= index → index < 2 ^ 63 → array_index_nospec index len = 0.
Proof.
  intros Hi Hl. unfold array_index_nospec, wrapping_sub, as_i64. rewrite (Z.mod_small (index - len)) by lia.
  rewrite (proj2 (Z.ltb_lt _ _)) by lia. rewrite Z.shiftr_div_pow2, Z.div_small by lia.
  rewrite Z.mod_0_l by lia. by rewrite Z.land_0_r.
Qed.

Section slots.
Context (tb : t) (Hok : ok tb).

Lemma run_in_pool pd p : pds tb !! pd = Some p →
  (Z.to_nat (Pd.cspace_start p) + Z.to_nat (Pd.cspace_len p) ≤ length (cspace_pool tb))%nat ∧
  0 <= Pd.cspace_start p ∧ 0 <= Pd.cspace_len p < 2 ^ 32.
Proof.
  intros Hp. pose proof (ok_run _ Hok _ _ Hp). pose proof (ok_bump _ Hok) as Hb.
  unfold pool_len, max_value in Hb. lia.
Qed.

Lemma cap_at_pool pd p slot : entry_used tb pd = Some p → (slot < Z.to_nat (Pd.cspace_len p))%nat →
  cap_at tb pd slot = mjoin (cspace_pool tb !! (Z.to_nat (Pd.cspace_start p) + slot)%nat).
Proof.
  intros He Hs. unfold cap_at, cspace_len_von. cbv zeta. rewrite He.
  rewrite decide_True by done. apply entry_used_Some in He as [Hp _]. unfold entry. rewrite Hp.
  pose proof (run_in_pool _ _ Hp) as (_ & _ & Hl). rewrite nospec_in by lia. by rewrite Nat2Z.id.
Qed.

Lemma cap_at_outside pd p slot : entry_used tb pd = Some p → (Z.to_nat (Pd.cspace_len p) ≤ slot)%nat →
  cap_at tb pd slot = None.
Proof. intros He Hs. unfold cap_at, cspace_len_von. cbv zeta. rewrite He. by rewrite decide_False by lia. Qed.

Lemma cap_at_unused pd slot : entry_used tb pd = None → cap_at tb pd slot = None.
Proof. intros He. unfold cap_at, cspace_len_von. cbv zeta. rewrite He. by rewrite decide_False by lia. Qed.
End slots.

(** Writing a slot of a domain. *)
Definition slot_put (pd slot : nat) (c : option CapPtr.t) (tb : t) : t :=
  match pds tb !! pd with
  | Some p =>
      if decide (slot < Z.to_nat (Pd.cspace_len p))%nat
      then with_cspace_pool (<[(Z.to_nat (Pd.cspace_start p) + slot)%nat := c]> (cspace_pool tb)) tb else tb
  | None => tb
  end.

Lemma install_cap_runs pd slot cap tb : install_cap pd slot cap tb = Some (tt, slot_put pd slot (Some cap) tb).
Proof.
  unfold install_cap, slot_put, gets, mbind, M_bind, entry. destruct (pds tb !! pd); [|done]. by case_decide.
Qed.

Lemma clear_cap_runs pd slot tb : clear_cap pd slot tb = Some (tt, slot_put pd slot None tb).
Proof.
  unfold clear_cap, slot_put, gets, mbind, M_bind, entry. destruct (pds tb !! pd); [|done]. by case_decide.
Qed.

Lemma slot_put_pds pd slot c tb : pds (slot_put pd slot c tb) = pds tb.
Proof. unfold slot_put. destruct (pds tb !! pd); [|done]. by case_decide. Qed.

Lemma slot_put_used pd slot c tb i : entry_used (slot_put pd slot c tb) i = entry_used tb i.
Proof. unfold entry_used. by rewrite slot_put_pds. Qed.

Lemma slot_put_quiet pd slot c tb : quiet tb (slot_put pd slot c tb).
Proof.
  unfold slot_put. destruct (pds tb !! pd); [|done]. case_decide; [|done].
  split; [|done]. split; try done. cbn. by rewrite length_insert.
Qed.

(** What is read from a domain after a slot of a domain was written. *)
Lemma cap_at_slot_put tb pd slot c pd' slot' p : ok tb → entry_used tb pd = Some p →
  (pd' = pd ∨ ∃ q, entry_used tb pd' = Some q ∧
     disjoint_runs (Pd.cspace_start p, Pd.cspace_len p) (Pd.cspace_start q, Pd.cspace_len q)) →
  cap_at (slot_put pd slot c tb) pd' slot' =
    if decide (pd' = pd ∧ slot' = slot ∧ (slot < Z.to_nat (Pd.cspace_len p))%nat) then c else cap_at tb pd' slot'.
Proof.
  intros Hok He Hsep. set (tb' := slot_put pd slot c tb).
  assert (ok tb') as Hok' by (eapply quiet_ok; [apply slot_put_quiet|done]).
  assert (∀ i, entry_used tb' i = entry_used tb i) as Heu by (intros; apply slot_put_used).
  assert (∃ q, entry_used tb pd' = Some q ∧ (pd' = pd ∧ q = p ∨ pd' ≠ pd ∧
    disjoint_runs (Pd.cspace_start p, Pd.cspace_len p) (Pd.cspace_start q, Pd.cspace_len q))) as (q & Hq & Hpq).
  { destruct (decide (pd' = pd)) as [->|Hne]; [exists p; auto|]. destruct Hsep as [?|(q & Hq & Hd)]; [done|]. eauto. }
  destruct (decide (slot' < Z.to_nat (Pd.cspace_len q))%nat) as [Hin|Hout].
  2:{ rewrite !(cap_at_outside _ pd' q) by (rewrite ?Heu; done || lia). rewrite decide_False; [done|].
      intros (-> & -> & Hs). destruct Hpq as [[_ ->]|[? _]]; done. }
  rewrite (cap_at_pool tb' Hok' pd' q), (cap_at_pool tb Hok pd' q) by (rewrite ?Heu; done).
  pose proof He as [Hp _]%entry_used_Some. pose proof Hq as [Hq' _]%entry_used_Some.
  unfold tb', slot_put. rewrite Hp. case_decide as Hs; [|rewrite decide_False; [done|naive_solver]].
  cbn [with_cspace_pool cspace_pool].
  pose proof (run_in_pool _ Hok _ _ Hp) as (Hrp & Hsp & Hlp). pose proof (run_in_pool _ Hok _ _ Hq') as (_ & Hsq & Hlq).
  destruct Hpq as [[-> ->]|[Hne Hd]].
  - destruct (decide (slot' = slot)) as [->|Hns].
    + rewrite list_lookup_insert_eq by lia. by rewrite decide_True.
    + rewrite list_lookup_insert_ne by lia. rewrite decide_False by naive_solver. done.
  - rewrite decide_False by naive_solver. rewrite list_lookup_insert_ne; [done|].
    intros E. apply (Hd (Pd.cspace_start p + Z.of_nat slot)); cbn; lia.
Qed.

Lemma cap_at_slot_put_separate tb pd slot c pd' slot' p : ok tb → separate tb → entry_used tb pd = Some p →
  (slot < Z.to_nat (Pd.cspace_len p))%nat →
  cap_at (slot_put pd slot c tb) pd' slot' =
    if decide (pd' = pd ∧ slot' = slot) then c else cap_at tb pd' slot'.
Proof.
  intros Hok [_ Hsep] He Hlt. destruct (entry_used tb pd') as [q|] eqn:Hq.
  - rewrite (cap_at_slot_put tb pd slot c pd' slot' p); [|done|done|].
    + destruct (decide (pd' = pd ∧ slot' = slot)) as [[-> ->]|Hd]; [by rewrite decide_True|].
      rewrite decide_False; [done|naive_solver].
    + destruct (decide (pd' = pd)) as [|Hne]; [by left|right]. exists q. split; [done|].
      apply entry_used_Some in He as [Hp Hu]. apply entry_used_Some in Hq as [Hq Hu'].
      by apply (Hsep pd pd').
  - rewrite !cap_at_unused by (rewrite ?slot_put_used; done). rewrite decide_False; [done|].
    intros [-> _]. congruence.
Qed.
