(* ===== verification/PdShare.v ===== *)
(** * Protection domains: separation and release

    The properties of the table over its histories: it never panics and keeps its
    accounts, the budget is conserved, domains share no slot as long as nothing was
    released; and what a release does: the run of the domain is not given out again, and
    once the entry is in use again its live run is
    ([src/crates/caprock-microkit/src/lib.rs], [PdTable::free]).  *)

From S2P Require Import Prelude PanicMonad CapObject SchedData Cspace PdTable PdSystem PdProps.
Import PdTable.
#[local] Open Scope Z_scope.

(** C29: Whatever the kernel does with the table after boot, no operation panics, and the
    accounts of the table stay well-formed: every run lies in the pool, the budget stays
    between 0 and the supply, the list of the pool designates entries of the table. *)
Theorem pd_history_sound (n k m : nat) (l : list op) :
  Z.of_nat n < 2 ^ 32 → Forall fits l → wp (run l) (boot n k m) (λ _ tb, ok tb).
Proof. intros Hn Hl. apply wp_run_ok; [done|by apply boot_ok]. Qed.

Definition demo_history : list op :=
  [Create TrustedSas 0 0; Create UserLand 12 20; Bind 0 (ThreadId.mk 1 0); Install 1 3 (CapPtr.mk 7 2);
   SidecarTake 0; EdgeSet 1 0; Free 1; Create TrustedSas 0 0].

Lemma pd_history_sound_witness : wp (run demo_history) (boot 4 4 64) (λ _ tb, ok tb).
Proof.
  apply (pd_history_sound 4 4 64 demo_history); [lia|]. unfold demo_history. repeat (constructor; cbn; [lia || done|]).
  constructor.
Defined.

(** Every outcome of [create_mit_budget_und_cspace]: the checks are made in the order
    cap, fit, supply, entry, pool; each refusal is justified by the state, counted in its
    own counter and changes nothing else; a success takes the lowest free entry, gives it
    the budget, the run and the domain asked for, and books the budget. *)
Theorem pd_create_exact (tb : t) (domain : Domain) (budget plaetze : Z) :
  ok tb → 0 <= budget → 0 <= plaetze →
  wp (create_mit_budget_und_cspace domain budget plaetze) tb (created tb domain budget plaetze).
Proof. intros Hok Hb Hp. eapply wp_mono; [by apply wp_create|]. by intros r tb' [Hc _]. Qed.

Lemma demo_boot_ok : ok (boot 4 4 64).
Proof. apply boot_ok. lia. Qed.

Lemma pd_create_exact_witness :
  wp (create_mit_budget_und_cspace UserLand 12 20) (boot 4 4 64) (created (boot 4 4 64) UserLand 12 20).
Proof. apply (pd_create_exact (boot 4 4 64) UserLand 12 20); [apply demo_boot_ok|lia|lia]. Defined.

(** As long as no hardware backend is created, the supply and the budgets of the domains
    in use add up to the slots of all domains: what is booked at creation comes back at
    release, and every domain has the slots it was promised. *)
Theorem budget_conserved (n k m : nat) (l : list op) :
  Z.of_nat n < 2 ^ 32 → Forall fits l → (∀ p id ep ntfn, Backend p id ep ntfn ∉ l) →
  wp (run l) (boot n k m) (λ _ tb, budget_vorrat tb + gebucht (pds tb) = CAP_SLOTS_FOR_ALL_PDS ∧
    0 <= budget_vorrat tb).
Proof.
  intros Hn Hl Hno. eapply wp_mono; [apply (wp_history conserved)|].
  - intros o tb Ho Hok Hc. eapply wp_mono; [apply conserved_step; [|by eapply Forall_forall|done|done]|].
    + intros p id ep ntfn ->. by apply (Hno p id ep ntfn).
    + by intros [] tb' Hc' _.
  - done.
  - by apply boot_ok.
  - apply boot_conserved.
  - intros [] tb [Hok Hc]. split; [exact Hc|]. by apply (ok_vorrat _ Hok).
Qed.

Lemma budget_conserved_witness :
  wp (run demo_history) (boot 4 4 64) (λ _ tb, budget_vorrat tb + gebucht (pds tb) = CAP_SLOTS_FOR_ALL_PDS ∧
    0 <= budget_vorrat tb).
Proof.
  apply (budget_conserved 4 4 64 demo_history); [lia| |].
  - unfold demo_history. repeat (constructor; cbn; [lia || done|]). constructor.
  - intros p id ep ntfn Hin. unfold demo_history in Hin. repeat (apply elem_of_cons in Hin as [?|Hin]; [done|]).
    by apply not_elem_of_nil in Hin.
Defined.

(** A release of a backend returns budget that was never booked: the promises of the
    domains then exceed the slots there are. *)
Lemma backend_budget_overbooked :
  wp (run [Create TrustedSas 0 0; Backend 0 1 2 3; Free 1]) (boot 4 4 64) (λ _ tb,
    budget_vorrat tb + gebucht (pds tb) = CAP_SLOTS_FOR_ALL_PDS + CAP_BUDGET_PER_PD).
Proof. vm_compute. reflexivity. Qed.

(** As long as no domain was released, writing a slot of one domain changes that slot and
    no other, of that or any other domain: the slots of two domains are never the same. *)
Theorem cspaces_isolated (n k m : nat) (l : list op) (tb : t) (pd slot : nat) (p : Pd.t) (cap : CapPtr.t) :
  Z.of_nat n < 2 ^ 32 → Forall fits l → (∀ i, Free i ∉ l) → run l (boot n k m) = Some (tt, tb) →
  entry_used tb pd = Some p → (slot < Z.to_nat (Pd.cspace_len p))%nat →
  wp (install_cap pd slot cap) tb (λ _ tb', ∀ pd' slot',
    cap_at tb' pd' slot' = if decide (pd' = pd ∧ slot' = slot) then Some cap else cap_at tb pd' slot') ∧
  wp (clear_cap pd slot) tb (λ _ tb', ∀ pd' slot',
    cap_at tb' pd' slot' = if decide (pd' = pd ∧ slot' = slot) then None else cap_at tb pd' slot').
Proof.
  intros Hn Hl Hno Hrun He Hlt.
  destruct (history_separate _ _ _ _ _ Hn Hl Hno Hrun) as [Hok Hsep].
  unfold wp. rewrite install_cap_runs, clear_cap_runs.
  split; intros pd' slot'; by apply (cap_at_slot_put_separate tb pd slot _ pd' slot' p).
Qed.

Definition demo_two : list op := [Create TrustedSas 0 0; Create UserLand 12 20].
Definition table_of (m : option (unit * t)) : t := match m with Some (_, tb) => tb | None => new end.

Lemma cspaces_isolated_witness :
  let tb := table_of (run demo_two (boot 4 4 64)) in
  wp (install_cap 1 3 (CapPtr.mk 7 2)) tb (λ _ tb', ∀ pd' slot',
    cap_at tb' pd' slot' = if decide (pd' = 1%nat ∧ slot' = 3%nat) then Some (CapPtr.mk 7 2) else cap_at tb pd' slot').
Proof.
  eapply (cspaces_isolated 4 4 64 demo_two _ 1 3 (geboren UserLand 12 (16, 20) 0) (CapPtr.mk 7 2)).
  - lia.
  - unfold demo_two. repeat (constructor; cbn; [lia|]). constructor.
  - intros i Hin. unfold demo_two in Hin. repeat (apply elem_of_cons in Hin as [?|Hin]; [done|]).
    by apply not_elem_of_nil in Hin.
  - vm_compute. reflexivity.
  - vm_compute. reflexivity.
  - vm_compute. lia.
Defined.

(** ** Release *)

(** The run of a released domain is not given out: the next request gets a fresh run of
    the length asked for, or is refused although the released run is free.  (The link of
    the list leads to an entry that [free] has cleared in the meantime.) *)
Lemma released_run_is_lost tb pd p n : ok tb → pds tb !! pd = Some p → 0 < n →
  vergeben (freed tb pd p) n =
    let v := Vergabe.with_kopf (Z.of_nat pd + 1) (cspace_vergabe tb) in
    if pool_len tb <? Vergabe.bump v + n
    then (Err (PoolErschoepft n (pool_len tb - Vergabe.bump v)), freed tb pd p)
    else (Ok (Vergabe.bump v, n),
          with_cspace_vergabe (Vergabe.with_bump (Vergabe.bump v + n) v) (freed tb pd p)).
Proof.
  intros Hok Hp Hn. unfold vergeben, kandidat. cbn [freed with_pds with_cspace_vergabe cspace_vergabe pds
    Vergabe.with_kopf Vergabe.kopf]. rewrite (proj2 (Z.eqb_neq _ _)) by lia.
  replace (Z.to_nat (Z.of_nat pd + 1 - 1)) with pd by lia.
  rewrite list_lookup_insert_eq by (by eapply lookup_lt_Some). cbn [Pd.with_epoch Pd.EMPTY Pd.cspace_len].
  rewrite (proj2 (Z.leb_gt n 0)) by lia. unfold pool_len. cbn [freed with_pds with_cspace_vergabe with_cspace_pool
    with_budget_vorrat cspace_pool]. by rewrite length_nullen.
Qed.

(** What the default creation does where there is room for it. *)
Lemma wp_create_room tb domain i p run v' (R : result nat CspaceAbweisung → t → Prop) :
  ok tb → CAP_BUDGET_PER_PD <= budget_deckel tb → CAP_BUDGET_PER_PD <= budget_vorrat tb →
  pds tb !! i = Some p → Pd.used p = false →
  vergeben tb STANDARD_PLAETZE = (Ok run, with_cspace_vergabe v' tb) →
  (∀ i p, pds tb !! i = Some p → Pd.used p = false →
     (∀ j q, (j < i)%nat → pds tb !! j = Some q → Pd.used q = true) →
     let tb' := with_budget_vorrat (budget_vorrat tb - CAP_BUDGET_PER_PD)
                  (besetzt tb v' i (geboren domain CAP_BUDGET_PER_PD run (Pd.epoch p))) in
     ok tb' → R (Ok i) tb') →
  wp (create_mit_budget_und_cspace domain 0 0) tb R.
Proof.
  intros Hok Hd Hv Hp Hu Hrun HR. eapply wp_mono; [by apply wp_create|]. intros r tb' [Hc Hok'].
  unfold created in Hc. cbv zeta in Hc. change (0 =? 0) with true in Hc. cbv iota in Hc.
  destruct r as [j|[b d|b pl|b w| |n frei]].
  - destruct Hc as (_ & _ & _ & q & run' & tb1 & Hq & Huq & Hmin & Hrun' & ->).
    rewrite Hrun in Hrun'. injection Hrun' as <- <-. by apply HR.
  - destruct Hc as (-> & -> & H & _). lia.
  - destruct Hc as (-> & -> & _ & H & _). done.
  - destruct Hc as (-> & -> & _ & _ & H & _). lia.
  - destruct Hc as (_ & Hall & _). specialize (Hall p). rewrite Hall in Hu; [done|].
    by eapply list_elem_of_lookup_2.
  - destruct Hc as (-> & -> & H & Hk & _). unfold vergeben in Hrun. rewrite Hk in Hrun.
    rewrite (proj2 (Z.ltb_lt _ _)) in Hrun by lia. done.
Qed.

(** A release and the creation that follows it: the entry has a fresh run, and the list
    of the pool leads to that entry. *)
Lemma wp_free_create {B} tb pd p d (k : result nat CspaceAbweisung → M t B) (R : B → t → Prop) :
  ok tb → pds tb !! pd = Some p → Pd.used p = true →
  (∀ i x, (i < pd)%nat → pds tb !! i = Some x → Pd.used x = true) →
  CAP_BUDGET_PER_PD <= budget_deckel tb → 2 * CAP_BUDGET_PER_PD <= budget_vorrat tb →
  Vergabe.bump (cspace_vergabe tb) + STANDARD_PLAETZE <= pool_len tb →
  (∀ tb' g, ok tb' → pds tb' !! pd = Some g → Pd.used g = true → Pd.cspace_len g = STANDARD_PLAETZE →
     kandidat tb' STANDARD_PLAETZE = Some (Pd.cspace_start g, STANDARD_PLAETZE) →
     (∀ i, i ≠ pd → pds tb' !! i = pds tb !! i) → CAP_BUDGET_PER_PD <= budget_deckel tb' →
     CAP_BUDGET_PER_PD <= budget_vorrat tb' → wp (k (Ok pd)) tb' R) →
  wp (free pd ≫= λ _, create_mit_budget_und_cspace d 0 0 ≫= k) tb R.
Proof.
  intros Hok Hp Hup Hbelow Hd Hv Hroom HR. apply wp_bind, wp_free; [done| |].
  { intros He. rewrite entry_used_None in He. rewrite (He p Hp) in Hup. done. }
  intros p' Hp' _. assert (p' = p) as -> by congruence. pose proof (ok_freed _ _ _ Hok Hp) as Hok1.
  set (v1 := Vergabe.with_kopf (Z.of_nat pd + 1) (cspace_vergabe tb)).
  pose proof (released_run_is_lost tb pd p STANDARD_PLAETZE Hok Hp ltac:(done)) as Hrun. cbv zeta in Hrun.
  fold v1 in Hrun. rewrite (proj2 (Z.ltb_ge _ _)) in Hrun by (cbn; lia). set (tb1 := freed tb pd p) in *.
  assert (pds tb1 !! pd = Some (Pd.with_epoch (wrapping_add 32 (Pd.epoch p) 1) Pd.EMPTY)) as Hpd1.
  { cbn. apply list_lookup_insert_eq. by eapply lookup_lt_Some. }
  assert (∀ i, i ≠ pd → pds tb1 !! i = pds tb !! i) as Hother by (intros; cbn; by rewrite list_lookup_insert_ne).
  assert (2 * CAP_BUDGET_PER_PD <= budget_vorrat tb1) as Hv1.
  { cbn. pose proof (ok_budget _ Hok _ _ Hp). unfold CAP_SLOTS_FOR_ALL_PDS, NPDS, CAP_BUDGET_PER_PD in *. lia. }
  apply wp_bind. eapply (wp_create_room tb1); [done|done|unfold CAP_BUDGET_PER_PD in *; lia|exact Hpd1|done|exact Hrun|].
  intros i x Hi Hux Hmin tb2 Hok2. assert (i = pd) as ->.
  { destruct (lt_eq_lt_dec i pd) as [[Hlt|Heq]|Hgt]; [|done|by specialize (Hmin pd _ Hgt Hpd1)].
    rewrite Hother in Hi by lia. rewrite (Hbelow i x Hlt Hi) in Hux. done. }
  assert (pds tb2 !! pd = Some (geboren d CAP_BUDGET_PER_PD (Vergabe.bump v1, STANDARD_PLAETZE) (Pd.epoch x))) as Hpd2.
  { cbn. apply list_lookup_insert_eq. by eapply lookup_lt_Some. }
  eapply HR; [done|exact Hpd2|done|done| | |done|].
  - unfold kandidat. cbn [tb2 besetzt with_budget_vorrat with_pds with_cspace_vergabe cspace_vergabe
      Vergabe.with_bump v1 Vergabe.with_kopf Vergabe.kopf].
    rewrite (proj2 (Z.eqb_neq _ _)) by lia. replace (Z.to_nat (Z.of_nat pd + 1 - 1)) with pd by lia.
    change (pds (with_budget_vorrat _ _)) with (pds tb2). by rewrite Hpd2.
  - intros i Hk. rewrite <-Hother by done. cbn. by rewrite list_lookup_insert_ne.
  - cbn [tb2 with_budget_vorrat budget_vorrat]. unfold CAP_BUDGET_PER_PD in *. lia.
Qed.

(** C38: When a domain is released while every entry below its own is in use and some other entry is
    free, and there are budget and room for it in the pool, the next two creations of domains of
    the default size give one and the same run of the pool to two domains in use, and a capability
    that is installed in the one is found in the other.  (A free entry below the released one would
    be taken first.) *)
Theorem live_run_shared (tb : t) (pd j slot : nat) (p q : Pd.t) (d1 d2 : Domain) (cap : CapPtr.t) :
  ok tb → pds tb !! pd = Some p → Pd.used p = true →
  (∀ i x, (i < pd)%nat → pds tb !! i = Some x → Pd.used x = true) →
  pds tb !! j = Some q → Pd.used q = false →
  CAP_BUDGET_PER_PD <= budget_deckel tb → 2 * CAP_BUDGET_PER_PD <= budget_vorrat tb →
  Vergabe.bump (cspace_vergabe tb) + STANDARD_PLAETZE <= pool_len tb → (slot < NCAPS)%nat →
  wp (free pd ≫= λ _, create_mit_budget_und_cspace d1 0 0 ≫= λ a,
      create_mit_budget_und_cspace d2 0 0 ≫= λ b, install_cap pd slot cap ≫= λ _, mret (a, b)) tb
    (λ r tb', ∃ i, r = (Ok pd, Ok i) ∧ i ≠ pd ∧ is_used tb' pd = true ∧ is_used tb' i = true ∧
       cap_at tb' i slot = Some cap).
Proof.
  intros Hok Hp Hup Hbelow Hj Huj Hd Hv Hroom Hs. eapply (wp_free_create tb pd p d1); [done..|].
  intros tb2 g Hok2 Hpd2 Hug Hlg Hk Hother Hd2 Hv2. assert (j ≠ pd) as Hne by (intros ->; congruence).
  apply wp_bind. eapply (wp_create_room tb2); [done|done|done|by rewrite Hother|done| |].
  - unfold vergeben. by rewrite Hk.
  - intros i y Hi Huy _ tb3 Hok3. assert (i ≠ pd) as Hipd by (intros ->; congruence).
    assert (entry_used tb3 pd = Some g) as Hu3.
    { apply entry_used_Some. split; [|done]. cbn. by rewrite list_lookup_insert_ne. }
    set (h := geboren d2 CAP_BUDGET_PER_PD (Pd.cspace_start g, STANDARD_PLAETZE) (Pd.epoch y)) in *.
    assert (entry_used tb3 i = Some h) as Hi3.
    { apply entry_used_Some. split; [|done]. cbn. apply list_lookup_insert_eq. by eapply lookup_lt_Some. }
    apply wp_bind. unfold wp. rewrite install_cap_runs. exists i. split_and!; [done..| | |].
    + unfold is_used, entry. rewrite slot_put_pds. by apply entry_used_Some in Hu3 as [-> _].
    + unfold is_used, entry. rewrite slot_put_pds. by apply entry_used_Some in Hi3 as [-> _].
    + rewrite (cap_at_pool _) with (p := h); [|by eapply quiet_ok; [apply slot_put_quiet|]|by rewrite slot_put_used|exact Hs].
      apply entry_used_Some in Hu3 as [Hu3 _]. unfold slot_put. rewrite Hu3. rewrite Hlg, decide_True by exact Hs.
      cbn [with_cspace_pool cspace_pool]. rewrite list_lookup_insert_eq; [done|].
      pose proof (run_in_pool _ Hok3 _ _ Hu3) as [Hr _]. rewrite Hlg in Hr.
      change (Z.to_nat STANDARD_PLAETZE) with NCAPS in Hr. change (Pd.cspace_start h) with (Pd.cspace_start g). lia.
Qed.

Lemma live_run_shared_witness :
  let tb := table_of (run [Create TrustedSas 0 0] (boot 4 4 64)) in
  wp (free 0 ≫= λ _, create_mit_budget_und_cspace TrustedSas 0 0 ≫= λ a,
      create_mit_budget_und_cspace UserLand 0 0 ≫= λ b, install_cap 0 3 (CapPtr.mk 7 2) ≫= λ _, mret (a, b)) tb
    (λ r tb', ∃ i, r = (Ok 0%nat, Ok i) ∧ i ≠ 0%nat ∧ is_used tb' 0 = true ∧ is_used tb' i = true ∧
       cap_at tb' i 3 = Some (CapPtr.mk 7 2)).
Proof.
  intros tb. eapply (live_run_shared tb 0 1 3 (geboren TrustedSas 10 (0, 16) 0) Pd.EMPTY).
  - assert (wp (run [Create TrustedSas 0 0]) (boot 4 4 64) (λ _ tb, ok tb)) as Hwp.
    { apply wp_run_ok; [|apply demo_boot_ok]. repeat (constructor; cbn; [lia|]). constructor. }
    exact Hwp.
  - reflexivity.
  - reflexivity.
  - intros i x Hi. lia.
  - reflexivity.
  - reflexivity.
  - done.
  - done.
  - done.
  - unfold NCAPS, STANDARD_PLAETZE. lia.
Defined.

(** The pool runs dry although no domain is in use. *)
Lemma pool_exhausted_by_nobody :
  wp (run [Create TrustedSas 0 0; Free 0; Create TrustedSas 0 0; Free 0]) (boot 4 4 32) (λ _ tb,
    used_count tb = 0%nat ∧
    wp (create_mit_budget_und_cspace TrustedSas 0 0) tb (λ r _, r = Err (PoolErschoepft 16 0))).
Proof. vm_compute. split; reflexivity. Qed.
