(* ===== verification/PdThreads.v ===== *)
(** * Protection domains: threads and sidecar slots

    The reverse index from threads to domains ([bind_thread], [pd_of]) over the release
    and the reuse of a domain, and the mask of the sidecar slots
    ([src/crates/caprock-microkit/src/lib.rs]).  *)

From S2P Require Import Prelude PanicMonad CapObject SchedData Cspace PdTable PdSystem PdProps.
Import PdTable.
#[local] Open Scope Z_scope.

(** ** The reverse index *)

(** What [pd_of] reads of an entry. *)
Definition belegung (p : Pd.t) : bool * Z := (Pd.used p, Pd.epoch p).

(** The domain an entry of the index designates. *)
Definition gehoert (l : list (bool * Z)) (e : ThreadOwner.t) : option nat :=
  if ThreadOwner.pd1 e =? 0 then None
  else
    let pd := Z.to_nat (ThreadOwner.pd1 e - 1) in
    match l !! pd with
    | Some (u, ep) => if u && (ep =? ThreadOwner.epoch e) then Some pd else None
    | None => None
    end.

Lemma pd_of_index tb th : owner tb ≠ [] →
  pd_of tb th =
    match owner tb !! ThreadId.slot th with
    | Some e => if ThreadOwner.tid e =? ThreadId.to_raw th then gehoert (belegung <$> pds tb) e else None
    | None => None
    end.
Proof.
  intros Ho. unfold pd_of. cbv zeta. destruct (owner tb) as [|o l] eqn:E; [done|]. rewrite <-E. clear E Ho.
  destruct (owner tb !! ThreadId.slot th) as [e|]; [|done]. unfold gehoert.
  destruct (ThreadOwner.pd1 e =? 0); cbn [orb]; [by destruct (_ =? _)|].
  destruct (ThreadOwner.tid e =? _); cbn [negb]; [|done]. cbv zeta. unfold entry. rewrite list_lookup_fmap.
  by destruct (pds tb !! _).
Qed.

Lemma belegung_alter (l : list Pd.t) i f : (∀ p, belegung (f p) = belegung p) → belegung <$> alter f i l = belegung <$> l.
Proof.
  intros Hf. apply list_eq. intros j. rewrite !list_lookup_fmap, lookup_alter_if.
  destruct (l !! j) as [p|]; [|done]. cbn. destruct (decide (i = j)); [by rewrite Hf|done].
Qed.

Lemma belegung_lookup (l l' : list Pd.t) i : belegung <$> l' = belegung <$> l → is_Some (l !! i) → is_Some (l' !! i).
Proof.
  intros E. rewrite !lookup_lt_is_Some. by rewrite <-(length_fmap belegung l'), E, length_fmap.
Qed.

Lemma wp_belegung_upd i f tb l (R : unit → t → Prop) :
  belegung <$> pds tb = l → is_Some (pds tb !! i) → (∀ p, belegung (f p) = belegung p) →
  (∀ tb', belegung <$> pds tb' = l → owner tb' = owner tb → is_Some (pds tb' !! i) → R tt tb') →
  wp (upd_pd i f) tb R.
Proof.
  intros E [p Hp] Hf HR. eapply wp_upd_pd; [exact Hp|]. apply HR; [|done|].
  - cbn. by rewrite belegung_alter.
  - cbn. rewrite (alter_at _ _ _ p) by done. by eexists.
Qed.

(** The binding is entered under the occupation of the domain; no other entry of the
    index and no occupation changes. *)
Lemma wp_bind_thread tb pd p th (R : unit → t → Prop) :
  Z.of_nat (length (pds tb)) < 2 ^ 32 → pds tb !! pd = Some p → (ThreadId.slot th < length (owner tb))%nat →
  (∀ tb', belegung <$> pds tb' = belegung <$> pds tb →
     owner tb' = <[ThreadId.slot th := ThreadOwner.mk (ThreadId.to_raw th) (Z.of_nat pd + 1) (Pd.epoch p)]> (owner tb) →
     R tt tb') → wp (bind_thread pd th) tb R.
Proof.
  intros Hsm Hp Hs HR. pose proof (lookup_lt_Some _ _ _ Hp) as Hlt. unfold bind_thread.
  apply wp_bind, wp_gets. unfold pd_count. rewrite decide_False by lia. cbv zeta.
  destruct (lookup_lt_is_Some_2 _ _ Hs) as [alt Halt]. rewrite Halt. set (l := belegung <$> pds tb) in *.
  apply wp_bind, wp_bind.
  assert (∀ tb1, belegung <$> pds tb1 = l → owner tb1 = owner tb →
    wp (pd_at pd ≫= λ p,
        modify (λ tb, with_owner (<[ThreadId.slot th := ThreadOwner.mk (ThreadId.to_raw th)
          (Z.of_nat (pd + 1) mod 2 ^ 32) (Pd.epoch p)]> (owner tb)) tb) ≫= λ _,
        upd_pd pd (λ p, Pd.with_nthreads (wrapping_add 32 (Pd.nthreads p) 1) p)) tb1
      (λ _ tb2, wp (pd_at pd ≫= λ p, match Pd.thread p with
                         | None => upd_pd pd (Pd.with_thread (Some th)) | Some _ => mret tt end) tb2 R)) as Hmid.
  { intros tb1 E1 E2. assert (is_Some (pds tb1 !! pd)) as [p1 Hp1] by (apply (belegung_lookup (pds tb)); [done|by exists p]).
    apply wp_bind. eapply wp_pd_at; [exact Hp1|]. apply wp_bind, wp_modify.
    eapply (wp_belegung_upd _ _ _ l); [done|by exists p1|by intros []|]. intros tb2 E3 E4 [p2 Hp2].
    apply wp_bind. eapply wp_pd_at; [exact Hp2|].
    assert (Pd.epoch p1 = Pd.epoch p) as Eep.
    { pose proof (f_equal (lookup pd) E1) as E. unfold l in E. rewrite !list_lookup_fmap, Hp1, Hp in E.
      by apply (inj Some) in E as [= _ ->]. }
    assert (owner tb2 = <[ThreadId.slot th := ThreadOwner.mk (ThreadId.to_raw th) (Z.of_nat pd + 1) (Pd.epoch p)]>
      (owner tb)) as Eo.
    { rewrite E4. cbn. rewrite E2, Eep. f_equal. f_equal. rewrite Z.mod_small by lia. lia. }
    destruct (Pd.thread p2); [apply wp_ret; by apply HR|].
    eapply (wp_belegung_upd _ _ _ l); [done|by exists p2|by intros []|]. intros tb3 E5 E6 _.
    apply HR; [done|by rewrite E6]. }
  destruct (negb _); [|by apply wp_ret, Hmid]. unfold entry.
  destruct (pds tb !! Z.to_nat (ThreadOwner.pd1 alt - 1)) as [q|] eqn:Hq; [|by apply wp_ret, Hmid].
  destruct (_ && _); [|by apply wp_ret, Hmid].
  eapply (wp_belegung_upd _ _ _ l); [done|by exists q|by intros []|]. intros tb1 E1 E2 _. by apply Hmid.
Qed.

(** A bound thread is resolved to its domain, also when another thread, or an earlier
    thread of the same slot, is bound to that or another domain; that earlier thread no
    longer is; and every other thread is resolved as before. *)
Theorem bind_exact (tb : t) (pd : nat) (p : Pd.t) (th : ThreadId.t) :
  ok tb → entry_used tb pd = Some p → (ThreadId.slot th < length (owner tb))%nat →
  wp (bind_thread pd th) tb (λ _ tb',
    pd_of tb' th = Some pd ∧
    ∀ th', th' ≠ th → in_width 32 (Z.of_nat (ThreadId.slot th')) → in_width 32 (Z.of_nat (ThreadId.slot th)) →
      0 <= ThreadId.gen th' → 0 <= ThreadId.gen th →
      pd_of tb' th' = if decide (ThreadId.slot th' = ThreadId.slot th) then None else pd_of tb th').
Proof.
  intros Hok [Hp Hu]%entry_used_Some Hs. eapply wp_bind_thread; [apply Hok|exact Hp|exact Hs|].
  intros tb' Eb Eo. assert (owner tb ≠ []) as Hne by (intros E; rewrite E in Hs; simpl in Hs; lia).
  assert (owner tb' ≠ []) as Hne'. { rewrite Eo. intros E%(f_equal length). rewrite length_insert in E. by destruct (owner tb). }
  rewrite (pd_of_index tb') by done. rewrite Eo, Eb. split.
  - rewrite list_lookup_insert_eq by done. cbn [ThreadOwner.tid]. rewrite Z.eqb_refl. unfold gehoert.
    cbn [ThreadOwner.pd1 ThreadOwner.epoch]. rewrite (proj2 (Z.eqb_neq _ _)) by lia.
    replace (Z.to_nat (Z.of_nat pd + 1 - 1)) with pd by lia. rewrite list_lookup_fmap, Hp. cbn.
    by rewrite Hu, Z.eqb_refl.
  - intros th' Hth H1 H2 H3 H4. rewrite (pd_of_index tb'), (pd_of_index tb) by done. rewrite Eo, Eb.
    destruct (decide (ThreadId.slot th' = ThreadId.slot th)) as [->|Hns].
    + rewrite list_lookup_insert_eq by done. cbn [ThreadOwner.tid].
      rewrite (proj2 (Z.eqb_neq _ _)); [done|]. intros E. apply Hth.
      rewrite <-(thread_id_raw_roundtrip th'), <-(thread_id_raw_roundtrip th); [by rewrite E|unfold in_width in *; lia..].
    + by rewrite list_lookup_insert_ne.
Qed.

Definition demo_bound : PdTable.t :=
  with_owner [ThreadOwner.mk 0 1 0; ThreadOwner.EMPTY]
    (with_pds [geboren TrustedSas 10 (0, 16) 0; Pd.EMPTY]
       (with_cspace_vergabe (Vergabe.mk 16 0) (with_budget_vorrat 99990 (boot 2 2 32)))).

Lemma demo_bound_ok : ok demo_bound.
Proof.
  split.
  - intros [|[|i]] p; cbn; [by intros [= <-]..|done].
  - by left.
  - by vm_compute.
  - intros [|[|i]] p; cbn; [intros [= <-]; cbn; lia..|done].
  - done.
  - done.
  - intros [|[|i]] p; cbn; [by intros [= <-]..|done].
  - by vm_compute.
Qed.

Lemma bind_exact_witness :
  wp (bind_thread 0 (ThreadId.mk 1 0)) demo_bound (λ _ tb', pd_of tb' (ThreadId.mk 1 0) = Some 0%nat ∧
    ∀ th', th' ≠ ThreadId.mk 1 0 → in_width 32 (Z.of_nat (ThreadId.slot th')) →
      in_width 32 (Z.of_nat 1) → 0 <= ThreadId.gen th' → 0 <= 0 →
      pd_of tb' th' = if decide (ThreadId.slot th' = 1%nat) then None else pd_of demo_bound th').
Proof.
  apply (bind_exact demo_bound 0 (geboren TrustedSas 10 (0, 16) 0) (ThreadId.mk 1 0)).
  - apply demo_bound_ok.
  - reflexivity.
  - simpl. lia.
Defined.

(** ** Release and reuse of a domain *)

(** The occupations after a release of [pd] and some creations. *)
Record successor (tb : t) (pd : nat) (tb' : t) : Prop := {
  su_owner : owner tb' = owner tb;
  su_length : length (pds tb') = length (pds tb);
  su_epoch i p p' : pds tb !! i = Some p → pds tb' !! i = Some p' →
    Pd.epoch p' = (if decide (i = pd) then wrapping_add 32 (Pd.epoch p) 1 else Pd.epoch p) ∧
    (i ≠ pd → Pd.used p = true → Pd.used p' = true) }.

Definition creation (o : op) : Prop :=
  match o with Create _ _ _ | Backend _ _ _ _ => True | _ => False end.

Lemma successor_besetzt tb pd tb1 v i q p : successor tb pd tb1 → pds tb1 !! i = Some q →
  Pd.epoch p = Pd.epoch q → Pd.used p = true → successor tb pd (besetzt tb1 v i p).
Proof.
  intros [H1 H2 H3] Hq Hep Hu. split; [done|cbn; by rewrite length_insert|].
  intros j x x' Hx. cbn. destruct (decide (i = j)) as [<-|Hne].
  - rewrite list_lookup_insert_eq by (by eapply lookup_lt_Some). intros [= <-].
    destruct (H3 i x q Hx Hq) as [E _]. by rewrite Hep.
  - rewrite list_lookup_insert_ne by done. by apply H3.
Qed.

Lemma successor_step tb pd tb1 o : creation o → fits o → ok tb1 → successor tb pd tb1 →
  wp (step o) tb1 (λ _ tb2, successor tb pd tb2).
Proof.
  intros Hc Hf Hok Hs. destruct o as [d b pl|p id ep ntfn| | | | | | | | | | | | ]; try done; cbn [step]; unfold ignore.
  - destruct Hf as [[Hb _] [Hp _]]. apply wp_bind. eapply wp_mono; [by apply wp_create|].
    intros r tb2 [Hcr _]. apply wp_ret. unfold created in Hcr. cbv zeta in Hcr.
    destruct r as [i|[]]; try (destruct_and!; subst; by destruct Hs).
    destruct Hcr as (_ & _ & _ & q & run & tb3 & Hq & Hu & _ & _ & ->).
    assert (successor tb pd (besetzt tb1 (cspace_vergabe tb3) i
      (geboren d (if b =? 0 then CAP_BUDGET_PER_PD else b) run (Pd.epoch q)))) as [G1 G2 G3]; [|by split].
    by eapply successor_besetzt.
  - apply wp_bind. eapply wp_mono; [by apply wp_create_backend|]. intros r tb2 [Hcr _]. apply wp_ret.
    destruct r as [i|]; [|by destruct Hcr as [-> _]].
    destruct Hcr as (_ & q & run & tb3 & Hq & Hu & _ & _ & ->). by eapply successor_besetzt.
Qed.

Lemma successor_freed tb pd p : pds tb !! pd = Some p → successor tb pd (freed tb pd p).
Proof.
  intros Hp. split; [done|cbn; by rewrite length_insert|]. intros i x x' Hx. cbn.
  destruct (decide (pd = i)) as [<-|Hne].
  - rewrite list_lookup_insert_eq by (by eapply lookup_lt_Some). intros [= <-].
    rewrite decide_True by done. split; [|done]. cbn. by assert (x = p) as -> by congruence.
  - rewrite list_lookup_insert_ne by done. intros Hx'. rewrite decide_False by done.
    assert (x' = x) as -> by congruence. done.
Qed.

Lemma wrapping_succ_ne e : wrapping_add 32 e 1 ≠ e.
Proof.
  unfold wrapping_add. intros E. pose proof (Z.mod_pos_bound (e + 1) (2 ^ 32) ltac:(lia)) as Hb.
  pose proof (Z.div_mod (e + 1) (2 ^ 32) ltac:(lia)) as Hd. rewrite E in *. lia.
Qed.

(** A release unbinds every thread of the domain, and neither the reuse of the entry nor
    any other creation brings a binding back: a thread of the old domain is not taken for
    one of the new.  Every other thread stays bound to its domain. *)
Theorem release_unbinds (tb : t) (pd : nat) (p : Pd.t) (l : list op) :
  ok tb → entry_used tb pd = Some p → owner tb ≠ [] → Forall fits l → Forall creation l →
  wp (free pd ≫= λ _, run l) tb (λ _ tb',
    (∀ th, pd_of tb th = Some pd → pd_of tb' th = None) ∧
    (∀ th pd', pd' ≠ pd → pd_of tb th = Some pd' → pd_of tb' th = Some pd')).
Proof.
  intros Hok He Ho Hf Hc. apply entry_used_Some in He as [Hp Hu]. apply wp_bind, wp_free; [done| |].
  { intros He. rewrite entry_used_None in He. by rewrite (He p Hp) in Hu. }
  intros p' Hp' _. assert (p' = p) as -> by congruence.
  eapply wp_mono; [apply (wp_history (successor tb pd)); [|done|by apply ok_freed|by apply successor_freed]|].
  { intros o tb1 Hin Hok1 Hs. eapply wp_mono; [apply successor_step; [by eapply Forall_forall|by eapply Forall_forall|done|exact Hs]|].
    by intros [] tb2 Hs2 _. }
  intros [] tb' [_ [H1 H2 H3]].
  assert (∀ th pd', pd_of tb th = Some pd' → pd_of tb' th = if decide (pd' = pd) then None else Some pd') as Hof.
  { intros th pd'. rewrite !pd_of_index by (rewrite ?H1; done). rewrite H1.
    destruct (owner tb !! ThreadId.slot th) as [e|]; [|done]. destruct (_ =? _); [|done]. unfold gehoert.
    destruct (_ =? _); [done|]. cbv zeta. rewrite !list_lookup_fmap.
    set (i := Z.to_nat (ThreadOwner.pd1 e - 1)). destruct (pds tb !! i) as [x|] eqn:Hx; [|done].
    destruct (lookup_lt_is_Some_2 (pds tb') i) as [x' Hx'].
    { rewrite H2. by eapply lookup_lt_Some. }
    rewrite Hx'. destruct (H3 i x x' Hx Hx') as [E Hu']. cbn. destruct (Pd.used x) eqn:Hux; cbn; [|done].
    destruct (Z.eqb_spec (Pd.epoch x) (ThreadOwner.epoch e)) as [Ee|]; [|done]. intros [= <-]. rewrite E.
    destruct (decide (i = pd)) as [Hi|Hi].
    - rewrite <-Ee. rewrite (proj2 (Z.eqb_neq _ _)); [by destruct (Pd.used x')|]. apply wrapping_succ_ne.
    - by rewrite Hu', Ee, Z.eqb_refl. }
  split; [intros th Hth|intros th pd' Hne Hth]; rewrite (Hof _ _ Hth).
  - by rewrite decide_True.
  - by rewrite decide_False.
Qed.

Lemma release_unbinds_witness :
  wp (free 0 ≫= λ _, run [Create UserLand 0 0]) demo_bound (λ _ tb',
    (∀ th, pd_of demo_bound th = Some 0%nat → pd_of tb' th = None) ∧
    (∀ th pd', pd' ≠ 0%nat → pd_of demo_bound th = Some pd' → pd_of tb' th = Some pd')).
Proof.
  apply (release_unbinds demo_bound 0 (geboren TrustedSas 10 (0, 16) 0) [Create UserLand 0 0]).
  - apply demo_bound_ok.
  - reflexivity.
  - done.
  - repeat (constructor; cbn; [lia|]). constructor.
  - repeat (constructor; [done|]). constructor.
Defined.

(** ** Sidecar slots *)

Definition sidecar_mask (tb : t) (h : nat) : Z := match entry_used tb h with Some p => Pd.sidecar_used p | None => 0 end.

Lemma trailing_ones_Some z : in_width 64 z → z ≠ max_value 64 →
  0 <= trailing_ones z < 64 ∧ Z.testbit z (trailing_ones z) = false ∧
  ∀ i, 0 <= i < trailing_ones z → Z.testbit z i = true.
Proof.
  intros Hz Hne. unfold trailing_ones.
  destruct (position (λ i, negb (Z.testbit z (Z.of_nat i))) (seq 0 64)) as [k|] eqn:E.
  - apply position_Some in E as [(x & Hx & Hb) Hmin]. apply lookup_seq in Hx as [-> Hk]. cbn [default Nat.add id] in *.
    apply negb_true_iff in Hb. split_and!; [lia|lia|done|]. intros i Hi. apply negb_false_iff.
    specialize (Hmin (Z.to_nat i) (Z.to_nat i) ltac:(lia)). rewrite Z2Nat.id in Hmin by lia. apply Hmin.
    apply lookup_seq. lia.
  - rewrite position_None in E. destruct Hne. unfold max_value. change (2 ^ 64 - 1) with (Z.ones 64).
    apply Z.bits_inj'. intros i Hi. destruct (Z.ltb_spec i 64).
    + rewrite Z.ones_spec_low by lia. specialize (E (Z.to_nat i)). rewrite Z2Nat.id in E by lia.
      apply negb_false_iff, E, elem_of_seq. lia.
    + rewrite Z.ones_spec_high by lia. unfold in_width in Hz. destruct (decide (z = 0)) as [->|]; [apply Z.bits_0|].
      apply Z.bits_above_log2; [lia|]. apply Z.log2_lt_pow2; [lia|]. apply Z.lt_le_trans with (2 ^ 64); [lia|].
      apply Z.pow_le_mono_r; lia.
Qed.

(** A guest gets the lowest sidecar slot that is free, exactly that slot becomes taken,
    and none is given only when all 64 are taken; giving the slot back restores the mask
    and reports that it was taken. *)
Theorem sidecar_exact (tb : t) (h : nat) (p : Pd.t) :
  entry_used tb h = Some p → in_width 64 (Pd.sidecar_used p) →
  wp (sidecar_belegen h) tb (λ r tb',
    match r with
    | None => tb' = tb ∧ ∀ i, 0 <= i < SIDECAR_SLOTS → Z.testbit (Pd.sidecar_used p) i = true
    | Some s => 0 <= s < SIDECAR_SLOTS ∧ Z.testbit (Pd.sidecar_used p) s = false ∧
        (∀ i, 0 <= i < s → Z.testbit (Pd.sidecar_used p) i = true) ∧
        (∀ i, 0 <= i → Z.testbit (sidecar_mask tb' h) i = (i =? s) || Z.testbit (Pd.sidecar_used p) i) ∧
        wp (sidecar_freigeben h s) tb' (λ r tb'', r = true ∧ sidecar_mask tb'' h = Pd.sidecar_used p)
    end).
Proof.
  intros He Hw. pose proof He as [Hp Hu]%entry_used_Some. unfold sidecar_belegen. apply wp_bind, wp_gets. rewrite He.
  cbv zeta. destruct (Z.eqb_spec (Pd.sidecar_used p) (max_value 64)) as [->|Hne].
  { apply wp_ret. split; [done|]. intros i Hi. unfold max_value. change (2 ^ 64 - 1) with (Z.ones 64).
    apply Z.ones_spec_low. unfold SIDECAR_SLOTS in Hi. lia. }
  destruct (trailing_ones_Some _ Hw Hne) as (Hs & Hb & Hlow). set (s := trailing_ones (Pd.sidecar_used p)) in *.
  set (m := Z.lor (Pd.sidecar_used p) (Z.shiftl 1 s)).
  assert (∀ i, 0 <= i → Z.testbit m i = (i =? s) || Z.testbit (Pd.sidecar_used p) i) as Hm.
  { intros i Hi. unfold m. rewrite Z.lor_spec, Z.shiftl_1_l, Z.pow2_bits_eqb, orb_comm, (Z.eqb_sym s) by lia. done. }
  apply wp_bind. eapply wp_upd_pd; [exact Hp|]. apply wp_ret. set (tb' := with_pds _ tb).
  assert (entry_used tb' h = Some (Pd.with_sidecar_used m p)) as He'.
  { apply entry_used_Some. split; [|done]. unfold tb'. cbn [with_pds pds]. by rewrite (alter_at _ _ _ p). }
  split_and!; [lia|unfold SIDECAR_SLOTS; lia|done|done|unfold sidecar_mask; by rewrite He'|].
  unfold sidecar_freigeben. apply wp_bind, wp_gets. rewrite He'. rewrite (proj2 (Z.leb_gt _ _)) by (unfold SIDECAR_SLOTS; lia).
  cbv zeta. apply entry_used_Some in He' as [Hp' _]. apply wp_bind. eapply wp_upd_pd; [exact Hp'|]. apply wp_ret. split.
  - apply negb_true_iff, Z.eqb_neq. intros E. apply (f_equal (λ z, Z.testbit z s)) in E. revert E.
    rewrite Z.land_spec, Z.bits_0. cbn [Pd.with_sidecar_used Pd.sidecar_used].
    rewrite Hm, Z.eqb_refl, Z.shiftl_1_l, Z.pow2_bits_true by lia. done.
  - unfold sidecar_mask, entry_used. cbn [with_pds pds]. rewrite (alter_at _ _ _ _ Hp').
    cbn [Pd.with_sidecar_used Pd.sidecar_used Pd.used]. rewrite Hu.
    change (Z.ldiff m (Z.shiftl 1 s) = Pd.sidecar_used p).
    apply Z.bits_inj'. intros i Hi. rewrite Z.ldiff_spec, Hm, Z.shiftl_1_l, Z.pow2_bits_eqb, (Z.eqb_sym s) by lia.
    destruct (Z.eqb_spec i s) as [->|]; [by rewrite Hb|]. cbn. by rewrite andb_true_r.
Qed.

Lemma sidecar_exact_witness :
  wp (sidecar_belegen 0) demo_bound (λ r tb', r = Some 0 ∧
    wp (sidecar_freigeben 0 0) tb' (λ r tb'', r = true ∧ sidecar_mask tb'' 0 = 0)).
Proof.
  pose proof (sidecar_exact demo_bound 0 (geboren TrustedSas 10 (0, 16) 0) eq_refl ltac:(by unfold in_width)) as Hwp.
  assert (wp (sidecar_belegen 0) demo_bound (λ r _, r = Some 0)) as H0 by (vm_compute; reflexivity).
  eapply wp_mono; [exact (wp_and _ _ _ _ H0 Hwp)|].
  intros r tb' [-> (_ & _ & _ & _ & Hfree)]. split; [done|exact Hfree].
Defined.
