(* ===== verification/PdCaps.v ===== *)
(** * The capability space and the protection domains together

    [Caps] of [src/crates/caprock-microkit/src/lib.rs]: the state behind the lock [CAPS].
    Which capability a domain may hold, the checked installation, the prediction for a
    whole endowment, the reserve of the kernel, and the audits of the domains and of the
    DMA regions.  *)

From S2P Require Import Prelude PanicMonad CapObject CapSpace CapInv CapOps SchedData Cspace PdTable.
#[local] Open Scope Z_scope.

Definition kind_is_hardware (kind : ObjectKind) : bool :=
  match kind with Mmio _ _ | Irq _ | Dma _ _ _ _ => true | _ => false end.
Definition kind_is_pd_control (kind : ObjectKind) : bool :=
  match kind with PdControl _ | Loader _ => true | _ => false end.
Definition kind_is_handler (kind : ObjectKind) : bool :=
  match kind with SyscallHandler _ _ _ _ | FaultHandler _ _ _ _ => true | _ => false end.
Definition domain_allows_kind (domain : Domain) (kind : ObjectKind) : bool :=
  if kind_is_hardware kind then bool_decide (domain = HardwareLand)
  else if kind_is_pd_control kind || kind_is_handler kind then bool_decide (domain = TrustedSas)
  else true.

Module Caps.
Record t := mk { cspace : CapSpace.t; pds : PdTable.t }.
Definition eta (s : t) : t := mk (cspace s) (pds s).
Definition with_cspace v s := ltac:(set_field eta cspace s v).
Definition with_pds v s := ltac:(set_field eta pds s v).
Definition new : t := mk CapSpace.new PdTable.new.
Definition on_cspace {B} (m : M CapSpace.t B) : M t B := zoom cspace with_cspace m.
Definition on_pds {B} (m : M PdTable.t B) : M t B := zoom pds with_pds m.

(** ** Installation *)

Definition cap_allowed (pd : nat) (cap : CapPtr.t) : M t bool :=
  s ← gets (λ s, s);
  match PdTable.domain_of (pds s) pd with
  | None => mret false
  | Some domain =>
      o ← on_cspace (CapSpace.lookup cap);
      match o with
      | None => mret false
      | Some (kind, _, _) =>
          if negb (domain_allows_kind domain kind) then mret false
          else if bool_decide (domain = HardwareLand) then
            let (cep, cntfn) := PdTable.chan_of (pds s) pd in
            let irq := PdTable.irq_ntfn_of (pds s) pd in
            match kind with
            | Endpoint id => if negb (id =? cep) then mret false else mret true
            | Notification id => if negb (id =? cntfn) && negb (id =? irq) then mret false else mret true
            | _ => mret true
            end
          else mret true
      end
  end.

Definition budget_allows (s : t) (pd slot : nat) : bool :=
  if PdTable.cap_at (pds s) pd slot then true
  else Z.of_nat (PdTable.cap_count (pds s) pd) <? PdTable.budget_of (pds s) pd.

Definition install_cap_checked (pd slot : nat) (cap : CapPtr.t) : M t bool :=
  a ← cap_allowed pd cap;
  s ← gets (λ s, s);
  if negb a || negb (budget_allows s pd slot) then mret false
  else on_pds (PdTable.install_cap pd slot cap) ≫= λ _, mret true.

Fixpoint endowment_loop (pd : nat) (angebote : Z) (endow : list (nat * CapPtr.t))
    (abgelehnte_angebote neue_slots : nat) : M t (result nat nat) :=
  match endow with
  | [] => mret (Ok abgelehnte_angebote)
  | (slot, cap) :: endow =>
      s ← gets (λ s, s);
      if decide (PdTable.cspace_len_von (pds s) pd ≤ slot)%nat then mret (Err slot)
      else
        let ist_neu := bool_decide (PdTable.cap_at (pds s) pd slot = None) in
        a ← cap_allowed pd cap;
        if a && (negb ist_neu ||
                 (Z.of_nat (PdTable.cap_count (pds s) pd + neue_slots) <? PdTable.budget_of (pds s) pd))
        then endowment_loop pd angebote endow abgelehnte_angebote (neue_slots + if ist_neu then 1 else 0)
        else if bool_decide (slot < 16)%nat && negb (Z.land angebote (Z.shiftl 1 (Z.of_nat slot)) =? 0)
        then endowment_loop pd angebote endow (abgelehnte_angebote + 1) neue_slots
        else mret (Err slot)
  end.
Definition endowment_fits (pd : nat) (endow : list (nat * CapPtr.t)) (angebote : Z) : M t (result nat nat) :=
  endowment_loop pd angebote endow 0 0.

(** ** The kernel's reserve *)

(** One domain: every slot of the capability space that a handle of it resolves to. *)
Definition mark_pd (s : t) (pd : nat) (seen : list bool) : list bool :=
  if negb (PdTable.is_used (pds s) pd) then seen
  else
    foldl (λ seen slot,
      match PdTable.cap_at (pds s) pd slot with
      | Some cap => (CapSpace.mark_slot (cspace s) cap seen).2
      | None => seen
      end) seen (seq 0 (PdTable.cspace_len_von (pds s) pd)).

Definition nonbudget_slots (s : t) (seen : list bool) : option nat :=
  let (nslots, _) := CapSpace.capacity (cspace s) in
  if decide (length seen < nslots)%nat then None
  else
    let seen := replicate nslots false ++ drop nslots seen in
    let seen := foldl (λ seen pd, mark_pd s pd seen) seen (seq 0 (PdTable.capacity (pds s))) in
    CapSpace.unmarked_used_slots (cspace s) seen.

Definition kernel_reserve_ok (s : t) (seen : list bool) : option bool :=
  (λ n, bool_decide (n ≤ CAP_SLOTS_KERNEL_RESERVE)%nat) <$> nonbudget_slots s seen.

(** ** The audit of the domains

    A loop that leaves with the first code. *)
Fixpoint first_code {S} (f : nat → M S (option Z)) (l : list nat) : M S (option Z) :=
  match l with
  | [] => mret None
  | i :: l => o ← f i; match o with Some c => mret (Some c) | None => first_code f l end
  end.

Definition audit_type (pd : nat) (domain : Domain) (slot : nat) : M t (option Z) :=
  s ← gets (λ s, s);
  match PdTable.cap_at (pds s) pd slot with
  | None => mret None
  | Some cap =>
      o ← on_cspace (CapSpace.lookup cap);
      match o with
      | None => mret None
      | Some (kind, _, _) =>
          if kind_is_hardware kind && bool_decide (domain ≠ HardwareLand) then mret (Some 1)
          else if kind_is_pd_control kind && bool_decide (domain ≠ TrustedSas) then mret (Some 2)
          else mret None
      end
  end.

Definition audit_channel (pd : nat) (cep cntfn : Z) (slot : nat) : M t (option Z) :=
  s ← gets (λ s, s);
  match PdTable.cap_at (pds s) pd slot with
  | None => mret None
  | Some cap =>
      o ← on_cspace (CapSpace.lookup cap);
      match o with
      | None => mret None
      | Some (kind, _, _) =>
          match kind with
          | Endpoint id => if negb (id =? cep) then mret (Some 5) else mret None
          | Notification id => if negb (id =? cntfn) then mret (Some 5) else mret None
          | _ => mret None
          end
      end
  end.

Definition audit_pd (is_live_global : ThreadId.t → bool) (pd : nat) : M t (option Z) :=
  s ← gets (λ s, s);
  if negb (PdTable.is_used (pds s) pd) then mret None
  else
    match PdTable.domain_of (pds s) pd with
    | None => mret None
    | Some domain =>
        o ← first_code (audit_type pd domain) (seq 0 (PdTable.cspace_len_von (pds s) pd));
        match o with
        | Some c => mret (Some c)
        | None =>
            if bool_decide (domain ≠ TrustedSas) && PdTable.any_thread (pds s) pd is_live_global
            then mret (Some 3)
            else if bool_decide (domain = HardwareLand) then
              if match PdTable.partner_of (pds s) pd with
                 | Some t => bool_decide (PdTable.domain_of (pds s) t = Some TrustedSas)
                 | None => false
                 end
              then
                let (cep, cntfn) := PdTable.chan_of (pds s) pd in
                first_code (audit_channel pd cep cntfn) (seq 0 (PdTable.cspace_len_von (pds s) pd))
              else mret (Some 4)
            else mret None
        end
    end.

Definition domain_audit (is_live_global : ThreadId.t → bool) : M t Z :=
  s ← gets (λ s, s);
  o ← first_code (audit_pd is_live_global) (seq 0 (PdTable.capacity (pds s)));
  mret (default 0 o).

(** ** The audit of the DMA regions *)

Definition dma_bad (floor ceil : Z) (r : Z * Z) : bool :=
  let '(phys, len) := r in
  (len =? 0) || negb (phys mod 4096 =? 0) || negb (len mod 4096 =? 0) || (phys <? floor)
  || (ceil <? saturating_add 64 phys len).

Definition dma_overlap (r s : Z * Z) : bool :=
  let '(a0, al) := r in let '(b0, bl) := s in
  (a0 <? wrapping_add 64 b0 bl) && (b0 <? wrapping_add 64 a0 al).

(** [for i in 0..n { for j in i + 1..n { .. return 2 } }] *)
Fixpoint dma_pairs (regs : list (Z * Z)) : Z :=
  match regs with
  | [] => 0
  | r :: regs => if existsb (dma_overlap r) regs then 2 else dma_pairs regs
  end.

(** The regions are collected in an array of 32 entries. *)
Definition dma_bounds_audit (s : t) (floor ceil : Z) : Z :=
  let all := CapSpace.for_each_dma (cspace s) in
  if existsb (dma_bad floor ceil) all then 1 else dma_pairs (take 32 all).
End Caps.
