(* ===== verification/PdPolicy.v ===== *)
(** * Which capabilities a domain holds

    The checked installation of [Caps] and its prediction for a whole endowment
    ([src/crates/caprock-microkit/src/lib.rs]): exactly the capabilities the policy of the
    domain and its own budget allow are installed, and [endowment_fits] answers what the
    installations would do, without doing them.  *)

From S2P Require Import Prelude PanicMonad Region CapObject CapSpace CapInv CapOps SchedData Cspace.
From S2P Require Import PdTable PdSystem PdProps PdCaps.
Import Caps.
#[local] Open Scope Z_scope.

(** ** What a handle designates *)
Definition sicht (c : CapSpace.t) (p : CapPtr.t) : option ObjectKind :=
  match CapSpace.resolve_in c p with
  | Err _ => None
  | Ok slot =>
      s ← CapSpace.slots c !! slot; o ← CapSpace.objects c !! CapSlot.object s;
      Some (CapSpace.effective_kind s (Object.kind o))
  end.

Lemma wp_lookup c p (R : option (ObjectKind * Rights.t * Z) → CapSpace.t → Prop) :
  inv c → (∀ r, (λ x, x.1.1) <$> r = sicht c p → R r c) → wp (CapSpace.lookup p) c R.
Proof.
  intros Hi HR. unfold CapSpace.lookup, sicht in *. apply wp_bind, wp_gets. unfold CapSpace.resolve_in in *.
  destruct (CapSpace.slots c !! CapPtr.slot p) as [s|] eqn:Hs; [|by apply wp_ret, HR].
  destruct (CapSlot.used s) eqn:Hu; cbn [andb] in *; [|by apply wp_ret, HR].
  destruct (_ =? _); [|by apply wp_ret, HR]. rewrite Hs in HR. cbn [mbind option_bind] in HR.
  destruct (lookup_lt_is_Some_2 _ _ (ob_in_table _ _ (inv_objects _ Hi) _ _ Hs Hu)) as [o Ho]. rewrite Ho in HR.
  apply wp_bind. eapply wp_slot_at; [exact Hs|]. apply wp_bind. eapply wp_object_at; [exact Ho|].
  apply wp_ret. by apply HR.
Qed.

(** The policy of the domains as a predicate. *)
Definition channel_allows (tb : PdTable.t) (pd : nat) (k : ObjectKind) : bool :=
  match k with
  | Endpoint id => id =? (PdTable.chan_of tb pd).1
  | Notification id => (id =? (PdTable.chan_of tb pd).2) || (id =? PdTable.irq_ntfn_of tb pd)
  | _ => true
  end.
Definition kind_allowed (tb : PdTable.t) (pd : nat) (k : ObjectKind) : bool :=
  match PdTable.domain_of tb pd with
  | Some d => domain_allows_kind d k && (bool_decide (d ≠ HardwareLand) || channel_allows tb pd k)
  | None => false
  end.
Definition erlaubt (s : t) (pd : nat) (cap : CapPtr.t) : bool :=
  match sicht (cspace s) cap with Some k => kind_allowed (pds s) pd k | None => false end.

Lemma wp_on_cspace {B} (m : M CapSpace.t B) s (R : B → t → Prop) :
  wp m (cspace s) (λ r c, R r (with_cspace c s)) → wp (on_cspace m) s R.
Proof. intros Hm. by apply wp_zoom. Qed.
Lemma wp_on_pds {B} (m : M PdTable.t B) s (R : B → t → Prop) :
  wp m (pds s) (λ r c, R r (with_pds c s)) → wp (on_pds m) s R.
Proof. intros Hm. by apply wp_zoom. Qed.

Lemma with_cspace_id s : with_cspace (cspace s) s = s.
Proof. by destruct s. Qed.

Lemma wp_on_lookup s p (R : option (ObjectKind * Rights.t * Z) → t → Prop) :
  inv (cspace s) → (∀ r, (λ x, x.1.1) <$> r = sicht (cspace s) p → R r s) → wp (on_cspace (CapSpace.lookup p)) s R.
Proof.
  intros Hi HR. apply wp_on_cspace, wp_lookup; [done|]. intros r Hr. rewrite with_cspace_id. by apply HR.
Qed.

Lemma wp_cap_allowed s pd cap (R : bool → t → Prop) :
  inv (cspace s) → R (erlaubt s pd cap) s → wp (cap_allowed pd cap) s R.
Proof.
  intros Hi HR. unfold cap_allowed, erlaubt, kind_allowed in *. apply wp_bind, wp_gets.
  destruct (PdTable.domain_of (pds s) pd) as [d|]; [|apply wp_ret; by destruct (sicht _ _)].
  apply wp_bind, wp_on_lookup; [done|]. intros r Hr. rewrite <-Hr in HR. destruct r as [[[k rt] b]|]; [|by apply wp_ret].
  cbn [fmap option_fmap option_map fst] in HR. destruct (domain_allows_kind d k); cbn [negb andb] in *; [|by apply wp_ret].
  unfold channel_allows in HR. destruct (PdTable.chan_of (pds s) pd) as [cep cntfn]. cbn [fst snd] in HR.
  destruct (decide (d = HardwareLand)) as [->|Hd].
  - rewrite bool_decide_eq_true_2 by done. rewrite bool_decide_eq_false_2 in HR by naive_solver. cbn [orb] in HR.
    destruct k; try (by apply wp_ret).
    + by destruct (ep =? cep).
    + cbv zeta. by destruct (ntfn =? cntfn), (ntfn =? _).
  - rewrite bool_decide_eq_false_2 by done. rewrite bool_decide_eq_true_2 in HR by done. by apply wp_ret.
Qed.

(** ** The number of capabilities of a domain *)

Definition held (p : Pd.t) (pool : list (option CapPtr.t)) : list (option CapPtr.t) :=
  take (Z.to_nat (Pd.cspace_len p)) (drop (Z.to_nat (Pd.cspace_start p)) pool).

Lemma held_lookup p pool slot : (slot < Z.to_nat (Pd.cspace_len p))%nat →
  held p pool !! slot = pool !! (Z.to_nat (Pd.cspace_start p) + slot)%nat.
Proof. intros Hs. unfold held. by rewrite lookup_take_lt, lookup_drop by done. Qed.

Lemma held_insert p pool slot c : (slot < Z.to_nat (Pd.cspace_len p))%nat →
  held p (<[(Z.to_nat (Pd.cspace_start p) + slot)%nat := c]> pool) = <[slot := c]> (held p pool).
Proof.
  intros Hs. apply list_eq. intros i. destruct (decide (i < Z.to_nat (Pd.cspace_len p))%nat) as [Hi|Hi].
  - rewrite held_lookup by done. destruct (decide (slot = i)) as [<-|Hne].
    + destruct (decide (Z.to_nat (Pd.cspace_start p) + slot < length pool)%nat).
      * rewrite list_lookup_insert_eq by done. rewrite list_lookup_insert_eq; [done|].
        unfold held. rewrite length_take, length_drop. lia.
      * rewrite !(proj2 (lookup_ge_None _ _)); [done| |]; rewrite ?length_insert; unfold held;
          rewrite ?length_take, ?length_drop; lia.
    + rewrite !list_lookup_insert_ne by lia. by rewrite held_lookup.
  - rewrite !(proj2 (lookup_ge_None _ _)); [done| |]; rewrite ?length_insert; unfold held;
      rewrite ?length_take; lia.
Qed.

Lemma cap_count_put tb pd slot c p : ok tb → PdTable.entry_used tb pd = Some p → (slot < Z.to_nat (Pd.cspace_len p))%nat →
  (PdTable.cap_count (slot_put pd slot (Some c) tb) pd =
   PdTable.cap_count tb pd + if PdTable.cap_at tb pd slot then 0 else 1)%nat.
Proof.
  intros Hok He Hs. unfold PdTable.cap_count. rewrite slot_put_used, He.
  rewrite (cap_at_pool tb Hok pd p slot He Hs). pose proof He as [Hp _]%entry_used_Some.
  unfold slot_put. rewrite Hp, decide_True by done. cbn [PdTable.with_cspace_pool PdTable.cspace_pool].
  fold (held p (PdTable.cspace_pool tb)).
  change (take _ (drop _ (<[_ := _]> _))) with
    (held p (<[(Z.to_nat (Pd.cspace_start p) + slot)%nat := Some c]> (PdTable.cspace_pool tb))).
  rewrite held_insert by done. pose proof (run_in_pool tb Hok pd p Hp) as (Hr & _).
  destruct (lookup_lt_is_Some_2 (PdTable.cspace_pool tb) (Z.to_nat (Pd.cspace_start p) + slot)%nat) as [x Hx]; [lia|].
  rewrite Hx. cbn [mjoin option_join].
  pose proof (count_if_insert (λ c, bool_decide (c ≠ None)) (held p (PdTable.cspace_pool tb)) slot x (Some c)) as E.
  rewrite held_lookup in E by done. specialize (E Hx). rewrite (bool_decide_eq_true_2 (Some c ≠ None)) in E by done.
  destruct x as [x|].
  - rewrite (bool_decide_eq_true_2 (Some x ≠ None)) in E by done. cbn. lia.
  - rewrite (bool_decide_eq_false_2 (None ≠ None)) in E by (intros Hn; by apply Hn). cbn. lia.
Qed.

(** ** The checked installation *)

Lemma wp_install_checked s pd slot cap (R : bool → t → Prop) :
  inv (cspace s) →
  (erlaubt s pd cap && budget_allows s pd slot = false → R false s) →
  (erlaubt s pd cap = true → budget_allows s pd slot = true →
     R true (with_pds (slot_put pd slot (Some cap) (pds s)) s)) →
  wp (install_cap_checked pd slot cap) s R.
Proof.
  intros Hi Hno Hyes. unfold install_cap_checked. apply wp_bind, wp_cap_allowed; [done|]. apply wp_bind, wp_gets.
  destruct (erlaubt s pd cap); cbn [negb orb andb] in *; [|by apply wp_ret, Hno].
  destruct (budget_allows s pd slot); cbn [negb] in *; [|by apply wp_ret, Hno].
  apply wp_bind, wp_on_pds. unfold wp. rewrite install_cap_runs. by apply Hyes.
Qed.

Lemma erlaubt_used s pd cap : erlaubt s pd cap = true → ∃ p, PdTable.entry_used (pds s) pd = Some p.
Proof.
  unfold erlaubt, kind_allowed, PdTable.domain_of. destruct (sicht _ _); [|done].
  destruct (PdTable.entry_used (pds s) pd) as [p|]; [by exists p|done].
Qed.

(** A capability is installed exactly when the policy of the domain allows its kind and
    the domain has a slot of its budget left or the slot is taken already.  Then the slot,
    if the domain has it, holds that capability, all other slots of the domain are as they
    were, and the number of capabilities grows by one where the slot was empty: it never
    grows past the budget.  A refusal changes nothing. *)
Theorem install_checked_exact (s : t) (pd slot : nat) (cap : CapPtr.t) :
  inv (cspace s) → ok (pds s) →
  wp (install_cap_checked pd slot cap) s (λ r s',
    r = erlaubt s pd cap && (bool_decide (PdTable.cap_at (pds s) pd slot ≠ None) ||
          (Z.of_nat (PdTable.cap_count (pds s) pd) <? PdTable.budget_of (pds s) pd)) ∧
    (r = false → s' = s) ∧
    (r = true → cspace s' = cspace s ∧
       (∀ slot', PdTable.cap_at (pds s') pd slot' =
          if decide (slot' = slot ∧ (slot < PdTable.cspace_len_von (pds s) pd)%nat) then Some cap
          else PdTable.cap_at (pds s) pd slot') ∧
       (Z.of_nat (PdTable.cap_count (pds s) pd) <= PdTable.budget_of (pds s) pd →
        Z.of_nat (PdTable.cap_count (pds s') pd) <= PdTable.budget_of (pds s') pd))).
Proof.
  intros Hi Hok.
  assert (budget_allows s pd slot = bool_decide (PdTable.cap_at (pds s) pd slot ≠ None) ||
    (Z.of_nat (PdTable.cap_count (pds s) pd) <? PdTable.budget_of (pds s) pd)) as Eb.
  { unfold budget_allows. by destruct (PdTable.cap_at (pds s) pd slot). }
  apply wp_install_checked; [done| |].
  - intros E. rewrite <-Eb. split_and!; [done|done|done].
  - intros E1 E2. rewrite <-Eb, E1, E2. split; [done|]. split; [done|]. intros _.
    destruct (erlaubt_used _ _ _ E1) as [p He]. cbn [with_pds cspace pds]. split; [done|]. split.
    + intros slot'. rewrite (cap_at_slot_put _ _ _ _ _ _ p) by (done || by left).
      unfold PdTable.cspace_len_von. rewrite He. apply decide_ext. naive_solver.
    + intros Hle. unfold PdTable.budget_of. rewrite slot_put_used. unfold PdTable.budget_of in Hle. rewrite He in *.
      destruct (decide (slot < Z.to_nat (Pd.cspace_len p))%nat) as [Hs|Hs].
      * rewrite (cap_count_put _ _ _ _ p) by done. unfold budget_allows, PdTable.budget_of in E2. rewrite He in E2.
        destruct (PdTable.cap_at (pds s) pd slot); [lia|]. apply Z.ltb_lt in E2. lia.
      * unfold slot_put. pose proof He as [Hp _]%entry_used_Some. rewrite Hp. by rewrite decide_False.
Qed.

(** ** A whole endowment *)

(** The installations of the load path, one after the other. *)
Fixpoint install_all (pd : nat) (endow : list (nat * CapPtr.t)) : M t (list bool) :=
  match endow with
  | [] => mret []
  | (slot, cap) :: endow => b ← install_cap_checked pd slot cap; bs ← install_all pd endow; mret (b :: bs)
  end.

Definition offered (angebote : Z) (slot : nat) : bool :=
  bool_decide (slot < 16)%nat && negb (Z.land angebote (Z.shiftl 1 (Z.of_nat slot)) =? 0).

(** [s1] is [s] after installations at other slots than those of [rest], [neu] of which
    were empty. *)
Record installed (s : t) (pd : nat) (rest : list nat) (neu : nat) (s1 : t) : Prop := {
  in_cspace : cspace s1 = cspace s;
  in_entries : PdTable.pds (pds s1) = PdTable.pds (pds s);
  in_ok : ok (pds s1);
  in_count : PdTable.cap_count (pds s1) pd = (PdTable.cap_count (pds s) pd + neu)%nat;
  in_slots slot : slot ∈ rest → PdTable.cap_at (pds s1) pd slot = PdTable.cap_at (pds s) pd slot }.

Lemma entries_same tb tb' : PdTable.pds tb' = PdTable.pds tb →
  (∀ pd, PdTable.entry_used tb' pd = PdTable.entry_used tb pd) ∧ (∀ pd, PdTable.entry tb' pd = PdTable.entry tb pd).
Proof. intros E. unfold PdTable.entry_used, PdTable.entry. by rewrite E. Qed.

Lemma installed_erlaubt s pd rest neu s1 cap : installed s pd rest neu s1 → erlaubt s1 pd cap = erlaubt s pd cap.
Proof.
  intros [Ec Ee _ _ _]. destruct (entries_same _ _ Ee) as [E1 E2].
  unfold erlaubt, kind_allowed, channel_allows, PdTable.domain_of, PdTable.chan_of, PdTable.irq_ntfn_of.
  by rewrite Ec, E1, E2.
Qed.

Lemma installed_budget s pd rest neu s1 slot : installed s pd rest neu s1 → slot ∈ rest →
  budget_allows s1 pd slot = negb (bool_decide (PdTable.cap_at (pds s) pd slot = None)) ||
    (Z.of_nat (PdTable.cap_count (pds s) pd + neu) <? PdTable.budget_of (pds s) pd).
Proof.
  intros [Ec Ee _ En Es] Hs. destruct (entries_same _ _ Ee) as [E1 _].
  unfold budget_allows, PdTable.budget_of. rewrite Es, En, E1 by done.
  by destruct (PdTable.cap_at (pds s) pd slot).
Qed.

Lemma installed_weaken s pd slot rest neu s1 : installed s pd (slot :: rest) neu s1 → installed s pd rest neu s1.
Proof. intros [H1 H2 H3 H4 H5]. split; try done. intros k Hk. apply H5. by right. Qed.

Lemma installed_put s pd slot cap rest neu s1 p : installed s pd (slot :: rest) neu s1 → slot ∉ rest →
  PdTable.entry_used (pds s) pd = Some p → (slot < Z.to_nat (Pd.cspace_len p))%nat →
  installed s pd rest (neu + if bool_decide (PdTable.cap_at (pds s) pd slot = None) then 1 else 0)
    (with_pds (slot_put pd slot (Some cap) (pds s1)) s1).
Proof.
  intros [Ec Ee Hok En Es] Hn He Hs. destruct (entries_same _ _ Ee) as [E1 _].
  assert (PdTable.entry_used (pds s1) pd = Some p) as He1 by (by rewrite E1).
  split; cbn [with_pds cspace pds].
  - done.
  - by rewrite slot_put_pds.
  - eapply quiet_ok; [apply slot_put_quiet|done].
  - rewrite (cap_count_put _ _ _ _ p), En, Es by (done || by left).
    destruct (PdTable.cap_at (pds s) pd slot); cbn; lia.
  - intros k Hk. rewrite (cap_at_slot_put _ _ _ _ _ _ p) by (done || by left).
    rewrite decide_False by (intros (_ & -> & _); done). apply Es. by right.
Qed.

(** What the prediction [r] for [endow] says of the installations from [s1] on. *)
Definition predicted (pd : nat) (angebote : Z) (endow : list (nat * CapPtr.t)) (abg : nat) (s1 : t)
    (r : result nat nat) : Prop :=
  match r with
  | Ok n =>
      wp (install_all pd endow) s1 (λ bs s2,
        n = (abg + count_if negb bs)%nat ∧
        Forall2 (λ e b, if b : bool then PdTable.cap_at (pds s2) pd e.1 = Some e.2
                        else offered angebote e.1 = true) endow bs ∧
        ∀ slot, slot ∉ endow.*1 → PdTable.cap_at (pds s2) pd slot = PdTable.cap_at (pds s1) pd slot)
  | Err slot =>
      ∃ pre cap post, endow = pre ++ (slot, cap) :: post ∧
        wp (install_all pd pre) s1 (λ _ s2,
          (PdTable.cspace_len_von (pds s2) pd ≤ slot)%nat ∨
          offered angebote slot = false ∧ wp (install_cap_checked pd slot cap) s2 (λ b _, b = false))
  end.

(** One capability ahead of a prediction. *)
Lemma predicted_cons pd angebote slot cap endow abg abg' s1 s1' b r : slot ∉ endow.*1 →
  wp (install_cap_checked pd slot cap) s1 (λ b' s', b' = b ∧ s' = s1') →
  (if b then PdTable.cap_at (pds s1') pd slot = Some cap else offered angebote slot = true) →
  (∀ k, k ≠ slot → PdTable.cap_at (pds s1') pd k = PdTable.cap_at (pds s1) pd k) →
  abg' = (abg + if b then 0 else 1)%nat →
  predicted pd angebote endow abg' s1' r → predicted pd angebote ((slot, cap) :: endow) abg s1 r.
Proof.
  intros Hn Hi Hb Hk -> Hp. unfold predicted in *. destruct r as [n|sl].
  - cbn [install_all]. apply wp_bind. eapply wp_mono; [exact Hi|]. intros b' s' [-> ->]. apply wp_bind.
    eapply wp_mono; [exact Hp|]. intros bs s2 (-> & Hf & Ho). apply wp_ret. split_and!.
    + rewrite count_if_cons. destruct b; cbn [negb]; lia.
    + constructor; [|done]. destruct b; [|done]. cbn [fst snd]. by rewrite Ho.
    + intros k Hk'. cbn in Hk'. rewrite Ho by set_solver. apply Hk. set_solver.
  - destruct Hp as (pre & c & post & -> & Hp). exists ((slot, cap) :: pre), c, post. split; [done|].
    cbn [install_all]. apply wp_bind. eapply wp_mono; [exact Hi|]. intros b' s' [-> ->]. apply wp_bind.
    eapply wp_mono; [exact Hp|]. intros bs s2 Hs2. by apply wp_ret.
Qed.

Lemma endowment_loop_spec s pd angebote endow abg neu s1 : inv (cspace s) →
  installed s pd endow.*1 neu s1 → NoDup endow.*1 →
  wp (endowment_loop pd angebote endow abg neu) s (λ r s', s' = s ∧ predicted pd angebote endow abg s1 r).
Proof.
  intros Hi. revert abg neu s1. induction endow as [|[slot cap] endow IH]; intros abg neu s1 HJ Hnd; cbn [endowment_loop].
  { apply wp_ret. split; [done|]. cbn. split_and!; [|constructor|done]. unfold count_if. cbn. lia. }
  cbn [fmap list_fmap fst] in HJ, Hnd. apply NoDup_cons in Hnd as [Hn Hnd]. apply wp_bind, wp_gets.
  assert (inv (cspace s1)) as Hi1 by (by rewrite (in_cspace _ _ _ _ _ HJ)).
  destruct (entries_same _ _ (in_entries _ _ _ _ _ HJ)) as [E1 _].
  case_decide as Hlen.
  { apply wp_ret. split; [done|]. exists [], cap, endow. split; [done|]. apply wp_ret. left.
    unfold PdTable.cspace_len_von in *. by rewrite E1. }
  destruct (PdTable.entry_used (pds s) pd) as [p|] eqn:He; [|unfold PdTable.cspace_len_von in Hlen; rewrite He in Hlen; lia].
  assert (slot < Z.to_nat (Pd.cspace_len p))%nat as Hs by (unfold PdTable.cspace_len_von in Hlen; rewrite He in Hlen; lia).
  cbv zeta. apply wp_bind, wp_cap_allowed; [done|].
  set (neu0 := bool_decide (PdTable.cap_at (pds s) pd slot = None)).
  pose proof (installed_budget _ _ _ _ _ slot HJ ltac:(by left)) as Eb. fold neu0 in Eb.
  pose proof (installed_erlaubt _ _ _ _ _ cap HJ) as Ea.
  destruct (erlaubt s pd cap && _) eqn:Ep.
  - apply andb_true_iff in Ep as [Ep1 Ep2]. pose proof (installed_put _ _ _ cap _ _ _ p HJ Hn He Hs) as HJ'. fold neu0 in HJ'.
    eapply wp_mono; [apply (IH _ _ _ HJ' Hnd)|]. intros r s' [-> Hp]. split; [done|].
    eapply (predicted_cons _ _ _ _ _ _ _ _ _ true); [done| | | | |exact Hp].
    + apply wp_install_checked; [done| |done]. rewrite Ea, Eb, Ep1, Ep2. done.
    + cbn [with_pds pds]. rewrite (cap_at_slot_put _ _ _ _ _ _ p); [by rewrite decide_True|apply HJ|by rewrite E1|by left].
    + intros k Hk. cbn [with_pds pds]. rewrite (cap_at_slot_put _ _ _ _ _ _ p); [|apply HJ|by rewrite E1|by left].
      rewrite decide_False; [done|naive_solver].
    + lia.
  - fold (offered angebote slot). assert (erlaubt s1 pd cap && budget_allows s1 pd slot = false) as Eno by (by rewrite Ea, Eb).
    assert (wp (install_cap_checked pd slot cap) s1 (λ b' s', b' = false ∧ s' = s1)) as Hinst.
    { apply wp_install_checked; [done|done|]. intros X Y. by rewrite X, Y in Eno. }
    destruct (offered angebote slot) eqn:Eo.
    + eapply wp_mono; [apply (IH _ _ _ (installed_weaken _ _ _ _ _ _ HJ) Hnd)|]. intros r s' [-> Hp]. split; [done|].
      by eapply (predicted_cons _ _ _ _ _ _ _ _ _ false).
    + apply wp_ret. split; [done|]. exists [], cap, endow. split; [done|]. apply wp_ret. right. split; [done|].
      eapply wp_mono; [exact Hinst|]. by intros b' s' [-> _].
Qed.

(** [endowment_fits] predicts the installations without doing them.  [Ok n]: installed one
    after the other, exactly [n] capabilities are refused, each of them an offer, and every
    other is found in its slot.  [Err slot]: the capability for [slot] is not an offer and
    is refused after its predecessors were installed, or the domain has no such slot.  The
    state is not changed. *)
Theorem endowment_predicts (s : t) (pd : nat) (endow : list (nat * CapPtr.t)) (angebote : Z) :
  inv (cspace s) → ok (pds s) → NoDup endow.*1 →
  wp (endowment_fits pd endow angebote) s (λ r s', s' = s ∧ predicted pd angebote endow 0 s r).
Proof.
  intros Hi Hok Hnd. apply (endowment_loop_spec s pd angebote endow 0 0 s Hi); [|done].
  by split; try done; lia.
Qed.
