(* ===== verification/PdAudit.v ===== *)
(** * The audit of the domains

    [Caps::domain_audit] of [src/crates/caprock-microkit/src/lib.rs] against the rules it
    names, and against the policy under which capabilities are installed: what
    [install_cap_checked] lets in, the audit accepts, with one exception.  *)

From S2P Require Import Prelude PanicMonad Region CapObject CapSpace CapInv CapOps SchedData Cspace.
From S2P Require Import PdTable PdSystem PdProps PdCaps PdPolicy.
Import Caps.
#[local] Open Scope Z_scope.

(** Domain [pd] holds a capability that designates an object of kind [k]. *)
Definition holds (s : t) (pd : nat) (k : ObjectKind) : Prop :=
  ∃ slot cap, PdTable.cap_at (pds s) pd slot = Some cap ∧ sicht (cspace s) cap = Some k.

Definition foreign_channel (tb : PdTable.t) (pd : nat) (k : ObjectKind) : bool :=
  match k with
  | Endpoint id => negb (id =? (PdTable.chan_of tb pd).1)
  | Notification id => negb (id =? (PdTable.chan_of tb pd).2)
  | _ => false
  end.

(** The rules of the audit, by their codes. *)
Definition violates (s : t) (global : ThreadId.t → bool) (pd : nat) (code : Z) : Prop :=
  ∃ d, PdTable.domain_of (pds s) pd = Some d ∧
    (code = 1 ∧ d ≠ HardwareLand ∧ (∃ k, holds s pd k ∧ kind_is_hardware k = true) ∨
     code = 2 ∧ d ≠ TrustedSas ∧ (∃ k, holds s pd k ∧ kind_is_pd_control k = true) ∨
     code = 3 ∧ d ≠ TrustedSas ∧ PdTable.any_thread (pds s) pd global = true ∨
     code = 4 ∧ d = HardwareLand ∧
       (∀ q, PdTable.partner_of (pds s) pd = Some q → PdTable.domain_of (pds s) q ≠ Some TrustedSas) ∨
     code = 5 ∧ d = HardwareLand ∧ (∃ k, holds s pd k ∧ foreign_channel (pds s) pd k = true)).

Lemma cap_at_lt tb pd slot cap : PdTable.cap_at tb pd slot = Some cap → (slot < PdTable.cspace_len_von tb pd)%nat.
Proof. unfold PdTable.cap_at. cbv zeta. by case_decide. Qed.

Lemma wp_first_code {S} (P : nat → option Z → Prop) (f : nat → M S (option Z)) l s :
  (∀ i, i ∈ l → wp (f i) s (λ o s', s' = s ∧ P i o)) →
  wp (first_code f l) s (λ o s', s' = s ∧
    match o with Some c => ∃ i, i ∈ l ∧ P i (Some c) | None => ∀ i, i ∈ l → P i None end).
Proof.
  induction l as [|i l IH]; intros Hf; cbn [first_code].
  { apply wp_ret. split; [done|]. intros i Hi. by apply not_elem_of_nil in Hi. }
  apply wp_bind. eapply wp_mono; [apply Hf; by left|]. intros [c|] s' [-> Hi].
  - apply wp_ret. split; [done|]. exists i. split; [by left|done].
  - eapply wp_mono; [apply IH; intros j Hj; apply Hf; by right|]. intros o s' [-> Ho]. split; [done|].
    destruct o as [c|].
    + destruct Ho as (j & Hj & Hc). exists j. split; [by right|done].
    + intros j [->|Hj]%elem_of_cons; [done|by apply Ho].
Qed.

(** A loop over the slots of a domain, judged by the kind each designates. *)
Lemma wp_slot_loop s pd (f : nat → M t (option Z)) (urteil : ObjectKind → option Z) :
  (∀ slot, wp (f slot) s (λ o s', s' = s ∧
     match PdTable.cap_at (pds s) pd slot ≫= sicht (cspace s) with Some k => o = urteil k | None => o = None end)) →
  wp (first_code f (seq 0 (PdTable.cspace_len_von (pds s) pd))) s (λ o s', s' = s ∧
    match o with
    | Some c => ∃ k, holds s pd k ∧ urteil k = Some c
    | None => ∀ k, holds s pd k → urteil k = None
    end).
Proof.
  intros Hf. eapply wp_mono; [apply (wp_first_code (λ slot o,
    match PdTable.cap_at (pds s) pd slot ≫= sicht (cspace s) with Some k => o = urteil k | None => o = None end))|].
  { intros slot _. apply Hf. }
  intros o s' [-> Ho]. split; [done|]. destruct o as [c|].
  - destruct Ho as (slot & _ & Hk). destruct (PdTable.cap_at (pds s) pd slot) as [cap|] eqn:Hc; [|done].
    cbn in Hk. destruct (sicht (cspace s) cap) as [k|] eqn:Hs; [|done]. exists k. split; [|done]. by exists slot, cap.
  - intros k (slot & cap & Hc & Hs). specialize (Ho slot).
    rewrite Hc in Ho. cbn in Ho. rewrite Hs in Ho. symmetry. apply Ho, elem_of_seq. pose proof (cap_at_lt _ _ _ _ Hc). lia.
Qed.

Definition type_code (d : Domain) (k : ObjectKind) : option Z :=
  if kind_is_hardware k && bool_decide (d ≠ HardwareLand) then Some 1
  else if kind_is_pd_control k && bool_decide (d ≠ TrustedSas) then Some 2 else None.

Lemma wp_audit_type s pd d slot : inv (cspace s) → wp (audit_type pd d slot) s (λ o s', s' = s ∧
  match PdTable.cap_at (pds s) pd slot ≫= sicht (cspace s) with Some k => o = type_code d k | None => o = None end).
Proof.
  intros Hi. unfold audit_type, type_code. apply wp_bind, wp_gets.
  destruct (PdTable.cap_at (pds s) pd slot) as [cap|]; [|by apply wp_ret].
  apply wp_bind, wp_on_lookup; [done|]. intros r Hr. cbn [mbind option_bind]. rewrite <-Hr.
  destruct r as [[[k rt] b]|]; [|by apply wp_ret]. cbn. destruct (_ && _); [by apply wp_ret|]. destruct (_ && _); by apply wp_ret.
Qed.

Lemma wp_audit_channel s pd slot : inv (cspace s) →
  wp (audit_channel pd (PdTable.chan_of (pds s) pd).1 (PdTable.chan_of (pds s) pd).2 slot) s (λ o s', s' = s ∧
  match PdTable.cap_at (pds s) pd slot ≫= sicht (cspace s) with
  | Some k => o = if foreign_channel (pds s) pd k then Some 5 else None | None => o = None end).
Proof.
  intros Hi. unfold audit_channel, foreign_channel. apply wp_bind, wp_gets.
  destruct (PdTable.cap_at (pds s) pd slot) as [cap|]; [|by apply wp_ret].
  apply wp_bind, wp_on_lookup; [done|]. intros r Hr. cbn [mbind option_bind]. rewrite <-Hr.
  destruct r as [[[k rt] b]|]; [|by apply wp_ret]. cbn [fmap option_fmap option_map fst].
  destruct k; try (by apply wp_ret); destruct (negb _); by apply wp_ret.
Qed.

Lemma type_code_Some d k c : type_code d k = Some c →
  c = 1 ∧ d ≠ HardwareLand ∧ kind_is_hardware k = true ∨ c = 2 ∧ d ≠ TrustedSas ∧ kind_is_pd_control k = true.
Proof.
  unfold type_code. destruct (kind_is_hardware k), (kind_is_pd_control k); repeat case_bool_decide; cbn; naive_solver.
Qed.

Lemma type_code_None d k : type_code d k = None →
  (d ≠ HardwareLand → kind_is_hardware k = false) ∧ (d ≠ TrustedSas → kind_is_pd_control k = false).
Proof.
  unfold type_code. destruct (kind_is_hardware k), (kind_is_pd_control k); repeat case_bool_decide; cbn; naive_solver.
Qed.

Lemma is_used_domain tb pd : PdTable.is_used tb pd = true → ∃ d, PdTable.domain_of tb pd = Some d.
Proof.
  unfold PdTable.is_used, PdTable.domain_of, PdTable.entry_used, PdTable.entry.
  destruct (PdTable.pds tb !! pd) as [p|]; [|done]. intros ->. by eexists.
Qed.

Lemma domain_is_used tb pd d : PdTable.domain_of tb pd = Some d → PdTable.is_used tb pd = true.
Proof.
  unfold PdTable.is_used, PdTable.domain_of, PdTable.entry_used, PdTable.entry.
  destruct (PdTable.pds tb !! pd) as [p|]; [|done]. by destruct (Pd.used p).
Qed.

(** The rules for a backend, where the others are met. *)
Lemma wp_audit_backend s g pd : inv (cspace s) → PdTable.domain_of (pds s) pd = Some HardwareLand →
  (∀ c, violates s g pd c → c ≠ 1 ∧ c ≠ 2 ∧ c ≠ 3) →
  wp (if match PdTable.partner_of (pds s) pd with
         | Some t => bool_decide (PdTable.domain_of (pds s) t = Some TrustedSas)
         | None => false
         end
      then
        let (cep, cntfn) := PdTable.chan_of (pds s) pd in
        first_code (audit_channel pd cep cntfn) (seq 0 (PdTable.cspace_len_von (pds s) pd))
      else mret (Some 4)) s (λ o s', s' = s ∧
  match o with Some c => 1 <= c <= 5 ∧ violates s g pd c | None => ∀ c, ¬ violates s g pd c end).
Proof.
  intros Hi Hd H123. match goal with |- context [if ?b then _ else mret (Some 4)] => destruct b eqn:E4 end.
  2:{ apply wp_ret. split; [done|]. split; [lia|]. exists HardwareLand. split; [done|]. right; right; right; left.
      split_and!; [done|done|]. intros q Hq Hqd. rewrite Hq, Hqd in E4. by rewrite bool_decide_eq_true_2 in E4. }
  pose proof (wp_slot_loop s pd _ (λ k, if foreign_channel (pds s) pd k then Some 5 else None)
    (λ slot, wp_audit_channel s pd slot Hi)) as Hl.
  destruct (PdTable.chan_of (pds s) pd) as [cep cntfn] eqn:Ech. cbn [fst snd] in Hl.
  eapply wp_mono; [exact Hl|]. intros [c|] s' [-> Hc]; (split; [done|]).
  - destruct Hc as (k & Hk & Hf). destruct (foreign_channel (pds s) pd k) eqn:Ef; [|done]. injection Hf as <-.
    split; [lia|]. exists HardwareLand. split; [done|]. do 4 right. eauto.
  - intros c Hv. destruct (H123 c Hv) as (H1 & H2 & H3). destruct Hv as (d & Hd' & Hv).
    destruct Hv as [[-> _]|[[-> _]|[[-> _]|[(_ & _ & Hq)|(_ & _ & k & Hk & Hf)]]]]; try done.
    + destruct (PdTable.partner_of (pds s) pd) as [q|]; [|done]. apply bool_decide_eq_true in E4. by apply (Hq q).
    + specialize (Hc k Hk). by rewrite Hf in Hc.
Qed.

(** One domain. *)
Lemma wp_audit_pd s g pd : inv (cspace s) → wp (audit_pd g pd) s (λ o s', s' = s ∧
  match o with Some c => 1 <= c <= 5 ∧ violates s g pd c | None => ∀ c, ¬ violates s g pd c end).
Proof.
  intros Hi. unfold audit_pd. apply wp_bind, wp_gets. destruct (PdTable.is_used (pds s) pd) eqn:Hu; cbn [negb].
  2:{ apply wp_ret. split; [done|]. intros c (d & Hd & _). apply domain_is_used in Hd. congruence. }
  destruct (is_used_domain _ _ Hu) as [d Hd]. rewrite Hd. apply wp_bind.
  eapply wp_mono; [apply (wp_slot_loop s pd _ (type_code d)); intros slot; by apply wp_audit_type|].
  intros [c|] s' [-> Ht].
  { apply wp_ret. destruct Ht as (k & Hk & [(-> & H1 & H2)|(-> & H1 & H2)]%type_code_Some); (split; [done|]; split; [lia|]).
    - exists d. split; [done|]. left. eauto.
    - exists d. split; [done|]. right; left. eauto. }
  destruct (bool_decide (d ≠ TrustedSas) && PdTable.any_thread (pds s) pd g) eqn:E3.
  { apply andb_true_iff in E3 as [E3 Ea]. apply bool_decide_eq_true in E3.
    apply wp_ret. split; [done|]. split; [lia|]. exists d. split; [done|]. right; right; left. done. }
  assert (∀ c, violates s g pd c → c ≠ 1 ∧ c ≠ 2 ∧ c ≠ 3) as H123.
  { intros c (d' & Hd' & Hv). assert (d' = d) as -> by congruence.
    destruct Hv as [(-> & Hne & k & Hk & Hh)|[(-> & Hne & k & Hk & Hh)|[(-> & Hne & Ha)|[[-> _]|[-> _]]]]]; try done.
    - destruct (type_code_None _ _ (Ht k Hk)) as [Hf _]. by rewrite Hf in Hh.
    - destruct (type_code_None _ _ (Ht k Hk)) as [_ Hf]. by rewrite Hf in Hh.
    - by rewrite Ha, bool_decide_eq_true_2 in E3. }
  destruct (decide (d = HardwareLand)) as [->|Hhl].
  - rewrite bool_decide_eq_true_2 by done. by apply wp_audit_backend.
  - rewrite bool_decide_eq_false_2 by done. apply wp_ret. split; [done|]. intros c Hv.
    destruct (H123 c Hv) as (H1 & H2 & H3). destruct Hv as (d' & Hd' & Hv). assert (d' = d) as -> by congruence.
    by destruct Hv as [[-> _]|[[-> _]|[[-> _]|[(_ & -> & _)|(_ & -> & _)]]]].
Qed.

Lemma wp_domain_audit s global : inv (cspace s) →
  wp (domain_audit global) s (λ r s', s' = s ∧
    if decide (r = 0) then ∀ pd c, ¬ violates s global pd c else 1 <= r <= 5 ∧ ∃ pd, violates s global pd r).
Proof.
  intros Hi. unfold domain_audit. apply wp_bind, wp_gets, wp_bind.
  eapply wp_mono; [apply (wp_first_code (λ pd o,
    match o with Some c => 1 <= c <= 5 ∧ violates s global pd c | None => ∀ c, ¬ violates s global pd c end))|].
  { intros pd _. by apply wp_audit_pd. }
  intros [c|] s' [-> Ho]; apply wp_ret; (split; [done|]); cbn [default id].
  - destruct Ho as (pd & _ & Hc & Hv). rewrite decide_False by lia. split; [done|]. by exists pd.
  - rewrite decide_True by done. intros pd c Hv. assert (pd ∈ seq 0 (PdTable.capacity (pds s))) as Hin.
    { destruct Hv as (d & Hd & _). apply domain_is_used in Hd. unfold PdTable.is_used, PdTable.entry in Hd.
      destruct (PdTable.pds (pds s) !! pd) eqn:Hp; [|done]. apply elem_of_seq. apply lookup_lt_Some in Hp.
      unfold PdTable.capacity. lia. }
    by apply (Ho pd Hin c).
Qed.

(** The audit returns, changes nothing, answers 0 exactly when no domain violates any of
    the five rules, and otherwise the code of a rule that some domain does violate. *)
Theorem domain_audit_exact (s : t) (global : ThreadId.t → bool) :
  inv (cspace s) →
  wp (domain_audit global) s (λ r s', s' = s ∧
    if decide (r = 0) then ∀ pd c, ¬ violates s global pd c else 1 <= r <= 5 ∧ ∃ pd, violates s global pd r).
Proof. apply wp_domain_audit. Qed.

(** ** The policy and the audit *)

(** Every capability of every domain that designates something is one the policy allows. *)
Definition policy (s : t) : Prop :=
  ∀ pd k, holds s pd k → kind_allowed (pds s) pd k = true.

(** Before anything is installed, it holds. *)
Lemma policy_empty s m : ok (pds s) → PdTable.cspace_pool (pds s) = replicate m None → policy s.
Proof.
  intros Hok Hpool pd k (slot & cap & Hc & _). exfalso.
  destruct (PdTable.entry_used (pds s) pd) as [p|] eqn:He; [|by rewrite cap_at_unused in Hc].
  pose proof (cap_at_lt _ _ _ _ Hc) as Hl. unfold PdTable.cspace_len_von in Hl. rewrite He in Hl.
  rewrite (cap_at_pool _ Hok pd p slot He Hl), Hpool in Hc.
  destruct (replicate m None !! _) as [o|] eqn:Ho; [|done]. by apply lookup_replicate in Ho as [-> _].
Qed.

Lemma policy_violates s g pd c : policy s → violates s g pd c →
  c ≠ 1 ∧ c ≠ 2 ∧
  (c = 5 → holds s pd (Notification (PdTable.irq_ntfn_of (pds s) pd)) ∧
           PdTable.irq_ntfn_of (pds s) pd ≠ (PdTable.chan_of (pds s) pd).2).
Proof.
  intros Hp (d & Hd & Hv).
  assert (∀ k, holds s pd k → domain_allows_kind d k && (bool_decide (d ≠ HardwareLand) || channel_allows (pds s) pd k) = true) as Hk.
  { intros k Hk. specialize (Hp pd k Hk). unfold kind_allowed in Hp. by rewrite Hd in Hp. }
  destruct Hv as [(-> & Hne & k & Hh & E)|[(-> & Hne & k & Hh & E)|[[-> _]|[[-> _]|(-> & -> & k & Hh & E)]]]];
    [| |by split_and!|by split_and!|].
  - specialize (Hk k Hh). unfold domain_allows_kind in Hk. rewrite E, bool_decide_eq_false_2 in Hk by done. done.
  - specialize (Hk k Hh). unfold domain_allows_kind in Hk. rewrite E in Hk.
    assert (kind_is_hardware k = false) as E' by (by destruct k). rewrite E' in Hk. cbn in Hk.
    rewrite bool_decide_eq_false_2 in Hk by done. done.
  - split_and!; [done|done|]. intros _. specialize (Hk k Hh). apply andb_true_iff in Hk as [_ Hk].
    rewrite bool_decide_eq_false_2 in Hk by naive_solver. cbn [orb] in Hk.
    unfold foreign_channel, channel_allows in *. destruct k; try done.
    + by rewrite Hk in E.
    + destruct (Z.eqb_spec ntfn (PdTable.chan_of (pds s) pd).2) as [|Hne]; [done|]. cbn in Hk. apply Z.eqb_eq in Hk as ->. done.
Qed.

Lemma slot_put_kind pd slot c tb pd' k : kind_allowed (slot_put pd slot c tb) pd' k = kind_allowed tb pd' k.
Proof.
  unfold kind_allowed, channel_allows, PdTable.domain_of, PdTable.chan_of, PdTable.irq_ntfn_of, PdTable.entry.
  by rewrite slot_put_used, slot_put_pds.
Qed.

(** Where the policy holds and no two domains share slots, the checked installation keeps
    the policy, and the audit then never finds a capability of a forbidden type (codes 1
    and 2); it complains of a foreign channel (code 5) only about the interrupt
    notification that the policy itself grants a backend. *)
Theorem policy_kept (s : t) (global : ThreadId.t → bool) (pd slot : nat) (cap : CapPtr.t) :
  inv (cspace s) → ok (pds s) → separate (pds s) → policy s →
  wp (install_cap_checked pd slot cap) s (λ _ s', policy s' ∧
    wp (domain_audit global) s' (λ r _, r ≠ 1 ∧ r ≠ 2 ∧
      (r = 5 → ∃ pd, holds s' pd (Notification (PdTable.irq_ntfn_of (pds s') pd)) ∧
         PdTable.irq_ntfn_of (pds s') pd ≠ (PdTable.chan_of (pds s') pd).2))).
Proof.
  intros Hi Hok Hsep Hp.
  assert (∀ s', inv (cspace s') → policy s' → wp (domain_audit global) s' (λ r _, r ≠ 1 ∧ r ≠ 2 ∧
      (r = 5 → ∃ pd, holds s' pd (Notification (PdTable.irq_ntfn_of (pds s') pd)) ∧
         PdTable.irq_ntfn_of (pds s') pd ≠ (PdTable.chan_of (pds s') pd).2))) as Haudit.
  { intros s' Hi' Hp'. eapply wp_mono; [by apply wp_domain_audit|]. intros r s1 [-> Hr]. case_decide as Er.
    - subst. by split_and!.
    - destruct Hr as (_ & pd' & Hv). destruct (policy_violates _ _ _ _ Hp' Hv) as (H1 & H2 & H3).
      split_and!; [done|done|]. intros ->. exists pd'. by apply H3. }
  apply wp_install_checked; [done|by auto|]. intros E1 E2.
  destruct (erlaubt_used _ _ _ E1) as [p He].
  enough (policy (with_pds (slot_put pd slot (Some cap) (pds s)) s)) as Hp' by auto.
  intros pd' k (sl & c & Hc & Hk). cbn [with_pds pds cspace] in *. rewrite slot_put_kind.
  destruct (decide (slot < Z.to_nat (Pd.cspace_len p))%nat) as [Hlt|Hge].
  - rewrite (cap_at_slot_put_separate _ _ _ _ _ _ p) in Hc by done. case_decide as Hd.
    + destruct Hd as [-> ->]. injection Hc as <-. unfold erlaubt in E1. by rewrite Hk in E1.
    + apply Hp. by exists sl, c.
  - unfold slot_put in Hc. pose proof He as [Hpp _]%entry_used_Some. rewrite Hpp, decide_False in Hc by done.
    apply Hp. by exists sl, c.
Qed.
