(* ===== verification/PdReserve.v ===== *)
(** * The kernel's reserve and the DMA regions

    What [Caps::nonbudget_slots] counts and what [Caps::dma_bounds_audit] establishes
    ([src/crates/caprock-microkit/src/lib.rs]).  *)

From S2P Require Import Prelude PanicMonad Region CapObject CapSpace CapInv CapSystem CapProps SchedData Cspace PdTable.
From S2P Require Import PdSystem PdProps PdShare PdCaps PdPolicy PdAudit.
Import Caps.
#[local] Open Scope Z_scope.

(** ** Protection domains: a concrete state

    A trusted domain and its hardware backend with a capability space of three objects:
    the witnesses of the theorems on [Caps], and what the audits say there
    ([src/crates/caprock-microkit/src/lib.rs]).  *)

Definition demo_space_ops : list CapSystem.op :=
  [OpInstall (Notification 9) Rights.RW; OpInstall (Irq 3) Rights.RW; OpInstall (SyscallHandler 5 0 0 0) Rights.RW].
Definition demo_sys : Sys := default CapProps.boot (CapProps.run_ops demo_space_ops CapProps.boot).

Lemma demo_space_inv : inv (space demo_sys).
Proof.
  apply reachable_ok. apply (run_ops_reachable demo_space_ops CapProps.boot);
    [by apply reach_init, boot_initial|by repeat constructor|vm_compute; reflexivity].
Qed.

(** Domain 0 is trusted, domain 1 its backend with channel (5, 6) and interrupt
    notification 9. *)
Definition demo_pd_ops : list PdSystem.op := [Create TrustedSas 0 0; Backend 0 1 5 6; IrqNtfn 1 9].
Definition demo_pds : PdTable.t := table_of (PdSystem.run demo_pd_ops (PdSystem.boot 4 4 64)).

Lemma demo_pds_run : PdSystem.run demo_pd_ops (PdSystem.boot 4 4 64) = Some (tt, demo_pds).
Proof. vm_compute. reflexivity. Qed.

Lemma demo_pds_ok : ok demo_pds ∧ separate demo_pds.
Proof.
  apply (history_separate 4 4 64 demo_pd_ops demo_pds); [lia| | |apply demo_pds_run].
  - repeat (constructor; cbn; [lia || done|]). constructor.
  - intros pd Ho. unfold demo_pd_ops in Ho. repeat (apply elem_of_cons in Ho as [?|Ho]; [done|]).
    by apply not_elem_of_nil in Ho.
Qed.

Definition demo_caps : Caps.t := Caps.mk (space demo_sys) demo_pds.

(** The capabilities for the notification, the interrupt and the handler. *)
Definition cap_ntfn : CapPtr.t := CapPtr.mk 0 0.
Definition cap_irq : CapPtr.t := CapPtr.mk 1 0.
Definition cap_handler : CapPtr.t := CapPtr.mk 2 0.

(** The backend gets its interrupt, the trusted domain does not. *)
Lemma install_checked_exact_witness :
  wp (install_cap_checked 1 2 cap_irq) demo_caps (λ r s', r = true ∧ PdTable.cap_at (pds s') 1 2 = Some cap_irq) ∧
  wp (install_cap_checked 0 2 cap_irq) demo_caps (λ r s', r = false ∧ s' = demo_caps).
Proof.
  split.
  - eapply wp_mono; [apply (install_checked_exact demo_caps 1 2 cap_irq demo_space_inv (proj1 demo_pds_ok))|].
    intros r s' (Hr & _ & Hs). assert (r = true) as E by (rewrite Hr; vm_compute; reflexivity).
    destruct (Hs E) as (_ & Hc & _). split; [done|]. rewrite Hc. vm_compute. reflexivity.
  - eapply wp_mono; [apply (install_checked_exact demo_caps 0 2 cap_irq demo_space_inv (proj1 demo_pds_ok))|].
    intros r s' (Hr & Hs & _). assert (r = false) as E by (rewrite Hr; vm_compute; reflexivity).
    split; [done|by apply Hs].
Defined.

(** Three offers to the trusted domain, one of which its policy refuses. *)
Definition demo_endow : list (nat * CapPtr.t) := [(0%nat, cap_ntfn); (1%nat, cap_irq); (2%nat, cap_handler)].

Lemma endowment_predicts_witness :
  endowment_fits 0 demo_endow 7 demo_caps = Some (Ok 1%nat, demo_caps) ∧
  wp (endowment_fits 0 demo_endow 7) demo_caps (λ r s', s' = demo_caps ∧ predicted 0 7 demo_endow 0 demo_caps r).
Proof.
  split; [vm_compute; reflexivity|].
  apply (endowment_predicts demo_caps 0 demo_endow 7 demo_space_inv (proj1 demo_pds_ok)).
  repeat (constructor; [set_solver|]). constructor.
Defined.

Lemma domain_audit_exact_witness :
  wp (domain_audit (λ _, true)) demo_caps (λ r s', s' = demo_caps ∧
    if decide (r = 0) then ∀ pd c, ¬ violates demo_caps (λ _, true) pd c
    else 1 <= r <= 5 ∧ ∃ pd, violates demo_caps (λ _, true) pd r).
Proof. apply (domain_audit_exact demo_caps (λ _, true) demo_space_inv). Defined.

Lemma demo_pool : PdTable.cspace_pool demo_pds = replicate 64 None.
Proof. vm_compute. reflexivity. Qed.

Lemma demo_policy : policy demo_caps.
Proof. apply (policy_empty demo_caps 64 (proj1 demo_pds_ok) demo_pool). Qed.

Lemma policy_kept_witness :
  wp (install_cap_checked 1 2 cap_irq) demo_caps (λ _ s', policy s' ∧
    wp (domain_audit (λ _, true)) s' (λ r _, r ≠ 1 ∧ r ≠ 2 ∧
      (r = 5 → ∃ pd, holds s' pd (Notification (PdTable.irq_ntfn_of (pds s') pd)) ∧
         PdTable.irq_ntfn_of (pds s') pd ≠ (PdTable.chan_of (pds s') pd).2))).
Proof.
  apply (policy_kept demo_caps (λ _, true) 1 2 cap_irq demo_space_inv (proj1 demo_pds_ok) (proj2 demo_pds_ok) demo_policy).
Defined.

(** The interrupt notification of a backend passes the checked installation, and the audit
    then reports it as a foreign channel. *)
Lemma audit_rejects_irq :
  wp (install_cap_checked 1 3 cap_ntfn ≫= λ b, domain_audit (λ _, false) ≫= λ c, mret (b, c)) demo_caps
    (λ r _, r = (true, 5)).
Proof. vm_compute. reflexivity. Qed.

(** The audit does not look at handler capabilities: in a domain that may not hold one it
    finds nothing. *)
Lemma audit_misses_handler :
  wp (on_pds (PdTable.install_cap 1 3 cap_handler) ≫= λ _, domain_audit (λ _, false)) demo_caps (λ r s',
    r = 0 ∧ erlaubt s' 1 cap_handler = false ∧ PdTable.cap_at (pds s') 1 3 = Some cap_handler).
Proof. vm_compute. split_and!; reflexivity. Qed.

(** The checked installation reports success for a slot the domain does not have, where
    nothing is installed. *)
Lemma install_checked_lies :
  wp (install_cap_checked 0 16 cap_ntfn) demo_caps (λ r s', r = true ∧ PdTable.cap_at (pds s') 0 16 = None).
Proof. vm_compute. split; reflexivity. Qed.


(** ** The slots that count against no budget *)

(** Some domain holds a handle that resolves to slot [i]. *)
Definition named (s : t) (i : nat) : Prop :=
  ∃ pd slot cap, PdTable.cap_at (pds s) pd slot = Some cap ∧ CapSpace.resolve_in (cspace s) cap = Ok i.

(** [marks] marks slot [i]. *)
Definition marked (marks : list bool) (i : nat) : Prop := marks !! i = Some true.

Lemma mark_slot_spec c cap seen : (length (CapSpace.slots c) ≤ length seen)%nat →
  length (CapSpace.mark_slot c cap seen).2 = length seen ∧
  ∀ i, marked (CapSpace.mark_slot c cap seen).2 i ↔ marked seen i ∨ CapSpace.resolve_in c cap = Ok i.
Proof.
  intros Hlen. unfold CapSpace.mark_slot, CapSpace.resolve_in, marked.
  destruct (CapSpace.slots c !! CapPtr.slot cap) as [s|] eqn:Hs; [|split; [done|]; intros i; naive_solver].
  pose proof (lookup_lt_Some _ _ _ Hs) as Hlt.
  destruct (CapSlot.used s); cbn [negb orb andb]; [|split; [done|]; intros i; naive_solver].
  destruct (CapSlot.gen s =? CapPtr.gen cap); cbn [negb orb]; [|split; [done|]; intros i; naive_solver].
  rewrite bool_decide_eq_false_2 by lia. cbn [snd]. split; [by rewrite length_insert|]. intros i.
  destruct (decide (CapPtr.slot cap = i)) as [<-|Hne].
  - rewrite list_lookup_insert_eq by lia. naive_solver.
  - rewrite list_lookup_insert_ne by done. naive_solver.
Qed.

(** A loop that marks adds what its steps mark. *)
Lemma foldl_marks (n : nat) (f : list bool → nat → list bool) (P : nat → nat → Prop) l seen :
  (n ≤ length seen)%nat →
  (∀ j seen, j ∈ l → (n ≤ length seen)%nat → length (f seen j) = length seen ∧
     ∀ i, marked (f seen j) i ↔ marked seen i ∨ P j i) →
  length (foldl f seen l) = length seen ∧
  ∀ i, marked (foldl f seen l) i ↔ marked seen i ∨ ∃ j, j ∈ l ∧ P j i.
Proof.
  revert seen. induction l as [|j l IH]; intros seen Hn Hf; cbn [foldl].
  { split; [done|]. intros i. split; [by left|]. intros [?|(j & Hj & _)]; [done|]. by apply not_elem_of_nil in Hj. }
  destruct (Hf j seen ltac:(by left) Hn) as [Hl Hm].
  destruct (IH (f seen j)) as [Hl' Hm']; [lia|intros j' seen' Hj'; apply Hf; by right|]. split; [lia|].
  intros i. rewrite Hm', Hm. split.
  - intros [[?|?]|(j' & Hj' & ?)]; [by left|right; exists j; split; [by left|done]|right; exists j'; split; [by right|done]].
  - intros [?|(j' & [->|Hj']%elem_of_cons & ?)]; [by left; left|by left; right|right; by exists j'].
Qed.

Lemma mark_pd_spec s pd seen : (length (CapSpace.slots (cspace s)) ≤ length seen)%nat →
  length (mark_pd s pd seen) = length seen ∧
  ∀ i, marked (mark_pd s pd seen) i ↔ marked seen i ∨
    ∃ slot cap, PdTable.cap_at (pds s) pd slot = Some cap ∧ CapSpace.resolve_in (cspace s) cap = Ok i.
Proof.
  intros Hlen. unfold mark_pd. destruct (PdTable.is_used (pds s) pd) eqn:Hu; cbn [negb].
  - destruct (foldl_marks (length (CapSpace.slots (cspace s)))
      (λ seen slot, match PdTable.cap_at (pds s) pd slot with
                    | Some cap => (CapSpace.mark_slot (cspace s) cap seen).2 | None => seen end)
      (λ slot i, ∃ cap, PdTable.cap_at (pds s) pd slot = Some cap ∧ CapSpace.resolve_in (cspace s) cap = Ok i)
      (seq 0 (PdTable.cspace_len_von (pds s) pd)) seen Hlen) as [Hl Hm].
    { intros j seen' _ Hlen'. destruct (PdTable.cap_at (pds s) pd j) as [cap|].
      - destruct (mark_slot_spec (cspace s) cap seen' Hlen') as [H1 H2]. split; [done|]. intros i. rewrite H2. naive_solver.
      - split; [done|]. intros i. naive_solver. }
    split; [done|]. intros i. rewrite Hm. split.
    + intros [?|(j & _ & cap & ?)]; [by left|right; by exists j, cap].
    + intros [?|(slot & cap & Hc & Hr)]; [by left|right]. exists slot. split; [|by exists cap].
      apply elem_of_seq. unfold PdTable.cap_at in Hc. cbv zeta in Hc. case_decide; [lia|done].
  - split; [done|]. intros i. split; [by left|]. intros [?|(slot & cap & Hc & _)]; [done|].
    unfold PdTable.cap_at, PdTable.cspace_len_von, PdTable.entry_used, PdTable.is_used, PdTable.entry in *. cbv zeta in Hc.
    destruct (PdTable.pds (pds s) !! pd) as [p|]; [rewrite Hu in Hc|]; by case_decide; [lia|].
Qed.

(** The count runs whenever the scratch area is long enough, whatever it holds, and then
    counts exactly the slots in use to which no handle of any domain resolves; a handle
    that two domains hold counts once, a stale one not at all. *)
Theorem reserve_exact (s : t) (seen : list bool) :
  (length (CapSpace.slots (cspace s)) ≤ length seen)%nat →
  ∃ marks, length marks = length seen ∧
    (∀ i, (i < length (CapSpace.slots (cspace s)))%nat → marks !! i = Some true ↔ named s i) ∧
    nonbudget_slots s seen =
      Some (count_if (λ '(x, m), CapSlot.used x && negb m) (zip (CapSpace.slots (cspace s)) marks)).
Proof.
  intros Hlen. unfold nonbudget_slots, CapSpace.capacity. cbv beta iota. rewrite decide_False by lia.
  set (n := length (CapSpace.slots (cspace s))) in *. set (seen0 := replicate n false ++ drop n seen).
  assert (length seen0 = length seen) as Hl0 by (unfold seen0; rewrite length_app, length_replicate, length_drop; lia).
  destruct (foldl_marks n (λ seen pd, mark_pd s pd seen)
    (λ pd i, ∃ slot cap, PdTable.cap_at (pds s) pd slot = Some cap ∧ CapSpace.resolve_in (cspace s) cap = Ok i)
    (seq 0 (PdTable.capacity (pds s))) seen0) as [Hl Hm]; [lia|intros j seen' _ Hs'; by apply mark_pd_spec|].
  exists (foldl (λ seen pd, mark_pd s pd seen) seen0 (seq 0 (PdTable.capacity (pds s)))).
  split; [lia|]. split.
  - intros i Hi. fold (marked (foldl (λ seen pd, mark_pd s pd seen) seen0 (seq 0 (PdTable.capacity (pds s)))) i).
    rewrite Hm. unfold marked, seen0. rewrite lookup_app_l by (by rewrite length_replicate).
    rewrite lookup_replicate_2 by done. split.
    + intros [?|(pd & _ & slot & cap & ?)]; [done|]. by exists pd, slot, cap.
    + intros (pd & slot & cap & Hc & Hr). right. exists pd. split; [|by exists slot, cap]. apply elem_of_seq.
      unfold PdTable.cap_at, PdTable.cspace_len_von, PdTable.entry_used, PdTable.capacity in *. cbv zeta in Hc.
      destruct (PdTable.pds (pds s) !! pd) as [p|] eqn:Hp; [apply lookup_lt_Some in Hp; lia|]. by case_decide; [lia|].
  - unfold CapSpace.unmarked_used_slots. rewrite decide_False by lia. done.
Qed.

Lemma reserve_exact_witness :
  nonbudget_slots demo_caps (replicate 6 true) = Some 3%nat ∧
  ∃ marks, length marks = 6%nat ∧
    (∀ i, (i < length (CapSpace.slots (cspace demo_caps)))%nat → marks !! i = Some true ↔ named demo_caps i) ∧
    nonbudget_slots demo_caps (replicate 6 true) =
      Some (count_if (λ '(x, m), CapSlot.used x && negb m) (zip (CapSpace.slots (cspace demo_caps)) marks)).
Proof.
  split; [vm_compute; reflexivity|]. apply (reserve_exact demo_caps (replicate 6 true)). vm_compute. lia.
Defined.

(** ** The DMA regions *)

Definition region_good (floor ceil : Z) (r : Z * Z) : Prop :=
  0 < r.2 ∧ r.1 mod 4096 = 0 ∧ r.2 mod 4096 = 0 ∧ floor <= r.1 ∧ r.1 + r.2 <= ceil.
Definition regions_disjoint (r q : Z * Z) : Prop := r.1 + r.2 <= q.1 ∨ q.1 + q.2 <= r.1.

Lemma dma_bad_spec floor ceil r : in_width 64 r.1 → in_width 64 r.2 → ceil < 2 ^ 64 - 1 →
  dma_bad floor ceil r = false ↔ region_good floor ceil r.
Proof.
  unfold in_width, dma_bad, region_good, saturating_add. destruct r as [p n]. cbn [fst snd]. intros Hp Hn Hc. zcases; cbn; lia.
Qed.

Lemma dma_overlap_spec floor ceil r q : ceil < 2 ^ 64 - 1 → 0 <= floor → region_good floor ceil r → region_good floor ceil q →
  dma_overlap r q = false ↔ regions_disjoint r q.
Proof.
  unfold region_good, dma_overlap, regions_disjoint. destruct r as [p n], q as [p' n']. cbn [fst snd].
  intros Hc Hf (H1 & _ & _ & H2 & H3) (G1 & _ & _ & G2 & G3).
  rewrite !wrapping_add_exact by (unfold in_width; lia). zcases; cbn; lia.
Qed.

Lemma dma_pairs_spec floor ceil l : ceil < 2 ^ 64 - 1 → 0 <= floor → Forall (region_good floor ceil) l →
  (dma_pairs l = 0 ∨ dma_pairs l = 2) ∧
  (dma_pairs l = 0 ↔ ∀ i j r q, i ≠ j → l !! i = Some r → l !! j = Some q → regions_disjoint r q).
Proof.
  intros Hc Hf. assert (∀ r q, regions_disjoint r q → regions_disjoint q r) as Hsym by (unfold regions_disjoint; tauto).
  induction 1 as [|r l Hr Hl [IH1 IH2]]; cbn [dma_pairs].
  { split; [by left|]. split; [|done]. intros _ i j x y _ Hx. by rewrite lookup_nil in Hx. }
  assert (∀ q, q ∈ l → region_good floor ceil q) as Hl' by (by apply Forall_forall).
  destruct (existsb (dma_overlap r) l) eqn:E.
  - split; [by right|]. split; [done|]. intros Hd. apply existsb_exists in E as (q & Hq & Ho).
    apply list_elem_of_In in Hq. pose proof Hq as [j Hj]%list_elem_of_lookup_1.
    assert (dma_overlap r q = false) as Ho'; [|congruence].
    apply (dma_overlap_spec floor ceil); [done|done|done|by apply Hl'|]. by apply (Hd 0%nat (S j)).
  - split; [done|]. rewrite IH2. split.
    + intros Hd. assert (∀ q, q ∈ l → regions_disjoint r q) as Hr'.
      { intros q Hq. apply (dma_overlap_spec floor ceil); [done|done|done|by apply Hl'|]. apply not_true_is_false. intros Ho.
        rewrite <-not_true_iff_false in E. apply E, existsb_exists. exists q. split; [by apply list_elem_of_In|done]. }
      intros [|i] [|j] x y Hne Hx Hy; cbn in Hx, Hy; [done| | |].
      * injection Hx as <-. apply Hr'. by eapply list_elem_of_lookup_2.
      * injection Hy as <-. apply Hsym, Hr'. by eapply list_elem_of_lookup_2.
      * apply (Hd i j); [lia|done|done].
    + intros Hd i j x y Hne. apply (Hd (S i) (S j)). lia.
Qed.

(** The audit answers 1 exactly when some DMA region is empty, unaligned or outside the
    window; otherwise 0 exactly when the first 32 regions are pairwise disjoint, and 2 when
    they are not. *)
Theorem dma_audit_exact (s : t) (floor ceil : Z) :
  0 <= floor → ceil < 2 ^ 64 - 1 →
  Forall (λ r, in_width 64 r.1 ∧ in_width 64 r.2) (CapSpace.for_each_dma (cspace s)) →
  let all := CapSpace.for_each_dma (cspace s) in
  let r := dma_bounds_audit s floor ceil in
  (r = 1 ↔ ∃ x, x ∈ all ∧ ¬ region_good floor ceil x) ∧
  (r = 0 ↔ Forall (region_good floor ceil) all ∧
     ∀ i j x y, i ≠ j → take 32 all !! i = Some x → take 32 all !! j = Some y → regions_disjoint x y) ∧
  (r = 0 ∨ r = 1 ∨ r = 2).
Proof.
  intros Hf Hc Hw all r. rewrite Forall_forall in Hw. unfold r, dma_bounds_audit. fold all. cbv zeta. fold all in Hw.
  destruct (existsb (dma_bad floor ceil) all) eqn:E.
  - apply existsb_exists in E as (x & Hx & Hb). apply list_elem_of_In in Hx.
    assert (¬ region_good floor ceil x) as Hng.
    { rewrite <-dma_bad_spec; [by rewrite Hb|by apply Hw|by apply Hw|done]. }
    split_and!; [split; [by exists x|done]|split; [done|]|by right; left].
    intros [Hall _]. rewrite Forall_forall in Hall. by destruct Hng; apply Hall.
  - assert (Forall (region_good floor ceil) all) as Hall.
    { apply Forall_forall. intros x Hx. apply dma_bad_spec; [by apply Hw|by apply Hw|done|].
      apply not_true_is_false. intros Hb. rewrite <-not_true_iff_false in E. apply E, existsb_exists.
      exists x. split; [by apply list_elem_of_In|done]. }
    destruct (dma_pairs_spec floor ceil (take 32 all) Hc Hf) as [H1 H2]; [by apply Forall_take|].
    split_and!; [|rewrite H2; naive_solver|tauto]. split; [lia|]. intros (x & Hx & Hng).
    rewrite Forall_forall in Hall. by destruct Hng; apply Hall.
Qed.

(** Regions of the kernel's object table. *)
Definition dma_caps (l : list (Z * Z)) : t :=
  Caps.mk (CapSpace.mk [] ((λ r, Object.mk true (Dma r.1 r.2 Bidirectional NonCoherent) 1 0) <$> l) 0 0 0 0 0)
    PdTable.new.

Lemma dma_audit_exact_witness :
  dma_bounds_audit (dma_caps [(8192, 4096); (16384, 8192)]) 4096 65536 = 0 ∧
  regions_disjoint (8192, 4096) (16384, 8192).
Proof.
  split; [vm_compute; reflexivity|].
  destruct (dma_audit_exact (dma_caps [(8192, 4096); (16384, 8192)]) 4096 65536 ltac:(lia) ltac:(lia)) as (_ & [H2 _] & _).
  { repeat (constructor; [unfold in_width; cbn; lia|]). constructor. }
  destruct (H2 ltac:(vm_compute; reflexivity)) as [_ Hd]. by apply (Hd 0%nat 1%nat).
Defined.

(** Past the 32nd region the audit does not compare: here the last two are the same. *)
Lemma dma_audit_misses :
  let l := ((λ i, (Z.of_nat i * 4096, 4096)) <$> seq 1 32) ++ [(409600, 4096); (409600, 4096)] in
  dma_bounds_audit (dma_caps l) 4096 1048576 = 0 ∧ l !! 32%nat = l !! 33%nat.
Proof. vm_compute. split; reflexivity. Qed.
