(* ===== verification/PdProc.v ===== *)
(** * Vector pairs and process requests

    The two files of [caprock-microkit] that decide without any state: the check of a
    set of interrupt vectors ([src/crates/caprock-microkit/src/irqvec.rs]) and the
    decoding of the fork and exec requests with the teardown token
    ([src/crates/caprock-microkit/src/proc.rs]).  *)

From S2P Require Import Prelude.
#[local] Open Scope Z_scope.

(** ** Interrupt vectors *)
Module Irqvec.
Definition VEKTOREN_JE_GERAET_MAX : nat := 64.

Record VektorPaar := mk_paar { irq_slot : nat; ntfn_slot : nat }.

Inductive CapRolle := Irq | Mitteilung | Sonst.
#[export] Instance CapRolle_eq_dec : EqDecision CapRolle.
Proof. solve_decision. Defined.

Record SlotSicht := mk_sicht { belegt : bool; rolle : CapRolle; lesen : bool; schreiben : bool }.

Inductive VektorAbweisung :=
| Leer
| ZuVieleVektoren (verlangt max : nat)
| AusserhalbDesCspace (vektor slot laenge : nat)
| LeererSlot (vektor slot : nat)
| FalscheSorte (vektor slot : nat)
| RechtFehlt (vektor slot : nat).

Definition plaetze_fuer_vektoren (n : Z) : Z := Z.min (n * 2) (max_value 64).

Definition paar_slot_pruefen (vektor slot : nat) (r : CapRolle) (irq : bool) (cspace : list SlotSicht) :
    result unit VektorAbweisung :=
  match cspace !! slot with
  | None => Err (AusserhalbDesCspace vektor slot (length cspace))
  | Some s =>
      if negb (belegt s) then Err (LeererSlot vektor slot)
      else if bool_decide (rolle s ≠ r) then Err (FalscheSorte vektor slot)
      else
        let recht_ok := if irq then lesen s else schreiben s in
        if negb recht_ok then Err (RechtFehlt vektor slot) else Ok tt
  end.

(** The loop over the pairs, from index [i] on. *)
Fixpoint paare_schleife (i : nat) (paare : list VektorPaar) (cspace : list SlotSicht) : result unit VektorAbweisung :=
  match paare with
  | [] => Ok tt
  | p :: paare =>
      match paar_slot_pruefen i (irq_slot p) Irq true cspace with
      | Err e => Err e
      | Ok _ =>
          match paar_slot_pruefen i (ntfn_slot p) Mitteilung false cspace with
          | Err e => Err e
          | Ok _ => paare_schleife (S i) paare cspace
          end
      end
  end.

Definition paare_pruefen (paare : list VektorPaar) (cspace : list SlotSicht) : result unit VektorAbweisung :=
  if decide (length paare = 0)%nat then Err Leer
  else if decide (VEKTOREN_JE_GERAET_MAX < length paare)%nat then
    Err (ZuVieleVektoren (length paare) VEKTOREN_JE_GERAET_MAX)
  else paare_schleife 0 paare cspace.

(** What a slot must be for its role in a pair. *)
Definition slot_gut (slot : nat) (r : CapRolle) (irq : bool) (cspace : list SlotSicht) : Prop :=
  ∃ s, cspace !! slot = Some s ∧ belegt s = true ∧ rolle s = r ∧ (if irq then lesen s else schreiben s) = true.
Definition paar_gut (cspace : list SlotSicht) (p : VektorPaar) : Prop :=
  slot_gut (irq_slot p) Irq true cspace ∧ slot_gut (ntfn_slot p) Mitteilung false cspace.

(** The refusal [e] is the first thing that is wrong with a slot of pair [i]. *)
Definition slot_fehler (i slot : nat) (r : CapRolle) (irq : bool) (cspace : list SlotSicht) (e : VektorAbweisung) : Prop :=
  match cspace !! slot with
  | None => e = AusserhalbDesCspace i slot (length cspace)
  | Some s =>
      belegt s = false ∧ e = LeererSlot i slot ∨
      belegt s = true ∧ rolle s ≠ r ∧ e = FalscheSorte i slot ∨
      belegt s = true ∧ rolle s = r ∧ (if irq then lesen s else schreiben s) = false ∧ e = RechtFehlt i slot
  end.

Lemma slot_pruefen_spec i slot r irq cspace :
  match paar_slot_pruefen i slot r irq cspace with
  | Ok _ => slot_gut slot r irq cspace
  | Err e => slot_fehler i slot r irq cspace e
  end.
Proof.
  unfold paar_slot_pruefen, slot_gut, slot_fehler. destruct (cspace !! slot) as [s|]; [|done].
  destruct (belegt s) eqn:Hb; cbn [negb]; [|by left]. case_bool_decide as Hr; [by right; left|].
  cbv zeta. destruct (if irq then lesen s else schreiben s) eqn:Hl; cbn [negb]; [by exists s|].
  right; right. done.
Qed.

Lemma paare_schleife_spec i paare cspace :
  match paare_schleife i paare cspace with
  | Ok _ => Forall (paar_gut cspace) paare
  | Err e => ∃ k p, paare !! k = Some p ∧ Forall (paar_gut cspace) (take k paare) ∧
      (slot_fehler (i + k) (irq_slot p) Irq true cspace e ∨
       slot_gut (irq_slot p) Irq true cspace ∧ slot_fehler (i + k) (ntfn_slot p) Mitteilung false cspace e)
  end.
Proof.
  revert i. induction paare as [|p paare IH]; intros i; cbn [paare_schleife]; [constructor|].
  pose proof (slot_pruefen_spec i (irq_slot p) Irq true cspace) as H1.
  destruct (paar_slot_pruefen i (irq_slot p) _ _ _) as [[]|e].
  2:{ exists 0%nat, p. rewrite Nat.add_0_r. split_and!; [done|constructor|by left]. }
  pose proof (slot_pruefen_spec i (ntfn_slot p) Mitteilung false cspace) as H2.
  destruct (paar_slot_pruefen i (ntfn_slot p) _ _ _) as [[]|e].
  2:{ exists 0%nat, p. rewrite Nat.add_0_r. split_and!; [done|constructor|by right]. }
  specialize (IH (S i)). destruct (paare_schleife (S i) paare cspace) as [u|e]; [by constructor|].
  destruct IH as (k & q & Hq & Hall & He). exists (S k), q. rewrite <-Nat.add_succ_comm.
  split_and!; [done|by constructor|done].
Qed.

(** A set of vectors is accepted exactly when it has between one and 64 pairs and every
    pair is an interrupt with [READ] and a notification with [WRITE], both in the
    caller's own slots; a refusal names the first pair that is wrong, and at its first
    wrong slot the first thing that is wrong: the address, then the content, then the
    kind, then the right. *)
Theorem vector_set_exact (paare : list VektorPaar) (cspace : list SlotSicht) :
  match paare_pruefen paare cspace with
  | Ok _ => (0 < length paare ≤ VEKTOREN_JE_GERAET_MAX)%nat ∧ Forall (paar_gut cspace) paare
  | Err Leer => paare = []
  | Err (ZuVieleVektoren v m) => v = length paare ∧ m = VEKTOREN_JE_GERAET_MAX ∧ (m < v)%nat
  | Err e => ∃ k p, paare !! k = Some p ∧ Forall (paar_gut cspace) (take k paare) ∧
      (slot_fehler k (irq_slot p) Irq true cspace e ∨
       slot_gut (irq_slot p) Irq true cspace ∧ slot_fehler k (ntfn_slot p) Mitteilung false cspace e)
  end.
Proof.
  unfold paare_pruefen. case_decide as H0; [by apply nil_length_inv|]. case_decide as Hm; [done|].
  pose proof (paare_schleife_spec 0 paare cspace) as Hs. destruct (paare_schleife 0 paare cspace) as [[]|e].
  - split; [lia|done].
  - cbn [Nat.add] in Hs. destruct e; [| |exact Hs..].
    all: destruct Hs as (k & p & _ & _ & [Hf|[_ Hf]]); unfold slot_fehler in Hf; destruct (cspace !! _); naive_solver.
Qed.
End Irqvec.

(** ** Fork and exec requests *)
Module Proc.
Definition ERR_BADCAP : Z := 1.
Definition ERR_STALE_TOKEN : Z := 26.
Definition ERR_SNAPSHOT_LIMIT : Z := 27.
Definition SNAPSHOT_MAX_BYTES : Z := 8 * 1024 * 1024.
Definition MAX_PRIO : Z := 7.

Record ForkAntrag := mk_fork { kind_slot : Z; max_len : Z; prio : Z }.
Record ExecAntrag := mk_exec { loader_slot : Z; prog_index : Z; token : Z }.
Inductive ForkExecEntscheid :=
| Unbekannt
| Fork (a : ForkAntrag)
| Exec (a : ExecAntrag)
| Abgewiesen (code : Z).

Definition dekodiere_fork (msg0 msg1 msg2 msg3 : Z) : ForkExecEntscheid :=
  if negb (msg3 =? 0) then Abgewiesen ERR_BADCAP
  else if MAX_PRIO <? msg2 then Abgewiesen ERR_BADCAP
  else if SNAPSHOT_MAX_BYTES <? msg1 then Abgewiesen ERR_SNAPSHOT_LIMIT
  else Fork (mk_fork msg0 msg1 (msg2 mod 2 ^ 8)).

Definition dekodiere_exec (loader_slot msg0 msg1 msg2 msg3 : Z) : ForkExecEntscheid :=
  if negb (msg3 =? 0) then Abgewiesen ERR_BADCAP
  else if msg1 =? 0 then Abgewiesen ERR_STALE_TOKEN
  else Exec (mk_exec loader_slot (msg0 mod 2 ^ 32) msg1).

(** The start value of the fold, and one round of it:
    [h ^= b; h = h.wrapping_mul(0x100000001b3)]. *)
Definition BASIS : Z := 0xcbf29ce4842225c5.
Definition falten (h b : Z) : Z := wrapping_mul 64 (Z.lxor h b) 0x100000001b3.
Definition bytes_le (x : Z) : list Z :=
  [Z.land x 0xff; Z.land (Z.shiftr x 8) 0xff; Z.land (Z.shiftr x 16) 0xff; Z.land (Z.shiftr x 24) 0xff].
Definition teardown_token_fuer (program_id epoche : Z) : Z :=
  let h := foldl falten BASIS (bytes_le program_id ++ bytes_le epoche) in
  if h =? 0 then 1 else h.

(** The comment at the constant calls it the standard start value of FNV. *)
Lemma basis_not_standard : BASIS ≠ 14695981039346656037.
Proof. done. Qed.
End Proc.

(** ** The fold tells the epochs of a program apart *)
Section fold.

Lemma lxor_high h b : 0 <= h → 0 <= b < 256 → Z.lxor h b / 256 = h / 256 ∧ 0 <= Z.lxor h b.
Proof.
  intros Hh Hb. split; [|apply Z.lxor_nonneg; lia].
  change 256 with (2 ^ 8). rewrite <-!Z.shiftr_div_pow2, Z.shiftr_lxor by lia.
  rewrite (Z.shiftr_div_pow2 b), (Z.div_small b) by lia. apply Z.lxor_0_r.
Qed.

(** A round changes the low byte only, before it multiplies. *)
Lemma lxor_near h b : in_width 64 h → 0 <= b < 256 → -255 <= Z.lxor h b - h <= 255 ∧ in_width 64 (Z.lxor h b).
Proof.
  unfold in_width. intros Hh Hb. destruct (lxor_high h b) as [E H0]; [lia|lia|].
  pose proof (Z.div_mod h 256 ltac:(lia)). pose proof (Z.div_mod (Z.lxor h b) 256 ltac:(lia)).
  pose proof (Z.mod_pos_bound h 256 ltac:(lia)). pose proof (Z.mod_pos_bound (Z.lxor h b) 256 ltac:(lia)).
  assert (h / 256 < 2 ^ 56) by (apply Z.div_lt_upper_bound; lia). lia.
Qed.

Lemma lxor_inj h b b' : Z.lxor h b = Z.lxor h b' → b = b'.
Proof.
  intros E. apply (f_equal (Z.lxor h)) in E. by rewrite <-!Z.lxor_assoc, Z.lxor_nilpotent, !Z.lxor_0_l in E.
Qed.

Lemma odd_inj x y : in_width 64 x → in_width 64 y →
  (x * 0x100000001b3) mod 2 ^ 64 = (y * 0x100000001b3) mod 2 ^ 64 → x = y.
Proof.
  intros Hx Hy E.
  assert (∀ z, in_width 64 z → ((z * 0x100000001b3) mod 2 ^ 64 * 14886173955864302971) mod 2 ^ 64 = z) as Hinv.
  { intros z Hz. rewrite Z.mul_mod_idemp_l, <-Z.mul_assoc by lia.
    rewrite <-Z.mul_mod_idemp_r by lia. change ((0x100000001b3 * 14886173955864302971) mod 2 ^ 64) with 1.
    rewrite Z.mul_1_r. by apply Z.mod_small. }
  rewrite <-(Hinv x Hx), <-(Hinv y Hy), E. done.
Qed.

(** Four differences of low bytes cannot cancel. *)
Lemma no_cancel d s t u k : -255 <= d <= 255 → -510 <= s <= 510 → -510 <= t <= 510 → -510 <= u <= 510 →
  ((d * 0x100000001b3 + s) * 0x100000001b3 + t) * 0x100000001b3 + u = 2 ^ 64 * k →
  d = 0 ∧ s = 0 ∧ t = 0 ∧ u = 0.
Proof.
  intros Hd Hs Ht Hu E.
  set (A := 189225 * d + 435 * s + t). set (B := 378450 * d + 435 * s).
  assert (∃ k', 2 ^ 40 * (A + B) + (435 * A + u) = 2 ^ 64 * k') as [k' E'].
  { exists (k - (2 ^ 56 * d + 1305 * 2 ^ 16 * d + 2 ^ 16 * s)). unfold A, B. lia. }
  assert (435 * A + u = 0) as E1 by (unfold A, B in *; lia).
  assert (A + B = 2 ^ 24 * k') as E2 by lia.
  assert (-1 <= A <= 1) as HA by lia. assert (-96800000 <= A + B <= 96800000) by (unfold B; lia).
  assert (s = -435 * d - 1 ∨ s = -435 * d ∨ s = -435 * d + 1) as Hs' by (unfold A in *; lia).
  assert (-1 <= d <= 1) by lia. unfold A, B in *. lia.
Qed.

Lemma falten_fold h b : in_width 64 h → 0 <= b < 256 → in_width 64 (Proc.falten h b).
Proof. intros _ _. unfold Proc.falten, wrapping_mul, in_width. apply Z.mod_pos_bound. lia. Qed.

Lemma lxor_low h a b : 0 <= h → 0 <= a < 256 → 0 <= b < 256 → -255 <= Z.lxor h a - Z.lxor h b <= 255.
Proof.
  intros Hh Ha Hb. destruct (lxor_high h a) as [Ea _]; [done..|]. destruct (lxor_high h b) as [Eb _]; [done..|].
  pose proof (Z.div_mod (Z.lxor h a) 256 ltac:(lia)). pose proof (Z.div_mod (Z.lxor h b) 256 ltac:(lia)).
  pose proof (Z.mod_pos_bound (Z.lxor h a) 256 ltac:(lia)). pose proof (Z.mod_pos_bound (Z.lxor h b) 256 ltac:(lia)). lia.
Qed.

Lemma falten_wraps x b : ∃ k, Proc.falten x b = Z.lxor x b * 0x100000001b3 - 2 ^ 64 * k.
Proof.
  exists (Z.lxor x b * 0x100000001b3 / 2 ^ 64). unfold Proc.falten, wrapping_mul.
  pose proof (Z.div_mod (Z.lxor x b * 0x100000001b3) (2 ^ 64) ltac:(lia)). lia.
Qed.

(** Two folds of four bytes from one value: the words before the last multiplication, and
    their difference as the differences of the bytes make it. *)
Lemma fold_difference h a b : in_width 64 h →
  length a = 4%nat → length b = 4%nat → Forall (λ x, 0 <= x < 256) a → Forall (λ x, 0 <= x < 256) b →
  ∃ x y d s t u k,
    in_width 64 x ∧ in_width 64 y ∧
    foldl Proc.falten h a = wrapping_mul 64 x 0x100000001b3 ∧ foldl Proc.falten h b = wrapping_mul 64 y 0x100000001b3 ∧
    (-255 <= d <= 255) ∧ (-510 <= s <= 510) ∧ (-510 <= t <= 510) ∧ (-510 <= u <= 510) ∧
    x - y = ((d * 0x100000001b3 + s) * 0x100000001b3 + t) * 0x100000001b3 + u - 2 ^ 64 * k ∧
    (d = 0 ∧ s = 0 ∧ t = 0 ∧ u = 0 → a = b).
Proof.
  intros Hh. destruct a as [|a0 [|a1 [|a2 [|a3 [|]]]]]; try done. destruct b as [|b0 [|b1 [|b2 [|b3 [|]]]]]; try done.
  intros _ _ Ha Hb. rewrite !Forall_cons in Ha, Hb. destruct Ha as (A0 & A1 & A2 & A3 & _), Hb as (B0 & B1 & B2 & B3 & _).
  cbn [foldl].
  set (h1 := Proc.falten h a0). set (g1 := Proc.falten h b0). set (h2 := Proc.falten h1 a1). set (g2 := Proc.falten g1 b1).
  set (h3 := Proc.falten h2 a2). set (g3 := Proc.falten g2 b2).
  assert (in_width 64 h1) as W1 by (by apply falten_fold). assert (in_width 64 g1) as V1 by (by apply falten_fold).
  assert (in_width 64 h2) as W2 by (by apply falten_fold). assert (in_width 64 g2) as V2 by (by apply falten_fold).
  assert (in_width 64 h3) as W3 by (by apply falten_fold). assert (in_width 64 g3) as V3 by (by apply falten_fold).
  destruct (lxor_near h1 a1 W1 A1) as [N1 _], (lxor_near g1 b1 V1 B1) as [M1 _], (lxor_near h2 a2 W2 A2) as [N2 _],
    (lxor_near g2 b2 V2 B2) as [M2 _], (lxor_near h3 a3 W3 A3) as [N3 X3], (lxor_near g3 b3 V3 B3) as [M3 Y3].
  pose proof (lxor_low h a0 b0 ltac:(unfold in_width in Hh; lia) A0 B0) as Hd0.
  destruct (falten_wraps h a0) as [k0 Q0], (falten_wraps h b0) as [l0 R0], (falten_wraps h1 a1) as [k1 Q1],
    (falten_wraps g1 b1) as [l1 R1], (falten_wraps h2 a2) as [k2 Q2], (falten_wraps g2 b2) as [l2 R2].
  fold h1 in Q0. fold g1 in R0. fold h2 in Q1. fold g2 in R1. fold h3 in Q2. fold g3 in R2.
  exists (Z.lxor h3 a3), (Z.lxor g3 b3), (Z.lxor h a0 - Z.lxor h b0), ((Z.lxor h1 a1 - h1) - (Z.lxor g1 b1 - g1)),
    ((Z.lxor h2 a2 - h2) - (Z.lxor g2 b2 - g2)), ((Z.lxor h3 a3 - h3) - (Z.lxor g3 b3 - g3)),
    ((k0 - l0) * 0x100000001b3 * 0x100000001b3 + (k1 - l1) * 0x100000001b3 + (k2 - l2)).
  do 2 (split; [done|]). do 2 (split; [done|]). do 4 (split; [lia|]). split; [clear -Q0 R0 Q1 R1 Q2 R2; lia|].
  intros (D0 & D1 & D2 & D3).
  assert (a0 = b0) as -> by (apply (lxor_inj h); lia).
  assert (a1 = b1) as -> by (apply (lxor_inj g1); subst h1 g1; lia).
  assert (a2 = b2) as -> by (apply (lxor_inj g2); subst h2 g2 h1 g1; lia).
  assert (a3 = b3) as -> by (apply (lxor_inj g3); subst h3 g3 h2 g2 h1 g1; lia). done.
Qed.

Lemma fold_inj h a b : in_width 64 h →
  length a = 4%nat → length b = 4%nat → Forall (λ x, 0 <= x < 256) a → Forall (λ x, 0 <= x < 256) b →
  foldl Proc.falten h a = foldl Proc.falten h b → a = b.
Proof.
  intros Hh La Lb Ha Hb E.
  destruct (fold_difference h a b Hh La Lb Ha Hb) as (x & y & d & s & t & u & k & Hx & Hy & Ex & Ey & ? & ? & ? & ? & Hxy & Hab).
  rewrite Ex, Ey in E. apply odd_inj in E; [|done..]. apply Hab, (no_cancel d s t u k); lia.
Qed.

(** The value that stands for 0 is not reached from the same program either: a fold to 0 and
    a fold to 1 are further apart than four bytes can move them. *)
Lemma fold_zero_one h a b : in_width 64 h →
  length a = 4%nat → length b = 4%nat → Forall (λ x, 0 <= x < 256) a → Forall (λ x, 0 <= x < 256) b →
  foldl Proc.falten h a = 0 → foldl Proc.falten h b ≠ 1.
Proof.
  intros Hh La Lb Ha Hb E0 E1.
  destruct (fold_difference h a b Hh La Lb Ha Hb) as (x & y & d & s & t & u & k & Hx & Hy & Ex & Ey & ? & ? & ? & ? & Hxy & _).
  assert (x = 0) as ->. { apply odd_inj; [done|by unfold in_width|]. unfold wrapping_mul in Ex. by rewrite <-Ex. }
  assert (y = 14886173955864302971) as ->.
  { apply odd_inj; [done|by unfold in_width|]. unfold wrapping_mul in Ey. by rewrite <-Ey. }
  set (A := 189225 * d + 435 * s + t).
  assert (∃ m, 435 * A + u + 376614327675 = 2 ^ 40 * m) as [m Hm].
  { exists (2 ^ 24 * k - (A + (378450 * d + 435 * s)) - 2 ^ 24 * (2 ^ 56 * d + 1305 * 2 ^ 16 * d + 2 ^ 16 * s) - 13538896). unfold A. lia. }
  unfold A in *. lia.
Qed.
End fold.
