(* ===== verification/Abi.v ===== *)
(** * The system call interface

    [src/crates/caprock-abi/src/lib.rs]: the numbers of the system calls, the
    result codes, and the words that pack several values into one register.  The
    register indices and the codes that IPC uses are in [Ipc].  *)

From S2P Require Import Prelude.
#[local] Open Scope Z_scope.

Module sys.
Definition YIELD : Z := 0.
Definition CALL : Z := 1.
Definition RECV : Z := 2.
Definition REPLY : Z := 3.
Definition PARK : Z := 5.
Definition EXIT : Z := 6.
Definition KILL : Z := 7.
Definition SIGNAL : Z := 8.
Definition WAIT : Z := 9.
Definition MAP : Z := 10.
Definition UNMAP : Z := 11.
Definition PDCTL : Z := 12.
Definition LOAD : Z := 13.
Definition CDELETE : Z := 14.
Definition CCOPY : Z := 15.
Definition CMOVE : Z := 16.
Definition SETRECV : Z := 17.
Definition UNPARK : Z := 18.
Definition SETHANDLER : Z := 19.
Definition SPAWN : Z := 20.
Definition DEBUG_ATTACH : Z := 21.
Definition DEBUG_STOP : Z := 22.
Definition DEBUG_CONTINUE : Z := 23.
Definition DEBUG_READ_MEM : Z := 24.
Definition DEBUG_WRITE_REGS : Z := 25.
Definition BIND_IRQ : Z := 26.
Definition SETTLS : Z := 27.
Definition CLOCK : Z := 28.
Definition PARK_TIMEOUT : Z := 29.
Definition CALL_TIMEOUT : Z := 30.
Definition FORK_SNAPSHOT : Z := 31.
Definition EXEC_REPLACE : Z := 32.
Definition DEBUG_WRITE_MEM : Z := 33.
Definition DEBUG_SINGLE_STEP : Z := 34.
Definition DEBUG_HWBREAK : Z := 35.
Definition LOAD_IMAGE : Z := 36.
Definition LXPD_MAX_BILD : Z := 4 * 1024 * 1024.
Definition CSUB : Z := 37.
End sys.

Module pdctl.
Definition START : Z := 0.
Definition STOP : Z := 1.
Definition PAUSE : Z := 2.
Definition RESUME : Z := 3.
End pdctl.

Module errors.
Definition ERR_BADSYS : Z := 2.
Definition ERR_RIGHTS : Z := 3.
Definition ERR_NOPD : Z := 4.
Definition ERR_HASCHILDREN : Z := 6.
Definition ERR_NOSPACE : Z := 7.
Definition ERR_HANDLER_CYCLE : Z := 10.
Definition ERR_HANDLER_BUSY : Z := 12.
Definition ERR_LOAD_BUSY : Z := 13.
Definition ERR_SUBREGION : Z := 21.
Definition ERR_DMA_TOO_LARGE : Z := 22.
Definition ERR_BADTLS : Z := 24.
End errors.

(** The message registers after [MSG0], and their use in a redirected call. *)
Module msg.
Definition MSG1 : nat := 3.
Definition MSG2 : nat := 4.
Definition MSG3 : nat := 5.
End msg.
Module redirect_msg.
Definition SLOT : nat := 2.
Definition GUEST_TID : nat := 3.
Definition ANLASS : nat := 4.
Definition CODE : nat := 5.
End redirect_msg.

Definition GRANT_FLAG : Z := Z.shiftl 1 63.
Definition LOAD_MAX_DELEGATES : nat := 8.
Definition DRIVER_DMA_MAX_PAGES : Z := 1024.
Definition USER_VA_TOP : Z := Z.shiftl 1 47.

(** ** Packed words *)

Definition delegate_pair (src dst : Z) : Z :=
  Z.lor (Z.shiftl (Z.land src 0x0f) 4) (Z.land dst 0x0f).
Definition delegate_unpack (b : Z) : nat * nat :=
  (Z.to_nat (Z.shiftr b 4), Z.to_nat (Z.land b 0x0f)).

Definition spawn_sub (offset_pages length_pages : Z) : Z :=
  Z.lor (Z.shiftl offset_pages 32) length_pages.
Definition spawn_sub_unpack (v : Z) : Z * Z := (Z.shiftr v 32, Z.land v 0xffffffff).

Definition load_extras (dma_pages cap_budget : Z) : Z :=
  Z.lor (Z.shiftl dma_pages 16) cap_budget.
Definition load_extras_unpack (v : Z) : Z * Z := (Z.shiftr v 16, Z.land v 0xffff).

(** ** What is packed is read back *)

Lemma pack_high a b n : 0 <= n → 0 <= b < 2 ^ n → Z.shiftr (Z.lor (Z.shiftl a n) b) n = a.
Proof.
  intros Hn Hb. rewrite Z.shiftr_lor, Z.shiftr_shiftl_l, Z.sub_diag, Z.shiftl_0_r by lia.
  rewrite (Z.shiftr_div_pow2 b), Z.div_small, Z.lor_0_r by lia. done.
Qed.

Lemma pack_low a b n : 0 <= n → 0 <= b < 2 ^ n → Z.land (Z.lor (Z.shiftl a n) b) (Z.ones n) = b.
Proof.
  intros Hn Hb. rewrite Z.land_ones by lia. rewrite <-Z.land_ones, Z.land_lor_distr_l, !Z.land_ones by lia.
  rewrite Z.shiftl_mul_pow2, Z.mod_mul, Z.lor_0_l by lia. by apply Z.mod_small.
Qed.

(** The three packings lose nothing: a pair of slots below 16 survives in a byte, the
    offset and the length of a stack in 32 bits each, the pages and the budget of a
    load in 32 and 16 bits. *)
Lemma packed_words_roundtrip (src dst off len dma budget : Z) :
  0 <= src < 16 → 0 <= dst < 16 → in_width 32 off → in_width 32 len → in_width 32 dma → in_width 16 budget →
  delegate_unpack (delegate_pair src dst) = (Z.to_nat src, Z.to_nat dst) ∧
  spawn_sub_unpack (spawn_sub off len) = (off, len) ∧
  load_extras_unpack (load_extras dma budget) = (dma, budget).
Proof.
  intros Hs Hd Ho Hl Hm Hb. unfold in_width in *.
  unfold delegate_unpack, delegate_pair, spawn_sub_unpack, spawn_sub, load_extras_unpack, load_extras.
  assert (∀ x, 0 <= x < 16 → Z.land x 0x0f = x) as Hlow.
  { intros x Hx. change 0x0f with (Z.ones 4). rewrite Z.land_ones by lia. by apply Z.mod_small. }
  rewrite !(Hlow src), !(Hlow dst) by done. change 0x0f with (Z.ones 4). change 0xffffffff with (Z.ones 32).
  change 0xffff with (Z.ones 16). rewrite !pack_high, !pack_low by lia. done.
Qed.

Lemma packed_words_roundtrip_witness :
  delegate_unpack (delegate_pair 3 11) = (3%nat, 11%nat) ∧ spawn_sub_unpack (spawn_sub 2 16) = (2, 16) ∧
  load_extras_unpack (load_extras 64 7) = (64, 7).
Proof. apply (packed_words_roundtrip 3 11 2 16 64 7); unfold in_width; lia. Defined.
