(* ===== verification/Dispatch.v ===== *)
(** * The dispatch of system calls

    [src/crates/caprock-microkit/src/lib.rs]: [dispatch] and everything it calls.
    It composes the components: the capabilities of the protection domains
    ([PdCaps]), the endpoints and notifications ([Ipc]), the scheduler and the
    memory map behind the trait [SchedOps], and the functions of the kernel that
    the source passes in as arguments ([load], [delete_cap], [spawn], [debug],
    [bind_irq], [load_image]), which stay arguments here.  The source takes each
    lock for the section that needs it and runs on a core with interrupts off; the
    model runs the sections of one call one after the other.  The counters of
    verdicts are diagnostics and are left out.  *)

From S2P Require Import Prelude PanicMonad Region CapObject CapSpace Slab Redirect SchedData TidQueue Ipc.
From S2P Require Import IpcSystem Cspace PdTable PdCaps PdProc Abi.
#[local] Open Scope Z_scope.

(** ** What the dispatch asks of the scheduler and of the memory map, beyond IPC

    The operations that end a thread also take it out of the tables of IPC. *)
Class DispatchOps (W : Type) := {
  set_tls : ThreadId.t → Z → M W bool;
  frist_setzen : nat → Z → Z → M W unit;
  clock_hz : M W Z;
  clock_now : M W Z;
  park_current : nat → Z → M W (option Z);
  unpark : ThreadId.t → M W unit;
  pause : ThreadId.t → M W unit;
  resume : ThreadId.t → M W unit;
  stop : ThreadId.t → M (Tables.t W) bool;
  current_handler : nat → M W (option Bindung.t);
  handler_of : ThreadId.t → M W (option Bindung.t);
  set_handler : ThreadId.t → option Bindung.t → M W bool;
  block_for_handler : nat → Z → M W Z;
  mark_handler_wait : ThreadId.t → M W unit;
  sidecar_ablegen : Z → Z → Z → Z → Z → M W bool;
  handler_reply : ThreadId.t → M W unit;
  on_tick : nat → Z → M W Z;
  exit_current : nat → Z → M (Tables.t W) Z;
  kill : ThreadId.t → nat → M (Tables.t W) bool;
  map_frame : ThreadId.t → Z → Z → Z → M W bool;
  unmap_frame : ThreadId.t → Z → Z → M W bool;
  map_window : ThreadId.t → Z → Z → bool → option bool → M W (option Z);
  unmap_window : ThreadId.t → Z → Z → M W bool }.

(** What the loader's hand-over answers. *)
Inductive LadeUebergabe := Uebergeben (next : Z) | Ausgelastet | KeinVerifizierer.

(** The reason of a redirection. *)
Inductive Anlass := AnlassSyscall | AnlassFault.
Definition anlass_code (a : Anlass) : Z := match a with AnlassSyscall => 0 | AnlassFault => 1 end.

(** ** The state of the kernel *)
Module Kern.
Record t (W : Type) := mk { caps : Caps.t; tables : Tables.t W }.
Arguments mk {W}. Arguments caps {W}. Arguments tables {W}.
End Kern.

(** The functions the kernel passes in. *)
Class Callbacks (W : Type) := {
  load : Z → nat → list (nat * CapPtr.t) → nat → Z → Z → Z → M (Kern.t W) LadeUebergabe;
  delete_cap : CapPtr.t → M (Kern.t W) (result unit Z);
  spawn : nat → CapPtr.t → Z → Z → Z → Z → M (Kern.t W) (result Z Z);
  debug : Z → nat → nat → Z → Z → Z → M (Kern.t W) (result Z Z);
  bind_irq : Z → nat → Z → nat → M (Kern.t W) (result unit Z);
  load_image : Z → Z → Z → nat → list (nat * CapPtr.t) → nat → Z → Z → Z → M (Kern.t W) LadeUebergabe }.

(** [as usize], [as u32] of a register *)
Definition usize (v : Z) : nat := Z.to_nat v.
Definition u32 (v : Z) : Z := v mod 2 ^ 32.

(** The bits of a mask from user land; the others are ignored. *)
Definition rights_from_bits (mask : Z) : Rights.t :=
  let r := Rights.NONE in
  let r := if negb (Z.land mask 1 =? 0) then Rights.union r Rights.READ else r in
  let r := if negb (Z.land mask 2 =? 0) then Rights.union r Rights.WRITE else r in
  if negb (Z.land mask 4 =? 0) then Rights.union r Rights.EXEC else r.

(** ** Delegation in a reply *)
Definition grant_cap (caller : ThreadId.t) (server_pd grant_slot : nat) : M Caps.t (option CapPtr.t) :=
  s ← gets (λ s, s);
  match PdTable.cap_at (Caps.pds s) server_pd grant_slot with
  | None => mret None
  | Some src =>
      match PdTable.pd_of (Caps.pds s) caller with
      | None => mret None
      | Some cpd =>
          a ← Caps.cap_allowed cpd src;
          if negb a then mret None
          else
            s ← gets (λ s, s);
            let recv_slot := PdTable.recv_slot (Caps.pds s) cpd in
            if negb (Caps.budget_allows s cpd recv_slot) then mret None
            else
              r ← Caps.on_cspace (CapSpace.copy src Rights.RWX);
              match r with
              | Ok new_cap =>
                  replaced ← gets (λ s, PdTable.cap_at (Caps.pds s) cpd recv_slot);
                  Caps.on_pds (PdTable.install_cap cpd recv_slot new_cap) ≫= λ _, mret replaced
              | Err _ => mret None
              end
      end
  end.

Module Dispatch.
Section dispatch.
Context {W : Type} `{SchedOps W} `{DispatchOps W} `{Callbacks W}.
Notation K := (Kern.t W).

Definition in_caps {A} (m : M Caps.t A) : M K A :=
  zoom Kern.caps (λ c s, Kern.mk c (Kern.tables s)) m.
Definition in_tables {A} (m : M (Tables.t W) A) : M K A :=
  zoom Kern.tables (λ t s, Kern.mk (Kern.caps s) t) m.
Definition in_ops {A} (m : M W A) : M K A := in_tables (Tables.in_world m).
Definition reg_of (frame : Z) (i : nat) : M K Z := in_ops (frame_reg frame i).
Definition set_reg (frame : Z) (i : nat) (v : Z) : M K unit := in_ops (frame_set_reg frame i v).
Definition pds_of : M K PdTable.t := gets (λ s, Caps.pds (Kern.caps s)).

(** [deny]: the code in the result register; the caller goes on. *)
Definition deny (frame code : Z) : M K Z :=
  set_reg frame reg.SYSNO_RESULT code ≫= λ _, mret frame.

Definition handler_lebt (handler_pd : Z) : M K bool := gets (λ s,
  PdTable.handler_lebt (Caps.pds (Kern.caps s)) handler_pd).

(** ** Redirection *)
Definition zustellen (frame : Z) (core : nat) (ep slot sidecar : Z) (anlass : Anlass) (code : Z) : M K Z :=
  let ep_i := usize ep in
  n ← gets (λ s, length (Tables.eps (Kern.tables s)));
  if (n <=? ep_i)%nat then
    set_reg frame reg.SYSNO_RESULT ERR_HANDLER_GONE ≫= λ _, in_ops (block_for_handler core frame)
  else
    abgelegt ← in_ops (sidecar_ablegen frame sidecar slot (anlass_code anlass) code);
    if negb abgelegt then
      set_reg frame reg.SYSNO_RESULT ERR_HANDLER_GONE ≫= λ _, in_ops (block_for_handler core frame)
    else
      guest ← in_ops (current_id core);
      set_reg frame redirect_msg.SLOT slot ≫= λ _,
      set_reg frame redirect_msg.GUEST_TID (ThreadId.to_raw guest) ≫= λ _,
      set_reg frame redirect_msg.ANLASS (anlass_code anlass) ≫= λ _,
      set_reg frame redirect_msg.CODE code ≫= λ _,
      in_ops (mark_handler_wait guest) ≫= λ _,
      next ← in_tables (Tables.at_ep
        (Z.to_nat (array_index_nospec (Z.of_nat ep_i) (Z.of_nat n))) (call core frame 0));
      if next =? frame then in_ops (block_for_handler core frame) else mret next.

Definition fault_dispatch (frame : Z) (core : nat) (ec : Z) : M K (option Z) :=
  ob ← in_ops (current_handler core);
  match ob with
  | None => mret None
  | Some bindung =>
      if negb (Bindung.hat_fault bindung) then mret None
      else
        lebt ← handler_lebt (Bindung.handler_pd bindung);
        match weiche_fault (Some bindung) lebt with
        | WeicheKernel => mret None
        | WeicheFault code =>
            set_reg frame reg.SYSNO_RESULT code ≫= λ _,
            next ← in_ops (block_for_handler core frame); mret (Some next)
        | WeicheHandler ep slot sidecar =>
            next ← zustellen frame core ep slot sidecar AnlassFault ec; mret (Some next)
        end
  end.

(** ** Collecting a delegation *)

(** [zurueck]: the copies made so far are given up. *)
Fixpoint zurueck (bisher : list (nat * CapPtr.t)) : M K unit :=
  match bisher with
  | [] => mret tt
  | e :: bisher => delete_cap e.2 ≫= λ _, zurueck bisher
  end.

(** A pair of the list: a copy of the capability in the source slot. *)
Definition ableiten (pd src : nat) : M Caps.t (option (result CapPtr.t CapError)) :=
  s ← gets (λ s, s);
  match PdTable.cap_at (Caps.pds s) pd src with
  | None => mret None
  | Some c =>
      o ← Caps.on_cspace (CapSpace.lookup c);
      match o with
      | None => mret None
      | Some (_, r, _) => x ← Caps.on_cspace (CapSpace.copy c r); mret (Some x)
      end
  end.

Fixpoint sammle_loop (pd : nat) (liste : Z) (k rest : nat) (gesammelt : list (nat * CapPtr.t)) :
    M K (result (list (nat * CapPtr.t)) Z) :=
  match rest with
  | O => mret (Ok gesammelt)
  | S rest =>
      let (src, dst) := delegate_unpack (Z.land (Z.shiftr liste (8 * Z.of_nat k)) 0xff) in
      if existsb (λ e, (e.1 =? dst)%nat) gesammelt then
        zurueck gesammelt ≫= λ _, mret (Err result_code.ERR_BADCAP)
      else
        abgeleitet ← in_caps (ableiten pd src);
        match abgeleitet with
        | Some (Ok copy) => sammle_loop pd liste (S k) rest (gesammelt ++ [(dst, copy)])
        | _ => zurueck gesammelt ≫= λ _, mret (Err result_code.ERR_BADCAP)
        end
  end.
Definition sammle_endow (pd : nat) (liste anzahl : Z) : M K (result (list (nat * CapPtr.t)) Z) :=
  if Z.of_nat LOAD_MAX_DELEGATES <? anzahl then mret (Err result_code.ERR_BADCAP)
  else sammle_loop pd liste 0 (usize anzahl) [].

(** ** Calls that need no capability *)

Definition dispatch_clock (frame : Z) : M K Z :=
  hz ← in_ops clock_hz;
  set_reg frame reg.MSG0 hz ≫= λ _,
  now ← in_ops clock_now;
  set_reg frame msg.MSG1 now ≫= λ _,
  deny frame result_code.OK.

Definition dispatch_settls (frame : Z) (core : nat) : M K Z :=
  va ← reg_of frame reg.EP_BADGE;
  if USER_VA_TOP <=? va then deny frame errors.ERR_BADTLS
  else
    tid ← in_ops (current_id core);
    ok ← in_ops (set_tls tid va);
    deny frame (if ok : bool then result_code.OK else result_code.ERR_BADCAP).

Definition dispatch_park (frame : Z) (core : nat) : M K Z :=
  o ← in_ops (park_current core frame);
  match o with Some next => mret next | None => deny frame result_code.OK end.

Definition dispatch_park_timeout (frame : Z) (core : nat) : M K Z :=
  ticks ← reg_of frame reg.MSG0;
  (if negb (ticks =? 0) then in_ops (frist_setzen core ticks BlockReasons.PARK) else mret tt) ≫= λ _,
  dispatch_park frame core.

Definition dispatch_unpark (frame : Z) (core : nat) : M K Z :=
  raw ← reg_of frame reg.EP_BADGE;
  let target := ThreadId.from_raw raw in
  me ← in_ops (current_id core);
  tb ← pds_of;
  let erlaubt := bool_decide (target = me) ||
    match PdTable.pd_of tb me, PdTable.pd_of tb target with
    | Some a, Some b => (a =? b)%nat
    | _, _ => false
    end in
  if negb erlaubt then deny frame result_code.ERR_BADCAP
  else in_ops (unpark target) ≫= λ _, deny frame result_code.OK.

(** ** Calls on the slots of the caller *)

Definition dispatch_cdelete (frame : Z) (core : nat) : M K Z :=
  thread ← in_ops (current_id core);
  raw ← reg_of frame reg.EP_BADGE;
  let slot := usize raw in
  tb ← pds_of;
  match PdTable.pd_of tb thread with
  | None => deny frame errors.ERR_NOPD
  | Some pd =>
      match PdTable.cap_at tb pd slot with
      | None => deny frame result_code.ERR_BADCAP
      | Some cap =>
          in_caps (Caps.on_pds (PdTable.clear_cap pd slot)) ≫= λ _,
          r ← delete_cap cap;
          match r with
          | Err code => in_caps (Caps.on_pds (PdTable.install_cap pd slot cap)) ≫= λ _, deny frame code
          | Ok _ => deny frame result_code.OK
          end
      end
  end.

Definition dispatch_spawn (frame : Z) (core : nat) : M K Z :=
  thread ← in_ops (current_id core);
  slot ← reg_of frame reg.MSG0;
  entry ← reg_of frame msg.MSG1;
  arg ← reg_of frame msg.MSG2;
  prio ← reg_of frame msg.MSG3;
  sub ← reg_of frame reg.EP_BADGE;
  tb ← pds_of;
  match PdTable.pd_of tb thread with
  | None => deny frame errors.ERR_NOPD
  | Some pd =>
      match PdTable.cap_at tb pd (usize slot) with
      | None => deny frame result_code.ERR_BADCAP
      | Some cap =>
          r ← spawn pd cap entry arg (prio mod 2 ^ 8) sub;
          match r with
          | Ok tid_raw => set_reg frame reg.MSG0 tid_raw ≫= λ _, deny frame result_code.OK
          | Err code => deny frame code
          end
      end
  end.

Definition is_debug (nr : Z) : bool :=
  (sys.DEBUG_ATTACH <=? nr) && (nr <=? sys.DEBUG_WRITE_REGS)
  || (sys.DEBUG_WRITE_MEM <=? nr) && (nr <=? sys.DEBUG_HWBREAK).

Definition dispatch_debug (nr frame : Z) (core : nat) : M K Z :=
  thread ← in_ops (current_id core);
  slot ← reg_of frame reg.MSG0;
  a1 ← reg_of frame msg.MSG1;
  a2 ← reg_of frame msg.MSG2;
  a3 ← reg_of frame msg.MSG3;
  tb ← pds_of;
  match PdTable.pd_of tb thread with
  | None => deny frame errors.ERR_NOPD
  | Some pd =>
      r ← debug nr pd (usize slot) a1 a2 a3;
      match r with
      | Ok v => set_reg frame reg.MSG0 v ≫= λ _, deny frame result_code.OK
      | Err code => deny frame code
      end
  end.

(** The sections under the lock: the result code, and the copy that was made but could
    not be installed. *)
Definition slot_cmove (pd src_slot dst_slot : nat) : M Caps.t (Z * option CapPtr.t) :=
  s ← gets (λ s, s);
  let tb := Caps.pds s in
  match PdTable.cap_at tb pd src_slot with
  | None => mret (result_code.ERR_BADCAP, None)
  | Some src =>
      if (src_slot =? dst_slot)%nat then mret (result_code.OK, None)
      else if (PdTable.cspace_len_von tb pd <=? dst_slot)%nat then mret (result_code.ERR_BADCAP, None)
      else if PdTable.cap_at tb pd dst_slot then mret (errors.ERR_NOSPACE, None)
      else
        Caps.on_pds (PdTable.clear_cap pd src_slot) ≫= λ _,
        Caps.on_pds (PdTable.install_cap pd dst_slot src) ≫= λ _,
        mret (result_code.OK, None)
  end.

(** [install_cap_checked] of a fresh copy. *)
Definition slot_install (pd dst_slot : nat) (new : CapPtr.t) : M Caps.t (Z * option CapPtr.t) :=
  ok ← Caps.install_cap_checked pd dst_slot new;
  mret (if ok : bool then (result_code.OK, None) else (errors.ERR_RIGHTS, Some new)).

Definition slot_free (s : Caps.t) (pd dst_slot : nat) : bool :=
  negb ((PdTable.cspace_len_von (Caps.pds s) pd <=? dst_slot)%nat
        || bool_decide (is_Some (PdTable.cap_at (Caps.pds s) pd dst_slot)))
  && Caps.budget_allows s pd dst_slot.

Definition slot_csub (pd src_slot dst_slot : nat) (offset len : Z) : M Caps.t (Z * option CapPtr.t) :=
  s ← gets (λ s, s);
  match PdTable.cap_at (Caps.pds s) pd src_slot with
  | None => mret (result_code.ERR_BADCAP, None)
  | Some src =>
      o ← Caps.on_cspace (CapSpace.lookup src);
      match o with
      | Some (Memory _, _, _) =>
          if negb (slot_free s pd dst_slot) then mret (errors.ERR_NOSPACE, None)
          else
            r ← Caps.on_cspace (CapSpace.subregion src offset len Rights.RWX);
            match r with
            | Ok new => slot_install pd dst_slot new
            | Err Subregion => mret (errors.ERR_SUBREGION, None)
            | Err Invalid => mret (result_code.ERR_BADCAP, None)
            | Err _ => mret (errors.ERR_NOSPACE, None)
            end
      | _ => mret (result_code.ERR_BADCAP, None)
      end
  end.

Definition slot_ccopy (pd src_slot dst_slot : nat) (mask new_badge : Z) : M Caps.t (Z * option CapPtr.t) :=
  s ← gets (λ s, s);
  match PdTable.cap_at (Caps.pds s) pd src_slot with
  | None => mret (result_code.ERR_BADCAP, None)
  | Some src =>
      o ← Caps.on_cspace (CapSpace.lookup src);
      match o with
      | None => mret (result_code.ERR_BADCAP, None)
      | Some (_, have, _) =>
          if negb (slot_free s pd dst_slot) then mret (errors.ERR_NOSPACE, None)
          else
            let want := Rights.intersect (rights_from_bits mask) have in
            r ← Caps.on_cspace (if negb (new_badge =? 0) then CapSpace.mint src want new_badge
                                else CapSpace.copy src want);
            match r with
            | Ok new => slot_install pd dst_slot new
            | Err _ => mret (errors.ERR_NOSPACE, None)
            end
      end
  end.

Definition slot_setrecv (pd src_slot : nat) : M Caps.t (Z * option CapPtr.t) :=
  b ← Caps.on_pds (PdTable.set_recv_slot pd src_slot);
  mret (if b : bool then result_code.OK else result_code.ERR_BADCAP, None).

Definition is_slot_call (nr : Z) : bool :=
  (nr =? sys.CCOPY) || (nr =? sys.CMOVE) || (nr =? sys.SETRECV) || (nr =? sys.CSUB).

Definition dispatch_slots (nr frame : Z) (core : nat) : M K Z :=
  thread ← in_ops (current_id core);
  r1 ← reg_of frame reg.EP_BADGE;
  r2 ← reg_of frame reg.MSG0;
  mask ← reg_of frame msg.MSG1;
  new_badge ← reg_of frame msg.MSG2;
  tb ← pds_of;
  match PdTable.pd_of tb thread with
  | None => deny frame errors.ERR_NOPD
  | Some pd =>
      let src_slot := usize r1 in
      let dst_slot := usize r2 in
      x ← in_caps (
        if nr =? sys.SETRECV then slot_setrecv pd src_slot
        else if nr =? sys.CMOVE then slot_cmove pd src_slot dst_slot
        else if nr =? sys.CSUB then slot_csub pd src_slot dst_slot mask new_badge
        else slot_ccopy pd src_slot dst_slot mask new_badge);
      match x.2 with
      | Some orphan => delete_cap orphan ≫= λ _, deny frame x.1
      | None => deny frame x.1
      end
  end.

(** ** Calls on an object behind a capability *)

(** The resolution of the capability in the register [x1]: the domain of the caller, the
    kind, the rights and the badge. *)
Definition aufloesen (frame : Z) (core : nat) : M K (result (nat * (ObjectKind * Rights.t * Z)) Z) :=
  thread ← in_ops (current_id core);
  local ← reg_of frame reg.EP_BADGE;
  tb ← pds_of;
  match PdTable.pd_of tb thread with
  | None => mret (Err errors.ERR_NOPD)
  | Some pd =>
      match PdTable.cap_at tb pd (usize local) with
      | None => mret (Err result_code.ERR_BADCAP)
      | Some cap =>
          o ← in_caps (Caps.on_cspace (CapSpace.lookup cap));
          match o with
          | None => mret (Err result_code.ERR_BADCAP)
          | Some x => mret (Ok (pd, x))
          end
      end
  end.

Definition is_call (nr : Z) : bool := (nr =? sys.CALL) || (nr =? sys.CALL_TIMEOUT).

(** The endpoint a capability speaks for, and whether as a handler. *)
Definition channel_of (nr : Z) (kind : ObjectKind) : option (Z * bool) :=
  match kind with
  | Endpoint id => Some (id, false)
  | SyscallHandler ep _ _ _ | FaultHandler ep _ _ _ => if is_call nr then None else Some (ep, true)
  | _ => None
  end.

Definition at_ep {A} (ep : nat) (m : M (Endpoint.t * W) A) : M K A := in_tables (Tables.at_ep ep m).
Definition at_ntfn {A} (n : nat) (m : M (Notification.t * W) A) : M K A := in_tables (Tables.at_ntfn n m).
Definition caller_of (ep : nat) : M K (option ThreadId.t) := at_ep ep (on_obj (gets Endpoint.caller)).

Definition dispatch_call_timeout (frame : Z) (core ep : nat) (badge : Z) : M K Z :=
  frist ← reg_of frame reg.MSG0;
  (if negb (frist =? 0) then in_ops (frist_setzen core frist BlockReasons.IPC) else mret tt) ≫= λ _,
  v ← reg_of frame msg.MSG1;
  set_reg frame reg.MSG0 v ≫= λ _,
  v ← reg_of frame msg.MSG2;
  set_reg frame msg.MSG1 v ≫= λ _,
  v ← reg_of frame msg.MSG3;
  set_reg frame msg.MSG2 v ≫= λ _,
  set_reg frame msg.MSG3 0 ≫= λ _,
  at_ep ep (call core frame badge).

Definition dispatch_reply (frame : Z) (core pd ep : nat) (handler_kanal : bool) : M K Z :=
  tag ← reg_of frame reg.TAG;
  if negb (Z.land tag GRANT_FLAG =? 0) then
    oc ← caller_of ep;
    replaced ← match oc with
               | Some caller => in_caps (grant_cap caller pd (usize (Z.land tag 0xff)))
               | None => mret None
               end;
    next ← at_ep ep (reply core frame);
    match replaced with
    | Some old => delete_cap old ≫= λ _, mret next
    | None => mret next
    end
  else
    guest ← (if handler_kanal then caller_of ep else mret None);
    next ← at_ep ep (reply core frame);
    match guest with
    | Some g => in_ops (handler_reply g) ≫= λ _, mret next
    | None => mret next
    end.

Definition dispatch_ipc (nr frame : Z) (core pd : nat) (kind : ObjectKind) (rights : Rights.t) (badge : Z) :
    M K Z :=
  match channel_of nr kind with
  | None => deny frame result_code.ERR_BADCAP
  | Some (ep_id, handler_kanal) =>
      let need := if is_call nr then Rights.WRITE else Rights.READ in
      if negb (Rights.contains rights need) then deny frame errors.ERR_RIGHTS
      else
        tb ← pds_of;
        if negb (nr =? sys.REPLY) && PdTable.is_quiescing tb pd then deny frame result_code.ERR_QUIESCING
        else
          n ← gets (λ s, length (Tables.eps (Kern.tables s)));
          let ep := Z.to_nat (array_index_nospec ep_id (Z.of_nat n)) in
          if Z.of_nat n <=? ep_id then deny frame result_code.ERR_BADCAP
          else if nr =? sys.CALL then at_ep ep (call core frame badge)
          else if nr =? sys.CALL_TIMEOUT then dispatch_call_timeout frame core ep badge
          else if nr =? sys.RECV then at_ep ep (recv core frame)
          else dispatch_reply frame core pd ep handler_kanal
  end.

Definition dispatch_ntfn (nr frame : Z) (core : nat) (kind : ObjectKind) (rights : Rights.t) (badge : Z) : M K Z :=
  match kind with
  | Notification id =>
      let need := if nr =? sys.SIGNAL then Rights.WRITE else Rights.READ in
      if negb (Rights.contains rights need) then deny frame errors.ERR_RIGHTS
      else
        n ← gets (λ s, length (Tables.ntfns (Kern.tables s)));
        let i := Z.to_nat (array_index_nospec id (Z.of_nat n)) in
        if Z.of_nat n <=? id then deny frame result_code.ERR_BADCAP
        else if nr =? sys.SIGNAL then at_ntfn i (Notification.signal badge frame)
        else
          ticks ← reg_of frame reg.MSG0;
          (if negb (ticks =? 0) then in_ops (frist_setzen core ticks BlockReasons.IPC) else mret tt) ≫= λ _,
          at_ntfn i (Notification.wait core frame)
  | _ => deny frame result_code.ERR_BADCAP
  end.

Definition dispatch_bind_irq (frame : Z) (core pd : nat) (kind : ObjectKind) (rights : Rights.t) : M K Z :=
  match kind with
  | Irq intid =>
      if negb (Rights.contains rights Rights.READ) then deny frame errors.ERR_RIGHTS
      else
        ntfn_slot ← reg_of frame reg.MSG0;
        badge ← reg_of frame msg.MSG1;
        tb ← pds_of;
        match PdTable.cap_at tb pd (usize ntfn_slot) with
        | None => deny frame result_code.ERR_BADCAP
        | Some cap =>
            o ← in_caps (Caps.on_cspace (CapSpace.lookup cap));
            match o with
            | Some (Notification id, r, _) =>
                if negb (Rights.contains r Rights.WRITE) then deny frame errors.ERR_RIGHTS
                else
                  n ← gets (λ s, length (Tables.ntfns (Kern.tables s)));
                  if Z.of_nat n <=? id then deny frame result_code.ERR_BADCAP
                  else
                    e ← bind_irq intid (usize id) badge core;
                    deny frame (match e with Ok _ => result_code.OK | Err e => e end)
            | _ => deny frame result_code.ERR_BADCAP
            end
        end
  | _ => deny frame result_code.ERR_BADCAP
  end.

Definition dispatch_kill (frame : Z) (core : nat) (kind : ObjectKind) (rights : Rights.t) : M K Z :=
  match kind with
  | Tcb raw =>
      if negb (Rights.contains rights Rights.WRITE) then deny frame errors.ERR_RIGHTS
      else
        ok ← in_tables (kill (ThreadId.from_raw raw) core);
        deny frame (if ok : bool then result_code.OK else result_code.ERR_BADCAP)
  | _ => deny frame result_code.ERR_BADCAP
  end.

(** ** Binding a handler *)

Definition dispatch_entbinden (frame : Z) (ziel : ThreadId.t) : M K Z :=
  alt ← in_ops (handler_of ziel);
  match alt with
  | None => deny frame result_code.OK
  | Some alt =>
      ok ← in_ops (set_handler ziel None);
      if negb ok then deny frame result_code.ERR_BADCAP
      else
        tb ← pds_of;
        match PdTable.pd_of tb ziel with
        | Some gast_pd => in_caps (Caps.on_pds (PdTable.handler_kante_loesen gast_pd)) ≫= λ _, mret tt
        | None => mret tt
        end ≫= λ _,
        in_caps (Caps.on_pds (PdTable.sidecar_freigeben (usize (Bindung.handler_pd alt)) (Bindung.slot alt)))
          ≫= λ _,
        deny frame result_code.OK
  end.

(** What the handler capabilities named so far say: the endpoints, the handler's domain
    and its window. *)
Record Handlercaps := mk_hc { hc_sys : Z; hc_flt : Z; hc_pd : option Z; hc_fenster : option (Z * Z) }.

(** A handler capability of the right kind for its place. *)
Definition handler_fields (k : ObjectKind) (ist_sys : bool) : option (Z * Z * Z * Z) :=
  match k, ist_sys with
  | SyscallHandler ep pd sidecar len, true => Some (ep, pd, sidecar, len)
  | FaultHandler ep pd sidecar len, false => Some (ep, pd, sidecar, len)
  | _, _ => None
  end.

(** One capability more. *)
Definition handler_merge (a : Handlercaps) (ist_sys : bool) (x : Z * Z * Z * Z) : result Handlercaps Z :=
  let '(ep, hp, sc, ln) := x in
  if match hc_pd a with Some y => negb (y =? hp) | None => false end then Err errors.ERR_HANDLER_BUSY
  else if match hc_fenster a with Some y => negb (bool_decide (y = (sc, ln))) | None => false end
  then Err errors.ERR_HANDLER_BUSY
  else if negb (fenster_deckt SIDECAR_SLOTS ln) || (sc =? 0) then Err errors.ERR_NOSPACE
  else Ok (mk_hc (if ist_sys then ep else hc_sys a) (if ist_sys then hc_flt a else ep) (Some hp) (Some (sc, ln))).

Fixpoint handler_caps (pd : nat) (l : list (Z * bool)) (a : Handlercaps) : M Caps.t (result Handlercaps Z) :=
  match l with
  | [] => mret (Ok a)
  | (slot, ist_sys) :: l =>
      if slot =? max_value 64 then handler_caps pd l a
      else
        s ← gets (λ s, s);
        match PdTable.cap_at (Caps.pds s) pd (usize slot) with
        | None => mret (Err result_code.ERR_BADCAP)
        | Some cap =>
            o ← Caps.on_cspace (CapSpace.lookup cap);
            match o with
            | None => mret (Err result_code.ERR_BADCAP)
            | Some (k, r, _) =>
                if negb (Rights.contains r Rights.WRITE) then mret (Err errors.ERR_RIGHTS)
                else
                  match handler_fields k ist_sys with
                  | None => mret (Err result_code.ERR_BADCAP)
                  | Some x =>
                      match handler_merge a ist_sys x with
                      | Err e => mret (Err e)
                      | Ok a => handler_caps pd l a
                      end
                  end
            end
        end
  end.

(** The verdict on a new binding, and its code. *)
Definition urteil (tb : PdTable.t) (gast_pd : nat) (handler_pd : Z) (sys_ep flt_ep : Z) : BindUrteil :=
  pruefe_bindung (Z.of_nat gast_pd mod 2 ^ 16) handler_pd (negb (sys_ep =? KEIN_EP)) (negb (flt_ep =? KEIN_EP))
    (λ p, PdTable.handler_pd_of tb (usize p)) (PdTable.pd_capacity tb) (PdTable.sidecar_frei tb (usize handler_pd)).
Definition urteil_code (u : BindUrteil) : option Z :=
  match u with
  | BindOk => None
  | Zyklus | SelbstBindung | KetteZuLang => Some errors.ERR_HANDLER_CYCLE
  | FremderHandler => Some errors.ERR_HANDLER_BUSY
  | KeinSlot => Some errors.ERR_NOSPACE
  | Wirkungslos => Some result_code.ERR_BADCAP
  end.

(** The section under the write lock: the edge and the slot. *)
Definition kante_legen (ziel : ThreadId.t) (handler_pd sys_ep flt_ep : Z) : M Caps.t (result (nat * Z) Z) :=
  s ← gets (λ s, s);
  match PdTable.pd_of (Caps.pds s) ziel with
  | None => mret (Err errors.ERR_NOPD)
  | Some gast_pd =>
      match urteil_code (urteil (Caps.pds s) gast_pd handler_pd sys_ep flt_ep) with
      | Some code => mret (Err code)
      | None =>
          o ← Caps.on_pds (PdTable.sidecar_belegen (usize handler_pd));
          match o with
          | None => mret (Err errors.ERR_NOSPACE)
          | Some slot =>
              Caps.on_pds (PdTable.handler_kante_setzen gast_pd handler_pd) ≫= λ _,
              mret (Ok (gast_pd, slot))
          end
      end
  end.

Definition dispatch_binden (frame : Z) (pd : nat) (ziel : ThreadId.t) (sys_slot flt_slot : Z) : M K Z :=
  h ← in_caps (handler_caps pd [(sys_slot, true); (flt_slot, false)] (mk_hc KEIN_EP KEIN_EP None None));
  match h with
  | Err code => deny frame code
  | Ok (mk_hc sys_ep flt_ep (Some handler_pd) (Some (sidecar, _))) =>
      x ← in_caps (kante_legen ziel handler_pd sys_ep flt_ep);
      match x with
      | Err code => deny frame code
      | Ok (gast_pd, slot) =>
          ok ← in_ops (set_handler ziel (Some (Bindung.mk sys_ep flt_ep handler_pd slot sidecar)));
          if negb ok then
            in_caps (Caps.on_pds (PdTable.handler_kante_loesen gast_pd)) ≫= λ _,
            in_caps (Caps.on_pds (PdTable.sidecar_freigeben (usize handler_pd) slot)) ≫= λ _,
            deny frame result_code.ERR_BADCAP
          else deny frame result_code.OK
      end
  | Ok _ => deny frame result_code.ERR_BADCAP
  end.

Definition dispatch_sethandler (frame : Z) (pd : nat) (kind : ObjectKind) (rights : Rights.t) : M K Z :=
  match kind with
  | Tcb raw =>
      if negb (Rights.contains rights Rights.WRITE) then deny frame errors.ERR_RIGHTS
      else
        let ziel := ThreadId.from_raw raw in
        sys_slot ← reg_of frame reg.MSG0;
        flt_slot ← reg_of frame msg.MSG1;
        if (sys_slot =? max_value 64) && (flt_slot =? max_value 64) then dispatch_entbinden frame ziel
        else dispatch_binden frame pd ziel sys_slot flt_slot
  | _ => deny frame result_code.ERR_BADCAP
  end.

(** ** Mapping *)

(** The window behind a capability: base, length, the coherence of DMA memory, and
    whether the object itself forbids writing. *)
Definition window_of (kind : ObjectKind) : option (Z * Z * option bool * bool) :=
  match kind with
  | Memory r => Some (PhysRegion.base r, PhysRegion.len r, None, false)
  | Mmio phys len => Some (phys, len, None, false)
  | Dma phys len dir coherence =>
      Some (phys, len, Some (bool_decide (coherence = Coherent)), bool_decide (dir = DeviceRead))
  | _ => None
  end.
Definition perm_code (rights : Rights.t) : option Z :=
  if Rights.contains rights Rights.EXEC then Some 2
  else if Rights.contains rights Rights.WRITE then Some 1
  else if Rights.contains rights Rights.READ then Some 0
  else None.
Definition is_memory (kind : ObjectKind) : bool := match kind with Memory _ => true | _ => false end.

Definition dispatch_map_device (nr frame : Z) (thread : ThreadId.t) (base len : Z) (ro : bool) (dma : option bool) :
    M K Z :=
  if nr =? sys.MAP then
    o ← in_ops (map_window thread base len ro dma);
    match o with
    | Some iova =>
        set_reg frame reg.SYSNO_RESULT result_code.OK ≫= λ _,
        set_reg frame reg.MSG0 base ≫= λ _,
        set_reg frame msg.MSG1 len ≫= λ _,
        set_reg frame msg.MSG2 iova ≫= λ _, mret frame
    | None => deny frame result_code.ERR_BADCAP
    end
  else
    ok ← in_ops (unmap_window thread base len);
    deny frame (if ok : bool then result_code.OK else result_code.ERR_BADCAP).

Definition dispatch_map (nr frame : Z) (core : nat) (kind : ObjectKind) (rights : Rights.t) : M K Z :=
  match window_of kind with
  | None => deny frame result_code.ERR_BADCAP
  | Some (base, len, dma, ro_kind) =>
      match perm_code rights with
      | None => deny frame errors.ERR_RIGHTS
      | Some perm =>
          thread ← in_ops (current_id core);
          if negb (is_memory kind) then
            dispatch_map_device nr frame thread base len (ro_kind || negb (Rights.contains rights Rights.WRITE)) dma
          else
            ok ← in_ops (if nr =? sys.MAP then map_frame thread base len perm else unmap_frame thread base len);
            (if ok && (nr =? sys.MAP) then
               set_reg frame reg.MSG0 base ≫= λ _,
               set_reg frame msg.MSG1 len ≫= λ _,
               set_reg frame msg.MSG2 0
             else mret tt) ≫= λ _,
            deny frame (if ok : bool then result_code.OK else result_code.ERR_BADCAP)
      end
  end.

(** ** Control of a domain *)
Definition dispatch_pdctl (frame : Z) (pd : nat) (kind : ObjectKind) (rights : Rights.t) : M K Z :=
  match kind with
  | PdControl target =>
      if negb (Rights.contains rights Rights.WRITE) then deny frame errors.ERR_RIGHTS
      else
        subop ← reg_of frame reg.MSG0;
        tb ← pds_of;
        if negb (bool_decide (PdTable.domain_of tb pd = Some TrustedSas)) then deny frame errors.ERR_RIGHTS
        else if negb (bool_decide (PdTable.domain_of tb (usize target) = Some UserLand))
        then deny frame errors.ERR_RIGHTS
        else
          match PdTable.thread_of tb (usize target) with
          | Some t =>
              if subop =? pdctl.PAUSE then in_ops (pause t) ≫= λ _, deny frame result_code.OK
              else if (subop =? pdctl.RESUME) || (subop =? pdctl.START)
              then in_ops (resume t) ≫= λ _, deny frame result_code.OK
              else if subop =? pdctl.STOP then
                ok ← in_tables (stop t);
                deny frame (if ok : bool then result_code.OK else result_code.ERR_BADCAP)
              else deny frame errors.ERR_BADSYS
          | None =>
              if (subop =? pdctl.PAUSE) || (subop =? pdctl.RESUME) || (subop =? pdctl.START) || (subop =? pdctl.STOP)
              then deny frame result_code.ERR_BADCAP
              else deny frame errors.ERR_BADSYS
          end
  | _ => deny frame result_code.ERR_BADCAP
  end.

(** ** Loading *)

(** The answer of the loader: a hand-over that was not accepted gives the copies up. *)
Definition uebergabe (frame : Z) (gesammelt : list (nat * CapPtr.t)) (u : LadeUebergabe) : M K Z :=
  match u with
  | Uebergeben next => mret next
  | Ausgelastet => zurueck gesammelt ≫= λ _, deny frame errors.ERR_LOAD_BUSY
  | KeinVerifizierer => zurueck gesammelt ≫= λ _, deny frame result_code.ERR_SERVER_GONE
  end.

Definition dispatch_load (frame : Z) (core pd : nat) (kind : ObjectKind) (rights : Rights.t) : M K Z :=
  match kind with
  | Loader _ =>
      if negb (Rights.contains rights Rights.WRITE) then deny frame errors.ERR_RIGHTS
      else
        index ← reg_of frame reg.MSG0;
        liste ← reg_of frame msg.MSG1;
        anzahl ← reg_of frame msg.MSG2;
        extras ← reg_of frame msg.MSG3;
        let (dma_pages, cap_budget) := load_extras_unpack extras in
        if DRIVER_DMA_MAX_PAGES <? dma_pages then deny frame errors.ERR_DMA_TOO_LARGE
        else
          r ← sammle_endow pd liste anzahl;
          match r with
          | Err code => deny frame code
          | Ok gesammelt =>
              u ← load (u32 index) pd gesammelt core frame cap_budget (u32 dma_pages);
              uebergabe frame gesammelt u
          end
  | _ => deny frame result_code.ERR_BADCAP
  end.

(** The image in the caller's memory: its physical base. *)
Definition bild_phys (pd bild_slot : nat) (bild_len : Z) : M Caps.t (result Z Z) :=
  s ← gets (λ s, s);
  match PdTable.cap_at (Caps.pds s) pd bild_slot with
  | None => mret (Err result_code.ERR_BADCAP)
  | Some c =>
      o ← Caps.on_cspace (CapSpace.lookup c);
      match o with
      | None => mret (Err result_code.ERR_BADCAP)
      | Some (k, rechte, _) =>
          if negb (Rights.contains rechte Rights.READ) then mret (Err errors.ERR_RIGHTS)
          else
            match k with
            | Memory r => if PhysRegion.len r <? bild_len then mret (Err result_code.ERR_BADCAP)
                          else mret (Ok (PhysRegion.base r))
            | _ => mret (Err result_code.ERR_BADCAP)
            end
      end
  end.

Definition dispatch_load_image (frame : Z) (core pd : nat) (kind : ObjectKind) (rights : Rights.t) : M K Z :=
  match kind with
  | Loader _ =>
      if negb (Rights.contains rights Rights.WRITE) then deny frame errors.ERR_RIGHTS
      else
        tag ← reg_of frame reg.TAG;
        let bild_slot := usize (Z.land tag 0xff) in
        let bild_len := Z.land (Z.shiftr tag 8) 0xffffffff in
        if negb (Z.shiftr tag 40 =? 0) then deny frame result_code.ERR_BADCAP
        else if (bild_len =? 0) || (sys.LXPD_MAX_BILD <? bild_len) then deny frame result_code.ERR_BADCAP
        else
          pid ← reg_of frame reg.MSG0;
          liste ← reg_of frame msg.MSG1;
          anzahl ← reg_of frame msg.MSG2;
          extras ← reg_of frame msg.MSG3;
          let (dma_pages, cap_budget) := load_extras_unpack extras in
          if DRIVER_DMA_MAX_PAGES <? dma_pages then deny frame errors.ERR_DMA_TOO_LARGE
          else
            b ← in_caps (bild_phys pd bild_slot bild_len);
            match b with
            | Err code => deny frame code
            | Ok phys =>
                r ← sammle_endow pd liste anzahl;
                match r with
                | Err code => deny frame code
                | Ok gesammelt =>
                    u ← load_image phys bild_len (u32 pid) pd gesammelt core frame cap_budget (u32 dma_pages);
                    uebergabe frame gesammelt u
                end
            end
  | _ => deny frame result_code.ERR_BADCAP
  end.

(** ** Fork and exec: checked, then refused, because the kernel has no path for them *)
Definition absage (frame : Z) (e : Proc.ForkExecEntscheid) : M K Z :=
  match e with
  | Proc.Abgewiesen code => deny frame code
  | _ => deny frame errors.ERR_BADSYS
  end.
Definition dispatch_fork (frame : Z) : M K Z :=
  m0 ← reg_of frame reg.MSG0; m1 ← reg_of frame msg.MSG1; m2 ← reg_of frame msg.MSG2; m3 ← reg_of frame msg.MSG3;
  absage frame (Proc.dekodiere_fork m0 m1 m2 m3).
Definition dispatch_exec (frame : Z) : M K Z :=
  x1 ← reg_of frame reg.EP_BADGE;
  m0 ← reg_of frame reg.MSG0; m1 ← reg_of frame msg.MSG1; m2 ← reg_of frame msg.MSG2; m3 ← reg_of frame msg.MSG3;
  absage frame (Proc.dekodiere_exec x1 m0 m1 m2 m3).

(** ** The dispatch *)

(** The match on the number, for the calls on an object. *)
Definition dispatch_objekt (nr frame : Z) (core pd : nat) (kind : ObjectKind) (rights : Rights.t) (badge : Z) :
    M K Z :=
  if (nr =? sys.CALL) || (nr =? sys.CALL_TIMEOUT) || (nr =? sys.RECV) || (nr =? sys.REPLY)
  then dispatch_ipc nr frame core pd kind rights badge
  else if (nr =? sys.SIGNAL) || (nr =? sys.WAIT) then dispatch_ntfn nr frame core kind rights badge
  else if nr =? sys.BIND_IRQ then dispatch_bind_irq frame core pd kind rights
  else if nr =? sys.KILL then dispatch_kill frame core kind rights
  else if nr =? sys.SETHANDLER then dispatch_sethandler frame pd kind rights
  else if (nr =? sys.MAP) || (nr =? sys.UNMAP) then dispatch_map nr frame core kind rights
  else if nr =? sys.PDCTL then dispatch_pdctl frame pd kind rights
  else if nr =? sys.LOAD then dispatch_load frame core pd kind rights
  else if nr =? sys.LOAD_IMAGE then dispatch_load_image frame core pd kind rights
  else if nr =? sys.FORK_SNAPSHOT then dispatch_fork frame
  else if nr =? sys.EXEC_REPLACE then dispatch_exec frame
  else deny frame errors.ERR_BADSYS.

Definition dispatch_nativ (frame : Z) (core : nat) (nr : Z) : M K Z :=
  if nr =? sys.YIELD then in_ops (on_tick core frame)
  else if nr =? sys.CLOCK then dispatch_clock frame
  else if nr =? sys.SETTLS then dispatch_settls frame core
  else if nr =? sys.PARK then dispatch_park frame core
  else if nr =? sys.PARK_TIMEOUT then dispatch_park_timeout frame core
  else if nr =? sys.UNPARK then dispatch_unpark frame core
  else if nr =? sys.EXIT then in_tables (exit_current core frame)
  else if nr =? sys.CDELETE then dispatch_cdelete frame core
  else if nr =? sys.SPAWN then dispatch_spawn frame core
  else if is_debug nr then dispatch_debug nr frame core
  else if is_slot_call nr then dispatch_slots nr frame core
  else
    r ← aufloesen frame core;
    match r with
    | Err code => deny frame code
    | Ok (pd, (kind, rights, badge)) => dispatch_objekt nr frame core pd kind rights badge
    end.

Definition dispatch (frame : Z) (core : nat) : M K Z :=
  nr ← reg_of frame reg.SYSNO_RESULT;
  ob ← in_ops (current_handler core);
  match ob with
  | Some bindung =>
      lebt ← handler_lebt (Bindung.handler_pd bindung);
      match weiche_syscall (Some bindung) lebt with
      | WeicheKernel => dispatch_nativ frame core nr
      | WeicheFault code =>
          set_reg frame reg.SYSNO_RESULT code ≫= λ _, in_ops (block_for_handler core frame)
      | WeicheHandler ep slot sidecar => zustellen frame core ep slot sidecar AnlassSyscall 0
      end
  | None => dispatch_nativ frame core nr
  end.
End dispatch.
End Dispatch.
