(* ===== verification/DispatchCaps.v ===== *)
(** * The calls on capability slots

    What the sections of [Dispatch] under the lock of the capabilities do: copying,
    cutting and moving in the caller's own slots, and the delegation in a reply.  *)

From S2P Require Import Prelude PanicMonad Dll Region CapObject CapSpace CapInv CapOps CapDerive CapSystem CapProps.
From S2P Require Import Slab Redirect SchedData TidQueue Ipc IpcSystem Cspace PdTable PdSystem PdProps.
From S2P Require Import PdShare PdCaps PdPolicy PdProc Abi Dispatch.
Import Caps.
#[local] Open Scope Z_scope.

(** ** What a handle shows *)

Definition schau : Type := ObjectKind * Rights.t * Z.

Definition blick (c : CapSpace.t) (p : CapPtr.t) : option schau :=
  x ← core_of (CapSpace.slots c) (CapPtr.slot p);
  if CapSlot.used x && (CapSlot.gen x =? CapPtr.gen p) then
    o ← CapSpace.objects c !! CapSlot.object x;
    Some (CapSpace.effective_kind x (Object.kind o), CapSlot.rights x, CapSlot.badge x)
  else None.

Lemma blick_resolve c p : blick c p =
  match CapSpace.resolve_in c p with
  | Err _ => None
  | Ok slot =>
      x ← CapSpace.slots c !! slot; o ← CapSpace.objects c !! CapSlot.object x;
      Some (CapSpace.effective_kind x (Object.kind o), CapSlot.rights x, CapSlot.badge x)
  end.
Proof.
  unfold blick, core_of, CapSpace.resolve_in. destruct (CapSpace.slots c !! CapPtr.slot p) as [x|] eqn:Hx; [|done].
  cbn [fmap option_fmap option_map mbind option_bind].
  change (CapSlot.used (core x)) with (CapSlot.used x). change (CapSlot.gen (core x)) with (CapSlot.gen x).
  destruct (CapSlot.used x && (CapSlot.gen x =? CapPtr.gen p)); [|done]. rewrite Hx. cbn [mbind option_bind].
  change (CapSlot.object (core x)) with (CapSlot.object x). by destruct (CapSpace.objects c !! CapSlot.object x).
Qed.

Lemma sicht_blick c p : sicht c p = (λ x, x.1.1) <$> blick c p.
Proof.
  rewrite blick_resolve. unfold sicht. destruct (CapSpace.resolve_in c p) as [i|]; [|done].
  destruct (CapSpace.slots c !! i) as [x|]; [|done]. cbn [mbind option_bind].
  by destruct (CapSpace.objects c !! CapSlot.object x).
Qed.

(** The kind an object of kind [k] has through a slot with window [fen]. *)
Definition kind_with (fen : option PhysRegion.t) (k : ObjectKind) : ObjectKind :=
  match k with Memory w => Memory (default w fen) | _ => k end.
Lemma effective_kind_with x k : CapSpace.effective_kind x k = kind_with (CapSlot.subregion x) k.
Proof. by destruct k. Qed.

(** A handle that resolves shows something. *)
Lemma blick_Some c p : inv c → ∀ i, CapSpace.resolve_in c p = Ok i → ∃ x o,
  i = CapPtr.slot p ∧ CapSpace.slots c !! i = Some x ∧ CapSlot.used x = true ∧
  CapSpace.objects c !! CapSlot.object x = Some o ∧
  blick c p = Some (CapSpace.effective_kind x (Object.kind o), CapSlot.rights x, CapSlot.badge x).
Proof.
  intros Hi i Hr. rewrite blick_resolve, Hr. apply resolve_in_Ok in Hr as (-> & x & Hx & Hu & _).
  destruct (ob_of_slot _ _ _ _ (inv_objects _ Hi) Hx Hu) as (o & Ho & _). exists x, o. rewrite Hx. cbn [mbind option_bind].
  by rewrite Ho.
Qed.

Lemma wp_lookup_blick c p (R : option schau → CapSpace.t → Prop) :
  inv c → R (blick c p) c → wp (CapSpace.lookup p) c R.
Proof.
  intros Hi HR. unfold CapSpace.lookup, CapSpace.resolve. apply wp_bind, wp_gets.
  destruct (CapSpace.resolve_in c p) as [i|e] eqn:Hr.
  - destruct (blick_Some c p Hi i Hr) as (x & o & -> & Hx & _ & Ho & Hb). rewrite Hb in HR.
    apply wp_bind. eapply wp_slot_at; [exact Hx|]. apply wp_bind. eapply wp_object_at; [exact Ho|]. by apply wp_ret.
  - apply wp_ret. by rewrite blick_resolve, Hr in HR.
Qed.

Lemma wp_caps_lookup s p (R : option schau → t → Prop) :
  inv (cspace s) → R (blick (cspace s) p) s → wp (on_cspace (CapSpace.lookup p)) s R.
Proof. intros Hi HR. apply wp_on_cspace, wp_lookup_blick; [done|]. by rewrite with_cspace_id. Qed.

(** ** A new child *)

(** [new] is a new handle in [c'] that shows [v]; it hangs below [src], and what the other
    handles show is as it was. *)
Record fresh_child (c c' : CapSpace.t) (src new : CapPtr.t) (v : schau) : Prop := {
  fc_inv : inv c';
  fc_new : blick c new = None;
  fc_shows : blick c' new = Some v;
  fc_parent : parent_of (CapSpace.slots c') (CapPtr.slot new) = Some (CapPtr.slot src);
  fc_old q w : blick c q = Some w → blick c' q = Some w;
  fc_room : ∃ i x, CapSpace.slots c !! i = Some x ∧ CapSlot.used x = false }.

Lemma derive_fresh c src i x o rights badge fen r c' :
  CapSpace.resolve_in c src = Ok i → CapSpace.slots c !! i = Some x → CapSpace.objects c !! CapSlot.object x = Some o →
  derive_post c i x rights badge fen r c' →
  match r with
  | Ok new => fresh_child c c' src new
      (kind_with fen (Object.kind o), rights, badge)
  | Err e => e = NoSlot ∧ c' = c ∧ ∀ i s, CapSpace.slots c !! i = Some s → CapSlot.used s = true
  end.
Proof.
  intros [Hi _]%resolve_in_Ok Hx Ho. destruct r as [new|e]; [|done].
  intros (d & y & Hy & Hu & -> & Hinv & [Hc Hp Hob _]). cbn [CapSlot.object] in Hob.
  assert (∀ n, CapSpace.objects c' !! n = (λ o, if decide (CapSlot.object x = n)
    then Object.with_refcount (Object.refcount o + 1) o else o) <$> CapSpace.objects c !! n) as Hob'.
  { intros n. rewrite Hob, lookup_alter_if. by destruct (CapSpace.objects c !! n), (decide (CapSlot.object x = n)). }
  split; [done| | | | |by exists d, y].
  - unfold blick. cbn [CapPtr.slot]. rewrite (core_of_lookup _ _ _ Hy). cbn [mbind option_bind].
    change (CapSlot.used (core y)) with (CapSlot.used y). by rewrite Hu.
  - unfold blick. cbn [CapPtr.slot CapPtr.gen]. rewrite Hc, decide_True by done. cbn [mbind option_bind].
    cbn [CapSlot.used CapSlot.gen CapSlot.object CapSlot.rights CapSlot.badge]. rewrite Z.eqb_refl. cbn [andb].
    rewrite Hob', Ho. cbn [fmap option_fmap option_map mbind option_bind]. rewrite decide_True by done.
    by rewrite effective_kind_with.
  - cbn [CapPtr.slot]. rewrite Hp, decide_True by done. by rewrite Hi.
  - intros q w. unfold blick. rewrite Hc. case_decide as Hd.
    + rewrite <-Hd, (core_of_lookup _ _ _ Hy). cbn [mbind option_bind].
      change (CapSlot.used (core y)) with (CapSlot.used y). by rewrite Hu.
    + destruct (core_of (CapSpace.slots c) (CapPtr.slot q)) as [z|]; [|done]. cbn [mbind option_bind].
      case_match; [|done]. rewrite Hob'. destruct (CapSpace.objects c !! CapSlot.object z) as [oz|]; [|done].
      cbn [fmap option_fmap option_map mbind option_bind]. by case_decide.
Qed.

(** ** Deriving, through the capabilities *)

Definition full (c : CapSpace.t) : Prop := ∀ i x, CapSpace.slots c !! i = Some x → CapSlot.used x = true.

(** The result of a derivation from a handle that shows [(k, have, b)]. *)
Definition derived (s s' : t) (src : CapPtr.t) (v : schau) (r : result CapPtr.t CapError) : Prop :=
  match r with
  | Ok new => pds s' = pds s ∧ fresh_child (cspace s) (cspace s') src new v
  | Err e => e = NoSlot ∧ s' = s ∧ full (cspace s)
  end.

Lemma derived_of (m : M CapSpace.t (result CapPtr.t CapError)) s src i x o rights badge fen :
  CapSpace.resolve_in (cspace s) src = Ok i → CapSpace.slots (cspace s) !! i = Some x →
  CapSpace.objects (cspace s) !! CapSlot.object x = Some o →
  wp m (cspace s) (derive_post (cspace s) i x rights badge fen) →
  wp (on_cspace m) s (λ r s', derived s s' src
    (kind_with fen (Object.kind o), rights, badge) r).
Proof.
  intros Hr Hx Ho Hm. apply wp_on_cspace. eapply wp_mono; [exact Hm|]. intros r c' H. cbv beta in H.
  pose proof (derive_fresh _ _ _ _ _ _ _ _ _ _ Hr Hx Ho H) as Hf. destruct r as [new|e]; [done|].
  destruct Hf as (-> & -> & Hall). split; [done|]. by rewrite with_cspace_id.
Qed.

Lemma wp_copy s src k have b rights : inv (cspace s) → blick (cspace s) src = Some (k, have, b) →
  wp (on_cspace (CapSpace.copy src rights)) s
    (λ r s', derived s s' src (k, Rights.intersect have rights, b) r).
Proof.
  intros Hi Hb. pose proof Hb as Hb'. rewrite blick_resolve in Hb'.
  destruct (CapSpace.resolve_in (cspace s) src) as [i|] eqn:Hr; [|done].
  destruct (blick_Some _ _ Hi _ Hr) as (x & o & Ei & Hx & _ & Ho & E). rewrite Hb in E. injection E as -> -> ->.
  rewrite effective_kind_with. eapply derived_of; [exact Hr|exact Hx|exact Ho|].
  eapply wp_mono; [by apply copy_spec|]. intros r c'. cbv beta. rewrite Hr. by intros (x' & Hx' & H); simplify_eq.
Qed.

Lemma wp_mint s src k have b rights badge : inv (cspace s) → blick (cspace s) src = Some (k, have, b) →
  wp (on_cspace (CapSpace.mint src rights badge)) s
    (λ r s', derived s s' src (k, Rights.intersect have rights, badge) r).
Proof.
  intros Hi Hb. pose proof Hb as Hb'. rewrite blick_resolve in Hb'.
  destruct (CapSpace.resolve_in (cspace s) src) as [i|] eqn:Hr; [|done].
  destruct (blick_Some _ _ Hi _ Hr) as (x & o & Ei & Hx & _ & Ho & E). rewrite Hb in E. injection E as -> -> ->.
  rewrite effective_kind_with. eapply derived_of; [exact Hr|exact Hx|exact Ho|].
  eapply wp_mono; [by apply mint_spec|]. intros r c'. cbv beta. rewrite Hr. by intros (x' & Hx' & H); simplify_eq.
Qed.

(** A window of a memory capability, or the refusal of the window. *)
Lemma wp_subregion s src w have b offset len rights :
  inv (cspace s) → blick (cspace s) src = Some (Memory w, have, b) → 0 <= offset →
  wp (on_cspace (CapSpace.subregion src offset len rights)) s (λ r s',
    match teilfenster_rechnen w offset len with
    | Err e => r = Err e ∧ s' = s
    | Ok f => derived s s' src (Memory f, Rights.intersect have rights, b) r
    end).
Proof.
  intros Hi Hb Hoff. pose proof Hb as Hb'. rewrite blick_resolve in Hb'.
  destruct (CapSpace.resolve_in (cspace s) src) as [i|] eqn:Hr; [|done].
  destruct (blick_Some _ _ Hi _ Hr) as (x & o & Ei & Hx & _ & Ho & E). rewrite Hb in E. injection E as Ek -> ->.
  unfold CapSpace.effective_kind in Ek. destruct (Object.kind o) as [whole| | | | | | | | | | | | |] eqn:Hk; try done.
  injection Ek as ->. pose proof (subregion_spec (cspace s) src offset len rights Hi Hoff) as Hsub. rewrite Hr in Hsub.
  destruct (teilfenster_rechnen (default whole (CapSlot.subregion x)) offset len) as [f|e] eqn:Hf.
  - pose proof (derived_of (CapSpace.subregion src offset len rights) s src i x o
      (Rights.intersect (CapSlot.rights x) rights) (CapSlot.badge x) (Some f) Hr Hx Ho) as Hd.
    rewrite Hk in Hd. apply Hd. eapply wp_mono; [exact Hsub|]. intros r c'. cbv beta.
    intros (x' & o' & Hx' & Ho' & H). simplify_eq. by rewrite Hk, Hf in H.
  - apply wp_on_cspace. eapply wp_mono; [exact Hsub|]. intros r c'. cbv beta.
    intros (x' & o' & Hx' & Ho' & H). simplify_eq. rewrite Hk, Hf in H. destruct H as [-> ->].
    by rewrite with_cspace_id.
Qed.

(** ** Installing a fresh copy *)

(** The slot of the caller that a copy goes to: in the run, empty, and within the budget. *)
Lemma slot_free_true s pd dst : Dispatch.slot_free s pd dst = true →
  ∃ p, PdTable.entry_used (pds s) pd = Some p ∧ (dst < Z.to_nat (Pd.cspace_len p))%nat ∧
    PdTable.cap_at (pds s) pd dst = None ∧
    Z.of_nat (PdTable.cap_count (pds s) pd) < PdTable.budget_of (pds s) pd.
Proof.
  unfold Dispatch.slot_free, budget_allows, PdTable.cspace_len_von. intros [[H1 H2]%negb_true_iff%orb_false_iff H3]%andb_true_iff.
  apply Nat.leb_gt in H1. destruct (PdTable.cap_at (pds s) pd dst) eqn:Hc; [done|].
  apply Z.ltb_lt in H3. destruct (PdTable.entry_used (pds s) pd) as [p|]; [|lia]. by exists p.
Qed.

(** [r] is the result of a copy of [src] for slot [dst]; the copy shows [v]. *)
Definition placed (s s' : t) (pd dst : nat) (src : CapPtr.t) (v : schau) (r : Z * option CapPtr.t) : Prop :=
  match r.2 with
  | Some orphan =>
      r.1 = errors.ERR_RIGHTS ∧ kind_allowed (pds s) pd v.1.1 = false ∧ pds s' = pds s ∧
      fresh_child (cspace s) (cspace s') src orphan v
  | None =>
      if decide (r.1 = result_code.OK) then
        kind_allowed (pds s) pd v.1.1 = true ∧ ∃ new, fresh_child (cspace s) (cspace s') src new v ∧
          (∀ slot, PdTable.cap_at (pds s') pd slot =
             if decide (slot = dst) then Some new else PdTable.cap_at (pds s) pd slot) ∧
          Z.of_nat (PdTable.cap_count (pds s') pd) <= PdTable.budget_of (pds s') pd
      else r.1 = errors.ERR_NOSPACE ∧ s' = s ∧ full (cspace s)
  end.

Lemma wp_slot_install s s1 pd dst src new v :
  ok (pds s) → Dispatch.slot_free s pd dst = true → pds s1 = pds s →
  fresh_child (cspace s) (cspace s1) src new v →
  wp (Dispatch.slot_install pd dst new) s1 (λ r s', placed s s' pd dst src v r).
Proof.
  intros Hok (p & He & Hd & Hc & Hb)%slot_free_true Ep Hf. unfold Dispatch.slot_install. apply wp_bind.
  assert (budget_allows s1 pd dst = true) as Hba.
  { unfold budget_allows. rewrite Ep, Hc. by apply Z.ltb_lt. }
  assert (erlaubt s1 pd new = kind_allowed (pds s) pd v.1.1) as Her.
  { unfold erlaubt. rewrite sicht_blick, (fc_shows _ _ _ _ _ Hf). cbn. by rewrite Ep. }
  apply wp_install_checked; [apply Hf| |].
  - rewrite Hba, andb_true_r. intros E. apply wp_ret. unfold placed. cbn [fst snd]. rewrite <-Her. done.
  - intros E _. apply wp_ret. unfold placed. cbn [fst snd]. rewrite decide_True by done. rewrite <-Her. split; [done|].
    exists new. cbn [with_pds pds cspace]. rewrite Ep. split; [done|]. split.
    + intros slot. rewrite (cap_at_slot_put _ _ _ _ _ _ p) by (done || by left). apply decide_ext. naive_solver.
    + rewrite (cap_count_put _ _ _ _ p), Hc by done. unfold PdTable.budget_of in *. rewrite slot_put_used. lia.
Qed.

(** A derivation, then the installation: the step [CCOPY] and [CSUB] share. *)
Lemma wp_derive_install (m : M t (result CapPtr.t CapError)) s pd dst src v (k : CapError → Z * option CapPtr.t) :
  ok (pds s) → Dispatch.slot_free s pd dst = true → k NoSlot = (errors.ERR_NOSPACE, None) →
  wp m s (λ r s', derived s s' src v r) →
  wp (r ← m; match r with Ok new => Dispatch.slot_install pd dst new | Err e => mret (k e) end) s
    (λ r s', placed s s' pd dst src v r).
Proof.
  intros Hok Hfree Hk Hm. apply wp_bind. eapply wp_mono; [exact Hm|]. intros [new|e] s1; cbv beta.
  - intros [Ep Hf]. by eapply wp_slot_install.
  - intros (-> & -> & Hfull). apply wp_ret. rewrite Hk. unfold placed. cbn [fst snd]. by rewrite decide_False.
Qed.

(** ** The rights of a mask *)

Lemma rights_from_bits_land mask : 0 <= mask → rights_from_bits mask = Z.land mask 7.
Proof.
  intros Hm. apply Z.bits_inj'. intros n Hn. rewrite Z.land_spec. unfold rights_from_bits.
  assert (∀ i, 0 <= i → (Z.land mask (2 ^ i) =? 0) = negb (Z.testbit mask i)) as Hb.
  { intros i Hi. destruct (Z.testbit mask i) eqn:Hi'; cbn [negb].
    - apply Z.eqb_neq. intros E. apply (f_equal (λ z, Z.testbit z i)) in E.
      rewrite Z.land_spec, Z.pow2_bits_true, Hi', Z.bits_0 in E by done. done.
    - apply Z.eqb_eq, Z.bits_inj'. intros j Hj. rewrite Z.land_spec, Z.bits_0.
      destruct (decide (j = i)) as [->|Hne]; [by rewrite Hi'|]. rewrite Z.pow2_bits_false by done. apply andb_false_r. }
  pose proof (Hb 0 ltac:(lia)) as B0. pose proof (Hb 1 ltac:(lia)) as B1. pose proof (Hb 2 ltac:(lia)) as B2.
  change (2 ^ 0) with 1 in B0. change (2 ^ 1) with 2 in B1. change (2 ^ 2) with 4 in B2. rewrite B0, B1, B2. clear B0 B1 B2.
  destruct (decide (n = 0)) as [->|]; [|destruct (decide (n = 1)) as [->|]; [|destruct (decide (n = 2)) as [->|]]].
  1-3: destruct (Z.testbit mask 0), (Z.testbit mask 1), (Z.testbit mask 2); reflexivity.
  assert (Z.testbit 7 n = false) as ->.
  { rewrite Z.bits_above_log2; [done|lia|]. change (Z.log2 7) with 2. lia. }
  rewrite andb_false_r.
  assert (∀ r, 0 <= r < 8 → Z.testbit r n = false) as Hbig.
  { intros r Hr. rewrite <-(Z.mod_small r (2 ^ 3)) by lia. apply Z.mod_pow2_bits_high. lia. }
  destruct (Z.testbit mask 0), (Z.testbit mask 1), (Z.testbit mask 2); apply Hbig; vm_compute; done.
Qed.

(** ** The calls *)

(** The capability in a slot, with what it shows. *)
Definition vorn (s : t) (pd slot : nat) : option (CapPtr.t * schau) :=
  c ← PdTable.cap_at (pds s) pd slot; v ← blick (cspace s) c; Some (c, v).

(** [CCOPY] answers in exactly four ways: no such capability; no free slot, no budget or no
    slot in the table; the copy exists but the policy forbids its kind; or the
    copy is in the slot.  A copy is a child of the source for the same object, its rights
    are those of the source that the mask names, its badge the one asked for or, for 0,
    that of the source.  No other slot of the caller and no other handle changes. *)
Theorem ccopy_exact (s : t) (pd src_slot dst_slot : nat) (mask new_badge : Z) :
  inv (cspace s) → ok (pds s) → 0 <= mask →
  wp (Dispatch.slot_ccopy pd src_slot dst_slot mask new_badge) s (λ r s',
    match vorn s pd src_slot with
    | None => r = (result_code.ERR_BADCAP, None) ∧ s' = s
    | Some (src, (k, have, b)) =>
        if Dispatch.slot_free s pd dst_slot
        then placed s s' pd dst_slot src
               (k, Z.land have (Z.land mask 7), if new_badge =? 0 then b else new_badge) r
        else r = (errors.ERR_NOSPACE, None) ∧ s' = s
    end).
Proof.
  intros Hi Hok Hm. unfold Dispatch.slot_ccopy, vorn. apply wp_bind, wp_gets.
  destruct (PdTable.cap_at (pds s) pd src_slot) as [src|]; [|by apply wp_ret]. cbn [mbind option_bind].
  apply wp_bind, wp_caps_lookup; [done|]. destruct (blick (cspace s) src) as [[[k have] b]|] eqn:Hb; [|by apply wp_ret].
  cbn [mbind option_bind]. destruct (Dispatch.slot_free s pd dst_slot) eqn:Hfree; cbn [negb]; [|by apply wp_ret].
  assert (Rights.intersect have (Rights.intersect (rights_from_bits mask) have) = Z.land have (Z.land mask 7)) as Er.
  { unfold Rights.intersect. rewrite rights_from_bits_land by done.
    rewrite (Z.land_comm (Z.land mask 7)), Z.land_assoc. by rewrite Z.land_diag. }
  rewrite <-Er. apply (wp_derive_install _ _ _ _ _ _ (λ _, (errors.ERR_NOSPACE, None))); [done|done|done|].
  destruct (new_badge =? 0); cbn [negb]; [by apply wp_copy|by eapply wp_mint].
Qed.

(** [CSUB] the same, for a window of a memory capability; the window lies inside the
    capability, or the call says that it does not. *)
Theorem csub_exact (s : t) (pd src_slot dst_slot : nat) (offset len : Z) :
  inv (cspace s) → ok (pds s) → 0 <= offset →
  wp (Dispatch.slot_csub pd src_slot dst_slot offset len) s (λ r s',
    match vorn s pd src_slot with
    | Some (src, (Memory w, have, b)) =>
        if Dispatch.slot_free s pd dst_slot then
          match teilfenster_rechnen w offset len with
          | Ok f => PhysRegion.subset f w ∧
              placed s s' pd dst_slot src (Memory f, Z.land have Rights.RWX, b) r
          | Err Subregion => r = (errors.ERR_SUBREGION, None) ∧ s' = s
          | Err Invalid => r = (result_code.ERR_BADCAP, None) ∧ s' = s
          | Err _ => r = (errors.ERR_NOSPACE, None) ∧ s' = s
          end
        else r = (errors.ERR_NOSPACE, None) ∧ s' = s
    | _ => r = (result_code.ERR_BADCAP, None) ∧ s' = s
    end).
Proof.
  intros Hi Hok Hoff. unfold Dispatch.slot_csub, vorn. apply wp_bind, wp_gets.
  destruct (PdTable.cap_at (pds s) pd src_slot) as [src|]; [|by apply wp_ret]. cbn [mbind option_bind].
  apply wp_bind, wp_caps_lookup; [done|]. destruct (blick (cspace s) src) as [[[k have] b]|] eqn:Hb; [|by apply wp_ret].
  cbn [mbind option_bind]. destruct k; try by apply wp_ret.
  destruct (Dispatch.slot_free s pd dst_slot) eqn:Hfree; cbn [negb]; [|by apply wp_ret].
  pose proof (wp_subregion s src r have b offset len Rights.RWX Hi Hb Hoff) as Hsub.
  destruct (teilfenster_rechnen r offset len) as [f|e] eqn:Hf.
  - eapply wp_mono.
    + set (k := λ e, match e with Subregion => (errors.ERR_SUBREGION, None : option CapPtr.t)
        | Invalid => (result_code.ERR_BADCAP, None) | _ => (errors.ERR_NOSPACE, None) end).
      pose proof (wp_derive_install _ s pd dst_slot src _ k Hok Hfree eq_refl Hsub) as H.
      unfold wp in *. unfold mbind, M_bind in *.
      destruct (on_cspace (CapSpace.subregion src offset len Rights.RWX) s) as [[[new|[]] s1]|]; exact H.
    + intros x s' H. split; [by eapply teilfenster_subset|exact H].
  - apply wp_bind. eapply wp_mono; [exact Hsub|]. intros x s' [-> ->]. destruct e; by apply wp_ret.
Qed.

(** [CMOVE] moves the very handle between two slots of the caller, never onto a taken
    slot. *)
Theorem cmove_exact (s : t) (pd src_slot dst_slot : nat) :
  ok (pds s) →
  wp (Dispatch.slot_cmove pd src_slot dst_slot) s (λ r s',
    match PdTable.cap_at (pds s) pd src_slot with
    | None => r = (result_code.ERR_BADCAP, None) ∧ s' = s
    | Some src =>
        if decide (src_slot = dst_slot) then r = (result_code.OK, None) ∧ s' = s
        else if decide (PdTable.cspace_len_von (pds s) pd ≤ dst_slot)%nat
        then r = (result_code.ERR_BADCAP, None) ∧ s' = s
        else if PdTable.cap_at (pds s) pd dst_slot then r = (errors.ERR_NOSPACE, None) ∧ s' = s
        else r = (result_code.OK, None) ∧ cspace s' = cspace s ∧
          (∀ slot, PdTable.cap_at (pds s') pd slot =
             if decide (slot = dst_slot) then Some src
             else if decide (slot = src_slot) then None else PdTable.cap_at (pds s) pd slot)
    end).
Proof.
  intros Hok. unfold Dispatch.slot_cmove. apply wp_bind, wp_gets.
  destruct (PdTable.cap_at (pds s) pd src_slot) as [src|] eqn:Hsrc; [|by apply wp_ret].
  destruct (Nat.eqb_spec src_slot dst_slot) as [->|Hne]; [apply wp_ret; by rewrite decide_True|].
  destruct (Nat.leb_spec (PdTable.cspace_len_von (pds s) pd) dst_slot) as [Hle|Hlt].
  { apply wp_ret. by rewrite decide_False, decide_True. }
  destruct (PdTable.cap_at (pds s) pd dst_slot); [apply wp_ret; by rewrite !decide_False by lia|].
  apply wp_bind, wp_on_pds. unfold wp at 1. rewrite clear_cap_runs. apply wp_bind, wp_on_pds. unfold wp at 1.
  rewrite install_cap_runs. apply wp_ret. rewrite !decide_False by lia. split; [done|]. split; [done|]. intros slot.
  unfold PdTable.cspace_len_von in Hlt. destruct (PdTable.entry_used (pds s) pd) as [p|] eqn:He; [|lia].
  cbn [with_pds pds]. rewrite (cap_at_slot_put _ _ _ _ _ _ p); [| |by rewrite slot_put_used|by left].
  2:{ eapply quiet_ok; [apply slot_put_quiet|done]. }
  rewrite (cap_at_slot_put _ _ _ _ _ _ p) by (done || by left).
  assert (src_slot < Z.to_nat (Pd.cspace_len p))%nat as Hs.
  { destruct (decide (src_slot < Z.to_nat (Pd.cspace_len p))%nat); [done|].
    rewrite (cap_at_outside _ pd p src_slot) in Hsrc by (done || lia). done. }
  repeat case_decide; naive_solver.
Qed.

(** ** Delegation in a reply *)

(** The slot of the receiver that a granted capability goes to. *)
Definition empfang (s : t) (cpd : nat) : nat := PdTable.recv_slot (pds s) cpd.

(** What a delegation does. *)
Lemma grant_told (s : t) (caller : ThreadId.t) (server_pd grant_slot : nat) :
  inv (cspace s) → ok (pds s) →
  wp (grant_cap caller server_pd grant_slot) s (λ r s',
    match vorn s server_pd grant_slot, PdTable.pd_of (pds s) caller with
    | Some (src, (k, have, b)), Some cpd =>
        if kind_allowed (pds s) cpd k && budget_allows s cpd (empfang s cpd) then
          r = PdTable.cap_at (pds s) cpd (empfang s cpd) ∧
            (∃ new, fresh_child (cspace s) (cspace s') src new (k, Z.land have Rights.RWX, b) ∧
              pds s' = slot_put cpd (empfang s cpd) (Some new) (pds s)) ∨
          r = None ∧ s' = s ∧ full (cspace s)
        else r = None ∧ s' = s
    | _, _ => r = None ∧ s' = s
    end).
Proof.
  intros Hi Hok. unfold grant_cap, vorn. apply wp_bind, wp_gets.
  destruct (PdTable.cap_at (pds s) server_pd grant_slot) as [src|] eqn:Hsrc; [|by apply wp_ret]. cbn [mbind option_bind].
  destruct (PdTable.pd_of (pds s) caller) as [cpd|]; [|apply wp_ret; by destruct (blick (cspace s) src) as [[[? ?] ?]|]].
  apply wp_bind, wp_cap_allowed; [done|]. unfold erlaubt. rewrite sicht_blick.
  destruct (blick (cspace s) src) as [[[k have] b]|] eqn:Hb; [|by apply wp_ret].
  cbn [fmap option_fmap option_map fst mbind option_bind].
  destruct (kind_allowed (pds s) cpd k); cbn [negb andb]; [|by apply wp_ret]. apply wp_bind, wp_gets. cbv zeta.
  unfold empfang. destruct (budget_allows s cpd (PdTable.recv_slot (pds s) cpd)); cbn [negb]; [|by apply wp_ret].
  apply wp_bind. eapply wp_mono; [by apply wp_copy|]. intros [new|e] s1; cbv beta.
  - intros [Ep Hf]. apply wp_bind, wp_gets. apply wp_bind, wp_on_pds. unfold wp. rewrite install_cap_runs. left.
    rewrite Ep. split; [done|]. by exists new.
  - intros (-> & -> & Hfull). apply wp_ret. by right.
Qed.

(** What is put into a slot of a domain is there, and the other slots are as they were. *)
Lemma slot_put_exact tb pd slot c : ok tb → (slot < PdTable.cspace_len_von tb pd)%nat →
  ∀ slot', PdTable.cap_at (slot_put pd slot c tb) pd slot' = if decide (slot' = slot) then c else PdTable.cap_at tb pd slot'.
Proof.
  intros Hok Hlt slot'. unfold PdTable.cspace_len_von in Hlt. destruct (PdTable.entry_used tb pd) as [p|] eqn:He; [|lia].
  rewrite (cap_at_slot_put tb pd slot c pd slot' p Hok He) by by left. repeat case_decide; naive_solver.
Qed.
(** A domain whose policy allows something has an entry; beyond its slots nothing is put. *)
Lemma slot_put_beyond tb pd slot c k : kind_allowed tb pd k = true → (PdTable.cspace_len_von tb pd ≤ slot)%nat →
  slot_put pd slot c tb = tb ∧ PdTable.cap_at tb pd slot = None.
Proof.
  intros Hk Hlen. split; [|unfold PdTable.cap_at; cbv zeta; by rewrite decide_False by lia].
  unfold slot_put. unfold PdTable.cspace_len_von in Hlen. unfold kind_allowed, PdTable.domain_of in Hk.
  destruct (PdTable.entry_used tb pd) as [p|] eqn:He; [|done]. apply entry_used_Some in He as [-> _]. by rewrite decide_False by lia.
Qed.

(** C39: [grant_cap] makes a copy exactly when the server holds a capability in the slot it names,
    the caller belongs to a domain whose policy allows the kind, the budget of this domain allows
    the receive slot, and the table of capabilities is not full; otherwise nothing happens.  The
    copy is a new child of the server's capability for the same object and badge, with the rights
    of the server.  If the receive slot lies in the run of the domain the copy is there, the
    answer is the capability that was there before, and the domain's other slots are as they
    were; if it lies beyond, the copy is made and no slot holds it. *)
Theorem grant_exact (s : t) (caller : ThreadId.t) (server_pd grant_slot : nat) :
  inv (cspace s) → ok (pds s) →
  wp (grant_cap caller server_pd grant_slot) s (λ r s',
    match vorn s server_pd grant_slot, PdTable.pd_of (pds s) caller with
    | Some (src, (k, have, b)), Some cpd =>
        if kind_allowed (pds s) cpd k && budget_allows s cpd (empfang s cpd) then
          ¬ full (cspace s) ∧
            (∃ new, fresh_child (cspace s) (cspace s') src new (k, Z.land have Rights.RWX, b) ∧
              if decide (empfang s cpd < PdTable.cspace_len_von (pds s) cpd)%nat then
                r = PdTable.cap_at (pds s) cpd (empfang s cpd) ∧
                pds s' = slot_put cpd (empfang s cpd) (Some new) (pds s) ∧
                ∀ slot, PdTable.cap_at (pds s') cpd slot =
                  if decide (slot = empfang s cpd) then Some new else PdTable.cap_at (pds s) cpd slot
              else r = None ∧ pds s' = pds s) ∨
          full (cspace s) ∧ r = None ∧ s' = s
        else r = None ∧ s' = s
    | _, _ => r = None ∧ s' = s
    end).
Proof.
  intros Hi Hok. eapply wp_mono; [by apply grant_told|]. intros r s'. cbv beta.
  destruct (vorn s server_pd grant_slot) as [[src [[k have] b]]|]; [|done]. destruct (PdTable.pd_of (pds s) caller) as [cpd|]; [|done].
  destruct (kind_allowed (pds s) cpd k) eqn:Hk; cbn [andb]; [|done]. destruct (budget_allows _ _ _); [|done].
  intros [(-> & new & Hf & Hp)|(-> & -> & Hfull)]; [left|by right].
  split. { destruct (fc_room _ _ _ _ _ Hf) as (i & x & Hx & Hu). intros Hfull. specialize (Hfull i x Hx). congruence. }
  exists new. split; [done|]. case_decide as Hlt.
  - split_and!; [done|done|]. rewrite Hp. by apply slot_put_exact.
  - destruct (slot_put_beyond (pds s) cpd (empfang s cpd) (Some new) k Hk) as [E1 E2]; [lia|]. by rewrite Hp, E1, E2.
Qed.

(** Where the receiver has no such slot, the copy is made and then belongs to nobody. *)
Lemma grant_leaks (s : t) (caller : ThreadId.t) (server_pd grant_slot cpd : nat) src k have b :
  inv (cspace s) → ok (pds s) → vorn s server_pd grant_slot = Some (src, (k, have, b)) →
  PdTable.pd_of (pds s) caller = Some cpd → kind_allowed (pds s) cpd k = true →
  (PdTable.cspace_len_von (pds s) cpd ≤ empfang s cpd)%nat → budget_allows s cpd (empfang s cpd) = true →
  ¬ full (cspace s) →
  wp (grant_cap caller server_pd grant_slot) s (λ r s',
    r = None ∧ pds s' = pds s ∧ ∃ new, fresh_child (cspace s) (cspace s') src new (k, Z.land have Rights.RWX, b)).
Proof.
  intros Hi Hok Hv Hc Hk Hlen Hb Hfull. eapply wp_mono; [by apply grant_told|]. intros r s'. cbv beta.
  rewrite Hv, Hc, Hk, Hb. intros [(-> & new & Hf & Hp)|(_ & _ & ?)]; [|done].
  destruct (slot_put_beyond (pds s) cpd (empfang s cpd) (Some new) k Hk Hlen) as [E1 ->]. rewrite Hp, E1. split; [done|]. split; [done|]. by exists new.
Qed.

(** ** The calls on capability slots at a concrete state

    A trusted domain 0, whose thread 2 holds a memory capability in slot 0, and a
    client domain 1 with thread 3 that receives in slot 5: witnesses of the
    theorems of [DispatchCaps].  *)


Definition demo_slots_ops : list PdSystem.op :=
  [Create TrustedSas 0 0; Create UserLand 0 0; Bind 0 (ThreadId.mk 2 0); Bind 1 (ThreadId.mk 3 0);
   Install 0 0 (CapPtr.mk 0 0); RecvSlot 1 5].
Definition demo_slots_pds : PdTable.t := table_of (PdSystem.run demo_slots_ops (PdSystem.boot 4 4 64)).
Definition demo_slots : Caps.t := Caps.mk (space CapProps.demo) demo_slots_pds.
Definition demo_region : PhysRegion.t := PhysRegion.new 4096 8192.

Lemma table_of_ok l tb : wp (PdSystem.run l) tb (λ _ tb', ok tb') → ok (table_of (PdSystem.run l tb)).
Proof. unfold wp, table_of. by destruct (PdSystem.run l tb) as [[? ?]|]. Qed.

Lemma demo_slots_fit : Forall fits demo_slots_ops.
Proof. repeat (constructor; cbn; [lia || done|]). constructor. Qed.

Lemma demo_slots_ok : ok (pds demo_slots).
Proof.
  change (ok demo_slots_pds). unfold demo_slots_pds. apply table_of_ok, wp_run_ok; [exact demo_slots_fit|by apply boot_ok].
Qed.

Lemma demo_slots_inv : inv (cspace demo_slots).
Proof. apply reachable_ok, CapProps.demo_reachable. Qed.

Lemma demo_vorn : vorn demo_slots 0 0 = Some (CapPtr.mk 0 0, (Memory demo_region, Rights.RW, 0)).
Proof. vm_compute. reflexivity. Qed.
Lemma demo_slot_free : Dispatch.slot_free demo_slots 0 3 = true.
Proof. vm_compute. reflexivity. Qed.

(** A copy for reading only, with a new badge. *)
Lemma ccopy_exact_witness :
  wp (Dispatch.slot_ccopy 0 0 3 1 9) demo_slots (λ r s',
    placed demo_slots s' 0 3 (CapPtr.mk 0 0) (Memory demo_region, Rights.READ, 9) r).
Proof.
  eapply wp_mono; [apply (ccopy_exact demo_slots 0 0 3 1 9 demo_slots_inv demo_slots_ok); done|].
  intros r s'. rewrite demo_vorn, demo_slot_free. done.
Defined.

(** The second page alone; a window that leaves the capability is refused. *)
Lemma csub_exact_witness :
  wp (Dispatch.slot_csub 0 0 3 4096 4096) demo_slots (λ r s',
    placed demo_slots s' 0 3 (CapPtr.mk 0 0) (Memory (PhysRegion.new 8192 4096), Rights.RW, 0) r) ∧
  wp (Dispatch.slot_csub 0 0 3 4096 8192) demo_slots (λ r s', r = (errors.ERR_SUBREGION, None) ∧ s' = demo_slots).
Proof.
  split; (eapply wp_mono; [apply (csub_exact demo_slots 0 0 3 _ _ demo_slots_inv demo_slots_ok); done|]);
    intros r s'; rewrite demo_vorn, demo_slot_free; [by intros [_ ?]|done].
Defined.

(** The trusted domain grants its memory to the client. *)
Lemma grant_exact_witness :
  wp (grant_cap (ThreadId.mk 3 0) 0 0) demo_slots (λ r s',
    r = None ∧ ∃ new, fresh_child (cspace demo_slots) (cspace s') (CapPtr.mk 0 0) new (Memory demo_region, Rights.RW, 0) ∧
      PdTable.cap_at (pds s') 1 5 = Some new).
Proof.
  assert (¬ full (cspace demo_slots)) as Hroom by (intros Hfull; specialize (Hfull 4%nat _ eq_refl); vm_compute in Hfull; discriminate).
  eapply wp_mono; [apply (grant_exact demo_slots (ThreadId.mk 3 0) 0 0 demo_slots_inv demo_slots_ok)|].
  intros r s'. rewrite demo_vorn.
  replace (PdTable.pd_of (pds demo_slots) (ThreadId.mk 3 0)) with (Some 1%nat) by (vm_compute; reflexivity).
  replace (kind_allowed _ _ _ && budget_allows _ _ _) with true by (vm_compute; reflexivity).
  replace (empfang demo_slots 1) with 5%nat by (vm_compute; reflexivity).
  intros [(_ & new & Hf & H)|(? & _)]; [|by destruct Hroom]. case_decide as Hd; [|exfalso; apply Hd; by vm_compute; lia].
  destruct H as (-> & _ & Hat). split; [by vm_compute|]. exists new. split; [exact Hf|]. by rewrite Hat.
Defined.
