(* ===== verification/DispatchBind.v ===== *)
(** * The graph of handlers

    Which protection domain handles the system calls of which: the edges of the
    table of domains, the check of [SETHANDLER] in [Dispatch], and every other
    operation on the table.  No history closes a chain of handlers to a ring.  *)

From S2P Require Import Prelude PanicMonad CapObject CapSpace Slab Redirect SchedData TidQueue Ipc IpcSystem.
From S2P Require Import Cspace PdTable PdSystem PdThreads PdCaps PdPolicy PdProc Abi Dispatch.
Import PdTable.
#[local] Open Scope Z_scope.

(** The edges, on the numbers of domains. *)
Definition graph (tb : PdTable.t) (p : Z) : option Z := if p <? 0 then None else handler_pd_of tb (usize p).

(** The edge of an entry. *)
Definition kante (p : Pd.t) : option Z :=
  if Pd.used p && negb (Pd.handler_pd p =? KEIN_HANDLER_PD) then Some (Pd.handler_pd p) else None.

Lemma graph_entry tb (i : nat) : graph tb (Z.of_nat i) = pds tb !! i ≫= kante.
Proof.
  unfold graph, handler_pd_of, entry_used, usize, kante. rewrite (proj2 (Z.ltb_ge _ _)) by lia. rewrite Nat2Z.id.
  destruct (pds tb !! i) as [p|]; [|done]. cbn [mbind option_bind]. by destruct (Pd.used p).
Qed.

Lemma graph_Some tb a b : graph tb a = Some b → ∃ p, 0 <= a ∧ pds tb !! usize a = Some p ∧ kante p = Some b.
Proof.
  destruct (decide (0 <= a)) as [Ha|Ha]; [|unfold graph; by rewrite (proj2 (Z.ltb_lt _ _)) by lia].
  unfold usize. rewrite <-(Z2Nat.id a) at 1 by done. rewrite graph_entry.
  destruct (pds tb !! Z.to_nat a) as [p|]; [|done]. cbn [mbind option_bind]. intros E. by exists p.
Qed.

(** The numbers of handlers are as wide as the source's. *)
Definition narrow (tb : PdTable.t) : Prop := ∀ i p, pds tb !! i = Some p → in_width 16 (Pd.handler_pd p).

(** The edges of the entries [l'] are edges of [l]. *)
Record fewer (l l' : list Pd.t) : Prop := {
  fe_length : length l' = length l;
  fe_edge i p' : l' !! i = Some p' → ∃ p, l !! i = Some p ∧
    (in_width 16 (Pd.handler_pd p) → in_width 16 (Pd.handler_pd p')) ∧
    ∀ h, kante p' = Some h → kante p = Some h }.

#[export] Instance fewer_preorder : PreOrder fewer.
Proof.
  split.
  - intros l. split; [done|]. intros i p Hp. by exists p.
  - intros a b c [L1 H1] [L2 H2]. split; [congruence|]. intros i p (p1 & Hp1 & W1 & E1)%H2.
    destruct (H1 i p1 Hp1) as (p0 & Hp0 & W0 & E0). exists p0. split; [done|]. split; [auto|]. intros h Hh. by apply E0, E1.
Qed.

(** On tables, and on the state of the slot pool. *)
Definition fewer_edges (tb tb' : PdTable.t) : Prop := fewer (pds tb) (pds tb').
Definition fewer_pool (s s' : Vergabe.t * list Pd.t) : Prop := fewer s.2 s'.2.
#[export] Instance fewer_edges_preorder : PreOrder fewer_edges.
Proof. split; unfold fewer_edges; [intros ?; done|intros ?????; by etrans]. Qed.
#[export] Instance fewer_pool_preorder : PreOrder fewer_pool.
Proof. split; unfold fewer_pool; [intros ?; done|intros ?????; by etrans]. Qed.

Lemma acyclic_sub k k' : (∀ a b, k' a = Some b → k a = Some b) → acyclic k → acyclic k'.
Proof.
  intros Hsub Hac x. destruct (Hac x) as [n Hn]. exists n. revert x Hn. induction n as [|n IH]; intros x; [done|].
  cbn [iter_kante]. destruct (k' x) as [y|] eqn:E; [|done]. rewrite (Hsub _ _ E). cbn [mbind option_bind]. apply IH.
Qed.

Lemma fewer_acyclic tb tb' : fewer_edges tb tb' → acyclic (graph tb) → acyclic (graph tb').
Proof.
  intros [_ He]. apply acyclic_sub. intros a b (p' & Ha & Hp' & Hk)%graph_Some.
  destruct (He _ _ Hp') as (p & Hp & _ & E). rewrite <-(Z2Nat.id a), graph_entry by done. unfold usize in Hp.
  rewrite Hp. cbn [mbind option_bind]. by apply E.
Qed.

Lemma fewer_narrow tb tb' : fewer_edges tb tb' → narrow tb → narrow tb'.
Proof. intros [_ He] Hn i p' (p & Hp & W & _)%He. by eapply W, Hn. Qed.

(** ** No operation but the binding draws an edge *)

(** What an update of an entry may do. *)
Definition dulls (f : Pd.t → Pd.t) : Prop := ∀ p,
  (in_width 16 (Pd.handler_pd p) → in_width 16 (Pd.handler_pd (f p))) ∧ ∀ h, kante (f p) = Some h → kante p = Some h.

Lemma fewer_alter l i f : dulls f → fewer l (alter f i l).
Proof.
  intros Hf. split; [apply length_alter|]. intros j p'. rewrite lookup_alter_if.
  destruct (l !! j) as [p|]; [|done]. cbn [fmap option_fmap option_map]. intros [= <-]. exists p.
  split; [done|]. case_decide; [apply Hf|done].
Qed.

Lemma keeping_upd_pd i f : dulls f → keeping fewer_edges (upd_pd i f).
Proof. intros Hf. unfold upd_pd, pd_at. keeps. by apply fewer_alter. Qed.

(** Fields beside the edge, and the loss of it. *)
Lemma dulls_same f : (∀ p, Pd.used (f p) = Pd.used p ∧ Pd.handler_pd (f p) = Pd.handler_pd p) → dulls f.
Proof. intros Hf p. unfold kante. by destruct (Hf p) as [-> ->]. Qed.
Lemma dulls_none f : (∀ p, Pd.handler_pd (f p) = KEIN_HANDLER_PD) → dulls f.
Proof.
  intros Hf p. unfold kante. rewrite (Hf p), Z.eqb_refl, andb_false_r. split; [|done].
  intros _. unfold in_width, KEIN_HANDLER_PD, max_value. lia.
Qed.

Lemma keeping_pool {B} (m : M (Vergabe.t * list Pd.t) B) : keeping fewer_pool m → keeping fewer_edges (on_vergabe m).
Proof. intros Hm. eapply keeping_zoom; [exact Hm|]. by intros s [v l]. Qed.

Lemma keeping_lese i : keeping fewer_pool (Vergabe.on_ablage (lese i)).
Proof.
  apply (keeping_zoom _ fewer); [|by intros [v l] l']. cbn [lese pd_ablage]. keeps.
Qed.
Lemma keeping_schreibe i a : keeping fewer_pool (Vergabe.on_ablage (schreibe i a)).
Proof.
  apply (keeping_zoom _ fewer); [|by intros [v l] l']. cbn [schreibe pd_ablage]. keeps.
  apply fewer_alter, dulls_same. by intros [].
Qed.
Lemma keeping_vergabe {B} (m : M Vergabe.t B) : keeping fewer_pool (Vergabe.on_vergabe m).
Proof. apply (keeping_zoom _ (λ _ _, True)); [by intros s a s' _|]. intros [v l] v' _. by change (fewer l l). Qed.

Ltac pool_keeps := keeps; try first [apply keeping_lese|apply keeping_schreibe|apply keeping_vergabe].

Lemma keeping_suche fuel n v i : keeping fewer_pool (Vergabe.suche fuel n v i).
Proof.
  revert v i. induction fuel as [|fuel IH]; intros v i; cbn [Vergabe.suche]; [by intros s a s' E|].
  pool_keeps. apply IH.
Qed.

Lemma keeping_belegen len n : keeping fewer_pool (Vergabe.belegen len n).
Proof.
  unfold Vergabe.belegen. pool_keeps.
  - apply (keeping_zoom _ fewer); [by keeps|]. by intros [? l] l'.
  - apply keeping_suche.
Qed.

Lemma keeping_freigeben i : keeping fewer_pool (Vergabe.freigeben i).
Proof. unfold Vergabe.freigeben. pool_keeps. Qed.

(** Every operation of the table but [handler_kante_setzen]. *)
Definition ohne_kante (o : op) : bool := match o with EdgeSet _ _ => false | _ => true end.

Ltac entry_keeps := first
  [ apply keeping_pool; first [apply keeping_belegen|apply keeping_freigeben]
  | apply keeping_upd_pd, dulls_same; by intros []
  | apply keeping_upd_pd, dulls_none; by intros []
  | lazymatch goal with |- fewer_edges ?s _ => change (fewer (pds s) (pds s)); reflexivity end ].

Lemma keeping_step o : ohne_kante o = true → keeping fewer_edges (step o).
Proof.
  destruct o; intros Ho; try done; unfold step, ignore, create_mit_budget_und_cspace, create_hardware_backend, free,
    install_cap, clear_cap, pool_put, bind_thread, set_recv_slot, set_quiescing, sidecar_belegen, sidecar_freigeben,
    handler_kante_loesen, set_irq_ntfn, pd_at; keeps; entry_keeps.
Qed.

(** ** The check of a new binding *)

Lemma pd_of_used tb th pd : pd_of tb th = Some pd → ∃ p, entry_used tb pd = Some p.
Proof.
  unfold pd_of. cbv zeta. destruct (owner tb) as [|o l].
  - intros [(p & Hp & [Hu _]%andb_true_iff) _]%position_Some. exists p. by apply entry_used_Some.
  - destruct ((o :: l) !! ThreadId.slot th) as [e|]; [|done]. case_match; [done|]. unfold entry, entry_used.
    destruct (pds tb !! Z.to_nat (ThreadOwner.pd1 e - 1)) as [p|] eqn:Hp; [|done].
    case_match eqn:E; [|done]. intros [= <-]. rewrite Hp. apply andb_true_iff in E as [-> _]. by exists p.
Qed.

Lemma graph_nonneg tb a b : narrow tb → graph tb a = Some b → 0 <= a < Z.of_nat (length (pds tb)) ∧ in_width 16 b.
Proof.
  intros Hn (p & Ha & Hp & Hk)%graph_Some. apply lookup_lt_Some in Hp as Hl. unfold usize in Hl. split; [lia|].
  unfold kante in Hk. case_match; [|done]. injection Hk as <-. by eapply Hn.
Qed.

Lemma ketten_gang_ext f g gast n k : (∀ a, 0 <= a → f a = g a) → (∀ a b, 0 <= a → f a = Some b → 0 <= b) → 0 <= k →
  ketten_gang f gast n k = ketten_gang g gast n k.
Proof.
  intros Hfg Hf. revert k. induction n as [|n IH]; intros k Hk; cbn [ketten_gang]; rewrite <-(Hfg k) by done; [done|].
  destruct (k =? gast); [done|]. destruct (f k) as [k'|] eqn:E; [|done]. apply IH. by eapply Hf.
Qed.

(** The verdict of the dispatch is that over the graph. *)
Lemma urteil_graph tb gast h sys flt : narrow tb → (length (pds tb) < Z.to_nat (2 ^ 16))%nat →
  (gast < length (pds tb))%nat → 0 <= h →
  Dispatch.urteil tb gast h sys flt =
    pruefe_bindung (Z.of_nat gast) h (negb (sys =? KEIN_EP)) (negb (flt =? KEIN_EP)) (graph tb)
      (length (pds tb)) (sidecar_frei tb (usize h)).
Proof.
  intros Hn Hlen Hg Hh. unfold Dispatch.urteil, pd_capacity. rewrite (Z.mod_small (Z.of_nat gast)) by lia.
  assert (∀ a, 0 <= a → handler_pd_of tb (usize a) = graph tb a) as E.
  { intros a Ha. unfold graph. by rewrite (proj2 (Z.ltb_ge _ _)). }
  unfold pruefe_bindung. rewrite E by lia. repeat (case_match; try done).
  all: apply ketten_gang_ext; [exact E| |done]; intros a b Ha; rewrite E by done.
  all: intros [_ Hb]%graph_nonneg; [|done]; unfold in_width in Hb; lia.
Qed.

(** ** What the table must be for the check *)
Record prepared (tb : PdTable.t) : Prop := {
  pr_narrow : narrow tb;
  pr_acyclic : acyclic (graph tb);
  pr_small : (length (pds tb) < Z.to_nat (2 ^ 16))%nat }.

Lemma fewer_prepared tb tb' : fewer_edges tb tb' → prepared tb → prepared tb'.
Proof.
  intros Hf [H1 H2 H3]. split; [by eapply fewer_narrow|by eapply fewer_acyclic|]. by rewrite (fe_length _ _ Hf).
Qed.

(** The reasons of a refusal. *)
Definition refused (tb : PdTable.t) (ziel : ThreadId.t) (h sys flt code : Z) : Prop :=
  match pd_of tb ziel with
  | None => code = errors.ERR_NOPD
  | Some gast =>
      sys = KEIN_EP ∧ flt = KEIN_EP ∧ code = result_code.ERR_BADCAP ∨
      code = errors.ERR_HANDLER_CYCLE ∧ ¬ acyclic (gebunden (graph tb) (Z.of_nat gast) h) ∨
      code = errors.ERR_HANDLER_BUSY ∧ (∃ v, graph tb (Z.of_nat gast) = Some v ∧ v ≠ h) ∨
      code = errors.ERR_NOSPACE ∧ (sidecar_frei tb (usize h) = 0 ∨
        ∃ p, entry_used tb (usize h) = Some p ∧ Pd.sidecar_used p = max_value 64)
  end.

Lemma self_loop k g : ¬ acyclic (gebunden k g g).
Proof.
  intros Hac. destruct (Hac g) as [n Hn]. clear Hac. revert Hn. induction n as [|n IH]; [done|].
  cbn [iter_kante]. rewrite gebunden_gast. exact IH.
Qed.

Lemma acyclic_ext k k' : (∀ a, k' a = k a) → acyclic k → acyclic k'.
Proof. intros E. apply acyclic_sub. intros a b. by rewrite E. Qed.

(** The verdict, told by the graph. *)
Lemma urteil_told tb gast h sys flt : prepared tb → (gast < length (pds tb))%nat → in_width 16 h →
  match Dispatch.urteil_code (Dispatch.urteil tb gast h sys flt) with
  | None => acyclic (gebunden (graph tb) (Z.of_nat gast) h)
  | Some code =>
      sys = KEIN_EP ∧ flt = KEIN_EP ∧ code = result_code.ERR_BADCAP ∨
      code = errors.ERR_HANDLER_CYCLE ∧ ¬ acyclic (gebunden (graph tb) (Z.of_nat gast) h) ∨
      code = errors.ERR_HANDLER_BUSY ∧ (∃ v, graph tb (Z.of_nat gast) = Some v ∧ v ≠ h) ∨
      code = errors.ERR_NOSPACE ∧ sidecar_frei tb (usize h) = 0
  end.
Proof.
  intros [Hn Hac Hs] Hg Hh. rewrite urteil_graph by (done || unfold in_width in Hh; lia). unfold pruefe_bindung.
  destruct (negb (negb (sys =? KEIN_EP)) && negb (negb (flt =? KEIN_EP))) eqn:Hw.
  { rewrite !negb_involutive in Hw. apply andb_true_iff in Hw as [->%Z.eqb_eq ->%Z.eqb_eq]. by left. }
  destruct (Z.eqb_spec (Z.of_nat gast) h) as [<-|Hne].
  { right. left. split; [done|apply self_loop]. }
  pose proof (ketten_gang_sound (graph tb) (Z.of_nat gast) h (length (pds tb)) Hac) as Hk.
  destruct (graph tb (Z.of_nat gast)) as [v|] eqn:Hv.
  1: destruct (Z.eqb_spec v h) as [->|Hvh]; cbn [negb]; [|right; right; left; by eauto].
  all: destruct (Z.eqb_spec (sidecar_frei tb (usize h)) 0) as [Hf|_]; [by right; right; right|].
  all: destruct (ketten_gang _ _ _ _); cbn [Dispatch.urteil_code];
    try (destruct Hk; intros a b; by intros [? _]%graph_nonneg).
  all: try (apply Hk; intros a b; by intros [? _]%graph_nonneg).
  all: right; left; split; [done|apply Hk; intros a b; by intros [? _]%graph_nonneg].
Qed.

(** ** Drawing the edge *)

Lemma graph_drawn tb gast p h : entry_used tb gast = Some p → in_width 16 h → h ≠ KEIN_HANDLER_PD →
  ∀ f tb', (∀ p, Pd.used (f p) = Pd.used p ∧ Pd.handler_pd (f p) = h) → pds tb' = alter f gast (pds tb) →
  ∀ k, graph tb' k = gebunden (graph tb) (Z.of_nat gast) h k.
Proof.
  intros [Hp Hu]%entry_used_Some Hw Hh f tb' Hf E k. unfold gebunden.
  destruct (decide (0 <= k)) as [Hk|Hk].
  2:{ rewrite (proj2 (Z.eqb_neq _ _)) by lia. unfold graph. by rewrite (proj2 (Z.ltb_lt _ _)) by lia. }
  rewrite <-(Z2Nat.id k), !graph_entry, E, lookup_alter_if by done.
  destruct (decide (gast = Z.to_nat k)) as [->|Hne].
  - rewrite Z2Nat.id, Z.eqb_refl, Hp by done. cbn [fmap option_fmap option_map mbind option_bind].
    unfold kante. destruct (Hf p) as [-> ->]. by rewrite Hu, (proj2 (Z.eqb_neq _ _)).
  - rewrite (proj2 (Z.eqb_neq _ _)) by lia. by destruct (pds tb !! Z.to_nat k).
Qed.

(** The slot of the handler. *)
Definition slot_taken (slot : Z) (p : Pd.t) : Pd.t :=
  Pd.with_sidecar_used (Z.lor (Pd.sidecar_used p) (Z.shiftl 1 slot)) p.
(** One thread of the guest more. *)
Definition bound_to (h : Z) (p : Pd.t) : Pd.t :=
  Pd.with_handler_bound (wrapping_add 32 (Pd.handler_bound p) 1) (Pd.with_handler_pd h p).

Lemma wp_sidecar_belegen tb h p (R : option Z → PdTable.t → Prop) : entry_used tb h = Some p →
  (Pd.sidecar_used p = max_value 64 → R None tb) →
  (Pd.sidecar_used p ≠ max_value 64 → let slot := trailing_ones (Pd.sidecar_used p) in
     R (Some slot) (with_pds (alter (slot_taken slot) h (pds tb)) tb)) →
  wp (sidecar_belegen h) tb R.
Proof.
  intros He HN HS. unfold sidecar_belegen. apply wp_bind, wp_gets. rewrite He.
  destruct (Z.eqb_spec (Pd.sidecar_used p) (max_value 64)) as [E|E]; [by apply wp_ret, HN|].
  apply entry_used_Some in He as [Hp _]. apply wp_bind. eapply wp_upd_pd; [exact Hp|]. by apply wp_ret, HS.
Qed.

Lemma wp_kante_setzen tb gast p h (R : bool → PdTable.t → Prop) : entry_used tb gast = Some p →
  R true (with_pds (alter (bound_to h) gast (pds tb)) tb) → wp (handler_kante_setzen gast h) tb R.
Proof.
  intros He HR. unfold handler_kante_setzen. apply wp_bind, wp_gets. rewrite He. apply entry_used_Some in He as [Hp _].
  apply wp_bind. eapply wp_upd_pd; [exact Hp|]. apply wp_bind. eapply wp_upd_pd; [by apply alter_at|]. apply wp_ret.
  cbn [with_pds pds]. rewrite list_alter_alter_eq. exact HR.
Qed.

Lemma caps_with_pds_id s : Caps.with_pds (Caps.pds s) s = s.
Proof. by destruct s. Qed.

Lemma used_slot_taken slot p : Pd.used (slot_taken slot p) = Pd.used p ∧ Pd.handler_pd (slot_taken slot p) = Pd.handler_pd p.
Proof. by destruct p. Qed.

(** Any entry in use stays one when a slot of another, or of itself, is taken. *)
Lemma used_after_slot tb i slot gast p : entry_used tb gast = Some p →
  ∃ q, entry_used (with_pds (alter (slot_taken slot) i (pds tb)) tb) gast = Some q.
Proof.
  intros [Hp Hu]%entry_used_Some. eexists. apply entry_used_Some. cbn [with_pds pds].
  rewrite lookup_alter_if, Hp. split; [reflexivity|]. by case_decide.
Qed.

(** The table after a binding. *)
Definition edge_drawn (gast : nat) (h slot : Z) (tb : PdTable.t) : PdTable.t :=
  with_pds (alter (bound_to h) gast (alter (slot_taken slot) (usize h) (pds tb))) tb.

(** The graph then has the one edge more, and is as good as before. *)
Lemma edge_drawn_prepared tb gast pg h ph slot : prepared tb → in_width 16 h →
  entry_used tb gast = Some pg → entry_used tb (usize h) = Some ph →
  acyclic (gebunden (graph tb) (Z.of_nat gast) h) →
  (∀ k, graph (edge_drawn gast h slot tb) k = gebunden (graph tb) (Z.of_nat gast) h k) ∧
  prepared (edge_drawn gast h slot tb).
Proof.
  intros Hpr Hh Hg Hph Hac. set (tb1 := with_pds (alter (slot_taken slot) (usize h) (pds tb)) tb).
  assert (fewer_edges tb tb1) as Hf by (apply fewer_alter, dulls_same, used_slot_taken).
  destruct (fewer_prepared _ _ Hf Hpr) as [Hn1 _ Hs1]. destruct Hpr as [Hn _ Hs].
  assert (∀ k, graph tb1 k = graph tb k) as Hsame.
  { intros k. destruct (decide (0 <= k)) as [Hk|Hk].
    - rewrite <-(Z2Nat.id k), !graph_entry by done. subst tb1. cbn [with_pds pds]. rewrite lookup_alter_if.
      destruct (pds tb !! Z.to_nat k) as [[]|]; [|done]. by case_decide.
    - unfold graph. by rewrite (proj2 (Z.ltb_lt _ _)) by lia. }
  destruct (used_after_slot tb (usize h) slot gast pg Hg) as [q Hq].
  assert (h ≠ KEIN_HANDLER_PD) as Hk.
  { apply entry_used_Some in Hph as [Hl%lookup_lt_Some _]. unfold usize, KEIN_HANDLER_PD, max_value, in_width in *. lia. }
  assert (∀ k, graph (edge_drawn gast h slot tb) k = gebunden (graph tb) (Z.of_nat gast) h k) as Hgr.
  { intros k. rewrite (graph_drawn tb1 gast q h Hq Hh Hk (bound_to h)); [|by intros []|done].
    unfold gebunden. by rewrite Hsame. }
  split; [done|]. split.
  - intros i p. unfold edge_drawn. cbn [with_pds pds]. rewrite lookup_alter_if. intros Hp.
    destruct (alter (slot_taken slot) (usize h) (pds tb) !! i) as [r|] eqn:Hr; [|done].
    injection Hp as <-. case_decide; [exact Hh|]. by eapply (Hn1 i).
  - by eapply acyclic_ext.
  - unfold edge_drawn. cbn [with_pds pds]. by rewrite !length_alter.
Qed.

(** What the section of [SETHANDLER] under the lock does. *)
Lemma kante_told (s : Caps.t) (ziel : ThreadId.t) (h sys flt : Z) :
  prepared (Caps.pds s) → in_width 16 h →
  wp (Dispatch.kante_legen ziel h sys flt) s (λ r s',
    prepared (Caps.pds s') ∧ Caps.cspace s' = Caps.cspace s ∧
    match r with
    | Err code => s' = s ∧ refused (Caps.pds s) ziel h sys flt code
    | Ok (gast, slot) =>
        pd_of (Caps.pds s) ziel = Some gast ∧
        (∀ k, graph (Caps.pds s') k = gebunden (graph (Caps.pds s)) (Z.of_nat gast) h k) ∧
        ∃ p, entry_used (Caps.pds s) (usize h) = Some p ∧ slot = trailing_ones (Pd.sidecar_used p) ∧
          Caps.pds s' = edge_drawn gast h slot (Caps.pds s)
    end).
Proof.
  intros Hpr Hh. unfold Dispatch.kante_legen. apply wp_bind, wp_gets. set (tb := Caps.pds s) in *.
  unfold refused. destruct (pd_of tb ziel) as [gast|] eqn:Hg; [|by apply wp_ret].
  destruct (pd_of_used _ _ _ Hg) as [pg Heg]. pose proof Heg as [Hpg _]%entry_used_Some.
  pose proof (urteil_told tb gast h sys flt Hpr (lookup_lt_Some _ _ _ Hpg) Hh) as Hu.
  destruct (Dispatch.urteil_code _) as [code|] eqn:Hc.
  { apply wp_ret. split; [done|]. split; [done|]. split; [done|]. naive_solver. }
  assert (∃ p, entry_used tb (usize h) = Some p) as [ph Heh].
  { destruct (entry_used tb (usize h)) as [p|] eqn:E; [by exists p|]. exfalso. clear Hu. revert Hc.
    destruct Hpr. rewrite urteil_graph by (done || (unfold in_width in Hh; lia) || by eapply lookup_lt_Some).
    unfold pruefe_bindung, sidecar_frei. rewrite E, Z.eqb_refl. by repeat case_match. }
  apply wp_bind, wp_on_pds. eapply wp_sidecar_belegen; [exact Heh| |].
  { intros E. rewrite caps_with_pds_id. apply wp_ret. split; [done|]. split; [done|]. split; [done|].
    right; right; right. split; [done|]. right. by exists ph. }
  intros Hfull slot. cbv zeta. apply wp_bind, wp_on_pds.
  destruct (used_after_slot tb (usize h) slot gast pg Heg) as [q Hq].
  destruct (edge_drawn_prepared tb gast pg h ph slot Hpr Hh Heg Heh Hu) as [Hgr Hpr'].
  eapply wp_kante_setzen; [exact Hq|]. apply wp_ret. cbn [Caps.with_pds Caps.pds Caps.cspace with_pds pds].
  split; [exact Hpr'|]. split; [done|]. split; [done|]. split; [exact Hgr|]. by exists ph.
Qed.

(** [SETHANDLER], the section on the table: the edge is drawn exactly when the guest belongs
    to a domain, a handler is asked for, the guest has no other handler, the new edge closes
    no ring and the handler has a sidecar slot left; a refusal names the reason and changes
    nothing.  Then the guest has the handler, the handler's lowest free slot is taken, and
    every other edge is as it was. *)
Theorem kante_exact (s : Caps.t) (ziel : ThreadId.t) (h sys flt : Z) :
  prepared (Caps.pds s) → in_width 16 h →
  wp (Dispatch.kante_legen ziel h sys flt) s (λ r s',
    prepared (Caps.pds s') ∧ Caps.cspace s' = Caps.cspace s ∧
    match r with
    | Err code => s' = s ∧ refused (Caps.pds s) ziel h sys flt code
    | Ok (gast, slot) =>
        pd_of (Caps.pds s) ziel = Some gast ∧
        (∀ k, graph (Caps.pds s') k = gebunden (graph (Caps.pds s)) (Z.of_nat gast) h k) ∧
        ∃ p, entry_used (Caps.pds s) (usize h) = Some p ∧ slot = trailing_ones (Pd.sidecar_used p) ∧
          Caps.pds s' = edge_drawn gast h slot (Caps.pds s)
    end).
Proof. apply kante_told. Qed.

(** ** Histories *)

(** An operation of the table other than drawing an edge, or a binding as [SETHANDLER] makes
    it. *)
Inductive act :=
| Tafel (o : op)
| Binden (ziel : ThreadId.t) (handler sys flt : Z).

Definition act_fits (a : act) : Prop :=
  match a with
  | Tafel o => fits o ∧ ohne_kante o = true
  | Binden _ h _ _ => in_width 16 h
  end.

Definition act_step (a : act) : M Caps.t unit :=
  match a with
  | Tafel o => Caps.on_pds (step o)
  | Binden ziel h sys flt => Dispatch.kante_legen ziel h sys flt ≫= λ _, mret tt
  end.

Fixpoint act_run (l : list act) : M Caps.t unit :=
  match l with
  | [] => mret tt
  | a :: l => act_step a ≫= λ _, act_run l
  end.

Lemma edge_drawn_ok gast h slot tb : ok tb → ok (edge_drawn gast h slot tb).
Proof.
  set (tb1 := with_pds (alter (slot_taken slot) (usize h) (pds tb)) tb).
  replace (edge_drawn gast h slot tb) with (with_pds (alter (bound_to h) gast (pds tb1)) tb1) by done.
  apply quiet_ok. split; [|done]. etrans.
  - apply (same_accounts_upd tb (usize h) (slot_taken slot)). by intros [].
  - apply (same_accounts_upd tb1 gast (bound_to h)). by intros [].
Qed.

Lemma wp_act a s : ok (Caps.pds s) → prepared (Caps.pds s) → act_fits a →
  wp (act_step a) s (λ _ s', ok (Caps.pds s') ∧ prepared (Caps.pds s')).
Proof.
  intros Hok Hpr. destruct a as [o|ziel h sys flt]; cbn [act_fits act_step].
  - intros [Hf Ho]. apply wp_on_pds. cbn [Caps.with_pds Caps.pds].
    eapply wp_mono; [apply (wp_ends _ _ _ _ (wp_step o _ Hok Hf) (keeping_step o Ho _))|].
    intros [] tb' [Hok' Hfe]. split; [exact Hok'|]. by eapply fewer_prepared.
  - intros Hh. apply wp_bind. eapply wp_mono; [by apply kante_told|]. intros r s' (Hpr' & _ & Hr). apply wp_ret.
    split; [|exact Hpr']. destruct r as [[gast slot]|code].
    + destruct Hr as (_ & _ & p & _ & _ & ->). by apply edge_drawn_ok.
    + by destruct Hr as [-> _].
Qed.

Lemma boot_prepared n k m : Z.of_nat n < 2 ^ 16 → prepared (PdSystem.boot n k m).
Proof.
  intros Hn. split.
  - by intros i p ->%boot_entry.
  - intros x. exists 1%nat. cbn [iter_kante]. destruct (graph _ x) as [y|] eqn:E; [|done].
    apply graph_Some in E as (p & _ & ->%boot_entry & Hk). done.
  - cbn -[Z.of_nat Z.to_nat Z.pow]. rewrite length_replicate. lia.
Qed.

Lemma wp_act_run l s : Forall act_fits l → ok (Caps.pds s) → prepared (Caps.pds s) →
  wp (act_run l) s (λ _ s', ok (Caps.pds s') ∧ prepared (Caps.pds s')).
Proof.
  intros Hl. revert s. induction Hl as [|a l Ha _ IH]; intros s Hok Hpr; cbn [act_run]; [by apply wp_ret|].
  apply wp_bind. eapply wp_mono; [by apply wp_act|]. intros _ s' [??]. by apply IH.
Qed.

(** A closed walk in an acyclic graph does not exist. *)
Lemma acyclic_no_return k x n : acyclic k → iter_kante k (S n) x ≠ Some x.
Proof.
  intros Hac Hr. destruct (Hac x) as [m Hm].
  assert (∀ j, iter_kante k (j * S n) x = Some x) as Hall.
  { induction j as [|j IH]; [done|]. replace (S j * S n)%nat with (S n + j * S n)%nat by lia.
    rewrite iter_kante_add, Hr. exact IH. }
  specialize (Hall m). replace (m * S n)%nat with (m + m * n)%nat in Hall by lia.
  rewrite iter_kante_add, Hm in Hall. done.
Qed.

(** C25: From boot no history of the table's operations and of bindings as [SETHANDLER] makes them
    ever panics or lets a protection domain, through any number of handlers, handle itself. *)
Theorem handlers_never_ring (c : CapSpace.t) (n k m : nat) (l : list act) :
  Z.of_nat n < 2 ^ 16 → Forall act_fits l →
  wp (act_run l) (Caps.mk c (PdSystem.boot n k m)) (λ _ s, ok (Caps.pds s) ∧
    ∀ pd hops, iter_kante (graph (Caps.pds s)) (S hops) pd ≠ Some pd).
Proof.
  intros Hn Hl. eapply wp_mono.
  - apply wp_act_run; [done|apply boot_ok; lia|by apply boot_prepared].
  - intros _ s [Hok [_ Hac _]]. split; [exact Hok|]. intros pd hops. by apply acyclic_no_return.
Qed.

(** Three domains of one thread each: 0 is handled by 1 and 1 by 2; 2 handled by 0 is
    refused. *)
Definition demo_thread (i : nat) : ThreadId.t := ThreadId.from_raw (Z.of_nat i).
Definition demo_acts : list act :=
  [Tafel (Create TrustedSas 0 0); Tafel (Create TrustedSas 0 0); Tafel (Create TrustedSas 0 0);
   Tafel (Bind 0 (demo_thread 0)); Tafel (Bind 1 (demo_thread 1)); Tafel (Bind 2 (demo_thread 2));
   Binden (demo_thread 0) 1 7 8; Binden (demo_thread 1) 2 7 8; Binden (demo_thread 2) 0 7 8].

Lemma demo_acts_fit : Forall act_fits demo_acts.
Proof. repeat (constructor; [vm_compute; intuition done|]). constructor. Qed.

Lemma handlers_never_ring_witness :
  wp (act_run demo_acts) (Caps.mk CapSpace.new (PdSystem.boot 4 4 64)) (λ _ s, ok (Caps.pds s) ∧
    ∀ pd hops, iter_kante (graph (Caps.pds s)) (S hops) pd ≠ Some pd) ∧
  wp (act_run demo_acts) (Caps.mk CapSpace.new (PdSystem.boot 4 4 64)) (λ _ s,
    map (graph (Caps.pds s)) [0; 1; 2] = [Some 1; Some 2; None]).
Proof.
  split; [apply (handlers_never_ring CapSpace.new 4 4 64 demo_acts ltac:(done) demo_acts_fit)|].
  vm_compute. reflexivity.
Defined.

Lemma kante_exact_witness :
  prepared (PdSystem.boot 4 4 64) ∧ in_width 16 1 ∧
  wp (Dispatch.kante_legen (demo_thread 0) 1 7 8) (Caps.mk CapSpace.new (PdSystem.boot 4 4 64)) (λ r s',
    r = Err errors.ERR_NOPD ∧ prepared (Caps.pds s')).
Proof.
  split; [by apply boot_prepared|]. split; [done|].
  eapply wp_mono; [apply (kante_exact (Caps.mk CapSpace.new (PdSystem.boot 4 4 64)) (demo_thread 0) 1 7 8 (boot_prepared 4 4 64 ltac:(done)) ltac:(done))|].
  intros r s' (Hp & _ & Hr). split; [|exact Hp]. destruct r as [[g sl]|code].
  - destruct Hr as (Hg & _). vm_compute in Hg. discriminate Hg.
  - destruct Hr as [_ Hr]. unfold refused in Hr. cbn [Caps.pds] in Hr.
    replace (pd_of (PdSystem.boot 4 4 64) (demo_thread 0)) with (@None nat) in Hr by (vm_compute; reflexivity).
    by rewrite Hr.
Defined.
