(* ===== verification/DispatchAuth.v ===== *)
(** * Authority at the system call interface

    What a call on an object must find behind the capability that its caller names, and
    that the dispatch of [Dispatch] does nothing where it does not find it: the kernel
    has no path past the check.  Proved against the contract [SchedLaws] of the
    scheduler. *)

From S2P Require Import Prelude PanicMonad CapObject Region CapSpace CapInv Slab Redirect SchedData TidQueue Ipc IpcLaws.
From S2P Require Import IpcSystem Cspace PdTable PdCaps PdPolicy PdProc Abi Dispatch DispatchCaps.
#[local] Open Scope Z_scope.

(** ** The table of authority *)

Definition handler_kind (k : ObjectKind) : bool :=
  match k with SyscallHandler _ _ _ _ | FaultHandler _ _ _ _ => true | _ => false end.
Definition endpoint_kind (k : ObjectKind) : bool := match k with Endpoint _ => true | _ => false end.
Definition ntfn_kind (k : ObjectKind) : bool := match k with Notification _ => true | _ => false end.
Definition irq_kind (k : ObjectKind) : bool := match k with Irq _ => true | _ => false end.
Definition tcb_kind (k : ObjectKind) : bool := match k with Tcb _ => true | _ => false end.
Definition pdcontrol_kind (k : ObjectKind) : bool := match k with PdControl _ => true | _ => false end.
Definition loader_kind (k : ObjectKind) : bool := match k with Loader _ => true | _ => false end.
Definition window_kind (k : ObjectKind) : bool :=
  match k with Memory _ | Mmio _ _ | Dma _ _ _ _ => true | _ => false end.

(** The kinds and the right that each call on an object asks for; a right of 0 stands for
    any right at all. *)
Definition demand (nr : Z) : (ObjectKind → bool) * Rights.t :=
  if (nr =? sys.CALL) || (nr =? sys.CALL_TIMEOUT) then (endpoint_kind, Rights.WRITE)
  else if (nr =? sys.RECV) || (nr =? sys.REPLY) then (λ k, endpoint_kind k || handler_kind k, Rights.READ)
  else if nr =? sys.SIGNAL then (ntfn_kind, Rights.WRITE)
  else if nr =? sys.WAIT then (ntfn_kind, Rights.READ)
  else if nr =? sys.BIND_IRQ then (irq_kind, Rights.READ)
  else if nr =? sys.KILL then (tcb_kind, Rights.WRITE)
  else if nr =? sys.SETHANDLER then (tcb_kind, Rights.WRITE)
  else if (nr =? sys.MAP) || (nr =? sys.UNMAP) then (window_kind, 0)
  else if nr =? sys.PDCTL then (pdcontrol_kind, Rights.WRITE)
  else if (nr =? sys.LOAD) || (nr =? sys.LOAD_IMAGE) then (loader_kind, Rights.WRITE)
  else (λ _, false, 0).

Definition permits (nr : Z) (k : ObjectKind) (r : Rights.t) : bool :=
  (demand nr).1 k &&
  if (demand nr).2 =? 0 then negb (Z.land r Rights.RWX =? 0) else Rights.contains r (demand nr).2.

(** The calls that act on an object behind the capability in [x1]. *)
Definition object_calls : list Z :=
  [sys.CALL; sys.CALL_TIMEOUT; sys.RECV; sys.REPLY; sys.SIGNAL; sys.WAIT; sys.BIND_IRQ; sys.KILL; sys.SETHANDLER;
   sys.MAP; sys.UNMAP; sys.PDCTL; sys.LOAD; sys.LOAD_IMAGE; sys.FORK_SNAPSHOT; sys.EXEC_REPLACE].

Section auth.
Context {W : Type} `{SchedLaws W} `{!DispatchOps W} `{!Callbacks W}.
Notation K := (Kern.t W).
Implicit Types s : K.
Notation world s := (Tables.world (Kern.tables s)).

(** ** A refusal *)

(** All that a refusal writes is the code, into the caller's result register. *)
Record only_told (frame code : Z) s s' : Prop := {
  ot_caps : Kern.caps s' = Kern.caps s;
  ot_eps : Tables.eps (Kern.tables s') = Tables.eps (Kern.tables s);
  ot_ntfns : Tables.ntfns (Kern.tables s') = Tables.ntfns (Kern.tables s);
  ot_world : same (world s) (world s');
  ot_code : frame_is (world s) (world s') frame
    (λ j, if decide (j = reg.SYSNO_RESULT) then code else regs (world s) frame j) }.

Definition refusal (frame : Z) s (next : Z) s' : Prop :=
  next = frame ∧ ∃ code, code ≠ result_code.OK ∧ only_told frame code s s'.

Lemma wp_in_caps {A} (m : M Caps.t A) s (R : A → K → Prop) :
  wp m (Kern.caps s) (λ a c, R a (Kern.mk c (Kern.tables s))) → wp (Dispatch.in_caps m) s R.
Proof. intros Hm. by apply wp_zoom. Qed.

Lemma wp_in_ops {A} (m : M W A) s (R : A → K → Prop) :
  wp m (world s) (λ a w, R a (Kern.mk (Kern.caps s)
    (Tables.mk (Tables.eps (Kern.tables s)) (Tables.ntfns (Kern.tables s)) w))) → wp (Dispatch.in_ops m) s R.
Proof. intros Hm. by apply wp_zoom, wp_zoom. Qed.

Lemma kern_same s : Kern.mk (Kern.caps s) (Tables.mk (Tables.eps (Kern.tables s)) (Tables.ntfns (Kern.tables s)) (world s)) = s.
Proof. by destruct s as [? []]. Qed.

Lemma wp_reg_of frame i s (R : Z → K → Prop) :
  (i < abi_regs)%nat → R (regs (world s) frame i) s → wp (Dispatch.reg_of frame i) s R.
Proof. intros Hi HR. apply wp_in_ops, wp_reg; [done|]. by rewrite kern_same. Qed.

Lemma wp_current s core t (R : ThreadId.t → K → Prop) : ok (world s) → running (world s) core = Some t → R t s →
  wp (Dispatch.in_ops (current_id core)) s R.
Proof. intros Hw Hr HR. apply wp_in_ops. eapply wp_current_id; [done..|]. by rewrite kern_same. Qed.

Lemma wp_deny frame code s : ok (world s) → code ≠ result_code.OK → wp (Dispatch.deny frame code) s (refusal frame s).
Proof.
  intros Hw Hc. apply wp_bind, wp_in_ops, wp_set_reg; [done|unfold abi_regs, reg.SYSNO_RESULT; lia|].
  intros w' Hs Hf. apply wp_ret. split; [done|]. by exists code.
Qed.

(** ** The check *)

(** The capability the caller names in [x1]. *)
Definition named s (frame : Z) (t : ThreadId.t) : option (nat * schau) :=
  let c := Kern.caps s in
  pd ← PdTable.pd_of (Caps.pds c) t;
  x ← vorn c pd (usize (regs (world s) frame reg.EP_BADGE));
  Some (pd, x.2).

Lemma wp_aufloesen s frame core t :
  inv (Caps.cspace (Kern.caps s)) → ok (world s) → running (world s) core = Some t →
  wp (Dispatch.aufloesen frame core) s (λ r s', s' = s ∧
    match named s frame t with
    | Some x => r = Ok x
    | None => ∃ code, r = Err code ∧ code ≠ result_code.OK
    end).
Proof.
  intros Hi Hw Hr. unfold Dispatch.aufloesen, named, vorn. apply wp_bind. eapply wp_current; [done..|].
  apply wp_bind, wp_reg_of; [unfold abi_regs, reg.EP_BADGE; lia|]. apply wp_bind, wp_gets.
  destruct (PdTable.pd_of _ t) as [pd|]; [|by apply wp_ret; split; [|eexists]]. cbn [mbind option_bind].
  destruct (PdTable.cap_at _ pd _) as [cap|]; [|by apply wp_ret; split; [|eexists]]. cbn [mbind option_bind].
  apply wp_bind, wp_in_caps, wp_caps_lookup; [done|]. replace (Kern.mk (Kern.caps s) (Kern.tables s)) with s by by destruct s.
  destruct (blick _ cap) as [v|]; apply wp_ret; (split; [done|]); [done|by eexists].
Qed.

Lemma perm_code_none r : Z.land r Rights.RWX = 0 → Dispatch.perm_code r = None.
Proof.
  intros Hz. assert (∀ m, Z.land Rights.RWX m = m → Z.land r m = 0) as Hm.
  { intros m E. by rewrite <-E, Z.land_assoc, Hz, Z.land_0_l. }
  unfold Dispatch.perm_code, Rights.contains. by rewrite !Hm.
Qed.

(** A call on an object that the caller may not have called is refused. *)
Lemma wp_dispatch_ipc_refused nr frame core pd k r b s :
  nr ∈ [sys.CALL; sys.CALL_TIMEOUT; sys.RECV; sys.REPLY] → permits nr k r = false → ok (world s) →
  wp (Dispatch.dispatch_ipc nr frame core pd k r b) s (refusal frame s).
Proof.
  intros Hnr Hp Hw. unfold Dispatch.dispatch_ipc.
  repeat (apply elem_of_cons in Hnr as [->|Hnr]); [..|by apply not_elem_of_nil in Hnr].
  all: unfold permits in Hp; cbn -[Rights.contains Z.land] in Hp.
  all: destruct k; cbn -[Rights.contains] in *; try (by apply wp_deny); rewrite Hp; by apply wp_deny.
Qed.

Lemma wp_dispatch_ntfn_refused nr frame core k r b s :
  nr ∈ [sys.SIGNAL; sys.WAIT] → permits nr k r = false → ok (world s) →
  wp (Dispatch.dispatch_ntfn nr frame core k r b) s (refusal frame s).
Proof.
  intros Hnr Hp Hw. unfold Dispatch.dispatch_ntfn.
  repeat (apply elem_of_cons in Hnr as [->|Hnr]); [..|by apply not_elem_of_nil in Hnr].
  all: unfold permits in Hp; cbn -[Rights.contains Z.land] in Hp.
  all: destruct k; cbn -[Rights.contains] in *; try (by apply wp_deny); rewrite Hp; by apply wp_deny.
Qed.

Lemma wp_dispatch_map_refused nr frame core k r s :
  nr ∈ [sys.MAP; sys.UNMAP] → permits nr k r = false → ok (world s) →
  wp (Dispatch.dispatch_map nr frame core k r) s (refusal frame s).
Proof.
  intros Hnr Hp Hw. unfold Dispatch.dispatch_map.
  assert (window_kind k && negb (Z.land r Rights.RWX =? 0) = false) as Hp'.
  { by repeat (apply elem_of_cons in Hnr as [->|Hnr]); [..|by apply not_elem_of_nil in Hnr]. }
  assert (window_kind k = true → Dispatch.perm_code r = None) as Hc.
  { intros E. rewrite E in Hp'. by apply perm_code_none, Z.eqb_eq, negb_false_iff. }
  destruct k; cbn [Dispatch.window_of]; try (by apply wp_deny); rewrite Hc by done; by apply wp_deny.
Qed.

Lemma wp_absage_refused frame e s : (∀ code, e = Proc.Abgewiesen code → code ≠ result_code.OK) → ok (world s) →
  wp (Dispatch.absage frame e) s (refusal frame s).
Proof. intros He Hw. destruct e; cbn [Dispatch.absage]; apply wp_deny; auto. Qed.

Ltac right_missing Hp := unfold permits in Hp; cbn -[Rights.contains Z.land] in Hp; rewrite Hp; by apply wp_deny.

Lemma wp_dispatch_objekt_refused nr frame core pd k r b s :
  permits nr k r = false → ok (world s) → wp (Dispatch.dispatch_objekt nr frame core pd k r b) s (refusal frame s).
Proof.
  intros Hp Hw. unfold Dispatch.dispatch_objekt.
  repeat match goal with |- wp (if ?b then _ else _) _ _ => destruct b eqn:? end;
    repeat match goal with
    | E : _ || _ = true |- _ => apply orb_true_iff in E as [E|E]
    | E : (nr =? _) = true |- _ => apply Z.eqb_eq in E; subst nr
    end; try (apply wp_dispatch_ipc_refused; [set_solver|done|done]);
    try (apply wp_dispatch_ntfn_refused; [set_solver|done|done]);
    try (apply wp_dispatch_map_refused; [set_solver|done|done]).
  - unfold Dispatch.dispatch_bind_irq. destruct k; try (by apply wp_deny). right_missing Hp.
  - unfold Dispatch.dispatch_kill. destruct k; try (by apply wp_deny). right_missing Hp.
  - unfold Dispatch.dispatch_sethandler. destruct k; try (by apply wp_deny). right_missing Hp.
  - unfold Dispatch.dispatch_pdctl. destruct k; try (by apply wp_deny). right_missing Hp.
  - unfold Dispatch.dispatch_load. destruct k; try (by apply wp_deny). right_missing Hp.
  - unfold Dispatch.dispatch_load_image. destruct k; try (by apply wp_deny). right_missing Hp.
  - unfold Dispatch.dispatch_fork. do 4 (apply wp_bind, wp_reg_of; [vm_compute; lia|]). apply wp_absage_refused; [|done].
    unfold Proc.dekodiere_fork. intros code. repeat case_match; by intros [= <-].
  - unfold Dispatch.dispatch_exec. do 5 (apply wp_bind, wp_reg_of; [vm_compute; lia|]). apply wp_absage_refused; [|done].
    unfold Proc.dekodiere_exec. intros code. repeat case_match; by intros [= <-].
  - by apply wp_deny.
Qed.

Lemma object_call_reached nr frame core s (R : Z → K → Prop) : nr ∈ object_calls →
  wp (r ← Dispatch.aufloesen frame core;
      match r with
      | Err code => Dispatch.deny frame code
      | Ok (pd, (kind, rights, badge)) => Dispatch.dispatch_objekt nr frame core pd kind rights badge
      end) s R → wp (Dispatch.dispatch_nativ frame core nr) s R.
Proof. intros Hnr. repeat (apply elem_of_cons in Hnr as [->|Hnr]; [exact id|]). by apply not_elem_of_nil in Hnr. Qed.

(** C4: Without authority nothing happens: a call on an object whose caller does not hold, in the
    slot it names, a capability of a kind the call is for and with the right
    it asks for returns to the caller with an error in its result register, and changes nothing
    else: no capability, no table of a domain, no endpoint, no notification, no thread and no
    other register. *)
Theorem no_authority_no_effect (s : K) (frame : Z) (core : nat) (nr : Z) (t : ThreadId.t) :
  inv (Caps.cspace (Kern.caps s)) → ok (world s) → running (world s) core = Some t → nr ∈ object_calls →
  match named s frame t with Some (_, (k, r, _)) => permits nr k r = false | None => True end →
  wp (Dispatch.dispatch_nativ frame core nr) s (refusal frame s).
Proof.
  intros Hi Hw Hr Hnr Hno. apply object_call_reached; [done|]. apply wp_bind.
  eapply wp_mono; [by apply (wp_aufloesen s frame core t)|]. intros r s' [-> Ha]. cbv beta.
  destruct (named s frame t) as [[pd [[k rt] b]]|].
  - subst r. by apply wp_dispatch_objekt_refused.
  - destruct Ha as (code & -> & Hc). by apply wp_deny.
Qed.
End auth.
