(* ===== verification/Sidecar.v ===== *)
(** * The payload of a redirection: trap frame and sidecar slot

    [src/kernel/src/sidecarkopie.rs] and the frame functions of
    [src/crates/caprock-hal/src/x86_64/exception.rs]: how the saved registers of a
    guest get into the slot its handler sees, and how the answer gets back.  The
    format of a slot and the check of its header are in [Redirect].  Memory is a
    function from addresses to words; the volatile accesses of the source happen in
    the order written here, because another core may look between any two of them. *)

From S2P Require Import Prelude PanicMonad Redirect PdTable.
#[local] Open Scope Z_scope.

(** ** The saved frame *)
Definition FRAME_WOERTER : nat := 22.
Definition FRAME_GPR : nat := 15.
Definition FRAME_ARCH : Z := 0.
Definition FRAME_ABI_WORT : list Z := [0; 5; 4; 3; 9; 7; 8].

Module TrapFrame.
Record t := mk { gpr : list Z; vector : Z; error : Z; rip : Z; cs : Z; rflags : Z; rsp : Z; ss : Z }.
Definition with_gpr v (f : t) : t := mk v (vector f) (error f) (rip f) (cs f) (rflags f) (rsp f) (ss f).
Definition with_rip v (f : t) : t := mk (gpr f) (vector f) (error f) v (cs f) (rflags f) (rsp f) (ss f).
Definition with_rflags v (f : t) : t := mk (gpr f) (vector f) (error f) (rip f) (cs f) v (rsp f) (ss f).
Definition with_rsp v (f : t) : t := mk (gpr f) (vector f) (error f) (rip f) (cs f) (rflags f) v (ss f).
(** The array [gpr] has fifteen words. *)
Definition wf (f : t) : Prop := length (gpr f) = FRAME_GPR.
Definition words (f : t) : list Z := gpr f ++ [vector f; error f; rip f; cs f; rflags f; rsp f; ss f].
End TrapFrame.

(** The words of the frame into a buffer, and how many. *)
Definition frame_woerter (f : TrapFrame.t) (out : list Z) : nat * list Z :=
  if decide (length out < FRAME_WOERTER)%nat then (0%nat, out)
  else (FRAME_WOERTER, TrapFrame.words f ++ drop FRAME_WOERTER out).

(** The general-purpose registers out of a buffer, and how many. *)
Definition frame_gpr_uebernehmen (f : TrapFrame.t) (w : list Z) : nat * TrapFrame.t :=
  let n := Nat.min FRAME_GPR (length w) in
  (n, TrapFrame.with_gpr (take n w ++ drop n (TrapFrame.gpr f)) f).

(** A single word, as the debugger writes it. *)
Definition frame_wort_setzen (f : TrapFrame.t) (i : nat) (v : Z) : bool * TrapFrame.t :=
  if decide (i <= 14)%nat then (true, TrapFrame.with_gpr (<[i := v]> (TrapFrame.gpr f)) f)
  else if decide (i ∈ [15; 16; 18; 21]%nat) then (false, f)
  else if decide (i = 17%nat) then (true, TrapFrame.with_rip v f)
  else if decide (i = 19%nat) then (true, TrapFrame.with_rflags v f)
  else if decide (i = 20%nat) then (true, TrapFrame.with_rsp v f)
  else (false, f).

(** ** Memory, frames and counters *)
Module Lager.
Record t := mk {
  mem : Z → Z; rahmen : gmap Z TrapFrame.t; zustellungen : Z; ablage_fehler : Z; uebernahme_fehler : Z }.
Definition with_mem v s := mk v (rahmen s) (zustellungen s) (ablage_fehler s) (uebernahme_fehler s).
Definition with_rahmen v s := mk (mem s) v (zustellungen s) (ablage_fehler s) (uebernahme_fehler s).
Definition with_zustellungen v s := mk (mem s) (rahmen s) v (ablage_fehler s) (uebernahme_fehler s).
Definition with_ablage_fehler v s := mk (mem s) (rahmen s) (zustellungen s) v (uebernahme_fehler s).
Definition with_uebernahme_fehler v s := mk (mem s) (rahmen s) (zustellungen s) (ablage_fehler s) v.
End Lager.
Import Lager.

(** [fetch_add(1)] *)
Definition zaehlen (get : t → Z) (put : Z → t → t) : M t Z :=
  n ← gets get; modify (λ s, put (wrapping_add 64 (get s) 1) s) ≫= λ _, mret n.
Definition ablage_fehlt : M t Z := zaehlen ablage_fehler with_ablage_fehler.
Definition uebernahme_fehlt : M t Z := zaehlen uebernahme_fehler with_uebernahme_fehler.

(** [bilanz] *)
Definition bilanz : M t (Z * Z * Z) := gets (λ s, (zustellungen s, ablage_fehler s, uebernahme_fehler s)).

(** The word [i] of a slot at [basis]. *)
Definition wort_adresse (basis : Z) (i : nat) : Z := basis + 8 * Z.of_nat i.
Definition poke (a v : Z) (m : Z → Z) : Z → Z := λ x, if x =? a then v else m x.
Definition lies_wort (basis : Z) (i : nat) : M t Z := gets (λ s, mem s (wort_adresse basis i)).
Definition schreib_wort (basis : Z) (i : nat) (v : Z) : M t unit :=
  modify (λ s, with_mem (poke (wort_adresse basis i) v (mem s)) s).
Fixpoint schreib_alle (basis : Z) (l : list (nat * Z)) : M t unit :=
  match l with
  | [] => mret tt
  | (i, v) :: l => schreib_wort basis i v ≫= λ _, schreib_alle basis l
  end.
Fixpoint lies_alle (basis : Z) (l : list nat) : M t (list Z) :=
  match l with
  | [] => mret []
  | i :: l => v ← lies_wort basis i; r ← lies_alle basis l; mret (v :: r)
  end.

(** ** The two copies *)

Definition slot_adresse (sidecar slot : Z) : option Z :=
  if (sidecar =? 0) || negb (slot_gueltig slot SIDECAR_SLOTS) then None
  else Some (wrapping_add 64 sidecar (slot_offset slot)).

Definition KOPF_GEN : nat := 2.
Definition KOPF_ANLASS : nat := 3.
Definition KOPF_CODE : nat := 4.
Definition KOPF_ABI : nat := 16.

(** The body: the header but for the mark, then the frame. *)
Definition rumpf (gen anlass code : Z) (n : nat) (w : list Z) : list (nat * Z) :=
  [(KOPF_VERSION, FORMAT_VERSION); (KOPF_GEN, gen); (KOPF_ANLASS, anlass); (KOPF_CODE, code);
   (KOPF_NGPR, Z.of_nat FRAME_GPR); (KOPF_NGESAMT, Z.of_nat n); (KOPF_ARCH, FRAME_ARCH); (KOPF_GRUPPE, 0)]
  ++ map (λ i, ((KOPF_RESERVIERT + i)%nat, 0)) (seq 0 KOPF_RESERVIERT_N)
  ++ imap (λ i x, ((KOPF_ABI + i)%nat, x)) FRAME_ABI_WORT
  ++ imap (λ i x, (frame_wort i, x)) (take n w).

Definition ablegen (frame sidecar slot anlass code : Z) : M t bool :=
  match slot_adresse sidecar slot with
  | None => ablage_fehlt ≫= λ _, mret false
  | Some basis =>
      f ← gets (λ s, rahmen s !! frame);
      f ← expect f;
      let (n, w) := frame_woerter f (replicate FRAME_WOERTER 0) in
      if (n =? 0)%nat || negb (frame_passt n) then ablage_fehlt ≫= λ _, mret false
      else
        gen ← zaehlen zustellungen with_zustellungen;
        schreib_alle basis (rumpf (wrapping_add 64 gen 1) anlass code n w) ≫= λ _,
        schreib_wort basis KOPF_MAGIE MAGIE ≫= λ _,
        mret true
  end.

Inductive Uebernahme := UebOk | KeinFenster | OhneFrame | FremderKopf (u : KopfUrteil).

Definition uebernehmen (frame sidecar slot : Z) : M t Uebernahme :=
  match slot_adresse sidecar slot with
  | None => uebernahme_fehlt ≫= λ _, mret KeinFenster
  | Some basis =>
      kopf ← lies_alle basis (seq 0 FRAME_WORT);
      urteil ← expect (kopf_pruefen kopf FRAME_ARCH (Z.of_nat FRAME_GPR) (Z.of_nat FRAME_WOERTER));
      match urteil with
      | KopfOk =>
          w ← lies_alle basis (map frame_wort (filter (λ i, uebernehmbar i FRAME_GPR = true) (seq 0 FRAME_WOERTER)));
          f ← gets (λ s, rahmen s !! frame);
          f ← expect f;
          let (n, f') := frame_gpr_uebernehmen f w in
          modify (λ s, with_rahmen (<[frame := f']> (rahmen s)) s) ≫= λ _,
          if (n =? FRAME_GPR)%nat then mret UebOk else uebernahme_fehlt ≫= λ _, mret OhneFrame
      | KeinFrame => uebernahme_fehlt ≫= λ _, mret OhneFrame
      | u => uebernahme_fehlt ≫= λ _, mret (FremderKopf u)
      end
  end.

(** ** Words of a slot *)

(** What the slot at [basis] shows. *)
Definition sicht (m : Z → Z) (basis : Z) (i : nat) : Z := m (wort_adresse basis i).
Definition kopf (m : Z → Z) (basis : Z) : list Z := map (sicht m basis) (seq 0 FRAME_WORT).
Definition urteil (m : Z → Z) (basis : Z) : option KopfUrteil :=
  kopf_pruefen (kopf m basis) FRAME_ARCH (Z.of_nat FRAME_GPR) (Z.of_nat FRAME_WOERTER).
Definition register (m : Z → Z) (basis : Z) : list Z := map (λ i, sicht m basis (frame_wort i)) (seq 0 FRAME_GPR).

(** Memory after the writes [l]. *)
Definition nach (basis : Z) (l : list (nat * Z)) (m : Z → Z) : Z → Z :=
  foldl (λ m x, poke (wort_adresse basis x.1) x.2 m) m l.
(** The word [j] after the writes [l]. *)
Definition zuletzt (l : list (nat * Z)) (j : nat) (d : Z) : Z := foldl (λ d x, if (x.1 =? j)%nat then x.2 else d) d l.

Lemma nach_sicht basis l m j : sicht (nach basis l m) basis j = zuletzt l j (sicht m basis j).
Proof.
  unfold nach, zuletzt. revert m. induction l as [|[i v] l IH]; intros m; [done|]. cbn [foldl fst snd]. rewrite IH.
  f_equal. unfold sicht at 1, poke, wort_adresse.
  destruct (Z.eqb_spec (basis + 8 * Z.of_nat j) (basis + 8 * Z.of_nat i)) as [E|E], (Nat.eqb_spec i j); (lia || done).
Qed.

Lemma nach_elsewhere basis l m a : (∀ i, i ∈ l.*1 → a ≠ wort_adresse basis i) → nach basis l m a = m a.
Proof.
  unfold nach. revert m. induction l as [|[i v] l IH]; intros m Ha; [done|]. cbn [foldl fst snd].
  rewrite IH by (intros j Hj; apply Ha; by right). unfold poke.
  by rewrite (proj2 (Z.eqb_neq _ _)) by (apply Ha; by left).
Qed.

Lemma nach_app basis l l' m : nach basis (l ++ l') m = nach basis l' (nach basis l m).
Proof. apply foldl_app. Qed.

Lemma wp_schreib_alle basis l s (R : unit → t → Prop) :
  R tt (with_mem (nach basis l (mem s)) s) → wp (schreib_alle basis l) s R.
Proof.
  revert s. induction l as [|[i v] l IH]; intros s HR; cbn [schreib_alle].
  - apply wp_ret. by destruct s.
  - apply wp_bind, wp_modify, IH. exact HR.
Qed.

Lemma wp_lies_alle basis l s (R : list Z → t → Prop) : R (map (sicht (mem s) basis) l) s → wp (lies_alle basis l) s R.
Proof.
  revert R. induction l as [|i l IH]; intros R HR; cbn [lies_alle]; [by apply wp_ret|].
  apply wp_bind, wp_gets, wp_bind, IH. by apply wp_ret.
Qed.

Lemma wp_zaehlen get put s (R : Z → t → Prop) :
  R (get s) (put (wrapping_add 64 (get s) 1) s) → wp (zaehlen get put) s R.
Proof. intros HR. apply wp_bind, wp_gets, wp_bind, wp_modify. by apply wp_ret. Qed.

Lemma words_length f : TrapFrame.wf f → length (TrapFrame.words f) = FRAME_WOERTER.
Proof. unfold TrapFrame.wf, TrapFrame.words. intros Hf. rewrite length_app, Hf. done. Qed.

(** The writes of a delivery, in their order. *)
Definition zustellung (gen anlass code : Z) (f : TrapFrame.t) : list (nat * Z) :=
  rumpf gen anlass code FRAME_WOERTER (TrapFrame.words f) ++ [(KOPF_MAGIE, MAGIE)].

(** The words they are for: below the end of the frame, each once, the mark last. *)
Lemma zustellung_plan gen anlass code f : TrapFrame.wf f →
  (zustellung gen anlass code f).*1 =
    [1; 2; 3; 4; 5; 6; 7; 8; 9; 10; 11; 12; 13; 14; 15; 16; 17; 18; 19; 20; 21; 22; 24; 25; 26; 27; 28; 29; 30;
     31; 32; 33; 34; 35; 36; 37; 38; 39; 40; 41; 42; 43; 44; 45; 0]%nat.
Proof.
  destruct f as [g v e r c fl sp s0]. unfold TrapFrame.wf. cbn [TrapFrame.gpr]. intros Hg.
  do 15 (destruct g as [|? g]; [done|]). by destruct g.
Qed.

(** What is in the slot afterwards. *)
Lemma zustellung_words gen anlass code f m basis : TrapFrame.wf f →
  let m' := nach basis (zustellung gen anlass code f) m in
  urteil m' basis = Some KopfOk ∧
  map (λ i, sicht m' basis (frame_wort i)) (seq 0 FRAME_WOERTER) = TrapFrame.words f ∧
  sicht m' basis KOPF_GEN = gen ∧ sicht m' basis KOPF_ANLASS = anlass ∧ sicht m' basis KOPF_CODE = code ∧
  map (λ i, sicht m' basis (KOPF_ABI + i)%nat) (seq 0 7) = FRAME_ABI_WORT.
Proof.
  destruct f as [g v e r c fl sp s0]. unfold TrapFrame.wf. cbn [TrapFrame.gpr]. intros Hg.
  do 15 (destruct g as [|? g]; [done|]). destruct g; [|done]. unfold urteil, kopf. cbv zeta.
  rewrite !(map_ext _ _ (nach_sicht basis _ m)), !nach_sicht. split_and!; try reflexivity.
  all: erewrite map_ext by (intros i; apply nach_sicht); reflexivity.
Qed.

(** ** What the copies do *)

(** A delivery is refused, with nothing but the counter changed, exactly for a slot outside
    the window; otherwise every word of the guest's frame is in its slot behind a header that
    the check accepts, with a delivery number of its own, and no word outside the slot
    changes. *)
Lemma ablegen_told (s : t) (frame sidecar slot anlass code : Z) (f : TrapFrame.t) :
  rahmen s !! frame = Some f → TrapFrame.wf f →
  wp (ablegen frame sidecar slot anlass code) s (λ r s',
    rahmen s' = rahmen s ∧
    match slot_adresse sidecar slot with
    | None => r = false ∧ mem s' = mem s ∧ zustellungen s' = zustellungen s
    | Some basis =>
        r = true ∧ zustellungen s' = wrapping_add 64 (zustellungen s) 1 ∧
        urteil (mem s') basis = Some KopfOk ∧
        map (λ i, sicht (mem s') basis (frame_wort i)) (seq 0 FRAME_WOERTER) = TrapFrame.words f ∧
        sicht (mem s') basis KOPF_GEN = zustellungen s' ∧
        sicht (mem s') basis KOPF_ANLASS = anlass ∧ sicht (mem s') basis KOPF_CODE = code ∧
        ∀ a, (a < basis ∨ basis + SLOT_BYTES <= a) → mem s' a = mem s a
    end).
Proof.
  intros Hf Hwf. unfold ablegen. destruct (slot_adresse sidecar slot) as [basis|].
  2:{ apply wp_bind, wp_zaehlen, wp_ret. by split_and!. }
  apply wp_bind, wp_gets, wp_bind. rewrite Hf. eapply wp_expect; [reflexivity|]. cbn [frame_woerter].
  replace (frame_woerter f (replicate FRAME_WOERTER 0)) with (FRAME_WOERTER, TrapFrame.words f)
    by (unfold frame_woerter; cbn -[TrapFrame.words]; by rewrite app_nil_r).
  change (((FRAME_WOERTER =? 0)%nat || negb (frame_passt FRAME_WOERTER))) with false.
  apply wp_bind, wp_zaehlen, wp_bind, wp_schreib_alle, wp_bind, wp_modify, wp_ret.
  set (gen := wrapping_add 64 (zustellungen s) 1).
  split; [done|]. split; [done|]. cbn [with_mem with_zustellungen mem zustellungen].
  change (poke _ _ (nach _ _ (mem s)))
    with (nach basis [(KOPF_MAGIE, MAGIE)] (nach basis (rumpf gen anlass code FRAME_WOERTER (TrapFrame.words f)) (mem s))).
  rewrite <-nach_app. fold (zustellung gen anlass code f).
  destruct (zustellung_words gen anlass code f (mem s) basis Hwf) as (H1 & H2 & H3 & H4 & H5 & _).
  split; [done|]. split; [done|]. split; [done|]. split; [done|]. split; [done|]. split; [done|].
  intros a Ha. apply nach_elsewhere. rewrite zustellung_plan by done. intros i Hi.
  assert (i < 64)%nat as Hlt.
  { revert i Hi. apply Forall_forall. repeat (constructor; [lia|]). constructor. }
  unfold wort_adresse, SLOT_BYTES in *. lia.
Qed.

(** Taking a frame back. *)
Lemma uebernehmen_told (s : t) (frame sidecar slot : Z) (f : TrapFrame.t) :
  rahmen s !! frame = Some f → TrapFrame.wf f →
  wp (uebernehmen frame sidecar slot) s (λ r s',
    mem s' = mem s ∧ zustellungen s' = zustellungen s ∧
    match slot_adresse sidecar slot with
    | None => r = KeinFenster ∧ rahmen s' = rahmen s
    | Some basis =>
        match urteil (mem s) basis with
        | Some KopfOk =>
            r = UebOk ∧ rahmen s' = <[frame := TrapFrame.with_gpr (register (mem s) basis) f]> (rahmen s)
        | Some KeinFrame => r = OhneFrame ∧ rahmen s' = rahmen s
        | Some u => r = FremderKopf u ∧ rahmen s' = rahmen s
        | None => False
        end
    end).
Proof.
  intros Hf Hwf. unfold uebernehmen. destruct (slot_adresse sidecar slot) as [basis|].
  2:{ apply wp_bind, wp_zaehlen, wp_ret. by split_and!. }
  apply wp_bind, wp_lies_alle, wp_bind. fold (kopf (mem s) basis). fold (urteil (mem s) basis).
  destruct (kopf_pruefen_exact (kopf (mem s) basis) FRAME_ARCH (Z.of_nat FRAME_GPR) (Z.of_nat FRAME_WOERTER)) as [[u Hu] _].
  fold (urteil (mem s) basis) in Hu. rewrite Hu. eapply wp_expect; [reflexivity|].
  destruct u; try (apply wp_bind, wp_zaehlen, wp_ret; by split_and!).
  change (map frame_wort (filter _ _)) with (map frame_wort (seq 0 FRAME_GPR)).
  apply wp_bind, wp_lies_alle, wp_bind, wp_gets, wp_bind. rewrite Hf. eapply wp_expect; [reflexivity|]. rewrite map_map.
  fold (register (mem s) basis).
  assert (length (register (mem s) basis) = FRAME_GPR) as Hl by (unfold register; by rewrite length_map, length_seq).
  unfold frame_gpr_uebernehmen. rewrite Hl, Nat.min_id, take_ge by (by rewrite Hl).
  rewrite drop_ge by (by rewrite Hwf). rewrite app_nil_r, Nat.eqb_refl.
  apply wp_bind, wp_modify, wp_ret. by split_and!.
Qed.

(** C34: Whatever the handler left in the slot, of the guest's frame the kernel changes the
    general-purpose registers only, and these only behind a header it understands: the
    instruction pointer, the segments with the privilege level, the flags, the stack pointer
    and the trap's own words stay as they were, and so does every other frame and all of
    memory. *)
Theorem uebernehmen_exact (s : t) (frame sidecar slot : Z) (f : TrapFrame.t) :
  rahmen s !! frame = Some f → TrapFrame.wf f →
  wp (uebernehmen frame sidecar slot) s (λ r s',
    mem s' = mem s ∧ zustellungen s' = zustellungen s ∧
    match slot_adresse sidecar slot with
    | None => r = KeinFenster ∧ rahmen s' = rahmen s
    | Some basis =>
        match urteil (mem s) basis with
        | Some KopfOk =>
            r = UebOk ∧ rahmen s' = <[frame := TrapFrame.with_gpr (register (mem s) basis) f]> (rahmen s)
        | Some KeinFrame => r = OhneFrame ∧ rahmen s' = rahmen s
        | Some u => r = FremderKopf u ∧ rahmen s' = rahmen s
        | None => False
        end
    end).
Proof. apply uebernehmen_told. Qed.

(** A redirected call, from the guest's trap to the reply: whatever a handler that keeps the
    header does to memory, the guest gets the fifteen registers its handler left in the slot
    and keeps the rest; and where the handler left the registers alone the guest's frame
    is exactly what it was. *)
Theorem sidecar_roundtrip (s : t) (frame sidecar slot anlass code basis : Z) (f : TrapFrame.t) (h : (Z → Z) → Z → Z) :
  rahmen s !! frame = Some f → TrapFrame.wf f → slot_adresse sidecar slot = Some basis →
  (∀ m, kopf (h m) basis = kopf m basis) →
  wp (b ← ablegen frame sidecar slot anlass code;
      modify (λ s, with_mem (h (mem s)) s) ≫= λ _,
      u ← uebernehmen frame sidecar slot; mret (b, u)) s (λ r s',
    r = (true, UebOk) ∧
    rahmen s' = <[frame := TrapFrame.with_gpr (register (mem s') basis) f]> (rahmen s) ∧
    ((∀ m, register (h m) basis = register m basis) → rahmen s' = rahmen s)).
Proof.
  intros Hf Hwf Ha Hh. apply wp_bind. eapply wp_mono; [by apply ablegen_told|]. intros b s1. cbv beta. rewrite Ha.
  intros (Hr & -> & _ & Hu & Hw & _). apply wp_bind, wp_modify, wp_bind.
  set (s2 := with_mem _ _). assert (rahmen s2 !! frame = Some f) as Hf2 by (cbn; by rewrite Hr).
  eapply wp_mono; [by apply uebernehmen_told|]. intros u s3. cbv beta. rewrite Ha. intros (Hm & _ & Hc).
  assert (urteil (mem s2) basis = Some KopfOk) as Hu2 by (unfold urteil; cbn [s2 with_mem mem]; by rewrite Hh).
  rewrite Hu2 in Hc. destruct Hc as [-> Hr3]. apply wp_ret. rewrite Hm. split; [done|].
  cbn [s2 with_mem rahmen mem] in Hr3 |- *. rewrite Hr in Hr3. split; [done|]. intros Hreg. rewrite Hr3, Hreg.
  assert (register (mem s1) basis = TrapFrame.gpr f) as ->.
  { change (seq 0 FRAME_WOERTER) with (seq 0 FRAME_GPR ++ seq FRAME_GPR 7) in Hw.
    rewrite map_app in Hw. unfold TrapFrame.words in Hw. apply app_inj_1 in Hw as [Hw _]; [exact Hw|].
    by rewrite length_map, length_seq. }
  replace (TrapFrame.with_gpr (TrapFrame.gpr f) f) with f by by destruct f. by apply insert_id.
Qed.

(** ** The order of the writes *)

Lemma zuletzt_notin l j d : j ∉ l.*1 → zuletzt l j d = d.
Proof.
  unfold zuletzt. revert d. induction l as [|[i v] l IH]; intros d Hj; [done|]. cbn [foldl fst snd] in *.
  apply not_elem_of_cons in Hj as [Hne Hj]. cbn [fst] in Hne. rewrite (proj2 (Nat.eqb_neq i j)) by done. by apply IH.
Qed.

Lemma zuletzt_in l j v d : NoDup l.*1 → (j, v) ∈ l → zuletzt l j d = v.
Proof.
  unfold zuletzt. revert d. induction l as [|[i w] l IH]; intros d Hn Hj; [by apply not_elem_of_nil in Hj|].
  cbn [foldl fst snd fmap list_fmap] in *. apply NoDup_cons in Hn as [Hi Hn]. apply elem_of_cons in Hj as [[= -> ->]|Hj].
  - rewrite Nat.eqb_refl. by apply zuletzt_notin.
  - by apply IH.
Qed.

(** In the middle of distinct writes each word is still old or already new. *)
Lemma zuletzt_prefix l k j d : NoDup l.*1 → zuletzt (take k l) j d = d ∨ zuletzt (take k l) j d = zuletzt l j d.
Proof.
  intros Hn. destruct (decide (j ∈ (take k l).*1)) as [Hj|Hj]; [right|left; by apply zuletzt_notin].
  apply list_elem_of_fmap in Hj as ([j' v] & -> & Hj). cbn [fst].
  rewrite (zuletzt_in (take k l) j' v), (zuletzt_in l j' v); [done|done| | |exact Hj].
  - rewrite <-(take_drop k l). apply elem_of_app. by left.
  - rewrite fmap_take. by eapply sublist_NoDup, sublist_take.
Qed.

(** The first 22 writes are for the header, and only the last one is for the mark. *)
Lemma plan_before k x :
  x ∈ take k [1; 2; 3; 4; 5; 6; 7; 8; 9; 10; 11; 12; 13; 14; 15; 16; 17; 18; 19; 20; 21; 22; 24; 25; 26; 27; 28; 29;
    30; 31; 32; 33; 34; 35; 36; 37; 38; 39; 40; 41; 42; 43; 44; 45; 0]%nat →
  (k < 45)%nat → x ≠ KOPF_MAGIE ∧ ((k <= 22)%nat → (x < 24)%nat).
Proof.
  intros (i & Hi)%list_elem_of_lookup_1 Hk. apply lookup_take_Some in Hi as [Hi Hlt]. unfold KOPF_MAGIE.
  do 45 (destruct i as [|i]; [injection Hi as <-; lia|]). done.
Qed.

(** The mark comes last: while a delivery is being written into a slot that holds none, the
    check of the header finds no frame, at every point before the last write.  The mark is
    never taken away, so in a slot that held a delivery the check passes all the time, and the
    number of the delivery is the new one long before the frame is. *)
Theorem delivery_ordered (gen anlass code : Z) (f : TrapFrame.t) (m : Z → Z) (basis : Z) (k : nat) :
  TrapFrame.wf f → (k < length (zustellung gen anlass code f))%nat →
  let m' := nach basis (take k (zustellung gen anlass code f)) m in
  (sicht m basis KOPF_MAGIE ≠ MAGIE → urteil m' basis = Some KeinFrame) ∧
  (urteil m basis = Some KopfOk → urteil m' basis = Some KopfOk ∧
    ((2 <= k <= 22)%nat → sicht m' basis KOPF_GEN = gen ∧ ∀ i, sicht m' basis (frame_wort i) = sicht m basis (frame_wort i))).
Proof.
  intros Hwf Hk. cbv zeta. set (l := zustellung gen anlass code f) in *.
  pose proof (zustellung_plan gen anlass code f Hwf) as Hplan. fold l in Hplan.
  assert (length l = 45%nat) as Hlen by (by rewrite <-(length_fmap fst l), Hplan).
  assert (NoDup l.*1) as Hn by (rewrite Hplan; by apply (bool_decide_unpack _); vm_compute).
  split.
  - intros Hm. unfold urteil, kopf, kopf_pruefen. rewrite length_map, length_seq.
    rewrite decide_False by (unfold FRAME_WORT; lia).
    change (map ?g (seq 0 FRAME_WORT) !! KOPF_MAGIE) with (Some (g KOPF_MAGIE)). cbn [mbind option_bind].
    rewrite nach_sicht, zuletzt_notin; [by rewrite (proj2 (Z.eqb_neq _ _))|].
    rewrite fmap_take, Hplan. intros Hin. by apply plan_before in Hin as [? _]; [|lia].
  - intros Hu. split.
    + assert (∀ j, sicht (nach basis (take k l) m) basis j = sicht m basis j ∨
                   sicht (nach basis (take k l) m) basis j = sicht (nach basis l m) basis j) as Hj.
      { intros j. rewrite !nach_sicht. by apply zuletzt_prefix. }
      pose proof (zustellung_words gen anlass code f m basis Hwf) as (Hu' & _). cbv zeta in Hu'. fold l in Hu'.
      unfold urteil in *. apply kopf_pruefen_exact in Hu, Hu'. apply kopf_pruefen_exact.
      unfold kopf in *. split; [by rewrite length_map, length_seq|].
      assert (∀ j x, (j < FRAME_WORT)%nat → map (sicht m basis) (seq 0 FRAME_WORT) !! j = Some x →
        map (sicht (nach basis l m) basis) (seq 0 FRAME_WORT) !! j = Some x →
        map (sicht (nach basis (take k l) m) basis) (seq 0 FRAME_WORT) !! j = Some x) as Hx.
      { intros j x Hlt. rewrite !list_lookup_fmap, !lookup_seq_lt by done. cbn [fmap option_fmap option_map].
        intros [= E1] [= E2]. f_equal. destruct (Hj (0 + j)%nat) as [-> | ->]; done. }
      destruct Hu as (_ & A1 & A2 & A3 & A4 & A5 & A6 & A7), Hu' as (_ & B1 & B2 & B3 & B4 & B5 & B6 & B7).
      split_and!; try (apply Hx; [vm_compute; lia|assumption|assumption]).
      intros j Hlt. apply Hx; [unfold KOPF_RESERVIERT, KOPF_RESERVIERT_N, FRAME_WORT in *; lia|auto|auto].
    + intros [Hk1 Hk2]. split.
      * rewrite nach_sicht. apply zuletzt_in; [rewrite fmap_take; by eapply sublist_NoDup, sublist_take|].
        do 2 (destruct k as [|k]; [lia|]). right. left.
      * intros i. rewrite nach_sicht. apply zuletzt_notin. rewrite fmap_take, Hplan. intros Hin.
        apply plan_before in Hin as [_ Hin]; [|lia]. unfold frame_wort, FRAME_WORT in Hin. lia.
Qed.

(** ** A concrete delivery *)
Definition demo_frame : TrapFrame.t :=
  TrapFrame.mk [1; 2; 3; 4; 5; 6; 7; 8; 9; 10; 11; 12; 13; 14; 15] 0x80 0 0x400000 0x1b 0x202 0x7fff0 0x23.
Definition demo_lager : t := mk (λ _, 0) {[ 0x9000 := demo_frame ]} 0 0 0.
(** A handler that answers in the first register. *)
Definition demo_handler : (Z → Z) → Z → Z := poke (wort_adresse 0x200 24) 77.

Lemma demo_handler_header m : kopf (demo_handler m) 0x200 = kopf m 0x200.
Proof. reflexivity. Qed.

Lemma uebernehmen_exact_witness :
  wp (uebernehmen 0x9000 0x200 0) demo_lager (λ r s', r = OhneFrame ∧ rahmen s' = rahmen demo_lager).
Proof.
  eapply wp_mono; [apply (uebernehmen_exact demo_lager 0x9000 0x200 0 demo_frame); reflexivity|].
  intros r s' (_ & _ & Hr). exact Hr.
Defined.

Lemma sidecar_roundtrip_witness :
  wp (b ← ablegen 0x9000 0x200 0 1 0;
      modify (λ s, with_mem (demo_handler (mem s)) s) ≫= λ _,
      u ← uebernehmen 0x9000 0x200 0; mret (b, u)) demo_lager (λ r s',
    r = (true, UebOk) ∧
    rahmen s' = <[0x9000 := TrapFrame.with_gpr (register (mem s') 0x200) demo_frame]> (rahmen demo_lager)).
Proof.
  eapply wp_mono; [apply (sidecar_roundtrip demo_lager 0x9000 0x200 0 1 0 0x200 demo_frame demo_handler);
    [reflexivity..|exact demo_handler_header]|].
  intros r s' (H1 & H2 & _). by split.
Defined.

Lemma delivery_ordered_witness :
  urteil (nach 0x200 (take 44 (zustellung 1 1 0 demo_frame)) (λ _, 0)) 0x200 = Some KeinFrame.
Proof. by apply (delivery_ordered 1 1 0 demo_frame (λ _, 0) 0x200 44); [reflexivity|vm_compute; lia|]. Defined.
