(* ===== verification/KernelDispatch.v ===== *)
(** * The kernel behind the dispatch

    The rest of the facade [KernelSched] of [src/kernel/src/system.rs]: what the
    dispatch of system calls asks of the scheduler beyond IPC, over the scheduler
    instances of all cores.  The address spaces and the copies between frame and
    sidecar ([Sidecar]) act on memory, which is no part of this state; they are
    parameters.  A reschedule interrupt has no effect on the state.  *)

From S2P Require Import Prelude PanicMonad Region CapObject CapSpace CapInv CapSystem CapProps Slab Redirect SchedData Sched SchedInv.
From S2P Require Import SchedSystem SchedProps TidQueue Ipc IpcLaws IpcKernel IpcSystem IpcPurge IpcDemo.
From S2P Require Import Cspace PdTable PdSystem PdProps PdShare PdCaps PdPolicy Abi Dispatch DispatchCaps DispatchAuth PdReserve.
#[local] Open Scope Z_scope.

(** What the kernel does to memory on behalf of the dispatch. *)
Class Memory := {
  mem_ablegen : Z → Z → Z → Z → Z → M Kernel.World bool;
  (** the answer of a handler: [true] if the header in the slot is a foreign one *)
  mem_uebernehmen : Z → Z → Z → M Kernel.World bool;
  mem_asid : ThreadId.t → M Kernel.World Z;
  mem_teardown : Z → ThreadId.t → M Kernel.World unit;
  mem_vspace_map : Z → Z → Z → Z → M Kernel.World bool;
  mem_vspace_unmap : Z → Z → Z → M Kernel.World bool;
  mem_map_region : ThreadId.t → Z → Z → bool → option bool → M Kernel.World bool;
  mem_assigned_iova : Z → M Kernel.World (option Z);
  cycles_per_sec : Z }.

Definition ERR_HANDLER_ABI : Z := 14.

Section kernel.
Context `{Timer} `{Hal} `{Memory}.
Notation W := Kernel.World.

Definition on_own {A} (core : nat) (m : M Scheduler.St A) : M W A := Kernel.on_machine (Machine.on_core core m).
Definition owned {R} (tid : ThreadId.t) (f : nat → M Scheduler.St (option R)) : M W (option (R * nat)) :=
  Kernel.on_machine (Kernel.with_owner tid f).
(** [with_owner(tid, |s, _| f(s).then_some(()))], and whether it found the thread. *)
Definition told (tid : ThreadId.t) (f : M Scheduler.St bool) : M W bool :=
  o ← owned tid (λ _, b ← f; mret (Kernel.then_some b)); mret (bool_decide (is_Some o)).
Definition tell (tid : ThreadId.t) (f : M Scheduler.St bool) : M W unit := told tid f ≫= λ _, mret tt.

(** [handler_reply_mit_frame]: first the frame, then the wake-up.  The source runs both under
    the lock of the owning core. *)
Definition handler_reply_mit_frame (tid : ThreadId.t) : M W unit :=
  ob ← owned tid (λ _, b ← Scheduler.handler_of tid; mret (Some b));
  of_ ← owned tid (λ _, Scheduler.frame_of tid);
  match fst <$> ob, fst <$> of_ with
  | Some (Some b), Some frame =>
      if negb (Bindung.sidecar b =? 0) then
        fremd ← mem_uebernehmen frame (Bindung.sidecar b) (Bindung.slot b);
        if fremd : bool then Kernel.frame_set_reg frame reg.SYSNO_RESULT ERR_HANDLER_ABI else mret tt
      else mret tt
  | _, _ => mret tt
  end ≫= λ _,
  tell tid (Scheduler.handler_reply tid).

(** [kill_remote], without the kernel stack. *)
Definition kill_remote (tid : ThreadId.t) : M (Tables.t W) bool :=
  o ← Tables.in_world (owned tid (λ c, b ← Scheduler.kill tid c; mret (Kernel.then_some b)));
  match o with
  | Some _ => Tables.purge_ipc_queues tid ≫= λ _, mret true
  | None => mret false
  end.
Definition stop (tid : ThreadId.t) : M (Tables.t W) bool :=
  asid ← Tables.in_world (mem_asid tid);
  ok ← kill_remote tid;
  (if (ok : bool) && negb (asid =? 0) then Tables.in_world (mem_teardown asid tid) else mret tt) ≫= λ _, mret ok.
Definition exit_current (core : nat) (frame : Z) : M (Tables.t W) Z :=
  tid ← Tables.in_world (on_own core (Scheduler.current_id core));
  next ← Tables.in_world (on_own core (Kernel.charged core (Scheduler.exit_current core frame)));
  Tables.purge_ipc_queues tid ≫= λ _, mret next.

(** A length that is no whole number of pages, or a thread without its own address space. *)
Definition mappable (asid len : Z) : bool := negb (asid =? 0) && negb (len =? 0) && (len mod 4096 =? 0).
Definition map_frame (caller : ThreadId.t) (base len perm_code : Z) : M W bool :=
  asid ← mem_asid caller;
  if negb (mappable asid len) then mret false
  else mem_vspace_map asid base len (if perm_code =? 2 then 2 else if perm_code =? 1 then 1 else 0).
Definition unmap_frame (caller : ThreadId.t) (base len : Z) : M W bool :=
  asid ← mem_asid caller;
  if negb (mappable asid len) then mret false else mem_vspace_unmap asid base len.
Definition map_window (caller : ThreadId.t) (base len : Z) (ro : bool) (dma : option bool) : M W (option Z) :=
  if (len =? 0) || negb (len mod 4096 =? 0) then mret None
  else
    ok ← mem_map_region caller base len ro dma;
    if negb ok then mret None
    else match dma with
         | Some _ => o ← mem_assigned_iova base; mret (Some (default 0 o))
         | None => mret (Some 0)
         end.

#[export] Instance kernel_dispatch_ops : DispatchOps W := {|
  Dispatch.set_tls tid va := told tid (Scheduler.set_tls tid va);
  Dispatch.frist_setzen core ticks grund := on_own core (Scheduler.frist_setzen core ticks grund);
  Dispatch.clock_hz := mret cycles_per_sec;
  Dispatch.clock_now := mret cycles;
  Dispatch.park_current core frame := on_own core (Scheduler.park_current core frame);
  Dispatch.unpark tid := tell tid (Scheduler.unpark tid);
  Dispatch.pause tid := tell tid (Scheduler.pause tid);
  Dispatch.resume tid := tell tid (Scheduler.resume tid);
  Dispatch.stop := stop;
  Dispatch.current_handler core := on_own core (Scheduler.current_handler core);
  Dispatch.handler_of tid := o ← owned tid (λ _, b ← Scheduler.handler_of tid; mret (Some b)); mret (o ≫= fst);
  Dispatch.set_handler tid b := told tid (Scheduler.set_handler tid b);
  Dispatch.block_for_handler core frame := on_own core (Kernel.charged core (Scheduler.block_for_handler core frame));
  Dispatch.mark_handler_wait tid := tell tid (Scheduler.mark_handler_wait tid);
  Dispatch.sidecar_ablegen := mem_ablegen;
  Dispatch.handler_reply := handler_reply_mit_frame;
  Dispatch.on_tick core frame := on_own core (Kernel.charged core (Scheduler.on_tick core frame false));
  Dispatch.exit_current := exit_current;
  Dispatch.kill := IpcPurge.kill;
  Dispatch.map_frame := map_frame;
  Dispatch.unmap_frame := unmap_frame;
  Dispatch.map_window := map_window;
  Dispatch.unmap_window := unmap_frame |}.
End kernel.

(** ** A thread without authority

    Thread 2 runs on core 0; its domain holds a capability for an interrupt in slot 0 and
    calls it as if it were an endpoint.  Neither memory nor the loader is ever reached. *)
#[local] Instance demo_timer : Timer := 0.
#[local] Existing Instance demo_hal.
#[local] Instance demo_memory : Memory := {|
  mem_ablegen _ _ _ _ _ := λ _, None; mem_uebernehmen _ _ _ := λ _, None; mem_asid _ := λ _, None;
  mem_teardown _ _ := λ _, None; mem_vspace_map _ _ _ _ := λ _, None; mem_vspace_unmap _ _ _ := λ _, None;
  mem_map_region _ _ _ _ _ := λ _, None; mem_assigned_iova _ := λ _, None; cycles_per_sec := 1 |}.
#[local] Instance demo_callbacks : Callbacks Kernel.World := {|
  load _ _ _ _ _ _ _ := λ _, None; delete_cap _ := λ _, None; spawn _ _ _ _ _ _ := λ _, None;
  debug _ _ _ _ _ _ := λ _, None; bind_irq _ _ _ _ := λ _, None;
  load_image _ _ _ _ _ _ _ _ _ := λ _, None |}.

Definition demo_pds : PdTable.t :=
  table_of (PdSystem.run (demo_pd_ops ++ [Bind 1 (tid 2); Install 1 0 cap_irq]) (PdSystem.boot 4 4 64)).
Definition demo_kern : Kern.t Kernel.World :=
  Kern.mk (Caps.mk (space demo_sys) demo_pds) (Tables.mk [] [] demo_world).

Lemma demo_named : DispatchAuth.named demo_kern 0x9000 (tid 2) = Some (1%nat, (Irq 3, Rights.RW, 0)).
Proof. vm_compute. reflexivity. Qed.

Lemma no_authority_no_effect_witness :
  permits sys.CALL (Irq 3) Rights.RW = false ∧
  wp (Dispatch.dispatch_nativ 0x9000 0 sys.CALL) demo_kern (refusal 0x9000 demo_kern).
Proof.
  split; [reflexivity|].
  apply (no_authority_no_effect demo_kern 0x9000 0 sys.CALL (tid 2));
    [exact demo_space_inv|exact demo_ok|exact demo_running|by left|]. by rewrite demo_named.
Defined.
