(* ===== verification/Bytes.v ===== *)
(** * Byte buffers

    Buffers of the parsers as lists of bytes, a byte as a number below 256; an index
    beyond the buffer is a panic ([None]).  Little-endian words, and the writer that
    the readers undo. *)

From S2P Require Import Prelude.
#[local] Open Scope Z_scope.

Definition bytes_ok (l : list Z) : Prop := Forall (in_width 8) l.

(** The word of bytes [l], the first the lowest. *)
Fixpoint le_value (l : list Z) : Z :=
  match l with [] => 0 | b :: l => b + 256 * le_value l end.
(** The [n] bytes of a word. *)
Fixpoint le_bytes (n : nat) (v : Z) : list Z :=
  match n with O => [] | S n => v mod 256 :: le_bytes n (v / 256) end.

(** The slice [&b[off..off + n]]. *)
Definition slice (b : list Z) (off n : nat) : option (list Z) :=
  if decide (off + n <= length b)%nat then Some (take n (drop off b)) else None.
(** A little-endian word of [n] bytes at [off]. *)
Definition le_at (b : list Z) (off n : nat) : option Z := le_value <$> slice b off n.

Lemma length_le_bytes n v : length (le_bytes n v) = n.
Proof. revert v. induction n as [|n IH]; intros v; cbn; [done|]. by rewrite IH. Qed.

Lemma le_bytes_ok n v : bytes_ok (le_bytes n v).
Proof.
  revert v. induction n as [|n IH]; intros v; cbn; [constructor|]. constructor; [|apply IH].
  unfold in_width. apply Z.mod_pos_bound. lia.
Qed.

Lemma le_value_bytes n v : in_width (8 * Z.of_nat n) v → le_value (le_bytes n v) = v.
Proof.
  revert v. induction n as [|n IH]; intros v Hv; unfold in_width in *.
  - cbn. change (2 ^ (8 * Z.of_nat 0)) with 1 in Hv. lia.
  - cbn [le_bytes le_value]. rewrite IH.
    + pose proof (Z.div_mod v 256 ltac:(lia)). lia.
    + replace (8 * Z.of_nat (S n)) with (8 + 8 * Z.of_nat n) in Hv by lia. rewrite Z.pow_add_r in Hv by lia.
      split; [apply Z.div_pos; lia|]. apply Z.div_lt_upper_bound; [lia|]. change (2 ^ 8) with 256 in Hv. lia.
Qed.

Lemma le_value_width l : bytes_ok l → in_width (8 * Z.of_nat (length l)) (le_value l).
Proof.
  unfold in_width. induction 1 as [|b l Hb _ IH]; [cbn; lia|]. unfold in_width in Hb. change (2 ^ 8) with 256 in Hb.
  cbn [le_value]. replace (8 * Z.of_nat (length (b :: l))) with (8 + 8 * Z.of_nat (length l)) by (cbn [length]; lia).
  rewrite Z.pow_add_r by lia. change (2 ^ 8) with 256. lia.
Qed.

Lemma le_value_inj l l' : length l = length l' → bytes_ok l → bytes_ok l' → le_value l = le_value l' → l = l'.
Proof.
  intros Hlen Hl. revert l' Hlen. induction Hl as [|b l Hb _ IH]; intros [|b' l'] Hlen; try done.
  intros [Hb' Hl']%Forall_cons. cbn [le_value]. unfold in_width in *. change (2 ^ 8) with 256 in *. intros E.
  assert (b = b') as -> by (rewrite <-(Z.mod_small b 256), <-(Z.mod_small b' 256) by lia;
    rewrite <-(Z_mod_plus_full b (le_value l) 256), <-(Z_mod_plus_full b' (le_value l') 256); f_equal; lia).
  f_equal. apply IH; [by injection Hlen|done|lia].
Qed.

Lemma slice_Some b off n : (off + n <= length b)%nat → slice b off n = Some (take n (drop off b)).
Proof. intros H. unfold slice. by rewrite decide_True. Qed.

Lemma slice_length b off n s : slice b off n = Some s → length s = n ∧ (off + n <= length b)%nat.
Proof.
  unfold slice. case_decide; [|done]. intros [= <-]. rewrite length_take, length_drop. lia.
Qed.

Lemma slice_ok b off n s : bytes_ok b → slice b off n = Some s → bytes_ok s.
Proof. unfold slice. intros Hb. case_decide; [|done]. intros [= <-]. by apply Forall_take, Forall_drop. Qed.

(** A slice behind a prefix. *)
Lemma slice_app_r a b off n : slice (a ++ b) (length a + off) n = slice b off n.
Proof.
  unfold slice. rewrite length_app, drop_app_add. repeat case_decide; (lia || done).
Qed.
Lemma slice_app_l a b : slice (a ++ b) 0 (length a) = Some a.
Proof. rewrite slice_Some by (rewrite length_app; lia). by rewrite drop_0, take_app_length. Qed.

Lemma le_at_Some b off n : (off + n <= length b)%nat → is_Some (le_at b off n).
Proof. intros H. unfold le_at. by rewrite slice_Some. Qed.

(** The word behind a prefix, as written. *)
Lemma le_at_written a v c n off : in_width (8 * Z.of_nat n) v → off = length a →
  le_at (a ++ le_bytes n v ++ c) off n = Some v.
Proof.
  intros Hv ->. unfold le_at. rewrite <-(Nat.add_0_r (length a)), slice_app_r.
  pose proof (slice_app_l (le_bytes n v) c) as Hs. rewrite length_le_bytes in Hs. rewrite Hs. cbn. by rewrite le_value_bytes.
Qed.

Lemma le_at_width b off n v : bytes_ok b → le_at b off n = Some v → in_width (8 * Z.of_nat n) v.
Proof.
  unfold le_at. intros Hb. destruct (slice b off n) as [s|] eqn:E; [|done]. intros [= <-].
  pose proof (slice_length _ _ _ _ E) as [<- _]. apply le_value_width. by eapply slice_ok.
Qed.

#[export] Hint Resolve le_bytes_ok : caprock.

(** A slice of a slice. *)
Lemma slice_slice b off n e o k : slice b off n = Some e → (o + k <= n)%nat → slice e o k = slice b (off + o) k.
Proof.
  intros He Hk. destruct (slice_length _ _ _ _ He) as [Hl Hn]. rewrite (slice_Some b off n) in He by done.
  injection He as <-. rewrite !slice_Some by lia. f_equal.
  rewrite skipn_firstn_comm, take_take, drop_drop. by rewrite Nat.min_l by lia.
Qed.
Lemma slice_lookup b off n e o : slice b off n = Some e → (o < n)%nat → e !! o = b !! (off + o)%nat.
Proof. unfold slice. case_decide; [|done]. intros [= <-] Ho. by rewrite lookup_take_lt, lookup_drop. Qed.

(** Reading past what was written first. *)
Lemma slice_skip a b off n : (length a <= off)%nat → slice (a ++ b) off n = slice b (off - length a) n.
Proof. intros H. replace off with (length a + (off - length a))%nat at 1 by lia. apply slice_app_r. Qed.
Lemma slice_here a b n : length a = n → slice (a ++ b) 0 n = Some a.
Proof. intros <-. apply slice_app_l. Qed.
Lemma le_at_skip a b off n : (length a <= off)%nat → le_at (a ++ b) off n = le_at b (off - length a) n.
Proof. intros H. unfold le_at. by rewrite slice_skip. Qed.
Lemma le_at_here v b n : in_width (8 * Z.of_nat n) v → le_at (le_bytes n v ++ b) 0 n = Some v.
Proof. intros Hv. unfold le_at. rewrite slice_here by apply length_le_bytes. cbn. by rewrite le_value_bytes. Qed.

(** Reads a field of a concatenation of written fields. *)
Ltac field_skip :=
  first [rewrite slice_skip by (rewrite ?length_le_bytes; cbn; lia)
        |rewrite le_at_skip by (rewrite ?length_le_bytes; cbn; lia)];
  rewrite ?length_le_bytes;
  match goal with |- context [(?a - ?b)%nat] => let c := eval vm_compute in (a - b)%nat in change (a - b)%nat with c end.
Ltac read_field := repeat field_skip; first [apply le_at_here|apply slice_here]; try done.

(** Concrete buffers. *)
Lemma bytes_ok_true l : forallb (λ b, (0 <=? b) && (b <? 256)) l = true → bytes_ok l.
Proof.
  rewrite forallb_forall. intros H. apply List.Forall_forall. intros x Hx. specialize (H x Hx).
  apply andb_true_iff in H as [?%Z.leb_le ?%Z.ltb_lt]. by unfold in_width.
Qed.

(** ** Parsers

    A parser answers with a value or an error; [None] is a panic. *)
Definition parse_bind {A B E} (m : option (result A E)) (k : A → option (result B E)) : option (result B E) :=
  match m with None => None | Some (Err e) => Some (Err e) | Some (Ok a) => k a end.
Notation "x '←!' m ; k" := (parse_bind m (λ x, k))
  (at level 20, m at level 100, k at level 200, only parsing) : caprock_scope.
(** [Option::ok_or]. *)
Definition ok_or {A E} (o : option A) (e : E) : option (result A E) :=
  Some (match o with Some a => Ok a | None => Err e end).
(** An access that panics. *)
Definition must {A E} (o : option A) : option (result A E) := Ok <$> o.
(** [for x in l { f(x)?; }]. *)
Fixpoint try_each {A B E} (f : A → option (result B E)) (l : list A) : option (result unit E) :=
  match l with [] => Some (Ok tt) | x :: l => _ ←! f x; try_each f l end.

Definition len (b : list Z) : Z := Z.of_nat (length b).
(** [b.get(lo..hi)]. *)
Definition get (b : list Z) (lo hi : Z) : option (list Z) :=
  if (0 <=? lo) && (lo <=? hi) && (hi <=? len b) then Some (take (Z.to_nat (hi - lo)) (drop (Z.to_nat lo) b)) else None.

Lemma parse_bind_Some {A B E} (m : option (result A E)) (k : A → option (result B E)) b :
  parse_bind m k = Some (Ok b) ↔ ∃ a, m = Some (Ok a) ∧ k a = Some (Ok b).
Proof.
  split; [|by intros (a & -> & H)]. destruct m as [[a|e]|]; try done. intros H. by exists a.
Qed.
Lemma ok_or_Ok {A E} (o : option A) (e : E) a : ok_or o e = Some (Ok a) ↔ o = Some a.
Proof. unfold ok_or. destruct o; split; congruence. Qed.
Lemma must_Ok {A E} (o : option A) a : must (E:=E) o = Some (Ok a) ↔ o = Some a.
Proof. unfold must. destruct o; split; cbn; congruence. Qed.
Lemma parse_bind_runs {A B E} (m : option (result A E)) (k : A → option (result B E)) :
  is_Some m → (∀ a, m = Some (Ok a) → is_Some (k a)) → is_Some (parse_bind m k).
Proof. intros [[a|e] ->] Hk; [by apply Hk|by eexists]. Qed.
Lemma ok_or_runs {A E} (o : option A) (e : E) : is_Some (ok_or o e).
Proof. by eexists. Qed.
Lemma must_runs {A E} (o : option A) : is_Some o → is_Some (must (E:=E) o).
Proof. intros [a ->]. by eexists. Qed.

Lemma try_each_Ok {A B E} (f : A → option (result B E)) l :
  try_each f l = Some (Ok tt) ↔ ∀ x, x ∈ l → ∃ b, f x = Some (Ok b).
Proof.
  induction l as [|x l IH]; cbn [try_each]; [set_solver|]. rewrite parse_bind_Some. split.
  - intros (b & Hb & Hl) y [->|Hy]%elem_of_cons; [by exists b|by apply IH].
  - intros H. destruct (H x) as [b Hb]; [by left|]. exists b. split; [done|]. apply IH. intros y Hy. apply H. by right.
Qed.
Lemma try_each_runs {A B E} (f : A → option (result B E)) l :
  (∀ x, x ∈ l → is_Some (f x)) → is_Some (try_each f l).
Proof.
  induction l as [|x l IH]; intros H; [by eexists|]. apply parse_bind_runs; [apply H; by left|].
  intros _ _. apply IH. intros y Hy. apply H. by right.
Qed.

Lemma get_slice b lo n : 0 <= lo → 0 <= n → get b lo (lo + n) = slice b (Z.to_nat lo) (Z.to_nat n).
Proof.
  intros Hlo Hn. unfold get, slice, len. replace (lo + n - lo) with n by lia.
  rewrite (proj2 (Z.leb_le 0 lo)), (proj2 (Z.leb_le lo (lo + n))) by lia. cbn [andb].
  destruct (Z.leb_spec (lo + n) (Z.of_nat (length b))); case_decide; done || lia.
Qed.
Lemma get_Some b lo hi s : get b lo hi = Some s →
  0 <= lo <= hi ∧ hi <= len b ∧ s = take (Z.to_nat (hi - lo)) (drop (Z.to_nat lo) b) ∧ len s = hi - lo.
Proof.
  unfold get, len. destruct ((0 <=? lo) && (lo <=? hi) && (hi <=? Z.of_nat (length b))) eqn:E; [|done]. intros [= <-].
  rewrite !andb_true_iff, !Z.leb_le in E. rewrite length_take, length_drop. split_and!; lia || done.
Qed.
Lemma get_is_Some b lo hi : 0 <= lo <= hi → hi <= len b → is_Some (get b lo hi).
Proof.
  intros H1 H2. unfold get. rewrite (proj2 (Z.leb_le 0 lo)), (proj2 (Z.leb_le lo hi)), (proj2 (Z.leb_le hi _)) by lia. by eexists.
Qed.

(** ** A signed prefix

    Reading inside the first part of a buffer. *)
Lemma slice_low a b off n : (off + n <= length a)%nat → slice (a ++ b) off n = slice a off n.
Proof.
  intros H. rewrite !slice_Some by (rewrite ?length_app; lia). f_equal.
  rewrite drop_app_le by lia. by rewrite take_app_le by (rewrite length_drop; lia).
Qed.
Lemma le_at_low a b off n : (off + n <= length a)%nat → le_at (a ++ b) off n = le_at a off n.
Proof. intros H. unfold le_at. by rewrite slice_low. Qed.
Lemma get_low a b lo hi : hi <= len a → get (a ++ b) lo hi = get a lo hi.
Proof.
  unfold get, len. intros H. rewrite length_app. destruct (Z.leb_spec 0 lo), (Z.leb_spec lo hi); try done. cbn [andb].
  rewrite (proj2 (Z.leb_le hi (Z.of_nat (length a)))), (proj2 (Z.leb_le hi _)) by lia. f_equal.
  rewrite drop_app_le by lia. by rewrite take_app_le by (rewrite length_drop; lia).
Qed.
(** Cutting a buffer in two. *)
Lemma get_cut d n a b : get d 0 n = Some a → get d n (len d) = Some b → d = a ++ b ∧ len a = n.
Proof.
  intros (H1 & H2 & Ha & Hl)%get_Some (_ & _ & Hb & _)%get_Some. unfold len in *. rewrite Z.sub_0_r in *. split; [|done].
  subst a b. cbn [drop]. change (Z.to_nat 0) with 0%nat. rewrite drop_0.
  rewrite (take_ge (drop _ _)) by (rewrite length_drop; lia). by rewrite take_drop.
Qed.
Lemma get_all d : get d 0 (len d) = Some d.
Proof. unfold get, len. rewrite !(proj2 (Z.leb_le _ _)) by lia. cbn [andb]. rewrite Z.sub_0_r, Nat2Z.id. by rewrite drop_0, take_ge. Qed.
Lemma get_rest a b : get (a ++ b) (len a) (len (a ++ b)) = Some b.
Proof.
  unfold get, len. rewrite length_app, !(proj2 (Z.leb_le _ _)) by lia. cbn [andb]. rewrite Nat2Z.id, drop_app_length.
  by rewrite take_ge by lia.
Qed.

(** ** Iterators

    What [(0..n).filter_map(f)] yields, [None] of [f] a panic. *)
Definition yields {A} (f : Z → option (option A)) (n : Z) : option (list A) := omap id <$> mapM f (seqZ 0 n).

Lemma yields_all {A} (f : Z → option (option A)) n : (∀ i, 0 <= i < n → ∃ x, f i = Some (Some x)) →
  ∃ xs, yields f n = Some xs ∧ length xs = Z.to_nat n ∧ ∀ i x, xs !! i = Some x → f (Z.of_nat i) = Some (Some x).
Proof.
  intros Hall.
  assert (∃ xs : list A, mapM f (seqZ 0 n) = Some (Some <$> xs)) as [xs Hxs].
  { assert (∀ i, i ∈ seqZ 0 n → ∃ x, f i = Some (Some x)) as H by (intros i Hi%elem_of_seqZ; apply Hall; lia).
    revert H. generalize (seqZ 0 n) as l. clear. induction l as [|i l IH]; intros H; [by exists []|].
    destruct (H i) as [x Hx]; [by left|]. destruct IH as [xs Hxs]; [intros j Hj; apply H; by right|].
    exists (x :: xs). cbn. rewrite Hx. cbn. by rewrite Hxs. }
  exists xs. unfold yields. rewrite Hxs. cbn. split; [|split].
  - f_equal. clear. induction xs as [|x xs IH]; [done|cbn; by rewrite IH].
  - apply mapM_Some, Forall2_length in Hxs. by rewrite length_fmap, length_seqZ in Hxs.
  - intros i x Hi. assert ((Some <$> xs) !! i = Some (Some x)) as Hi2 by (by rewrite list_lookup_fmap, Hi).
    apply mapM_Some in Hxs. destruct (Forall2_lookup_r _ _ _ _ _ Hxs Hi2) as (j & Hj & Hx).
    apply lookup_seqZ in Hj as [-> _]. by rewrite Z.add_0_l in Hx.
Qed.

(** ** Documents

    A document written as its fields one after the other: each is found behind the lengths of
    those before it. *)
Lemma slice_piece (ps : list (list Z)) k p off n : ps !! k = Some p → off = length (concat (take k ps)) → n = length p →
  slice (concat ps) off n = Some p.
Proof.
  intros Hp -> ->. rewrite <-(take_drop_middle ps k p Hp) at 1. rewrite concat_app. cbn [concat].
  rewrite <-(Nat.add_0_r (length _)), slice_app_r. apply slice_app_l.
Qed.
Lemma le_at_piece (ps : list (list Z)) k v off n : ps !! k = Some (le_bytes n v) → off = length (concat (take k ps)) →
  in_width (8 * Z.of_nat n) v → le_at (concat ps) off n = Some v.
Proof.
  intros Hp Ho Hv. unfold le_at. rewrite (slice_piece ps k _ off n Hp Ho) by by rewrite length_le_bytes. cbn.
  by rewrite le_value_bytes.
Qed.
Lemma concat_uniform {A} (f : A → list Z) w l : (∀ x, x ∈ l → length (f x) = w) →
  length (concat (f <$> l)) = (length l * w)%nat.
Proof.
  induction l as [|x l IH]; intros H; [done|]. cbn. rewrite length_app, (H x) by by left. rewrite IH; [lia|].
  intros y Hy. apply H. by right.
Qed.
(** The [k]th field. *)
Ltac piece k :=
  first [eapply (le_at_piece _ k)|eapply (slice_piece _ k)]; [reflexivity| |];
  cbn [take concat Z.eqb Pos.eqb]; rewrite ?length_app, ?length_le_bytes; first [done|cbn [length]; lia].

(** ** One byte changed *)
Lemma le_at_insert b i v off n : (i < off ∨ off + n <= i)%nat → le_at (<[i := v]> b) off n = le_at b off n.
Proof.
  intros Hi. unfold le_at, slice. rewrite length_insert. case_decide; [|done]. f_equal. f_equal. destruct Hi.
  - by rewrite drop_insert_lt.
  - rewrite drop_insert_ge, take_insert_ge by lia. done.
Qed.

Lemma le_at_changed b i x v off n : bytes_ok b → in_width 8 v → b !! i = Some x → v ≠ x →
  (off <= i < off + n)%nat → (off + n <= length b)%nat → le_at (<[i := v]> b) off n ≠ le_at b off n.
Proof.
  intros Hb Hv Hx Hne Hi Hlen. unfold le_at. rewrite !slice_Some by (rewrite ?length_insert; lia). cbn [fmap option_fmap option_map].
  intros E%(inj Some). apply le_value_inj in E.
  - rewrite drop_insert_ge, take_insert_lt in E by lia. apply (f_equal (λ l, l !! (i - off)%nat)) in E.
    rewrite list_lookup_insert_eq in E by (rewrite length_take, length_drop; lia).
    rewrite lookup_take_lt, lookup_drop in E by lia. replace (off + (i - off))%nat with i in E by lia. congruence.
  - by rewrite !length_take, !length_drop, length_insert.
  - by apply Forall_take, Forall_drop, Forall_insert.
  - by apply Forall_take, Forall_drop.
Qed.

(** Takes an accepting run of a parser apart. *)
Ltac parsed H :=
  repeat match type of H with
  | parse_bind _ _ = Some (Ok _) =>
      let a := fresh "v" in let Ha := fresh "R" in
      apply parse_bind_Some in H as (a & Ha & H); rewrite ?ok_or_Ok, ?must_Ok in Ha
  | (if ?c then _ else _) = Some (Ok _) => let E := fresh "G" in destruct c eqn:E; [done|]
  end.
(** A parser does not panic. *)
Ltac runs :=
  repeat match goal with
  | |- is_Some (parse_bind (ok_or _ _) _) => apply parse_bind_runs; [apply ok_or_runs|intros ? ?%ok_or_Ok]
  | |- is_Some (if ?c then _ else _) => destruct c eqn:?; [by eexists|]
  | |- is_Some (Some _) => by eexists
  end.
