(* ===== verification/Part.v ===== *)
(** * Partition tables

    [src/crates/caprock-part/src/lib.rs]: the reader of GPT headers and entries and
    the running CRC-32.  [None] is a panic (an index out of the buffer). *)

From S2P Require Import Prelude Bytes.
#[local] Open Scope Z_scope.

Definition SECTOR : Z := 512.
Definition SIGNATURE : list Z := [69; 70; 73; 32; 80; 65; 82; 84].
Definition REVISION : Z := 0x00010000.
Definition MIN_HEADER_SIZE : Z := 92.
Definition MIN_ENTRY_SIZE : Z := 128.

Inductive PartError :=
| TooShort | BadSignature | BadRevision | BadHeaderSize | HeaderCrc | BadEntrySize | BadEntryCount | EntriesCrc.
#[export] Instance PartError_eq_dec : EqDecision PartError.
Proof. solve_decision. Defined.

(** ** The checksum *)
Module Crc32.
Definition t : Type := Z.
Definition POLY : Z := 0xEDB88320.
Definition new : t := 0xFFFFFFFF.
(** One of the eight rounds of a byte. *)
Definition runde (c : t) : t :=
  let mask := wrapping_sub 32 0 (Z.land c 1) in
  Z.lxor (Z.shiftr c 1) (Z.land POLY mask).
Definition byte (c : t) (b : Z) : t := Nat.iter 8 runde (Z.lxor c b).
Definition update (c : t) (bytes : list Z) : t := foldl byte c bytes.
Definition finish (c : t) : Z := Z.lxor c 0xFFFFFFFF.
End Crc32.
Definition crc32 (bytes : list Z) : Z := Crc32.finish (Crc32.update Crc32.new bytes).

Definition rd32 (b : list Z) (off : nat) : option Z := le_at b off 4.
Definition rd64 (b : list Z) (off : nat) : option Z := le_at b off 8.

(** ** The header *)
Module GptHeader.
Record t := mk {
  my_lba : Z; alternate_lba : Z; first_usable_lba : Z; last_usable_lba : Z;
  entry_lba : Z; num_entries : Z; entry_size : Z; entries_crc : Z }.
#[global] Instance eq_dec : EqDecision t.
Proof. solve_decision. Defined.
Definition entries_bytes (h : t) : Z := wrapping_mul 64 (num_entries h) (entry_size h).
Definition entries_sectors (h : t) : Z := (entries_bytes h + (SECTOR - 1)) / SECTOR.
End GptHeader.

Definition parse_header (sector : list Z) : option (result GptHeader.t PartError) :=
  let len := Z.of_nat (length sector) in
  if len <? MIN_HEADER_SIZE then Some (Err TooShort)
  else
    sig ← slice sector 0 8;
    if negb (bool_decide (sig = SIGNATURE)) then Some (Err BadSignature)
    else
      rev ← rd32 sector 8;
      if negb (rev =? REVISION) then Some (Err BadRevision)
      else
        header_size ← rd32 sector 12;
        if (header_size <? MIN_HEADER_SIZE) || (len <? header_size) || (SECTOR <? header_size)
        then Some (Err BadHeaderSize)
        else
          want ← rd32 sector 16;
          s1 ← slice sector 0 16;
          s2 ← slice sector 20 (Z.to_nat header_size - 20);
          let c := Crc32.update (Crc32.update (Crc32.update Crc32.new s1) [0; 0; 0; 0]) s2 in
          if negb (Crc32.finish c =? want) then Some (Err HeaderCrc)
          else
            entry_size ← rd32 sector 84;
            if (entry_size <? MIN_ENTRY_SIZE) || negb (entry_size mod 8 =? 0) then Some (Err BadEntrySize)
            else
              num_entries ← rd32 sector 80;
              match checked_mul 64 num_entries entry_size with
              | Some t =>
                  if (0 <? t) && (t <=? 1024 * 1024) then
                    my_lba ← rd64 sector 24;
                    alternate_lba ← rd64 sector 32;
                    first_usable_lba ← rd64 sector 40;
                    last_usable_lba ← rd64 sector 48;
                    entry_lba ← rd64 sector 72;
                    entries_crc ← rd32 sector 88;
                    Some (Ok (GptHeader.mk my_lba alternate_lba first_usable_lba last_usable_lba entry_lba
                                num_entries entry_size entries_crc))
                  else Some (Err BadEntryCount)
              | None => Some (Err BadEntryCount)
              end.

(** ** Entries *)
Module Partition.
Record t := mk { type_guid : list Z; first_lba : Z; last_lba : Z; attributes : Z }.
Definition is_used (p : t) : bool := negb (bool_decide (type_guid p = replicate 16 0)).
Definition sectors (p : t) : Z :=
  if last_lba p <? first_lba p then 0 else wrapping_add 64 (last_lba p - first_lba p) 1.
Definition within (p : t) (h : GptHeader.t) : bool :=
  (0 <? sectors p) && (GptHeader.first_usable_lba h <=? first_lba p) && (last_lba p <=? GptHeader.last_usable_lba h).
End Partition.

(** The outer option is a panic, the inner one the answer. *)
Definition entry_at (h : GptHeader.t) (chunk : list Z) (chunk_first index : Z) : option (option Partition.t) :=
  if (GptHeader.num_entries h <=? index) || (index <? chunk_first) then Some None
  else
    let off := wrapping_mul 64 (index - chunk_first) (GptHeader.entry_size h) in
    match checked_add 64 off (GptHeader.entry_size h) with
    | None => Some None
    | Some end_ =>
        if Z.of_nat (length chunk) <? end_ then Some None
        else
          e ← slice chunk (Z.to_nat off) (Z.to_nat (end_ - off));
          guid ← slice e 0 16;
          first_lba ← rd64 e 32;
          last_lba ← rd64 e 40;
          attributes ← rd64 e 48;
          Some (Some (Partition.mk guid first_lba last_lba attributes))
    end.

Definition verify_entries (h : GptHeader.t) (c : Crc32.t) : result unit PartError :=
  if Crc32.finish c =? GptHeader.entries_crc h then Ok tt else Err EntriesCrc.

(** ** The checksum tells single bytes apart *)

Lemma runde_cases c : in_width 32 c →
  Crc32.runde c = if Z.even c then c / 2 else Z.lxor (c / 2) Crc32.POLY.
Proof.
  intros Hc. unfold Crc32.runde. change (Z.land c 1) with (Z.land c (Z.ones 1)). rewrite Z.land_ones by lia.
  rewrite Z.shiftr_div_pow2 by lia. change (2 ^ 1) with 2. rewrite Zmod_even. cbv zeta.
  destruct (Z.even c); [|done]. change (Z.land Crc32.POLY _) with 0. apply Z.lxor_0_r.
Qed.

Lemma lxor_width w a b : 0 <= w → in_width w a → in_width w b → in_width w (Z.lxor a b).
Proof.
  unfold in_width. intros Hw Ha Hb. replace (Z.lxor a b) with (Z.lxor a b mod 2 ^ w).
  { apply Z.mod_pos_bound, Z.pow_pos_nonneg; lia. }
  rewrite <-(Z.mod_small a (2 ^ w)), <-(Z.mod_small b (2 ^ w)) at 2 by done. rewrite <-!Z.land_ones by done.
  apply Z.bits_inj'. intros i _. rewrite !Z.land_spec, !Z.lxor_spec, !Z.land_spec. by destruct (Z.testbit a i), (Z.testbit b i), (Z.testbit _ i).
Qed.

Lemma half_width c : in_width 32 c → in_width 31 (c / 2).
Proof. unfold in_width. intros Hc. split; [apply Z.div_pos; lia|apply Z.div_lt_upper_bound; lia]. Qed.

Lemma width_mono v w z : v <= w → in_width v z → in_width w z.
Proof. unfold in_width. intros Hvw Hz. pose proof (Z.pow_le_mono_r 2 v w ltac:(lia) Hvw). lia. Qed.

Lemma runde_width c : in_width 32 c → in_width 32 (Crc32.runde c).
Proof.
  intros Hc. rewrite runde_cases by done. pose proof (half_width c Hc) as Hh.
  destruct (Z.even c); [by eapply width_mono; [|exact Hh]|].
  apply lxor_width; [lia|by eapply width_mono; [|exact Hh]|done].
Qed.

Lemma bit31_low z : in_width 31 z → Z.testbit z 31 = false.
Proof.
  unfold in_width. intros Hz. rewrite Z.testbit_false by lia. by rewrite Z.div_small by lia.
Qed.

(** The top bit of the polynomial tells which way a round went, so a round can be undone. *)
Lemma runde_inj x y : in_width 32 x → in_width 32 y → Crc32.runde x = Crc32.runde y → x = y.
Proof.
  intros Hx Hy. rewrite !runde_cases by done. pose proof (half_width x Hx) as Hx2. pose proof (half_width y Hy) as Hy2.
  assert (∀ z, in_width 31 z → Z.testbit (Z.lxor z Crc32.POLY) 31 = true) as Hbit.
  { intros z Hz. rewrite Z.lxor_spec, bit31_low by done. reflexivity. }
  pose proof (Z.div_mod x 2 ltac:(lia)) as Dx. pose proof (Z.div_mod y 2 ltac:(lia)) as Dy.
  rewrite Zmod_even in Dx, Dy.
  destruct (Z.even x), (Z.even y); intros E.
  - lia.
  - pose proof (Hbit _ Hy2) as Hb. rewrite <-E, bit31_low in Hb by done. done.
  - pose proof (Hbit _ Hx2) as Hb. rewrite E, bit31_low in Hb by done. done.
  - apply (f_equal (λ z, Z.lxor z Crc32.POLY)) in E. rewrite !Z.lxor_assoc, Z.lxor_nilpotent, !Z.lxor_0_r in E. lia.
Qed.

Lemma runden_width n z : in_width 32 z → in_width 32 (Nat.iter n Crc32.runde z).
Proof. intros Hz. induction n; cbn; [done|by apply runde_width]. Qed.

Lemma runden_inj n x y : in_width 32 x → in_width 32 y → Nat.iter n Crc32.runde x = Nat.iter n Crc32.runde y → x = y.
Proof.
  intros Hx Hy. induction n as [|n IH]; cbn; [done|]. intros E%runde_inj; [auto|by apply runden_width..].
Qed.

Lemma byte_width c b : in_width 32 c → in_width 8 b → in_width 32 (Crc32.byte c b).
Proof.
  intros Hc Hb. unfold Crc32.byte. apply runden_width, lxor_width; [lia|done|by eapply width_mono; [|exact Hb]].
Qed.

Lemma update_cons c b l : Crc32.update c (b :: l) = Crc32.update (Crc32.byte c b) l.
Proof. reflexivity. Qed.

Lemma update_width c l : in_width 32 c → bytes_ok l → in_width 32 (Crc32.update c l).
Proof.
  intros Hc Hl. revert c Hc. induction Hl as [|b l Hb _ IH]; intros c Hc; [done|].
  rewrite update_cons. by apply IH, byte_width.
Qed.

Lemma byte_inj c c' b b' : in_width 32 c → in_width 32 c' → in_width 8 b → in_width 8 b' →
  Crc32.byte c b = Crc32.byte c' b' → Z.lxor c b = Z.lxor c' b'.
Proof.
  intros Hc Hc' Hb Hb'. unfold Crc32.byte. apply runden_inj.
  all: apply lxor_width; [lia|done|]; by eapply width_mono; [|done].
Qed.

Lemma update_inj c c' l : in_width 32 c → in_width 32 c' → bytes_ok l →
  Crc32.update c l = Crc32.update c' l → c = c'.
Proof.
  intros Hc Hc' Hl. revert c c' Hc Hc'. induction Hl as [|b l Hb _ IH]; intros c c' Hc Hc'; [done|].
  rewrite !update_cons. intros E%IH; [|by apply byte_width..]. apply byte_inj in E; [|done..].
  apply (f_equal (λ z, Z.lxor z b)) in E. by rewrite !Z.lxor_assoc, !Z.lxor_nilpotent, !Z.lxor_0_r in E.
Qed.

Lemma update_app c a b : Crc32.update c (a ++ b) = Crc32.update (Crc32.update c a) b.
Proof. apply foldl_app. Qed.

Lemma new_width : in_width 32 Crc32.new.
Proof. by unfold in_width, Crc32.new. Qed.

(** Two buffers that differ in one byte have different checksums. *)
Lemma update_differs c p q b b' : in_width 32 c → bytes_ok p → bytes_ok q → in_width 8 b → in_width 8 b' →
  b ≠ b' → Crc32.update c (p ++ b :: q) ≠ Crc32.update c (p ++ b' :: q).
Proof.
  intros Hc Hp Hq Hb Hb' Hne. rewrite !update_app, !update_cons. pose proof (update_width _ _ Hc Hp) as Hw. intros E. apply update_inj in E; [|by apply byte_width..|done].
  apply byte_inj in E; [|done..]. apply Hne.
  apply (f_equal (λ z, Z.lxor (Crc32.update c p) z)) in E. by rewrite <-!Z.lxor_assoc, !Z.lxor_nilpotent, !Z.lxor_0_l in E.
Qed.

Lemma finish_inj c c' : Crc32.finish c = Crc32.finish c' → c = c'.
Proof.
  unfold Crc32.finish. intros E. apply (f_equal (λ z, Z.lxor z 0xFFFFFFFF)) in E.
  by rewrite !Z.lxor_assoc, !Z.lxor_nilpotent, !Z.lxor_0_r in E.
Qed.

(** ** Reading *)

(** The header of the specification, with the checksum [crc]. *)
Definition head_bytes : list Z := SIGNATURE ++ le_bytes 4 REVISION ++ le_bytes 4 MIN_HEADER_SIZE.
Definition rest_bytes (h : GptHeader.t) (guid : list Z) : list Z :=
  le_bytes 4 0 ++ le_bytes 8 (GptHeader.my_lba h) ++ le_bytes 8 (GptHeader.alternate_lba h) ++
  le_bytes 8 (GptHeader.first_usable_lba h) ++ le_bytes 8 (GptHeader.last_usable_lba h) ++ guid ++
  le_bytes 8 (GptHeader.entry_lba h) ++ le_bytes 4 (GptHeader.num_entries h) ++
  le_bytes 4 (GptHeader.entry_size h) ++ le_bytes 4 (GptHeader.entries_crc h).
Definition header_bytes (h : GptHeader.t) (guid : list Z) : list Z :=
  head_bytes ++ le_bytes 4 (crc32 (head_bytes ++ [0; 0; 0; 0] ++ rest_bytes h guid)) ++ rest_bytes h guid.

(** What a header that was read satisfies. *)
Record plausible (h : GptHeader.t) : Prop := {
  pl_lba : in_width 64 (GptHeader.my_lba h) ∧ in_width 64 (GptHeader.alternate_lba h) ∧
    in_width 64 (GptHeader.first_usable_lba h) ∧ in_width 64 (GptHeader.last_usable_lba h) ∧
    in_width 64 (GptHeader.entry_lba h);
  pl_num : in_width 32 (GptHeader.num_entries h);
  pl_crc : in_width 32 (GptHeader.entries_crc h);
  pl_size : in_width 32 (GptHeader.entry_size h) ∧ MIN_ENTRY_SIZE <= GptHeader.entry_size h ∧
    GptHeader.entry_size h mod 8 = 0;
  pl_total : 0 < GptHeader.num_entries h * GptHeader.entry_size h <= 1024 * 1024 }.

Lemma crc_width l : bytes_ok l → in_width 32 (crc32 l).
Proof.
  intros Hl. unfold crc32, Crc32.finish. apply lxor_width; [lia|by apply update_width; [exact new_width|]|].
  by unfold in_width.
Qed.

Lemma head_bytes_ok : bytes_ok head_bytes.
Proof. unfold head_bytes. apply Forall_app; split; [by repeat constructor|]. apply Forall_app; split; apply le_bytes_ok. Qed.
Lemma rest_bytes_ok h guid : bytes_ok guid → bytes_ok (rest_bytes h guid).
Proof. intros Hg. unfold rest_bytes. repeat (apply Forall_app; split); try done; apply le_bytes_ok. Qed.

(** The fields of a written sector. *)
Lemma header_fields (h : GptHeader.t) (guid pad : list Z) (crc : Z) :
  plausible h → length guid = 16%nat → in_width 32 crc →
  let b := head_bytes ++ le_bytes 4 crc ++ rest_bytes h guid ++ pad in
  slice b 0 8 = Some SIGNATURE ∧ le_at b 8 4 = Some REVISION ∧ le_at b 12 4 = Some MIN_HEADER_SIZE ∧
  le_at b 16 4 = Some crc ∧ slice b 0 16 = Some head_bytes ∧ slice b 20 72 = Some (rest_bytes h guid) ∧
  le_at b 84 4 = Some (GptHeader.entry_size h) ∧ le_at b 80 4 = Some (GptHeader.num_entries h) ∧
  le_at b 24 8 = Some (GptHeader.my_lba h) ∧ le_at b 32 8 = Some (GptHeader.alternate_lba h) ∧
  le_at b 40 8 = Some (GptHeader.first_usable_lba h) ∧ le_at b 48 8 = Some (GptHeader.last_usable_lba h) ∧
  le_at b 72 8 = Some (GptHeader.entry_lba h) ∧ le_at b 88 4 = Some (GptHeader.entries_crc h).
Proof.
  intros [(H1 & H2 & H3 & H4 & H5) Hn Hc [Hs _] _] Hg Hcrc. cbv zeta.
  assert (length (rest_bytes h guid) = 72%nat) as Hr.
  { unfold rest_bytes. rewrite !length_app, !length_le_bytes, Hg. reflexivity. }
  split; [reflexivity|]. split; [reflexivity|]. split; [reflexivity|].
  split; [by read_field|]. split; [by apply slice_here|].
  split; [by read_field|]. unfold rest_bytes. rewrite <-!app_assoc.
  split_and!; repeat first [rewrite (le_at_skip guid) by (rewrite Hg; lia); rewrite Hg; cbn [Nat.sub]|field_skip];
    by apply le_at_here.
Qed.

(** What was written is read back, whatever follows in the sector. *)
Theorem gpt_header_roundtrip (h : GptHeader.t) (guid pad : list Z) :
  plausible h → bytes_ok guid → length guid = 16%nat →
  parse_header (header_bytes h guid ++ pad) = Some (Ok h).
Proof.
  intros Hp Hgo Hg. unfold parse_header, rd32, rd64.
  assert (length (header_bytes h guid) = 92%nat) as Hlen.
  { unfold header_bytes, rest_bytes, head_bytes. rewrite !length_app, !length_le_bytes, Hg. reflexivity. }
  rewrite length_app, Hlen. rewrite (proj2 (Z.ltb_ge _ _)) by (unfold MIN_HEADER_SIZE; lia).
  set (crc := crc32 (head_bytes ++ [0; 0; 0; 0] ++ rest_bytes h guid)).
  assert (in_width 32 crc) as Hcrc.
  { apply crc_width. apply Forall_app; split; [exact head_bytes_ok|]. apply Forall_app; split; [by repeat constructor|].
    by apply rest_bytes_ok. }
  replace (header_bytes h guid ++ pad) with (head_bytes ++ le_bytes 4 crc ++ rest_bytes h guid ++ pad)
    by (unfold header_bytes; fold crc; by rewrite <-!app_assoc).
  destruct (header_fields h guid pad crc Hp Hg Hcrc)
    as (-> & -> & -> & -> & -> & Hrest & -> & -> & -> & -> & -> & -> & -> & ->).
  destruct Hp as [_ Hn _ [Hs [Hs1 Hs8]] Ht]. unfold MIN_ENTRY_SIZE, in_width in *.
  cbn [mbind option_bind]. rewrite bool_decide_true by done. cbn [negb]. rewrite Z.eqb_refl. cbn [negb].
  replace (_ || _ || _) with false by (unfold MIN_HEADER_SIZE, SECTOR; symmetry; rewrite !orb_false_iff, !Z.ltb_ge; lia).
  change (Z.to_nat MIN_HEADER_SIZE - 20)%nat with 72%nat. rewrite Hrest. cbn [mbind option_bind].
  rewrite <-!update_app. fold (crc32 (head_bytes ++ [0; 0; 0; 0] ++ rest_bytes h guid)). fold crc.
  rewrite Z.eqb_refl. cbn [negb].
  rewrite (proj2 (Z.ltb_ge _ _)) by (unfold MIN_ENTRY_SIZE; lia). rewrite Hs8. cbn [negb orb Z.eqb].
  unfold checked_mul. rewrite (proj2 (Z.ltb_lt _ _)) by lia.
  rewrite (proj2 (Z.ltb_lt _ _)), (proj2 (Z.leb_le _ _)) by lia. cbn [andb]. by destruct h.
Qed.

(** What the checksum of a header of [n] bytes covers: the field of the checksum as zeros. *)
Definition covered (b : list Z) (n : nat) : list Z := take 16 b ++ [0; 0; 0; 0] ++ take (n - 20) (drop 20 b).

(** An accepted header, and how it was checked. *)
Record accepted (b : list Z) (h : GptHeader.t) (n : nat) : Prop := {
  ac_sig : slice b 0 8 = Some SIGNATURE;
  ac_rev : rd32 b 8 = Some REVISION;
  ac_len : rd32 b 12 = Some (Z.of_nat n) ∧ (92 <= n <= length b)%nat ∧ (n <= 512)%nat;
  ac_crc : rd32 b 16 = Some (crc32 (covered b n)) }.

Lemma parse_header_runs b : bytes_ok b → ∃ r, parse_header b = Some r ∧
  match r with Ok h => plausible h ∧ ∃ n, accepted b h n | Err _ => True end.
Proof.
  intros Hb. unfold parse_header, rd32, rd64. destruct (Z.ltb_spec (Z.of_nat (length b)) MIN_HEADER_SIZE) as [|Hlen]; [by eexists|].
  unfold MIN_HEADER_SIZE in Hlen.
  assert (∀ off n, (off + n <= 92)%nat → ∃ v, le_at b off n = Some v ∧ in_width (8 * Z.of_nat n) v) as Hat.
  { intros off n Hn. destruct (le_at_Some b off n) as [v Hv]; [lia|]. exists v. split; [done|by eapply le_at_width]. }
  rewrite (slice_Some b 0 8), (slice_Some b 0 16) by lia. cbn [mbind option_bind].
  case_bool_decide as Hsig; cbn [negb]; [|by eexists].
  destruct (Hat 8 4)%nat as (rev & Hrev & _); [lia|]. rewrite Hrev. cbn [mbind option_bind].
  destruct (Z.eqb_spec rev REVISION) as [->|]; cbn [negb]; [|by eexists].
  destruct (Hat 12 4)%nat as (hs & Hhs & Hw); [lia|]. rewrite Hhs. cbn [mbind option_bind].
  destruct (Z.ltb_spec hs MIN_HEADER_SIZE), (Z.ltb_spec (Z.of_nat (length b)) hs), (Z.ltb_spec SECTOR hs);
    cbn [orb]; try (by eexists). unfold MIN_HEADER_SIZE, SECTOR in *.
  destruct (Hat 16 4)%nat as (want & Hwant & _); [lia|]. rewrite Hwant. cbn [mbind option_bind].
  rewrite (slice_Some b 20) by lia. cbn [mbind option_bind]. cbv zeta. rewrite <-!update_app, drop_0.
  change (Crc32.finish (Crc32.update Crc32.new _)) with (crc32 (covered b (Z.to_nat hs))).
  destruct (Z.eqb_spec (crc32 (covered b (Z.to_nat hs))) want) as [<-|]; cbn [negb]; [|by eexists].
  destruct (Hat 84 4)%nat as (es & Hes & Hew); [lia|]. rewrite Hes. cbn [mbind option_bind].
  destruct (Z.ltb_spec es MIN_ENTRY_SIZE), (Z.eqb_spec (es mod 8) 0) as [H8|]; cbn [orb negb]; try (by eexists).
  destruct (Hat 80 4)%nat as (num & Hnum & Hnw); [lia|]. rewrite Hnum. cbn [mbind option_bind].
  unfold checked_mul. destruct (Z.ltb_spec (num * es) (2 ^ 64)); [|by eexists].
  destruct (Z.ltb_spec 0 (num * es)), (Z.leb_spec (num * es) (1024 * 1024)); cbn [andb]; try (by eexists).
  destruct (Hat 24 8)%nat as (? & -> & ?); [lia|]. destruct (Hat 32 8)%nat as (? & -> & ?); [lia|].
  destruct (Hat 40 8)%nat as (? & -> & ?); [lia|]. destruct (Hat 48 8)%nat as (? & -> & ?); [lia|].
  destruct (Hat 72 8)%nat as (? & -> & ?); [lia|]. destruct (Hat 88 4)%nat as (? & -> & ?); [lia|].
  cbn [mbind option_bind]. eexists. split; [done|]. split.
  - split; try done; cbn; split_and!; try done; unfold MIN_ENTRY_SIZE in *; lia.
  - exists (Z.to_nat hs). split; [by rewrite slice_Some by lia; rewrite drop_0 in *; rewrite Hsig|exact Hrev| |exact Hwant].
    split; [rewrite Z2Nat.id by lia; exact Hhs|lia].
Qed.

(** The reader never panics, whatever the bytes, and a header it accepts is in bounds: entries
    of at least 128 bytes, a multiple of 8, and a list of at most 1 MiB that is not empty, so
    that no later computation with the header overflows. *)
Theorem parse_header_bounds (b : list Z) : bytes_ok b → ∃ r, parse_header b = Some r ∧
  ∀ h, r = Ok h → plausible h ∧ GptHeader.entries_bytes h = GptHeader.num_entries h * GptHeader.entry_size h ∧
    1 <= GptHeader.entries_sectors h <= 2048.
Proof.
  intros Hb. destruct (parse_header_runs b Hb) as (r & Hr & H). exists r. split; [done|]. intros h ->.
  destruct H as [Hp _]. split; [done|]. destruct Hp as [_ _ _ _ Ht].
  assert (GptHeader.entries_bytes h = GptHeader.num_entries h * GptHeader.entry_size h) as E.
  { unfold GptHeader.entries_bytes, wrapping_mul. apply Z.mod_small. lia. }
  split; [done|]. unfold GptHeader.entries_sectors, SECTOR. rewrite E.
  split; [apply Z.div_le_lower_bound; lia|]. apply Z.lt_succ_r, Z.div_lt_upper_bound; lia.
Qed.

Lemma covered_insert b i v n : (i < n)%nat → (20 <= n <= length b)%nat → (i < 16 ∨ 20 <= i)%nat →
  covered (<[i := v]> b) n = <[i := v]> (covered b n).
Proof.
  intros Hi Hn Hor. unfold covered. destruct Hor.
  - rewrite take_insert_lt, drop_insert_lt by lia. by rewrite insert_app_l by (rewrite length_take; lia).
  - rewrite take_insert_ge, drop_insert_ge, take_insert_lt by lia.
    rewrite insert_app_r_alt by (rewrite length_take; lia). rewrite length_take, Nat.min_l by lia.
    rewrite (insert_app_r_alt [0; 0; 0; 0]) by (cbn [length]; lia). cbn [length]. by replace (i - 16 - 4)%nat with (i - 20)%nat by lia.
Qed.

Lemma crc_insert l i x v : bytes_ok l → in_width 8 v → l !! i = Some x → x ≠ v → crc32 (<[i := v]> l) ≠ crc32 l.
Proof.
  intros Hl Hv Hi Hne. rewrite <-(take_drop_middle l i x Hi) at 2. rewrite insert_take_drop by (by eapply lookup_lt_Some).
  intros E%finish_inj%update_differs; [done|exact new_width|by apply Forall_take|by apply Forall_drop|done| |done].
  by eapply Forall_lookup_1.
Qed.

Lemma accepted_covered_ok b h n : bytes_ok b → accepted b h n → bytes_ok (covered b n).
Proof.
  intros Hb _. apply Forall_app; split; [by apply Forall_take|]. apply Forall_app; split; [by repeat constructor|].
  by apply Forall_take, Forall_drop.
Qed.

Lemma covered_lookup b i n x : (i < n)%nat → (20 <= n <= length b)%nat → (i < 16 ∨ 20 <= i)%nat →
  b !! i = Some x → covered b n !! i = Some x.
Proof.
  intros Hi Hn Hor Hx. unfold covered. destruct Hor.
  - rewrite lookup_app_l by (rewrite length_take; lia). by rewrite lookup_take_lt.
  - rewrite lookup_app_r by (rewrite length_take; lia). rewrite length_take, Nat.min_l by lia.
    rewrite lookup_app_r by (cbn [length]; lia). cbn [length]. rewrite lookup_take_lt by lia. rewrite lookup_drop.
    by replace (20 + (i - 16 - 4))%nat with i by lia.
Qed.

(** No single damaged byte of a header goes unnoticed, outside the field that says how long the
    header is: a sector that was accepted is refused after any other change of one byte that the
    header covers, the checksum's own field included. *)
Theorem header_damage_detected (b : list Z) (h : GptHeader.t) (i : nat) (x v n : Z) :
  bytes_ok b → parse_header b = Some (Ok h) → rd32 b 12 = Some n → b !! i = Some x → in_width 8 v → v ≠ x →
  Z.of_nat i < n → (i < 12 ∨ 16 <= i)%nat → ∃ e, parse_header (<[i := v]> b) = Some (Err e).
Proof.
  intros Hb Hp Hlen Hx Hv Hne Hi Hor.
  destruct (parse_header_runs b Hb) as (r & Hr & H). rewrite Hp in Hr. injection Hr as <-. destruct H as (_ & m & Ha).
  pose proof (ac_len _ _ _ Ha) as (Hm & Hm1 & _). rewrite Hlen in Hm. injection Hm as ->.
  assert (bytes_ok (<[i := v]> b)) as Hb' by by apply Forall_insert.
  destruct (parse_header_runs _ Hb') as ([h'|e] & Hr & H); [|by exists e]. exfalso.
  destruct H as (_ & m' & Ha'). pose proof (ac_len _ _ _ Ha') as (Hm' & _ & _). unfold rd32 in *.
  rewrite le_at_insert, Hlen in Hm' by lia. injection Hm' as E. apply Nat2Z.inj in E as <-.
  pose proof (ac_crc _ _ _ Ha) as Hc. pose proof (ac_crc _ _ _ Ha') as Hc'. unfold rd32 in *.
  pose proof (accepted_covered_ok _ _ _ Hb Ha) as Hok.
  destruct (decide (i < 16 ∨ 20 <= i)%nat) as [Hcov|Hfield].
  - rewrite le_at_insert, Hc, covered_insert in Hc' by lia. injection Hc' as E.
    eapply crc_insert; [exact Hok|exact Hv| |by apply not_eq_sym|by symmetry].
    apply covered_lookup; [lia|lia|exact Hcov|exact Hx].
  - assert (covered (<[i := v]> b) m = covered b m) as E.
    { unfold covered. by rewrite take_insert_ge, drop_insert_lt by lia. }
    rewrite E, <-Hc in Hc'. by apply (le_at_changed b i x v 16 4 Hb Hv Hx Hne) in Hc'; [|lia|lia].
Qed.

(** ** A concrete table *)
Definition demo_header : GptHeader.t := GptHeader.mk 1 2047 34 2014 2 128 128 0xAB54D286.
Definition demo_sector : list Z := header_bytes demo_header (repeat 7 16) ++ repeat 0 420.

Lemma demo_plausible : plausible demo_header.
Proof. split; cbn; unfold in_width, MIN_ENTRY_SIZE; split_and?; lia || done. Qed.

Lemma gpt_header_roundtrip_witness : parse_header demo_sector = Some (Ok demo_header).
Proof. apply (gpt_header_roundtrip demo_header (repeat 7 16) (repeat 0 420) demo_plausible); [by repeat constructor|done]. Defined.

Lemma demo_sector_ok : bytes_ok demo_sector.
Proof.
  apply Forall_app. split; [|by repeat constructor].
  apply Forall_app. split; [exact head_bytes_ok|]. apply Forall_app. split; [apply le_bytes_ok|].
  apply rest_bytes_ok. by repeat constructor.
Qed.

Lemma parse_header_bounds_witness : ∃ r, parse_header (repeat 0 512) = Some r ∧ r = Err BadSignature.
Proof.
  destruct (parse_header_bounds (repeat 0 512)) as (r & Hr & _); [by repeat constructor|].
  exists r. split; [exact Hr|]. vm_compute in Hr. by injection Hr as <-.
Defined.

Lemma header_damage_detected_witness : ∃ e, parse_header (<[40%nat := 99]> demo_sector) = Some (Err e).
Proof.
  apply (header_damage_detected demo_sector demo_header 40 34 99 92 demo_sector_ok);
    [vm_compute; reflexivity|vm_compute; reflexivity|vm_compute; reflexivity|by unfold in_width|done|done|right; lia].
Defined.
