(* ===== verification/Fat.v ===== *)
(** * FAT16 volumes

    [src/crates/caprock-fat/src/lib.rs]: the geometry of a volume, its clusters, its
    directory and its allocation table, for reading and writing.  [None] of the outer
    option is a panic; sectors are numbered from the start of the partition.  *)

From S2P Require Import Prelude Bytes.
#[local] Open Scope Z_scope.

Definition DIR_ENTRY : Z := 32.
Definition FAT16_MIN_CLUSTERS : Z := 4085.
Definition FAT16_MAX_CLUSTERS : Z := 65524.

Inductive FatError :=
| TooShort | BadSignature | BadSectorSize | BadClusterSize | BadGeometry | BadRootEntries | TooBig | NotFat16.
#[export] Instance FatError_eq_dec : EqDecision FatError.
Proof. solve_decision. Defined.

Definition rd16 (b : list Z) (off : nat) : option Z := le_at b off 2.
Definition rd32 (b : list Z) (off : nat) : option Z := le_at b off 4.

(** [u32::is_power_of_two] *)
Definition is_power_of_two (z : Z) : bool := (0 <? z) && (Z.land z (z - 1) =? 0).

Module Fat16.
Record t := mk {
  sectors_per_cluster : Z; reserved_sectors : Z; num_fats : Z; fat_sectors : Z; root_entries : Z;
  total_sectors : Z; fat_lba : Z; root_lba : Z; root_sectors : Z; data_lba : Z; clusters : Z }.
#[global] Instance eq_dec : EqDecision t.
Proof. solve_decision. Defined.
End Fat16.
Import Fat16.

(** The layout from the numbers of the boot sector. *)
Definition layout (spc reserved num_fats fat_sectors root_entries total_sectors : Z) : result Fat16.t FatError :=
  let root_sectors := wrapping_mul 32 root_entries DIR_ENTRY / 512 in
  match checked_mul 32 num_fats fat_sectors with
  | None => Err TooBig
  | Some fats =>
      match checked_add 32 reserved fats with
      | None => Err TooBig
      | Some root_lba =>
          match checked_add 32 root_lba root_sectors with
          | None => Err TooBig
          | Some data_lba =>
              if total_sectors <=? data_lba then Err TooBig
              else
                let clusters := (total_sectors - data_lba) / spc in
                if negb ((FAT16_MIN_CLUSTERS <=? clusters) && (clusters <=? FAT16_MAX_CLUSTERS)) then Err NotFat16
                else Ok (Fat16.mk spc reserved num_fats fat_sectors root_entries total_sectors reserved root_lba
                           root_sectors data_lba clusters)
          end
      end
  end.

Definition parse_boot (sector : list Z) : option (result Fat16.t FatError) :=
  if decide (length sector < 512)%nat then Some (Err TooShort)
  else
    s510 ← sector !! 510%nat;
    s511 ← sector !! 511%nat;
    if negb (s510 =? 0x55) || negb (s511 =? 0xAA) then Some (Err BadSignature)
    else
      bps ← rd16 sector 11;
      if negb (bps =? 512) then Some (Err BadSectorSize)
      else
        spc ← sector !! 13%nat;
        if (spc =? 0) || (128 <? spc) || negb (is_power_of_two spc) then Some (Err BadClusterSize)
        else
          reserved ← rd16 sector 14;
          num_fats ← sector !! 16%nat;
          fat_sectors ← rd16 sector 22;
          if (reserved =? 0) || (num_fats =? 0) || (4 <? num_fats) || (fat_sectors =? 0)
          then Some (Err BadGeometry)
          else
            root_entries ← rd16 sector 17;
            if (root_entries =? 0) || negb (root_entries * DIR_ENTRY mod 512 =? 0) then Some (Err BadRootEntries)
            else
              total16 ← rd16 sector 19;
              total32 ← rd32 sector 32;
              let total_sectors := if negb (total16 =? 0) then total16 else total32 in
              if total_sectors =? 0 then Some (Err BadGeometry)
              else Some (layout spc reserved num_fats fat_sectors root_entries total_sectors).

(** ** The directory *)
Module DirEntry.
Record t := mk { name : list Z; attr : Z; first_cluster : Z; size : Z }.
Definition first (e : t) : Z := default 0 (name e !! 0%nat).
Definition is_file (e : t) : bool :=
  negb (first e =? 0x00) && negb (first e =? 0xE5) && (Z.land (attr e) 0x08 =? 0) && negb (attr e =? 0x0F).
Definition is_end (e : t) : bool := first e =? 0x00.
End DirEntry.

(** The place of an entry in a piece of the directory, if the piece has all of it. *)
Definition dir_place (chunk_len chunk_first index : Z) : option nat :=
  if index <? chunk_first then None
  else
    let off := wrapping_mul 64 (index - chunk_first) DIR_ENTRY in
    end_ ← checked_add 64 off DIR_ENTRY;
    if chunk_len <? end_ then None else Some (Z.to_nat off).

Definition dir_entry_at (chunk : list Z) (chunk_first index : Z) : option (option DirEntry.t) :=
  match dir_place (Z.of_nat (length chunk)) chunk_first index with
  | None => Some None
  | Some off =>
      e ← slice chunk off 32;
      name ← slice e 0 11;
      attr ← e !! 11%nat;
      first_cluster ← rd16 e 26;
      size ← rd32 e 28;
      Some (Some (DirEntry.mk name attr first_cluster size))
  end.

(** [copy_from_slice] onto [off ..]. *)
Definition put (b : list Z) (off : nat) (v : list Z) : list Z := take off b ++ v ++ drop (off + length v) b.

Definition set_dir_entry (chunk : list Z) (chunk_first index first_cluster size : Z) : option (list Z) :=
  off ← dir_place (Z.of_nat (length chunk)) chunk_first index;
  Some (put (put chunk (off + 26) (le_bytes 2 first_cluster)) (off + 28) (le_bytes 4 size)).

(** ** Clusters and the table *)
Section fat.
Implicit Types (f : Fat16.t) (cluster entry : Z).

Definition cluster_lba f cluster : option Z :=
  if (cluster <? 2) || (clusters f <=? cluster - 2) then None
  else Some (wrapping_add 32 (data_lba f) (wrapping_mul 32 (cluster - 2) (sectors_per_cluster f))).

Definition fat_entry_pos f cluster : Z * nat :=
  let byte := wrapping_mul 32 cluster 2 in
  (wrapping_add 32 (fat_lba f) (byte / 512), Z.to_nat (byte mod 512)).

Definition next_cluster f (fat_sector : list Z) cluster : option (option Z) :=
  let off := (fat_entry_pos f cluster).2 in
  if decide (length fat_sector < off + 2)%nat then Some None
  else v ← rd16 fat_sector off; Some (Some v).

Definition is_end_of_chain entry : bool := 0xFFF8 <=? entry.
Definition is_bad entry : bool := entry =? 0xFFF7.
Definition is_next f entry : bool := (2 <=? entry) && (entry - 2 <? clusters f).
Definition cluster_bytes f : Z := wrapping_mul 32 (sectors_per_cluster f) 512.

(** The outer option is a panic: an offset so large that [off + 2] wraps passes the test. *)
Definition set_fat_entry (fat_sector : list Z) (off : nat) (wert : Z) : option (option (list Z)) :=
  if Z.of_nat (length fat_sector) <? wrapping_add 64 (Z.of_nat off) 2 then Some None
  else if (off + 2 <=? length fat_sector)%nat then Some (Some (put fat_sector off (le_bytes 2 wert)))
  else None.

(** The loop of [find_free], from entry [i] on. *)
Fixpoint find_free_from (fat_sector : list Z) (first_cluster clusters : Z) (i rest : nat) : option (option Z) :=
  match rest with
  | O => Some None
  | S rest =>
      let c := first_cluster + Z.of_nat i in
      if (c <? 2) || (clusters <=? c - 2) then find_free_from fat_sector first_cluster clusters (S i) rest
      else
        v ← rd16 fat_sector (i * 2);
        if v =? 0 then Some (Some (c mod 2 ^ 16)) else find_free_from fat_sector first_cluster clusters (S i) rest
  end.
Definition find_free (fat_sector : list Z) (first_cluster clusters : Z) : option (option Z) :=
  find_free_from fat_sector first_cluster clusters 0 (length fat_sector / 2).

Definition fat_copy_lba f (kopie cluster : Z) : option Z :=
  if num_fats f <=? kopie then None
  else Some (wrapping_add 32 (fat_entry_pos f cluster).1 (wrapping_mul 32 kopie (fat_sectors f))).
End fat.

(** ** Names *)
Definition to_ascii_uppercase (c : Z) : Z := if (97 <=? c) && (c <=? 122) then c - 32 else c.
Definition name83 (s : list Z) : option (list Z) :=
  let '(stamm, endung) := match position (λ c, c =? 46) s with
                          | Some i => (take i s, drop (S i) s)
                          | None => (s, [])
                          end in
  if bool_decide (stamm = []) || (8 <? length stamm)%nat || (3 <? length endung)%nat then None
  else
    let out := replicate 11 32 in
    Some (put (put out 0 (map to_ascii_uppercase stamm)) 8 (map to_ascii_uppercase endung)).

(** ** The geometry *)

Record sound (f : Fat16.t) : Prop := {
  so_spc : 1 <= sectors_per_cluster f <= 128;
  so_fats : 1 <= num_fats f <= 4 ∧ 1 <= fat_sectors f < 2 ^ 16;
  so_fat : 1 <= fat_lba f < 2 ^ 16;
  so_root : root_lba f = fat_lba f + num_fats f * fat_sectors f;
  so_entries : 1 <= root_entries f ∧ root_sectors f * 512 = root_entries f * DIR_ENTRY;
  so_data : data_lba f = root_lba f + root_sectors f;
  so_clusters : FAT16_MIN_CLUSTERS <= clusters f <= FAT16_MAX_CLUSTERS;
  so_total : data_lba f + clusters f * sectors_per_cluster f <= total_sectors f < 2 ^ 32 }.

Lemma layout_sound spc reserved nf fs re total f :
  1 <= spc <= 128 → 1 <= reserved < 2 ^ 16 → 1 <= nf <= 4 → 1 <= fs < 2 ^ 16 → 1 <= re < 2 ^ 16 →
  re * DIR_ENTRY mod 512 = 0 → 0 <= total < 2 ^ 32 → layout spc reserved nf fs re total = Ok f → sound f.
Proof.
  intros Hspc Hres Hnf Hfs Hre Hm Htot. unfold layout, checked_mul, checked_add, wrapping_mul, DIR_ENTRY in *.
  rewrite (Z.mod_small (re * 32)) by lia.
  destruct (Z.ltb_spec (nf * fs) (2 ^ 32)); [|done]. destruct (Z.ltb_spec (reserved + nf * fs) (2 ^ 32)); [|done].
  destruct (Z.ltb_spec (reserved + nf * fs + re * 32 / 512) (2 ^ 32)); [|done].
  destruct (Z.leb_spec total (reserved + nf * fs + re * 32 / 512)); [done|].
  destruct (Z.leb_spec FAT16_MIN_CLUSTERS ((total - (reserved + nf * fs + re * 32 / 512)) / spc)),
    (Z.leb_spec ((total - (reserved + nf * fs + re * 32 / 512)) / spc) FAT16_MAX_CLUSTERS); cbn [andb negb]; try done.
  intros [= <-]. assert (re * 32 / 512 * 512 = re * 32) by (pose proof (Z.div_mod (re * 32) 512 ltac:(lia)); lia).
  split; cbn [sectors_per_cluster num_fats fat_sectors fat_lba root_lba root_entries root_sectors data_lba clusters total_sectors];
    unfold DIR_ENTRY; try lia.
  pose proof (Z.mul_div_le (total - (reserved + nf * fs + re * 32 / 512)) spc ltac:(lia)). lia.
Qed.

Lemma sound_data f : sound f → 1 <= root_lba f ∧ root_lba f <= data_lba f.
Proof.
  intros [_ [H2 H2'] H3 H4 [H5 H5'] H6 _ _]. unfold DIR_ENTRY in H5'.
  assert (0 < num_fats f * fat_sectors f) by (apply Z.mul_pos_pos; lia). lia.
Qed.

Lemma byte_at b i : bytes_ok b → (i < length b)%nat → ∃ v, b !! i = Some v ∧ 0 <= v < 256.
Proof.
  intros Hb Hi. apply lookup_lt_is_Some_2 in Hi as [v Hv]. exists v. split; [done|].
  pose proof (Forall_lookup_1 _ _ _ _ Hb Hv) as H. unfold in_width in H. lia.
Qed.

Lemma parse_boot_runs b : bytes_ok b → ∃ r, parse_boot b = Some r ∧ ∀ f, r = Ok f → sound f.
Proof.
  intros Hb. unfold parse_boot, rd16, rd32. destruct (decide (length b < 512)%nat) as [|Hlen]; [by eexists|].
  assert (∀ off n, (off + n <= 512)%nat → ∃ v, le_at b off n = Some v ∧ 0 <= v < 2 ^ (8 * Z.of_nat n)) as Hat.
  { intros off n Hn. destruct (le_at_Some b off n) as [v Hv]; [lia|]. exists v. split; [done|by eapply le_at_width]. }
  destruct (byte_at b 510 Hb) as (s0 & -> & _); [lia|]. destruct (byte_at b 511 Hb) as (s1 & -> & _); [lia|].
  cbn [mbind option_bind]. destruct (negb (s0 =? 0x55) || negb (s1 =? 0xAA)); [by eexists|].
  destruct (Hat 11 2)%nat as (bps & -> & _); [lia|]. cbn [mbind option_bind]. destruct (negb (bps =? 512)); [by eexists|].
  destruct (byte_at b 13 Hb) as (spc & -> & Hspc); [lia|]. cbn [mbind option_bind].
  destruct (Z.eqb_spec spc 0), (Z.ltb_spec 128 spc), (is_power_of_two spc); cbn [orb negb]; try (by eexists).
  destruct (Hat 14 2)%nat as (reserved & -> & Hres); [lia|]. destruct (byte_at b 16 Hb) as (nf & -> & Hnf); [lia|].
  destruct (Hat 22 2)%nat as (fs & -> & Hfs); [lia|]. cbn [mbind option_bind].
  destruct (Z.eqb_spec reserved 0), (Z.eqb_spec nf 0), (Z.ltb_spec 4 nf), (Z.eqb_spec fs 0); cbn [orb]; try (by eexists).
  destruct (Hat 17 2)%nat as (re & -> & Hre); [lia|]. cbn [mbind option_bind].
  destruct (Z.eqb_spec re 0), (Z.eqb_spec (re * DIR_ENTRY mod 512) 0); cbn [orb negb]; try (by eexists).
  destruct (Hat 19 2)%nat as (t16 & -> & Ht16); [lia|]. destruct (Hat 32 4)%nat as (t32 & -> & Ht32); [lia|].
  cbn [mbind option_bind]. cbv zeta. destruct (_ =? 0) eqn:Ht; [by eexists|]. eexists. split; [reflexivity|].
  intros f. apply layout_sound; try lia. destruct (negb (t16 =? 0)); lia.
Qed.

(** Whatever the bytes of a boot sector, reading it never panics, and the geometry it accepts
    lies in the partition: tables, directory and clusters follow one another without overflow,
    and the clusters are disjoint. *)
Theorem parse_boot_sound (b : list Z) : bytes_ok b → ∃ r, parse_boot b = Some r ∧ ∀ f, r = Ok f →
  sound f ∧
  (∀ c, 2 <= c < 2 + clusters f → ∃ l, cluster_lba f c = Some l ∧
     data_lba f <= l ∧ l + sectors_per_cluster f <= total_sectors f) ∧
  (∀ c c' l l', c < c' → cluster_lba f c = Some l → cluster_lba f c' = Some l' → l + sectors_per_cluster f <= l').
Proof.
  intros Hb. destruct (parse_boot_runs b Hb) as (r & Hr & H). exists r. split; [done|]. intros f Hf.
  pose proof (H f Hf) as Hs. split; [done|]. pose proof (sound_data f Hs) as Hd. destruct Hs as [H1 _ H3 H4 _ H6 H7 H8].
  assert (∀ c, 2 <= c → c - 2 < clusters f → cluster_lba f c = Some (data_lba f + (c - 2) * sectors_per_cluster f) ∧
    (c - 2) * sectors_per_cluster f + sectors_per_cluster f <= clusters f * sectors_per_cluster f) as Hc.
  { intros c Hc Hc'. assert ((c - 2) * sectors_per_cluster f + sectors_per_cluster f <= clusters f * sectors_per_cluster f) as E.
    { replace ((c - 2) * sectors_per_cluster f + sectors_per_cluster f) with ((c - 1) * sectors_per_cluster f) by lia.
      apply Z.mul_le_mono_nonneg_r; lia. }
    split; [|done]. unfold cluster_lba, wrapping_add, wrapping_mul.
    assert (0 <= (c - 2) * sectors_per_cluster f) by (apply Z.mul_nonneg_nonneg; lia).
    rewrite (proj2 (Z.ltb_ge _ _)), (proj2 (Z.leb_gt _ _)) by lia. cbn [orb].
    rewrite (Z.mod_small ((c - 2) * _)), Z.mod_small by lia. done. }
  split.
  - intros c Hcc. destruct (Hc c) as [-> E]; [lia|lia|]. eexists. split; [done|].
    assert (0 <= (c - 2) * sectors_per_cluster f) by (apply Z.mul_nonneg_nonneg; lia). lia.
  - intros c c' l l' Hlt Hl Hl'. assert (2 <= c ∧ c' - 2 < clusters f) as [Hc2 Hc2'].
    { unfold cluster_lba in Hl, Hl'. destruct (Z.ltb_spec c 2); [done|]. destruct (Z.ltb_spec c' 2); [done|].
      destruct (Z.leb_spec (clusters f) (c' - 2)); [done|]. lia. }
    destruct (Hc c) as [E1 _]; [lia|lia|]. destruct (Hc c') as [E2 _]; [lia|lia|].
    rewrite E1 in Hl. rewrite E2 in Hl'. injection Hl as <-. injection Hl' as <-.
    assert ((c - 1) * sectors_per_cluster f <= (c' - 2) * sectors_per_cluster f) by (apply Z.mul_le_mono_nonneg_r; lia). lia.
Qed.

(** ** Writing *)

Lemma length_put b off v : (off + length v <= length b)%nat → length (put b off v) = length b.
Proof. intros H. unfold put. rewrite !length_app, length_take, length_drop. lia. Qed.

Lemma lookup_put b off v i : (off + length v <= length b)%nat →
  put b off v !! i = if decide (off <= i < off + length v)%nat then v !! (i - off)%nat else b !! i.
Proof.
  intros H. unfold put. destruct (decide (i < off)%nat).
  - rewrite lookup_app_l by (rewrite length_take; lia). rewrite decide_False by lia. by apply lookup_take_lt.
  - rewrite lookup_app_r by (rewrite length_take; lia). rewrite length_take, Nat.min_l by lia. case_decide.
    + by rewrite lookup_app_l by lia.
    + rewrite lookup_app_r by lia. rewrite lookup_drop. f_equal. lia.
Qed.

Lemma slice_ext b b' off n : length b' = length b → (∀ i, (off <= i < off + n)%nat → b' !! i = b !! i) →
  slice b' off n = slice b off n.
Proof.
  intros Hl He. unfold slice. rewrite Hl. case_decide; [|done]. f_equal. apply list_eq. intros i.
  destruct (decide (i < n)%nat).
  - rewrite !lookup_take_lt, !lookup_drop by done. apply He. lia.
  - by rewrite !lookup_take_ge by lia.
Qed.

Lemma le_at_put_other b off v o n : (off + length v <= length b)%nat → (o + n <= off ∨ off + length v <= o)%nat →
  le_at (put b off v) o n = le_at b o n.
Proof.
  intros H Ho. unfold le_at. f_equal. apply slice_ext; [by apply length_put|]. intros i Hi. rewrite lookup_put by done.
  by rewrite decide_False by lia.
Qed.

Lemma le_at_put_same b off n x : (off + n <= length b)%nat → in_width (8 * Z.of_nat n) x →
  le_at (put b off (le_bytes n x)) off n = Some x.
Proof.
  intros H Hx. unfold put. apply le_at_written; [done|]. rewrite length_take. lia.
Qed.

(** An entry of the table that was set is read back, in the copy of the sector it was set in, and
    no other entry of the sector changes. *)
Theorem fat_entry_roundtrip (f : Fat16.t) (sector sector' : list Z) (cluster wert : Z) :
  in_width 16 cluster → in_width 16 wert →
  set_fat_entry sector (fat_entry_pos f cluster).2 wert = Some (Some sector') →
  next_cluster f sector' cluster = Some (Some wert) ∧ length sector' = length sector ∧
  ∀ other, in_width 16 other → (other mod 256 ≠ cluster mod 256) → next_cluster f sector' other = next_cluster f sector other.
Proof.
  unfold in_width. intros Hc Hw. unfold set_fat_entry. destruct (_ <? _); [done|].
  destruct (Nat.leb_spec ((fat_entry_pos f cluster).2 + 2) (length sector)) as [Hlen|]; [|done]. intros <-%(inj Some)%(inj Some).
  assert (∀ c, 0 <= c < 2 ^ 16 → (fat_entry_pos f c).2 = (2 * Z.to_nat (c mod 256))%nat) as Hpos.
  { intros c Hcc. unfold fat_entry_pos, wrapping_mul. cbn [snd]. rewrite (Z.mod_small (c * 2)) by lia.
    replace ((c * 2) mod 512) with (2 * (c mod 256)); [lia|]. change 512 with (256 * 2).
    rewrite Zmult_mod_distr_r. lia. }
  pose proof (length_le_bytes 2 wert) as Hl2. unfold next_cluster, rd16. cbv zeta. rewrite length_put by lia. split.
  - rewrite decide_False by lia. rewrite le_at_put_same; [done|lia|exact Hw].
  - split; [done|]. intros o Ho Hne. case_decide; [done|]. rewrite le_at_put_other; [done|lia|].
    rewrite !Hpos by done. pose proof (Z.mod_pos_bound o 256 ltac:(lia)). pose proof (Z.mod_pos_bound cluster 256 ltac:(lia)).
    lia.
Qed.

Lemma dir_place_Some len first index off : 0 <= len → 0 <= first → 0 <= index < 2 ^ 32 →
  dir_place len first index = Some off → (off = 32 * Z.to_nat (index - first))%nat ∧ first <= index ∧
    Z.of_nat off + 32 <= len.
Proof.
  intros Hl Hf Hi. unfold dir_place, wrapping_mul, checked_add, DIR_ENTRY. destruct (Z.ltb_spec index first); [done|].
  rewrite Z.mod_small by lia. destruct (Z.ltb_spec ((index - first) * 32 + 32) (2 ^ 64)); [|done].
  cbn [mbind option_bind]. destruct (Z.ltb_spec len ((index - first) * 32 + 32)); [done|]. intros [= <-]. lia.
Qed.

(** The fields of an entry, in the piece it lies in. *)
Lemma dir_entry_fields chunk off e : slice chunk off 32 = Some e →
  slice e 0 11 = slice chunk off 11 ∧ e !! 11%nat = chunk !! (off + 11)%nat ∧
  rd16 e 26 = le_at chunk (off + 26) 2 ∧ rd32 e 28 = le_at chunk (off + 28) 4.
Proof.
  intros H. unfold rd16, rd32, le_at. rewrite !(slice_slice chunk off 32 e) by (done || lia). rewrite Nat.add_0_r.
  split; [done|]. split; [|done]. apply (slice_lookup chunk off 32); [done|lia].
Qed.

(** A directory entry whose cluster and size were set is read back with its name and attributes
    as they were; no other entry of the piece changes. *)
Theorem dir_entry_roundtrip (chunk chunk' : list Z) (first index cluster size : Z) (e : DirEntry.t) :
  0 <= first → in_width 32 index → in_width 16 cluster → in_width 32 size →
  dir_entry_at chunk first index = Some (Some e) → set_dir_entry chunk first index cluster size = Some chunk' →
  dir_entry_at chunk' first index = Some (Some (DirEntry.mk (DirEntry.name e) (DirEntry.attr e) cluster size)) ∧
  ∀ other, in_width 32 other → other ≠ index → dir_entry_at chunk' first other = dir_entry_at chunk first other.
Proof.
  unfold in_width. intros Hf Hi Hc Hs. unfold dir_entry_at, set_dir_entry.
  destruct (dir_place _ first index) as [off|] eqn:Hp; [|done]. cbn [mbind option_bind]. intros He <-%(inj Some).
  destruct (dir_place_Some _ _ _ _ (Nat2Z.is_nonneg _) Hf Hi Hp) as (Hoff & Hle & Hend).
  pose proof (length_le_bytes 2 cluster) as L2. pose proof (length_le_bytes 4 size) as L4.
  set (c1 := put chunk (off + 26) (le_bytes 2 cluster)).
  assert (length c1 = length chunk) as Hl1 by (apply length_put; lia).
  set (c2 := put c1 (off + 28) (le_bytes 4 size)).
  assert (length c2 = length chunk) as Hl2 by (subst c2; rewrite length_put; lia). rewrite Hl2, Hp.
  assert (∀ i, (i < off + 26 ∨ off + 32 <= i)%nat → c2 !! i = chunk !! i) as Hother.
  { intros i Ho. subst c2. rewrite lookup_put, decide_False by lia. subst c1. by rewrite lookup_put, decide_False by lia. }
  split.
  - destruct (slice chunk off 32) as [x|] eqn:Hx; [|done]. cbn [mbind option_bind] in He.
    destruct (dir_entry_fields _ _ _ Hx) as (F1 & F2 & F3 & F4). rewrite F1, F2, F3, F4 in He.
    destruct (slice c2 off 32) as [y|] eqn:Hy; [|unfold slice in Hy; by rewrite decide_True in Hy by lia].
    cbn [mbind option_bind]. destruct (dir_entry_fields _ _ _ Hy) as (-> & -> & -> & ->).
    rewrite (slice_ext chunk c2 off 11) by (done || (intros; apply Hother; lia)). rewrite Hother by lia.
    subst c2. rewrite le_at_put_same by (done || lia). rewrite le_at_put_other by lia. subst c1.
    rewrite le_at_put_same by (done || lia).
    destruct (slice chunk off 11), (chunk !! _), (le_at chunk _ 2), (le_at chunk _ 4); try done. by injection He as <-.
  - intros o Ho Hne. destruct (dir_place _ first o) as [oo|] eqn:Hpo; [|done].
    destruct (dir_place_Some _ _ _ _ (Nat2Z.is_nonneg _) Hf Ho Hpo) as (Hoo & Hleo & Hendo).
    by rewrite (slice_ext chunk c2 oo 32) by (done || (intros; apply Hother; lia)).
Qed.

(** ** Finding room *)

(** The [j]-th entry of a sector that starts at cluster [first] is free and of a data cluster. *)
Definition free (sector : list Z) (first clusters : Z) (j : nat) : Prop :=
  2 <= first + Z.of_nat j < 2 + clusters ∧ rd16 sector (j * 2) = Some 0.

Lemma find_free_from_spec sector first clusters i rest : (2 * (i + rest) <= length sector)%nat →
  (find_free_from sector first clusters i rest = Some None ∧
     ∀ j, (i <= j < i + rest)%nat → ¬ free sector first clusters j) ∨
  ∃ j, find_free_from sector first clusters i rest = Some (Some ((first + Z.of_nat j) mod 2 ^ 16)) ∧
    (i <= j < i + rest)%nat ∧ free sector first clusters j ∧ ∀ k, (i <= k < j)%nat → ¬ free sector first clusters k.
Proof.
  revert i. induction rest as [|rest IH]; intros i Hlen; cbn [find_free_from]; [left; split; [done|lia]|]. cbv zeta.
  destruct (IH (S i)) as [[E Hn]|(j & E & Hj & Hf & Hk)]; [lia| |].
  all: destruct (Z.ltb_spec (first + Z.of_nat i) 2), (Z.leb_spec clusters (first + Z.of_nat i - 2)); cbn [orb].
  1-3: left; split; [done|]; intros j Hj; destruct (decide (j = i)) as [->|]; [unfold free; lia|apply Hn; lia].
  2-4: right; exists j; do 2 (split; [done || lia|]); split; [done|]; intros k Hkk;
    destruct (decide (k = i)) as [->|]; [unfold free; lia|apply Hk; lia].
  all: unfold rd16 in *; destruct (le_at_Some sector (i * 2) 2) as [v Hv]; [lia|]; rewrite Hv; cbn [mbind option_bind].
  all: destruct (Z.eqb_spec v 0) as [->|Hne]; [right; exists i; do 2 (split; [done || lia|]); split; [split; [lia|done]|lia]|].
  - left. split; [done|]. intros j Hj. destruct (decide (j = i)) as [->|]; [|apply Hn; lia].
    unfold free, rd16. rewrite Hv. intros [_ ?]. congruence.
  - right. exists j. do 2 (split; [done || lia|]). split; [done|]. intros k Hkk.
    destruct (decide (k = i)) as [->|]; [|apply Hk; lia]. unfold free, rd16. rewrite Hv. intros [_ ?]. congruence.
Qed.

(** [find_free] never panics and answers the first free data cluster of the sector, or that there
    is none; the two markers at the start of the table and what lies behind the last cluster
    are never taken for free. *)
Theorem find_free_exact (sector : list Z) (first clusters : Z) :
  (find_free sector first clusters = Some None ∧
     ∀ j, (j < length sector / 2)%nat → ¬ free sector first clusters j) ∨
  ∃ j, find_free sector first clusters = Some (Some ((first + Z.of_nat j) mod 2 ^ 16)) ∧
    (j < length sector / 2)%nat ∧ free sector first clusters j ∧ ∀ k, (k < j)%nat → ¬ free sector first clusters k.
Proof.
  unfold find_free. pose proof (Nat.Div0.mul_div_le (length sector) 2) as Hle.
  destruct (find_free_from_spec sector first clusters 0 (length sector / 2)) as [[E Hn]|(j & E & Hj & Hf & Hk)]; [lia| |].
  - left. split; [done|]. intros j Hj. apply Hn. lia.
  - right. exists j. split; [done|]. split; [lia|]. split; [done|]. intros k Hkj. apply Hk. lia.
Qed.

(** Where the table has an entry for every cluster, the sector of an entry in each copy lies in
    that copy, before the directory. *)
Theorem fat_copies_inside (f : Fat16.t) (k c : Z) :
  sound f → 2 * (clusters f + 2) <= 512 * fat_sectors f → 0 <= k → 2 <= c < 2 + clusters f →
  match fat_copy_lba f k c with
  | None => num_fats f <= k
  | Some l => fat_lba f + k * fat_sectors f <= l < fat_lba f + (k + 1) * fat_sectors f ∧ l < root_lba f
  end.
Proof.
  intros [_ [H2 H2'] H3 H4 _ _ H7 _] Hbig Hk Hc. unfold fat_copy_lba, fat_entry_pos, wrapping_add, wrapping_mul. cbn [fst].
  destruct (Z.leb_spec (num_fats f) k); [done|].
  assert (0 <= k * fat_sectors f ∧ k * fat_sectors f + fat_sectors f <= num_fats f * fat_sectors f <= 4 * fat_sectors f) as [Hk0 Hk1].
  { split; [apply Z.mul_nonneg_nonneg; lia|]. split; [|apply Z.mul_le_mono_nonneg_r; lia].
    replace (k * fat_sectors f + fat_sectors f) with ((k + 1) * fat_sectors f) by lia. apply Z.mul_le_mono_nonneg_r; lia. }
  unfold FAT16_MAX_CLUSTERS in *.
  assert (0 <= c * 2 / 512 < fat_sectors f) as Hd.
  { split; [apply Z.div_pos; lia|]. apply Z.div_lt_upper_bound; lia. }
  rewrite (Z.mod_small (c * 2)) by lia. rewrite (Z.mod_small (k * _)), (Z.mod_small (fat_lba f + _)) by lia.
  rewrite Z.mod_small by lia. lia.
Qed.

(** The reader accepts a volume whose table is too short for its clusters: the entry of cluster
    600 then lies in the directory. *)
Definition short_table : Fat16.t := Fat16.mk 1 1 2 1 512 32768 1 3 32 35 32733.
Lemma short_table_accepted :
  layout 1 1 2 1 512 32768 = Ok short_table ∧ sound short_table ∧ cluster_lba short_table 600 = Some 633 ∧
  fat_copy_lba short_table 0 600 = Some (root_lba short_table).
Proof. split; [done|]. split; [|done]. by apply (layout_sound 1 1 2 1 512 32768). Qed.

(** ** Witnesses *)

Definition demo_boot : list Z :=
  repeat 0 11 ++ [0; 2; 1; 1; 0; 2; 0; 2; 0; 128; 0; 128; 0] ++ repeat 0 486 ++ [0x55; 0xAA].

Lemma parse_boot_sound_witness :
  ∃ f, parse_boot demo_boot = Some (Ok f) ∧ sound f ∧ clusters f = 32479.
Proof.
  destruct (parse_boot_sound demo_boot) as (r & Hr & H); [apply bytes_ok_true; vm_compute; reflexivity|].
  assert (∃ f, r = Ok f ∧ clusters f = 32479) as (f & -> & Hc) by (vm_compute in Hr; injection Hr as <-; by eexists).
  exists f. split; [exact Hr|]. split; [apply (H f eq_refl)|exact Hc].
Defined.

Lemma fat_entry_roundtrip_witness :
  ∃ s', set_fat_entry (repeat 0 512) (fat_entry_pos short_table 5).2 6 = Some (Some s') ∧
    next_cluster short_table s' 5 = Some (Some 6).
Proof.
  eexists. split; [reflexivity|]. apply (fat_entry_roundtrip short_table (repeat 0 512) _ 5 6); [done|done|reflexivity].
Defined.

Lemma dir_entry_roundtrip_witness :
  ∃ c', set_dir_entry (repeat 65 512) 0 3 7 1000 = Some c' ∧
    dir_entry_at c' 0 3 = Some (Some (DirEntry.mk (repeat 65 11) 65 7 1000)).
Proof.
  eexists. split; [reflexivity|].
  apply (dir_entry_roundtrip (repeat 65 512) _ 0 3 7 1000 (DirEntry.mk (repeat 65 11) 65 16705 1094795585));
    [done|done|done|done|vm_compute; reflexivity|reflexivity].
Defined.

Lemma fat_copies_inside_witness : fat_copy_lba (Fat16.mk 1 1 2 128 512 32768 1 257 32 289 32479) 1 600 = Some 131.
Proof.
  pose proof (fat_copies_inside (Fat16.mk 1 1 2 128 512 32768 1 257 32 289 32479) 1 600) as H. cbn in H.
  assert (sound (Fat16.mk 1 1 2 128 512 32768 1 257 32 289 32479)) as Hs by by apply (layout_sound 1 1 2 128 512 32768).
  specialize (H Hs ltac:(lia) ltac:(lia) ltac:(lia)). vm_compute. reflexivity.
Defined.
