(* ===== verification/Loader.v ===== *)
(** * Loadable programs

    [src/crates/caprock-loader/src/]: the programs of the boot archive
    ([archive.rs]) and of an ELF image ([elf.rs]), the frames a program costs
    ([cost.rs]) and the requests to replace and to copy one ([exec.rs],
    [snapshot.rs]), and their judgements as the kernel asks for them
    ([src/kernel/src/forkexec.rs]). *)

From S2P Require Import Prelude.
From S2P Require Import Bytes.
From S2P Require Import Abi.
From S2P Require Import PdProc.
#[local] Open Scope Z_scope.

Definition DOMAIN_TRUSTED : Z := 0.
Definition DOMAIN_HARDWARE : Z := 1.
Definition DOMAIN_USERLAND : Z := 2.

Module LoaderError.
Inductive t :=
| TooSmall | BadMagic | BadVersion | OutOfBounds | BadCount | BadElf | UnsupportedDomain | Unverified
| IfaceVersionChanged | IfaceTableFull | UnsupportedPolicy | HotReloadForbidden | BadCert | BadManifest
| UnsupportedManifestFormat (format_version entry_len : Z)
| UnalignedSegment (vaddr : Z)
| NoResources.
#[global] Instance eq_dec : EqDecision t.
Proof. solve_decision. Defined.
End LoaderError.
Import LoaderError.

Notation LR A := (option (result A LoaderError.t)).
Definition fail {A} (e : LoaderError.t) : LR A := Some (Err e).

(** [core::str::from_utf8] accepts these bytes. *)
Definition inside (lo x hi : Z) : bool := (lo <=? x) && (x <=? hi).
Definition cont (x : Z) : bool := inside 0x80 x 0xBF.
Fixpoint utf8_ok (l : list Z) : bool :=
  match l with
  | [] => true
  | a :: l =>
    if a <? 0x80 then utf8_ok l else
    match l with
    | [] => false
    | b :: l =>
      if inside 0xC2 a 0xDF && cont b then utf8_ok l else
      match l with
      | [] => false
      | c :: l =>
        if ((a =? 0xE0) && inside 0xA0 b 0xBF || (inside 0xE1 a 0xEC || inside 0xEE a 0xEF) && cont b
            || (a =? 0xED) && inside 0x80 b 0x9F) && cont c then utf8_ok l else
        match l with
        | [] => false
        | d :: l =>
          ((a =? 0xF0) && inside 0x90 b 0xBF || inside 0xF1 a 0xF3 && cont b || (a =? 0xF4) && inside 0x80 b 0x8F)
          && cont c && cont d && utf8_ok l
        end
      end
    end
  end.
(** The text of a name field: up to the first NUL, or [?]. *)
Definition text (name : list Z) : list Z :=
  let s := take (default (length name) (position (λ c, c =? 0) name)) name in
  if utf8_ok s then s else [63].

(** ** Programs *)
Module Program.
Record t := new {
  program_id : Z; name_bytes : list Z; version : Z; domain : Z; hash : list Z;
  elf : list Z; manifest : list Z; cert : list Z }.
#[global] Instance eq_dec : EqDecision t.
Proof. solve_decision. Defined.
Definition name (p : t) : list Z := text (name_bytes p).
End Program.

Definition slice_within (data : list Z) (off len : Z) : LR (list Z) :=
  end_ ←! ok_or (checked_add 64 off len) OutOfBounds;
  ok_or (get data off end_) OutOfBounds.

(** ** The boot archive *)
Module Archive.
Definition MAGIC : Z := 0x534C4B41.
Definition VERSION : Z := 3.
Definition HEADER_LEN : Z := 32.
Definition ENTRY_LEN : Z := 96.

Definition rd_u32 (d : list Z) (off : Z) : option Z := le_value <$> get d off (wrapping_add 64 off 4).

Record t := mk { data : list Z; count : Z; sysman : list Z }.
#[global] Instance eq_dec : EqDecision t.
Proof. solve_decision. Defined.

Definition parse_program (self : t) (i : Z) : LR Program.t :=
  if count self <=? i then fail OutOfBounds
  else
    let base := wrapping_add 64 HEADER_LEN (wrapping_mul 64 i ENTRY_LEN) in
    e ←! ok_or (get (data self) base (wrapping_add 64 base ENTRY_LEN)) OutOfBounds;
    name ←! must (slice e 0 16);
    program_id ←! must (le_at e 16 4);
    version ←! must (le_at e 20 4);
    domain ←! must (le_at e 24 4);
    _flags ←! must (le_at e 28 4);
    blob_off ←! must (le_at e 32 4);
    blob_len ←! must (le_at e 36 4);
    man_off ←! must (le_at e 40 4);
    man_len ←! must (le_at e 44 4);
    hash ←! must (slice e 48 32);
    cert_off ←! must (le_at e 80 4);
    cert_len ←! must (le_at e 84 4);
    elf ←! slice_within (data self) blob_off blob_len;
    manifest ←! slice_within (data self) man_off man_len;
    cert ←! slice_within (data self) cert_off cert_len;
    Some (Ok (Program.new program_id name version domain hash elf manifest cert)).

Definition parse (data : list Z) : LR t :=
  if len data <? HEADER_LEN then fail TooSmall
  else
    magic ←! ok_or (rd_u32 data 0) TooSmall;
    if negb (magic =? MAGIC) then fail BadMagic
    else
      version ←! ok_or (rd_u32 data 4) TooSmall;
      if negb (version =? VERSION) then fail BadVersion
      else
        count ←! ok_or (rd_u32 data 8) TooSmall;
        total_len ←! ok_or (rd_u32 data 12) TooSmall;
        if len data <? total_len then fail OutOfBounds
        else
          table_end ←! ok_or (checked_mul 64 count ENTRY_LEN ≫= λ t, checked_add 64 t HEADER_LEN) BadCount;
          if total_len <? table_end then fail BadCount
          else
            body ←! must (get data 0 total_len);
            sysman_off ←! ok_or (rd_u32 data 16) TooSmall;
            sysman_len ←! ok_or (rd_u32 data 20) TooSmall;
            sysman ←! slice_within body sysman_off sysman_len;
            let a := mk body count sysman in
            _ ←! try_each (parse_program a) (seqZ 0 count);
            Some (Ok a).

Definition system_manifest (self : t) : list Z := sysman self.
Definition program (self : t) (i : Z) : option (option Program.t) :=
  (λ r, match r with Ok p => Some p | Err _ => None end) <$> parse_program self i.
(** The programs the iterator yields. *)
Definition iter (self : t) : option (list Program.t) :=
  yields (program self) (count self).
End Archive.

(** ** ELF images *)
Module ElfImage.
Definition PAGE_SIZE : Z := 4096.
Definition EI_NIDENT : Z := 16.
Definition ELF_MAGIC : list Z := [0x7F; 69; 76; 70].
Definition ELFCLASS64 : Z := 2.
Definition ELFDATA2LSB : Z := 1.
Definition ET_EXEC : Z := 2.
Definition EM_AARCH64 : Z := 0xB7.
Definition EM_X86_64 : Z := 0x3E.
Definition PT_LOAD : Z := 1.
Definition EHDR_LEN : Z := 64.
Definition PHDR_LEN : Z := 56.
Definition PF_X : Z := 1.
Definition PF_W : Z := 2.
Definition PF_R : Z := 4.

Module Segment.
Record t := mk { vaddr : Z; offset : Z; filesz : Z; memsz : Z; flags : Z }.
#[global] Instance eq_dec : EqDecision t.
Proof. solve_decision. Defined.
End Segment.

Record t := mk { data : list Z; entry : Z; phoff : Z; phnum : Z }.
#[global] Instance eq_dec : EqDecision t.
Proof. solve_decision. Defined.

Definition rd_u16 (d : list Z) (off : Z) : option Z := le_value <$> get d off (wrapping_add 64 off 2).
Definition rd_u64 (d : list Z) (off : Z) : option Z := le_value <$> get d off (wrapping_add 64 off 8).

Definition parse_phdr (self : t) (i : Z) : LR (option Segment.t) :=
  let base := wrapping_add 64 (phoff self) (wrapping_mul 64 i PHDR_LEN) in
  p ←! ok_or (get (data self) base (wrapping_add 64 base PHDR_LEN)) OutOfBounds;
  p_type ←! must (le_at p 0 4);
  if negb (p_type =? PT_LOAD) then Some (Ok None)
  else
    flags ←! must (le_at p 4 4);
    offset ←! ok_or (rd_u64 p 8) OutOfBounds;
    vaddr ←! ok_or (rd_u64 p 16) OutOfBounds;
    filesz ←! ok_or (rd_u64 p 32) OutOfBounds;
    memsz ←! ok_or (rd_u64 p 40) OutOfBounds;
    if negb (vaddr mod PAGE_SIZE =? 0) then fail (UnalignedSegment vaddr)
    else if memsz <? filesz then fail BadElf
    else
      end_ ←! ok_or (checked_add 64 offset filesz) OutOfBounds;
      if len (data self) <? end_ then fail OutOfBounds
      else Some (Ok (Some (Segment.mk vaddr offset filesz memsz flags))).

(** [EXPECTED_MACHINE] is the machine the kernel is built for. *)
Definition parse (EXPECTED_MACHINE : Z) (data : list Z) : LR t :=
  if len data <? EHDR_LEN then fail TooSmall
  else
    ident ←! must (get data 0 EI_NIDENT);
    magic ←! must (get ident 0 4);
    if negb (bool_decide (magic = ELF_MAGIC)) then fail BadElf
    else
      class ←! must (ident !! 4%nat);
      enc ←! must (ident !! 5%nat);
      if negb (class =? ELFCLASS64) || negb (enc =? ELFDATA2LSB) then fail BadElf
      else
        e_type ←! ok_or (rd_u16 data 16) TooSmall;
        e_machine ←! ok_or (rd_u16 data 18) TooSmall;
        if negb (e_type =? ET_EXEC) || negb (e_machine =? EXPECTED_MACHINE) then fail BadElf
        else
          entry ←! ok_or (rd_u64 data 24) TooSmall;
          phoff ←! ok_or (rd_u64 data 32) TooSmall;
          phentsize ←! ok_or (rd_u16 data 54) TooSmall;
          phnum ←! ok_or (rd_u16 data 56) TooSmall;
          if negb (phentsize =? PHDR_LEN) then fail BadElf
          else
            table_end ←! ok_or (checked_mul 64 phnum PHDR_LEN ≫= λ t, checked_add 64 t phoff) OutOfBounds;
            if len data <? table_end then fail OutOfBounds
            else
              let img := mk data entry phoff phnum in
              _ ←! try_each (parse_phdr img) (seqZ 0 phnum);
              Some (Ok img).

(** The segments the iterator yields. *)
Definition loaded (r : result (option Segment.t) LoaderError.t) : option Segment.t :=
  match r with Ok o => o | Err _ => None end.
Definition segments (self : t) : option (list Segment.t) :=
  omap loaded <$> mapM (parse_phdr self) (seqZ 0 (phnum self)).
Definition segment_bytes (self : t) (seg : Segment.t) : list Z :=
  default [] (get (data self) (Segment.offset seg) (wrapping_add 64 (Segment.offset seg) (Segment.filesz seg))).
End ElfImage.

(** ** What an image costs *)
Module Cost.
Definition MAX_IMG_SEGS : Z := 64.
Definition LOADED_STACK_BYTES : Z := 16 * 1024.
Definition PAGE : Z := 4096.

Record PdKosten := mk { segment_bytes : Z; daten_seiten : Z; tabellen_rahmen : Z; stuecke : Z }.
#[global] Instance PdKosten_eq_dec : EqDecision PdKosten.
Proof. solve_decision. Defined.

(** [u64::div_ceil]. *)
Definition div_ceil (a b : Z) : Z := a / b + (if 0 <? a mod b then 1 else 0).

(** The body of the loop over the segments. *)
Definition kosten_schritt (acc : option (Z * Z)) (memsz : Z) : option (Z * Z) :=
  '(segment_bytes, stuecke) ← acc;
  let auf := wrapping_mul 64 (Z.max (div_ceil memsz PAGE) 1) PAGE in
  segment_bytes ← checked_add 64 segment_bytes auf;
  stuecke ← checked_add 64 stuecke 1;
  Some (segment_bytes, stuecke).

Definition pd_kosten (memsz_liste : list Z) : option PdKosten :=
  '(segment_bytes, stuecke) ← foldl kosten_schritt (Some (0, 0)) memsz_liste;
  stuecke ← checked_add 64 stuecke (div_ceil LOADED_STACK_BYTES PAGE);
  if MAX_IMG_SEGS <? stuecke then None
  else
    gesamt ← checked_add 64 segment_bytes LOADED_STACK_BYTES;
    let daten_seiten := div_ceil gesamt PAGE in
    let tabellen_rahmen := wrapping_add 64 (wrapping_add 64 (Z.max (div_ceil daten_seiten 512) 1) 1) 2 in
    Some (mk segment_bytes daten_seiten tabellen_rahmen stuecke).
End Cost.

(** ** Replacing a program *)
Module Exec.
Definition USER_VA_TOP : Z := 2 ^ 47.
Definition MAX_SEGS : Z := 64.
Inductive ExecAbweisung := KeinToken | AlterStand | SegmentZahl | SchlechterEintrag.
#[global] Instance ExecAbweisung_eq_dec : EqDecision ExecAbweisung.
Proof. solve_decision. Defined.

Definition basis : Z := 0xcbf29ce4842225c5.
Definition runde (h b : Z) : Z := wrapping_mul 64 (Z.lxor h b) 0x100000001b3.
Definition teardown_token_fuer (program_id epoche : Z) : Z :=
  let bytes :=
    [Z.land program_id 0xff; Z.land (Z.shiftr program_id 8) 0xff;
     Z.land (Z.shiftr program_id 16) 0xff; Z.land (Z.shiftr program_id 24) 0xff;
     Z.land epoche 0xff; Z.land (Z.shiftr epoche 8) 0xff;
     Z.land (Z.shiftr epoche 16) 0xff; Z.land (Z.shiftr epoche 24) 0xff] in
  let h := foldl runde basis bytes in
  if h =? 0 then 1 else h.

Definition pruefe_exec_antrag (program_id epoche token eintrag nseg : Z) : result unit ExecAbweisung :=
  if token =? 0 then Err KeinToken
  else if negb (token =? teardown_token_fuer program_id epoche) then Err AlterStand
  else if (nseg =? 0) || (MAX_SEGS <? nseg) then Err SegmentZahl
  else if (eintrag =? 0) || (USER_VA_TOP <=? eintrag) then Err SchlechterEintrag
  else Ok tt.
End Exec.

(** ** Copying an address space *)
Module Snapshot.
Definition SNAPSHOT_MAX_BYTES : Z := 8 * 1024 * 1024.
Definition MAX_SEGS : Z := 64.
Definition PAGE : Z := 4096.

Module SnapSeg.
Record t := mk { va : Z; len : Z }.
#[global] Instance eq_dec : EqDecision t.
Proof. solve_decision. Defined.
End SnapSeg.

Inductive SnapAbweisung := Leer | ZuVieleStuecke | SchlechteGeometrie | Ueberlappung | ZuGross.
#[global] Instance SnapAbweisung_eq_dec : EqDecision SnapAbweisung.
Proof. solve_decision. Defined.

Definition krumm (s : SnapSeg.t) : bool :=
  (SnapSeg.len s =? 0) || negb (SnapSeg.va s mod PAGE =? 0) || negb (SnapSeg.len s mod PAGE =? 0).
(** The first loop: geometry and sum. *)
Fixpoint summe_von (sum : Z) (segs : list SnapSeg.t) : result Z SnapAbweisung :=
  match segs with
  | [] => Ok sum
  | s :: segs =>
    if krumm s then Err SchlechteGeometrie
    else match checked_add 64 sum (SnapSeg.len s) with
         | Some sum => summe_von sum segs
         | None => Err ZuGross
         end
  end.
Definition treffen (a b : SnapSeg.t) : bool :=
  (SnapSeg.va a <? saturating_add 64 (SnapSeg.va b) (SnapSeg.len b))
  && (SnapSeg.va b <? saturating_add 64 (SnapSeg.va a) (SnapSeg.len a)).
(** The second: every piece against those behind it. *)
Fixpoint ueberlappung (segs : list SnapSeg.t) : bool :=
  match segs with
  | [] => false
  | a :: segs => existsb (treffen a) segs || ueberlappung segs
  end.

Definition pruefe_snapshot_plan (segs : list SnapSeg.t) : result Z SnapAbweisung :=
  if bool_decide (segs = []) then Err Leer
  else if MAX_SEGS <? Z.of_nat (length segs) then Err ZuVieleStuecke
  else
    match summe_von 0 segs with
    | Err e => Err e
    | Ok sum =>
      if ueberlappung segs then Err Ueberlappung
      else if SNAPSHOT_MAX_BYTES <? sum then Err ZuGross
      else Ok sum
    end.

Definition snapshot_kosten (sum_bytes : Z) : Z * Z :=
  let daten := Cost.div_ceil sum_bytes PAGE in
  (daten, wrapping_add 64 (Z.max (Cost.div_ceil daten 512) 1) 1).
End Snapshot.

(** ** The kernel's side *)
Module Forkexec.
Inductive ForkFehler := Leer | ZuViele | Geometrie | Ueberlappung | ZuGross.
#[global] Instance ForkFehler_eq_dec : EqDecision ForkFehler.
Proof. solve_decision. Defined.

Definition fork_fehler_code (f : ForkFehler) : Z :=
  match f with
  | Leer => errors.ERR_BADSYS
  | ZuViele => Proc.ERR_SNAPSHOT_LIMIT
  | Geometrie => errors.ERR_BADSYS
  | Ueberlappung => errors.ERR_BADSYS
  | ZuGross => Proc.ERR_SNAPSHOT_LIMIT
  end.
Definition snap_code (a : Snapshot.SnapAbweisung) : ForkFehler :=
  match a with
  | Snapshot.Leer => Leer
  | Snapshot.ZuVieleStuecke => ZuViele
  | Snapshot.SchlechteGeometrie => Geometrie
  | Snapshot.Ueberlappung => Ueberlappung
  | Snapshot.ZuGross => ZuGross
  end.

(** The verdict and the plan written into the caller's scratch space. *)
Definition fork_plan_pruefen (vas : list (Z * Z)) (max_len : Z) (plan : list Snapshot.SnapSeg.t) :
  result (Z * Z) ForkFehler * list Snapshot.SnapSeg.t :=
  if bool_decide (vas = []) then (Err Leer, plan)
  else if (Snapshot.MAX_SEGS <? Z.of_nat (length vas)) || (length plan <? length vas)%nat then (Err ZuViele, plan)
  else
    let plan := ((λ '(va, l), Snapshot.SnapSeg.mk va l) <$> vas) ++ drop (length vas) plan in
    match Snapshot.pruefe_snapshot_plan (take (length vas) plan) with
    | Err a => (Err (snap_code a), plan)
    | Ok summe =>
      if negb (max_len =? 0) && (max_len <? summe) then (Err ZuGross, plan)
      else (Ok (Z.of_nat (length vas), summe), plan)
    end.

Definition exec_antrag_pruefen (program_id epoche token eintrag nseg : Z) : result unit Z :=
  match Exec.pruefe_exec_antrag program_id epoche token eintrag nseg with
  | Ok u => Ok u
  | Err Exec.KeinToken | Err Exec.AlterStand => Err Proc.ERR_STALE_TOKEN
  | Err Exec.SegmentZahl => Err Proc.ERR_SNAPSHOT_LIMIT
  | Err Exec.SchlechterEintrag => Err Proc.ERR_BADCAP
  end.
Definition teardown_token (program_id epoche : Z) : Z := Exec.teardown_token_fuer program_id epoche.
End Forkexec.

(** ** Lemmas of the parsers *)

Lemma get_wrapped b lo n s : 0 <= lo < 2 ^ 64 → 0 <= n < 2 ^ 64 → get b lo (wrapping_add 64 lo n) = Some s → len s = n.
Proof.
  intros Hlo Hn (H1 & _ & _ & Hs)%get_Some. rewrite Hs. unfold wrapping_add in *.
  destruct (decide (lo + n < 2 ^ 64)) as [Hw|Hw]; [rewrite Z.mod_small by lia; lia|]. exfalso.
  rewrite <-(Z_mod_plus_full _ (-1)), Z.mod_small in H1 by lia. lia.
Qed.
Lemma get_wrapped_length b lo n s : get b (lo mod 2 ^ 64) (wrapping_add 64 (lo mod 2 ^ 64) (Z.of_nat n)) = Some s →
  Z.of_nat n < 2 ^ 64 → length s = n.
Proof. intros H Hn. apply get_wrapped in H; [unfold len in H; lia|by apply Z.mod_pos_bound|lia]. Qed.

(** [s] is a piece of [d]. *)
Definition lies_in (s d : list Z) : Prop := ∃ k, slice d k (length s) = Some s.

Lemma get_lies_in b lo hi s : get b lo hi = Some s → lies_in s b.
Proof.
  intros (H1 & H2 & -> & Hl)%get_Some. exists (Z.to_nat lo). unfold len in *.
  replace (length _) with (Z.to_nat (hi - lo)) by lia. apply slice_Some. lia.
Qed.
Lemma slice_within_Ok d off n s : slice_within d off n = Some (Ok s) → get d off (off + n) = Some s ∧ len s = n.
Proof.
  unfold slice_within. intros H. parsed H. apply checked_add_Some in R as [-> _]. apply ok_or_Ok in H.
  split; [done|]. apply get_Some in H as (_ & _ & _ & ->). lia.
Qed.
Lemma slice_within_lies d off n s : slice_within d off n = Some (Ok s) → lies_in s d.
Proof. intros [H _]%slice_within_Ok. by eapply get_lies_in. Qed.
Lemma slice_within_runs d off n : is_Some (slice_within d off n).
Proof. unfold slice_within. runs. apply ok_or_runs. Qed.
Lemma rd_nonneg d off n v : bytes_ok d → le_value <$> get d off (wrapping_add 64 off n) = Some v → 0 <= v.
Proof.
  intros Hd. destruct (get d _ _) as [s|] eqn:E; [|done]. intros [= <-]. apply get_lies_in in E as [k E].
  apply (le_value_width s). by eapply slice_ok.
Qed.

(** ** The archive *)
Lemma parse_program_runs a i : is_Some (Archive.parse_program a i).
Proof.
  unfold Archive.parse_program. runs. set (base := wrapping_add 64 _ _) in *.
  assert (length a0 = 96%nat) as Hl by (by eapply (get_wrapped_length _ _ 96)).
  repeat (apply parse_bind_runs; [apply must_runs; first [apply le_at_Some; lia|rewrite slice_Some by lia; by eexists]|intros ? _]).
  repeat (apply parse_bind_runs; [apply slice_within_runs|intros ? _]). by eexists.
Qed.

(** What a program of the archive [d] is made of. *)
Record program_in (d : list Z) (p : Program.t) : Prop := {
  pi_elf : lies_in (Program.elf p) d;
  pi_manifest : lies_in (Program.manifest p) d;
  pi_cert : lies_in (Program.cert p) d;
  pi_name : length (Program.name_bytes p) = 16%nat;
  pi_hash : length (Program.hash p) = 32%nat }.

Lemma parse_program_in a i p : Archive.parse_program a i = Some (Ok p) →
  i < Archive.count a ∧ program_in (Archive.data a) p.
Proof.
  unfold Archive.parse_program. destruct (Z.leb_spec (Archive.count a) i); [done|]. intros Hp. split; [done|].
  parsed Hp. injection Hp as <-.
  repeat match goal with H : slice_within _ _ _ = _ |- _ => apply slice_within_lies in H end.
  repeat match goal with H : slice _ _ _ = Some _ |- _ => apply slice_length in H as [? _] end. by split.
Qed.

(** The programs of a table whose entries have all been judged. *)
Lemma program_iter a : (∀ i, i ∈ seqZ 0 (Archive.count a) → ∃ p, Archive.parse_program a i = Some (Ok p)) →
  ∃ ps, Archive.iter a = Some ps ∧ length ps = Z.to_nat (Archive.count a) ∧
    ∀ i p, ps !! i = Some p → Archive.program a (Z.of_nat i) = Some (Some p) ∧ program_in (Archive.data a) p.
Proof.
  intros Hall. destruct (yields_all (Archive.program a) (Archive.count a)) as (ps & Hps & Hl & Hat).
  { intros i Hi. destruct (Hall i) as [p Hp]; [apply elem_of_seqZ; lia|]. exists p. unfold Archive.program. by rewrite Hp. }
  exists ps. split; [done|]. split; [done|]. intros i p Hp%Hat. split; [done|]. unfold Archive.program in Hp.
  destruct (Archive.parse_program a (Z.of_nat i)) as [[q|]|] eqn:E; try done. injection Hp as ->.
  by apply parse_program_in in E as [_ ?].
Qed.

Lemma archive_parse_runs d : bytes_ok d → is_Some (Archive.parse d).
Proof.
  intros Hd. unfold Archive.parse. runs.
  apply parse_bind_runs.
  { apply must_runs, get_is_Some; [|lia]. split; [done|]. by eapply rd_nonneg. }
  intros body _. runs. apply parse_bind_runs; [apply slice_within_runs|intros sm _].
  apply parse_bind_runs; [|by eexists]. apply try_each_runs. intros; apply parse_program_runs.
Qed.

(** An archive that was accepted. *)
Lemma archive_parse_Ok d a : Archive.parse d = Some (Ok a) →
  (∃ n, get d 0 n = Some (Archive.data a)) ∧ lies_in (Archive.sysman a) (Archive.data a) ∧
  ∀ i, i ∈ seqZ 0 (Archive.count a) → ∃ p, Archive.parse_program a i = Some (Ok p).
Proof.
  unfold Archive.parse. intros H. parsed H. injection H as <-. cbn.
  match goal with H : try_each _ _ = _ |- _ => rename H into Hall end.
  repeat match goal with u : unit |- _ => destruct u end. rewrite try_each_Ok in Hall.
  split; [by eexists|]. split; [by eapply slice_within_lies|done].
Qed.

(** The parser of the boot archive answers every buffer, and a program of an archive it
    accepted is there: the iterator yields as many programs as the header counts, the image,
    the manifest and the certificate of each are pieces of the archive, and its index gives
    it; no index beyond the count does. *)
Theorem archive_bounds (d : list Z) :
  bytes_ok d →
  is_Some (Archive.parse d) ∧
  ∀ a, Archive.parse d = Some (Ok a) →
    (∃ n, get d 0 n = Some (Archive.data a)) ∧ lies_in (Archive.system_manifest a) (Archive.data a) ∧
    (∃ ps, Archive.iter a = Some ps ∧ length ps = Z.to_nat (Archive.count a) ∧
       ∀ i p, ps !! i = Some p → Archive.program a (Z.of_nat i) = Some (Some p) ∧ program_in (Archive.data a) p) ∧
    ∀ i, Archive.count a <= i → Archive.program a i = Some None.
Proof.
  intros Hd. split; [by apply archive_parse_runs|]. intros a Ha.
  destruct (archive_parse_Ok d a Ha) as (Hpre & Hs & Hall). split; [done|]. split; [done|].
  split; [by apply program_iter|]. intros i Hi. unfold Archive.program, Archive.parse_program.
  by rewrite (proj2 (Z.leb_le _ _) Hi).
Qed.

(** ** The image *)
Section elf.
Implicit Types (img : ElfImage.t) (seg : ElfImage.Segment.t).
Import ElfImage.

Lemma parse_phdr_runs img i : is_Some (parse_phdr img i).
Proof.
  unfold parse_phdr. runs. set (base := wrapping_add 64 _ _) in *.
  assert (length a = 56%nat) as Hl by (by eapply (get_wrapped_length _ _ 56)).
  repeat (apply parse_bind_runs; [apply must_runs, le_at_Some; lia|intros ? _]; runs).
Qed.

(** A segment of the image [d]: its pages begin at a page, hold its bytes, and the image does. *)
Record segment_ok img seg : Prop := {
  so_aligned : Segment.vaddr seg mod 4096 = 0;
  so_fits : 0 <= Segment.filesz seg <= Segment.memsz seg;
  so_bytes : slice (data img) (Z.to_nat (Segment.offset seg)) (Z.to_nat (Segment.filesz seg)) = Some (segment_bytes img seg) }.

Lemma parse_phdr_ok img i seg : bytes_ok (data img) → parse_phdr img i = Some (Ok (Some seg)) → segment_ok img seg.
Proof.
  intros Hd H. unfold parse_phdr in H. parsed H. injection H as <-.
  match goal with H : get _ _ _ = Some _ |- _ => apply get_lies_in in H as [k Hp] end.
  assert (bytes_ok v) as Hv by (by eapply slice_ok).
  repeat match goal with H : rd_u64 _ _ = Some _ |- _ => apply rd_nonneg in H; [|done] end.
  match goal with H : checked_add _ _ _ = Some _ |- _ => apply checked_add_Some in H as [-> Hw] end.
  rewrite negb_false_iff, ?Z.eqb_eq, ?Z.ltb_ge in *. unfold PAGE_SIZE in *. split; [done|cbn; lia|].
  unfold segment_bytes. cbn. rewrite wrapping_add_exact by (unfold in_width; lia). rewrite get_slice by lia.
  unfold len in *. rewrite slice_Some by lia. done.
Qed.

(** A word that was read is the word at its place. *)
Lemma read_word (d : list Z) (off : Z) (n : nat) v : 0 <= off → off + Z.of_nat n < 2 ^ 64 →
  le_value <$> get d off (wrapping_add 64 off (Z.of_nat n)) = Some v → le_at d (Z.to_nat off) n = Some v.
Proof. intros Hoff Hn. rewrite wrapping_add_exact by (unfold in_width; lia). rewrite get_slice, Nat2Z.id by lia. done. Qed.

(** What the header [p] of a table says of its segment, by the layout of the format. *)
Definition phdr_says (p : list Z) (o : option Segment.t) : Prop :=
  match o with
  | None => le_at p 0 4 ≠ Some PT_LOAD
  | Some seg => le_at p 0 4 = Some PT_LOAD ∧ le_at p 4 4 = Some (Segment.flags seg) ∧ le_at p 8 8 = Some (Segment.offset seg) ∧
      le_at p 16 8 = Some (Segment.vaddr seg) ∧ le_at p 32 8 = Some (Segment.filesz seg) ∧ le_at p 40 8 = Some (Segment.memsz seg)
  end.
Lemma parse_phdr_at img i o : len (data img) < 2 ^ 64 → 0 <= i < phnum img → 0 <= phoff img →
  phoff img + phnum img * PHDR_LEN <= len (data img) → parse_phdr img i = Some (Ok o) →
  ∃ p, slice (data img) (Z.to_nat (phoff img + i * PHDR_LEN)) 56 = Some p ∧ phdr_says p o.
Proof.
  unfold PHDR_LEN. intros Hlen Hi Hoff Htab H. unfold parse_phdr in H. apply parse_bind_Some in H as (p & Hp & H).
  rewrite ok_or_Ok in Hp. unfold wrapping_mul, PHDR_LEN in Hp. rewrite (Z.mod_small (i * 56)) in Hp by lia.
  rewrite !wrapping_add_exact in Hp by (unfold in_width; rewrite ?wrapping_add_exact by (unfold in_width; lia); lia).
  rewrite get_slice in Hp by lia. change (Z.to_nat 56) with 56%nat in Hp. exists p. split; [done|].
  apply parse_bind_Some in H as (ty & Hty & H). rewrite must_Ok in Hty.
  destruct (Z.eqb_spec ty PT_LOAD) as [->|Hne]; cbn [negb] in H.
  - parsed H. injection H as <-.
    repeat match goal with R : rd_u64 _ _ = Some _ |- _ => apply (read_word _ _ 8) in R; [|lia..] end. by split_and!.
  - injection H as <-. cbn. congruence.
Qed.
(** What the first header of an accepted image says. *)
Record elf_header (M : Z) (d : list Z) (img : t) : Prop := {
  eh_data : data img = d;
  eh_magic : slice d 0 4 = Some ELF_MAGIC;
  eh_class : d !! 4%nat = Some ELFCLASS64 ∧ d !! 5%nat = Some ELFDATA2LSB;
  eh_type : le_at d 16 2 = Some ET_EXEC ∧ le_at d 18 2 = Some M;
  eh_entry : le_at d 24 8 = Some (entry img);
  eh_table : le_at d 32 8 = Some (phoff img) ∧ le_at d 54 2 = Some PHDR_LEN ∧ le_at d 56 2 = Some (phnum img) }.
(** The identity of an image is its first bytes. *)
Lemma identity_bytes d i m : get i 0 4 = Some m → get d 0 EI_NIDENT = Some i →
  slice d 0 4 = Some m ∧ i !! 4%nat = d !! 4%nat ∧ i !! 5%nat = d !! 5%nat.
Proof.
  intros Hm Hi. assert (slice d 0 16 = Some i) as Hd by (rewrite <-Hi; symmetry; by apply (get_slice d 0 16)).
  assert (slice i 0 4 = Some m) as Hm4 by (rewrite <-Hm; symmetry; by apply (get_slice i 0 4)). clear Hm Hi.
  rewrite (slice_slice d 0 16 i 0 4 Hd) in Hm4 by lia. by rewrite !(slice_lookup d 0 16 i _ Hd) by lia.
Qed.
Lemma elf_parse_header M d img : parse M d = Some (Ok img) → elf_header M d img.
Proof.
  unfold parse. intros H. parsed H. injection H as <-. rewrite ?orb_false_iff, ?negb_false_iff, ?Z.eqb_eq in *. destruct_and?.
  repeat match goal with R : rd_u64 _ _ = Some _ |- _ => apply (read_word _ _ 8) in R; [|lia..]
    | R : rd_u16 _ _ = Some _ |- _ => apply (read_word _ _ 2) in R; [|lia..] end.
  match goal with Hid : get d 0 EI_NIDENT = Some ?i, Hmag : get ?i 0 4 = Some _ |- _ => rename Hid into Hi, Hmag into Hm end.
  apply (identity_bytes d) in Hm as (Hm & H4 & H5); [|done]. rewrite H4 in *. rewrite H5 in *.
  rewrite bool_decide_eq_true in *. subst. by split.
Qed.

Lemma elf_parse_runs M d : bytes_ok d → is_Some (parse M d).
Proof.
  intros Hd. unfold parse. destruct (Z.ltb_spec (len d) EHDR_LEN) as [|Hl]; [by eexists|]. unfold EHDR_LEN in *.
  destruct (get_is_Some d 0 16) as [id Hid]; [lia|lia|]. change EI_NIDENT with 16. rewrite Hid. cbn [must fmap option_fmap option_map parse_bind].
  apply get_Some in Hid as (_ & _ & _ & Hl2). unfold len in Hl2.
  apply parse_bind_runs; [apply must_runs, get_is_Some; unfold len; lia|intros mg _]. runs.
  apply parse_bind_runs; [apply must_runs, lookup_lt_is_Some_2; lia|intros cl _].
  apply parse_bind_runs; [apply must_runs, lookup_lt_is_Some_2; lia|intros en _]. runs.
  apply parse_bind_runs; [|by eexists]. apply try_each_runs. intros; apply parse_phdr_runs.
Qed.

Lemma elf_parse_Ok M d img : bytes_ok d → parse M d = Some (Ok img) →
  data img = d ∧ 0 <= phoff img ∧ 0 <= phnum img ∧ phoff img + phnum img * PHDR_LEN <= len d ∧
  ∀ i, i ∈ seqZ 0 (phnum img) → ∃ o, parse_phdr img i = Some (Ok o).
Proof.
  intros Hd. unfold parse. intros H. parsed H. injection H as <-. cbn.
  match goal with H : try_each _ _ = _ |- _ => rename H into Hall end.
  repeat match goal with u : unit |- _ => destruct u end. rewrite try_each_Ok in Hall.
  match goal with H : (checked_mul _ _ _ ≫= _) = Some _ |- _ =>
    apply bind_Some in H as (t & Ht & H); apply checked_mul_Some in Ht as [-> _]; apply checked_add_Some in H as [-> _] end.
  rewrite ?Z.ltb_ge in *. split_and!; [done| | |lia|done].
  all: by eapply rd_nonneg.
Qed.

Lemma segments_headers img : (∀ i, i ∈ seqZ 0 (phnum img) → ∃ o, parse_phdr img i = Some (Ok o)) →
  ∃ hs, length hs = Z.to_nat (phnum img) ∧ segments img = Some (omap id hs) ∧
    ∀ i o, hs !! i = Some o → parse_phdr img (Z.of_nat i) = Some (Ok o).
Proof.
  intros Hall.
  assert (∃ hs : list (option Segment.t), mapM (parse_phdr img) (seqZ 0 (phnum img)) = Some ((λ o, Ok o) <$> hs)) as [hs Hhs].
  { revert Hall. generalize (seqZ 0 (phnum img)) as l. induction l as [|i l IH]; intros Hall; [by exists []|].
    destruct (Hall i) as [o Ho]; [by left|]. destruct IH as [hs Hhs]; [intros j Hj; apply Hall; by right|].
    exists (o :: hs). cbn [mapM]. rewrite Ho. cbn. by rewrite Hhs. }
  exists hs. unfold segments. rewrite Hhs. apply mapM_Some in Hhs. split.
  { apply Forall2_length in Hhs. by rewrite length_fmap, length_seqZ in Hhs. }
  split. { cbn. f_equal. clear. induction hs as [|[s|] hs IH]; [done|cbn; by rewrite IH|cbn; by rewrite IH]. }
  intros i o Hi. destruct (Forall2_lookup_r _ _ _ i (Ok o) Hhs) as (j & Hj & Ho); [by rewrite list_lookup_fmap, Hi|].
  by apply lookup_seqZ in Hj as [-> _].
Qed.
End elf.

(** C35: The parser of an image answers every buffer, and an image it accepted can be loaded:
    its entry and its table are those of the header, which is of the right format and machine;
    each header of the table is read where the table says; the segments are those of the
    loadable ones, none missing, with the address, the sizes, the place and the flags written
    there; and each begins at a page, takes at least the bytes it brings, and brings bytes of
    the image. *)
Theorem elf_bounds (M : Z) (d : list Z) :
  bytes_ok d → len d < 2 ^ 64 →
  is_Some (ElfImage.parse M d) ∧
  ∀ img, ElfImage.parse M d = Some (Ok img) →
    elf_header M d img ∧
    ∃ hs : list (option ElfImage.Segment.t),
      length hs = Z.to_nat (ElfImage.phnum img) ∧ ElfImage.segments img = Some (omap id hs) ∧
      ∀ i o, hs !! i = Some o →
        (∃ p, slice d (Z.to_nat (ElfImage.phoff img + Z.of_nat i * 56)) 56 = Some p ∧ phdr_says p o) ∧
        ∀ seg, o = Some seg → segment_ok img seg ∧ lies_in (ElfImage.segment_bytes img seg) d.
Proof.
  intros Hd Hlen. split; [by apply elf_parse_runs|]. intros img H. split; [by apply elf_parse_header|].
  destruct (elf_parse_Ok M d img Hd H) as (Hdata & Hoff & Hnum & Htab & Hall).
  destruct (segments_headers img Hall) as (hs & Hl & Hs & Hhs). exists hs. split; [done|]. split; [done|].
  intros i o Hi. pose proof (Hhs i o Hi) as Ho. pose proof (lookup_lt_Some _ _ _ Hi). rewrite <-Hdata. split.
  - eapply parse_phdr_at; [by rewrite Hdata|lia|done|by rewrite Hdata|done].
  - intros seg ->. assert (segment_ok img seg) as Hok by (eapply parse_phdr_ok; [by rewrite Hdata|done]).
    split; [done|]. destruct Hok as [_ _ Hb]. exists (Z.to_nat (ElfImage.Segment.offset seg)).
    pose proof (slice_length _ _ _ _ Hb) as [-> _]. done.
Qed.

(** ** The frames *)
Section cost.
Import Cost.

(** The pages of a segment: it takes one even when it is empty. *)
Definition pages (memsz : Z) : Z := Z.max (div_ceil memsz PAGE) 1.
Definition sum_pages (l : list Z) : Z := foldr (λ m s, pages m + s) 0 l.

Lemma div_ceil_spec a b : 0 < b → a <= b * div_ceil a b < a + b.
Proof.
  intros Hb. unfold div_ceil. pose proof (Z.div_mod a b ltac:(lia)). pose proof (Z.mod_pos_bound a b Hb).
  destruct (Z.ltb_spec 0 (a mod b)); lia.
Qed.
Lemma pages_pos m : 1 <= pages m.
Proof. unfold pages. lia. Qed.
Lemma sum_pages_nonneg l : 0 <= sum_pages l.
Proof. induction l as [|m l IH]; cbn; [lia|]. pose proof (pages_pos m). unfold sum_pages in IH. lia. Qed.

(** A size whose last page exists. *)
Definition size_ok (m : Z) : Prop := 0 <= m <= 2 ^ 64 - PAGE.
Lemma pages_fit m : size_ok m → wrapping_mul 64 (pages m) PAGE = pages m * PAGE ∧ pages m * PAGE < 2 ^ 64.
Proof.
  unfold size_ok. intros Hm. pose proof (div_ceil_spec m PAGE ltac:(by unfold PAGE)). pose proof (pages_pos m).
  assert (pages m * PAGE < 2 ^ 64) by (unfold pages, PAGE in *; lia).
  split; [|done]. unfold wrapping_mul. apply Z.mod_small. unfold PAGE in *. lia.
Qed.

Lemma kosten_schritt_None l : foldl kosten_schritt None l = None.
Proof. by induction l. Qed.

Lemma kosten_loop l b n : Forall size_ok l → 0 <= b → 0 <= n → n + Z.of_nat (length l) < 2 ^ 64 →
  foldl kosten_schritt (Some (b, n)) l =
  if b + PAGE * sum_pages l <? 2 ^ 64 then Some (b + PAGE * sum_pages l, n + Z.of_nat (length l))
  else if bool_decide (l = []) then Some (b, n) else None.
Proof.
  intros Hl. revert b n. induction Hl as [|m l Hm Hl IH]; intros b n Hb Hn Hlen.
  - cbn. rewrite Z.mul_0_r, !Z.add_0_r. by destruct (b <? _).
  - cbn [foldl]. destruct (pages_fit m Hm) as [Hp1 Hp2]. pose proof (pages_pos m). pose proof (sum_pages_nonneg l).
    unfold kosten_schritt at 2. cbn [mbind option_bind]. fold (pages m). rewrite Hp1. cbn [length] in Hlen.
    change (sum_pages (m :: l)) with (pages m + sum_pages l).
    unfold checked_add. rewrite (proj2 (Z.ltb_lt (n + 1) _)) by lia.
    destruct (Z.ltb_spec (b + pages m * PAGE) (2 ^ 64)) as [Hlt|Hge]; cbn [mbind option_bind].
    + rewrite IH by (unfold PAGE in *; lia). rewrite (bool_decide_false (m :: l = [])) by done.
      replace (b + pages m * PAGE + PAGE * sum_pages l) with (b + PAGE * (pages m + sum_pages l)) by lia.
      destruct (Z.ltb_spec (b + PAGE * (pages m + sum_pages l)) (2 ^ 64)); [f_equal; f_equal; cbn [length]; lia|].
      case_bool_decide; [subst l|done]. cbn in *. unfold PAGE in *. lia.
    + rewrite kosten_schritt_None, (proj2 (Z.ltb_ge _ _)); [by rewrite bool_decide_false|unfold PAGE in *; lia].
Qed.
End cost.

(** The cost of a program is the sum over its segments, each rounded up to pages and at
    least one, with the stack's four pages; a program of more than sixty segments, or whose
    pages are more than the address width counts, has no cost and is refused. *)
Theorem pd_kosten_exact (l : list Z) :
  Forall size_ok l → Z.of_nat (length l) < 2 ^ 63 →
  Cost.pd_kosten l =
    if (Z.of_nat (length l) <=? 60) && (4096 * (sum_pages l + 4) <? 2 ^ 64)
    then Some (Cost.mk (4096 * sum_pages l) (sum_pages l + 4)
                       (Z.max (Cost.div_ceil (sum_pages l + 4) 512) 1 + 3) (Z.of_nat (length l) + 4))
    else None.
Proof.
  intros Hl Hlen. unfold Cost.pd_kosten. rewrite kosten_loop by (done || lia). pose proof (sum_pages_nonneg l) as Hs.
  rewrite !Z.add_0_l. change (Cost.div_ceil Cost.LOADED_STACK_BYTES Cost.PAGE) with 4. unfold Cost.PAGE, Cost.MAX_IMG_SEGS, Cost.LOADED_STACK_BYTES.
  destruct (Z.ltb_spec (4096 * sum_pages l) (2 ^ 64)) as [Hf|Hf].
  - cbn [mbind option_bind]. unfold checked_add. rewrite (proj2 (Z.ltb_lt (Z.of_nat (length l) + 4) _)) by lia. cbn [mbind option_bind].
    destruct (Z.leb_spec (Z.of_nat (length l)) 60), (Z.ltb_spec 64 (Z.of_nat (length l) + 4)); try lia; [|done]. cbn [andb].
    replace (4096 * sum_pages l + 16 * 1024) with (4096 * (sum_pages l + 4)) by lia.
    destruct (Z.ltb_spec (4096 * (sum_pages l + 4)) (2 ^ 64)) as [Hg|Hg]; [|done]. cbn [mbind option_bind]. cbv zeta.
    assert (Cost.div_ceil (4096 * (sum_pages l + 4)) 4096 = sum_pages l + 4) as ->.
    { unfold Cost.div_ceil. by rewrite Z.mul_comm, Z_mod_mult, Z.div_mul, Z.add_0_r by lia. }
    pose proof (div_ceil_spec (sum_pages l + 4) 512 ltac:(lia)).
    rewrite !wrapping_add_exact by (unfold in_width; rewrite ?wrapping_add_exact by (unfold in_width; lia); lia).
    f_equal. f_equal. lia.
  - rewrite (proj2 (Z.ltb_ge (4096 * (sum_pages l + 4)) _)) by lia. rewrite andb_false_r.
    case_bool_decide; [subst l; cbn in Hf; lia|done].
Qed.

(** The rounding wraps for a size in the last page: the largest segment of all costs nothing. *)
Lemma kosten_wrap : Cost.pd_kosten [2 ^ 64 - 1] = Some (Cost.mk 0 4 4 5).
Proof. reflexivity. Qed.

(** ** Replacing *)
Section exec.
Import Exec.

Lemma token_mirror p e : teardown_token_fuer p e = Proc.teardown_token_fuer p e.
Proof.
  unfold teardown_token_fuer, Proc.teardown_token_fuer, Proc.bytes_le. cbn [app]. change runde with Proc.falten.
  change basis with Proc.BASIS. reflexivity.
Qed.

Lemma bytes_le_parts x : in_width 32 x →
  Proc.bytes_le x = [x mod 256; x / 256 mod 256; x / 65536 mod 256; x / 16777216 mod 256].
Proof.
  intros _. unfold Proc.bytes_le. change 0xff with (Z.ones 8). rewrite !Z.land_ones, !Z.shiftr_div_pow2 by lia. done.
Qed.
Lemma bytes_le_range x : Forall (λ b, 0 <= b < 256) (Proc.bytes_le x).
Proof.
  unfold Proc.bytes_le. change 0xff with (Z.ones 8). rewrite !Z.land_ones by lia.
  repeat constructor; apply Z.mod_pos_bound; lia.
Qed.
Lemma parts_whole x : in_width 32 x →
  x = x mod 256 + 256 * (x / 256 mod 256) + 65536 * (x / 65536 mod 256) + 16777216 * (x / 16777216 mod 256).
Proof.
  unfold in_width. intros Hx. change 65536 with (256 * 256). change 16777216 with (256 * 256 * 256).
  rewrite <-!Z.div_div by lia. pose proof (Z.div_mod x 256 ltac:(lia)). set (a := x / 256) in *.
  pose proof (Z.div_mod a 256 ltac:(lia)). set (b := a / 256) in *. pose proof (Z.div_mod b 256 ltac:(lia)).
  set (c := b / 256) in *. rewrite (Z.mod_small c); [lia|]. split.
  - repeat apply Z.div_pos; lia.
  - repeat (apply Z.div_lt_upper_bound; [lia|]). lia.
Qed.
Lemma bytes_le_inj x y : in_width 32 x → in_width 32 y → Proc.bytes_le x = Proc.bytes_le y → x = y.
Proof.
  intros Hx Hy. rewrite !bytes_le_parts by done. intros [= E0 E1 E2 E3]. rewrite (parts_whole x), (parts_whole y) by done.
  by rewrite E0, E1, E2, E3.
Qed.
Lemma fold_width h l : in_width 64 h → in_width 64 (foldl Proc.falten h l).
Proof.
  revert h. induction l as [|b l IH]; intros h Hh; [done|]. cbn. apply IH. apply Z.mod_pos_bound. lia.
Qed.

Lemma token_nonzero p e : teardown_token_fuer p e ≠ 0.
Proof. rewrite token_mirror. unfold Proc.teardown_token_fuer. by case_match; [|apply Z.eqb_neq]. Qed.

(** The tokens of two epochs of a program differ. *)
Lemma token_epochs p e e' : in_width 32 e → in_width 32 e' →
  teardown_token_fuer p e = teardown_token_fuer p e' → e = e'.
Proof.
  intros He He'. rewrite (token_mirror p e), (token_mirror p e'). unfold Proc.teardown_token_fuer. rewrite !foldl_app.
  assert (in_width 64 (foldl Proc.falten Proc.BASIS (Proc.bytes_le p))) as Hh by (apply fold_width; unfold in_width, Proc.BASIS; lia).
  revert Hh. generalize (foldl Proc.falten Proc.BASIS (Proc.bytes_le p)) as h. intros h Hh.
  pose proof (fold_inj h (Proc.bytes_le e) (Proc.bytes_le e') Hh eq_refl eq_refl (bytes_le_range e) (bytes_le_range e')) as Hinj.
  pose proof (fold_zero_one h (Proc.bytes_le e) (Proc.bytes_le e') Hh eq_refl eq_refl (bytes_le_range e) (bytes_le_range e')) as H01.
  pose proof (fold_zero_one h (Proc.bytes_le e') (Proc.bytes_le e) Hh eq_refl eq_refl (bytes_le_range e') (bytes_le_range e)) as H10.
  cbv zeta. destruct (Z.eqb_spec (foldl Proc.falten h (Proc.bytes_le e)) 0) as [E|], (Z.eqb_spec (foldl Proc.falten h (Proc.bytes_le e')) 0) as [E'|].
  - intros _. apply bytes_le_inj; [done..|]. apply Hinj. congruence.
  - intros E1. by destruct (H01 E).
  - intros E1. by destruct (H10 E').
  - intros E1. by apply bytes_le_inj, Hinj.
Qed.
End exec.

(** A request to replace a program is granted exactly for the token of the program's
    present epoch, between one and sixty-four segments and an entry inside the user's
    half; and the token of any other epoch of the same program is refused as stale,
    whatever else the request says. *)
Theorem exec_request_exact (program_id epoche token eintrag nseg : Z) :
  in_width 32 epoche → 0 <= nseg → 0 <= eintrag →
  (Forkexec.exec_antrag_pruefen program_id epoche token eintrag nseg = Ok tt ↔
     token = Forkexec.teardown_token program_id epoche ∧ 1 <= nseg <= 64 ∧ 1 <= eintrag < 2 ^ 47) ∧
  ∀ epoche', in_width 32 epoche' → epoche' ≠ epoche →
    Forkexec.exec_antrag_pruefen program_id epoche' (Forkexec.teardown_token program_id epoche) eintrag nseg
      = Err Proc.ERR_STALE_TOKEN.
Proof.
  intros He Hn Hein. unfold Forkexec.exec_antrag_pruefen, Exec.pruefe_exec_antrag, Forkexec.teardown_token, Exec.MAX_SEGS, Exec.USER_VA_TOP.
  pose proof (token_nonzero program_id epoche) as Hnz. split.
  - destruct (Z.eqb_spec token 0) as [->|Ht]; [split; [done|intros [? _]; congruence]|].
    destruct (Z.eqb_spec token (Exec.teardown_token_fuer program_id epoche)); cbn [negb]; [|by split; [|intros [? _]]].
    destruct (Z.eqb_spec nseg 0), (Z.ltb_spec 64 nseg); cbn [orb]; try by (split; [done|lia]).
    destruct (Z.eqb_spec eintrag 0), (Z.leb_spec (2 ^ 47) eintrag); cbn [orb]; try by (split; [done|lia]).
    by split; [intros _; split_and!; lia|].
  - intros e' He' Hne. rewrite (proj2 (Z.eqb_neq _ _) Hnz).
    destruct (Z.eqb_spec (Exec.teardown_token_fuer program_id epoche) (Exec.teardown_token_fuer program_id e')) as [E|]; [|done].
    by apply token_epochs in E.
Qed.

(** ** Copying *)
Section snapshot.
Import Snapshot.
Implicit Types (s : SnapSeg.t) (segs : list SnapSeg.t).

(** A piece the words of the request can hold. *)
Definition seg_width s : Prop := in_width 64 (SnapSeg.va s) ∧ in_width 64 (SnapSeg.len s).
Definition aligned s : Prop := 1 <= SnapSeg.len s ∧ SnapSeg.va s mod 4096 = 0 ∧ SnapSeg.len s mod 4096 = 0.
Definition apart s t : Prop :=
  SnapSeg.va s + SnapSeg.len s <= SnapSeg.va t ∨ SnapSeg.va t + SnapSeg.len t <= SnapSeg.va s.
Definition total segs : Z := foldr (λ s n, SnapSeg.len s + n) 0 segs.

Lemma krumm_false s : seg_width s → krumm s = false ↔ aligned s.
Proof.
  unfold seg_width, in_width, krumm, aligned, PAGE. intros [_ Hl]. rewrite !orb_false_iff, !negb_false_iff, !Z.eqb_eq, Z.eqb_neq. lia.
Qed.

(** The saturating end does not hide an overlap: the last page ends above it. *)
Lemma treffen_false s t : seg_width s → seg_width t → aligned s → aligned t → treffen s t = false ↔ apart s t.
Proof.
  unfold seg_width, in_width, aligned, treffen, apart, saturating_add. intros [? ?] [? ?] (? & Hs & _) (? & Ht & _).
  pose proof (Z.div_mod (SnapSeg.va s) 4096 ltac:(lia)). pose proof (Z.div_mod (SnapSeg.va t) 4096 ltac:(lia)).
  rewrite andb_false_iff, !Z.ltb_ge. lia.
Qed.

Lemma summe_von_Ok n segs r : Forall seg_width segs → 0 <= n →
  summe_von n segs = Ok r ↔ Forall aligned segs ∧ r = n + total segs ∧ (segs = [] ∨ n + total segs < 2 ^ 64).
Proof.
  intros Hw. revert n. induction Hw as [|s segs Hs Hw IH]; intros n Hn; cbn [summe_von].
  { unfold total. cbn. rewrite Z.add_0_r. split; [intros [= ->]; by auto|by intros (_ & -> & _)]. }
  change (total (s :: segs)) with (SnapSeg.len s + total segs). rewrite Forall_cons.
  pose proof (krumm_false s Hs) as Hk. destruct (krumm s).
  { split; [done|]. intros ([Ha _] & _). by apply Hk in Ha. }
  assert (aligned s) as Ha by (by apply Hk).
  assert (0 <= total segs) as Ht.
  { clear -Hw. induction Hw as [|s segs Hs _ IH]; [done|]. unfold seg_width, in_width in Hs. unfold total in *. cbn. lia. }
  destruct Hs as [_ Hl]. unfold in_width, aligned in *. unfold checked_add. destruct (Z.ltb_spec (n + SnapSeg.len s) (2 ^ 64)).
  - rewrite IH by lia. split.
    + intros (? & -> & [->|]); split_and!; try done; try lia. right. unfold total. cbn. lia.
    + intros ([_ ?] & -> & [?|?]); [done|]. split_and!; [done|lia|right; lia].
  - split; [done|]. intros (_ & _ & [?|?]); [done|lia].
Qed.

Lemma ueberlappung_false segs : Forall seg_width segs → Forall aligned segs →
  ueberlappung segs = false ↔ ∀ i j s t, i ≠ j → segs !! i = Some s → segs !! j = Some t → apart s t.
Proof.
  intros Hw Ha. induction Hw as [|s segs Hs Hw IH]; [by split|]. inversion Ha as [|?? Ha1 Ha2]; subst. cbn [ueberlappung].
  rewrite orb_false_iff, IH by done.
  assert (existsb (treffen s) segs = false ↔ ∀ t, t ∈ segs → apart s t) as ->.
  { clear IH. induction segs as [|t segs IH2]; [split; [set_solver|done]|]. apply Forall_cons in Hw as [??], Ha2 as [??].
    cbn. rewrite orb_false_iff, IH2 by first [done|by constructor]. rewrite treffen_false by done. set_solver. }
  unfold apart. split.
  - intros [H1 H2] [|i] [|j] x y Hij Hx Hy; [done| | |by apply (H2 i j); [lia| |]].
    + injection Hx as ->. apply H1. by eapply list_elem_of_lookup_2.
    + injection Hy as ->. apply or_comm, H1. by eapply list_elem_of_lookup_2.
  - intros H. split; [|intros i j x y Hij; apply (H (S i) (S j)); lia].
    intros t [i Hi]%list_elem_of_lookup_1. by apply (H 0%nat (S i)).
Qed.

(** The plans that are judged good. *)
Record plan_good segs (sum : Z) : Prop := {
  pg_some : segs ≠ [];
  pg_count : (length segs <= 64)%nat;
  pg_aligned : Forall aligned segs;
  pg_apart : ∀ i j s t, i ≠ j → segs !! i = Some s → segs !! j = Some t → apart s t;
  pg_sum : sum = total segs;
  pg_limit : sum <= SNAPSHOT_MAX_BYTES }.

Lemma snapshot_plan_good segs sum : Forall seg_width segs →
  pruefe_snapshot_plan segs = Ok sum ↔ plan_good segs sum.
Proof.
  intros Hw. unfold pruefe_snapshot_plan, MAX_SEGS. case_bool_decide as Hne; [split; [done|by intros []]|].
  destruct (Z.ltb_spec 64 (Z.of_nat (length segs))) as [Hl|Hl]; [split; [done|intros []; lia]|].
  pose proof (summe_von_Ok 0 segs) as Hs. destruct (summe_von 0 segs) as [n|e].
  - destruct (proj1 (Hs n Hw ltac:(lia)) eq_refl) as (Ha & -> & _). clear Hs.
    pose proof (ueberlappung_false segs Hw Ha) as Hu. destruct (ueberlappung segs).
    { split; [done|]. intros []. by assert (true = false) by (by apply Hu). }
    destruct (Z.ltb_spec SNAPSHOT_MAX_BYTES (0 + total segs)); [split; [done|intros []; lia]|].
    split; [intros [= <-]; split; try done; [lia|by apply Hu]|]. intros []. f_equal. lia.
  - split; [done|]. intros [_ _ Ha _ -> Hlim]. unfold SNAPSHOT_MAX_BYTES in Hlim.
    assert (Err e = Ok (total segs)) by (apply Hs; [done|lia|split_and!; [done|lia|right; lia]]). done.
Qed.
End snapshot.

(** The request as pieces. *)
Definition pieces (vas : list (Z * Z)) : list Snapshot.SnapSeg.t := (λ '(va, l), Snapshot.SnapSeg.mk va l) <$> vas.

(** A plan to copy an address space is accepted exactly when it names between one and
    sixty-four pieces (and no more than the scratch space has room for), each a run of whole
    pages, no two with a byte in common, of at most eight megabytes together and at most the
    caller's limit if it set one; the answer is their number and their exact sum, and the plan
    is in the scratch space, in order, with what was behind it untouched. *)
Theorem fork_plan_exact (vas : list (Z * Z)) (max_len : Z) (plan plan' : list Snapshot.SnapSeg.t) (n summe : Z) :
  Forall seg_width (pieces vas) →
  Forkexec.fork_plan_pruefen vas max_len plan = (Ok (n, summe), plan') ↔
    plan_good (pieces vas) summe ∧ n = Z.of_nat (length vas) ∧ (length vas <= length plan)%nat ∧
    (max_len = 0 ∨ summe <= max_len) ∧ plan' = pieces vas ++ drop (length vas) plan.
Proof.
  intros Hw. unfold Forkexec.fork_plan_pruefen, Snapshot.MAX_SEGS. fold (pieces vas).
  assert (length (pieces vas) = length vas) as Hl by apply length_fmap.
  case_bool_decide as Hne; [split; [done|intros ([H] & _); by subst vas]|].
  destruct (Z.ltb_spec 64 (Z.of_nat (length vas))); cbn [orb]; [split; [done|intros ([] & _); lia]|].
  destruct (Nat.ltb_spec (length plan) (length vas)); [split; [done|lia]|]. cbv zeta.
  rewrite <-Hl at 1. rewrite take_app_length.
  pose proof (snapshot_plan_good (pieces vas)) as Hg. destruct (Snapshot.pruefe_snapshot_plan (pieces vas)) as [s|e].
  - assert (plan_good (pieces vas) s) as Hs by (by apply Hg).
    destruct (Z.eqb_spec max_len 0) as [->|]; cbn [negb andb].
    + split; [intros [= <- <- <-]; by auto 6|]. intros ([] & -> & _ & _ & ->). destruct Hs. by simplify_eq.
    + destruct (Z.ltb_spec max_len s).
      * split; [done|]. intros ([] & _ & _ & ? & _). destruct Hs. simplify_eq. lia.
      * split; [intros [= <- <- <-]; by auto 6|]. intros ([] & -> & _ & _ & ->). destruct Hs. by simplify_eq.
  - split; [done|]. intros [Hp _]. by apply Hg in Hp.
Qed.

(** ** At concrete inputs *)

(** An archive of one program, an image of two bytes, and an image of one segment. *)
Definition demo_archive : list Z :=
  le_bytes 4 Archive.MAGIC ++ le_bytes 4 3 ++ le_bytes 4 1 ++ le_bytes 4 130 ++ le_bytes 4 0 ++ le_bytes 4 0 ++ le_bytes 8 0
  ++ (109 :: replicate 15 0) ++ le_bytes 4 7 ++ le_bytes 4 1 ++ le_bytes 4 2 ++ le_bytes 4 0
  ++ le_bytes 4 128 ++ le_bytes 4 2 ++ le_bytes 4 0 ++ le_bytes 4 0 ++ replicate 32 9 ++ le_bytes 4 0 ++ le_bytes 4 0 ++ le_bytes 8 0
  ++ [42; 43].
Definition demo_program : Program.t := Program.new 7 (109 :: replicate 15 0) 1 2 (replicate 32 9) [42; 43] [] [].

Lemma archive_bounds_witness :
  bytes_ok demo_archive ∧ is_Some (Archive.parse demo_archive) ∧
  Archive.parse demo_archive = Some (Ok (Archive.mk demo_archive 1 [])) ∧
  Archive.iter (Archive.mk demo_archive 1 []) = Some [demo_program] ∧ Program.name demo_program = [109] ∧
  Archive.program (Archive.mk demo_archive 1 []) 1 = Some None.
Proof.
  assert (bytes_ok demo_archive) as Hd by (by apply bytes_ok_true).
  assert (Archive.parse demo_archive = Some (Ok (Archive.mk demo_archive 1 []))) as Hp by (by vm_compute).
  destruct (archive_bounds demo_archive Hd) as [Hr Hall]. destruct (Hall _ Hp) as (_ & _ & _ & Hn).
  split_and!; [done|done|done|by vm_compute|by vm_compute|by apply Hn].
Defined.

Definition demo_elf : list Z :=
  ElfImage.ELF_MAGIC ++ [2; 1] ++ replicate 10 0 ++ le_bytes 2 2 ++ le_bytes 2 ElfImage.EM_X86_64 ++ le_bytes 4 1
  ++ le_bytes 8 0x400000 ++ le_bytes 8 64 ++ le_bytes 8 0 ++ le_bytes 6 0 ++ le_bytes 2 56 ++ le_bytes 2 1 ++ le_bytes 6 0
  ++ le_bytes 4 1 ++ le_bytes 4 5 ++ le_bytes 8 120 ++ le_bytes 8 0x400000 ++ le_bytes 8 0 ++ le_bytes 8 2 ++ le_bytes 8 16
  ++ le_bytes 8 0 ++ [42; 43].

Lemma elf_bounds_witness :
  bytes_ok demo_elf ∧ len demo_elf < 2 ^ 64 ∧ is_Some (ElfImage.parse ElfImage.EM_X86_64 demo_elf) ∧
  ElfImage.parse ElfImage.EM_X86_64 demo_elf = Some (Ok (ElfImage.mk demo_elf 0x400000 64 1)) ∧
  ElfImage.segments (ElfImage.mk demo_elf 0x400000 64 1) = Some [ElfImage.Segment.mk 0x400000 120 2 16 5] ∧
  ElfImage.segment_bytes (ElfImage.mk demo_elf 0x400000 64 1) (ElfImage.Segment.mk 0x400000 120 2 16 5) = [42; 43] ∧
  ElfImage.parse ElfImage.EM_AARCH64 demo_elf = Some (Err BadElf).
Proof.
  assert (bytes_ok demo_elf) as Hd by (by apply bytes_ok_true). assert (len demo_elf < 2 ^ 64) as Hl by (by vm_compute).
  destruct (elf_bounds ElfImage.EM_X86_64 demo_elf Hd Hl) as [Hr _].
  split_and!; [done|done|done|by vm_compute..].
Defined.

Lemma pd_kosten_exact_witness :
  Forall size_ok [5000; 0] ∧ Cost.pd_kosten [5000; 0] = Some (Cost.mk 12288 7 4 6).
Proof.
  assert (Forall size_ok [5000; 0]) as H by (by repeat constructor). split; [done|].
  by rewrite (pd_kosten_exact [5000; 0] H eq_refl).
Defined.

Lemma exec_request_exact_witness :
  Forkexec.exec_antrag_pruefen 1 0 (Forkexec.teardown_token 1 0) 0x400000 2 = Ok tt ∧
  Forkexec.exec_antrag_pruefen 1 1 (Forkexec.teardown_token 1 0) 0x400000 2 = Err Proc.ERR_STALE_TOKEN.
Proof.
  destruct (exec_request_exact 1 0 (Forkexec.teardown_token 1 0) 0x400000 2) as [Hok Hst]; [by unfold in_width|done|done|].
  split; [apply Hok; split_and!; done|]. apply Hst; [by unfold in_width|done].
Defined.

Lemma fork_plan_exact_witness :
  Forall seg_width (pieces [(0, 4096); (8192, 4096)]) ∧
  Forkexec.fork_plan_pruefen [(0, 4096); (8192, 4096)] 8192 (replicate 3 (Snapshot.SnapSeg.mk 0 0)) =
    (Ok (2, 8192), pieces [(0, 4096); (8192, 4096); (0, 0)]).
Proof.
  assert (Forall seg_width (pieces [(0, 4096); (8192, 4096)])) as Hw by (by repeat constructor). split; [done|].
  apply (fork_plan_exact _ _ _ _ _ _ Hw). split; [|split_and!; [done|cbn; lia|by right|done]].
  split; [done|cbn; lia|by repeat constructor| |done|done].
  intros [|[|i]] [|[|j]] s t Hij; cbn; try done.
  - intros [= <-] [= <-]. by left.
  - intros [= <-] [= <-]. by right.
Defined.
