(* ===== verification/Manifest.v ===== *)
(** * Certificates and the system manifest

    [src/crates/caprock-loader/src/cert.rs]: the parser of the certificate of a trusted
    program.  [src/crates/caprock-loader/src/manifest.rs]: the parser of the signed
    document that hands out the authority at boot, the gate to its entries and their
    audit.  The check of a signature is the caller's, a parameter of [verify_with]. *)

From S2P Require Import Prelude.
From S2P Require Import Bytes.
From S2P Require Import Loader.
Import LoaderError.
#[local] Open Scope Z_scope.

(** [rd_u16] and [rd_u32] of both files index, and panic behind the end. *)
Definition rd_u16 (d : list Z) (off : nat) : LR Z := must (le_at d off 2).
Definition rd_u32 (d : list Z) (off : nat) : LR Z := must (le_at d off 4).

(** ** Certificates *)
Module TrustedCert.
Definition CERT_MAGIC : Z := 0x54534331.
Definition CERT_FORMAT_VERSION : Z := 1.
Definition CERT_HEADER_LEN : Z := 152.
Definition CERT_MIN_LEN : Z := CERT_HEADER_LEN + 1.
Definition UNSAFE_PROGRAM_FORBID : Z := Z.shiftl 1 0.
Definition UNSAFE_PROJECT_CLEAN : Z := Z.shiftl 1 1.
Definition UNSAFE_ALLOWLIST_OK : Z := Z.shiftl 1 2.
Definition UNSAFE_ALL_PASS : Z := Z.lor (Z.lor UNSAFE_PROGRAM_FORBID UNSAFE_PROJECT_CLEAN) UNSAFE_ALLOWLIST_OK.

Record t := mk {
  cert_format_version : Z; sig_format_version : Z; signature_algorithm_id : Z; certificate_policy_id : Z;
  build_rules_version : Z; audit_protocol_version : Z; unsafe_rules_version : Z; allowlist_rules_version : Z;
  flags : Z; program_id : Z; version : Z; binary_hash : list Z; manifest_hash : list Z; key_id : list Z;
  unsafe_status : Z; unsafe_audit_hash : list Z; build_info : list Z; message : list Z; signature : list Z }.
#[global] Instance eq_dec : EqDecision t.
Proof. solve_decision. Defined.

Definition parse (data : list Z) : LR t :=
  if len data <? CERT_MIN_LEN then fail BadCert
  else
    magic ←! rd_u32 data 0;
    if negb (magic =? CERT_MAGIC) then fail BadCert
    else
      cert_format_version ←! rd_u16 data 4;
      if negb (cert_format_version =? CERT_FORMAT_VERSION) then fail BadCert
      else
        build_info_len ←! rd_u16 data 150;
        let msg_len := CERT_HEADER_LEN + build_info_len in
        if len data <=? msg_len then fail BadCert
        else
          binary_hash ←! must (slice data 34 32);
          manifest_hash ←! must (slice data 66 32);
          key_id ←! must (slice data 98 16);
          unsafe_audit_hash ←! must (slice data 118 32);
          sig_format_version ←! rd_u16 data 6;
          signature_algorithm_id ←! rd_u16 data 8;
          certificate_policy_id ←! rd_u32 data 10;
          build_rules_version ←! rd_u16 data 14;
          audit_protocol_version ←! rd_u16 data 16;
          unsafe_rules_version ←! rd_u16 data 18;
          allowlist_rules_version ←! rd_u16 data 20;
          flags ←! rd_u16 data 22;
          program_id ←! rd_u32 data 26;
          version ←! rd_u32 data 30;
          unsafe_status ←! rd_u32 data 114;
          build_info ←! must (get data CERT_HEADER_LEN msg_len);
          message ←! must (get data 0 msg_len);
          signature ←! must (get data msg_len (len data));
          Some (Ok (mk cert_format_version sig_format_version signature_algorithm_id certificate_policy_id
                      build_rules_version audit_protocol_version unsafe_rules_version allowlist_rules_version
                      flags program_id version binary_hash manifest_hash key_id unsafe_status unsafe_audit_hash
                      build_info message signature)).

Definition unsafe_all_pass (self : t) : bool := Z.land (unsafe_status self) UNSAFE_ALL_PASS =? UNSAFE_ALL_PASS.
End TrustedCert.

(** ** The manifest *)
Definition MANIFEST_MAGIC : Z := 0x534C4B4D.
Definition MANIFEST_FORMAT_VERSION : Z := 3.
Definition MANIFEST_FORMAT_VERSION_V2 : Z := 2.
Definition MANIFEST_FORMAT_VERSION_V1 : Z := 1.
Definition HEADER_LEN : Z := 80.
Definition ENTRY_LEN : Z := 96.
Definition ENTRY_LEN_V2 : Z := 100.
Definition ENTRY_LEN_V3 : Z := 116.
Definition ENTRY_KEY_ID_OFF : nat := 100.
Definition KEY_ID_NONE : list Z := replicate 16 0.
Definition MAX_ENTRIES : Z := 64.

Definition CAP_LOADER : Z := Z.shiftl 1 0.
Definition CAP_PD_CONTROL : Z := Z.shiftl 1 1.
Definition CAP_NOTIFICATION : Z := Z.shiftl 1 2.
Definition CAP_ENDPOINT : Z := Z.shiftl 1 3.
Definition CAP_MMIO : Z := Z.shiftl 1 4.
Definition CAP_IRQ : Z := Z.shiftl 1 5.
Definition CAP_DMA : Z := Z.shiftl 1 6.
Definition CAP_SHARED : Z := Z.shiftl 1 7.
Definition CAP_KNOWN : Z :=
  foldl Z.lor CAP_LOADER [CAP_PD_CONTROL; CAP_NOTIFICATION; CAP_ENDPOINT; CAP_MMIO; CAP_IRQ; CAP_DMA; CAP_SHARED].
Definition POLICY_EXCLUSIVE_STRIPE : Z := Z.shiftl 1 0.
Definition POLICY_ROOT_TASK : Z := Z.shiftl 1 1.
Definition POLICY_PINNED : Z := Z.shiftl 1 2.
Definition POLICY_NO_HOTRELOAD : Z := Z.shiftl 1 3.
Definition POLICY_DEBUGGABLE : Z := Z.shiftl 1 4.
Definition POLICY_PROVIDES_SERVICE : Z := Z.shiftl 1 5.
Definition POLICY_KNOWN : Z :=
  foldl Z.lor POLICY_EXCLUSIVE_STRIPE
    [POLICY_ROOT_TASK; POLICY_PINNED; POLICY_NO_HOTRELOAD; POLICY_DEBUGGABLE; POLICY_PROVIDES_SERVICE].
Definition ANY_CORE : Z := max_value 32.
Definition ANY16 : Z := 0xFFFF.
Definition ANY32 : Z := 0xFFFFFFFF.
(** [!x] on 32 bits. *)
Definition not32 (x : Z) : Z := Z.lxor x (max_value 32).

Module DeviceSelector.
Record t := mk { vendor : Z; device : Z; class : Z }.
#[global] Instance eq_dec : EqDecision t.
Proof. solve_decision. Defined.
Definition ANY : t := mk ANY16 ANY16 ANY32.
Definition is_any (self : t) : bool := bool_decide (self = ANY).
Definition matches (self : t) (vendor' device' class' : Z) : bool :=
  ((vendor self =? ANY16) || (vendor self =? vendor')) &&
  ((device self =? ANY16) || (device self =? device')) &&
  ((class self =? ANY32) || (class self =? class')).
End DeviceSelector.

Module Entry.
Record t := mk {
  name_bytes : list Z; program_id : Z; domain : Z; iface_version : Z; initial_caps : Z; sha256 : list Z;
  policy_flags : Z; numa_node : Z; core_affinity : Z; priority : Z; budget_us : Z; period_us : Z;
  device : DeviceSelector.t; service_id : Z; key_id : list Z }.
#[global] Instance eq_dec : EqDecision t.
Proof. solve_decision. Defined.
Definition name (self : t) : list Z := text (name_bytes self).
Definition is_root_task (self : t) : bool := negb (Z.land (policy_flags self) POLICY_ROOT_TASK =? 0).
Definition hat_reservierung (self : t) : bool := negb (budget_us self =? 0) && negb (period_us self =? 0).
Definition hat_treiber_zeuge (self : t) : bool := negb (bool_decide (key_id self = KEY_ID_NONE)).
Definition treiber_key_id (self : t) : option (list Z) := if hat_treiber_zeuge self then Some (key_id self) else None.
Definition has_unknown_authority (self : t) : bool :=
  negb (Z.land (initial_caps self) (not32 CAP_KNOWN) =? 0) || negb (Z.land (policy_flags self) (not32 POLICY_KNOWN) =? 0).
End Entry.

Module SystemManifest.
Record t := mk {
  format_version : Z; signature_algorithm_id : Z; flags : Z; manifest_version : Z; entry_count : Z; entry_len : Z;
  kernel_hash : list Z; key_id : list Z; entries : list Z; message : list Z; signature : list Z }.
#[global] Instance eq_dec : EqDecision t.
Proof. solve_decision. Defined.

Definition entry_len_ok (format_version entry_len : Z) : bool :=
  (format_version =? MANIFEST_FORMAT_VERSION_V1) && (entry_len =? ENTRY_LEN)
  || (format_version =? MANIFEST_FORMAT_VERSION_V2) && (entry_len =? ENTRY_LEN_V2)
  || (format_version =? MANIFEST_FORMAT_VERSION) && (entry_len =? ENTRY_LEN_V3).

Definition parse (data : list Z) : LR t :=
  if len data <? HEADER_LEN then fail BadManifest
  else
    magic ←! rd_u32 data 0;
    if negb (magic =? MANIFEST_MAGIC) then fail BadManifest
    else
      format_version ←! rd_u16 data 4;
      entry_len ←! rd_u32 data 20;
      if negb (entry_len_ok format_version entry_len) then fail (UnsupportedManifestFormat format_version entry_len)
      else
        entry_count ←! rd_u32 data 16;
        if MAX_ENTRIES <? entry_count then fail BadManifest
        else
          let msg_len := HEADER_LEN + entry_count * entry_len in
          if len data <=? msg_len then fail BadManifest
          else
            kernel_hash ←! must (slice data 24 32);
            key_id ←! must (slice data 56 16);
            signature_algorithm_id ←! rd_u16 data 6;
            flags ←! rd_u32 data 8;
            manifest_version ←! rd_u32 data 12;
            entries ←! must (get data HEADER_LEN msg_len);
            message ←! must (get data 0 msg_len);
            signature ←! must (get data msg_len (len data));
            Some (Ok (mk format_version signature_algorithm_id flags manifest_version entry_count entry_len
                        kernel_hash key_id entries message signature)).

(** A manifest whose signature has been checked; [verify_with] alone makes one. *)
Inductive Verified := verified (m : t).
Definition header (v : Verified) : t := match v with verified m => m end.

Definition verify_with (check : list Z → list Z → bool) (self : t) : result Verified LoaderError.t :=
  if check (message self) (signature self) then Ok (verified self) else Err Unverified.
End SystemManifest.

Module Verified.
Notation t := SystemManifest.Verified.
Definition count (v : t) : Z := SystemManifest.entry_count (SystemManifest.header v).

(** The fields of the entry in the bytes [e], of width [w]. *)
Definition fields (w : Z) (e : list Z) : option Entry.t :=
  sha256 ← slice e 32 32;
  key_id ← (if ENTRY_LEN_V3 <=? w then slice e ENTRY_KEY_ID_OFF 16 else Some KEY_ID_NONE);
  name ← slice e 0 16;
  program_id ← le_at e 16 4;
  domain ← le_at e 20 4;
  iface_version ← le_at e 24 4;
  initial_caps ← le_at e 28 4;
  policy_flags ← le_at e 64 4;
  numa_node ← le_at e 68 4;
  core_affinity ← le_at e 72 4;
  priority ← le_at e 76 4;
  budget_us ← le_at e 80 4;
  period_us ← (if ENTRY_LEN_V2 <=? w then le_at e 96 4 else Some 0);
  v ← le_at e 84 2;
  d ← le_at e 86 2;
  c ← le_at e 88 4;
  let device :=
    if (v =? 0) && (d =? 0) && (c =? 0) then DeviceSelector.ANY else DeviceSelector.mk v d c in
  service_id ← le_at e 92 4;
  Some (Entry.mk name program_id domain iface_version initial_caps sha256 policy_flags numa_node core_affinity
          priority budget_us period_us device service_id key_id).

(** The outer option is a panic, the inner one the source's. *)
Definition entry (v : t) (i : Z) : option (option Entry.t) :=
  if count v <=? i then Some None
  else
    let w := SystemManifest.entry_len (SystemManifest.header v) in
    match get (SystemManifest.entries (SystemManifest.header v)) (wrapping_mul 64 i w) (wrapping_mul 64 (i + 1) w) with
    | None => Some None
    | Some e => Some <$> fields w e
    end.

Definition iter (v : t) : option (list Entry.t) := yields (entry v) (count v).

Definition find (v : t) (program_id : Z) : option (option Entry.t) :=
  es ← iter v;
  Some (List.find (λ e, Entry.program_id e =? program_id) es).

(** The loop of [root_task] over the entries left, [found] what it has met. *)
Fixpoint root_loop (found : option Entry.t) (es : list Entry.t) : option Entry.t :=
  match es with
  | [] => found
  | e :: es =>
    if Entry.is_root_task e then
      match found with Some _ => None | None => root_loop (Some e) es end
    else root_loop found es
  end.
Definition root_task (v : t) : option (option Entry.t) := es ← iter v; Some (root_loop None es).

(** The inner loop of [audit]: an entry behind [i] with the same program. *)
Fixpoint audit_doppelt (v : t) (id : Z) (js : list Z) : option bool :=
  match js with
  | [] => Some false
  | j :: js =>
    b ← entry v j;
    if bool_decide (Entry.program_id <$> b = Some id) then Some true else audit_doppelt v id js
  end.
(** The outer loop: the code it returns, if it returns one. *)
Fixpoint audit_schleife (v : t) (is_ : list Z) : option (option Z) :=
  match is_ with
  | [] => Some None
  | i :: is_ =>
    a ← entry v i;
    match a with
    | None => Some (Some 1)
    | Some a =>
      doppelt ← audit_doppelt v (Entry.program_id a) (seqZ (i + 1) (count v - (i + 1)));
      if (doppelt : bool) then Some (Some 2)
      else if DOMAIN_USERLAND <? Entry.domain a then Some (Some 3)
      else if Entry.has_unknown_authority a then Some (Some 4)
      else audit_schleife v is_
    end
  end.
Definition audit (v : t) : option Z :=
  let n := count v in
  if n =? 0 then Some 1
  else
    r ← audit_schleife v (seqZ 0 n);
    match r with
    | Some code => Some code
    | None =>
      root ← root_task v;
      Some (match root with None => 5 | Some _ => 0 end)
    end.
End Verified.

(** The readings of the first part [m] of a buffer, whatever the part behind it. *)
Ltac settled m s s' :=
  repeat match goal with
  | H : le_at (m ++ s) _ _ = _ |- _ => rewrite le_at_low in H by lia
  | H : slice (m ++ s) _ _ = _ |- _ => rewrite slice_low in H by lia
  | H : get (m ++ s) _ (_ + _) = _ |- _ => rewrite get_low in H by lia
  | |- context [le_at (m ++ s') ?o ?n] => rewrite (le_at_low m s' o n) by lia
  | |- context [slice (m ++ s') ?o ?n] => rewrite (slice_low m s' o n) by lia
  end;
  repeat match goal with
  | H : le_at m ?o ?n = Some _ |- context [le_at m ?o ?n] => rewrite H
  | H : slice m ?o ?n = Some _ |- context [slice m ?o ?n] => rewrite H
  | H : get m ?o ?n = Some _ |- context [get m ?o ?n] => rewrite H
  end;
  cbn [must fmap option_fmap option_map parse_bind].

(** ** Certificates *)
Section cert.
Import TrustedCert.
Implicit Types c : TrustedCert.t.

Ltac reads := repeat (apply parse_bind_runs; [apply must_runs; first [apply le_at_Some; lia|rewrite slice_Some by lia; by eexists|apply get_is_Some; lia]|intros ? ?]).

Lemma rd_bound d off n v : bytes_ok d → must (E:=LoaderError.t) (le_at d off n) = Some (Ok v) → 0 <= v.
Proof. intros Hd H. rewrite must_Ok in H. apply (le_at_width d off n v Hd H). Qed.

Lemma cert_parse_runs d : bytes_ok d → is_Some (parse d).
Proof.
  intros Hd. unfold parse, rd_u16, rd_u32. destruct (Z.ltb_spec (len d) CERT_MIN_LEN) as [|Hl]; [by eexists|].
  unfold CERT_MIN_LEN, CERT_HEADER_LEN in *. assert (153 <= length d)%nat by (unfold len in Hl; lia).
  apply parse_bind_runs; [apply must_runs, le_at_Some; lia|intros mg _]. runs.
  apply parse_bind_runs; [apply must_runs, le_at_Some; lia|intros fv _]. runs.
  apply parse_bind_runs; [apply must_runs, le_at_Some; lia|intros bl Hb%rd_bound]; [|done]. cbv zeta.
  destruct (Z.leb_spec (len d) (152 + bl)); [by eexists|]. reads. by eexists.
Qed.

(** What an accepted certificate is. *)
Lemma cert_parse_Ok d c : bytes_ok d → parse d = Some (Ok c) →
  d = message c ++ signature c ∧ signature c ≠ [] ∧ 152 <= len (message c) ∧
  build_info c = drop 152 (message c) ∧ length (binary_hash c) = 32%nat ∧ length (key_id c) = 16%nat ∧
  length (manifest_hash c) = 32%nat ∧ length (unsafe_audit_hash c) = 32%nat.
Proof.
  intros Hd. unfold parse, rd_u16, rd_u32. intros H. parsed H. injection H as <-. cbn.
  match goal with H : get d 0 _ = Some _, H' : get d _ (len d) = Some _, H'' : get d CERT_HEADER_LEN _ = Some _ |- _ =>
    destruct (get_cut _ _ _ _ H H') as [Hcut Hlen]; rename H' into Hsig; rename H'' into Hbi end.
  repeat match goal with H : slice _ _ _ = Some _ |- _ => apply slice_length in H as [? _] end.
  apply Z.leb_gt in G2. match goal with H : le_at d 150 2 = Some _ |- _ => apply le_at_width in H; [|done] end.
  unfold in_width, CERT_HEADER_LEN in *. split_and!; try done; try lia.
  - intros ->. apply get_Some in Hsig as (_ & _ & _ & Hz). change (len []) with 0 in Hz. lia.
  - rewrite Hcut, get_low in Hbi by lia. apply get_Some in Hbi as (_ & _ & -> & _).
    change (Z.to_nat 152) with 152%nat. rewrite take_ge; [done|]. rewrite length_drop. unfold len in Hlen. lia.
Qed.

(** The certificate under another signature. *)
Definition resigned c (s : list Z) : TrustedCert.t :=
  mk (cert_format_version c) (sig_format_version c) (signature_algorithm_id c) (certificate_policy_id c)
    (build_rules_version c) (audit_protocol_version c) (unsafe_rules_version c) (allowlist_rules_version c)
    (flags c) (program_id c) (version c) (binary_hash c) (manifest_hash c) (key_id c) (unsafe_status c) (unsafe_audit_hash c)
    (build_info c) (message c) s.

(** Parsing reads the message alone. *)
Lemma cert_parse_message m s s' c : bytes_ok (m ++ s) → s' ≠ [] → parse (m ++ s) = Some (Ok c) → message c = m →
  parse (m ++ s') = Some (Ok (resigned c s')).
Proof.
  intros Hd Hs' H Hm. pose proof (cert_parse_Ok _ _ Hd H) as (_ & _ & Hlen & _). rewrite Hm in Hlen.
  assert (1 <= len s') as Hl' by (unfold len; destruct s'; cbn; [done|lia]).
  assert (len (m ++ s') = len m + len s') as Hlm by (unfold len; rewrite length_app; lia).
  unfold parse, rd_u16, rd_u32 in *. parsed H. injection H as <-. cbn in Hm. subst.
  match goal with H : get (m ++ s) 0 _ = Some _, H' : get (m ++ s) _ (len (m ++ s)) = Some _ |- _ =>
    destruct (get_cut _ _ _ _ H H') as [_ Hn] end.
  assert (152 <= length m)%nat as Hnat by (unfold len in Hlen; lia).
  unfold CERT_MIN_LEN, CERT_HEADER_LEN in *. rewrite (proj2 (Z.ltb_ge _ _)) by lia.
  settled m s s'. rewrite G0, G1, (proj2 (Z.leb_gt _ _)) by lia. rewrite !get_low by lia.
  rewrite <-Hn, get_rest, get_all. rewrite Hn. settled m s s'. done.
Qed.
End cert.

(** The certificate parser answers every buffer; a certificate it accepts is the buffer cut
    into a message and a signature that is not empty, its build information is the rest of
    the message behind the fixed part, and everything else it says is settled by the message:
    behind any other signature the same fields are read. *)
Theorem cert_settled (d : list Z) :
  bytes_ok d →
  is_Some (TrustedCert.parse d) ∧
  ∀ c, TrustedCert.parse d = Some (Ok c) →
    d = TrustedCert.message c ++ TrustedCert.signature c ∧ TrustedCert.signature c ≠ [] ∧
    TrustedCert.build_info c = drop 152 (TrustedCert.message c) ∧
    ∀ s', s' ≠ [] → TrustedCert.parse (TrustedCert.message c ++ s') = Some (Ok (resigned c s')).
Proof.
  intros Hd. split; [by apply cert_parse_runs|]. intros c Hc.
  destruct (cert_parse_Ok d c Hd Hc) as (Hcut & Hs & _ & Hb & _). split_and!; [done..|]. intros s' Hs'.
  apply (cert_parse_message _ (TrustedCert.signature c)); [by rewrite <-Hcut|done|by rewrite <-Hcut|done].
Qed.

(** ** The manifest *)
Section manifest.
Import SystemManifest.
Implicit Types m : SystemManifest.t.

Lemma manifest_parse_runs d : bytes_ok d → is_Some (parse d).
Proof.
  intros Hd. unfold parse, rd_u16, rd_u32, HEADER_LEN. destruct (Z.ltb_spec (len d) 80) as [|Hl]; [by eexists|].
  assert (80 <= length d)%nat by (unfold len in Hl; lia).
  apply parse_bind_runs; [apply must_runs, le_at_Some; lia|intros mg _]. runs.
  apply parse_bind_runs; [apply must_runs, le_at_Some; lia|intros fv _].
  apply parse_bind_runs; [apply must_runs, le_at_Some; lia|intros el Hel%rd_bound]; [|done]. runs.
  apply parse_bind_runs; [apply must_runs, le_at_Some; lia|intros ec Hec%rd_bound]; [|done].
  destruct (MAX_ENTRIES <? ec); [by eexists|]. cbv zeta.
  assert (0 <= ec * el) by lia. destruct (Z.leb_spec (len d) (80 + ec * el)); [by eexists|].
  repeat (apply parse_bind_runs; [apply must_runs; first [apply le_at_Some; lia|rewrite slice_Some by lia; by eexists|apply get_is_Some; lia]|intros ? ?]).
  by eexists.
Qed.

(** What an accepted manifest is. *)
Record parsed_manifest (d : list Z) m : Prop := {
  pm_cut : d = message m ++ signature m;
  pm_signed : signature m ≠ [];
  pm_width : entry_len m ∈ [ENTRY_LEN; ENTRY_LEN_V2; ENTRY_LEN_V3];
  pm_count : 0 <= entry_count m <= MAX_ENTRIES;
  pm_message : len (message m) = HEADER_LEN + entry_count m * entry_len m;
  pm_entries : entries m = drop 80 (message m) }.

Lemma manifest_parse_Ok d m : bytes_ok d → parse d = Some (Ok m) → parsed_manifest d m.
Proof.
  intros Hd. unfold parse, rd_u16, rd_u32. intros H. parsed H. injection H as <-.
  match goal with H : get d 0 _ = Some _, H' : get d _ (len d) = Some _, H'' : get d HEADER_LEN _ = Some _ |- _ =>
    destruct (get_cut _ _ _ _ H H') as [Hcut Hlen]; rename H' into Hsig; rename H'' into Hen end.
  match goal with H : le_at d 16 4 = Some _ |- _ => apply le_at_width in H as [Hec _]; [|done] end.
  rewrite negb_false_iff in G1. apply Z.ltb_ge in G2. apply Z.leb_gt in G3.
  assert (v1 ∈ [ENTRY_LEN; ENTRY_LEN_V2; ENTRY_LEN_V3]) as Hw.
  { unfold entry_len_ok in G1. rewrite !orb_true_iff, !andb_true_iff, !Z.eqb_eq in G1. set_solver. }
  assert (96 <= v1) as Hw2 by (rewrite !elem_of_cons, elem_of_nil in Hw; unfold ENTRY_LEN, ENTRY_LEN_V2, ENTRY_LEN_V3 in Hw; lia).
  split; cbn; try done.
  - intros ->. apply get_Some in Hsig as (_ & _ & _ & Hz). change (len []) with 0 in Hz. lia.
  - unfold HEADER_LEN in *. rewrite Hcut, get_low in Hen by lia. apply get_Some in Hen as (_ & _ & -> & _).
    change (Z.to_nat 80) with 80%nat. rewrite take_ge; [done|]. rewrite length_drop. unfold len in Hlen. lia.
Qed.

Definition manifest_resigned m (s : list Z) : SystemManifest.t :=
  mk (format_version m) (signature_algorithm_id m) (flags m) (manifest_version m) (entry_count m) (entry_len m)
    (kernel_hash m) (key_id m) (entries m) (message m) s.

Lemma manifest_parse_message g s s' m : bytes_ok (g ++ s) → s' ≠ [] → parse (g ++ s) = Some (Ok m) → message m = g →
  parse (g ++ s') = Some (Ok (manifest_resigned m s')).
Proof.
  intros Hd Hs' H Hm. destruct (manifest_parse_Ok _ _ Hd H) as [_ _ Hw Hc Hlen _]. rewrite Hm in Hlen.
  assert (96 <= entry_len m) as Hw2 by (rewrite !elem_of_cons, elem_of_nil in Hw; unfold ENTRY_LEN, ENTRY_LEN_V2, ENTRY_LEN_V3 in Hw; lia).
  assert (1 <= len s') as Hl' by (unfold len; destruct s'; cbn; [done|lia]).
  assert (len (g ++ s') = len g + len s') as Hlm by (unfold len; rewrite length_app; lia).
  unfold parse, rd_u16, rd_u32 in *. parsed H. injection H as <-. cbn in *. subst. unfold HEADER_LEN in *.
  assert (80 <= length g)%nat as Hnat by (unfold len in Hlen; lia).
  rewrite (proj2 (Z.ltb_ge _ _)) by lia. settled g s s'. rewrite G0, G1, G2.
  rewrite (proj2 (Z.leb_gt _ _)) by lia. rewrite !get_low by lia. rewrite <-Hlen, get_rest, get_all. rewrite Hlen.
  settled g s s'. done.
Qed.

(** *** Entries *)
Lemma fields_some w e : Z.of_nat (length e) = w → w ∈ [ENTRY_LEN; ENTRY_LEN_V2; ENTRY_LEN_V3] →
  is_Some (Verified.fields w e).
Proof.
  unfold ENTRY_LEN, ENTRY_LEN_V2, ENTRY_LEN_V3. rewrite !elem_of_cons, elem_of_nil. intros Hl Hw. unfold Verified.fields, ENTRY_LEN_V3, ENTRY_LEN_V2.
  assert (96 <= length e)%nat by lia.
  repeat match goal with
  | |- context [le_at e ?o ?n ≫= _] => destruct (le_at_Some e o n) as [? ->]; [lia|]; cbn [mbind option_bind]
  | |- context [slice e ?o ?n ≫= _] => rewrite (slice_Some e o n) by lia; cbn [mbind option_bind]
  | |- context [(?a <=? w)] => destruct (Z.leb_spec a w); cbn [mbind option_bind]; unfold ENTRY_KEY_ID_OFF
  end.
  all: by eexists.
Qed.

Lemma width_bounds w : w ∈ [ENTRY_LEN; ENTRY_LEN_V2; ENTRY_LEN_V3] → 96 <= w <= 116.
Proof. rewrite !elem_of_cons, elem_of_nil. unfold ENTRY_LEN, ENTRY_LEN_V2, ENTRY_LEN_V3. lia. Qed.

Lemma entry_slice d m i : parsed_manifest d m → 0 <= i < entry_count m →
  ∃ e, slice (message m) (Z.to_nat (80 + i * entry_len m)) (Z.to_nat (entry_len m)) = Some e ∧
    Verified.entry (verified m) i = Some <$> Verified.fields (entry_len m) e ∧
    is_Some (Verified.fields (entry_len m) e).
Proof.
  intros [_ _ Hw Hc Hlen He] Hi. pose proof (width_bounds _ Hw) as Hb. unfold MAX_ENTRIES, HEADER_LEN in *.
  set (w := entry_len m) in *. assert (0 <= i * w /\ i * w + w <= entry_count m * w) as [Hi1 Hi2] by nia.
  assert (entry_count m * w <= 64 * 116) by nia.
  unfold Verified.entry, Verified.count, header. rewrite (proj2 (Z.leb_gt _ _)) by lia. fold w.
  unfold wrapping_mul. rewrite !Z.mod_small by nia. replace ((i + 1) * w) with (i * w + w) by lia.
  rewrite get_slice by lia. rewrite He.
  assert (slice (drop 80 (message m)) (Z.to_nat (i * w)) (Z.to_nat w) = slice (message m) (Z.to_nat (80 + i * w)) (Z.to_nat w)) as ->.
  { unfold len in Hlen. rewrite !slice_Some by (rewrite ?length_drop; lia). rewrite drop_drop. do 3 f_equal. lia. }
  destruct (slice (message m) (Z.to_nat (80 + i * w)) (Z.to_nat w)) as [e|] eqn:E.
  - exists e. split; [done|]. split; [done|]. apply slice_length in E as [El _]. apply fields_some; [lia|done].
  - unfold slice in E. case_decide; [done|]. unfold len in Hlen. lia.
Qed.

(** The entries of a checked manifest. *)
Lemma manifest_iter d m : parsed_manifest d m →
  ∃ es, Verified.iter (verified m) = Some es ∧ Z.of_nat (length es) = entry_count m ∧
    ∀ i : nat, Verified.entry (verified m) (Z.of_nat i) = Some (es !! i).
Proof.
  intros Hp. pose proof (pm_count _ _ Hp) as Hc.
  destruct (yields_all (Verified.entry (verified m)) (entry_count m)) as (es & Hes & Hl & Hat).
  { intros i Hi. destruct (entry_slice d m i Hp Hi) as (e & _ & He & [x Hx]). exists x. by rewrite He, Hx. }
  exists es. split; [done|]. split; [lia|]. intros i. destruct (es !! i) as [x|] eqn:Hi; [by apply Hat|].
  apply lookup_ge_None in Hi. unfold Verified.entry, Verified.count, header. by rewrite (proj2 (Z.leb_le _ _)) by lia.
Qed.
End manifest.

(** C17: The authority of a manifest is what was signed.  The parser answers every buffer; a
    manifest it accepts is the buffer cut into a message and a signature that is not empty;
    its entries can be read only when the check of the two said yes, and then all of them can,
    as many as the header counts; and under any other signature the same message gives the same
    header and the same entries. *)
Theorem manifest_authority_signed (d : list Z) :
  bytes_ok d →
  is_Some (SystemManifest.parse d) ∧
  ∀ m, SystemManifest.parse d = Some (Ok m) →
    d = SystemManifest.message m ++ SystemManifest.signature m ∧ SystemManifest.signature m ≠ [] ∧
    (∀ check : list Z → list Z → bool,
       if check (SystemManifest.message m) (SystemManifest.signature m)
       then ∃ v es, SystemManifest.verify_with check m = Ok v ∧ Verified.iter v = Some es ∧
              Z.of_nat (length es) = Verified.count v ∧ ∀ i : nat, Verified.entry v (Z.of_nat i) = Some (es !! i)
       else SystemManifest.verify_with check m = Err Unverified) ∧
    ∀ s' check v v', s' ≠ [] → SystemManifest.verify_with check m = Ok v →
      SystemManifest.parse (SystemManifest.message m ++ s') = Some (Ok (manifest_resigned m s')) ∧
      (SystemManifest.verify_with check (manifest_resigned m s') = Ok v' →
       ∀ i, Verified.entry v' i = Verified.entry v i).
Proof.
  intros Hd. split; [by apply manifest_parse_runs|]. intros m Hm. pose proof (manifest_parse_Ok d m Hd Hm) as Hp.
  pose proof (pm_cut _ _ Hp) as Hcut. split; [done|]. split; [by destruct Hp|]. unfold SystemManifest.verify_with. split.
  - intros check. destruct (check _ _); [|done]. destruct (manifest_iter d m Hp) as (es & He & Hl & Hat).
    by exists (SystemManifest.verified m), es.
  - intros s' check v v' Hs' Hv. split.
    + apply (manifest_parse_message _ (SystemManifest.signature m)); [by rewrite <-Hcut|done|by rewrite <-Hcut|done].
    + destruct (check (SystemManifest.message m) _); [|done]. injection Hv as <-.
      destruct (check _ _); [|done]. by intros [= <-].
Qed.

(** *** Writing a manifest *)

Definition entry_width (ver : Z) : Z := if ver =? 1 then ENTRY_LEN else if ver =? 2 then ENTRY_LEN_V2 else ENTRY_LEN_V3.

(** The bytes of an entry in the version [ver]. *)
Definition entry_bytes (ver : Z) (e : Entry.t) : list Z :=
  concat [Entry.name_bytes e; le_bytes 4 (Entry.program_id e); le_bytes 4 (Entry.domain e); le_bytes 4 (Entry.iface_version e);
    le_bytes 4 (Entry.initial_caps e); Entry.sha256 e; le_bytes 4 (Entry.policy_flags e); le_bytes 4 (Entry.numa_node e);
    le_bytes 4 (Entry.core_affinity e); le_bytes 4 (Entry.priority e); le_bytes 4 (Entry.budget_us e);
    le_bytes 2 (DeviceSelector.vendor (Entry.device e)); le_bytes 2 (DeviceSelector.device (Entry.device e));
    le_bytes 4 (DeviceSelector.class (Entry.device e)); le_bytes 4 (Entry.service_id e);
    (if ver =? 1 then [] else le_bytes 4 (Entry.period_us e)); (if ver =? 3 then Entry.key_id e else [])].

(** An entry the version can say. *)
Record entry_good (ver : Z) (e : Entry.t) : Prop := {
  eg_name : length (Entry.name_bytes e) = 16%nat;
  eg_sha : length (Entry.sha256 e) = 32%nat;
  eg_key : length (Entry.key_id e) = 16%nat ∧ (ver ≠ 3 → Entry.key_id e = KEY_ID_NONE);
  eg_words : Forall (in_width 32) [Entry.program_id e; Entry.domain e; Entry.iface_version e; Entry.initial_caps e;
    Entry.policy_flags e; Entry.numa_node e; Entry.core_affinity e; Entry.priority e; Entry.budget_us e; Entry.period_us e;
    DeviceSelector.class (Entry.device e); Entry.service_id e];
  eg_device : in_width 16 (DeviceSelector.vendor (Entry.device e)) ∧ in_width 16 (DeviceSelector.device (Entry.device e)) ∧
    Entry.device e ≠ DeviceSelector.mk 0 0 0;
  eg_period : ver = 1 → Entry.period_us e = 0 }.

Lemma entry_length ver e : ver ∈ [1; 2; 3] → entry_good ver e → length (entry_bytes ver e) = Z.to_nat (entry_width ver).
Proof.
  intros Hv [Hn Hs [Hk _] _ _ _]. unfold entry_bytes. cbn [concat]. rewrite !length_app, !length_le_bytes, Hn, Hs.
  rewrite !elem_of_cons, elem_of_nil in Hv. destruct Hv as [->|[->|[->|[]]]]; cbn; by rewrite ?Hk.
Qed.

Lemma width_v3 ver : ver ∈ [1; 2; 3] → (ENTRY_LEN_V3 <=? entry_width ver) = (ver =? 3) ∧ (ENTRY_LEN_V2 <=? entry_width ver) = negb (ver =? 1).
Proof. rewrite !elem_of_cons, elem_of_nil. by intros [->|[->|[->|[]]]]. Qed.

Lemma entry_fields ver e : ver ∈ [1; 2; 3] → entry_good ver e → Verified.fields (entry_width ver) (entry_bytes ver e) = Some e.
Proof.
  intros Hv [Hn Hs [Hk Hk3] Hw (Hdv & Hdd & Hd0) Hp]. repeat (apply Forall_cons in Hw as [? Hw]). clear Hw.
  destruct (width_v3 ver Hv) as [Hw3 Hw2]. unfold Verified.fields, ENTRY_KEY_ID_OFF. rewrite Hw3, Hw2.
  assert ((if ver =? 3 then slice (entry_bytes ver e) 100 16 else Some KEY_ID_NONE) = Some (Entry.key_id e)) as ->.
  { destruct (Z.eqb_spec ver 3) as [->|]; [|by rewrite Hk3]. unfold entry_bytes. piece 16%nat. }
  assert ((if negb (ver =? 1) then le_at (entry_bytes ver e) 96 4 else Some 0) = Some (Entry.period_us e)) as ->.
  { unfold entry_bytes. destruct (Z.eqb_spec ver 1) as [->|]; cbn [negb]; [by rewrite Hp|]. piece 15%nat. }
  unfold entry_bytes.
  repeat match goal with
  | |- context [slice (concat ?ps) 32 32] => assert (slice (concat ps) 32 32 = Some (Entry.sha256 e)) as -> by piece 5%nat
  | |- context [slice (concat ?ps) 0 16] => assert (slice (concat ps) 0 16 = Some (Entry.name_bytes e)) as -> by piece 0%nat
  end.
  repeat match goal with
  | |- context [le_at (concat ?ps) ?o ?n] =>
      let find k v := (assert (le_at (concat ps) o n = Some v) as -> by piece k) in
      first [find 1%nat (Entry.program_id e)|find 2%nat (Entry.domain e)|find 3%nat (Entry.iface_version e)
        |find 4%nat (Entry.initial_caps e)|find 6%nat (Entry.policy_flags e)|find 7%nat (Entry.numa_node e)
        |find 8%nat (Entry.core_affinity e)|find 9%nat (Entry.priority e)|find 10%nat (Entry.budget_us e)
        |find 11%nat (DeviceSelector.vendor (Entry.device e))|find 12%nat (DeviceSelector.device (Entry.device e))
        |find 13%nat (DeviceSelector.class (Entry.device e))|find 14%nat (Entry.service_id e)]
  end.
  cbn [mbind option_bind]. destruct e as [????????????[v d c]??]. cbn in *.
  destruct (Z.eqb_spec v 0), (Z.eqb_spec d 0), (Z.eqb_spec c 0); cbn; try done. by subst.
Qed.

(** The signed bytes of a manifest. *)
Definition message_bytes (ver alg fl mv : Z) (kh kid : list Z) (es : list Entry.t) : list Z :=
  concat (le_bytes 4 MANIFEST_MAGIC :: le_bytes 2 ver :: le_bytes 2 alg :: le_bytes 4 fl :: le_bytes 4 mv ::
    le_bytes 4 (Z.of_nat (length es)) :: le_bytes 4 (entry_width ver) :: kh :: kid :: replicate 8 0 ::
    (entry_bytes ver <$> es)).

Lemma message_length ver alg fl mv kh kid es : ver ∈ [1; 2; 3] → length kh = 32%nat → length kid = 16%nat →
  Forall (entry_good ver) es → len (message_bytes ver alg fl mv kh kid es) = 80 + Z.of_nat (length es) * entry_width ver.
Proof.
  intros Hv Hkh Hkid Hes. unfold message_bytes, len. cbn [concat]. rewrite !length_app, !length_le_bytes, Hkh, Hkid, length_replicate.
  rewrite (concat_uniform _ (Z.to_nat (entry_width ver))).
  - assert (0 <= entry_width ver) by (unfold entry_width; repeat case_match; done). lia.
  - intros x Hx. apply entry_length; [done|]. by eapply Forall_forall.
Qed.

Lemma entry_drop ver alg fl mv kh kid es : length kh = 32%nat → length kid = 16%nat →
  drop 80 (message_bytes ver alg fl mv kh kid es) = concat (entry_bytes ver <$> es).
Proof.
  intros Hkh Hkid. unfold message_bytes. cbn [concat]. rewrite !app_assoc. apply drop_app_length'.
  rewrite !length_app, !length_le_bytes, Hkh, Hkid. done.
Qed.

Lemma manifest_written ver alg fl mv kh kid es sig :
  ver ∈ [1; 2; 3] → in_width 16 alg → in_width 32 fl → in_width 32 mv → length kh = 32%nat → length kid = 16%nat →
  (length es <= 64)%nat → Forall (entry_good ver) es → sig ≠ [] →
  let msg := message_bytes ver alg fl mv kh kid es in
  SystemManifest.parse (msg ++ sig) = Some (Ok (SystemManifest.mk ver alg fl mv (Z.of_nat (length es)) (entry_width ver)
    kh kid (concat (entry_bytes ver <$> es)) msg sig)).
Proof.
  intros Hv Ha Hf Hm Hkh Hkid Hn Hes Hsig. cbv zeta. pose proof (message_length ver alg fl mv kh kid es Hv Hkh Hkid Hes) as Hlen.
  assert (in_width 16 ver ∧ in_width 32 (entry_width ver) ∧ SystemManifest.entry_len_ok ver (entry_width ver) = true ∧ 0 <= entry_width ver)
    as (Hvw & Hew & Hok & Hpos).
  { rewrite !elem_of_cons, elem_of_nil in Hv. by destruct Hv as [->|[->|[->|[]]]]. }
  assert (in_width 32 (Z.of_nat (length es))) as Hc by (unfold in_width; lia).
  assert (1 <= len sig) as Hs by (unfold len; destruct sig; cbn; [done|lia]).
  set (msg := message_bytes ver alg fl mv kh kid es) in *.
  assert (80 <= length msg)%nat as Hl80 by (unfold len in Hlen; lia).
  assert (len (msg ++ sig) = len msg + len sig) as Hlm by (unfold len; rewrite length_app; lia).
  unfold SystemManifest.parse, rd_u16, rd_u32, HEADER_LEN. rewrite (proj2 (Z.ltb_ge _ _)) by lia.
  repeat match goal with
  | |- context [le_at (msg ++ sig) ?o ?n] => rewrite (le_at_low msg sig o n) by lia
  | |- context [slice (msg ++ sig) ?o ?n] => rewrite (slice_low msg sig o n) by lia
  end.
  let find k e v := assert (e = Some v) as -> by (unfold msg, message_bytes; piece k) in
    find 0%nat (le_at msg 0 4) MANIFEST_MAGIC; find 1%nat (le_at msg 4 2) ver; find 2%nat (le_at msg 6 2) alg;
    find 3%nat (le_at msg 8 4) fl; find 4%nat (le_at msg 12 4) mv; find 5%nat (le_at msg 16 4) (Z.of_nat (length es));
    find 6%nat (le_at msg 20 4) (entry_width ver); find 7%nat (slice msg 24 32) kh; find 8%nat (slice msg 56 16) kid.
  cbn [must fmap option_fmap option_map parse_bind]. rewrite Z.eqb_refl, Hok. cbn [negb].
  rewrite (proj2 (Z.ltb_ge _ _)) by (unfold MAX_ENTRIES; lia). rewrite (proj2 (Z.leb_gt _ _)) by lia.
  rewrite !get_low by lia. rewrite <-Hlen, get_rest, get_all.
  assert (get msg 80 (len msg) = Some (concat (entry_bytes ver <$> es))) as ->.
  { rewrite <-(entry_drop ver alg fl mv kh kid es Hkh Hkid). fold msg. unfold get. unfold len in *.
    rewrite !(proj2 (Z.leb_le _ _)) by lia. cbn [andb]. change (Z.to_nat 80) with 80%nat. f_equal. apply take_ge.
    rewrite length_drop. lia. }
  done.
Qed.

(** The entries of the document are those written. *)
Lemma entry_written ver es i e : ver ∈ [1; 2; 3] → Forall (entry_good ver) es → es !! i = Some e →
  slice (concat (entry_bytes ver <$> es)) (Z.to_nat (Z.of_nat i * entry_width ver)) (Z.to_nat (entry_width ver)) = Some (entry_bytes ver e).
Proof.
  intros Hv Hes Hi. assert (0 <= entry_width ver) by (unfold entry_width; repeat case_match; done).
  assert (entry_good ver e) as He by (by eapply Forall_lookup_1).
  apply (slice_piece _ i); [by rewrite list_lookup_fmap, Hi| |by rewrite entry_length].
  rewrite <-fmap_take, (concat_uniform _ (Z.to_nat (entry_width ver))).
  - apply lookup_lt_Some in Hi. rewrite length_take. nia.
  - intros x Hx. apply entry_length; [done|]. eapply Forall_forall; [exact Hes|]. by eapply elem_of_take_1 || (apply list_elem_of_lookup_1 in Hx as [k Hk]; apply lookup_take_Some in Hk as [Hk _]; by eapply list_elem_of_lookup_2).
Qed.

(** C33: A manifest written in any of the three versions is read back: with any signature that is
    not empty it parses to the header written, all of it, the bytes of the entries, the message
    and the signature, and once its check has said yes the entries are those written, in order;
    the fields a version does not have read as said nothing. *)
Theorem manifest_roundtrip (ver alg fl mv : Z) (kh kid sig : list Z) (es : list Entry.t) (check : list Z → list Z → bool) :
  ver ∈ [1; 2; 3] → in_width 16 alg → in_width 32 fl → in_width 32 mv → length kh = 32%nat → length kid = 16%nat →
  (length es <= 64)%nat → Forall (entry_good ver) es → sig ≠ [] →
  let msg := message_bytes ver alg fl mv kh kid es in
  let m := SystemManifest.mk ver alg fl mv (Z.of_nat (length es)) (entry_width ver) kh kid (concat (entry_bytes ver <$> es)) msg sig in
  check msg sig = true →
  SystemManifest.parse (msg ++ sig) = Some (Ok m) ∧
  ∃ v, SystemManifest.verify_with check m = Ok v ∧ SystemManifest.header v = m ∧ Verified.iter v = Some es.
Proof.
  intros Hv Ha Hf Hm Hkh Hkid Hn Hes Hsig msg m Hcheck.
  split; [exact (manifest_written ver alg fl mv kh kid es sig Hv Ha Hf Hm Hkh Hkid Hn Hes Hsig)|]. exists (SystemManifest.verified m).
  split; [unfold SystemManifest.verify_with; by change (SystemManifest.message m) with msg; change (SystemManifest.signature m) with sig; rewrite Hcheck|].
  split; [done|].
  assert (parsed_manifest (msg ++ sig) m) as Hpm.
  { split; [done|done| | |by apply message_length|symmetry; exact (entry_drop ver alg fl mv kh kid es Hkh Hkid)].
    - clear -Hv. rewrite !elem_of_cons, elem_of_nil in Hv |- *. cbn. unfold entry_width. destruct Hv as [->|[->|[->|[]]]]; auto.
    - cbn. unfold MAX_ENTRIES. lia. }
  destruct (manifest_iter _ _ Hpm) as (es' & -> & Hl & Hat). f_equal. cbn in Hl. apply list_eq_same_length with (n := length es); [done|lia|].
  intros i x y Hi Hx Hy. specialize (Hat i). rewrite Hx in Hat.
  pose proof (width_bounds _ (pm_width _ _ Hpm)) as Hw. cbn in Hw.
  unfold Verified.entry, Verified.count in Hat. cbn [SystemManifest.header SystemManifest.entry_count SystemManifest.entry_len SystemManifest.entries m] in Hat.
  rewrite (proj2 (Z.leb_gt _ _)) in Hat by lia. unfold wrapping_mul in Hat. rewrite !Z.mod_small in Hat by nia.
  replace ((Z.of_nat i + 1) * entry_width ver) with (Z.of_nat i * entry_width ver + entry_width ver) in Hat by lia.
  rewrite get_slice, (entry_written ver es i y Hv Hes Hy), entry_fields in Hat; [by injection Hat|done|by eapply Forall_lookup_1|lia|lia].
Qed.

(** ** The audit *)
Section audit.
Implicit Types (v : Verified.t) (es : list Entry.t).
Import Verified.

(** [v] has the entries [es]. *)
Definition holds v es : Prop :=
  count v = Z.of_nat (length es) ∧ iter v = Some es ∧ ∀ i : nat, entry v (Z.of_nat i) = Some (es !! i).

Definition same (id : Z) (e : Entry.t) : bool := Entry.program_id e =? id.

Lemma doppelt_told v es id k : holds v es →
  audit_doppelt v id (seqZ (Z.of_nat k) (count v - Z.of_nat k)) = Some (existsb (same id) (drop k es)).
Proof.
  intros (Hc & _ & Hat). rewrite Hc. remember (length es - k)%nat as n eqn:Hn. revert k Hn. induction n as [|n IH]; intros k Hn.
  - rewrite drop_ge by lia. by rewrite seqZ_nil by lia.
  - destruct (lookup_lt_is_Some_2 es k) as [e He]; [lia|]. rewrite seqZ_cons by lia. cbn [audit_doppelt]. rewrite Hat, He. cbn [mbind option_bind].
    rewrite (drop_S _ _ _ He). cbn [existsb]. unfold same at 1.
    replace (Z.succ (Z.of_nat k)) with (Z.of_nat (S k)) by lia. replace (Z.pred _) with (Z.of_nat (length es) - Z.of_nat (S k)) by lia.
    rewrite IH by lia. case_bool_decide as E; cbn in E.
    + injection E as <-. by rewrite Z.eqb_refl.
    + destruct (Z.eqb_spec (Entry.program_id e) id) as [<-|]; [done|]. done.
Qed.

(** The verdict over a list of entries. *)
Fixpoint verdict es : option Z :=
  match es with
  | [] => None
  | a :: es =>
    if existsb (same (Entry.program_id a)) es then Some 2
    else if DOMAIN_USERLAND <? Entry.domain a then Some 3
    else if Entry.has_unknown_authority a then Some 4
    else verdict es
  end.

Lemma schleife_told v es k : holds v es →
  audit_schleife v (seqZ (Z.of_nat k) (count v - Z.of_nat k)) = Some (verdict (drop k es)).
Proof.
  intros Hh. pose proof Hh as (Hc & _ & Hat). remember (length es - k)%nat as n eqn:Hn. revert k Hn. induction n as [|n IH]; intros k Hn.
  - rewrite drop_ge by lia. by rewrite seqZ_nil by lia.
  - destruct (lookup_lt_is_Some_2 es k) as [e He]; [lia|]. rewrite seqZ_cons by lia. cbn [audit_schleife]. rewrite Hat, He. cbn [mbind option_bind].
    rewrite (drop_S _ _ _ He). cbn [verdict]. replace (Z.succ (Z.of_nat k)) with (Z.of_nat (S k)) by lia.
    replace (Z.of_nat k + 1) with (Z.of_nat (S k)) by lia. rewrite (doppelt_told v es) by done. cbn [mbind option_bind].
    destruct (existsb _ _); [done|]. destruct (_ <? _); [done|]. destruct (Entry.has_unknown_authority e); [done|].
    replace (Z.pred _) with (count v - Z.of_nat (S k)) by lia. apply IH. lia.
Qed.

Lemma audit_told v es : holds v es →
  audit v = Some (if bool_decide (es = []) then 1 else
    match verdict es with Some c => c | None => match root_loop None es with None => 5 | Some _ => 0 end end).
Proof.
  intros Hh. pose proof Hh as (Hc & Hi & _). unfold audit. case_bool_decide as Hes.
  - subst es. by rewrite Hc.
  - rewrite (proj2 (Z.eqb_neq _ _)) by (rewrite Hc; destruct es; cbn; [done|lia]).
    pose proof (schleife_told v es 0 Hh) as Hs. rewrite Z.sub_0_r in Hs. change (Z.of_nat 0) with 0 in Hs. rewrite Hs, drop_0.
    cbn [mbind option_bind]. unfold root_task. rewrite Hi. cbn [mbind option_bind]. by destruct (verdict es), (root_loop None es).
Qed.

Lemma root_loop_Some r es : root_loop (Some r) es = if existsb Entry.is_root_task es then None else Some r.
Proof. induction es as [|e es IH]; [done|]. cbn. by destruct (Entry.is_root_task e). Qed.

(** The root task is the one entry that carries the flag. *)
Lemma root_loop_unique es e : root_loop None es = Some e ↔
  ∃ i, es !! i = Some e ∧ Entry.is_root_task e = true ∧ ∀ j e', es !! j = Some e' → Entry.is_root_task e' = true → j = i.
Proof.
  induction es as [|a es IH]; cbn [root_loop]; [split; [done|by intros (i & Hi & _)]|].
  destruct (Entry.is_root_task a) eqn:Ea.
  - rewrite root_loop_Some. destruct (existsb _ es) eqn:Ex; split; try done.
    + apply existsb_exists in Ex as (b & [k Hk]%list_elem_of_In%list_elem_of_lookup_1 & Hb). intros (i & _ & _ & Hu).
      specialize (Hu 0%nat a eq_refl Ea) as H0. specialize (Hu (S k) b Hk Hb). lia.
    + intros [= <-]. exists 0%nat. split_and!; [done|done|]. intros [|j] e' Hj He'; [done|].
      assert (existsb Entry.is_root_task es = true); [|congruence]. apply existsb_exists. exists e'. split; [|done].
      apply list_elem_of_In. by eapply list_elem_of_lookup_2.
    + intros (i & Hi & He & Hu). rewrite <-(Hu 0%nat a eq_refl Ea) in Hi. cbn in Hi. congruence.
  - rewrite IH. split.
    + intros (i & Hi & He & Hu). exists (S i). split_and!; [done|done|]. intros [|j] e' Hj He'; cbn in Hj; [congruence|].
      by rewrite (Hu j e').
    + intros ([|i] & Hi & He & Hu); cbn in Hi; [congruence|]. exists i. split_and!; [done|done|]. intros j e' Hj He'.
      specialize (Hu (S j) e' Hj He'). lia.
Qed.

Lemma verdict_None es : verdict es = None ↔
  NoDup (Entry.program_id <$> es) ∧ Forall (λ e, Entry.domain e <= 2 ∧ Entry.has_unknown_authority e = false) es.
Proof.
  induction es as [|a es IH]; cbn [verdict]; [split; [by repeat constructor|done]|]. cbn [fmap list_fmap].
  rewrite NoDup_cons, Forall_cons. destruct (existsb _ es) eqn:Ex.
  - split; [done|]. intros [[Hn _] _]. apply existsb_exists in Ex as (b & Hb%list_elem_of_In & Heq%Z.eqb_eq). exfalso. apply Hn.
    rewrite <-Heq. by apply list_elem_of_fmap_2.
  - assert (Entry.program_id a ∉ Entry.program_id <$> es) as Hn.
    { intros (b & Heq & Hb)%list_elem_of_fmap. assert (existsb (same (Entry.program_id a)) es = true); [|congruence].
      apply existsb_exists. exists b. split; [by apply list_elem_of_In|]. by apply Z.eqb_eq. }
    unfold DOMAIN_USERLAND. destruct (Z.ltb_spec 2 (Entry.domain a)).
    { split; [done|]. intros (_ & [? _] & _). lia. }
    destruct (Entry.has_unknown_authority a); [split; [done|by intros (_ & [_ ?] & _)]|]. rewrite IH. tauto.
Qed.

(** A mask of the lowest [k] bits leaves the numbers below [2^k]. *)
Lemma mask_zero k x : 0 <= k <= 32 → in_width 32 x → Z.land x (not32 (Z.ones k)) = 0 ↔ x < 2 ^ k.
Proof.
  unfold in_width, not32. intros Hk Hx. change (max_value 32) with (Z.ones 32).
  assert (Z.land x (Z.lxor (Z.ones k) (Z.ones 32)) = Z.ldiff x (Z.ones k)) as ->.
  { apply Z.bits_inj'. intros i Hi. rewrite Z.land_spec, Z.lxor_spec, Z.ldiff_spec. destruct (Z.ltb_spec i 32).
    - rewrite (Z.ones_spec_low 32) by lia. by destruct (Z.testbit x i), (Z.testbit (Z.ones k) i).
    - assert (Z.testbit x i = false) as ->; [|done]. apply Z.testbit_false; [done|]. rewrite Z.div_small; [done|].
      pose proof (Z.pow_le_mono_r 2 32 i). lia. }
  rewrite Z.ldiff_ones_r, Z.shiftl_eq_0_iff, Z.shiftr_div_pow2 by lia. pose proof (Z.pow_pos_nonneg 2 k) as Hp. split.
  - intros Hq. apply Z.div_small_iff in Hq; lia.
  - intros Hq. apply Z.div_small. lia.
Qed.

Lemma authority_known e : in_width 32 (Entry.initial_caps e) → in_width 32 (Entry.policy_flags e) →
  Entry.has_unknown_authority e = false ↔ Entry.initial_caps e < 256 ∧ Entry.policy_flags e < 64.
Proof.
  intros H1 H2. unfold Entry.has_unknown_authority. change CAP_KNOWN with (Z.ones 8). change POLICY_KNOWN with (Z.ones 6).
  rewrite orb_false_iff, !negb_false_iff, !Z.eqb_eq, !mask_zero by (done || lia). done.
Qed.

Lemma fields_width w b e : bytes_ok b → fields w b = Some e → in_width 32 (Entry.initial_caps e) ∧ in_width 32 (Entry.policy_flags e).
Proof.
  intros Hb H. unfold fields in H. repeat (apply bind_Some in H as (? & ? & H)). injection H as <-. cbn.
  split; by eapply (le_at_width b _ 4).
Qed.

Lemma verdict_code es c : verdict es = Some c → 2 <= c <= 4.
Proof.
  induction es as [|a es IH]; [done|]. cbn [verdict]. destruct (existsb _ es); [intros [= <-]; lia|].
  destruct (_ <? _); [intros [= <-]; lia|]. destruct (Entry.has_unknown_authority a); [intros [= <-]; lia|done].
Qed.

Lemma entries_known es : (∀ e, e ∈ es → in_width 32 (Entry.initial_caps e) ∧ in_width 32 (Entry.policy_flags e)) →
  Forall (λ e, Entry.domain e <= 2 ∧ Entry.has_unknown_authority e = false) es ↔
  Forall (λ e, Entry.domain e <= DOMAIN_USERLAND ∧ Entry.initial_caps e < 256 ∧ Entry.policy_flags e < 64) es.
Proof.
  intros Hw. rewrite !Forall_forall. unfold DOMAIN_USERLAND.
  by split; intros H e He; destruct (Hw e He); specialize (H e He); [rewrite <-authority_known|rewrite authority_known].
Qed.
End audit.

(** C27: The audit of a checked manifest answers 0 exactly when it hands out authority that is
    settled: there is an entry, no two name one program, each names a known domain and only the
    eight kinds of capability and the six policies this kernel knows, and one entry, which
    [root_task] gives, is the root task. *)
Theorem audit_sound (d : list Z) (m : SystemManifest.t) (check : list Z → list Z → bool) (v : Verified.t) :
  bytes_ok d → SystemManifest.parse d = Some (Ok m) → SystemManifest.verify_with check m = Ok v →
  ∃ es c, Verified.iter v = Some es ∧ Verified.audit v = Some c ∧ 0 <= c <= 5 ∧
    (c = 0 ↔ es ≠ [] ∧ NoDup (Entry.program_id <$> es) ∧
       Forall (λ e, Entry.domain e <= DOMAIN_USERLAND ∧ Entry.initial_caps e < 256 ∧ Entry.policy_flags e < 64) es ∧
       ∃ i e, es !! i = Some e ∧ Verified.root_task v = Some (Some e) ∧ Entry.is_root_task e = true ∧
         ∀ j e', es !! j = Some e' → Entry.is_root_task e' = true → j = i).
Proof.
  intros Hd Hm Hv. pose proof (manifest_parse_Ok d m Hd Hm) as Hp.
  assert (v = SystemManifest.verified m) as -> by (unfold SystemManifest.verify_with in Hv; destruct (check _ _); [by injection Hv|done]).
  destruct (manifest_iter d m Hp) as (es & Hes & Hl & Hat).
  assert (holds (SystemManifest.verified m) es) as Hh by (split_and!; [by rewrite Hl|done|done]).
  assert (∀ e, e ∈ es → in_width 32 (Entry.initial_caps e) ∧ in_width 32 (Entry.policy_flags e)) as Hw.
  { intros e [i Hi]%list_elem_of_lookup_1. pose proof (lookup_lt_Some _ _ _ Hi).
    destruct (entry_slice d m (Z.of_nat i) Hp) as (b & Hb & He & _); [lia|]. rewrite Hat, Hi in He.
    destruct (Verified.fields _ b) as [x|] eqn:Hf; [|done]. injection He as ->. eapply fields_width; [|exact Hf].
    eapply slice_ok; [|exact Hb]. rewrite (pm_cut _ _ Hp) in Hd. by apply Forall_app in Hd as [? _]. }
  eexists es, _. split; [done|]. split; [by apply audit_told|]. unfold Verified.root_task. rewrite Hes. cbn [mbind option_bind].
  pose proof (verdict_None es) as Hn. rewrite (entries_known es Hw) in Hn. case_bool_decide as He; [split; [lia|]; split; [done|by intros [? _]]|].
  destruct (verdict es) as [c|] eqn:Ev.
  - apply verdict_code in Ev. split; [lia|]. split; [lia|]. intros (_ & ? & ? & _). by assert (Some c = None) by by apply Hn.
  - destruct (proj1 Hn eq_refl) as [Hnd Hall]. pose proof (root_loop_unique es) as Hu. destruct (Verified.root_loop None es) as [r|].
    + split; [lia|]. split; [intros _|done]. split_and!; [done..|]. destruct (proj1 (Hu r) eq_refl) as (i & Hi & Hr & Hj). by exists i, r.
    + split; [lia|]. split; [done|]. by intros (_ & _ & _ & i & e & _ & ? & _).
Qed.

(** ** At concrete inputs *)
Definition demo_entry (id caps flags period : Z) (key : list Z) : Entry.t :=
  Entry.mk (replicate 16 97) id 2 1 caps (replicate 32 5) flags 0 ANY_CORE 3 100 period DeviceSelector.ANY 0 key.
Definition demo_entries : list Entry.t := [demo_entry 1 CAP_LOADER POLICY_ROOT_TASK 200 (replicate 16 7); demo_entry 2 CAP_ENDPOINT 0 0 KEY_ID_NONE].
Definition demo_message : list Z := message_bytes 3 1 0 9 (replicate 32 4) (replicate 16 6) demo_entries.
Definition demo_check (msg sig : list Z) : bool := bool_decide (sig = [1; 2; 3]).
Definition demo_manifest : SystemManifest.t :=
  SystemManifest.mk 3 1 0 9 2 116 (replicate 32 4) (replicate 16 6) (concat (entry_bytes 3 <$> demo_entries)) demo_message [1; 2; 3].

Lemma demo_parsed : SystemManifest.parse (demo_message ++ [1; 2; 3]) = Some (Ok demo_manifest).
Proof. by vm_compute. Qed.
Lemma demo_bytes : bytes_ok (demo_message ++ [1; 2; 3]).
Proof. apply bytes_ok_true. by vm_compute. Qed.
Lemma demo_good : Forall (entry_good 3) demo_entries.
Proof.
  repeat constructor; cbn; try done.
Qed.

Lemma manifest_authority_signed_witness :
  ∃ es, Verified.iter (SystemManifest.verified demo_manifest) = Some es ∧ length es = 2%nat ∧
    SystemManifest.verify_with demo_check (manifest_resigned demo_manifest [9]) = Err Unverified.
Proof.
  destruct (manifest_authority_signed _ demo_bytes) as [_ H]. destruct (H _ demo_parsed) as (_ & _ & Hc & _).
  specialize (Hc demo_check). cbn in Hc. destruct Hc as (v & es & [= <-] & Hes & Hl & _). exists es.
  split; [done|]. split; [cbn in Hl; lia|done].
Defined.

Lemma manifest_roundtrip_witness :
  ∃ m v, SystemManifest.parse (demo_message ++ [1; 2; 3]) = Some (Ok m) ∧ SystemManifest.verify_with demo_check m = Ok v ∧
    SystemManifest.key_id m = replicate 16 6 ∧ Verified.iter v = Some demo_entries.
Proof.
  destruct (manifest_roundtrip 3 1 0 9 (replicate 32 4) (replicate 16 6) [1; 2; 3] demo_entries demo_check)
    as (H1 & v & H2 & _ & H3); try done.
  - set_solver.
  - cbn. lia.
  - exact demo_good.
  - eexists _, v. by split_and!.
Defined.

Lemma audit_sound_witness :
  Verified.audit (SystemManifest.verified demo_manifest) = Some 0 ∧
  Verified.root_task (SystemManifest.verified demo_manifest) = Some (Some (demo_entry 1 CAP_LOADER POLICY_ROOT_TASK 200 (replicate 16 7))).
Proof.
  destruct (audit_sound _ demo_manifest demo_check (SystemManifest.verified demo_manifest) demo_bytes demo_parsed) as (es & c & _ & Hc & _ & Hz); [done|].
  assert (Verified.audit (SystemManifest.verified demo_manifest) = Some 0) as H0 by (by vm_compute). split; [done|].
  rewrite H0 in Hc. injection Hc as <-. destruct (proj1 Hz eq_refl) as (_ & _ & _ & i & e & _ & Hr & _). by vm_compute.
Defined.

(** A certificate with an empty build information and a signature of one byte. *)
Definition demo_cert : list Z :=
  le_bytes 4 TrustedCert.CERT_MAGIC ++ le_bytes 2 1 ++ replicate 144 0 ++ le_bytes 2 0 ++ [77].
Lemma cert_settled_witness :
  ∃ c, TrustedCert.parse demo_cert = Some (Ok c) ∧ TrustedCert.signature c = [77] ∧
    TrustedCert.parse (TrustedCert.message c ++ [1; 2]) = Some (Ok (resigned c [1; 2])).
Proof.
  destruct (cert_settled demo_cert) as [_ H]; [apply bytes_ok_true; by vm_compute|].
  destruct (TrustedCert.parse demo_cert) as [[c|e]|] eqn:E; [|by vm_compute in E..]. exists c. split; [done|].
  destruct (H c eq_refl) as (_ & _ & _ & Hs). split; [|by apply Hs]. vm_compute in E. by injection E as <-.
Defined.
