(* ===== verification/Checkpoint.v ===== *)
(** * Checkpoints

    [src/crates/caprock-cap/src/checkpoint.rs]: which capabilities and which pieces of a
    thread's state may leave the machine, whether an open transaction crosses the cut,
    and the bytes of a checkpoint.  [None] is a panic. *)

From S2P Require Import Prelude.
From S2P Require Import Region.
From S2P Require Import CapObject.
From S2P Require Import Abi.
From S2P Require Import Bytes.
From S2P Require Import Part.
#[local] Open Scope Z_scope.

(** ** What may travel *)
Module Scope.
Record t := mk { endpoints : list Z; notifications : list Z; threads : list Z; pds : list Z }.
Definition EMPTY : t := mk [] [] [] [].
End Scope.

Inductive LocalReason :=
| DeviceWindow | InterruptLine | DmaRegion | PendingReply | HandlerBinding | PeerNotInScope
| ThreadNotInScope | PdNotInScope | LoaderSource | DebugAuthority | MachineLocalNumber.
#[export] Instance LocalReason_eq_dec : EqDecision LocalReason.
Proof. solve_decision. Defined.

Inductive Precondition := SameTickSemantics.
#[export] Instance Precondition_eq_dec : EqDecision Precondition.
Proof. solve_decision. Defined.

Module ExternKind.
Inductive t :=
| Region (len : Z)
| Endpoint (scope_index : Z)
| Notification (scope_index : Z)
| Tcb (scope_index : Z)
| SchedContext (budget period : Z).
#[global] Instance eq_dec : EqDecision t.
Proof. solve_decision. Defined.
End ExternKind.

Module Transfer.
Inductive t :=
| Portable (kind : ExternKind.t) (precondition : option Precondition)
| Refused (r : LocalReason).
Definition is_portable (x : t) : bool := match x with Portable _ _ => true | Refused _ => false end.
End Transfer.

(** The place of a number in a list of the scope. *)
Definition place (haystack : list Z) (needle : Z) : option Z :=
  (λ i, Z.of_nat i mod 2 ^ 32) <$> position (λ x, x =? needle) haystack.

Definition classify (kind : ObjectKind) (scope : Scope.t) : Transfer.t :=
  match kind with
  | Memory r => Transfer.Portable (ExternKind.Region (PhysRegion.len r)) None
  | SchedContext budget period => Transfer.Portable (ExternKind.SchedContext budget period) (Some SameTickSemantics)
  | Endpoint id =>
    match place (Scope.endpoints scope) id with
    | Some i => Transfer.Portable (ExternKind.Endpoint i) None
    | None => Transfer.Refused PeerNotInScope
    end
  | Notification id =>
    match place (Scope.notifications scope) id with
    | Some i => Transfer.Portable (ExternKind.Notification i) None
    | None => Transfer.Refused PeerNotInScope
    end
  | Tcb raw =>
    match place (Scope.threads scope) raw with
    | Some i => Transfer.Portable (ExternKind.Tcb i) None
    | None => Transfer.Refused ThreadNotInScope
    end
  | PdControl pd => match place (Scope.pds scope) pd with Some _ | None => Transfer.Refused PdNotInScope end
  | Reply _ _ => Transfer.Refused PendingReply
  | Mmio _ _ => Transfer.Refused DeviceWindow
  | Irq _ => Transfer.Refused InterruptLine
  | Dma _ _ _ _ => Transfer.Refused DmaRegion
  | Loader _ => Transfer.Refused LoaderSource
  | SyscallHandler _ _ _ _ | FaultHandler _ _ _ _ => Transfer.Refused HandlerBinding
  | Debuggable _ => Transfer.Refused DebugAuthority
  end.

(** The loop of [classify_all], from [slot] on. *)
Fixpoint classify_from (slot : nat) (kinds : list (option ObjectKind)) (scope : Scope.t) : result unit (nat * LocalReason) :=
  match kinds with
  | [] => Ok tt
  | k :: kinds =>
    match k with
    | Some k =>
      match classify k scope with
      | Transfer.Refused r => Err (slot, r)
      | Transfer.Portable _ _ => classify_from (S slot) kinds scope
      end
    | None => classify_from (S slot) kinds scope
    end
  end.
Definition classify_all := classify_from 0.

(** ** The cut *)
Module Channel.
Inductive t := Endpoint (id : Z) | Notification (id : Z).
#[global] Instance eq_dec : EqDecision t.
Proof. solve_decision. Defined.
End Channel.
Inductive EdgeRole := Sender | Receiver | Caller | ReplyOwner.
Module Edge.
Record t := mk { channel : Channel.t; thread : Z; role : EdgeRole }.
End Edge.
Module CutRefusal.
Inductive t := ChannelNotInScope | PeerNotInScope.
#[global] Instance eq_dec : EqDecision t.
Proof. solve_decision. Defined.
End CutRefusal.

Definition contains (l : list Z) (x : Z) : bool := existsb (λ y, y =? x) l.
Definition thread_in_scope (thread subject : Z) (scope : Scope.t) : bool :=
  (thread =? subject) || contains (Scope.threads scope) thread.
Definition channel_in_scope (channel : Channel.t) (scope : Scope.t) : bool :=
  match channel with
  | Channel.Endpoint id => contains (Scope.endpoints scope) id
  | Channel.Notification id => contains (Scope.notifications scope) id
  end.
Definition classify_edge (edge : Edge.t) (subject : Z) (scope : Scope.t) : option CutRefusal.t :=
  match channel_in_scope (Edge.channel edge) scope, thread_in_scope (Edge.thread edge) subject scope with
  | true, true | false, false => None
  | false, true => Some CutRefusal.ChannelNotInScope
  | true, false => Some CutRefusal.PeerNotInScope
  end.
Fixpoint cut_from (i : nat) (subject : Z) (edges : list Edge.t) (scope : Scope.t) : result unit (nat * CutRefusal.t) :=
  match edges with
  | [] => Ok tt
  | e :: edges =>
    match classify_edge e subject scope with
    | Some r => Err (i, r)
    | None => cut_from (S i) subject edges scope
    end
  end.
Definition classify_cut := cut_from 0.

Inductive BuildRefusal :=
| Cap (slot : nat) (r : LocalReason)
| Cut (edge : nat) (r : CutRefusal.t).

(** ** The image *)
Definition MAGIC : list Z := [83; 76; 52; 75; 67; 75; 80; 84].
Definition FORMAT_VERSION : Z := 1.
Definition MAX_CAPS : nat := 16.
Definition OFF_VERSION : nat := 8.
Definition OFF_BODY_LEN : nat := 12.
Definition OFF_BODY : Z := 16.
Definition BODY_FIXED : Z := 32 + 8 + 8 + 8 + 4 + 4.
Definition B_PROGRESS : Z := 32.
Definition B_NONCE : Z := 40.
Definition B_EPOCH : Z := 48.
Definition B_CAPCOUNT : Z := 56.
Definition B_PRECOND : Z := 60.
Definition CAP_BYTES : Z := 16.
Definition image_bytes (n : Z) : Z := wrapping_add 64 (OFF_BODY + BODY_FIXED) (n * CAP_BYTES + 4).

Module ImageError.
Inductive t :=
| NoImage | Version (found : Z) | Truncated | CapOverflow | UnknownCapTag (tag : Z) | Checksum | ForeignKernel
| BufferTooSmall.
#[global] Instance eq_dec : EqDecision t.
Proof. solve_decision. Defined.
End ImageError.
Notation IR A := (option (result A ImageError.t)).

Definition PRECOND_SAME_TICK : Z := 1.

Definition tag_of (k : ExternKind.t) : Z * Z :=
  match k with
  | ExternKind.Region len => (1, len)
  | ExternKind.Endpoint i => (2, i)
  | ExternKind.Notification i => (3, i)
  | ExternKind.Tcb i => (4, i)
  | ExternKind.SchedContext budget period => (5, Z.lor budget (Z.shiftl period 32 mod 2 ^ 64))
  end.
Definition kind_of (tag v : Z) : result ExternKind.t ImageError.t :=
  if tag =? 1 then Ok (ExternKind.Region v)
  else if tag =? 2 then Ok (ExternKind.Endpoint (v mod 2 ^ 32))
  else if tag =? 3 then Ok (ExternKind.Notification (v mod 2 ^ 32))
  else if tag =? 4 then Ok (ExternKind.Tcb (v mod 2 ^ 32))
  else if tag =? 5 then Ok (ExternKind.SchedContext (v mod 2 ^ 32) (Z.shiftr v 32 mod 2 ^ 32))
  else Err (ImageError.UnknownCapTag tag).

Definition runde (crc : Z) : Z :=
  let m := wrapping_sub 32 0 (Z.land crc 1) in
  Z.lxor (Z.shiftr crc 1) (Z.land 0xEDB88320 m).
Definition crc32 (data : list Z) : Z :=
  Z.lxor (foldl (λ crc b, Nat.iter 8 runde (Z.lxor crc b)) 0xFFFFFFFF data) 0xFFFFFFFF.

Module Image.
Record t := mk {
  kernel_hash : list Z; progress : Z; nonce : Z; epoch : Z;
  caps : list (option ExternKind.t); cap_count : Z; precondition_bits : Z }.
#[global] Instance eq_dec : EqDecision t.
Proof. solve_decision. Defined.

(** The loop of [build] over the slots. *)
Fixpoint build_from (slot : nat) (kinds : list (option ObjectKind)) (scope : Scope.t) (img : t) : result t BuildRefusal :=
  match kinds with
  | [] => Ok img
  | None :: kinds => build_from (S slot) kinds scope img
  | Some k :: kinds =>
    match classify k scope with
    | Transfer.Portable kind precondition =>
      if cap_count img =? Z.of_nat MAX_CAPS then Err (Cap slot PeerNotInScope)
      else
        build_from (S slot) kinds scope
          (mk (kernel_hash img) (progress img) (nonce img) (epoch img)
             (<[Z.to_nat (cap_count img) := Some kind]> (caps img)) (cap_count img + 1)
             (if bool_decide (precondition = Some SameTickSemantics)
              then Z.lor (precondition_bits img) PRECOND_SAME_TICK else precondition_bits img))
    | Transfer.Refused r => Err (Cap slot r)
    end
  end.

Definition build (kernel_hash : list Z) (progress nonce epoch : Z) (kinds : list (option ObjectKind)) (scope : Scope.t)
    (subject : Z) (edges : list Edge.t) : result t BuildRefusal :=
  match classify_all kinds scope with
  | Err (s, r) => Err (Cap s r)
  | Ok _ =>
    match classify_cut subject edges scope with
    | Err (i, r) => Err (Cut i r)
    | Ok _ => build_from 0 kinds scope (mk kernel_hash progress nonce epoch (replicate MAX_CAPS None) 0 0)
    end
  end.

Definition encoded_len (self : t) : Z := image_bytes (cap_count self).

(** [out[o .. o + v.len()].copy_from_slice(v)]. *)
Definition copy (out : list Z) (o : nat) (v : list Z) : option (list Z) :=
  if decide (o + length v <= length out)%nat then Some (take o out ++ v ++ drop (o + length v) out) else None.

Fixpoint encode_caps (ks : list ExternKind.t) (o : nat) (out : list Z) : option (nat * list Z) :=
  match ks with
  | [] => Some (o, out)
  | k :: ks =>
    out ← copy out o (le_bytes 4 (tag_of k).1);
    out ← copy out (o + 8) (le_bytes 8 (tag_of k).2);
    encode_caps ks (o + 16) out
  end.

(** The answer and the buffer as it is left. *)
Definition encode (self : t) (out : list Z) : option (result Z ImageError.t * list Z) :=
  let total := encoded_len self in
  if len out <? total then Some (Err ImageError.BufferTooSmall, out)
  else
    let body_len := wrapping_add 64 BODY_FIXED (cap_count self * CAP_BYTES) in
    let out := replicate (Z.to_nat total) 0 ++ drop (Z.to_nat total) out in
    out ← copy out 0 MAGIC;
    out ← copy out 8 (le_bytes 4 FORMAT_VERSION);
    out ← copy out 12 (le_bytes 4 body_len);
    out ← copy out 16 (kernel_hash self);
    out ← copy out 48 (le_bytes 8 (progress self));
    out ← copy out 56 (le_bytes 8 (nonce self));
    out ← copy out 64 (le_bytes 8 (epoch self));
    out ← copy out 72 (le_bytes 4 (cap_count self));
    out ← copy out 76 (le_bytes 4 (precondition_bits self));
    '(o, out) ← encode_caps (omap id (take (Z.to_nat (cap_count self)) (caps self))) 80 out;
    let crc := crc32 (take o out) in
    out ← copy out o (le_bytes 4 crc);
    Some (Ok total, out).

Definition le32 (b : list Z) (off : Z) : IR Z := must (le_at b (Z.to_nat off) 4).
Definition le64 (b : list Z) (off : Z) : IR Z := must (le_at b (Z.to_nat off) 8).

Fixpoint decode_caps (bytes : list Z) (n i : nat) (o : Z) (caps : list (option ExternKind.t)) : IR (list (option ExternKind.t)) :=
  match n with
  | O => Some (Ok caps)
  | S n =>
    tag ←! le32 bytes o;
    v ←! le64 bytes (o + 8);
    k ←! Some (kind_of tag v);
    _ ←! must (caps !! i);
    decode_caps bytes n (S i) (o + CAP_BYTES) (<[i := Some k]> caps)
  end.

Definition decode (bytes expect_kernel : list Z) : IR t :=
  if len bytes <? OFF_BODY then Some (Err ImageError.Truncated)
  else
    magic ←! must (slice bytes 0 8);
    if negb (bool_decide (magic = MAGIC)) then Some (Err ImageError.NoImage)
    else
      version ←! le32 bytes 8;
      if negb (version =? FORMAT_VERSION) then Some (Err (ImageError.Version version))
      else
        body_len ←! le32 bytes 12;
        if (body_len <? BODY_FIXED) || negb ((body_len - BODY_FIXED) mod CAP_BYTES =? 0) then Some (Err ImageError.Truncated)
        else
          let total := OFF_BODY + body_len + 4 in
          if len bytes <? total then Some (Err ImageError.Truncated)
          else
            cap_count ←! le32 bytes (OFF_BODY + B_CAPCOUNT);
            if Z.of_nat MAX_CAPS <? cap_count then Some (Err ImageError.CapOverflow)
            else if negb (BODY_FIXED + cap_count * CAP_BYTES =? body_len) then Some (Err ImageError.Truncated)
            else
              stored ←! le32 bytes (OFF_BODY + body_len);
              covered ←! must (get bytes 0 (OFF_BODY + body_len));
              if negb (crc32 covered =? stored) then Some (Err ImageError.Checksum)
              else
                kernel_hash ←! must (slice bytes 16 32);
                if negb (bool_decide (kernel_hash = expect_kernel)) then Some (Err ImageError.ForeignKernel)
                else
                  progress ←! le64 bytes (OFF_BODY + B_PROGRESS);
                  nonce ←! le64 bytes (OFF_BODY + B_NONCE);
                  epoch ←! le64 bytes (OFF_BODY + B_EPOCH);
                  precondition_bits ←! le32 bytes (OFF_BODY + B_PRECOND);
                  caps ←! decode_caps bytes (Z.to_nat cap_count) 0 (OFF_BODY + BODY_FIXED) (replicate MAX_CAPS None);
                  Some (Ok (mk kernel_hash progress nonce epoch caps cap_count precondition_bits)).
End Image.

(** ** The state of a thread *)
Module ThreadStatePart.
Inductive t :=
| Registers | FpState | Stack (len : Z) | Priority | Account | BlockReasons | ParkWake | ReplyToken (endpoint : Z)
| PendingBadges | HandlerBinding (handler_pd : Z) | CoreAffinity | CycleStamp | KernelStack.
#[global] Instance eq_dec : EqDecision t.
Proof. solve_decision. Defined.
End ThreadStatePart.

Module ThreadTransfer.
Inductive t := Portable (secret : bool) (precondition : option Precondition) | Refused (r : LocalReason).
Definition is_portable (x : t) : bool := match x with Portable _ _ => true | Refused _ => false end.
Definition is_secret (x : t) : bool := match x with Portable true _ => true | _ => false end.
End ThreadTransfer.

Definition classify_thread_part (part : ThreadStatePart.t) (scope : Scope.t) : ThreadTransfer.t :=
  match part with
  | ThreadStatePart.Registers | ThreadStatePart.FpState => ThreadTransfer.Portable true None
  | ThreadStatePart.Stack _ | ThreadStatePart.KernelStack => ThreadTransfer.Portable true None
  | ThreadStatePart.Priority | ThreadStatePart.BlockReasons | ThreadStatePart.ParkWake
  | ThreadStatePart.PendingBadges => ThreadTransfer.Portable false None
  | ThreadStatePart.Account => ThreadTransfer.Portable false (Some SameTickSemantics)
  | ThreadStatePart.ReplyToken endpoint =>
    match place (Scope.endpoints scope) endpoint with
    | Some _ => ThreadTransfer.Portable false None
    | None => ThreadTransfer.Refused PeerNotInScope
    end
  | ThreadStatePart.HandlerBinding handler_pd =>
    match place (Scope.pds scope) handler_pd with
    | Some _ => ThreadTransfer.Portable false None
    | None => ThreadTransfer.Refused PdNotInScope
    end
  | ThreadStatePart.CoreAffinity => ThreadTransfer.Refused MachineLocalNumber
  | ThreadStatePart.CycleStamp => ThreadTransfer.Refused MachineLocalNumber
  end.
Definition image_is_confidential (parts : list ThreadStatePart.t) (scope : Scope.t) : bool :=
  existsb (λ p, ThreadTransfer.is_secret (classify_thread_part p scope)) parts.
Definition THREAD_STATE_PARTS : list ThreadStatePart.t :=
  [ThreadStatePart.Registers; ThreadStatePart.FpState; ThreadStatePart.Stack 0; ThreadStatePart.KernelStack;
   ThreadStatePart.Priority; ThreadStatePart.Account; ThreadStatePart.BlockReasons; ThreadStatePart.ParkWake;
   ThreadStatePart.PendingBadges; ThreadStatePart.CoreAffinity].

(** ** Lemmas on classification *)

(** What the rules say of one capability, and of one edge. *)
Definition portable (scope : Scope.t) (k : ObjectKind) : Prop :=
  match k with
  | Memory _ | SchedContext _ _ => True
  | Endpoint id => id ∈ Scope.endpoints scope
  | Notification id => id ∈ Scope.notifications scope
  | Tcb raw => raw ∈ Scope.threads scope
  | _ => False
  end.
Definition channel_travels (scope : Scope.t) (c : Channel.t) : Prop :=
  match c with
  | Channel.Endpoint id => id ∈ Scope.endpoints scope
  | Channel.Notification id => id ∈ Scope.notifications scope
  end.
Definition whole (subject : Z) (scope : Scope.t) (e : Edge.t) : Prop :=
  channel_travels scope (Edge.channel e) ↔ (Edge.thread e = subject ∨ Edge.thread e ∈ Scope.threads scope).

Lemma place_Some l x : is_Some (place l x) ↔ x ∈ l.
Proof.
  unfold place. rewrite fmap_is_Some. split.
  - intros [i ((y & Hy & E%Z.eqb_eq) & _)%position_Some]. subst y. by eapply list_elem_of_lookup_2.
  - intros Hx. destruct (position (λ y, y =? x) l) eqn:E; [done|]. rewrite position_None in E.
    specialize (E x Hx). by rewrite Z.eqb_refl in E.
Qed.

Lemma classify_portable k scope : Transfer.is_portable (classify k scope) = true ↔ portable scope k.
Proof.
  destruct k as [r|id|raw|id| | |pd| | | | | | |]; cbn; try done.
  all: try (rewrite <-place_Some; destruct (place _ _); split; [done|done|done|by intros [? ?]]).
  by destruct (place _ _).
Qed.

Lemma contains_elem l x : contains l x = true ↔ x ∈ l.
Proof.
  unfold contains. rewrite existsb_exists. split.
  - intros (y & Hy & E%Z.eqb_eq). subst. by apply list_elem_of_In.
  - intros Hx. exists x. split; [by apply list_elem_of_In|by apply Z.eqb_eq].
Qed.

Lemma edge_whole e subject scope : classify_edge e subject scope = None ↔ whole subject scope e.
Proof.
  unfold classify_edge, whole.
  assert (channel_in_scope (Edge.channel e) scope = true ↔ channel_travels scope (Edge.channel e)) as <-
    by (destruct (Edge.channel e); apply contains_elem).
  assert (thread_in_scope (Edge.thread e) subject scope = true ↔ (Edge.thread e = subject ∨ Edge.thread e ∈ Scope.threads scope)) as <-
    by (unfold thread_in_scope; by rewrite orb_true_iff, contains_elem, Z.eqb_eq).
  destruct (channel_in_scope _ _), (thread_in_scope _ _ _); split; naive_solver.
Qed.

Lemma cut_from_Ok i subject edges scope : cut_from i subject edges scope = Ok tt ↔ Forall (whole subject scope) edges.
Proof.
  revert i. induction edges as [|e edges IH]; intros i; [by split|]. cbn. rewrite Forall_cons, <-edge_whole.
  destruct (classify_edge e subject scope); [by split; [|intros []]|]. rewrite IH. naive_solver.
Qed.

(** ** Building *)

(** What is kept of a list of slots, and whether a budget is among it. *)
Definition kept (scope : Scope.t) (kinds : list (option ObjectKind)) : list ExternKind.t :=
  omap (λ o, k ← o; match classify k scope with Transfer.Portable x _ => Some x | Transfer.Refused _ => None end) kinds.
Definition budgeted (kinds : list (option ObjectKind)) : bool :=
  existsb (λ o, match o with Some (SchedContext _ _) => true | _ => false end) kinds.
Definition padded (l : list ExternKind.t) : list (option ExternKind.t) :=
  ((λ k, Some k) <$> l) ++ replicate (MAX_CAPS - length l) None.
Definition all_portable (scope : Scope.t) (kinds : list (option ObjectKind)) : Prop :=
  Forall (λ o, ∀ k, o = Some k → portable scope k) kinds.

Lemma padded_snoc l k : (length l < MAX_CAPS)%nat → <[length l := Some k]> (padded l) = padded (l ++ [k]).
Proof.
  intros Hl. unfold padded. rewrite fmap_app, length_app. cbn [length fmap list_fmap].
  rewrite insert_app_r_alt by (by rewrite length_fmap). rewrite length_fmap, Nat.sub_diag, <-app_assoc. f_equal.
  replace (MAX_CAPS - length l)%nat with (S (MAX_CAPS - (length l + 1))) by lia. done.
Qed.

Lemma classify_from_Ok slot kinds scope : classify_from slot kinds scope = Ok tt ↔ all_portable scope kinds.
Proof.
  revert slot. unfold all_portable. induction kinds as [|[k|] kinds IH]; intros slot; [by split|..].
  - cbn. rewrite Forall_cons. pose proof (classify_portable k scope) as Hk. destruct (classify k scope); cbn in Hk.
    + rewrite IH. naive_solver.
    + split; [done|]. intros [H _]. by specialize (proj2 Hk (H k eq_refl)).
  - cbn. rewrite Forall_cons, IH. naive_solver.
Qed.

Lemma build_from_Ok slot kinds scope kh p no ep l bits img : (length l <= MAX_CAPS)%nat →
  Image.build_from slot kinds scope (Image.mk kh p no ep (padded l) (Z.of_nat (length l)) bits) = Ok img ↔
  all_portable scope kinds ∧ (length l + length (kept scope kinds) <= MAX_CAPS)%nat ∧
  img = Image.mk kh p no ep (padded (l ++ kept scope kinds)) (Z.of_nat (length l + length (kept scope kinds)))
          (if budgeted kinds then Z.lor bits PRECOND_SAME_TICK else bits).
Proof.
  unfold all_portable. revert slot l bits. induction kinds as [|[k|] kinds IH]; intros slot l bits Hl.
  - cbn. rewrite app_nil_r, Nat.add_0_r. split; [intros [= <-]; by split_and!|by intros (_ & _ & ->)].
  - cbn [Image.build_from]. rewrite Forall_cons. pose proof (classify_portable k scope) as Hk.
    unfold kept, budgeted. cbn [omap list_omap mbind option_bind existsb]. fold (kept scope kinds). fold (budgeted kinds).
    destruct (classify k scope) as [x pre|r] eqn:Ec; cbn in Hk.
    2: { split; [done|]. intros ([H _] & _). by specialize (proj2 Hk (H k eq_refl)). }
    cbn [Image.cap_count length]. destruct (Z.eqb_spec (Z.of_nat (length l)) (Z.of_nat MAX_CAPS)) as [E|E].
    { split; [done|]. intros (_ & H & _). lia. }
    cbn [Image.kernel_hash Image.progress Image.nonce Image.epoch Image.caps Image.precondition_bits].
    rewrite Nat2Z.id, padded_snoc by lia.
    replace (Z.of_nat (length l) + 1) with (Z.of_nat (length (l ++ [x]))) by (rewrite length_app; cbn [length]; lia).
    rewrite IH by (rewrite length_app; cbn [length]; lia). rewrite length_app, <-app_assoc. cbn [length app].
    replace (length l + 1 + length (kept scope kinds))%nat with (length l + S (length (kept scope kinds)))%nat by lia.
    assert ((if budgeted kinds then Z.lor (if bool_decide (pre = Some SameTickSemantics) then Z.lor bits PRECOND_SAME_TICK else bits) PRECOND_SAME_TICK
             else if bool_decide (pre = Some SameTickSemantics) then Z.lor bits PRECOND_SAME_TICK else bits)
            = if (match k with SchedContext _ _ => true | _ => false end) || budgeted kinds then Z.lor bits PRECOND_SAME_TICK else bits) as ->.
    { destruct k; cbn in Ec; try case_match; try discriminate Ec; injection Ec as <- <-; case_bool_decide; try done.
      cbn [orb]. destruct (budgeted kinds); [|done]. by rewrite <-Z.lor_assoc, Z.lor_diag. }
    assert (∀ k', Some k = Some k' → portable scope k') as Hp by (intros k' [= <-]; by apply Hk). tauto.
  - cbn [Image.build_from]. rewrite Forall_cons, IH by done. unfold kept, budgeted. cbn. naive_solver.
Qed.

(** C28: A checkpoint is built exactly when every capability may travel (memory and budgets
    always; endpoints, notifications and threads inside the scope; nothing else), no open
    transaction crosses the cut, and at most sixteen capabilities are kept; it then holds their
    external forms in the order of the slots, and asks for the same ticks exactly if a budget is
    among them. *)
Theorem build_exact (kh : list Z) (progress nonce epoch : Z) (kinds : list (option ObjectKind)) (scope : Scope.t)
    (subject : Z) (edges : list Edge.t) (img : Image.t) :
  Image.build kh progress nonce epoch kinds scope subject edges = Ok img ↔
    all_portable scope kinds ∧ Forall (whole subject scope) edges ∧ (length (kept scope kinds) <= MAX_CAPS)%nat ∧
    img = Image.mk kh progress nonce epoch (padded (kept scope kinds)) (Z.of_nat (length (kept scope kinds)))
            (if budgeted kinds then PRECOND_SAME_TICK else 0).
Proof.
  unfold Image.build, classify_all, classify_cut. pose proof (classify_from_Ok 0 kinds scope) as Ha.
  pose proof (cut_from_Ok 0 subject edges scope) as Hc.
  destruct (classify_from 0 kinds scope) as [[]|[s r]]; [|split; [done|]; intros (H & _); by apply Ha in H].
  destruct (cut_from 0 subject edges scope) as [[]|[i r]]; [|split; [done|]; intros (_ & H & _); by apply Hc in H].
  pose proof (build_from_Ok 0 kinds scope kh progress nonce epoch [] 0 img) as Hb. cbn [length app] in Hb.
  change (replicate MAX_CAPS None) with (padded []). rewrite Hb by (unfold MAX_CAPS; lia). cbn [Nat.add].
  assert ((if budgeted kinds then Z.lor 0 PRECOND_SAME_TICK else 0) = if budgeted kinds then PRECOND_SAME_TICK else 0) as -> by by destruct (budgeted kinds).
  naive_solver.
Qed.

(** ** Another machine

    The same capabilities and the same scope under the numbers of another machine. *)
Record numbering := {
  nu_ep : Z → Z; nu_ntfn : Z → Z; nu_thread : Z → Z; nu_pd : Z → Z; nu_base : PhysRegion.t → Z; nu_dev : Z → Z }.
Record numbering_ok (ν : numbering) : Prop := {
  no_ep : ∀ x y, nu_ep ν x = nu_ep ν y → x = y;
  no_ntfn : ∀ x y, nu_ntfn ν x = nu_ntfn ν y → x = y;
  no_thread : ∀ x y, nu_thread ν x = nu_thread ν y → x = y;
  no_pd : ∀ x y, nu_pd ν x = nu_pd ν y → x = y }.

Section numbering.
Context (ν : numbering) (Hν : numbering_ok ν).

Definition renamed_kind (k : ObjectKind) : ObjectKind :=
  match k with
  | Memory r => Memory (PhysRegion.new (nu_base ν r) (PhysRegion.len r))
  | Endpoint e => Endpoint (nu_ep ν e)
  | Tcb t => Tcb (nu_thread ν t)
  | Notification n => Notification (nu_ntfn ν n)
  | SchedContext b p => SchedContext b p
  | Reply e c => Reply (nu_ep ν e) (nu_thread ν c)
  | PdControl pd => PdControl (nu_pd ν pd)
  | Loader s => Loader (nu_dev ν s)
  | Mmio p l => Mmio (nu_dev ν p) l
  | Irq i => Irq (nu_dev ν i)
  | Dma p l d c => Dma (nu_dev ν p) l d c
  | SyscallHandler e pd s l => SyscallHandler (nu_ep ν e) (nu_pd ν pd) (nu_dev ν s) l
  | FaultHandler e pd s l => FaultHandler (nu_ep ν e) (nu_pd ν pd) (nu_dev ν s) l
  | Debuggable pd => Debuggable (nu_pd ν pd)
  end.
Definition renamed_slots (kinds : list (option ObjectKind)) : list (option ObjectKind) :=
  map (option_map renamed_kind) kinds.
Definition renamed_scope (s : Scope.t) : Scope.t :=
  Scope.mk (nu_ep ν <$> Scope.endpoints s) (nu_ntfn ν <$> Scope.notifications s) (nu_thread ν <$> Scope.threads s) (nu_pd ν <$> Scope.pds s).
Definition renamed_edge (e : Edge.t) : Edge.t :=
  Edge.mk (match Edge.channel e with
           | Channel.Endpoint id => Channel.Endpoint (nu_ep ν id)
           | Channel.Notification id => Channel.Notification (nu_ntfn ν id)
           end) (nu_thread ν (Edge.thread e)) (Edge.role e).

Lemma eqb_inj (f : Z → Z) x y : (∀ x y, f x = f y → x = y) → (f x =? f y) = (x =? y).
Proof. intros Hf. destruct (Z.eqb_spec x y) as [->|Hne]; [apply Z.eqb_refl|]. apply Z.eqb_neq. auto. Qed.
Lemma place_renamed (f : Z → Z) l x : (∀ x y, f x = f y → x = y) → place (f <$> l) (f x) = place l x.
Proof.
  intros Hf. unfold place. f_equal. induction l as [|y l IH]; [done|]. cbn. rewrite eqb_inj by done.
  destruct (y =? x); [done|]. by rewrite IH.
Qed.
Lemma contains_renamed (f : Z → Z) l x : (∀ x y, f x = f y → x = y) → contains (f <$> l) (f x) = contains l x.
Proof. intros Hf. unfold contains. induction l as [|y l IH]; [done|]. cbn. by rewrite eqb_inj, IH. Qed.

Lemma classify_renamed k scope : classify (renamed_kind k) (renamed_scope scope) = classify k scope.
Proof.
  destruct Hν. destruct k; cbn [renamed_kind classify renamed_scope Scope.endpoints Scope.notifications Scope.threads Scope.pds].
  all: by rewrite ?place_renamed by done.
Qed.

Lemma classify_from_renamed slot kinds scope :
  classify_from slot (renamed_slots kinds) (renamed_scope scope) = classify_from slot kinds scope.
Proof.
  revert slot. induction kinds as [|[k|] kinds IH]; intros slot; [done| |apply IH].
  cbn [renamed_slots map option_map classify_from]. fold (renamed_slots kinds). rewrite classify_renamed.
  destruct (classify k scope); [apply IH|done].
Qed.
Lemma cut_from_renamed i subject edges scope :
  cut_from i (nu_thread ν subject) (map renamed_edge edges) (renamed_scope scope) = cut_from i subject edges scope.
Proof.
  revert i. induction edges as [|e edges IH]; intros i; [done|]. cbn.
  assert (classify_edge (renamed_edge e) (nu_thread ν subject) (renamed_scope scope) = classify_edge e subject scope) as ->.
  { destruct Hν. unfold classify_edge, channel_in_scope, thread_in_scope. destruct e as [[id|id] t r].
    all: cbn [renamed_edge Edge.channel Edge.thread renamed_scope Scope.endpoints Scope.notifications Scope.threads].
    all: by rewrite !contains_renamed, eqb_inj by done. }
  destruct (classify_edge e subject scope); [done|apply IH].
Qed.
Lemma build_from_renamed slot kinds scope img :
  Image.build_from slot (renamed_slots kinds) (renamed_scope scope) img = Image.build_from slot kinds scope img.
Proof.
  revert slot img. induction kinds as [|[k|] kinds IH]; intros slot img; [done| |apply IH].
  cbn [renamed_slots map option_map Image.build_from]. fold (renamed_slots kinds). rewrite classify_renamed.
  destruct (classify k scope); [|done]. destruct (_ =? _); [done|apply IH].
Qed.

(** C32: Neither a checkpoint nor the reason for refusing one holds a number of the machine:
    where endpoints, notifications, threads, domains, memory and devices have other numbers and
    other addresses, the same state gives the same answer. *)
Theorem build_machine_independent (kh : list Z) (progress nonce epoch : Z) (kinds : list (option ObjectKind))
    (scope : Scope.t) (subject : Z) (edges : list Edge.t) :
  Image.build kh progress nonce epoch (renamed_slots kinds) (renamed_scope scope) (nu_thread ν subject) (map renamed_edge edges)
  = Image.build kh progress nonce epoch kinds scope subject edges.
Proof.
  unfold Image.build, classify_all, classify_cut. rewrite classify_from_renamed, cut_from_renamed.
  destruct (classify_from 0 kinds scope) as [[]|[]]; [|done]. destruct (cut_from 0 subject edges scope) as [[]|[]]; [|done].
  apply build_from_renamed.
Qed.
End numbering.


(** ** The bytes of an image *)
Lemma crc32_same d : crc32 d = Part.crc32 d.
Proof.
  unfold crc32, Part.crc32, Crc32.finish, Crc32.update, Crc32.new, Crc32.byte. change Crc32.runde with runde. done.
Qed.

(** What an external form and an image satisfy, as the kernel's records do. *)
Definition kind_ok (k : ExternKind.t) : Prop :=
  match k with
  | ExternKind.Region n => in_width 64 n
  | ExternKind.Endpoint i | ExternKind.Notification i | ExternKind.Tcb i => in_width 32 i
  | ExternKind.SchedContext b p => in_width 32 b ∧ in_width 32 p
  end.
Record holds (img : Image.t) (ks : list ExternKind.t) : Prop := {
  ho_hash : length (Image.kernel_hash img) = 32%nat ∧ bytes_ok (Image.kernel_hash img);
  ho_words : in_width 64 (Image.progress img) ∧ in_width 64 (Image.nonce img) ∧ in_width 64 (Image.epoch img);
  ho_bits : in_width 32 (Image.precondition_bits img);
  ho_count : Image.cap_count img = Z.of_nat (length ks) ∧ (length ks <= MAX_CAPS)%nat;
  ho_caps : Image.caps img = padded ks ∧ Forall kind_ok ks }.

Definition cap_piece (k : ExternKind.t) : list Z := le_bytes 4 (tag_of k).1 ++ [0; 0; 0; 0] ++ le_bytes 8 (tag_of k).2.
Definition caps_piece (ks : list ExternKind.t) : list Z := concat (map cap_piece ks).
(** The fields in front of the checksum. *)
Definition body (img : Image.t) (ks : list ExternKind.t) : list (list Z) :=
  [MAGIC; le_bytes 4 FORMAT_VERSION; le_bytes 4 (BODY_FIXED + Z.of_nat (length ks) * CAP_BYTES); Image.kernel_hash img;
   le_bytes 8 (Image.progress img); le_bytes 8 (Image.nonce img); le_bytes 8 (Image.epoch img);
   le_bytes 4 (Image.cap_count img); le_bytes 4 (Image.precondition_bits img)].
Definition covered_bytes (img : Image.t) (ks : list ExternKind.t) : list Z := concat (body img ks) ++ caps_piece ks.
Definition document (img : Image.t) (ks : list ExternKind.t) : list Z :=
  covered_bytes img ks ++ le_bytes 4 (crc32 (covered_bytes img ks)).

Lemma pack_width a b n m : 0 <= n → 0 <= m → 0 <= b < 2 ^ n → 0 <= a < 2 ^ m → 0 <= Z.lor (Z.shiftl a n) b < 2 ^ (m + n).
Proof.
  intros Hn Hm Hb Ha. assert (Z.lor (Z.shiftl a n) b = a * 2 ^ n + b) as ->.
  { pose proof (pack_high a b n Hn Hb) as H1. pose proof (pack_low a b n Hn Hb) as H2.
    rewrite Z.shiftr_div_pow2 in H1 by lia. rewrite Z.land_ones in H2 by lia.
    pose proof (Z.div_mod (Z.lor (Z.shiftl a n) b) (2 ^ n) ltac:(lia)). lia. }
  rewrite Z.pow_add_r by lia. nia.
Qed.
Lemma tag_of_width k : kind_ok k → in_width 32 (tag_of k).1 ∧ in_width 64 (tag_of k).2.
Proof.
  destruct k as [n|i|i|i|b p]; cbn [kind_ok tag_of fst snd].
  all: unfold in_width; intros H; split; try lia.
  destruct H as [Hb Hp]. rewrite Z.mod_small by (rewrite Z.shiftl_mul_pow2; lia).
  rewrite Z.lor_comm. apply pack_width with (n:=32) (m:=32); lia.
Qed.

Lemma kind_of_tag k : kind_ok k → kind_of (tag_of k).1 (tag_of k).2 = Ok k.
Proof.
  destruct k as [n|i|i|i|b p]; cbn [kind_ok tag_of fst snd]; unfold in_width; intros H; unfold kind_of; cbn [Z.eqb Pos.eqb].
  - done.
  - by rewrite Z.mod_small.
  - by rewrite Z.mod_small.
  - by rewrite Z.mod_small.
  - destruct H as [Hb Hp]. rewrite (Z.mod_small (Z.shiftl p 32)) by (rewrite Z.shiftl_mul_pow2; lia).
    rewrite Z.lor_comm, pack_high, <-Z.land_ones, pack_low by lia. by rewrite Z.mod_small.
Qed.

Lemma length_cap_piece k : length (cap_piece k) = 16%nat.
Proof. unfold cap_piece. by rewrite !length_app, !length_le_bytes. Qed.
Lemma length_caps_piece ks : length (caps_piece ks) = (length ks * 16)%nat.
Proof. unfold caps_piece. apply concat_uniform. intros k _. apply length_cap_piece. Qed.
Lemma length_body img ks : holds img ks → length (concat (body img ks)) = 80%nat.
Proof. intros [[Hh _] _ _ _ _]. unfold body. cbn [concat]. rewrite !length_app, !length_le_bytes, Hh. reflexivity. Qed.

(** Writing behind what was written. *)
Lemma copy_next a k r v o : o = length a → (length v <= k)%nat →
  Image.copy (a ++ replicate k 0 ++ r) o v = Some ((a ++ v) ++ replicate (k - length v) 0 ++ r).
Proof.
  intros -> Hv. unfold Image.copy. rewrite decide_True by (rewrite !length_app, length_replicate; lia). f_equal.
  rewrite take_app_length, <-app_assoc. f_equal. f_equal. rewrite drop_app_add, drop_app_le by (rewrite length_replicate; lia).
  by rewrite drop_replicate.
Qed.

Lemma encode_caps_next ks a k r o : o = length a → (length ks * 16 <= k)%nat →
  Image.encode_caps ks o (a ++ replicate k 0 ++ r) =
  Some ((o + length ks * 16)%nat, (a ++ caps_piece ks) ++ replicate (k - length ks * 16) 0 ++ r).
Proof.
  revert a k o. induction ks as [|x ks IH]; intros a k o Ho Hk; cbn [length] in Hk.
  { cbn. by rewrite app_nil_r, Nat.sub_0_r, Nat.add_0_r. }
  cbn [Image.encode_caps]. rewrite copy_next by (rewrite ?length_le_bytes; lia). cbn [mbind option_bind].
  rewrite length_le_bytes. replace (k - 4)%nat with (4 + (k - 8))%nat by lia. rewrite replicate_add, <-(app_assoc (replicate 4 0)).
  rewrite (app_assoc (a ++ _) (replicate 4 0)), copy_next by (rewrite ?length_app, ?length_le_bytes, ?length_replicate; lia).
  cbn [mbind option_bind]. rewrite length_le_bytes.
  replace (((a ++ le_bytes 4 (tag_of x).1) ++ replicate 4 0) ++ le_bytes 8 (tag_of x).2) with (a ++ cap_piece x)
    by (unfold cap_piece; by rewrite <-!app_assoc).
  rewrite IH by (rewrite ?length_app, ?length_cap_piece; lia). unfold caps_piece. cbn [map concat length]. rewrite <-!app_assoc.
  replace (k - 8 - 8 - length ks * 16)%nat with (k - S (length ks) * 16)%nat by lia. do 2 f_equal. lia.
Qed.

Lemma length_covered img ks : holds img ks → length (covered_bytes img ks) = (80 + length ks * 16)%nat.
Proof. intros H. unfold covered_bytes. by rewrite length_app, (length_body img ks H), length_caps_piece. Qed.
Lemma length_document img ks : holds img ks → len (document img ks) = Image.encoded_len img.
Proof.
  intros H. unfold len, document. rewrite length_app, length_le_bytes, (length_covered img ks H).
  unfold Image.encoded_len, image_bytes, OFF_BODY, BODY_FIXED, CAP_BYTES, wrapping_add. destruct (ho_count _ _ H) as [-> Hn].
  unfold MAX_CAPS in Hn. rewrite Z.mod_small; lia.
Qed.

Lemma omap_padded ks : omap id (take (length ks) (padded ks)) = ks.
Proof.
  unfold padded. rewrite take_app_le by (by rewrite length_fmap). rewrite take_ge by (by rewrite length_fmap).
  induction ks as [|k ks IH]; cbn; [done|by f_equal].
Qed.

(** Encoding writes the document at the front of the buffer and leaves the rest. *)
Lemma encode_writes img ks out : holds img ks → Image.encoded_len img <= len out →
  Image.encode img out = Some (Ok (Image.encoded_len img), document img ks ++ drop (Z.to_nat (Image.encoded_len img)) out).
Proof.
  intros H Hout. pose proof (length_document img ks H) as Hd. unfold Image.encode. rewrite (proj2 (Z.ltb_ge _ _)) by lia.
  assert (Z.to_nat (Image.encoded_len img) = (84 + length ks * 16)%nat) as Ht.
  { rewrite <-Hd. unfold len, document. rewrite length_app, length_le_bytes, (length_covered img ks H). lia. }
  rewrite Ht. set (rest := drop _ out). cbv zeta. destruct H as [[Hh _] _ _ [Hc Hn] [Hk _]].
  assert (wrapping_add 64 BODY_FIXED (Image.cap_count img * CAP_BYTES) = BODY_FIXED + Z.of_nat (length ks) * CAP_BYTES) as Hb.
  { unfold wrapping_add, BODY_FIXED, CAP_BYTES, MAX_CAPS in *. rewrite Hc. apply Z.mod_small. lia. }
  rewrite Hb, Hc, Hk, Nat2Z.id, omap_padded. change (replicate (84 + length ks * 16) 0 ++ rest) with ([] ++ replicate (84 + length ks * 16) 0 ++ rest).
  assert (length MAGIC = 8%nat) as Hm by done.
  repeat (rewrite copy_next by (rewrite ?length_app, ?length_le_bytes, ?Hh, ?Hm; cbn [length]; lia); cbn [mbind option_bind]; rewrite ?length_le_bytes, ?Hm, ?Hh).
  rewrite encode_caps_next by (rewrite ?length_app, ?length_le_bytes, ?Hh, ?Hm; cbn [length]; lia). cbn [mbind option_bind].
  replace (_ ++ caps_piece ks) with (covered_bytes img ks)
    by (unfold covered_bytes, body; rewrite Hc; cbn [concat]; by rewrite app_nil_r, <-!app_assoc).
  assert (length (covered_bytes img ks) = (80 + length ks * 16)%nat) as Hlc
    by (unfold covered_bytes, body; cbn [concat]; rewrite !length_app, !length_le_bytes, Hh, Hm, length_caps_piece; cbn [length]; lia).
  rewrite take_app_le, take_ge by lia. rewrite copy_next by (rewrite ?length_le_bytes; cbn [length]; lia). cbn [mbind option_bind].
  rewrite length_le_bytes. do 2 f_equal. unfold document. do 2 f_equal.
  match goal with |- replicate ?n 0 ++ _ = _ => replace n with 0%nat by (cbn [length]; lia) end. done.
Qed.

(** ** Reading an image *)
Lemma decode_caps_reads b ks pre : Forall kind_ok ks → (length pre + length ks <= MAX_CAPS)%nat →
  (∀ i k, ks !! i = Some k → slice b (80 + (length pre + i) * 16) 16 = Some (cap_piece k)) →
  Image.decode_caps b (length ks) (length pre) (80 + Z.of_nat (length pre) * CAP_BYTES) (padded pre) = Some (Ok (padded (pre ++ ks))).
Proof.
  revert pre. induction ks as [|k ks IH]; intros pre Hk Hn Hs.
  { cbn. by rewrite app_nil_r. }
  apply Forall_cons in Hk as [Hk Hks]. cbn [length] in *. cbn [Image.decode_caps].
  pose proof (Hs 0%nat k eq_refl) as H0. destruct (tag_of_width k Hk) as [H1 H2].
  assert (Image.le32 b (80 + Z.of_nat (length pre) * CAP_BYTES) = Some (Ok (tag_of k).1)) as ->.
  { unfold Image.le32. apply must_Ok. unfold le_at.
    replace (Z.to_nat _) with (80 + (length pre + 0) * 16 + 0)%nat by (unfold CAP_BYTES; lia).
    rewrite <-(slice_slice _ _ _ _ 0 4 H0) by lia. unfold cap_piece. rewrite slice_here by apply length_le_bytes.
    cbn [fmap option_fmap option_map]. by rewrite le_value_bytes. }
  cbn [parse_bind].
  assert (Image.le64 b (80 + Z.of_nat (length pre) * CAP_BYTES + 8) = Some (Ok (tag_of k).2)) as ->.
  { unfold Image.le64. apply must_Ok. unfold le_at.
    replace (Z.to_nat _) with (80 + (length pre + 0) * 16 + 8)%nat by (unfold CAP_BYTES; lia).
    rewrite <-(slice_slice _ _ _ _ 8 8 H0) by lia. unfold cap_piece. rewrite app_assoc.
    rewrite slice_skip by (rewrite length_app, length_le_bytes; cbn [length]; lia). rewrite length_app, length_le_bytes. cbn [length Nat.add Nat.sub].
    rewrite slice_Some by (rewrite length_le_bytes; lia). rewrite drop_0, take_ge by (rewrite length_le_bytes; lia).
    cbn [fmap option_fmap option_map]. by rewrite le_value_bytes. }
  cbn [parse_bind]. rewrite kind_of_tag by done. cbn [parse_bind].
  assert (is_Some (padded pre !! length pre)) as [x ->].
  { apply lookup_lt_is_Some. unfold padded. rewrite length_app, length_fmap, length_replicate. lia. }
  cbn [must fmap option_fmap option_map parse_bind]. rewrite padded_snoc by lia.
  replace (80 + Z.of_nat (length pre) * CAP_BYTES + CAP_BYTES) with (80 + Z.of_nat (length (pre ++ [k])) * CAP_BYTES)
    by (rewrite length_app; unfold CAP_BYTES; cbn [length]; lia).
  replace (S (length pre)) with (length (pre ++ [k])) by (rewrite length_app; cbn [length]; lia).
  rewrite IH; [by rewrite <-app_assoc|done|rewrite length_app; cbn [length]; lia|].
  intros i k' Hi. specialize (Hs (S i) k' Hi). rewrite <-Hs. rewrite length_app. cbn [length]. f_equal. lia.
Qed.

Lemma slice_caps ks i k : ks !! i = Some k → slice (caps_piece ks) (i * 16) 16 = Some (cap_piece k).
Proof.
  intros Hi. unfold caps_piece. pose proof (lookup_lt_Some _ _ _ Hi). apply (slice_piece _ i).
  - change (map cap_piece ks) with (cap_piece <$> ks). by rewrite list_lookup_fmap, Hi.
  - change (take i (map cap_piece ks)) with (take i (cap_piece <$> ks)). rewrite <-fmap_take.
    rewrite (concat_uniform _ 16) by (intros x _; apply length_cap_piece). rewrite length_take. lia.
  - by rewrite length_cap_piece.
Qed.

(** The words in front of the capabilities. *)
Lemma document_fields img ks rest : holds img ks →
  let d := document img ks ++ rest in
  slice d 0 8 = Some MAGIC ∧ le_at d 8 4 = Some FORMAT_VERSION ∧
  le_at d 12 4 = Some (BODY_FIXED + Z.of_nat (length ks) * CAP_BYTES) ∧ slice d 16 32 = Some (Image.kernel_hash img) ∧
  le_at d 48 8 = Some (Image.progress img) ∧ le_at d 56 8 = Some (Image.nonce img) ∧ le_at d 64 8 = Some (Image.epoch img) ∧
  le_at d 72 4 = Some (Image.cap_count img) ∧ le_at d 76 4 = Some (Image.precondition_bits img).
Proof.
  intros H. cbv zeta. unfold document, covered_bytes. rewrite <-!app_assoc.
  pose proof (length_body img ks H) as Hb. destruct H as [[Hh _] (Hp & Hno & He) Hbits [Hc Hn] _]. unfold MAX_CAPS in Hn.
  split_and!; first [rewrite slice_low by (rewrite Hb; lia)|rewrite le_at_low by (rewrite Hb; lia)]; unfold body.
  1: piece 0%nat.
  1: piece 1%nat.
  1: eapply (le_at_piece _ 2); [reflexivity|reflexivity|unfold in_width, BODY_FIXED, CAP_BYTES; lia].
  1: eapply (slice_piece _ 3); [reflexivity|reflexivity|by rewrite Hh].
  1: eapply (le_at_piece _ 4).
  4: eapply (le_at_piece _ 5).
  7: eapply (le_at_piece _ 6).
  10: eapply (le_at_piece _ 7).
  13: eapply (le_at_piece _ 8).
  all: try reflexivity; try done; try (cbn [take concat]; rewrite !length_app, !length_le_bytes, Hh; reflexivity).
  rewrite Hc. unfold in_width. lia.
Qed.

Lemma body_bytes_ok img ks : holds img ks → bytes_ok (covered_bytes img ks).
Proof.
  intros [[_ Hk] _ _ _ _]. unfold covered_bytes, body, caps_piece. apply Forall_app; split.
  - cbn [concat]. repeat (apply Forall_app; split); try done; try apply le_bytes_ok; by apply bytes_ok_true.
  - apply Forall_concat. apply Forall_fmap. apply Forall_forall. intros k _. unfold compose, cap_piece.
    repeat (apply Forall_app; split); try apply le_bytes_ok. by apply bytes_ok_true.
Qed.

Lemma checksum_fields img ks rest : holds img ks →
  le_at (document img ks ++ rest) (length (covered_bytes img ks)) 4 = Some (crc32 (covered_bytes img ks)) ∧
  get (document img ks ++ rest) 0 (OFF_BODY + (BODY_FIXED + Z.of_nat (length ks) * CAP_BYTES)) = Some (covered_bytes img ks).
Proof.
  intros H. pose proof (length_covered img ks H) as Hlc. unfold document. rewrite <-app_assoc. split.
  - apply le_at_written; [|done]. rewrite crc32_same. by apply crc_width, (body_bytes_ok img).
  - unfold OFF_BODY, BODY_FIXED, CAP_BYTES. replace (16 + _) with (0 + len (covered_bytes img ks)) by (unfold len; rewrite Hlc; lia).
    rewrite get_slice by (unfold len; lia). unfold len. rewrite Nat2Z.id. by apply slice_here.
Qed.

Lemma caps_read img ks rest : holds img ks →
  Image.decode_caps (document img ks ++ rest) (length ks) 0 80 (padded []) = Some (Ok (padded ks)).
Proof.
  intros H. pose proof (decode_caps_reads (document img ks ++ rest) ks []) as Hcaps. cbn [length app] in Hcaps.
  destruct (ho_caps _ _ H) as [_ Hko]. destruct (ho_count _ _ H) as [_ Hn].
  change (80 + Z.of_nat 0 * CAP_BYTES) with 80 in Hcaps. apply Hcaps; [done|unfold MAX_CAPS in *; lia|].
  intros i k Hi. unfold document, covered_bytes. rewrite <-!app_assoc. rewrite <-(slice_caps ks i k Hi).
  pose proof (lookup_lt_Some _ _ _ Hi). pose proof (length_body img ks H).
  replace (80 + (0 + i) * 16)%nat with (length (concat (body img ks)) + i * 16)%nat by lia. rewrite slice_app_r.
  apply slice_low. rewrite length_caps_piece. lia.
Qed.

Lemma decode_document img ks rest kh : holds img ks →
  Image.decode (document img ks ++ rest) kh =
  Some (if bool_decide (Image.kernel_hash img = kh) then Ok img else Err ImageError.ForeignKernel).
Proof.
  intros H. pose proof (length_document img ks H) as Hd. pose proof (length_covered img ks H) as Hlc.
  destruct (document_fields img ks rest H) as (F1 & F2 & F3 & F4 & F5 & F6 & F7 & F8 & F9).
  pose proof (ho_count _ _ H) as [Hc Hn]. unfold MAX_CAPS in Hn.
  assert (len (document img ks) = 84 + Z.of_nat (length ks) * 16) as Hl.
  { unfold len, document. rewrite length_app, length_le_bytes, Hlc. lia. }
  assert (len (document img ks ++ rest) = 84 + Z.of_nat (length ks) * 16 + len rest) as Hlr
    by (unfold len in *; rewrite length_app; lia).
  assert (0 <= len rest) as H0 by (unfold len; lia).
  unfold Image.decode, Image.le32, Image.le64, OFF_BODY, BODY_FIXED, CAP_BYTES in *. rewrite Hlr, (proj2 (Z.ltb_ge _ 16)) by lia.
  rewrite F1. cbn [must fmap option_fmap option_map parse_bind]. rewrite bool_decide_true by done. cbn [negb].
  change (Z.to_nat 8) with 8%nat. rewrite F2. cbn [must fmap option_fmap option_map parse_bind]. rewrite Z.eqb_refl. cbn [negb].
  change (Z.to_nat 12) with 12%nat. rewrite F3. cbn [must fmap option_fmap option_map parse_bind].
  set (n := Z.of_nat (length ks)) in *.
  replace (32 + 8 + 8 + 8 + 4 + 4 + n * 16 - (32 + 8 + 8 + 8 + 4 + 4)) with (n * 16) by lia. rewrite Z.mod_mul by lia.
  rewrite (proj2 (Z.ltb_ge _ _)) by lia. cbn [orb negb Z.eqb]. rewrite (proj2 (Z.ltb_ge _ _)) by lia.
  change (Z.to_nat (16 + B_CAPCOUNT)) with 72%nat. rewrite F8. cbn [must fmap option_fmap option_map parse_bind]. rewrite Hc.
  rewrite (proj2 (Z.ltb_ge _ _)) by (unfold MAX_CAPS; lia). rewrite Z.eqb_refl. cbn [negb].
  assert (Z.to_nat (16 + (32 + 8 + 8 + 8 + 4 + 4 + n * 16)) = length (covered_bytes img ks)) as Ho by (rewrite Hlc; unfold n; lia).
  destruct (checksum_fields img ks rest H) as [Hcrc Hcov]. unfold OFF_BODY, BODY_FIXED, CAP_BYTES in Hcov. fold n in Hcov.
  rewrite Ho, Hcrc. cbn [must fmap option_fmap option_map parse_bind].
  rewrite Hcov. cbn [must fmap option_fmap option_map parse_bind]. rewrite Z.eqb_refl. cbn [negb]. rewrite F4.
  cbn [must fmap option_fmap option_map parse_bind]. destruct (bool_decide _); cbn [negb]; [|done].
  change (Z.to_nat (16 + B_PROGRESS)) with 48%nat. change (Z.to_nat (16 + B_NONCE)) with 56%nat.
  change (Z.to_nat (16 + B_EPOCH)) with 64%nat. change (Z.to_nat (16 + B_PRECOND)) with 76%nat.
  rewrite F5, F6, F7, F9. cbn [must fmap option_fmap option_map parse_bind]. unfold n. rewrite Nat2Z.id.
  change (Image.decode_caps _ _ 0 _ _) with (Image.decode_caps (document img ks ++ rest) (length ks) 0 80 (padded [])).
  rewrite (caps_read img ks rest H). cbn [parse_bind].
  destruct (ho_caps _ _ H) as [<- _]. destruct img; cbn in *. by rewrite Hc.
Qed.

(** The records of the kernel are machine words. *)
Definition slot_ok (k : ObjectKind) : Prop :=
  match k with
  | Memory r => in_width 64 (PhysRegion.len r)
  | SchedContext b p => in_width 32 b ∧ in_width 32 p
  | _ => True
  end.

Lemma place_width l x i : place l x = Some i → in_width 32 i.
Proof.
  unfold place. destruct (position _ _); [|done]. intros [= <-]. unfold in_width. by apply Z.mod_pos_bound.
Qed.

Lemma kept_ok scope kinds : Forall (λ o, ∀ k, o = Some k → slot_ok k) kinds → Forall kind_ok (kept scope kinds).
Proof.
  unfold kept. induction 1 as [|[k|] kinds Hk _ IH]; [constructor| |exact IH]. cbn [omap list_omap mbind option_bind].
  destruct (classify k scope) as [x pre|] eqn:E; [|exact IH]. constructor; [|exact IH]. specialize (Hk k eq_refl).
  destruct k as [r|id|raw|id|budget period| |pd| | | | | | |]; cbn [classify] in E; try discriminate E.
  1, 5: by injection E as <- _.
  4: by destruct (place (Scope.pds scope) pd).
  all: match type of E with match ?m with _ => _ end = _ => destruct m as [i|] eqn:Hi; [|done] end.
  all: injection E as <- _; by eapply place_width.
Qed.

Lemma build_holds kh p no ep kinds scope subject edges img :
  length kh = 32%nat → bytes_ok kh → in_width 64 p → in_width 64 no → in_width 64 ep →
  Forall (λ o, ∀ k, o = Some k → slot_ok k) kinds →
  Image.build kh p no ep kinds scope subject edges = Ok img → holds img (kept scope kinds).
Proof.
  intros Hl Hk Hp Hno Hep Hs Hb. unfold Image.build, classify_all, classify_cut in Hb.
  destruct (classify_from 0 kinds scope) as [[]|[]]; [|done]. destruct (cut_from 0 subject edges scope) as [[]|[]]; [|done].
  change (Image.mk kh p no ep _ 0 0) with (Image.mk kh p no ep (padded []) (Z.of_nat (length (@nil ExternKind.t))) 0) in Hb.
  rewrite build_from_Ok in Hb by (cbn [length]; lia). destruct Hb as (_ & Hn & ->). cbn [length app Nat.add] in *.
  split; try done; cbn; [by destruct (budgeted kinds)|by split; [|apply kept_ok]].
Qed.

Lemma build_hash kh p no ep kinds scope subject edges img :
  Image.build kh p no ep kinds scope subject edges = Ok img → Image.kernel_hash img = kh.
Proof.
  unfold Image.build, classify_all, classify_cut.
  destruct (classify_from 0 kinds scope) as [[]|[]]; [|done]. destruct (cut_from 0 subject edges scope) as [[]|[]]; [|done].
  change (Image.mk kh p no ep _ 0 0) with (Image.mk kh p no ep (padded []) (Z.of_nat (length (@nil ExternKind.t))) 0).
  rewrite build_from_Ok by (cbn [length]; lia). by intros (_ & _ & ->).
Qed.

(** C13: A checkpoint that was built and written is read back as it was built, whatever else the
    buffer holds; only its own bytes are written, and a kernel with another hash is told so. *)
Theorem checkpoint_roundtrip (kh : list Z) (progress nonce epoch : Z) (kinds : list (option ObjectKind))
    (scope : Scope.t) (subject : Z) (edges : list Edge.t) (img : Image.t) (out : list Z) :
  length kh = 32%nat → bytes_ok kh → in_width 64 progress → in_width 64 nonce → in_width 64 epoch →
  Forall (λ o, ∀ k, o = Some k → slot_ok k) kinds →
  Image.build kh progress nonce epoch kinds scope subject edges = Ok img → Image.encoded_len img <= len out →
  ∃ out', Image.encode img out = Some (Ok (Image.encoded_len img), out') ∧
    length out' = length out ∧ drop (Z.to_nat (Image.encoded_len img)) out' = drop (Z.to_nat (Image.encoded_len img)) out ∧
    Image.decode out' kh = Some (Ok img) ∧
    ∀ other, other ≠ kh → Image.decode out' other = Some (Err ImageError.ForeignKernel).
Proof.
  intros Hl Hk Hp Hno Hep Hs Hb Hout. pose proof (build_holds _ _ _ _ _ _ _ _ _ Hl Hk Hp Hno Hep Hs Hb) as H.
  apply build_hash in Hb as Hh. pose proof (length_document _ _ H) as Hd. unfold len in Hd, Hout.
  eexists. split; [by apply encode_writes|]. rewrite <-Hd, Nat2Z.id. split; [rewrite length_app, length_drop; lia|].
  split; [by rewrite drop_app_length|]. rewrite (decode_document _ _ _ kh H), bool_decide_true by done. split; [done|].
  intros other Hne. rewrite (decode_document _ _ _ other H), bool_decide_false by congruence. done.
Qed.

(** What a reader that accepts an image has checked. *)
Record decoded (d : list Z) (kh : list Z) (img : Image.t) : Prop := {
  de_count : 0 <= Image.cap_count img <= 16;
  de_body : le_at d 12 4 = Some (64 + Image.cap_count img * 16);
  de_field : le_at d 72 4 = Some (Image.cap_count img);
  de_total : 84 + Image.cap_count img * 16 <= len d;
  de_crc : le_at d (Z.to_nat (80 + Image.cap_count img * 16)) 4 =
    Some (Part.crc32 (take (Z.to_nat (80 + Image.cap_count img * 16)) d));
  de_hash : slice d 16 32 = Some kh ∧ Image.kernel_hash img = kh }.

Lemma decode_decoded d kh img : bytes_ok d → Image.decode d kh = Some (Ok img) → decoded d kh img.
Proof.
  intros Hb H. unfold Image.decode, Image.le32, Image.le64 in H. parsed H. injection H as <-.
  rewrite ?negb_false_iff, ?orb_false_iff, ?bool_decide_eq_true, ?Z.eqb_eq, ?Z.ltb_ge in *.
  subst. destruct (get_Some _ _ _ _ R4) as (H1 & H2 & H3 & _). apply (le_at_width _ _ _ _ Hb) in R2 as Hw. unfold in_width in Hw.
  rewrite crc32_same in R3. subst v4. unfold OFF_BODY, BODY_FIXED, CAP_BYTES, MAX_CAPS in *. rewrite Z.sub_0_r, drop_0 in R3.
  replace (16 + (32 + 8 + 8 + 8 + 4 + 4 + v2 * 16)) with (80 + v2 * 16) in * by lia.
  change (Z.to_nat 12) with 12%nat in R1. split; cbn; [lia|rewrite R1; f_equal; lia|done|lia|done|done].
Qed.

Lemma decode_caps_runs b n i o cs : 0 <= o → o + 16 * Z.of_nat n <= len b → (i + n <= length cs)%nat →
  is_Some (Image.decode_caps b n i o cs).
Proof.
  revert i o cs. induction n as [|n IH]; intros i o cs Ho Hl Hi; [by eexists|]. cbn [Image.decode_caps]. unfold len in *.
  apply parse_bind_runs; [apply must_runs, le_at_Some; lia|intros tag _].
  apply parse_bind_runs; [apply must_runs, le_at_Some; lia|intros v _].
  apply parse_bind_runs; [by eexists|intros k _].
  apply parse_bind_runs; [apply must_runs, lookup_lt_is_Some; lia|intros x _].
  apply IH; [unfold CAP_BYTES; lia|unfold CAP_BYTES; lia|rewrite length_insert; lia].
Qed.

(** No sequence of bytes makes the reader panic. *)
Lemma decode_runs d kh : bytes_ok d → is_Some (Image.decode d kh).
Proof.
  intros Hb. unfold Image.decode, Image.le32, Image.le64, OFF_BODY, BODY_FIXED, CAP_BYTES, B_CAPCOUNT, B_PROGRESS, B_NONCE, B_EPOCH, B_PRECOND, MAX_CAPS.
  destruct (Z.ltb_spec (len d) 16) as [|H1]; [by eexists|]. unfold len in *.
  apply parse_bind_runs; [apply must_runs; rewrite slice_Some by lia; by eexists|intros magic _].
  destruct (bool_decide _); cbn [negb]; [|by eexists].
  apply parse_bind_runs; [apply must_runs, le_at_Some; lia|intros version _].
  destruct (version =? _); cbn [negb]; [|by eexists].
  apply parse_bind_runs; [apply must_runs, le_at_Some; lia|intros n Hn]. rewrite must_Ok in Hn.
  apply (le_at_width _ _ _ _ Hb) in Hn. unfold in_width in Hn.
  match goal with |- is_Some (if (?a <? ?b) || ?c then _ else _) => destruct (Z.ltb_spec a b) as [|H2]; [by eexists|destruct c; [by eexists|]] end.
  cbn [orb]. destruct (Z.ltb_spec (Z.of_nat (length d)) (16 + n + 4)) as [|H3]; [by eexists|].
  apply parse_bind_runs; [apply must_runs, le_at_Some; lia|intros count Hc]. rewrite must_Ok in Hc.
  apply (le_at_width _ _ _ _ Hb) in Hc. unfold in_width in Hc.
  destruct (Z.ltb_spec (Z.of_nat 16) count) as [|H4]; [by eexists|].
  match goal with |- is_Some (if negb (?a =? ?b) then _ else _) => destruct (Z.eqb_spec a b) as [H5|]; cbn [negb]; [|by eexists] end.
  apply parse_bind_runs; [apply must_runs, le_at_Some; lia|intros stored _].
  apply parse_bind_runs; [apply must_runs, get_is_Some; unfold len; lia|intros covered _].
  destruct (crc32 covered =? stored); cbn [negb]; [|by eexists].
  apply parse_bind_runs; [apply must_runs; rewrite slice_Some by lia; by eexists|intros h _].
  destruct (bool_decide _); cbn [negb]; [|by eexists].
  do 4 (apply parse_bind_runs; [apply must_runs, le_at_Some; lia|intros ? _]).
  apply parse_bind_runs; [|intros cs _; by eexists].
  apply decode_caps_runs; [lia|unfold len; lia|rewrite length_replicate; lia].
Qed.

(** C21: An accepted image of which one byte is changed is never accepted again, whichever byte
    of it that is - its lengths and its checksum included; the reader answers with an error. *)
Theorem checkpoint_damage_detected (d kh : list Z) (img : Image.t) (i : nat) (x v : Z) :
  bytes_ok d → Image.decode d kh = Some (Ok img) → Z.of_nat i < Image.encoded_len img → d !! i = Some x →
  in_width 8 v → v ≠ x → ∃ e, Image.decode (<[i := v]> d) kh = Some (Err e).
Proof.
  intros Hb Hd Hi Hx Hv Hne. apply decode_decoded in Hd; [|done]. destruct Hd as [Hc Hbody Hfield Htotal Hcrc _].
  unfold Image.encoded_len, image_bytes, OFF_BODY, BODY_FIXED, CAP_BYTES, wrapping_add in Hi. rewrite Z.mod_small in Hi by lia.
  assert (bytes_ok (<[i := v]> d)) as Hb' by by apply Forall_insert.
  destruct (decode_runs (<[i := v]> d) kh Hb') as [[img'|e] Hr]; [exfalso|by exists e].
  apply decode_decoded in Hr; [|done]. destruct Hr as [Hc' Hbody' Hfield' _ Hcrc' _]. unfold len in *.
  assert (Image.cap_count img' = Image.cap_count img ∧ ~ (12 <= i < 16)%nat ∧ ~ (72 <= i < 76)%nat) as (E & N1 & N2).
  { destruct (decide (12 <= i < 16)%nat) as [H1|H1].
    - exfalso. rewrite le_at_insert, Hfield in Hfield' by lia. injection Hfield' as E. rewrite <-E, <-Hbody in Hbody'.
      by apply (le_at_changed d i x v 12 4) in Hbody'; [|done|done|done|done|lia|lia].
    - rewrite le_at_insert, Hbody in Hbody' by lia. injection Hbody' as E0. assert (Image.cap_count img' = Image.cap_count img) as E by lia.
      split; [done|]. split; [done|]. intros H2. rewrite E, <-Hfield in Hfield'.
      by apply (le_at_changed d i x v 72 4) in Hfield'; [|done|done|done|done|lia|lia]. }
  rewrite E in Hcrc'. set (n := Z.to_nat (80 + Image.cap_count img * 16)) in *.
  destruct (decide (i < n)%nat) as [Hin|Hin].
  - rewrite le_at_insert, Hcrc, take_insert_lt in Hcrc' by lia. injection Hcrc' as E'.
    apply (crc_insert (take n d) i x v); [by apply Forall_take|done|by rewrite lookup_take_lt|congruence|done].
  - rewrite take_insert_ge, <-Hcrc in Hcrc' by lia.
    by apply (le_at_changed d i x v n 4) in Hcrc'; [|done|done|done|done|lia|lia].
Qed.

(** ** A checkpoint *)
Definition demo_scope : Scope.t := Scope.mk [7; 8] [] [9] [].
Definition demo_slots : list (option ObjectKind) :=
  [Some (Memory (PhysRegion.new 0x200000 4096)); None; Some (Endpoint 8); Some (SchedContext 5 100); Some (Tcb 9)].
Definition demo_edges : list Edge.t := [Edge.mk (Channel.Endpoint 7) 9 Caller; Edge.mk (Channel.Endpoint 5) 4 Sender].
Definition demo_kernel : list Z := replicate 32 0xAB.
Definition demo_image : Image.t :=
  Image.mk demo_kernel 3 77 1
    (padded [ExternKind.Region 4096; ExternKind.Endpoint 1; ExternKind.SchedContext 5 100; ExternKind.Tcb 0]) 4 1.
Definition demo_buffer : list Z := replicate 160 0.
Definition demo_written : list Z := match Image.encode demo_image demo_buffer with Some (_, out) => out | None => [] end.

Example demo_built : Image.build demo_kernel 3 77 1 demo_slots demo_scope 12 demo_edges = Ok demo_image.
Proof. reflexivity. Qed.

Lemma checkpoint_roundtrip_witness :
  Image.build demo_kernel 3 77 1 demo_slots demo_scope 12 demo_edges = Ok demo_image ∧
  ∃ out', Image.encode demo_image demo_buffer = Some (Ok 148, out') ∧
    length out' = 160%nat ∧ drop (Z.to_nat 148) out' = drop (Z.to_nat 148) demo_buffer ∧
    Image.decode out' demo_kernel = Some (Ok demo_image) ∧
    ∀ other, other ≠ demo_kernel → Image.decode out' other = Some (Err ImageError.ForeignKernel).
Proof.
  split; [reflexivity|].
  apply (checkpoint_roundtrip demo_kernel 3 77 1 demo_slots demo_scope 12 demo_edges demo_image demo_buffer).
  - reflexivity.
  - apply bytes_ok_true. vm_compute. reflexivity.
  - by unfold in_width.
  - by unfold in_width.
  - by unfold in_width.
  - repeat constructor; intros k [= <-]; cbn; try split; try done; by unfold in_width.
  - reflexivity.
  - by vm_compute.
Defined.

Example demo_decodes : Image.decode demo_written demo_kernel = Some (Ok demo_image).
Proof. vm_compute. reflexivity. Qed.

Lemma checkpoint_damage_detected_witness :
  Image.decode demo_written demo_kernel = Some (Ok demo_image) ∧
  ∃ e, Image.decode (<[100%nat := 33]> demo_written) demo_kernel = Some (Err e).
Proof.
  split; [exact demo_decodes|]. apply (checkpoint_damage_detected demo_written demo_kernel demo_image 100 0 33).
  - apply bytes_ok_true. vm_compute. reflexivity.
  - exact demo_decodes.
  - by vm_compute.
  - vm_compute. reflexivity.
  - by unfold in_width.
  - done.
Defined.

Definition demo_numbering : numbering :=
  {| nu_ep := λ e, e + 3; nu_ntfn := λ n, n; nu_thread := λ t, 100 - t; nu_pd := λ p, p * 2;
     nu_base := λ r, PhysRegion.base r + 0x1000000; nu_dev := λ _, 0 |}.
Lemma build_machine_independent_witness :
  numbering_ok demo_numbering ∧
  Image.build demo_kernel 3 77 1 (renamed_slots demo_numbering demo_slots) (renamed_scope demo_numbering demo_scope) 88
    (map (renamed_edge demo_numbering) demo_edges) =
  Image.build demo_kernel 3 77 1 demo_slots demo_scope 12 demo_edges.
Proof.
  assert (numbering_ok demo_numbering) as H by (split; cbn; intros; lia).
  split; [exact H|]. exact (build_machine_independent demo_numbering H demo_kernel 3 77 1 demo_slots demo_scope 12 demo_edges).
Defined.
