(* ===== verification/SpawnCheck.v ===== *)
(** * The checks of a new stack

    [src/crates/caprock-cap/src/spawncheck.rs]: the window inside a capability, and whether it
    may become the stack of a second thread. *)

From S2P Require Import Prelude.
#[local] Open Scope Z_scope.

Module StackRefusal.
Inductive t := NotMemory | NotWritable | WrongSpace | DeviceReachable | BadGeometry | Overlaps | ThreadLimit | OutsideCap.
#[global] Instance eq_dec : EqDecision t.
Proof. solve_decision. Defined.
End StackRefusal.

Definition MIN_STACK_BYTES : Z := 16 * 1024.
Definition PAGE : Z := 4096.
Definition MAX_THREADS_PER_PD : Z := 64.

Module SubRegion.
Record t := mk { base : Z; len : Z }.
Definition overlaps (self : t) (base2 len2 : Z) : bool :=
  if (len self =? 0) || (len2 =? 0) then false
  else (base self <? saturating_add 64 base2 len2) && (base2 <? saturating_add 64 (base self) (len self)).
End SubRegion.

Definition sub_region (cap_base cap_len offset_pages length_pages : Z) : result SubRegion.t StackRefusal.t :=
  if (offset_pages =? 0) && (length_pages =? 0) then Ok (SubRegion.mk cap_base cap_len)
  else if length_pages =? 0 then Err StackRefusal.OutsideCap
  else
    match checked_mul 64 offset_pages PAGE with None => Err StackRefusal.OutsideCap | Some off =>
    match checked_mul 64 length_pages PAGE with None => Err StackRefusal.OutsideCap | Some len =>
    match checked_add 64 cap_base off with None => Err StackRefusal.OutsideCap | Some base =>
    match checked_add 64 base len with None => Err StackRefusal.OutsideCap | Some end_ =>
    match checked_add 64 cap_base cap_len with None => Err StackRefusal.OutsideCap | Some cap_end =>
      if cap_end <? end_ then Err StackRefusal.OutsideCap else Ok (SubRegion.mk base len)
    end end end end end.

Module StackProposal.
Record t := mk {
  is_memory : bool; writable : bool; normal_space : bool; region : SubRegion.t;
  device_reachable : bool; overlaps_existing : bool; threads_now : Z }.
End StackProposal.

Definition check_stack (p : StackProposal.t) : result Z StackRefusal.t :=
  if negb (StackProposal.is_memory p) then Err StackRefusal.NotMemory
  else if negb (StackProposal.writable p) then Err StackRefusal.NotWritable
  else if negb (StackProposal.normal_space p) then Err StackRefusal.WrongSpace
  else if StackProposal.device_reachable p then Err StackRefusal.DeviceReachable
  else
    let base := SubRegion.base (StackProposal.region p) in
    let len := SubRegion.len (StackProposal.region p) in
    if (len <? MIN_STACK_BYTES) || negb (base mod PAGE =? 0) || negb (len mod PAGE =? 0) then Err StackRefusal.BadGeometry
    else if StackProposal.overlaps_existing p then Err StackRefusal.Overlaps
    else if MAX_THREADS_PER_PD <=? StackProposal.threads_now p then Err StackRefusal.ThreadLimit
    else match checked_add 64 base len with Some top => Ok top | None => Err StackRefusal.BadGeometry end.

(** ** The window *)

(** The window named by the two registers of a caller. *)
Definition window (cap_base cap_len off n : Z) : SubRegion.t :=
  if (off =? 0) && (n =? 0) then SubRegion.mk cap_base cap_len else SubRegion.mk (cap_base + off * PAGE) (n * PAGE).

(** The window is the one that was named, without any wrap-around, and it is granted exactly
    when it is not empty and lies inside the capability. *)
Lemma sub_region_exact cap_base cap_len off n w :
  in_width 64 cap_base → 0 <= cap_len → cap_base + cap_len < 2 ^ 64 → 0 <= off → 0 <= n →
  sub_region cap_base cap_len off n = Ok w ↔
  w = window cap_base cap_len off n ∧ ((off = 0 ∧ n = 0) ∨ (0 < n ∧ off * PAGE + n * PAGE <= cap_len)).
Proof.
  unfold in_width. intros Hb Hl Hcap Ho Hn. unfold sub_region, window, checked_mul, checked_add, PAGE.
  destruct (Z.eqb_spec off 0) as [->|Ho0], (Z.eqb_spec n 0) as [->|Hn0]; cbn [andb].
  - split; [intros [= <-]|intros [-> _]; done]. split; [done|by left].
  - rewrite (proj2 (Z.ltb_lt (0 * 4096) (2 ^ 64))) by lia.
    repeat match goal with |- context [?a <? ?b] => destruct (Z.ltb_spec a b) end; split;
      try (intros [= <-]); try (intros [-> ?]); try done; try (split; [done|right]); lia.
  - split; [done|]. lia.
  - repeat match goal with |- context [?a <? ?b] => destruct (Z.ltb_spec a b) end; split;
      try (intros [= <-]); try (intros [-> ?]); try done; try (split; [done|right]); lia.
Qed.

(** A refusal of the window has one name. *)
Lemma sub_region_Err cap_base cap_len off n r : sub_region cap_base cap_len off n = Err r → r = StackRefusal.OutsideCap.
Proof.
  unfold sub_region. intros H. repeat case_match; congruence.
Qed.

(** What a stack has to satisfy. *)
Record stack_fits (p : StackProposal.t) : Prop := {
  sf_cap : StackProposal.is_memory p = true ∧ StackProposal.writable p = true ∧ StackProposal.normal_space p = true;
  sf_device : StackProposal.device_reachable p = false;
  sf_size : MIN_STACK_BYTES <= SubRegion.len (StackProposal.region p);
  sf_aligned : (PAGE | SubRegion.base (StackProposal.region p)) ∧ (PAGE | SubRegion.len (StackProposal.region p));
  sf_alone : StackProposal.overlaps_existing p = false;
  sf_threads : StackProposal.threads_now p < MAX_THREADS_PER_PD;
  sf_width : SubRegion.base (StackProposal.region p) + SubRegion.len (StackProposal.region p) < 2 ^ 64 }.

Lemma check_stack_Ok p top : check_stack p = Ok top ↔
  stack_fits p ∧ top = SubRegion.base (StackProposal.region p) + SubRegion.len (StackProposal.region p).
Proof.
  unfold check_stack. split.
  - intros H. repeat match type of H with (if ?c then _ else _) = _ => destruct c eqn:?; [done|] end.
    rewrite ?negb_false_iff, ?orb_false_iff, ?Z.ltb_ge, ?Z.leb_gt, ?Z.eqb_eq in *.
    destruct (checked_add _ _ _) as [t|] eqn:E; [|done]. apply checked_add_Some in E as [-> Hw]. injection H as <-. destruct_and?.
    split; [|done]. rewrite ?negb_false_iff, ?Z.eqb_eq in *. split; try done. by split; apply Z.mod_divide.
  - intros [[(-> & -> & ->) -> Hs [Hb Hl] -> Ht Hw] ->]. apply Z.mod_divide in Hb, Hl; [|done..]. cbv zeta. cbn [negb].
    rewrite Hb, Hl, (proj2 (Z.ltb_ge _ _)), (proj2 (Z.leb_gt _ _)) by done. cbn [negb orb Z.eqb].
    by rewrite (proj2 (checked_add_Some _ _ _ _) (conj eq_refl Hw)).
Qed.

(** A second thread gets a stack exactly when the capability is memory that can be read and
    written in the normal space, the window named lies inside it - however large the numbers of
    the caller are -, no device reaches it, it is aligned, at least 16 KiB, free of other stacks
    and the domain has room for a thread; the stack then starts at the end of the window, inside
    the capability and below the end of the address space. *)
Theorem spawn_stack_exact (p : StackProposal.t) (cap_base cap_len off n top : Z) :
  in_width 64 cap_base → in_width 64 cap_len → cap_base + cap_len < 2 ^ 64 → in_width 64 off → in_width 64 n →
  (∃ w, sub_region cap_base cap_len off n = Ok w ∧ w = StackProposal.region p ∧ check_stack p = Ok top) ↔
  StackProposal.region p = window cap_base cap_len off n ∧
  ((off = 0 ∧ n = 0) ∨ (0 < n ∧ off * PAGE + n * PAGE <= cap_len)) ∧ stack_fits p ∧
  top = SubRegion.base (StackProposal.region p) + SubRegion.len (StackProposal.region p) ∧
  cap_base < top <= cap_base + cap_len.
Proof.
  intros Hb [Hl _] Hc [Ho _] [Hn _]. split.
  - intros (w & Hw & -> & Hk). apply sub_region_exact in Hw as [Hw Hin]; [|done..]. apply check_stack_Ok in Hk as [Hf ->].
    split_and!; [done..| |].
    all: pose proof (sf_size p Hf) as Hs; rewrite Hw in *; unfold window, MIN_STACK_BYTES, PAGE in *;
      destruct ((off =? 0) && (n =? 0)) eqn:E; cbn [SubRegion.base SubRegion.len] in *; rewrite ?andb_true_iff, ?andb_false_iff, ?Z.eqb_eq, ?Z.eqb_neq in E; lia.
  - intros (Hw & Hin & Hf & -> & _). eexists. rewrite sub_region_exact by done. split; [by split|]. split; [done|]. by apply check_stack_Ok.
Qed.

Definition demo_proposal : StackProposal.t :=
  StackProposal.mk true true true (SubRegion.mk 0x402000 0x4000) false false 1.
Lemma spawn_stack_exact_witness :
  ∃ w, sub_region 0x400000 0x10000 2 4 = Ok w ∧ w = StackProposal.region demo_proposal ∧ check_stack demo_proposal = Ok 0x406000.
Proof.
  apply (spawn_stack_exact demo_proposal 0x400000 0x10000 2 4 0x406000).
  1-5: unfold in_width; lia.
  split; [reflexivity|]. split; [right; unfold PAGE; lia|]. split; [|cbn; lia].
  split; cbn; try done. split; [by exists 0x402|by exists 4].
Defined.
