(* ===== verification/Sync.v ===== *)
(** * Locks

    [src/crates/caprock-sync/src/lib.rs]: the fair ticket lock and the reader-writer lock,
    as machines of cores whose atomic accesses interleave.  One step of a core is one atomic
    access of the source, or the masking of its interrupts; the accesses to one word have one
    order, as the language guarantees, and the two words of the reader-writer lock are taken in
    one order too.  What a section does with the data is a list of reads and writes that the
    locks have to keep apart. *)

From S2P Require Import Prelude.
#[local] Open Scope Z_scope.

(** [irq_save_disable] and [irq_restore] on the flag "interrupts are enabled". *)
Definition irq_save_disable (irq : bool) : bool * bool := (irq, false).
Definition irq_restore (daif irq : bool) : bool := if daif then true else irq.

(** ** Counting cores *)
Section count.
Context {A : Type}.
Implicit Types (f : A → bool) (l : list A).
Definition count f l : Z := Z.of_nat (count_if f l).

Lemma count_insert f l i x y : l !! i = Some x → count f (<[i := y]> l) = count f l - Z.b2z (f x) + Z.b2z (f y).
Proof. intros Hi. pose proof (count_if_insert f l i x y Hi). unfold count. destruct (f x), (f y); cbn [Z.b2z]; lia. Qed.
Lemma count_bound f l : 0 <= count f l <= Z.of_nat (length l).
Proof. unfold count. pose proof (count_if_length f l). lia. Qed.
Lemma count_member f l i x : l !! i = Some x → f x = true → 1 <= count f l.
Proof. intros Hi Hf. unfold count. assert (0 < count_if f l)%nat by (apply count_if_pos; by exists i, x). lia. Qed.
Lemma count_pos f l : 0 < count f l → ∃ i x, l !! i = Some x ∧ f x = true.
Proof. unfold count. intros H. apply count_if_pos. lia. Qed.
Lemma count_zero f l i x : count f l = 0 → l !! i = Some x → f x = false.
Proof. intros H Hi. destruct (f x) eqn:E; [|done]. pose proof (count_member f l i x Hi E). lia. Qed.
Lemma count_split f l i x : l !! i = Some x → count f l = count f (take i l) + Z.b2z (f x) + count f (drop (S i) l).
Proof.
  intros Hi. rewrite <-(take_drop_middle l i x Hi) at 1. unfold count. rewrite count_if_app, count_if_cons.
  destruct (f x); cbn [Z.b2z]; lia.
Qed.
Lemma count_missing f l i x : l !! i = Some x → f x = false → count f l < Z.of_nat (length l).
Proof.
  intros Hi Hf. rewrite (count_split f l i x Hi), Hf. pose proof (count_bound f (take i l)) as H1. pose proof (count_bound f (drop (S i) l)) as H2.
  rewrite length_take in H1. rewrite length_drop in H2. apply lookup_lt_Some in Hi. cbn [Z.b2z]. lia.
Qed.
Lemma count_two f l i j x y : l !! i = Some x → l !! j = Some y → f x = true → f y = true → count f l <= 1 → i = j.
Proof.
  assert (∀ a b u v, (a < b)%nat → l !! a = Some u → l !! b = Some v → f u = true → f v = true → 2 <= count f l) as H.
  { intros a b u v Hab Ha Hb Hu Hv. rewrite (count_split f l a u Ha), Hu. pose proof (count_bound f (take a l)).
    assert (drop (S a) l !! (b - S a)%nat = Some v) as Hd by (rewrite lookup_drop, <-Hb; f_equal; lia).
    pose proof (count_member f _ _ _ Hd Hv). cbn [Z.b2z]. lia. }
  intros Hi Hj Hx Hy Hc. destruct (Nat.lt_trichotomy i j) as [Hl|[|Hl]]; [|done|]; exfalso.
  - specialize (H i j x y Hl Hi Hj Hx Hy). lia.
  - specialize (H j i y x Hl Hj Hi Hy Hx). lia.
Qed.
Lemma count_le f g l : (∀ x, f x = true → g x = true) → count f l <= count g l.
Proof.
  intros H. unfold count. apply inj_le. induction l as [|x l IH]; [done|]. rewrite !count_if_cons. specialize (H x).
  destruct (f x); [rewrite H by done|]; destruct (g x); lia.
Qed.
End count.

(** ** The ticket lock *)
Module SpinLock.
Section lock.
Context {D Op : Type} (run : Op → D → D).

Record t := mk { next_ticket : Z; now_serving : Z; data : D }.
Definition new (value : D) : t := mk 0 0 value.

(** Where a core is: [todo] is what is left of its section; [Loaded] between the read and the
    write of one access to the data. *)
Inductive place :=
| Outside
| Masked (daif : bool) (todo : list Op)
| Spinning (daif : bool) (ticket : Z) (todo : list Op)
| Holding (daif : bool) (todo : list Op)
| Loaded (daif : bool) (op : Op) (v : D) (todo : list Op)
| Released (daif : bool).
Record core := Core { irq : bool; at_ : place }.
Inductive event := Drew | Entered (todo : list Op) | Left.

(** [lock]: the masking, the ticket, one turn of the loop. *)
Definition lock (c : core) (self : t) (section : list Op) : option event * core * t :=
  match at_ c with
  | Outside => let '(daif, irq) := irq_save_disable (irq c) in (None, Core irq (Masked daif section), self)
  | Masked daif todo =>
    (Some Drew, Core (irq c) (Spinning daif (next_ticket self) todo),
     mk (wrapping_add 32 (next_ticket self) 1) (now_serving self) (data self))
  | Spinning daif ticket todo =>
    if negb (now_serving self =? ticket) then (None, c, self)
    else (Some (Entered todo), Core (irq c) (Holding daif todo), self)
  | _ => (None, c, self)
  end.
(** What is done through the guard: reading the data, and writing back what was made of it. *)
Definition deref (c : core) (self : t) : option event * core * t :=
  match at_ c with
  | Holding daif (op :: todo) => (None, Core (irq c) (Loaded daif op (data self) todo), self)
  | Loaded daif op v todo => (None, Core (irq c) (Holding daif todo), mk (next_ticket self) (now_serving self) (run op v))
  | _ => (None, c, self)
  end.
(** [drop] of the guard. *)
Definition drop (c : core) (self : t) : option event * core * t :=
  match at_ c with
  | Holding daif [] =>
    (Some Left, Core (irq c) (Released daif), mk (next_ticket self) (wrapping_add 32 (now_serving self) 1) (data self))
  | Released daif => (None, Core (irq_restore daif (irq c)) Outside, self)
  | _ => (None, c, self)
  end.
(** The next access of a core; [section] is what it will do if it takes the lock now. *)
Definition act (c : core) (self : t) (section : list Op) : option event * core * t :=
  match at_ c with
  | Outside | Masked _ _ | Spinning _ _ _ => lock c self section
  | Holding _ (_ :: _) | Loaded _ _ _ _ => deref c self
  | Holding _ [] | Released _ => drop c self
  end.

(** ** The machine *)
Record machine := Machine { mutex : t; cores : list core; trace : list (nat * event) }.

Inductive step : machine → machine → Prop :=
| step_act m i c section e c' self' : cores m !! i = Some c → act c (mutex m) section = (e, c', self') →
    step m (Machine self' (<[i := c']> (cores m)) (trace m ++ option_list ((λ e, (i, e)) <$> e)))
| step_irq m i b : cores m !! i = Some (Core (negb b) Outside) →
    step m (Machine (mutex m) (<[i := Core b Outside]> (cores m)) (trace m)).

(** The lock is found with both counters at the same number, whatever it is. *)
Definition idle (start : Z) (value : D) (flags : list bool) : machine :=
  Machine (mk start start value) ((λ b, Core b Outside) <$> flags) [].
Definition reachable (start : Z) (value : D) (flags : list bool) : machine → Prop := rtc step (idle start value flags).

(** Who drew a ticket, entered and left, in order. *)
Definition drew (l : list (nat * event)) : list nat := omap (λ '(i, e), match e with Drew => Some i | _ => None end) l.
Definition entered (l : list (nat * event)) : list nat := omap (λ '(i, e), match e with Entered _ => Some i | _ => None end) l.
Definition left (l : list (nat * event)) : list nat := omap (λ '(i, e), match e with Left => Some i | _ => None end) l.
Definition sections (l : list (nat * event)) : list (list Op) :=
  omap (λ '(i, e), match e with Entered s => Some s | _ => None end) l.
(** A section run without interruption. *)
Definition run_section (v : D) (s : list Op) : D := foldl (λ v op, run op v) v s.

(** ** The queue the counters stand for *)

(** The ticket a core waits with, and whether it is inside. *)
Definition ticket_of (p : place) : option Z := match p with Spinning _ n _ => Some n | _ => None end.
Definition inside (p : place) : bool := match p with Holding _ _ | Loaded _ _ _ _ => true | _ => false end.
(** What the data are once the core inside has finished. *)
Definition finish (p : place) (v : D) : D :=
  match p with
  | Holding _ todo => run_section v todo
  | Loaded _ op w todo => run_section (run op w) todo
  | _ => v
  end.
Record inv (start : Z) (value : D) (m : machine) (q : list nat) (h : bool) : Prop := {
  in_drew : drew (trace m) = left (trace m) ++ q;
  in_entered : entered (trace m) = left (trace m) ++ (if h then take 1 q else []);
  in_head : h = true → q ≠ [];
  in_serving : now_serving (mutex m) = (start + Z.of_nat (length (left (trace m)))) mod 2 ^ 32;
  in_next : next_ticket (mutex m) = (start + Z.of_nat (length (left (trace m)) + length q)) mod 2 ^ 32;
  in_nodup : NoDup q;
  in_queued : ∀ j i, q !! j = Some i → ∃ c, cores m !! i = Some c ∧
    if h && (j =? 0)%nat then inside (at_ c) = true
    else ticket_of (at_ c) = Some ((start + Z.of_nat (length (left (trace m)) + j)) mod 2 ^ 32);
  in_others : ∀ i c, cores m !! i = Some c → i ∉ q → ticket_of (at_ c) = None ∧ inside (at_ c) = false;
  in_irq : ∀ i c, cores m !! i = Some c → at_ c = Outside ∨ irq c = false;
  in_data : ∀ i c, q !! 0%nat = Some i → cores m !! i = Some c → h = true →
    foldl run_section value (sections (trace m)) = finish (at_ c) (data (mutex m));
  in_free : h = false → foldl run_section value (sections (trace m)) = data (mutex m);
  in_few : Z.of_nat (length (cores m)) < 2 ^ 32 }.

Lemma inside_or_waits p : ~ (inside p = true ∧ is_Some (ticket_of p)).
Proof. destruct p; cbn; intros [? [? ?]]; congruence. Qed.

(** The core inside is the first of the queue. *)
Lemma inv_inside start value m q h i c : inv start value m q h → cores m !! i = Some c → inside (at_ c) = true →
  h = true ∧ ∃ q', q = i :: q'.
Proof.
  intros I Hc Hi. destruct (decide (i ∈ q)) as [Hq|Hq]; [|destruct (in_others _ _ _ _ _ I i c Hc Hq); congruence].
  apply list_elem_of_lookup in Hq as [j Hj]. destruct (in_queued _ _ _ _ _ I j i Hj) as (c' & Hc' & H).
  assert (c' = c) as -> by congruence. destruct h; cbn [andb] in H; [|destruct (at_ c); cbn in *; congruence].
  destruct (Nat.eqb_spec j 0) as [->|]; [|destruct (at_ c); cbn in *; congruence].
  split; [done|]. destruct q as [|k q]; [done|]. injection Hj as ->. by exists q.
Qed.

(** A core that waits is in the queue, at the place its ticket tells. *)
Lemma inv_waits start value m q h i c n : inv start value m q h → cores m !! i = Some c → ticket_of (at_ c) = Some n →
  ∃ j, q !! j = Some i ∧ n = (start + Z.of_nat (length (left (trace m)) + j)) mod 2 ^ 32 ∧ (h = true → j ≠ 0%nat).
Proof.
  intros I Hc Hn. destruct (decide (i ∈ q)) as [Hq|Hq]; [|destruct (in_others _ _ _ _ _ I i c Hc Hq); congruence].
  apply list_elem_of_lookup in Hq as [j Hj]. exists j. split; [done|].
  destruct (in_queued _ _ _ _ _ I j i Hj) as (c' & Hc' & H). assert (c' = c) as -> by congruence.
  destruct h; cbn [andb] in H; [destruct (Nat.eqb_spec j 0) as [->|]|]; [destruct (at_ c); cbn in *; congruence|..].
  - split; [congruence|done].
  - split; [congruence|done].
Qed.

Lemma inv_short start value m q h : inv start value m q h → (length q <= length (cores m))%nat.
Proof.
  intros I. rewrite <-(length_seq (length (cores m)) 0). apply submseteq_length, NoDup_submseteq; [apply (in_nodup _ _ _ _ _ I)|].
  intros i [j Hj]%list_elem_of_lookup. destruct (in_queued _ _ _ _ _ I j i Hj) as (c & Hc & _).
  apply lookup_lt_Some in Hc. apply elem_of_seq. lia.
Qed.

(** A step of a core outside of the queue that stays outside of it. *)
Lemma inv_beside start value m q h i c c' : inv start value m q h → cores m !! i = Some c → i ∉ q →
  ticket_of (at_ c') = None → inside (at_ c') = false → (at_ c' = Outside ∨ irq c' = false) →
  inv start value (Machine (mutex m) (<[i := c']> (cores m)) (trace m)) q h.
Proof.
  intros I Hc Hq Ht Hi Hirq. assert (∀ j k, q !! j = Some k → i ≠ k) as Hne by (intros j k Hj ->; exact (Hq (list_elem_of_lookup_2 _ _ _ Hj))).
  destruct I. split; cbn [trace mutex cores]; try done.
  - intros j k Hj. rewrite list_lookup_insert_ne by (by eapply Hne). by apply in_queued0.
  - intros k d Hd Hk. apply list_lookup_insert_Some in Hd as [(<- & <- & _)|[_ Hd]]; [done|by apply (in_others0 k)].
  - intros k d Hd. apply list_lookup_insert_Some in Hd as [(<- & <- & _)|[_ Hd]]; [done|by apply (in_irq0 k)].
  - intros k d Hk Hd. rewrite list_lookup_insert_ne in Hd by (by eapply Hne). by apply in_data0 with k.
  - by rewrite length_insert.
Qed.

Lemma trace_snoc (l : list (nat * event)) i e :
  drew (l ++ [(i, e)]) = drew l ++ (match e with Drew => [i] | _ => [] end) ∧
  entered (l ++ [(i, e)]) = entered l ++ (match e with Entered _ => [i] | _ => [] end) ∧
  left (l ++ [(i, e)]) = left l ++ (match e with Left => [i] | _ => [] end) ∧
  sections (l ++ [(i, e)]) = sections l ++ (match e with Entered s => [s] | _ => [] end).
Proof. unfold drew, entered, left, sections. rewrite !omap_app. by destruct e. Qed.

Lemma wrapping_next (start : Z) (n : nat) : wrapping_add 32 ((start + Z.of_nat n) mod 2 ^ 32) 1 = (start + Z.of_nat (S n)) mod 2 ^ 32.
Proof. unfold wrapping_add. rewrite Zplus_mod_idemp_l. f_equal. lia. Qed.

(** Drawing a ticket: the core stands at the end of the queue. *)
Lemma inv_draw start value m q h i c daif todo : inv start value m q h → cores m !! i = Some c → at_ c = Masked daif todo →
  inv start value
    (Machine (mk (wrapping_add 32 (next_ticket (mutex m)) 1) (now_serving (mutex m)) (data (mutex m)))
       (<[i := Core (irq c) (Spinning daif (next_ticket (mutex m)) todo)]> (cores m)) (trace m ++ [(i, Drew)])) (q ++ [i]) h.
Proof.
  intros I Hc Hp. destruct (trace_snoc (trace m) i Drew) as (T1 & T2 & T3 & T4). rewrite !app_nil_r in *.
  assert (i ∉ q) as Hq.
  { intros [j Hj]%list_elem_of_lookup. destruct (in_queued _ _ _ _ _ I j i Hj) as (c' & Hc' & H). assert (c' = c) as -> by congruence.
    rewrite Hp in H. cbn in H. by destruct (h && _). }
  assert (∀ j k, q !! j = Some k → i ≠ k) as Hne by (intros j k Hj ->; exact (Hq (list_elem_of_lookup_2 _ _ _ Hj))).
  destruct I. split; cbn [trace mutex cores data next_ticket now_serving]; rewrite ?T1, ?T2, ?T3, ?T4; try done.
  - by rewrite in_drew0, <-app_assoc.
  - rewrite in_entered0. destruct h; [|done]. f_equal. destruct q; [by specialize (in_head0 eq_refl)|done].
  - intros Hh. by destruct q.
  - rewrite in_next0, wrapping_next, length_app. do 3 f_equal. cbn [length]. lia.
  - apply NoDup_app. split_and!; [done|by intros x Hx ->%list_elem_of_singleton|apply NoDup_singleton].
  - intros j k [Hj|[Hlt Hj]]%lookup_app_Some.
    + rewrite list_lookup_insert_ne by (by eapply Hne). by apply in_queued0.
    + destruct (j - length q)%nat as [|n] eqn:E; [|done]. injection Hj as <-. assert (j = length q) as -> by lia.
      rewrite list_lookup_insert_eq by (by eapply lookup_lt_Some). eexists. split; [done|].
      assert (h && (length q =? 0)%nat = false) as ->.
      { destruct h; [|done]. cbn. apply Nat.eqb_neq. destruct q; [by specialize (in_head0 eq_refl)|done]. }
      cbn [at_ ticket_of]. by rewrite in_next0.
  - intros k d Hd Hk. apply not_elem_of_app in Hk as [Hk Hk2]. apply list_lookup_insert_Some in Hd as [(<- & _)|[_ Hd]]; [set_solver|by apply (in_others0 k)].
  - intros k d Hd. apply list_lookup_insert_Some in Hd as [(<- & <- & _)|[_ Hd]]; [|by apply (in_irq0 k)].
    right. destruct (in_irq0 i c Hc) as [H|H]; [congruence|done].
  - intros k d Hk Hd Hh. assert (q !! 0%nat = Some k) as Hk0 by (destruct q; [by specialize (in_head0 Hh)|done]).
    rewrite list_lookup_insert_ne in Hd by (by eapply Hne). by apply in_data0 with k.
  - by rewrite length_insert.
Qed.

(** The loop ends: the core is the first of the queue. *)
Lemma inv_enter start value m q h i c daif todo : inv start value m q h → cores m !! i = Some c →
  at_ c = Spinning daif (now_serving (mutex m)) todo →
  h = false ∧ q !! 0%nat = Some i ∧
  inv start value (Machine (mutex m) (<[i := Core (irq c) (Holding daif todo)]> (cores m)) (trace m ++ [(i, Entered todo)])) q true.
Proof.
  intros I Hc Hp. destruct (inv_waits _ _ _ _ _ i c (now_serving (mutex m)) I Hc) as (j & Hj & Hn & Hh); [by rewrite Hp|].
  pose proof (inv_short _ _ _ _ _ I) as Hs. pose proof (in_few _ _ _ _ _ I) as Hf. pose proof (lookup_lt_Some _ _ _ Hj) as Hlt.
  assert (j = 0%nat) as ->.
  { rewrite (in_serving _ _ _ _ _ I) in Hn. rewrite Nat2Z.inj_add, Z.add_assoc in Hn.
    set (x := start + _) in *. pose proof (Z.mod_pos_bound x (2 ^ 32) ltac:(lia)).
    rewrite (Z.add_mod x), (Z.mod_small (Z.of_nat j)) in Hn by lia.
    destruct (decide (x mod 2 ^ 32 + Z.of_nat j < 2 ^ 32)); [rewrite (Z.mod_small (x mod 2 ^ 32 + _)) in Hn by lia; lia|].
    rewrite <-(Z_mod_plus_full (x mod 2 ^ 32 + Z.of_nat j) (-1) (2 ^ 32)), (Z.mod_small (x mod 2 ^ 32 + Z.of_nat j + _)) in Hn by lia. lia. }
  destruct h; [by specialize (Hh eq_refl)|]. split; [done|]. split; [done|].
  destruct (trace_snoc (trace m) i (Entered todo)) as (T1 & T2 & T3 & T4). rewrite !app_nil_r in *.
  assert (∀ j k, q !! j = Some k → j ≠ 0%nat → i ≠ k) as Hne.
  { intros j k Hk H0 ->. apply H0. by eapply NoDup_lookup; [apply (in_nodup _ _ _ _ _ I)|..]. }
  destruct I. split; cbn [trace mutex cores]; rewrite ?T1, ?T2, ?T3, ?T4; try done.
  - rewrite in_entered0, app_nil_r. destruct q; [done|]. by injection Hj as ->.
  - intros _ ->. done.
  - intros k x Hk. cbn [andb]. destruct (Nat.eqb_spec k 0) as [->|H0].
    + assert (x = i) as -> by congruence. rewrite list_lookup_insert_eq by (by eapply lookup_lt_Some). by eexists.
    + rewrite list_lookup_insert_ne by (by eapply Hne). destruct (in_queued0 k x Hk) as (d & Hd & H). by exists d.
  - intros k d Hd Hk. apply list_lookup_insert_Some in Hd as [(<- & _)|[_ Hd]]; [|by apply (in_others0 k)].
    by apply list_elem_of_lookup_2 in Hj.
  - intros k d Hd. apply list_lookup_insert_Some in Hd as [(<- & <- & _)|[_ Hd]]; [|by apply (in_irq0 k)].
    right. destruct (in_irq0 i c Hc) as [H|H]; [congruence|done].
  - intros k d Hk Hd _. assert (k = i) as -> by congruence. rewrite list_lookup_insert_eq in Hd by (by eapply lookup_lt_Some).
    injection Hd as <-. rewrite foldl_app, in_free0 by done. done.
  - by rewrite length_insert.
Qed.

(** An access inside the section. *)
Lemma inv_access start value m q h i c p v : inv start value m q h → cores m !! i = Some c → inside (at_ c) = true →
  inside p = true → finish p v = finish (at_ c) (data (mutex m)) →
  inv start value (Machine (mk (next_ticket (mutex m)) (now_serving (mutex m)) v) (<[i := Core (irq c) p]> (cores m)) (trace m)) q h.
Proof.
  intros I Hc Hi Hp Hf. destruct (inv_inside _ _ _ _ _ _ _ I Hc Hi) as (-> & q' & ->).
  assert (∀ j k, (i :: q') !! j = Some k → j ≠ 0%nat → i ≠ k) as Hne.
  { intros j k Hk H0 ->. apply H0. by eapply NoDup_lookup; [apply (in_nodup _ _ _ _ _ I)|..]. }
  destruct I. split; cbn [trace mutex cores next_ticket now_serving data]; try done.
  - intros k x Hk. cbn [andb]. destruct (Nat.eqb_spec k 0) as [->|H0].
    + injection Hk as <-. rewrite list_lookup_insert_eq by (by eapply lookup_lt_Some). by eexists.
    + rewrite list_lookup_insert_ne by (by eapply Hne). specialize (in_queued0 k x Hk). cbn [andb] in in_queued0.
      by rewrite (proj2 (Nat.eqb_neq k 0) H0) in in_queued0.
  - intros k d Hd Hk. apply list_lookup_insert_Some in Hd as [(<- & _)|[_ Hd]]; [set_solver|by apply (in_others0 k)].
  - intros k d Hd. apply list_lookup_insert_Some in Hd as [(<- & <- & _)|[_ Hd]]; [|by apply (in_irq0 k)].
    right. destruct (in_irq0 i c Hc) as [H|H]; [by rewrite H in Hi|done].
  - intros k d Hk Hd _. injection Hk as <-. rewrite list_lookup_insert_eq in Hd by (by eapply lookup_lt_Some). injection Hd as <-.
    cbn [at_]. rewrite Hf. by apply in_data0 with i.
  - by rewrite length_insert.
Qed.

(** Leaving: the next of the queue is served. *)
Lemma inv_leave start value m q h i c daif : inv start value m q h → cores m !! i = Some c → at_ c = Holding daif [] →
  ∃ q', q = i :: q' ∧
  inv start value (Machine (mk (next_ticket (mutex m)) (wrapping_add 32 (now_serving (mutex m)) 1) (data (mutex m)))
      (<[i := Core (irq c) (Released daif)]> (cores m)) (trace m ++ [(i, Left)])) q' false.
Proof.
  intros I Hc Hp. destruct (inv_inside _ _ _ _ _ i c I Hc) as (-> & q' & ->); [by rewrite Hp|]. exists q'. split; [done|].
  destruct (trace_snoc (trace m) i Left) as (T1 & T2 & T3 & T4). rewrite !app_nil_r in *.
  pose proof (in_nodup _ _ _ _ _ I) as Hnd. apply NoDup_cons in Hnd as [Hni Hnd].
  assert (∀ j k, q' !! j = Some k → i ≠ k) as Hne by (intros j k Hj ->; exact (Hni (list_elem_of_lookup_2 _ _ _ Hj))).
  destruct I. split; cbn [trace mutex cores next_ticket now_serving data]; rewrite ?T1, ?T2, ?T3, ?T4; try done.
  - by rewrite in_drew0, <-app_assoc.
  - by rewrite in_entered0, app_nil_r.
  - rewrite in_serving0, wrapping_next, length_app. do 3 f_equal. cbn [length]. lia.
  - rewrite in_next0, length_app. do 3 f_equal. cbn [length]. lia.
  - intros j k Hj. rewrite list_lookup_insert_ne by (by eapply Hne). destruct (in_queued0 (S j) k Hj) as (d & Hd & H).
    cbn [andb Nat.eqb] in H. exists d. split; [done|]. cbn [andb]. rewrite H, length_app. do 4 f_equal. cbn [length]. lia.
  - intros k d Hd Hk. apply list_lookup_insert_Some in Hd as [(<- & <- & _)|[Hik Hd]]; [done|apply (in_others0 k); [done|set_solver]].
  - intros k d Hd. apply list_lookup_insert_Some in Hd as [(<- & <- & _)|[_ Hd]]; [|by apply (in_irq0 k)].
    right. destruct (in_irq0 i c Hc) as [H|H]; [congruence|done].
  - intros _. rewrite (in_data0 i c eq_refl Hc eq_refl), Hp. done.
  - by rewrite length_insert.
Qed.

Lemma inv_idle start value flags : in_width 32 start → Z.of_nat (length flags) < 2 ^ 32 →
  inv start value (idle start value flags) [] false.
Proof.
  intros Hs Hf. unfold in_width in Hs. split; cbn; rewrite ?Z.add_0_r; try done; try (by symmetry; apply Z.mod_small).
  - apply NoDup_nil_2.
  - intros i c Hc _. by apply list_lookup_fmap_Some in Hc as (b & -> & _).
  - intros i c Hc. apply list_lookup_fmap_Some in Hc as (b & -> & _). by left.
  - by rewrite length_fmap.
Qed.

Lemma inv_step start value m m' q h : inv start value m q h → step m m' → ∃ q' h', inv start value m' q' h'.
Proof.
  intros I H. destruct H as [m i c section e c' self' Hc Ha|m i b Hc].
  2: { exists q, h. apply (inv_beside _ _ _ _ _ i (Core (negb b) Outside)); try done; [|by left]. intros [j Hj]%list_elem_of_lookup.
       destruct (in_queued _ _ _ _ _ I j i Hj) as (c' & Hc' & H). rewrite Hc in Hc'. injection Hc' as <-. cbn in H. by destruct (h && _). }
  assert (ticket_of (at_ c) = None → inside (at_ c) = false → i ∉ q) as Hq.
  { intros H1 H2 [j Hj]%list_elem_of_lookup. destruct (in_queued _ _ _ _ _ I j i Hj) as (d & Hd & H).
    assert (d = c) as -> by congruence. destruct (h && _); congruence. }
  destruct (in_irq _ _ _ _ _ I i c Hc) as [Hirq|Hirq]; destruct c as [f p]; cbn [irq at_] in *; [subst p|subst f].
  { cbn in Ha. injection Ha as <- <- <-. cbn. rewrite app_nil_r. exists q, h. apply (inv_beside _ _ _ _ _ i _ _ I Hc); auto. }
  destruct p as [|daif todo|daif n todo|daif [|op todo]|daif op v todo|daif]; cbn in Ha.
  - injection Ha as <- <- <-. cbn. rewrite app_nil_r. exists q, h. apply (inv_beside _ _ _ _ _ i _ _ I Hc); auto.
  - injection Ha as <- <- <-. exists (q ++ [i]), h. apply (inv_draw _ _ _ _ _ i _ daif todo I Hc eq_refl).
  - destruct (Z.eqb_spec (now_serving (mutex m)) n) as [<-|]; cbn in Ha; injection Ha as <- <- <-; cbn.
    + exists q, true. apply (inv_enter _ _ _ _ _ i _ daif todo I Hc eq_refl).
    + rewrite app_nil_r, list_insert_id by done. exists q, h. by destruct m.
  - injection Ha as <- <- <-. destruct (inv_leave _ _ _ _ _ i _ daif I Hc eq_refl) as (q' & -> & I'). by exists q', false.
  - injection Ha as <- <- <-. cbn. rewrite app_nil_r. exists q, h. destruct m as [[nt ns dt] cs tr]. cbn in *.
    exact (inv_access _ _ _ q h i _ (Loaded daif op dt todo) dt I Hc eq_refl eq_refl eq_refl).
  - injection Ha as <- <- <-. cbn. rewrite app_nil_r. exists q, h. by apply (inv_access _ _ _ _ _ i _ _ (run op v) I Hc).
  - injection Ha as <- <- <-. cbn. rewrite app_nil_r. exists q, h. apply (inv_beside _ _ _ _ _ i _ _ I Hc); auto.
Qed.

Lemma inv_reachable start value flags m : in_width 32 start → Z.of_nat (length flags) < 2 ^ 32 →
  reachable start value flags m → ∃ q h, inv start value m q h.
Proof.
  intros Hs Hf H. unfold reachable in H. assert (∃ q h, inv start value (idle start value flags) q h) as Hi by (do 2 eexists; by apply inv_idle).
  revert Hi. induction H as [m|m m2 m3 H _ IH]; [done|]. intros (q & h & I). apply IH. by eapply inv_step.
Qed.

(** C7: Under every interleaving of any number of cores below 2^32, and wherever the two 32-bit
    counters stand when it is used first, the lock lets the cores in one at a time in the order
    in which they drew their tickets; a core that waits or is inside has its interrupts masked;
    and the data are what the sections, each run as a whole in that order, make of them - up to
    the rest of the section of the core inside. *)
Theorem ticket_lock_sound (start : Z) (value : D) (flags : list bool) (m : machine) :
  in_width 32 start → Z.of_nat (length flags) < 2 ^ 32 → reachable start value flags m →
  left (trace m) `prefix_of` entered (trace m) ∧ entered (trace m) `prefix_of` drew (trace m) ∧
  (length (entered (trace m)) <= S (length (left (trace m))))%nat ∧
  (∀ i c, cores m !! i = Some c → inside (at_ c) = true →
    entered (trace m) = left (trace m) ++ [i] ∧
    foldl run_section value (sections (trace m)) = finish (at_ c) (data (mutex m))) ∧
  ((∀ i c, cores m !! i = Some c → inside (at_ c) = false) →
    foldl run_section value (sections (trace m)) = data (mutex m)) ∧
  (∀ i c, cores m !! i = Some c → at_ c = Outside ∨ irq c = false).
Proof.
  intros Hs Hf H. destruct (inv_reachable _ _ _ _ Hs Hf H) as (q & h & I).
  split; [rewrite (in_entered _ _ _ _ _ I); by apply prefix_app_r|].
  split; [rewrite (in_entered _ _ _ _ _ I), (in_drew _ _ _ _ _ I); apply prefix_app; destruct h; [apply prefix_take|apply prefix_nil]|].
  split; [rewrite (in_entered _ _ _ _ _ I), length_app; destruct h; [rewrite length_take|cbn [length]]; lia|].
  split; [|split; [|exact (in_irq _ _ _ _ _ I)]].
  - intros i c Hc Hi. destruct (inv_inside _ _ _ _ _ i c I Hc Hi) as (-> & q' & ->).
    split; [by rewrite (in_entered _ _ _ _ _ I)|by apply (in_data _ _ _ _ _ I i c)].
  - intros Hout. destruct h; [|by apply (in_free _ _ _ _ _ I)]. exfalso. destruct q as [|i q]; [by apply (in_head _ _ _ _ _ I)|].
    destruct (in_queued _ _ _ _ _ I 0%nat i eq_refl) as (c & Hc & Hi). cbn in Hi. by rewrite (Hout i c Hc) in Hi.
Qed.

(** ** Progress *)

(** An access that nobody counts. *)
Lemma step_quiet m i c c' self' section : cores m !! i = Some c → act c (mutex m) section = (None, c', self') →
  step m (Machine self' (<[i := c']> (cores m)) (trace m)).
Proof. intros Hc Ha. pose proof (step_act m i c section None c' self' Hc Ha) as H. cbn in H. by rewrite app_nil_r in H. Qed.

(** The core inside finishes its section and lets the next one in; nobody else has to move. *)
Lemma section_runs todo start value m q i c daif : inv start value m (i :: q) true → cores m !! i = Some c → at_ c = Holding daif todo →
  ∃ m', rtc step m m' ∧ inv start value m' q false ∧ drew (trace m') = drew (trace m) ∧ left (trace m') = left (trace m) ++ [i] ∧
    ∀ k, k ≠ i → cores m' !! k = cores m !! k.
Proof.
  revert m c. induction todo as [|op todo IH]; intros m c I Hc Hp.
  - destruct (inv_leave _ _ _ _ _ i c daif I Hc Hp) as (q' & Hq & I'). injection Hq as <-.
    eexists. split; [|split; [exact I'|]].
    + apply rtc_once. apply (step_act m i c [] (Some Left) _ _ Hc). unfold act, drop. by rewrite Hp.
    + cbn [trace cores]. destruct (trace_snoc (trace m) i Left) as (-> & _ & -> & _). rewrite app_nil_r.
      split_and!; [done..|]. intros k Hk. by rewrite list_lookup_insert_ne.
  - set (c1 := Core (irq c) (Loaded daif op (data (mutex m)) todo)). set (m1 := Machine (mutex m) (<[i := c1]> (cores m)) (trace m)).
    set (c2 := Core (irq c) (Holding daif todo)).
    set (m2 := Machine (mk (next_ticket (mutex m)) (now_serving (mutex m)) (run op (data (mutex m)))) (<[i := c2]> (cores m)) (trace m)).
    assert (step m m1) as S1 by (apply (step_quiet m i c _ _ [] Hc); unfold act, deref; by rewrite Hp).
    assert (step m1 m2) as S2.
    { replace m2 with (Machine (mutex m2) (<[i := c2]> (cores m1)) (trace m1)) by (unfold m1, m2; cbn; by rewrite list_insert_insert_eq).
      apply (step_quiet m1 i c1 _ _ []); [|done]. unfold m1. cbn. by rewrite list_lookup_insert_eq by (by eapply lookup_lt_Some). }
    assert (inv start value m2 (i :: q) true) as I2 by (apply (inv_access _ _ _ _ _ i c (Holding daif todo) _ I Hc); rewrite ?Hp; done).
    destruct (IH m2 c2 I2) as (m' & H1 & H2 & H3 & H4 & H5).
    + unfold m2. cbn. by rewrite list_lookup_insert_eq by (by eapply lookup_lt_Some).
    + done.
    + exists m'. split; [by eapply rtc_l, rtc_l|]. split_and!; [done..|]. intros k Hk. rewrite H5 by done. cbn. by rewrite list_lookup_insert_ne.
Qed.

(** The first of the queue comes in, if it is not inside yet. *)
Lemma head_enters start value m q i : inv start value m (i :: q) false →
  ∃ m' c daif todo, step m m' ∧ inv start value m' (i :: q) true ∧ drew (trace m') = drew (trace m) ∧ left (trace m') = left (trace m) ∧
    cores m' !! i = Some c ∧ at_ c = Holding daif todo ∧ ∀ k, k ≠ i → cores m' !! k = cores m !! k.
Proof.
  intros I. destruct (in_queued _ _ _ _ _ I 0%nat i eq_refl) as (c & Hc & H). cbn [andb] in H. rewrite Nat.add_0_r in H.
  destruct (at_ c) as [| |daif n todo| | |] eqn:Hp; try done. cbn in H. injection H as ->.
  rewrite <-(in_serving _ _ _ _ _ I) in Hp. destruct (inv_enter _ _ _ _ _ i c daif todo I Hc Hp) as (_ & _ & I').
  do 2 eexists. exists daif, todo. split; [|split; [exact I'|]].
  - apply (step_act m i c [] (Some (Entered todo)) _ _ Hc). unfold act, lock. by rewrite Hp, Z.eqb_refl.
  - cbn [trace cores]. destruct (trace_snoc (trace m) i (Entered todo)) as (-> & _ & -> & _). rewrite !app_nil_r.
    split_and!; [done..|by apply list_lookup_insert_eq; eapply lookup_lt_Some|done|]. intros k Hk. by rewrite list_lookup_insert_ne.
Qed.

Lemma head_leaves start value m q i h : inv start value m (i :: q) h →
  ∃ m', rtc step m m' ∧ inv start value m' q false ∧ drew (trace m') = drew (trace m) ∧ left (trace m') = left (trace m) ++ [i].
Proof.
  intros I. destruct h.
  - destruct (in_queued _ _ _ _ _ I 0%nat i eq_refl) as (c & Hc & H). cbn [andb Nat.eqb] in H.
    destruct (at_ c) as [| | |daif todo|daif op v todo|] eqn:Hp; try done.
    + destruct (section_runs todo _ _ m q i c daif I Hc Hp) as (m' & ? & ? & ? & ? & _). by exists m'.
    + set (c2 := Core (irq c) (Holding daif todo)).
      set (m2 := Machine (mk (next_ticket (mutex m)) (now_serving (mutex m)) (run op v)) (<[i := c2]> (cores m)) (trace m)).
      assert (step m m2) as S2 by (apply (step_quiet m i c _ _ [] Hc); unfold act, deref; by rewrite Hp).
      assert (inv start value m2 (i :: q) true) as I2 by (apply (inv_access _ _ _ _ _ i c (Holding daif todo) _ I Hc); rewrite ?Hp; done).
      destruct (section_runs todo _ _ m2 q i c2 daif I2) as (m' & ? & ? & ? & ? & _); [by apply list_lookup_insert_eq; eapply lookup_lt_Some|done|].
      exists m'. split; [by eapply rtc_l|done].
  - destruct (head_enters _ _ _ _ _ I) as (m1 & c & daif & todo & S1 & I1 & D1 & L1 & Hc & Hp & _).
    destruct (section_runs todo _ _ m1 q i c daif I1 Hc Hp) as (m' & S2 & I2 & D2 & L2 & _).
    exists m'. split; [by eapply rtc_l|]. split; [done|]. by rewrite D2, D1, L2, L1.
Qed.

Lemma queue_advances j start value m q i h : inv start value m q h → q !! j = Some i → (h = true → j ≠ 0%nat) →
  ∃ m', rtc step m m' ∧ (∃ c, cores m' !! i = Some c ∧ inside (at_ c) = true) ∧ drew (trace m') = drew (trace m) ∧
    left (trace m') = left (trace m) ++ take j q.
Proof.
  revert m q h. induction j as [|j IH]; intros m q h I Hj Hh.
  - destruct q as [|k q]; [done|]. injection Hj as ->. destruct h; [by specialize (Hh eq_refl)|].
    destruct (head_enters _ _ _ _ _ I) as (m1 & c & daif & todo & S1 & _ & D1 & L1 & Hc & Hp & _).
    exists m1. split; [by apply rtc_once|]. rewrite D1, L1, app_nil_r. split; [|done]. exists c. by rewrite Hp.
  - destruct q as [|k q]; [done|]. destruct (head_leaves _ _ _ _ _ _ I) as (m1 & S1 & I1 & D1 & L1).
    destruct (IH m1 q false I1 Hj) as (m2 & S2 & H2 & D2 & L2); [done|]. exists m2. split; [by etrans|]. split; [done|].
    rewrite D2, D1, L2, L1, <-app_assoc. done.
Qed.

(** C26: No core waits for ever: from every state in which a core spins there is a run in which it
    enters, nobody draws a ticket, and exactly as many cores leave before it as its ticket is
    ahead of the number being served - those that drew before it. *)
Theorem ticket_lock_progress (start : Z) (value : D) (flags : list bool) (m : machine) (i : nat) (c : core) (ticket : Z) :
  in_width 32 start → Z.of_nat (length flags) < 2 ^ 32 → reachable start value flags m →
  cores m !! i = Some c → ticket_of (at_ c) = Some ticket →
  ∃ m' c', rtc step m m' ∧ cores m' !! i = Some c' ∧ inside (at_ c') = true ∧ drew (trace m') = drew (trace m) ∧
    Z.of_nat (length (left (trace m'))) =
      Z.of_nat (length (left (trace m))) + wrapping_sub 32 ticket (now_serving (mutex m)).
Proof.
  intros Hs Hf H Hc Ht. destruct (inv_reachable _ _ _ _ Hs Hf H) as (q & h & I).
  destruct (inv_waits _ _ _ _ _ i c ticket I Hc Ht) as (j & Hj & Hn & Hh).
  destruct (queue_advances j _ _ m q i h I Hj Hh) as (m' & S & (c' & Hc' & Hi) & D' & L).
  exists m', c'. split_and!; try done. rewrite L, length_app, length_take.
  pose proof (inv_short _ _ _ _ _ I). pose proof (in_few _ _ _ _ _ I). pose proof (lookup_lt_Some _ _ _ Hj).
  rewrite Nat.min_l by lia. rewrite Nat2Z.inj_add. f_equal. unfold wrapping_sub. rewrite (in_serving _ _ _ _ _ I), Hn.
  rewrite <-Zminus_mod. replace (_ - _) with (Z.of_nat j) by lia. by rewrite Z.mod_small by lia.
Qed.

(** A schedule: which core moves next, and what it does if it is outside. *)
Fixpoint exec (sched : list (nat * list Op)) (m : machine) : machine :=
  match sched with
  | [] => m
  | (i, s) :: sched =>
    match cores m !! i with
    | Some c => let '(e, c', self') := act c (mutex m) s in exec sched (Machine self' (<[i := c']> (cores m)) (trace m ++ option_list ((λ e, (i, e)) <$> e)))
    | None => exec sched m
    end
  end.
Lemma exec_steps sched m : rtc step m (exec sched m).
Proof.
  revert m. induction sched as [|[i s] sched IH]; intros m; [done|]. cbn. destruct (cores m !! i) as [c|] eqn:Hc; [|apply IH].
  destruct (act c (mutex m) s) as [[e c'] self'] eqn:Ha. eapply rtc_l; [by eapply step_act|apply IH].
Qed.
End lock.
Arguments t : clear implicits.
Arguments place : clear implicits.
Arguments core : clear implicits.
Arguments event : clear implicits.
Arguments machine : clear implicits.
End SpinLock.


(** ** The reader-writer lock *)
Module RwSpinLock.
Definition RW_WRITER : Z := 2 ^ 31.
Section lock.
Context {D Op : Type} (run : Op → D → D).

Record t := mk { state : Z; writers_waiting : Z; data : D }.
Definition new (value : D) : t := mk 0 0 value.

(** Where a core is; [first] is what a reader found when it came in. *)
Inductive place :=
| Outside
| RWaiting (daif : bool) | REntering (daif : bool) | RChecking (daif : bool) | RBacking (daif : bool)
| RHolding (daif : bool) (first : D) | RReleased (daif : bool)
| WMasked (daif : bool) (todo : list Op) | WTrying (daif : bool) (todo : list Op) | WHolding (daif : bool) (todo : list Op)
| WLoaded (daif : bool) (op : Op) (v : D) (todo : list Op) | WCleared (daif : bool) | WReleased (daif : bool).
Record core := Core { irq : bool; at_ : place }.

(** [read]: the masking, the wait for announced writers, the registration, the second look at
    the announced writers, the withdrawal. *)
Definition read (c : core) (self : t) : core * t :=
  match at_ c with
  | Outside => let '(daif, irq) := irq_save_disable (irq c) in (Core irq (RWaiting daif), self)
  | RWaiting daif => if negb (writers_waiting self =? 0) then (c, self) else (Core (irq c) (REntering daif), self)
  | REntering daif =>
    let prev := state self in
    (Core (irq c) (if Z.land prev RW_WRITER =? 0 then RChecking daif else RBacking daif),
     mk (wrapping_add 32 prev 1) (writers_waiting self) (data self))
  | RChecking daif =>
    (Core (irq c) (if writers_waiting self =? 0 then RHolding daif (data self) else RBacking daif), self)
  | RBacking daif => (Core (irq c) (RWaiting daif), mk (wrapping_sub 32 (state self) 1) (writers_waiting self) (data self))
  | _ => (c, self)
  end.
(** [write]: the masking, the announcement, one turn of the loop; whether the core came in. *)
Definition write (c : core) (self : t) (section : list Op) : option (list Op) * core * t :=
  match at_ c with
  | Outside => let '(daif, irq) := irq_save_disable (irq c) in (None, Core irq (WMasked daif section), self)
  | WMasked daif todo => (None, Core (irq c) (WTrying daif todo), mk (state self) (wrapping_add 32 (writers_waiting self) 1) (data self))
  | WTrying daif todo =>
    if state self =? 0 then (Some todo, Core (irq c) (WHolding daif todo), mk RW_WRITER (writers_waiting self) (data self))
    else (None, c, self)
  | _ => (None, c, self)
  end.
(** What a writer does through its guard. *)
Definition deref_mut (c : core) (self : t) : core * t :=
  match at_ c with
  | WHolding daif (op :: todo) => (Core (irq c) (WLoaded daif op (data self) todo), self)
  | WLoaded daif op v todo => (Core (irq c) (WHolding daif todo), mk (state self) (writers_waiting self) (run op v))
  | _ => (c, self)
  end.
(** [drop] of the two guards. *)
Definition drop_read (c : core) (self : t) : core * t :=
  match at_ c with
  | RHolding daif _ => (Core (irq c) (RReleased daif), mk (wrapping_sub 32 (state self) 1) (writers_waiting self) (data self))
  | RReleased daif => (Core (irq_restore daif (irq c)) Outside, self)
  | _ => (c, self)
  end.
Definition drop_write (c : core) (self : t) : core * t :=
  match at_ c with
  | WHolding daif [] => (Core (irq c) (WCleared daif), mk (Z.land (state self) (RW_WRITER - 1)) (writers_waiting self) (data self))
  | WCleared daif => (Core (irq c) (WReleased daif), mk (state self) (wrapping_sub 32 (writers_waiting self) 1) (data self))
  | WReleased daif => (Core (irq_restore daif (irq c)) Outside, self)
  | _ => (c, self)
  end.
(** The next access of a core; [section] is what a core outside does next: [None] to read. *)
Definition quiet {A} (x : core * A) : option (list Op) * core * A := (None, x.1, x.2).
Definition act (c : core) (self : t) (section : option (list Op)) : option (list Op) * core * t :=
  match at_ c with
  | Outside => match section with None => quiet (read c self) | Some s => write c self s end
  | RWaiting _ | REntering _ | RChecking _ | RBacking _ => quiet (read c self)
  | RHolding _ _ | RReleased _ => quiet (drop_read c self)
  | WMasked _ _ | WTrying _ _ => write c self []
  | WHolding _ (_ :: _) | WLoaded _ _ _ _ => quiet (deref_mut c self)
  | WHolding _ [] | WCleared _ | WReleased _ => quiet (drop_write c self)
  end.

(** [log] is the list of the writing sections in the order in which they began. *)
Record machine := Machine { rw : t; cores : list core; log : list (list Op) }.
Inductive step : machine → machine → Prop :=
| step_act m i c section e c' self' : cores m !! i = Some c → act c (rw m) section = (e, c', self') →
    step m (Machine self' (<[i := c']> (cores m)) (log m ++ option_list e))
| step_irq m i b : cores m !! i = Some (Core (negb b) Outside) →
    step m (Machine (rw m) (<[i := Core b Outside]> (cores m)) (log m)).
Definition idle (value : D) (flags : list bool) : machine := Machine (new value) ((λ b, Core b Outside) <$> flags) [].
Definition reachable (value : D) (flags : list bool) : machine → Prop := rtc step (idle value flags).

(** ** What the two words count *)
Definition reads (c : core) : bool := match at_ c with RHolding _ _ => true | _ => false end.
Definition clears (c : core) : bool := match at_ c with RChecking _ | RHolding _ _ => true | _ => false end.
Definition registered (c : core) : bool := match at_ c with RChecking _ | RBacking _ | RHolding _ _ => true | _ => false end.
Definition writes (c : core) : bool := match at_ c with WHolding _ _ | WLoaded _ _ _ _ => true | _ => false end.
Definition waits (c : core) : bool := match at_ c with WTrying _ _ => true | _ => false end.
Definition announced (c : core) : bool :=
  match at_ c with WTrying _ _ | WHolding _ _ | WLoaded _ _ _ _ | WCleared _ => true | _ => false end.
Definition run_section (v : D) (s : list Op) : D := foldl (λ v op, run op v) v s.
Definition finish (p : place) (v : D) : D :=
  match p with WHolding _ todo => run_section v todo | WLoaded _ op w todo => run_section (run op w) todo | _ => v end.

Record inv (value : D) (m : machine) : Prop := {
  in_state : state (rw m) = RW_WRITER * count writes (cores m) + count registered (cores m);
  in_waiting : writers_waiting (rw m) = count announced (cores m);
  in_writer : count writes (cores m) <= 1;
  in_apart : count writes (cores m) = 1 → count clears (cores m) = 0;
  in_irq : ∀ i c, cores m !! i = Some c → at_ c = Outside ∨ irq c = false;
  in_first : ∀ i c daif v, cores m !! i = Some c → at_ c = RHolding daif v → v = data (rw m);
  in_data : ∀ i c, cores m !! i = Some c → writes c = true → foldl run_section value (log m) = finish (at_ c) (data (rw m));
  in_free : count writes (cores m) = 0 → foldl run_section value (log m) = data (rw m);
  in_few : Z.of_nat (length (cores m)) < 2 ^ 31 }.

Local Notation b := Z.b2z.

(** One access keeps the invariant if it moves the words as it moves its core. *)
Lemma inv_act value m i c c' self' e : inv value m → cores m !! i = Some c →
  state self' = state (rw m) + RW_WRITER * (b (writes c') - b (writes c)) + (b (registered c') - b (registered c)) →
  writers_waiting self' = writers_waiting (rw m) + (b (announced c') - b (announced c)) →
  (writes c' = true → writes c = true ∨ (count writes (cores m) = 0 ∧ count clears (cores m) = 0)) →
  (clears c' = true → clears c = true ∨ count writes (cores m) = 0) →
  (at_ c' = Outside ∨ irq c' = false) →
  (∀ daif v, at_ c' = RHolding daif v → v = data self') →
  (data self' = data (rw m) ∨ writes c = true) →
  (writes c' = true → foldl run_section value (log m ++ option_list e) = finish (at_ c') (data self')) →
  (writes c' = false → writes c = true → foldl run_section value (log m ++ option_list e) = data self') →
  (writes c = false → writes c' = false → e = None) →
  inv value (Machine self' (<[i := c']> (cores m)) (log m ++ option_list e)).
Proof.
  intros I Hc Hs Hw H1 H2 H3 H4 D1 D2 D3 D4. pose proof (count_bound writes (cores m)) as B1. pose proof (count_bound clears (cores m)) as B2.
  assert (∀ x : core, writes x = true → clears x = false) as Hx by (intros [f p]; by destruct p).
  assert (∀ f : core → bool, count f (<[i := c']> (cores m)) = count f (cores m) - b (f c) + b (f c')) as Hci
    by (intros f; by apply count_insert).
  assert (∀ k x, cores m !! k = Some x → writes x = true → count writes (cores m) = 1) as Hone
    by (intros k x Hk Hx1; pose proof (count_member writes _ _ _ Hk Hx1); pose proof (in_writer _ _ I); lia).
  assert (clears c = true → count writes (cores m) = 0) as Hcw.
  { intros H. pose proof (count_member clears _ _ _ Hc H). pose proof (in_writer _ _ I). destruct (decide (count writes (cores m) = 1)); [|lia].
    pose proof (in_apart _ _ I). lia. }
  destruct I. split; cbn [rw cores log]; rewrite ?Hci.
  - rewrite Hs, in_state0. unfold RW_WRITER. destruct (writes c), (writes c'), (registered c), (registered c'); cbn [Z.b2z]; lia.
  - rewrite Hw, in_waiting0. lia.
  - destruct (writes c') eqn:E; cbn [Z.b2z]; [|destruct (writes c); cbn; lia]. destruct (H1 eq_refl) as [->|[-> _]]; cbn; [lia|destruct (writes c); cbn; lia].
  - intros Hn. destruct (writes c') eqn:E'; cbn [Z.b2z] in *.
    + rewrite (Hx c' E'). destruct (H1 eq_refl) as [E|[_ E0]]; [|rewrite E0; destruct (clears c) eqn:Ec; cbn; [|done]].
      * rewrite (Hx c E). cbn. rewrite in_apart0; [done|]. by apply (Hone i c).
      * pose proof (count_member clears _ _ _ Hc Ec). lia.
    + destruct (writes c) eqn:E; cbn [Z.b2z] in Hn; [lia|]. rewrite in_apart0 by lia.
      destruct (clears c') eqn:Ec'; [destruct (H2 eq_refl) as [Ec|]; [specialize (Hcw Ec)|]; lia|].
      destruct (clears c) eqn:Ec; [specialize (Hcw eq_refl); lia|done].
  - intros k x Hk. apply list_lookup_insert_Some in Hk as [(<- & <- & _)|[_ Hk]]; [done|by apply (in_irq0 k)].
  - intros k x daif v Hk Hp. apply list_lookup_insert_Some in Hk as [(<- & <- & _)|[_ Hk]]; [by eapply H4|].
    rewrite (in_first0 k x daif v Hk Hp). destruct D1 as [->|D1]; [done|]. exfalso. specialize (Hone i c Hc D1).
    specialize (in_apart0 Hone). pose proof (count_zero clears _ k x in_apart0 Hk) as Hz. unfold clears in Hz. by rewrite Hp in Hz.
  - intros k x Hk Hp. apply list_lookup_insert_Some in Hk as [(<- & <- & _)|[Hik Hk]]; [by apply D2|].
    assert (writes c = false) as E.
    { destruct (writes c) eqn:E; [|done]. by destruct (Hik (count_two writes _ i k c x Hc Hk E Hp in_writer0)). }
    assert (writes c' = false) as E'.
    { destruct (writes c') eqn:E'; [|done]. destruct (H1 eq_refl) as [|[H0 _]]; [congruence|]. specialize (Hone k x Hk Hp). lia. }
    rewrite (D4 E E'). cbn. rewrite app_nil_r. destruct D1 as [->|]; [by apply (in_data0 k)|congruence].
  - intros Hn. destruct (writes c') eqn:E'; cbn [Z.b2z] in Hn.
    { destruct (H1 eq_refl) as [E|[H0 _]]; [rewrite E in Hn; specialize (Hone i c Hc E); cbn in Hn; lia|]. rewrite H0 in Hn. destruct (writes c) eqn:E; cbn in Hn; [|lia].
      specialize (Hone i c Hc E). lia. }
    destruct (writes c) eqn:E; cbn [Z.b2z] in Hn; [by apply D3|]. rewrite (D4 eq_refl eq_refl). cbn. rewrite app_nil_r.
    destruct D1 as [->|]; [apply in_free0; lia|done].
  - by rewrite length_insert.
Qed.

Lemma inv_bounds value m : inv value m →
  0 <= count writes (cores m) <= 1 ∧ 0 <= count registered (cores m) < 2 ^ 31 ∧ 0 <= count announced (cores m) < 2 ^ 31 ∧
  count clears (cores m) <= count registered (cores m) ∧ 0 <= count clears (cores m).
Proof.
  intros I. pose proof (count_bound writes (cores m)). pose proof (count_bound registered (cores m)).
  pose proof (count_bound announced (cores m)). pose proof (count_bound clears (cores m)). pose proof (in_few _ _ I). pose proof (in_writer _ _ I).
  assert (count clears (cores m) <= count registered (cores m)) by (apply count_le; intros [f p]; by destruct p). lia.
Qed.

(** The word tells a writer from readers. *)
Lemma state_bit value m : inv value m →
  (Z.land (state (rw m)) RW_WRITER =? 0) = (count writes (cores m) =? 0) ∧
  Z.land (state (rw m)) (RW_WRITER - 1) = count registered (cores m).
Proof.
  intros I. destruct (inv_bounds _ _ I) as (Hw & Hr & _). rewrite (in_state _ _ I). unfold RW_WRITER. change (2 ^ 31 - 1) with (Z.ones 31).
  set (w := count writes _) in *. set (r := count registered _) in *.
  assert ((2 ^ 31 * w + r) mod 2 ^ 31 = r) as Hm by (rewrite Z.add_comm, Z.mul_comm, Z_mod_plus_full; by apply Z.mod_small).
  rewrite Z.land_ones, Hm by lia. split; [|done].
  assert (Z.land (2 ^ 31 * w + r) (2 ^ 31) = 2 ^ 31 * w) as ->.
  { apply Z.bits_inj'. intros n Hn. rewrite Z.land_spec, Z.pow2_bits_eqb by lia. destruct (Z.eqb_spec 31 n) as [<-|Hne].
    - rewrite andb_true_r. assert (w = 0 ∨ w = 1) as [->| ->] by lia.
      + by rewrite Z.mul_0_r, Z.add_0_l, Z.testbit_0_l, Z.testbit_eqb, Z.div_small by lia.
      + rewrite Z.mul_1_r, Z.pow2_bits_eqb, Z.testbit_eqb by lia. replace ((2 ^ 31 + r) / 2 ^ 31) with 1; [done|].
        apply (Z.div_unique _ _ _ r); lia.
    - rewrite andb_false_r. symmetry. assert (w = 0 ∨ w = 1) as [->| ->] by lia; [by rewrite Z.mul_0_r, Z.testbit_0_l|].
      rewrite Z.mul_1_r, Z.pow2_bits_eqb by lia. by apply Z.eqb_neq. }
  destruct (Z.eqb_spec w 0) as [->|]; [by rewrite Z.mul_0_r|]. apply Z.eqb_neq. lia.
Qed.

Lemma rw_inv_idle value flags : Z.of_nat (length flags) < 2 ^ 31 → inv value (idle value flags).
Proof.
  intros Hf. assert (∀ f : core → bool, (∀ x, f (Core x Outside) = false) → count f ((λ b, Core b Outside) <$> flags) = 0) as H0.
  { intros f Hx. unfold count. induction flags as [|x flags IH]; [done|]. cbn [fmap list_fmap] in *. rewrite count_if_cons, Hx.
    apply IH. cbn [length] in Hf. lia. }
  split; cbn [rw cores log idle state writers_waiting new]; rewrite ?H0 by done; try done.
  - intros i c Hc. apply list_lookup_fmap_Some in Hc as (x & -> & _). by left.
  - intros i c daif v Hc. by apply list_lookup_fmap_Some in Hc as (x & -> & _).
  - intros i c Hc. by apply list_lookup_fmap_Some in Hc as (x & -> & _).
  - by rewrite length_fmap.
Qed.

(** Takes an access apart and shows that it moves the words as it moves the core. *)
Ltac plain IA Ha := injection Ha as <- <- <-; apply IA; cbn; unfold wrapping_add, wrapping_sub, RW_WRITER in *; try done; try lia; auto.

Lemma rw_inv_step value m m' : inv value m → step m m' → inv value m'.
Proof.
  intros I H. destruct H as [m i c section e c' self' Hc Ha|m i x Hc].
  2: { pose proof (inv_act value m i _ (Core x Outside) (rw m) None I Hc) as H. cbn in H. rewrite app_nil_r in H. apply H; try done; try lia; auto. }
  destruct (inv_bounds _ _ I) as (Bw & Br & Ba & Bc & Bc0). destruct (state_bit _ _ I) as [Sw Sr].
  destruct m as [[st ww dt] cs lg]. cbn [rw cores log state writers_waiting data] in *.
  pose proof (in_state _ _ I) as Es. pose proof (in_waiting _ _ I) as Ew. cbn [rw cores state writers_waiting] in Es, Ew. unfold RW_WRITER in Es.
  destruct c as [f p]. assert (p = Outside ∨ f = false) as Hirq by exact (in_irq _ _ I i _ Hc).
  pose proof (inv_act value _ i _ c' self' e I Hc) as IA.
  pose proof (count_member registered _ _ _ Hc) as Mr. pose proof (count_member announced _ _ _ Hc) as Ma.
  pose proof (λ d v, in_first _ _ I i _ d v Hc) as Hv. pose proof (in_data _ _ I i _ Hc) as Hd. pose proof (in_free _ _ I) as Hfree.
  cbn [rw cores log data at_] in *.
  destruct p; [destruct section as [s|]|..]; cbn in Ha.
  11: destruct todo as [|op todo]; cbn in Ha.
  all: try (destruct Hirq as [Hirq|Hirq]; [done|subst f]).
  - plain IA Ha.
  - plain IA Ha.
  - destruct (Z.eqb_spec ww 0); cbn in Ha; plain IA Ha.
  - rewrite Sw in Ha. pose proof (count_missing registered _ _ _ Hc eq_refl). pose proof (in_few _ _ I). cbn [cores] in *.
    assert ((st + 1) mod 2 ^ 32 = st + 1) as Hm by (apply Z.mod_small; lia).
    destruct (Z.eqb_spec (count writes cs) 0); plain IA Ha.
  - destruct (Z.eqb_spec ww 0); plain IA Ha. intros daif' v [= _ <-]. done.
  - specialize (Mr eq_refl). assert ((st - 1) mod 2 ^ 32 = st - 1) as Hm by (apply Z.mod_small; lia). plain IA Ha.
  - specialize (Mr eq_refl). assert ((st - 1) mod 2 ^ 32 = st - 1) as Hm by (apply Z.mod_small; lia). plain IA Ha.
  - plain IA Ha.
  - assert ((ww + 1) mod 2 ^ 32 = ww + 1) as Hm by (apply Z.mod_small; lia). plain IA Ha.
  - destruct (Z.eqb_spec st 0); [|plain IA Ha]. plain IA Ha.
    intros _. rewrite foldl_app, Hfree by lia. done.
  - pose proof (count_member writes _ _ _ Hc eq_refl). plain IA Ha. intros _ _. rewrite app_nil_r. by apply Hd.
  - plain IA Ha. intros _. rewrite app_nil_r. by rewrite Hd.
  - plain IA Ha. intros _. rewrite app_nil_r. by rewrite Hd.
  - specialize (Ma eq_refl). assert ((ww - 1) mod 2 ^ 32 = ww - 1) as Hm by (apply Z.mod_small; lia). plain IA Ha.
  - plain IA Ha.
Qed.

Lemma rw_inv_reachable value flags m : Z.of_nat (length flags) < 2 ^ 31 → reachable value flags m → inv value m.
Proof.
  intros Hf H. unfold reachable in H. pose proof (rw_inv_idle value flags Hf) as I. revert I. induction H as [|m m2 m3 S _ IH]; [done|].
  intros I. apply IH. by eapply rw_inv_step.
Qed.

(** C19: Under every interleaving of up to 2^31 cores a writer inside is alone: no other writer
    and no reader is inside.  As long as a reader is inside the data stay as it found them; the
    data are what the writing sections, each run as a whole in the order of their beginning, make
    of them, up to the rest of the one inside; a core that is not outside has its interrupts
    masked; and when all are outside both words are zero again. *)
Theorem rw_lock_sound (value : D) (flags : list bool) (m : machine) :
  Z.of_nat (length flags) < 2 ^ 31 → reachable value flags m →
  (∀ i c j d, cores m !! i = Some c → writes c = true → cores m !! j = Some d → j ≠ i → writes d = false ∧ reads d = false) ∧
  (∀ i c daif first, cores m !! i = Some c → at_ c = RHolding daif first → data (rw m) = first) ∧
  (∀ i c, cores m !! i = Some c → writes c = true → foldl run_section value (log m) = finish (at_ c) (data (rw m))) ∧
  ((∀ i c, cores m !! i = Some c → writes c = false) → foldl run_section value (log m) = data (rw m)) ∧
  (∀ i c, cores m !! i = Some c → at_ c = Outside ∨ irq c = false) ∧
  ((∀ i c, cores m !! i = Some c → at_ c = Outside) → state (rw m) = 0 ∧ writers_waiting (rw m) = 0).
Proof.
  intros Hf H. pose proof (rw_inv_reachable _ _ _ Hf H) as I. pose proof (inv_bounds _ _ I) as B.
  assert (∀ f : core → bool, (∀ i c, cores m !! i = Some c → f c = false) → count f (cores m) = 0) as H0.
  { intros f Hall. pose proof (count_bound f (cores m)). destruct (decide (0 < count f (cores m))) as [Hp|]; [|lia].
    apply count_pos in Hp as (i & c & Hc & Hi). rewrite (Hall i c Hc) in Hi. done. }
  split_and!.
  - intros i c j d Hc Hw Hd Hne. split.
    + destruct (writes d) eqn:E; [|done]. by destruct (Hne (count_two writes _ j i d c Hd Hc E Hw (in_writer _ _ I))).
    + pose proof (count_member writes _ _ _ Hc Hw). assert (count clears (cores m) = 0) as Hz by (apply (in_apart _ _ I); lia).
      pose proof (count_zero clears _ j d Hz Hd) as E. unfold clears in E. unfold reads. by destruct (at_ d).
  - intros i c daif first Hc Hp. symmetry. by eapply in_first.
  - exact (in_data _ _ I).
  - intros Hall. apply (in_free _ _ I), H0, Hall.
  - exact (in_irq _ _ I).
  - intros Hall. rewrite (in_state _ _ I), (in_waiting _ _ I), !H0; [done|..]; intros i c Hc; unfold announced, registered, writes; by rewrite (Hall i c Hc).
Qed.

(** ** Writers come through *)
Lemma rw_step_quiet m i c c' self' section : cores m !! i = Some c → act c (rw m) section = (None, c', self') →
  step m (Machine self' (<[i := c']> (cores m)) (log m)).
Proof. intros Hc Ha. pose proof (step_act m i c section None c' self' Hc Ha) as H. cbn in H. by rewrite app_nil_r in H. Qed.

(** A run in which only other cores move and nobody begins to write. *)
Definition leads (i : nat) (value : D) (m m' : machine) : Prop :=
  rtc step m m' ∧ inv value m' ∧ log m' = log m ∧ cores m' !! i = cores m !! i.
Lemma leads_trans i value m1 m2 m3 : leads i value m1 m2 → leads i value m2 m3 → leads i value m1 m3.
Proof. intros (? & _ & L1 & C1) (? & ? & L2 & C2). split_and!; [by etrans|done|by rewrite L2|by rewrite C2]. Qed.
Lemma leads_step i k value m c c' self' : inv value m → cores m !! k = Some c → act c (rw m) None = (None, c', self') → k ≠ i →
  leads i value m (Machine self' (<[k := c']> (cores m)) (log m)).
Proof.
  intros I Hc Ha Hne. pose proof (rw_step_quiet m k c c' self' None Hc Ha) as S. split_and!; [by apply rtc_once|by eapply rw_inv_step|done|].
  cbn. by rewrite list_lookup_insert_ne.
Qed.

Lemma writer_leaves i value todo m k f daif : inv value m → cores m !! k = Some (Core f (WHolding daif todo)) → k ≠ i →
  ∃ m', leads i value m m' ∧ count writes (cores m') = 0.
Proof.
  revert m. induction todo as [|op todo IH]; intros m I Hc Hne.
  - eexists. split; [exact (leads_step i k value m _ _ _ I Hc eq_refl Hne)|]. cbn [cores]. rewrite (count_insert _ _ _ _ _ Hc). cbn.
    pose proof (count_member writes _ _ _ Hc eq_refl). pose proof (in_writer _ _ I). lia.
  - pose proof (leads_step i k value m _ _ _ I Hc eq_refl Hne) as L1. cbn in L1. pose proof L1 as (_ & I1 & _).
    pose proof (leads_step i k value _ (Core f (WLoaded daif op (data (rw m)) todo)) _ _ I1 (list_lookup_insert_eq _ _ _ (lookup_lt_Some _ _ _ Hc)) eq_refl Hne) as L2.
    pose proof L2 as (_ & I2 & _). cbn in L2, I2. destruct (IH _ I2) as (m' & L3 & H0); [|done|].
    + cbn. apply list_lookup_insert_eq. rewrite length_insert. by eapply lookup_lt_Some.
    + exists m'. split; [|done]. by eapply leads_trans; [|eapply leads_trans].
Qed.

Lemma writers_leave i value m c : inv value m → cores m !! i = Some c → waits c = true →
  ∃ m', leads i value m m' ∧ count writes (cores m') = 0.
Proof.
  intros I Hi Hw. pose proof (count_bound writes (cores m)). destruct (decide (0 < count writes (cores m))) as [Hp|Hp].
  2: { exists m. split; [|lia]. by split_and!. }
  apply count_pos in Hp as (k & [f p] & Hc & Hk). assert (k ≠ i) as Hne.
  { intros ->. assert (c = Core f p) as -> by congruence. by destruct p. }
  destruct p as [| | | | | | | | |daif todo|daif op v todo| |]; try done.
  - by eapply writer_leaves.
  - pose proof (leads_step i k value m _ _ _ I Hc eq_refl Hne) as L1. cbn in L1. pose proof L1 as (_ & I1 & _).
    destruct (writer_leaves i value todo _ k f daif I1) as (m' & L2 & H0); [|done|].
    + cbn. apply list_lookup_insert_eq. by eapply lookup_lt_Some.
    + exists m'. split; [by eapply leads_trans|done].
Qed.

(** A registered reader takes its registration back: one that is inside leaves, one that has not
    looked yet sees the writer. *)
Lemma reader_leaves i value m c k d : inv value m → cores m !! i = Some c → waits c = true →
  count writes (cores m) = 0 → cores m !! k = Some d → registered d = true →
  ∃ m', leads i value m m' ∧ count writes (cores m') = 0 ∧ count registered (cores m') = count registered (cores m) - 1.
Proof.
  intros I Hi Hw H0 Hk Hr. assert (k ≠ i) as Hne by (intros ->; assert (c = d) as -> by congruence; destruct d as [f p]; by destruct p).
  destruct d as [f p]. destruct p as [| | |daif|daif|daif first| | | | | | |]; try done.
  - assert (writers_waiting (rw m) =? 0 = false) as Hww.
    { apply Z.eqb_neq. rewrite (in_waiting _ _ I). pose proof (count_member announced (cores m) i c Hi) as H.
      assert (announced c = true) as Ha by (destruct c as [f' p]; by destruct p). specialize (H Ha). lia. }
    assert (act (Core f (RChecking daif)) (rw m) None = (None, Core f (RBacking daif), rw m)) as Ha by (cbn; by rewrite Hww).
    pose proof (leads_step i k value m _ _ _ I Hk Ha Hne) as L1. pose proof L1 as (_ & I1 & _).
    pose proof (leads_step i k value _ (Core f (RBacking daif)) _ _ I1 (list_lookup_insert_eq _ _ _ (lookup_lt_Some _ _ _ Hk)) eq_refl Hne) as L2.
    cbn [cores] in L2. rewrite list_insert_insert_eq in L2. eexists. split; [by eapply leads_trans|]. cbn [cores].
    rewrite !(count_insert _ _ _ _ _ Hk). cbn. lia.
  - eexists. split; [exact (leads_step i k value m _ _ _ I Hk eq_refl Hne)|]. cbn [cores]. rewrite !(count_insert _ _ _ _ _ Hk). cbn. lia.
  - eexists. split; [exact (leads_step i k value m _ _ _ I Hk eq_refl Hne)|]. cbn [cores]. rewrite !(count_insert _ _ _ _ _ Hk). cbn. lia.
Qed.

Lemma readers_leave i value n m c : inv value m → cores m !! i = Some c → waits c = true → count writes (cores m) = 0 →
  count registered (cores m) = Z.of_nat n → ∃ m', leads i value m m' ∧ count writes (cores m') = 0 ∧ count registered (cores m') = 0.
Proof.
  revert m. induction n as [|n IH]; intros m I Hi Hw H0 Hn; [exists m; by split_and!|].
  destruct (count_pos registered (cores m)) as (k & d & Hk & Hd); [lia|].
  destruct (reader_leaves i value m c k d I Hi Hw H0 Hk Hd) as (m1 & L1 & W1 & R1). pose proof L1 as (_ & I1 & _ & C1).
  destruct (IH m1 I1) as (m2 & L2 & H2); [by rewrite C1|done|done|lia|]. exists m2. split; [by eapply leads_trans|done].
Qed.

(** C30: From the moment a writer has announced itself and waits, no reader comes in before it;
    and from every such state there is a run in which it is the next to begin a writing
    section: those inside finish, and readers that are about to enter step back. *)
Theorem rw_writer_precedence (value : D) (flags : list bool) (m : machine) (i : nat) (c : core) (daif : bool) (todo : list Op) :
  Z.of_nat (length flags) < 2 ^ 31 → reachable value flags m → cores m !! i = Some c → at_ c = WTrying daif todo →
  (∀ m' k d, step m m' → cores m' !! k = Some d → reads d = true → ∃ d0, cores m !! k = Some d0 ∧ reads d0 = true) ∧
  ∃ m' c', rtc step m m' ∧ cores m' !! i = Some c' ∧ at_ c' = WHolding daif todo ∧ log m' = log m ++ [todo].
Proof.
  intros Hf H Hi Hp. pose proof (rw_inv_reachable _ _ _ Hf H) as I. assert (waits c = true) as Hw by (unfold waits; by rewrite Hp).
  split.
  - intros m' k d S Hd Hr. destruct S as [m j e section ev e' self' He Ha|m j x He]; cbn [cores] in Hd.
    + apply list_lookup_insert_Some in Hd as [(<- & <- & _)|[_ Hd]]; [|by exists d]. exists e. split; [done|].
      pose proof (in_waiting _ _ I) as Hww. pose proof (count_member announced _ _ _ Hi) as Ma. unfold announced at 1 in Ma. rewrite Hp in Ma.
      specialize (Ma eq_refl). destruct e as [f p]. destruct p; [destruct section|..]; cbn in Ha; try (injection Ha as <- <- <-; done).
      * destruct (negb _); injection Ha as <- <- <-; done.
      * destruct (Z.land _ _ =? 0); injection Ha as <- <- <-; done.
      * rewrite (proj2 (Z.eqb_neq _ 0)) in Ha by lia. by injection Ha as <- <- <-.
      * destruct (_ =? 0); injection Ha as <- <- <-; done.
      * destruct todo0; by injection Ha as <- <- <-.
    + apply list_lookup_insert_Some in Hd as [(<- & <- & _)|[_ Hd]]; [done|by exists d].
  - destruct (writers_leave i value m c I Hi Hw) as (m1 & L1 & W1). pose proof L1 as (_ & I1 & _ & C1).
    destruct (readers_leave i value (Z.to_nat (count registered (cores m1))) m1 c I1) as (m2 & L2 & W2 & R2); [by rewrite C1|done|done| |].
    { rewrite Z2Nat.id; [done|]. apply count_bound. }
    destruct (leads_trans _ _ _ _ _ L1 L2) as (S & I2 & Hl & C2). rewrite Hi in C2. destruct c as [f p]. cbn in Hp. subst p.
    do 2 eexists. split; [eapply rtc_r; [exact S|]|].
    + apply (step_act m2 i _ None (Some todo) (Core f (WHolding daif todo)) (mk RW_WRITER (writers_waiting (rw m2)) (data (rw m2))) C2).
      cbn. by rewrite (in_state _ _ I2), W2, R2.
    + cbn. rewrite Hl. split; [by apply list_lookup_insert_eq; eapply lookup_lt_Some|done].
Qed.

(** A schedule: which core moves next, and what it does if it is outside. *)
Fixpoint exec (sched : list (nat * option (list Op))) (m : machine) : machine :=
  match sched with
  | [] => m
  | (i, s) :: sched =>
    match cores m !! i with
    | Some c => let '(e, c', self') := act c (rw m) s in exec sched (Machine self' (<[i := c']> (cores m)) (log m ++ option_list e))
    | None => exec sched m
    end
  end.
Lemma rw_exec_steps sched m : rtc step m (exec sched m).
Proof.
  revert m. induction sched as [|[i s] sched IH]; intros m; [done|]. cbn. destruct (cores m !! i) as [c|] eqn:Hc; [|apply IH].
  destruct (act c (rw m) s) as [[e c'] self'] eqn:Ha. eapply rtc_l; [by eapply step_act|apply IH].
Qed.
End lock.
Arguments t : clear implicits.
Arguments place : clear implicits.
Arguments core : clear implicits.
Arguments machine : clear implicits.
End RwSpinLock.

(** ** Runs of the two locks

    Three cores; a section appends digits to a number.  The ticket lock starts where its
    counters wrap around. *)
Definition digit (op v : Z) : Z := 10 * v + op.

Definition demo_tickets : SpinLock.machine Z Z :=
  SpinLock.exec digit [(0%nat, [1; 2]); (1%nat, [3]); (1%nat, []); (0%nat, []); (1%nat, []); (1%nat, []); (0%nat, []); (2%nat, [])]
    (SpinLock.idle (2 ^ 32 - 1) 0 [true; true; false]).

Lemma ticket_lock_sound_witness :
  SpinLock.entered (SpinLock.trace demo_tickets) = [1%nat] ∧
  SpinLock.drew (SpinLock.trace demo_tickets) = [1%nat; 0%nat] ∧
  SpinLock.left (SpinLock.trace demo_tickets) `prefix_of` SpinLock.entered (SpinLock.trace demo_tickets).
Proof.
  split; [reflexivity|]. split; [reflexivity|].
  apply (SpinLock.ticket_lock_sound digit (2 ^ 32 - 1) 0 [true; true; false] demo_tickets).
  - by unfold in_width.
  - by cbn.
  - apply SpinLock.exec_steps.
Defined.

Lemma ticket_lock_progress_witness :
  SpinLock.next_ticket (SpinLock.mutex demo_tickets) = 1 ∧
  ∃ m' c', rtc (SpinLock.step digit) demo_tickets m' ∧ SpinLock.cores m' !! 0%nat = Some c' ∧ SpinLock.inside (SpinLock.at_ c') = true ∧
    SpinLock.drew (SpinLock.trace m') = SpinLock.drew (SpinLock.trace demo_tickets) ∧
    Z.of_nat (length (SpinLock.left (SpinLock.trace m'))) =
      Z.of_nat (length (SpinLock.left (SpinLock.trace demo_tickets))) + wrapping_sub 32 0 (SpinLock.now_serving (SpinLock.mutex demo_tickets)).
Proof.
  split; [reflexivity|].
  apply (SpinLock.ticket_lock_progress digit (2 ^ 32 - 1) 0 [true; true; false] demo_tickets 0
    (SpinLock.Core false (SpinLock.Spinning true 0 [1; 2]))).
  - by unfold in_width.
  - by cbn.
  - apply SpinLock.exec_steps.
  - reflexivity.
  - reflexivity.
Defined.

(** Core 0 reads, core 1 has announced itself, core 2 is about to register. *)
Definition demo_rw : RwSpinLock.machine Z Z :=
  RwSpinLock.exec digit [(0%nat, None); (0%nat, None); (0%nat, None); (0%nat, None); (2%nat, None); (2%nat, None); (1%nat, Some [7]); (1%nat, None); (1%nat, None)]
    (RwSpinLock.idle 5 [true; true; false]).

Lemma rw_lock_sound_witness :
  RwSpinLock.state (RwSpinLock.rw demo_rw) = 1 ∧
  ∀ c daif first, RwSpinLock.cores demo_rw !! 0%nat = Some c → RwSpinLock.at_ c = RwSpinLock.RHolding daif first →
    RwSpinLock.data (RwSpinLock.rw demo_rw) = first.
Proof.
  split; [reflexivity|]. intros c daif first.
  apply (RwSpinLock.rw_lock_sound digit 5 [true; true; false] demo_rw).
  - by cbn.
  - apply RwSpinLock.rw_exec_steps.
Defined.

Lemma rw_writer_precedence_witness :
  RwSpinLock.writers_waiting (RwSpinLock.rw demo_rw) = 1 ∧
  ∃ m' c', rtc (RwSpinLock.step digit) demo_rw m' ∧ RwSpinLock.cores m' !! 1%nat = Some c' ∧
    RwSpinLock.at_ c' = RwSpinLock.WHolding true [7] ∧ RwSpinLock.log m' = RwSpinLock.log demo_rw ++ [[7]].
Proof.
  split; [reflexivity|].
  apply (RwSpinLock.rw_writer_precedence digit 5 [true; true; false] demo_rw 1 (RwSpinLock.Core false (RwSpinLock.WTrying true [7])) true [7]).
  - by cbn.
  - apply RwSpinLock.rw_exec_steps.
  - reflexivity.
  - reflexivity.
Defined.
