(* ===== verification/Heap.v ===== *)
(** * The heap of a process

    [src/crates/caprock-region/src/heap.rs]: size classes with free lists threaded through the
    freed slots, bump regions, and a region of its own for every large block.  The source of
    regions is the class [RegionSource]; memory is a function from addresses to bytes. *)

From S2P Require Import Prelude.
From S2P Require Import PanicMonad.
From S2P Require Import Bytes.
#[local] Open Scope Z_scope.

(** ** Memory *)
Definition memory : Type := Z → Z.
Definition read_bytes (m : memory) (a : Z) (n : nat) : list Z := (λ i, m (a + Z.of_nat i)) <$> seq 0 n.
Definition write_bytes (m : memory) (a : Z) (l : list Z) : memory :=
  λ x, if (a <=? x) && (x <? a + len l) then nth (Z.to_nat (x - a)) l 0 else m x.
(** [core::ptr::read] and [write] of a [usize]. *)
Definition read_word (m : memory) (a : Z) : Z := le_value (read_bytes m a 8).
Definition write_word (m : memory) (a v : Z) : memory := write_bytes m a (le_bytes 8 v).

Inductive Purpose := PHeap | Large | Dma | HotReloadState | Shared | Other.
Module Region.
Record t := mk { phys : Z; len : Z }.
#[global] Instance eq_dec : EqDecision t.
Proof. solve_decision. Defined.
End Region.

(** Where regions come from. *)
Class RegionSource (S : Type) := {
  request : Z → Purpose → S → option Region.t * S;
  release : Region.t → S → S }.

Definition CLASS_SIZES : list Z := [16; 32; 64; 128; 256; 512; 1024; 2048].
Definition NUM_CLASSES : nat := 8.
Definition MAX_SLAB_REGIONS : nat := 12.
Definition MAX_LARGE : nat := 8.
Definition SLAB_REGION_BYTES : Z := 64 * 1024.

Module SlabRegion.
Record t := mk { region : Region.t; bump : Z }.
End SlabRegion.
Module HeapInner.
Record t := mk { slabs : list (option SlabRegion.t); large : list (option Region.t); free_heads : list Z }.
End HeapInner.

Definition class_for (effective : Z) : option nat := position (λ c, effective <=? c) CLASS_SIZES.
Definition align_up (v a : Z) : Z := Z.ldiff (wrapping_sub 64 (wrapping_add 64 v a) 1) (a - 1).
Definition free_place {A} (l : list (option A)) : option nat := position (λ x, match x with None => true | Some _ => false end) l.

Module Heap.
Section heap.
Context {S : Type} `{!RegionSource S}.

Record t := mk { source : S; inner : HeapInner.t; mem : memory }.
Definition with_source (v : S) (h : t) : t := mk v (inner h) (mem h).
Definition with_inner (v : HeapInner.t) (h : t) : t := mk (source h) v (mem h).
Definition with_mem (v : memory) (h : t) : t := mk (source h) (inner h) v.
Definition with_slabs (v : list (option SlabRegion.t)) (h : t) : t :=
  with_inner (HeapInner.mk v (HeapInner.large (inner h)) (HeapInner.free_heads (inner h))) h.
Definition with_large (v : list (option Region.t)) (h : t) : t :=
  with_inner (HeapInner.mk (HeapInner.slabs (inner h)) v (HeapInner.free_heads (inner h))) h.
Definition with_free_heads (v : list Z) (h : t) : t :=
  with_inner (HeapInner.mk (HeapInner.slabs (inner h)) (HeapInner.large (inner h)) v) h.

Definition new (source : S) (m : memory) : t :=
  mk source (HeapInner.mk (replicate MAX_SLAB_REGIONS None) (replicate MAX_LARGE None) (replicate NUM_CLASSES 0)) m.

Definition allocated_bytes (h : t) : Z :=
  wrapping_add 64
    (foldl (λ n s, wrapping_add 64 n (SlabRegion.bump s)) 0 (omap id (HeapInner.slabs (inner h))))
    (foldl (λ n r, wrapping_add 64 n (Region.len r)) 0 (omap id (HeapInner.large (inner h)))).
Definition region_count (h : t) : nat :=
  length (omap id (HeapInner.slabs (inner h))) + length (omap id (HeapInner.large (inner h))).

(** The source is asked. *)
Definition ask (min_len : Z) (purpose : Purpose) : M t (option Region.t) :=
  λ h, let '(r, s) := request min_len purpose (source h) in Some (r, with_source s h).

(** The loop over the bump regions: the first that has room. *)
Fixpoint carve (size : Z) (slabs : list (option SlabRegion.t)) : option (Z * list (option SlabRegion.t)) :=
  match slabs with
  | [] => None
  | None :: slabs => (λ '(a, l), (a, None :: l)) <$> carve size slabs
  | Some slot :: slabs =>
    let off := align_up (SlabRegion.bump slot) size in
    if wrapping_add 64 off size <=? Region.len (SlabRegion.region slot)
    then Some (wrapping_add 64 (Region.phys (SlabRegion.region slot)) off,
               Some (SlabRegion.mk (SlabRegion.region slot) (wrapping_add 64 off size)) :: slabs)
    else (λ '(a, l), (a, Some slot :: l)) <$> carve size slabs
  end.

Definition slab_alloc (ci : nat) : M t (option Z) :=
  size ← expect (CLASS_SIZES !! ci);
  g ← gets inner;
  head ← expect (HeapInner.free_heads g !! ci);
  if negb (head =? 0) then
    next ← gets (λ h, read_word (mem h) head);
    modify (λ h, with_free_heads (<[ci := next]> (HeapInner.free_heads g)) h) ≫= λ _, mret (Some head)
  else
    match carve size (HeapInner.slabs g) with
    | Some (addr, slabs) => modify (with_slabs slabs) ≫= λ _, mret (Some addr)
    | None =>
      r ← ask (Z.max SLAB_REGION_BYTES size) PHeap;
      match r with
      | None => mret None
      | Some region =>
        match free_place (HeapInner.slabs g) with
        | None => mret None
        | Some free =>
          modify (with_slabs (<[free := Some (SlabRegion.mk region size)]> (HeapInner.slabs g))) ≫= λ _,
          mret (Some (Region.phys region))
        end
      end
    end.

Definition large_alloc (size align : Z) : M t (option Z) :=
  r ← ask (Z.max size align) Large;
  match r with
  | None => mret None
  | Some region =>
    g ← gets inner;
    match free_place (HeapInner.large g) with
    | None => mret None
    | Some slot =>
      modify (with_large (<[slot := Some region]> (HeapInner.large g))) ≫= λ _, mret (Some (Region.phys region))
    end
  end.

(** The address and the length of the block; [None] is [AllocError]. *)
Definition allocate (size align : Z) : M t (option (Z * Z)) :=
  if size =? 0 then mret (if align =? 0 then None else Some (align, 0))
  else
    let effective := Z.max size align in
    addr ← match class_for effective with Some ci => slab_alloc ci | None => large_alloc size align end;
    match addr with
    | None => mret None
    | Some addr =>
      actual ← match class_for effective with Some ci => expect (CLASS_SIZES !! ci) | None => mret size end;
      mret (if addr =? 0 then None else Some (addr, actual))
    end.

Definition deallocate (addr size align : Z) : M t unit :=
  if size =? 0 then mret tt
  else
    g ← gets inner;
    match class_for (Z.max size align) with
    | Some ci =>
      old ← expect (HeapInner.free_heads g !! ci);
      modify (λ h, with_mem (write_word (mem h) addr old) h) ≫= λ _,
      modify (with_free_heads (<[ci := addr]> (HeapInner.free_heads g)))
    | None =>
      match position (λ r, match r with Some rg => Region.phys rg =? addr | None => false end) (HeapInner.large g) with
      | None => mret tt
      | Some slot =>
        match HeapInner.large g !! slot with
        | Some (Some region) =>
          modify (with_large (<[slot := None]> (HeapInner.large g))) ≫= λ _,
          modify (λ h, with_source (release region (source h)) h)
        | _ => mret tt
        end
      end
    end.

(** [drop] of a heap: what becomes of its source. *)
Definition drop (h : t) : S :=
  let s := foldl (λ s r, release (SlabRegion.region r) s) (source h) (omap id (HeapInner.slabs (inner h))) in
  foldl (λ s r, release r s) s (omap id (HeapInner.large (inner h))).
End heap.
Arguments t : clear implicits.
End Heap.

(** ** Spans of addresses *)
Definition span : Type := Z * Z.
Definition disj (x y : span) : Prop := x.1 + x.2 <= y.1 ∨ y.1 + y.2 <= x.1.
Definition within (x y : span) : Prop := y.1 <= x.1 ∧ x.1 + x.2 <= y.1 + y.2.
Fixpoint apart (l : list span) : Prop :=
  match l with [] => True | x :: l => Forall (disj x) l ∧ apart l end.

#[global] Instance disj_sym : Symmetric disj.
Proof. unfold disj. intros x y. tauto. Qed.
Lemma disj_within x y x' y' : disj x' y' → within x x' → within y y' → disj x y.
Proof. unfold disj, within. lia. Qed.

#[global] Instance apart_perm : Proper ((≡ₚ) ==> iff) apart.
Proof.
  assert (∀ l k, l ≡ₚ k → apart l → apart k) as H.
  { induction 1 as [|x l k Hp IH|x y l|l k m _ IH1 _ IH2]; cbn; [done| | |auto].
    - intros [Hx Hl]. split; [by rewrite <-Hp|auto].
    - rewrite !Forall_cons. intros ([Hyx Hy] & Hx & Hl). split_and!; [by symmetry|done..]. }
  intros l k Hp. split; apply H; [done|by symmetry].
Qed.
Lemma apart_app l k : apart (l ++ k) ↔ apart l ∧ apart k ∧ ∀ x y, x ∈ l → y ∈ k → disj x y.
Proof.
  induction l as [|z l IH]; cbn; [set_solver|]. rewrite IH, Forall_app, !Forall_forall. set_solver.
Qed.
Lemma apart_within l k : Forall2 within l k → apart k → apart l.
Proof.
  induction 1 as [|x y l k Hxy Hl IH]; cbn; [done|]. intros [Hy Hk]. split; [|auto]. rewrite Forall_forall in *.
  intros z Hz. apply list_elem_of_lookup in Hz as [i Hi]. destruct (Forall2_lookup_l _ _ _ _ _ Hl Hi) as (u & Hu & Hzu).
  eapply disj_within; [apply Hy; by eapply list_elem_of_lookup_2|done|done].
Qed.
Lemma apart_two l i j x y : apart l → l !! i = Some x → l !! j = Some y → i ≠ j → disj x y.
Proof.
  revert i j. induction l as [|z l IH]; intros [|i] [|j]; cbn; try done.
  - intros [Hz _] [= ->] Hj _. rewrite Forall_forall in Hz. apply Hz. by eapply list_elem_of_lookup_2.
  - intros [Hz _] Hi [= ->] _. rewrite Forall_forall in Hz. symmetry. apply Hz. by eapply list_elem_of_lookup_2.
  - intros [_ Hl] Hi Hj Hne. eapply IH; [done..|]. by intros ->.
Qed.

(** ** Memory *)
Lemma read_word_agree m m' a : (∀ x, a <= x < a + 8 → m' x = m x) → read_word m' a = read_word m a.
Proof.
  intros H. unfold read_word. f_equal. unfold read_bytes. apply list_fmap_ext. intros i x Hx.
  apply lookup_seq in Hx as [-> Hx]. apply H. lia.
Qed.
Lemma write_bytes_other m a l x : disj (a, len l) (x, 1) → write_bytes m a l x = m x.
Proof.
  unfold disj, write_bytes. cbn. intros H. destruct (Z.leb_spec a x); [|done]. destruct (Z.ltb_spec x (a + len l)); [|done]. cbn. lia.
Qed.
Lemma read_bytes_lookup m a n i : (i < n)%nat → read_bytes m a n !! i = Some (m (a + Z.of_nat i)).
Proof. intros Hi. unfold read_bytes. rewrite list_lookup_fmap, lookup_seq_lt by done. done. Qed.
Lemma length_read_bytes m a n : length (read_bytes m a n) = n.
Proof. unfold read_bytes. by rewrite length_fmap, length_seq. Qed.
Lemma write_bytes_at m a l i x : l !! i = Some x → write_bytes m a l (a + Z.of_nat i) = x.
Proof.
  intros Hx. pose proof (lookup_lt_Some _ _ _ Hx). unfold write_bytes, len.
  rewrite (proj2 (Z.leb_le _ _)), (proj2 (Z.ltb_lt _ _)) by lia. cbn [andb].
  replace (Z.to_nat (a + Z.of_nat i - a)) with i by lia. by apply nth_lookup_Some.
Qed.
Lemma read_write_bytes m a l : read_bytes (write_bytes m a l) a (length l) = l.
Proof.
  apply list_eq. intros i. destruct (decide (i < length l)%nat) as [Hi|Hi].
  - destruct (lookup_lt_is_Some_2 l i Hi) as [x Hx]. rewrite Hx, read_bytes_lookup by done. f_equal. by apply write_bytes_at.
  - rewrite !lookup_ge_None_2; [done|lia|rewrite length_read_bytes; lia].
Qed.
Lemma read_write_word m a v : in_width 64 v → read_word (write_word m a v) a = v.
Proof.
  intros Hv. unfold read_word, write_word. rewrite <-(length_le_bytes 8 v) at 2. rewrite read_write_bytes. by apply le_value_bytes.
Qed.

(** A free list, from its head on. *)
Fixpoint chain (m : memory) (l : list Z) (head : Z) : Prop :=
  match l with [] => head = 0 | a :: l => head = a ∧ a ≠ 0 ∧ chain m l (read_word m a) end.
Lemma chain_agree m m' l head : (∀ a x, a ∈ l → a <= x < a + 8 → m' x = m x) → chain m l head → chain m' l head.
Proof.
  revert head. induction l as [|a l IH]; intros head H; [done|]. cbn [chain]. intros (-> & Ha & Hl). split_and!; [done..|].
  rewrite (read_word_agree m m'); [|intros x; apply H; by left]. apply IH; [|done]. intros b x Hb. apply H. by right.
Qed.

(** ** Size classes *)
Definition class_size (ci : nat) : Z := default 0 (CLASS_SIZES !! ci).
Lemma class_cases ci size : CLASS_SIZES !! ci = Some size →
  size = class_size ci ∧ (ci < 8)%nat ∧ size ∈ [16; 32; 64; 128; 256; 512; 1024; 2048].
Proof.
  intros H. unfold class_size. rewrite H. split; [done|]. split; [by apply lookup_lt_Some in H|by apply list_elem_of_lookup_2 in H].
Qed.
Lemma class_for_Some e ci : class_for e = Some ci → CLASS_SIZES !! ci = Some (class_size ci) ∧ e <= class_size ci.
Proof.
  unfold class_for. intros ((c & Hc & Hle) & _)%position_Some. unfold class_size. rewrite Hc. split; [done|]. by apply Z.leb_le.
Qed.
Lemma class_for_None e : class_for e = None → 2048 < e.
Proof.
  unfold class_for. rewrite position_None. intros H. specialize (H 2048 ltac:(unfold CLASS_SIZES; set_solver)). apply Z.leb_gt in H. lia.
Qed.

Lemma class_divides size : size ∈ CLASS_SIZES → (size | 4096).
Proof.
  unfold CLASS_SIZES. rewrite !elem_of_cons, elem_of_nil. intros H. destruct_or!; subst; try done; by apply Z.mod_divide.
Qed.

Lemma align_up_class v size : size ∈ CLASS_SIZES → 0 <= v <= 2 ^ 64 - 4096 →
  (size | align_up v size) ∧ v <= align_up v size < v + size.
Proof.
  intros Hs Hv. unfold CLASS_SIZES in Hs.
  assert (∃ k, 4 <= k <= 11 ∧ size = 2 ^ k) as (k & Hk & ->).
  { rewrite !elem_of_cons, elem_of_nil in Hs. destruct_or!; subst; [exists 4|exists 5|exists 6|exists 7|exists 8|exists 9|exists 10|exists 11]; (split; [lia|reflexivity]) || done. }
  assert (2 ^ k <= 2048) by (change 2048 with (2 ^ 11); apply Z.pow_le_mono_r; lia).
  assert (16 <= 2 ^ k) by (change 16 with (2 ^ 4); apply Z.pow_le_mono_r; lia).
  unfold align_up, wrapping_sub, wrapping_add. rewrite (Z.mod_small (v + 2 ^ k)), (Z.mod_small (v + 2 ^ k - 1)) by lia.
  replace (2 ^ k - 1) with (Z.ones k) by (rewrite Z.ones_equiv; lia). rewrite Z.ldiff_ones_r, Z.shiftl_mul_pow2, Z.shiftr_div_pow2 by lia.
  pose proof (Z.div_mod (v + 2 ^ k - 1) (2 ^ k) ltac:(lia)). pose proof (Z.mod_pos_bound (v + 2 ^ k - 1) (2 ^ k) ltac:(lia)).
  split; [by eexists|lia].
Qed.

(** ** Lists with gaps *)
Lemma omap_fill {A} (l : list (option A)) i x : l !! i = Some None → omap id (<[i := Some x]> l) ≡ₚ x :: omap id l.
Proof.
  intros Hi. rewrite <-(take_drop_middle l i None Hi) at 2. rewrite insert_take_drop by (by eapply lookup_lt_Some).
  rewrite !omap_app. cbn. symmetry. apply Permutation_middle.
Qed.
Lemma omap_take {A} (l : list (option A)) i x : l !! i = Some (Some x) → omap id l ≡ₚ x :: omap id (<[i := None]> l).
Proof.
  intros Hi. rewrite <-(take_drop_middle l i _ Hi) at 1. rewrite insert_take_drop by (by eapply lookup_lt_Some).
  rewrite !omap_app. cbn. symmetry. apply Permutation_middle.
Qed.
Lemma omap_member {A} (l : list (option A)) x : x ∈ omap id l ↔ ∃ i, l !! i = Some (Some x).
Proof.
  rewrite list_elem_of_omap. split.
  - intros (y & Hy & E). cbn in E. subst y. by apply list_elem_of_lookup in Hy.
  - intros [i Hi]. exists (Some x). split; [by eapply list_elem_of_lookup_2|done].
Qed.
Lemma free_place_Some {A} (l : list (option A)) i : free_place l = Some i → l !! i = Some None.
Proof. unfold free_place. by intros ((x & Hx & Hn) & _)%position_Some; destruct x. Qed.

(** The free lists as slots: an address and its class. *)
Definition free_slots (frees : list (list Z)) : list (Z * nat) := concat (imap (λ ci l, (λ a, (a, ci)) <$> l) frees).
Lemma free_slots_at frees ci fl : frees !! ci = Some fl → ∃ rest, free_slots frees ≡ₚ ((λ a, (a, ci)) <$> fl) ++ rest ∧
  ∀ fl', free_slots (<[ci := fl']> frees) ≡ₚ ((λ a, (a, ci)) <$> fl') ++ rest.
Proof.
  intros Hc. assert (∀ rest, (∀ fl', free_slots (<[ci := fl']> frees) ≡ₚ ((λ a, (a, ci)) <$> fl') ++ rest) →
    free_slots frees ≡ₚ ((λ a, (a, ci)) <$> fl) ++ rest) as H0 by (intros rest H; by rewrite <-(H fl), list_insert_id).
  pose proof (lookup_lt_Some _ _ _ Hc) as Hlt.
  set (rest := concat (imap (λ k l, (λ a, (a, k)) <$> l) (take ci frees)) ++
          concat (imap (λ k l, (λ a, (a, S (length (take ci frees)) + k)%nat) <$> l) (drop (S ci) frees))). exists rest. unfold rest.
  assert (∀ fl', free_slots (<[ci := fl']> frees) ≡ₚ ((λ a, (a, ci)) <$> fl') ++ rest) as H; unfold rest in *; [|by split; [apply H0|]].
  intros fl'. unfold free_slots. rewrite insert_take_drop by done. rewrite imap_app, concat_app. cbn [imap concat].
  rewrite length_take, Nat.min_l by lia. rewrite Nat.add_0_r. rewrite !app_assoc. apply Permutation_app.
  - apply Permutation_app_comm.
  - match goal with |- concat ?x ≡ₚ concat ?y => assert (x = y) as ->; [|done] end.
    apply imap_ext. intros i x Hx. apply list_fmap_ext. intros j a _. cbn. f_equal. lia.
Qed.

Definition slot_span (x : Z * nat) : span := (x.1, class_size x.2).
Definition region_span (r : Region.t) : span := (Region.phys r, Region.len r).
Definition region_ok (min_len : Z) (r : Region.t) : Prop :=
  0 < Region.phys r ∧ (4096 | Region.phys r) ∧ min_len <= Region.len r ∧ Region.phys r + Region.len r <= 2 ^ 64.

(** What the heap asks of a source: regions of whole pages, at least as long as asked for, apart
    from all that are handed out. *)
Class SourceLaws (S : Type) `{!RegionSource S} := {
  held : S → list Region.t;
  request_law n p s r s' : request n p s = (r, s') →
    match r with
    | Some r => held s' ≡ₚ r :: held s ∧ region_ok n r ∧ Forall (λ q, disj (region_span r) (region_span q)) (held s)
    | None => held s' ≡ₚ held s
    end;
  release_law r s : r ∈ held s → r :: held (release r s) ≡ₚ held s }.

Section heap_inv.
Context {S : Type} `{!RegionSource S, !SourceLaws S}.
Implicit Types h : Heap.t S.

Definition slab_regions h : list Region.t := SlabRegion.region <$> omap id (HeapInner.slabs (Heap.inner h)).
Definition large_regions h : list Region.t := omap id (HeapInner.large (Heap.inner h)).

(** A large block stands at the start of its region. *)
Definition big_in (b : span) (r : Region.t) : Prop := b.1 = Region.phys r ∧ 0 < b.2 <= Region.len r.

(** [smalls] are the slots in use, [bigs] the large blocks in use, [frees] the free lists,
    [leaked] regions the heap has lost. *)
Record hinv h (smalls : list (Z * nat)) (bigs : list span) (frees : list (list Z)) (leaked : list Region.t) : Prop := {
  hi_shape : length (HeapInner.slabs (Heap.inner h)) = MAX_SLAB_REGIONS ∧ length (HeapInner.large (Heap.inner h)) = MAX_LARGE ∧
    length (HeapInner.free_heads (Heap.inner h)) = NUM_CLASSES ∧ length frees = NUM_CLASSES;
  hi_held : held (Heap.source h) ≡ₚ slab_regions h ++ large_regions h ++ leaked;
  hi_ok : Forall (region_ok 0) (held (Heap.source h));
  hi_apart : apart (region_span <$> held (Heap.source h));
  hi_slabs : ∀ i s, HeapInner.slabs (Heap.inner h) !! i = Some (Some s) → 0 <= SlabRegion.bump s <= Region.len (SlabRegion.region s);
  hi_carved : apart (slot_span <$> smalls ++ free_slots frees);
  hi_inside : ∀ a ci, (a, ci) ∈ smalls ++ free_slots frees → CLASS_SIZES !! ci = Some (class_size ci) ∧ (class_size ci | a) ∧
    ∃ i s, HeapInner.slabs (Heap.inner h) !! i = Some (Some s) ∧ Region.phys (SlabRegion.region s) <= a ∧
      a + class_size ci <= Region.phys (SlabRegion.region s) + SlabRegion.bump s;
  hi_chains : ∀ ci head fl, HeapInner.free_heads (Heap.inner h) !! ci = Some head → frees !! ci = Some fl → chain (Heap.mem h) fl head;
  hi_bigs : ∃ rs, rs ≡ₚ large_regions h ∧ Forall2 big_in bigs rs }.

Lemma slab_held h i s : HeapInner.slabs (Heap.inner h) !! i = Some (Some s) → SlabRegion.region s ∈ slab_regions h.
Proof. intros Hs. apply list_elem_of_fmap. exists s. split; [done|]. apply omap_member. by exists i. Qed.

Lemma slab_ok h sm bg fr lk i s : hinv h sm bg fr lk → HeapInner.slabs (Heap.inner h) !! i = Some (Some s) →
  region_ok 0 (SlabRegion.region s).
Proof.
  intros I Hs. pose proof (hi_ok _ _ _ _ _ I) as Hok. rewrite Forall_forall in Hok. apply Hok.
  rewrite (hi_held _ _ _ _ _ I). apply elem_of_app. left. by eapply slab_held.
Qed.

(** Two bump regions are apart. *)
Lemma slabs_apart h sm bg fr lk i j s s' : hinv h sm bg fr lk →
  HeapInner.slabs (Heap.inner h) !! i = Some (Some s) → HeapInner.slabs (Heap.inner h) !! j = Some (Some s') → i ≠ j →
  disj (region_span (SlabRegion.region s)) (region_span (SlabRegion.region s')).
Proof.
  intros I Hi Hj Hne. pose proof (hi_apart _ _ _ _ _ I) as Ha. rewrite (hi_held _ _ _ _ _ I), fmap_app in Ha.
  apply apart_app in Ha as (Ha & _ & _). unfold slab_regions in Ha. rewrite (omap_take _ _ _ Hi) in Ha. cbn in Ha.
  destruct Ha as [Ha _]. rewrite Forall_forall in Ha. apply Ha. apply list_elem_of_fmap. exists (SlabRegion.region s'). split; [done|].
  apply list_elem_of_fmap. exists s'. split; [done|]. apply omap_member. exists j. by rewrite list_lookup_insert_ne.
Qed.

(** A slot in use or free is not at 0 and ends in the address space. *)
Lemma slot_place h sm bg fr lk a ci : hinv h sm bg fr lk → (a, ci) ∈ sm ++ free_slots fr →
  0 < a ∧ a + class_size ci <= 2 ^ 64 ∧ 16 <= class_size ci.
Proof.
  intros I Ha. destruct (hi_inside _ _ _ _ _ I a ci Ha) as (Hc & _ & i & s & Hs & Hlo & Hhi).
  destruct (slab_ok _ _ _ _ _ i s I Hs) as (H1 & _ & _ & H2). pose proof (hi_slabs _ _ _ _ _ I i s Hs).
  split; [lia|]. split; [lia|]. apply class_cases in Hc as (_ & _ & Hin).
  rewrite !elem_of_cons, elem_of_nil in Hin. destruct_or!; done || lia.
Qed.

(** Slots change hands between the client and the free lists; the regions stay. *)
Lemma hinv_slots h sm bg fr lk sm' fr' heads m : hinv h sm bg fr lk →
  sm' ++ free_slots fr' ≡ₚ sm ++ free_slots fr → length fr' = NUM_CLASSES → length heads = NUM_CLASSES →
  (∀ ci head fl, heads !! ci = Some head → fr' !! ci = Some fl → chain m fl head) →
  hinv (Heap.with_free_heads heads (Heap.with_mem m h)) sm' bg fr' lk.
Proof.
  intros I Hp Hf Hh Hc. destruct I. split; cbn; try done.
  - destruct hi_shape0 as (H1 & H2 & _). by split_and!.
  - by rewrite Hp.
  - intros a ci. rewrite Hp. apply hi_inside0.
Qed.

Lemma hinv_head h sm bg fr lk ci head : hinv h sm bg fr lk → HeapInner.free_heads (Heap.inner h) !! ci = Some head →
  ∃ fl, fr !! ci = Some fl ∧ chain (Heap.mem h) fl head ∧ in_width 64 head.
Proof.
  intros I Hh. destruct (hi_shape _ _ _ _ _ I) as (_ & _ & H1 & H2). pose proof (lookup_lt_Some _ _ _ Hh) as Hlt.
  destruct (lookup_lt_is_Some_2 fr ci) as [fl Hfl]; [congruence|]. exists fl. split; [done|].
  pose proof (hi_chains _ _ _ _ _ I ci head fl Hh Hfl) as Hc. split; [done|]. unfold in_width. destruct fl as [|a fl]; [cbn in Hc; subst; lia|].
  cbn [chain] in Hc. destruct Hc as (-> & _). destruct (free_slots_at fr ci (a :: fl) Hfl) as (rest & Hr & _).
  destruct (slot_place h sm bg fr lk a ci I) as (? & ? & ?); [|lia].
  apply elem_of_app. right. rewrite Hr. by left.
Qed.

(** The loop over the bump regions. *)
Lemma carve_Some size slabs a l : Heap.carve size slabs = Some (a, l) → ∃ i s, slabs !! i = Some (Some s) ∧
  wrapping_add 64 (align_up (SlabRegion.bump s) size) size <= Region.len (SlabRegion.region s) ∧
  a = wrapping_add 64 (Region.phys (SlabRegion.region s)) (align_up (SlabRegion.bump s) size) ∧
  l = <[i := Some (SlabRegion.mk (SlabRegion.region s) (wrapping_add 64 (align_up (SlabRegion.bump s) size) size))]> slabs.
Proof.
  revert l. induction slabs as [|[s|] slabs IH]; intros l; cbn [Heap.carve]; [done| |].
  - destruct (Z.leb_spec (wrapping_add 64 (align_up (SlabRegion.bump s) size) size) (Region.len (SlabRegion.region s))).
    + intros [= <- <-]. by exists 0%nat, s.
    + destruct (Heap.carve size slabs) as [[a' l']|]; [|done]. intros [= -> <-].
      destruct (IH l' eq_refl) as (i & s' & H1 & H2 & H3 & ->). by exists (Datatypes.S i), s'.
  - destruct (Heap.carve size slabs) as [[a' l']|]; [|done]. intros [= -> <-].
    destruct (IH l' eq_refl) as (i & s' & H1 & H2 & H3 & ->). by exists (Datatypes.S i), s'.
Qed.

(** A new slot in room that no slot uses. *)
Lemma hinv_new_slot h h' sm bg fr lk lk' a ci i s : hinv h sm bg fr lk →
  length (HeapInner.slabs (Heap.inner h')) = MAX_SLAB_REGIONS → HeapInner.large (Heap.inner h') = HeapInner.large (Heap.inner h) →
  HeapInner.free_heads (Heap.inner h') = HeapInner.free_heads (Heap.inner h) → Heap.mem h' = Heap.mem h →
  held (Heap.source h') ≡ₚ slab_regions h' ++ large_regions h' ++ lk' →
  Forall (region_ok 0) (held (Heap.source h')) → apart (region_span <$> held (Heap.source h')) →
  (∀ j s', j ≠ i → HeapInner.slabs (Heap.inner h') !! j = Some (Some s') → HeapInner.slabs (Heap.inner h) !! j = Some (Some s')) →
  (∀ j s', j ≠ i → HeapInner.slabs (Heap.inner h) !! j = Some (Some s') → HeapInner.slabs (Heap.inner h') !! j = Some (Some s')) →
  HeapInner.slabs (Heap.inner h') !! i = Some (Some s) → 0 <= SlabRegion.bump s <= Region.len (SlabRegion.region s) →
  CLASS_SIZES !! ci = Some (class_size ci) → (class_size ci | a) →
  Region.phys (SlabRegion.region s) <= a → a + class_size ci <= Region.phys (SlabRegion.region s) + SlabRegion.bump s →
  (∀ s', HeapInner.slabs (Heap.inner h) !! i = Some (Some s') → SlabRegion.region s' = SlabRegion.region s ∧
    Region.phys (SlabRegion.region s') + SlabRegion.bump s' <= a ∧ SlabRegion.bump s' <= SlabRegion.bump s) →
  hinv h' ((a, ci) :: sm) bg fr lk'.
Proof.
  intros I Hlen Hlg Hfh Hm Hheld Hok Hap Hold Hnew Hs Hb Hc Hdiv Hlo Hhi Hprev.
  assert (∀ x, x ∈ sm ++ free_slots fr → disj (a, class_size ci) (slot_span x)) as Hfresh.
  { intros [b cj] Hx. destruct (hi_inside _ _ _ _ _ I b cj Hx) as (_ & _ & j & s' & Hj & H1 & H2). unfold disj, slot_span. cbn.
    destruct (decide (j = i)) as [->|Hne].
    - destruct (Hprev s' Hj) as (_ & H3 & _). lia.
    - pose proof (hi_slabs _ _ _ _ _ I j s' Hj). pose proof (Hnew j s' Hne Hj) as Hj'.
      assert (disj (region_span (SlabRegion.region s)) (region_span (SlabRegion.region s'))) as Hd.
      { rewrite Hheld, fmap_app in Hap. apply apart_app in Hap as (Hap & _ & _). unfold slab_regions in Hap. rewrite (omap_take _ _ _ Hs) in Hap.
        cbn in Hap. destruct Hap as [Hap _]. rewrite Forall_forall in Hap. apply Hap, list_elem_of_fmap. exists (SlabRegion.region s'). split; [done|].
        apply list_elem_of_fmap. exists s'. split; [done|]. apply omap_member. exists j. by rewrite list_lookup_insert_ne. }
      unfold disj, region_span in Hd. cbn in Hd. lia. }
  destruct I. split; try done.
  - destruct hi_shape0 as (H1 & H2 & H3 & H4). rewrite Hlg, Hfh. by split_and!.
  - intros j s' Hj. destruct (decide (j = i)) as [->|Hne]; [by assert (s' = s) as -> by congruence|]. by apply (hi_slabs0 j), Hold.
  - cbn. split; [|done]. apply Forall_fmap, Forall_forall. intros x Hx. by apply Hfresh.
  - intros b cj Hx. cbn [app] in Hx. apply elem_of_cons in Hx as [[= -> ->]|Hx].
    + split; [done|]. split; [done|]. by exists i, s.
    + destruct (hi_inside0 b cj Hx) as (H1 & H2 & j & s' & Hj & H3 & H4). split; [done|]. split; [done|].
      destruct (decide (j = i)) as [->|Hne]; [|exists j, s'; split; [by apply Hnew|done]].
      exists i, s. split; [done|]. destruct (Hprev s' Hj) as (<- & _ & H5). lia.
  - rewrite Hfh, Hm. done.
  - unfold large_regions. by rewrite Hlg.
Qed.

Lemma wp_ask n p h (Q : option Region.t → Heap.t S → Prop) :
  (∀ r s', request n p (Heap.source h) = (r, s') → Q r (Heap.with_source s' h)) → wp (Heap.ask n p) h Q.
Proof. intros H. unfold wp, Heap.ask. destruct (request n p (Heap.source h)) as [r s'] eqn:E. by apply H. Qed.

(** What the answer of the source does to what is held. *)
Lemma held_request h sm bg fr lk n p r s' : hinv h sm bg fr lk → 0 <= n → request n p (Heap.source h) = (Some r, s') →
  held s' ≡ₚ r :: held (Heap.source h) ∧ region_ok n r ∧ Forall (region_ok 0) (held s') ∧ apart (region_span <$> held s').
Proof.
  intros I Hn E. apply request_law in E as (Hh & Hok & Hd). split; [done|]. split; [done|]. split.
  - rewrite Hh. apply Forall_cons. split; [|apply (hi_ok _ _ _ _ _ I)]. destruct Hok as (? & ? & ? & ?). split_and!; done || lia.
  - rewrite Hh. cbn. split; [by apply Forall_fmap|apply (hi_apart _ _ _ _ _ I)].
Qed.

Lemma hinv_source h sm bg fr lk lk' s' : hinv h sm bg fr lk → held s' ≡ₚ slab_regions h ++ large_regions h ++ lk' →
  Forall (region_ok 0) (held s') → apart (region_span <$> held s') → hinv (Heap.with_source s' h) sm bg fr lk'.
Proof. intros I Hh Hok Ha. destruct I. by split. Qed.

Lemma hinv_refused h sm bg fr lk n p s' : hinv h sm bg fr lk → request n p (Heap.source h) = (None, s') →
  hinv (Heap.with_source s' h) sm bg fr lk.
Proof.
  intros I E. apply request_law in E. apply (hinv_source _ _ _ _ lk); [done|..].
  - by rewrite E, (hi_held _ _ _ _ _ I).
  - rewrite E. apply (hi_ok _ _ _ _ _ I).
  - rewrite E. apply (hi_apart _ _ _ _ _ I).
Qed.

Lemma wp_slab_alloc h sm bg fr lk ci : hinv h sm bg fr lk → CLASS_SIZES !! ci = Some (class_size ci) →
  wp (Heap.slab_alloc ci) h (λ r h', Heap.mem h' = Heap.mem h ∧ ∃ fr' lk',
    match r with Some a => hinv h' ((a, ci) :: sm) bg fr' lk' | None => hinv h' sm bg fr' lk' end).
Proof.
  intros I Hc. destruct (class_cases _ _ Hc) as (_ & Hci & Hin). unfold Heap.slab_alloc. rewrite Hc.
  assert (16 <= class_size ci <= 2048) as Hsz by (rewrite !elem_of_cons, elem_of_nil in Hin; destruct_or!; done || lia).
  destruct (hi_shape _ _ _ _ _ I) as (HS & HL & HH & HF). unfold NUM_CLASSES in *.
  destruct (lookup_lt_is_Some_2 (HeapInner.free_heads (Heap.inner h)) ci) as [head Hhead]; [lia|].
  destruct (hinv_head _ _ _ _ _ ci head I Hhead) as (fl & Hfl & Hch & _).
  apply wp_bind. eapply wp_expect; [done|]. wp_step. wp_step. rewrite Hhead. wp_step. apply wp_ret.
  destruct (Z.eqb_spec head 0) as [->|Hne]; cbn [negb].
  2: { destruct fl as [|a fl]; [by cbn in Hch|]. destruct Hch as (-> & _ & Hch). repeat wp_step.
       split; [done|]. exists (<[ci := fl]> fr), lk.
       pose proof (hinv_slots h sm bg fr lk ((a, ci) :: sm) (<[ci := fl]> fr) (<[ci := read_word (Heap.mem h) a]> (HeapInner.free_heads (Heap.inner h))) (Heap.mem h) I) as H.
       destruct h as [src inn m]. apply H; clear H; rewrite ?length_insert; try done.
       - destruct (free_slots_at fr ci (a :: fl) Hfl) as (rest & Hr & Hr'). rewrite Hr, (Hr' fl).
         cbn. by rewrite <-Permutation_middle.
       - intros cj hd l H1 H2. destruct (decide (ci = cj)) as [<-|Hne2].
         + rewrite list_lookup_insert_eq in H1 by lia. rewrite list_lookup_insert_eq in H2 by lia. by injection H1 as <-; injection H2 as <-.
         + rewrite list_lookup_insert_ne in H1 by done. rewrite list_lookup_insert_ne in H2 by done. by eapply (hi_chains _ _ _ _ _ I). }
  destruct (Heap.carve (class_size ci) (HeapInner.slabs (Heap.inner h))) as [[a l]|] eqn:Ec.
  - apply carve_Some in Ec as (i & s & Hs & Hle & -> & ->). repeat wp_step. split; [done|]. exists fr, lk.
    destruct (slab_ok _ _ _ _ _ i s I Hs) as (H1 & H2 & _ & H4). pose proof (hi_slabs _ _ _ _ _ I i s Hs) as H5.
    destruct H2 as [z Hz]. destruct (align_up_class (SlabRegion.bump s) (class_size ci) Hin) as [Hd Ho]; [lia|].
    unfold wrapping_add in *. rewrite (Z.mod_small (align_up _ _ + _)) in * by lia. rewrite (Z.mod_small (Region.phys _ + _)) by lia.
    eapply (hinv_new_slot h _ sm bg fr lk lk _ ci i (SlabRegion.mk (SlabRegion.region s) (align_up (SlabRegion.bump s) (class_size ci) + class_size ci))); try done; cbn.
    + by rewrite length_insert.
    + rewrite (hi_held _ _ _ _ _ I). apply Permutation_app_tail. unfold slab_regions. cbn. rewrite (omap_take _ _ _ Hs).
      rewrite (omap_take (<[i := Some _]> _) i _) by (apply list_lookup_insert_eq; by eapply lookup_lt_Some). by rewrite list_insert_insert_eq.
    + apply (hi_ok _ _ _ _ _ I).
    + apply (hi_apart _ _ _ _ _ I).
    + intros j s' Hne Hj. by rewrite list_lookup_insert_ne in Hj.
    + intros j s' Hne Hj. by rewrite list_lookup_insert_ne.
    + apply list_lookup_insert_eq. by eapply lookup_lt_Some.
    + cbn. lia.
    + apply Z.divide_add_r; [|done]. rewrite Hz. by apply Z.divide_mul_r, class_divides.
    + cbn. lia.
    + cbn. lia.
    + intros s' Hs'. assert (s' = s) as -> by congruence. cbn. split; [done|lia].
  - apply wp_bind, wp_ask. intros [r|] s' Er.
    2: { apply wp_ret. split; [done|]. exists fr, lk. by eapply hinv_refused. }
    destruct (held_request h sm bg fr lk (Z.max SLAB_REGION_BYTES (class_size ci)) PHeap r s' I) as (Hh & Hrok & Hok & Hap); [lia|done|].
    destruct (free_place (HeapInner.slabs (Heap.inner h))) as [free|] eqn:Ef.
    2: { apply wp_ret. split; [done|]. exists fr, (r :: lk). apply (hinv_source _ _ _ _ lk); try done. rewrite Hh, (hi_held _ _ _ _ _ I).
         rewrite !Permutation_middle. done. }
    apply free_place_Some in Ef. repeat wp_step. split; [done|]. exists fr, lk.
    destruct Hrok as (R1 & R2 & R3 & R4). unfold SLAB_REGION_BYTES in R3.
    eapply (hinv_new_slot h _ sm bg fr lk lk _ ci free (SlabRegion.mk r (class_size ci))); try done; cbn.
    + by rewrite length_insert.
    + rewrite Hh, (hi_held _ _ _ _ _ I). unfold slab_regions. cbn. by rewrite (omap_fill _ _ _ Ef).
    + intros j s2 Hne Hj. by rewrite list_lookup_insert_ne in Hj.
    + intros j s2 Hne Hj. by rewrite list_lookup_insert_ne.
    + apply list_lookup_insert_eq. by eapply lookup_lt_Some.
    + cbn. lia.
    + destruct R2 as [z ->]. by apply Z.divide_mul_r, class_divides.
    + intros s2 Hs2. congruence.
Qed.

Lemma hinv_perm h sm sm' bg bg' fr lk : hinv h sm bg fr lk → sm ≡ₚ sm' → bg ≡ₚ bg' → hinv h sm' bg' fr lk.
Proof.
  intros I Hs Hb. destruct I. split; try done.
  - by rewrite <-Hs.
  - intros a ci. rewrite <-Hs. apply hi_inside0.
  - destruct hi_bigs0 as (rs & Hrs & Hf). destruct (Permutation_Forall2 Hb Hf) as (rs' & Hp & Hf').
    exists rs'. split; [by rewrite <-Hp|done].
Qed.

Lemma wp_large_alloc h sm bg fr lk size align : hinv h sm bg fr lk → 0 < size → 0 <= align →
  wp (Heap.large_alloc size align) h (λ r h', Heap.mem h' = Heap.mem h ∧ ∃ lk',
    match r with
    | Some a => hinv h' sm ((a, size) :: bg) fr lk' ∧ (4096 | a) ∧ 0 < a
    | None => hinv h' sm bg fr lk'
    end).
Proof.
  intros I Hsz Hal. unfold Heap.large_alloc. apply wp_bind, wp_ask. intros [r|] s' Er.
  2: { apply wp_ret. split; [done|]. exists lk. by eapply hinv_refused. }
  destruct (held_request h sm bg fr lk (Z.max size align) Large r s' I) as (Hh & Hrok & Hok & Hap); [lia|done|].
  wp_step. wp_step. cbn. destruct (free_place (HeapInner.large (Heap.inner h))) as [slot|] eqn:Ef.
  2: { apply wp_ret. split; [done|]. exists (r :: lk). apply (hinv_source _ _ _ _ lk); try done. rewrite Hh, (hi_held _ _ _ _ _ I).
       rewrite !Permutation_middle. done. }
  apply free_place_Some in Ef. repeat wp_step. split; [done|]. exists lk. destruct Hrok as (R1 & R2 & R3 & R4).
  split; [|done]. destruct I. split; cbn; rewrite ?length_insert; try done.
  - rewrite Hh, hi_held0. unfold large_regions. cbn. rewrite (omap_fill _ _ _ Ef). cbn [app].
    by rewrite Permutation_middle.
  - destruct hi_bigs0 as (rs & Hrs & Hf). exists (r :: rs). unfold large_regions in *. cbn.
    split; [by rewrite (omap_fill _ _ _ Ef), Hrs|]. constructor; [|done]. unfold big_in. cbn. lia.
Qed.

(** Giving a slot back: it becomes the head of its free list. *)
Lemma wp_free_slot h sm bg fr lk a ci size align : hinv h ((a, ci) :: sm) bg fr lk → size ≠ 0 →
  class_for (Z.max size align) = Some ci →
  wp (Heap.deallocate a size align) h (λ _ h', (∃ fr', hinv h' sm bg fr' lk) ∧ Heap.source h' = Heap.source h ∧
    ∀ x, ~ (a <= x < a + 8) → Heap.mem h' x = Heap.mem h x).
Proof.
  intros I Hsz Hc. destruct (hi_shape _ _ _ _ _ I) as (HS & HL & HH & HF). unfold NUM_CLASSES in *.
  apply class_for_Some in Hc as Hcl. destruct Hcl as [Hcl _]. destruct (class_cases _ _ Hcl) as (_ & Hci & Hin).
  destruct (lookup_lt_is_Some_2 (HeapInner.free_heads (Heap.inner h)) ci) as [old Hold]; [lia|].
  destruct (hinv_head _ _ _ _ _ ci old I Hold) as (fl & Hfl & Hch & Hw).
  destruct (slot_place h _ bg fr lk a ci I) as (Ha0 & Ha1 & Ha2); [by left|].
  unfold Heap.deallocate. rewrite (proj2 (Z.eqb_neq size 0)) by done. wp_step. wp_step. rewrite Hc, Hold. wp_step.
  eapply wp_expect; [done|]. repeat wp_step. split; [|split; [done|]].
  2: { intros x Hx. apply write_bytes_other. unfold disj, len. rewrite length_le_bytes. cbn. lia. }
  exists (<[ci := a :: fl]> fr).
  destruct (free_slots_at fr ci fl Hfl) as (rest & Hr & Hr').
  assert (∀ b cj, (b, cj) ∈ free_slots fr → disj (a, class_size ci) (b, class_size cj)) as Hdis.
  { intros b cj Hb. pose proof (hi_carved _ _ _ _ _ I) as Hap. cbn in Hap. destruct Hap as [Hap _]. rewrite Forall_forall in Hap.
    apply (Hap (b, class_size cj)). apply list_elem_of_fmap. exists (b, cj). split; [done|]. apply elem_of_app. by right. }
  assert (∀ cj l head, fr !! cj = Some l → chain (Heap.mem h) l head → chain (write_word (Heap.mem h) a old) l head) as Hkeep.
  { intros cj l head Hl. apply chain_agree. intros b x Hb Hx. apply write_bytes_other. unfold len. rewrite length_le_bytes.
    destruct (free_slots_at fr cj l Hl) as (rest' & Hr2 & _).
    assert ((b, cj) ∈ free_slots fr) as Hm by (rewrite Hr2; apply elem_of_app; left; apply list_elem_of_fmap; by exists b).
    pose proof (Hdis b cj Hm) as Hd. destruct (slot_place h _ bg fr lk b cj I) as (_ & _ & Hb2); [apply elem_of_app; by right|].
    unfold disj in *. cbn in *. lia. }
  pose proof (hinv_slots h _ bg fr lk sm (<[ci := a :: fl]> fr) (<[ci := a]> (HeapInner.free_heads (Heap.inner h))) (write_word (Heap.mem h) a old) I) as H.
  destruct h as [src inn m]. cbn in *. apply H; clear H; rewrite ?length_insert; try done.
  - rewrite (Hr' (a :: fl)), Hr. cbn. by rewrite <-Permutation_middle.
  - intros cj hd l H1 H2. destruct (decide (ci = cj)) as [<-|Hne].
    + rewrite list_lookup_insert_eq in H1 by lia. rewrite list_lookup_insert_eq in H2 by lia. injection H1 as <-. injection H2 as <-.
      cbn [chain]. split_and!; [done|lia|]. rewrite read_write_word by done. by apply (Hkeep ci).
    + rewrite list_lookup_insert_ne in H1 by done. rewrite list_lookup_insert_ne in H2 by done.
      apply (Hkeep cj); [done|]. by eapply (hi_chains _ _ _ _ _ I).
Qed.

(** Giving a large block back: its region goes to the source. *)
Lemma wp_free_big h sm bg fr lk a size align : hinv h sm ((a, size) :: bg) fr lk →
  class_for (Z.max size align) = None →
  wp (Heap.deallocate a size align) h (λ _ h', hinv h' sm bg fr lk ∧ Heap.mem h' = Heap.mem h ∧
    ∃ r, Region.phys r = a ∧ size <= Region.len r ∧ Heap.source h' = release r (Heap.source h)).
Proof.
  intros I Hc. destruct (hi_bigs _ _ _ _ _ I) as (rs & Hrs & Hf). apply Forall2_cons_inv_l in Hf as (r & rs' & [Hr Hsz] & Hf & ->).
  cbn in Hr, Hsz. unfold Heap.deallocate. rewrite (proj2 (Z.eqb_neq size 0)) by lia. wp_step. wp_step. rewrite Hc.
  set (large := HeapInner.large (Heap.inner h)) in *.
  assert (∀ k rg, large !! k = Some (Some rg) → Region.phys rg = a → rg = r) as Huniq.
  { intros k rg Hk Hrg. assert (rg ∈ r :: rs') as Hin by (rewrite Hrs; apply omap_member; by exists k).
    apply elem_of_cons in Hin as [|Hin]; [done|]. exfalso. pose proof (hi_apart _ _ _ _ _ I) as Ha.
    rewrite (hi_held _ _ _ _ _ I), !fmap_app, <-Hrs in Ha. apply apart_app in Ha as (_ & Ha & _). apply apart_app in Ha as (Ha & _ & _).
    cbn in Ha. destruct Ha as [Ha _]. rewrite Forall_forall in Ha.
    assert (disj (region_span r) (region_span rg)) as Hd by (apply Ha, list_elem_of_fmap; by exists rg).
    apply list_elem_of_lookup in Hin as [j Hj]. destruct (Forall2_lookup_r _ _ _ _ _ Hf Hj) as (b & _ & _ & Hb).
    unfold disj, region_span in Hd. cbn in Hd. lia. }
  assert (∃ k, large !! k = Some (Some r)) as [k Hk] by (apply omap_member; change (omap id large) with (large_regions h); rewrite <-Hrs; by left).
  destruct (position (λ r, match r with Some rg => Region.phys rg =? a | None => false end) large) as [slot|] eqn:Ep.
  2: { exfalso. rewrite position_None in Ep. specialize (Ep (Some r) (list_elem_of_lookup_2 _ _ _ Hk)). cbn in Ep. lia. }
  apply position_Some in Ep as ((x & Hx & Hxa) & _). rewrite Hx. destruct x as [rg|]; [|done]. apply Z.eqb_eq in Hxa.
  assert (rg = r) as -> by by eapply Huniq. repeat wp_step. cbn. split; [|split; [done|]; exists r; split_and!; [done|lia|done]].
  pose proof (omap_take _ _ _ Hx) as Ht. pose proof (hi_held _ _ _ _ _ I) as Hheld. unfold large_regions in Hheld. fold large in Hheld. rewrite Ht in Hheld.
  assert (held (release r (Heap.source h)) ≡ₚ slab_regions h ++ omap id (<[slot := None]> large) ++ lk) as Hrel.
  { assert (r ∈ held (Heap.source h)) as Hin by (rewrite Hheld; set_solver). apply release_law in Hin. rewrite Hheld in Hin.
    cbn [app] in Hin. rewrite <-Permutation_middle in Hin. by apply Permutation_cons_inv in Hin. }
  destruct I. split; cbn; rewrite ?length_insert; try done.
  - rewrite Hrel. rewrite Hheld in hi_ok0. cbn [app] in hi_ok0. rewrite <-Permutation_middle in hi_ok0. by apply Forall_cons in hi_ok0 as [_ ?].
  - rewrite Hrel. rewrite Hheld in hi_apart0. cbn [app] in hi_apart0. rewrite <-Permutation_middle in hi_apart0. by destruct hi_apart0 as [_ ?].
  - exists rs'. split; [|done]. unfold large_regions in *. cbn. fold large in Hrs. rewrite Ht in Hrs. by apply Permutation_cons_inv in Hrs.
Qed.

(** Writing where no free slot is. *)
Lemma hinv_write h sm bg fr lk m : hinv h sm bg fr lk →
  (∀ a ci x, (a, ci) ∈ free_slots fr → a <= x < a + class_size ci → m x = Heap.mem h x) → hinv (Heap.with_mem m h) sm bg fr lk.
Proof.
  intros I Hm. pose proof (hinv_slots h sm bg fr lk sm fr (HeapInner.free_heads (Heap.inner h)) m I) as H.
  destruct (hi_shape _ _ _ _ _ I) as (_ & _ & HH & HF). destruct h as [src [sl lg fh] m0]. cbn in *. apply H; try done.
  intros ci head fl H1 H2. apply (chain_agree m0); [|by eapply (hi_chains _ _ _ _ _ I)]. intros a x Ha Hx.
  destruct (free_slots_at fr ci fl H2) as (rest & Hr & _).
  assert ((a, ci) ∈ free_slots fr) as Hin by (rewrite Hr; apply elem_of_app; left; apply list_elem_of_fmap; by exists a).
  destruct (slot_place _ _ _ _ _ a ci I) as (_ & _ & ?); [apply elem_of_app; by right|]. apply (Hm a ci); [done|lia].
Qed.

(** ** Blocks *)
Record Block := mkBlock { b_addr : Z; b_size : Z; b_align : Z; b_len : Z }.
Definition block_span (b : Block) : span := (b_addr b, b_len b).
(** [Layout]: a size below 2^63 and a power of two. *)
Definition layout_ok (size align : Z) : Prop := 0 <= size < 2 ^ 63 ∧ ∃ k, 0 <= k < 63 ∧ align = 2 ^ k.

(** Heap and the blocks its clients hold; a client may also write, inside a block it holds. *)
Record world := mkWorld { w_heap : Heap.t S; w_live : list Block }.
Inductive wstep : world → world → Prop :=
| ws_alloc w size align a n h' : layout_ok size align → size ≠ 0 → Heap.allocate size align (w_heap w) = Some (Some (a, n), h') →
    wstep w (mkWorld h' (mkBlock a size align n :: w_live w))
| ws_refused w size align h' : layout_ok size align → size ≠ 0 → Heap.allocate size align (w_heap w) = Some (None, h') →
    wstep w (mkWorld h' (w_live w))
| ws_free w b live h' : w_live w ≡ₚ b :: live → Heap.deallocate (b_addr b) (b_size b) (b_align b) (w_heap w) = Some (tt, h') →
    wstep w (mkWorld h' live)
| ws_write w b m : b ∈ w_live w → (∀ x, ~ (b_addr b <= x < b_addr b + b_len b) → m x = Heap.mem (w_heap w) x) →
    wstep w (mkWorld (Heap.with_mem m (w_heap w)) (w_live w)).

Definition b_class (b : Block) : option nat := class_for (Z.max (b_size b) (b_align b)).
Definition slots_of (live : list Block) : list (Z * nat) := omap (λ b, (λ ci, (b_addr b, ci)) <$> b_class b) live.
Definition bigs_of (live : list Block) : list span :=
  omap (λ b, match b_class b with None => Some (b_addr b, b_size b) | Some _ => None end) live.
Record block_ok (b : Block) : Prop := {
  bo_layout : layout_ok (b_size b) (b_align b) ∧ b_size b ≠ 0;
  bo_len : b_len b = match b_class b with Some ci => class_size ci | None => b_size b end;
  bo_aligned : b_align b <= 4096 → (b_align b | b_addr b) }.
Definition winv (w : world) : Prop :=
  ∃ fr lk, hinv (w_heap w) (slots_of (w_live w)) (bigs_of (w_live w)) fr lk ∧ Forall block_ok (w_live w).

Lemma layout_align size align : layout_ok size align → 0 < align < 2 ^ 63.
Proof.
  intros (_ & k & Hk & ->). split; [apply Z.pow_pos_nonneg; lia|]. apply Z.pow_lt_mono_r; lia.
Qed.
(** A power of two up to a size class divides it. *)
Lemma align_divides size align ci : layout_ok size align → class_for (Z.max size align) = Some ci → (align | class_size ci).
Proof.
  intros (_ & k & Hk & ->) (Hc & Hle)%class_for_Some. apply class_cases in Hc as (_ & _ & Hin).
  assert (∃ j, 4 <= j <= 11 ∧ class_size ci = 2 ^ j) as (j & Hj & E).
  { rewrite !elem_of_cons, elem_of_nil in Hin. destruct_or!; [exists 4|exists 5|exists 6|exists 7|exists 8|exists 9|exists 10|exists 11]; (split; [lia|done]). }
  rewrite E in Hle |- *. assert (k <= j) as Hkj by (apply (Z.pow_le_mono_r_iff 2); lia).
  exists (2 ^ (j - k)). rewrite <-Z.pow_add_r by lia. f_equal. lia.
Qed.
(** A power of two up to a page divides a page. *)
Lemma align_page size align a : layout_ok size align → align <= 4096 → (4096 | a) → (align | a).
Proof.
  intros (_ & k & Hk & ->) Hle Ha. etransitivity; [|exact Ha]. change 4096 with (2 ^ 12) in *.
  assert (k <= 12) as Hkj by (apply (Z.pow_le_mono_r_iff 2); lia). exists (2 ^ (12 - k)). rewrite <-Z.pow_add_r by lia. f_equal. lia.
Qed.

Lemma slots_of_member live a ci : (a, ci) ∈ slots_of live ↔ ∃ b, b ∈ live ∧ b_class b = Some ci ∧ b_addr b = a.
Proof.
  unfold slots_of. rewrite list_elem_of_omap. split.
  - intros (b & Hb & E). exists b. split; [done|]. destruct (b_class b) as [cj|]; [|done]. cbn in E. by injection E as <- <-.
  - intros (b & Hb & E & <-). exists b. by rewrite E.
Qed.
Lemma bigs_of_member live x : x ∈ bigs_of live ↔ ∃ b, b ∈ live ∧ b_class b = None ∧ x = (b_addr b, b_size b).
Proof.
  unfold bigs_of. rewrite list_elem_of_omap. split.
  - intros (b & Hb & E). exists b. split; [done|]. destruct (b_class b) as [cj|]; [done|]. by injection E as <-.
  - intros (b & Hb & E & ->). exists b. by rewrite E.
Qed.

Lemma slots_of_cons b live :
  slots_of (b :: live) = match b_class b with Some ci => (b_addr b, ci) :: slots_of live | None => slots_of live end.
Proof. unfold slots_of. cbn [omap list_omap]. by destruct (b_class b). Qed.
Lemma bigs_of_cons b live :
  bigs_of (b :: live) = match b_class b with Some _ => bigs_of live | None => (b_addr b, b_size b) :: bigs_of live end.
Proof. unfold bigs_of. cbn [omap list_omap]. by destruct (b_class b). Qed.

#[global] Instance slots_of_perm : Proper ((≡ₚ) ==> (≡ₚ)) slots_of.
Proof. intros l k H. unfold slots_of. by rewrite H. Qed.
#[global] Instance bigs_of_perm : Proper ((≡ₚ) ==> (≡ₚ)) bigs_of.
Proof. intros l k H. unfold bigs_of. by rewrite H. Qed.

(** Allocation: refused, or a block of the class or of a region of its own. *)
Lemma wp_allocate w size align : winv w → layout_ok size align → size ≠ 0 →
  wp (Heap.allocate size align) (w_heap w) (λ r h', Heap.mem h' = Heap.mem (w_heap w) ∧
    match r with
    | Some (a, n) => winv (mkWorld h' (mkBlock a size align n :: w_live w)) ∧ 0 < a ∧ size <= n
    | None => winv (mkWorld h' (w_live w))
    end).
Proof.
  intros (fr & lk & I & Hb) Hl Hsz. pose proof (layout_align _ _ Hl) as Hal. destruct Hl as [Hsize Hpow] eqn:HE; clear HE.
  unfold Heap.allocate. rewrite (proj2 (Z.eqb_neq size 0)) by done. cbv zeta.
  destruct (class_for (Z.max size align)) as [ci|] eqn:Ec.
  - destruct (class_for_Some _ _ Ec) as [Hc Hle]. apply wp_bind. eapply wp_mono; [by eapply wp_slab_alloc|].
    intros [a|] h'; cbn; intros (Hm & fr' & lk' & I').
    2: { apply wp_ret. split; [done|]. by exists fr', lk'. }
    destruct (slot_place h' _ _ _ _ a ci I') as (Ha & _ & _); [by left|].
    apply wp_bind. eapply wp_expect; [done|]. apply wp_ret. rewrite (proj2 (Z.eqb_neq a 0)) by lia. split; [done|].
    split; [|lia]. exists fr', lk'. cbn [w_heap w_live]. rewrite slots_of_cons, bigs_of_cons.
    change (b_class (mkBlock _ size align _)) with (class_for (Z.max size align)). rewrite Ec. split; [done|].
    constructor; [|done]. split; cbn [b_size b_align b_addr b_len]; [done|unfold b_class; cbn [b_size b_align]; by rewrite Ec|].
    intros _. destruct (hi_inside _ _ _ _ _ I' a ci) as (_ & Hd & _); [by left|]. etransitivity; [by eapply align_divides|done].
  - pose proof (class_for_None _ Ec). apply wp_bind. eapply wp_mono; [eapply (wp_large_alloc _ _ _ _ _ size align I); lia|].
    intros [a|] h'; cbn; intros (Hm & lk' & I').
    2: { apply wp_ret. split; [done|]. by exists fr, lk'. }
    destruct I' as (I' & Hd & Ha). wp_step. apply wp_ret. rewrite (proj2 (Z.eqb_neq a 0)) by lia. split; [done|]. split; [|lia].
    exists fr, lk'. cbn [w_heap w_live]. rewrite slots_of_cons, bigs_of_cons.
    change (b_class (mkBlock _ size align _)) with (class_for (Z.max size align)). rewrite Ec. split; [done|].
    constructor; [|done]. split; cbn [b_size b_align b_addr b_len]; [done|unfold b_class; cbn [b_size b_align]; by rewrite Ec|].
    intros Hp. by eapply align_page.
Qed.

(** Giving back a block that a client holds. *)
Lemma wp_deallocate w b live : winv w → w_live w ≡ₚ b :: live →
  wp (Heap.deallocate (b_addr b) (b_size b) (b_align b)) (w_heap w) (λ _ h', winv (mkWorld h' live) ∧
    ∀ x, ~ (b_addr b <= x < b_addr b + b_len b) → Heap.mem h' x = Heap.mem (w_heap w) x).
Proof.
  intros (fr & lk & I & Hb) Hp. rewrite Hp in Hb. apply Forall_cons in Hb as [[[Hl Hsz] Hlen _] Hb].
  destruct (b_class b) as [ci|] eqn:Ec.
  - assert (hinv (w_heap w) ((b_addr b, ci) :: slots_of live) (bigs_of live) fr lk) as I'.
    { apply (hinv_perm _ _ _ _ _ _ _ I); by rewrite Hp, ?slots_of_cons, ?bigs_of_cons, Ec. }
    eapply wp_mono; [by eapply wp_free_slot|]. cbn. intros _ h' ((fr' & I2) & _ & Hm). split; [by exists fr', lk|].
    destruct (slot_place _ _ _ _ _ (b_addr b) ci I') as (_ & _ & Hs); [by left|]. intros x Hx. apply Hm. lia.
  - assert (hinv (w_heap w) (slots_of live) ((b_addr b, b_size b) :: bigs_of live) fr lk) as I'.
    { apply (hinv_perm _ _ _ _ _ _ _ I); by rewrite Hp, ?slots_of_cons, ?bigs_of_cons, Ec. }
    eapply wp_mono; [by eapply wp_free_big|]. cbn. intros _ h' (I2 & -> & _). split; [by exists fr, lk|done].
Qed.

(** Where the block of a client lies. *)
Lemma live_place w b : winv w → b ∈ w_live w →
  0 < b_addr b ∧ b_size b <= b_len b ∧ (b_align b <= 4096 → (b_align b | b_addr b)) ∧
  ∃ r, r ∈ held (Heap.source (w_heap w)) ∧ within (block_span b) (region_span r) ∧
    (b_class b = None → r ∈ large_regions (w_heap w)) ∧ (b_class b ≠ None → r ∈ slab_regions (w_heap w)).
Proof.
  intros (fr & lk & I & Hb) Hin. rewrite Forall_forall in Hb. destruct (Hb b Hin) as [[Hl Hsz] Hlen Halign].
  unfold within, block_span, region_span. cbn [fst snd]. destruct (b_class b) as [ci|] eqn:Ec.
  - assert ((b_addr b, ci) ∈ slots_of (w_live w) ++ free_slots fr) as Hm by (apply elem_of_app; left; apply slots_of_member; by exists b).
    destruct (slot_place _ _ _ _ _ _ _ I Hm) as (Ha & _ & _). destruct (hi_inside _ _ _ _ _ I _ _ Hm) as (_ & _ & i & s & Hs & H1 & H2).
    pose proof (hi_slabs _ _ _ _ _ I i s Hs). split; [done|]. split.
    { rewrite Hlen. apply class_for_Some in Ec as [_ Hle]. lia. }
    split; [done|]. exists (SlabRegion.region s). split; [rewrite (hi_held _ _ _ _ _ I); apply elem_of_app; left; by eapply slab_held|].
    split; [lia|]. split; [done|]. intros _. by eapply slab_held.
  - assert ((b_addr b, b_size b) ∈ bigs_of (w_live w)) as Hm by (apply bigs_of_member; by exists b).
    destruct (hi_bigs _ _ _ _ _ I) as (rs & Hrs & Hf). apply list_elem_of_lookup in Hm as [i Hi].
    destruct (Forall2_lookup_l _ _ _ _ _ Hf Hi) as (r & Hr & Ha & Hn). cbn in Ha, Hn.
    assert (r ∈ large_regions (w_heap w)) as Hlr by (rewrite <-Hrs; by eapply list_elem_of_lookup_2).
    assert (r ∈ held (Heap.source (w_heap w))) as Hh by (rewrite (hi_held _ _ _ _ _ I); set_solver).
    pose proof (hi_ok _ _ _ _ _ I) as Hok. rewrite Forall_forall in Hok. destruct (Hok r Hh) as (H0 & _ & _ & _).
    split; [lia|]. split; [lia|]. split; [done|]. exists r. split; [done|]. split; [lia|]. split; [done|]. congruence.
Qed.

(** The blocks in use are the slots in use and the large blocks in use. *)
Lemma live_spans live : Forall block_ok live → block_span <$> live ≡ₚ (slot_span <$> slots_of live) ++ bigs_of live.
Proof.
  induction 1 as [|b live [_ Hlen _] _ IH]; [done|]. rewrite slots_of_cons, bigs_of_cons. cbn [fmap list_fmap]. rewrite IH.
  unfold block_span at 1. rewrite Hlen. destruct (b_class b) as [ci|]; [done|]. by rewrite Permutation_middle.
Qed.
Lemma live_apart w : winv w → apart (block_span <$> w_live w).
Proof.
  intros W. pose proof W as (fr & lk & I & Hb). rewrite (live_spans _ Hb). pose proof (hi_apart _ _ _ _ _ I) as Ha.
  rewrite (hi_held _ _ _ _ _ I), !fmap_app in Ha. apply apart_app in Ha as (_ & Ha & Hcross). apply apart_app in Ha as (Ha & _ & _).
  apply apart_app. split_and!.
  - pose proof (hi_carved _ _ _ _ _ I) as Hc. rewrite fmap_app in Hc. by apply apart_app in Hc as (? & _ & _).
  - destruct (hi_bigs _ _ _ _ _ I) as (rs & Hrs & Hf). apply (apart_within _ (region_span <$> rs)); [|by rewrite Hrs].
    apply Forall2_fmap_r. eapply Forall2_impl; [done|]. intros x r [H1 H2]. unfold within, region_span. cbn. lia.
  - intros x y Hx Hy. apply list_elem_of_fmap in Hx as ([a ci] & -> & Hx). destruct (proj1 (slots_of_member _ _ _) Hx) as (b & Hbl & Hbc & <-).
    apply bigs_of_member in Hy as (c & Hcl & Hcc & ->). destruct (live_place w b W Hbl) as (_ & _ & _ & r & _ & Hbr & _ & Hrs).
    destruct (live_place w c W Hcl) as (_ & Hsz & _ & q & _ & Hcq & Hqs & _).
    rewrite Forall_forall in Hb. destruct (Hb b Hbl) as [_ Hlen _]. rewrite Hbc in Hlen.
    assert (disj (region_span r) (region_span q)) as Hd.
    { apply Hcross; [apply list_elem_of_fmap; exists r; split; [done|apply Hrs; congruence]|].
      rewrite elem_of_app. left. apply list_elem_of_fmap. exists q. split; [done|by apply Hqs]. }
    unfold disj, within, block_span, region_span, slot_span in *. cbn in *. lia.
Qed.

(** A block in use keeps clear of the free slots. *)
Lemma live_clear w b fr lk a ci : winv w → b ∈ w_live w → hinv (w_heap w) (slots_of (w_live w)) (bigs_of (w_live w)) fr lk →
  (a, ci) ∈ free_slots fr → disj (block_span b) (a, class_size ci).
Proof.
  intros W Hb I Ha. pose proof W as (_ & _ & _ & Hok). rewrite Forall_forall in Hok. destruct (Hok b Hb) as [_ Hlen _].
  destruct (live_place w b W Hb) as (_ & _ & _ & r & _ & Hbr & Hlr & _). unfold block_span in *. destruct (b_class b) as [cj|] eqn:Ec.
  - rewrite Hlen. pose proof (hi_carved _ _ _ _ _ I) as Hc. rewrite fmap_app in Hc. apply apart_app in Hc as (_ & _ & Hc).
    apply (Hc (b_addr b, class_size cj) (a, class_size ci)).
    + apply list_elem_of_fmap. exists (b_addr b, cj). split; [done|]. apply slots_of_member. by exists b.
    + apply list_elem_of_fmap. by exists (a, ci).
  - destruct (hi_inside _ _ _ _ _ I a ci) as (_ & _ & i & s & Hs & H1 & H2); [apply elem_of_app; by right|].
    pose proof (hi_slabs _ _ _ _ _ I i s Hs) as H3. pose proof (hi_apart _ _ _ _ _ I) as Hap.
    rewrite (hi_held _ _ _ _ _ I), !fmap_app in Hap. apply apart_app in Hap as (_ & _ & Hap).
    assert (disj (region_span (SlabRegion.region s)) (region_span r)) as Hd.
    { apply Hap; [apply list_elem_of_fmap; exists (SlabRegion.region s); split; [done|by eapply slab_held]|].
      rewrite elem_of_app. left. apply list_elem_of_fmap. exists r. split; [done|by apply Hlr]. }
    unfold disj, within, region_span in *. cbn in *. lia.
Qed.

Lemma winv_step w w' : winv w → wstep w w' → winv w'.
Proof.
  intros W Hw. destruct Hw as [w size align a n h' Hl Hsz E|w size align h' Hl Hsz E|w b live h' Hp E|w b m Hb Hm].
  - pose proof (wp_allocate w size align W Hl Hsz) as H. unfold wp in H. rewrite E in H. by destruct H as (_ & H & _).
  - pose proof (wp_allocate w size align W Hl Hsz) as H. unfold wp in H. rewrite E in H. by destruct H as (_ & H).
  - pose proof (wp_deallocate w b live W Hp) as H. unfold wp in H. rewrite E in H. by destruct H as (H & _).
  - pose proof W as (fr & lk & I & Hok). exists fr, lk. cbn. split; [|done]. apply hinv_write; [done|].
    intros a ci x Ha Hx. apply Hm. pose proof (live_clear w b fr lk a ci W Hb I Ha) as Hd.
    unfold disj, block_span in Hd. cbn in Hd. lia.
Qed.
Lemma winv_new s m : Forall (region_ok 0) (held s) → apart (region_span <$> held s) → winv (mkWorld (Heap.new s m) []).
Proof.
  intros Hok Hap. exists (replicate NUM_CLASSES []), (held s). split; [|constructor]. split; cbn; try done.
  - intros i x. destruct i as [|[|[|[|[|[|[|[|[|[|[|[|i]]]]]]]]]]]]; done.
  - intros a ci Ha. by apply elem_of_nil in Ha.
  - intros ci head fl H1 H2. destruct ci as [|[|[|[|[|[|[|[|ci]]]]]]]]; cbn in *; congruence || by simplify_eq.
  - by exists [].
Qed.
End heap_inv.

(** ** A source of regions *)
Module BumpSource.
(** The regions handed out. *)
Definition t : Type := list Region.t.
Definition page_up (n : Z) : Z := (n + 4095) / 4096 * 4096.
Definition top (s : t) : Z := foldr (λ r a, Z.max (Region.phys r + Region.len r) a) 4096 s.
Fixpoint take_back (r : Region.t) (s : t) : t :=
  match s with [] => [] | q :: s => if decide (q = r) then s else q :: take_back r s end.
Definition give (n : Z) (s : t) : option Region.t * t :=
  let r := Region.mk (page_up (top s)) (page_up n) in
  if Region.phys r + Region.len r <=? 2 ^ 64 then (Some r, r :: s) else (None, s).
#[global] Instance source : RegionSource t := {| request n _ := give n; release := take_back |}.

Lemma page_up_spec n : n <= page_up n ∧ (4096 | page_up n).
Proof.
  unfold page_up. pose proof (Z.div_mod (n + 4095) 4096 ltac:(lia)). pose proof (Z.mod_pos_bound (n + 4095) 4096 ltac:(lia)).
  split; [lia|by eexists].
Qed.
Lemma top_above s : 4096 <= top s ∧ ∀ r, r ∈ s → Region.phys r + Region.len r <= top s.
Proof.
  induction s as [|q s [IH1 IH2]]; [split; [done|by intros r Hr%elem_of_nil]|].
  change (top (q :: s)) with (Z.max (Region.phys q + Region.len q) (top s)). split; [lia|].
  intros r [->|Hr]%elem_of_cons; [lia|]. specialize (IH2 r Hr). lia.
Qed.
#[global] Program Instance laws : SourceLaws t := {| held := id |}.
Next Obligation.
  intros n p s r s'. unfold request; cbn. unfold give. cbn. destruct (Z.leb_spec (page_up (top s) + page_up n) (2 ^ 64)) as [Hle|Hle]; intros [= <- <-]; [|done].
  destruct (top_above s) as [Ht Hs]. destruct (page_up_spec (top s)) as [H1 H2]. destruct (page_up_spec n) as [H3 _].
  split; [done|]. split; [unfold region_ok; cbn [Region.phys Region.len]; split_and!; [lia|done..]|]. rewrite Forall_forall. intros q Hq. specialize (Hs q Hq). right. cbn [fst snd region_span Region.phys Region.len]. unfold id in *. lia.
Qed.
Next Obligation.
  intros r s. unfold release; cbn. induction s as [|q s IH]; intros Hr; [by apply elem_of_nil in Hr|]. cbn. destruct (decide (q = r)) as [->|Hne]; [done|].
  apply elem_of_cons in Hr as [|Hr]; [done|]. rewrite Permutation_swap. by rewrite (IH Hr).
Qed.
End BumpSource.

(** C6: In every state of a heap that allocations, refusals, returns of blocks in use and writes of
    its clients into their own blocks can reach, over any source that hands out whole pages apart
    from each other: the blocks in use are pairwise disjoint, each lies inside one region the source
    gave out, is not at 0, is at least as long as asked for and aligned as asked for up to a page;
    every further allocation runs to its end and changes no byte; and every return of a block in use
    runs to its end and changes no byte outside that block. *)
Theorem heap_exclusive S (RS : RegionSource S) (SL : SourceLaws S) (s : S) m w :
  Forall (region_ok 0) (held s) → apart (region_span <$> held s) → rtc wstep (mkWorld (Heap.new s m) []) w →
  apart (block_span <$> w_live w) ∧
  (∀ b, b ∈ w_live w → 0 < b_addr b ∧ b_size b <= b_len b ∧ (b_align b <= 4096 → (b_align b | b_addr b)) ∧
    ∃ r, r ∈ held (Heap.source (w_heap w)) ∧ within (block_span b) (region_span r)) ∧
  (∀ size align, layout_ok size align → size ≠ 0 →
    ∃ r h', Heap.allocate size align (w_heap w) = Some (r, h') ∧ Heap.mem h' = Heap.mem (w_heap w)) ∧
  (∀ b live, w_live w ≡ₚ b :: live → ∃ h', Heap.deallocate (b_addr b) (b_size b) (b_align b) (w_heap w) = Some (tt, h') ∧
    ∀ x, ~ (b_addr b <= x < b_addr b + b_len b) → Heap.mem h' x = Heap.mem (w_heap w) x).
Proof.
  intros Hok Hap Hw. assert (winv w) as W.
  { pose proof (winv_new s m Hok Hap) as W. clear Hok Hap. induction Hw as [|w1 w2 w3 Hs _ IH]; [done|]. by apply IH, (winv_step w1). }
  split_and!.
  - by apply live_apart.
  - intros b Hb. destruct (live_place w b W Hb) as (H1 & H2 & H3 & r & H4 & H5 & _). split_and!; [done..|]. by exists r.
  - intros size align Hl Hsz. pose proof (wp_allocate w size align W Hl Hsz) as H. unfold wp in H.
    destruct (Heap.allocate size align (w_heap w)) as [[r h']|]; [|done]. destruct H as [Hm _]. by exists r, h'.
  - intros b live Hp. pose proof (wp_deallocate w b live W Hp) as H. unfold wp in H.
    destruct (Heap.deallocate _ _ _ (w_heap w)) as [[[] h']|]; [|done]. destruct H as [_ Hm]. by exists h'.
Qed.

Definition demo : world := mkWorld (Heap.new ([] : BumpSource.t) (λ _, 0)) [].
(** The heap after an operation. *)
Definition after {A} (m : Heap.t BumpSource.t → option (A * Heap.t BumpSource.t)) (w : world) : Heap.t BumpSource.t :=
  from_option snd (w_heap w) (m (w_heap w)).
Lemma demo_alloc w size align a n : layout_ok size align → size ≠ 0 →
  fst <$> Heap.allocate size align (w_heap w) = Some (Some (a, n)) →
  wstep w (mkWorld (after (Heap.allocate size align) w) (mkBlock a size align n :: w_live w)).
Proof.
  intros Hl Hs H. apply ws_alloc; [done..|]. unfold after.
  destruct (Heap.allocate size align (w_heap w)) as [[r h]|]; [|done]. cbn in *. congruence.
Qed.
Lemma demo_free w b live : w_live w ≡ₚ b :: live → is_Some (Heap.deallocate (b_addr b) (b_size b) (b_align b) (w_heap w)) →
  wstep w (mkWorld (after (Heap.deallocate (b_addr b) (b_size b) (b_align b)) w) live).
Proof.
  intros Hp Hs. eapply ws_free; [done|]. unfold after. by destruct Hs as [[[] h] ->].
Qed.
Lemma demo_run : ∃ w, rtc wstep demo w ∧ length (w_live w) = 3%nat.
Proof.
  eexists. split.
  - eapply rtc_l; [apply (demo_alloc demo 24 8 4096 32); [split; [lia|by exists 3]|done|by vm_compute]|].
    eapply rtc_l; [apply (demo_alloc _ 5000 16 (17 * 4096) 5000); [split; [lia|by exists 4]|done|by vm_compute]|].
    eapply rtc_l; [apply (demo_free _ (mkBlock 4096 24 8 32) [mkBlock (17 * 4096) 5000 16 5000]); [apply Permutation_swap|by eexists; vm_compute]|].
    eapply rtc_l; [apply (demo_alloc _ 32 32 4096 32); [split; [lia|by exists 5]|done|by vm_compute]|].
    eapply rtc_l; [apply (demo_alloc _ 2000 8 6144 2048); [split; [lia|by exists 3]|done|by vm_compute]|].
    apply rtc_refl.
  - done.
Qed.
Lemma heap_exclusive_witness : ∃ w, rtc wstep demo w ∧ length (w_live w) = 3%nat ∧ apart (block_span <$> w_live w).
Proof.
  destruct demo_run as (w & Hw & Hl). exists w. split; [done|]. split; [done|].
  by apply (heap_exclusive BumpSource.t BumpSource.source BumpSource.laws [] (λ _, 0) w); [constructor| |].
Defined.

(** An alignment above a page is not kept: the block stands where its region starts. *)
Lemma misaligned_large : ∃ h, Heap.allocate 16 8192 (w_heap demo) = Some (Some (4096, 16), h) ∧ ~ (8192 | 4096).
Proof. eexists. split; [by vm_compute|]. intros [z Hz]. lia. Qed.

(** With eight large blocks in use, the ninth request still takes a region from the source, then
    fails and keeps no record of the region. *)
Definition after_large (n : nat) : option (option (Z * Z) * Heap.t BumpSource.t) :=
  Nat.iter n (λ x, x ≫= λ y, Heap.allocate 4096 8 y.2) (Some (None, w_heap demo)).
Lemma region_lost : ∃ h, after_large 9 = Some (None, h) ∧ length (held (Heap.source h)) = 9%nat ∧ Heap.region_count h = 8%nat.
Proof. eexists. split; [by vm_compute|]. done. Qed.
