(* ===== verification/Kmalloc.v ===== *)
(** * The allocator of the Linux personality

    [src/crates/caprock-region/src/kmalloc.rs] over the heap of [Heap]: requests are keyed by a
    usable size and an alignment, blocks given back are parked in a pool of 64 places and never
    return to the heap, and an atomic request is served from the pool only.  [page.rs] is the
    arithmetic between page numbers and addresses. *)

From S2P Require Import Prelude.
From S2P Require Import PanicMonad.
From S2P Require Import Bytes.
From S2P Require Import Color.
From S2P Require Import Heap.
#[local] Open Scope Z_scope.

(** ** Pages *)
Definition PAGE_SHIFT : Z := 12.
Definition PAGE_SIZE : Z := Z.shiftl 1 PAGE_SHIFT.
Definition MAX_ORDER : Z := 20.

Module PageDesc.
Record t := mk { refcount : Z; flags : Z; order : Z }.
Definition new (flags order : Z) : t := mk 0 flags order.
Definition get_page (p : t) : Z * t :=
  let n := saturating_add 32 (refcount p) 1 in (n, mk n (flags p) (order p)).
Definition put_page (p : t) : bool * t :=
  if refcount p =? 0 then (false, p) else (true, mk (refcount p - 1) (flags p) (order p)).
End PageDesc.

Module MemMap.
Record t := mk { basis : Z; seiten : Z }.
Definition pfn_zu_addr (m : t) (pfn : Z) : option Z :=
  if seiten m <=? pfn then None else off ← checked_mul 64 pfn PAGE_SIZE; checked_add 64 (basis m) off.
Definition addr_zu_pfn (m : t) (addr : Z) : option Z :=
  len ← checked_mul 64 (seiten m) PAGE_SIZE;
  ende ← checked_add 64 (basis m) len;
  if (addr <? basis m) || (ende <=? addr) then None else Some ((addr - basis m) / PAGE_SIZE).
End MemMap.

Definition order_zu_len (order : Z) : option Z :=
  if MAX_ORDER <? order then None else Some (Z.shiftl PAGE_SIZE order mod 2 ^ 64).

(** ** Keys of requests *)
Definition ARCH_KMALLOC_MINALIGN : Z := 16.
Definition KLASSEN : list Z := [16; 32; 64; 128; 256; 512; 1024; 2048].
Definition MAX_KMALLOC : Z := Z.shiftl 1 20.
Definition VORRAT_PLAETZE : nat := 64.
Definition MAX_AUSR : Z := PAGE_SIZE.

Module Gfp.
Definition t : Type := Z.
Definition KERNEL : t := 1.
Definition ATOMIC : t := 2.
Definition vereint (g anderer : t) : t := Z.lor g anderer.
Definition enthaelt (g anderer : t) : bool := Z.land g anderer =? anderer.
Definition ist_atomar (g : t) : bool := negb (Z.land g ATOMIC =? 0).
End Gfp.

Inductive KmallocFehler := ZuGross | AtomarWaechstNicht.

Definition aufrunden (wert vielfaches : Z) : option Z :=
  if (vielfaches =? 0) || negb (is_power_of_two vielfaches) then None
  else (λ summe, Z.ldiff summe (vielfaches - 1)) <$> checked_add 64 wert (vielfaches - 1).

Module Bedarf.
Record t := mk { nutz : Z; ausr : Z }.
#[global] Instance eq_dec : EqDecision t.
Proof. solve_decision. Defined.
End Bedarf.

(** The loop over the classes. *)
Fixpoint klasse (wirksam : Z) (l : list Z) : option Z :=
  match l with [] => None | k :: l => if wirksam <=? k then Some k else klasse wirksam l end.
Definition bedarf_fuer (len ausr : Z) : option Bedarf.t :=
  if (len =? 0) || (MAX_KMALLOC <? len) then None
  else if negb (is_power_of_two ausr) || (ausr <? ARCH_KMALLOC_MINALIGN) || (MAX_AUSR <? ausr) then None
  else
    match klasse (if ausr <? len then len else ausr) KLASSEN with
    | Some k => Some (Bedarf.mk k ausr)
    | None => (λ nutz, Bedarf.mk nutz ausr) <$> aufrunden len ARCH_KMALLOC_MINALIGN
    end.
Definition ksize (len : Z) : Z :=
  match bedarf_fuer len ARCH_KMALLOC_MINALIGN with Some bedarf => Bedarf.nutz bedarf | None => 0 end.

(** ** The pool *)
Module Eintrag.
Record t := mk { zeiger : Z; nutz : Z; ausr : Z }.
End Eintrag.

Module Vorrat.
Record t := mk { plaetze : list (option Eintrag.t); wiederverwendet : Z; verworfen : Z }.
Definition leer : t := mk (replicate VORRAT_PLAETZE None) 0 0.
Definition with_plaetze (l : list (option Eintrag.t)) (v : t) : t := mk l (wiederverwendet v) (verworfen v).
Definition wieder (v : t) : t := mk (plaetze v) (saturating_add 64 (wiederverwendet v) 1) (verworfen v).
Definition verwirf (v : t) : t := mk (plaetze v) (wiederverwendet v) (saturating_add 64 (verworfen v) 1).
Definition belegt (v : t) : nat := length (omap id (plaetze v)).

(** First pass: the first block of exactly the size. *)
Fixpoint exakt (bedarf : Bedarf.t) (l : list (option Eintrag.t)) (i : nat) : option (nat * Z) :=
  match l with
  | [] => None
  | Some e :: l =>
    if (Eintrag.nutz e =? Bedarf.nutz bedarf) && (Bedarf.ausr bedarf <=? Eintrag.ausr e) then Some (i, Eintrag.zeiger e)
    else exakt bedarf l (S i)
  | None :: l => exakt bedarf l (S i)
  end.
(** Second pass: the smallest block that is enough. *)
Fixpoint bester (bedarf : Bedarf.t) (l : list (option Eintrag.t)) (j : nat) (best : option nat) (best_nutz : Z) : option nat :=
  match l with
  | [] => best
  | Some e :: l =>
    if (Bedarf.nutz bedarf <=? Eintrag.nutz e) && (Bedarf.ausr bedarf <=? Eintrag.ausr e) && (Eintrag.nutz e <? best_nutz)
    then bester bedarf l (S j) (Some j) (Eintrag.nutz e)
    else bester bedarf l (S j) best best_nutz
  | None :: l => bester bedarf l (S j) best best_nutz
  end.
Definition entnehmen (bedarf : Bedarf.t) : M t (option Z) :=
  l ← gets plaetze;
  match exakt bedarf l 0 with
  | Some (i, zeiger) => modify (with_plaetze (<[i := None]> l)) ≫= λ _, mret (Some zeiger)
  | None =>
    match bester bedarf l 0 None (max_value 64) with
    | Some k =>
      place ← expect (l !! k);
      e ← expect place;
      modify (with_plaetze (<[k := None]> l)) ≫= λ _, mret (Some (Eintrag.zeiger e))
    | None => mret None
    end
  end.
Definition parken (eintrag : Eintrag.t) : M t bool :=
  l ← gets plaetze;
  match free_place l with
  | Some i => modify (with_plaetze (<[i := Some eintrag]> l)) ≫= λ _, mret true
  | None => mret false
  end.
End Vorrat.

(** [Layout::from_size_align]. *)
Definition from_size_align (size align : Z) : bool := is_power_of_two align && (size <=? 2 ^ 63 - align).

(** ** The operations *)
Module Kmalloc.
Section kmalloc.
Context {S : Type} `{!RegionSource S}.
Record t := mk { heap : Heap.t S; vorrat : Vorrat.t }.
Definition with_heap (v : Heap.t S) (k : t) : t := mk v (vorrat k).
Definition with_vorrat (v : Vorrat.t) (k : t) : t := mk (heap k) v.
Definition new (quelle : S) (m : memory) : t := mk (Heap.new quelle m) Vorrat.leer.

Definition bedienen (bedarf : Bedarf.t) (gfp : Gfp.t) : M t (option Z) :=
  treffer ← zoom vorrat with_vorrat (Vorrat.entnehmen bedarf);
  match treffer with
  | Some zeiger => modify (λ k, with_vorrat (Vorrat.wieder (vorrat k)) k) ≫= λ _, mret (Some zeiger)
  | None =>
    if Gfp.ist_atomar gfp then mret None
    else if from_size_align (Bedarf.nutz bedarf) (Bedarf.ausr bedarf) then
      block ← zoom heap with_heap (Heap.allocate (Bedarf.nutz bedarf) (Bedarf.ausr bedarf));
      mret (fst <$> block)
    else mret None
  end.
Definition kmalloc_ergebnis (len : Z) (gfp : Gfp.t) : M t (result Z KmallocFehler) :=
  match bedarf_fuer len ARCH_KMALLOC_MINALIGN with
  | None => mret (Err ZuGross)
  | Some bedarf =>
    r ← bedienen bedarf gfp;
    mret match r with
         | Some zeiger => Ok zeiger
         | None => Err (if Gfp.ist_atomar gfp then AtomarWaechstNicht else ZuGross)
         end
  end.
Definition kmalloc (len : Z) (gfp : Gfp.t) : M t (option Z) :=
  r ← kmalloc_ergebnis len gfp; mret match r with Ok zeiger => Some zeiger | Err _ => None end.
Definition kmalloc_ausgerichtet (len ausr : Z) (gfp : Gfp.t) : M t (option Z) :=
  match bedarf_fuer len ausr with None => mret None | Some bedarf => bedienen bedarf gfp end.

Definition kfree_ausgerichtet (zeiger len ausr : Z) : M t unit :=
  if zeiger =? 0 then mret tt
  else
    match bedarf_fuer len ausr with
    | None => modify (λ k, with_vorrat (Vorrat.verwirf (vorrat k)) k)
    | Some bedarf =>
      geparkt ← zoom vorrat with_vorrat (Vorrat.parken (Eintrag.mk zeiger (Bedarf.nutz bedarf) (Bedarf.ausr bedarf)));
      if geparkt : bool then mret tt else modify (λ k, with_vorrat (Vorrat.verwirf (vorrat k)) k)
    end.
Definition kfree (zeiger len : Z) : M t unit := kfree_ausgerichtet zeiger len ARCH_KMALLOC_MINALIGN.

Definition krealloc (alt alt_len neu_len : Z) (gfp : Gfp.t) : M t (option Z) :=
  if alt =? 0 then kmalloc neu_len gfp
  else if neu_len =? 0 then kfree alt alt_len ≫= λ _, mret None
  else
    match bedarf_fuer alt_len ARCH_KMALLOC_MINALIGN, bedarf_fuer neu_len ARCH_KMALLOC_MINALIGN with
    | _, None => mret None
    | a, Some n =>
      if decide (a = Some n) then mret (Some alt)
      else
        neu ← kmalloc neu_len gfp;
        match neu with None => mret None | Some neu => kfree alt alt_len ≫= λ _, mret (Some neu) end
    end.
End kmalloc.
Arguments t : clear implicits.
End Kmalloc.

(** ** Page numbers and addresses *)

(** Page numbers of a window that fits in 64 bits and addresses in it are in one-to-one
    correspondence by pages. *)
Lemma memmap_pages (m : MemMap.t) pfn a : 0 <= MemMap.basis m → 0 <= MemMap.seiten m →
  MemMap.basis m + MemMap.seiten m * 4096 < 2 ^ 64 → 0 <= pfn → 0 <= a →
  (∃ base, MemMap.pfn_zu_addr m pfn = Some base ∧ base <= a < base + 4096) ↔ MemMap.addr_zu_pfn m a = Some pfn.
Proof.
  intros Hb Hs Hfit Hp Ha. unfold MemMap.pfn_zu_addr, MemMap.addr_zu_pfn, checked_mul, checked_add.
  change PAGE_SIZE with 4096. rewrite (proj2 (Z.ltb_lt (MemMap.seiten m * 4096) _)) by lia. cbn [mbind option_bind].
  rewrite (proj2 (Z.ltb_lt (MemMap.basis m + _) _)) by lia. cbn [mbind option_bind].
  pose proof (Z.div_mod (a - MemMap.basis m) 4096 ltac:(lia)). pose proof (Z.mod_pos_bound (a - MemMap.basis m) 4096 ltac:(lia)).
  destruct (Z.leb_spec (MemMap.seiten m) pfn).
  - split; [by intros (b & ? & _)|]. destruct ((a <? _) || _) eqn:E; [done|]. intros [= Hq]. lia.
  - rewrite (proj2 (Z.ltb_lt (pfn * 4096) _)) by lia. cbn [mbind option_bind]. rewrite (proj2 (Z.ltb_lt (MemMap.basis m + _) _)) by lia.
    destruct ((a <? _) || _) eqn:E.
    + split; [intros (b & [= <-] & ?); lia|done].
    + split.
      * intros (b & [= <-] & ?). f_equal. lia.
      * intros [= Hq]. eexists. split; [done|lia].
Qed.

(** ** Keys *)
Definition ausr_ok (ausr : Z) : Prop := ∃ k, 4 <= k <= 12 ∧ ausr = 2 ^ k.
Lemma ausr_divides a b x : ausr_ok a → ausr_ok b → a <= b → (b | x) → (a | x).
Proof.
  intros (i & Hi & ->) (j & Hj & ->) Hle Hx. etransitivity; [|exact Hx].
  assert (i <= j) as Hij by (apply (Z.pow_le_mono_r_iff 2); lia). exists (2 ^ (j - i)). rewrite <-Z.pow_add_r by lia. f_equal. lia.
Qed.
Lemma klasse_Some w l k : klasse w l = Some k → k ∈ l ∧ w <= k.
Proof.
  induction l as [|x l IH]; cbn; [done|]. destruct (Z.leb_spec w x).
  - intros [= <-]. split; [by left|done].
  - intros Hk. destruct (IH Hk). split; [by right|done].
Qed.
Lemma aufrunden_16 len n : 0 <= len → aufrunden len ARCH_KMALLOC_MINALIGN = Some n → len <= n < len + 16.
Proof.
  intros Hl. unfold aufrunden. change (_ || _) with false. cbn iota. unfold checked_add.
  destruct (_ <? _); [|done]. cbn [fmap option_fmap option_map]. intros [= <-]. change (ARCH_KMALLOC_MINALIGN - 1) with (Z.ones 4).
  rewrite Z.ldiff_ones_r, Z.shiftl_mul_pow2, Z.shiftr_div_pow2 by lia. change (Z.ones 4) with 15. change (2 ^ 4) with 16.
  pose proof (Z.div_mod (len + 15) 16 ltac:(lia)). pose proof (Z.mod_pos_bound (len + 15) 16 ltac:(lia)). lia.
Qed.
(** What a key promises. *)
Lemma bedarf_bounds len ausr b : 0 <= len → bedarf_fuer len ausr = Some b →
  Bedarf.ausr b = ausr ∧ ausr_ok ausr ∧ 0 < len <= Bedarf.nutz b ∧ Bedarf.nutz b < 2 ^ 21.
Proof.
  intros Hl. unfold bedarf_fuer. destruct (Z.eqb_spec len 0); [done|]. destruct (Z.ltb_spec MAX_KMALLOC len) as [|Hm]; [done|]. cbn [orb].
  change MAX_KMALLOC with (2 ^ 20) in Hm. destruct (is_power_of_two ausr) eqn:Ep; [|done].
  destruct (Z.ltb_spec ausr ARCH_KMALLOC_MINALIGN) as [|H1]; [done|]. destruct (Z.ltb_spec MAX_AUSR ausr) as [|H2]; [done|]. cbn [negb orb].
  assert (ausr_ok ausr) as Ha.
  { apply is_power_of_two_exp in Ep. exists (Z.log2 ausr). split; [|done]. change ARCH_KMALLOC_MINALIGN with (2 ^ 4) in H1. change MAX_AUSR with (2 ^ 12) in H2.
    pose proof (Z.log2_le_mono _ _ H1) as H3. pose proof (Z.log2_le_mono _ _ H2) as H4. rewrite Z.log2_pow2 in H3, H4 by lia. lia. }
  destruct (klasse _ KLASSEN) as [k|] eqn:Ek.
  - intros [= <-]. apply klasse_Some in Ek as [Hin Hle]. unfold KLASSEN in Hin. rewrite !elem_of_cons, elem_of_nil in Hin. cbn [Bedarf.nutz Bedarf.ausr].
    split; [done|]. split; [done|]. split; [destruct (ausr <? len) eqn:?; lia|]. destruct_or!; done || lia.
  - destruct (aufrunden _ _) as [n'|] eqn:En; [|done]. intros [= <-]. apply aufrunden_16 in En; [|done]. cbn [Bedarf.nutz Bedarf.ausr].
    split_and!; [done..|lia|lia|lia].
Qed.
Lemma ausr_power ausr : ausr_ok ausr → is_power_of_two ausr = true ∧ 16 <= ausr <= 4096.
Proof.
  intros (k & Hk & ->). assert (k = 4 ∨ k = 5 ∨ k = 6 ∨ k = 7 ∨ k = 8 ∨ k = 9 ∨ k = 10 ∨ k = 11 ∨ k = 12) as H by lia.
  destruct_or! H; subst; done.
Qed.

(** ** The pool *)
Lemma exakt_Some b l i k z : Vorrat.exakt b l i = Some (k, z) → ∃ e, (i <= k)%nat ∧ l !! (k - i)%nat = Some (Some e) ∧
  Bedarf.nutz b = Eintrag.nutz e ∧ Bedarf.ausr b <= Eintrag.ausr e ∧ z = Eintrag.zeiger e.
Proof.
  revert i. induction l as [|x l IH]; intros i; cbn [Vorrat.exakt]; [done|].
  assert (Vorrat.exakt b l (S i) = Some (k, z) → ∃ e, (i <= k)%nat ∧ (x :: l) !! (k - i)%nat = Some (Some e) ∧
    Bedarf.nutz b = Eintrag.nutz e ∧ Bedarf.ausr b <= Eintrag.ausr e ∧ z = Eintrag.zeiger e) as Hrest.
  { intros (e & Hle & He & H)%IH. exists e. split; [lia|]. split; [|done]. by replace (k - i)%nat with (S (k - S i)) by lia. }
  destruct x as [e|]; [|done]. destruct ((Eintrag.nutz e =? _) && _) eqn:E; [|done]. intros [= <- <-]. apply andb_true_iff in E as [E1 E2].
  exists e. rewrite Nat.sub_diag. split_and!; [lia|done|lia|lia|done].
Qed.
Lemma bester_Some b l j best bn k : Vorrat.bester b l j best bn = Some k → best = Some k ∨
  ∃ e, (j <= k)%nat ∧ l !! (k - j)%nat = Some (Some e) ∧ Bedarf.nutz b <= Eintrag.nutz e ∧ Bedarf.ausr b <= Eintrag.ausr e.
Proof.
  revert j best bn. induction l as [|x l IH]; intros j best bn; cbn [Vorrat.bester]; [by left|].
  assert (∀ best bn, Vorrat.bester b l (S j) best bn = Some k → best = Some k ∨ ∃ e, (j <= k)%nat ∧
    (x :: l) !! (k - j)%nat = Some (Some e) ∧ Bedarf.nutz b <= Eintrag.nutz e ∧ Bedarf.ausr b <= Eintrag.ausr e) as Hrest.
  { intros best' bn' [|(e & Hle & He & H)]%IH; [by left|]. right. exists e. split; [lia|]. split; [|done]. by replace (k - j)%nat with (S (k - S j)) by lia. }
  destruct x as [e|]; [|apply Hrest]. destruct (_ && _) eqn:E; [|apply Hrest]. intros [[= <-]|]%Hrest; [|by right]. right.
  rewrite !andb_true_iff in E. destruct E as [[E1 E2] _]. exists e. rewrite Nat.sub_diag. split_and!; [lia|done|lia|lia].
Qed.

Lemma wp_entnehmen b v : wp (Vorrat.entnehmen b) v (λ r v',
  match r with
  | Some z => ∃ e, z = Eintrag.zeiger e ∧ Bedarf.nutz b <= Eintrag.nutz e ∧ Bedarf.ausr b <= Eintrag.ausr e ∧
      omap id (Vorrat.plaetze v) ≡ₚ e :: omap id (Vorrat.plaetze v')
  | None => v' = v
  end).
Proof.
  unfold Vorrat.entnehmen. wp_step. wp_step. destruct (Vorrat.exakt b (Vorrat.plaetze v) 0) as [[i z]|] eqn:Ex.
  - apply exakt_Some in Ex as (e & _ & He & Hn & Ha & ->). rewrite Nat.sub_0_r in He. repeat wp_step. exists e.
    split_and!; [done|lia|done|by apply omap_take].
  - destruct (Vorrat.bester b (Vorrat.plaetze v) 0 None (max_value 64)) as [k|] eqn:Eb; [|by apply wp_ret].
    apply bester_Some in Eb as [|(e & _ & He & Hn & Ha)]; [done|]. rewrite Nat.sub_0_r in He. wp_step. eapply wp_expect; [done|].
    wp_step. eapply wp_expect; [done|]. repeat wp_step. exists e. split_and!; [done..|by apply omap_take].
Qed.
Lemma wp_parken e v : wp (Vorrat.parken e) v (λ r v',
  if r : bool then omap id (Vorrat.plaetze v') ≡ₚ e :: omap id (Vorrat.plaetze v) else v' = v).
Proof.
  unfold Vorrat.parken. wp_step. wp_step. destruct (free_place (Vorrat.plaetze v)) as [i|] eqn:Ef; [|by apply wp_ret].
  repeat wp_step. by apply omap_fill, free_place_Some.
Qed.

(** ** What the allocator keeps *)
Section kmalloc_inv.
Context {S : Type} `{!RegionSource S, !SourceLaws S}.
Implicit Types k : Kmalloc.t S.

(** A block handed out or parked lies at the start of a heap block of its own. *)
Record covers (e : Eintrag.t) (b : Block) : Prop := {
  cv_at : Eintrag.zeiger e = b_addr b;
  cv_in : 0 < Eintrag.nutz e <= b_len b;
  cv_ausr : ausr_ok (Eintrag.ausr e);
  cv_div : (Eintrag.ausr e | Eintrag.zeiger e) }.
Definition parked k : list Eintrag.t := omap id (Vorrat.plaetze (Kmalloc.vorrat k)).
Definition pinv k (es : list Eintrag.t) : Prop :=
  ∃ l lost, winv (mkWorld (Kmalloc.heap k) (l ++ lost)) ∧ Forall2 covers (es ++ parked k) l.

Lemma winv_perm (h : Heap.t S) l l' : winv (mkWorld h l) → l ≡ₚ l' → winv (mkWorld h l').
Proof.
  intros (fr & lk & I & Hb) Hp. cbn [w_heap w_live] in *. exists fr, lk. cbn [w_heap w_live]. split.
  - by apply (hinv_perm _ _ _ _ _ _ _ I); rewrite Hp.
  - by rewrite <-Hp.
Qed.
Lemma pinv_perm k k' es es' : pinv k es → Kmalloc.heap k' = Kmalloc.heap k → es ++ parked k ≡ₚ es' ++ parked k' → pinv k' es'.
Proof.
  intros (l & lost & W & Hf) Hh Hp. destruct (Permutation_Forall2 Hp Hf) as (l' & Hl & Hf'). exists l', lost. split; [|done].
  rewrite Hh. eapply winv_perm; [done|]. by rewrite Hl.
Qed.
(** A block that can no longer be handed out. *)
Lemma pinv_drop k k' e es : pinv k (e :: es) → Kmalloc.heap k' = Kmalloc.heap k → parked k' = parked k → pinv k' es.
Proof.
  intros (l & lost & W & Hf) Hh Hp. cbn in Hf. apply Forall2_cons_inv_l in Hf as (b & l' & _ & Hf & ->).
  exists l', (b :: lost). rewrite Hp, Hh. split; [|done]. eapply winv_perm; [done|]. by rewrite <-Permutation_middle.
Qed.
(** A block is handed out for less than it has. *)
Lemma pinv_shrink k e e' es : pinv k (e :: es) → Eintrag.zeiger e' = Eintrag.zeiger e → 0 < Eintrag.nutz e' <= Eintrag.nutz e →
  ausr_ok (Eintrag.ausr e') → Eintrag.ausr e' <= Eintrag.ausr e → pinv k (e' :: es).
Proof.
  intros (l & lost & W & Hf) Hz Hn Ha Hle. cbn in Hf. apply Forall2_cons_inv_l in Hf as (b & l' & [C1 C2 C3 C4] & Hf & ->).
  exists (b :: l'), lost. split; [done|]. cbn. constructor; [|done]. split; [congruence|lia|done|].
  rewrite Hz. by apply (ausr_divides _ (Eintrag.ausr e)).
Qed.
(** The heap moved on, its blocks stayed. *)
Lemma pinv_heap k h' es : pinv k es → (∀ live, winv (mkWorld (Kmalloc.heap k) live) → winv (mkWorld h' live)) →
  pinv (Kmalloc.with_heap h' k) es.
Proof. intros (l & lost & W & Hf) Hw. exists l, lost. split; [by apply Hw|done]. Qed.

Lemma layout_fits nutz ausr : 0 < nutz < 2 ^ 21 → ausr_ok ausr → from_size_align nutz ausr = true ∧ layout_ok nutz ausr.
Proof.
  intros Hn Ha. destruct (ausr_power _ Ha) as [Hp Hb]. unfold from_size_align. rewrite Hp. cbn [andb].
  split; [apply Z.leb_le; lia|]. split; [lia|]. destruct Ha as (k & Hk & ->). exists k. split; [lia|done].
Qed.

Lemma wp_bedienen k es b gfp : pinv k es → 0 < Bedarf.nutz b < 2 ^ 21 → ausr_ok (Bedarf.ausr b) →
  wp (Kmalloc.bedienen b gfp) k (λ r k', Heap.mem (Kmalloc.heap k') = Heap.mem (Kmalloc.heap k) ∧
    (Gfp.ist_atomar gfp = true → Kmalloc.heap k' = Kmalloc.heap k) ∧
    match r with
    | Some z => pinv k' (Eintrag.mk z (Bedarf.nutz b) (Bedarf.ausr b) :: es) ∧ 0 < z
    | None => pinv k' es
    end).
Proof.
  intros P Hn Ha. unfold Kmalloc.bedienen. wp_step. wp_step. eapply wp_mono; [apply wp_entnehmen|]. cbn beta. intros [z|] v' H.
  - destruct H as (e & -> & Hne & Hae & Hp). repeat wp_step. split; [done|]. split; [done|].
    assert (pinv (Kmalloc.with_vorrat (Vorrat.wieder v') (Kmalloc.with_vorrat v' k)) (e :: es)) as P'.
    { apply (pinv_perm k _ es); [done..|]. unfold parked at 1. rewrite Hp. cbn. by rewrite <-Permutation_middle. }
    split; [by apply (pinv_shrink _ e); [done|done|cbn; lia|..]|].
    destruct P' as (l & lost & W & Hf). cbn in Hf. apply Forall2_cons_inv_l in Hf as (bl & l' & [-> _ _ _] & _ & ->).
    destruct (live_place _ bl W) as (? & _); [by left|done].
  - subst v'. replace (Kmalloc.with_vorrat (Kmalloc.vorrat k) k) with k by by destruct k.
    destruct (Gfp.ist_atomar gfp) eqn:Eg; [by apply wp_ret|]. destruct (layout_fits _ _ Hn Ha) as [-> Hl]. wp_step. wp_step.
    destruct P as (l & lost & W & Hf). eapply wp_mono; [apply (wp_allocate _ _ _ W Hl); lia|]. cbn [w_heap w_live]. intros [[a n]|] h' [Hm H]; apply wp_ret.
    + destruct H as (W' & Hpos & Hle). split; [done|]. split; [done|]. cbn [fmap option_fmap option_map fst]. split; [|done].
      exists (mkBlock a (Bedarf.nutz b) (Bedarf.ausr b) n :: l), lost. split; [done|]. cbn [app]. constructor; [|done].
      destruct (live_place _ (mkBlock a (Bedarf.nutz b) (Bedarf.ausr b) n) W') as (_ & _ & Hd & _); [by left|]. cbn in Hd.
      destruct (ausr_power _ Ha). split; cbn; [done|lia|done|apply Hd; lia].
    + split; [done|]. split; [done|]. by exists l, lost.
Qed.

Lemma wp_kmalloc_ausgerichtet k es len ausr gfp : pinv k es → 0 <= len →
  wp (Kmalloc.kmalloc_ausgerichtet len ausr gfp) k (λ r k', Heap.mem (Kmalloc.heap k') = Heap.mem (Kmalloc.heap k) ∧
    (Gfp.ist_atomar gfp = true → Kmalloc.heap k' = Kmalloc.heap k) ∧
    match r with
    | Some z => 0 < z ∧ ∃ b, bedarf_fuer len ausr = Some b ∧ pinv k' (Eintrag.mk z (Bedarf.nutz b) (Bedarf.ausr b) :: es)
    | None => pinv k' es
    end).
Proof.
  intros P Hl. unfold Kmalloc.kmalloc_ausgerichtet. destruct (bedarf_fuer len ausr) as [b|] eqn:Eb; [|by apply wp_ret].
  destruct (bedarf_bounds _ _ _ Hl Eb) as (Ea & Ha & Hn & Hn2). eapply wp_mono; [eapply wp_bedienen; [done|lia|by rewrite Ea]|]. cbn beta.
  intros [z|] k' (H1 & H2 & H3); (split; [done|split; [done|]]); [|done]. destruct H3. split; [done|]. by exists b.
Qed.
(** [kmalloc] is [kmalloc_ausgerichtet] at the least alignment. *)
Lemma kmalloc_plain len gfp k : Kmalloc.kmalloc len gfp k = Kmalloc.kmalloc_ausgerichtet len ARCH_KMALLOC_MINALIGN gfp k.
Proof.
  unfold Kmalloc.kmalloc, Kmalloc.kmalloc_ergebnis, Kmalloc.kmalloc_ausgerichtet, mbind, M_bind.
  destruct (bedarf_fuer len ARCH_KMALLOC_MINALIGN) as [b|]; [|done]. by destruct (Kmalloc.bedienen b gfp k) as [[[z|] k']|].
Qed.

Lemma wp_kmalloc_plain len gfp k Q :
  wp (Kmalloc.kmalloc_ausgerichtet len ARCH_KMALLOC_MINALIGN gfp) k Q → wp (Kmalloc.kmalloc len gfp) k Q.
Proof. unfold wp. by rewrite kmalloc_plain. Qed.

Lemma wp_kfree_ausgerichtet k es z len ausr b : pinv k (Eintrag.mk z (Bedarf.nutz b) (Bedarf.ausr b) :: es) →
  bedarf_fuer len ausr = Some b → z ≠ 0 →
  wp (Kmalloc.kfree_ausgerichtet z len ausr) k (λ _ k', pinv k' es ∧ Kmalloc.heap k' = Kmalloc.heap k).
Proof.
  intros P Eb Hz. unfold Kmalloc.kfree_ausgerichtet. rewrite (proj2 (Z.eqb_neq z 0)) by done. rewrite Eb. wp_step. wp_step.
  eapply wp_mono; [apply wp_parken|]. cbn beta. intros [|] v' H.
  - apply wp_ret. split; [|done]. eapply pinv_perm; [done..|]. cbn. unfold parked in *. cbn. rewrite H. by rewrite <-Permutation_middle.
  - subst v'. wp_step. split; [|done]. by eapply pinv_drop.
Qed.

(** ** Clients *)
Record Grant := mkGrant { g_ptr : Z; g_len : Z; g_ausr : Z }.
(** The bytes a client may use. *)
Definition g_nutz (g : Grant) : Z := from_option Bedarf.nutz 0 (bedarf_fuer (g_len g) (g_ausr g)).
Definition grant_span (g : Grant) : span := (g_ptr g, g_nutz g).
Definition eintrag_of (g : Grant) : Eintrag.t := Eintrag.mk (g_ptr g) (g_nutz g) (g_ausr g).

Record kworld := mkKworld { k_alloc : Kmalloc.t S; k_grants : list Grant }.
(** What the client of a [krealloc] holds after the answer [r]. *)
Definition regrant (g : Grant) (neu_len : Z) (rest : list Grant) (r : option Z) : list Grant :=
  match r with
  | Some z => mkGrant z neu_len ARCH_KMALLOC_MINALIGN :: rest
  | None => if neu_len =? 0 then rest else g :: rest
  end.
Inductive kstep : kworld → kworld → Prop :=
| ks_alloc w len ausr gfp r k' : 0 <= len → Kmalloc.kmalloc_ausgerichtet len ausr gfp (k_alloc w) = Some (r, k') →
    kstep w (mkKworld k' (match r with Some z => mkGrant z len ausr :: k_grants w | None => k_grants w end))
| ks_free w g rest k' : k_grants w ≡ₚ g :: rest → Kmalloc.kfree_ausgerichtet (g_ptr g) (g_len g) (g_ausr g) (k_alloc w) = Some (tt, k') →
    kstep w (mkKworld k' rest)
| ks_realloc w g rest neu_len gfp r k' : 0 <= neu_len → k_grants w ≡ₚ g :: rest → g_ausr g = ARCH_KMALLOC_MINALIGN →
    Kmalloc.krealloc (g_ptr g) (g_len g) neu_len gfp (k_alloc w) = Some (r, k') →
    kstep w (mkKworld k' (regrant g neu_len rest r))
| ks_write w g m : g ∈ k_grants w → (∀ x, ~ (g_ptr g <= x < g_ptr g + g_nutz g) → m x = Heap.mem (Kmalloc.heap (k_alloc w)) x) →
    kstep w (mkKworld (Kmalloc.with_heap (Heap.with_mem m (Kmalloc.heap (k_alloc w))) (k_alloc w)) (k_grants w)).

Definition grant_ok (g : Grant) : Prop := 0 <= g_len g ∧ is_Some (bedarf_fuer (g_len g) (g_ausr g)) ∧ 0 < g_ptr g.
Definition kinv (w : kworld) : Prop := pinv (k_alloc w) (eintrag_of <$> k_grants w) ∧ Forall grant_ok (k_grants w).

Lemma eintrag_key z len ausr b : 0 <= len → bedarf_fuer len ausr = Some b →
  eintrag_of (mkGrant z len ausr) = Eintrag.mk z (Bedarf.nutz b) (Bedarf.ausr b) ∧ (0 < z → grant_ok (mkGrant z len ausr)).
Proof.
  intros Hl Eb. destruct (bedarf_bounds _ _ _ Hl Eb) as (Ea & _). unfold eintrag_of, g_nutz, grant_ok. cbn. rewrite Eb. cbn.
  split; [by rewrite Ea|]. intros Hz. split_and!; [done|by eexists|done].
Qed.
Lemma kinv_perm w k l : kinv w → k_alloc w = k → k_grants w ≡ₚ l → kinv (mkKworld k l).
Proof.
  intros [P Hg] <- Hp. unfold kinv. cbn [k_alloc k_grants]. rewrite Hp in Hg. split; [|done].
  eapply pinv_perm; [done..|]. by rewrite Hp.
Qed.

Lemma kinv_alloc w len ausr gfp : kinv w → 0 <= len → wp (Kmalloc.kmalloc_ausgerichtet len ausr gfp) (k_alloc w) (λ r k',
  Heap.mem (Kmalloc.heap k') = Heap.mem (Kmalloc.heap (k_alloc w)) ∧
  (Gfp.ist_atomar gfp = true → Kmalloc.heap k' = Kmalloc.heap (k_alloc w)) ∧
  kinv (mkKworld k' (match r with Some z => mkGrant z len ausr :: k_grants w | None => k_grants w end))).
Proof.
  intros [P Hg] Hl. eapply wp_mono; [by apply wp_kmalloc_ausgerichtet|]. cbn beta. intros [z|] k' (H1 & H2 & H3); (split; [done|split; [done|]]).
  - destruct H3 as (Hz & b & Eb & P'). destruct (eintrag_key z len ausr b Hl Eb) as [E Hok]. split; cbn [k_alloc k_grants fmap list_fmap].
    + by rewrite E.
    + constructor; [by apply Hok|done].
  - by split.
Qed.
Lemma kinv_free w g rest : kinv w → k_grants w ≡ₚ g :: rest →
  wp (Kmalloc.kfree_ausgerichtet (g_ptr g) (g_len g) (g_ausr g)) (k_alloc w) (λ _ k',
    kinv (mkKworld k' rest) ∧ Kmalloc.heap k' = Kmalloc.heap (k_alloc w)).
Proof.
  intros I Hp. apply (kinv_perm w (k_alloc w) (g :: rest)) in I as [P Hg]; [|done..]. cbn [k_alloc k_grants fmap list_fmap] in P, Hg.
  apply Forall_cons in Hg as [(Hl & [b Eb] & Hz) Hg]. destruct g as [z len ausr]. cbn in Hl, Eb, Hz.
  destruct (eintrag_key z len ausr b Hl Eb) as [E _]. rewrite E in P.
  eapply wp_mono; [apply (wp_kfree_ausgerichtet _ _ z len ausr b P Eb); lia|]. cbn beta. intros _ k' [P' Hh]. by split; [split|].
Qed.
Lemma kinv_realloc w g rest neu_len gfp : kinv w → 0 <= neu_len → k_grants w ≡ₚ g :: rest → g_ausr g = ARCH_KMALLOC_MINALIGN →
  wp (Kmalloc.krealloc (g_ptr g) (g_len g) neu_len gfp) (k_alloc w) (λ r k', kinv (mkKworld k' (regrant g neu_len rest r)) ∧
    Heap.mem (Kmalloc.heap k') = Heap.mem (Kmalloc.heap (k_alloc w))).
Proof.
  intros I Hn Hp Ha. pose proof (kinv_perm w (k_alloc w) (g :: rest) I eq_refl Hp) as I'. destruct g as [z len ausr].
  cbn [g_ptr g_len g_ausr] in *. subst ausr. pose proof I' as [P Hg]. cbn [k_grants] in Hg. apply Forall_cons in Hg as [(Hl & [b Eb] & Hz) Hg]. cbn in Hl, Eb, Hz.
  unfold Kmalloc.krealloc. rewrite (proj2 (Z.eqb_neq z 0)) by lia. destruct (Z.eqb_spec neu_len 0) as [->|Hn0].
  - wp_step. eapply wp_mono; [apply (kinv_free w (mkGrant z len ARCH_KMALLOC_MINALIGN) rest I Hp)|]. cbn beta. intros _ k' [I2 Hh].
    apply wp_ret. split; [done|by rewrite Hh].
  - rewrite Eb. unfold regrant. rewrite (proj2 (Z.eqb_neq neu_len 0)) by done.
    destruct (bedarf_fuer neu_len ARCH_KMALLOC_MINALIGN) as [n|] eqn:En; [|by apply wp_ret]. destruct (decide (Some b = Some n)) as [[= ->]|Hne].
    + apply wp_ret. split; [|done]. split; cbn [k_alloc k_grants fmap list_fmap].
      * destruct (eintrag_key z neu_len _ _ Hn En) as [-> _]. destruct (eintrag_key z len _ _ Hl Eb) as [E _]. destruct P as (l & lost & W & Hf).
        cbn [k_alloc k_grants fmap list_fmap] in Hf. rewrite E in Hf. by exists l, lost.
      * constructor; [|done]. by apply (eintrag_key z neu_len _ _ Hn En).
    + wp_step. apply wp_kmalloc_plain. eapply wp_mono; [by apply (kinv_alloc _ neu_len ARCH_KMALLOC_MINALIGN gfp I')|].
      cbn beta. cbn [k_alloc k_grants]. intros [neu|] k' (Hm & _ & I2); [|by apply wp_ret]. wp_step.
      eapply wp_mono; [apply (kinv_free (mkKworld k' _) (mkGrant z len ARCH_KMALLOC_MINALIGN) (mkGrant neu neu_len ARCH_KMALLOC_MINALIGN :: rest) I2); apply Permutation_swap|].
      cbn beta. intros _ k2 [I3 Hh]. apply wp_ret. split; [done|]. rewrite Hh. done.
Qed.

(** Where a grant lies. *)
Lemma grants_place w : kinv w → ∃ l lost, winv (mkWorld (Kmalloc.heap (k_alloc w)) (l ++ lost)) ∧
  Forall2 (λ g b, g_ptr g = b_addr b ∧ 0 < g_nutz g <= b_len b ∧ (g_ausr g | g_ptr g)) (k_grants w) (take (length (k_grants w)) l).
Proof.
  intros [(l & lost & W & Hf) _]. exists l, lost. split; [done|]. apply Forall2_app_inv_l in Hf as (l1 & l2 & Hf & _ & ->).
  rewrite Forall2_fmap_l in Hf. pose proof (Forall2_length _ _ _ Hf) as Hlen. rewrite take_app_length' by done. eapply Forall2_impl; [done|].
  intros g b [H1 H2 _ H4]. cbn in *. split; [done|]. split; [lia|done].
Qed.
Lemma kinv_step w w' : kinv w → kstep w w' → kinv w'.
Proof.
  intros I Hs. destruct Hs as [w len ausr gfp r k' Hl E|w g rest k' Hp E|w g rest n gfp r k' Hn Hp Ha E|w g m Hg Hm].
  - pose proof (kinv_alloc w len ausr gfp I Hl) as H. unfold wp in H. rewrite E in H. by destruct H as (_ & _ & H).
  - pose proof (kinv_free w g rest I Hp) as H. unfold wp in H. rewrite E in H. by destruct H as (H & _).
  - pose proof (kinv_realloc w g rest n gfp I Hn Hp Ha) as H. unfold wp in H. rewrite E in H. by destruct H as (H & _).
  - destruct (grants_place w I) as (l0 & lost0 & W0 & Hf0). destruct I as [(l & lost & W & Hf) Hok]. split; [|done].
    exists l, lost. split; [|done]. cbn [k_alloc Kmalloc.heap Kmalloc.with_heap].
    apply Forall2_app_inv_l in Hf as (l1 & l2 & Hf & _ & ->). rewrite Forall2_fmap_l in Hf.
    apply list_elem_of_lookup in Hg as [i Hi]. destruct (Forall2_lookup_l _ _ _ _ _ Hf Hi) as (b & Hb & [C1 C2 _ _]). cbn in C1, C2.
    apply (winv_step _ _ W). apply (ws_write (mkWorld _ _) b m).
    + cbn. apply list_elem_of_lookup_2 in Hb. set_solver.
    + cbn. intros x Hx. apply Hm. lia.
Qed.
Lemma kinv_new s m : Forall (region_ok 0) (held s) → apart (region_span <$> held s) → kinv (mkKworld (Kmalloc.new s m) []).
Proof.
  intros Hok Hap. split; [|constructor]. exists [], []. split; [by apply winv_new|]. constructor.
Qed.
End kmalloc_inv.

(** C12: In every state of the allocator of the Linux personality that allocations of any length,
    alignment and context, returns with the length and alignment of the request, reallocations and
    writes of the clients into their own blocks can reach, over the heap and any lawful source of
    regions: the blocks in use are pairwise disjoint as far as their usable sizes, each is not at 0,
    usable for the length asked for, aligned as asked for, and inside one region of the source;
    every further request and every return runs to its end; and a request with the atomic bit leaves
    the heap and its source as they are. *)
Theorem kmalloc_exclusive S (RS : RegionSource S) (SL : SourceLaws S) (s : S) m w :
  Forall (region_ok 0) (held s) → apart (region_span <$> held s) → rtc kstep (mkKworld (Kmalloc.new s m) []) w →
  apart (grant_span <$> k_grants w) ∧
  (∀ g, g ∈ k_grants w → 0 < g_ptr g ∧ g_len g <= g_nutz g ∧ (g_ausr g | g_ptr g) ∧
    ∃ r, r ∈ held (Heap.source (Kmalloc.heap (k_alloc w))) ∧ within (grant_span g) (region_span r)) ∧
  (∀ len ausr gfp, 0 <= len → ∃ r k', Kmalloc.kmalloc_ausgerichtet len ausr gfp (k_alloc w) = Some (r, k') ∧
    Heap.mem (Kmalloc.heap k') = Heap.mem (Kmalloc.heap (k_alloc w)) ∧
    (Gfp.ist_atomar gfp = true → Kmalloc.heap k' = Kmalloc.heap (k_alloc w))) ∧
  (∀ g rest, k_grants w ≡ₚ g :: rest → ∃ k',
    Kmalloc.kfree_ausgerichtet (g_ptr g) (g_len g) (g_ausr g) (k_alloc w) = Some (tt, k') ∧
    Kmalloc.heap k' = Kmalloc.heap (k_alloc w)).
Proof.
  intros Hok Hap Hw. assert (kinv w) as I.
  { pose proof (kinv_new s m Hok Hap) as I. clear Hok Hap. induction Hw as [|w1 w2 w3 Hs _ IH]; [done|]. by apply IH, (kinv_step w1). }
  destruct (grants_place w I) as (l & lost & W & Hf). split_and!.
  - pose proof (live_apart _ W) as Ha. cbn [w_live] in Ha. rewrite <-(take_drop (length (k_grants w)) l), <-app_assoc, fmap_app in Ha.
    apply apart_app in Ha as (Ha & _ & _). eapply apart_within; [|done]. apply Forall2_fmap. eapply Forall2_impl; [done|].
    intros g b (H1 & H2 & _). unfold within, grant_span, block_span. cbn. lia.
  - intros g Hg. destruct I as [_ Hgs]. rewrite Forall_forall in Hgs. destruct (Hgs g Hg) as (Hl & [b Eb] & Hz).
    destruct (bedarf_bounds _ _ _ Hl Eb) as (_ & _ & Hn & _).
    apply list_elem_of_lookup in Hg as [i Hi]. destruct (Forall2_lookup_l _ _ _ _ _ Hf Hi) as (c & Hc & H1 & H2 & H3).
    split; [done|]. split; [unfold g_nutz; rewrite Eb; cbn; lia|]. split; [done|].
    destruct (live_place _ c W) as (_ & _ & _ & r & Hr & Hin & _).
    { cbn. apply elem_of_app. left. apply list_elem_of_lookup_2 in Hc. rewrite <-(take_drop (length (k_grants w)) l). set_solver. }
    exists r. split; [done|]. unfold within, grant_span, block_span in *. cbn in *. lia.
  - intros len ausr gfp Hl. pose proof (kinv_alloc w len ausr gfp I Hl) as H. unfold wp in H.
    destruct (Kmalloc.kmalloc_ausgerichtet len ausr gfp (k_alloc w)) as [[r k']|]; [|done]. destruct H as (H1 & H2 & _). by exists r, k'.
  - intros g rest Hp. pose proof (kinv_free w g rest I Hp) as H. unfold wp in H.
    destruct (Kmalloc.kfree_ausgerichtet _ _ _ (k_alloc w)) as [[[] k']|]; [|done]. destruct H as (_ & H). by exists k'.
Qed.

(** ** A concrete allocator *)
Notation demo_t := (Kmalloc.t BumpSource.t).
Definition kdemo : kworld := mkKworld (Kmalloc.new ([] : BumpSource.t) (λ _, 0)) [].
Definition kafter {A} (m : M demo_t A) (w : kworld) : demo_t := from_option snd (k_alloc w) (m (k_alloc w)).
Lemma kdemo_alloc w len ausr gfp z : 0 <= len → fst <$> Kmalloc.kmalloc_ausgerichtet len ausr gfp (k_alloc w) = Some (Some z) →
  kstep w (mkKworld (kafter (Kmalloc.kmalloc_ausgerichtet len ausr gfp) w) (mkGrant z len ausr :: k_grants w)).
Proof.
  intros Hl H. apply (ks_alloc w len ausr gfp (Some z)); [done|]. unfold kafter.
  destruct (Kmalloc.kmalloc_ausgerichtet len ausr gfp (k_alloc w)) as [[r k]|]; [|done]. cbn in *. congruence.
Qed.
Lemma kdemo_free w g rest : k_grants w ≡ₚ g :: rest →
  is_Some (Kmalloc.kfree_ausgerichtet (g_ptr g) (g_len g) (g_ausr g) (k_alloc w)) →
  kstep w (mkKworld (kafter (Kmalloc.kfree_ausgerichtet (g_ptr g) (g_len g) (g_ausr g)) w) rest).
Proof. intros Hp [[[] k] E]. apply (ks_free w g); [done|]. unfold kafter. by rewrite E. Qed.

Lemma kdemo_run : ∃ w, rtc kstep kdemo w ∧ length (k_grants w) = 2%nat.
Proof.
  eexists. split.
  - eapply rtc_l; [apply (kdemo_alloc kdemo 100 16 Gfp.KERNEL 4096); [done|by vm_compute]|].
    eapply rtc_l; [apply (kdemo_alloc _ 3000 64 Gfp.KERNEL (17 * 4096)); [done|by vm_compute]|].
    eapply rtc_l; [apply (kdemo_free _ (mkGrant 4096 100 16) [mkGrant (17 * 4096) 3000 64]); [apply Permutation_swap|by eexists; vm_compute]|].
    eapply rtc_l; [apply (kdemo_alloc _ 90 16 Gfp.ATOMIC 4096); [done|by vm_compute]|]. apply rtc_refl.
  - done.
Qed.
Lemma kmalloc_exclusive_witness : ∃ w, rtc kstep kdemo w ∧ length (k_grants w) = 2%nat ∧ apart (grant_span <$> k_grants w).
Proof.
  destruct kdemo_run as (w & Hw & Hl). exists w. split; [done|]. split; [done|].
  by apply (kmalloc_exclusive BumpSource.t BumpSource.source BumpSource.laws [] (λ _, 0) w); [constructor| |].
Defined.

(** A return with a greater length than the request's parks the block under a size it does not
    have: the next request of that size gets it, over the block behind it, which is in use. *)
Lemma mismatch_overlaps : ∃ k,
  (kmalloc_1 ← Kmalloc.kmalloc 16 Gfp.KERNEL; kmalloc_2 ← Kmalloc.kmalloc 16 Gfp.KERNEL;
   Kmalloc.kfree 4096 1000 ≫= λ _, kmalloc_3 ← Kmalloc.kmalloc 1000 Gfp.KERNEL; mret (kmalloc_1, kmalloc_2, kmalloc_3)) (k_alloc kdemo)
  = Some ((Some 4096, Some 4112, Some 4096), k) ∧ ~ disj (4096, 1000) (4112, 16).
Proof. eexists. split; [by vm_compute|]. unfold disj. cbn. lia. Qed.
