(* ===== verification/Handover.v ===== *)
(** * State that outlives the replacement of a program

    The bounded views of [src/crates/caprock-region/src/lib.rs] and the state region of
    [src/crates/caprock-region/src/state.rs]: a header of 32 bytes over a payload, laid out once and
    taken over by every new version of the program.  Memory is that of [Heap]; numbers are read and
    written in little-endian order. *)

From S2P Require Import Prelude.
From S2P Require Import PanicMonad.
From S2P Require Import Bytes.
From S2P Require Import Heap.
#[local] Open Scope Z_scope.

(** ** Views *)
Module RegionView.
Record t := mk { base : Z; len : Z }.

Definition split_at (v : t) (mid : Z) : option (t * t) :=
  if len v <? mid then None else Some (mk (base v) mid, mk (wrapping_add 64 (base v) mid) (len v - mid)).
Definition subview (v : t) (off n : Z) : option t :=
  stop ← checked_add 64 off n; if len v <? stop then None else Some (mk (wrapping_add 64 (base v) off) n).
(** [get] and [set] of an unsigned number of [n] bytes. *)
Definition get (n : nat) (v : t) (off : Z) : M memory (option Z) :=
  match checked_add 64 off (Z.of_nat n) with
  | None => mret None
  | Some stop =>
    if len v <? stop then mret None
    else gets (λ m, Some (le_value (read_bytes m (wrapping_add 64 (base v) off) n)))
  end.
Definition copy_from (v : t) (off : Z) (src : list Z) : M memory bool :=
  match checked_add 64 off (Bytes.len src) with
  | None => mret false
  | Some stop =>
    if len v <? stop then mret false
    else modify (λ m, write_bytes m (wrapping_add 64 (base v) off) src) ≫= λ _, mret true
  end.
Definition set (n : nat) (v : t) (off val : Z) : M memory bool :=
  match checked_add 64 off (Z.of_nat n) with
  | None => mret false
  | Some stop =>
    if len v <? stop then mret false
    else modify (λ m, write_bytes m (wrapping_add 64 (base v) off) (le_bytes n val)) ≫= λ _, mret true
  end.
(** The bytes copied to a buffer of [n] bytes. *)
Definition copy_to (v : t) (off : Z) (n : nat) : M memory (option (list Z)) :=
  match checked_add 64 off (Z.of_nat n) with
  | None => mret None
  | Some stop =>
    if len v <? stop then mret None else gets (λ m, Some (read_bytes m (wrapping_add 64 (base v) off) n))
  end.
Definition fill (v : t) (byte : Z) : M memory unit :=
  modify (λ m x, if (base v <=? x) && (x <? base v + len v) then byte else m x).
End RegionView.

(** ** The state region *)
Definition STATE_MAGIC : Z := 0x53544154454C414B.
Definition HEADER_LEN : Z := 32.
Definition OFF_MAGIC : Z := 0.
Definition OFF_PROGRAM : Z := 8.
Definition OFF_VERSION : Z := 12.
Definition OFF_PAYLOAD_LEN : Z := 16.
Definition OFF_GENERATION : Z := 20.

Module StateError.
Inductive t :=
  NoState | WrongProgram (found : Z) | VersionMismatch (found : Z) | TooSmall | Corrupt (payload_len : Z) | GenerationExhausted.
End StateError.
Module Handover.
Record t := mk { generation : Z; payload_len : Z }.
End Handover.
Notation View := RegionView.t.

Definition init (view : View) (program_id state_version payload_len : Z) : M memory (result unit StateError.t) :=
  match checked_add 64 HEADER_LEN payload_len with
  | None => mret (Err StateError.TooSmall)
  | Some need =>
    if RegionView.len view <? need then mret (Err StateError.TooSmall)
    else
      match RegionView.subview view HEADER_LEN payload_len with
      | None => mret (Err StateError.TooSmall)
      | Some payload =>
        RegionView.fill payload 0 ≫= λ _,
        RegionView.set 4 view OFF_PROGRAM program_id ≫= λ _,
        RegionView.set 4 view OFF_VERSION state_version ≫= λ _,
        RegionView.set 4 view OFF_PAYLOAD_LEN payload_len ≫= λ _,
        RegionView.set 4 view OFF_GENERATION 0 ≫= λ _,
        RegionView.set 8 view 24 0 ≫= λ _,
        RegionView.set 8 view OFF_MAGIC STATE_MAGIC ≫= λ _,
        mret (Ok tt)
      end
  end.

(** [ok_or(TooSmall)?] on the answer of a [get]. *)
Definition or_small {A B} (m : M memory (option A)) (k : A → M memory (result B StateError.t)) : M memory (result B StateError.t) :=
  r ← m; match r with None => mret (Err StateError.TooSmall) | Some a => k a end.
Definition attach (view : View) (program_id state_version : Z) : M memory (result Handover.t StateError.t) :=
  if RegionView.len view <? HEADER_LEN then mret (Err StateError.TooSmall)
  else
    magic ← RegionView.get 8 view OFF_MAGIC;
    if negb (bool_decide (magic = Some STATE_MAGIC)) then mret (Err StateError.NoState)
    else
      or_small (RegionView.get 4 view OFF_PROGRAM) (λ found_program,
      if negb (found_program =? program_id) then mret (Err (StateError.WrongProgram found_program))
      else
        or_small (RegionView.get 4 view OFF_VERSION) (λ found_version,
        if negb (found_version =? state_version) then mret (Err (StateError.VersionMismatch found_version))
        else
          or_small (RegionView.get 4 view OFF_PAYLOAD_LEN) (λ payload_len,
          if RegionView.len view <? saturating_add 64 HEADER_LEN payload_len then mret (Err (StateError.Corrupt payload_len))
          else
            or_small (RegionView.get 4 view OFF_GENERATION) (λ gen,
            match checked_add 32 gen 1 with
            | None => mret (Err StateError.GenerationExhausted)
            | Some next =>
              RegionView.set 4 view OFF_GENERATION next ≫= λ _, mret (Ok (Handover.mk next payload_len))
            end)))).

Definition payload (view : View) : M memory (option View) :=
  n ← RegionView.get 4 view OFF_PAYLOAD_LEN;
  mret (n ≫= λ n, RegionView.subview view HEADER_LEN n).
Definition generation (view : View) : M memory (option Z) :=
  magic ← RegionView.get 8 view OFF_MAGIC;
  if negb (bool_decide (magic = Some STATE_MAGIC)) then mret None else RegionView.get 4 view OFF_GENERATION.

(** ** What a program sees of the region

    The abstract state: whose it is, which layout, how often it was taken over, and its bytes. *)
Module Zustand.
Record t := mk { prog : Z; ver : Z; gen : Z; data : list Z }.
Definition frisch (prog ver n : Z) : t := mk prog ver 0 (replicate (Z.to_nat n) 0).
Definition attach (p v : Z) (a : t) : result Handover.t StateError.t * t :=
  if negb (prog a =? p) then (Err (StateError.WrongProgram (prog a)), a)
  else if negb (ver a =? v) then (Err (StateError.VersionMismatch (ver a)), a)
  else if gen a =? max_value 32 then (Err StateError.GenerationExhausted, a)
  else (Ok (Handover.mk (gen a + 1) (len (data a))), mk p v (gen a + 1) (data a)).
Definition write (off : Z) (l : list Z) (a : t) : bool * t :=
  if off + len l <=? len (data a)
  then (true, mk (prog a) (ver a) (gen a) (take (Z.to_nat off) (data a) ++ l ++ drop (Z.to_nat off + length l) (data a)))
  else (false, a).
Definition read (off : Z) (n : nat) (a : t) : option (list Z) :=
  if off + Z.of_nat n <=? len (data a) then Some (take n (drop (Z.to_nat off) (data a))) else None.
End Zustand.

(** What programs do with a region that was laid out. *)
Inductive op := Attach (program_id state_version : Z) | Write (off : Z) (src : list Z) | Read (off : Z) (n : nat) | Generation.
Inductive answer := AHandover (r : result Handover.t StateError.t) | AWrote (b : option bool) | ARead (r : option (option (list Z)))
  | AGeneration (g : option Z).
Definition perform (view : View) (o : op) : M memory answer :=
  match o with
  | Attach p v => r ← attach view p v; mret (AHandover r)
  | Write off src =>
    w ← payload view;
    match w with None => mret (AWrote None) | Some w => b ← RegionView.copy_from w off src; mret (AWrote (Some b)) end
  | Read off n =>
    w ← payload view;
    match w with None => mret (ARead None) | Some w => b ← RegionView.copy_to w off n; mret (ARead (Some b)) end
  | Generation => g ← generation view; mret (AGeneration g)
  end.
Fixpoint perform_all (view : View) (l : list op) : M memory (list answer) :=
  match l with [] => mret [] | o :: l => a ← perform view o; r ← perform_all view l; mret (a :: r) end.
(** The same on the abstract state. *)
Definition promised (o : op) (a : Zustand.t) : answer * Zustand.t :=
  match o with
  | Attach p v => let '(r, a) := Zustand.attach p v a in (AHandover r, a)
  | Write off src => let '(b, a) := Zustand.write off src a in (AWrote (Some b), a)
  | Read off n => (ARead (Some (Zustand.read off n a)), a)
  | Generation => (AGeneration (Some (Zustand.gen a)), a)
  end.
Fixpoint promised_all (l : list op) (a : Zustand.t) : list answer :=
  match l with [] => [] | o :: l => let '(r, a) := promised o a in r :: promised_all l a end.

(** ** Reading and writing *)
Definition rd (n : nat) (m : memory) (a : Z) : Z := le_value (read_bytes m a n).
Lemma read_bytes_agree m m' a n : (∀ x, a <= x < a + Z.of_nat n → m' x = m x) → read_bytes m' a n = read_bytes m a n.
Proof. intros H. apply list_fmap_ext. intros i x Hx. apply lookup_seq in Hx as [-> Hx]. apply H. lia. Qed.
Lemma rd_agree n m m' a : (∀ x, a <= x < a + Z.of_nat n → m' x = m x) → rd n m' a = rd n m a.
Proof. intros H. unfold rd. by rewrite (read_bytes_agree m m'). Qed.
Lemma rd_written n m a v : in_width (8 * Z.of_nat n) v → rd n (write_bytes m a (le_bytes n v)) a = v.
Proof. intros Hv. unfold rd. rewrite <-(length_le_bytes n v) at 2. rewrite read_write_bytes. by apply le_value_bytes. Qed.
Lemma write_bytes_outside m a l x : ~ (a <= x < a + len l) → write_bytes m a l x = m x.
Proof. intros H. apply write_bytes_other. unfold disj. cbn. lia. Qed.
Lemma rd_other n m a l b : disj (a, len l) (b, Z.of_nat n) → rd n (write_bytes m a l) b = rd n m b.
Proof. intros H. apply rd_agree. intros x Hx. apply write_bytes_outside. unfold disj in H. cbn in H. lia. Qed.
(** A write in the middle of a run of bytes. *)
Lemma read_bytes_splice m b n d off l : read_bytes m b n = d → (off + length l <= n)%nat →
  read_bytes (write_bytes m (b + Z.of_nat off) l) b n = take off d ++ l ++ drop (off + length l) d.
Proof.
  intros <- Hn. pose proof (length_read_bytes m b n) as Hl. apply list_eq. intros i.
  destruct (decide (i < n)%nat) as [Hi|Hi].
  2: { rewrite !lookup_ge_None_2; [done| |rewrite length_read_bytes; lia]. rewrite !length_app, length_take, length_drop. lia. }
  rewrite read_bytes_lookup by done. destruct (decide (i < off)%nat) as [H1|H1].
  - rewrite lookup_app_l by (rewrite length_take; lia). rewrite lookup_take_lt, read_bytes_lookup by lia. f_equal.
    apply write_bytes_outside. lia.
  - rewrite lookup_app_r by (rewrite length_take; lia). rewrite length_take, Hl, Nat.min_l by lia.
    destruct (decide (i < off + length l)%nat) as [H2|H2].
    + rewrite lookup_app_l by lia. destruct (lookup_lt_is_Some_2 l (i - off)) as [x Hx]; [lia|]. rewrite Hx. f_equal.
      replace (b + Z.of_nat i) with (b + Z.of_nat off + Z.of_nat (i - off)) by lia. by apply write_bytes_at.
    + rewrite lookup_app_r by lia. rewrite lookup_drop. replace (off + length l + (i - off - length l))%nat with i by lia.
      rewrite read_bytes_lookup by done. f_equal. apply write_bytes_outside. unfold len. lia.
Qed.
Lemma read_bytes_part m b n k off : (off + k <= n)%nat → read_bytes m (b + Z.of_nat off) k = take k (drop off (read_bytes m b n)).
Proof.
  intros Hn. apply list_eq. intros i. destruct (decide (i < k)%nat) as [Hi|Hi].
  - rewrite read_bytes_lookup by done. rewrite lookup_take_lt, lookup_drop, read_bytes_lookup by lia. f_equal. f_equal. lia.
  - rewrite !lookup_ge_None_2; [done| |rewrite length_read_bytes; lia]. rewrite length_take. lia.
Qed.

(** ** Views inside the address space *)
Section view.
Variable view : View.
Notation b := (RegionView.base view).
Notation n := (RegionView.len view).
Hypothesis Hbase : 0 <= b.
Hypothesis Hlen : 0 <= n.
Hypothesis Hend : b + n < 2 ^ 64.

Lemma at_off off : 0 <= off <= n → wrapping_add 64 b off = b + off.
Proof. intros H. unfold wrapping_add. apply Z.mod_small. lia. Qed.
Lemma checked_off off k : 0 <= off → 0 <= k → off + k <= n → checked_add 64 off k = Some (off + k) ∧ (n <? off + k) = false.
Proof. intros H1 H2 H3. unfold checked_add. rewrite (proj2 (Z.ltb_lt _ _)) by lia. split; [done|apply Z.ltb_ge; lia]. Qed.
(** A place beyond the view is refused, whether the sum overflows or not. *)
Lemma refused_off off k (A : Type) (x y : A) : n < off + k →
  match checked_add 64 off k with None => x | Some stop => if n <? stop then x else y end = x.
Proof. intros H. unfold checked_add. destruct (_ <? _); [|done]. by rewrite (proj2 (Z.ltb_lt _ _)). Qed.

Lemma wp_get k off m (Q : option Z → memory → Prop) : 0 <= off → off + Z.of_nat k <= n →
  Q (Some (rd k m (b + off))) m → wp (RegionView.get k view off) m Q.
Proof.
  intros Ho Hk HQ. unfold RegionView.get. destruct (checked_off off (Z.of_nat k)) as [-> ->]; [lia..|]. wp_step. by rewrite at_off by lia.
Qed.
Lemma wp_set k off v m (Q : bool → memory → Prop) : 0 <= off → off + Z.of_nat k <= n →
  Q true (write_bytes m (b + off) (le_bytes k v)) → wp (RegionView.set k view off v) m Q.
Proof.
  intros Ho Hk HQ. unfold RegionView.set. destruct (checked_off off (Z.of_nat k)) as [-> ->]; [lia..|]. repeat wp_step. by rewrite at_off by lia.
Qed.
Lemma wp_copy_from off src m (Q : bool → memory → Prop) : 0 <= off →
  (if off + len src <=? n then Q true (write_bytes m (b + off) src) else Q false m) → wp (RegionView.copy_from view off src) m Q.
Proof.
  intros Ho. unfold RegionView.copy_from. pose proof (Nat2Z.is_nonneg (length src)). unfold len in *. destruct (Z.leb_spec (off + Z.of_nat (length src)) n).
  - intros HQ. destruct (checked_off off (Z.of_nat (length src))) as [-> ->]; [lia..|]. repeat wp_step. by rewrite at_off by lia.
  - intros HQ. by rewrite refused_off by lia.
Qed.
Lemma wp_copy_to off k m (Q : option (list Z) → memory → Prop) : 0 <= off →
  Q (if off + Z.of_nat k <=? n then Some (read_bytes m (b + off) k) else None) m → wp (RegionView.copy_to view off k) m Q.
Proof.
  intros Ho. unfold RegionView.copy_to. destruct (Z.leb_spec (off + Z.of_nat k) n).
  - intros HQ. destruct (checked_off off (Z.of_nat k)) as [-> ->]; [lia..|]. wp_step. by rewrite at_off by lia.
  - intros HQ. by rewrite refused_off by lia.
Qed.
Lemma subview_in off k : 0 <= off → 0 <= k → off + k <= n → RegionView.subview view off k = Some (RegionView.mk (b + off) k).
Proof.
  intros Ho Hk H. unfold RegionView.subview. destruct (checked_off off k) as [E1 E2]; [lia..|]. rewrite E1. cbn [mbind option_bind]. rewrite E2. by rewrite at_off by lia.
Qed.

(** The region holds the abstract state [a]. *)
Record holds (m : memory) (a : Zustand.t) : Prop := {
  ho_room : HEADER_LEN + len (Zustand.data a) <= n;
  ho_size : len (Zustand.data a) < 2 ^ 32;
  ho_width : in_width 32 (Zustand.prog a) ∧ in_width 32 (Zustand.ver a) ∧ in_width 32 (Zustand.gen a);
  ho_magic : rd 8 m (b + OFF_MAGIC) = STATE_MAGIC;
  ho_prog : rd 4 m (b + OFF_PROGRAM) = Zustand.prog a;
  ho_ver : rd 4 m (b + OFF_VERSION) = Zustand.ver a;
  ho_len : rd 4 m (b + OFF_PAYLOAD_LEN) = len (Zustand.data a);
  ho_gen : rd 4 m (b + OFF_GENERATION) = Zustand.gen a;
  ho_data : read_bytes m (b + HEADER_LEN) (length (Zustand.data a)) = Zustand.data a }.

(** Nothing outside the view is written. *)
Definition inside (m m' : memory) : Prop := ∀ x, ~ (b <= x < b + n) → m' x = m x.
Lemma inside_write m off l : 0 <= off → off + len l <= n → inside m (write_bytes m (b + off) l).
Proof. intros Ho Hl x Hx. apply write_bytes_outside. lia. Qed.
Lemma inside_trans m1 m2 m3 : inside m1 m2 → inside m2 m3 → inside m1 m3.
Proof. intros H1 H2 x Hx. by rewrite H2, H1. Qed.

Ltac offs := unfold OFF_MAGIC, OFF_PROGRAM, OFF_VERSION, OFF_PAYLOAD_LEN, OFF_GENERATION, HEADER_LEN, STATE_MAGIC, in_width, len in *.

(** What happens in the header or in the payload leaves the rest. *)
Lemma holds_gen m a g : holds m a → in_width 32 g →
  holds (write_bytes m (b + OFF_GENERATION) (le_bytes 4 g)) (Zustand.mk (Zustand.prog a) (Zustand.ver a) g (Zustand.data a)).
Proof.
  intros H Hg. destruct H as [H1 H2 H3 H4 H5 H6 H7 H8 H9].
  split; cbn [Zustand.prog Zustand.ver Zustand.gen Zustand.data]; try done.
  - destruct H3 as (? & ? & _). by split_and!.
  - rewrite rd_other; [done|]. unfold disj. cbn [fst snd]. offs. rewrite length_le_bytes. lia.
  - rewrite rd_other; [done|]. unfold disj. cbn [fst snd]. offs. rewrite length_le_bytes. lia.
  - rewrite rd_other; [done|]. unfold disj. cbn [fst snd]. offs. rewrite length_le_bytes. lia.
  - rewrite rd_other; [done|]. unfold disj. cbn [fst snd]. offs. rewrite length_le_bytes. lia.
  - by apply rd_written.
  - rewrite <-H9 at 2. apply read_bytes_agree. intros x Hx. apply write_bytes_outside. offs. rewrite length_le_bytes. lia.
Qed.
Lemma holds_write m a off l : holds m a → (off + length l <= length (Zustand.data a))%nat →
  holds (write_bytes m (b + HEADER_LEN + Z.of_nat off) l) (Zustand.mk (Zustand.prog a) (Zustand.ver a) (Zustand.gen a)
    (take off (Zustand.data a) ++ l ++ drop (off + length l) (Zustand.data a))).
Proof.
  intros H Hl. destruct H as [H1 H2 H3 H4 H5 H6 H7 H8 H9].
  assert (length (take off (Zustand.data a) ++ l ++ drop (off + length l) (Zustand.data a)) = length (Zustand.data a)) as E.
  { rewrite !length_app, length_take, length_drop. lia. }
  split; cbn [Zustand.prog Zustand.ver Zustand.gen Zustand.data]; unfold len; rewrite ?E; try done.
  1-5: rewrite rd_other; [done|]; unfold disj; cbn [fst snd]; offs; lia.
  by apply read_bytes_splice.
Qed.

Lemma wp_attach_holds m a p v : holds m a → wp (attach view p v) m (λ r m',
  r = (Zustand.attach p v a).1 ∧ holds m' (Zustand.attach p v a).2 ∧ inside m m').
Proof.
  intros H. pose proof H as [H1 H2 H3 H4 H5 H6 H7 H8 H9]. assert (HEADER_LEN <= n) by (offs; lia).
  unfold attach, Zustand.attach, or_small. rewrite (proj2 (Z.ltb_ge _ _)) by done.
  wp_step. apply wp_get; [done|offs; lia|]. rewrite H4, bool_decide_eq_true_2 by done. cbn [negb].
  wp_step. apply wp_get; [done|offs; lia|]. rewrite H5. destruct (Zustand.prog a =? p) eqn:Ep; [|by apply wp_ret]. apply Z.eqb_eq in Ep. subst p. cbn [negb].
  wp_step. apply wp_get; [done|offs; lia|]. rewrite H6. destruct (Zustand.ver a =? v) eqn:Ev; [|by apply wp_ret]. apply Z.eqb_eq in Ev. subst v. cbn [negb].
  wp_step. apply wp_get; [done|offs; lia|]. rewrite H7. rewrite (proj2 (Z.ltb_ge _ _)) by (unfold saturating_add; lia).
  wp_step. apply wp_get; [done|offs; lia|]. rewrite H8. destruct H3 as (W1 & W2 & W3). unfold checked_add, max_value.
  destruct (Z.eqb_spec (Zustand.gen a) (2 ^ 32 - 1)) as [E|E].
  - rewrite (proj2 (Z.ltb_ge _ _)) by lia. by apply wp_ret.
  - rewrite (proj2 (Z.ltb_lt _ _)) by (unfold in_width in W3; lia). wp_step. apply wp_set; [done|offs; lia|].
    apply wp_ret. cbn [fst snd]. split; [done|]. split.
    + apply (holds_gen m a (Zustand.gen a + 1)); [done|]. unfold in_width in *. lia.
    + apply inside_write; [done|]. offs. rewrite length_le_bytes. lia.
Qed.

Lemma wp_payload m a (Q : option View → memory → Prop) : holds m a →
  Q (Some (RegionView.mk (b + HEADER_LEN) (len (Zustand.data a)))) m → wp (payload view) m Q.
Proof.
  intros [H1 H2 H3 H4 H5 H6 H7 H8 H9] HQ. assert (HEADER_LEN <= n) by (offs; lia). unfold payload.
  wp_step. apply wp_get; [done|offs; lia|]. apply wp_ret. rewrite H7. cbn [mbind option_bind].
  rewrite subview_in; [done|done|offs; lia|done].
Qed.

(** An operation answers what the abstract state promises, and keeps to the region. *)
Definition op_ok (o : op) : Prop := match o with Write off _ | Read off _ => 0 <= off | _ => True end.
End view.

Section views.
Variable view : View.
Notation b := (RegionView.base view).
Notation n := (RegionView.len view).
Hypothesis Hbase : 0 <= b.
Hypothesis Hlen : 0 <= n.
Hypothesis Hend : b + n < 2 ^ 64.

Lemma wp_perform m a o : holds view m a → op_ok o → wp (perform view o) m (λ r m',
  r = (promised o a).1 ∧ holds view m' (promised o a).2 ∧ inside view m m').
Proof.
  intros H Ho. pose proof (ho_room _ _ _ H) as Hroom. assert (0 <= len (Zustand.data a)) by (unfold len; lia). unfold HEADER_LEN in Hroom.
  destruct o as [p v|off src|off k|]; unfold perform; cbn [promised op_ok] in *.
  - wp_step. eapply wp_mono; [by eapply wp_attach_holds|]. cbn beta. intros r m' (-> & H1 & H2). apply wp_ret. by destruct (Zustand.attach p v a).
  - wp_step. eapply wp_payload; [done..|]. wp_step. unfold HEADER_LEN. apply wp_copy_from; cbn [RegionView.base RegionView.len]; [lia..|].
    unfold Zustand.write. destruct (Z.leb_spec (off + len src) (len (Zustand.data a))); apply wp_ret; cbn [fst snd]; [|done].
    unfold len in *. split; [done|]. split.
    + rewrite <-(Z2Nat.id off) at 1 by done. apply (holds_write view m a (Z.to_nat off) src); done || lia.
    + rewrite <-Z.add_assoc. apply inside_write; unfold len; lia.
  - wp_step. eapply wp_payload; [done..|]. wp_step. unfold HEADER_LEN. apply wp_copy_to; cbn [RegionView.base RegionView.len]; [lia..|]. apply wp_ret. cbn [fst snd].
    split; [|done]. do 3 f_equal. unfold Zustand.read. destruct (Z.leb_spec (off + Z.of_nat k) (len (Zustand.data a))); [|done].
    f_equal. rewrite <-(Z2Nat.id off) at 1 by done. unfold len in *. rewrite (read_bytes_part m (b + 32) (length (Zustand.data a))) by lia.
    pose proof (ho_data _ _ _ H) as Hd. unfold HEADER_LEN in Hd. by rewrite Hd.
  - unfold generation. wp_step. wp_step. apply wp_get; [unfold OFF_MAGIC; lia..|]. rewrite (ho_magic _ _ _ H), bool_decide_eq_true_2 by done. cbn [negb].
    apply wp_get; [unfold OFF_GENERATION; lia..|]. apply wp_ret. by rewrite (ho_gen _ _ _ H).
Qed.
Lemma wp_perform_all l m a : holds view m a → Forall op_ok l → wp (perform_all view l) m (λ r m', r = promised_all l a ∧ inside view m m').
Proof.
  intros H Hl. revert m a H. induction Hl as [|o l Ho _ IH]; intros m a H; cbn [perform_all promised_all]; [by apply wp_ret|].
  wp_step. eapply wp_mono; [by apply wp_perform|]. cbn beta. intros r m1 (-> & H1 & I1). wp_step.
  eapply wp_mono; [by apply IH|]. cbn beta. intros rs m2 (-> & I2). apply wp_ret. split; [by destruct (promised o a)|by eapply inside_trans].
Qed.

(** A field is not touched by the writing of another. *)
Ltac past := rewrite rd_other by (unfold disj, OFF_PROGRAM, OFF_VERSION, OFF_PAYLOAD_LEN, OFF_GENERATION, OFF_MAGIC, len;
  cbn [fst snd]; rewrite length_le_bytes; lia).
Lemma wp_init m p v k : in_width 32 p → in_width 32 v → in_width 32 k → HEADER_LEN + k <= n →
  wp (init view p v k) m (λ r m', r = Ok tt ∧ holds view m' (Zustand.frisch p v k) ∧ inside view m m').
Proof.
  intros Hp Hv Hk Hn. unfold init, HEADER_LEN in *. pose proof Hk as Hk'. unfold in_width in Hk.
  unfold checked_add. rewrite (proj2 (Z.ltb_lt _ _)), (proj2 (Z.ltb_ge _ _)) by lia. rewrite subview_in by lia.
  wp_step. unfold RegionView.fill. wp_step. cbn [RegionView.base RegionView.len].
  do 6 (wp_step; apply wp_set; [unfold OFF_PROGRAM, OFF_VERSION, OFF_PAYLOAD_LEN, OFF_GENERATION, OFF_MAGIC; lia..|]).
  apply wp_ret. split; [done|]. split.
  2: { intros x Hx. unfold OFF_PROGRAM, OFF_VERSION, OFF_PAYLOAD_LEN, OFF_GENERATION, OFF_MAGIC.
       do 6 (rewrite write_bytes_outside by (unfold len; rewrite length_le_bytes; lia)).
       destruct ((_ <=? x) && _) eqn:E; [|done]. rewrite andb_true_iff, Z.leb_le, Z.ltb_lt in E. lia. }
  assert (len (replicate (Z.to_nat k) 0) = k) as El by (unfold len; rewrite length_replicate; lia).
  split; cbn [Zustand.frisch Zustand.prog Zustand.ver Zustand.gen Zustand.data]; rewrite ?El, ?length_replicate; unfold HEADER_LEN; try done.
  - lia.
  - by apply rd_written.
  - do 5 past. by apply rd_written.
  - do 4 past. by apply rd_written.
  - do 3 past. by apply rd_written.
  - do 2 past. by apply rd_written.
  - apply list_eq. intros i. destruct (decide (i < Z.to_nat k)%nat) as [Hi|Hi].
    + rewrite read_bytes_lookup, lookup_replicate_2 by done. f_equal. unfold OFF_PROGRAM, OFF_VERSION, OFF_PAYLOAD_LEN, OFF_GENERATION, OFF_MAGIC.
      do 6 (rewrite write_bytes_outside by (unfold len; rewrite length_le_bytes; lia)).
      destruct ((_ <=? _) && _) eqn:E; [done|]. rewrite andb_false_iff, Z.leb_gt, Z.ltb_ge in E. lia.
    + rewrite !lookup_ge_None_2; [done|rewrite length_replicate; lia|rewrite length_read_bytes; lia].
Qed.
End views.

(** C16: A region too short for header and payload is refused and left as it is.  A region that was
    laid out then answers every sequence of takeovers (by any program and layout version), of writes
    and reads of its payload at any place and length, and of questions for its generation, as the
    state that was put into it promises: a takeover succeeds exactly for its own program and version
    and counts, everybody else is told what is there and changes nothing, the payload holds what was
    last written and begins as zeros; and no byte outside the region is touched. *)
Theorem handover_refines view p v k ops m :
  0 <= RegionView.base view → 0 <= RegionView.len view → RegionView.base view + RegionView.len view < 2 ^ 64 →
  in_width 32 p → in_width 32 v → in_width 32 k → Forall op_ok ops →
  (RegionView.len view < HEADER_LEN + k → init view p v k m = Some (Err StateError.TooSmall, m)) ∧
  (HEADER_LEN + k <= RegionView.len view → ∃ m1 m2, init view p v k m = Some (Ok tt, m1) ∧
    perform_all view ops m1 = Some (promised_all ops (Zustand.frisch p v k), m2) ∧
    ∀ x, ~ (RegionView.base view <= x < RegionView.base view + RegionView.len view) → m2 x = m x).
Proof.
  intros Hb Hl He Hp Hv Hk Hops. split; intros Hn.
  - unfold init, checked_add. destruct (_ <? 2 ^ 64); [|done]. by rewrite (proj2 (Z.ltb_lt _ _)).
  - pose proof (wp_init view Hb He m p v k Hp Hv Hk Hn) as H. unfold wp in H.
    destruct (init view p v k m) as [[r m1]|]; [|done]. destruct H as (-> & Hh & Hi).
    pose proof (wp_perform_all view Hb He ops m1 _ Hh Hops) as H. unfold wp in H.
    destruct (perform_all view ops m1) as [[rs m2]|] eqn:E; [|done]. destruct H as (-> & Hi2).
    exists m1, m2. split; [done|]. split; [done|]. by apply (inside_trans view m m1 m2).
Qed.

(** ** A concrete region *)
Definition demo_view : View := RegionView.mk 0x1000 64.
Definition demo_ops : list op :=
  [Generation; Write 2 [7; 8]; Attach 9 3; Attach 5 4; Attach 5 3; Read 0 5; Write 7 [1; 1]; Attach 5 3; Generation].
Lemma handover_refines_witness :
  Zustand.frisch 5 3 8 = Zustand.mk 5 3 0 [0; 0; 0; 0; 0; 0; 0; 0] ∧
  promised_all demo_ops (Zustand.frisch 5 3 8) =
    [AGeneration (Some 0); AWrote (Some true); AHandover (Err (StateError.WrongProgram 5)); AHandover (Err (StateError.VersionMismatch 3));
     AHandover (Ok (Handover.mk 1 8)); ARead (Some (Some [0; 0; 7; 8; 0])); AWrote (Some false); AHandover (Ok (Handover.mk 2 8));
     AGeneration (Some 2)] ∧
  ∃ m1 m2, init demo_view 5 3 8 (λ _, 255) = Some (Ok tt, m1) ∧
    perform_all demo_view demo_ops m1 = Some (promised_all demo_ops (Zustand.frisch 5 3 8), m2).
Proof.
  split; [done|]. split; [by vm_compute|].
  destruct (handover_refines demo_view 5 3 8 demo_ops (λ _, 255)) as [_ H]; [cbn; unfold in_width; lia..|by repeat constructor|].
  destruct H as (m1 & m2 & H1 & H2 & _); [done|]. by exists m1, m2.
Defined.

(** A region that is laid out again keeps its old magic while its payload is already zeroed: a
    takeover by the old version in that moment succeeds, over zeros. *)
Lemma relayout_keeps_magic :
  fst <$> (init demo_view 5 3 8 ≫= λ _, w ← payload demo_view;
        match w with
        | None => mret None
        | Some w => RegionView.copy_from w 0 [1; 2] ≫= λ _,
                    RegionView.fill w 0 ≫= λ _, (* the first step of the second [init] *)
                    r ← attach demo_view 5 3; d ← RegionView.copy_to w 0 2; mret (Some (r, d))
        end) (λ _, 255) = Some (Some (Ok (Handover.mk 1 8), Some [0; 0])).
Proof. by vm_compute. Qed.
