(* ===== verification/Dma.v ===== *)
(** * DMA memory of a driver

    [src/crates/caprock-dma/src/lib.rs] and [gross.rs]: a pool over a region that the kernel has
    mapped once for the processor and once for the device, the limits of a device, scatter lists,
    bounce buffers, and the search for the largest block that can be had. *)

From S2P Require Import Prelude.
From S2P Require Import PanicMonad.
From S2P Require Import Color.
From S2P Require Import Heap.
#[local] Open Scope Z_scope.

(** ** The pool *)
Inductive PoolError := Leer | KeineGeraetesicht | Identitaet | Ueberlauf.

Module DmaBuf.
Record t := mk { cpu : Z; dev : Z; len : Z }.
Definition sub (self : t) (off n : Z) : option t :=
  stop ← checked_add 64 off n;
  if len self <? stop then None
  else
    c ← checked_add 64 (cpu self) off;
    d ← checked_add 64 (dev self) off;
    Some (mk c d n).
End DmaBuf.

Module DmaPool.
Record t := mk { cpu_base : Z; dev_base : Z; len : Z; next : Z; hoechststand : Z }.

Definition new (cpu_base dev_base len : Z) : result t PoolError :=
  if len =? 0 then Err Leer
  else if dev_base =? 0 then Err KeineGeraetesicht
  else if cpu_base =? dev_base then Err Identitaet
  else
    match checked_add 64 cpu_base len, checked_add 64 dev_base len with
    | Some _, Some _ => Ok (mk cpu_base dev_base len 0 0)
    | _, _ => Err Ueberlauf
    end.
Definition alloc (len_ align : Z) (self : t) : option DmaBuf.t * t :=
  if (len_ =? 0) || (align =? 0) || negb (is_power_of_two align) then (None, self)
  else
    match checked_add 64 (next self) (align - 1) with
    | None => (None, self)
    | Some sum =>
      let off := Z.ldiff sum (align - 1) in
      match checked_add 64 off len_ with
      | None => (None, self)
      | Some ende =>
        if len self <? ende then (None, self)
        else
          (Some (DmaBuf.mk (wrapping_add 64 (cpu_base self) off) (wrapping_add 64 (dev_base self) off) len_),
           mk (cpu_base self) (dev_base self) (len self) ende
             (if hoechststand self <? ende then ende else hoechststand self))
      end
    end.
Definition map (self : t) (cpu n : Z) : option DmaBuf.t :=
  if cpu <? cpu_base self then None
  else
    let off := cpu - cpu_base self in
    stop ← checked_add 64 off n;
    if len self <? stop then None else Some (DmaBuf.mk cpu (wrapping_add 64 (dev_base self) off) n).
Definition whole (self : t) : DmaBuf.t := DmaBuf.mk (cpu_base self) (dev_base self) (len self).
Definition mark (self : t) : Z := next self.
Definition release (m : Z) (self : t) : bool * t :=
  if next self <? m then (false, self)
  else (true, mk (cpu_base self) (dev_base self) (len self) m (hoechststand self)).
End DmaPool.

Inductive StromRichtung := NachGeraet | VomGeraet | Beide.
Definition map_single (pool : DmaPool.t) (cpu n : Z) (dir : StromRichtung) : option DmaBuf.t := DmaPool.map pool cpu n.

(** ** What a device can reach *)
Module SgEintrag.
Record t := mk { cpu : Z; len : Z }.
End SgEintrag.
Module GeraeteGrenzen.
Record t := mk { maske : Z; grenze : Z; max_seg : Z }.
End GeraeteGrenzen.
Module GrenzenFehler.
Inductive t :=
  Leer | Ueberlauf | MaskeVerletzt (dev len maske : Z) | GrenzeVerletzt (dev len grenze : Z) | SegmentZuGross (len max_seg : Z).
End GrenzenFehler.

Definition pruefe_grenzen (g : GeraeteGrenzen.t) (dev n : Z) : result unit GrenzenFehler.t :=
  if n =? 0 then Err GrenzenFehler.Leer
  else
    match checked_add 64 dev n with
    | None => Err GrenzenFehler.Ueberlauf
    | Some ende =>
      let letzte := ende - 1 in
      if GeraeteGrenzen.maske g <? letzte then Err (GrenzenFehler.MaskeVerletzt dev n (GeraeteGrenzen.maske g))
      else if negb (GeraeteGrenzen.grenze g =? 0) && negb (Z.land (Z.lxor dev letzte) (GeraeteGrenzen.grenze g) =? 0)
      then Err (GrenzenFehler.GrenzeVerletzt dev n (GeraeteGrenzen.grenze g))
      else if negb (GeraeteGrenzen.max_seg g =? 0) && (GeraeteGrenzen.max_seg g <? n)
      then Err (GrenzenFehler.SegmentZuGross n (GeraeteGrenzen.max_seg g))
      else Ok tt
    end.

(** [u64::trailing_zeros] of a number that is not 0. *)
Fixpoint trailing_zeros_pos (p : positive) : Z := match p with xO p => 1 + trailing_zeros_pos p | _ => 0 end.
Definition trailing_zeros (m : Z) : Z := match m with Z.pos p => trailing_zeros_pos p | _ => 64 end.

(** The loop over the bits of the mask, lowest first. *)
Fixpoint teile_loop (fuel : nat) (dev m erste : Z) : option Z :=
  match fuel with
  | O => None
  | S fuel =>
    if m =? 0 then Some erste
    else
      let schritt := Z.shiftl 1 (trailing_zeros m) in
      let rest := Z.land dev (schritt - 1) in
      let abstand := schritt - rest in
      let erste := if abstand <? erste then abstand else erste in
      if erste =? 1 then Some erste else teile_loop fuel dev (Z.land m (m - 1)) erste
  end.
(** The outer option is that of a loop that does not end, the inner one the answer. *)
Definition teile_an_grenze (dev n grenze : Z) : option (option Z) :=
  if n =? 0 then Some None
  else
    match checked_add 64 dev n with
    | None => Some None
    | Some _ =>
      if grenze =? 0 then Some (Some n)
      else (λ erste, Some (if erste <? n then erste else n)) <$> teile_loop 65 dev grenze n
    end.

(** The loop over the entries of the list, and the places of the answer. *)
Fixpoint map_sg_loop (pool : DmaPool.t) (g : GeraeteGrenzen.t) (i : nat) (sg : list SgEintrag.t) (raus : list (option DmaBuf.t)) :
    bool * list (option DmaBuf.t) :=
  match sg with
  | [] => (true, raus)
  | e :: sg =>
    match DmaPool.map pool (SgEintrag.cpu e) (SgEintrag.len e) with
    | None => (false, raus)
    | Some buf =>
      match pruefe_grenzen g (DmaBuf.dev buf) (DmaBuf.len buf) with
      | Err _ => (false, raus)
      | Ok _ => map_sg_loop pool g (S i) sg (<[i := Some buf]> raus)
      end
    end
  end.
Definition map_sg (pool : DmaPool.t) (sg : list SgEintrag.t) (raus : list (option DmaBuf.t)) (g : GeraeteGrenzen.t) :
    nat * list (option DmaBuf.t) :=
  if (length raus <? length sg)%nat then (0%nat, raus)
  else
    let '(ok, raus) := map_sg_loop pool g 0 sg raus in
    if ok then (length sg, take (length sg) raus ++ replicate (length raus - length sg) None)
    else (0%nat, replicate (length sg) None ++ drop (length sg) raus).

Module BounceSlot.
Record t := mk { buf : DmaBuf.t; marke : Z }.
End BounceSlot.
Definition bounce_einlagern (bedarf align : Z) (pool : DmaPool.t) : option BounceSlot.t * DmaPool.t :=
  let marke := DmaPool.mark pool in
  let '(b, pool) := DmaPool.alloc bedarf align pool in
  ((λ b, BounceSlot.mk b marke) <$> b, pool).
Definition bounce_freigeben (slot : BounceSlot.t) (pool : DmaPool.t) : bool * DmaPool.t := DmaPool.release (BounceSlot.marke slot) pool.

(** ** Large blocks *)
Definition SEITE : Z := 4096.
Module GrossDmaFehler.
Inductive t :=
  LaengeNull | NichtSeitenausgerichtet (len : Z) | Ueberlauf | GroesserAlsZone (angefordert zone : Z)
  | ZoneErschoepft (angefordert groesster_block : Z) | FreilisteVoll (fragmente kapazitaet : Z) | CapAbgewiesen
  | KeineUebersetzung | KeineGeraetesicht | Identitaet (pa iova : Z).
Definition ist_voruebergehend (e : t) : bool :=
  match e with ZoneErschoepft _ _ | FreilisteVoll _ _ => true | _ => false end.
End GrossDmaFehler.
Module Zone.
Record t := mk { lo : Z; hi : Z }.
Definition groesse (z : t) : Z := saturating_sub (hi z) (lo z).
End Zone.
Module Lage.
Record t := mk { groesster_block : Z; fragmente : Z; kapazitaet : Z }.
End Lage.

Definition klassifiziere (zone : Zone.t) (n : Z) (lage : Lage.t) : result unit GrossDmaFehler.t :=
  if n =? 0 then Err GrossDmaFehler.LaengeNull
  else if negb (n mod SEITE =? 0) then Err (GrossDmaFehler.NichtSeitenausgerichtet n)
  else
    match checked_add 64 (Zone.lo zone) n with
    | None => Err GrossDmaFehler.Ueberlauf
    | Some _ =>
      if Zone.groesse zone <? n then Err (GrossDmaFehler.GroesserAlsZone n (Zone.groesse zone))
      else if Lage.groesster_block lage <? n then Err (GrossDmaFehler.ZoneErschoepft n (Lage.groesster_block lage))
      else if Lage.kapazitaet lage <=? Lage.fragmente lage
      then Err (GrossDmaFehler.FreilisteVoll (Lage.fragmente lage) (Lage.kapazitaet lage))
      else Ok tt
    end.
Definition pruefe_achsen (pa iova : Z) : result unit GrossDmaFehler.t :=
  if iova =? 0 then Err GrossDmaFehler.KeineGeraetesicht
  else if iova =? pa then Err (GrossDmaFehler.Identitaet pa iova)
  else Ok tt.

Section suche.
Context {S : Type} (probe : Z → M S bool).
(** One unit of fuel for each call of the probe, and one for the last comparison. *)
Fixpoint suche_loop (fuel : nat) (lo hi : Z) : M S Z :=
  match fuel with
  | O => panic
  | Datatypes.S fuel =>
    if SEITE <? hi - lo then
      let mitte := Z.ldiff (lo + (hi - lo) / 2) (SEITE - 1) in
      b ← probe mitte;
      if b : bool then suche_loop fuel mitte hi else suche_loop fuel lo mitte
    else mret lo
  end.
Definition groesster_block_suche (fuel : nat) (zone_groesse : Z) : M S Z :=
  suche_loop fuel 0 (wrapping_add 64 (Z.ldiff zone_groesse (SEITE - 1)) SEITE).
End suche.

(** ** The search for the largest block *)
Section search.
Context {S : Type} (probe : Z → M S bool).
(** One question to the allocator, of any size and with any answer, and a question of size [n]
    that is answered [b] on the way from [s] to [s']. *)
Definition asked (s s' : S) : Prop := ∃ n b, probe n s = Some (b, s').
Definition answered (s : S) (n : Z) (b : bool) (s' : S) : Prop :=
  ∃ s1 s2, rtc asked s s1 ∧ probe n s1 = Some (b, s2) ∧ rtc asked s2 s'.
Lemma answered_later s n b s1 s2 : answered s n b s1 → rtc asked s1 s2 → answered s n b s2.
Proof. intros (t1 & t2 & H1 & H2 & H3) H. exists t1, t2. split_and!; [done|done|by etrans]. Qed.
Lemma answered_now s s1 n b s2 : rtc asked s s1 → probe n s1 = Some (b, s2) → answered s n b s2 ∧ rtc asked s1 s2.
Proof. intros H H1. split; [by exists s1, s2|]. apply rtc_once. by exists n, b. Qed.

Context (I : S → Prop).
Hypothesis probe_runs : ∀ n s, I s → wp (probe n) s (λ _ s', I s').

Lemma middle a c : a < c → Z.ldiff (4096 * a + (4096 * c - 4096 * a) / 2) (4096 - 1) = 4096 * (a + (c - a) / 2).
Proof.
  intros H. change (4096 - 1) with (Z.ones 12). rewrite Z.ldiff_ones_r, Z.shiftl_mul_pow2, Z.shiftr_div_pow2 by lia.
  change (2 ^ 12) with 4096. replace (4096 * c - 4096 * a) with (2048 * (c - a) * 2) by lia. rewrite Z.div_mul by done.
  pose proof (Z.div_mod (c - a) 2 ltac:(lia)). pose proof (Z.mod_pos_bound (c - a) 2 ltac:(lia)).
  pose proof (Z.div_mod (4096 * a + 2048 * (c - a)) 4096 ltac:(lia)). pose proof (Z.mod_pos_bound (4096 * a + 2048 * (c - a)) 4096 ltac:(lia)). lia.
Qed.
Lemma wp_suche_loop s0 k a c s : 0 <= a < c → c - a <= 2 ^ Z.of_nat k → rtc asked s0 s →
  (a = 0 ∨ answered s0 (4096 * a) true s) → I s →
  wp (suche_loop probe (k + 1) (4096 * a) (4096 * c)) s (λ r s', I s' ∧ rtc asked s s' ∧ ∃ p, r = 4096 * p ∧ a <= p < c ∧
    (p = 0 ∨ answered s0 (4096 * p) true s') ∧ (p + 1 = c ∨ answered s0 (4096 * (p + 1)) false s')).
Proof.
  revert a c s. induction k as [|k IH]; intros a c s Hac Hk Hr Ha Hs; cbn [Nat.add suche_loop]; change SEITE with 4096.
  - change (2 ^ Z.of_nat 0) with 1 in Hk. rewrite (proj2 (Z.ltb_ge _ _)) by lia. apply wp_ret. split; [done|].
    split; [done|]. exists a. split_and!; [done|lia|lia|done|left; lia].
  - destruct (Z.ltb_spec 4096 (4096 * c - 4096 * a)) as [Hgap|Hgap].
    2: { apply wp_ret. split; [done|]. split; [done|]. exists a. split_and!; [done|lia|lia|done|left; lia]. }
    rewrite Nat2Z.inj_succ, Z.pow_succ_r in Hk by lia. rewrite !middle by lia.
    pose proof (Z.div_mod (c - a) 2 ltac:(lia)). pose proof (Z.mod_pos_bound (c - a) 2 ltac:(lia)).
    set (h := (c - a) / 2) in *. wp_step. pose proof (probe_runs (4096 * (a + h)) s Hs) as Hq.
    unfold wp in Hq |- * at 1. destruct (probe (4096 * (a + h)) s) as [[b s1]|] eqn:Hb; [|done]. rename Hq into Hs1.
    destruct (answered_now s0 s _ b s1 Hr Hb) as [Hans Hnow].
    assert (rtc asked s0 s1) as Hr1 by (by etrans). destruct b.
    + eapply wp_mono; [apply IH; [lia|lia|done|by right|done]|]. cbn beta. intros r s2 (Hs2 & Hr2 & p & -> & Hp & H1 & H2).
      split; [done|]. split; [by etrans|]. exists p. split_and!; [done|lia|lia|done|done].
    + eapply wp_mono; [apply IH; [lia|lia|done| |done]|].
      { destruct Ha; [by left|right]. by eapply answered_later. }
      cbn beta. intros r s2 (Hs2 & Hr2 & p & -> & Hp & H1 & H2).
      split; [done|]. split; [by etrans|]. exists p. split_and!; [done|lia|lia|done|]. right.
      destruct H2 as [->|]; [by eapply answered_later|done].
Qed.
End search.

(** C24: The search for the largest block that can be had ends after at most one question more than
    the binary logarithm of the pages of the zone, whatever the allocator that is asked does to its
    state and however its answers depend on it, as long as every question returns; its answer is a
    whole number of pages inside the zone, and either nothing or a size the allocator said yes to
    in the course of the search; the next larger number of pages was refused in its course, or
    is larger than the zone; and when the answers follow a fixed rule under which whoever gives a
    block also gives every smaller one, no larger number of pages could have been had. *)
Theorem search_terminates {S} (probe : Z → M S bool) (I : S → Prop) zone s :
  0 <= zone < 2 ^ 64 - 4096 → (∀ n s, I s → wp (probe n) s (λ _ s', I s')) → I s →
  wp (groesster_block_suche probe (Z.to_nat (Z.log2 (zone / SEITE) + 1) + 1) zone) s (λ r s', I s' ∧
    (SEITE | r) ∧ 0 <= r <= zone ∧ (r = 0 ∨ answered probe s r true s') ∧
    (zone < r + SEITE ∨ answered probe s (r + SEITE) false s') ∧
    ∀ fits : Z → bool, (∀ n s1 b s2, rtc (asked probe) s s1 → probe n s1 = Some (b, s2) → b = fits n) →
      (∀ a b, 0 < a <= b → fits b = true → fits a = true) → ∀ n, (SEITE | n) → r < n <= zone → fits n = false).
Proof.
  intros Hz Hp Hs. unfold groesster_block_suche, wrapping_add. set (p := zone / 4096). change (zone / SEITE) with p.
  pose proof (Z.div_mod zone 4096 ltac:(lia)) as Hdm. pose proof (Z.mod_pos_bound zone 4096 ltac:(lia)) as Hmod. fold p in Hdm.
  assert (Z.ldiff zone (SEITE - 1) = 4096 * p) as ->.
  { change (SEITE - 1) with (Z.ones 12). rewrite Z.ldiff_ones_r, Z.shiftl_mul_pow2, Z.shiftr_div_pow2 by lia. change (2 ^ 12) with 4096. fold p. lia. }
  change SEITE with 4096. rewrite Z.mod_small by lia. replace (4096 * p + 4096) with (4096 * (p + 1)) by lia.
  pose proof (Z.log2_nonneg p). pose proof (wp_suche_loop probe I Hp s (Z.to_nat (Z.log2 p + 1)) 0 (p + 1) s) as H0. change (4096 * 0) with 0 in H0.
  eapply wp_mono; [apply H0; [lia| |done|by left|done]|].
  - rewrite Z2Nat.id by lia. destruct (decide (p = 0)) as [->|]; [done|]. destruct (Z.log2_spec p) as [_ Hl]; [lia|].
    rewrite <-Z.add_1_r in Hl. lia.
  - cbn beta. intros r s' (Hs' & _ & q & -> & Hq & H1 & H2). replace (4096 * q + 4096) with (4096 * (q + 1)) by lia.
    split_and!; [done|by exists q; lia|lia|lia|destruct H1 as [->|]; [by left|by right]|destruct H2; [left; lia|by right]|].
    intros fits Hfits Hanti n [k ->] Hn. destruct H2 as [Hq1|(s1 & s2 & Hr1 & Hno & _)]; [lia|].
    apply Hfits in Hno; [|done]. destruct (fits (k * 4096)) eqn:E; [|done].
    rewrite (Hanti (4096 * (q + 1)) (k * 4096)) in Hno; [done|lia|done].
Qed.

(** ** The next border of a device *)
Lemma trailing_zeros_spec p : ∃ q, 0 <= q ∧ 0 <= trailing_zeros_pos p ∧ Z.pos p = 2 ^ trailing_zeros_pos p * (2 * q + 1).
Proof.
  induction p as [p _|p (q & Hq & Ht & IH)|]; cbn [trailing_zeros_pos].
  - exists (Z.pos p). split; [lia|]. split; [lia|]. change (2 ^ 0) with 1. lia.
  - exists q. split; [done|]. split; [lia|]. rewrite Z.pow_add_r by lia. change (2 ^ 1) with 2. lia.
  - exists 0. split; [lia|]. split; [lia|done].
Qed.
(** Clearing the lowest bit. *)
Lemma land_pred_odd q : Z.land (2 * q + 1) (2 * q) = 2 * q.
Proof.
  apply Z.bits_inj'. intros i Hi. rewrite Z.land_spec. destruct (decide (i = 0)) as [->|].
  - rewrite Z.testbit_odd_0, Z.testbit_even_0. done.
  - replace i with (Z.succ (i - 1)) by lia. rewrite Z.testbit_odd_succ, Z.testbit_even_succ by lia. apply andb_diag.
Qed.
Lemma clear_lowest k q : 0 <= k → Z.land (2 ^ k * (2 * q + 1)) (2 ^ k * (2 * q + 1) - 1) = 2 ^ k * (2 * q).
Proof.
  intros Hk. assert (0 < 2 ^ k) as Hp by (apply Z.pow_pos_nonneg; lia).
  set (x := 2 ^ k * (2 * q + 1)). set (n := Z.land x (x - 1)).
  assert (n mod 2 ^ k = 0) as Hlow.
  { subst n. rewrite <-Z.land_ones by done. rewrite (Z.land_comm x), <-Z.land_assoc, (Z.land_ones x) by done.
    subst x. rewrite Z.mul_comm, Z.mod_mul by lia. apply Z.land_0_r. }
  assert (n / 2 ^ k = 2 * q) as Hhigh.
  { subst n. rewrite <-Z.shiftr_div_pow2, Z.shiftr_land, !Z.shiftr_div_pow2 by done. rewrite <-(land_pred_odd q). f_equal.
    - subst x. rewrite Z.mul_comm. by apply Z.div_mul; lia.
    - symmetry. apply (Z.div_unique _ _ _ (2 ^ k - 1)); [lia|]. subst x. lia. }
  pose proof (Z.div_mod n (2 ^ k) ltac:(lia)). lia.
Qed.

(** The distance from [dev] to the next number in which bit [k] has another value. *)
Definition abstand (dev k : Z) : Z := 2 ^ k - dev mod 2 ^ k.
Lemma abstand_pos dev k : 0 <= k → 1 <= abstand dev k.
Proof. intros Hk. unfold abstand. pose proof (Z.mod_pos_bound dev (2 ^ k) ltac:(apply Z.pow_pos_nonneg; lia)). lia. Qed.
Lemma abstand_keeps dev k x : 0 <= k → dev <= x < dev + abstand dev k → Z.testbit x k = Z.testbit dev k.
Proof.
  intros Hk Hx. unfold abstand in Hx. assert (0 < 2 ^ k) by (apply Z.pow_pos_nonneg; lia).
  pose proof (Z.div_mod dev (2 ^ k) ltac:(lia)). pose proof (Z.mod_pos_bound dev (2 ^ k) ltac:(lia)).
  assert (x / 2 ^ k = dev / 2 ^ k) as E by (symmetry; apply (Z.div_unique _ _ _ (x - 2 ^ k * (dev / 2 ^ k))); lia).
  rewrite !Z.testbit_odd, !Z.shiftr_div_pow2 by done. by rewrite E.
Qed.
Lemma abstand_flips dev k : 0 <= k → Z.testbit (dev + abstand dev k) k = negb (Z.testbit dev k).
Proof.
  intros Hk. unfold abstand. assert (0 < 2 ^ k) by (apply Z.pow_pos_nonneg; lia). pose proof (Z.div_mod dev (2 ^ k) ltac:(lia)).
  assert ((dev + (2 ^ k - dev mod 2 ^ k)) / 2 ^ k = dev / 2 ^ k + 1) as E by (symmetry; apply (Z.div_unique _ _ _ 0); lia).
  rewrite !Z.testbit_odd, !Z.shiftr_div_pow2 by done. rewrite E, Z.add_1_r, Z.odd_succ. by rewrite Z.negb_odd.
Qed.

(** The bits of a number are its lowest one and those left when it is cleared. *)
Lemma lowest_bits k q i : 0 <= k → 0 <= i → Z.testbit (2 ^ k * (2 * q + 1)) i = true ↔ i = k ∨ Z.testbit (2 ^ k * (2 * q)) i = true.
Proof.
  intros Hk Hi. rewrite !(Z.mul_comm (2 ^ k)), !Z.mul_pow2_bits by done. destruct (Z.lt_total i k) as [H|[->|H]].
  - rewrite !Z.testbit_neg_r by lia. split; [done|]. intros [|]; [lia|done].
  - rewrite Z.sub_diag, Z.testbit_odd_0, Z.testbit_even_0. split; [by left|done].
  - replace (i - k) with (Z.succ (i - k - 1)) by lia. rewrite Z.testbit_odd_succ, Z.testbit_even_succ by lia.
    split; [by right|]. intros [|]; [lia|done].
Qed.

Lemma teile_loop_step fuel dev m e : teile_loop (S fuel) dev m e =
  if m =? 0 then Some e
  else
    let schritt := Z.shiftl 1 (trailing_zeros m) in
    let e := if schritt - Z.land dev (schritt - 1) <? e then schritt - Z.land dev (schritt - 1) else e in
    if e =? 1 then Some e else teile_loop fuel dev (Z.land m (m - 1)) e.
Proof. done. Qed.
(** What the loop finds: the least of the length it starts from and the distances of the bits. *)
Lemma teile_loop_least fuel j dev m e : 0 <= j → (2 ^ j | m) → 0 <= m < 2 ^ (j + Z.of_nat fuel) → 1 <= e →
  ∃ r, teile_loop (S fuel) dev m e = Some r ∧ 1 <= r <= e ∧ (∀ k, 0 <= k → Z.testbit m k = true → r <= abstand dev k) ∧
  (r = e ∨ ∃ k, 0 <= k ∧ Z.testbit m k = true ∧ r = abstand dev k).
Proof.
  revert j m e. induction fuel as [|fuel IH]; intros j m e Hj Hdiv Hm He.
  { rewrite Z.add_0_r in Hm. assert (m = 0) as -> by (destruct Hdiv as [z ->]; assert (z = 0) as -> by nia; lia).
    exists e. split; [done|]. split; [lia|]. split; [|by left]. intros k _. by rewrite Z.bits_0. }
  rewrite teile_loop_step. cbv zeta. destruct (Z.eqb_spec m 0) as [->|Hm0].
  { exists e. split; [done|]. split; [lia|]. split; [|by left]. intros k _. by rewrite Z.bits_0. }
  destruct m as [|p|]; [done| |lia]. cbn [trailing_zeros]. destruct (trailing_zeros_spec p) as (q & Hq & Hk & Hp). set (k := trailing_zeros_pos p) in *.
  assert (0 < 2 ^ k) by (apply Z.pow_pos_nonneg; lia).
  assert (Z.shiftl 1 k - Z.land dev (Z.shiftl 1 k - 1) = abstand dev k) as ->.
  { rewrite Z.shiftl_1_l. replace (2 ^ k - 1) with (Z.ones k) by (rewrite Z.ones_equiv; lia). by rewrite Z.land_ones. }
  rewrite Hp, clear_lowest by done. pose proof (abstand_pos dev k Hk) as Hap.
  set (e' := if abstand dev k <? e then abstand dev k else e).
  assert (1 <= e' <= e ∧ e' <= abstand dev k ∧ (e' = e ∨ e' = abstand dev k)) as (He' & He'k & Hor).
  { subst e'. destruct (Z.ltb_spec (abstand dev k) e); (split; [lia|]); (split; [lia|]); [by right|by left]. }
  destruct (Z.eqb_spec e' 1) as [E|E].
  - exists e'. split; [done|]. split; [done|]. split.
    + intros i Hi _. pose proof (abstand_pos dev i Hi). lia.
    + destruct Hor as [->|Hor]; [by left|]. right. exists k. split; [done|]. split; [|done]. apply lowest_bits; [done..|by left].
  - assert (j <= k) as Hjk.
    { destruct Hdiv as [z Hz]. rewrite Hp in Hz. destruct (decide (j <= k)); [done|]. exfalso.
      replace j with (k + 1 + (j - k - 1)) in Hz by lia. rewrite !Z.pow_add_r in Hz by lia. change (2 ^ 1) with 2 in Hz.
      assert (2 * q + 1 = 2 * (z * 2 ^ (j - k - 1))) by nia. lia. }
    assert (0 <= 2 ^ k * q) by (apply Z.mul_nonneg_nonneg; lia). rewrite Hp in Hm.
    replace (j + Z.of_nat (S fuel)) with (j + 1 + Z.of_nat fuel) in Hm by lia.
    destruct (IH (j + 1) (2 ^ k * (2 * q)) e') as (r & -> & Hr & Hall & Hex); [lia| |lia|lia|].
    { exists (2 ^ (k - j) * q). replace (2 ^ k) with (2 ^ (k - j) * 2 ^ j) by (rewrite <-Z.pow_add_r by lia; f_equal; lia).
      rewrite Z.pow_add_r by lia. lia. }
    exists r. split; [done|]. split; [lia|]. split.
    + intros i Hi Hb. apply lowest_bits in Hb as [->|Hb]; [lia|by apply Hall|done|done].
    + destruct Hex as [->|(i & Hi & Hb & ->)].
      * destruct Hor as [->|Hor]; [by left|]. right. exists k. split; [done|]. split; [|done]. apply lowest_bits; [done..|by left].
      * right. exists i. split; [done|]. split; [|done]. apply lowest_bits; [done..|by right].
Qed.

(** Whether two addresses agree in the bits of a mask. *)
Lemma mask_agree a b g : Z.land (Z.lxor a b) g = 0 ↔ ∀ k, 0 <= k → Z.testbit g k = true → Z.testbit a k = Z.testbit b k.
Proof.
  split.
  - intros H k Hk Hg. apply (f_equal (λ z, Z.testbit z k)) in H. rewrite Z.land_spec, Z.lxor_spec, Hg, andb_true_r, Z.bits_0 in H. by apply xorb_eq.
  - intros H. apply Z.bits_inj'. intros k Hk. rewrite Z.land_spec, Z.lxor_spec, Z.bits_0. destruct (Z.testbit g k) eqn:E; [|apply andb_false_r].
    rewrite (H k Hk E), andb_true_r. apply xorb_nilpotent.
Qed.

(** The cut of a piece at the borders of a device always answers within its 64 bits: a piece of
    length 0 and one that leaves the address space get no answer; every other gets a length of at
    least one byte and at most the piece's own, the bytes up to it lie on one side of every border
    the mask asks for, and if the piece is cut, the very next byte lies beyond a border. *)
Theorem split_exact dev n grenze : in_width 64 dev → in_width 64 n → in_width 64 grenze →
  if (n =? 0) || (2 ^ 64 <=? dev + n) then teile_an_grenze dev n grenze = Some None
  else ∃ r, teile_an_grenze dev n grenze = Some (Some r) ∧ 1 <= r <= n ∧
    (∀ x, dev <= x < dev + r → Z.land (Z.lxor dev x) grenze = 0) ∧
    (r < n → Z.land (Z.lxor dev (dev + r)) grenze ≠ 0).
Proof.
  intros Hd Hn Hg. unfold in_width in *. unfold teile_an_grenze, checked_add. destruct (Z.eqb_spec n 0) as [->|Hn0]; [done|]. cbn [orb].
  destruct (Z.leb_spec (2 ^ 64) (dev + n)) as [H|H]; [by rewrite (proj2 (Z.ltb_ge _ _))|]. rewrite (proj2 (Z.ltb_lt _ _)) by done.
  destruct (Z.eqb_spec grenze 0) as [->|Hg0].
  { exists n. split; [done|]. split; [lia|]. split; [intros x _; apply Z.land_0_r|lia]. }
  destruct (teile_loop_least 64 0 dev grenze n) as (r & -> & Hr & Hall & Hex); [done|apply Z.divide_1_l|lia|lia|].
  assert ((if r <? n then r else n) = r) as Er by (destruct (Z.ltb_spec r n); lia).
  exists r. cbn [fmap option_fmap option_map]. rewrite Er. split; [done|]. split; [done|]. split.
  - intros x Hx. apply mask_agree. intros k Hk Hb. symmetry. apply abstand_keeps; [done|]. specialize (Hall k Hk Hb). lia.
  - intros Hrn Heq. destruct Hex as [->|(k & Hk & Hb & ->)]; [lia|]. rewrite mask_agree in Heq. specialize (Heq k Hk Hb).
    rewrite abstand_flips in Heq by done. by destruct (Z.testbit dev k).
Qed.

(** ** The pieces of a pool *)
Section pool.
Variables (c d n : Z).

(** A piece lies in the pool, at the same offset for processor and device. *)
Definition piece (b : DmaBuf.t) : Prop :=
  ∃ off, 0 <= off ∧ 0 <= DmaBuf.len b ∧ off + DmaBuf.len b <= n ∧ DmaBuf.cpu b = c + off ∧ DmaBuf.dev b = d + off.
Definition dev_span (b : DmaBuf.t) : span := (DmaBuf.dev b, DmaBuf.len b).
Definition pool_ok (p : DmaPool.t) : Prop :=
  DmaPool.cpu_base p = c ∧ DmaPool.dev_base p = d ∧ DmaPool.len p = n ∧ 0 <= DmaPool.next p <= n ∧
  0 <= c ∧ 0 <= d ∧ 0 < n ∧ c + n < 2 ^ 64 ∧ d + n < 2 ^ 64 ∧ c ≠ d.

Lemma new_ok p : in_width 64 c → in_width 64 d → in_width 64 n → DmaPool.new c d n = Ok p → pool_ok p ∧ DmaPool.next p = 0.
Proof.
  unfold in_width, DmaPool.new, checked_add. intros Hc Hd Hn. destruct (Z.eqb_spec n 0); [done|]. destruct (Z.eqb_spec d 0); [done|].
  destruct (Z.eqb_spec c d); [done|]. destruct (Z.ltb_spec (c + n) (2 ^ 64)); [|done]. destruct (Z.ltb_spec (d + n) (2 ^ 64)); [|done].
  intros [= <-]. split; [|done]. unfold pool_ok. cbn. split_and!; done || lia.
Qed.
Lemma alloc_piece p k align b p' : pool_ok p → 0 <= k → 0 <= align < 2 ^ 64 → DmaPool.alloc k align p = (Some b, p') →
  pool_ok p' ∧ piece b ∧ DmaBuf.len b = k ∧ 0 < k ∧ d + DmaPool.next p <= DmaBuf.dev b ∧ DmaBuf.dev b + k = d + DmaPool.next p' ∧
  (align | DmaBuf.dev b - d).
Proof.
  intros (E1 & E2 & E3 & Hx & Hc & Hd & Hn & Hcn & Hdn & Hne) Hk Ha. unfold DmaPool.alloc, checked_add.
  destruct (Z.eqb_spec k 0); [done|]. destruct (Z.eqb_spec align 0); [done|]. cbn [orb]. destruct (is_power_of_two align) eqn:Ep; [|done]. cbn [negb].
  apply is_power_of_two_exp in Ep. set (a := Z.log2 align) in *. assert (0 <= a) by apply Z.log2_nonneg.
  destruct (Z.ltb_spec (DmaPool.next p + (align - 1)) (2 ^ 64)) as [Hs1|]; [|done].
  assert (Z.ldiff (DmaPool.next p + (align - 1)) (align - 1) = align * ((DmaPool.next p + (align - 1)) / align)) as ->.
  { rewrite Ep. replace (2 ^ a - 1) with (Z.ones a) by (rewrite Z.ones_equiv; lia).
    rewrite Z.ldiff_ones_r, Z.shiftl_mul_pow2, Z.shiftr_div_pow2 by done. lia. }
  pose proof (Z.div_mod (DmaPool.next p + (align - 1)) align ltac:(lia)). pose proof (Z.mod_pos_bound (DmaPool.next p + (align - 1)) align ltac:(lia)).
  set (off := align * ((DmaPool.next p + (align - 1)) / align)) in *.
  destruct (Z.ltb_spec (off + k) (2 ^ 64)) as [Hs2|]; [|done]. destruct (Z.ltb_spec (DmaPool.len p) (off + k)) as [|Hs3]; [done|].
  intros [= <- <-]. unfold wrapping_add. rewrite E1, E2, E3 in *. rewrite !Z.mod_small by lia. unfold pool_ok, piece. cbn. split_and!; try done; try lia.
  - exists off. split_and!; lia.
  - replace (d + off - d) with off by lia. apply Z.divide_factor_l.
Qed.
Lemma map_piece p a k b : pool_ok p → 0 <= a → 0 <= k → DmaPool.map p a k = Some b ↔
  c <= a ∧ a + k <= c + n ∧ b = DmaBuf.mk a (d + (a - c)) k.
Proof.
  intros (E1 & E2 & E3 & Hx & Hc & Hd & Hn & Hcn & Hdn & Hne) Ha Hk. unfold DmaPool.map, checked_add. rewrite E1, E2, E3.
  destruct (Z.ltb_spec a c); [split; [done|lia]|]. destruct (Z.ltb_spec (a - c + k) (2 ^ 64)); cbn [mbind option_bind]; [|split; [done|lia]].
  destruct (Z.ltb_spec n (a - c + k)); [split; [done|lia]|]. unfold wrapping_add. rewrite Z.mod_small by lia.
  split; [intros [= <-]|intros (_ & _ & ->); done]. split_and!; done || lia.
Qed.
Lemma sub_piece b off k s : piece b → 0 <= off → 0 <= k → DmaBuf.sub b off k = Some s → piece s ∧
  DmaBuf.cpu s = DmaBuf.cpu b + off ∧ DmaBuf.len s = k ∧ off + k <= DmaBuf.len b.
Proof.
  intros (o & H1 & H2 & H3 & H4 & H5) Ho Hk. unfold DmaBuf.sub, checked_add. destruct (off + k <? 2 ^ 64); [|done]. cbn [mbind option_bind].
  destruct (Z.ltb_spec (DmaBuf.len b) (off + k)); [done|].
  destruct (DmaBuf.cpu b + off <? 2 ^ 64); [|done]. cbn [mbind option_bind]. destruct (DmaBuf.dev b + off <? 2 ^ 64); [|done]. cbn [mbind option_bind].
  intros [= <-]. cbn. split; [|split_and!; done || lia]. exists (o + off). cbn. split_and!; lia.
Qed.
Definition all_pieces (l : list (option DmaBuf.t)) : Prop := ∀ i b, l !! i = Some (Some b) → piece b.
Definition sg_ok (e : SgEintrag.t) : Prop := 0 <= SgEintrag.cpu e ∧ 0 <= SgEintrag.len e.
Lemma map_sg_loop_pieces p g i sg raus : pool_ok p → Forall sg_ok sg → all_pieces raus →
  all_pieces (map_sg_loop p g i sg raus).2 ∧ length (map_sg_loop p g i sg raus).2 = length raus.
Proof.
  intros Hp Hsg. revert i raus. induction Hsg as [|e sg [He1 He2] _ IH]; intros i raus Hr; cbn [map_sg_loop]; [done|].
  destruct (DmaPool.map p _ _) as [b|] eqn:Em; [|done]. apply map_piece in Em as (H1 & H2 & ->); [|done..].
  destruct (pruefe_grenzen _ _ _); [|done]. rewrite <-(length_insert raus i (Some (DmaBuf.mk (SgEintrag.cpu e) (d + (SgEintrag.cpu e - c)) (SgEintrag.len e)))).
  apply IH. intros j b Hj. apply list_lookup_insert_Some in Hj as [(-> & [= <-] & _)|[_ Hj]]; [|by eapply Hr].
  exists (SgEintrag.cpu e - c). cbn. split_and!; lia.
Qed.
Lemma map_sg_pieces p sg raus g k raus' : pool_ok p → Forall sg_ok sg → all_pieces raus → map_sg p sg raus g = (k, raus') → all_pieces raus'.
Proof.
  intros Hp Hsg Hr. unfold map_sg. destruct (_ <? _)%nat; [by intros [= <- <-]|].
  destruct (map_sg_loop_pieces p g 0 sg raus Hp Hsg Hr) as [Ha Hl]. destruct (map_sg_loop p g 0 sg raus) as [ok raus2]. cbn in Ha, Hl.
  destruct ok; intros [= <- <-] i b Hi.
  - apply lookup_app_Some in Hi as [Hi|[_ Hi]]; [|by apply lookup_replicate in Hi as [? _]]. apply lookup_take_Some in Hi as [Hi _]. by eapply Ha.
  - apply lookup_app_Some in Hi as [Hi|[_ Hi]]; [by apply lookup_replicate in Hi as [? _]|]. rewrite lookup_drop in Hi. by eapply Ha.
Qed.
End pool.

(** A driver: its pool, the allocations it has not given back, and every piece it was ever given. *)
Record driver := mkDriver { d_pool : DmaPool.t; d_live : list DmaBuf.t; d_known : list DmaBuf.t }.
Definition below (p : DmaPool.t) (m : Z) (b : DmaBuf.t) : Prop := DmaBuf.dev b - DmaPool.dev_base p + DmaBuf.len b <= m.
#[global] Instance below_dec p m b : Decision (below p m b).
Proof. unfold below. apply _. Defined.
Inductive dstep : driver → driver → Prop :=
| ds_alloc w k align b p' : 0 <= k → in_width 64 align → DmaPool.alloc k align (d_pool w) = (Some b, p') →
    dstep w (mkDriver p' (b :: d_live w) (b :: d_known w))
| ds_bounce w k align s p' : 0 <= k → in_width 64 align → bounce_einlagern k align (d_pool w) = (Some s, p') →
    dstep w (mkDriver p' (BounceSlot.buf s :: d_live w) (BounceSlot.buf s :: d_known w))
| ds_map w a k dir b : 0 <= a → 0 <= k → map_single (d_pool w) a k dir = Some b → dstep w (mkDriver (d_pool w) (d_live w) (b :: d_known w))
| ds_sub w b off k s : b ∈ d_known w → 0 <= off → 0 <= k → DmaBuf.sub b off k = Some s → dstep w (mkDriver (d_pool w) (d_live w) (s :: d_known w))
| ds_whole w : dstep w (mkDriver (d_pool w) (d_live w) (DmaPool.whole (d_pool w) :: d_known w))
| ds_sg w sg raus g k raus' : Forall sg_ok sg → (∀ i b, raus !! i = Some (Some b) → b ∈ d_known w) → map_sg (d_pool w) sg raus g = (k, raus') →
    dstep w (mkDriver (d_pool w) (d_live w) (omap id raus' ++ d_known w))
| ds_release w m p' : 0 <= m → DmaPool.release m (d_pool w) = (true, p') →
    dstep w (mkDriver p' (filter (below (d_pool w) m) (d_live w)) (d_known w)).

Definition dinv c d n (w : driver) : Prop :=
  pool_ok c d n (d_pool w) ∧ Forall (piece c d n) (d_known w) ∧ apart (dev_span <$> d_live w) ∧
  Forall (λ b, below (d_pool w) (DmaPool.next (d_pool w)) b ∧ 0 < DmaBuf.len b) (d_live w) ∧ (∀ b, b ∈ d_live w → b ∈ d_known w).
Lemma dinv_alloc c d n w k align b p' : dinv c d n w → 0 <= k → in_width 64 align → DmaPool.alloc k align (d_pool w) = (Some b, p') →
  dinv c d n (mkDriver p' (b :: d_live w) (b :: d_known w)).
Proof.
  intros (Hp & Hk & Ha & Hb & Hi) H1 H2 E. destruct (alloc_piece c d n _ _ _ _ _ Hp H1 H2 E) as (Hp' & Hpc & Hl & Hk0 & H3 & H4 & _).
  pose proof Hp as (_ & E2 & _). pose proof Hp' as (_ & E2' & _). unfold dinv, below in *. cbn. rewrite E2, E2' in *. split_and!; [done|by constructor| | | |].
  - apply Forall_fmap. eapply Forall_impl; [exact Hb|]. intros x [Hx _]. unfold disj, dev_span. cbn. lia.
  - done.
  - constructor; [lia|]. eapply Forall_impl; [exact Hb|]. cbn. intros x [Hx Hx2]. lia.
  - intros x. rewrite !elem_of_cons. naive_solver.
Qed.
Lemma dinv_know c d n w l : dinv c d n w → Forall (piece c d n) l → dinv c d n (mkDriver (d_pool w) (d_live w) (l ++ d_known w)).
Proof.
  intros (Hp & Hk & Ha & Hb & Hi) Hl. split_and!; try done; cbn; [by apply Forall_app|]. intros b Hin. apply elem_of_app. right. by apply Hi.
Qed.
Lemma apart_filter {A} (f : A → span) (P : A → Prop) `{∀ x, Decision (P x)} l : apart (f <$> l) → apart (f <$> filter P l).
Proof.
  induction l as [|x l IH]; [done|]. rewrite filter_cons. cbn. intros [Hx Hl]. destruct (decide (P x)); [|by apply IH].
  cbn. split; [|by apply IH]. rewrite Forall_fmap, Forall_forall in *. intros y Hy. apply list_elem_of_filter in Hy as [_ Hy]. by apply Hx.
Qed.
Lemma dinv_step c d n w w' : dinv c d n w → dstep w w' → dinv c d n w'.
Proof.
  intros I Hs. pose proof I as (Hp & Hk & Ha & Hb & Hi). rewrite Forall_forall in Hk.
  destruct Hs as [w k align b p' H1 H2 E|w k align s p' H1 H2 E|w a k dir b H1 H2 E|w b off k s H1 H2 H3 E|w|w sg raus g k raus' H1 H2 E|w m p' H1 E].
  - by eapply dinv_alloc.
  - unfold bounce_einlagern in E. destruct (DmaPool.alloc k align (d_pool w)) as [[b|] p] eqn:Ea; [|done]. injection E as <- <-. by eapply dinv_alloc.
  - apply (dinv_know _ _ _ _ [b]); [done|]. constructor; [|constructor]. apply (map_piece c d n) in E as (E1 & E2 & ->); [|done..].
    exists (a - c). cbn. split_and!; lia.
  - apply (dinv_know _ _ _ _ [s]); [done|]. constructor; [|constructor]. eapply sub_piece; [by apply Hk|..|done]; done.
  - apply (dinv_know _ _ _ _ [_]); [done|]. constructor; [|constructor]. destruct Hp as (E1 & E2 & E3 & Hp). exists 0. cbn. rewrite E1, E2, E3. split_and!; lia.
  - apply dinv_know; [done|]. apply Forall_forall. intros b Hin. apply omap_member in Hin as [i Hin].
    eapply (map_sg_pieces c d n); [done|done| |done|done]. intros j x Hx. apply Hk. by eapply H2.
  - unfold DmaPool.release in E. destruct (Z.ltb_spec (DmaPool.next (d_pool w)) m) as [|Hm]; [done|]. injection E as <-.
    destruct Hp as (E1 & E2 & E3 & Hp). unfold dinv. cbn. split_and!.
    + unfold pool_ok. cbn. split_and!; try done; lia.
    + by apply Forall_forall.
    + by apply apart_filter.
    + rewrite Forall_forall in *. intros b Hin. apply list_elem_of_filter in Hin as [Hbl Hin]. destruct (Hb b Hin). done.
    + intros b Hin. apply list_elem_of_filter in Hin as [_ Hin]. by apply Hi.
Qed.

(** C11: A pool is made exactly of a region that is not empty, has a view of the device other than
    that of the processor, and ends inside the address space on both; then, whatever a driver
    allocates, cuts out, maps, maps as a scatter list, bounces and gives back, every piece it is ever
    given lies in the pool at the same offset for processor and device (which are never the same
    address), the allocations not given back share no byte, and an address is mapped for the device
    exactly when the piece lies in the pool. *)
Theorem pool_confined c d n :
  in_width 64 c → in_width 64 d → in_width 64 n →
  (is_ok (DmaPool.new c d n) = true ↔ n ≠ 0 ∧ d ≠ 0 ∧ c ≠ d ∧ c + n < 2 ^ 64 ∧ d + n < 2 ^ 64) ∧
  ∀ p w, DmaPool.new c d n = Ok p → rtc dstep (mkDriver p [] []) w →
    (∀ b, b ∈ d_known w → ∃ off, 0 <= off ∧ 0 <= DmaBuf.len b ∧ off + DmaBuf.len b <= n ∧
      DmaBuf.cpu b = c + off ∧ DmaBuf.dev b = d + off ∧ DmaBuf.cpu b ≠ DmaBuf.dev b) ∧
    apart ((λ b, (DmaBuf.dev b, DmaBuf.len b)) <$> d_live w) ∧
    (∀ a k, 0 <= a → 0 <= k → is_Some (DmaPool.map (d_pool w) a k) ↔ c <= a ∧ a + k <= c + n).
Proof.
  intros Hc Hd Hn. split.
  - unfold DmaPool.new, checked_add, is_ok. destruct (Z.eqb_spec n 0); [naive_solver|]. destruct (Z.eqb_spec d 0); [naive_solver|].
    destruct (Z.eqb_spec c d); [naive_solver|]. destruct (Z.ltb_spec (c + n) (2 ^ 64)); [|split; [done|lia]].
    destruct (Z.ltb_spec (d + n) (2 ^ 64)); [|split; [done|lia]]. done.
  - intros p w E Hw. destruct (new_ok c d n p Hc Hd Hn E) as [Hp Hx].
    assert (dinv c d n w) as I.
    { assert (dinv c d n (mkDriver p [] [])) as I by (split_and!; cbn; try done; by intros b ?%elem_of_nil). clear Hc Hd Hn E Hp Hx.
      induction Hw as [|w1 w2 w3 Hs _ IH]; [done|]. by apply IH, (dinv_step c d n w1). }
    destruct I as (Hp' & Hk & Ha & _ & _). split_and!.
    + intros b Hb. rewrite Forall_forall in Hk. destruct (Hk b Hb) as (off & H1 & H2 & H3 & H4 & H5). exists off. split_and!; try done.
      destruct Hp as (_ & _ & _ & _ & _ & _ & _ & _ & _ & Hne). lia.
    + done.
    + intros a k H1 H2. split; [intros [b Hb]; apply (map_piece c d n) in Hb; [|done..]; naive_solver|].
      intros [H3 H4]. eexists. by apply (map_piece c d n).
Qed.

(** ** Concrete pools and devices *)

(** An allocator that gives up to 100 pages and writes down what it is asked, and one that says yes
    to the first two questions only: its answers follow its state and no rule of the size. *)
Definition demo_probe (k : Z) : M (list Z) bool := λ log, Some (k <=? 100 * 4096, k :: log).
Definition tired_probe (k : Z) : M (list Z) bool := λ log, Some (bool_decide (length log < 2)%nat, k :: log).
Lemma search_terminates_witness :
  wp (groesster_block_suche demo_probe 19 (1008 * 2 ^ 20)) [] (λ r _, ∀ n, (SEITE | n) → r < n <= 1008 * 2 ^ 20 → (n <=? 100 * 4096) = false) ∧
  option_map (λ x, (x.1, length x.2)) (groesster_block_suche demo_probe 19 (1008 * 2 ^ 20) []) = Some (100 * 4096, 18%nat) ∧
  wp (groesster_block_suche tired_probe 19 (1008 * 2 ^ 20)) [] (λ r log, r = 0 ∨ answered tired_probe [] r true log) ∧
  option_map (λ x, (x.1, length x.2)) (groesster_block_suche tired_probe 19 (1008 * 2 ^ 20) []) = Some (756 * 2 ^ 20, 17%nat).
Proof.
  split_and!; [|by vm_compute| |by vm_compute].
  - eapply wp_mono; [apply (search_terminates demo_probe (λ _, True) (1008 * 2 ^ 20)); [lia| |done]|].
    { done. }
    cbn beta. intros r log (_ & _ & _ & _ & _ & H). apply (H (λ k, k <=? 100 * 4096)); [intros n s1 b s2 _ Hb; by injection Hb|].
    intros a b Hab. rewrite !Z.leb_le. lia.
  - eapply wp_mono; [apply (search_terminates tired_probe (λ _, True) (1008 * 2 ^ 20)); [lia| |done]|].
    { done. }
    cbn beta. by intros r log (_ & _ & _ & H & _).
Defined.

(** A piece across a border of 64 KiB is cut there. *)
Lemma split_exact_witness :
  teile_an_grenze 0x1fff0 0x100 0xffff0000 = Some (Some 16) ∧
  ∃ r, teile_an_grenze 0x1fff0 0x100 0xffff0000 = Some (Some r) ∧ 1 <= r <= 0x100.
Proof.
  split; [by vm_compute|]. destruct (split_exact 0x1fff0 0x100 0xffff0000) as (r & E & H & _); [unfold in_width; lia..|].
  exists r. split; [exact E|exact H].
Defined.

Definition demo_pool : DmaPool.t := DmaPool.mk 0x40000000 0x100000000 0x10000 0 0.
Lemma pool_run : ∃ w, rtc dstep (mkDriver demo_pool [] []) w ∧ length (d_live w) = 1%nat ∧ length (d_known w) = 4%nat.
Proof.
  eexists. split.
  - eapply rtc_l; [eapply (ds_alloc (mkDriver demo_pool [] []) 100 64); [done|done|by vm_compute]|].
    eapply rtc_l; [eapply (ds_bounce _ 512 4096); [done|done|by vm_compute]|].
    eapply rtc_l; [eapply (ds_map _ 0x40000010 16 VomGeraet); [done|done|by vm_compute]|].
    eapply rtc_l; [eapply (ds_sub _ (DmaBuf.mk 0x40000000 0x100000000 100) 8 4); [set_solver|done|done|by vm_compute]|].
    eapply rtc_l; [eapply (ds_release _ 100); [done|by vm_compute]|]. apply rtc_refl.
  - done.
Qed.
Lemma pool_confined_witness : ∃ w, rtc dstep (mkDriver demo_pool [] []) w ∧ length (d_live w) = 1%nat ∧
  ∀ b, b ∈ d_known w → ∃ off, 0 <= off ∧ 0 <= DmaBuf.len b ∧ off + DmaBuf.len b <= 0x10000 ∧
    DmaBuf.cpu b = 0x40000000 + off ∧ DmaBuf.dev b = 0x100000000 + off ∧ DmaBuf.cpu b ≠ DmaBuf.dev b.
Proof.
  destruct pool_run as (w & Hw & Hl & _). exists w. split; [done|]. split; [done|].
  destruct (pool_confined 0x40000000 0x100000000 0x10000) as [_ H]; [unfold in_width; lia..|].
  by apply (H demo_pool w).
Defined.

(** The alignment asked for holds of the offset in the pool, not of the addresses. *)
Lemma aligned_offset_only : ∃ p b p', DmaPool.new 0x1000 0x100001000 0x10000 = Ok p ∧
  DmaPool.alloc 16 0x2000 p = (Some b, p') ∧ ~ (0x2000 | DmaBuf.dev b) ∧ ~ (0x2000 | DmaBuf.cpu b).
Proof. do 3 eexists. split; [by vm_compute|]. split; [by vm_compute|]. split; intros [z Hz]; cbn in Hz; lia. Qed.
(** A failed [map_sg] leaves the answers behind the list as they were. *)
Lemma map_sg_keeps_old b : map_sg demo_pool [SgEintrag.mk 0x1000 8] [None; Some b] (GeraeteGrenzen.mk (max_value 64) 0 0) = (0%nat, [None; Some b]).
Proof. done. Qed.
