(* ===== verification/Wait.v ===== *)
(** * Waiting without the kernel

    [src/crates/caprock-wait/src/lib.rs] and [timeout.rs]: wait queues, mutex, completion, timer wheel,
    work queue, and waiting with a deadline, for the threads of one domain.  The kernel's part is the
    class [Park]: a mark for each thread, which [unpark] always leaves and [park] uses up.  The mutex
    is also a machine of interleaving threads, in which the check and the parking of one [lock_schritt]
    are two steps. *)

From S2P Require Import Prelude.
From S2P Require Import PanicMonad.
From stdpp Require Import gmap.
#[local] Open Scope Z_scope.

Definition Tid : Type := Z.
(** The contract with the kernel.  [park] returns when a mark is there; what other threads do
    meanwhile is the world's. *)
Class Park (W : Type) := { me : W → Tid; park : M W unit; unpark : Tid → M W unit }.
(** [true] is woken, [false] is the end of the time. *)
Class TimeoutPark (W : Type) `{!Park W} := { park_timeout : Z → M W bool }.
Class Clock (W : Type) := { hz : W → Z; now : W → Z }.

(** A mutex, completion or queue that the threads of a domain share is a cell of the world: between
    [park] and its return the others use it. *)
Class Cell (W T : Type) := { load : W → T; store : T → W → W }.
Definition update {W T A} `{!Cell W T} (f : T → A * T) : M W A := λ w, let '(a, t) := f (load w) in Some (a, store t w).

Definition WARTEPLAETZE : nat := 32.
Inductive LockError := KeinWarteplatz | SelbstDeadlock.

(** ** Wait queues

    The first [n] places of the array are the list [tids]. *)
Module WaitQueue.
Record t := mk { tids : list Tid; abgewiesen : Z }.
Definition new : t := mk [] 0.
Definition push (x : Tid) (q : t) : bool * t :=
  if (WARTEPLAETZE <=? length (tids q))%nat then (false, mk (tids q) (wrapping_add 32 (abgewiesen q) 1))
  else (true, mk (tids q ++ [x]) (abgewiesen q)).
Definition pop (q : t) : option Tid * t :=
  match tids q with [] => (None, q) | x :: l => (Some x, mk l (abgewiesen q)) end.
Definition len (q : t) : nat := length (tids q).
Definition is_empty (q : t) : bool := match tids q with [] => true | _ => false end.
(** [timeout.rs]: all entries of a thread are taken out; [rest] are those kept so far. *)
Fixpoint entfernen_loop (x : Tid) (l rest : list Tid) (gefunden : bool) : bool * list Tid :=
  match l with
  | [] => (gefunden, rest)
  | y :: l => if y =? x then entfernen_loop x l rest true else entfernen_loop x l (rest ++ [y]) gefunden
  end.
Definition entfernen (x : Tid) (q : t) : bool * t :=
  let '(gefunden, rest) := entfernen_loop x (tids q) [] false in (gefunden, mk rest (abgewiesen q)).

Section wake.
Context {W : Type} `{!Park W}.
(** The loop of [wake_all]; the queue is its own measure. *)
Fixpoint wake_each (l : list Tid) (n : nat) : M W nat :=
  match l with [] => mret n | x :: l => unpark x ≫= λ _, wake_each l (S n) end.
Definition wake_all (q : t) : M W (nat * t) :=
  n ← wake_each (tids q) 0; mret (n, mk [] (abgewiesen q)).
Definition wake_one (q : t) : M W (bool * t) :=
  match pop q with
  | (Some x, q) => unpark x ≫= λ _, mret (true, q)
  | (None, q) => mret (false, q)
  end.
End wake.
End WaitQueue.

(** ** Mutex *)
Module Mutex.
Record t := mk { gesperrt : bool; inhaber : Tid; warten : WaitQueue.t }.
Definition new : t := mk false 0 WaitQueue.new.

Definition try_lock (ich : Tid) (m : t) : bool * t :=
  if gesperrt m then (false, m) else (true, mk true ich (warten m)).
(** [lock_schritt] up to the parking: an answer, or [None] when the caller has to park. *)
Definition pruefen (ich : Tid) (m : t) : option (result bool LockError) * t :=
  if gesperrt m then
    if inhaber m =? ich then (Some (Err SelbstDeadlock), m)
    else
      let '(ok, q) := WaitQueue.push ich (warten m) in
      let m := mk (gesperrt m) (inhaber m) q in
      if ok then (None, m) else (Some (Err KeinWarteplatz), m)
  else (Some (Ok true), mk true ich (warten m)).
(** [unlock] up to the waking: whether the caller held the lock, and whom to wake. *)
Definition freigeben (ich : Tid) (m : t) : bool * option Tid * t :=
  if negb (gesperrt m) || negb (inhaber m =? ich) then (false, None, m)
  else let '(x, q) := WaitQueue.pop (warten m) in (true, x, mk false 0 q).

Section ops.
Context {W : Type} `{!Park W, !Cell W t}.
Definition lock_schritt : M W (result bool LockError) :=
  ich ← gets me;
  r ← update (pruefen ich);
  match r with Some r => mret r | None => park ≫= λ _, mret (Ok false) end.
Definition unlock : M W bool :=
  ich ← gets me;
  '(ok, x) ← update (freigeben ich);
  match x with Some x => unpark x ≫= λ _, mret (ok : bool) | None => mret ok end.
End ops.
End Mutex.

(** ** Completion *)
Module Completion.
Record t := mk { fertig : Z; warten : WaitQueue.t }.
Definition new : t := mk 0 WaitQueue.new.
(** [warten_schritt] up to the parking: an answer, or [None] when the caller has to park. *)
Definition pruefen (ich : Tid) (c : t) : option (result bool LockError) * t :=
  if 0 <? fertig c then (Some (Ok true), mk (fertig c - 1) (warten c))
  else
    let '(ok, q) := WaitQueue.push ich (warten c) in
    (if ok then None else Some (Err KeinWarteplatz), mk (fertig c) q).
Definition austragen (ich : Tid) (c : t) : unit * t := (tt, mk (fertig c) (WaitQueue.entfernen ich (warten c)).2).
Section ops.
Context {W : Type} `{!Park W, !Cell W t}.
Definition complete : M W nat :=
  c ← gets load;
  '(n, q) ← WaitQueue.wake_all (warten c);
  update (λ _, (n, mk (saturating_add 32 (fertig c) 1) q)).
Definition warten_schritt : M W (result bool LockError) :=
  ich ← gets me;
  r ← update (pruefen ich);
  match r with Some r => mret r | None => park ≫= λ _, mret (Ok false) end.
End ops.
End Completion.

(** ** Time *)
Definition msecs_to_jiffies (ms hz : Z) : Z :=
  match checked_mul 64 ms hz with Some v => v / 1000 | None => max_value 64 end.
Definition jiffies {W} `{!Clock W} (w : W) : Z := now w.
Definition msleep_berechne_ticks (ms hz : Z) : Z := msecs_to_jiffies ms hz.
Definition sleep_bis (now ziel : Z) : Z := saturating_sub ziel now.

Definition TIMERPLAETZE : nat := 32.
Module TimerEintrag.
Record t := mk { faellig : Z; tid : Tid }.
End TimerEintrag.
(** The first [n] places of the array are the list. *)
Module TimerWheel.
Definition t : Type := list TimerEintrag.t.
Definition new : t := [].
Definition after (now ticks : Z) (tid : Tid) (w : t) : bool * t :=
  if (TIMERPLAETZE <=? length w)%nat then (false, w)
  else (true, w ++ [TimerEintrag.mk (saturating_add 64 now ticks) tid]).
Section expire.
Context {W : Type} `{!Park W}.
(** The loop of [expire]: [rest] are the entries kept so far. *)
Fixpoint expire_loop (now : Z) (l rest : t) (geweckt : nat) : M W (nat * t) :=
  match l with
  | [] => mret (geweckt, rest)
  | e :: l =>
    if TimerEintrag.faellig e <=? now then unpark (TimerEintrag.tid e) ≫= λ _, expire_loop now l rest (S geweckt)
    else expire_loop now l (rest ++ [e]) geweckt
  end.
Definition expire (now : Z) (w : t) : M W (nat * t) := expire_loop now w [] 0.
End expire.
(** The loop of [absagen]. *)
Fixpoint absagen_loop (tid : Tid) (l rest : t) (gefunden : bool) : bool * t :=
  match l with
  | [] => (gefunden, rest)
  | e :: l =>
    if TimerEintrag.tid e =? tid then absagen_loop tid l rest true else absagen_loop tid l (rest ++ [e]) gefunden
  end.
Definition absagen (tid : Tid) (w : t) : bool * t := absagen_loop tid w [] false.
End TimerWheel.

(** ** Work queue *)
Module Workqueue.
Definition t : Type := WaitQueue.t.
Definition new : t := WaitQueue.new.
Definition queue (job : Z) (q : t) : result unit LockError * t :=
  let '(ok, q) := WaitQueue.push job q in (if ok then Ok tt else Err KeinWarteplatz, q).
Definition run_ein_job {W} (f : Z → M W unit) (q : t) : M W (bool * t) :=
  match WaitQueue.pop q with (Some job, q) => f job ≫= λ _, mret (true, q) | (None, q) => mret (false, q) end.
Definition flush (q : t) : bool := WaitQueue.is_empty q.
End Workqueue.

(** ** Waiting in a loop

    The loops end when the condition holds; each round takes one unit of fuel. *)
Section loops.
Context {W : Type} `{!Park W, !TimeoutPark W, !Clock W}.

(** The loop of [lock] and of [warten] around one step. *)
Fixpoint bis_erlangt (fuel : nat) (schritt : M W (result bool LockError)) : M W (result unit LockError) :=
  match fuel with
  | O => panic
  | S fuel =>
    r ← schritt;
    match r with Err e => mret (Err e) | Ok true => mret (Ok tt) | Ok false => bis_erlangt fuel schritt end
  end.
Definition lock `{!Cell W Mutex.t} (fuel : nat) : M W (result unit LockError) := bis_erlangt fuel Mutex.lock_schritt.
Definition warten `{!Cell W Completion.t} (fuel : nat) : M W (result unit LockError) := bis_erlangt fuel Completion.warten_schritt.

Section event.
Context `{!Cell W WaitQueue.t}.
Fixpoint wait_event (fuel : nat) (cond : W → bool) : M W (result unit LockError) :=
  match fuel with
  | O => panic
  | S fuel =>
    b ← gets cond;
    if b : bool then mret (Ok tt)
    else
      ich ← gets me;
      ok ← update (WaitQueue.push ich);
      if ok : bool then park ≫= λ _, wait_event fuel cond else mret (Err KeinWarteplatz)
  end.
(** The loop of [wait_event_timeout]. *)
Fixpoint wait_until (fuel : nat) (cond : W → bool) (ende : Z) : M W (result bool LockError) :=
  match fuel with
  | O => panic
  | S fuel =>
    b ← gets cond;
    if b : bool then mret (Ok true)
    else
      jetzt ← gets now;
      ich ← gets me;
      let rest := saturating_sub ende jetzt in
      if rest =? 0 then update (WaitQueue.entfernen ich) ≫= λ _, mret (Ok false)
      else
        ok ← update (WaitQueue.push ich);
        if ok : bool then
          geweckt ← park_timeout rest;
          if geweckt : bool then wait_until fuel cond ende
          else update (WaitQueue.entfernen ich) ≫= λ _, mret (Ok false)
        else mret (Err KeinWarteplatz)
  end.
Definition wait_event_timeout (fuel : nat) (cond : W → bool) (ticks : Z) : M W (result bool LockError) :=
  jetzt ← gets now; wait_until fuel cond (saturating_add 64 jetzt ticks).
End event.

Section completion.
Context `{!Cell W Completion.t}.
(** The loop of [warten_timeout]. *)
Fixpoint complete_until (fuel : nat) (ende : Z) : M W (result bool LockError) :=
  match fuel with
  | O => panic
  | S fuel =>
    c ← gets load;
    if 0 <? Completion.fertig c then update (λ c, (Ok true, Completion.mk (Completion.fertig c - 1) (Completion.warten c)))
    else
      jetzt ← gets now;
      ich ← gets me;
      let rest := saturating_sub ende jetzt in
      if rest =? 0 then update (Completion.austragen ich) ≫= λ _, mret (Ok false)
      else
        r ← update (Completion.pruefen ich);
        match r with
        | Some r => mret r
        | None =>
          geweckt ← park_timeout rest;
          if geweckt : bool then complete_until fuel ende
          else update (Completion.austragen ich) ≫= λ _, mret (Ok false)
        end
  end.
Definition warten_timeout (fuel : nat) (ticks : Z) : M W (result bool LockError) :=
  jetzt ← gets now; complete_until fuel (saturating_add 64 jetzt ticks).
End completion.

Fixpoint sleep_until (fuel : nat) (ende : Z) : M W unit :=
  match fuel with
  | O => panic
  | S fuel =>
    jetzt ← gets now;
    let rest := saturating_sub ende jetzt in
    if rest =? 0 then mret tt else park_timeout rest ≫= λ _, sleep_until fuel ende
  end.
Definition msleep (fuel : nat) (ms : Z) : M W unit :=
  hz ← gets hz;
  jetzt ← gets now;
  sleep_until fuel (saturating_add 64 jetzt (msecs_to_jiffies ms hz)).
End loops.

(** ** The threads around a mutex

    [WillPark] stands in the queue and is about to park, [Asleep] sleeps in the kernel, [Awake] is to
    try again. *)
Inductive phase := Away | WillPark | Asleep | Awake | Holding.
#[global] Instance phase_eq_dec : EqDecision phase.
Proof. solve_decision. Defined.
Record state := mkState { mutex : Mutex.t; marks : gset Tid; phases : Tid → phase }.
Definition set_phase (x : Tid) (p : phase) (s : state) : Tid → phase := λ y, if decide (y = x) then p else phases s y.

(** [Park::unpark] on a thread that sleeps wakes it, on one that does not it leaves a mark. *)
Definition wecken (x : Tid) (s : state) : state :=
  match phases s x with
  | Asleep => mkState (mutex s) (marks s) (set_phase x Awake s)
  | _ => mkState (mutex s) ({[x]} ∪ marks s) (phases s)
  end.
Inductive act := TryLock (x : Tid) | LockStep (x : Tid) | ParkStep (x : Tid) | Unlock (x : Tid).
(** A step of one thread; [None] if it is not at that place. *)
Definition perform (a : act) (s : state) : option state :=
  match a with
  | TryLock x =>
    match phases s x with
    | Away =>
      let '(ok, m) := Mutex.try_lock x (mutex s) in
      Some (mkState m (marks s) (if ok then set_phase x Holding s else phases s))
    | _ => None
    end
  | LockStep x =>
    match phases s x with
    | Away | Awake =>
      let '(r, m) := Mutex.pruefen x (mutex s) in
      Some (mkState m (marks s)
        (match r with None => set_phase x WillPark s | Some (Ok true) => set_phase x Holding s | _ => set_phase x Away s end))
    | Holding => Some (mkState (Mutex.pruefen x (mutex s)).2 (marks s) (phases s))
    | _ => None
    end
  | ParkStep x =>
    match phases s x with
    | WillPark =>
      Some (if decide (x ∈ marks s) then mkState (mutex s) (marks s ∖ {[x]}) (set_phase x Awake s)
            else mkState (mutex s) (marks s) (set_phase x Asleep s))
    | _ => None
    end
  | Unlock x =>
    match phases s x with
    | Holding | Away =>
      let '(ok, next, m) := Mutex.freigeben x (mutex s) in
      let s := mkState m (marks s) (if ok : bool then set_phase x Away s else phases s) in
      Some (match next with Some y => wecken y s | None => s end)
    | _ => None
    end
  end.
Definition start : state := mkState Mutex.new ∅ (λ _, Away).
Definition step (s s' : state) : Prop := ∃ a, perform a s = Some s'.

Notation waiters s := (WaitQueue.tids (Mutex.warten (mutex s))).
(** A thread that will look at the mutex without being woken once more. *)
Definition on_way (s : state) (x : Tid) : Prop := phases s x = Awake ∨ (phases s x = WillPark ∧ x ∈ marks s).
Definition held_by (m : Mutex.t) (f : Tid → phase) : Prop :=
  if Mutex.gesperrt m then ∀ x, f x = Holding ↔ x = Mutex.inhaber m else ∀ x, f x ≠ Holding.
Record inv (s : state) : Prop := {
  i_lock : held_by (mutex s) (phases s);
  i_nodup : NoDup (waiters s);
  i_queue : ∀ x, x ∈ waiters s ↔ phases s x = Asleep ∨ (phases s x = WillPark ∧ x ∉ marks s);
  i_marks : ∀ x, x ∈ marks s → phases s x = WillPark;
  i_way : Mutex.gesperrt (mutex s) = false → waiters s ≠ [] → ∃ x, on_way s x }.

Lemma set_phase_eq x p s : set_phase x p s x = p.
Proof. unfold set_phase. by rewrite decide_True. Qed.
Lemma set_phase_ne x y p s : y ≠ x → set_phase x p s y = phases s y.
Proof. intros H. unfold set_phase. by rewrite decide_False. Qed.
(** Case analysis on whether a thread is the one that moved. *)
Ltac mover x y := destruct (decide (y = x)) as [->|?]; [rewrite ?set_phase_eq in *|rewrite ?set_phase_ne in * by done].

(** No thread of one phase is in another. *)
Ltac apart_phases := by split; intros [|[? _]].

Lemma inv_start : inv start.
Proof. split; cbn; try done; [constructor|]. intros x. rewrite elem_of_nil. naive_solver. Qed.

Lemma held_by_other x p s m : held_by (mutex s) (phases s) → Mutex.gesperrt m = Mutex.gesperrt (mutex s) →
  Mutex.inhaber m = Mutex.inhaber (mutex s) → phases s x ≠ Holding → p ≠ Holding → held_by m (set_phase x p s).
Proof.
  unfold held_by. intros H -> -> Hx Hp. destruct (Mutex.gesperrt (mutex s)); intros y; mover x y; try done.
  rewrite <-H. by split.
Qed.

(** A free mutex is taken by a thread that is not in the queue. *)
Definition taken (x : Tid) (s : state) : state := mkState (Mutex.mk true x (Mutex.warten (mutex s))) (marks s) (set_phase x Holding s).
Lemma inv_taken x s : inv s → Mutex.gesperrt (mutex s) = false → phases s x = Away ∨ phases s x = Awake → inv (taken x s).
Proof.
  intros [I1 I2 I3 I4 I5] Hg Hx. unfold held_by in I1. rewrite Hg in I1. split; cbn; try done.
  - intros y. mover x y; [done|]. split; [|done]. intros H. by destruct (I1 y).
  - intros y. rewrite I3. mover x y; [|done]. destruct Hx as [-> | ->]; apart_phases.
  - intros y Hy. specialize (I4 y Hy). mover x y; [|done]. destruct Hx; congruence.
Qed.
Lemma inv_pushed x s : inv s → Mutex.gesperrt (mutex s) = true → phases s x = Away ∨ phases s x = Awake →
  inv (mkState (Mutex.mk true (Mutex.inhaber (mutex s)) (WaitQueue.mk (waiters s ++ [x]) (WaitQueue.abgewiesen (Mutex.warten (mutex s)))))
    (marks s) (set_phase x WillPark s)).
Proof.
  intros [I1 I2 I3 I4 I5] Hg Hx. assert (x ∉ marks s) as Hm by (intros Hm; specialize (I4 x Hm); destruct Hx; congruence).
  assert (x ∉ waiters s) as Hq by (rewrite I3; destruct Hx as [-> | ->]; by intros [|[? _]]).
  split; cbn; try done.
  - refine (held_by_other x _ s (Mutex.mk true _ (Mutex.warten (mutex s))) I1 _ _ _ _); try done. destruct Hx; congruence.
  - apply NoDup_app. split; [done|]. split; [|apply NoDup_singleton]. intros y Hy ->%list_elem_of_singleton. done.
  - intros y. rewrite elem_of_app, list_elem_of_singleton, I3. mover x y; [split; [by right|by right]|clear -n; naive_solver].
  - intros y Hy. mover x y; [done|]. by apply I4.
Qed.
Lemma inv_away x s q : inv s → Mutex.gesperrt (mutex s) = true → phases s x = Away ∨ phases s x = Awake → WaitQueue.tids q = waiters s →
  inv (mkState (Mutex.mk true (Mutex.inhaber (mutex s)) q) (marks s) (set_phase x Away s)).
Proof.
  intros [I1 I2 I3 I4 I5] Hg Hx Hq. split; cbn; rewrite ?Hq; try done.
  - refine (held_by_other x _ s (Mutex.mk true _ (Mutex.warten (mutex s))) I1 _ _ _ _); try done. destruct Hx; congruence.
  - intros y. rewrite I3. mover x y; [|done]. destruct Hx as [-> | ->]; apart_phases.
  - intros y Hy. specialize (I4 y Hy). mover x y; [|done]. destruct Hx; congruence.
Qed.
Lemma inv_parked x s : inv s → phases s x = WillPark →
  inv (if decide (x ∈ marks s) then mkState (mutex s) (marks s ∖ {[x]}) (set_phase x Awake s) else mkState (mutex s) (marks s) (set_phase x Asleep s)).
Proof.
  intros [I1 I2 I3 I4 I5] Hx. destruct (decide (x ∈ marks s)) as [Hm|Hm]; split; cbn; try done.
  - refine (held_by_other x _ s (mutex s) I1 _ _ _ _); congruence || done.
  - intros y. rewrite I3. mover x y; [rewrite Hx; by split; [intros [|[_ ?]]|intros [|[? _]]]|]. rewrite not_elem_of_difference, elem_of_singleton. clear -n. naive_solver.
  - intros y [Hy Hne]%elem_of_difference. mover x y; [by rewrite elem_of_singleton in Hne|]. by apply I4.
  - intros _ _. exists x. left. cbn. by rewrite set_phase_eq.
  - refine (held_by_other x _ s (mutex s) I1 _ _ _ _); congruence || done.
  - intros y. rewrite I3. mover x y; [|done]. rewrite Hx. by split; [left|intros _; right].
  - intros y Hy. mover x y; [done|]. by apply I4.
  - intros Hg Hq. destruct (I5 Hg Hq) as [y Hy]. exists y. unfold on_way in *. cbn. mover x y; [rewrite Hx in Hy; by destruct Hy as [|[_ ?]]|done].
Qed.

(** The holder lets go: the next in the queue is on its way. *)
Definition released (h : Tid) (s : state) : state :=
  match waiters s with
  | [] => mkState (Mutex.mk false 0 (Mutex.warten (mutex s))) (marks s) (set_phase h Away s)
  | y :: l => wecken y (mkState (Mutex.mk false 0 (WaitQueue.mk l (WaitQueue.abgewiesen (Mutex.warten (mutex s))))) (marks s) (set_phase h Away s))
  end.
Lemma released_spec h s : inv s → Mutex.gesperrt (mutex s) = true → Mutex.inhaber (mutex s) = h →
  inv (released h s) ∧ Mutex.gesperrt (mutex (released h s)) = false ∧ waiters (released h s) = tail (waiters s) ∧
  (∀ y, head (waiters s) = Some y → on_way (released h s) y) ∧ (∀ y, on_way s y → on_way (released h s) y).
Proof.
  intros [I1 I2 I3 I4 I5] Hg Hh. unfold held_by in I1. rewrite Hg in I1. assert (phases s h = Holding) as Hhold by (by apply I1).
  unfold released. destruct (waiters s) as [|y l] eqn:Eq.
  - cbn. rewrite Eq. split_and!; try done.
    + split; unfold held_by; cbn; rewrite ?Eq; try done.
      * intros x. mover h x; [done|]. intros Hx. by apply I1 in Hx; congruence.
      * intros x. rewrite I3. mover h x; [|done]. rewrite Hhold. apart_phases.
      * intros x Hx. specialize (I4 x Hx). mover h x; [congruence|done].
    + intros x. unfold on_way. cbn. mover h x; [rewrite Hhold; by intros [|[? _]]|done].
  - assert (y ∈ y :: l) as Hy by by left. apply I3 in Hy. assert (y ≠ h) as Hne by (intros ->; rewrite Hhold in Hy; by destruct Hy as [|[? _]]).
    apply NoDup_cons in I2 as [Hyl Hnd]. unfold wecken. cbn [phases mutex marks]. rewrite set_phase_ne by done. destruct Hy as [Hy|[Hy Hym]]; rewrite Hy.
    + cbn. split_and!; try done.
      * split; unfold held_by; cbn; try done.
        -- intros x. unfold set_phase at 1. destruct (decide (x = y)); [done|]. cbn. mover h x; [done|]. intros Hx. by apply I1 in Hx; congruence.
        -- intros x. destruct (decide (x = y)) as [->|Hxy]; [rewrite !set_phase_eq; split; [intros ?; done|intros [?|[? _]]; done]|]. rewrite !(set_phase_ne y x) by done. cbn [phases].
           assert (x ∈ l ↔ x ∈ y :: l) as -> by (rewrite elem_of_cons; clear -Hxy; naive_solver). rewrite I3. mover h x; [|done]. rewrite Hhold. apart_phases.
        -- intros x Hx. specialize (I4 x Hx). unfold set_phase. cbn. destruct (decide (x = y)) as [->|]; [congruence|].
           destruct (decide (x = h)) as [->|]; [congruence|done].
        -- intros _ _. exists y. left. cbn. unfold set_phase. by rewrite decide_True.
      * intros x [= <-]. left. cbn. unfold set_phase. by rewrite decide_True.
      * intros x Hx. unfold on_way in *. cbn. unfold set_phase. cbn. destruct (decide (x = y)) as [->|]; [by left|].
        destruct (decide (x = h)) as [->|]; [rewrite Hhold in Hx; by destruct Hx as [|[? _]]|done].
    + cbn. split_and!; try done.
      * split; unfold held_by; cbn; try done.
        -- intros x. mover h x; [done|]. intros Hx. by apply I1 in Hx; congruence.
        -- intros x. destruct (decide (x = y)) as [->|Hxy]; [rewrite set_phase_ne by done; rewrite Hy, elem_of_union, elem_of_singleton; split; [done|intros [|[_ []]]; [done|by left]]|].
           assert (x ∈ l ↔ x ∈ y :: l) as -> by (rewrite elem_of_cons; clear -Hxy; naive_solver).
           rewrite I3, elem_of_union, elem_of_singleton. mover h x; [rewrite Hhold; apart_phases|clear -Hxy; naive_solver].
        -- intros x [->%elem_of_singleton|Hx]%elem_of_union; [by rewrite set_phase_ne|]. specialize (I4 x Hx). mover h x; [congruence|done].
        -- intros _ _. exists y. right. cbn. rewrite set_phase_ne, elem_of_union, elem_of_singleton by done. by split; [|left].
      * intros x [= <-]. right. cbn. rewrite set_phase_ne, elem_of_union, elem_of_singleton by done. by split; [|left].
      * intros x Hx. unfold on_way in *. cbn. mover h x; [rewrite Hhold in Hx; by destruct Hx as [|[? _]]|].
        rewrite elem_of_union. clear -Hx. naive_solver.
Qed.

(** ** Every step keeps the invariant *)
Lemma holding_iff s x : inv s → phases s x = Holding ↔ Mutex.gesperrt (mutex s) = true ∧ Mutex.inhaber (mutex s) = x.
Proof.
  intros I. pose proof (i_lock s I) as H. unfold held_by in H. destruct (Mutex.gesperrt (mutex s)).
  - rewrite H. split; [by intros ->|by intros [_ ->]].
  - split; [by intros ?%H|by intros []].
Qed.
Lemma perform_unlock h s : inv s → phases s h = Holding → perform (Unlock h) s = Some (released h s).
Proof.
  intros I Hh. pose proof (proj1 (holding_iff s h I) Hh) as [Hg Hi]. cbn [perform]. rewrite Hh. unfold Mutex.freigeben, released.
  rewrite Hg, Hi, Z.eqb_refl. cbn [negb orb]. unfold WaitQueue.pop. by destruct (waiters s).
Qed.
Lemma perform_take x s : Mutex.gesperrt (mutex s) = false → phases s x = Away ∨ phases s x = Awake → perform (LockStep x) s = Some (taken x s).
Proof. intros Hg Hx. cbn [perform]. unfold Mutex.pruefen. rewrite Hg. by destruct Hx as [-> | ->]. Qed.

Lemma inv_lock_step x s : inv s → phases s x = Away ∨ phases s x = Awake → ∀ s', perform (LockStep x) s = Some s' → inv s'.
Proof.
  intros I Hx s' Hp. destruct (Mutex.gesperrt (mutex s)) eqn:Hg.
  2: { rewrite perform_take in Hp by done. injection Hp as <-. by apply inv_taken. }
  assert (Mutex.inhaber (mutex s) ≠ x) as Hi.
  { intros Hi. assert (phases s x = Holding) by (by apply holding_iff). destruct Hx; congruence. }
  assert (Some s' = Some (mkState (Mutex.pruefen x (mutex s)).2 (marks s)
    (match (Mutex.pruefen x (mutex s)).1 with None => set_phase x WillPark s | Some (Ok true) => set_phase x Holding s | _ => set_phase x Away s end))) as Hs.
  { rewrite <-Hp. cbn [perform]. destruct Hx as [-> | ->]; by destruct (Mutex.pruefen x (mutex s)) as [[[[]|]|] ?]. }
  injection Hs as ->. unfold Mutex.pruefen. rewrite Hg. rewrite (proj2 (Z.eqb_neq _ _) Hi). unfold WaitQueue.push.
  destruct (WARTEPLAETZE <=? _)%nat; cbn; [by apply inv_away|by apply inv_pushed].
Qed.
Lemma mutex_step_inv s s' : inv s → step s s' → inv s'.
Proof.
  intros I [a Ha]. destruct a as [x|x|x|x].
  - cbn [perform] in Ha. destruct (phases s x) eqn:Hx; try done. unfold Mutex.try_lock in Ha.
    destruct (Mutex.gesperrt (mutex s)) eqn:Hg; injection Ha as <-; [by destruct s|]. apply inv_taken; auto.
  - destruct (phases s x) eqn:Hx; try (by cbn [perform] in Ha; rewrite Hx in Ha); [by eapply inv_lock_step; eauto..|].
    cbn [perform] in Ha. rewrite Hx in Ha. pose proof (proj1 (holding_iff s x I) Hx) as [Hg Hi]. unfold Mutex.pruefen in Ha.
    rewrite Hg, Hi, Z.eqb_refl in Ha. injection Ha as <-. by destruct s.
  - cbn [perform] in Ha. destruct (phases s x) eqn:Hx; try done. injection Ha as <-. by apply inv_parked.
  - destruct (phases s x) eqn:Hx; try (by cbn [perform] in Ha; rewrite Hx in Ha).
    + cbn [perform] in Ha. rewrite Hx in Ha. unfold Mutex.freigeben in Ha.
      destruct (negb (Mutex.gesperrt (mutex s)) || negb (Mutex.inhaber (mutex s) =? x)) eqn:Hb; [injection Ha as <-; by destruct s|].
      apply orb_false_iff in Hb as [Hg%negb_false_iff Hi%negb_false_iff%Z.eqb_eq].
      assert (phases s x = Holding) by (by apply holding_iff). congruence.
    + rewrite perform_unlock in Ha by done. injection Ha as <-. pose proof (proj1 (holding_iff s x I) Hx) as [Hg Hi].
      by apply (released_spec x s I Hg Hi).
Qed.
Lemma inv_steps s s' : inv s → rtc step s s' → inv s'.
Proof. intros I H. revert I. induction H as [|s s1 s2 H1 H2 IH]; [done|]. intros I. apply IH. by eapply mutex_step_inv. Qed.

(** ** The turn of each waiting thread comes *)
Lemma step_perform a s s' : perform a s = Some s' → rtc step s s'.
Proof. intros H. apply rtc_once. by exists a. Qed.
Lemma step_inv_perform a s s' : inv s → perform a s = Some s' → inv s'.
Proof. intros I H. apply (mutex_step_inv s); [done|by exists a]. Qed.

(** On a free mutex a thread on its way gets it, and the queue is as before. *)
Lemma free_take x s : inv s → Mutex.gesperrt (mutex s) = false → on_way s x →
  ∃ s', rtc step s s' ∧ phases s' x = Holding ∧ waiters s' = waiters s.
Proof.
  intros I Hg [Hx|[Hx Hm]].
  - exists (taken x s). split; [by apply (step_perform (LockStep x)), perform_take; auto|]. by split; [apply set_phase_eq|].
  - set (s1 := mkState (mutex s) (marks s ∖ {[x]}) (set_phase x Awake s)).
    assert (perform (ParkStep x) s = Some s1) as H1 by (cbn [perform]; rewrite Hx; by rewrite decide_True).
    exists (taken x s1). split; [|by split; [apply set_phase_eq|]]. etrans; [by eapply step_perform|].
    apply (step_perform (LockStep x)), perform_take; [done|]. right. apply set_phase_eq.
Qed.
Lemma held_soon s : inv s → waiters s ≠ [] →
  ∃ s' h, rtc step s s' ∧ phases s' h = Holding ∧ waiters s' = waiters s.
Proof.
  intros I Hq. destruct (Mutex.gesperrt (mutex s)) eqn:Hg.
  - exists s, (Mutex.inhaber (mutex s)). split; [done|]. split; [by apply holding_iff|done].
  - destruct (i_way s I Hg Hq) as [h Hh]. destruct (free_take h s I Hg Hh) as (s' & ? & ? & ?). by exists s', h.
Qed.
Lemma unlock_spec h s : inv s → phases s h = Holding →
  step s (released h s) ∧ inv (released h s) ∧ Mutex.gesperrt (mutex (released h s)) = false ∧
  waiters (released h s) = tail (waiters s) ∧ (∀ y, head (waiters s) = Some y ∨ on_way s y → on_way (released h s) y).
Proof.
  intros I Hh. pose proof (proj1 (holding_iff s h I) Hh) as [Hg Hi].
  destruct (released_spec h s I Hg Hi) as (H1 & H2 & H3 & H4 & H5). split_and!; try done.
  - exists (Unlock h). by apply perform_unlock.
  - intros y [Hy|Hy]; auto.
Qed.
Lemma way_turn x s : inv s → on_way s x → ∃ s', rtc step s s' ∧ phases s' x = Holding.
Proof.
  intros I Hx. destruct (Mutex.gesperrt (mutex s)) eqn:Hg.
  - destruct (unlock_spec (Mutex.inhaber (mutex s)) s I) as (Hs & I1 & Hg1 & _ & Hw); [by apply holding_iff|].
    destruct (free_take x _ I1 Hg1 (Hw x (or_intror Hx))) as (s' & ? & ? & _). exists s'. split; [by eapply rtc_l|done].
  - destruct (free_take x s I Hg Hx) as (s' & ? & ? & _). by exists s'.
Qed.
Lemma queue_turn n : ∀ x s, inv s → waiters s !! n = Some x → ∃ s', rtc step s s' ∧ phases s' x = Holding.
Proof.
  induction n as [|n IH]; intros x s I Hx.
  all: destruct (held_soon s I) as (s1 & h & H1 & Hh & Hq); [by intros E; rewrite E in Hx|].
  all: pose proof (inv_steps _ _ I H1) as I1; destruct (unlock_spec h s1 I1 Hh) as (H2 & I2 & _ & Ht & Hw); rewrite <-Hq in Hx.
  - destruct (way_turn x _ I2) as (s' & ? & ?); [apply Hw; left; by destruct (waiters s1)|].
    exists s'. split; [etrans; [done|by eapply rtc_l]|done].
  - destruct (IH x _ I2) as (s' & ? & ?); [rewrite Ht; by destruct (waiters s1)|].
    exists s'. split; [etrans; [done|by eapply rtc_l]|done].
Qed.

(** Runs of the machine. *)
Fixpoint run (l : list act) (s : state) : option state :=
  match l with [] => Some s | a :: l => match perform a s with Some s => run l s | None => None end end.
Lemma run_steps l : ∀ s s', run l s = Some s' → rtc step s s'.
Proof.
  induction l as [|a l IH]; cbn; intros s s'; [by intros [= ->]|].
  destruct (perform a s) as [s1|] eqn:E; [|done]. intros H. eapply rtc_l; [by exists a|auto].
Qed.

(** C10: in every interleaving of threads that try, lock, park and unlock one mutex, the lock is held by
    exactly the thread it names, and no waiting thread is lost: who stands in the queue, sleeps or has
    been woken can still come to hold the mutex, whatever happened between its check and its parking. *)
Theorem mutex_waits_end s : rtc step start s →
  (∀ x, phases s x = Holding ↔ Mutex.gesperrt (mutex s) = true ∧ Mutex.inhaber (mutex s) = x) ∧
  (∀ x, phases s x = Asleep → x ∈ WaitQueue.tids (Mutex.warten (mutex s))) ∧
  (Mutex.gesperrt (mutex s) = false → WaitQueue.is_empty (Mutex.warten (mutex s)) = false → ∃ x, on_way s x) ∧
  ∀ x, phases s x = WillPark ∨ phases s x = Asleep ∨ phases s x = Awake → ∃ s', rtc step s s' ∧ phases s' x = Holding.
Proof.
  intros H. pose proof (inv_steps _ _ inv_start H) as I. split_and!.
  - intros x. by apply holding_iff.
  - intros x Hx. apply (i_queue s I). by left.
  - intros Hg Hq. apply (i_way s I Hg). unfold WaitQueue.is_empty in Hq. by intros E; rewrite E in Hq.
  - intros x Hx. assert (x ∈ waiters s ∨ on_way s x) as [Hq|Hw].
    { destruct Hx as [Hx|[Hx|Hx]]; [|left; apply (i_queue s I); by left|right; by left].
      destruct (decide (x ∈ marks s)); [right; by right|left; apply (i_queue s I); by right]. }
    + apply list_elem_of_lookup in Hq as [n Hn]. by eapply queue_turn.
    + by apply way_turn.
Qed.
(** Thread 2 has seen thread 1 hold the mutex; thread 1 lets go before thread 2 parks. *)
Lemma mutex_waits_end_witness :
  ∃ s, rtc step start s ∧ phases s 2 = Awake ∧ ∃ s', rtc step s s' ∧ phases s' 2 = Holding.
Proof.
  destruct (run [LockStep 1; LockStep 2; Unlock 1; ParkStep 2] start) as [s|] eqn:E; [|discriminate E].
  assert (rtc step start s) as H by (by eapply run_steps). exists s. split; [exact H|].
  assert (phases s 2 = Awake) as Ha by (by injection E as <-). split; [exact Ha|].
  apply (mutex_waits_end s H). auto.
Defined.

(** ** Marks from elsewhere

    The machine above starts without marks, and then a mark is always the mutex's own.  A thread with
    a mark of another origin (a timer, a completion it no longer waits for) enters the queue a second
    time; its stale entry later takes the wake-up of the thread behind it. *)
Lemma stale_entry_takes_wakeup :
  ∃ s, run [LockStep 1; LockStep 2; ParkStep 2; LockStep 2; ParkStep 2; LockStep 3; ParkStep 3; Unlock 1; LockStep 2; Unlock 2]
    (mkState Mutex.new {[2]} (λ _, Away)) = Some s ∧
  Mutex.gesperrt (mutex s) = false ∧ WaitQueue.tids (Mutex.warten (mutex s)) = [3] ∧ (phases s <$> [1; 2; 3]) = [Away; Away; Asleep].
Proof. eexists. split; [vm_compute; reflexivity|]. by split_and!. Qed.
(** A [wait_event] woken that way leaves its entry in the queue. *)
Record foreign := mkForeign { erfuellt : bool; schlange : WaitQueue.t }.
#[local] Instance foreign_park : Park foreign :=
  {| me _ := 7; park := modify (λ w, mkForeign true (schlange w)); unpark _ := mret tt |}.
#[local] Instance foreign_cell : Cell foreign WaitQueue.t := {| load := schlange; store q w := mkForeign (erfuellt w) q |}.
Lemma entry_left_behind :
  wait_event 2 erfuellt (mkForeign false WaitQueue.new) = Some (Ok tt, mkForeign true (WaitQueue.mk [7] 0)).
Proof. reflexivity. Qed.
