(* ===== verification/Mmu.v ===== *)
(** * Page tables of the x86-64 machine

    [src/crates/caprock-hal/src/x86_64/mmu.rs]: the identity map of the kernel, its window for
    devices and memory above 4 GiB, the guard pages of kernel stacks, and the address spaces of
    isolated domains.  A table is a frame of 512 words in the physical memory [Mem]; the tables that
    are statics of the kernel have the addresses of [Image].  Flushes and barriers have no effect on
    the tables. *)

From S2P Require Import Prelude.
From S2P Require Import PanicMonad.
From stdpp Require Import gmap.
#[local] Open Scope Z_scope.

Infix "|||" := Z.lor (at level 50, left associativity) : mmu_scope.
#[local] Open Scope mmu_scope.

(** ** Bits of an entry *)
Definition P : Z := 1.
Definition RW : Z := 2.
Definition US : Z := 4.
Definition PWT : Z := 8.
Definition PCD : Z := 16.
Definition ACC : Z := 32.
Definition DIRTY : Z := 64.
Definition PS : Z := 128.
Definition NX : Z := 2 ^ 63.
Definition ADDR : Z := 0x000ffffffffff000.
Definition BLOCK_ADDR : Z := 0x000fffffffe00000.

Definition PAGE : Z := 4096.
Definition TWO_MIB : Z := 2 * 1024 * 1024.
Definition ONE_GIB : Z := 2 ^ 30.
Definition LOW_GIB : nat := 4.
Definition LOW_MAPPED_END : Z := Z.of_nat LOW_GIB * ONE_GIB.
Definition USER_RAM_MIN : Z := 16 * 1024 * 1024.
Definition GIB1_END : Z := ONE_GIB.
Definition FINE_BLOCKS : nat := 8.
Definition MAPPED_GIB : nat := 512.
Definition HIGH_DEV_SLOTS : nat := 4.
Definition GUARD_BLOCKS : nat := 16.
Definition ISO_USER_VA : Z := 512 * ONE_GIB.

(** [e & b != 0] and the address an entry holds. *)
Definition has (e b : Z) : bool := negb (Z.land e b =? 0).
Definition addr (e : Z) : Z := Z.land e ADDR.

Inductive Perm := KRx | KRo | KRw | UserRw | UserRx.
Inductive UserPerm := Ro | Rw | Rx.
Definition perm_bits (p : Perm) : Z :=
  match p with
  | KRx => P | KRo => P ||| NX | KRw => P ||| RW ||| NX | UserRw => P ||| RW ||| US ||| NX | UserRx => P ||| US
  end.
Definition table_desc (phys : Z) : Z := phys ||| P ||| RW ||| US.
Definition kernel_block (pa : Z) : Z := pa ||| P ||| RW ||| NX ||| PS.
Definition user_block (pa : Z) : Z := pa ||| P ||| RW ||| US ||| NX ||| PS.
Definition user_code_block (pa : Z) : Z := pa ||| P ||| US ||| PS.
Definition user_page (pa : Z) (perm : UserPerm) : Z :=
  match perm with Ro => pa ||| P ||| US ||| NX | Rw => pa ||| P ||| RW ||| US ||| NX | Rx => pa ||| P ||| US end.
(** Writable for the user and executable at once. *)
Definition wx (e : Z) : bool := has e US && has e RW && negb (has e NX).

(** ** Physical memory, as far as it holds tables *)
Notation Mem := (gmap (Z * nat) Z).
Definition ld (m : Mem) (p : Z) (i : nat) : Z := default 0 (m !! (p, i)).
Definition st (p : Z) (i : nat) (v : Z) (m : Mem) : Mem := <[(p, i) := v]> m.
(** [for (i, e) in table.iter_mut().enumerate() { *e = f(i) }] *)
Definition filled (p : Z) (f : nat → Z) (m : Mem) : Mem := foldr (λ i, st p i (f i)) m (seq 0 512).

#[global] Arguments ld : simpl never.
#[global] Arguments st : simpl never.
#[global] Arguments filled : simpl never.

(** The linker's symbols, and where the static tables lie. *)
Class Image := {
  PML4 : Z; PDPT : Z; PD_base : Z; PT_base : Z; ISO_base : Z; HIGH_base : Z; GUARD_base : Z;
  text : Z * Z; rodata : Z * Z; user_text : Z * Z; user_data : Z * Z }.

(** What the functions of the module work on: the tables, the counters beside them, and [src], the
    memory of whoever lends [alloc] and [free]. *)
Section vm.
Context {A : Type}.
Record Vm := mk {
  mem : Mem; high_gib : list (option nat); high_ram : Z; high_private : Z;
  guard_of : list (option Z); guards_live : Z; guards_total : Z; guards_denied : Z; src : A }.
Definition eta (s : Vm) : Vm :=
  mk (mem s) (high_gib s) (high_ram s) (high_private s) (guard_of s) (guards_live s) (guards_total s) (guards_denied s) (src s).
Definition with_mem v s := ltac:(set_field eta mem s v).
Definition with_high_gib v s := ltac:(set_field eta high_gib s v).
Definition with_high_ram v s := ltac:(set_field eta high_ram s v).
Definition with_high_private v s := ltac:(set_field eta high_private s v).
Definition with_guard_of v s := ltac:(set_field eta guard_of s v).
Definition with_guards_live v s := ltac:(set_field eta guards_live s v).
Definition with_guards_total v s := ltac:(set_field eta guards_total s v).
Definition with_guards_denied v s := ltac:(set_field eta guards_denied s v).
Definition with_src v s := ltac:(set_field eta src s v).
End vm.
Arguments Vm : clear implicits.

Section mmu.
Context `{Image} {A : Type} (alloc : M A (option Z)) (free : Z → M A unit).
Notation W := (Vm A).

Definition PD (g : nat) : Z := PD_base + Z.of_nat g * PAGE.
Definition PT (b : nat) : Z := PT_base + Z.of_nat b * PAGE.
Definition ISO_PD_HIGH (k : nat) : Z := ISO_base + Z.of_nat k * PAGE.
Definition HIGH_DEV_PD (k : nat) : Z := HIGH_base + Z.of_nat k * PAGE.
Definition GUARD_PT (k : nat) : Z := GUARD_base + Z.of_nat k * PAGE.

(** [table_mut(p)[i]]; the index panics behind the table. *)
Definition load (p : Z) (i : nat) : M W Z := if (i <? 512)%nat then gets (λ s, ld (mem s) p i) else panic.
Definition store (p : Z) (i : nat) (v : Z) : M W unit :=
  if (i <? 512)%nat then modify (λ s, with_mem (st p i v (mem s)) s) else panic.
Definition fill (p : Z) (f : nat → Z) : M W unit := modify (λ s, with_mem (filled p f (mem s)) s).
Definition allocate : M W (option Z) := zoom src with_src alloc.
Definition release (p : Z) : M W unit := zoom src with_src (free p).

(** ** The kernel's own map *)
Definition within (pa : Z) (r : Z * Z) : bool := (r.1 <=? pa) && (pa <? r.2).
Definition fine_perm (pa : Z) : Z :=
  if within pa text then perm_bits KRx
  else if within pa rodata then perm_bits KRo
  else if within pa user_text then perm_bits UserRx
  else if within pa user_data then perm_bits UserRw
  else perm_bits KRw.
Definition is_device (pa : Z) : bool := 0xC0000000 <=? pa.
(** What [init_primary] writes for the block at [pa]. *)
Definition low_block (pa : Z) : Z :=
  let bits := P ||| RW ||| NX ||| PS in
  pa ||| (if is_device pa then bits ||| PCD ||| PWT else if USER_RAM_MIN <=? pa then bits ||| US else bits).
Definition iso_block (pa : Z) : Z :=
  let bits := P ||| RW ||| NX ||| PS in pa ||| (if is_device pa then bits ||| PCD ||| PWT else bits).
Definition block_addr (g i : nat) : Z := Z.of_nat g * ONE_GIB + Z.of_nat i * TWO_MIB.

Definition init_primary : M W unit :=
  store PML4 0 (PDPT ||| P ||| RW ||| US) ≫= λ _,
  for_ (seq 0 LOW_GIB) (λ g, store PDPT g (PD g ||| P ||| RW ||| US)) ≫= λ _,
  for_ (seq 0 FINE_BLOCKS) (λ b,
    fill (PT b) (λ i, let pa := Z.of_nat b * TWO_MIB + Z.of_nat i * PAGE in pa ||| fine_perm pa) ≫= λ _,
    store (PD 0) b (PT b ||| P ||| RW ||| US)) ≫= λ _,
  for_ (seq 0 LOW_GIB) (λ g,
    let first := if (g =? 0)%nat then FINE_BLOCKS else 0%nat in
    for_ (seq first (512 - first)) (λ i, store (PD g) i (low_block (block_addr g i)))) ≫= λ _,
  for_ (seq 0 (LOW_GIB - 1)) (λ k, fill (ISO_PD_HIGH k) (λ i, iso_block (block_addr (S k) i))).

(** The directory for the GiB [g] above the fixed part: the one it has, or a new one. *)
Definition high_dev_pd (g : nat) : M W (option Z) :=
  gibs ← gets high_gib;
  match position (λ x, match x with Some h => (h =? g)%nat | None => false end) gibs with
  | Some k => mret (Some (HIGH_DEV_PD k))
  | None =>
    match position (λ x, match x with Some _ => false | None => true end) gibs with
    | Some k =>
      fill (HIGH_DEV_PD k) (λ _, 0) ≫= λ _,
      store PDPT g (table_desc (HIGH_DEV_PD k)) ≫= λ _,
      modify (with_high_gib (<[k := Some g]> gibs)) ≫= λ _,
      mret (Some (HIGH_DEV_PD k))
    | None => mret None
    end
  end.
(** The loop over the blocks from [blk] on: [n] of them at most. *)
Fixpoint device_window_loop (n : nat) (blk ende : Z) : M W bool :=
  match n with
  | O => mret true
  | S n =>
    if blk <? ende then
      let g := Z.to_nat (blk / ONE_GIB) in
      if (LOW_GIB <=? g)%nat then
        o ← high_dev_pd g;
        match o with
        | None => mret false
        | Some pd_phys =>
          store pd_phys (Z.to_nat ((blk mod ONE_GIB) / TWO_MIB)) (blk ||| P ||| RW ||| NX ||| PS ||| PCD ||| PWT) ≫= λ _,
          device_window_loop n (blk + TWO_MIB) ende
        end
      else device_window_loop n (blk + TWO_MIB) ende
    else mret true
  end.
Definition map_device_window_global (pa n : Z) : M W bool :=
  if n =? 0 then mret false
  else
    match checked_add 64 pa n with
    | None => mret false
    | Some ende =>
      if Z.of_nat MAPPED_GIB * ONE_GIB <? ende then mret false
      else device_window_loop (Z.to_nat (n / TWO_MIB + 2)) (Z.ldiff pa (TWO_MIB - 1)) ende
    end.
Definition map_device_block_global (gib : nat) : M W bool :=
  if (gib <? LOW_GIB)%nat then mret true else map_device_window_global (Z.of_nat gib * ONE_GIB) ONE_GIB.

(** The loop of [adopt_high_ram]: the GiB it stopped at. *)
Fixpoint adopt_loop (n : nat) (g : nat) : M W nat :=
  match n with
  | O => mret g
  | S n =>
    e ← load PDPT g;
    if has e P then mret g
    else store PDPT g (Z.of_nat g * ONE_GIB ||| P ||| RW ||| NX ||| PS ||| US) ≫= λ _, adopt_loop n (S g)
  end.
(** [gib_pages] is the answer of the processor. *)
Definition adopt_high_ram (gib_pages : bool) (base n : Z) : M W (option (Z * Z)) :=
  if negb gib_pages then mret None
  else
    match checked_add 64 base n with
    | None => mret None
    | Some ende =>
      let first := Z.max ((base + ONE_GIB - 1) / ONE_GIB) (Z.of_nat LOW_GIB) in
      let last := Z.min (ende / ONE_GIB) (Z.of_nat MAPPED_GIB) in
      if last <=? first then mret None
      else
        taken ← adopt_loop (Z.to_nat (last - first)) (Z.to_nat first);
        let taken := Z.of_nat taken in
        if taken =? first then mret None
        else
          modify (λ s, with_high_ram (high_ram s + (taken - first)) s) ≫= λ _,
          mret (Some (first * ONE_GIB, (taken - first) * ONE_GIB))
    end.

Definition ERLAUBT : Z := P ||| RW ||| NX ||| PS ||| PCD ||| PWT.
Definition schlecht (e : Z) : bool :=
  negb (e =? 0) && negb (Z.ldiff (Z.ldiff e ADDR) (ACC ||| DIRTY) =? ERLAUBT).
Definition high_shared_audit (s : W) : nat * Z * nat :=
  let k := filter (λ k, is_Some (mjoin (high_gib s !! k))) (seq 0 HIGH_DEV_SLOTS) in
  (length k, high_private s, sum_list (map (λ k, count_if schlecht (map (ld (mem s) (HIGH_DEV_PD k)) (seq 0 512))) k)).

(** The walk of the kernel's map, without rights. *)
Definition ix (va n : Z) : nat := Z.to_nat (Z.land (Z.shiftr va n) 511).
Definition resolve_global (m : Mem) (va : Z) : option Z :=
  let e4 := ld m PML4 (ix va 39) in
  if negb (has e4 P) then None
  else
    let e3 := ld m (addr e4) (ix va 30) in
    if negb (has e3 P) then None
    else if has e3 PS then Some (Z.ldiff (addr e3) (ONE_GIB - 1) ||| Z.land va (ONE_GIB - 1))
    else
      let e2 := ld m (addr e3) (ix va 21) in
      if negb (has e2 P) then None
      else if has e2 PS then Some (Z.ldiff (addr e2) (TWO_MIB - 1) ||| Z.land va (TWO_MIB - 1))
      else
        let e1 := ld m (addr e2) (ix va 12) in
        if negb (has e1 P) then None else Some (addr e1 ||| Z.land va (PAGE - 1)).

Definition in_range (phys start : Z) (n : nat) : bool := (start <=? phys) && (phys <? start + Z.of_nat n * PAGE).
Definition is_static_table (phys : Z) : bool :=
  in_range phys PML4 1 || in_range phys PDPT 1 || in_range phys PD_base LOW_GIB || in_range phys PT_base FINE_BLOCKS
  || in_range phys ISO_base (LOW_GIB - 1) || in_range phys HIGH_base HIGH_DEV_SLOTS || in_range phys GUARD_base GUARD_BLOCKS.
Definition is_shared_high_pd (g : nat) (pd_phys : Z) : bool :=
  if (g =? 0)%nat then false else is_static_table pd_phys.

Definition protect_page (pa : Z) (perm : Perm) : M W bool :=
  if negb (pa mod PAGE =? 0) || (Z.of_nat FINE_BLOCKS * TWO_MIB <=? pa) then mret false
  else
    store (PT (Z.to_nat (pa / TWO_MIB))) (Z.to_nat ((pa mod TWO_MIB) / PAGE)) (pa ||| perm_bits perm) ≫= λ _,
    mret true.

(** ** Guard pages *)
Definition RECHTE : Z := P ||| RW ||| US ||| PWT ||| PCD ||| NX.
Definition guard_index (blk : Z) (l : list (option Z)) : option nat :=
  position (λ x, match x with Some b => b =? blk | None => false end) l.
Definition guard_block (pa : Z) : M W (option nat) :=
  let blk := pa / TWO_MIB in
  if (blk <? Z.of_nat FINE_BLOCKS) || (LOW_MAPPED_END <=? pa) then mret None
  else
    l ← gets guard_of;
    match guard_index blk l with
    | Some k => mret (Some k)
    | None =>
      match position (λ x, match x with Some _ => false | None => true end) l with
      | None => mret None
      | Some k =>
        let basis := blk * TWO_MIB in
        let gib := Z.to_nat (blk / 512) in
        let idx := Z.to_nat (blk mod 512) in
        alt ← load (PD gib) idx;
        if negb (has alt P) || negb (has alt PS) then mret None
        else
          let rechte := Z.land alt RECHTE in
          fill (GUARD_PT k) (λ i, (basis + Z.of_nat i * PAGE) ||| rechte) ≫= λ _,
          store (PD gib) idx (GUARD_PT k ||| P ||| RW ||| US) ≫= λ _,
          modify (with_guard_of (<[k := Some blk]> l)) ≫= λ _,
          mret (Some k)
      end
    end.
Definition guard_unmap (pa : Z) : M W bool :=
  if negb (pa mod PAGE =? 0) then mret false
  else
    o ← guard_block pa;
    match o with
    | None => modify (λ s, with_guards_denied (guards_denied s + 1) s) ≫= λ _, mret false
    | Some k =>
      store (GUARD_PT k) (Z.to_nat ((pa mod TWO_MIB) / PAGE)) 0 ≫= λ _,
      modify (λ s, with_guards_live (guards_live s + 1) (with_guards_total (guards_total s + 1) s)) ≫= λ _,
      mret true
    end.
Definition guard_remap (pa : Z) : M W bool :=
  if negb (pa mod PAGE =? 0) then mret false
  else
    l ← gets guard_of;
    match guard_index (pa / TWO_MIB) l with
    | None => mret false
    | Some k =>
      let idx := Z.to_nat ((pa mod TWO_MIB) / PAGE) in
      let nachbar := if (idx + 1 <? 512)%nat then (idx + 1)%nat else (idx - 1)%nat in
      e ← load (GUARD_PT k) nachbar;
      store (GUARD_PT k) idx (pa ||| Z.land e RECHTE) ≫= λ _,
      modify (λ s, with_guards_live (guards_live s - 1) s) ≫= λ _,
      mret true
    end.
Definition ist_wache (s : W) (pa : Z) : bool :=
  match guard_index (pa / TWO_MIB) (guard_of s) with
  | None => false
  | Some k => negb (has (ld (mem s) (GUARD_PT k) (Z.to_nat ((pa mod TWO_MIB) / PAGE))) P)
  end.

(** ** Address spaces of isolated domains

    [l1] is the uppermost table, [l2] the directory of the first GiB. *)
Definition pd_block_index (phys : Z) : option nat :=
  if (phys <? USER_RAM_MIN) || (GIB1_END <=? phys) || negb (phys mod TWO_MIB =? 0) then None
  else Some (Z.to_nat (phys / TWO_MIB)).

Definition vspace_create_base (l1 l2 : Z) : M W bool :=
  o ← allocate;
  match o with
  | None => mret false
  | Some pdpt_phys =>
    fill l2 (λ i, if (i <? FINE_BLOCKS)%nat then table_desc (PT i) else kernel_block (Z.of_nat i * TWO_MIB)) ≫= λ _,
    m ← gets mem;
    fill pdpt_phys (λ g, if (g =? 0)%nat then table_desc l2
                         else if (g <? LOW_GIB)%nat then table_desc (ISO_PD_HIGH (g - 1))
                         else Z.ldiff (ld m PDPT g) US) ≫= λ _,
    fill l1 (λ _, 0) ≫= λ _,
    store l1 0 (table_desc pdpt_phys) ≫= λ _,
    mret true
  end.

(** [vspace_map_block], [vspace_map_code_block] and [vspace_unmap_block] differ in the entry. *)
Definition set_block (f : Z → Z) (l2 phys : Z) : M W bool :=
  match pd_block_index phys with
  | None => mret false
  | Some idx => store l2 idx (f phys) ≫= λ _, mret true
  end.
Definition vspace_map_block : Z → Z → M W bool := set_block user_block.
Definition vspace_map_code_block : Z → Z → M W bool := set_block user_code_block.
Definition vspace_unmap_block : Z → Z → M W bool := set_block kernel_block.

Definition pt_for (pd : Z) (idx : nat) : M W (option Z) :=
  e ← load pd idx;
  if negb (has e PS) && has e P then mret (Some (addr e))
  else
    o ← allocate;
    match o with
    | None => mret None
    | Some pt_phys =>
      fill pt_phys (λ i, (Z.of_nat idx * TWO_MIB + Z.of_nat i * PAGE) ||| P ||| RW ||| NX) ≫= λ _,
      store pd idx (table_desc pt_phys) ≫= λ _,
      mret (Some pt_phys)
    end.
(** The index of the page of [va] in its table. *)
Definition page_index (va : Z) : nat := Z.to_nat ((va mod TWO_MIB) / PAGE).
Definition vspace_map_page_at (l2 va phys : Z) (perm : UserPerm) : M W bool :=
  if negb (va mod PAGE =? 0) || negb (phys mod PAGE =? 0) || (GIB1_END <=? va) then mret false
  else
    let idx := Z.to_nat (va / TWO_MIB) in
    if (idx <? FINE_BLOCKS)%nat then mret false
    else
      o ← pt_for l2 idx;
      match o with
      | None => mret false
      | Some pt_phys => store pt_phys (page_index va) (user_page phys perm) ≫= λ _, mret true
      end.
Definition vspace_map_page (l2 phys : Z) (perm : UserPerm) : M W bool := vspace_map_page_at l2 phys phys perm.
Definition vspace_unmap_page (l2 phys : Z) : M W bool :=
  if negb (phys mod PAGE =? 0) || (GIB1_END <=? phys) then mret false
  else
    e ← load l2 (Z.to_nat (phys / TWO_MIB));
    if negb (has e P) || has e PS then mret false
    else store (addr e) (page_index phys) (phys ||| P ||| RW ||| NX) ≫= λ _, mret true.

(** One round of the loop of [vspace_map_dma]. *)
Definition map_dma_page (l2 va : Z) (coherent : bool) : M W bool :=
  b ← vspace_map_page l2 va Rw;
  if negb b then mret false
  else if coherent then mret true
  else
    e ← load l2 (Z.to_nat (va / TWO_MIB));
    q ← load (addr e) (page_index va);
    store (addr e) (page_index va) (q ||| (PCD ||| PWT)) ≫= λ _, mret true.
(** [for off in 0, PAGE, 2 * PAGE, ..] up to the first round that fails. *)
Fixpoint page_loop (page : Z → M W bool) (n : nat) (va : Z) : M W bool :=
  match n with
  | O => mret true
  | S n => b ← page va; if b : bool then page_loop page n (va + PAGE) else mret false
  end.
Definition vspace_map_dma (l2 phys n : Z) (coherent : bool) : M W bool :=
  if (n =? 0) || negb (n mod PAGE =? 0) then mret false
  else page_loop (λ va, map_dma_page l2 va coherent) (Z.to_nat (n / PAGE)) phys.

Definition vspace_wx_ok (m : Mem) (l2 : Z) : nat :=
  sum_list (map (λ i,
    let e := ld m l2 i in
    if negb (has e P) then 0%nat
    else if has e PS then if wx e then 1%nat else 0%nat
    else if (FINE_BLOCKS <=? i)%nat
    then count_if (λ j, let p := ld m (addr e) j in has p P && wx p) (seq 0 512)
    else 0%nat) (seq 0 512)).

(** The last two levels of the walk of [vspace_resolve]. *)
Definition resolve_below (m : Mem) (pd : Z) (off va : Z) : option Z :=
  let e := ld m pd (Z.to_nat (Z.shiftr off 21)) in
  if negb (has e P) || negb (has e US) then None
  else if has e PS then Some (Z.land e BLOCK_ADDR ||| Z.land va (TWO_MIB - 1))
  else
    let q := ld m (addr e) (ix off 12) in
    if negb (has q P) || negb (has q US) then None else Some (addr q ||| Z.land va (PAGE - 1)).
Definition vspace_resolve (m : Mem) (l1 l2 va : Z) : option Z :=
  if va <? ONE_GIB then resolve_below m l2 va va
  else if (ISO_USER_VA <=? va) && (va <? ISO_USER_VA + 512 * TWO_MIB) then
    let e4 := ld m l1 1 in
    if negb (has e4 P) || negb (has e4 US) then None
    else
      let e3 := ld m (addr e4) 0 in
      if negb (has e3 P) || negb (has e3 US) then None
      else resolve_below m (addr e3) (va - ISO_USER_VA) va
  else None.

(** *** Windows of devices *)
Definition private_pd (pdpt : Z) (g : nat) : M W (option Z) :=
  e ← load pdpt g;
  let cur := addr e in
  let leaf := has e P && has e PS in
  if has e P && negb leaf && negb (is_shared_high_pd g cur) then mret (Some cur)
  else
    o ← allocate;
    match o with
    | None => mret None
    | Some new =>
      m ← gets mem;
      fill new (λ i, if leaf then block_addr g i ||| Z.ldiff e ADDR else if has e P then ld m cur i else 0) ≫= λ _,
      store pdpt g (table_desc new) ≫= λ _,
      (if (LOW_GIB <=? g)%nat then modify (λ s, with_high_private (high_private s + 1) s) else mret tt) ≫= λ _,
      mret (Some new)
    end.
Definition device_entry (pa : Z) (ro : bool) : Z := pa ||| P ||| US ||| NX ||| PCD ||| PWT ||| (if ro then 0 else RW).
(** The table below the entry [idx] of a directory; a block is taken apart with the flags it has. *)
Definition device_pt (pd : Z) (g idx : nat) : M W (option Z) :=
  e ← load pd idx;
  if has e P && negb (has e PS) then mret (Some (addr e))
  else
    o ← allocate;
    match o with
    | None => mret None
    | Some p =>
      let flags := if has e P then Z.ldiff (Z.ldiff e ADDR) PS else 0 in
      fill p (λ i, if flags =? 0 then 0 else (block_addr g idx + Z.of_nat i * PAGE) ||| flags) ≫= λ _,
      store pd idx (table_desc p) ≫= λ _,
      mret (Some p)
    end.
Definition map_device_page (l1 : Z) (ro : bool) (pa : Z) : M W bool :=
  let g := Z.to_nat (pa / ONE_GIB) in
  e ← load l1 0;
  if negb (has e P) then mret false
  else
    o ← private_pd (addr e) g;
    match o with
    | None => mret false
    | Some pd_phys =>
      o ← device_pt pd_phys g (Z.to_nat ((pa mod ONE_GIB) / TWO_MIB));
      match o with
      | None => mret false
      | Some pt_phys => store pt_phys (page_index pa) (device_entry pa ro) ≫= λ _, mret true
      end
    end.
Definition vspace_map_device (l1 phys n : Z) (ro : bool) : M W bool :=
  if (n =? 0) || negb (n mod PAGE =? 0) || negb (phys mod PAGE =? 0) then mret false
  else if Z.of_nat MAPPED_GIB * ONE_GIB <? saturating_add 64 phys n then mret false
  else page_loop (map_device_page l1 ro) (Z.to_nat (n / PAGE)) phys.

(** *** The window of a domain *)
Definition table_or_new (p : Z) (i : nat) : M W (option Z) :=
  e ← load p i;
  if has e P then mret (Some (addr e))
  else
    o ← allocate;
    match o with
    | None => mret None
    | Some new =>
      fill new (λ _, 0) ≫= λ _,
      store p i (table_desc new) ≫= λ _,
      mret (Some new)
    end.
Definition vspace_map_user_window (l1 : Z) (slot : nat) (phys n : Z) (perm : UserPerm) : M W (option Z) :=
  if (n =? 0) || negb (n mod PAGE =? 0) || negb (phys mod PAGE =? 0) || (TWO_MIB <? n) || (512 <=? slot)%nat then mret None
  else
    o ← table_or_new l1 1;
    match o with
    | None => mret None
    | Some pdpt_phys =>
      o ← table_or_new pdpt_phys 0;
      match o with
      | None => mret None
      | Some pd_phys =>
        if (n =? TWO_MIB) && (phys mod TWO_MIB =? 0) then
          store pd_phys slot (match perm with Rx => user_code_block phys | _ => user_block phys end) ≫= λ _,
          mret (Some (ISO_USER_VA + Z.of_nat slot * TWO_MIB))
        else
          o ← table_or_new pd_phys slot;
          match o with
          | None => mret None
          | Some pt_phys =>
            for_ (seq 0 (Z.to_nat (n / PAGE))) (λ i, store pt_phys i (user_page (phys + Z.of_nat i * PAGE) perm)) ≫= λ _,
            mret (Some (ISO_USER_VA + Z.of_nat slot * TWO_MIB))
          end
      end
    end.

(** *** Giving the tables back *)
Definition is_table (e : Z) : bool := has e P && negb (has e PS).
Definition vspace_collect_l3s (l2 : Z) : M W unit :=
  for_ (seq FINE_BLOCKS (512 - FINE_BLOCKS)) (λ i,
    e ← load l2 i;
    if is_table e then release (addr e) ≫= λ _, store l2 i 0 else mret tt).
(** The tables below a directory, and the directory. *)
Definition release_pd (pd : Z) : M W unit :=
  for_ (seq 0 512) (λ i, pe ← load pd i; if is_table pe then release (addr pe) else mret tt) ≫= λ _,
  release pd.
Definition vspace_collect_device_tables (l1 : Z) : M W unit :=
  e4 ← load l1 0;
  if negb (has e4 P) then mret tt
  else
    let pdpt := addr e4 in
    for_ (seq 1 (MAPPED_GIB - 1)) (λ g,
      e ← load pdpt g;
      if negb (has e P) || has e PS then mret tt
      else if is_shared_high_pd g (addr e) then mret tt
      else release_pd (addr e) ≫= λ _, store pdpt g 0) ≫= λ _,
    release pdpt ≫= λ _,
    store l1 0 0.
Definition vspace_collect_user_window (l1 : Z) : M W unit :=
  e4 ← load l1 1;
  if negb (has e4 P) then mret tt
  else
    let pdpt := addr e4 in
    e3 ← load pdpt 0;
    (if has e3 P then release_pd (addr e3) else mret tt) ≫= λ _,
    release pdpt ≫= λ _,
    store l1 1 0.

Definition vspace_device_wx_ok (m : Mem) (l1 : Z) : bool :=
  let e4 := ld m l1 0 in
  if negb (has e4 P) then true
  else
    forallb (λ g,
      let e := ld m (addr e4) g in
      if negb (has e P) then true
      else if has e PS then negb (wx e)
      else if is_shared_high_pd g (addr e) then true
      else
        forallb (λ i,
          let pe := ld m (addr e) i in
          if negb (has pe P) then true
          else if has pe PS then negb (wx pe)
          else forallb (λ j, let leaf := ld m (addr pe) j in negb (has leaf P && wx leaf)) (seq 0 512)) (seq 0 512))
      (seq 1 (MAPPED_GIB - 1)).
End mmu.

(** ** The processor

    How the hardware reads an address for a user: every level has to be present and for users, and the
    rights are those all levels give.  The answer is the physical address, and whether it may be
    written and executed. *)
Definition level (m : Mem) (p : Z) (i : nat) : option Z :=
  let e := ld m p i in if has e P && has e US then Some e else None.
Definition uwalk (m : Mem) (root va : Z) : option (Z * bool * bool) :=
  e4 ← level m root (ix va 39);
  e3 ← level m (addr e4) (ix va 30);
  let w3 := has e4 RW && has e3 RW in
  let x3 := negb (has e4 NX) && negb (has e3 NX) in
  if has e3 PS then Some (Z.ldiff (addr e3) (ONE_GIB - 1) ||| Z.land va (ONE_GIB - 1), w3, x3)
  else
    e2 ← level m (addr e3) (ix va 21);
    let w2 := w3 && has e2 RW in
    let x2 := x3 && negb (has e2 NX) in
    if has e2 PS then Some (Z.land e2 BLOCK_ADDR ||| Z.land va (TWO_MIB - 1), w2, x2)
    else
      e1 ← level m (addr e2) (ix va 12);
      Some (addr e1 ||| Z.land va (PAGE - 1), w2 && has e1 RW, x2 && negb (has e1 NX)).

(** ** Entries

    What the tests of the source read from an entry that was put together of a frame and flags. *)
Definition page (p : Z) : Prop := 0 <= p < 2 ^ 52 ∧ (PAGE | p).

Lemma ADDR_shift : ADDR = Z.shiftl (Z.ones 40) 12.
Proof. reflexivity. Qed.
Lemma page_land p : page p → Z.land p ADDR = p.
Proof.
  intros [Hp [k ->]]. assert (0 <= k < 2 ^ 40) as Hk by (change (2 ^ 52) with (4096 * 2 ^ 40) in Hp; unfold PAGE in Hp; lia).
  change PAGE with (2 ^ 12). rewrite <-Z.shiftl_mul_pow2 by done. rewrite ADDR_shift, <-Z.shiftl_land, Z.land_ones by done.
  by rewrite Z.mod_small.
Qed.
Lemma page_flag p b : page p → Z.land b ADDR = 0 → Z.land p b = 0.
Proof. intros Hp Hb. rewrite <-(page_land p Hp), <-Z.land_assoc, (Z.land_comm ADDR b), Hb. apply Z.land_0_r. Qed.
Lemma addr_or p f : page p → Z.land f ADDR = 0 → addr (p ||| f) = p.
Proof. intros Hp Hf. unfold addr. by rewrite Z.land_lor_distr_l, Hf, Z.lor_0_r, page_land. Qed.
Lemma has_or p f b : page p → Z.land b ADDR = 0 → has (p ||| f) b = has f b.
Proof. intros Hp Hb. unfold has. by rewrite Z.land_lor_distr_l, page_flag. Qed.
Lemma has_0 b : has 0 b = false.
Proof. done. Qed.
Lemma has_pow e n : 0 <= n → has e (2 ^ n) = Z.testbit e n.
Proof.
  intros Hn. unfold has. destruct (Z.testbit e n) eqn:E.
  - apply negb_true_iff, Z.eqb_neq. intros H. apply (f_equal (λ z, Z.testbit z n)) in H.
    rewrite Z.land_spec, E, Z.pow2_bits_true, Z.bits_0 in H by done. done.
  - apply negb_false_iff, Z.eqb_eq. apply Z.bits_inj'. intros k Hk. rewrite Z.land_spec, Z.bits_0, Z.pow2_bits_eqb by done.
    destruct (Z.eqb_spec n k) as [<-|]; [by rewrite E|apply andb_false_r].
Qed.
Lemma addr_page e : page (addr e).
Proof.
  unfold page, addr. rewrite ADDR_shift. replace (Z.land e (Z.shiftl (Z.ones 40) 12)) with (Z.shiftl (Z.land (Z.shiftr e 12) (Z.ones 40)) 12).
  - rewrite Z.land_ones, Z.shiftl_mul_pow2 by done. pose proof (Z.mod_pos_bound (Z.shiftr e 12) (2 ^ 40) ltac:(done)).
    change PAGE with (2 ^ 12). split; [lia|]. by exists (Z.shiftr e 12 mod 2 ^ 40).
  - apply Z.bits_inj'. intros n Hn. rewrite Z.land_spec, !Z.shiftl_spec, Z.land_spec by done.
    destruct (decide (n < 12)); [rewrite (Z.testbit_neg_r (Z.shiftr e 12)), (Z.testbit_neg_r (Z.ones 40)) by lia; by rewrite !andb_false_r|].
    rewrite Z.shiftr_spec by lia. by replace (n - 12 + 12) with n by lia.
Qed.
Lemma page_add p k : page p → 0 <= k → p + k * PAGE < 2 ^ 52 → page (p + k * PAGE).
Proof. intros [Hp [c ->]] Hk Hl. split; [unfold PAGE in *; lia|]. exists (c + k). lia. Qed.
Lemma page_mul k : 0 <= k < 2 ^ 40 → page (k * PAGE).
Proof. intros Hk. split; [unfold PAGE; lia|by exists k]. Qed.

(** Computes a test on an entry: [p ||| flags], the flags known. *)
Ltac flags :=
  rewrite <-?Z.lor_assoc;
  repeat match goal with
  | Hp : page ?p |- context [has (?p ||| ?f) ?b] => rewrite (has_or p f b Hp eq_refl)
  | Hp : page ?p |- context [addr (?p ||| ?f)] => rewrite (addr_or p f Hp eq_refl)
  end; try reflexivity.

Lemma table_desc_spec p : page p →
  has (table_desc p) P = true ∧ has (table_desc p) US = true ∧ has (table_desc p) RW = true ∧ has (table_desc p) NX = false ∧
  has (table_desc p) PS = false ∧ addr (table_desc p) = p.
Proof. intros Hp. unfold table_desc. split_and!; flags. Qed.
Lemma table_desc_inj p q : page p → page q → table_desc p = table_desc q → p = q.
Proof. intros Hp Hq H. apply (f_equal addr) in H. unfold table_desc in H. rewrite <-!Z.lor_assoc, !addr_or in H by (assumption || reflexivity). done. Qed.

(** ** Tables *)
Lemma ld_st p i v m q j : ld (st p i v m) q j = if decide (p = q ∧ i = j) then v else ld m q j.
Proof.
  unfold ld, st. case_decide as H; [destruct H as [-> ->]; by rewrite lookup_insert_eq|]. rewrite lookup_insert_ne; [done|]. intros [= -> ->]. by apply H.
Qed.
Lemma ld_filled p f m q j : ld (filled p f m) q j = if decide (p = q ∧ (j < 512)%nat) then f j else ld m q j.
Proof.
  unfold filled. assert (∀ n k, ld (foldr (λ i, st p i (f i)) m (seq k n)) q j = if decide (p = q ∧ (k <= j < k + n)%nat) then f j else ld m q j) as Hg.
  { induction n as [|n IH]; intros k; cbn [seq foldr]; [by rewrite decide_False by lia|]. rewrite ld_st, IH.
    repeat case_decide; try done; destruct_and?; subst; try lia; done. }
  rewrite Hg. repeat case_decide; try done; lia.
Qed.

Section wp.
Context {A : Type}.
Lemma wp_load p i (s : Vm A) Q : (i < 512)%nat → Q (ld (mem s) p i) s → wp (load p i) s Q.
Proof. intros Hi HQ. unfold load. rewrite (proj2 (Nat.ltb_lt _ _)) by done. by apply wp_gets. Qed.
Lemma wp_store p i v (s : Vm A) (Q : unit → Vm A → Prop) : (i < 512)%nat → Q tt (with_mem (st p i v (mem s)) s) → wp (store p i v) s Q.
Proof. intros Hi HQ. unfold store. rewrite (proj2 (Nat.ltb_lt _ _)) by done. by apply wp_modify. Qed.
End wp.

(** A loop over a range, with what holds before each round. *)
Lemma wp_range {S} (I : nat → S → Prop) n : ∀ k (f : nat → M S unit) s, I k s →
  (∀ i s, (k <= i < k + n)%nat → I i s → wp (f i) s (λ _ s, I (i + 1)%nat s)) → wp (for_ (seq k n) f) s (λ _ s, I (k + n)%nat s).
Proof.
  induction n as [|n IH]; intros k f s HI Hf; cbn [seq].
  - apply wp_ret. rewrite (Nat.add_0_r k). exact HI.
  - apply wp_bind. eapply wp_mono; [apply Hf; [lia|done]|]. cbn beta. intros [] s1 H1. replace (k + Datatypes.S n)%nat with (Datatypes.S k + n)%nat by lia.
    apply IH; [by rewrite Nat.add_1_r in H1|]. intros i s2 Hi. apply Hf. lia.
Qed.

Lemma ix_lt va n : (ix va n < 512)%nat.
Proof. unfold ix. change 511 with (Z.ones 9). rewrite Z.land_ones by done. pose proof (Z.mod_pos_bound (Z.shiftr va n) (2 ^ 9) ltac:(done)). lia. Qed.
Lemma offset_add a va n : 0 <= n → (2 ^ n | a) → a ||| Z.land va (2 ^ n - 1) = a + va mod 2 ^ n.
Proof.
  intros Hn [c ->]. replace (2 ^ n - 1) with (Z.ones n) by (rewrite Z.ones_equiv; lia). rewrite <-Z.add_lor_land, Z.land_ones by done.
  replace (Z.land (c * 2 ^ n) (va mod 2 ^ n)) with 0; [lia|]. symmetry. apply Z.bits_inj'. intros k Hk. rewrite Z.land_spec, Z.bits_0.
  destruct (decide (k < n)); [by rewrite Z.mul_pow2_bits_low|]. rewrite Z.mod_pow2_bits_high by lia. apply andb_false_r.
Qed.
