(* ===== verification/Vspace.v ===== *)
(** * Address spaces: what a user can reach

    The functions of [Mmu] against a view of each address space; bring-up and the guard pages, which
    give the users of isolated spaces nothing.  [own] names the frame of every private table and its place in the tree
    of its space; the granted pages [G] are what the processor finds ([uwalk]). *)

From S2P Require Import Prelude.
From S2P Require Import PanicMonad.
From S2P Require Import Mmu.
From stdpp Require Import gmap.
#[local] Open Scope Z_scope.
#[local] Open Scope mmu_scope.

(** ** The static tables *)
Section image.
Context `{Image}.
Definition statics : list Z :=
  [PML4; PDPT] ++ (PD <$> seq 0 LOW_GIB) ++ (PT <$> seq 0 FINE_BLOCKS) ++ (ISO_PD_HIGH <$> seq 0 (LOW_GIB - 1))
  ++ (HIGH_DEV_PD <$> seq 0 HIGH_DEV_SLOTS) ++ (GUARD_PT <$> seq 0 GUARD_BLOCKS).
(** The linker places them on pages of the machine, apart from each other. *)
Definition image_ok : Prop := Forall page statics ∧ NoDup statics.

(** What no user may find in the tables that all address spaces share. *)
Definition shared_leaf (e : Z) : Prop := has e US = false ∧ is_table e = false.
Record statics_ok (m : Mem) : Prop := {
  s_iso : ∀ k i, (k < LOW_GIB - 1)%nat → (i < 512)%nat → shared_leaf (ld m (ISO_PD_HIGH k) i);
  s_high : ∀ k i, (k < HIGH_DEV_SLOTS)%nat → (i < 512)%nat → shared_leaf (ld m (HIGH_DEV_PD k) i);
  s_pdpt : ∀ g, (LOW_GIB <= g < 512)%nat → is_table (ld m PDPT g) = true →
    ∃ k, (k < HIGH_DEV_SLOTS)%nat ∧ addr (ld m PDPT g) = HIGH_DEV_PD k }.

Lemma static_range base n k : page base → (k < n)%nat → in_range (base + Z.of_nat k * PAGE) base n = true.
Proof. intros Hp Hk. unfold in_range, PAGE. apply andb_true_iff. split; [apply Z.leb_le|apply Z.ltb_lt]; lia. Qed.
End image.

(** ** The tree of an address space *)
Inductive place := Pml4 | Pdpt (t : nat) | Pd (t g : nat) | Pt (t g i : nat).
#[global] Instance place_eq_dec : EqDecision place.
Proof. solve_decision. Defined.
(** The place above, and the entry there. *)
Definition parent (pl : place) : option (place * nat) :=
  match pl with
  | Pml4 => None | Pdpt t => Some (Pml4, t) | Pd t g => Some (Pdpt t, g) | Pt t g i => Some (Pd t g, i)
  end.
(** Frames of private tables: the space, and the place in its tree. *)
Notation Own := (gmap Z (nat * place)).
(** A page by its indices in the four levels; a grant is its frame and whether it may be written and
    executed. *)
Notation Grants := (nat → nat → nat → nat → nat → option (Z * bool * bool)).

Definition grant (e pa : Z) : option (Z * bool * bool) :=
  if has e P && has e US then Some (pa, has e RW, negb (has e NX)) else None.
Definition page_grant (e : Z) : option (Z * bool * bool) := grant e (addr e).
Definition block_grant (e : Z) (j : nat) : option (Z * bool * bool) := grant e (Z.land e BLOCK_ADDR + Z.of_nat j * PAGE).

Section tree.
Context `{Image}.
Definition link (own : Own) (a : nat) (pl : place) (e : Z) : Prop := ∃ q, e = table_desc q ∧ own !! q = Some (a, pl).
(** An entry of the third level that is not the space's own. *)
Definition foreign (g : nat) (e : Z) : Prop :=
  ((g < LOW_GIB)%nat ∧ e = table_desc (ISO_PD_HIGH (g - 1))) ∨
  ((LOW_GIB <= g)%nat ∧ has e US = false ∧ (is_table e = true → ∃ k, (k < HIGH_DEV_SLOTS)%nat ∧ addr e = HIGH_DEV_PD k)).
(** A block in a directory: above the first GiB no user's, in the window only users'. *)
Definition leaf_ok (t g : nat) (e : Z) : Prop :=
  is_table e = false ∧ (t = 0%nat → g = 0%nat ∨ has e US = false) ∧ (t = 1%nat → has e P = true → has e US = true).
Definition image_block (t g i : nat) : bool := (t =? 0)%nat && (g =? 0)%nat && (i <? FINE_BLOCKS)%nat.

Definition node_ok (own : Own) (G : Grants) (a : nat) (pl : place) (i : nat) (e : Z) : Prop :=
  match pl with
  | Pml4 =>
    match i with
    | O => link own a (Pdpt 0) e
    | S O => (e = 0 ∧ ∀ g k j, G a 1%nat g k j = None) ∨ link own a (Pdpt 1) e
    | _ => e = 0 ∧ ∀ g k j, G a i g k j = None
    end
  | Pdpt O =>
    match i with
    | O => link own a (Pd 0 0) e
    | _ => (foreign i e ∧ ∀ k j, G a 0%nat i k j = None) ∨ link own a (Pd 0 i) e
    end
  | Pdpt t => (e = 0 ∧ ∀ k j, G a t i k j = None) ∨ (t = 1%nat ∧ i = 0%nat ∧ link own a (Pd 1 0) e)
  | Pd t g =>
    if image_block t g i then e = table_desc (PT i)
    else (leaf_ok t g e ∧ ∀ j, (j < 512)%nat → G a t g i j = block_grant e j) ∨ link own a (Pt t g i) e
  | Pt t g k => G a t g k i = page_grant e
  end.

(** [held]: the frames that are lent for tables. *)
Record tree_ok (own : Own) (G : Grants) (m : Mem) (held : gset Z) : Prop := {
  t_frames : ∀ p x, own !! p = Some x → page p ∧ is_static_table p = false ∧ p ∈ held;
  t_nodes : ∀ p (a : nat) pl i, own !! p = Some (a, pl) → (i < 512)%nat → node_ok own G a pl i (ld m p i);
  t_inj : ∀ p q x, own !! p = Some x → own !! q = Some x → p = q;
  t_up : ∀ q (a : nat) pl pl' i, own !! q = Some (a, pl) → parent pl = Some (pl', i) →
    (i < 512)%nat ∧ ∃ p, own !! p = Some (a, pl') ∧ ld m p i = table_desc q;
  t_statics : statics_ok m;
  t_wx : ∀ (a t g i j : nat) pa w x, G a t g i j = Some (pa, w, x) → w && x = false }.

(** *** The walk of the processor *)
Context (Himg : image_ok).
Lemma static_page p : p ∈ statics → page p.
Proof. destruct Himg as [Hf _]. rewrite Forall_forall in Hf. apply Hf. Qed.
Lemma iso_page k : (k < LOW_GIB - 1)%nat → page (ISO_PD_HIGH k).
Proof. intros Hk. apply static_page. unfold statics. rewrite !elem_of_app. do 3 right. left. apply list_elem_of_fmap. exists k. split; [done|]. apply elem_of_seq. lia. Qed.
Lemma pt_page b : (b < FINE_BLOCKS)%nat → page (PT b).
Proof. intros Hb. apply static_page. unfold statics. rewrite !elem_of_app. do 2 right. left. apply list_elem_of_fmap. exists b. split; [done|]. apply elem_of_seq. lia. Qed.

Lemma level_table m p i q : page q → ld m p i = table_desc q → level m p i = Some (table_desc q).
Proof. intros Hq E. unfold level. rewrite E. destruct (table_desc_spec q Hq) as (-> & -> & _). done. Qed.
Lemma level_none m p i : has (ld m p i) P && has (ld m p i) US = false → level m p i = None.
Proof. intros E. unfold level. by rewrite E. Qed.
Lemma link_page own G m held a pl e : tree_ok own G m held → link own a pl e → ∃ q, e = table_desc q ∧ own !! q = Some (a, pl) ∧ page q.
Proof. intros T (q & -> & Hq). exists q. split_and!; [done|done|]. by apply (t_frames _ _ _ _ T) in Hq as (? & _). Qed.

(** The last two levels of the walk, with the rights of the levels above. *)
Definition walk_below (m : Mem) (pd va : Z) : option (Z * bool * bool) :=
  e2 ← level m pd (ix va 21);
  if has e2 PS then Some (Z.land e2 BLOCK_ADDR ||| Z.land va (TWO_MIB - 1), has e2 RW, negb (has e2 NX))
  else
    e1 ← level m (addr e2) (ix va 12);
    Some (addr e1 ||| Z.land va (PAGE - 1), has e2 RW && has e1 RW, negb (has e2 NX) && negb (has e1 NX)).
Definition at_offset (va : Z) (g : option (Z * bool * bool)) : option (Z * bool * bool) :=
  (λ x, (x.1.1 + va mod PAGE, x.1.2, x.2)) <$> g.

Lemma page_offset pa va : (PAGE | pa) → pa ||| Z.land va (PAGE - 1) = pa + va mod PAGE.
Proof. intros Hd. change PAGE with (2 ^ 12) in *. by apply offset_add. Qed.
Lemma block_offset e va : Z.land e BLOCK_ADDR ||| Z.land va (TWO_MIB - 1) = Z.land e BLOCK_ADDR + Z.of_nat (ix va 12) * PAGE + va mod PAGE.
Proof.
  change TWO_MIB with (2 ^ 21). rewrite offset_add; [|done|].
  - unfold ix. change 511 with (Z.ones 9). rewrite Z.land_ones, Z.shiftr_div_pow2 by done. rewrite Z2Nat.id by (apply Z.mod_pos_bound; done).
    change PAGE with 4096. change (2 ^ 12) with 4096. change (2 ^ 9) with 512. change (2 ^ 21) with (4096 * 512). rewrite Z.rem_mul_r by done. lia.
  - change BLOCK_ADDR with (Z.shiftl (Z.ones 31) 21). apply Z.mod_divide; [done|]. rewrite <-Z.land_ones by done. apply Z.bits_inj'. intros k Hk.
    rewrite !Z.land_spec, Z.bits_0, Z.shiftl_spec by done. destruct (decide (k < 21)).
    + rewrite (Z.testbit_neg_r (Z.ones 31)) by lia. by rewrite andb_false_r.
    + rewrite (Z.ones_spec_high 21) by lia. apply andb_false_r.
Qed.
Lemma addr_divide e : (PAGE | addr e).
Proof. apply addr_page. Qed.

Lemma walk_dir own G m held a t g pd va : tree_ok own G m held → own !! pd = Some (a, Pd t g) →
  image_block t g (ix va 21) = false → walk_below m pd va = at_offset va (G a t g (ix va 21) (ix va 12)).
Proof.
  intros T Hpd Hi. pose proof (t_nodes _ _ _ _ T pd a _ (ix va 21) Hpd (ix_lt _ _)) as Hn. cbn [node_ok] in Hn. rewrite Hi in Hn.
  unfold walk_below. destruct Hn as [[[Hl _] HG]|Hl].
  - rewrite HG by apply ix_lt. unfold level, block_grant, grant. unfold is_table in Hl. destruct (has (ld m pd (ix va 21)) P); [|done].
    cbn in Hl. apply negb_false_iff in Hl. destruct (has (ld m pd (ix va 21)) US); [|done]. cbn. rewrite Hl. by rewrite block_offset.
  - apply (link_page _ _ _ _ _ _ _ T) in Hl as (q & E & Hq & Hp). rewrite (level_table _ _ _ _ Hp E). cbn.
    destruct (table_desc_spec q Hp) as (_ & _ & -> & -> & -> & ->).
    pose proof (t_nodes _ _ _ _ T q a _ (ix va 12) Hq (ix_lt _ _)) as ->. unfold level, page_grant, grant.
    destruct (has _ P && has _ US); [|done]. cbn. by rewrite page_offset by apply addr_divide.
Qed.

Definition walk_third (m : Mem) (pdpt va : Z) : option (Z * bool * bool) :=
  e3 ← level m pdpt (ix va 30);
  if has e3 PS then Some (Z.ldiff (addr e3) (ONE_GIB - 1) ||| Z.land va (ONE_GIB - 1), has e3 RW, negb (has e3 NX))
  else (λ x, (x.1.1, has e3 RW && x.1.2, negb (has e3 NX) && x.2)) <$> walk_below m (addr e3) va.
Lemma walk_third_link own G m held a t g pdpt va : tree_ok own G m held → link own a (Pd t g) (ld m pdpt (ix va 30)) →
  image_block t g (ix va 21) = false → walk_third m pdpt va = at_offset va (G a t g (ix va 21) (ix va 12)).
Proof.
  intros T Hl Hi. apply (link_page _ _ _ _ _ _ _ T) in Hl as (q & E & Hq & Hp). unfold walk_third. rewrite (level_table _ _ _ _ Hp E). cbn.
  destruct (table_desc_spec q Hp) as (_ & _ & -> & -> & -> & ->). rewrite (walk_dir own G m held a t g) by done.
  by destruct (G a t g _ _) as [[[pa w] x]|].
Qed.
Lemma walk_third_foreign m pdpt va g : statics_ok m → (0 < g < 512)%nat → ix va 30 = g → foreign g (ld m pdpt g) → walk_third m pdpt va = None.
Proof.
  intros Hs Hg Eg [[Hl E]|(Hl & E & _)]; unfold walk_third; rewrite Eg.
  - assert (page (ISO_PD_HIGH (g - 1))) as Hp by (apply iso_page; lia). rewrite (level_table _ _ _ _ Hp E). cbn.
    destruct (table_desc_spec _ Hp) as (_ & _ & _ & _ & -> & ->). unfold walk_below. rewrite level_none; [done|].
    destruct (s_iso _ Hs (g - 1) (ix va 21)) as [-> _]; [lia|apply ix_lt|apply andb_false_r].
  - rewrite level_none; [done|]. rewrite E. apply andb_false_r.
Qed.
Lemma walk_third_exact own G m held a t pdpt va : tree_ok own G m held → own !! pdpt = Some (a, Pdpt t) →
  image_block t (ix va 30) (ix va 21) = false → walk_third m pdpt va = at_offset va (G a t (ix va 30) (ix va 21) (ix va 12)).
Proof.
  intros T Hq Hi. pose proof (t_nodes _ _ _ _ T pdpt a _ (ix va 30) Hq (ix_lt _ _)) as Hn. pose proof (ix_lt va 30).
  cbn [node_ok] in Hn. destruct t as [|t].
  - destruct (ix va 30) as [|g] eqn:Eg.
    + eapply walk_third_link; [done| |done]. by rewrite Eg.
    + destruct Hn as [[Hf ->]|Hl]; [|eapply walk_third_link; [done|by rewrite Eg|done]].
      rewrite (walk_third_foreign m pdpt va (S g)); [done|apply T|lia|done|done].
  - destruct Hn as [[E ->]|(-> & Eg & Hl)]; [|rewrite Eg in *; eapply walk_third_link; [done|by rewrite Eg|done]].
    unfold walk_third. rewrite level_none by (by rewrite E). done.
Qed.

Lemma walk_exact own G m held a l1 va : tree_ok own G m held → own !! l1 = Some (a, Pml4) →
  image_block (ix va 39) (ix va 30) (ix va 21) = false →
  uwalk m l1 va = at_offset va (G a (ix va 39) (ix va 30) (ix va 21) (ix va 12)).
Proof.
  intros T Hl1 Hi. pose proof (t_nodes _ _ _ _ T l1 a _ (ix va 39) Hl1 (ix_lt _ _)) as Hn. cbn [node_ok] in Hn.
  assert (∀ t, ix va 39 = t → link own a (Pdpt t) (ld m l1 (ix va 39)) →
    uwalk m l1 va = at_offset va (G a t (ix va 30) (ix va 21) (ix va 12))) as Hgo.
  { intros t Et Hl. apply (link_page _ _ _ _ _ _ _ T) in Hl as (q & E & Hq & Hp). rewrite Et in Hi.
    rewrite <-(walk_third_exact own G m held a t q va) by done.
    unfold uwalk, walk_third, walk_below. rewrite (level_table _ _ _ _ Hp E). cbn.
    destruct (table_desc_spec q Hp) as (_ & _ & -> & -> & _ & ->). cbn.
    destruct (level m q (ix va 30)) as [e3|]; [|done]. cbn. destruct (has e3 PS); [done|].
    destruct (level m (addr e3) (ix va 21)) as [e2|]; [|done]. cbn. destruct (has e2 PS); [done|].
    destruct (level m (addr e2) (ix va 12)) as [e1|]; [|done]. cbn. by rewrite !andb_assoc. }
  assert (ld m l1 (ix va 39) = 0 → uwalk m l1 va = None) as Hz by (intros E; unfold uwalk; by rewrite level_none by (by rewrite E)).
  destruct (ix va 39) as [|[|t]] eqn:Et; [by apply Hgo| |destruct Hn as [E ->]; by apply Hz].
  destruct Hn as [[E ->]|Hl]; [by apply Hz|by apply Hgo].
Qed.

(** *** Resolving an address *)
Lemma resolve_below_walk m pd off va : Z.to_nat (Z.shiftr off 21) = ix va 21 → ix off 12 = ix va 12 →
  resolve_below m pd off va = (λ x, x.1.1) <$> walk_below m pd va.
Proof.
  intros E1 E2. unfold resolve_below, walk_below, level. rewrite E1, E2. rewrite <-negb_andb.
  destruct (has (ld m pd (ix va 21)) P && has (ld m pd (ix va 21)) US); [|done]. cbn. destruct (has _ PS); [done|].
  rewrite <-negb_andb. by destruct (has _ P && has _ US).
Qed.
Lemma ix_div va n k : 0 <= n → 0 <= va → va / 2 ^ n = k → 0 <= k < 512 → ix va n = Z.to_nat k.
Proof. intros Hn Hv E Hk. unfold ix. change 511 with (Z.ones 9). rewrite Z.land_ones, Z.shiftr_div_pow2, E by done. by rewrite Z.mod_small. Qed.

Lemma resolve_walk own G m held a l1 l2 va : tree_ok own G m held → own !! l1 = Some (a, Pml4) → own !! l2 = Some (a, Pd 0 0) → 0 <= va →
  vspace_resolve m l1 l2 va =
    if (va <? ONE_GIB) || (ISO_USER_VA <=? va) && (va <? ISO_USER_VA + ONE_GIB) then (λ x, x.1.1) <$> uwalk m l1 va else None.
Proof.
  intros T H1 H2 Hva. unfold vspace_resolve. change (512 * TWO_MIB) with ONE_GIB.
  assert (∀ t pd off, ix va 39 = t → ix va 30 = 0%nat → Z.to_nat (Z.shiftr off 21) = ix va 21 → ix off 12 = ix va 12 →
    (∃ q, ld m l1 t = table_desc q ∧ page q ∧ ld m q 0 = table_desc pd ∧ page pd) →
    resolve_below m pd off va = (λ x, x.1.1) <$> uwalk m l1 va) as Hgo.
  { intros t pd off E39 E30 E1 E2 (q & Eq & Hq & Ep & Hp). rewrite (resolve_below_walk _ _ _ _ E1 E2). unfold uwalk, walk_below.
    rewrite E39, E30, (level_table _ _ _ _ Hq Eq). cbn. destruct (table_desc_spec q Hq) as (_ & _ & _ & _ & _ & ->).
    rewrite (level_table _ _ _ _ Hp Ep). cbn. destruct (table_desc_spec pd Hp) as (_ & _ & _ & _ & -> & ->).
    destruct (level m pd (ix va 21)) as [e2|]; [|done]. cbn. destruct (has e2 PS); [done|]. by destruct (level m (addr e2) (ix va 12)). }
  destruct (Z.ltb_spec va ONE_GIB) as [Hlow|Hlow]; cbn [orb].
  - assert (∃ q, ld m l1 0 = table_desc q ∧ page q ∧ ld m q 0 = table_desc l2 ∧ page l2) as Hl.
    { pose proof (t_nodes _ _ _ _ T l1 a _ 0%nat H1 ltac:(lia)) as Hn. apply (link_page _ _ _ _ _ _ _ T) in Hn as (q & Eq & Hq & Hp).
      pose proof (t_nodes _ _ _ _ T q a _ 0%nat Hq ltac:(lia)) as Hn. apply (link_page _ _ _ _ _ _ _ T) in Hn as (r & Er & Hr & Hpr).
      rewrite (t_inj _ _ _ _ T r l2 _ Hr H2) in Er, Hpr. by exists q. }
    apply (Hgo 0%nat); [..|exact Hl]; [| | |done].
    + apply (ix_div va 39 0); [done|done|apply Z.div_small; unfold ONE_GIB in Hlow; lia|done].
    + apply (ix_div va 30 0); [done|done|apply Z.div_small; unfold ONE_GIB in Hlow; lia|done].
    + symmetry. rewrite Z.shiftr_div_pow2 by done. apply ix_div; [done|done|done|]. unfold ONE_GIB in Hlow.
      split; [by apply Z.div_pos|]. by apply Z.div_lt_upper_bound.
  - destruct (Z.leb_spec ISO_USER_VA va) as [Hlo|]; [|done]. destruct (Z.ltb_spec va (ISO_USER_VA + ONE_GIB)) as [Hhi|]; [|done]. cbn [andb].
    assert (∃ k, va = ISO_USER_VA + k ∧ 0 <= k < 2 ^ 30) as (k & -> & Hk) by (exists (va - ISO_USER_VA); unfold ONE_GIB in *; lia).
    replace (ISO_USER_VA + k - ISO_USER_VA) with k by lia. change ISO_USER_VA with (2 ^ 39) in *.
    assert (ix (2 ^ 39 + k) 39 = 1%nat) as E39.
    { apply (ix_div _ _ 1); [done|lia| |done]. replace (2 ^ 39 + k) with (k + 1 * 2 ^ 39) by lia. rewrite Z.div_add, Z.div_small by lia. done. }
    assert (ix (2 ^ 39 + k) 30 = 0%nat) as E30.
    { unfold ix. change 511 with (Z.ones 9). rewrite Z.land_ones, Z.shiftr_div_pow2 by done.
      replace (2 ^ 39 + k) with (k + 512 * 2 ^ 30) by lia. rewrite Z.div_add, Z.div_small by lia. done. }
    pose proof (t_nodes _ _ _ _ T l1 a _ 1%nat H1 ltac:(lia)) as Hn. destruct Hn as [[E _]|Hl].
    { rewrite E. unfold uwalk. rewrite level_none; [done|]. by rewrite E39, E. }
    apply (link_page _ _ _ _ _ _ _ T) in Hl as (q & Eq & Hq & Hp). rewrite Eq. destruct (table_desc_spec q Hp) as (-> & -> & _ & _ & _ & ->). cbn [negb orb].
    pose proof (t_nodes _ _ _ _ T q a _ 0%nat Hq ltac:(lia)) as Hn. cbn [node_ok] in Hn. destruct Hn as [[E _]|(_ & _ & Hl)].
    { rewrite E. unfold uwalk. rewrite E39, E30, (level_table _ _ _ _ Hp Eq). cbn. destruct (table_desc_spec q Hp) as (_ & _ & _ & _ & _ & ->).
      rewrite level_none by (by rewrite E). done. }
    apply (link_page _ _ _ _ _ _ _ T) in Hl as (r & Er & Hr & Hpr). rewrite Er. destruct (table_desc_spec r Hpr) as (-> & -> & _ & _ & _ & ->). cbn [negb orb].
    apply (Hgo 1%nat); [done|done| | |by exists q].
    + unfold ix. change 511 with (Z.ones 9). rewrite Z.land_ones, !Z.shiftr_div_pow2 by done.
      replace (2 ^ 39 + k) with (k + 2 ^ 18 * 2 ^ 21) by lia. rewrite Z.div_add by done. change (2 ^ 18) with (512 * 2 ^ 9). rewrite Z.mod_add by done.
      rewrite Z.mod_small; [done|]. split; [apply Z.div_pos; lia|]. apply Z.div_lt_upper_bound; lia.
    + unfold ix. change 511 with (Z.ones 9). rewrite !Z.land_ones, !Z.shiftr_div_pow2 by done.
      replace (2 ^ 39 + k) with (k + 2 ^ 27 * 2 ^ 12) by lia. rewrite Z.div_add by done. change (2 ^ 27) with (2 ^ 18 * 2 ^ 9). by rewrite Z.mod_add.
Qed.

(** *** Changing a tree *)
Lemma image_static k : (k < FINE_BLOCKS)%nat → is_static_table (PT k) = true.
Proof.
  intros Hk. unfold is_static_table, PT. rewrite (static_range PT_base FINE_BLOCKS k); [by rewrite !orb_true_r|..|done].
  pose proof (pt_page 0 ltac:(unfold FINE_BLOCKS; lia)) as Hp. unfold PT in Hp. by rewrite Z.add_0_r in Hp.
Qed.
Lemma iso_static k : (k < LOW_GIB - 1)%nat → is_static_table (ISO_PD_HIGH k) = true.
Proof.
  intros Hk. unfold is_static_table, ISO_PD_HIGH. rewrite (static_range ISO_base (LOW_GIB - 1) k); [by rewrite !orb_true_r|..|done].
  pose proof (iso_page 0 ltac:(unfold LOW_GIB; lia)) as Hp. unfold ISO_PD_HIGH in Hp. by rewrite Z.add_0_r in Hp.
Qed.
Lemma high_page k : (k < HIGH_DEV_SLOTS)%nat → page (HIGH_DEV_PD k).
Proof. intros Hk. apply static_page. unfold statics. rewrite !elem_of_app. do 4 right. left. apply list_elem_of_fmap. exists k. split; [done|]. apply elem_of_seq. lia. Qed.
Lemma high_static k : (k < HIGH_DEV_SLOTS)%nat → is_static_table (HIGH_DEV_PD k) = true.
Proof.
  intros Hk. unfold is_static_table, HIGH_DEV_PD. rewrite (static_range HIGH_base HIGH_DEV_SLOTS k); [by rewrite !orb_true_r|..|done].
  pose proof (high_page 0 ltac:(unfold HIGH_DEV_SLOTS; lia)) as Hp. unfold HIGH_DEV_PD in Hp. by rewrite Z.add_0_r in Hp.
Qed.
Lemma pdpt_static : is_static_table PDPT = true.
Proof. unfold is_static_table, in_range. rewrite (proj2 (Z.leb_le PDPT PDPT)), (proj2 (Z.ltb_lt PDPT (PDPT + Z.of_nat 1 * PAGE))) by (unfold PAGE; lia). by rewrite orb_true_r. Qed.
Definition same_statics (m m' : Mem) : Prop := ∀ p i, is_static_table p = true → ld m' p i = ld m p i.
Lemma statics_same m m' : same_statics m m' → statics_ok m → statics_ok m'.
Proof.
  intros Hsame [H1 H2 H3]. split.
  - intros k i Hk Hi. rewrite Hsame by by apply iso_static. by apply H1.
  - intros k i Hk Hi. rewrite Hsame by by apply high_static. by apply H2.
  - intros g Hg. rewrite Hsame by apply pdpt_static. by apply H3.
Qed.

(** The pages below an entry. *)
Definition under (pl : place) (x t g k j : nat) : Prop :=
  match pl with
  | Pml4 => t = x | Pdpt t' => t = t' ∧ g = x | Pd t' g' => t = t' ∧ g = g' ∧ k = x
  | Pt t' g' k' => t = t' ∧ g = g' ∧ k = k' ∧ j = x
  end.
Lemma node_weaken own own' G G' a pl x e :
  (∀ q pl', own !! q = Some (a, pl') → parent pl' = Some (pl, x) → own' !! q = Some (a, pl')) →
  (∀ t g k j, under pl x t g k j → G' a t g k j = G a t g k j) → node_ok own G a pl x e → node_ok own' G' a pl x e.
Proof.
  intros Hown HG. assert (∀ pl', parent pl' = Some (pl, x) → link own a pl' e → link own' a pl' e) as Hlink.
  { intros pl' Hp (q & -> & Hq). exists q. split; [done|]. by eapply Hown. }
  destruct pl as [|t|t g|t g k]; cbn [node_ok].
  - destruct x as [|[|x]]; [by apply Hlink| |]; cbn in HG.
    + intros [[-> HN]|Hl]; [left; split; [done|]; intros; by rewrite HG|right; by apply Hlink].
    + intros [-> HN]. split; [done|]. intros. by rewrite HG.
  - destruct t as [|t]; [destruct x as [|x]; [by apply Hlink|]|].
    + intros [[Hf HN]|Hl]; [left; split; [done|]; intros; by rewrite HG|right; by apply Hlink].
    + intros [[-> HN]|(E & -> & Hl)]; [left; split; [done|]; intros; by rewrite HG|right; injection E as ->; split_and!; try done; by apply Hlink].
  - destruct (image_block t g x); [done|]. intros [[Ht HN]|Hl]; [left; split; [done|]; intros; rewrite HG by done; by apply HN|right; by apply Hlink].
  - intros HN. by rewrite HG.
Qed.

Section change.
Context (own : Own) (G : Grants) (m : Mem) (held : gset Z) (T : tree_ok own G m held).

Lemma table_desc_0 q : page q → table_desc q ≠ 0.
Proof. intros Hq E. destruct (table_desc_spec q Hq) as (HP & _). by rewrite E in HP. Qed.
(** The entry above a private table links it, whatever is granted below. *)
Lemma linked_entry q a pl pl' x : own !! q = Some (a, pl) → parent pl = Some (pl', x) →
  ∃ p, own !! p = Some (a, pl') ∧ (x < 512)%nat ∧ ld m p x = table_desc q ∧
    ∀ own' (G' : Grants), own' !! q = Some (a, pl) → node_ok own' G' a pl' x (ld m p x).
Proof.
  intros Hq Hpar. destruct (t_up _ _ _ _ T q a pl pl' x Hq Hpar) as (Hx & p & Hp & E). exists p. split_and!; [done|done|done|].
  intros own' G' Hq'. pose proof (t_nodes _ _ _ _ T p a pl' x Hp Hx) as Hn.
  destruct (t_frames _ _ _ _ T q _ Hq) as (Hpq & Hst & _). assert (link own' a pl (ld m p x)) as Hl by (by exists q).
  pose proof (table_desc_0 q Hpq) as Hne. rewrite <-E in Hne.
  destruct pl as [|t|t g|t g k]; cbn in Hpar; try discriminate Hpar; injection Hpar as <- <-; cbn [node_ok] in *.
  - destruct t as [|[|t]]; [done|by right|]. by destruct Hn as [? _].
  - destruct t as [|t]; [destruct g as [|g]; [done|by right]|]. destruct Hn as [[? _]|(Et & -> & _)]; [done|]. injection Et as ->. by right.
  - destruct (image_block t g k) eqn:Ei; [|by right]. exfalso. rewrite E in Hn. unfold image_block in Ei.
    apply andb_true_iff in Ei as [_ Ei%Nat.ltb_lt]. apply table_desc_inj in Hn; [|done|by apply pt_page]. rewrite Hn, image_static in Hst; [done|done].
Qed.

(** One block of 512 pages changes: its entry in the directory [pd], or its table. *)
Lemma tree_change a t g k pd own' G' m' held' : own !! pd = Some (a, Pd t g) → (k < 512)%nat → image_block t g k = false →
  (∀ q x, x ≠ (a, Pt t g k) → own' !! q = Some x ↔ own !! q = Some x) →
  (∀ b t' g' k' j, (b, t', g', k') ≠ (a, t, g, k) → G' b t' g' k' j = G b t' g' k' j) →
  (∀ p x i, own !! p = Some x → x ≠ (a, Pt t g k) → (p, i) ≠ (pd, k) → ld m' p i = ld m p i) →
  same_statics m m' →
  (∀ q x, own' !! q = Some x → q ∈ held') →
  (∀ j pa w x, G' a t g k j = Some (pa, w, x) → w && x = false) →
  (leaf_ok t g (ld m' pd k) ∧ (∀ q, own' !! q ≠ Some (a, Pt t g k)) ∧ ∀ j, (j < 512)%nat → G' a t g k j = block_grant (ld m' pd k) j) ∨
  (∃ q, own' !! q = Some (a, Pt t g k) ∧ (∀ r, own' !! r = Some (a, Pt t g k) → r = q) ∧ page q ∧ is_static_table q = false ∧
    ld m' pd k = table_desc q ∧ ∀ j, (j < 512)%nat → G' a t g k j = page_grant (ld m' q j)) →
  tree_ok own' G' m' held'.
Proof.
  intros Hpd Hk Hi Hown HG Hm Hs Hheld Hwx Hblock.
  assert (∀ q x, own' !! q = Some x → x ≠ (a, Pt t g k) → own !! q = Some x) as Hback by (intros q x ? Hx; by apply (Hown q x Hx)).
  assert (own' !! pd = Some (a, Pd t g)) as Hpd' by by apply (Hown pd (a, Pd t g)).
  split.
  - intros p x Hp. destruct (decide (x = (a, Pt t g k))) as [->|Hx].
    + destruct Hblock as [(_ & Hno & _)|(q & Hq & Hu & Hpq & Hst & _)]; [by destruct (Hno p)|]. rewrite (Hu p Hp). split_and!; [done|done|by eapply Hheld].
    + destruct (t_frames _ _ _ _ T p x (Hback _ _ Hp Hx)) as (? & ? & _). split_and!; [done|done|by eapply Hheld].
  - intros p b pl i Hp Hi'. destruct (decide ((b, pl) = (a, Pt t g k))) as [E|Hx].
    { injection E as -> ->. destruct Hblock as [(_ & Hno & _)|(q & Hq & Hu & _ & _ & _ & Hg)]; [by destruct (Hno p)|]. rewrite (Hu p Hp). cbn. by apply Hg. }
    pose proof (Hback _ _ Hp Hx) as Hp0. destruct (decide ((p, i) = (pd, k))) as [E|Hpi].
    { injection E as -> ->. rewrite Hpd in Hp0. injection Hp0 as <- <-. cbn [node_ok]. rewrite Hi.
      destruct Hblock as [(? & _ & ?)|(q & Hq & _ & _ & _ & E & _)]; [by left|right]. by exists q. }
    rewrite (Hm p _ i Hp0 Hx Hpi). destruct (linked_entry pd a (Pd t g) (Pdpt t) g Hpd eq_refl) as (p3 & Hp3 & _ & _ & Hl3).
    destruct (linked_entry p3 a (Pdpt t) Pml4 t Hp3 eq_refl) as (p4 & Hp4 & _ & _ & Hl4).
    destruct (decide ((b, pl, i) = (a, Pdpt t, g))) as [E|H3].
    { injection E as -> -> ->. rewrite (t_inj _ _ _ _ T p p3 _ Hp0 Hp3). by apply Hl3. }
    destruct (decide ((b, pl, i) = (a, Pml4, t))) as [E|H4].
    { injection E as -> -> ->. rewrite (t_inj _ _ _ _ T p p4 _ Hp0 Hp4). apply Hl4. by apply Hown. }
    apply (node_weaken own own' G G'); [| |by apply (t_nodes _ _ _ _ T)].
    + intros q pl' Hq Hpar. apply Hown; [|done]. intros [= -> ->]. cbn in Hpar. injection Hpar as <- <-.
      rewrite (t_inj _ _ _ _ T p pd _ Hp0 Hpd) in Hpi. done.
    + intros t' g' k' j Hu. apply HG. intros [= -> -> -> ->].
      destruct pl as [|t'|t' g'|t' g' k']; cbn in Hu; destruct_and?; subst; try done.
      rewrite (t_inj _ _ _ _ T p pd _ Hp0 Hpd) in Hpi. done.
  - intros p q x Hp Hq. destruct (decide (x = (a, Pt t g k))) as [->|Hx]; [|by eapply (t_inj _ _ _ _ T); apply Hback].
    destruct Hblock as [(_ & Hno & _)|(r & _ & Hu & _)]; [by destruct (Hno p)|]. by rewrite (Hu p Hp), (Hu q Hq).
  - intros q b pl pl' i Hq Hpar. destruct (decide ((b, pl) = (a, Pt t g k))) as [E|Hx].
    { injection E as -> ->. cbn in Hpar. injection Hpar as <- <-. split; [done|]. exists pd.
      destruct Hblock as [(_ & Hno & _)|(r & _ & Hu & _ & _ & E & _)]; [by destruct (Hno q)|]. by rewrite (Hu q Hq). }
    pose proof (Hback _ _ Hq Hx) as Hq0. destruct (linked_entry q b pl pl' i Hq0 Hpar) as (p & Hp & Hi' & E & _). split; [done|].
    assert ((b, pl') ≠ (a, Pt t g k)) as Hx'.
    { intros [= -> ->]. destruct pl; cbn in Hpar; discriminate Hpar. }
    exists p. split; [by apply Hown|]. rewrite (Hm p _ i Hp Hx'); [done|]. intros [= -> ->]. rewrite Hpd in Hp. injection Hp as <- <-.
    destruct pl as [|t'|t' g'|t' g' k']; cbn in Hpar; try discriminate Hpar. injection Hpar as -> -> ->. done.
  - by apply (statics_same m), (t_statics _ _ _ _ T).
  - intros b t' g' k' j pa w x. destruct (decide ((b, t', g', k') = (a, t, g, k))) as [[= -> -> -> ->]|Hx]; [by apply Hwx|].
    rewrite HG by done. by apply (t_wx _ _ _ _ T).
Qed.

Lemma parent_inj pl pl' x y : parent pl = Some x → parent pl' = Some y → x = y → pl = pl'.
Proof. destruct pl, pl'; cbn; congruence. Qed.
Lemma not_node_link e : is_table e = false → ∀ b pl, link own b pl e → False.
Proof.
  intros He b pl (q & -> & Hq). apply (t_frames _ _ _ _ T) in Hq as (Hq & _). destruct (table_desc_spec q Hq) as (HP & _ & _ & _ & HS & _).
  unfold is_table in He. by rewrite HP, HS in He.
Qed.

(** A table that grants nothing is hung in where there was none. *)
Lemma tree_add a pl pl' x p q m' held' : own !! p = Some (a, pl') → parent pl = Some (pl', x) → (x < 512)%nat →
  pl = Pdpt 1 ∨ pl = Pd 1 0 ∨ (∃ g, pl = Pd 0 (S g)) →
  own !! q = None → (∀ r, own !! r ≠ Some (a, pl)) → page q → is_static_table q = false → q ∈ held' → held ⊆ held' →
  ld m' p x = table_desc q → (∀ r i, r ≠ q → (r, i) ≠ (p, x) → ld m' r i = ld m r i) →
  (∀ i, (i < 512)%nat → node_ok own G a pl i (ld m' q i)) →
  tree_ok (<[q := (a, pl)]> own) G m' held'.
Proof.
  intros Hp Hpar Hx Hpl Hq Hno Hpq Hst Hh Hhs E Hm Hnew.
  assert (∀ r y, own !! r = Some y → <[q := (a, pl)]> own !! r = Some y) as Hin.
  { intros r y Hr. rewrite lookup_insert_ne; [done|]. intros <-. by rewrite Hq in Hr. }
  assert (∀ r y, <[q := (a, pl)]> own !! r = Some y → (r = q ∧ y = (a, pl)) ∨ (r ≠ q ∧ own !! r = Some y)) as Hout.
  { intros r y Hr. apply lookup_insert_Some in Hr as [[<- <-]|[? ?]]; [by left|right; by split]. }
  split.
  - intros r y Hr. apply Hout in Hr as [[-> ->]|[_ Hr]]; [done|]. destruct (t_frames _ _ _ _ T r y Hr) as (? & ? & ?). split_and!; [done..|by apply Hhs].
  - intros r b pl0 i Hr Hi. apply Hout in Hr as [[-> [= -> ->]]|[Hne Hr]].
    { eapply node_weaken; [| |by apply Hnew]; [intros r' pl1 Hr' _; by apply Hin|done]. }
    destruct (decide ((r, i) = (p, x))) as [[= -> ->]|Hne2].
    + rewrite Hp in Hr. injection Hr as <- <-. rewrite E. assert (link (<[q := (a, pl)]> own) a pl (table_desc q)) as Hl.
      { exists q. split; [done|]. apply lookup_insert_eq. }
      destruct Hpl as [->|[->|[g ->]]]; cbn in Hpar; injection Hpar as <- <-; cbn [node_ok]; [by right..].
    + rewrite Hm by done. eapply node_weaken; [| |by apply (t_nodes _ _ _ _ T)]; [intros r' pl1 Hr' _; by apply Hin|done].
  - intros r1 r2 y H1 H2. apply Hout in H1 as [[-> ->]|[_ H1]]; apply Hout in H2 as [[-> E2]|[_ H2]]; try done; subst; try by destruct (Hno r1) || destruct (Hno r2).
    by eapply (t_inj _ _ _ _ T).
  - intros r b pl0 pl1 i Hr Hpar1. apply Hout in Hr as [[-> [= -> ->]]|[Hne Hr]].
    { rewrite Hpar in Hpar1. injection Hpar1 as <- <-. split; [done|]. exists p. split; [by apply Hin|done]. }
    destruct (t_up _ _ _ _ T r b pl0 pl1 i Hr Hpar1) as (Hi & p1 & Hp1 & E1). split; [done|]. exists p1. split; [by apply Hin|].
    rewrite Hm; [done|intros ->; by rewrite Hq in Hp1|]. intros [= -> ->]. rewrite Hp in Hp1. injection Hp1 as <- <-.
    rewrite (parent_inj pl0 pl _ _ Hpar1 Hpar eq_refl) in Hr. by destruct (Hno r).
  - apply (statics_same m); [|apply T]. intros r i Hr. apply Hm; [by intros ->; rewrite Hst in Hr|]. intros [= -> ->].
    apply (t_frames _ _ _ _ T) in Hp as (_ & Hp & _). by rewrite Hr in Hp.
  - apply T.
Qed.

(** A new space: three tables, nothing granted. *)
Lemma tree_new a l1 l2 pdpt m' held' : (∀ r pl, own !! r ≠ Some (a, pl)) →
  own !! l1 = None → own !! l2 = None → own !! pdpt = None → l1 ≠ l2 → l1 ≠ pdpt → l2 ≠ pdpt →
  Forall (λ q, page q ∧ is_static_table q = false ∧ q ∈ held') [l1; l2; pdpt] → held ⊆ held' →
  (∀ r i, r ≠ l1 → r ≠ l2 → r ≠ pdpt → ld m' r i = ld m r i) →
  (∀ i, (i < 512)%nat → ld m' l1 i = if (i =? 0)%nat then table_desc pdpt else 0) →
  (∀ g, (g < 512)%nat → if (g =? 0)%nat then ld m' pdpt g = table_desc l2 else foreign g (ld m' pdpt g)) →
  (∀ i, (i < 512)%nat → ld m' l2 i = if (i <? FINE_BLOCKS)%nat then table_desc (PT i) else kernel_block (Z.of_nat i * TWO_MIB)) →
  tree_ok (<[l1 := (a, Pml4)]> (<[pdpt := (a, Pdpt 0)]> (<[l2 := (a, Pd 0 0)]> own)))
    (λ b t g k j, if (b =? a)%nat then None else G b t g k j) m' held'.
Proof.
  intros Hno H1 H2 H3 N12 N13 N23 Hf Hhs Hm E1 E3 E2. set (own' := <[l1 := _]> _).
  apply Forall_cons_1 in Hf as [F1 Hf]. apply Forall_cons_1 in Hf as [F2 Hf]. apply Forall_cons_1 in Hf as [F3 _].
  assert (∀ r y, own !! r = Some y → own' !! r = Some y) as Hin.
  { intros r y Hr. unfold own'. rewrite !lookup_insert_ne by (intros <-; congruence). done. }
  assert (own' !! l1 = Some (a, Pml4)) as L1 by (apply lookup_insert_eq).
  assert (own' !! pdpt = Some (a, Pdpt 0)) as L3 by (unfold own'; rewrite lookup_insert_ne by done; apply lookup_insert_eq).
  assert (own' !! l2 = Some (a, Pd 0 0)) as L2 by (unfold own'; rewrite !lookup_insert_ne by done; apply lookup_insert_eq).
  assert (∀ r y, own' !! r = Some y → (r = l1 ∧ y = (a, Pml4)) ∨ (r = pdpt ∧ y = (a, Pdpt 0)) ∨ (r = l2 ∧ y = (a, Pd 0 0)) ∨
    (own !! r = Some y ∧ r ≠ l1 ∧ r ≠ l2 ∧ r ≠ pdpt ∧ y.1 ≠ a)) as Hout.
  { intros r y Hr. unfold own' in Hr. apply lookup_insert_Some in Hr as [[<- <-]|[? Hr]]; [by left|].
    apply lookup_insert_Some in Hr as [[<- <-]|[? Hr]]; [right; by left|]. apply lookup_insert_Some in Hr as [[<- <-]|[? Hr]]; [do 2 right; by left|].
    do 3 right. split_and!; try done. destruct y as [b pl]. cbn. intros ->. by destruct (Hno r pl). }
  split.
  - intros r y Hr. apply Hout in Hr as [[-> ->]|[[-> ->]|[[-> ->]|(Hr & _)]]]; [done..|].
    destruct (t_frames _ _ _ _ T r y Hr) as (? & ? & ?). split_and!; [done..|by apply Hhs].
  - intros r b pl i Hr Hi. apply Hout in Hr as [[-> [= -> ->]]|[[-> [= -> ->]]|[[-> [= -> ->]]|(Hr & Hr1 & Hr2 & Hr3 & Hne)]]]; cbn [node_ok].
    + rewrite E1 by done. rewrite Nat.eqb_refl. destruct i as [|[|i]]; [by exists pdpt|by left|done].
    + specialize (E3 i Hi). destruct i as [|i]; [by exists l2|]. rewrite Nat.eqb_refl. by left.
    + rewrite Nat.eqb_refl, E2 by done. unfold image_block. cbn [Nat.eqb andb]. destruct (Nat.ltb_spec i FINE_BLOCKS); [done|]. left. unfold leaf_ok.
      assert (page (Z.of_nat i * TWO_MIB)) as Hpg.
      { replace (Z.of_nat i * TWO_MIB) with (Z.of_nat i * 512 * PAGE) by (unfold TWO_MIB, PAGE; lia). apply page_mul. lia. }
      unfold kernel_block, is_table, block_grant, grant. split_and!; [flags|by left|done|intros j _; flags].
    + rewrite Hm by done. cbn in Hne. eapply node_weaken; [| |by apply (t_nodes _ _ _ _ T)]; [intros r' pl1 Hr' _; by apply Hin|].
      intros t g k j _. rewrite (proj2 (Nat.eqb_neq b a)) by done. done.
  - intros r1 r2 y Hr1 Hr2. apply Hout in Hr1 as [[-> ->]|[[-> ->]|[[-> ->]|(Hr1 & _ & _ & _ & Hn1)]]];
      apply Hout in Hr2 as [[-> Ey]|[[-> Ey]|[[-> Ey]|(Hr2 & _ & _ & _ & Hn2)]]]; subst; try done. by eapply (t_inj _ _ _ _ T).
  - intros r b pl pl' i Hr Hpar. apply Hout in Hr as [[-> [= -> ->]]|[[-> [= -> ->]]|[[-> [= -> ->]]|(Hr & Hr1 & Hr2 & Hr3 & Hne)]]];
      cbn in Hpar; try done; [injection Hpar as <- <-; split; [lia|]..|].
    + exists l1. split; [done|]. by rewrite E1 by lia.
    + exists pdpt. split; [done|]. by apply (E3 0%nat); lia.
    + destruct (t_up _ _ _ _ T r b pl pl' i Hr Hpar) as (Hi & p1 & Hp1 & Ep). split; [done|]. exists p1. split; [by apply Hin|].
      rewrite Hm; [done|intros ->; congruence..].
  - apply (statics_same m); [|apply T]. intros r i Hr. apply Hm; intros ->; destruct_and?; congruence.
  - intros b t g k j pa w x. destruct (b =? a)%nat; [done|]. by apply (t_wx _ _ _ _ T).
Qed.

(** A space is taken down: its tables are nobody's. *)
Lemma tree_drop a m' held' : (∀ r y i, own !! r = Some y → y.1 ≠ a → ld m' r i = ld m r i) → same_statics m m' →
  (∀ r y, own !! r = Some y → y.1 ≠ a → r ∈ held') →
  tree_ok (filter (λ x, x.2.1 ≠ a) own) (λ b t g k j, if (b =? a)%nat then None else G b t g k j) m' held'.
Proof.
  intros Hm Hs Hh. assert (∀ r b pl, filter (λ x : Z * (nat * place), x.2.1 ≠ a) own !! r = Some (b, pl) ↔ own !! r = Some (b, pl) ∧ b ≠ a) as Hin.
  { intros r b pl. rewrite map_lookup_filter_Some. done. }
  split.
  - intros r [b pl] [Hr Hb]%Hin. destruct (t_frames _ _ _ _ T r _ Hr) as (? & ? & _). split_and!; [done..|]. by eapply Hh.
  - intros r b pl i [Hr Hb]%Hin Hi. rewrite (Hm r (b, pl)) by done. eapply node_weaken; [| |by apply (t_nodes _ _ _ _ T)].
    + intros q pl' Hq _. by apply Hin.
    + intros t g k j _. by rewrite (proj2 (Nat.eqb_neq b a)).
  - intros r1 r2 [b pl] [H1 _]%Hin [H2 _]%Hin. by eapply (t_inj _ _ _ _ T).
  - intros q b pl pl' i [Hq Hb]%Hin Hpar. destruct (t_up _ _ _ _ T q b pl pl' i Hq Hpar) as (Hi & p & Hp & E). split; [done|]. exists p.
    split; [by apply Hin|]. by rewrite (Hm p (b, pl')).
  - by apply (statics_same m), T.
  - intros b t g k j pa w x. destruct (b =? a)%nat; [done|]. by apply (t_wx _ _ _ _ T).
Qed.
End change.

(** *** Entries that are written *)
Definition set_block_grants (a t g k : nat) (f : nat → option (Z * bool * bool)) (G : Grants) : Grants :=
  λ b t' g' k' j, if decide ((b, t', g', k') = (a, t, g, k)) then f j else G b t' g' k' j.
Definition set_page_grant (a t g k j : nat) (x : option (Z * bool * bool)) (G : Grants) : Grants :=
  set_block_grants a t g k (λ j', if (j' =? j)%nat then x else G a t g k j') G.
Lemma set_block_at a t g k f G j : set_block_grants a t g k f G a t g k j = f j.
Proof. unfold set_block_grants. by rewrite decide_True. Qed.
Lemma set_block_off a t g k f G b t' g' k' j : (b, t', g', k') ≠ (a, t, g, k) → set_block_grants a t g k f G b t' g' k' j = G b t' g' k' j.
Proof. intros H1. unfold set_block_grants. by rewrite decide_False. Qed.
Definition same_roots (own own' : Own) : Prop :=
  ∀ q (b : nat) pl, pl = Pml4 ∨ pl = Pd 0 0 → own' !! q = Some (b, pl) ↔ own !! q = Some (b, pl).

Lemma tree_ok_ext own G G' m held : (∀ b t g k j, G' b t g k j = G b t g k j) → tree_ok own G m held → tree_ok own G' m held.
Proof.
  intros E T. split; try apply T.
  - intros p b pl i Hp Hi. eapply node_weaken; [| |by apply (t_nodes _ _ _ _ T)]; [done|]. intros. apply E.
  - intros b t g i j pa w x. rewrite E. by apply (t_wx _ _ _ _ T).
Qed.
Lemma tree_held own G m held held' : held ⊆ held' → tree_ok own G m held → tree_ok own G m held'.
Proof. intros Hs T. split; try apply T. intros p x Hp. destruct (t_frames _ _ _ _ T p x Hp) as (? & ? & ?). split_and!; [done..|by apply Hs]. Qed.

Section writes.
Context own (G : Grants) m held (T : tree_ok own G m held) (a : nat).

(** A page of a table. *)
Lemma write_page t g k q j v : own !! q = Some (a, Pt t g k) → (j < 512)%nat →
  (∀ pa w x, page_grant v = Some (pa, w, x) → w && x = false) →
  tree_ok own (set_page_grant a t g k j (page_grant v) G) (st q j v m) held ∧ same_statics m (st q j v m).
Proof.
  intros Hq Hj Hwx. destruct (linked_entry _ _ _ _ T q a (Pt t g k) (Pd t g) k Hq eq_refl) as (pd & Hpd & Hk & E & _).
  destruct (t_frames _ _ _ _ T q _ Hq) as (Hpq & Hst & _). pose proof (t_frames _ _ _ _ T pd _ Hpd) as (_ & Hstd & _).
  assert (q ≠ pd) as Hne by (intros ->; congruence).
  assert (same_statics m (st q j v m)) as Hs.
  { intros p i Hp. rewrite ld_st, decide_False; [done|]. intros [<- _]. congruence. }
  split; [|done].
  assert (image_block t g k = false) as Hi.
  { destruct (image_block t g k) eqn:Hi; [|done]. exfalso. pose proof (t_nodes _ _ _ _ T pd a _ k Hpd Hk) as Hn. cbn [node_ok] in Hn. rewrite Hi in Hn.
    unfold image_block in Hi. apply andb_true_iff in Hi as [_ Hi%Nat.ltb_lt]. rewrite Hn in E. apply table_desc_inj in E; [|by apply pt_page|done].
    rewrite <-E, image_static in Hst; done. }
  apply (tree_change own G m held T a t g k pd); try done.
  - intros b t' g' k' j' Hn. by apply set_block_off.
  - intros p x i Hp Hx _. rewrite ld_st, decide_False; [done|]. intros [<- _]. congruence.
  - intros p x Hp. by apply (t_frames _ _ _ _ T p x).
  - intros j' pa w x. unfold set_page_grant. rewrite set_block_at. destruct (j' =? j)%nat; [by apply Hwx|by apply (t_wx _ _ _ _ T)].
  - right. exists q. split_and!; try done.
    + intros r Hr. by eapply (t_inj _ _ _ _ T).
    + rewrite ld_st, decide_False; [done|]. by intros [-> _].
    + intros j' Hj'. unfold set_page_grant. rewrite set_block_at, ld_st. destruct (Nat.eqb_spec j' j) as [->|Hnj].
      * by rewrite decide_True.
      * rewrite decide_False by (intros [_ ->]; done). by apply (t_nodes _ _ _ _ T q a (Pt t g k) j').
Qed.

(** An entry of a directory that is not a table; a table it held before is dropped. *)
Lemma write_block t g k pd e : own !! pd = Some (a, Pd t g) → (k < 512)%nat → image_block t g k = false → leaf_ok t g e →
  (∀ j pa w x, block_grant e j = Some (pa, w, x) → w && x = false) →
  let own' := filter (λ x, x.2 ≠ (a, Pt t g k)) own in
  tree_ok own' (set_block_grants a t g k (block_grant e) G) (st pd k e m) held ∧ same_statics m (st pd k e m) ∧ same_roots own own'.
Proof.
  intros Hpd Hk Hi He Hwx own'. pose proof (t_frames _ _ _ _ T pd _ Hpd) as (_ & Hstd & _).
  assert (same_statics m (st pd k e m)) as Hs.
  { intros p i Hp. rewrite ld_st, decide_False; [done|]. intros [<- _]. congruence. }
  assert (∀ q x, own' !! q = Some x ↔ own !! q = Some x ∧ x ≠ (a, Pt t g k)) as Hown by (intros q x; unfold own'; by rewrite map_lookup_filter_Some).
  split_and!; [|done|].
  - apply (tree_change own G m held T a t g k pd); try done.
    + intros q x Hx. rewrite Hown. by split; [intros [? _]|].
    + intros b t' g' k' j' Hn. by apply set_block_off.
    + intros p x i Hp Hx Hn. rewrite ld_st, decide_False; [done|]. intros [<- <-]. done.
    + intros q x [Hq _]%Hown. by apply (t_frames _ _ _ _ T q x).
    + intros j pa w x. rewrite set_block_at. apply Hwx.
    + left. rewrite ld_st, decide_True by done. split_and!; [done| |intros j _; apply set_block_at]. intros q [_ Hq]%Hown. done.
  - intros q b pl Hpl. rewrite Hown. split; [by intros [? _]|]. intros Hq. split; [done|]. intros [= -> ->]. by destruct Hpl.
Qed.

(** A new table instead of a block. *)
Lemma write_table t g k pd q f fg held' : own !! pd = Some (a, Pd t g) → (k < 512)%nat → image_block t g k = false → is_table (ld m pd k) = false →
  page q → is_static_table q = false → q ∉ held → held' = {[q]} ∪ held →
  (∀ j, (j < 512)%nat → fg j = page_grant (f j)) → (∀ j pa w x, fg j = Some (pa, w, x) → w && x = false) →
  let m' := st pd k (table_desc q) (filled q f m) in
  tree_ok (<[q := (a, Pt t g k)]> own) (set_block_grants a t g k fg G) m' held' ∧
  same_statics m m' ∧ same_roots own (<[q := (a, Pt t g k)]> own).
Proof.
  intros Hpd Hk Hi He Hpq Hst Hh -> Hfg Hwx m'. pose proof (t_frames _ _ _ _ T pd _ Hpd) as (_ & Hstd & Hhd).
  assert (own !! q = None) as Hq.
  { destruct (own !! q) as [x|] eqn:E; [|done]. by apply (t_frames _ _ _ _ T) in E as (_ & _ & ?). }
  assert (q ≠ pd) as Hne by (intros ->; congruence).
  assert (∀ r, own !! r ≠ Some (a, Pt t g k)) as Hno.
  { intros r Hr. destruct (linked_entry _ _ _ _ T r a (Pt t g k) (Pd t g) k Hr eq_refl) as (pd' & Hpd' & _ & E & _).
    rewrite (t_inj _ _ _ _ T _ _ _ Hpd' Hpd) in E. rewrite E in He. destruct (t_frames _ _ _ _ T r _ Hr) as (Hpr & _).
    destruct (table_desc_spec r Hpr) as (HP & _ & _ & _ & HS & _). unfold is_table in He. by rewrite HP, HS in He. }
  assert (∀ p i, p ≠ q → (p, i) ≠ (pd, k) → ld m' p i = ld m p i) as Hm.
  { intros p i H1 H2. unfold m'. rewrite ld_st, decide_False by (intros [-> ->]; done). by rewrite ld_filled, decide_False by (intros [-> _]; done). }
  assert (same_statics m m') as Hs.
  { intros p i Hp. apply Hm; [intros ->; congruence|]. intros [= -> ->]. congruence. }
  split_and!; [|done|].
  - apply (tree_change own G m held T a t g k pd); try done.
    + intros r x Hx. destruct (decide (r = q)) as [->|Hr]; [rewrite lookup_insert_eq, Hq; split; [by intros [= <-]|done]|by rewrite lookup_insert_ne].
    + intros b t' g' k' j' Hn. by apply set_block_off.
    + intros p x i Hp Hx Hn. apply Hm; [|done]. intros ->. congruence.
    + intros r x Hr. apply elem_of_union. apply lookup_insert_Some in Hr as [[<- _]|[_ Hr]]; [left; by apply elem_of_singleton|right; by apply (t_frames _ _ _ _ T r x)].
    + intros j pa w x. rewrite set_block_at. apply Hwx.
    + right. exists q. split_and!; try done.
      * apply lookup_insert_eq.
      * intros r Hr. apply lookup_insert_Some in Hr as [[<- _]|[_ Hr]]; [done|by destruct (Hno r)].
      * unfold m'. by rewrite ld_st, decide_True.
      * intros j Hj. rewrite set_block_at. unfold m'. rewrite ld_st, decide_False by (intros [-> _]; done). rewrite ld_filled, decide_True by done. by apply Hfg.
  - intros r b pl Hpl. rewrite lookup_insert_Some. split; [intros [[_ E]|[_ ?]]; [injection E as -> <-; by destruct Hpl|done]|].
    intros Hr. right. split; [|done]. intros ->. congruence.
Qed.
End writes.
End tree.

(** *** What the entries of the source grant *)
Definition writes (p : UserPerm) : bool := match p with Rw => true | _ => false end.
Definition executes (p : UserPerm) : bool := match p with Rx => true | _ => false end.
Definition grant_of (pa : Z) (p : UserPerm) : option (Z * bool * bool) := Some (pa, writes p, executes p).
Lemma user_page_grant pa p : page pa → page_grant (user_page pa p) = grant_of pa p.
Proof. intros Hp. unfold page_grant, grant, user_page, grant_of. destruct p; flags. Qed.
Lemma supervisor_page_grant pa : page pa → page_grant (pa ||| P ||| RW ||| NX) = None.
Proof. intros Hp. unfold page_grant, grant. flags. Qed.
Lemma uncached_page_grant e : page_grant (e ||| (PCD ||| PWT)) = page_grant e.
Proof.
  assert (∀ b, Z.land (PCD ||| PWT) b = 0 → has (e ||| (PCD ||| PWT)) b = has e b) as Hb.
  { intros b E. unfold has. by rewrite Z.land_lor_distr_l, E, Z.lor_0_r. }
  unfold page_grant, grant, addr. rewrite !Hb by reflexivity. rewrite Z.land_lor_distr_l. change (Z.land (PCD ||| PWT) ADDR) with 0. by rewrite Z.lor_0_r.
Qed.
Lemma device_entry_grant pa ro : page pa → page_grant (device_entry pa ro) = Some (pa, negb ro, false).
Proof. intros Hp. unfold page_grant, grant, device_entry. destruct ro; flags. Qed.
Lemma kernel_block_grant p j : page p → is_table (kernel_block p) = false ∧ block_grant (kernel_block p) j = None.
Proof. intros Hp. unfold kernel_block, is_table, block_grant, grant. split; flags. Qed.
Lemma block_land p f : page p → (TWO_MIB | p) → Z.land f ADDR = 0 → Z.land f BLOCK_ADDR = 0 → Z.land (p ||| f) BLOCK_ADDR = p.
Proof.
  intros Hp [c ->] _ Hf. rewrite Z.land_lor_distr_l, Hf, Z.lor_0_r. pose proof (page_land _ Hp) as E.
  assert (BLOCK_ADDR = Z.ldiff ADDR (Z.ones 21)) as -> by reflexivity. rewrite <-E at 2. apply Z.bits_inj'. intros n Hn.
  rewrite !Z.land_spec, Z.ldiff_spec. change TWO_MIB with (2 ^ 21). destruct (decide (n < 21)).
  - by rewrite Z.mul_pow2_bits_low by done.
  - rewrite (Z.ones_spec_high 21) by lia. by rewrite andb_true_r.
Qed.
Lemma user_block_grant p j perm : page p → (TWO_MIB | p) →
  let e := match perm with Rx => user_code_block p | _ => user_block p end in
  is_table e = false ∧ block_grant e j = grant_of (p + Z.of_nat j * PAGE) (match perm with Rx => Rx | _ => Rw end).
Proof.
  intros Hp Hd e. assert (is_table e = false) as Ht by (unfold e, is_table, user_code_block, user_block; destruct perm; flags).
  split; [done|]. unfold e, block_grant, grant, grant_of, user_code_block, user_block. destruct perm; rewrite <-!Z.lor_assoc;
    rewrite block_land by done; flags.
Qed.

(** ** The functions *)
Section ops.
Context `{Image} (Himg : image_ok) {A : Type} (alloc : M A (option Z)) (free : Z → M A unit) (held : A → gset Z).
(** A frame that is lent is a page of the machine, no static table, and not lent already; giving it
    back ends that. *)
Definition alloc_law : Prop := ∀ a, wp alloc a (λ o a',
  match o with
  | Some q => page q ∧ is_static_table q = false ∧ q ∉ held a ∧ held a' = {[q]} ∪ held a
  | None => held a' = held a
  end).
Definition free_law : Prop := ∀ q a, q ∈ held a → wp (free q) a (λ _ a', held a' = held a ∖ {[q]}).
Context (Halloc : alloc_law) (Hfree : free_law).
Notation W := (Vm A).
Notation frames s := (held (src s)).

Definition vm_ok (own : Own) (G : Grants) (s : W) : Prop := tree_ok own G (mem s) (frames s).
(** Every frame that is lent is in some tree. *)
Definition tight (own : Own) (s : W) : Prop := dom own = frames s.
Definition evolves_to (own : Own) (s : W) (own' : Own) (G' : Grants) (s' : W) : Prop :=
  vm_ok own' G' s' ∧ same_roots own own' ∧ same_statics (mem s) (mem s') ∧ (tight own s → tight own' s') ∧ own ⊆ own'.
Definition evolves (own : Own) (s : W) (G' : Grants) (s' : W) : Prop := ∃ own', evolves_to own s own' G' s'.

Lemma same_roots_refl own : same_roots own own.
Proof. done. Qed.
Lemma evolves_refl own G s : vm_ok own G s → evolves_to own s own G s.
Proof. intros T. split_and!; done. Qed.
Lemma fresh_unowned own G s q : vm_ok own G s → q ∉ frames s → own !! q = None.
Proof. intros T Hq. destruct (own !! q) as [x|] eqn:E; [|done]. by apply (t_frames _ _ _ _ T) in E as (_ & _ & ?). Qed.
Lemma no_alloc own G s s' : vm_ok own G s → frames s' = frames s → mem s' = mem s → evolves_to own s own G s'.
Proof. intros T Es Em. split_and!; [unfold vm_ok; by rewrite Em, Es|done|by intros p i _; rewrite Em|unfold tight; by rewrite Es|done]. Qed.
Lemma evolves_trans own s own1 G1 s1 own2 G2 s2 : evolves_to own s own1 G1 s1 → evolves_to own1 s1 own2 G2 s2 → evolves_to own s own2 G2 s2.
Proof.
  intros (_ & R1 & S1 & K1 & O1) (T2 & R2 & S2 & K2 & O2). split_and!; [done| | |auto|by trans own1].
  - intros q b pl Hpl. by rewrite (R2 q b pl Hpl), (R1 q b pl Hpl).
  - intros p i Hp. by rewrite (S2 p i Hp), (S1 p i Hp).
Qed.
Lemma wp_frame s (Q : option Z → W → Prop) :
  (∀ q s', page q → is_static_table q = false → q ∉ frames s → frames s' = {[q]} ∪ frames s → mem s' = mem s → Q (Some q) s') →
  (∀ s', frames s' = frames s → mem s' = mem s → Q None s') → wp (allocate alloc) s Q.
Proof.
  intros H1 H2. apply wp_zoom. eapply wp_mono; [apply Halloc|]. intros [q|] a; cbn; [|by intros ?; apply H2].
  intros (? & ? & ? & ?). by apply H1.
Qed.

(** The table for a block of a directory: the one it has, or a new one with the entries [f]. *)
Lemma new_table_spec own G s a t g k pd q f fg s1 : vm_ok own G s → own !! pd = Some (a, Pd t g) → (k < 512)%nat → image_block t g k = false →
  is_table (ld (mem s) pd k) = false → page q → is_static_table q = false → q ∉ frames s → frames s1 = {[q]} ∪ frames s → mem s1 = mem s →
  (∀ j, (j < 512)%nat → fg j = page_grant (f j)) → (∀ j pa w x, fg j = Some (pa, w, x) → w && x = false) →
  wp (fill q f ≫= λ _, store pd k (table_desc q) ≫= λ _, mret (Some q)) s1 (λ o s',
    o = Some q ∧ ∃ own', evolves_to own s own' (set_block_grants a t g k fg G) s' ∧
    own' !! q = Some (a, Pt t g k) ∧ ld (mem s') pd k = table_desc q ∧ same_roots own own').
Proof.
  intros T Hpd Hk Hi He Hq Hst Hh Es Em Hfg Hwx. apply wp_bind. apply wp_modify. apply wp_bind. apply wp_store; [done|]. apply wp_ret. cbn. split; [done|].
  destruct (write_table Himg own G (mem s) (frames s) T a t g k pd q f fg ({[q]} ∪ frames s)) as (T' & Hs & Hr); try done.
  exists (<[q := (a, Pt t g k)]> own). rewrite Em. split_and!; [|apply lookup_insert_eq|by rewrite ld_st, decide_True|done].
  split_and!; [|done|done| |].
  - unfold vm_ok. cbn. by rewrite Es.
  - unfold tight. cbn. rewrite Es, dom_insert_L. by intros ->.
  - apply insert_subseteq. by apply (fresh_unowned own G s).
Qed.

Lemma evolves_ext own s own' G' G2 s' : (∀ b t g k j, G2 b t g k j = G' b t g k j) → evolves_to own s own' G' s' → evolves_to own s own' G2 s'.
Proof. intros E (T & R). split; [by eapply tree_ok_ext|done]. Qed.
Lemma table_entry own G s a t g k pd : vm_ok own G s → own !! pd = Some (a, Pd t g) → (k < 512)%nat → image_block t g k = false →
  is_table (ld (mem s) pd k) = true → own !! addr (ld (mem s) pd k) = Some (a, Pt t g k) ∧ ld (mem s) pd k = table_desc (addr (ld (mem s) pd k)).
Proof.
  intros T Hpd Hk Hi He. pose proof (t_nodes _ _ _ _ T pd a _ k Hpd Hk) as Hn. cbn [node_ok] in Hn. rewrite Hi in Hn.
  destruct Hn as [[[E _] _]|Hl]; [congruence|]. apply (link_page _ _ _ _ _ _ _ T) in Hl as (q & -> & Hq & Hp).
  destruct (table_desc_spec q Hp) as (_ & _ & _ & _ & _ & ->). done.
Qed.
Lemma same_block_grants a t g k (G : Grants) f : (∀ j, f j = G a t g k j) → ∀ b t' g' k' j, set_block_grants a t g k f G b t' g' k' j = G b t' g' k' j.
Proof. intros E b t' g' k' j. unfold set_block_grants. case_decide as H1; [|done]. injection H1 as -> -> -> ->. apply E. Qed.

Lemma own_block k : (FINE_BLOCKS <= k)%nat → image_block 0 0 k = false.
Proof. intros Hk. unfold image_block. by rewrite (proj2 (Nat.ltb_ge k FINE_BLOCKS)). Qed.

Lemma pt_for_spec own G s a l2 k : vm_ok own G s → own !! l2 = Some (a, Pd 0 0) → (FINE_BLOCKS <= k < 512)%nat →
  wp (pt_for alloc l2 k) s (λ o s',
    match o with
    | None => evolves_to own s own G s'
    | Some q => ∃ own', evolves_to own s own'
        (set_block_grants a 0 0 k (λ j, if is_table (ld (mem s) l2 k) then G a 0%nat 0%nat k j else None) G) s' ∧
        own' !! q = Some (a, Pt 0 0 k) ∧ ld (mem s') l2 k = table_desc q
    end).
Proof.
  intros T Hl2 Hk. assert (image_block 0 0 k = false) as Hi by (apply own_block; lia).
  unfold pt_for. apply wp_bind, wp_load; [lia|]. rewrite andb_comm. change (has _ P && negb (has _ PS)) with (is_table (ld (mem s) l2 k)).
  destruct (is_table (ld (mem s) l2 k)) eqn:He.
  - apply wp_ret. destruct (table_entry own G s a 0 0 k l2 T Hl2) as [Hq E]; [lia|done|done|]. exists own. split; [|done].
    eapply evolves_ext; [by apply same_block_grants|by apply evolves_refl].
  - apply wp_bind, wp_frame; [|intros s' Es Em; apply wp_ret; by apply no_alloc].
    intros q s1 Hq Hst Hh Es Em.
    eapply wp_mono; [eapply (new_table_spec own G s a 0 0 k l2 q _ (λ _, None) s1); try done; [lia|]|].
    + intros j Hj. symmetry. apply supervisor_page_grant. replace (Z.of_nat k * TWO_MIB + Z.of_nat j * PAGE) with ((Z.of_nat k * 512 + Z.of_nat j) * PAGE) by (unfold TWO_MIB, PAGE; lia).
      apply page_mul. lia.
    + cbn beta. intros o s' [-> (own' & ? & ? & ? & _)]. by exists own'.
Qed.

Lemma store_page_spec own G s a t g k q j v x : vm_ok own G s → own !! q = Some (a, Pt t g k) → (j < 512)%nat →
  page_grant v = x → (∀ pa w e, x = Some (pa, w, e) → w && e = false) →
  wp (store q j v) s (λ _ s', evolves_to own s own (set_page_grant a t g k j x G) s').
Proof.
  intros T Hq Hj <- Hwx. apply wp_store; [done|]. destruct (write_page Himg own G (mem s) (frames s) T a t g k q j v Hq Hj Hwx) as [T' Hs].
  by split_and!.
Qed.
Lemma store_block_spec own G s a t g k pd e f : vm_ok own G s → own !! pd = Some (a, Pd t g) → (k < 512)%nat → image_block t g k = false → leaf_ok t g e →
  (∀ j, block_grant e j = f j) → (∀ j pa w x, f j = Some (pa, w, x) → w && x = false) →
  wp (store pd k e) s (λ _ s', ∃ own', vm_ok own' (set_block_grants a t g k f G) s' ∧ same_roots own own' ∧ same_statics (mem s) (mem s') ∧
    (is_table (ld (mem s) pd k) = false → tight own s → tight own' s')).
Proof.
  intros T Hpd Hk Hi He Hf Hwx. apply wp_store; [done|]. destruct (write_block Himg own G (mem s) (frames s) T a t g k pd e) as (T' & Hs & Hr); try done.
  { intros j pa w x. rewrite Hf. apply Hwx. }
  exists (filter (λ x, x.2 ≠ (a, Pt t g k)) own). split_and!; [|exact Hr|done|].
  - eapply tree_ok_ext; [|exact T']. intros b t' g' k' j. unfold set_block_grants. by rewrite Hf.
  - intros Ht E. unfold tight in *. cbn. rewrite <-E. apply set_eq. intros q. rewrite !elem_of_dom. unfold is_Some. setoid_rewrite map_lookup_filter_Some.
    split; [intros (x & Hx & _); eauto|]. intros [[b pl] Hx]. exists (b, pl). split; [done|]. cbn. intros [= -> ->].
    destruct (linked_entry Himg _ _ _ _ T q a (Pt t g k) (Pd t g) k Hx eq_refl) as (pd' & Hpd' & _ & E' & _).
    rewrite (t_inj _ _ _ _ T _ _ _ Hpd' Hpd) in E'. apply (not_node_link own G (mem s) (frames s) T _ Ht a (Pt t g k)). by exists q.
Qed.

Lemma page_index_lt va : (page_index va < 512)%nat.
Proof.
  unfold page_index. pose proof (Z.mod_pos_bound va TWO_MIB ltac:(done)). apply Nat2Z.inj_lt. rewrite Z2Nat.id by (apply Z.div_pos; [lia|done]).
  apply Z.div_lt_upper_bound; [done|]. change (PAGE * Z.of_nat 512) with TWO_MIB. lia.
Qed.
Definition block_index (va : Z) : nat := Z.to_nat (va / TWO_MIB).
Lemma block_index_range va : USER_RAM_MIN <= va < GIB1_END → (FINE_BLOCKS <= block_index va < 512)%nat.
Proof.
  intros [H1 H2]. unfold block_index. assert (8 <= va / TWO_MIB < 512); [|unfold FINE_BLOCKS; lia].
  split; [apply Z.div_le_lower_bound; done|by apply Z.div_lt_upper_bound].
Qed.
Lemma fine_block va : 0 <= va → va < GIB1_END → (block_index va <? FINE_BLOCKS)%nat = (va <? USER_RAM_MIN).
Proof.
  intros H1 H2. unfold block_index. destruct (Z.ltb_spec va USER_RAM_MIN) as [H3|H3].
  - apply Nat.ltb_lt. assert (va / TWO_MIB < 8) by (by apply Z.div_lt_upper_bound). assert (0 <= va / TWO_MIB) by (by apply Z.div_pos). unfold FINE_BLOCKS. lia.
  - apply Nat.ltb_ge. apply (block_index_range va). done.
Qed.
Lemma mod_page p : 0 <= p < 2 ^ 52 → p mod PAGE = 0 → page p.
Proof. intros Hp Hm. split; [done|]. by apply Z.mod_divide. Qed.

(** The grants after a page was mapped in a block that was [fine], or was one block before. *)
Definition map_grants (a k j : nat) (x : option (Z * bool * bool)) (fine : bool) (G : Grants) : Grants :=
  set_page_grant a 0 0 k j x (set_block_grants a 0 0 k (λ j', if fine then G a 0%nat 0%nat k j' else None) G).

Lemma map_page_at_spec own G s a l2 va phys perm : vm_ok own G s → own !! l2 = Some (a, Pd 0 0) → 0 <= va → 0 <= phys < 2 ^ 52 →
  wp (vspace_map_page_at alloc l2 va phys perm) s (λ r s',
    if r then va mod PAGE = 0 ∧ USER_RAM_MIN <= va < GIB1_END ∧ page phys ∧ ∃ own' q, evolves_to own s own'
        (map_grants a (block_index va) (page_index va) (grant_of phys perm) (is_table (ld (mem s) l2 (block_index va))) G) s' ∧
        own' !! q = Some (a, Pt 0 0 (block_index va)) ∧ ld (mem s') l2 (block_index va) = table_desc q
    else evolves_to own s own G s').
Proof.
  intros T Hl2 Hva Hph. unfold vspace_map_page_at.
  destruct (Z.eqb_spec (va mod PAGE) 0) as [Hv|]; [|apply wp_ret; by apply evolves_refl].
  destruct (Z.eqb_spec (phys mod PAGE) 0) as [Hm|]; [|apply wp_ret; by apply evolves_refl]. cbn [negb orb].
  destruct (Z.leb_spec GIB1_END va) as [|Hend]; [apply wp_ret; by apply evolves_refl|]. change (Z.to_nat (va / TWO_MIB)) with (block_index va).
  rewrite fine_block by done. destruct (Z.ltb_spec va USER_RAM_MIN) as [|Hmin]; [apply wp_ret; by apply evolves_refl|].
  pose proof (block_index_range va (conj Hmin Hend)) as Hk. pose proof (mod_page phys Hph Hm) as Hpg.
  apply wp_bind. eapply wp_mono; [by apply pt_for_spec|]. cbn beta. intros [q|] s1; [|intros E; by apply wp_ret].
  intros (own1 & E1 & Hq & El). apply wp_bind. eapply wp_mono; [eapply (store_page_spec own1); [apply E1|exact Hq|apply page_index_lt|by apply user_page_grant|]|].
  { intros pa w e [= _ <- <-]. by destruct perm. }
  cbn beta. intros _ s2 E2. apply wp_ret. split_and!; try done. exists own1, q. split_and!; [by eapply evolves_trans|done|].
  destruct E2 as (T2 & _). destruct (linked_entry Himg _ _ _ _ T2 q a (Pt 0 0 (block_index va)) (Pd 0 0) _ Hq eq_refl) as (pd & Hpd & _ & E & _).
  assert (own1 !! l2 = Some (a, Pd 0 0)) as Hl2' by (destruct E1 as (_ & R & _); apply (R l2 a (Pd 0 0)); auto).
  by rewrite (t_inj _ _ _ _ T2 _ _ _ Hpd Hl2') in E.
Qed.

Lemma unmap_page_spec own G s a l2 va : vm_ok own G s → own !! l2 = Some (a, Pd 0 0) → USER_RAM_MIN <= va →
  wp (vspace_unmap_page l2 va) s (λ r s',
    if r then va mod PAGE = 0 ∧ va < GIB1_END ∧ is_table (ld (mem s) l2 (block_index va)) = true ∧
      evolves_to own s own (set_page_grant a 0 0 (block_index va) (page_index va) None G) s'
    else s' = s).
Proof.
  intros T Hl2 Hmin. unfold vspace_unmap_page.
  destruct (Z.eqb_spec (va mod PAGE) 0) as [Hv|]; [|by apply wp_ret]. cbn [negb orb].
  destruct (Z.leb_spec GIB1_END va) as [|Hend]; [by apply wp_ret|]. pose proof (block_index_range va (conj Hmin Hend)) as Hk.
  change (Z.to_nat (va / TWO_MIB)) with (block_index va). apply wp_bind, wp_load; [lia|].
  assert (negb (has (ld (mem s) l2 (block_index va)) P) || has (ld (mem s) l2 (block_index va)) PS = negb (is_table (ld (mem s) l2 (block_index va)))) as ->.
  { unfold is_table. by destruct (has _ P), (has _ PS). }
  destruct (is_table (ld (mem s) l2 (block_index va))) eqn:He; cbn [negb]; [|by apply wp_ret].
  destruct (table_entry own G s a 0 0 (block_index va) l2 T Hl2) as [Hq _]; [lia|apply own_block; lia|done|].
  apply wp_bind. eapply wp_mono; [eapply (store_page_spec own G s a 0 0 (block_index va) _ _ _ None); [done|exact Hq|apply page_index_lt| |done]|].
  - apply supervisor_page_grant. apply mod_page; [|done]. unfold USER_RAM_MIN, GIB1_END, ONE_GIB in *. lia.
  - cbn beta. intros _ s' E. by apply wp_ret.
Qed.

Lemma map_dma_page_spec own G s a l2 va coherent : vm_ok own G s → own !! l2 = Some (a, Pd 0 0) → 0 <= va < 2 ^ 52 →
  wp (map_dma_page alloc l2 va coherent) s (λ r s',
    if r then ∃ own', USER_RAM_MIN <= va < GIB1_END ∧ page va ∧ evolves_to own s own'
        (map_grants a (block_index va) (page_index va) (grant_of va Rw) (is_table (ld (mem s) l2 (block_index va))) G) s' ∧
        (∃ q, own' !! q = Some (a, Pt 0 0 (block_index va)))
    else evolves own s G s').
Proof.
  intros T Hl2 Hva. unfold map_dma_page, vspace_map_page. apply wp_bind. eapply wp_mono; [by apply map_page_at_spec; [..|lia|]|].
  cbn beta. intros [|] s1; cbn [negb]; [|intros E; apply wp_ret; by exists own].
  intros (Hv & Hr & Hpg & own1 & q & E1 & Hq & El). destruct coherent; [apply wp_ret; exists own1; split; [done|]; split; [done|]; split; [done|by exists q]|].
  pose proof (block_index_range va Hr) as Hk. change (Z.to_nat (va / TWO_MIB)) with (block_index va).
  apply wp_bind, wp_load; [lia|]. apply wp_bind, wp_load; [apply page_index_lt|]. pose proof E1 as (T1 & _).
  destruct (t_frames _ _ _ _ T1 q _ Hq) as (Hpq & _). rewrite El. destruct (table_desc_spec q Hpq) as (_ & _ & _ & _ & _ & ->).
  pose proof (t_nodes _ _ _ _ T1 q a (Pt 0 0 (block_index va)) (page_index va) Hq (page_index_lt va)) as Hn. cbn [node_ok] in Hn.
  apply wp_bind. eapply wp_mono; [eapply (store_page_spec own1 _ s1); [done|exact Hq|apply page_index_lt|rewrite uncached_page_grant; symmetry; exact Hn|by apply (t_wx _ _ _ _ T1)]|].
  cbn beta. intros _ s2 E2. apply wp_ret. exists own1. split; [done|]. split; [done|]. split; [|by exists q]. eapply evolves_trans; [exact E1|].
  eapply evolves_ext; [|exact E2]. intros b t g k j. unfold set_page_grant. symmetry. apply same_block_grants. intros j'. by destruct (Nat.eqb_spec j' (page_index va)) as [->|].
Qed.

(** Blocks of the first GiB. *)
Lemma pd_block_index_spec phys : 0 <= phys →
  pd_block_index phys = (if (USER_RAM_MIN <=? phys) && (phys <? GIB1_END) && (phys mod TWO_MIB =? 0) then Some (block_index phys) else None).
Proof.
  intros Hp. unfold pd_block_index, block_index. destruct (Z.ltb_spec phys USER_RAM_MIN), (Z.leb_spec USER_RAM_MIN phys); try lia; [done|].
  destruct (Z.leb_spec GIB1_END phys), (Z.ltb_spec phys GIB1_END); try lia; [done|]. by destruct (phys mod TWO_MIB =? 0).
Qed.
Lemma block_page phys : USER_RAM_MIN <= phys < GIB1_END → phys mod TWO_MIB = 0 → page phys ∧ (TWO_MIB | phys).
Proof.
  intros Hr Hm. apply Z.mod_divide in Hm as [c Hc]; [|done]. split; [|by exists c]. split; [unfold USER_RAM_MIN, GIB1_END, ONE_GIB in *; lia|].
  exists (c * 512). rewrite Hc. unfold TWO_MIB, PAGE. lia.
Qed.
(** What becomes of a block, with [fine] for a table that was there before. *)
Definition evolves_block (own : Own) (s : W) (fine : bool) (G' : Grants) (s' : W) : Prop :=
  ∃ own', vm_ok own' G' s' ∧ same_roots own own' ∧ same_statics (mem s) (mem s') ∧ (fine = false → tight own s → tight own' s').
Lemma set_block_spec own G s a l2 phys f x : vm_ok own G s → own !! l2 = Some (a, Pd 0 0) → 0 <= phys →
  (∀ p, page p → (TWO_MIB | p) → is_table (f p) = false ∧ ∀ j, block_grant (f p) j = x p j) →
  (∀ p j pa w e, x p j = Some (pa, w, e) → w && e = false) →
  wp (set_block f l2 phys) s (λ r s',
    if r then USER_RAM_MIN <= phys < GIB1_END ∧ phys mod TWO_MIB = 0 ∧
      evolves_block own s (is_table (ld (mem s) l2 (block_index phys))) (set_block_grants a 0 0 (block_index phys) (x phys) G) s'
    else s' = s).
Proof.
  intros T Hl2 Hp Hf Hx. unfold set_block. rewrite pd_block_index_spec by done.
  destruct (Z.leb_spec USER_RAM_MIN phys) as [H1|]; [|by apply wp_ret]. destruct (Z.ltb_spec phys GIB1_END) as [H2|]; [|by apply wp_ret].
  destruct (Z.eqb_spec (phys mod TWO_MIB) 0) as [H3|]; [|by apply wp_ret]. cbn [andb].
  destruct (block_page phys (conj H1 H2) H3) as [Hpg Hd]. pose proof (block_index_range phys (conj H1 H2)) as Hk. destruct (Hf phys Hpg Hd) as [He Hg].
  apply wp_bind. eapply wp_mono; [apply (store_block_spec own G s a 0 0 (block_index phys) l2 (f phys) (x phys)); try done; [lia|apply own_block; lia| |by apply Hx]|].
  - split_and!; [done|by left|done].
  - cbn beta. intros _ s' E. by apply wp_ret.
Qed.

(** A new table that grants nothing, hung in where there was none. *)
Definition same_tables (own own' : Own) : Prop :=
  ∀ q (b t g k : nat), own' !! q = Some (b, Pt t g k) → own !! q = Some (b, Pt t g k).
Lemma add_dir_spec {B} own G s a pl pl' x p q f s1 (K : M W B) (Q : B → W → Prop) :
  vm_ok own G s → own !! p = Some (a, pl') → parent pl = Some (pl', x) → (x < 512)%nat →
  pl = Pdpt 1 ∨ pl = Pd 1 0 ∨ (∃ g, pl = Pd 0 (S g)) → (∀ r, own !! r ≠ Some (a, pl)) →
  page q → is_static_table q = false → q ∉ frames s → frames s1 = {[q]} ∪ frames s → mem s1 = mem s →
  (∀ i, (i < 512)%nat → node_ok own G a pl i (f i)) →
  (∀ own' s', evolves_to own s own' G s' → same_tables own own' → own' !! q = Some (a, pl) → wp K s' Q) →
  wp (fill q f ≫= λ _, store p x (table_desc q) ≫= λ _, K) s1 Q.
Proof.
  intros T Hp Hpar Hx Hpl Hno Hq Hst Hh Es Em Hf HK. pose proof (fresh_unowned own G s q T Hh) as Hq0.
  assert (p ≠ q) as Hne by (intros ->; congruence). apply wp_bind, wp_modify, wp_bind, wp_store; [done|].
  apply (HK (<[q := (a, pl)]> own)); [| |apply lookup_insert_eq].
  2: { intros r b t g k. rewrite lookup_insert_Some. intros [[_ [= _ ->]]|[_ ?]]; [|done]. destruct Hpl as [E|[E|[? E]]]; discriminate E. }
  cbn.
  assert (∀ r i, r ≠ q → (r, i) ≠ (p, x) → ld (st p x (table_desc q) (filled q f (mem s1))) r i = ld (mem s) r i) as Hm.
  { intros r i H1 H2. rewrite ld_st, decide_False by (intros [-> ->]; done). rewrite ld_filled, decide_False by (intros [-> _]; done). by rewrite Em. }
  split_and!.
  - unfold vm_ok. cbn. rewrite Es. apply (tree_add Himg own G (mem s) (frames s) T a pl pl' x p q); try done.
    + apply elem_of_union_l. by apply elem_of_singleton.
    + apply union_subseteq_r.
    + by rewrite ld_st, decide_True.
    + intros i Hi. rewrite ld_st, decide_False by (intros [? _]; done). rewrite ld_filled, decide_True by done. by apply Hf.
  - intros r b pl0 Hpl0. rewrite lookup_insert_Some. split.
    + intros [[_ [= -> ->]]|[_ ?]]; [|done]. destruct Hpl0 as [->| ->]; destruct Hpl as [E|[E|[g E]]]; discriminate E.
    + intros Hr. right. split; [|done]. intros ->. congruence.
  - intros r i Hr. cbn. apply Hm; [intros ->; congruence|]. intros [= -> ->]. apply (t_frames _ _ _ _ T) in Hp as (_ & Hp & _). congruence.
  - unfold tight. cbn. rewrite Es, dom_insert_L. by intros ->.
  - by apply insert_subseteq.
Qed.
(** Nothing hangs below an entry that is no table of the space. *)
Lemma no_child own G s a pl pl' x p : vm_ok own G s → own !! p = Some (a, pl') → parent pl = Some (pl', x) →
  (∀ q, page q → is_static_table q = false → ld (mem s) p x ≠ table_desc q) → ∀ r, own !! r ≠ Some (a, pl).
Proof.
  intros T Hp Hpar Hne r Hr. destruct (linked_entry Himg _ _ _ _ T r a pl pl' x Hr Hpar) as (p' & Hp' & _ & E & _).
  rewrite (t_inj _ _ _ _ T _ _ _ Hp' Hp) in E. destruct (t_frames _ _ _ _ T r _ Hr) as (? & ? & _). by eapply Hne.
Qed.

(** A directory that is there, or a new empty one. *)
Lemma table_or_new_dir own G s a pl pl' x p : vm_ok own G s → own !! p = Some (a, pl') → parent pl = Some (pl', x) → (x < 512)%nat →
  pl = Pdpt 1 ∨ pl = Pd 1 0 → ld (mem s) p x = 0 ∨ link own a pl (ld (mem s) p x) →
  (∀ i, (i < 512)%nat → ld (mem s) p x = 0 → node_ok own G a pl i 0) →
  wp (table_or_new alloc p x) s (λ o s',
    match o with Some q => ∃ own', evolves_to own s own' G s' ∧ same_tables own own' ∧ own' !! q = Some (a, pl) | None => evolves_to own s own G s' end).
Proof.
  intros T Hp Hpar Hx Hpl He Hnew. unfold table_or_new. apply wp_bind, wp_load; [done|]. destruct He as [He|Hl].
  - rewrite He. cbn [has]. apply wp_bind, wp_frame; [|intros; apply wp_ret; by apply no_alloc].
    intros q s1 Hq Hst Hh Es Em. eapply (add_dir_spec own G s a pl pl' x p q (λ _, 0) s1); try done.
    + destruct Hpl as [->| ->]; auto.
    + eapply no_child; [done..|]. intros r Hr _. rewrite He. intros E. by apply (table_desc_0 r Hr).
    + intros i Hi. by apply Hnew.
    + intros own' s' E Es' Hq'. apply wp_ret. by exists own'.
  - apply (link_page _ _ _ _ _ _ _ T) in Hl as (q & -> & Hq & Hpq). destruct (table_desc_spec q Hpq) as (-> & _ & _ & _ & _ & ->).
    apply wp_ret. exists own. split; [by apply evolves_refl|]. split; [by intros ?|done].
Qed.

(** *** Devices *)
Lemma shared_entry own G (a g i : nat) e : shared_leaf e → (∀ j, G a 0%nat (S g) i j = None) → node_ok own G a (Pd 0 (S g)) i e.
Proof.
  intros [Hu Ht] HG. cbn. left. split; [split_and!; [done|by right|done]|]. intros j _. rewrite HG. unfold block_grant, grant. by rewrite Hu, andb_false_r.
Qed.
Lemma split_leaf g i e : (g < 512)%nat → (i < 512)%nat → has e PS = true → has e US = false → shared_leaf (block_addr g i ||| Z.ldiff e ADDR).
Proof.
  intros Hg Hi HS HU. assert (page (block_addr g i)) as Hp.
  { unfold block_addr. replace (Z.of_nat g * ONE_GIB + Z.of_nat i * TWO_MIB) with ((Z.of_nat g * 2 ^ 18 + Z.of_nat i * 512) * PAGE) by (unfold ONE_GIB, TWO_MIB, PAGE; lia). apply page_mul. lia. }
  assert (∀ b, Z.land b ADDR = 0 → has (block_addr g i ||| Z.ldiff e ADDR) b = has e b) as Hb.
  { intros b E. rewrite has_or by done. unfold has. do 2 f_equal. apply Z.bits_inj'. intros n Hn. apply (f_equal (λ z, Z.testbit z n)) in E.
    rewrite !Z.land_spec, Z.bits_0 in *. rewrite Z.ldiff_spec. destruct (Z.testbit b n), (Z.testbit ADDR n); try done; cbn; by rewrite ?andb_true_r, ?andb_false_r. }
  unfold shared_leaf, is_table. rewrite !Hb, HS by reflexivity. by rewrite andb_false_r.
Qed.
Lemma shared_high g own G m h (a : nat) e : tree_ok own G m h → foreign (S g) e → is_table e = true →
  is_shared_high_pd (S g) (addr e) = true ∧ ∀ i, (i < 512)%nat → (S g < 512)%nat → shared_leaf (ld m (addr e) i).
Proof.
  intros T [[Hg ->]|(Hg & _ & Hk)] He; unfold is_shared_high_pd; cbn [Nat.eqb].
  - destruct (table_desc_spec (ISO_PD_HIGH (S g - 1))) as (_ & _ & _ & _ & _ & ->); [apply iso_page; [done|lia]|]. split; [apply iso_static; [done|lia]|].
    intros i Hi _. apply (s_iso _ (t_statics _ _ _ _ T)); [lia|done].
  - destruct (Hk He) as (k & Hk1 & ->). split; [by apply high_static|]. intros i Hi _. by apply (s_high _ (t_statics _ _ _ _ T)).
Qed.

(** The directory of a GiB: [l2] for the first one; a private copy takes the place of a shared one. *)
Lemma private_pd_spec own G s a p g : vm_ok own G s → own !! p = Some (a, Pdpt 0) → (g < 512)%nat →
  wp (private_pd alloc p g) s (λ o s', match o with
    | Some q => ∃ own', evolves_to own s own' G s' ∧ own' !! q = Some (a, Pd 0 g) | None => evolves_to own s own G s' end).
Proof.
  intros T Hp Hg. unfold private_pd. apply wp_bind, wp_load; [done|]. pose proof (t_nodes _ _ _ _ T p a _ g Hp Hg) as Hn. cbn [node_ok] in Hn.
  assert (link own a (Pd 0 g) (ld (mem s) p g) ∨ ∃ g', g = S g' ∧ foreign g (ld (mem s) p g) ∧ ∀ k j, G a 0%nat g k j = None) as [Hl|(g' & -> & Hf & HG)].
  { destruct g as [|g]; [by left|]. destruct Hn as [[Hf HG]|Hl]; [right; by exists g|by left]. }
  - apply (link_page _ _ _ _ _ _ _ T) in Hl as (q & -> & Hq & Hpq). destruct (table_desc_spec q Hpq) as (-> & _ & _ & _ & -> & ->).
    assert (is_shared_high_pd g q = false) as ->.
    { unfold is_shared_high_pd. destruct (g =? 0)%nat; [done|]. by destruct (t_frames _ _ _ _ T q _ Hq) as (_ & ? & _). }
    apply wp_ret. exists own. split; [by apply evolves_refl|done].
  - set (e := ld (mem s) p (S g')) in *. replace (has e P && negb (has e P && has e PS)) with (is_table e) by (unfold is_table; by destruct (has e P), (has e PS)).
    assert (is_table e && negb (is_shared_high_pd (S g') (addr e)) = false) as ->.
    { destruct (is_table e) eqn:He; [|done]. by destruct (shared_high g' own G (mem s) _ a e T Hf He) as [-> _]. }
    apply wp_bind, wp_frame; [|intros; apply wp_ret; by apply no_alloc]. intros q s1 Hq Hst Hh Es Em. apply wp_bind, wp_gets.
    eapply (add_dir_spec own G s a (Pd 0 (S g')) (Pdpt 0) (S g') p q _ s1); try done; [by eauto| | |].
    + eapply no_child; [done..|]. intros r Hr Hsr E. fold e in E. assert (is_table e = true) as He.
      { unfold is_table. rewrite E. by destruct (table_desc_spec r Hr) as (-> & _ & _ & _ & -> & _). }
      destruct (shared_high g' own G (mem s) _ a e T Hf He) as [Hs _]. unfold is_shared_high_pd in Hs. cbn in Hs.
      rewrite E in Hs. destruct (table_desc_spec r Hr) as (_ & _ & _ & _ & _ & Ea). rewrite Ea in Hs. congruence.
    + intros i Hi. apply shared_entry; [|by intros; apply HG]. rewrite Em. destruct (has e P && has e PS) eqn:El.
      * apply andb_true_iff in El as [HP HS]. destruct Hf as [[Hg3 E]|(_ & HU & _)]; [|by apply split_leaf].
        destruct (table_desc_spec (ISO_PD_HIGH (S g' - 1))) as (_ & _ & _ & _ & E2 & _); [apply iso_page; [done|lia]|]. rewrite <-E in E2. congruence.
      * destruct (has e P) eqn:HP; [|done]. cbn in El. assert (is_table e = true) as He by (unfold is_table; by rewrite HP, El).
        by destruct (shared_high g' own G (mem s) _ a e T Hf He) as [_ Hs]; apply Hs.
    + intros own' s2 E _ Hq'. destruct (LOW_GIB <=? S g')%nat; [apply wp_bind, wp_modify|apply wp_bind, wp_ret]; apply wp_ret; by exists own'.
Qed.

(** The table of a block of a device's directory; above the first GiB nothing was granted there. *)
Lemma device_pt_spec own G s a pd g k : vm_ok own G s → own !! pd = Some (a, Pd 0 (S g)) → (S g < 512)%nat → (k < 512)%nat →
  wp (device_pt alloc pd (S g) k) s (λ o s', match o with
    | Some q => ∃ own', evolves_to own s own' G s' ∧ own' !! q = Some (a, Pt 0 (S g) k) | None => evolves_to own s own G s' end).
Proof.
  intros T Hpd Hg Hk. unfold device_pt. apply wp_bind, wp_load; [done|]. set (e := ld (mem s) pd k) in *.
  change (has e P && negb (has e PS)) with (is_table e). destruct (is_table e) eqn:He.
  { apply wp_ret. destruct (table_entry own G s a 0 (S g) k pd T Hpd) as [Hq _]; [done..|]. exists own. split; [by apply evolves_refl|done]. }
  apply wp_bind, wp_frame; [|intros; apply wp_ret; by apply no_alloc]. intros q s1 Hq Hst Hh Es Em.
  pose proof (t_nodes _ _ _ _ T pd a _ k Hpd Hk) as Hn. cbn [node_ok] in Hn. change (image_block 0 (S g) k) with false in Hn. cbn iota in Hn. fold e in Hn.
  assert (has e US = false ∧ ∀ j, (j < 512)%nat → G a 0%nat (S g) k j = None) as [HU HG].
  { destruct Hn as [[(_ & Hl & _) HG]|Hl].
    - destruct (Hl eq_refl) as [|HU]; [done|]. split; [done|]. intros j Hj. rewrite HG by done. unfold block_grant, grant. by rewrite HU, andb_false_r.
    - destruct (not_node_link own G (mem s) (frames s) T e He a (Pt 0 (S g) k) Hl). }
  eapply wp_mono; [eapply (new_table_spec own G s a 0 (S g) k pd q _ (λ j, if (j <? 512)%nat then None else G a 0%nat (S g) k j) s1); try done|].
  - intros j Hj. rewrite (proj2 (Nat.ltb_lt _ _) Hj). destruct (Z.eqb_spec (if has e P then Z.ldiff (Z.ldiff e ADDR) PS else 0) 0) as [|Hne]; [done|].
    destruct (has e P); [|done]. unfold page_grant, grant.
    assert (page (block_addr (S g) k + Z.of_nat j * PAGE)) as Hpg.
    { unfold block_addr. replace (Z.of_nat (S g) * ONE_GIB + Z.of_nat k * TWO_MIB + Z.of_nat j * PAGE) with ((Z.of_nat (S g) * 2 ^ 18 + Z.of_nat k * 512 + Z.of_nat j) * PAGE)
        by (unfold ONE_GIB, TWO_MIB, PAGE; lia). apply page_mul. lia. }
    rewrite (has_or _ _ US) by done. replace (has (Z.ldiff (Z.ldiff e ADDR) PS) US) with (has e US); [by rewrite HU, andb_false_r|].
    change US with (2 ^ 2). rewrite !has_pow by done. rewrite !Z.ldiff_spec. change (Z.testbit ADDR 2) with false. change (Z.testbit PS 2) with false. cbn. by rewrite !andb_true_r.
  - intros j pa w x. destruct (j <? 512)%nat; [done|]. by apply (t_wx _ _ _ _ T).
  - cbn beta. intros o s' [-> (own' & E & Hq' & _)]. exists own'. split; [|done]. eapply evolves_ext; [|exact E]. intros b t' g' k' j. symmetry.
    apply same_block_grants. intros j'. destruct (Nat.ltb_spec j' 512); [by rewrite HG|done].
Qed.

(** The indices of a page of a device. *)
Definition gib (pa : Z) : nat := Z.to_nat (pa / ONE_GIB).
Definition gib_block (pa : Z) : nat := Z.to_nat ((pa mod ONE_GIB) / TWO_MIB).
Lemma gib_block_lt pa : (gib_block pa < 512)%nat.
Proof.
  unfold gib_block. pose proof (Z.mod_pos_bound pa ONE_GIB ltac:(done)). apply Nat2Z.inj_lt. rewrite Z2Nat.id by (apply Z.div_pos; [lia|done]).
  apply Z.div_lt_upper_bound; [done|]. change (TWO_MIB * Z.of_nat 512) with ONE_GIB. lia.
Qed.
Lemma gib_range pa : ONE_GIB <= pa < Z.of_nat MAPPED_GIB * ONE_GIB → ∃ g, gib pa = S g ∧ (S g < 512)%nat.
Proof.
  intros [H1 H2]. assert (1 <= pa / ONE_GIB < 512) as Hr.
  { split; [by apply Z.div_le_lower_bound|]. apply Z.div_lt_upper_bound; [done|]. change (Z.of_nat MAPPED_GIB) with 512 in H2. lia. }
  exists (gib pa - 1)%nat. unfold gib. lia.
Qed.

Lemma map_device_page_spec own G s a l1 ro pa : vm_ok own G s → own !! l1 = Some (a, Pml4) → page pa → ONE_GIB <= pa < Z.of_nat MAPPED_GIB * ONE_GIB →
  wp (map_device_page alloc l1 ro pa) s (λ r s',
    if r then evolves own s (set_page_grant a 0 (gib pa) (gib_block pa) (page_index pa) (Some (pa, negb ro, false)) G) s' else evolves own s G s').
Proof.
  intros T Hl1 Hpa Hr. unfold map_device_page. change (Z.to_nat (pa / ONE_GIB)) with (gib pa).
  change (Z.to_nat ((pa mod ONE_GIB) / TWO_MIB)) with (gib_block pa). destruct (gib_range pa Hr) as (g & -> & Hg).
  apply wp_bind, wp_load; [lia|]. pose proof (t_nodes _ _ _ _ T l1 a _ 0%nat Hl1 ltac:(lia)) as Hn. cbn [node_ok] in Hn.
  apply (link_page _ _ _ _ _ _ _ T) in Hn as (p & -> & Hp & Hpp). destruct (table_desc_spec p Hpp) as (-> & _ & _ & _ & _ & ->). cbn [negb].
  apply wp_bind. eapply wp_mono; [by apply private_pd_spec|]. cbn beta. intros [pd|] s1; [|intros E; apply wp_ret; by exists own].
  intros (own1 & E1 & Hpd). apply wp_bind. eapply wp_mono; [apply (device_pt_spec own1 G s1 a pd g); [apply E1|done|done|apply gib_block_lt]|].
  cbn beta. intros [q|] s2; [|intros E2; apply wp_ret; exists own1; by eapply evolves_trans].
  intros (own2 & E2 & Hq). apply wp_bind. eapply wp_mono; [eapply (store_page_spec own2 G s2); [apply E2|exact Hq|apply page_index_lt|by apply device_entry_grant|]|].
  { by intros pa' w e [= _ <- <-]; destruct ro. }
  cbn beta. intros _ s3 E3. apply wp_ret. exists own2. do 2 (eapply evolves_trans; [eassumption|]). done.
Qed.

(** *** The window of a domain *)
(** What a region of [n] bytes grants in its slot; a block for [Ro] can be written all the same. *)
Definition whole_block (phys n : Z) : bool := (n =? TWO_MIB) && (phys mod TWO_MIB =? 0).
Definition window_grants (a slot : nat) (phys n : Z) (perm : UserPerm) (G : Grants) : Grants :=
  set_block_grants a 1 0 slot (λ j,
    if whole_block phys n then grant_of (phys + Z.of_nat j * PAGE) (match perm with Rx => Rx | _ => Rw end)
    else if (j <? Z.to_nat (n / PAGE))%nat then grant_of (phys + Z.of_nat j * PAGE) perm else G a 1%nat 0%nat slot j) G.
Lemma grant_of_wx pa perm pa' w x : grant_of pa perm = Some (pa', w, x) → w && x = false.
Proof. intros [= _ <- <-]. by destruct perm. Qed.
Lemma page_entry own G s a t g k q j : vm_ok own G s → own !! q = Some (a, Pt t g k) → (j < 512)%nat → page_grant (ld (mem s) q j) = G a t g k j.
Proof. intros T Hq Hj. symmetry. apply (t_nodes _ _ _ _ T q a (Pt t g k) j Hq Hj). Qed.

(** [n] pages are written to a table, from the first on. *)
Lemma store_pages_spec own G s a t g k q n (v : nat → Z) (x : nat → option (Z * bool * bool)) : (n <= 512)%nat → vm_ok own G s → own !! q = Some (a, Pt t g k) →
  (∀ j, (j < n)%nat → page_grant (v j) = x j) → (∀ j pa w e, x j = Some (pa, w, e) → w && e = false) →
  wp (for_ (seq 0 n) (λ j, store q j (v j))) s (λ _ s',
    evolves_to own s own (set_block_grants a t g k (λ j, if (j <? n)%nat then x j else G a t g k j) G) s').
Proof.
  intros Hn T Hq Hv Hx. eapply wp_mono; [apply (wp_range (λ m s', evolves_to own s own (set_block_grants a t g k (λ j, if (j <? m)%nat then x j else G a t g k j) G) s'))|by intros].
  - eapply evolves_ext; [by apply same_block_grants|by apply evolves_refl].
  - intros m s1 Hm E1. pose proof E1 as (T1 & _).
    eapply wp_mono; [eapply (store_page_spec own _ s1 a t g k q m (v m) (x m)); [done|done|lia|apply Hv; lia|apply Hx]|].
    cbn beta. intros _ s2 E2. eapply evolves_trans; [exact E1|]. eapply evolves_ext; [|exact E2].
    intros b t' g' k' j. unfold set_page_grant, set_block_grants. case_decide as D; [|done]. injection D as -> -> -> ->.
    rewrite ?decide_True by done. destruct (Nat.eqb_spec j m) as [->|]; [by rewrite (proj2 (Nat.ltb_lt m (m + 1))) by lia|].
    destruct (Nat.ltb_spec j (m + 1)), (Nat.ltb_spec j m); try lia; done.
Qed.

(** The directory of the window, made when it is first used. *)
Lemma window_dir_spec {B} own G s a l1 (K : Z → M W (option B)) Q : vm_ok own G s → own !! l1 = Some (a, Pml4) →
  (∀ q own' s', evolves_to own s own' G s' → same_tables own own' → own' !! q = Some (a, Pd 1 0) → wp (K q) s' Q) → (∀ s', evolves own s G s' → Q None s') →
  wp (o ← table_or_new alloc l1 1; match o with None => mret None | Some p => o ← table_or_new alloc p 0; match o with None => mret None | Some q => K q end end) s Q.
Proof.
  intros T Hl1 HK HQ. pose proof (t_nodes _ _ _ _ T l1 a _ 1%nat Hl1 ltac:(lia)) as Hn. cbn [node_ok] in Hn. apply wp_bind.
  eapply wp_mono; [apply (table_or_new_dir own G s a (Pdpt 1) Pml4 1 l1); try done; [lia|by left| |]|].
  - destruct Hn as [[? _]|?]; [by left|by right].
  - intros i Hi E. cbn. left. split; [done|]. destruct Hn as [[_ HG]|Hl]; [by intros; apply HG|].
    apply (link_page _ _ _ _ _ _ _ T) in Hl as (q & E' & _ & Hp). rewrite E in E'. by destruct (table_desc_0 q Hp).
  - cbn beta. intros [p|] s1; [|intros E; apply wp_ret, HQ; by exists own]. intros (own1 & E1 & R1 & Hp). pose proof E1 as (T1 & _). apply wp_bind.
    pose proof (t_nodes _ _ _ _ T1 p a _ 0%nat Hp ltac:(lia)) as Hn1. cbn [node_ok] in Hn1.
    eapply wp_mono; [apply (table_or_new_dir own1 G s1 a (Pd 1 0) (Pdpt 1) 0 p); try done; [lia|by right| |]|].
    + destruct Hn1 as [[? _]|(_ & _ & ?)]; [by left|by right].
    + intros i Hi E. cbn. left. unfold leaf_ok. rewrite has_0. split; [done|]. intros j _. destruct Hn1 as [[_ HG]|(_ & _ & Hl)]; [by rewrite HG|].
      apply (link_page _ _ _ _ _ _ _ T1) in Hl as (q & E' & _ & Hpq). rewrite E in E'. by destruct (table_desc_0 q Hpq).
    + cbn beta. intros [q|] s2; [|intros E2; apply wp_ret, HQ; exists own1; by eapply evolves_trans].
      intros (own2 & E2 & R2 & Hq). eapply HK; [by eapply evolves_trans| |done].
      intros r b t g k Hr. by eapply R1, R2.
Qed.
(** The table of a slot that grants nothing. *)
Lemma window_table_spec own G s a pd slot : vm_ok own G s → own !! pd = Some (a, Pd 1 0) → (slot < 512)%nat → (∀ j, (j < 512)%nat → G a 1%nat 0%nat slot j = None) →
  wp (table_or_new alloc pd slot) s (λ o s', match o with
    | Some q => ∃ own', evolves_to own s own' G s' ∧ own' !! q = Some (a, Pt 1 0 slot) | None => evolves_to own s own G s' end).
Proof.
  intros T Hpd Hs HG. unfold table_or_new. apply wp_bind, wp_load; [done|]. set (e := ld (mem s) pd slot) in *.
  pose proof (t_nodes _ _ _ _ T pd a _ slot Hpd Hs) as Hn. cbn [node_ok] in Hn. change (image_block 1 0 slot) with false in Hn. cbn iota in Hn. fold e in Hn.
  destruct Hn as [[(He & _ & HU) HB]|Hl].
  - assert (has e P = false) as HP.
    { destruct (has e P) eqn:HP; [|done]. specialize (HB 0%nat ltac:(lia)). rewrite HG in HB by lia. unfold block_grant, grant in HB. by rewrite HP, HU in HB. }
    rewrite HP. apply wp_bind, wp_frame; [|intros; apply wp_ret; by apply no_alloc]. intros q s1 Hq Hst Hh Es Em.
    eapply wp_mono; [eapply (new_table_spec own G s a 1 0 slot pd q _ (G a 1%nat 0%nat slot) s1); try done; by apply (t_wx _ _ _ _ T)|].
    cbn beta. intros o s' [-> (own' & E & Hq' & _)]. exists own'. split; [|done]. eapply evolves_ext; [|exact E]. intros b t g k j. symmetry. by apply same_block_grants.
  - apply (link_page _ _ _ _ _ _ _ T) in Hl as (q & E & Hq & Hp). rewrite E. destruct (table_desc_spec q Hp) as (-> & _ & _ & _ & _ & ->).
    apply wp_ret. exists own. split; [by apply evolves_refl|done].
Qed.
(** [keeps]: no frame is lost if the entry held no table. *)
Definition evolves_over (own : Own) (s : W) (pl : nat * place) (G' : Grants) (s' : W) : Prop :=
  ∃ own', vm_ok own' G' s' ∧ same_roots own own' ∧ same_statics (mem s) (mem s') ∧ ((∀ q, own !! q ≠ Some pl) → tight own s → tight own' s').
Lemma evolves_over_of own s pl G' s' : evolves own s G' s' → evolves_over own s pl G' s'.
Proof. intros (own' & ? & ? & ? & ? & ?). exists own'. by split_and!. Qed.
Lemma evolves_over_after own s own1 s1 pl G1 G' s' : evolves_to own s own1 G1 s1 → (∀ q, own1 !! q = Some pl → ∃ r, own !! r = Some pl) →
  evolves_over own1 s1 pl G' s' → evolves_over own s pl G' s'.
Proof.
  intros (_ & R1 & S1 & K1) Hpl (own' & T & R2 & S2 & K2). exists own'. split_and!; [done| | |].
  - intros q b pl' H1. by rewrite (R2 q b pl' H1), (R1 q b pl' H1).
  - intros p i Hp. by rewrite (S2 p i Hp), (S1 p i Hp).
  - intros Hno Ht. apply K2; [|by apply (proj1 K1)]. intros q Hq. destruct (Hpl q Hq) as [r Hr]. by destruct (Hno r).
Qed.
Lemma map_user_window_spec own G s a l1 slot phys n perm : vm_ok own G s → own !! l1 = Some (a, Pml4) → 0 <= phys → phys + n <= 2 ^ 52 → 0 <= n →
  (∀ j, (j < 512)%nat → G a 1%nat 0%nat slot j = None) →
  wp (vspace_map_user_window alloc l1 slot phys n perm) s (λ r s', match r with
    | Some va => va = ISO_USER_VA + Z.of_nat slot * TWO_MIB ∧ (slot < 512)%nat ∧ page phys ∧ evolves_over own s (a, Pt 1 0 slot) (window_grants a slot phys n perm G) s'
    | None => evolves own s G s' end).
Proof.
  intros T Hl1 Hph Hend Hn0 HG. unfold vspace_map_user_window.
  match goal with |- context [if ?c then _ else _] => destruct c eqn:Hc end; [apply wp_ret; exists own; by apply evolves_refl|].
  apply orb_false_iff in Hc as [Hc Hs%Nat.leb_gt]. apply orb_false_iff in Hc as [Hc Hn%Z.ltb_ge]. apply orb_false_iff in Hc as [Hc Hpm%negb_false_iff%Z.eqb_eq].
  apply orb_false_iff in Hc as [Hn1%Z.eqb_neq Hnm%negb_false_iff%Z.eqb_eq].
  assert (page phys) as Hp by (apply mod_page; [lia|done]).
  apply (window_dir_spec own G s a l1); [done|done| |by intros]. intros pd own1 s1 E1 R1 Hpd. pose proof E1 as (T1 & _).
  unfold window_grants. fold (whole_block phys n). destruct (whole_block phys n) eqn:Hw.
  - apply andb_true_iff in Hw as [_ Hw%Z.eqb_eq]. assert (TWO_MIB | phys) as Hd by by apply Z.mod_divide.
    pose proof (user_block_grant phys) as Hu. apply wp_bind.
    eapply wp_mono; [apply (store_block_spec own1 G s1 a 1 0 slot pd _ (λ j, grant_of (phys + Z.of_nat j * PAGE) (match perm with Rx => Rx | _ => Rw end))); try done|].
    + split_and!; [apply (Hu 0%nat perm Hp Hd)|done|]. intros _ _. unfold user_code_block, user_block. destruct perm; flags.
    + intros j. apply (Hu j perm Hp Hd).
    + by intros; eapply grant_of_wx.
    + cbn beta. intros _ s2 (own2 & T2 & Rr & Ss & K2). apply wp_ret. split_and!; try done.
      eapply evolves_over_after; [exact E1| |].
      * intros q Hq. exists q. by apply R1.
      * exists own2. split_and!; try done. intros Hno. apply K2. destruct (is_table (ld (mem s1) pd slot)) eqn:He; [|done].
        destruct (table_entry own1 G s1 a 1 0 slot pd T1 Hpd Hs eq_refl He) as [Hq _]. by destruct (Hno _ Hq).
  - apply wp_bind. eapply wp_mono; [by apply (window_table_spec own1 G s1 a pd slot)|]. cbn beta.
    intros [q|] s2; [|intros E2; apply wp_ret; exists own1; by eapply evolves_trans]. intros (own2 & E2 & Hq). apply wp_bind.
    assert (n = n / PAGE * PAGE) as En by (apply Z.mod_divide in Hnm as [c ->]; [by rewrite Z.div_mul|done]).
    assert (n / PAGE <= 512) as Hn512 by (apply Z.div_le_upper_bound; [done|]; exact Hn).
    eapply wp_mono; [apply (store_pages_spec own2 G s2 a 1 0 slot q _ _ (λ j, grant_of (phys + Z.of_nat j * PAGE) perm)); [lia|apply E2|done| |by intros; eapply grant_of_wx]|].
    + intros j Hj. apply user_page_grant, page_add; [done|lia|]. unfold PAGE in *. lia.
    + cbn beta. intros _ s3 E3. apply wp_ret. split_and!; try done. apply evolves_over_of. exists own2. do 2 (eapply evolves_trans; [eassumption|]). done.
Qed.

(** *** A new space *)
Definition no_grants (a : nat) (G : Grants) : Grants := λ b t g k j, if (b =? a)%nat then None else G b t g k j.
Lemma ldiff_US e b : Z.land US b = 0 → has (Z.ldiff e US) b = has e b.
Proof.
  intros E. unfold has. do 2 f_equal. apply Z.bits_inj'. intros n Hn. apply (f_equal (λ z, Z.testbit z n)) in E.
  rewrite !Z.land_spec, Z.bits_0 in *. rewrite Z.ldiff_spec. destruct (Z.testbit US n), (Z.testbit b n); try done; cbn; by rewrite ?andb_true_r, ?andb_false_r.
Qed.
Lemma foreign_copy m g : statics_ok m → (LOW_GIB <= g < 512)%nat → foreign g (Z.ldiff (ld m PDPT g) US).
Proof.
  intros Hs Hg. right. split; [lia|]. assert (has (Z.ldiff (ld m PDPT g) US) US = false) as HU.
  { change US with (2 ^ 2). rewrite has_pow, Z.ldiff_spec by done. apply andb_false_r. }
  split; [done|]. unfold is_table. rewrite !ldiff_US by reflexivity. intros Ht. destruct (s_pdpt _ Hs g Hg Ht) as (k & Hk & E). exists k. split; [done|].
  rewrite <-E. unfold addr. apply Z.bits_inj'. intros n Hn. rewrite !Z.land_spec, Z.ldiff_spec. destruct (Z.testbit US n) eqn:En; [|by rewrite andb_true_r].
  assert (n = 2) as ->; [|change (Z.testbit ADDR 2) with false; by rewrite !andb_false_r]. change US with (2 ^ 2) in En. rewrite Z.pow2_bits_eqb in En by done. by apply Z.eqb_eq in En.
Qed.
Lemma create_base_spec own G s a l1 l2 : vm_ok own G s → (∀ r pl, own !! r ≠ Some (a, pl)) → l1 ≠ l2 →
  Forall (λ q, page q ∧ is_static_table q = false ∧ q ∈ frames s ∧ own !! q = None) [l1; l2] →
  wp (vspace_create_base alloc l1 l2) s (λ r s',
    if r then ∃ own' q, vm_ok own' (no_grants a G) s' ∧ own' = <[l1 := (a, Pml4)]> (<[q := (a, Pdpt 0)]> (<[l2 := (a, Pd 0 0)]> own)) ∧
      q ∉ frames s ∧ frames s' = {[q]} ∪ frames s ∧ same_statics (mem s) (mem s')
    else frames s' = frames s ∧ mem s' = mem s).
Proof.
  intros T Hno N12 [(P1 & S1 & F1 & O1) [(P2 & S2 & F2 & O2) _]%Forall_cons_1]%Forall_cons_1. unfold vspace_create_base.
  apply wp_bind, wp_frame; [|intros s' Es Em; by apply wp_ret]. intros q s1 Hq Hst Hh Es Em.
  assert (l1 ≠ q) as N1 by (intros ->; done). assert (l2 ≠ q) as N2 by (intros ->; done).
  apply wp_bind, wp_modify, wp_bind, wp_gets, wp_bind, wp_modify, wp_bind, wp_modify, wp_bind, wp_store; [lia|]. apply wp_ret. cbn. rewrite Em, Es.
  assert (∀ g, is_static_table l2 = false → ld (filled l2 (λ i, if (i <? FINE_BLOCKS)%nat then table_desc (PT i) else kernel_block (Z.of_nat i * TWO_MIB)) (mem s)) PDPT g = ld (mem s) PDPT g) as HD.
  { intros g H2. rewrite ld_filled, decide_False; [done|]. intros [-> _]. rewrite pdpt_static in H2. done. }
  set (m' := st l1 0 _ _).
  assert (∀ r i, r ≠ l1 → r ≠ l2 → r ≠ q → ld m' r i = ld (mem s) r i) as Hm.
  { intros r i H1 H2 H3. unfold m'. rewrite ld_st, decide_False by (intros [-> _]; done). rewrite !ld_filled, !decide_False by (intros [-> _]; done). done. }
  exists (<[l1 := (a, Pml4)]> (<[q := (a, Pdpt 0)]> (<[l2 := (a, Pd 0 0)]> own))), q. split_and!; try done.
  2: { intros r i Hr. cbn. apply Hm; intros ->; congruence. }
  unfold vm_ok. cbn. rewrite Es. apply (tree_new Himg own G (mem s) (frames s) T a l1 l2 q m'); try done.
  - by apply (fresh_unowned own G s).
  - apply Forall_cons_2; [split_and!; [done|done|by apply elem_of_union_r]|]. apply Forall_cons_2; [split_and!; [done|done|by apply elem_of_union_r]|].
    apply Forall_cons_2; [split_and!; [done|done|apply elem_of_union_l; by apply elem_of_singleton]|apply Forall_nil_2].
  - apply union_subseteq_r.
  - intros i Hi. unfold m'. rewrite ld_st. destruct (Nat.eqb_spec i 0) as [->|]; [by rewrite decide_True|]. rewrite decide_False by (by intros [_ <-]).
    rewrite ld_filled, decide_True by done. done.
  - intros g Hg. unfold m'. rewrite ld_st, decide_False by (intros [-> _]; done). rewrite ld_filled, decide_False by (intros [-> _]; done).
    rewrite ld_filled, decide_True by done. destruct (Nat.eqb_spec g 0) as [->|]; [done|]. rewrite HD by done.
    change (g <=? 3)%nat with (g <? LOW_GIB)%nat. destruct (Nat.ltb_spec g LOW_GIB); [left; split; [lia|done]|]. apply foreign_copy; [apply T|lia].
  - intros i Hi. unfold m'. rewrite ld_st, decide_False by (intros [-> _]; done). rewrite ld_filled, decide_False by (intros [-> _]; done).
    rewrite ld_filled, decide_False by (intros [-> _]; done). rewrite ld_filled, decide_True by done. done.
Qed.

(** *** Giving the frames of a space back *)
Lemma wp_release q s (Q : unit → W → Prop) : q ∈ frames s → (∀ s', frames s' = frames s ∖ {[q]} → mem s' = mem s → Q tt s') → wp (release free q) s Q.
Proof. intros Hq HQ. apply wp_zoom. eapply wp_mono; [by apply Hfree|]. cbn beta. intros [] x E. by apply HQ. Qed.

Section teardown.
Context (own : Own) (G : Grants) (s0 : W) (a : nat) (T : vm_ok own G s0).
(** The frames of the space at the places [f] are back, and only its own tables were written. *)
Record drained (f : place → Prop) (s : W) : Prop := {
  d_frames : ∀ q, q ∈ frames s ↔ q ∈ frames s0 ∧ ∀ pl, own !! q = Some (a, pl) → ¬ f pl;
  d_mem : ∀ p i, (∀ pl, own !! p ≠ Some (a, pl)) → ld (mem s) p i = ld (mem s0) p i }.
Lemma drained_ext f f' s : (∀ q pl, own !! q = Some (a, pl) → f pl ↔ f' pl) → drained f s → drained f' s.
Proof.
  intros E [D1 D2]. split; [|done]. intros q. rewrite D1. split; intros [Hq Hf]; (split; [done|]); intros pl Hpl; [rewrite <-(E q)|rewrite (E q)]; auto.
Qed.
Lemma drained_mem f s m : (∀ p i, (∀ pl, own !! p ≠ Some (a, pl)) → ld m p i = ld (mem s) p i) → drained f s → drained f (with_mem m s).
Proof. intros E [D1 D2]. split; [done|]. intros p i Hp. cbn. by rewrite E, D2. Qed.
Lemma release_step f s q pl : drained f s → own !! q = Some (a, pl) → ¬ f pl →
  wp (release free q) s (λ _ s', drained (λ x, f x ∨ x = pl) s' ∧ mem s' = mem s).
Proof.
  intros [D1 D2] Hq Hf. apply wp_release.
  - apply D1. split; [by apply (t_frames _ _ _ _ T q _ Hq)|]. intros pl' Hpl'. congruence.
  - intros s' Es Em. split; [|done]. split; [|intros p i Hp; rewrite Em; by apply D2]. intros r. rewrite Es, elem_of_difference, not_elem_of_singleton, D1. split.
    + intros [[Hr Hn] Hne]. split; [done|]. intros pl' Hpl' [H1| ->]; [by eapply Hn|]. apply Hne. by eapply (t_inj _ _ _ _ T).
    + intros [Hr Hn]. split; [split; [done|]; intros pl' Hpl' H1; eapply Hn; eauto|]. intros ->. eapply Hn; eauto.
Qed.

(** The tables below the entries [lo] to [i] of a directory. *)
Definition child_below (t g lo i : nat) (pl : place) : Prop := ∃ k, pl = Pt t g k ∧ (lo <= k < i)%nat.
Lemma collect_loop f s t g pd lo n (k : nat → Z → M W unit) : drained f s → own !! pd = Some (a, Pd t g) → (lo + n <= 512)%nat →
  (∀ i, (lo <= i)%nat → image_block t g i = false) → (∀ i, ¬ f (Pt t g i)) → (∀ i, ld (mem s) pd i = ld (mem s0) pd i) →
  (∀ i e s (Q : unit → W → Prop), (i < 512)%nat →
    wp (release free (addr e)) s (λ _ s, ∀ v, Q tt s ∧ Q tt (with_mem (st pd i v (mem s)) s)) → wp (k i e) s Q) →
  wp (for_ (seq lo n) (λ i, e ← load pd i; if is_table e then k i e else mret tt)) s
    (λ _ s', drained (λ x, f x ∨ child_below t g lo (lo + n) x) s' ∧ ∀ p i, p ≠ pd → ld (mem s') p i = ld (mem s) p i).
Proof.
  intros D Hpd Hn Hb Hf Hm Hk.
  eapply wp_mono; [apply (wp_range (λ i s', drained (λ x, f x ∨ child_below t g lo i x) s' ∧ (∀ p j, p ≠ pd → ld (mem s') p j = ld (mem s) p j) ∧
    ∀ j, (i <= j)%nat → ld (mem s') pd j = ld (mem s) pd j))|].
  - split_and!; try done. eapply drained_ext; [|exact D]. intros q pl _. split; [by left|]. intros [?|(k' & _ & ?)]; [done|lia].
  - intros i s1 Hi (D1 & M1 & M2). apply wp_bind, wp_load; [lia|]. rewrite M2, Hm by lia. pose proof (table_entry own G s0 a t g i pd T Hpd ltac:(lia) (Hb i ltac:(lia))) as He.
    destruct (is_table (ld (mem s0) pd i)) eqn:E.
    + destruct (He eq_refl) as [Hq _]. apply Hk; [lia|]. eapply wp_mono; [apply (release_step _ _ _ _ D1 Hq)|].
      { intros [?|(k' & [= ->] & ?)]; [by eapply Hf|lia]. }
      cbn beta. intros _ s2 [D2 E2]. assert (drained (λ x, f x ∨ child_below t g lo (i + 1) x) s2) as D3.
      { eapply drained_ext; [|exact D2]. intros q pl _. split; [intros [[?|(k' & -> & ?)]| ->]; [by left|right; exists k'; split; [done|lia]|right; exists i; split; [done|lia]]|].
        intros [?|(k' & -> & ?)]; [by left; left|]. destruct (decide (k' = i)) as [->|]; [by right|left; right; exists k'; split; [done|lia]]. }
      intros v. split; (split_and!; [|intros p j Hp|intros j Hj]); cbn; rewrite ?ld_st, ?E2.
      * done.
      * by apply M1.
      * apply M2. lia.
      * apply drained_mem; [|done]. intros p j Hp. rewrite ld_st, decide_False, E2; [done|]. intros [<- _]. by eapply Hp.
      * rewrite decide_False by (intros [<- _]; done). by apply M1.
      * rewrite decide_False by lia. apply M2. lia.
    + apply wp_ret. split_and!; [|done|intros j Hj; apply M2; lia]. eapply drained_ext; [|exact D1]. intros q pl Hq.
      split; (intros [?|(k' & -> & ?)]; [by left|]); [right; exists k'; split; [done|lia]|]. destruct (decide (k' = i)) as [->|]; [|right; exists k'; split; [done|lia]].
      destruct (linked_entry Himg _ _ _ _ T q a (Pt t g i) (Pd t g) i Hq eq_refl) as (pd' & Hpd' & _ & El & _).
      rewrite (t_inj _ _ _ _ T _ _ _ Hpd' Hpd) in El. destruct (not_node_link own G (mem s0) (frames s0) T _ E a (Pt t g i)). by exists q.
  - cbn beta. by intros _ s' (D1 & M1 & _).
Qed.

(** The first GiB. *)
Lemma collect_l3s_spec f s l2 : drained f s → own !! l2 = Some (a, Pd 0 0) → (∀ i, ¬ f (Pt 0 0 i)) → (∀ i, ld (mem s) l2 i = ld (mem s0) l2 i) →
  wp (vspace_collect_l3s free l2) s (λ _ s', drained (λ x, f x ∨ child_below 0 0 0 512 x) s' ∧ ∀ p i, p ≠ l2 → ld (mem s') p i = ld (mem s) p i).
Proof.
  intros D Hl2 Hf Hm. eapply wp_mono; [apply (collect_loop f s 0 0 l2 FINE_BLOCKS (512 - FINE_BLOCKS) (λ i e, release free (addr e) ≫= λ _, store l2 i 0)); try done|].
  - intros i Hi. by apply own_block.
  - intros i e s1 Q Hi Hw. apply wp_bind. eapply wp_mono; [exact Hw|]. cbn beta. intros [] s2 HQ. apply wp_store; [done|]. apply HQ.
  - cbn beta. intros _ s' [D' M']. split; [|done]. eapply drained_ext; [|exact D']. intros q pl Hq. split; intros [?|(k & -> & Hk)]; [by left|right; exists k; split; [done|unfold FINE_BLOCKS in Hk; lia]|by left|].
    right. exists k. split; [done|]. destruct (linked_entry Himg _ _ _ _ T q a (Pt 0 0 k) (Pd 0 0) k Hq eq_refl) as (pd & Hpd & _ & E & Hn).
    destruct (decide (FINE_BLOCKS <= k)%nat) as [|Hlt]; [unfold FINE_BLOCKS in *; lia|]. exfalso. specialize (Hn own G Hq). cbn [node_ok] in Hn.
    replace (image_block 0 0 k) with true in Hn by (symmetry; apply Nat.ltb_lt; lia). rewrite Hn in E. destruct (t_frames _ _ _ _ T q _ Hq) as (Hpq & Hst & _).
    apply table_desc_inj in E; [|apply pt_page; [done|lia]|done]. rewrite <-E, image_static in Hst; [done|done|lia].
Qed.
(** A directory that is all the space's own. *)
Definition dir_below (t g : nat) (pl : place) : Prop := pl = Pd t g ∨ ∃ k, pl = Pt t g k.
Lemma release_pd_spec f s t g pd : drained f s → own !! pd = Some (a, Pd t g) → (∀ i, image_block t g i = false) → (∀ x, dir_below t g x → ¬ f x) →
  (∀ i, ld (mem s) pd i = ld (mem s0) pd i) →
  wp (release_pd free pd) s (λ _ s', drained (λ x, f x ∨ dir_below t g x) s' ∧ ∀ p i, p ≠ pd → ld (mem s') p i = ld (mem s) p i).
Proof.
  intros D Hpd Hb Hf Hm. unfold release_pd. apply wp_bind.
  eapply wp_mono; [apply (collect_loop f s t g pd 0 512 (λ _ e, release free (addr e))); try done; [intros i; apply Hf; right; by exists i|]|].
  - intros i e s1 Q Hi Hw. eapply wp_mono; [exact Hw|]. cbn beta. intros [] s2 HQ. apply (HQ 0).
  - cbn beta. intros _ s1 [D1 M1]. eapply wp_mono; [apply (release_step _ _ _ _ D1 Hpd)|].
    + intros [H1|(k & ? & _)]; [|done]. eapply Hf; [|exact H1]. by left.
    + cbn beta. intros _ s2 [D2 E2]. split; [|intros p i Hp; rewrite E2; by apply M1]. eapply drained_ext; [|exact D2]. intros q pl Hq. split.
      * intros [[?|(k & -> & _)]| ->]; [by left|right; right; by exists k|right; by left].
      * intros [?|[->|(k & ->)]]; [by left; left|by right|]. left. right. exists k. split; [done|].
        destruct (linked_entry Himg _ _ _ _ T q a (Pt t g k) (Pd t g) k Hq eq_refl) as (? & _ & ? & _). lia.
Qed.

(** The directories of the other GiBs, and the table above them. *)
Definition gibs_below (lo g : nat) (pl : place) : Prop := ∃ g', dir_below 0 g' pl ∧ (lo <= g' < g)%nat.
Lemma collect_gibs f s p : drained f s → own !! p = Some (a, Pdpt 0) → (∀ x, gibs_below 1 512 x → ¬ f x) →
  (∀ q pl i, own !! q = Some (a, pl) → pl = Pdpt 0 ∨ gibs_below 1 512 pl → ld (mem s) q i = ld (mem s0) q i) →
  wp (for_ (seq 1 (MAPPED_GIB - 1)) (λ g, e ← load p g;
      if negb (has e P) || has e PS then mret tt
      else if is_shared_high_pd g (addr e) then mret tt
      else release_pd free (addr e) ≫= λ _, store p g 0)) s
    (λ _ s', drained (λ x, f x ∨ gibs_below 1 512 x) s' ∧
      ∀ q pl i, own !! q = Some (a, pl) → pl = Pml4 ∨ (∃ t, pl = Pdpt (S t)) ∨ (∃ t g, pl = Pd (S t) g) → ld (mem s') q i = ld (mem s) q i).
Proof.
  intros D Hp Hf Hm.
  eapply wp_mono; [apply (wp_range (λ g s', drained (λ x, f x ∨ gibs_below 1 g x) s' ∧
    (∀ q pl i, own !! q = Some (a, pl) → pl = Pml4 ∨ (∃ t, pl = Pdpt (S t)) ∨ (∃ t g, pl = Pd (S t) g) → ld (mem s') q i = ld (mem s) q i) ∧
    (∀ j, (g <= j)%nat → ld (mem s') p j = ld (mem s0) p j) ∧
    ∀ q g' i, (g <= g' < 512)%nat → own !! q = Some (a, Pd 0 g') → ld (mem s') q i = ld (mem s0) q i))|].
  - split_and!; [|done| |].
    + eapply drained_ext; [|exact D]. intros q pl _. split; [by left|]. intros [?|(g' & _ & ?)]; [done|lia].
    + intros j _. eapply Hm; [exact Hp|by left].
    + intros q g' i Hg Hq. eapply Hm; [exact Hq|right]. exists g'. split; [by left|done].
  - intros g s1 Hg (D1 & M1 & M2 & M3). change (1 + (MAPPED_GIB - 1))%nat with 512%nat in Hg. apply wp_bind, wp_load; [lia|]. rewrite M2 by lia.
    set (e := ld (mem s0) p g). pose proof (t_nodes _ _ _ _ T p a _ g Hp ltac:(lia)) as Hn. destruct g as [|g]; [lia|]. cbn [node_ok] in Hn. fold e in Hn.
    assert ((negb (has e P) || has e PS) = negb (is_table e)) as -> by (unfold is_table; by destruct (has e P), (has e PS)).
    assert ((is_table e && negb (is_shared_high_pd (S g) (addr e)) = false ∧ ∀ q x, own !! q = Some (a, x) → ¬ dir_below 0 (S g) x) ∨
      ∃ q, own !! q = Some (a, Pd 0 (S g)) ∧ addr e = q ∧ is_table e = true ∧ is_shared_high_pd (S g) q = false) as Hcase.
    { destruct Hn as [[Hfo _]|Hl].
      - left. assert (is_table e && negb (is_shared_high_pd (S g) (addr e)) = false) as E.
        { destruct (is_table e) eqn:He; [|done]. by destruct (shared_high g own G (mem s0) _ a e T Hfo He) as [-> _]. }
        split; [done|]. assert (∀ r, own !! r ≠ Some (a, Pd 0 (S g))) as Hno.
        { eapply no_child; [exact T|exact Hp|done|]. intros r Hr Hsr Ee. fold e in Ee. destruct (table_desc_spec r Hr) as (E1 & _ & _ & _ & E2 & E3).
          rewrite Ee in E. unfold is_table, is_shared_high_pd in E. cbn in E. rewrite E1, E2, E3, Hsr in E. done. }
        intros q x Hq [->|(k & ->)]; [by eapply Hno|]. destruct (linked_entry Himg _ _ _ _ T q a (Pt 0 (S g) k) (Pd 0 (S g)) k Hq eq_refl) as (pd & Hpd & _). by eapply Hno.
      - right. apply (link_page _ _ _ _ _ _ _ T) in Hl as (q & E & Hq & Hpq). exists q. rewrite E. destruct (table_desc_spec q Hpq) as (E1 & _ & _ & _ & E2 & E3).
        unfold is_table. rewrite E1, E2, E3. split_and!; try done. unfold is_shared_high_pd. cbn. by destruct (t_frames _ _ _ _ T q _ Hq) as (_ & ? & _). }
    assert (∀ x, f x ∨ gibs_below 1 (S g + 1) x ↔ (f x ∨ gibs_below 1 (S g) x) ∨ dir_below 0 (S g) x) as Hstep.
    { intros x. split.
      - intros [?|(g' & H1 & ?)]; [by left; left|]. destruct (decide (g' = S g)) as [->|]; [by right|left; right; exists g'; split; [done|lia]].
      - intros [[?|(g' & H1 & ?)]|H1]; [by left|right; exists g'; split; [done|lia]|right; exists (S g); split; [done|lia]]. }
    destruct Hcase as [[E Hno]|(q & Hq & Ea & Et & Es)].
    + assert (wp (if negb (is_table e) then mret tt else if is_shared_high_pd (S g) (addr e) then mret tt else release_pd free (addr e) ≫= λ _, store p (S g) 0) s1 (λ _ s', s' = s1)) as Hw.
      { destruct (is_table e); [|by apply wp_ret]. cbn in *. apply negb_false_iff in E. rewrite E. by apply wp_ret. }
      eapply wp_mono; [exact Hw|]. cbn beta. intros _ s' ->. split_and!; [|done|intros; apply M2; lia|intros q g' i Hg' Hq; apply (M3 q g' i); [lia|done]].
      eapply drained_ext; [|exact D1]. intros q pl Hq. rewrite Hstep. split; [by left|]. intros [?|H1]; [done|by destruct (Hno q pl Hq)].
    + rewrite Et, Ea, Es. cbn [negb]. apply wp_bind. eapply wp_mono; [apply (release_pd_spec _ s1 0 (S g) q D1 Hq)|].
      * done.
      * intros x Hx [H1|(g' & H1 & ?)].
        -- apply (Hf x); [|done]. exists (S g). split; [done|lia].
        -- destruct Hx as [->|(k & ->)], H1 as [H1|(k' & H1)]; try discriminate H1; injection H1 as; lia.
      * intros i. apply (M3 q (S g) i); [lia|done].
      * cbn beta. intros _ s2 [D2 N2]. assert (p ≠ q) as Hpq by (intros ->; congruence). apply wp_store; [lia|]. split_and!.
        -- apply drained_mem; [|eapply drained_ext; [|exact D2]; intros r pl _; symmetry; apply Hstep]. intros r i Hr. rewrite ld_st, decide_False; [done|]. intros [<- _]. by eapply Hr.
        -- intros r pl i Hr Hpl. cbn. assert (r ≠ p) as H1 by (intros ->; rewrite Hp in Hr; injection Hr as <-; destruct Hpl as [?|[[? ?]|(? & ? & ?)]]; done).
           rewrite ld_st, decide_False by (by intros [<- _]). rewrite N2; [by eapply M1|]. intros ->. rewrite Hq in Hr. injection Hr as <-. destruct Hpl as [?|[[? ?]|(? & ? & ?)]]; done.
        -- intros j Hj. cbn. rewrite ld_st, decide_False by lia. rewrite N2 by done. apply M2. lia.
        -- intros r g' i Hg' Hr. cbn. rewrite ld_st, decide_False by (intros [<- _]; congruence). rewrite N2; [apply (M3 r g' i); [lia|done]|].
           intros ->. rewrite Hq in Hr. injection Hr as ?. lia.
  - cbn beta. intros _ s' (D1 & M1 & _). done.
Qed.

Definition device_places (pl : place) : Prop := pl = Pdpt 0 ∨ gibs_below 1 512 pl.
Lemma drained_store f s p i v pl : drained f s → own !! p = Some (a, pl) → drained f (with_mem (st p i v (mem s)) s).
Proof. intros D Hp. apply drained_mem; [|done]. intros r j Hr. rewrite ld_st, decide_False; [done|]. intros [<- _]. by eapply Hr. Qed.
Lemma collect_device_spec f s l1 : drained f s → own !! l1 = Some (a, Pml4) → (∀ x, device_places x → ¬ f x) →
  (∀ q pl i, own !! q = Some (a, pl) → pl = Pml4 ∨ device_places pl → ld (mem s) q i = ld (mem s0) q i) →
  wp (vspace_collect_device_tables free l1) s (λ _ s', drained (λ x, f x ∨ device_places x) s' ∧
    ∀ q pl i, own !! q = Some (a, pl) → (q, i) ≠ (l1, 0%nat) → pl = Pml4 ∨ (∃ t, pl = Pdpt (S t)) ∨ (∃ t g, pl = Pd (S t) g) → ld (mem s') q i = ld (mem s) q i).
Proof.
  intros D Hl1 Hf Hm. unfold vspace_collect_device_tables. apply wp_bind, wp_load; [lia|]. rewrite (Hm l1 Pml4) by auto.
  pose proof (t_nodes _ _ _ _ T l1 a _ 0%nat Hl1 ltac:(lia)) as Hn. cbn [node_ok] in Hn. apply (link_page _ _ _ _ _ _ _ T) in Hn as (p & E & Hp & Hpp).
  rewrite E. destruct (table_desc_spec p Hpp) as (-> & _ & _ & _ & _ & ->). cbn [negb]. apply wp_bind.
  eapply wp_mono; [apply (collect_gibs f s p D Hp)|].
  - intros x Hx. apply Hf. by right.
  - intros q pl i Hq Hpl. eapply Hm; [exact Hq|by right].
  - cbn beta. intros _ s1 [D1 M1]. apply wp_bind. eapply wp_mono; [apply (release_step _ _ _ _ D1 Hp)|].
    + intros [H1|(g & [?|(k & ?)] & _)]; [|done|done]. eapply Hf; [|exact H1]. by left.
    + cbn beta. intros _ s2 [D2 E2]. apply wp_store; [lia|]. split.
      * eapply drained_store; [|exact Hl1]. eapply drained_ext; [|exact D2]. intros q pl _. unfold device_places. tauto.
      * intros q pl i Hq Hne Hpl. cbn. rewrite ld_st, decide_False by (intros [<- <-]; done). rewrite E2. by eapply M1.
Qed.
Definition window_places (pl : place) : Prop := pl = Pdpt 1 ∨ dir_below 1 0 pl.
Lemma collect_window_spec f s l1 : drained f s → own !! l1 = Some (a, Pml4) → (∀ x, window_places x → ¬ f x) →
  (∀ q pl i, own !! q = Some (a, pl) → (q, i) ≠ (l1, 0%nat) → pl = Pml4 ∨ pl = Pdpt 1 ∨ pl = Pd 1 0 → ld (mem s) q i = ld (mem s0) q i) →
  wp (vspace_collect_user_window free l1) s (λ _ s', drained (λ x, f x ∨ window_places x) s').
Proof.
  intros D Hl1 Hf Hm. unfold vspace_collect_user_window. apply wp_bind, wp_load; [lia|]. rewrite (Hm l1 Pml4) by (done || auto).
  pose proof (t_nodes _ _ _ _ T l1 a _ 1%nat Hl1 ltac:(lia)) as Hn. cbn [node_ok] in Hn.
  assert (∀ pd, own !! pd = Some (a, Pd 1 0) → ∃ p, own !! p = Some (a, Pdpt 1) ∧ ld (mem s0) p 0 = table_desc pd) as Hpd1.
  { intros pd Hpd. destruct (linked_entry Himg _ _ _ _ T pd a (Pd 1 0) (Pdpt 1) 0 Hpd eq_refl) as (p & Hp & _ & E & _). by exists p. }
  assert (∀ q k, own !! q = Some (a, Pt 1 0 k) → ∃ pd, own !! pd = Some (a, Pd 1 0)) as Hpt1.
  { intros q k Hq. destruct (linked_entry Himg _ _ _ _ T q a (Pt 1 0 k) (Pd 1 0) k Hq eq_refl) as (pd & ? & _). by exists pd. }
  destruct Hn as [[E _]|Hl].
  - rewrite E. cbn. apply wp_ret. eapply drained_ext; [|exact D]. intros q pl Hq. split; [by left|]. intros [?|Hw]; [done|]. exfalso.
    assert (∀ p, own !! p ≠ Some (a, Pdpt 1)) as Hno.
    { eapply no_child; [exact T|exact Hl1|done|]. intros r Hr _. rewrite E. intros E'. by apply (table_desc_0 r Hr). }
    destruct Hw as [->|[->|(k & ->)]]; [by eapply Hno|by destruct (Hpd1 q Hq) as (p & Hp & _); eapply Hno|].
    destruct (Hpt1 q k Hq) as (pd & Hpd). destruct (Hpd1 pd Hpd) as (p & Hp & _). by eapply Hno.
  - apply (link_page _ _ _ _ _ _ _ T) in Hl as (p & E & Hp & Hpp). rewrite E. destruct (table_desc_spec p Hpp) as (-> & _ & _ & _ & _ & ->). cbn [negb].
    assert ((p, 0%nat) ≠ (l1, 0%nat)) as Hne by (intros [= ->]; congruence).
    apply wp_bind, wp_load; [lia|]. rewrite (Hm p (Pdpt 1)) by (done || auto). pose proof (t_nodes _ _ _ _ T p a _ 0%nat Hp ltac:(lia)) as Hn. cbn [node_ok] in Hn.
    apply wp_bind. apply (wp_mono _ _ (λ _ s1, drained (λ x, f x ∨ dir_below 1 0 x) s1)).
    + destruct Hn as [[E3 _]|(_ & _ & Hl)].
      * rewrite E3. cbn. apply wp_ret. eapply drained_ext; [|exact D]. intros q pl Hq. split; [by left|]. intros [?|Hw]; [done|]. exfalso.
        assert (∀ pd, own !! pd ≠ Some (a, Pd 1 0)) as Hno.
        { eapply no_child; [exact T|exact Hp|done|]. intros r Hr _. rewrite E3. intros E'. by apply (table_desc_0 r Hr). }
        destruct Hw as [->|(k & ->)]; [by eapply Hno|]. destruct (Hpt1 q k Hq) as (pd & Hpd). by eapply Hno.
      * apply (link_page _ _ _ _ _ _ _ T) in Hl as (pd & E3 & Hpd & Hppd). rewrite E3. destruct (table_desc_spec pd Hppd) as (-> & _ & _ & _ & _ & ->).
        eapply wp_mono; [apply (release_pd_spec f s 1 0 pd D Hpd)|by intros _ s1 [? _]].
        -- done.
        -- intros x Hx. apply Hf. by right.
        -- intros i. eapply Hm; [exact Hpd|intros [= -> _]; congruence|auto].
    + cbn beta. intros _ s1 D1. apply wp_bind. eapply wp_mono; [apply (release_step _ _ _ _ D1 Hp)|].
      * intros [H1|[?|(k & ?)]]; [|done|done]. eapply Hf; [|exact H1]. by left.
      * cbn beta. intros _ s2 [D2 E2]. apply wp_store; [lia|]. eapply drained_store; [|exact Hl1]. eapply drained_ext; [|exact D2]. intros q pl _. unfold window_places. tauto.
Qed.
(** Where the tables of a space can be. *)
Lemma places q pl : own !! q = Some (a, pl) → pl = Pml4 ∨ pl = Pd 0 0 ∨ child_below 0 0 0 512 pl ∨ device_places pl ∨ window_places pl.
Proof.
  assert (∀ q t, own !! q = Some (a, Pdpt t) → t = 0%nat ∨ t = 1%nat) as H3.
  { intros r t Hr. destruct (linked_entry Himg _ _ _ _ T r a (Pdpt t) Pml4 t Hr eq_refl) as (p & _ & _ & E & Hn). specialize (Hn own G Hr). rewrite E in Hn.
    destruct (t_frames _ _ _ _ T r _ Hr) as (Hpr & _). destruct t as [|[|t]]; [auto..|]. destruct Hn as [Hn _]. by apply table_desc_0 in Hn. }
  assert (∀ q t g, own !! q = Some (a, Pd t g) → (t = 0%nat ∧ (g < 512)%nat) ∨ (t = 1%nat ∧ g = 0%nat)) as H2.
  { intros r t g Hr. destruct (linked_entry Himg _ _ _ _ T r a (Pd t g) (Pdpt t) g Hr eq_refl) as (p & Hp & Hg & E & Hn). specialize (Hn own G Hr). rewrite E in Hn.
    destruct (t_frames _ _ _ _ T r _ Hr) as (Hpr & _). destruct (H3 p t Hp) as [->| ->]; [by left|]. cbn in Hn. destruct Hn as [[Hn _]|(_ & ? & _)]; [by apply table_desc_0 in Hn|by right]. }
  assert (∀ t g, (t = 0%nat ∧ (g < 512)%nat) ∨ (t = 1%nat ∧ g = 0%nat) → ∀ x, dir_below t g x → x = Pd 0 0 ∨ (∃ k, x = Pt 0 0 k) ∨ device_places x ∨ window_places x) as Hd.
  { intros t g [[-> Hg]|[-> ->]] x Hx; [|do 3 right; by right]. destruct g as [|g]; [destruct Hx as [->|(k & ->)]; eauto|]. do 2 right. left. right. exists (S g). split; [done|lia]. }
  intros Hq. destruct pl as [|t|t g|t g k]; [auto| | |].
  - destruct (H3 q t Hq) as [->| ->]; [do 3 right; left; by left|do 4 right; by left].
  - destruct (Hd t g (H2 q t g Hq) (Pd t g) (or_introl eq_refl)) as [?|[(? & ?)|[?|?]]]; [auto|done|auto..].
  - destruct (linked_entry Himg _ _ _ _ T q a (Pt t g k) (Pd t g) k Hq eq_refl) as (pd & Hpd & Hk & _).
    destruct (Hd t g (H2 pd t g Hpd) (Pt t g k) (or_intror (ex_intro _ k eq_refl))) as [?|[(k' & E)|[?|?]]]; [done| |auto..].
    injection E as -> -> ->. do 2 right. left. exists k'. split; [done|lia].
Qed.
End teardown.
End ops.

(** ** Bring-up

    What the boot processor does before the others run: the map of the kernel, the windows of devices
    and the memory above the fixed part.  The static tables begin as zeros. *)
Section bringup.
Context `{Image} (Himg : image_ok) {A : Type}.
Notation W := (Vm A).

Definition blank (s : W) : Prop :=
  (∀ p i, p ∈ statics → ld (mem s) p i = 0) ∧ high_gib s = replicate HIGH_DEV_SLOTS None ∧ guard_of s = replicate GUARD_BLOCKS None.
Inductive brought_up : W → Prop :=
  | up_primary s s' : blank s → init_primary s = Some (tt, s') → brought_up s'
  | up_window s pa n b s' : brought_up s → 0 <= pa → 0 <= n → map_device_window_global pa n s = Some (b, s') → brought_up s'
  | up_memory s gib_pages base n o s' : brought_up s → 0 <= base → 0 <= n → adopt_high_ram gib_pages base n s = Some (o, s') → brought_up s'.

Lemma static_at g b k h :
  statics !! 1%nat = Some PDPT ∧ ((g < LOW_GIB)%nat → statics !! (2 + g)%nat = Some (PD g)) ∧ ((b < FINE_BLOCKS)%nat → statics !! (6 + b)%nat = Some (PT b)) ∧
  ((k < LOW_GIB - 1)%nat → statics !! (14 + k)%nat = Some (ISO_PD_HIGH k)) ∧ ((h < HIGH_DEV_SLOTS)%nat → statics !! (17 + h)%nat = Some (HIGH_DEV_PD h)).
Proof.
  split; [done|]. unfold LOW_GIB, FINE_BLOCKS, HIGH_DEV_SLOTS. split; [|split; [|split]]; intros Hlt.
  - do 4 (destruct g as [|g]; [reflexivity|]). lia.
  - do 8 (destruct b as [|b]; [reflexivity|]). lia.
  - do 3 (destruct k as [|k]; [reflexivity|]). lia.
  - do 4 (destruct h as [|h]; [reflexivity|]). lia.
Qed.
Lemma static_apart i j p q : statics !! i = Some p → statics !! j = Some q → i ≠ j → p ≠ q.
Proof. intros Hi Hj Hne ->. apply Hne. destruct Himg as [_ Hnd]. by eapply NoDup_lookup. Qed.

(** The tables that have to do with the memory above the fixed part are as they were. *)
Definition quiet (s0 s : W) : Prop := high_gib s = high_gib s0 ∧
  (∀ k i, (k < HIGH_DEV_SLOTS)%nat → ld (mem s) (HIGH_DEV_PD k) i = ld (mem s0) (HIGH_DEV_PD k) i) ∧
  ∀ g, (LOW_GIB <= g)%nat → ld (mem s) PDPT g = ld (mem s0) PDPT g.
Lemma quiet_mem s0 s m n p : quiet s0 s → statics !! n = Some p → (n < 17)%nat → (∀ q i, q ≠ p → ld m q i = ld (mem s) q i) →
  (∀ g, p = PDPT → (LOW_GIB <= g)%nat → ld m PDPT g = ld (mem s) PDPT g) → quiet s0 (with_mem m s).
Proof.
  intros (Q1 & Q2 & Q3) Hn Hlt Ho Hp. split; [done|]. destruct (static_at 0 0 0 0) as (H1 & _). split.
  - intros k i Hk. rewrite <-Q2 by done. apply Ho. destruct (static_at 0 0 0 k) as (_ & _ & _ & _ & H2). eapply static_apart; [by apply H2|done|lia].
  - intros g Hg. rewrite <-Q3 by done. destruct (decide (p = PDPT)) as [E|Hne]; [by apply Hp|]. by apply Ho.
Qed.
Lemma quiet_store s0 s n p i v : quiet s0 s → statics !! n = Some p → (n < 17)%nat → (n = 1 → i < LOW_GIB)%nat → (i < 512)%nat → wp (store p i v) s (λ _ s', quiet s0 s').
Proof.
  intros Q Hn Hlt Hi Hi'. apply wp_store; [done|]. eapply quiet_mem; [done|done|done|..].
  - intros q j Hq. rewrite ld_st, decide_False; [done|]. by intros [-> _].
  - intros g E Hg. rewrite ld_st, decide_False; [done|]. intros [_ ->]. assert (n = 1)%nat; [|unfold LOW_GIB in *; lia].
    destruct (decide (n = 1%nat)) as [|Hne]; [done|]. destruct (static_at 0 0 0 0) as (H1 & _). by destruct (static_apart _ _ _ _ Hn H1 Hne).
Qed.
Lemma quiet_fill s0 s n p f : quiet s0 s → statics !! n = Some p → (1 < n < 17)%nat → wp (fill p f) s (λ _ s', quiet s0 s').
Proof.
  intros Q Hn Hlt. apply wp_modify. eapply quiet_mem; [done|done|lia|..].
  - intros q j Hq. rewrite ld_filled, decide_False; [done|]. by intros [-> _].
  - intros g E. destruct (static_at 0 0 0 0) as (H1 & _). destruct (static_apart _ _ _ _ Hn H1) as []; [lia|done].
Qed.
Lemma block_addr_page g i : (g < 512)%nat → (i < 512)%nat → page (block_addr g i).
Proof.
  intros Hg Hi. unfold block_addr. split; [unfold ONE_GIB, TWO_MIB in *; lia|].
  apply Z.divide_add_r; [exists (Z.of_nat g * 262144)|exists (Z.of_nat i * 512)]; unfold ONE_GIB, TWO_MIB, PAGE; lia.
Qed.
Lemma iso_block_shared p : page p → shared_leaf (iso_block p).
Proof. intros Hp. unfold iso_block, shared_leaf, is_table. destruct (is_device p); split; flags. Qed.
Lemma device_block_shared p : page p → shared_leaf (p ||| P ||| RW ||| NX ||| PS ||| PCD ||| PWT).
Proof. intros Hp. unfold shared_leaf, is_table. split; flags. Qed.
Lemma shared_0 : shared_leaf 0.
Proof. done. Qed.

(** What holds in every state of bring-up. *)
Definition up (s : W) : Prop := statics_ok (mem s) ∧ length (high_gib s) = HIGH_DEV_SLOTS.
Lemma init_primary_spec s : blank s → wp init_primary s (λ _ s', up s').
Proof.
  intros (Hz & Hg & _). pose proof static_at as At. unfold init_primary.
  assert (quiet s s) as Q0 by done.
  apply wp_bind. eapply wp_mono; [apply (quiet_store s s 0 PML4); [done..|lia|done|lia]|]. cbn beta. intros _ s1 Q1.
  apply wp_bind. eapply wp_mono; [apply (wp_range (λ _ s', quiet s s')); [exact Q1|]|].
  { intros g s' [_ Hlt] Q. destruct (At g 0%nat 0%nat 0%nat) as (H1 & _). apply (quiet_store s s' 1); [done|done|lia|unfold LOW_GIB in *; lia|unfold LOW_GIB in *; lia]. }
  cbn beta. intros _ s2 Q2. apply wp_bind. eapply wp_mono; [apply (wp_range (λ _ s', quiet s s')); [exact Q2|]|].
  { intros b s' [_ Hlt] Q. destruct (At 0%nat b 0%nat 0%nat) as (_ & H0 & Hb & _). apply wp_bind. cbn [Nat.add] in Hlt.
    eapply wp_mono; [apply (quiet_fill s s' (6 + b) (PT b)); [done|by apply Hb|unfold FINE_BLOCKS in *; lia]|]. cbn beta. intros _ s'' Q'.
    apply (quiet_store s s'' 2); [done|apply H0; unfold LOW_GIB; lia|lia..|unfold FINE_BLOCKS in *; lia]. }
  cbn beta. intros _ s3 Q3. apply wp_bind. eapply wp_mono; [apply (wp_range (λ _ s', quiet s s')); [exact Q3|]|].
  { intros g s' [_ Hlt] Q. destruct (At g 0%nat 0%nat 0%nat) as (_ & H0 & _). cbn [Nat.add] in Hlt. specialize (H0 Hlt).
    eapply (wp_range (λ _ s', quiet s s')); [exact Q|]. intros i s'' Hi Q'.
    apply (quiet_store s s'' (2 + g)); [done|done|unfold LOW_GIB in *; lia|lia|destruct (g =? 0)%nat; unfold FINE_BLOCKS in *; lia]. }
  cbn beta. intros _ s4 Q4. eapply wp_mono; [apply (wp_range (λ n s', quiet s s' ∧ ∀ k i, (k < n)%nat → (i < 512)%nat → shared_leaf (ld (mem s') (ISO_PD_HIGH k) i))); [split; [exact Q4|lia]|]|].
  { intros k s' [_ Hlt] [Q Hk]. destruct (At 0%nat 0%nat k 0%nat) as (_ & _ & _ & H1 & _). cbn [Nat.add] in Hlt. specialize (H1 Hlt).
    eapply wp_mono; [apply wp_and; [apply (quiet_fill s s' (14 + k)); [done|exact H1|unfold LOW_GIB in *; lia]|apply (wp_modify _ _ (λ _ s'', mem s'' = filled (ISO_PD_HIGH k) (λ i, iso_block (block_addr (S k) i)) (mem s'))); done]|].
    cbn beta. intros _ s'' [Q' Em]. split; [done|]. intros k' i Hk' Hi. rewrite Em, ld_filled. case_decide as Hd.
    - apply iso_block_shared, block_addr_page; [unfold LOW_GIB in *; lia|done].
    - apply Hk; [|done]. destruct (decide (k' = k)) as [->|]; [by destruct Hd|lia]. }
  cbn beta. intros _ s5 [(Q5 & Qh & Qp) Hiso]. split; [split|by rewrite Q5, Hg].
  - done.
  - intros k i Hk Hi. rewrite Qh, Hz by (done || (eapply list_elem_of_lookup_2; by apply (At 0%nat 0%nat 0%nat k))). apply shared_0.
  - intros g [Hg1 _]. rewrite Qp, Hz by (done || (eapply list_elem_of_lookup_2; by apply (At 0%nat 0%nat 0%nat 0%nat))). done.
Qed.

Lemma up_store_high s k i e : up s → (k < HIGH_DEV_SLOTS)%nat → (i < 512)%nat → shared_leaf e → up (with_mem (st (HIGH_DEV_PD k) i e (mem s)) s).
Proof.
  intros [[H1 H2 H3] Hl] Hk Hi He. split; [|done]. destruct (static_at 0 0 0 k) as (Hp & _ & _ & _ & Hh). specialize (Hh Hk). split.
  - intros k' i' Hk' Hi'. cbn. rewrite ld_st, decide_False; [by apply H1|]. intros [E _]. destruct (static_at 0 0 k' 0) as (_ & _ & _ & Hi2 & _).
    specialize (Hi2 Hk'). unfold LOW_GIB in Hk'. eapply (static_apart _ _ _ _ Hh Hi2); [lia|exact E].
  - intros k' i' Hk' Hi'. cbn. rewrite ld_st. case_decide; [done|by apply H2].
  - intros g Hg. cbn. rewrite ld_st, decide_False; [by apply H3|]. intros [E _]. eapply (static_apart _ _ _ _ Hh Hp); [lia|exact E].
Qed.
Lemma up_fill_high s k : up s → (k < HIGH_DEV_SLOTS)%nat → up (with_mem (filled (HIGH_DEV_PD k) (λ _, 0) (mem s)) s).
Proof.
  intros [[H1 H2 H3] Hl] Hk. split; [|done]. destruct (static_at 0 0 0 k) as (Hp & _ & _ & _ & Hh). specialize (Hh Hk). split.
  - intros k' i' Hk' Hi'. cbn. rewrite ld_filled, decide_False; [by apply H1|]. intros [E _]. destruct (static_at 0 0 k' 0) as (_ & _ & _ & Hi2 & _).
    specialize (Hi2 Hk'). unfold LOW_GIB in Hk'. eapply (static_apart _ _ _ _ Hh Hi2); [lia|exact E].
  - intros k' i' Hk' Hi'. cbn. rewrite ld_filled. case_decide; [apply shared_0|by apply H2].
  - intros g Hg. cbn. rewrite ld_filled, decide_False; [by apply H3|]. intros [E _]. eapply (static_apart _ _ _ _ Hh Hp); [lia|exact E].
Qed.
Lemma up_store_pdpt s g e : up s → (is_table e = true → ∃ k, (k < HIGH_DEV_SLOTS)%nat ∧ addr e = HIGH_DEV_PD k) → up (with_mem (st PDPT g e (mem s)) s).
Proof.
  intros [[H1 H2 H3] Hl] He. split; [|done]. destruct (static_at 0 0 0 0) as (Hp & _). split.
  - intros k i Hk Hi. cbn. rewrite ld_st, decide_False; [by apply H1|]. intros [E _]. destruct (static_at 0 0 k 0) as (_ & _ & _ & Hi2 & _).
    specialize (Hi2 Hk). eapply (static_apart _ _ _ _ Hp Hi2); [lia|exact E].
  - intros k i Hk Hi. cbn. rewrite ld_st, decide_False; [by apply H2|]. intros [E _]. destruct (static_at 0 0 0 k) as (_ & _ & _ & _ & Hh).
    specialize (Hh Hk). eapply (static_apart _ _ _ _ Hp Hh); [lia|exact E].
  - intros g' Hg. cbn. rewrite ld_st. case_decide; [done|by apply H3].
Qed.
Lemma high_dev_pd_spec s g : up s → (g < 512)%nat → wp (high_dev_pd g) s (λ o s', up s' ∧ ∀ p, o = Some p → ∃ k, (k < HIGH_DEV_SLOTS)%nat ∧ p = HIGH_DEV_PD k).
Proof.
  intros U Hg. unfold high_dev_pd. apply wp_bind, wp_gets. pose proof U as [_ Hl].
  destruct (position _ (high_gib s)) as [k|] eqn:E.
  { apply wp_ret. split; [done|]. intros p [= <-]. exists k. apply position_Some in E as [(x & Hx & _) _]. apply lookup_lt_Some in Hx. split; [lia|done]. }
  clear E. destruct (position _ (high_gib s)) as [k|] eqn:E; [|by apply wp_ret]. apply position_Some in E as [(x & Hx & _) _]. apply lookup_lt_Some in Hx. rewrite Hl in Hx.
  apply wp_bind, wp_modify, wp_bind, wp_store; [done|]. apply wp_bind, wp_modify, wp_ret. split; [|intros p [= <-]; by exists k].
  apply (up_fill_high s k U) in Hx as U'. apply (up_store_pdpt _ g (table_desc (HIGH_DEV_PD k))) in U'.
  - destruct U' as [U1 _]. split; [exact U1|]. cbn. by rewrite length_insert.
  - intros _. exists k. split; [done|]. by apply (table_desc_spec (HIGH_DEV_PD k)), high_page.
Qed.
Lemma device_window_loop_spec ende n : ∀ blk s, up s → 0 <= blk → (TWO_MIB | blk) → ende <= 2 ^ 39 → wp (device_window_loop n blk ende) s (λ _ s', up s').
Proof.
  induction n as [|n IH]; intros blk s U Hb Hd He; cbn [device_window_loop]; [by apply wp_ret|].
  destruct (Z.ltb_spec blk ende) as [Hlt|]; [|by apply wp_ret]. assert (TWO_MIB | blk + TWO_MIB) as Hd' by (apply Z.divide_add_r; [done|apply Z.divide_refl]).
  assert (0 <= blk + TWO_MIB) by (unfold TWO_MIB; lia). destruct (LOW_GIB <=? _)%nat; [|by apply IH].
  apply wp_bind. eapply wp_mono; [apply (high_dev_pd_spec s (Z.to_nat (blk / ONE_GIB)) U)|].
  { assert (blk / ONE_GIB < 512) by (apply Z.div_lt_upper_bound; unfold ONE_GIB; lia). pose proof (Z.div_pos blk ONE_GIB ltac:(lia) ltac:(done)). lia. }
  cbn beta. intros [p|] s1 [U1 Hp]; [|by apply wp_ret]. destruct (Hp p eq_refl) as (k & Hk & ->).
  assert (Z.to_nat (blk mod ONE_GIB / TWO_MIB) < 512)%nat as Hi.
  { pose proof (Z.mod_pos_bound blk ONE_GIB ltac:(done)). assert (blk mod ONE_GIB / TWO_MIB < 512) by (apply Z.div_lt_upper_bound; unfold TWO_MIB, ONE_GIB in *; lia).
    pose proof (Z.div_pos (blk mod ONE_GIB) TWO_MIB ltac:(lia) ltac:(done)). lia. }
  apply wp_bind, wp_store; [done|]. apply IH; try done. apply up_store_high; [done..|]. apply device_block_shared.
  destruct Hd as [c ->]. split; [lia|]. exists (c * 512). unfold TWO_MIB, PAGE. lia.
Qed.
Lemma map_device_window_global_spec s pa n : up s → 0 <= pa → wp (map_device_window_global pa n) s (λ _ s', up s').
Proof.
  intros U Hp. unfold map_device_window_global. destruct (n =? 0); [by apply wp_ret|]. destruct (checked_add 64 pa n) as [ende|]; [|by apply wp_ret].
  destruct (Z.ltb_spec (Z.of_nat MAPPED_GIB * ONE_GIB) ende) as [|He]; [by apply wp_ret|].
  assert (Z.ldiff pa (TWO_MIB - 1) = pa / TWO_MIB * TWO_MIB) as ->.
  { change (TWO_MIB - 1) with (Z.ones 21). rewrite Z.ldiff_ones_r, Z.shiftr_div_pow2, Z.shiftl_mul_pow2 by done. done. }
  apply device_window_loop_spec; [done| |by exists (pa / TWO_MIB)|done]. pose proof (Z.div_pos pa TWO_MIB Hp ltac:(done)). unfold TWO_MIB in *. lia.
Qed.
Lemma adopt_loop_spec n : ∀ g s, up s → (g + n <= 512)%nat → wp (adopt_loop n g) s (λ g' s', up s' ∧ (g <= g' <= g + n)%nat).
Proof.
  induction n as [|n IH]; intros g s U Hg; cbn [adopt_loop]; [apply wp_ret; split; [done|lia]|].
  apply wp_bind, wp_load; [lia|]. destruct (has _ P); [apply wp_ret; split; [done|lia]|]. apply wp_bind, wp_store; [lia|].
  assert (page (Z.of_nat g * ONE_GIB)) as Hp by (split; [unfold ONE_GIB; lia|exists (Z.of_nat g * 262144); unfold ONE_GIB, PAGE; lia]).
  eapply wp_mono; [apply IH; [|lia]|cbn beta; intros g' s' [? ?]; split; [done|lia]]. apply up_store_pdpt; [done|].
  intros Ht. exfalso. revert Ht. unfold is_table. assert (has (Z.of_nat g * ONE_GIB ||| P ||| RW ||| NX ||| PS ||| US) PS = true) as -> by flags. by rewrite andb_false_r.
Qed.
Lemma adopt_high_ram_spec s gib_pages base n : up s → wp (adopt_high_ram gib_pages base n) s (λ _ s', up s').
Proof.
  intros U. unfold adopt_high_ram. destruct gib_pages; [|by apply wp_ret]. cbn [negb]. destruct (checked_add 64 base n) as [ende|]; [|by apply wp_ret].
  set (first := Z.max _ _). set (last := Z.min _ _). destruct (Z.leb_spec last first) as [|Hlt]; [by apply wp_ret|].
  apply wp_bind. eapply wp_mono; [apply (adopt_loop_spec _ _ s U)|].
  - unfold first, last, LOW_GIB, MAPPED_GIB in *. lia.
  - cbn beta. intros g' s' [U' _]. destruct (_ =? first); [by apply wp_ret|]. apply wp_bind, wp_modify, wp_ret. exact U'.
Qed.
Lemma wp_result {S B} (m : M S B) s Q r s' : wp m s Q → m s = Some (r, s') → Q r s'.
Proof. intros Hw E. unfold wp in Hw. by rewrite E in Hw. Qed.
(** Whatever bring-up maps, the static tables give the users of isolated spaces nothing. *)
Lemma brought_up_up s : brought_up s → up s.
Proof.
  induction 1 as [s s' Hb Hr|s pa n b s' _ IH Hp Hn Hr|s gp base n o s' _ IH Hp Hn Hr].
  - exact (wp_result _ _ _ _ _ (init_primary_spec s Hb) Hr).
  - exact (wp_result _ _ _ _ _ (map_device_window_global_spec s pa n IH Hp) Hr).
  - exact (wp_result _ _ _ _ _ (adopt_high_ram_spec s gp base n IH) Hr).
Qed.
End bringup.

(** ** Guard pages

    A guard changes the map of the kernel and the tables of the guards, which no isolated space uses. *)
Section guards.
Context `{Image} (Himg : image_ok) {A : Type}.
Notation W := (Vm A).

Definition kernel_map (p : Z) : Prop := (∃ g, (g < LOW_GIB)%nat ∧ p = PD g) ∨ ∃ k, (k < GUARD_BLOCKS)%nat ∧ p = GUARD_PT k.
Definition only_map (m m' : Mem) : Prop := ∀ p i, ¬ kernel_map p → ld m' p i = ld m p i.
Lemma guard_at k : (k < GUARD_BLOCKS)%nat → statics !! (21 + k)%nat = Some (GUARD_PT k).
Proof. unfold GUARD_BLOCKS. intros Hk. do 16 (destruct k as [|k]; [reflexivity|]). lia. Qed.
(** The places of the tables of the map, and of the guards. *)
Lemma kernel_map_at p : kernel_map p → ∃ n, statics !! n = Some p ∧ ((2 <= n < 6)%nat ∨ (21 <= n)%nat).
Proof.
  intros [(g & Hg & ->)|(k & Hk & ->)].
  - destruct (static_at g 0 0 0) as (_ & E & _). exists (2 + g)%nat. split; [by apply E|unfold LOW_GIB in Hg; lia].
  - exists (21 + k)%nat. split; [by apply guard_at|lia].
Qed.
Lemma off_map n p : statics !! n = Some p → (n = 1 ∨ 14 <= n < 21)%nat → ¬ kernel_map p.
Proof. intros Hp Hn Hm. destruct (kernel_map_at p Hm) as (n' & Hp' & Hn'). apply (static_apart Himg _ _ _ _ Hp Hp'); [lia|done]. Qed.
Lemma kernel_map_static p : kernel_map p → is_static_table p = true.
Proof.
  intros [(g & Hg & ->)|(k & Hk & ->)]; unfold is_static_table.
  - assert (in_range (PD g) PD_base LOW_GIB = true) as ->; [|by rewrite ?orb_true_r]. apply static_range; [|done].
    replace PD_base with (PD 0) by (unfold PD; lia). apply (static_page Himg). eapply list_elem_of_lookup_2. apply (static_at 0 0 0 0). unfold LOW_GIB. lia.
  - assert (in_range (GUARD_PT k) GUARD_base GUARD_BLOCKS = true) as ->; [|by rewrite ?orb_true_r]. apply static_range; [|done].
    replace GUARD_base with (GUARD_PT 0) by (unfold GUARD_PT; lia). apply (static_page Himg). eapply list_elem_of_lookup_2. apply guard_at. unfold GUARD_BLOCKS. lia.
Qed.
Lemma only_map_statics m m' : only_map m m' → statics_ok m → statics_ok m'.
Proof.
  intros Hm [H1 H2 H3]. split.
  - intros k i Hk Hi. rewrite Hm; [by apply H1|]. destruct (static_at 0 0 k 0) as (_ & _ & _ & E & _). eapply off_map; [by apply E|unfold LOW_GIB in Hk; lia].
  - intros k i Hk Hi. rewrite Hm; [by apply H2|]. destruct (static_at 0 0 0 k) as (_ & _ & _ & _ & E). eapply off_map; [by apply E|unfold HIGH_DEV_SLOTS in Hk; lia].
  - intros g Hg. rewrite Hm; [by apply H3|]. destruct (static_at 0 0 0 0) as (E & _). eapply off_map; [by apply E|lia].
Qed.
Lemma only_map_tree own G m m' held : only_map m m' → tree_ok own G m held → tree_ok own G m' held.
Proof.
  intros Hm T. assert (∀ p x i, own !! p = Some x → ld m' p i = ld m p i) as Ho.
  { intros p x i Hp. apply Hm. intros Hk%kernel_map_static. destruct (t_frames _ _ _ _ T p x Hp) as (_ & Hs & _). congruence. }
  split; try apply T.
  - intros p b pl i Hp Hi. rewrite (Ho p (b, pl) i Hp). by apply (t_nodes _ _ _ _ T).
  - intros q b pl pl' i Hq Hpar. destruct (t_up _ _ _ _ T q b pl pl' i Hq Hpar) as (Hi & p & Hp & E). split; [done|]. exists p. split; [done|]. by rewrite (Ho p (b, pl') i Hp).
  - eapply only_map_statics; [done|apply T].
Qed.
Lemma only_map_refl m : only_map m m.
Proof. by intros p i _. Qed.
Lemma only_map_st m m' p i v : only_map m m' → kernel_map p → only_map m (st p i v m').
Proof. intros Hm Hp q j Hq. rewrite ld_st, decide_False; [by apply Hm|]. by intros [-> _]. Qed.
Lemma only_map_filled m m' p f : only_map m m' → kernel_map p → only_map m (filled p f m').
Proof. intros Hm Hp q j Hq. rewrite ld_filled, decide_False; [by apply Hm|]. by intros [-> _]. Qed.

(** What a step on the guards leaves behind. *)
Definition guarded (s s' : W) : Prop := only_map (mem s) (mem s') ∧ length (guard_of s') = GUARD_BLOCKS ∧ src s' = src s.
Lemma page_of_block pa : (Z.to_nat (pa mod TWO_MIB / PAGE) < 512)%nat.
Proof.
  pose proof (Z.mod_pos_bound pa TWO_MIB ltac:(done)). assert (pa mod TWO_MIB / PAGE < 512) by (apply Z.div_lt_upper_bound; unfold TWO_MIB, PAGE in *; lia). lia.
Qed.
Lemma guard_block_spec s pa : length (guard_of s) = GUARD_BLOCKS → 0 <= pa →
  wp (guard_block pa) s (λ o s', guarded s s' ∧ ∀ k, o = Some k → (k < GUARD_BLOCKS)%nat).
Proof.
  intros Hl Hpa. assert (guarded s s) as R by (split_and!; [apply only_map_refl|done..]). unfold guard_block.
  destruct (_ || _) eqn:Hc; [by apply wp_ret|]. apply orb_false_iff in Hc as [_ Hc%Z.leb_gt]. apply wp_bind, wp_gets.
  destruct (guard_index _ _) as [k|] eqn:E.
  { apply wp_ret. split; [done|]. intros k' [= <-]. apply position_Some in E as [(x & Hx & _) _]. apply lookup_lt_Some in Hx. by rewrite Hl in Hx. }
  clear E. destruct (position _ _) as [k|] eqn:E; [|by apply wp_ret]. apply position_Some in E as [(x & Hx & _) _]. apply lookup_lt_Some in Hx. rewrite Hl in Hx.
  set (blk := pa / TWO_MIB) in *. assert (0 <= blk < 2048) as Hblk.
  { split; [by apply Z.div_pos|]. apply Z.div_lt_upper_bound; [done|]. unfold LOW_MAPPED_END, LOW_GIB, ONE_GIB, TWO_MIB in *. lia. }
  assert (Z.to_nat (blk mod 512) < 512)%nat as Hi by (pose proof (Z.mod_pos_bound blk 512 ltac:(done)); lia).
  assert (Z.to_nat (blk / 512) < LOW_GIB)%nat as Hg.
  { assert (blk / 512 < 4) by (apply Z.div_lt_upper_bound; lia). pose proof (Z.div_pos blk 512 ltac:(lia) ltac:(done)). unfold LOW_GIB. lia. }
  apply wp_bind, wp_load; [done|]. destruct (_ || _); [by apply wp_ret|].
  apply wp_bind, wp_modify, wp_bind, wp_store; [done|]. apply wp_bind, wp_modify, wp_ret. split; [|by intros k' [= <-]]. split_and!; [|cbn; by rewrite length_insert|done].
  cbn. apply only_map_st; [apply only_map_filled; [apply only_map_refl|right; by exists k]|left; by eexists].
Qed.
Lemma guard_unmap_spec s pa : length (guard_of s) = GUARD_BLOCKS → 0 <= pa → wp (guard_unmap pa) s (λ _ s', guarded s s').
Proof.
  intros Hl Hpa. unfold guard_unmap. destruct (negb _); [apply wp_ret; split_and!; [apply only_map_refl|done..]|].
  apply wp_bind. eapply wp_mono; [by apply guard_block_spec|]. cbn beta. intros [k|] s1 [(Hm & Hl1 & Es) Hk].
  - apply wp_bind, wp_store; [apply page_of_block|]. apply wp_bind, wp_modify, wp_ret. split_and!; [|done..]. cbn. apply only_map_st; [done|]. right. exists k. split; [by apply Hk|done].
  - apply wp_bind, wp_modify, wp_ret. by split_and!.
Qed.
Lemma guard_remap_spec s pa : length (guard_of s) = GUARD_BLOCKS → wp (guard_remap pa) s (λ _ s', guarded s s').
Proof.
  intros Hl. assert (guarded s s) as R by (split_and!; [apply only_map_refl|done..]). unfold guard_remap.
  destruct (negb _); [by apply wp_ret|]. apply wp_bind, wp_gets. destruct (guard_index _ _) as [k|] eqn:E; [|by apply wp_ret].
  apply position_Some in E as [(x & Hx & _) _]. apply lookup_lt_Some in Hx. rewrite Hl in Hx. pose proof (page_of_block pa) as Hi.
  apply wp_bind, wp_load; [destruct (Nat.ltb_spec (Z.to_nat (pa mod TWO_MIB / PAGE) + 1) 512); lia|]. apply wp_bind, wp_store; [done|]. apply wp_bind, wp_modify, wp_ret.
  split_and!; [|done..]. cbn. apply only_map_st; [apply only_map_refl|]. right. by exists k.
Qed.

(** *** Who does not touch the guards *)
Context (alloc : M A (option Z)) (free : Z → M A unit).
Definition same_guards (s s' : W) : Prop := length (guard_of s') = length (guard_of s).
#[global] Instance same_guards_pre : PreOrder same_guards.
Proof. split; [done|]. intros s1 s2 s3 E1 E2. unfold same_guards in *. congruence. Qed.
Lemma keeping_load p i : keeping same_guards (load p i).
Proof. unfold load. destruct (_ <? _)%nat; [keeps|done]. Qed.
Lemma keeping_store p i v : keeping same_guards (store p i v).
Proof. unfold store. destruct (_ <? _)%nat; [keeps; done|done]. Qed.
Lemma keeping_fill p f : keeping same_guards (fill p f).
Proof. unfold fill. keeps. done. Qed.
Lemma keeping_src {B} (m : M A B) : keeping same_guards (zoom src with_src m).
Proof. eapply (keeping_zoom _ (λ _ _, True)); [by intros s a s' _|done]. Qed.
Lemma keeping_for l (f : nat → M W unit) : (∀ i, keeping same_guards (f i)) → keeping same_guards (for_ l f).
Proof. intros Hf. unfold for_. generalize tt. induction l as [|i l IH]; intros u; cbn [fold_m]; keeps; [apply Hf|apply IH]. Qed.
Lemma keeping_page_loop page n : (∀ p, keeping same_guards (page p)) → ∀ va, keeping same_guards (page_loop page n va).
Proof. intros Hp. induction n as [|n IH]; intros va; cbn [page_loop]; keeps; [apply Hp|apply IH]. Qed.
End guards.
Ltac guards :=
  repeat first [progress keeps | lazymatch goal with
    | |- keeping _ (load _ _) => apply keeping_load
    | |- keeping _ (store _ _ _) => apply keeping_store
    | |- keeping _ (fill _ _) => apply keeping_fill
    | |- keeping _ (zoom src _ _) => apply keeping_src
    | |- keeping _ (for_ _ _) => apply keeping_for; intros ?
    | |- keeping _ (page_loop _ _ _) => apply keeping_page_loop; intros ?
    | |- same_guards _ _ => done
    end].

Section unguarded.
Context `{Image} (Himg : image_ok) {A : Type} (alloc : M A (option Z)) (free : Z → M A unit).
Notation W := (Vm A).
Notation keeps_guards := (keeping (same_guards (A := A))).

Lemma create_base_guards l1 l2 : keeps_guards (vspace_create_base alloc l1 l2).
Proof. unfold vspace_create_base, allocate. guards. Qed.
Lemma set_block_guards f l2 p : keeps_guards (set_block f l2 p).
Proof. unfold set_block. guards. Qed.
Lemma map_page_guards l2 p perm : keeps_guards (vspace_map_page alloc l2 p perm).
Proof. unfold vspace_map_page, vspace_map_page_at, pt_for, allocate. guards. Qed.
Lemma unmap_page_guards l2 p : keeps_guards (vspace_unmap_page l2 p).
Proof. unfold vspace_unmap_page. guards. Qed.
Lemma map_dma_guards l2 p n coherent : keeps_guards (vspace_map_dma alloc l2 p n coherent).
Proof. unfold vspace_map_dma, map_dma_page. guards. apply map_page_guards. Qed.
Lemma map_device_guards l1 p n ro : keeps_guards (vspace_map_device alloc l1 p n ro).
Proof. unfold vspace_map_device, map_device_page, private_pd, device_pt, allocate. guards. Qed.
Lemma map_window_guards l1 slot p n perm : keeps_guards (vspace_map_user_window alloc l1 slot p n perm).
Proof. unfold vspace_map_user_window, table_or_new, allocate. guards. Qed.
Lemma collect_l3s_guards l2 : keeps_guards (vspace_collect_l3s free l2).
Proof. unfold vspace_collect_l3s, release. guards. Qed.
Lemma collect_device_guards l1 : keeps_guards (vspace_collect_device_tables free l1).
Proof. unfold vspace_collect_device_tables, release_pd, release. guards. Qed.
Lemma collect_window_guards l1 : keeps_guards (vspace_collect_user_window free l1).
Proof. unfold vspace_collect_user_window, release_pd, release. guards. Qed.

Lemma init_primary_guards : keeps_guards init_primary.
Proof. unfold init_primary. guards. Qed.
Lemma window_global_guards p n : keeps_guards (map_device_window_global p n).
Proof.
  assert (∀ k b e, keeps_guards (device_window_loop k b e)) as Hl.
  { induction k as [|k IH]; intros b e; cbn [device_window_loop]; unfold high_dev_pd; guards; apply IH. }
  unfold map_device_window_global. guards. apply Hl.
Qed.
Lemma adopt_guards g b n : keeps_guards (adopt_high_ram g b n).
Proof.
  assert (∀ k i, keeps_guards (adopt_loop k i)) as Hl by (induction k as [|k IH]; intros i; cbn [adopt_loop]; guards; apply IH).
  unfold adopt_high_ram. guards. apply Hl.
Qed.
Lemma brought_up_guards s : brought_up (A := A) s → length (guard_of s) = GUARD_BLOCKS.
Proof.
  induction 1 as [s s' (_ & _ & Hb) Hr|s pa n b s' _ IH Hp Hn Hr|s gp base n o s' _ IH Hp Hn Hr].
  - rewrite (init_primary_guards _ _ _ Hr), Hb. done.
  - by rewrite (window_global_guards _ _ _ _ _ Hr).
  - by rewrite (adopt_guards _ _ _ _ _ _ Hr).
Qed.
End unguarded.
