(* ===== verification/VspaceKernel.v ===== *)
(** * The kernel's table of address spaces

    [src/kernel/src/system.rs]: an address space is created, named by its number ([asid]), changed and
    taken down through the table [VSPACES]; the page tables are those of [Mmu], and what the users of
    all spaces reach afterwards is what the calls asked for ([Vspace]).  The kernel takes the lock of
    the table for each access; the model runs the sections of one call one after the other.  The flush
    of an address space and the notes for the diagnosis of a shortage have no effect on the tables. *)

From S2P Require Import Prelude.
From S2P Require Import PanicMonad.
From S2P Require Import Mmu Vspace.
From stdpp Require Import gmap.
#[local] Open Scope Z_scope.

(** ** The memory of the kernel

    What the address spaces ask of the rest of the kernel: frames of 4 KiB, of a colour and near a node
    or from anywhere, the frames of loaded programs, the colour stripes, the device's view of a region. *)
Class Pool (Node Mask A : Type) := {
  unaffiliated : Node;
  max_asid : nat;
  frame_masked : option Mask → Node → M A (option Z);
  frame_anywhere : M A (option Z);
  free_region : Z → M A unit;
  loaded_free : nat → M A unit;
  release_stripe : Z → M A unit;
  assigned_iova : Z → M A (option Z) }.

(** [PT_RAHMEN_RAUS], [PT_RAHMEN_ZURUECK] and [PT_RAHMEN_PEAK] beside the memory; [gezaehlt] is the
    local [zurueck] of [vspace_teardown], which the callbacks count. *)
Section pot.
Context {A : Type}.
Record Pot := mk_pot { pool : A; raus : Z; zurueck : Z; peak : Z; gezaehlt : Z }.
Definition eta_pot (s : Pot) : Pot := mk_pot (pool s) (raus s) (zurueck s) (peak s) (gezaehlt s).
Definition with_pool v s := ltac:(set_field eta_pot pool s v).
Definition with_raus v s := ltac:(set_field eta_pot raus s v).
Definition with_zurueck v s := ltac:(set_field eta_pot zurueck s v).
Definition with_peak v s := ltac:(set_field eta_pot peak s v).
Definition with_gezaehlt v s := ltac:(set_field eta_pot gezaehlt s v).
End pot.
Arguments Pot : clear implicits.

Section table.
Context {Node Mask A : Type}.
Record VSpaceEnt := mk_ent { used : bool; l1 : Z; l2 : Z; stripe : option Z; node : Node; cmask : option Mask }.
Record Kern := mk_kern { vspaces : list VSpaceEnt; vm : Vm (Pot A) }.
Definition eta_kern (s : Kern) : Kern := mk_kern (vspaces s) (vm s).
Definition with_vspaces v s := ltac:(set_field eta_kern vspaces s v).
Definition with_vm v s := ltac:(set_field eta_kern vm s v).
End table.
Arguments VSpaceEnt : clear implicits.
Arguments Kern : clear implicits.

Section kernel.
Context `{Image} {Node Mask A : Type} {HP : Pool Node Mask A}.
Notation Ent := (VSpaceEnt Node Mask).
Notation K := (Kern Node Mask A).

Definition FREI : Ent := mk_ent false 0 0 None unaffiliated None.
Definition in_vm {B} (m : M (Vm (Pot A)) B) : M K B := zoom vm with_vm m.
Definition in_pot {B} (m : M (Pot A) B) : M K B := in_vm (zoom src with_src m).

(** *** The pot of page tables *)
Definition pt_rahmen (r : M A (option Z)) : M (Pot A) (option Z) :=
  o ← zoom pool with_pool r;
  match o with
  | None => mret None
  | Some c =>
    modify (λ s, with_peak (Z.max (peak s) (saturating_sub (raus s + 1) (zurueck s))) (with_raus (raus s + 1) s)) ≫= λ _,
    mret (Some c)
  end.
Definition pt_zurueck (n : Z) : M (Pot A) unit := modify (λ s, with_zurueck (zurueck s + n) s).
Definition seitentabellen_topf (s : Pot A) : Z * Z * Z * Z := (raus s, zurueck s, saturating_sub (raus s) (zurueck s), peak s).
Definition free_frame (p : Z) : M (Pot A) unit := zoom pool with_pool (free_region p).
(** The callback of [vspace_teardown]. *)
Definition free_counted (p : Z) : M (Pot A) unit := free_frame p ≫= λ _, modify (λ s, with_gezaehlt (gezaehlt s + 1) s).
Definition table_frame (mask : option Mask) (node : Node) : M (Pot A) (option Z) := pt_rahmen (frame_masked mask node).

(** *** Looking up *)
Definition vspace_slots (s : K) : nat := length (vspaces s).
Definition vspace_capacity (s : K) : nat * nat := (vspace_slots s, Nat.min (vspace_slots s) max_asid).
Definition used_vspaces (s : K) : nat := count_if used (vspaces s).
Definition free_vspaces (s : K) : nat := count_if (λ v, negb (used v)) (vspaces s).
(** The entry of a number: none for [0] and numbers beyond the table. *)
Definition ent_of (s : K) (asid : nat) : option Ent := if (asid =? 0)%nat then None else vspaces s !! (asid - 1)%nat.
Definition vspace_l1 (s : K) (asid : nat) : option Z := v ← ent_of s asid; if used v then Some (l1 v) else None.
Definition vspace_l2 (s : K) (asid : nat) : option Z := v ← ent_of s asid; if used v then Some (l2 v) else None.
Definition vspace_herkunft (s : K) (asid : nat) : Node * option Mask :=
  match ent_of s asid with Some v => if used v then (node v, cmask v) else (unaffiliated, None) | None => (unaffiliated, None) end.
Definition vspace_audit (s : K) : nat :=
  foldr (λ v code,
    if negb (used v) then code
    else if (l1 v =? 0) || (l2 v =? 0) then 3%nat
    else if negb (vspace_wx_ok (mem (vm s)) (l2 v) =? 0)%nat then vspace_wx_ok (mem (vm s)) (l2 v)
    else if negb (vspace_device_wx_ok (mem (vm s)) (l1 v)) then 1%nat else code) 0%nat (vspaces s).

(** *** Creating *)
Definition set_ent (i : nat) (v : Ent) : M K unit := modify (λ s, with_vspaces (<[i := v]> (vspaces s)) s).
(** [VSPACES.lock()[i].used = false] *)
Definition unuse (i : nat) : M K unit :=
  modify (λ s, with_vspaces (alter (λ v, mk_ent false (l1 v) (l2 v) (stripe v) (node v) (cmask v)) i (vspaces s)) s).
Definition reserve (mask : option Mask) (node : Node) : M K (option nat) :=
  s ← gets id;
  match position (λ v, negb (used v)) (take (Nat.min (vspace_slots s) max_asid) (vspaces s)) with
  | None => mret None
  | Some i => set_ent i (mk_ent true 0 0 None node mask) ≫= λ _, mret (Some i)
  end.
(** The frames of a space that could not be made go back.  [vspace_create_base] fails only for want of
    its own frame, so that there is never a third one to give back ([extra]). *)
Definition undo (i : nat) (l : list Z) : M K unit :=
  in_pot (fold_right (λ p m, free_frame p ≫= λ _, m) (mret tt) l) ≫= λ _,
  in_pot (pt_zurueck (Z.of_nat (length l))) ≫= λ _, unuse i.
Definition create_vspace_masked (mask : option Mask) (node : Node) : M K (option (nat * Z)) :=
  o ← reserve mask node;
  match o with
  | None => mret None
  | Some i =>
    a ← in_vm (allocate (table_frame mask node));
    b ← in_vm (allocate (table_frame mask node));
    match a, b with
    | Some l1, Some l2 =>
      ok ← in_vm (vspace_create_base (table_frame mask node) l1 l2);
      if ok : bool then set_ent i (mk_ent true l1 l2 None node mask) ≫= λ _, mret (Some (S i, l1))
      else undo i [l1; l2] ≫= λ _, mret None
    | a, b => undo i (option_list a ++ option_list b) ≫= λ _, mret None
    end
  end.
Definition create_vspace : M K (option (nat * Z)) := create_vspace_masked None unaffiliated.
Definition vspace_bind_stripe (asid : nat) (i : Z) : M K unit :=
  modify (λ s, match ent_of s asid with
               | Some v => with_vspaces (<[(asid - 1)%nat := mk_ent (used v) (l1 v) (l2 v) (Some i) (node v) (cmask v)]> (vspaces s)) s
               | None => s
               end).

(** *** Mapping

    An address is mapped to itself.  [ISO_REGION_SIZE] is one block; [while p < base + len]. *)
Definition ISO_REGION_SIZE : Z := TWO_MIB.
Definition rounds (len : Z) : nat := Z.to_nat ((len + 4095) / 4096).
Definition vspace_map_masked (asid : nat) (base len : Z) (perm : UserPerm) (mask : option Mask) : M K bool :=
  o ← gets (λ s, vspace_l2 s asid);
  match o with
  | None => mret false
  | Some l2 =>
    if (len =? ISO_REGION_SIZE) && (base mod ISO_REGION_SIZE =? 0) && (match perm with Ro => false | _ => true end)
    then in_vm (match perm with Rx => vspace_map_code_block l2 base | _ => vspace_map_block l2 base end)
    else in_vm (page_loop (λ p, vspace_map_page (table_frame mask unaffiliated) l2 p perm) (rounds len) base)
  end.
Definition vspace_map (asid : nat) (base len : Z) (perm : UserPerm) : M K bool := vspace_map_masked asid base len perm None.
Definition vspace_map_user_region (asid slot : nat) (phys len : Z) (perm : UserPerm) (mask : option Mask) : M K (option Z) :=
  o ← gets (λ s, vspace_l1 s asid);
  match o with
  | None => mret None
  | Some l1 => in_vm (vspace_map_user_window (table_frame mask unaffiliated) l1 slot phys len perm)
  end.
(** Every page, whether or not the one before could be unmapped. *)
Fixpoint unmap_loop (l2 : Z) (n : nat) (p : Z) (all : bool) : M (Vm (Pot A)) bool :=
  match n with
  | O => mret all
  | S n => b ← vspace_unmap_page l2 p; unmap_loop l2 n (p + 4096) (if b : bool then all else false)
  end.
Definition vspace_unmap (asid : nat) (base len : Z) : M K bool :=
  o ← gets (λ s, vspace_l2 s asid);
  match o with
  | None => mret false
  | Some l2 =>
    if (len =? ISO_REGION_SIZE) && (base mod ISO_REGION_SIZE =? 0) then in_vm (vspace_unmap_block l2 base)
    else in_vm (unmap_loop l2 (rounds len) base true)
  end.
Definition unmap_dma (asid : nat) (phys len : Z) : M K bool :=
  o ← gets (λ s, vspace_l2 s asid);
  match o with None => mret false | Some l2 => in_vm (unmap_loop l2 (rounds len) phys true) end.

Inductive MappingKind := Device (ro : bool) | Dma (coherent : bool).
(** [asid] is the number of the thread's space. *)
Definition map_region (asid : nat) (phys len : Z) (kind : MappingKind) : M K bool :=
  match kind with
  | Device ro =>
    o ← gets (λ s, vspace_l1 s asid);
    match o with None => mret false | Some l1 => in_vm (vspace_map_device (pt_rahmen frame_anywhere) l1 phys len ro) end
  | Dma coherent =>
    o ← gets (λ s, vspace_l2 s asid);
    match o with None => mret false | Some l2 => in_vm (vspace_map_dma (pt_rahmen frame_anywhere) l2 phys len coherent) end
  end.
Definition map_window (asid : nat) (base len : Z) (ro : bool) (dma : option bool) : M K (option Z) :=
  if (len =? 0) || negb (len mod 4096 =? 0) then mret None
  else
    ok ← map_region asid base len (match dma with None => Device ro | Some coherent => Dma coherent end);
    if negb ok then mret None
    else match dma with
         | Some _ => o ← in_pot (zoom pool with_pool (assigned_iova base)); mret (Some (default 0 o))
         | None => mret (Some 0)
         end.
Definition unmap_window (asid : nat) (base len : Z) : M K bool :=
  if (asid =? 0)%nat || (len =? 0) || negb (len mod 4096 =? 0) then mret false else vspace_unmap asid base len.

(** *** Taking down *)
Definition give_back (ent : Ent) : M (Vm (Pot A)) unit :=
  zoom src with_src (modify (with_gezaehlt 0)) ≫= λ _,
  vspace_collect_l3s free_counted (l2 ent) ≫= λ _,
  vspace_collect_device_tables free_counted (l1 ent) ≫= λ _,
  vspace_collect_user_window free_counted (l1 ent) ≫= λ _,
  release free_frame (l1 ent) ≫= λ _,
  release free_frame (l2 ent) ≫= λ _,
  zoom src with_src (n ← gets gezaehlt; pt_zurueck (n + 2)).
Definition vspace_teardown (asid : nat) : M K unit :=
  o ← gets (λ s, ent_of s asid);
  match o with
  | None => mret tt
  | Some _ =>
    in_pot (zoom pool with_pool (loaded_free asid)) ≫= λ _,
    s ← gets id;
    match ent_of s asid with
    | None => panic
    | Some ent =>
      (if used ent then in_vm (give_back ent) else mret tt) ≫= λ _,
      set_ent (asid - 1) FREI ≫= λ _,
      match stripe ent with Some i => in_pot (zoom pool with_pool (release_stripe i)) | None => mret tt end
    end
  end.
End kernel.

(** ** What a call may add

    [grows a ask G G']: nothing changes outside space [a], and what is new there was asked for. *)
Definition grows (a : nat) (ask : Z → bool → bool → Prop) (G G' : Grants) : Prop :=
  (∀ b t g k j, b ≠ a → G' b t g k j = G b t g k j) ∧
  (∀ t g k j pa w x, (j < 512)%nat → G' a t g k j = Some (pa, w, x) → G a t g k j = Some (pa, w, x) ∨ ask pa w x).
Lemma grows_refl a ask G : grows a ask G G.
Proof. split; [done|]. by left. Qed.
Lemma grows_trans a ask G1 G2 G3 : grows a ask G1 G2 → grows a ask G2 G3 → grows a ask G1 G3.
Proof.
  intros [E1 H1] [E2 H2]. split; [intros; rewrite E2, E1; done|]. intros t g k j pa w x Hj H3.
  destruct (H2 t g k j pa w x Hj H3) as [H4|]; [by eapply H1|by right].
Qed.
Lemma grows_mono a (ask ask' : Z → bool → bool → Prop) G G' : (∀ pa w x, ask pa w x → ask' pa w x) → grows a ask G G' → grows a ask' G G'.
Proof. intros Hm [E H1]. split; [done|]. intros t g k j pa w x Hj H2. destruct (H1 t g k j pa w x Hj H2); [by left|right; by apply Hm]. Qed.
Lemma grows_block a ask t g k f G : (∀ j pa w x, (j < 512)%nat → f j = Some (pa, w, x) → G a t g k j = Some (pa, w, x) ∨ ask pa w x) →
  grows a ask G (set_block_grants a t g k f G).
Proof.
  intros Hf. split; [intros b t' g' k' j Hb; apply set_block_off; congruence|]. intros t' g' k' j pa w x Hj.
  destruct (decide ((t', g', k') = (t, g, k))) as [[= -> -> ->]|Hne]; [rewrite set_block_at; by apply Hf|]. rewrite set_block_off by congruence. by left.
Qed.
Lemma grows_page a ask t g k j x G : (∀ pa w e, x = Some (pa, w, e) → ask pa w e) → grows a ask G (set_page_grant a t g k j x G).
Proof. intros Hx. apply grows_block. intros j' pa w e _. destruct (j' =? j)%nat; [right; by apply Hx|by left]. Qed.
Lemma grows_map a ask k j x fine G : (∀ pa w e, x = Some (pa, w, e) → ask pa w e) → grows a ask G (map_grants a k j x fine G).
Proof.
  intros Hx. eapply grows_trans; [|by apply grows_page]. apply grows_block. intros j' pa w e _. destruct fine; [by left|done].
Qed.

Section spaces.
Context `{Image} (Himg : image_ok) {A : Type} (alloc : M A (option Z)) (free : Z → M A unit) (held : A → gset Z).
Context (Halloc : alloc_law alloc held) (Hfree : free_law free held).
Notation W := (Vm A).

(** *** Places of addresses *)
Lemma page_div v : page v → v = v / PAGE * PAGE.
Proof. intros [_ [c ->]]. by rewrite Z.div_mul. Qed.
Lemma place_split v : page v → v = Z.of_nat (gib v) * ONE_GIB + Z.of_nat (gib_block v) * TWO_MIB + Z.of_nat (page_index v) * PAGE.
Proof.
  intros Hp. destruct Hp as [Hv [c ->]]. unfold gib, gib_block, page_index. unfold PAGE, ONE_GIB, TWO_MIB in *. change (2 ^ 30) with (262144 * 4096).
  change (2 * 1024 * 1024) with (512 * 4096). rewrite !Zmult_mod_distr_r, !Z.div_mul_cancel_r by lia.
  rewrite (Z.div_mul (c mod 512)) by lia. rewrite !Z2Nat.id by (first [apply Z.mod_pos_bound|apply Z.div_pos; [first [apply Z.mod_pos_bound; lia|lia]|lia]]; lia).
  pose proof (Z.div_mod c 262144 ltac:(lia)). pose proof (Z.div_mod (c mod 262144) 512 ltac:(lia)).
  replace (c mod 512) with ((c mod 262144) mod 512); [lia|]. change 262144 with (512 * 512). rewrite Z.rem_mul_r by lia.
  rewrite Z.mul_comm, Z.mod_add by lia. by rewrite Z.mod_mod by lia.
Qed.
Lemma same_place v v' : page v → page v' → gib v = gib v' → gib_block v = gib_block v' → page_index v = page_index v' → v = v'.
Proof. intros Hv Hv' E1 E2 E3. rewrite (place_split v Hv), (place_split v' Hv'). by rewrite E1, E2, E3. Qed.
Lemma low_block_index v : 0 <= v < GIB1_END → gib v = 0%nat ∧ gib_block v = block_index v.
Proof. intros Hv. unfold gib, gib_block, block_index. change GIB1_END with ONE_GIB in Hv. rewrite (Z.div_small v ONE_GIB), (Z.mod_small v ONE_GIB) by done. done. Qed.
Lemma indices v : 0 <= v < 2 ^ 39 → ix v 39 = 0%nat ∧ ix v 30 = gib v ∧ ix v 21 = gib_block v ∧ ix v 12 = page_index v.
Proof.
  intros Hv. assert (∀ n, 0 <= n → ix v n = Z.to_nat ((v / 2 ^ n) mod 512)) as Hix.
  { intros n Hn. unfold ix. change 511 with (Z.ones 9). by rewrite Z.land_ones, Z.shiftr_div_pow2 by done. }
  unfold gib, gib_block, page_index. rewrite !Hix by done. change ONE_GIB with (2 ^ 30). change TWO_MIB with (2 ^ 21). change PAGE with (2 ^ 12). split_and!; f_equal.
  - by rewrite Z.div_small.
  - apply Z.mod_small. split; [apply Z.div_pos; lia|]. apply Z.div_lt_upper_bound; [done|]. change (2 ^ 30 * 512) with (2 ^ 39). lia.
  - change 512 with (2 ^ 9). rewrite <-!Z.shiftr_div_pow2, <-!Z.land_ones by done. apply Z.bits_inj'. intros n Hn.
    rewrite !Z.land_spec, !Z.shiftr_spec, Z.land_spec by lia. f_equal. destruct (decide (n < 9)); [by rewrite !Z.ones_spec_low by lia|by rewrite !Z.ones_spec_high by lia].
  - change 512 with (2 ^ 9). rewrite <-!Z.shiftr_div_pow2, <-!Z.land_ones by done. apply Z.bits_inj'. intros n Hn.
    rewrite !Z.land_spec, !Z.shiftr_spec, Z.land_spec by lia. f_equal. destruct (decide (n < 9)); [by rewrite !Z.ones_spec_low by lia|by rewrite !Z.ones_spec_high by lia].
Qed.

(** *** Pages one after the other *)
Lemma page_loop_grows a ask own0 (page : Z → M W bool) va (mapped : nat → Own → Grants → Prop) n : ∀ i0 own G s,
  vm_ok held own G s → same_roots own0 own → (∀ i, (i < i0)%nat → mapped i own G) →
  (∀ i own G s, (i0 <= i < i0 + n)%nat → vm_ok held own G s → same_roots own0 own → (∀ i', (i' < i)%nat → mapped i' own G) →
    wp (page (va + Z.of_nat i * PAGE)) s (λ r s', ∃ own' G', evolves_to held own s own' G' s' ∧ grows a ask G G' ∧
      (r = true → ∀ i', (i' < i + 1)%nat → mapped i' own' G'))) →
  wp (page_loop page n (va + Z.of_nat i0 * PAGE)) s (λ r s', ∃ own' G', evolves_to held own s own' G' s' ∧ grows a ask G G' ∧
    (r = true → ∀ i, (i < i0 + n)%nat → mapped i own' G')).
Proof.
  induction n as [|n IH]; intros i0 own G s T R Hm Hp; cbn [page_loop].
  - apply wp_ret. exists own, G. split_and!; [by apply evolves_refl|apply grows_refl|]. intros _ i Hi. apply Hm. lia.
  - apply wp_bind. eapply wp_mono; [apply (Hp i0 own G s); [lia|done|done|done]|]. cbn beta. intros [|] s1 (own1 & G1 & E1 & Gr1 & M1).
    2: { apply wp_ret. exists own1, G1. by split_and!. }
    replace (va + Z.of_nat i0 * PAGE + PAGE) with (va + Z.of_nat (i0 + 1) * PAGE) by lia.
    assert (same_roots own0 own1) as R1. { intros q b pl H1. destruct E1 as (_ & E1 & _). by rewrite (E1 q b pl H1), (R q b pl H1). }
    eapply wp_mono; [apply (IH (i0 + 1)%nat own1 G1 s1); [apply E1|done|by apply M1|]|].
    + intros i own' G' s' Hi. apply Hp. lia.
    + cbn beta. intros r s2 (own2 & G2 & E2 & Gr2 & M2). exists own2, G2. split_and!; [by eapply evolves_trans|by eapply grows_trans|].
      intros Hr i Hi. apply M2; [done|lia].
Qed.

(** Pages of the first GiB. *)
Definition paged_at (a : nat) (x : option (Z * bool * bool)) (v : Z) (own : Own) (G : Grants) : Prop :=
  USER_RAM_MIN <= v < GIB1_END ∧ page v ∧ (∃ q, own !! q = Some (a, Pt 0 0 (block_index v))) ∧ G a 0%nat 0%nat (block_index v) (page_index v) = x.
Lemma is_table_of own G s a l2 k q : vm_ok held own G s → own !! l2 = Some (a, Pd 0 0) → own !! q = Some (a, Pt 0 0 k) → is_table (ld (mem s) l2 k) = true.
Proof.
  intros T Hl2 Hq. destruct (linked_entry Himg _ _ _ _ T q a (Pt 0 0 k) (Pd 0 0) k Hq eq_refl) as (pd & Hpd & _ & E & _).
  rewrite (t_inj _ _ _ _ T _ _ _ Hpd Hl2) in E. destruct (t_frames _ _ _ _ T q _ Hq) as (Hp & _). unfold is_table. rewrite E. by destruct (table_desc_spec q Hp) as (-> & _ & _ & _ & -> & _).
Qed.
Lemma paged_at_kept own G s a l2 v v' x x' own' : vm_ok held own G s → own !! l2 = Some (a, Pd 0 0) → USER_RAM_MIN <= v' < GIB1_END → page v' → own ⊆ own' → v ≠ v' →
  paged_at a x v own G → paged_at a x v own' (map_grants a (block_index v') (page_index v') x' (is_table (ld (mem s) l2 (block_index v'))) G).
Proof.
  intros T Hl2 Hv' Hp' Ho Hne (Hv & Hp & [q Hq] & E). split; [done|]. split; [done|]. split; [exists q; by eapply lookup_weaken|].
  assert (∀ w, USER_RAM_MIN <= w < GIB1_END → 0 <= w < GIB1_END) as Hlow by (unfold USER_RAM_MIN; lia).
  unfold map_grants, set_page_grant. destruct (decide (block_index v = block_index v')) as [Ek|Hk].
  - rewrite <-Ek, set_block_at. destruct (Nat.eqb_spec (page_index v) (page_index v')) as [Ej|].
    + exfalso. apply Hne. destruct (low_block_index v), (low_block_index v'); [by apply Hlow..|]. apply same_place; [done|done|congruence|congruence|done].
    + rewrite set_block_at. by rewrite (is_table_of own G s a l2 _ q).
  - rewrite !set_block_off by congruence. done.
Qed.
Lemma map_page_mapped own G s a l2 v perm : vm_ok held own G s → own !! l2 = Some (a, Pd 0 0) → 0 <= v < 2 ^ 52 → ∀ page_fn : M W bool,
  wp page_fn s (λ r s', if r then ∃ own', USER_RAM_MIN <= v < GIB1_END ∧ page v ∧ evolves_to held own s own'
      (map_grants a (block_index v) (page_index v) (grant_of v perm) (is_table (ld (mem s) l2 (block_index v))) G) s' ∧ (∃ q, own' !! q = Some (a, Pt 0 0 (block_index v)))
    else evolves held own s G s') →
  ∀ (ask : Z → bool → bool → Prop) (vs : Z → Prop), ask v (writes perm) (executes perm) → ¬ vs v →
  wp page_fn s (λ r s', ∃ own' G', evolves_to held own s own' G' s' ∧ grows a ask G G' ∧
    (r = true → paged_at a (grant_of v perm) v own' G' ∧ ∀ v', vs v' → paged_at a (grant_of v' perm) v' own G → paged_at a (grant_of v' perm) v' own' G')).
Proof.
  intros T Hl2 Hv page_fn Hw ask vs Hask Hvs. eapply wp_mono; [exact Hw|]. cbn beta. intros [|] s'.
  - intros (own' & Hr & Hp & E & Hq). exists own', (map_grants a (block_index v) (page_index v) (grant_of v perm) (is_table (ld (mem s) l2 (block_index v))) G).
    split_and!; [done|apply grows_map; by intros pa w e [= <- <- <-]|]. intros _. split.
    + split; [done|]. split; [done|]. split; [done|]. unfold map_grants, set_page_grant. rewrite set_block_at. by rewrite Nat.eqb_refl.
    + intros v' Hv' H'. destruct E as (_ & _ & _ & _ & Ho). apply (paged_at_kept own G s a l2 v' v _ _ own'); try done. by intros ->.
  - intros [own' E]. exists own', G. split_and!; [done|apply grows_refl|done].
Qed.

(** A region of pages of the first GiB, by [vspace_map_page] or [map_dma_page]. *)
Lemma map_pages_spec own G s a l2 (page_fn : Z → M W bool) va n perm (ask : Z → bool → bool → Prop) : vm_ok held own G s → own !! l2 = Some (a, Pd 0 0) →
  0 <= va → va + Z.of_nat n * PAGE <= 2 ^ 52 →
  (∀ own G s v, vm_ok held own G s → own !! l2 = Some (a, Pd 0 0) → 0 <= v < 2 ^ 52 → wp (page_fn v) s (λ r s', if r then ∃ own', USER_RAM_MIN <= v < GIB1_END ∧ page v ∧ evolves_to held own s own'
      (map_grants a (block_index v) (page_index v) (grant_of v perm) (is_table (ld (mem s) l2 (block_index v))) G) s' ∧ (∃ q, own' !! q = Some (a, Pt 0 0 (block_index v)))
    else evolves held own s G s')) →
  (∀ v, va <= v < va + Z.of_nat n * PAGE → ask v (writes perm) (executes perm)) →
  wp (page_loop page_fn n va) s (λ r s', ∃ own' G', evolves_to held own s own' G' s' ∧ grows a ask G G' ∧
    (r = true → ∀ i, (i < n)%nat → paged_at a (grant_of (va + Z.of_nat i * PAGE) perm) (va + Z.of_nat i * PAGE) own' G')).
Proof.
  intros T Hl2 Hva Hend Hfn Hask. replace va with (va + Z.of_nat 0 * PAGE) at 1 by lia.
  apply (page_loop_grows a ask own page_fn va (λ i own G, paged_at a (grant_of (va + Z.of_nat i * PAGE) perm) (va + Z.of_nat i * PAGE) own G)); try done; [lia|].
  intros i own1 G1 s1 Hi T1 R1 Hm. assert (own1 !! l2 = Some (a, Pd 0 0)) as Hl2' by (apply R1; auto). set (v := va + Z.of_nat i * PAGE) in *.
  assert (0 <= v < 2 ^ 52) as Hv by (unfold v, PAGE in *; lia).
  eapply wp_mono; [apply (map_page_mapped own1 G1 s1 a l2 v perm T1 Hl2' Hv (page_fn v) (Hfn own1 G1 s1 v T1 Hl2' Hv) ask (λ v', ∃ i', (i' < i)%nat ∧ v' = va + Z.of_nat i' * PAGE))|].
  - apply Hask. unfold v, PAGE. lia.
  - intros (i' & Hi' & E). unfold v, PAGE in E. lia.
  - cbn beta. intros r s' (own' & G' & E & Gr & M). exists own', G'. split_and!; [done|done|]. intros Hr i' Hi'. destruct (M Hr) as [M1 M2].
    destruct (decide (i' = i)) as [->|]; [done|]. apply M2; [exists i'; split; [lia|done]|]. apply Hm. lia.
Qed.

(** A window of a device. *)
Lemma map_device_spec own G s a l1 phys n ro (ask : Z → bool → bool → Prop) : vm_ok held own G s → own !! l1 = Some (a, Pml4) → ONE_GIB <= phys → 0 <= n →
  (∀ v, phys <= v < phys + n → ask v (negb ro) false) →
  wp (vspace_map_device alloc l1 phys n ro) s (λ r s', ∃ own' G', evolves_to held own s own' G' s' ∧ grows a ask G G' ∧
    (r = true → n mod PAGE = 0 ∧ phys mod PAGE = 0 ∧ phys + n <= 2 ^ 39 ∧
      ∀ v, page v → phys <= v < phys + n → G' a 0%nat (gib v) (gib_block v) (page_index v) = Some (v, negb ro, false))).
Proof.
  intros T Hl1 Hph Hn Hask. unfold vspace_map_device.
  match goal with |- context [if ?c then mret false else _] => destruct c eqn:Hc end.
  { apply wp_ret. exists own, G. split_and!; [by apply evolves_refl|apply grows_refl|done]. }
  apply orb_false_iff in Hc as [Hc Hpm%negb_false_iff%Z.eqb_eq]. apply orb_false_iff in Hc as [Hn1%Z.eqb_neq Hnm%negb_false_iff%Z.eqb_eq].
  destruct (Z.ltb_spec (Z.of_nat MAPPED_GIB * ONE_GIB) (saturating_add 64 phys n)) as [|Hend].
  { apply wp_ret. exists own, G. split_and!; [by apply evolves_refl|apply grows_refl|done]. }
  assert (phys + n <= 2 ^ 39) as Hend'. { unfold saturating_add in Hend. change (Z.of_nat MAPPED_GIB * ONE_GIB) with (2 ^ 39) in Hend. lia. }
  apply Z.mod_divide in Hnm as Hd; [|done]. destruct Hd as [c Ec]. assert (Z.to_nat (n / PAGE) = Z.to_nat c ∧ 0 <= c) as [-> Hc] by (rewrite Ec, Z.div_mul by done; unfold PAGE in *; lia).
  assert (∀ i, (i < Z.to_nat c)%nat → ONE_GIB <= phys + Z.of_nat i * PAGE < Z.of_nat MAPPED_GIB * ONE_GIB ∧ page (phys + Z.of_nat i * PAGE)) as Hpg.
  { intros i Hi. change (Z.of_nat MAPPED_GIB * ONE_GIB) with (2 ^ 39). assert (Z.of_nat i * PAGE < n) by (rewrite Ec; unfold PAGE; lia).
    split; [unfold PAGE in *; lia|]. apply page_add; [apply mod_page; [unfold ONE_GIB in Hph; lia|done]|lia|lia]. }
  replace phys with (phys + Z.of_nat 0 * PAGE) at 1 by lia.
  eapply wp_mono; [apply (page_loop_grows a ask own (map_device_page alloc l1 ro) phys
    (λ i own G, G a 0%nat (gib (phys + Z.of_nat i * PAGE)) (gib_block (phys + Z.of_nat i * PAGE)) (page_index (phys + Z.of_nat i * PAGE)) = Some (phys + Z.of_nat i * PAGE, negb ro, false)) (Z.to_nat c) 0 own G s); try done; [lia|]|].
  - intros i own1 G1 s1 Hi T1 R1 Hm. destruct (Hpg i ltac:(lia)) as [Hr Hp]. set (v := phys + Z.of_nat i * PAGE) in *.
    assert (ask v (negb ro) false) as Ha by (apply Hask; unfold v; rewrite Ec; unfold PAGE; lia).
    eapply wp_mono; [apply (map_device_page_spec Himg alloc held Halloc own1 G1 s1 a l1 ro v); [done|by apply R1; auto|done|done]|]. cbn beta. intros [|] s' [own' E].
    + exists own', (set_page_grant a 0 (gib v) (gib_block v) (page_index v) (Some (v, negb ro, false)) G1). split_and!; [done|apply grows_page; by intros pa w e [= <- <- <-]|].
      intros _ i' Hi'. unfold set_page_grant. destruct (decide (i' = i)) as [->|Hne]; [fold v; by rewrite set_block_at, Nat.eqb_refl|].
      destruct (Hpg i' ltac:(lia)) as [_ Hp']. set (v' := phys + Z.of_nat i' * PAGE) in *. assert (v' ≠ v) as Hvv by (unfold v, v', PAGE; lia).
      destruct (decide ((gib v', gib_block v') = (gib v, gib_block v))) as [[= E1 E2]|Hb]; [|rewrite set_block_off by congruence; apply Hm; lia].
      rewrite E1, E2, set_block_at. destruct (Nat.eqb_spec (page_index v') (page_index v)) as [E3|]; [by destruct Hvv; apply same_place|].
      rewrite <-E1, <-E2. apply Hm. lia.
    + exists own', G1. by split_and!; [|apply grows_refl|].
  - cbn beta. intros r s' (own' & G' & E & Gr & M). exists own', G'. split_and!; [done|done|]. intros Hr. split_and!; [done|done|done|]. intros v [Hv0 [d Ed]] Hv.
    apply Z.mod_divide in Hpm as [e Ee]; [|done]. assert (v = phys + Z.of_nat (Z.to_nat (d - e)) * PAGE) as -> by (rewrite Z2Nat.id; unfold PAGE in *; lia).
    apply M; [done|]. unfold PAGE in *. lia.
Qed.

(** Taking pages out. *)
Lemma unmap_loop_step own G s a l2 v : vm_ok held own G s → own !! l2 = Some (a, Pd 0 0) → USER_RAM_MIN <= v →
  wp (vspace_unmap_page l2 v) s (λ r s', ∃ G', evolves_to held own s own G' s' ∧ grows a (λ _ _ _, False) G G' ∧
    (∀ t g k j, G a t g k j = None → G' a t g k j = None) ∧ (r = true → v < GIB1_END ∧ G' a 0%nat 0%nat (block_index v) (page_index v) = None)).
Proof.
  intros T Hl2 Hv. eapply wp_mono; [by apply (unmap_page_spec Himg held own G s a l2 v)|]. cbn beta. intros [|] s'.
  - intros (_ & Hend & _ & E). exists (set_page_grant a 0 0 (block_index v) (page_index v) None G). split_and!; [done|by apply grows_page| |].
    + intros t g k j Hn. unfold set_page_grant, set_block_grants. case_decide as D; [|done]. injection D as -> -> ->. by destruct (j =? page_index v)%nat.
    + intros _. split; [done|]. unfold set_page_grant. by rewrite set_block_at, Nat.eqb_refl.
  - intros ->. exists G. split_and!; [by apply evolves_refl|apply grows_refl|done..].
Qed.

(** The entry of a slot of the window. *)
Definition window_entry (m : Mem) (l1 : Z) (slot : nat) : Z :=
  let e4 := ld m l1 1 in
  if has e4 P then let e3 := ld m (addr e4) 0 in if has e3 P then ld m (addr e3) slot else 0 else 0.
Lemma empty_slot own G s a l1 slot : vm_ok held own G s → own !! l1 = Some (a, Pml4) → (slot < 512)%nat → has (window_entry (mem s) l1 slot) P = false →
  (∀ q, own !! q ≠ Some (a, Pt 1 0 slot)) ∧ ∀ j, (j < 512)%nat → G a 1%nat 0%nat slot j = None.
Proof.
  intros T Hl1 Hs He. unfold window_entry in He. pose proof (t_nodes _ _ _ _ T l1 a _ 1%nat Hl1 ltac:(lia)) as Hn. cbn [node_ok] in Hn.
  assert (∀ q, own !! q = Some (a, Pt 1 0 slot) → ∃ pd p, own !! pd = Some (a, Pd 1 0) ∧ own !! p = Some (a, Pdpt 1) ∧ ld (mem s) l1 1 = table_desc p ∧
    ld (mem s) p 0 = table_desc pd ∧ ld (mem s) pd slot = table_desc q) as Hchain.
  { intros q Hq. destruct (linked_entry Himg _ _ _ _ T q a (Pt 1 0 slot) (Pd 1 0) slot Hq eq_refl) as (pd & Hpd & _ & E1 & _).
    destruct (linked_entry Himg _ _ _ _ T pd a (Pd 1 0) (Pdpt 1) 0 Hpd eq_refl) as (p & Hp & _ & E2 & _).
    destruct (linked_entry Himg _ _ _ _ T p a (Pdpt 1) Pml4 1 Hp eq_refl) as (l & Hl & _ & E3 & _). rewrite (t_inj _ _ _ _ T _ _ _ Hl Hl1) in E3. by exists pd, p. }
  assert (∀ q x, own !! q = Some x → has (table_desc q) P = true ∧ addr (table_desc q) = q) as Htd.
  { intros q x Hq. destruct (t_frames _ _ _ _ T q _ Hq) as (Hp & _). by destruct (table_desc_spec q Hp) as (-> & _ & _ & _ & _ & ->). }
  split.
  - intros q Hq. destruct (Hchain q Hq) as (pd & p & Hpd & Hp & E3 & E2 & E1). rewrite E3 in He. destruct (Htd p _ Hp) as [H1 H2]. rewrite H1, H2, E2 in He.
    destruct (Htd pd _ Hpd) as [H3 H4]. rewrite H3, H4, E1 in He. destruct (Htd q _ Hq) as [H5 _]. congruence.
  - intros j Hj. destruct Hn as [[_ HG]|(p & E3 & Hp)]; [by apply HG|]. destruct (Htd p _ Hp) as [H1 H2]. rewrite E3, H1, H2 in He.
    pose proof (t_nodes _ _ _ _ T p a _ 0%nat Hp ltac:(lia)) as Hn. cbn [node_ok] in Hn. destruct Hn as [[_ HG]|(_ & _ & (pd & E2 & Hpd))]; [by apply HG|].
    destruct (Htd pd _ Hpd) as [H3 H4]. rewrite E2, H3, H4 in He. pose proof (t_nodes _ _ _ _ T pd a _ slot Hpd Hs) as Hn. cbn [node_ok] in Hn.
    change (image_block 1 0 slot) with false in Hn. cbn iota in Hn. destruct Hn as [[_ HG]|(q & E1 & Hq)].
    + rewrite HG by done. unfold block_grant, grant. by rewrite He.
    + destruct (Htd q _ Hq) as [H5 _]. rewrite E1 in He. congruence.
Qed.

(** What changes at one block only, and which frames that may lose. *)
Definition changed (own : Own) (s : W) (a : nat) (ask : Z → bool → bool → Prop) (G : Grants) (keeps : Prop) (s' : W) : Prop :=
  ∃ own' G', vm_ok held own' G' s' ∧ same_roots own own' ∧ same_statics (mem s) (mem s') ∧ (keeps → tight held own s → tight held own' s') ∧ grows a ask G G'.
Lemma changed_of own s own' G G' s' a ask keeps : evolves_to held own s own' G' s' → grows a ask G G' → changed own s a ask G keeps s'.
Proof. intros (? & ? & ? & ? & _) ?. exists own', G'. split_and!; auto. Qed.
Lemma changed_mono own s a (ask ask' : Z → bool → bool → Prop) G (keeps keeps' : Prop) s' : (∀ pa w x, ask pa w x → ask' pa w x) → (keeps' → keeps) →
  changed own s a ask G keeps s' → changed own s a ask' G keeps' s'.
Proof. intros Ha Hk (own' & G' & ? & ? & ? & Ht & ?). exists own', G'. split_and!; auto. by eapply grows_mono. Qed.
Lemma same_changed own G s a ask keeps : vm_ok held own G s → changed own s a ask G keeps s.
Proof. intros T. eapply changed_of; [by apply evolves_refl|apply grows_refl]. Qed.

Lemma map_window_changed own G s a l1 slot phys n perm (ask : Z → bool → bool → Prop) : vm_ok held own G s → own !! l1 = Some (a, Pml4) → 0 <= phys → phys + n <= 2 ^ 52 → 0 <= n →
  (slot < 512)%nat → has (window_entry (mem s) l1 slot) P = false →
  (∀ v, phys <= v < phys + n → ask v (writes perm || match perm with Ro => whole_block phys n | _ => false end) (executes perm)) →
  wp (vspace_map_user_window alloc l1 slot phys n perm) s (λ _ s', changed own s a ask G True s').
Proof.
  intros T Hl1 Hph Hend Hn Hs He Hask. destruct (empty_slot own G s a l1 slot T Hl1 Hs He) as [Hno HG].
  eapply wp_mono; [by apply (map_user_window_spec Himg alloc held Halloc own G s a l1 slot phys n perm)|]. cbn beta. intros [va|] s'.
  - intros (_ & _ & _ & own' & T' & R & S1 & K1). exists own', (window_grants a slot phys n perm G). split_and!; try done; [by intros _; apply K1|].
    apply grows_block. intros j pa w x Hj. unfold whole_block in *. destruct ((n =? TWO_MIB) && (phys mod TWO_MIB =? 0)) eqn:Hw.
    + intros [= <- <- <-]. right. apply andb_true_iff in Hw as [->%Z.eqb_eq _]. destruct perm; apply (Hask (phys + Z.of_nat j * PAGE)); unfold PAGE, TWO_MIB; lia.
    + destruct (Nat.ltb_spec j (Z.to_nat (n / PAGE))) as [Hj'|]; [|by left]. intros [= <- <- <-]. right.
      assert (Z.of_nat j * PAGE < n). { pose proof (Z.mul_div_le n PAGE ltac:(done)). unfold PAGE in *. lia. }
      destruct perm; apply (Hask (phys + Z.of_nat j * PAGE)); unfold PAGE in *; lia.
  - intros [own' E]. eapply changed_of; [done|apply grows_refl].
Qed.
Lemma set_block_changed own G s a l2 phys f x (ask : Z → bool → bool → Prop) : vm_ok held own G s → own !! l2 = Some (a, Pd 0 0) → 0 <= phys →
  (∀ p, page p → (TWO_MIB | p) → is_table (f p) = false ∧ ∀ j, block_grant (f p) j = x p j) →
  (∀ p j pa w e, x p j = Some (pa, w, e) → w && e = false) →
  (∀ j pa w e, (j < 512)%nat → x phys j = Some (pa, w, e) → ask pa w e) →
  wp (set_block f l2 phys) s (λ _ s', changed own s a ask G (is_table (ld (mem s) l2 (block_index phys)) = false) s').
Proof.
  intros T Hl2 Hph Hf Hx Hask. eapply wp_mono; [by apply (set_block_spec Himg held own G s a l2 phys f x)|]. cbn beta. intros [|] s'.
  - intros (_ & _ & own' & T' & R & S1 & K1). exists own', (set_block_grants a 0 0 (block_index phys) (x phys) G). split_and!; try done.
    apply grows_block. intros j pa w e Hj E. right. by eapply Hask.
  - intros ->. by apply same_changed.
Qed.
End spaces.

(** ** Histories of address spaces *)
Record req := mk_req { r_base : Z; r_len : Z; r_writes : bool; r_executes : bool }.
Definition covers (r : req) (pa : Z) (w x : bool) : Prop := r_base r <= pa < r_base r + r_len r ∧ w = r_writes r ∧ x = r_executes r.

Section history.
Context `{Image} {Node Mask A : Type} {HP : Pool Node Mask A}.
Notation Ent := (VSpaceEnt Node Mask).
Notation K := (Kern Node Mask A).

Inductive call :=
  | Create (mask : option Mask) (node : Node)
  | Map (asid : nat) (base len : Z) (perm : UserPerm) (mask : option Mask)
  | MapRegion (asid slot : nat) (phys len : Z) (perm : UserPerm) (mask : option Mask)
  | Unmap (asid : nat) (base len : Z)
  | UnmapDma (asid : nat) (base len : Z)
  | MapWindow (asid : nat) (base len : Z) (ro : bool) (dma : option bool)
  | UnmapWindow (asid : nat) (base len : Z)
  | BindStripe (asid : nat) (i : Z)
  | Teardown (asid : nat)
  | Guard (pa : Z)
  | Unguard (pa : Z).
(** The answer is the number of a new space. *)
Definition run (c : call) : M K (option nat) :=
  match c with
  | Create mask node => o ← create_vspace_masked mask node; mret (fst <$> o)
  | Map asid base len perm mask => vspace_map_masked asid base len perm mask ≫= λ _, mret None
  | MapRegion asid slot phys len perm mask => vspace_map_user_region asid slot phys len perm mask ≫= λ _, mret None
  | Unmap asid base len => vspace_unmap asid base len ≫= λ _, mret None
  | UnmapDma asid base len => unmap_dma asid base len ≫= λ _, mret None
  | MapWindow asid base len ro dma => map_window asid base len ro dma ≫= λ _, mret None
  | UnmapWindow asid base len => unmap_window asid base len ≫= λ _, mret None
  | BindStripe asid i => vspace_bind_stripe asid i ≫= λ _, mret None
  | Teardown asid => vspace_teardown asid ≫= λ _, mret None
  | Guard pa => in_vm (guard_unmap pa) ≫= λ _, mret None
  | Unguard pa => in_vm (guard_remap pa) ≫= λ _, mret None
  end.
(** What a call asks for: the region, and the rights it ends up with.  A whole block for [Ro] and a
    window for DMA can always be written. *)
Definition asked (c : call) : option (nat * req) :=
  match c with
  | Map asid base len perm _ => Some (asid, mk_req base (Z.of_nat (rounds len) * PAGE) (writes perm) (executes perm))
  | MapRegion asid _ phys len perm _ =>
    Some (asid, mk_req phys len (writes perm || match perm with Ro => whole_block phys len | _ => false end) (executes perm))
  | MapWindow asid base len ro dma => Some (asid, mk_req base len (match dma with Some _ => true | None => negb ro end) false)
  | _ => None
  end.
(** The requests for each space since it was created. *)
Definition record (c : call) (r : option nat) (reqs : nat → list req) : nat → list req :=
  match c, r with
  | Create _ _, Some a => λ b, if (b =? a)%nat then [] else reqs b
  | _, _ => match asked c with Some (a, q) => λ b, if (b =? a)%nat then q :: reqs b else reqs b | None => reqs end
  end.
(** Regions lie in the physical address space, a slot of the window is used once, devices lie above the
    first GiB, and what is unmapped lies above the image of the kernel.  [Guard] and [Unguard] are for
    the stacks of the kernel. *)
Definition legal (c : call) (s : K) : Prop :=
  match c with
  | Map _ base len _ _ => 0 <= base ∧ 0 <= len ∧ base + len + PAGE <= 2 ^ 52
  | MapRegion asid slot phys len _ _ => 0 <= phys ∧ 0 <= len ∧ phys + len <= 2 ^ 52 ∧ (slot < 512)%nat ∧
      ∀ l1, vspace_l1 s asid = Some l1 → has (window_entry (mem (vm s)) l1 slot) P = false
  | Unmap _ base _ | UnmapDma _ base _ | UnmapWindow _ base _ => USER_RAM_MIN <= base
  | MapWindow _ base len _ None => ONE_GIB <= base ∧ 0 <= len
  | MapWindow _ base len _ (Some _) => 0 <= base ∧ 0 <= len ∧ base + len <= 2 ^ 52
  | Guard pa => 0 <= pa
  | _ => True
  end.
(** A call about one whole block finds no page table in its place. *)
Definition tidy (c : call) (s : K) : Prop :=
  match c with
  | Map asid base len _ _ | Unmap asid base len | UnmapWindow asid base len => len = ISO_REGION_SIZE →
      ∀ l2, vspace_l2 s asid = Some l2 → is_table (ld (mem (vm s)) l2 (block_index base)) = false
  | _ => True
  end.
Inductive history (ok : call → K → Prop) (s0 : K) : K → (nat → list req) → Prop :=
  | history_start : history ok s0 s0 (λ _, [])
  | history_call s reqs c r s' : history ok s0 s reqs → ok c s → run c s = Some (r, s') → history ok s0 s' (record c r reqs).

(** The memory of the kernel: the frames lent for page tables are [lent]. *)
Record pool_laws (lent : A → gset Z) : Prop := {
  law_masked : ∀ mask node, alloc_law (frame_masked mask node) lent;
  law_anywhere : alloc_law frame_anywhere lent;
  law_free : free_law free_region lent;
  law_loaded : ∀ asid a, wp (loaded_free asid) a (λ _ a', lent a' = lent a);
  law_stripe : ∀ i a, wp (release_stripe i) a (λ _ a', lent a' = lent a);
  law_iova : ∀ p a, wp (assigned_iova p) a (λ _ a', lent a' = lent a) }.
(** At boot the map of the kernel is made, no space is used and no frame is lent. *)
Definition boot (lent : A → gset Z) (s : K) : Prop :=
  brought_up (vm s) ∧ Forall (λ v, used v = false) (vspaces s) ∧ lent (pool (src (vm s))) = ∅.

(** What a user of space [asid] reaches at an address, and with which rights. *)
Definition reach (s : K) (asid : nat) (va : Z) : option (Z * bool * bool) := r ← vspace_l1 s asid; uwalk (mem (vm s)) r va.

Context (Himg : image_ok) (lent : A → gset Z) (L : pool_laws lent).
Definition held (p : Pot A) : gset Z := lent (pool p).
Lemma pot_alloc r : alloc_law r lent → alloc_law (pt_rahmen r) held.
Proof.
  intros Hr p. unfold pt_rahmen. apply wp_bind, wp_zoom. eapply wp_mono; [apply Hr|]. cbn beta. intros [q|] a; [|intros E; by apply wp_ret].
  intros (H1 & H2 & H3 & H4). apply wp_bind, wp_modify, wp_ret. done.
Qed.
Lemma pot_free : free_law free_frame held.
Proof. intros q p Hq. unfold free_frame. apply wp_zoom. eapply wp_mono; [by apply (law_free _ L)|]. by intros []. Qed.
Lemma pot_counted : free_law free_counted held.
Proof. intros q p Hq. unfold free_counted. apply wp_bind. eapply wp_mono; [by apply pot_free|]. cbn beta. intros [] p' E. by apply wp_modify. Qed.

(** *** The table and the trees *)
Record good (own : Own) (G : Grants) (s : K) : Prop := {
  g_tree : vm_ok held own G (vm s);
  g_roots : ∀ i v, vspaces s !! i = Some v → used v = true → own !! l1 v = Some (S i, Pml4) ∧ own !! l2 v = Some (S i, Pd 0 0);
  g_used : ∀ q b pl, own !! q = Some (b, pl) → ∃ i v, b = S i ∧ vspaces s !! i = Some v ∧ used v = true }.
Lemma own_root own G s q b pl : vm_ok held own G s → own !! q = Some (b, pl) → ∃ r, own !! r = Some (b, Pml4).
Proof.
  intros T Hq. assert (∀ pl pl' x, parent pl = Some (pl', x) → (∃ q, own !! q = Some (b, pl)) → ∃ r, own !! r = Some (b, pl')) as Hup.
  { intros pl1 pl2 x Hpar [r Hr]. destruct (linked_entry Himg _ _ _ _ T r b pl1 pl2 x Hr Hpar) as (p & Hp & _). by exists p. }
  assert (∀ t, (∃ q, own !! q = Some (b, Pdpt t)) → ∃ r, own !! r = Some (b, Pml4)) as H3 by (intros t Ht; by apply (Hup (Pdpt t) _ t)).
  assert (∀ t g, (∃ q, own !! q = Some (b, Pd t g)) → ∃ r, own !! r = Some (b, Pml4)) as H2 by (intros t g Ht; apply (H3 t); by apply (Hup (Pd t g) _ g)).
  destruct pl as [|t|t g|t g k]; [by exists q|apply (H3 t); by exists q|apply (H2 t g); by exists q|]. apply (H2 t g), (Hup (Pt t g k) _ k); [done|by exists q].
Qed.
Definition kchanged (own : Own) (s : K) (a : nat) (ask : Z → bool → bool → Prop) (G : Grants) (keeps : Prop) (s' : K) : Prop :=
  ∃ own' G', good own' G' s' ∧ vspaces s' = vspaces s ∧ (keeps → tight held own (vm s) → tight held own' (vm s')) ∧ grows a ask G G'.
Lemma good_after own G s own' G' vm' : good own G s → vm_ok held own' G' vm' → same_roots own own' → good own' G' (with_vm vm' s).
Proof.
  intros [T R U] T' Rs. split; [done|..].
  - intros i v Hi Hv. destruct (R i v Hi Hv) as [H1 H2]. split; apply Rs; auto.
  - intros q b pl Hq. destruct (own_root own' G' vm' q b pl T' Hq) as [r Hr]. apply Rs in Hr; [|by left]. by eapply U.
Qed.
Lemma kchanged_of own G s a ask keeps vm' : good own G s → changed held own (vm s) a ask G keeps vm' → kchanged own s a ask G keeps (with_vm vm' s).
Proof. intros Gd (own' & G' & T' & Rs & _ & Ht & Gr). exists own', G'. split_and!; try done. by eapply good_after. Qed.
Lemma same_kchanged own G s a ask keeps : good own G s → kchanged own s a ask G keeps s.
Proof. intros Gd. exists own, G. split_and!; [done..|apply grows_refl]. Qed.
Lemma wp_in_vm {B} (m : M (Vm (Pot A)) B) (s : K) Q : wp m (vm s) (λ r vm', Q r (with_vm vm' s)) → wp (in_vm m) s Q.
Proof. intros Hw. by apply wp_zoom. Qed.
Lemma root_l1 own G s asid r : good own G s → vspace_l1 s asid = Some r → own !! r = Some (asid, Pml4).
Proof.
  intros Gd. unfold vspace_l1, ent_of. destruct (Nat.eqb_spec asid 0) as [|Hne]; [done|]. cbn. destruct (vspaces s !! (asid - 1)%nat) as [v|] eqn:E; [|done]. cbn.
  destruct (used v) eqn:Hu; [|done]. intros [= <-]. destruct (g_roots _ _ _ Gd _ _ E Hu) as [H1 _]. by replace (S (asid - 1)) with asid in H1 by lia.
Qed.
Lemma root_l2 own G s asid r : good own G s → vspace_l2 s asid = Some r → own !! r = Some (asid, Pd 0 0).
Proof.
  intros Gd. unfold vspace_l2, ent_of. destruct (Nat.eqb_spec asid 0) as [|Hne]; [done|]. cbn. destruct (vspaces s !! (asid - 1)%nat) as [v|] eqn:E; [|done]. cbn.
  destruct (used v) eqn:Hu; [|done]. intros [= <-]. destruct (g_roots _ _ _ Gd _ _ E Hu) as [_ H1]. by replace (S (asid - 1)) with asid in H1 by lia.
Qed.

Lemma good_same own G s s' : vspaces s' = vspaces s → mem (vm s') = mem (vm s) → held (src (vm s')) = held (src (vm s)) → good own G s → good own G s'.
Proof. intros Ev Em Es [T R U]. split; [unfold vm_ok; by rewrite Em, Es|by rewrite Ev..]. Qed.
Lemma kchanged_same own s a ask G keeps s1 s2 : vspaces s2 = vspaces s1 → mem (vm s2) = mem (vm s1) → held (src (vm s2)) = held (src (vm s1)) →
  kchanged own s a ask G keeps s1 → kchanged own s a ask G keeps s2.
Proof.
  intros Ev Em Es (own' & G' & Gd & E & Ht & Gr). exists own', G'. split_and!; [by eapply good_same|congruence| |done].
  intros Hk Ho. unfold tight. rewrite Es. by apply Ht.
Qed.

(** *** The calls that map and unmap *)
Definition wants (c : call) (a : nat) (pa : Z) (w x : bool) : Prop := ∃ r, asked c = Some (a, r) ∧ covers r pa w x.
Definition tidy_ent (s : K) (asid : nat) (len base : Z) : Prop :=
  len = ISO_REGION_SIZE → ∀ l2, vspace_l2 s asid = Some l2 → is_table (ld (mem (vm s)) l2 (block_index base)) = false.
Lemma rounds_enough len v base : 0 <= len → 0 <= v < Z.of_nat (rounds len) * PAGE → base <= base + v < base + Z.of_nat (rounds len) * PAGE.
Proof. lia. Qed.
Lemma rounds_bound len : 0 <= len → Z.of_nat (rounds len) * PAGE <= len + PAGE.
Proof. intros Hl. unfold rounds, PAGE. rewrite Z2Nat.id by (apply Z.div_pos; lia). pose proof (Z.mul_div_le (len + 4095) 4096 ltac:(lia)). lia. Qed.
Lemma user_entries perm p : page p → (TWO_MIB | p) → perm ≠ Ro →
  let e := match perm with Rx => user_code_block p | _ => user_block p end in
  is_table e = false ∧ ∀ j, block_grant e j = grant_of (p + Z.of_nat j * PAGE) perm.
Proof.
  intros Hp Hd Hne e. split; [apply (user_block_grant p 0 perm Hp Hd)|]. intros j. destruct (user_block_grant p j perm Hp Hd) as [_ E].
  unfold e. by destruct perm.
Qed.

Lemma in_block base v : base mod TWO_MIB = 0 → page v → base <= v < base + TWO_MIB → base < GIB1_END →
  block_index v = block_index base ∧ v = base + Z.of_nat (page_index v) * PAGE ∧ v < GIB1_END.
Proof.
  intros Hmod Hv Hin Hend. apply Z.mod_divide in Hmod as [c Ec]; [|done]. unfold block_index, page_index.
  assert (v / TWO_MIB = c) as Ed by (symmetry; apply (Z.div_unique v TWO_MIB c (v - base)); [left; lia|lia]).
  assert (v mod TWO_MIB = v - base) as Em by (rewrite Z.mod_eq, Ed by done; lia). rewrite Ed, Em, Ec, Z.div_mul by done. split; [done|].
  destruct Hv as [_ [d Edv]]. assert (v - c * TWO_MIB = (d - c * 512) * PAGE) as Ez by (rewrite Edv; unfold TWO_MIB, PAGE; lia). rewrite Ez, Z.div_mul by done.
  split; [unfold PAGE in *; lia|]. change GIB1_END with (512 * TWO_MIB) in *. assert (c < 512) by (unfold TWO_MIB in *; lia). unfold TWO_MIB in *. lia.
Qed.
Lemma in_rounds base len v : base mod PAGE = 0 → page v → base <= v < base + len → ∃ i, (i < rounds len)%nat ∧ v = base + Z.of_nat i * PAGE.
Proof.
  intros Hb [_ [d Ed]] Hin. apply Z.mod_divide in Hb as [e Ee]; [|done]. exists (Z.to_nat (d - e)). split; [|rewrite Z2Nat.id; unfold PAGE in *; lia].
  unfold rounds, PAGE in *. apply Nat2Z.inj_lt. rewrite !Z2Nat.id by (first [apply Z.div_pos|idtac]; lia).
  apply Z.lt_le_trans with ((4096 * (d - e) + 4096) / 4096); [replace (4096 * (d - e) + 4096) with ((d - e + 1) * 4096) by lia; rewrite Z.div_mul by done; lia|]. apply Z.div_le_mono; lia.
Qed.
Lemma map_full own G s asid base len perm mask : good own G s → legal (Map asid base len perm mask) s →
  wp (vspace_map_masked asid base len perm mask) s (λ r s', ∃ own' G', good own' G' s' ∧ vspaces s' = vspaces s ∧
    (tidy (Map asid base len perm mask) s → tight held own (vm s) → tight held own' (vm s')) ∧ grows asid (wants (Map asid base len perm mask) asid) G G' ∧
    (r = true → base mod PAGE = 0 ∨ len = 0) ∧
    (r = true → ∀ v, page v → base <= v < base + len → USER_RAM_MIN <= v < GIB1_END ∧ G' asid 0%nat 0%nat (block_index v) (page_index v) = grant_of v perm)).
Proof.
  intros Gd (Hb & Hl & Hend). unfold vspace_map_masked. apply wp_bind, wp_gets.
  destruct (vspace_l2 s asid) as [r2|] eqn:E2; [|apply wp_ret; exists own, G; split; [done|split; [done|split; [done|split; [apply grows_refl|done]]]]].
  pose proof (root_l2 own G s asid r2 Gd E2) as Hr. pose proof (g_tree _ _ _ Gd) as T.
  set (ask := wants (Map asid base len perm mask) asid).
  assert (∀ v, base <= v < base + Z.of_nat (rounds len) * PAGE → ask v (writes perm) (executes perm)) as Hask by (intros v Hv; by exists (mk_req base (Z.of_nat (rounds len) * PAGE) (writes perm) (executes perm))).
  destruct ((len =? ISO_REGION_SIZE) && (base mod ISO_REGION_SIZE =? 0) && match perm with Ro => false | _ => true end) eqn:Hc.
  - apply andb_true_iff in Hc as [[Hlen%Z.eqb_eq Hmod%Z.eqb_eq]%andb_true_iff Hperm].
    set (f := λ p, match perm with Rx => user_code_block p | _ => user_block p end). set (x := λ p j, grant_of (p + Z.of_nat j * PAGE) perm).
    match goal with |- wp _ _ ?Q => assert (wp (in_vm (set_block f r2 base)) s Q) as Hw; [|by destruct perm] end.
    apply wp_in_vm. eapply wp_mono; [apply (set_block_spec Himg held own G (vm s) asid r2 base f x T Hr Hb)|].
    + intros p Hp Hd. apply user_entries; [done|done|]. by destruct perm.
    + intros p j pa w e. apply grant_of_wx.
    + cbn beta. intros [|] vm'; [|intros ->; exists own, G; split; [by eapply good_same; [..|exact Gd]|split; [done|split; [done|split; [apply grows_refl|done]]]]].
      intros (Hrange & _ & own' & T' & Rs & _ & Ht). exists own', (set_block_grants asid 0 0 (block_index base) (x base) G). split_and!; try done.
      * by eapply good_after.
      * intros Hti Ho. apply Ht; [|done]. by apply Hti.
      * apply grows_block. intros j pa w e Hj [= <- <- <-]. right. apply Hask. subst len. change (Z.of_nat (rounds ISO_REGION_SIZE)) with 512. unfold PAGE. lia.
      * intros _. left. destruct (block_page base Hrange Hmod) as [[_ Hpg] _]. by apply Z.mod_divide.
      * intros _ v Hv Hin. change (USER_RAM_MIN <= v < GIB1_END ∧ set_block_grants asid 0 0 (block_index base) (x base) G asid 0%nat 0%nat (block_index v) (page_index v) = grant_of v perm).
        subst len. destruct (in_block base v Hmod Hv Hin) as (-> & Ev & Hv'); [lia|]. rewrite set_block_at. split; [lia|]. unfold x. by rewrite <-Ev.
  - pose proof (rounds_bound len Hl) as Hrb. apply wp_in_vm. eapply wp_mono; [apply (map_pages_spec Himg held own G (vm s) asid r2 _ base (rounds len) perm ask T Hr Hb)|].
    + lia.
    + intros own1 G1 s1 v T1 Hr1 Hv. unfold vspace_map_page. eapply wp_mono; [apply (map_page_at_spec Himg (table_frame mask unaffiliated) held (pot_alloc _ (law_masked _ L mask unaffiliated)) own1 G1 s1 asid r2 v v perm T1 Hr1); lia|].
      cbn beta. intros [|] s'; [|by intros E; exists own1]. intros (_ & Hv' & Hp & own' & q & E & Hq & _). exists own'. split; [done|]. split; [done|]. split; [done|by exists q].
    + exact Hask.
    + cbn beta. intros r vm' (own' & G' & (T' & Rs & _ & Ht & _) & Gr & M). exists own', G'. split; [by eapply good_after|split; [done|split; [auto|split; [done|split]]]].
      * intros Hrt. destruct (decide (len = 0)) as [|Hl0]; [by right|left]. destruct (M Hrt 0%nat) as (_ & [_ Hp] & _).
        -- unfold rounds. apply Nat2Z.inj_lt. rewrite Z2Nat.id by (apply Z.div_pos; lia). apply Z.div_str_pos. lia.
        -- rewrite Z.add_0_r in Hp. by apply Z.mod_divide.
      * intros Hrt v Hv Hin. assert (0 < rounds len)%nat as Hr0 by (unfold rounds; apply Nat2Z.inj_lt; rewrite Z2Nat.id by (apply Z.div_pos; lia); apply Z.div_str_pos; lia).
        destruct (M Hrt 0%nat Hr0) as (_ & [_ Hp] & _). rewrite Z.add_0_r in Hp.
        destruct (in_rounds base len v) as (i & Hi & ->); [by apply Z.mod_divide|done|done|]. by destruct (M Hrt i Hi) as (? & _ & _ & ?).
Qed.
Lemma map_spec own G s asid base len perm mask : good own G s → legal (Map asid base len perm mask) s →
  wp (vspace_map_masked asid base len perm mask) s (λ r s', kchanged own s asid (wants (Map asid base len perm mask) asid) G (tidy (Map asid base len perm mask) s) s').
Proof.
  intros Gd Hl. eapply wp_mono; [by apply map_full|]. cbn beta. intros r s' (own' & G' & ? & ? & ? & ? & _). exists own', G'. by split_and!.
Qed.
Lemma map_region_spec own G s asid slot phys len perm mask : good own G s → legal (MapRegion asid slot phys len perm mask) s →
  wp (vspace_map_user_region asid slot phys len perm mask) s (λ _ s', kchanged own s asid (wants (MapRegion asid slot phys len perm mask) asid) G True s').
Proof.
  intros Gd (Hp & Hl & Hend & Hs & He). unfold vspace_map_user_region. apply wp_bind, wp_gets. destruct (vspace_l1 s asid) as [r1|] eqn:E1; [|apply wp_ret; by apply same_kchanged].
  apply wp_in_vm. eapply wp_mono; [apply (map_window_changed Himg (table_frame mask unaffiliated) held (pot_alloc _ (law_masked _ L mask unaffiliated)) own G (vm s) asid r1 slot phys len perm
    (wants (MapRegion asid slot phys len perm mask) asid)); try done; [apply Gd|by eapply root_l1|by apply He|]|].
  - intros v Hv. by exists (mk_req phys len (writes perm || match perm with Ro => whole_block phys len | _ => false end) (executes perm)).
  - cbn beta. intros _ vm' C. by eapply kchanged_of.
Qed.
Lemma unmap_loop_changed a l2 n : ∀ v all own G (s : Vm (Pot A)), vm_ok held own G s → own !! l2 = Some (a, Pd 0 0) → USER_RAM_MIN <= v →
  wp (unmap_loop l2 n v all) s (λ r s', ∃ G', evolves_to held own s own G' s' ∧ grows a (λ _ _ _, False) G G' ∧
    (∀ t g k j, G a t g k j = None → G' a t g k j = None) ∧
    (r = true → all = true ∧ ∀ i, (i < n)%nat → v + Z.of_nat i * PAGE < GIB1_END ∧
      G' a 0%nat 0%nat (block_index (v + Z.of_nat i * PAGE)) (page_index (v + Z.of_nat i * PAGE)) = None)).
Proof.
  induction n as [|n IH]; intros v all own G s T Hl2 Hv; cbn [unmap_loop].
  - apply wp_ret. exists G. split_and!; [by apply evolves_refl|apply grows_refl|done|]. intros ->. split; [done|]. intros i Hi. lia.
  - apply wp_bind. eapply wp_mono; [by apply (unmap_loop_step Himg held own G s a l2 v)|]. cbn beta. intros b s1 (G1 & E1 & Gr1 & K1 & N1).
    eapply wp_mono; [apply (IH (v + 4096) (if b then all else false) own G1 s1); [apply E1|done|lia]|].
    cbn beta. intros r s2 (G2 & E2 & Gr2 & K2 & N2). exists G2. split_and!; [by eapply evolves_trans|by eapply grows_trans|auto|].
    intros Hr. destruct (N2 Hr) as [Ha M2]. destruct b; [|done]. split; [done|]. intros i Hi. destruct i as [|i].
    + rewrite Z.add_0_r. destruct (N1 eq_refl) as [? ?]. auto.
    + replace (v + Z.of_nat (S i) * PAGE) with (v + 4096 + Z.of_nat i * PAGE) by (unfold PAGE; lia). apply M2. lia.
Qed.
Lemma unmap_dma_spec own G s asid base len ask : good own G s → USER_RAM_MIN <= base →
  wp (unmap_dma asid base len) s (λ _ s', kchanged own s asid ask G True s').
Proof.
  intros Gd Hb. unfold unmap_dma. apply wp_bind, wp_gets. destruct (vspace_l2 s asid) as [r2|] eqn:E2; [|apply wp_ret; by apply same_kchanged].
  apply wp_in_vm. eapply wp_mono; [apply (unmap_loop_changed asid r2 (rounds len) base true own G (vm s)); [apply Gd|by eapply root_l2|done]|].
  cbn beta. intros _ vm' (G' & E & Gr & _). eapply kchanged_of; [done|]. eapply changed_of; [done|]. eapply grows_mono; [|exact Gr]. by intros ???[].
Qed.
Lemma unmap_spec own G s asid base len ask : good own G s → USER_RAM_MIN <= base →
  wp (vspace_unmap asid base len) s (λ _ s', kchanged own s asid ask G (tidy (Unmap asid base len) s) s').
Proof.
  intros Gd Hb. unfold vspace_unmap. apply wp_bind, wp_gets. destruct (vspace_l2 s asid) as [r2|] eqn:E2; [|apply wp_ret; by apply same_kchanged].
  pose proof (root_l2 own G s asid r2 Gd E2) as Hr. pose proof (g_tree _ _ _ Gd) as T.
  destruct ((len =? ISO_REGION_SIZE) && (base mod ISO_REGION_SIZE =? 0)) eqn:Hc.
  - apply andb_true_iff in Hc as [Hlen%Z.eqb_eq _]. unfold vspace_unmap_block. apply wp_in_vm.
    eapply wp_mono; [apply (set_block_changed Himg held own G (vm s) asid r2 base kernel_block (λ _ _, None) ask T Hr); try done; [unfold USER_RAM_MIN in Hb; lia|]|].
    + intros p Hp Hd. split; [apply (kernel_block_grant p 0 Hp)|]. intros j. apply (kernel_block_grant p j Hp).
    + cbn beta. intros _ vm' C. eapply kchanged_of; [done|]. eapply changed_mono; [by intros|..|exact C]. intros Ht. by apply Ht.
  - apply wp_in_vm. eapply wp_mono; [apply (unmap_loop_changed asid r2 (rounds len) base true own G (vm s)); done|].
    cbn beta. intros _ vm' (G' & E & Gr & _). eapply kchanged_of; [done|]. eapply changed_of; [done|]. eapply grows_mono; [|exact Gr]. by intros ???[].
Qed.
Lemma map_window_spec own G s asid base len ro dma : good own G s → legal (MapWindow asid base len ro dma) s →
  wp (map_window asid base len ro dma) s (λ _ s', kchanged own s asid (wants (MapWindow asid base len ro dma) asid) G True s').
Proof.
  intros Gd Hleg. unfold map_window. destruct ((len =? 0) || negb (len mod 4096 =? 0)) eqn:Hc; [apply wp_ret; by apply same_kchanged|].
  apply orb_false_iff in Hc as [Hn1%Z.eqb_neq Hnm%negb_false_iff%Z.eqb_eq]. pose proof (g_tree _ _ _ Gd) as T.
  set (ask := wants (MapWindow asid base len ro dma) asid). apply wp_bind.
  assert (∀ v, base <= v < base + len → ask v (match dma with Some _ => true | None => negb ro end) false) as Hask
    by (intros v Hv; by exists (mk_req base len (match dma with Some _ => true | None => negb ro end) false)).
  apply (wp_mono _ _ (λ _ s', kchanged own s asid ask G True s')).
  - unfold map_region. destruct dma as [coherent|].
    + destruct Hleg as (Hb & Hl & Hend). apply wp_bind, wp_gets. destruct (vspace_l2 s asid) as [r2|] eqn:E2; [|apply wp_ret; by apply same_kchanged].
      pose proof (root_l2 own G s asid r2 Gd E2) as Hr. apply wp_in_vm. unfold vspace_map_dma. change PAGE with 4096. rewrite (proj2 (Z.eqb_neq _ _)), Hnm by done. cbn [negb orb Z.eqb].
      apply Z.mod_divide in Hnm as [c Ec]; [|done]. assert (Z.of_nat (Z.to_nat (len / 4096)) * PAGE = len) as En by (rewrite Ec, Z.div_mul by done; unfold PAGE; lia).
      eapply wp_mono; [apply (map_pages_spec Himg held own G (vm s) asid r2 _ base (Z.to_nat (len / 4096)) Rw ask T Hr Hb)|].
      * lia.
      * intros own1 G1 s1 v T1 Hr1 Hv. by apply (map_dma_page_spec Himg (pt_rahmen frame_anywhere) held (pot_alloc _ (law_anywhere _ L)) own1 G1 s1 asid r2 v coherent).
      * intros v Hv. apply Hask. lia.
      * cbn beta. intros _ vm' (own' & G' & E & Gr & _). eapply kchanged_of; [done|]. by eapply changed_of.
    + destruct Hleg as (Hb & Hl). apply wp_bind, wp_gets. destruct (vspace_l1 s asid) as [r1|] eqn:E1; [|apply wp_ret; by apply same_kchanged].
      apply wp_in_vm. eapply wp_mono; [apply (map_device_spec Himg (pt_rahmen frame_anywhere) held (pot_alloc _ (law_anywhere _ L)) own G (vm s) asid r1 base len ro ask); try done; by eapply root_l1|].
      cbn beta. intros _ vm' (own' & G' & E & Gr & _). eapply kchanged_of; [done|]. by eapply changed_of.
  - cbn beta. intros [|] s1 C; cbn [negb]; [|by apply wp_ret]. destruct dma; [|by apply wp_ret]. apply wp_bind. apply wp_in_vm, wp_zoom, wp_zoom.
    eapply wp_mono; [apply (law_iova _ L)|]. cbn beta. intros o a E. apply wp_ret. by eapply kchanged_same; [..|exact C].
Qed.

(** *** Creating a space *)
Definition used_in (s : K) (b : nat) : Prop := ∃ i v, b = S i ∧ vspaces s !! i = Some v ∧ used v = true.
Lemma free_frames (l : list Z) (s : K) : NoDup l → (∀ q, q ∈ l → q ∈ held (src (vm s))) → ∀ i,
  wp (undo i l) s (λ _ s', mem (vm s') = mem (vm s) ∧ held (src (vm s')) = held (src (vm s)) ∖ list_to_set l ∧
    vspaces s' = alter (λ v, mk_ent false (l1 v) (l2 v) (stripe v) (node v) (cmask v)) i (vspaces s)).
Proof.
  intros Hnd Hin i. unfold undo. apply wp_bind, wp_in_vm, wp_zoom.
  assert (∀ l p, NoDup l → (∀ q, q ∈ l → q ∈ held p) → wp (fold_right (λ q m, free_frame q ≫= λ _, m) (mret tt) l) p (λ _ p', held p' = held p ∖ list_to_set l)) as Hl.
  { clear Hnd Hin l. intros l. induction l as [|q l IH]; intros p Hnd Hin; cbn.
    - apply wp_ret. by rewrite difference_empty_L.
    - apply NoDup_cons in Hnd as [Hq Hnd]. apply wp_bind. eapply wp_mono; [apply pot_free; apply Hin; by left|]. cbn beta. intros [] p1 E1.
      eapply wp_mono; [apply (IH p1 Hnd)|].
      + intros r Hr. rewrite E1. apply elem_of_difference. split; [apply Hin; by right|]. rewrite elem_of_singleton. by intros ->.
      + cbn beta. intros _ p2 E2. rewrite E2, E1. by rewrite difference_difference_l_L. }
  eapply wp_mono; [by apply Hl|]. cbn beta. intros _ p' E. apply wp_bind, wp_in_vm, wp_zoom, wp_modify. by split_and!.
Qed.
Lemma alter_unused (l : list Ent) i : (∃ v, l !! i = Some v ∧ used v = false) → ∀ w j v, used v = true →
  alter (λ v, mk_ent false (l1 v) (l2 v) (stripe v) (node v) (cmask v)) i (<[i := w]> l) !! j = Some v ↔ l !! j = Some v.
Proof.
  intros (v0 & Hi & Hu) w j v Hv. destruct (decide (i = j)) as [->|Hne].
  - rewrite list_lookup_alter_eq, list_lookup_insert_eq by (by eapply lookup_lt_Some). cbn. rewrite Hi. split; intros [= <-]; [done|congruence].
  - by rewrite list_lookup_alter_ne, list_lookup_insert_ne.
Qed.
Lemma create_failed own G s s' i w : good own G s → (∃ v, vspaces s !! i = Some v ∧ used v = false) → mem (vm s') = mem (vm s) → held (src (vm s')) = held (src (vm s)) →
  vspaces s' = alter (λ v, mk_ent false (l1 v) (l2 v) (stripe v) (node v) (cmask v)) i (<[i := w]> (vspaces s)) → good own G s'.
Proof.
  intros [T R U] Hi Em Es Ev. split; [unfold vm_ok; by rewrite Em, Es| |].
  - intros j v Hj Hv. rewrite Ev in Hj. apply alter_unused in Hj; [|done|done]. by apply R.
  - intros q b pl Hq. destruct (U q b pl Hq) as (j & v & -> & Hj & Hv). exists j, v. split_and!; [done| |done]. rewrite Ev. by apply alter_unused.
Qed.
Lemma used_alter s s' i w : (∃ v, vspaces s !! i = Some v ∧ used v = false) →
  vspaces s' = alter (λ v, mk_ent false (l1 v) (l2 v) (stripe v) (node v) (cmask v)) i (<[i := w]> (vspaces s)) → ∀ b, used_in s' b → used_in s b.
Proof. intros Hi Ev b (j & v & -> & Hj & Hv). exists j, v. split_and!; [done| |done]. rewrite Ev in Hj. by apply alter_unused in Hj. Qed.
Lemma create_done own G s i v0 w own' s' : good own G s → vspaces s !! i = Some v0 → used v0 = false → used w = true →
  vm_ok held own' (no_grants (S i) G) (vm s') → own' !! l1 w = Some (S i, Pml4) → own' !! l2 w = Some (S i, Pd 0 0) → own ⊆ own' →
  (∀ q b pl, own' !! q = Some (b, pl) → own !! q = Some (b, pl) ∨ b = S i) → vspaces s' = <[i := w]> (vspaces s) →
  good own' (no_grants (S i) G) s' ∧ ∀ b, used_in s' b → b = S i ∨ used_in s b.
Proof.
  intros [T R U] Hi Hu Hw T' H1 H2 Ho Hn Ev. pose proof (lookup_lt_Some _ _ _ Hi) as Hlt. split; [split; [done|..]|].
  - intros j v Hj Hv. rewrite Ev in Hj. destruct (decide (i = j)) as [<-|]; [rewrite list_lookup_insert_eq in Hj by done; by injection Hj as <-|].
    rewrite list_lookup_insert_ne in Hj by done. destruct (R j v Hj Hv). split; by eapply lookup_weaken.
  - intros q b pl Hq. rewrite Ev. destruct (Hn q b pl Hq) as [Hq'| ->].
    + destruct (U q b pl Hq') as (j & v & -> & Hj & Hv). exists j, v. split_and!; [done| |done]. rewrite list_lookup_insert_ne; [done|]. intros ->. congruence.
    + exists i, w. by rewrite list_lookup_insert_eq.
  - intros b (j & v & -> & Hj & Hv). rewrite Ev in Hj. destruct (decide (i = j)) as [<-|]; [by left|]. right. exists j, v. by rewrite list_lookup_insert_ne in Hj.
Qed.
Lemma reserve_spec mask node s : wp (reserve mask node) s (λ o s', match o with
  | Some i => (∃ v, vspaces s !! i = Some v ∧ used v = false) ∧ (i < max_asid)%nat ∧ s' = with_vspaces (<[i := mk_ent true 0 0 None node mask]> (vspaces s)) s
  | None => s' = s end).
Proof.
  unfold reserve. apply wp_bind, wp_gets. cbn [id]. destruct (position _ _) as [i|] eqn:E; [|by apply wp_ret].
  apply wp_bind, wp_modify, wp_ret. apply position_Some in E as [(v & Hv & Hu) _]. apply lookup_take_Some in Hv as [Hv Hi]. split; [|split; [lia|done]].
  exists v. split; [done|]. by apply negb_true_iff in Hu.
Qed.
(** A failure after frames were lent gives them back. *)
Lemma undo_spec own G s s1 i w l : good own G s → (∃ v, vspaces s !! i = Some v ∧ used v = false) → vspaces s1 = <[i := w]> (vspaces s) → mem (vm s1) = mem (vm s) →
  NoDup l → (∀ q, q ∈ l → q ∉ held (src (vm s))) → held (src (vm s1)) = list_to_set l ∪ held (src (vm s)) →
  wp (undo i l) s1 (λ _ s', good own G s' ∧ (∀ b, used_in s' b → used_in s b) ∧ (tight held own (vm s) → tight held own (vm s'))).
Proof.
  intros Gd Hi Ev Em Hnd Hl Es. eapply wp_mono; [apply (free_frames l s1 Hnd)|].
  - intros q Hq. rewrite Es. apply elem_of_union_l. by apply elem_of_list_to_set.
  - cbn beta. intros _ s' (Em' & Es' & Ev'). rewrite Ev in Ev'. assert (held (src (vm s')) = held (src (vm s))) as E.
    { rewrite Es', Es. apply set_eq. intros q. rewrite elem_of_difference, elem_of_union, elem_of_list_to_set. split; [tauto|]. intros Hq. split; [by right|]. intros Hq'. by apply (Hl q). }
    split_and!; [|by apply (used_alter s s' i w)|unfold tight; by rewrite E].
    apply (create_failed own G s s' i w Gd Hi); [congruence|done|done].
Qed.
Lemma create_spec own G s mask node : good own G s → wp (create_vspace_masked mask node) s (λ r s', match r with
  | Some (n, _) => ∃ own', ¬ used_in s n ∧ good own' (no_grants n G) s' ∧ (∀ b, used_in s' b → b = n ∨ used_in s b) ∧ (tight held own (vm s) → tight held own' (vm s'))
  | None => good own G s' ∧ (∀ b, used_in s' b → used_in s b) ∧ (tight held own (vm s) → tight held own (vm s')) end).
Proof.
  intros Gd. pose proof (g_tree _ _ _ Gd) as T. pose proof (pot_alloc _ (law_masked _ L mask node)) as Ha. unfold create_vspace_masked.
  apply wp_bind. eapply wp_mono; [apply reserve_spec|]. cbn beta. intros [i|] s1; [|intros ->; by apply wp_ret]. intros (Hi & Hmax & ->).
  set (w := mk_ent true 0 0 None node mask). set (s1 := with_vspaces _ s).
  apply wp_bind, wp_in_vm, (wp_frame _ held Ha).
  2: { intros vm1 Es1 Em1. apply wp_bind, wp_in_vm, (wp_frame _ held Ha).
    - intros q vm2 _ _ Hq Es2 Em2. apply wp_bind. eapply wp_mono; [apply (undo_spec own G s _ i w [q] Gd Hi); try done|cbn beta; intros _ s' Hs'; by apply wp_ret].
      + cbn in *. congruence.
      + apply NoDup_singleton.
      + intros q' ->%list_elem_of_singleton. cbn in *. congruence.
      + cbn in *. rewrite Es2, Es1. set_solver.
    - intros vm2 Es2 Em2. apply wp_bind. eapply wp_mono; [apply (undo_spec own G s _ i w [] Gd Hi); try done|cbn beta; intros _ s' Hs'; by apply wp_ret].
      + cbn in *. congruence.
      + apply NoDup_nil_2.
      + intros q' Hq'. by apply not_elem_of_nil in Hq'.
      + cbn in *. rewrite Es2, Es1. set_solver. }
  intros a vm1 Pa Sa Ha1 Es1 Em1. apply wp_bind, wp_in_vm, (wp_frame _ held Ha).
  2: { intros vm2 Es2 Em2. apply wp_bind. eapply wp_mono; [apply (undo_spec own G s _ i w [a] Gd Hi); try done|cbn beta; intros _ s' Hs'; by apply wp_ret].
    - cbn in *. congruence.
    - apply NoDup_singleton.
    - by intros q' ->%list_elem_of_singleton.
    - cbn in *. rewrite Es2, Es1. set_solver. }
  intros b vm2 Pb Sb Hb Es2 Em2. apply wp_bind, wp_in_vm. cbn in Es1, Em1, Es2, Em2. change (vm s1) with (vm s) in *. cbn [vm with_vm].
  assert (a ≠ b) as Hab by (intros ->; apply Hb; cbn; rewrite Es1; set_solver).
  assert (b ∉ held (src (vm s))) as Hb1 by (intros ?; apply Hb; cbn; rewrite Es1; set_solver).
  assert (vm_ok held own G vm2) as T2 by (unfold vm_ok; rewrite Em2, Em1; eapply tree_held; [|exact T]; rewrite Es2, Es1; set_solver).
  assert (own !! a = None ∧ own !! b = None) as [Oa Ob] by (split; by apply (fresh_unowned held own G (vm s))).
  destruct Hi as (v0 & Hi & Hu0).
  assert (¬ used_in s (S i)) as Hnu by (intros (j & v & [= <-] & Hj & Hv); congruence).
  assert (∀ r pl, own !! r ≠ Some (S i, pl)) as Hno by (intros r pl Hr; apply Hnu; by eapply g_used).
  eapply wp_mono; [apply (create_base_spec Himg (table_frame mask node) held Ha own G vm2 (S i) a b T2 Hno Hab)|].
  { apply Forall_cons_2; [split_and!; try done; rewrite Es2, Es1; set_solver|]. apply Forall_cons_2; [split_and!; try done; rewrite Es2; set_solver|apply Forall_nil_2]. }
  cbn beta. intros [|] vm3.
  - intros (own' & q & T' & -> & Hq & Es3 & _). apply wp_bind, wp_modify, wp_ret. assert (a ≠ q ∧ b ≠ q) as [Naq Nbq] by (split; intros ->; apply Hq; rewrite Es2, ?Es1; set_solver).
    assert (own !! q = None) as Oq by (by apply (fresh_unowned held own G vm2)).
    set (own' := <[a := _]> _) in *. exists own'. split; [done|].
    match goal with |- good _ _ ?x ∧ _ => set (s3 := x) end.
    edestruct (create_done own G s i v0 (mk_ent true a b None node mask) own' s3) as [Gd' Hu'];
      [exact Gd|exact Hi|exact Hu0|done|exact T'|apply lookup_insert_eq| | | | |split; [exact Gd'|split; [exact Hu'|]]].
    + unfold own'. rewrite !lookup_insert_ne by done. apply lookup_insert_eq.
    + unfold own'. etrans; [by apply (insert_subseteq own b (S i, Pd 0 0))|]. etrans; [apply (insert_subseteq _ q (S i, Pdpt 0)); by rewrite lookup_insert_ne|].
        apply insert_subseteq. by rewrite !lookup_insert_ne.
    + intros r c pl. unfold own'. rewrite !lookup_insert_Some. intros [[_ [= <- _]]|[_ [[_ [= <- _]]|[_ [[_ [= <- _]]|[_ ?]]]]]]; auto.
    + cbn. by rewrite list_insert_insert_eq.
    + intros Ht. unfold tight in *. cbn. unfold own'. rewrite Es3, Es2, Es1, !dom_insert_L, Ht. set_solver.
  - intros [Es3 Em3]. apply wp_bind. eapply wp_mono; [apply (undo_spec own G s _ i w [a; b] Gd); try done; [by exists v0|..]|cbn beta; intros _ s' Hs'; by apply wp_ret].
    + cbn. congruence.
    + apply NoDup_cons. split; [by rewrite list_elem_of_singleton|apply NoDup_singleton].
    + intros q' [->| ->%list_elem_of_singleton]%elem_of_cons; done.
    + cbn. rewrite Es3, Es2, Es1. set_solver.
Qed.

(** *** Taking a space down *)
Lemma wp_count {B} (m : M (Pot A) B) (s : Vm (Pot A)) Q : wp m (src s) (λ r p, Q r (with_src p s)) → wp (zoom src with_src m) s Q.
Proof. intros Hw. by apply wp_zoom. Qed.
Lemma drained_count own s0 a f (s : Vm (Pot A)) p : held p = held (src s) → drained held own s0 a f s → drained held own s0 a f (with_src p s).
Proof. intros E [D1 D2]. split; [|done]. intros q. cbn. rewrite E. apply D1. Qed.
Lemma give_back_spec own G s a ent : vm_ok held own G s → own !! l1 ent = Some (a, Pml4) → own !! l2 ent = Some (a, Pd 0 0) →
  wp (give_back ent) s (λ _ s', drained held own s a (λ _, True) s').
Proof.
  intros T H1 H2. unfold give_back. apply wp_bind, wp_count, wp_modify. set (s1 := with_src _ s).
  assert (drained held own s a (λ _, False) s1) as D1 by (apply drained_count; [done|]; split; [intros q; split; [intros Hq; split; [done|by intros ???]|by intros []]|done]).
  assert (l1 ent ≠ l2 ent) as Hne by (intros E; congruence).
  apply wp_bind. eapply wp_mono; [apply (collect_l3s_spec Himg free_counted held pot_counted own G s a T (λ _, False) s1 (l2 ent) D1 H2); [by intros i []|done]|].
  cbn beta. intros _ s2 [D2 M2]. assert (∀ q pl i, own !! q = Some (a, pl) → pl ≠ Pd 0 0 → ld (mem s2) q i = ld (mem s) q i) as N2.
  { intros q pl i Hq Hpl. rewrite M2; [done|]. intros ->. congruence. }
  apply wp_bind. eapply wp_mono; [apply (collect_device_spec Himg free_counted held pot_counted own G s a T _ s2 (l1 ent) D2 H1)|].
  { intros x Hx [[]|(k & -> & _)]. destruct Hx as [?|(g & [?|(k' & E)] & ?)]; [done|done|]. injection E as <- _. lia. }
  { intros q pl i Hq Hpl. eapply N2; [exact Hq|]. intros ->. destruct Hpl as [?|[?|(g & [E|(k' & ?)] & ?)]]; [done|done| |done]. injection E as <-. lia. }
  cbn beta. intros _ s3 [D3 M3].
  apply wp_bind. eapply wp_mono; [apply (collect_window_spec Himg free_counted held pot_counted own G s a T _ s3 (l1 ent) D3 H1)|].
  { intros x Hx [[[]|(k & -> & _)]|[->|(g & Hg & _)]].
    - destruct Hx as [?|[?|(k' & ?)]]; done.
    - destruct Hx as [?|[?|(k' & ?)]]; done.
    - destruct Hx as [->|[->|(k' & ->)]], Hg as [?|(k2 & ?)]; done. }
  { intros q pl i Hq Hi Hpl. rewrite (M3 q pl i Hq Hi).
    - eapply N2; [exact Hq|]. by destruct Hpl as [->|[->| ->]].
    - destruct Hpl as [->|[->| ->]]; eauto. }
  cbn beta. intros _ s4 D4. apply wp_bind. eapply wp_mono; [apply (release_step free_frame held pot_free own G s a T _ s4 (l1 ent) Pml4 D4 H1)|].
  { intros [[[[]|(k & ? & _)]|[?|(g & [?|(k & ?)] & _)]]|[?|[?|(k & ?)]]]; done. }
  cbn beta. intros _ s5 [D5 _]. apply wp_bind. eapply wp_mono; [apply (release_step free_frame held pot_free own G s a T _ s5 (l2 ent) (Pd 0 0) D5 H2)|].
  { intros [[[[[]|(k & ? & _)]|[?|(g & [E|(k & ?)] & ?)]]|[?|[?|(k & ?)]]]|?]; try done. injection E as <-. lia. }
  cbn beta. intros _ s6 [D6 _]. apply wp_count, wp_bind, wp_gets, wp_modify. apply drained_count; [done|].
  eapply drained_ext; [|exact D6]. intros q pl Hq. split; [done|]. intros _. destruct (places Himg held own G s a T q pl Hq) as [?|[?|[?|[?|?]]]]; tauto.
Qed.
Lemma drained_tree own G s a (s' : Vm (Pot A)) : vm_ok held own G s → drained held own s a (λ _, True) s' →
  let own' := filter (λ x, x.2.1 ≠ a) own in vm_ok held own' (no_grants a G) s' ∧ (tight held own s → tight held own' s').
Proof.
  intros T [D1 D2] own'. split.
  - apply (tree_drop Himg own G (mem s) (held (src s)) T a (mem s') (held (src s'))).
    + intros r y i Hr Hy. apply D2. intros pl Hpl. rewrite Hr in Hpl. by injection Hpl as ->.
    + intros p i Hp. apply D2. intros pl Hpl. apply (t_frames _ _ _ _ T) in Hpl as (_ & ? & _). congruence.
    + intros r y Hr Hy. apply D1. split; [by apply (t_frames _ _ _ _ T r y Hr)|]. intros pl Hpl. rewrite Hr in Hpl. injection Hpl as ->. done.
  - unfold tight. intros E. apply set_eq. intros q. rewrite D1, <-E, !elem_of_dom. unfold is_Some, own'. setoid_rewrite map_lookup_filter_Some. split.
    + intros ([b pl] & Hq & Hb). split; [by exists (b, pl)|]. intros pl' Hpl'. cbn in Hb. congruence.
    + intros [[[b pl] Hq] Hn]. exists (b, pl). split; [done|]. cbn. intros ->. by eapply Hn.
Qed.
Lemma teardown_spec own G s asid : good own G s → wp (vspace_teardown asid) s (λ _ s', ∃ own' G', good own' G' s' ∧ ¬ used_in s' asid ∧
  (∀ b, used_in s' b → used_in s b) ∧ (∀ b t g k j, b ≠ asid → G' b t g k j = G b t g k j) ∧ (tight held own (vm s) → tight held own' (vm s'))).
Proof.
  intros Gd. unfold vspace_teardown. apply wp_bind, wp_gets. destruct (ent_of s asid) as [v|] eqn:Ev.
  2: { apply wp_ret. exists own, G. split_and!; try done. intros (i & v & -> & Hi & _). unfold ent_of in Ev. cbn in Ev. rewrite Nat.sub_0_r in Ev. congruence. }
  assert (asid = S (asid - 1) ∧ vspaces s !! (asid - 1)%nat = Some v) as [Ea Hv] by (unfold ent_of in Ev; destruct (Nat.eqb_spec asid 0); [done|split; [lia|done]]).
  apply wp_bind, wp_in_vm, wp_count, wp_zoom. eapply wp_mono; [apply (law_loaded _ L)|]. cbn beta. intros _ p1 Ep.
  set (s1 := with_vm _ s). assert (good own G s1) as Gd1 by (by apply (good_same own G s)). apply wp_bind, wp_gets. cbn [id].
  change (ent_of s1 asid) with (ent_of s asid). rewrite Ev. apply wp_bind.
  apply (wp_mono _ _ (λ _ s2, ∃ own' G', vm_ok held own' G' (vm s2) ∧ vspaces s2 = vspaces s ∧ (∀ q b pl, own' !! q = Some (b, pl) ↔ own !! q = Some (b, pl) ∧ b ≠ asid) ∧
    (∀ b t g k j, b ≠ asid → G' b t g k j = G b t g k j) ∧ (tight held own (vm s) → tight held own' (vm s2)))).
  - destruct (used v) eqn:Hu.
    + destruct (g_roots _ _ _ Gd1 _ _ Hv Hu) as [H1 H2]. rewrite <-Ea in H1, H2. apply wp_in_vm.
      eapply wp_mono; [apply (give_back_spec own G (vm s1) asid v (g_tree _ _ _ Gd1) H1 H2)|]. cbn beta. intros _ vm2 D.
      destruct (drained_tree own G (vm s1) asid vm2 (g_tree _ _ _ Gd1) D) as [T2 K2]. exists (filter (λ x, x.2.1 ≠ asid) own), (no_grants asid G). split_and!; try done.
      * intros q b pl. by rewrite map_lookup_filter_Some.
      * intros b t g k j Hb. unfold no_grants. by rewrite (proj2 (Nat.eqb_neq b asid) Hb).
      * intros Ht. apply K2. unfold tight in *. cbn. unfold held at 1. cbn. rewrite Ep. done.
    + apply wp_ret. exists own, G. split_and!; try done; [apply Gd1| |].
      * intros q b pl. split; [|by intros [? _]]. intros Hq. split; [done|]. intros ->. destruct (g_used _ _ _ Gd _ _ _ Hq) as (i & w & -> & Hi & Hw).
        cbn in Hv. rewrite Nat.sub_0_r in Hv. congruence.
      * unfold tight. intros ->. unfold held. cbn. by rewrite Ep.
  - cbn beta. intros _ s2 (own' & G' & T' & Ev2 & Ho & Hg & Ht). apply wp_bind, wp_modify.
    set (s3 := with_vspaces _ s2). pose proof (lookup_lt_Some _ _ _ Hv) as Hlt.
    assert (∀ i w, vspaces s3 !! i = Some w → used w = true → S i ≠ asid ∧ vspaces s !! i = Some w) as Hback.
    { intros i w Hi Hw. cbn in Hi. rewrite Ev2 in Hi. destruct (decide (asid - 1 = i)%nat) as [<-|Hne].
      - rewrite list_lookup_insert_eq in Hi by done. injection Hi as <-. done.
      - rewrite list_lookup_insert_ne in Hi by done. split; [lia|done]. }
    assert (good own' G' s3) as Gd3.
    { split; [done|..].
      - intros i w Hi Hw. destruct (Hback i w Hi Hw) as [Hne Hi']. destruct (g_roots _ _ _ Gd _ _ Hi' Hw) as [H1 H2]. split; apply Ho; by split.
      - intros q b pl Hq. apply Ho in Hq as [Hq Hb]. destruct (g_used _ _ _ Gd _ _ _ Hq) as (i & w & -> & Hi & Hw). exists i, w. split_and!; [done| |done].
        cbn. rewrite Ev2, list_lookup_insert_ne; [done|lia]. }
    assert (¬ used_in s3 asid ∧ ∀ b, used_in s3 b → used_in s b) as [Hn Hb].
    { split; [intros (i & w & E & Hi & Hw); by destruct (Hback i w Hi Hw) as [? _]|]. intros b (i & w & -> & Hi & Hw). destruct (Hback i w Hi Hw) as [_ ?]. by exists i, w. }
    destruct (stripe v) as [i|]; [|apply wp_ret; by exists own', G'].
    apply wp_in_vm, wp_count, wp_zoom. eapply wp_mono; [apply (law_stripe _ L)|]. cbn beta. intros _ p Ep3. exists own', G'. split_and!; try done.
    + by apply (good_same own' G' s3).
    + intros E. unfold tight in *. rewrite (Ht E). unfold held. cbn. by rewrite Ep3.
Qed.

(** *** Every history *)
Definition inv (exact : Prop) (reqs : nat → list req) (s : K) : Prop := ∃ own G, good own G s ∧ (exact → tight held own (vm s)) ∧
  ∀ b t g k j pa w x, used_in s b → (j < 512)%nat → G b t g k j = Some (pa, w, x) → ∃ r, r ∈ reqs b ∧ covers r pa w x.
Lemma inv_changed (exact : Prop) reqs own G s c a (keeps : Prop) s' : good own G s → (exact → tight held own (vm s)) →
  (∀ b t g k j pa w x, used_in s b → (j < 512)%nat → G b t g k j = Some (pa, w, x) → ∃ r, r ∈ reqs b ∧ covers r pa w x) →
  (∀ r b, r ∈ reqs b → r ∈ record c None reqs b) → (∀ q, asked c = Some (a, q) → q ∈ record c None reqs a) →
  (exact → keeps) → kchanged own s a (wants c a) G keeps s' → inv exact (record c None reqs) s'.
Proof.
  intros Gd Ht Hr Hmono Hnew Hk (own' & G' & Gd' & Ev & Ht' & [Go Ga]). exists own', G'. split_and!; [done|auto|].
  intros b t g k j pa w x (i & v & -> & Hi & Hv) Hj HG. assert (used_in s (S i)) as Hu by (exists i, v; by rewrite <-Ev).
  destruct (decide (S i = a)) as [<-|Hne].
  - destruct (Ga t g k j pa w x Hj HG) as [HG'|(q & Hq & Hc)]; [|by exists q; split; [apply Hnew|]].
    destruct (Hr _ _ _ _ _ _ _ _ Hu Hj HG') as (r & Hr1 & Hr2). exists r. split; [by apply Hmono|done].
  - rewrite Go in HG by done. destruct (Hr _ _ _ _ _ _ _ _ Hu Hj HG) as (r & Hr1 & Hr2). exists r. split; [by apply Hmono|done].
Qed.
Lemma record_mono c reqs r b : r ∈ reqs b → r ∈ record c None reqs b.
Proof. intros Hr. unfold record. destruct c; cbn; try done; destruct (b =? _)%nat; try done; by right. Qed.
Lemma record_new c reqs a q : asked c = Some (a, q) → q ∈ record c None reqs a.
Proof. destruct c; cbn; try done; intros [= <- <-]; rewrite Nat.eqb_refl; by left. Qed.
Lemma bind_spec own G s asid i : good own G s → wp (vspace_bind_stripe asid i) s (λ _ s', good own G s' ∧ vm s' = vm s ∧ ∀ b, used_in s' b → used_in s b).
Proof.
  intros Gd. apply wp_modify. unfold ent_of. destruct (Nat.eqb_spec asid 0) as [|Hne]; [done|]. destruct (vspaces s !! (asid - 1)%nat) as [v|] eqn:Hv; [|done].
  pose proof (lookup_lt_Some _ _ _ Hv) as Hlt. set (s' := with_vspaces _ s).
  assert (∀ j w, vspaces s' !! j = Some w → ∃ w', vspaces s !! j = Some w' ∧ used w' = used w ∧ l1 w' = l1 w ∧ l2 w' = l2 w) as Hback.
  { intros j w Hj. cbn in Hj. destruct (decide (asid - 1 = j)%nat) as [<-|]; [rewrite list_lookup_insert_eq in Hj by done; injection Hj as <-; by exists v|].
    rewrite list_lookup_insert_ne in Hj by done. by exists w. }
  split; [split; [apply Gd| |]|split; [done|]].
  - intros j w Hj Hw. destruct (Hback j w Hj) as (w' & Hj' & Eu & <- & <-). apply (g_roots _ _ _ Gd); congruence.
  - intros q b pl Hq. destruct (g_used _ _ _ Gd q b pl Hq) as (j & w & -> & Hj & Hw). destruct (decide (asid - 1 = j)%nat) as [<-|Hj'].
    + exists (asid - 1)%nat, (mk_ent (used v) (l1 v) (l2 v) (Some i) (node v) (cmask v)). cbn. rewrite list_lookup_insert_eq by done. split_and!; congruence.
    + exists j, w. cbn. by rewrite list_lookup_insert_ne.
  - intros b (j & w & -> & Hj & Hw). destruct (Hback j w Hj) as (w' & Hj' & Eu & _). exists j, w'. split_and!; congruence.
Qed.
(** Guards change nothing that belongs to a space. *)
Lemma guarded_inv exact reqs (s s' : K) vm' : inv exact reqs s → guarded (vm s) vm' → s' = with_vm vm' s → inv exact reqs s'.
Proof.
  intros (own & G & [T R U] & Ht & Hr) (Hm & _ & Es) ->. exists own, G. split_and!; [|unfold tight in *; cbn; by rewrite Es|exact Hr].
  split; [|exact R|exact U]. unfold vm_ok. cbn. rewrite Es. by eapply (only_map_tree Himg).
Qed.
Definition guards_there (s : K) : Prop := length (guard_of (vm s)) = GUARD_BLOCKS.
Lemma step_inv (exact : Prop) c reqs s : inv exact reqs s → guards_there s → legal c s → (exact → tidy c s) → wp (run c) s (λ r s', inv exact (record c r reqs) s').
Proof.
  intros (own & G & Gd & Ht & Hr) Hlen Hleg Htidy.
  assert (∀ (m : M K bool) a keeps, (exact → keeps) → wp m s (λ _ s', kchanged own s a (wants c a) G keeps s') → wp (m ≫= λ _, mret None) s (λ r s', inv exact (record c r reqs) s')) as Hmap.
  { intros m a keeps Hk Hw. apply wp_bind. eapply wp_mono; [exact Hw|]. cbn beta. intros _ s' C. apply wp_ret.
    eapply (inv_changed exact reqs own G s c a keeps); try done; [by apply record_mono|intros q; apply record_new]. }
  assert (∀ (m : M K (option Z)) a, wp m s (λ _ s', kchanged own s a (wants c a) G True s') → wp (m ≫= λ _, mret None) s (λ r s', inv exact (record c r reqs) s')) as Hmap'.
  { intros m a Hw. apply wp_bind. eapply wp_mono; [exact Hw|]. cbn beta. intros _ s' C. apply wp_ret.
    eapply (inv_changed exact reqs own G s c a True); try done; [by apply record_mono|intros q; apply record_new]. }
  destruct c as [mask node|asid base len perm mask|asid slot phys len perm mask|asid base len|asid base len|asid base len ro dma|asid base len|asid i|asid|pa|pa]; cbn [run].
  - apply wp_bind. eapply wp_mono; [by apply create_spec|]. cbn beta. intros [[n r1]|] s'; cbn.
    + intros (own' & Hn & Gd' & Hu & K'). apply wp_ret. exists own', (no_grants n G). split_and!; [done|auto|].
      intros b t g k j pa w x Hub Hj HG. unfold no_grants in HG. cbn. destruct (Nat.eqb_spec b n); [done|]. destruct (Hu b Hub) as [|Hub']; [done|]. by eapply Hr.
    + intros (Gd' & Hu & K'). apply wp_ret. exists own, G. split_and!; [done|auto|]. intros b t g k j pa w x Hub. apply Hr. auto.
  - by eapply Hmap; [|by apply map_spec].
  - by eapply Hmap'; apply map_region_spec.
  - by eapply Hmap; [|by apply unmap_spec].
  - by eapply (Hmap _ asid True); [|by apply unmap_dma_spec].
  - by eapply Hmap'; apply map_window_spec.
  - unfold unmap_window. destruct (_ || _); [by eapply (Hmap _ asid True); [|apply wp_ret; by apply same_kchanged]|]. by eapply Hmap; [|by apply unmap_spec].
  - apply wp_bind. eapply wp_mono; [by apply bind_spec|]. cbn beta. intros _ s' (Gd' & Ev & Hu). apply wp_ret. exists own, G. split_and!; [done| |].
    + unfold tight. by rewrite Ev.
    + intros b t g k j pa w x Hub. apply Hr. auto.
  - apply wp_bind. eapply wp_mono; [by apply teardown_spec|]. cbn beta. intros _ s' (own' & G' & Gd' & Hn & Hu & Hg & K'). apply wp_ret.
    exists own', G'. split_and!; [done|auto|]. intros b t g k j pa w x Hub Hj. rewrite Hg by (by intros ->). apply Hr; auto.
  - apply wp_bind, wp_in_vm. eapply wp_mono; [by apply guard_unmap_spec|]. cbn beta. intros _ vm' Hg. apply wp_ret. eapply (guarded_inv _ _ s); [by exists own, G|done..].
  - apply wp_bind, wp_in_vm. eapply wp_mono; [by apply guard_remap_spec|]. cbn beta. intros _ vm' Hg. apply wp_ret. eapply (guarded_inv _ _ s); [by exists own, G|done..].
Qed.
(** *** The table of the guards keeps its length *)
Definition ksame (s s' : K) : Prop := same_guards (vm s) (vm s').
#[local] Instance ksame_pre : PreOrder ksame.
Proof. split; [intros s; by red|]. intros s1 s2 s3 H1 H2. unfold ksame in *. by etrans. Qed.
Lemma keeping_vm {B} (m : M (Vm (Pot A)) B) : keeping same_guards m → keeping ksame (in_vm m).
Proof. intros Hm. eapply keeping_zoom; [exact Hm|done]. Qed.
Lemma keeping_pot {B} (m : M (Pot A) B) : keeping ksame (in_pot m).
Proof. apply keeping_vm, keeping_src. Qed.
Lemma keeping_ent i v : keeping ksame (set_ent i v).
Proof. unfold set_ent. keeps. done. Qed.
Ltac kguards :=
  repeat first [progress keeps | lazymatch goal with
    | |- keeping _ (in_vm _) => apply keeping_vm
    | |- keeping _ (in_pot _) => apply keeping_pot
    | |- keeping _ (set_ent _ _) => apply keeping_ent
    | |- keeping _ (allocate _) => apply keeping_src
    | |- keeping _ (release _ _) => apply keeping_src
    | |- keeping _ (zoom src _ _) => apply keeping_src
    | |- ksame _ _ => done
    end].
Lemma unmap_loop_guards l2 n : ∀ p all, keeping (same_guards (A := Pot A)) (unmap_loop l2 n p all).
Proof. induction n as [|n IH]; intros p all; cbn [unmap_loop]; keeps; [apply unmap_page_guards|apply IH]. Qed.
Lemma unmap_guards asid base len : keeping ksame (vspace_unmap asid base len).
Proof. unfold vspace_unmap, vspace_unmap_block. kguards; [apply set_block_guards|apply unmap_loop_guards]. Qed.
Lemma run_guards c : match c with Guard _ | Unguard _ => True | _ => keeping ksame (run c) end.
Proof.
  destruct c as [mask node|asid base len perm mask|asid slot phys len perm mask|asid base len|asid base len|asid base len ro dma|asid base len|asid i|asid|pa|pa]; cbn [run]; try done.
  - unfold create_vspace_masked, reserve, undo, unuse. kguards. apply create_base_guards.
  - unfold vspace_map_masked, vspace_map_code_block, vspace_map_block. kguards; try apply set_block_guards; guards; apply map_page_guards.
  - unfold vspace_map_user_region. kguards. apply map_window_guards.
  - keeps. apply unmap_guards.
  - unfold unmap_dma. kguards. apply unmap_loop_guards.
  - unfold map_window, map_region. kguards; [apply map_device_guards|apply map_dma_guards].
  - unfold unmap_window. keeps. apply unmap_guards.
  - unfold vspace_bind_stripe. keeps. unfold ksame. destruct (ent_of _ _); done.
  - unfold vspace_teardown, give_back. kguards; [apply collect_l3s_guards|apply collect_device_guards|apply collect_window_guards|by intros ???].
Qed.
Lemma step_guards c s r s' : guards_there s → legal c s → run c s = Some (r, s') → guards_there s'.
Proof.
  intros Hl Hc E. pose proof (run_guards c) as Hk. unfold guards_there in *.
  destruct c; try (by rewrite (Hk _ _ _ E)); refine (wp_result _ _ (λ _ s', length (guard_of (vm s')) = GUARD_BLOCKS) _ _ _ E); cbn [run]; apply wp_bind, wp_in_vm.
  - eapply wp_mono; [by apply guard_unmap_spec|]. cbn beta. intros _ vm' (_ & ? & _). by apply wp_ret.
  - eapply wp_mono; [by apply guard_remap_spec|]. cbn beta. intros _ vm' (_ & ? & _). by apply wp_ret.
Qed.
Lemma boot_inv (exact : Prop) s : boot lent s → inv exact (λ _, []) s.
Proof.
  intros (Hs%(brought_up_up Himg) & Hv & Hl). destruct Hs as [Hs _]. exists ∅, (λ _ _ _ _ _, None). split; [|split; [intros _; unfold tight, held; by rewrite Hl, dom_empty_L|done]].
  split; [split; try done|..].
  - intros i v Hi Hu. rewrite Forall_lookup in Hv. specialize (Hv i v Hi). congruence.
  - by intros q b pl ?%lookup_empty_Some.
Qed.
Lemma history_inv (exact : Prop) (ok : call → K → Prop) s0 s reqs : (∀ c s, ok c s → legal c s ∧ (exact → tidy c s)) → boot lent s0 → history ok s0 s reqs →
  inv exact reqs s ∧ guards_there s.
Proof.
  intros Hok Hb. induction 1 as [|s reqs c r s' Hh [IH Hg] Hc Hrun]; [split; [by apply boot_inv|by apply brought_up_guards, Hb]|]. destruct (Hok c s Hc) as [Hl Ht].
  split; [|by eapply step_guards]. exact (wp_result _ _ _ _ _ (step_inv exact c reqs s IH Hg Hl Ht) Hrun).
Qed.
Lemma walk_grant own G (s : K) i v va : good own G s → vspaces s !! i = Some v → used v = true → USER_RAM_MIN <= va < 2 ^ 48 →
  uwalk (mem (vm s)) (l1 v) va = at_offset va (G (S i) (ix va 39) (ix va 30) (ix va 21) (ix va 12)).
Proof.
  intros Gd Hi Hu Hva. apply (walk_exact Himg own G _ (held (src (vm s)))); [apply Gd|by apply (g_roots _ _ _ Gd i v)|].
  destruct (decide (va < 2 ^ 39)) as [Hlow|Hhigh].
  - destruct (indices va) as (-> & -> & -> & _); [unfold USER_RAM_MIN in Hva; lia|]. unfold image_block. cbn [Nat.eqb andb].
    destruct (Nat.eqb_spec (gib va) 0) as [Hg|]; [|done]. cbn [andb]. apply Nat.ltb_ge.
    assert (va < GIB1_END). { unfold gib in Hg. assert (va / ONE_GIB = 0) as E by (pose proof (Z.div_pos va ONE_GIB ltac:(unfold USER_RAM_MIN in Hva; lia) ltac:(done)); lia).
      apply Z.div_small_iff in E; [|done]. unfold GIB1_END, USER_RAM_MIN in *. lia. }
    destruct (low_block_index va) as [_ ->]; [unfold USER_RAM_MIN in Hva; lia|]. apply block_index_range. lia.
  - unfold image_block. assert (ix va 39 ≠ 0%nat) as Hne; [|by rewrite (proj2 (Nat.eqb_neq _ _) Hne)].
    rewrite (ix_div va 39 (va / 2 ^ 39)); [|done|lia|done|].
    + assert (1 <= va / 2 ^ 39) by (apply Z.div_le_lower_bound; lia). lia.
    + split; [apply Z.div_pos; lia|]. apply Z.div_lt_upper_bound; [done|]. change (2 ^ 39 * 512) with (2 ^ 48). lia.
Qed.

(** *** What a user reaches *)
Lemma l1_entry (s : K) asid r : vspace_l1 s asid = Some r ↔ ∃ i v, asid = S i ∧ vspaces s !! i = Some v ∧ used v = true ∧ l1 v = r.
Proof.
  unfold vspace_l1, ent_of. split.
  - destruct asid as [|i]; [done|]. cbn. rewrite Nat.sub_0_r. destruct (vspaces s !! i) as [v|] eqn:E; [|done]. cbn. destruct (used v) eqn:Hu; [|done]. intros [= <-]. by exists i, v.
  - intros (i & v & -> & Hi & Hu & <-). cbn. rewrite Nat.sub_0_r, Hi. cbn. by rewrite Hu.
Qed.
Lemma reach_grant own G s asid va : good own G s → USER_RAM_MIN <= va < 2 ^ 48 →
  reach s asid va = r ← vspace_l1 s asid; at_offset va (G asid (ix va 39) (ix va 30) (ix va 21) (ix va 12)).
Proof.
  intros Gd Hva. unfold reach. destruct (vspace_l1 s asid) as [r|] eqn:E; [|done]. cbn. apply l1_entry in E as (i & v & -> & Hi & Hu & <-). by eapply walk_grant.
Qed.
Lemma same_l1 (s s' : K) asid : vspaces s' = vspaces s → vspace_l1 s' asid = vspace_l1 s asid.
Proof. intros E. unfold vspace_l1, ent_of. by rewrite E. Qed.
Lemma reach_other own G own' G' (s s' : K) a ask asid va : good own G s → good own' G' s' → vspaces s' = vspaces s → grows a ask G G' → asid ≠ a →
  USER_RAM_MIN <= va < 2 ^ 48 → reach s' asid va = reach s asid va.
Proof.
  intros Gd Gd' Ev [Go _] Hne Hva. rewrite (reach_grant own G s asid va Gd Hva), (reach_grant own' G' s' asid va Gd' Hva), (same_l1 s s' asid Ev).
  destruct (vspace_l1 s asid); [|done]. cbn. by rewrite Go.
Qed.
(** The page of an address. *)
Lemma div_page c o n : 0 <= o < PAGE → 0 < n → (c * PAGE + o) / (PAGE * n) = c / n.
Proof. intros Ho Hn. rewrite <-Z.div_div by (done || lia). rewrite Z.div_add_l, (Z.div_small o), Z.add_0_r by done. done. Qed.
Lemma mod_page_of c o n : 0 <= o < PAGE → 0 < n → (c * PAGE + o) mod (PAGE * n) = (c mod n) * PAGE + o.
Proof.
  intros Ho Hn. pose proof (Z.div_mod c n ltac:(lia)) as Hd. pose proof (Z.mod_pos_bound c n Hn) as Hm. unfold PAGE in *. symmetry.
  apply (Z.mod_unique _ _ (c / n)); [left; nia|nia].
Qed.
Lemma page_of va : 0 <= va < 2 ^ 39 → page (va - va mod PAGE) ∧ 0 <= va mod PAGE < PAGE ∧
  gib (va - va mod PAGE) = gib va ∧ gib_block (va - va mod PAGE) = gib_block va ∧ page_index (va - va mod PAGE) = page_index va.
Proof.
  intros Hva. pose proof (Z.mod_pos_bound va PAGE ltac:(done)) as Ho. pose proof (Z.div_mod va PAGE ltac:(done)) as Hd.
  set (o := va mod PAGE) in *. set (c := va / PAGE) in *. assert (0 <= c) as Hc by (apply Z.div_pos; [lia|done]). assert (0 <= 0 < PAGE) as H0 by (unfold PAGE; lia).
  replace (va - o) with (c * PAGE + 0) by lia. replace va with (c * PAGE + o) by lia.
  split; [split; [unfold PAGE in *; lia|exists c; lia]|]. split; [done|]. unfold gib, gib_block, page_index. change ONE_GIB with (PAGE * 262144). change TWO_MIB with (PAGE * 512).
  rewrite !div_page, !mod_page_of by done. rewrite !div_page by done. rewrite !Z.div_add_l, (Z.div_small o), (Z.div_small 0) by done. done.
Qed.
Lemma reach_low own G s asid va r : good own G s → vspace_l1 s asid = Some r → USER_RAM_MIN <= va < 2 ^ 39 →
  reach s asid va = at_offset va (G asid 0%nat (gib va) (gib_block va) (page_index va)).
Proof.
  intros Gd E Hva. rewrite (reach_grant own G s asid va Gd), E by (unfold USER_RAM_MIN in *; lia). cbn. destruct (indices va) as (-> & -> & -> & ->); [unfold USER_RAM_MIN in *; lia|done].
Qed.
(** The page of an address of a region, and what is reached there. *)
Lemma region_page base len va : base mod PAGE = 0 → 0 <= base → base + len <= 2 ^ 52 → base <= va < base + len →
  page (va - va mod PAGE) ∧ base <= va - va mod PAGE < base + len ∧ 0 <= va mod PAGE < PAGE.
Proof.
  intros Hb H0 Hend Hva. pose proof (Z.mod_pos_bound va PAGE ltac:(done)) as Ho. pose proof (Z.div_mod va PAGE ltac:(done)) as Hd.
  apply Z.mod_divide in Hb as [c Ec]; [|done]. split; [split; [|exists (va / PAGE); lia]|]; [|split; [|done]]; unfold PAGE in *; lia.
Qed.
Lemma reach_page own G s asid va r w x : good own G s → vspace_l1 s asid = Some r → USER_RAM_MIN <= va - va mod PAGE → va < 2 ^ 39 →
  G asid 0%nat (gib (va - va mod PAGE)) (gib_block (va - va mod PAGE)) (page_index (va - va mod PAGE)) = Some (va - va mod PAGE, w, x) →
  reach s asid va = Some (va, w, x).
Proof.
  intros Gd E Hlo Hhi HG. pose proof (Z.mod_pos_bound va PAGE ltac:(done)) as Ho. rewrite (reach_low own G s asid va r Gd E) by lia.
  destruct (page_of va) as (_ & _ & E1 & E2 & E3); [unfold USER_RAM_MIN in *; lia|]. rewrite <-E1, <-E2, <-E3, HG. unfold at_offset. cbn. by rewrite Z.sub_add.
Qed.
Lemma l1_of_l2 (s : K) asid r2 : vspace_l2 s asid = Some r2 → ∃ r, vspace_l1 s asid = Some r.
Proof. unfold vspace_l1, vspace_l2. destruct (ent_of s asid) as [v|]; [|done]. cbn. destruct (used v); [|done]. by exists (l1 v). Qed.

(** *** Windows of devices, and unmapping *)
Lemma device_full own G s asid base len ro : good own G s → legal (MapWindow asid base len ro None) s →
  wp (map_window asid base len ro None) s (λ r s', ∃ own' G', good own' G' s' ∧ vspaces s' = vspaces s ∧ grows asid (wants (MapWindow asid base len ro None) asid) G G' ∧
    (r ≠ None → base mod PAGE = 0 ∧ base + len <= 2 ^ 39 ∧
      ∀ v, page v → base <= v < base + len → G' asid 0%nat (gib v) (gib_block v) (page_index v) = Some (v, negb ro, false))).
Proof.
  intros Gd (Hb & Hl). unfold map_window.
  assert (∃ own' G', good own' G' s ∧ vspaces s = vspaces s ∧ grows asid (wants (MapWindow asid base len ro None) asid) G G' ∧ (None ≠ @None Z → base mod PAGE = 0 ∧ base + len <= 2 ^ 39 ∧
      ∀ v, page v → base <= v < base + len → G' asid 0%nat (gib v) (gib_block v) (page_index v) = Some (v, negb ro, false))) as Hno.
  { exists own, G. split; [done|]. split; [done|]. split; [apply grows_refl|done]. }
  destruct (_ || _); [by apply wp_ret|]. unfold map_region. apply wp_bind, wp_bind, wp_gets.
  destruct (vspace_l1 s asid) as [r1|] eqn:E1; [|by apply wp_ret, wp_ret].
  apply wp_in_vm. eapply wp_mono; [apply (map_device_spec Himg (pt_rahmen frame_anywhere) held (pot_alloc _ (law_anywhere _ L)) own G (vm s) asid r1 base len ro (wants (MapWindow asid base len ro None) asid)); try done;
    [apply Gd|by eapply root_l1|]|].
  - intros v Hv. by exists (mk_req base len (negb ro) false).
  - cbn beta. intros r vm' (own' & G' & (T' & Rs & _) & Gr & M).
    assert (good own' G' (with_vm vm' s)) as Gd' by (by eapply good_after). destruct r; cbn [negb]; apply wp_ret; exists own', G'; (split; [done|split; [done|split; [done|]]]); [|done].
    intros _. destruct (M eq_refl) as (_ & ? & ? & ?). done.
Qed.
Lemma unmap_full own G s asid base len : good own G s → USER_RAM_MIN <= base →
  wp (vspace_unmap asid base len) s (λ r s', ∃ own' G', good own' G' s' ∧ vspaces s' = vspaces s ∧ grows asid (λ _ _ _, False) G G' ∧
    (r = true → ∀ v, page v → base <= v < base + len → base mod PAGE = 0 → v < GIB1_END ∧ G' asid 0%nat 0%nat (block_index v) (page_index v) = None)).
Proof.
  intros Gd Hb. unfold vspace_unmap. apply wp_bind, wp_gets.
  destruct (vspace_l2 s asid) as [r2|] eqn:E2; [|apply wp_ret; exists own, G; split; [done|split; [done|split; [apply grows_refl|done]]]].
  pose proof (root_l2 own G s asid r2 Gd E2) as Hr. pose proof (g_tree _ _ _ Gd) as T.
  destruct ((len =? ISO_REGION_SIZE) && (base mod ISO_REGION_SIZE =? 0)) eqn:Hc.
  - apply andb_true_iff in Hc as [Hlen%Z.eqb_eq Hmod%Z.eqb_eq]. subst len. apply wp_in_vm. unfold vspace_unmap_block.
    eapply wp_mono; [apply (set_block_spec Himg held own G (vm s) asid r2 base kernel_block (λ _ _, None) T Hr); try done; [unfold USER_RAM_MIN in Hb; lia|]|].
    + intros p Hp Hd. split; [apply (kernel_block_grant p 0 Hp)|]. intros j. apply (kernel_block_grant p j Hp).
    + cbn beta. intros [|] vm'; [|intros ->; exists own, G; split; [by eapply good_same; [..|exact Gd]|split; [done|split; [apply grows_refl|done]]]].
      intros (Hrange & _ & own' & T' & Rs & _ & _). exists own', (set_block_grants asid 0 0 (block_index base) (λ _, None) G).
      split; [by eapply good_after|split; [done|split; [by apply grows_block|]]]. intros _ v Hv Hin _.
      destruct (in_block base v Hmod Hv Hin) as (-> & _ & ?); [lia|]. by rewrite set_block_at.
  - apply wp_in_vm. eapply wp_mono; [apply (unmap_loop_changed asid r2 (rounds len) base true own G (vm s)); done|].
    cbn beta. intros r vm' (G' & (T' & Rs & _) & Gr & _ & M). exists own, G'. split; [by eapply good_after|split; [done|split; [done|]]].
    intros Hrt v Hv Hin Hal. destruct (in_rounds base len v Hal Hv Hin) as (i & Hi & ->). by apply (M Hrt).
Qed.
End history.


(** ** What the development promises of address spaces *)
Section promises.
Context `{Image} {Node Mask A : Type} {HP : Pool Node Mask A} (lent : A → gset Z).
Notation K := (Kern Node Mask A).

(** C5: After bring-up, in every history of the calls that create, change and take down address spaces and
    set the guard pages of the kernel, no call panics; whatever address above the image of the kernel the processor translates for a user of a space
    leads to a page of a region that was asked for this space since it was created, with the rights
    that were asked; and no page can be both written and executed. *)
Theorem space_confined (s0 s : K) reqs : image_ok → pool_laws lent → boot lent s0 → history legal s0 s reqs →
  (∀ c, legal c s → ∃ r s', run c s = Some (r, s')) ∧
  ∀ asid va pa w x, USER_RAM_MIN <= va < 2 ^ 48 → reach s asid va = Some (pa, w, x) →
    w && x = false ∧ ∃ r, r ∈ reqs asid ∧ covers r (pa - va mod PAGE) w x.
Proof.
  intros Himg L Hb Hh. pose proof (history_inv Himg lent L False legal s0 s reqs (λ c s Hc, conj Hc (False_ind _)) Hb Hh) as [Hinv Hg]. split.
  - intros c Hc. pose proof (step_inv Himg lent L False c reqs s Hinv Hg Hc (False_ind _)) as Hw. unfold wp in Hw. destruct (run c s) as [[r s']|]; [by exists r, s'|done].
  - destruct Hinv as (own & G & Gd & _ & Hr). intros asid va pa w x Hva. rewrite (reach_grant Himg lent own G s asid va Gd Hva).
    destruct (vspace_l1 s asid) as [r1|] eqn:E; [|done]. cbn. destruct (G asid _ _ _ _) as [[[pa0 w0] x0]|] eqn:HG; [|done]. intros [= <- -> ->].
    split; [by eapply (t_wx _ _ _ _ (g_tree _ _ _ _ Gd))|]. rewrite Z.add_simpl_r. apply l1_entry in E as (i & v & -> & Hi & Hu & _).
    eapply Hr; [by exists i, v|apply ix_lt|exact HG].
Qed.

(** C9: When every call about one whole block finds no page table in its place, no frame of a page table
    is lost: as soon as no space is used any more, every frame that was ever lent is back. *)
Theorem frames_returned (s0 s : K) reqs : image_ok → pool_laws lent → boot lent s0 → history (λ c s, legal c s ∧ tidy c s) s0 s reqs →
  used_vspaces s = 0%nat → lent (pool (src (vm s))) = ∅.
Proof.
  intros Himg L Hb Hh Hu. destruct (history_inv Himg lent L True _ s0 s reqs (λ c s Hc, conj (proj1 Hc) (λ _, proj2 Hc)) Hb Hh) as [(own & G & Gd & Ht & _) _].
  change (held lent (src (vm s)) = ∅). rewrite <-(Ht I). apply dom_empty_iff_L, map_empty. intros q. destruct (own !! q) as [[b pl]|] eqn:E; [|done]. exfalso.
  destruct (g_used _ _ _ _ Gd q b pl E) as (i & v & _ & Hi & Hv). revert Hu Hi. unfold used_vspaces. generalize (vspaces s). intros l. revert i.
  induction l as [|w l IH]; intros i Hu Hi; [done|]. unfold count_if in *. cbn in *. destruct i as [|i]; [injection Hi as ->; by rewrite Hv in Hu|].
  eapply IH; [|exact Hi]. by destruct (used w).
Qed.

(** C14: A region that the kernel says it has mapped is mapped: the user of the space reaches every
    address of it, at the same physical address and with exactly the rights asked; what the users of
    other spaces reach does not change. *)
Theorem map_exact (s0 s s' : K) reqs asid base len perm mask : image_ok → pool_laws lent → boot lent s0 → history legal s0 s reqs →
  legal (Map asid base len perm mask) s → vspace_map_masked asid base len perm mask s = Some (true, s') →
  (∀ va, base <= va < base + len → reach s' asid va = Some (va, writes perm, executes perm)) ∧
  ∀ a va, a ≠ asid → USER_RAM_MIN <= va < 2 ^ 48 → reach s' a va = reach s a va.
Proof.
  intros Himg L Hb Hh Hl Hrun. destruct (history_inv Himg lent L False legal s0 s reqs (λ c s Hc, conj Hc (False_ind _)) Hb Hh) as [(own & G & Gd & _) _].
  pose proof (map_full Himg lent L own G s asid base len perm mask Gd Hl) as Hw. unfold wp in Hw. rewrite Hrun in Hw.
  destruct Hw as (own' & G' & Gd' & Ev & _ & Gr & Hal & M). split; [|intros a va Hne; by eapply reach_other].
  intros va Hva. assert (∃ r1, vspace_l1 s' asid = Some r1) as [r1 E1].
  { rewrite (same_l1 s s') by done. destruct (vspace_l2 s asid) as [r2|] eqn:E2; [by eapply l1_of_l2|]. unfold vspace_map_masked, mbind, M_bind, gets in Hrun. by rewrite E2 in Hrun. }
  destruct Hl as (H0 & Hlen & Hend). destruct (Hal eq_refl) as [Hb0|]; [|lia].
  destruct (region_page base len va Hb0 H0) as (Hp & Hin & Ho); [unfold PAGE in Hend; lia|done|]. destruct (M eq_refl _ Hp Hin) as [Hv HG].
  destruct (low_block_index (va - va mod PAGE)) as [Eg Ek]; [unfold USER_RAM_MIN in Hv; lia|].
  eapply (reach_page Himg lent own' G' s' asid va r1); [done|done|lia|unfold GIB1_END, ONE_GIB, PAGE in *; lia|]. rewrite Eg, Ek. exact HG.
Qed.

(** C18: A window of a device above the first GiB that the kernel says it has mapped is reached at its
    physical addresses, can be written unless it was asked read-only, and is never executed; what the
    users of other spaces reach does not change. *)
Theorem device_exact (s0 s s' : K) reqs asid base len ro iova : image_ok → pool_laws lent → boot lent s0 → history legal s0 s reqs →
  legal (MapWindow asid base len ro None) s → map_window asid base len ro None s = Some (Some iova, s') →
  (∀ va, base <= va < base + len → reach s' asid va = Some (va, negb ro, false)) ∧
  ∀ a va, a ≠ asid → USER_RAM_MIN <= va < 2 ^ 48 → reach s' a va = reach s a va.
Proof.
  intros Himg L Hb Hh Hl Hrun. destruct (history_inv Himg lent L False legal s0 s reqs (λ c s Hc, conj Hc (False_ind _)) Hb Hh) as [(own & G & Gd & _) _].
  pose proof (device_full Himg lent L own G s asid base len ro Gd Hl) as Hw. unfold wp in Hw. rewrite Hrun in Hw.
  destruct Hw as (own' & G' & Gd' & Ev & Gr & M). split; [|intros a va Hne; by eapply reach_other].
  intros va Hva. destruct M as (Hb0 & Hend & M); [done|]. destruct Hl as [Hlo Hlen].
  assert (∃ r1, vspace_l1 s' asid = Some r1) as [r1 E1].
  { rewrite (same_l1 s s') by done. destruct (vspace_l1 s asid) as [r1|] eqn:E1; [by exists r1|]. unfold map_window, map_region, mbind, M_bind, gets in Hrun. destruct (_ || _) in Hrun; [done|]. cbn in Hrun. by rewrite E1 in Hrun. }
  destruct (region_page base len va Hb0) as (Hp & Hin & Ho); [unfold ONE_GIB in Hlo; lia|lia|done|].
  eapply (reach_page Himg lent own' G' s' asid va r1); [done|done|unfold USER_RAM_MIN, ONE_GIB in *; lia|lia|]. by apply M.
Qed.

(** C15: What the kernel says it has unmapped is gone: no address of the region is reached any more,
    nothing else becomes reachable, and what the users of other spaces reach does not change. *)
Theorem unmap_exact (s0 s s' : K) reqs asid base len : image_ok → pool_laws lent → boot lent s0 → history legal s0 s reqs →
  USER_RAM_MIN <= base → base + len <= 2 ^ 52 → base mod PAGE = 0 → vspace_unmap asid base len s = Some (true, s') →
  (∀ va, base <= va < base + len → reach s' asid va = None) ∧
  (∀ va pa w x, USER_RAM_MIN <= va < 2 ^ 48 → reach s' asid va = Some (pa, w, x) → reach s asid va = Some (pa, w, x)) ∧
  ∀ a va, a ≠ asid → USER_RAM_MIN <= va < 2 ^ 48 → reach s' a va = reach s a va.
Proof.
  intros Himg L Hb Hh Hlo Hend Hb0 Hrun. destruct (history_inv Himg lent L False legal s0 s reqs (λ c s Hc, conj Hc (False_ind _)) Hb Hh) as [(own & G & Gd & _) _].
  pose proof (unmap_full Himg lent own G s asid base len Gd Hlo) as Hw. unfold wp in Hw. rewrite Hrun in Hw.
  destruct Hw as (own' & G' & Gd' & Ev & Gr & M). split; [|split; [|intros a va Hne; by eapply reach_other]].
  - intros va Hva. destruct (vspace_l1 s' asid) as [r1|] eqn:E1; [|unfold reach; by rewrite E1].
    destruct (region_page base len va Hb0) as (Hp & Hin & _); [unfold USER_RAM_MIN in Hlo; lia|done|done|].
    destruct (M eq_refl _ Hp Hin Hb0) as [Hv HG]. pose proof (Z.mod_pos_bound va PAGE ltac:(done)) as Ho.
    destruct (low_block_index (va - va mod PAGE)) as [Eg Ek]; [unfold USER_RAM_MIN in Hlo; lia|].
    rewrite (reach_low Himg lent own' G' s' asid va r1 Gd' E1) by (unfold GIB1_END, ONE_GIB, PAGE in *; lia).
    destruct (page_of va) as (_ & _ & E2 & E3 & E4); [unfold GIB1_END, ONE_GIB, PAGE, USER_RAM_MIN in *; lia|]. by rewrite <-E2, <-E3, <-E4, Eg, Ek, HG.
  - intros va pa w x Hva. rewrite (reach_grant Himg lent own' G' s' asid va Gd' Hva), (reach_grant Himg lent own G s asid va Gd Hva), (same_l1 s s' asid Ev).
    destruct (vspace_l1 s asid); [|done]. cbn. destruct (G' asid _ _ _ _) as [[[pa0 w0] x0]|] eqn:HG; [|done].
    destruct Gr as [_ Gr]. by destruct (Gr _ _ _ _ _ _ _ (ix_lt va 12) HG) as [->|].
Qed.

(** C23: Where the kernel resolves an address for a user, in the first GiB and in the window of the
    domain, it finds what the processor finds; elsewhere it finds nothing. *)
Theorem resolve_exact (s0 s : K) reqs asid r1 r2 va : image_ok → pool_laws lent → boot lent s0 → history legal s0 s reqs →
  vspace_l1 s asid = Some r1 → vspace_l2 s asid = Some r2 → 0 <= va →
  vspace_resolve (mem (vm s)) r1 r2 va =
    if (va <? ONE_GIB) || (ISO_USER_VA <=? va) && (va <? ISO_USER_VA + ONE_GIB) then (λ x, x.1.1) <$> reach s asid va else None.
Proof.
  intros Himg L Hb Hh E1 E2 Hva. destruct (history_inv Himg lent L False legal s0 s reqs (λ c s Hc, conj Hc (False_ind _)) Hb Hh) as [(own & G & Gd & _) _].
  unfold reach. rewrite E1. apply (resolve_walk own G _ (held lent (src (vm s))) asid); [apply Gd|by eapply root_l1|by eapply root_l2|done].
Qed.
End promises.

(** ** A concrete kernel

    The static tables lie in the frames 1 to 37, sixty frames from 4096 on can be lent, and two spaces
    can be used. *)
#[local] Instance demo_image : Image := {|
  PML4 := 1 * PAGE; PDPT := 2 * PAGE; PD_base := 3 * PAGE; PT_base := 7 * PAGE; ISO_base := 15 * PAGE; HIGH_base := 18 * PAGE; GUARD_base := 22 * PAGE;
  text := (0x100000, 0x140000); rodata := (0x140000, 0x150000); user_text := (0x200000, 0x210000); user_data := (0x210000, 0x220000) |}.
Definition demo_frames : list Z := (λ k, Z.of_nat k * PAGE) <$> seq 4096 60.
Definition demo_alloc : M (gset Z) (option Z) := λ a,
  match head (filter (λ q, q ∉ a) demo_frames) with Some q => Some (Some q, {[q]} ∪ a) | None => Some (None, a) end.
#[local] Instance demo_pool : Pool unit unit (gset Z) := {|
  unaffiliated := tt; max_asid := 255; frame_masked _ _ := demo_alloc; frame_anywhere := demo_alloc;
  free_region q := modify (λ a, a ∖ {[q]}); loaded_free _ := mret tt; release_stripe _ := mret tt; assigned_iova p := mret (Some p) |}.
Lemma demo_image_ok : image_ok.
Proof.
  assert (statics = (λ k, Z.of_nat k * PAGE) <$> seq 1 37) as E by reflexivity. unfold image_ok. rewrite E. split.
  - apply Forall_fmap, Forall_forall. intros k Hk. cbn. apply elem_of_seq in Hk. apply page_mul. lia.
  - apply NoDup_fmap_2; [|apply NoDup_seq]. intros i j Hij. unfold PAGE in Hij. lia.
Qed.
Lemma demo_alloc_law : alloc_law demo_alloc id.
Proof.
  intros a. unfold demo_alloc, wp. destruct (filter (λ q, q ∉ a) demo_frames) as [|q l] eqn:E; [done|]. cbn.
  assert (q ∈ filter (λ q, q ∉ a) demo_frames) as Hq by (rewrite E; by left). apply list_elem_of_filter in Hq as [Hn Hq].
  apply list_elem_of_fmap in Hq as (k & -> & Hk%elem_of_seq). split_and!; [|..|done|done]; [apply page_mul; lia|].
  assert (∀ start n, start + Z.of_nat n * PAGE <= 4096 * PAGE → in_range (Z.of_nat k * PAGE) start n = false) as Hr.
  { intros start n Hs. unfold in_range. rewrite (proj2 (Z.ltb_ge _ _)); [apply andb_false_r|unfold PAGE in *; lia]. }
  unfold is_static_table. by rewrite !Hr by done.
Qed.
Lemma demo_laws : pool_laws (id : gset Z → gset Z).
Proof. split; [intros mask node; apply demo_alloc_law|apply demo_alloc_law|done..]. Qed.
(** Bring-up: the map of the kernel, a window for a device at 448 GiB, two GiB of memory above the fixed part. *)
Definition demo_blank : Vm (Pot (gset Z)) :=
  mk ∅ (replicate HIGH_DEV_SLOTS None) 0 0 (replicate GUARD_BLOCKS None) 0 0 0 (mk_pot ∅ 0 0 0 0).
Definition left_by {S B} (m : M S B) (s : S) : S := default s (snd <$> m s).
Definition demo_primary : Vm (Pot (gset Z)) := left_by init_primary demo_blank.
Definition demo_window_up : Vm (Pot (gset Z)) := left_by (map_device_window_global 0x7000000000 0x4000) demo_primary.
Definition demo_vm : Vm (Pot (gset Z)) := left_by (adopt_high_ram true (4 * ONE_GIB) (2 * ONE_GIB)) demo_window_up.
Definition demo_boot : Kern unit unit (gset Z) := mk_kern (replicate 2 FREI) demo_vm.
Lemma left_by_run {S B} (m : M S B) s Q : wp m s Q → ∃ r, m s = Some (r, left_by m s).
Proof. intros (r & s' & E & _)%wp_run. exists r. unfold left_by. rewrite E. done. Qed.
Lemma demo_is_blank : blank demo_blank.
Proof. by split_and!. Qed.
Lemma demo_brought_up : brought_up demo_vm.
Proof.
  assert (brought_up demo_primary) as U1.
  { destruct (left_by_run _ _ _ (init_primary_spec demo_image_ok demo_blank demo_is_blank)) as [[] E]. by eapply up_primary; [exact demo_is_blank|]. }
  pose proof (brought_up_up demo_image_ok _ U1) as P1.
  assert (brought_up demo_window_up) as U2.
  { destruct (left_by_run _ _ _ (map_device_window_global_spec demo_image_ok demo_primary 0x7000000000 0x4000 P1 ltac:(done))) as [b E].
    by eapply up_window; [exact U1| |..|exact E]. }
  pose proof (brought_up_up demo_image_ok _ U2) as P2.
  destruct (left_by_run _ _ _ (adopt_high_ram_spec demo_image_ok demo_window_up true (4 * ONE_GIB) (2 * ONE_GIB) P2)) as [o E].
  by eapply up_memory; [exact U2| |..|exact E].
Qed.
Lemma demo_none_lent : pool (src demo_vm) = ∅.
Proof. vm_compute. reflexivity. Qed.
Lemma demo_boots : boot id demo_boot.
Proof. split; [exact demo_brought_up|]. split; [by repeat apply Forall_cons_2|exact demo_none_lent]. Qed.

(** A run of calls, each of them legal and tidy. *)
Definition legalb (c : call (Node := unit) (Mask := unit)) (s : Kern unit unit (gset Z)) : bool :=
  match c with
  | Map _ base len _ _ => (0 <=? base) && (0 <=? len) && (base + len + PAGE <=? 2 ^ 52)
  | MapRegion asid slot phys len _ _ => (0 <=? phys) && (0 <=? len) && (phys + len <=? 2 ^ 52) && (slot <? 512)%nat &&
      match vspace_l1 s asid with Some l1 => negb (has (window_entry (mem (vm s)) l1 slot) P) | None => true end
  | Unmap _ base _ | UnmapDma _ base _ | UnmapWindow _ base _ => USER_RAM_MIN <=? base
  | MapWindow _ base len _ None => (ONE_GIB <=? base) && (0 <=? len)
  | MapWindow _ base len _ (Some _) => (0 <=? base) && (0 <=? len) && (base + len <=? 2 ^ 52)
  | Guard pa => 0 <=? pa
  | _ => true
  end.
Definition tidyb (c : call (Node := unit) (Mask := unit)) (s : Kern unit unit (gset Z)) : bool :=
  match c with
  | Map asid base len _ _ | Unmap asid base len | UnmapWindow asid base len =>
    match vspace_l2 s asid with Some l2 => negb (len =? ISO_REGION_SIZE) || negb (is_table (ld (mem (vm s)) l2 (block_index base))) | None => true end
  | _ => true
  end.
Lemma legalb_ok c s : legalb c s = true → legal c s.
Proof.
  destruct c as [mask node|asid base len perm mask|asid slot phys len perm mask|asid base len|asid base len|asid base len ro dma|asid base len|asid i|asid|pa|pa]; cbn -[Z.pow Z.add Nat.ltb]; try done;
    rewrite ?andb_true_iff, ?Z.leb_le, ?Nat.ltb_lt; try done.
  - intros [[? ?] ?]. done.
  - intros [[[[? ?] ?] ?] He]. split; [done|]. split; [done|]. split; [done|]. split; [done|]. intros r E. rewrite E in He. by apply negb_true_iff in He.
  - destruct dma; rewrite ?andb_true_iff, ?Z.leb_le; [by intros [[? ?] ?]|done].
Qed.
Lemma tidyb_ok c s : tidyb c s = true → tidy c s.
Proof.
  destruct c; cbn; try done; intros Ht El r Er; rewrite Er, El in Ht; cbn in Ht; by apply negb_true_iff in Ht.
Qed.
Fixpoint replay (cs : list (call (Node := unit) (Mask := unit))) (s : Kern unit unit (gset Z)) (reqs : nat → list req) : option (Kern unit unit (gset Z) * (nat → list req)) :=
  match cs with
  | [] => Some (s, reqs)
  | c :: cs =>
    if legalb c s && tidyb c s then
      match run c s with Some (r, s') => replay cs s' (record c r reqs) | None => None end
    else None
  end.
Lemma replay_history cs s0 : ∀ s reqs s' reqs', history (λ c s, legal c s ∧ tidy c s) s0 s reqs → replay cs s reqs = Some (s', reqs') →
  history (λ c s, legal c s ∧ tidy c s) s0 s' reqs'.
Proof.
  induction cs as [|c cs IH]; intros s reqs s' reqs' Hh; cbn; [by intros [= <- <-]|].
  destruct (legalb c s && tidyb c s) eqn:E; [|done]. apply andb_true_iff in E as [E1 E2]. destruct (run c s) as [[r s1]|] eqn:Er; [|done].
  apply IH. eapply history_call; [exact Hh| |exact Er]. split; [by apply legalb_ok|by apply tidyb_ok].
Qed.
Lemma history_legal (s0 s : Kern unit unit (gset Z)) reqs : history (λ c s, legal c s ∧ tidy c s) s0 s reqs → history legal s0 s reqs.
Proof. induction 1 as [|s reqs c r s' Hh IH [Hl _] Hr]; [constructor|by eapply history_call]. Qed.
(** Two spaces: pages, a window of a device and a region in the first one; a guard page of the kernel; a
    page and the window above the fixed part in the second one. *)
Definition demo_calls : list (call (Node := unit) (Mask := unit)) :=
  [Create None tt; Create None tt; Map 1 0x2000000 0x3000 Rw None; MapRegion 1 0 0x4000000 ISO_REGION_SIZE Rx None; MapWindow 1 0xFEC00000 0x1000 false None; Guard 0x1400000; Map 2 0x6000000 0x1000 Ro None;
   MapWindow 2 0x7000000000 0x1000 true None].
Definition demo_end : list (call (Node := unit) (Mask := unit)) := [Unmap 1 0x2000000 0x1000; Teardown 1; Teardown 2].
Definition after (cs : list (call (Node := unit) (Mask := unit))) : option (Kern unit unit (gset Z) * (nat → list req)) := replay cs demo_boot (λ _, []).
Definition demo_state : Kern unit unit (gset Z) := default demo_boot (fst <$> after demo_calls).
Lemma demo_history cs s reqs : after cs = Some (s, reqs) → history (λ c s, legal c s ∧ tidy c s) demo_boot s reqs.
Proof. apply replay_history. constructor. Qed.
Definition demo_single : Kern unit unit (gset Z) := default demo_boot (fst <$> after [Create None tt]).
Lemma after_state cs : match after cs with Some _ => true | None => false end = true →
  ∃ reqs, after cs = Some (default demo_boot (fst <$> after cs), reqs).
Proof. destruct (after cs) as [[s reqs]|]; [by exists reqs|done]. Qed.
(** What a call on a state answers, and the state behind it. *)
Lemma answered {B} (m : M (Kern unit unit (gset Z)) B) s (ok : B → bool) :
  match m s with Some (r, _) => ok r | None => false end = true → ∃ r s', m s = Some (r, s') ∧ ok r = true.
Proof. destruct (m s) as [[r s']|]; [by exists r, s'|done]. Qed.
Lemma demo_runs : match after demo_calls with Some _ => true | None => false end = true.
Proof. vm_compute. reflexivity. Qed.
Lemma demo_all_runs : match after (demo_calls ++ demo_end) with Some _ => true | None => false end = true.
Proof. vm_compute. reflexivity. Qed.
Lemma demo_single_runs : match after [Create None tt] with Some _ => true | None => false end = true.
Proof. vm_compute. reflexivity. Qed.
Lemma demo_reach : reach demo_state 1 0x2001005 = Some (0x2001005, true, false).
Proof. vm_compute. reflexivity. Qed.
Lemma demo_roots : vspace_l1 demo_state 1 = Some (4096 * PAGE) ∧ vspace_l2 demo_state 1 = Some (4097 * PAGE).
Proof. vm_compute. split; reflexivity. Qed.
Lemma demo_map : ∃ s', vspace_map_masked 1 0x2000000 0x3000 Rw None demo_single = Some (true, s').
Proof.
  destruct (answered (vspace_map_masked 1 0x2000000 0x3000 Rw None) demo_single (λ r, r)) as (r & s' & Er & Hr); [vm_compute; reflexivity|].
  exists s'. rewrite <-Hr. exact Er.
Qed.
Lemma demo_window : ∃ iova s', map_window 1 0xFEC00000 0x2000 true None demo_single = Some (Some iova, s').
Proof.
  destruct (answered (map_window 1 0xFEC00000 0x2000 true None) demo_single (λ o, match o with Some _ => true | None => false end)) as ([iova|] & s' & Er & Hr);
    [vm_compute; reflexivity|by exists iova, s'|discriminate Hr].
Qed.
Lemma demo_unmap : ∃ s', vspace_unmap 1 0x2000000 0x2000 demo_state = Some (true, s').
Proof.
  destruct (answered (vspace_unmap 1 0x2000000 0x2000) demo_state (λ r, r)) as (r & s' & Er & Hr); [vm_compute; reflexivity|].
  exists s'. rewrite <-Hr. exact Er.
Qed.
Lemma demo_lent : size (pool (src (vm demo_state))) = 14%nat.
Proof. vm_compute. reflexivity. Qed.
Definition demo_last : Kern unit unit (gset Z) := default demo_boot (fst <$> after (demo_calls ++ demo_end)).
Lemma demo_unused : used_vspaces demo_last = 0%nat.
Proof. vm_compute. reflexivity. Qed.
Lemma demo_state_history : ∃ reqs, history legal demo_boot demo_state reqs.
Proof. destruct (after_state demo_calls demo_runs) as [reqs E]. exists reqs. apply history_legal. exact (demo_history _ _ _ E). Qed.
Lemma demo_single_history : ∃ reqs, history legal demo_boot demo_single reqs.
Proof. destruct (after_state [Create None tt] demo_single_runs) as [reqs E]. exists reqs. apply history_legal. exact (demo_history _ _ _ E). Qed.
Lemma demo_last_history : ∃ reqs, history (λ c s, legal c s ∧ tidy c s) demo_boot demo_last reqs.
Proof. destruct (after_state (demo_calls ++ demo_end) demo_all_runs) as [reqs E]. exists reqs. exact (demo_history _ _ _ E). Qed.

Lemma space_confined_witness : image_ok ∧ pool_laws id ∧ boot id demo_boot ∧ ∃ reqs, history legal demo_boot demo_state reqs ∧
  reach demo_state 1 0x2001005 = Some (0x2001005, true, false) ∧ ∃ r, r ∈ reqs 1%nat ∧ covers r (0x2001005 - 0x2001005 mod PAGE) true false.
Proof.
  split; [exact demo_image_ok|]. split; [exact demo_laws|]. split; [exact demo_boots|]. destruct demo_state_history as [reqs E]. exists reqs.
  split; [exact E|]. split; [exact demo_reach|]. destruct (space_confined id demo_boot demo_state reqs demo_image_ok demo_laws demo_boots E) as [_ Hc].
  refine (proj2 (Hc 1%nat 0x2001005 0x2001005 true false _ demo_reach)). unfold USER_RAM_MIN. lia.
Defined.
Lemma frames_returned_witness : ∃ reqs, history (λ c s, legal c s ∧ tidy c s) demo_boot demo_last reqs ∧
  size (pool (src (vm demo_state))) = 14%nat ∧ pool (src (vm demo_last)) = ∅.
Proof.
  destruct demo_last_history as [reqs E]. exists reqs. split; [exact E|]. split; [exact demo_lent|].
  exact (frames_returned (λ a, a) demo_boot demo_last reqs demo_image_ok demo_laws demo_boots E demo_unused).
Defined.
Lemma map_exact_witness : ∃ reqs s', history legal demo_boot demo_single reqs ∧ vspace_map_masked 1 0x2000000 0x3000 Rw None demo_single = Some (true, s') ∧
  reach s' 1 0x2002fff = Some (0x2002fff, true, false).
Proof.
  destruct demo_single_history as [reqs E]. exists reqs. destruct demo_map as [s' Er].
  exists s'. split; [exact E|]. split; [exact Er|].
  refine (proj1 (map_exact id demo_boot demo_single s' reqs 1 0x2000000 0x3000 Rw None demo_image_ok demo_laws demo_boots E _ Er) 0x2002fff _); [|lia].
  cbn -[Z.pow]. unfold PAGE. lia.
Defined.
Lemma device_exact_witness : ∃ reqs s' iova, history legal demo_boot demo_single reqs ∧ map_window 1 0xFEC00000 0x2000 true None demo_single = Some (Some iova, s') ∧
  reach s' 1 0xFEC01234 = Some (0xFEC01234, false, false).
Proof.
  destruct demo_single_history as [reqs E]. exists reqs.
  destruct demo_window as (iova & s' & Er).
  exists s', iova. split; [exact E|]. split; [exact Er|].
  refine (proj1 (device_exact id demo_boot demo_single s' reqs 1 0xFEC00000 0x2000 true iova demo_image_ok demo_laws demo_boots E _ Er) 0xFEC01234 _); [|lia].
  cbn -[Z.pow]. unfold ONE_GIB. lia.
Defined.
Lemma unmap_exact_witness : ∃ reqs s', history legal demo_boot demo_state reqs ∧ vspace_unmap 1 0x2000000 0x2000 demo_state = Some (true, s') ∧
  reach demo_state 1 0x2001005 ≠ None ∧ reach s' 1 0x2001005 = None.
Proof.
  destruct demo_state_history as [reqs E]. exists reqs. destruct demo_unmap as [s' Er].
  exists s'. split; [exact E|]. split; [exact Er|]. split; [rewrite demo_reach; discriminate|].
  refine (proj1 (unmap_exact id demo_boot demo_state s' reqs 1 0x2000000 0x2000 demo_image_ok demo_laws demo_boots E _ _ _ Er) 0x2001005 _);
    [unfold USER_RAM_MIN; lia|lia|reflexivity|lia].
Defined.
Lemma resolve_exact_witness : ∃ reqs, history legal demo_boot demo_state reqs ∧
  vspace_resolve (mem (vm demo_state)) (4096 * PAGE) (4097 * PAGE) 0x2001005 = Some 0x2001005.
Proof.
  destruct demo_state_history as [reqs E]. exists reqs. split; [exact E|].
  rewrite (resolve_exact id demo_boot demo_state reqs 1 _ _ 0x2001005 demo_image_ok demo_laws demo_boots E (proj1 demo_roots) (proj2 demo_roots)) by lia.
  rewrite demo_reach. reflexivity.
Defined.

(** ** What the calls do beyond what they say *)
(** No window above the first GiB is ever taken out: the call fails and the window stays. *)
Lemma unmap_loop_high {A} `{Image} l2 n : ∀ p all (s : Vm (Pot A)), GIB1_END <= p → unmap_loop l2 n p all s = Some (match n with O => all | S _ => false end, s).
Proof.
  induction n as [|n IH]; intros p all s Hp; [done|]. cbn [unmap_loop].
  assert (vspace_unmap_page l2 p s = Some (false, s)) as E by (unfold vspace_unmap_page; rewrite (proj2 (Z.leb_le GIB1_END p)), orb_true_r by done; done).
  unfold mbind, M_bind. rewrite E. cbn. rewrite IH by lia. by destruct n.
Qed.
Lemma device_window_stays `{Image} {Node Mask A} `{Pool Node Mask A} asid base len (s : Kern Node Mask A) : ONE_GIB <= base → 0 < len →
  match unmap_window asid base len s with Some (r, s') => r = false ∧ vm s' = vm s | None => False end.
Proof.
  intros Hb Hl. unfold unmap_window. destruct (_ || _); [done|]. unfold vspace_unmap, mbind, M_bind, gets. destruct (vspace_l2 s asid) as [l2|]; [|done]. cbn iota.
  destruct (_ && _); unfold in_vm, zoom.
  - unfold vspace_unmap_block, set_block, pd_block_index. rewrite (proj2 (Z.leb_le GIB1_END base)), orb_true_r by done. done.
  - rewrite unmap_loop_high by done. cbn. assert (0 < rounds len)%nat as Hr; [|by destruct (rounds len); [lia|]].
    unfold rounds. apply Nat2Z.inj_lt. rewrite Z2Nat.id by (apply Z.div_pos; lia). apply Z.div_str_pos. lia.
Qed.

Fixpoint run_all (cs : list (call (Node := unit) (Mask := unit))) (s : Kern unit unit (gset Z)) : option (Kern unit unit (gset Z)) :=
  match cs with [] => Some s | c :: cs => '(_, s) ← run c s; run_all cs s end.
Definition ready (cs : list (call (Node := unit) (Mask := unit))) : option (Kern unit unit (gset Z)) := run_all cs demo_boot.
Definition reached (cs : list (call (Node := unit) (Mask := unit))) (asid : nat) (va : Z) : option (option (Z * bool * bool)) := (λ s, reach s asid va) <$> ready cs.

(** A window for DMA that is asked read-only can be written. *)
Lemma dma_read_only_writable : reached [Create None tt; MapWindow 1 0x2000000 0x1000 true (Some true)] 1 0x2000000 = Some (Some (0x2000000, true, false)).
Proof. vm_compute. reflexivity. Qed.
(** A region of one whole block that is asked read-only can be written. *)
Lemma region_read_only_writable : reached [Create None tt; MapRegion 1 0 0x4000000 ISO_REGION_SIZE Ro None] 1 ISO_USER_VA = Some (Some (0x4000000, true, false)).
Proof. vm_compute. reflexivity. Qed.
(** A block that was mapped page by page and is unmapped as a block loses its page table: when the space
    is gone, one frame is still lent. *)
Lemma block_unmap_loses_table : (λ s, (used_vspaces s, size (pool (src (vm s))))) <$>
  ready [Create None tt; Map 1 0x2000000 ISO_REGION_SIZE Ro None; Unmap 1 0x2000000 ISO_REGION_SIZE; Teardown 1] = Some (0%nat, 1%nat).
Proof. vm_compute. reflexivity. Qed.
(** A page that is mapped in a user's block takes the rest of the block away. *)
Lemma page_takes_block :
  reached [Create None tt; Map 1 0x2000000 ISO_REGION_SIZE Rw None] 1 0x2001000 = Some (Some (0x2001000, true, false)) ∧
  reached [Create None tt; Map 1 0x2000000 ISO_REGION_SIZE Rw None; Map 1 0x2000000 0x1000 Ro None] 1 0x2001000 = Some None.
Proof. vm_compute. split; reflexivity. Qed.
(** What one space unmaps in the image of the kernel is gone in every space. *)
Lemma image_unmapped_everywhere :
  reached [Create None tt; Create None tt] 2 0x200000 = Some (Some (0x200000, false, true)) ∧
  reached [Create None tt; Create None tt; Unmap 1 0x200000 0x1000] 2 0x200000 = Some None.
Proof. vm_compute. split; reflexivity. Qed.
(** A window of a device in the image of the kernel is in every space. *)
Lemma low_window_everywhere :
  reached [Create None tt; Create None tt; MapWindow 1 0x200000 0x1000 false None] 2 0x200000 = Some (Some (0x200000, true, false)).
Proof. vm_compute. reflexivity. Qed.
(** While a space is being created the audit reports a space without tables. *)
Lemma audit_while_creating : (λ x, vspace_audit x.2) <$> reserve None tt demo_boot = Some 3%nat.
Proof. vm_compute. reflexivity. Qed.
(** A guard page is missing in the map of the kernel and present in every other space. *)
Lemma guard_only_global :
  (s ← ready [Create None tt]; '(b, vm') ← guard_unmap 0x1400000 (vm s); l2 ← vspace_l2 s 1;
   Some (b, resolve_global (mem vm') 0x1400000, has (ld (mem vm') l2 (block_index 0x1400000)) P)) = Some (true, None, true).
Proof. vm_compute. reflexivity. Qed.
(** A guard page that is lifted next to another one stays absent. *)
Lemma guard_stays :
  (s ← ready []; '(b1, vm1) ← guard_unmap 0x1400000 (vm s); '(b2, vm2) ← guard_unmap 0x1401000 vm1; '(b3, vm3) ← guard_remap 0x1400000 vm2;
   Some (b1, b2, b3, resolve_global (mem vm3) 0x1400000, guards_live vm3)) = Some (true, true, true, None, 1).
Proof. vm_compute. reflexivity. Qed.
